(* ===== verification/_CoqProject ===== *)
-Q . S2P
Prelude.v
Iterator.v
Bytes.v
Text.v
Float64.v
SortedMap.v
BTree.v
BTreeCore.v
BTreeRemove.v
BTreeBuild.v
BTreeIter.v
PersistentVec.v
Lzss.v
Crc.v
Base64.v
Mvcc.v
Posting.v
Locks.v
Blake3.v
AuditLog.v
Sha256.v
Users.v
UsersOk.v
UsersRoles.v
UsersLogin.v
Hba.v
Scram.v
ScramClient.v
Login.v
Bloom.v
Segment.v
SegmentEncode.v
SegmentRead.v
SegmentFile.v
SegmentBrin.v
Wal.v
WalReplay.v
WalLog.v
WalRecovery.v
WalFollower.v
Wire.v
BigNum.v
BigNumMag.v
BigNumDiv.v
BigNumeric.v
BigNumText.v
BigNumRoot.v
Values.v
CodecIO.v
CodecReads.v
RowCodec.v
RowCodecOk.v
RowRoundtrip.v
RowAccept.v
RowDecode.v
RowLen.v
TypeCodec.v
Heap.v
HeapOps.v
WriteSet.v
Merge.v
MergeOk.v
Tx.v
TxOk.v
TxFold.v
TxSteps.v
TxVacuum.v
TxCommit.v
Transactions.v
TxCases.v
Manifest.v
Server.v
ServerOk.v
ServerCases.v
NumericKey.v
IndexKey.v
ParSort.v
OrderKey.v
OrderBuild.v
TopN.v
