(* ===== verification/Prelude.v ===== *)
(** * SPG: a verification of its storage, concurrency and integrity core

    SPG is a PostgreSQL-compatible database written in Rust without external
    crates.  This development models, function by function, the parts of it
    that carry its own data structures and protocols, and proves what makes
    them correct.  Paths below are relative to the repository.

    ** The program

    A statement reaches crates/spg-server, is parsed by crates/spg-sql and
    executed by crates/spg-engine over the tables of crates/spg-storage.  A
    transaction works on a clone of the catalog; its COMMIT folds what it wrote
    into the catalog of the moment.  A table keeps its rows in a persistent (copy-on-write) vector and its
    secondary indexes in persistent B-trees from keys to posting lists of row
    locators.  Every row has a header of the versions that wrote and deleted
    it; the engine hands out versions, takes snapshots and decides visibility,
    arbitrates row locks and looks for deadlocks.  Cold rows are frozen to
    segment files guarded by a Bloom filter, a checksum and LZSS compression.
    A row, in a segment or in the catalog file, is a NULL bitmap and the bodies
    of its cells, each in the form its column type calls for.
    Every statement that changes data is appended to a write-ahead log and to a
    hash-chained audit log (crates/spg-audit) over the BLAKE3 of crates/spg-crypto, which also holds
    the SHA-256, HMAC, PBKDF2 and Base64 of SCRAM logins.  A CHECKPOINT saves
    the catalog as a snapshot with a manifest (crates/spg-manifest) and empties
    the write-ahead log; a start restores the one and replays the other.

    ** The files

    Shared:
    - Prelude: Rust's [Result], panics as [None], machine words, slices and
      [Vec] operations, tactics.
    - Iterator: a Rust iterator as a state machine, and when it enumerates a
      list.
    - Bytes: integers as bytes in both orders, reads at an offset, UTF-8.
    - Text: splitting, white space and the address parser of the Rust library.
    - Float64: [f64], by the Standard Library's executable specification of
      IEEE 754 at binary64.
    - SortedMap: Rust's [Ord] as the class [OrdKey]; maps as strictly sorted
      association lists (the abstract map of the B-tree, and [BTreeMap] /
      [BTreeSet] wherever the engine uses them).

    crates/spg-storage/src:
    - BTree (definitions), BTreeCore (lookup, predecessor, insertion),
      BTreeRemove (removal), BTreeBuild (bulk build), BTreeIter (iterators):
      persistent_btree.rs.  [btree_refines_sorted_map]: any sequence of
      operations answers what the sorted list answers, never panics, and keeps
      order, depth, occupancy and length.
    - PersistentVec: persistent.rs, the 32-way trie with a tail;
      [vec_refines_list] is the same statement for lists.
    - Posting: row_locator.rs and posting.rs; [posting_refines_list], and the
      wire form of locators both ways.
    - Mvcc: row_header.rs, snapshot.rs, vacuum.rs, and the version bookkeeping
      of crates/spg-engine/src (lib.rs, transaction.rs, execute.rs,
      spg_admin.rs).  The state is a record, the ways it changes a step
      relation; the invariant is proved by induction on reachability.
      [fresh_snapshot_isolates], [frozen_view_stable] and [vacuum_safe] say what readers see; two further theorems exhibit where they do not extend.
    - Bloom: bloom.rs, its sizing in [f64] included; no false negatives, and
      the file round trip.
    - Segment (definitions), SegmentEncode (pages and the writer),
      SegmentRead (the reader on written files), SegmentFile (the theorems) and
      SegmentBrin (page summaries): segment.rs.  [segment_refines_map]: a
      segment answers as the sorted map of its rows; any bytes open or are
      refused without a panic, damage is detected, the envelope is transparent.
    - BigNum (definitions), BigNumMag (magnitudes), BigNumDiv (Knuth's
      Algorithm D), BigNumeric (signed decimals), BigNumText (text),
      BigNumRoot (square root and the theorems): bignum.rs.  Arithmetic,
      division and the square root are exact or correctly rounded and
      terminate, text and [i128] round trip, and [ln_diverges] exhibits the
      values for which the logarithm never returns.
    - Values: the column types and cell values of lib.rs, with the ranges of
      their machine words as [value_ok].
    - CodecIO (the writers and the cursor of codec.rs, a reader monad), CodecReads
      (the law [reads] of a reader on what a writer wrote, and its rules), RowCodec
      (the row codec itself), RowCodecOk (the law for every body and
      for every type), RowRoundtrip, RowDecode (hostile bytes, pruning) and RowLen
      (the byte count): codec.rs.  [row_roundtrip]: a row reads back as its stored
      form, which is the row itself but for the aliases a column type folds
      together; [decode_total], [pruned_decode_agrees], [encoded_len_exact], and
      [cold_numeric_misread] for what a segment makes of a NUMERIC.
    - RowAccept: the validator of table.rs and lib.rs; [validated_row_encodes] is
      its contract with the encoder, and [long_array_stuck] a row it lets through
      that the encoder panics on.
    - TypeCodec: the type tags of codec.rs; [type_roundtrip].
    - NumericKey and IndexKey: the keys of secondary indexes, in lib.rs, and their
      bytes in codec.rs.  [numeric_key_exact]: the canonical decimal key of a
      number, of any width, compares as the number; [index_key_roundtrip]: what a
      key is read back as, and [distinct_keys_collide] for the numbers whose key
      is read back as that of another.
    - Heap (definitions), HeapOps (the shape of a table and of its write track, and
      what each operation does to the rows by row id) and WriteSet
      (write-sets): the rows side of table.rs.  A table is a list of rows with
      headers and row ids; [heap] is the finite map they stand for, and every
      operation is shown to be its update of that map.  [extract_is_scan]: the
      write-set read off the track is the one a scan finds.

    crates/spg-engine/src:
    - Users (definitions), UsersOk (well-formedness, the file form), UsersRoles
      (the closures of role membership, the properties of the table) and
      UsersLogin (what logs in): users.rs.  [logins_follow_last_password]:
      after any role statements every way to authenticate follows the last
      password given; [users_file_roundtrip], [role_closures_exact].
    - Merge (definitions) and MergeOk: folding the write-set of a transaction
      into a fresher catalog, in transaction.rs: the two phases, the conflict
      tests of both isolation levels, and the three-way merge they compute.
      Uniqueness, exclusion, foreign keys and index expressions are the class
      [Constraints], of which nothing is assumed.
    - Tx (definitions), TxOk (row statements on one table, and the invariant of
      an engine), TxFold (rebase and merge), TxSteps
      (each statement keeps the invariant), TxVacuum (what vacuum removes),
      TxCommit (COMMIT), Transactions
      (histories and the theorems) and TxCases (histories that run):
      transaction.rs, the statement dispatch of execute.rs, dml.rs and
      lib.rs, and the autovacuum of spg_admin.rs.  An engine is the base catalog,
      a shadow per open transaction
      with its savepoints, and the versions of Mvcc; a history is a sequence of
      statements by any connections in any order, of passes of the vacuum worker
      and of its switches, the relation [tx_step].
      [reachable_agrees]: all catalogs agree on what each row id is;
      [committed_rows_stay]: no committed row is lost but to a vacuum that finds
      it deleted, and no deletion is;
      [commit_extends_base] and [frozen_commit_merges]: what COMMIT adds, and
      that a frozen view commits as a three-way merge in which the first
      committer wins; [commit_returns]: COMMIT always answers.  A statement of
      [tx_step] is one that [ordinary] admits (no DROP TABLE, CREATE TABLE outside
      transactions, a COMMIT that finds its writes recorded), and physical
      changes are not captured; TxCases shows what happens otherwise:
      histories in which a committed row is lost.
    - ParSort: parsort.rs, with the theory of stable sorts; [parallel_sort_is_sort]:
      the pieces sorted on however many threads, merged, are the stable sort.
    - OrderKey: the keys of ORDER BY in orderby.rs, with the orders of jsonb
      (json.rs) and of collated text (collate.rs).  Keys of one kind are totally
      ordered, in whatever form a text travels; [order_by_sorts]: the sort by
      machine words with its runs settled is the stable sort.  The collator is
      the class [Collator]; the conditions are that a collation that claims byte
      order for digits and small letters has it ([collation_ok]), and that the
      eight bytes of a machine word decide ([windows_decide]).
      [window_misorders]: under sv they do not.
    - OrderBuild: the keys of a row built from its cells (orderby.rs,
      value_to_order_key of select.rs, the MySQL fold of spg-storage), and the
      eight bytes read off a cell instead; [mysql_window_differs].
    - TopN: the scan of select.rs under ORDER BY ... LIMIT.  [top_n_streams]:
      outside a MySQL session and without a collation, with the rows it trims and
      turns away it answers the first rows of the whole sort.
      [mysql_loses_first_row] and [trim_drops_the_answer] exhibit what happens
      with either.
    - Locks: locks.rs; exclusion and acyclicity for any sequence of calls, the
      detector exact and total, and a victim on every cycle.

    crates/spg-crypto/src and crates/spg-audit/src:
    - Lzss: lzss.rs; round trip, total decoding of arbitrary bytes, optimal
      matches.
    - Crc: crc32.rs and crc32c.rs; equality with polynomial division, burst
      detection, the lock-free table initialisation under every interleaving.
    - Base64, Sha256 (sha256.rs, hmac.rs, pbkdf2.rs): round trip; equality with
      FIPS 180-4 (module Fips, which shares nothing with the code's definitions:
      constants from the roots of primes, words bit by bit), with RFC 2104 and
      RFC 8018.
    - Blake3: lib.rs; the NEON compression function equals the scalar one, and
      hashing is total.
    - AuditLog: crates/spg-audit/src/lib.rs, proved against the interface
      [Digest] that Blake3 implements; round trip, canonical files, tamper
      evidence up to a collision, and what truncation hides.

    crates/spg-server/src (and crates/spgctl/src):
    - Hba: hba.rs, the rules file and its decision; [hba_first_line_decides],
      [hba_networks].
    - Scram (definitions) and ScramClient (what an accepted exchange proves, and
      the exchange of an honest client): scram.rs and the
      authentication exchanges of pgwire.rs, over the bytes of the connection.
      [scram_accepts_only_proofs], [client_with_password_accepted].
    - Login: the decision of handle_conn in pgwire.rs between rules, the user
      table and open mode; [login_proves_credential] composes the three above
      with Users, and two lemmas show who else is let in.
    - Wal (definitions), WalReplay (frames and replay's loop), WalLog (what a
      log means), WalRecovery (recovery) and WalFollower (the other readers):
      wal.rs, the boot sequence of main.rs, the follower of replication.rs and
      the offline tools.  The engine is the class [ReplayEngine]; nothing is
      assumed of it.  [log_replays] and [acknowledged_survive]: recovery runs
      exactly what was logged, and over any run of appends, crashes and boots
      keeps what was acknowledged; any bytes replay or are refused, damage
      inside the log is located, the follower ignores how its stream is cut.
      Further theorems exhibit what these do not extend to: damage in a
      length word, a connection's own entries, unknown entries on a follower.
    - Server (definitions), ServerOk (the theorem) and ServerCases (runs that
      break it): a round of the commit leader (wal.rs), what a connection logs
      itself (pgwire.rs), CHECKPOINT write by write (commands.rs), and boot
      (main.rs), over the files as a record.  The engine is the class
      [ServerEngine], of which nothing is assumed but that a snapshot is made of
      bytes.  [restart_restores]: as long as checkpoints run alone, after any
      run of group commits, checkpoints and crashes a boot runs each statement
      acknowledged since the last checkpoint exactly once over its snapshot.  ServerCases puts the engine of Tx behind the log
      and runs the rest: checkpoints beside other work, connections that
      vanish, transactions interleaved in one log.

    crates/spg-manifest/src and crates/spg-wire/src:
    - Manifest: the file that lists the cold segments beside a snapshot;
      [manifest_exact]: the reader accepts exactly what the writer writes.
    - Wire: lib.rs; any sequence of messages survives the wire, partial frames
      ask for more bytes, values read from hostile bytes stay in bounds.

    ** Conventions

    A panic (an index out of range, a failed [expect]) is [None], so a theorem
    that gives [Some] also says that the code does not panic.  An [Arc] is the
    value it points to, and [Arc::make_mut] followed by an edit is the edited
    value: handles taken before keep the old one.  A machine word is a [Z] with
    its wrap-around written out; row counts and lengths, which the code keeps
    in [usize] far below 2^64, are [nat].  Versions never wrap in the code's
    own account and are plain [Z].

    ** Fuel

    Loops that are not structural carry fuel, and [None] also stands for
    running out of it; a theorem shows for each that the fuel given is enough:
    the length of the input for the LZSS, Base64, audit-log, BLAKE3, manifest
    and write-ahead-log loops (each turn consumes at least one byte), the number of versions with edges
    for the cycle search (each is on a path once), the depth or the number of
    entries left for the tree iterators, the height for tree descents.  The
    wire protocol's loops run over declared counts and need none.  Newton's
    square root is given thirty turns a limb (an overestimate halves at every
    turn until it is close), the correction of a quotient digit two, a carry
    three; the series of exp and ln take their fuel as an argument.  Binary
    searches are given the length they search, those by row id too; the folds of
    a commit are structural in the list of touched tables.  The two recursive cell forms,
    ranges of ranges and tsqueries, are given the bytes left and one, since every
    level consumes its tag; [decode_total] shows that it is enough.  The digits of a
    128-bit number are peeled in three chunks and twenty digits, and the pieces of a
    parallel sort merge in at most as many rounds as there are pieces.

    ** What is not modelled

    SQL parsing, planning and execution: the rows and positions a statement
    writes are part of the statement.  Of a table, its secondary indexes, cold
    rows and column DDL; of the catalog, name resolution, the objects that are
    not tables, and its file around the row codec and the index keys.  Of transactions, the row locks (Locks models their table, but a
    statement of Tx does not wait), sequences, roles, settings, cursors,
    triggers and notifications; the VACUUM statement, what capture records, and
    DDL other than CREATE and DROP TABLE.  Of ORDER BY, subqueries, the sorts of
    output columns and the external sort.  The queue
    that forms commit groups, the audit barrier, the mode without a log, logical subscriptions, the query side of the
    PostgreSQL protocol, the MySQL protocol, vector and text indexes, and the accuracy of the series of exp
    and ln.  Process-wide atomics are modelled as sequentially consistent
    steps; the file system is the outcome of each write, truncation and sync. *)
From stdpp Require Export prelude list numbers option strings.
From Stdlib Require Export ZArith Lia.

Declare Scope spg_scope.
Delimit Scope spg_scope with spg.
Create HintDb spg.
Create Rewrite HintDb spg_len.

(** ** Rust's [Result] *)

Inductive result (A E : Type) : Type :=
| Ok (a : A)
| Err (e : E).
Arguments Ok {A E} a.
Arguments Err {A E} e.

Definition rbind {A B E} (r : result A E) (f : A -> result B E) : result B E :=
  match r with Ok a => f a | Err e => Err e end.

(** The [?] operator. *)
Notation "'let?' x ':=' r 'in' k" := (rbind r (fun x => k))
  (at level 10, x pattern, r at level 100, k at level 200) : spg_scope.

(** A panic is [None]: [let! x := e in k] runs [k] unless [e] panicked. *)
Notation "'let!' x ':=' e 'in' k" := (mbind (M:=option) (fun x => k) e)
  (at level 10, x pattern, e at level 100, k at level 200) : spg_scope.

(** A [Result] whose computation may panic. *)
Definition outcome (A E : Type) : Type := option (result A E).

Definition obind {A B E} (m : outcome A E) (f : A -> outcome B E) : outcome B E :=
  match m with
  | None => None
  | Some (Err e) => Some (Err e)
  | Some (Ok a) => f a
  end.

(** [?] inside a body that may also panic. *)
Notation "'let!?' x ':=' m 'in' k" := (obind m (fun x => k))
  (at level 10, x pattern, m at level 100, k at level 200) : spg_scope.

Open Scope spg_scope.

Definition is_ok {A E} (r : result A E) : bool :=
  match r with Ok _ => true | Err _ => false end.

Lemma rbind_ok {A B E} (r : result A E) (f : A -> result B E) b :
  rbind r f = Ok b <-> exists a, r = Ok a /\ f a = Ok b.
Proof.
  destruct r as [a|e]; simpl; split.
  - eauto.
  - intros (a' & [= <-] & H). exact H.
  - discriminate.
  - intros (a' & [=] & _).
Qed.

(** ** Machine words *)

(** A [w]-bit unsigned integer is a [Z] in [0 .. 2^w). *)
Definition in_w (w x : Z) : Prop := (0 <= x < 2 ^ w)%Z.
Abbreviation u8 := (in_w 8) (only parsing).
Abbreviation u16 := (in_w 16) (only parsing).
Abbreviation u32 := (in_w 32) (only parsing).
Abbreviation u64 := (in_w 64) (only parsing).

Definition in_wb (w x : Z) : bool := (0 <=? x)%Z && (x <? 2 ^ w)%Z.

#[export] Instance in_w_dec w x : Decision (in_w w x).
Proof. unfold in_w. apply _. Defined.

Lemma in_wb_spec w x : in_wb w x = true <-> in_w w x.
Proof. unfold in_wb, in_w. rewrite andb_true_iff, Z.leb_le, Z.ltb_lt. done. Qed.

(** Truncation to [w] bits: Rust's [as uW]. *)
Definition wrap (w x : Z) : Z := (x mod 2 ^ w)%Z.

Definition wrapping_add (w x y : Z) : Z := wrap w (x + y).
Definition wrapping_mul (w x y : Z) : Z := wrap w (x * y).

(** Rust's [x << n] on a [w]-bit word: the bits shifted out are lost. *)
Definition shl_w (w x n : Z) : Z := wrap w (Z.shiftl x n).

(** Rust's [x.rotate_right(n)] for [0 <= n < w]. *)
Definition rotate_right (w x n : Z) : Z :=
  Z.lor (Z.shiftr x n) (shl_w w x (w - n)).

(** Rust's [!x] on a [w]-bit word. *)
Definition not_w (w x : Z) : Z := Z.lxor x (2 ^ w - 1).

Lemma wrap_range w x : (0 <= w)%Z -> in_w w (wrap w x).
Proof. intros H. apply Z.mod_pos_bound. by apply Z.pow_pos_nonneg. Qed.

Lemma wrap_id w x : in_w w x -> wrap w x = x.
Proof. intros H. apply Z.mod_small. exact H. Qed.

Lemma in_w_testbit w x :
  (0 <= w)%Z -> (0 <= x)%Z ->
  (forall n, (w <= n)%Z -> Z.testbit x n = false) -> in_w w x.
Proof.
  intros Hw Hx Hb. split; [done|].
  destruct (decide (x = 0)%Z) as [->|Hne]; [by apply Z.pow_pos_nonneg|].
  apply Z.log2_lt_pow2; [lia|].
  destruct (decide (Z.log2 x < w)%Z) as [|Hge]; [done|].
  pose proof (Z.bit_log2 x ltac:(lia)) as Hbit.
  rewrite Hb in Hbit by lia. done.
Qed.

Lemma in_w_high w x n : in_w w x -> (w <= n)%Z -> (0 <= w)%Z -> Z.testbit x n = false.
Proof.
  intros [H0 H1] Hn Hw. rewrite <- (Z.mod_small x (2 ^ w)) by done.
  by apply Z.mod_pow2_bits_high.
Qed.

Lemma in_w_lor w x y : (0 <= w)%Z -> in_w w x -> in_w w y -> in_w w (Z.lor x y).
Proof.
  intros Hw Hx Hy. apply in_w_testbit; [done| |].
  - apply Z.lor_nonneg. split; [apply Hx|apply Hy].
  - intros n Hn. rewrite Z.lor_spec, (in_w_high w x), (in_w_high w y) by done. done.
Qed.

Lemma in_w_lxor w x y : (0 <= w)%Z -> in_w w x -> in_w w y -> in_w w (Z.lxor x y).
Proof.
  intros Hw Hx Hy. apply in_w_testbit; [done| |].
  - apply Z.lxor_nonneg. destruct Hx, Hy. split; done.
  - intros n Hn. rewrite Z.lxor_spec, (in_w_high w x), (in_w_high w y) by done. done.
Qed.

Lemma in_w_land w x y : (0 <= w)%Z -> in_w w x -> (0 <= y)%Z -> in_w w (Z.land x y).
Proof.
  intros Hw Hx Hy. apply in_w_testbit; [done| |].
  - apply Z.land_nonneg. left. apply Hx.
  - intros n Hn. rewrite Z.land_spec, (in_w_high w x) by done. done.
Qed.

Lemma in_w_shiftr w x n : in_w w x -> (0 <= n)%Z -> in_w w (Z.shiftr x n).
Proof.
  intros [H0 H1] Hn. split; [by apply Z.shiftr_nonneg|].
  rewrite Z.shiftr_div_pow2 by done.
  apply Z.le_lt_trans with x; [|done].
  apply Z.div_le_upper_bound; [by apply Z.pow_pos_nonneg|].
  assert (0 < 2 ^ n)%Z by by apply Z.pow_pos_nonneg. nia.
Qed.

Lemma in_w_mono w w' x : in_w w x -> (0 <= w <= w')%Z -> in_w w' x.
Proof.
  intros [H0 H1] Hw. split; [done|].
  apply Z.lt_le_trans with (2 ^ w)%Z; [done|]. apply Z.pow_le_mono_r; lia.
Qed.

(** Packing disjoint bit fields: [hi << n | lo] is [hi * 2^n + lo]. *)
Lemma lor_shiftl_add hi lo n :
  (0 <= n)%Z -> in_w n lo -> Z.lor (Z.shiftl hi n) lo = (hi * 2 ^ n + lo)%Z.
Proof.
  intros Hn Hlo. rewrite <- Z.shiftl_mul_pow2 by done. symmetry. apply Z.add_nocarry_lor.
  apply Z.bits_inj'. intros m Hm. rewrite Z.land_spec, Z.testbit_0_l, Z.shiftl_spec by done.
  destruct (decide (m < n)%Z).
  - by rewrite Z.testbit_neg_r by lia.
  - rewrite (in_w_high n lo) by (done || lia). apply andb_false_r.
Qed.

(** [x & (2^n - 1)] keeps the low [n] bits. *)
Lemma land_low x n : (0 <= n)%Z -> Z.land x (2 ^ n - 1) = (x mod 2 ^ n)%Z.
Proof. intros Hn. rewrite <- Z.land_ones by done. by rewrite Z.ones_equiv, Z.sub_1_r. Qed.

(** A shift that loses no bits. *)
Lemma shl_w_small w x n :
  (0 <= n)%Z -> in_w w (x * 2 ^ n) -> shl_w w x n = Z.shiftl x n.
Proof. intros Hn Hx. unfold shl_w. rewrite Z.shiftl_mul_pow2 by done. by apply wrap_id. Qed.

#[export] Hint Resolve wrap_range in_w_lor in_w_lxor in_w_land in_w_shiftr : spg.
#[export] Hint Extern 1 (0 <= _)%Z => lia : spg.

(** ** Slices *)

(** [buf[off .. off + n]]. *)
Definition slice {A} (off n : nat) (buf : list A) : list A := take n (drop off buf).

Lemma length_slice {A} off n (buf : list A) :
  off + n <= length buf -> length (slice off n buf) = n.
Proof. intros H. unfold slice. rewrite length_take, length_drop. lia. Qed.

Lemma slice_app_skip {A} (pre rest : list A) off n :
  off = length pre -> slice off n (pre ++ rest) = take n rest.
Proof. intros ->. unfold slice. by rewrite drop_app_length. Qed.

Lemma slice_app_exact {A} (pre mid rest : list A) off n :
  off = length pre -> n = length mid -> slice off n (pre ++ mid ++ rest) = mid.
Proof. intros -> ->. rewrite slice_app_skip by done. by rewrite take_app_length. Qed.

Lemma slice_app_head {A} (mid rest : list A) n : n = length mid -> slice 0 n (mid ++ rest) = mid.
Proof. by apply (slice_app_exact []). Qed.

Lemma slice_slice {A} (l : list A) a n m : slice a n l ++ slice (a + n) m l = slice a (n + m) l.
Proof. unfold slice. by rewrite <- drop_drop, take_take_drop. Qed.

(** [dst[off .. off + src.len()].copy_from_slice(src)]. *)
Definition splice {A} (off : nat) (src dst : list A) : list A :=
  take off dst ++ src ++ drop (off + length src) dst.

Lemma length_splice {A} off (src dst : list A) :
  off + length src <= length dst -> length (splice off src dst) = length dst.
Proof. intros H. unfold splice. rewrite !length_app, length_take, length_drop. lia. Qed.

(** ** Counted loops *)

(** [for i in 0..n] as a fold, by its invariant. *)
Lemma fold_seq_ind {St} (f : St -> nat -> St) (P : nat -> St -> Prop) n s :
  P 0 s -> (forall i s, i < n -> P i s -> P (S i) (f s i)) -> P n (fold_left f (seq 0 n) s).
Proof.
  intros H0 Hf. induction n as [|n IH]; [done|].
  rewrite seq_S, fold_left_app. cbn. apply Hf; [lia|]. apply IH. intros i t Hi. apply Hf. lia.
Qed.

(** ** [Vec] operations

    [None] is the panic of an index out of range. *)
Section Vec.
Context {A : Type}.
Implicit Types l : list A.

(** [v.insert(i, x)] *)
Definition vec_insert (i : nat) (x : A) (l : list A) : option (list A) :=
  if i <=? length l then Some (take i l ++ x :: drop i l) else None.

(** [v.remove(i)]: the removed element and the vector left. *)
Definition vec_remove (i : nat) (l : list A) : option (A * list A) :=
  x ← l !! i; Some (x, take i l ++ drop (S i) l).

(** [v[i] = x] *)
Definition vec_set (i : nat) (x : A) (l : list A) : option (list A) :=
  if i <? length l then Some (take i l ++ x :: drop (S i) l) else None.

(** [v.split_off(i)]: what stays and what is split off. *)
Definition vec_split_off (i : nat) (l : list A) : option (list A * list A) :=
  if i <=? length l then Some (take i l, drop i l) else None.

(** [v.pop()], its [None] the empty vector. *)
Definition vec_pop (l : list A) : option (A * list A) :=
  x ← last l; Some (x, take (length l - 1) l).

Lemma vec_insert_app l1 l2 x i : i = length l1 -> vec_insert i x (l1 ++ l2) = Some (l1 ++ x :: l2).
Proof.
  intros ->. unfold vec_insert. rewrite length_app, (proj2 (Nat.leb_le _ _)) by lia.
  by rewrite take_app_length, drop_app_length.
Qed.

Lemma vec_remove_app l1 l2 x i : i = length l1 -> vec_remove i (l1 ++ x :: l2) = Some (x, l1 ++ l2).
Proof.
  intros ->. unfold vec_remove. rewrite list_lookup_middle by done. cbn.
  rewrite take_app_length. by rewrite (cons_middle x), (app_assoc l1), drop_app_length' by (rewrite length_app; simpl; lia).
Qed.

Lemma vec_set_app l1 l2 x y i : i = length l1 -> vec_set i y (l1 ++ x :: l2) = Some (l1 ++ y :: l2).
Proof.
  intros ->. unfold vec_set. rewrite length_app, (proj2 (Nat.ltb_lt _ _)) by (simpl; lia).
  rewrite take_app_length. by rewrite (cons_middle x), (app_assoc l1), drop_app_length' by (rewrite length_app; simpl; lia).
Qed.

Lemma vec_set_insert i x l : i < length l -> vec_set i x l = Some (<[i := x]> l).
Proof. intros H. unfold vec_set. rewrite (proj2 (Nat.ltb_lt _ _)) by done. by rewrite insert_take_drop. Qed.

Lemma vec_split_off_app l1 l2 i : i = length l1 -> vec_split_off i (l1 ++ l2) = Some (l1, l2).
Proof.
  intros ->. unfold vec_split_off. rewrite length_app, (proj2 (Nat.leb_le _ _)) by lia.
  by rewrite take_app_length, drop_app_length.
Qed.

Lemma vec_pop_snoc l x : vec_pop (l ++ [x]) = Some (x, l).
Proof.
  unfold vec_pop. rewrite last_snoc. cbn. by rewrite length_app, Nat.add_sub, take_app_length.
Qed.

Lemma vec_insert_0 x l : vec_insert 0 x l = Some (x :: l).
Proof. done. Qed.

Lemma vec_remove_0 x l : vec_remove 0 (x :: l) = Some (x, l).
Proof. unfold vec_remove. cbn. by rewrite drop_0. Qed.

Lemma filter_keep (P : A -> Prop) `{!forall x, Decision (P x)} l : Forall P l -> filter P l = l.
Proof. induction 1 as [|x l Hx _ IH]; [done|]. by rewrite filter_cons_True, IH. Qed.

Lemma filter_drop_all (P : A -> Prop) `{!forall x, Decision (P x)} l :
  Forall (fun x => ~ P x) l -> filter P l = [].
Proof. induction 1 as [|x l Hx _ IH]; [done|]. by rewrite filter_cons_False, IH. Qed.

(** Cutting a list at a valid index. *)
Lemma cut_at l i : i <= length l -> exists l1 l2, l = l1 ++ l2 /\ length l1 = i.
Proof. intros H. exists (take i l), (drop i l). by rewrite take_drop, length_take, Nat.min_l. Qed.

Lemma cut_lookup l i x : l !! i = Some x -> exists l1 l2, l = l1 ++ x :: l2 /\ length l1 = i.
Proof.
  intros H. exists (take i l), (drop (S i) l). rewrite take_drop_middle by done.
  split; [done|]. apply length_take_le. apply lookup_lt_Some in H. lia.
Qed.

Lemma cut_last l : l <> [] -> exists l1 x, l = l1 ++ [x].
Proof. destruct l as [|x l _] using rev_ind; [done|]. eauto. Qed.
End Vec.

(** ** Recursion into children *)

(** [f(&children[i])]: the way down for recursion through a vector of
    children, written so that the recursive call is structural. *)
Section AtChild.
Context {T A : Type} (f : T -> A).
Fixpoint at_child (children : list T) (i : nat) : option A :=
  match children, i with
  | [], _ => None
  | c :: _, O => Some (f c)
  | _ :: children, S i => at_child children i
  end.
End AtChild.

Lemma at_child_lookup {T A} (f : T -> A) (xs : list T) i : at_child f xs i = f <$> xs !! i.
Proof. revert i; induction xs; intros [|i]; cbn; auto. Qed.

Lemma at_child_mid {T A} (f : T -> A) (xs1 xs2 : list T) x i :
  i = length xs1 -> at_child f (xs1 ++ x :: xs2) i = Some (f x).
Proof. intros ->. by rewrite at_child_lookup, list_lookup_middle. Qed.

(** ** Tactics *)

(** Split every conjunction and existential in the context, then substitute. *)
Ltac unpack :=
  repeat match goal with
  | H : _ /\ _ |- _ => destruct H
  | H : exists _, _ |- _ => destruct H
  | H : Ok _ = Ok _ |- _ => injection H as ?
  | H : Some _ = Some _ |- _ => injection H as ?
  | H : (_, _) = (_, _) |- _ => injection H as ?
  end; subst.

(** Turn boolean comparisons in the context into propositions. *)
Ltac prop_bools :=
  repeat match goal with
  | H : (_ <? _)%Z = true |- _ => apply Z.ltb_lt in H
  | H : (_ <? _)%Z = false |- _ => apply Z.ltb_ge in H
  | H : (_ <=? _)%Z = true |- _ => apply Z.leb_le in H
  | H : (_ <=? _)%Z = false |- _ => apply Z.leb_gt in H
  | H : (_ =? _)%Z = true |- _ => apply Z.eqb_eq in H
  | H : (_ =? _)%Z = false |- _ => apply Z.eqb_neq in H
  | H : (_ <? _)%nat = true |- _ => apply Nat.ltb_lt in H
  | H : (_ <? _)%nat = false |- _ => apply Nat.ltb_ge in H
  | H : (_ <=? _)%nat = true |- _ => apply Nat.leb_le in H
  | H : (_ <=? _)%nat = false |- _ => apply Nat.leb_gt in H
  | H : (_ =? _)%nat = true |- _ => apply Nat.eqb_eq in H
  | H : (_ =? _)%nat = false |- _ => apply Nat.eqb_neq in H
  | H : _ && _ = true |- _ => apply andb_true_iff in H as [? ?]
  | H : _ || _ = false |- _ => apply orb_false_iff in H as [? ?]
  | H : negb _ = true |- _ => apply negb_true_iff in H
  | H : negb _ = false |- _ => apply negb_false_iff in H
  end.

(** Case on the first [if]/[match] scrutinee of the goal, keeping the equation. *)
Ltac case_if :=
  match goal with
  | |- context [if ?b then _ else _] => destruct b eqn:?; prop_bools
  end.

(** Rewrite the next step of a panicking computation and feed its value on. *)
Tactic Notation "run" uconstr(lem) := rewrite lem by done; cbn [mbind option_bind].

Ltac zdm := Z.div_mod_to_equations; lia.
