(* ===== verification/Iterator.v ===== *)
(** Rust iterators as state machines: the loop inside a [next], collecting an
    iterator, and what makes a machine an iterator over a list. *)
From S2P Require Import Prelude.
Open Scope nat_scope.

(** One turn of the [loop] inside [next]. *)
Inductive turn (S E : Type) : Type :=
| Finished
| Yield (e : E) (s : S)
| Continue (s : S).
Arguments Finished {S E}.
Arguments Yield {S E} e s.
Arguments Continue {S E} s.

Section Machine.
Context {S E : Type} (turn_fn : S -> option (turn S E)).

(** The [loop] of [next]: the item, if any, and the state left. *)
Fixpoint next_loop (fuel : nat) (s : S) : option (option E * S) :=
  match fuel with
  | O => None
  | Datatypes.S fuel =>
    let! t := turn_fn s in
    match t with
    | Finished => Some (None, s)
    | Yield e s => Some (Some e, s)
    | Continue s => next_loop fuel s
    end
  end.

(** [iter.collect()]: calls [next] until it answers [None]. *)
Fixpoint collect (next : S -> option (option E * S)) (n : nat) (s : S) : option (list E) :=
  match n with
  | O => None
  | Datatypes.S n =>
    let! (item, s) := next s in
    match item with
    | None => Some []
    | Some e => let! rest := collect next n s in Some (e :: rest)
    end
  end.

(** What makes a machine an iterator over a list: [denote] is what is still
    to come, [weight] the turns left. *)
Context (valid : S -> Prop) (denote : S -> list E) (weight : S -> nat).

Definition turn_ok (s : S) : Prop :=
  match turn_fn s with
  | None => False
  | Some Finished => denote s = []
  | Some (Yield e s') => denote s = e :: denote s' /\ weight s' < weight s /\ valid s'
  | Some (Continue s') => denote s = denote s' /\ weight s' < weight s /\ valid s'
  end.

Context (Hturn : forall s, valid s -> turn_ok s).

Lemma next_loop_spec fuel s :
  valid s -> weight s < fuel ->
  match denote s with
  | [] => exists s', next_loop fuel s = Some (None, s')
  | e :: l => exists s', next_loop fuel s = Some (Some e, s') /\ denote s' = l /\ valid s' /\ weight s' < weight s
  end.
Proof using Hturn.
  revert s; induction fuel as [|fuel IH]; intros s Hv Hf; [lia|]. cbn [next_loop].
  pose proof (Hturn s Hv) as H. unfold turn_ok in H. destruct (turn_fn s) as [[|e s'|s']|]; [..|done];
    cbn [mbind option_bind].
  - rewrite H. eauto.
  - destruct H as (-> & ? & ?). eauto.
  - destruct H as (-> & Hw & Hv'). specialize (IH s' Hv' ltac:(lia)).
    destruct (denote s') as [|e l]; [done|]. destruct IH as (s'' & ? & ? & ? & ?).
    exists s''. split_and!; [done..|lia].
Qed.

End Machine.

(** A [next] that gives the elements of [denote] in order collects to it. *)
Section Collect.
Context {S E : Type} (next : S -> option (option E * S)) (valid : S -> Prop) (denote : S -> list E).

Definition next_ok (s : S) : Prop :=
  match denote s with
  | [] => exists s', next s = Some (None, s')
  | e :: l => exists s', next s = Some (Some e, s') /\ denote s' = l /\ valid s'
  end.

Context (Hnext : forall s, valid s -> next_ok s).

Lemma collect_spec l s : valid s -> denote s = l -> collect next (Datatypes.S (length l)) s = Some l.
Proof using Hnext.
  revert s; induction l as [|e l IH]; intros s Hv E'; pose proof (Hnext s Hv) as H;
    unfold next_ok in H; rewrite E' in H; cbn [collect length].
  - destruct H as (s' & ->). done.
  - destruct H as (s' & -> & Hd & Hv'). cbn [mbind option_bind].
    specialize (IH s' Hv' Hd). cbn [collect] in IH. by rewrite IH.
Qed.
End Collect.
