(* ===== verification/Bytes.v ===== *)
(** Byte strings as [list Z]: Rust's [to_le_bytes]/[from_le_bytes] and their
    big-endian twins, their round trips, and [core::str::from_utf8]'s check. *)
From S2P Require Import Prelude.
Open Scope Z_scope.

Definition is_bytes (bs : list Z) : Prop := Forall u8 bs.

(** ** Integers as bytes *)

(** [w.to_le_bytes()] of an [8*n]-bit word. *)
Fixpoint le_bytes (n : nat) (w : Z) : list Z :=
  match n with
  | O => []
  | S n => w mod 256 :: le_bytes n (w / 256)
  end.

(** [uN::from_le_bytes(bs)]. *)
Fixpoint le_val (bs : list Z) : Z :=
  match bs with
  | [] => 0
  | b :: bs => b + 256 * le_val bs
  end.

Definition be_bytes (n : nat) (w : Z) : list Z := rev (le_bytes n w).
Definition be_val (bs : list Z) : Z := le_val (rev bs).

(** The value a two's complement [w]-bit word stands for ([as iW]). *)
Definition signed (w x : Z) : Z := if x <? 2 ^ (w - 1) then x else x - 2 ^ w.

Lemma length_le_bytes n w : length (le_bytes n w) = n.
Proof. revert w; induction n; intros; simpl; auto. Qed.

Lemma length_be_bytes n w : length (be_bytes n w) = n.
Proof. unfold be_bytes. by rewrite length_rev, length_le_bytes. Qed.

Lemma le_bytes_bytes n w : is_bytes (le_bytes n w).
Proof.
  revert w; induction n; intros w; simpl; constructor; [|apply IHn].
  apply Z.mod_pos_bound. lia.
Qed.

Lemma be_bytes_bytes n w : is_bytes (be_bytes n w).
Proof. unfold be_bytes, is_bytes. apply Forall_rev, le_bytes_bytes. Qed.

Lemma le_val_bound bs : is_bytes bs -> 0 <= le_val bs < 2 ^ (8 * Z.of_nat (length bs)).
Proof.
  induction 1 as [|b bs Hb Hbs IH]; [simpl; lia|].
  cbn [length le_val]. replace (8 * Z.of_nat (S (length bs))) with (8 + 8 * Z.of_nat (length bs)) by lia.
  rewrite Z.pow_add_r by lia. destruct Hb. change (2 ^ 8) with 256 in *. nia.
Qed.

Lemma le_val_le_bytes n w : le_val (le_bytes n w) = w mod 2 ^ (8 * Z.of_nat n).
Proof.
  revert w; induction n as [|n IH]; intros w; cbn [le_bytes le_val].
  - rewrite Z.mod_1_r. done.
  - rewrite IH. replace (8 * Z.of_nat (S n)) with (8 + 8 * Z.of_nat n) by lia.
    rewrite Z.pow_add_r, Z.rem_mul_r by lia. done.
Qed.

Lemma le_bytes_le_val bs : is_bytes bs -> le_bytes (length bs) (le_val bs) = bs.
Proof.
  induction 1 as [|b bs Hb Hbs IH]; [done|].
  cbn [length le_bytes le_val]. destruct Hb. change (2 ^ 8) with 256 in *. f_equal.
  - rewrite Z.mul_comm, Z.mod_add by lia. apply Z.mod_small. lia.
  - rewrite Z.mul_comm, Z.div_add, Z.div_small by lia. done.
Qed.

Lemma le_bytes_le_val_n n bs : length bs = n -> is_bytes bs -> le_bytes n (le_val bs) = bs.
Proof. intros <-. apply le_bytes_le_val. Qed.

(** Two's complement and back. *)
Lemma signed_wrap w n : 1 <= w -> - 2 ^ (w - 1) <= n < 2 ^ (w - 1) -> signed w (wrap w n) = n.
Proof.
  intros Hw Hn. unfold signed, wrap.
  assert (H2 : 2 ^ w = 2 * 2 ^ (w - 1)) by (rewrite <- Z.pow_succ_r by lia; f_equal; lia).
  destruct (decide (0 <= n)) as [H|H].
  - rewrite Z.mod_small by lia. by rewrite (proj2 (Z.ltb_lt _ _)) by lia.
  - replace (n mod 2 ^ w) with (n + 2 ^ w); [rewrite (proj2 (Z.ltb_ge _ _)) by lia; lia|].
    apply Z.mod_unique with (-1); lia.
Qed.

(** The round trip at a given width. *)
Lemma le_val_le_bytes_id n w : in_w (8 * Z.of_nat n) w -> le_val (le_bytes n w) = w.
Proof. intros H. rewrite le_val_le_bytes. by apply Z.mod_small. Qed.

Lemma be_val_be_bytes n w : be_val (be_bytes n w) = w mod 2 ^ (8 * Z.of_nat n).
Proof. unfold be_val, be_bytes. rewrite rev_involutive. apply le_val_le_bytes. Qed.

Lemma be_bytes_be_val bs : is_bytes bs -> be_bytes (length bs) (be_val bs) = bs.
Proof.
  intros H. unfold be_val, be_bytes. rewrite <- (length_rev bs), le_bytes_le_val.
  - apply rev_involutive.
  - by apply Forall_rev.
Qed.

Lemma le_bytes_inj n x y :
  in_w (8 * Z.of_nat n) x -> in_w (8 * Z.of_nat n) y -> le_bytes n x = le_bytes n y -> x = y.
Proof.
  intros Hx Hy E. rewrite <- (le_val_le_bytes_id n x), <- (le_val_le_bytes_id n y) by done.
  by rewrite E.
Qed.

(** ** Reading at an offset *)

(** [uN::from_le_bytes([bytes[off], ..])]: an index out of range panics. *)
Definition index_le (n off : nat) (bytes : list Z) : option Z :=
  if (off + n <=? length bytes)%nat then Some (le_val (slice off n bytes)) else None.

(** [&bytes[a..b]]: a range out of order or out of range panics. *)
Definition subslice {A} (a b : nat) (bytes : list A) : option (list A) :=
  if (a <=? b)%nat && (b <=? length bytes)%nat then Some (slice a (b - a) bytes) else None.

Lemma index_le_in n off bs : (off + n <= length bs)%nat -> index_le n off bs = Some (le_val (slice off n bs)).
Proof. intros H. unfold index_le. by apply Nat.leb_le in H as ->. Qed.

(** A field written at its place is read back. *)
Lemma index_le_field n off x pre post bs :
  bs = pre ++ le_bytes n x ++ post -> off = length pre -> in_w (8 * Z.of_nat n) x -> index_le n off bs = Some x.
Proof.
  intros -> -> H. rewrite index_le_in by (rewrite !length_app, length_le_bytes; lia).
  rewrite slice_app_exact by (rewrite ?length_le_bytes; done). by rewrite le_val_le_bytes_id.
Qed.

Lemma subslice_in {A} a b (bs : list A) : (a <= b)%nat -> (b <= length bs)%nat -> subslice a b bs = Some (slice a (b - a) bs).
Proof. intros H1 H2. unfold subslice. apply Nat.leb_le in H1 as ->. by apply Nat.leb_le in H2 as ->. Qed.

Lemma subslice_field {A} a b (mid pre post bs : list A) :
  bs = pre ++ mid ++ post -> a = length pre -> b = (a + length mid)%nat -> subslice a b bs = Some mid.
Proof.
  intros -> -> ->. rewrite subslice_in by (rewrite ?length_app; lia). f_equal.
  apply slice_app_exact; lia.
Qed.

(** An array of fixed-width records, cut at one of them. *)
Lemma length_concat_map {A} (enc : A -> list Z) w xs : (forall x, length (enc x) = w) -> length (concat (map enc xs)) = (length xs * w)%nat.
Proof. intros Hw. induction xs as [|x xs IH]; [done|]. cbn [map concat length]. rewrite length_app, Hw, IH. lia. Qed.

Lemma concat_map_field {A} (enc : A -> list Z) w xs i x :
  (forall x, length (enc x) = w) -> xs !! i = Some x ->
  exists pre post, concat (map enc xs) = pre ++ enc x ++ post /\ length pre = (i * w)%nat.
Proof.
  intros Hw Hi. exists (concat (map enc (take i xs))), (concat (map enc (drop (S i) xs))). split.
  - rewrite <- (take_drop_middle xs i x Hi) at 1. by rewrite map_app, concat_app.
  - rewrite (length_concat_map enc w) by done. apply lookup_lt_Some in Hi. rewrite length_take. f_equal. lia.
Qed.

Lemma is_bytes_concat_map {A} (enc : A -> list Z) xs : (forall x, is_bytes (enc x)) -> is_bytes (concat (map enc xs)).
Proof. intros H. induction xs as [|x xs IH]; [constructor|]. cbn [map concat]. apply Forall_app. split; [apply H|done]. Qed.

Lemma is_bytes_app xs ys : is_bytes (xs ++ ys) <-> is_bytes xs /\ is_bytes ys.
Proof. apply Forall_app. Qed.

Lemma is_bytes_take n bs : is_bytes bs -> is_bytes (take n bs).
Proof. apply Forall_take. Qed.

Lemma is_bytes_drop n bs : is_bytes bs -> is_bytes (drop n bs).
Proof. apply Forall_drop. Qed.

Lemma is_bytes_slice off n bs : is_bytes bs -> is_bytes (slice off n bs).
Proof. intros H. by apply is_bytes_take, is_bytes_drop. Qed.

#[export] Hint Resolve le_bytes_bytes be_bytes_bytes is_bytes_take is_bytes_drop is_bytes_slice : spg.
#[export] Hint Rewrite length_le_bytes length_be_bytes : spg_len.

(** ** UTF-8 *)

(** [b] is a continuation byte in [lo ..= hi]. *)
Definition cont (lo hi b : Z) : bool := (lo <=? b) && (b <=? hi).

(** The well-formed sequences of the Unicode standard (table 3-7), which is
    what [core::str::from_utf8] accepts: [utf8_head bs] is the length of the
    sequence [bs] starts with. *)
Definition utf8_head (bs : list Z) : option nat :=
  match bs with
  | b0 :: t =>
    if b0 <? 0x80 then Some 1%nat
    else if cont 0xC2 0xDF b0 then
      match t with b1 :: _ => if cont 0x80 0xBF b1 then Some 2%nat else None | _ => None end
    else if cont 0xE0 0xEF b0 then
      let lo := if b0 =? 0xE0 then 0xA0 else 0x80 in
      let hi := if b0 =? 0xED then 0x9F else 0xBF in
      match t with
      | b1 :: b2 :: _ => if cont lo hi b1 && cont 0x80 0xBF b2 then Some 3%nat else None
      | _ => None
      end
    else if cont 0xF0 0xF4 b0 then
      let lo := if b0 =? 0xF0 then 0x90 else 0x80 in
      let hi := if b0 =? 0xF4 then 0x8F else 0xBF in
      match t with
      | b1 :: b2 :: b3 :: _ =>
        if cont lo hi b1 && cont 0x80 0xBF b2 && cont 0x80 0xBF b3 then Some 4%nat else None
      | _ => None
      end
    else None
  | [] => None
  end.

(** Every step consumes at least one byte, so [length bs] steps suffice. *)
Fixpoint utf8_go (fuel : nat) (bs : list Z) : bool :=
  match bs, fuel with
  | [], _ => true
  | _, O => false
  | _, S fuel =>
    match utf8_head bs with
    | Some n => utf8_go fuel (drop n bs)
    | None => false
    end
  end.

Definition utf8_valid (bs : list Z) : bool := utf8_go (length bs) bs.

(** A Rust [String]: valid UTF-8 bytes. *)
Definition is_str (s : list Z) : Prop := is_bytes s /\ utf8_valid s = true.

#[export] Instance is_str_dec s : Decision (is_str s).
Proof. unfold is_str, is_bytes. apply _. Defined.

Lemma utf8_ascii s : Forall (fun b => 0 <= b < 0x80) s -> utf8_valid s = true.
Proof.
  unfold utf8_valid. induction 1 as [|b s Hb Hs IH]; [done|].
  cbn [length utf8_go utf8_head].
  assert (b <? 0x80 = true) as -> by (apply Z.ltb_lt; lia). done.
Qed.

(** [from_utf8(bs)]: the same bytes, or the error. *)
Definition from_utf8 {E} (bs : list Z) (e : E) : result (list Z) E :=
  if utf8_valid bs then Ok bs else Err e.

Lemma from_utf8_str {E} s (e : E) : is_str s -> from_utf8 s e = Ok s.
Proof. intros [_ H]. unfold from_utf8. by rewrite H. Qed.

(** ** Text *)

(** The bytes of an ASCII literal. *)
Definition lit (s : string) : list Z := map (fun c => Z.of_N (Ascii.N_of_ascii c)) (String.list_ascii_of_string s).

(** [str::to_ascii_lowercase] and [str::eq_ignore_ascii_case]. *)
Definition lower_byte (b : Z) : Z := if (65 <=? b) && (b <=? 90) then b + 32 else b.
Definition to_ascii_lowercase (s : list Z) : list Z := map lower_byte s.
Definition eq_ignore_ascii_case (a b : list Z) : bool := bool_decide (to_ascii_lowercase a = to_ascii_lowercase b).

(** [n.to_string()] of a [u32], which has at most ten digits. *)
Fixpoint digits_of (fuel : nat) (n : Z) (s : list Z) : list Z :=
  match fuel with
  | O => s
  | S fuel =>
    let s := (48 + n mod 10) :: s in
    if n / 10 =? 0 then s else digits_of fuel (n / 10) s
  end.

Definition to_string (n : Z) : list Z := digits_of 10 n [].

(** [s.split_once(c)] *)
Fixpoint split_once (c : Z) (s : list Z) : option (list Z * list Z) :=
  match s with
  | [] => None
  | d :: s => if d =? c then Some ([], s) else let! (l, r) := split_once c s in Some (d :: l, r)
  end.

Definition is_ascii_digit (c : Z) : bool := (48 <=? c) && (c <=? 57).
