(* ===== verification/Text.v ===== *)
(** The text functions of Rust's standard library that the parsers use, on the
    UTF-8 bytes of a string: searching, splitting, trimming, and the parser of
    IP addresses (core::net). *)
From S2P Require Import Prelude Bytes.
Open Scope Z_scope.

(** Decidable facts of closed terms. *)
Ltac by_deciding := match goal with |- ?P => exact (bool_decide_unpack P ltac:(vm_compute; exact I)) end.

(** ** Searching and splitting *)

Definition starts_with (p s : list Z) : bool := bool_decide (take (length p) s = p).

(** [s.strip_prefix(p)] *)
Definition strip_str (p s : list Z) : option (list Z) := if starts_with p s then Some (drop (length p) s) else None.

(** [s.find(c)] *)
Fixpoint find_byte (c : Z) (s : list Z) : option nat :=
  match s with
  | [] => None
  | x :: s => if x =? c then Some O else let! i := find_byte c s in Some (S i)
  end.

(** [s.rfind(p)] for a nonempty [p]. *)
Fixpoint rfind (p s : list Z) : option nat :=
  match s with
  | [] => None
  | _ :: s' => match rfind p s' with Some i => Some (S i) | None => if starts_with p s then Some O else None end
  end.

(** [s.split(c)] *)
Fixpoint split (c : Z) (s : list Z) : list (list Z) :=
  match s with
  | [] => [[]]
  | x :: s =>
    if x =? c then [] :: split c s
    else match split c s with w :: ws => (x :: w) :: ws | [] => [[x]] end
  end.

(** [text.lines()]: no empty line after the last terminator, and a carriage
    return before a terminator goes with it. *)
Definition strip_cr (l : list Z) : list Z := match rev l with 13 :: r => rev r | _ => l end.

Fixpoint terminated (ls : list (list Z)) : list (list Z) :=
  match ls with
  | [] => []
  | [l] => match l with [] => [] | _ => [l] end
  | l :: ls => strip_cr l :: terminated ls
  end.

Definition lines (text : list Z) : list (list Z) := terminated (split 10 text).

(** The bytes of the white space character at the head, if there is one:
    Unicode's White_Space in UTF-8. *)
Definition ws_head (s : list Z) : option nat :=
  match s with
  | b0 :: rest =>
    if ((9 <=? b0) && (b0 <=? 13)) || (b0 =? 32) then Some 1%nat
    else match rest with
    | b1 :: rest2 =>
      if (b0 =? 0xC2) && ((b1 =? 0x85) || (b1 =? 0xA0)) then Some 2%nat
      else match rest2 with
      | b2 :: _ =>
        if (b0 =? 0xE1) && (b1 =? 0x9A) && (b2 =? 0x80) then Some 3%nat
        else if (b0 =? 0xE2) && (b1 =? 0x80) && (((0x80 <=? b2) && (b2 <=? 0x8A)) || (b2 =? 0xA8) || (b2 =? 0xA9) || (b2 =? 0xAF)) then Some 3%nat
        else if (b0 =? 0xE2) && (b1 =? 0x81) && (b2 =? 0x9F) then Some 3%nat
        else if (b0 =? 0xE3) && (b1 =? 0x80) && (b2 =? 0x80) then Some 3%nat
        else None
      | [] => None
      end
    | [] => None
    end
  | [] => None
  end.

(** [s.split_whitespace()]: [skip] bytes of a white space character are still
    to be passed over, [w] is the word being read, last byte first. *)
Fixpoint words_go (skip : nat) (w : list Z) (s : list Z) : list (list Z) :=
  let emit := match w with [] => [] | _ => [rev w] end in
  match s with
  | [] => emit
  | x :: s' =>
    match skip with
    | S skip => words_go skip w s'
    | O =>
      match ws_head s with
      | Some n => emit ++ words_go (n - 1) [] s'
      | None => words_go 0 (x :: w) s'
      end
    end
  end.

Definition split_whitespace (s : list Z) : list (list Z) := words_go 0 [] s.

(** [bits.parse::<u8>().ok()] *)
Definition parse_u8 (s : list Z) : option Z :=
  let digits := match s with c :: (_ :: _) as rest => if c =? 43 then rest else s | _ => s end in
  match digits with
  | [] => None
  | _ =>
    if forallb is_ascii_digit digits then
      let n := fold_left (fun n c => n * 10 + (c - 48)) digits 0 in
      if n <? 2 ^ 8 then Some n else None
    else None
  end.

(** ** IP addresses *)

Inductive IpAddr : Type :=
| V4 (bits : Z)
| V6 (bits : Z).

#[export] Instance IpAddr_eq_dec : EqDecision IpAddr.
Proof. solve_decision. Defined.

(** [c.to_digit(radix)] *)
Definition to_digit (radix c : Z) : option Z :=
  let d := if (48 <=? c) && (c <=? 57) then Some (c - 48)
           else if (97 <=? c) && (c <=? 122) then Some (c - 87)
           else if (65 <=? c) && (c <=? 90) then Some (c - 55) else None in
  match d with Some d => if d <? radix then Some d else None | None => None end.

(** The parser's state is the input left; a failed read gives it back. *)
Definition parser (A : Type) : Type := list Z -> option (A * list Z).

Definition read_given (c : Z) : parser () :=
  fun s => match s with x :: s => if x =? c then Some (tt, s) else None | [] => None end.

(** The digits at the head, at most [max] of them of a value up to [top]. *)
Fixpoint read_digits (radix top : Z) (max : nat) (count : nat) (n : Z) (s : list Z) : option (Z * nat * list Z) :=
  match s with
  | [] => Some (n, count, s)
  | x :: s' =>
    match to_digit radix x with
    | None => Some (n, count, s)
    | Some d =>
      if top <? n * radix + d then None
      else if (max <? count + 1)%nat then None
      else read_digits radix top max (count + 1) (n * radix + d) s'
    end
  end.

Definition read_number (radix top : Z) (max : nat) (allow_zero_prefix : bool) : parser Z :=
  fun s =>
    let has_leading_zero := match s with x :: _ => x =? 48 | [] => false end in
    let! (n, count, rest) := read_digits radix top max 0 0 s in
    if (count =? 0)%nat then None
    else if negb allow_zero_prefix && has_leading_zero && (1 <? count)%nat then None
    else Some (n, rest).

Definition read_separator {A} (sep : Z) (index : nat) (inner : parser A) : parser A :=
  fun s => if (0 <? index)%nat then let! (_, s) := read_given sep s in inner s else inner s.

Definition read_ipv4 : parser Z :=
  fun s =>
    let octet i := read_separator 46 i (read_number 10 255 3 false) in
    let! (a, s) := octet 0%nat s in
    let! (b, s) := octet 1%nat s in
    let! (c, s) := octet 2%nat s in
    let! (d, s) := octet 3%nat s in
    Some (a * 2 ^ 24 + b * 2 ^ 16 + c * 2 ^ 8 + d, s).

(** Groups [i] and up to [limit]; whether they ended in an IPv4 address. *)
Fixpoint read_groups (slots : nat) (limit i : nat) (groups : list Z) (s : list Z) : list Z * bool * list Z :=
  match slots with
  | O => (groups, false, s)
  | S slots =>
    let v4 := if (i <? limit - 1)%nat then read_separator 58 i read_ipv4 s else None in
    match v4 with
    | Some (a, s) => (groups ++ [a / 2 ^ 16; a mod 2 ^ 16], true, s)
    | None =>
      match read_separator 58 i (read_number 16 0xFFFF 4 true) s with
      | Some (g, s) => read_groups slots limit (i + 1) (groups ++ [g]) s
      | None => (groups, false, s)
      end
    end
  end.

Definition of_groups (gs : list Z) : Z := fold_left (fun n g => n * 2 ^ 16 + g) gs 0.

Definition read_ipv6 : parser Z :=
  fun s =>
    let '(head, head_v4, s) := read_groups 8 8 0 [] s in
    if (length head =? 8)%nat then Some (of_groups head, s)
    else if head_v4 then None
    else
      let! (_, s) := read_given 58 s in
      let! (_, s) := read_given 58 s in
      let limit := (8 - (length head + 1))%nat in
      let '(tail, _, s) := read_groups limit limit 0 [] s in
      Some (of_groups (head ++ repeat 0 (8 - length head - length tail) ++ tail), s).

(** [addr.parse::<IpAddr>().ok()] *)
Definition parse_ip (s : list Z) : option IpAddr :=
  let all {A} (r : option (A * list Z)) (k : A -> IpAddr) :=
    match r with Some (a, []) => Some (k a) | _ => None end in
  match read_ipv4 s with
  | Some r => all (Some r) V4
  | None => all (read_ipv6 s) V6
  end.

Definition to_ipv4_mapped (n : Z) : option Z := if n / 2 ^ 32 =? 0xFFFF then Some (n mod 2 ^ 32) else None.

(** ** Lemmas *)

Lemma find_byte_app c w s : c ∉ w -> find_byte c (w ++ c :: s) = Some (length w).
Proof.
  induction w as [|x w IH]; intros H; cbn [app find_byte length]; [by rewrite Z.eqb_refl|]. apply not_elem_of_cons in H as [Hx H].
  rewrite (proj2 (Z.eqb_neq x c)) by done. by rewrite IH.
Qed.

Lemma split_none c w : c ∉ w -> split c w = [w].
Proof.
  induction w as [|x w IH]; intros H; [done|]. apply not_elem_of_cons in H as [Hx H]. cbn [split].
  rewrite (proj2 (Z.eqb_neq x c)) by done. by rewrite IH.
Qed.

Lemma split_app c w s : c ∉ w -> split c (w ++ c :: s) = w :: split c s.
Proof.
  induction w as [|x w IH]; intros H; cbn [app split]; [by rewrite Z.eqb_refl|]. apply not_elem_of_cons in H as [Hx H].
  rewrite (proj2 (Z.eqb_neq x c)) by done. by rewrite IH.
Qed.

Lemma starts_with_app p s : starts_with p (p ++ s) = true.
Proof. unfold starts_with. apply bool_decide_eq_true. by rewrite take_app_length. Qed.

Lemma strip_str_app p s : strip_str p (p ++ s) = Some s.
Proof. unfold strip_str. by rewrite starts_with_app, drop_app_length. Qed.

(** No occurrence in a text without the pattern's first byte. *)
Lemma rfind_none c p s : c ∉ s -> rfind (c :: p) s = None.
Proof.
  induction s as [|x s IH]; intros H; [done|]. apply not_elem_of_cons in H as [Hx H]. cbn [rfind]. rewrite IH by done.
  unfold starts_with. rewrite bool_decide_eq_false_2; [done|]. cbn. intros [= E _]. congruence.
Qed.

Lemma rfind_app c p w s : c ∉ p ++ s -> rfind (c :: p) (w ++ (c :: p) ++ s) = Some (length w).
Proof.
  intros H. induction w as [|x w IH].
  - cbn [app rfind length]. rewrite rfind_none by done. change (c :: p ++ s) with ((c :: p) ++ s). by rewrite starts_with_app.
  - cbn [app rfind length]. cbn [app] in IH. by rewrite IH.
Qed.
