(* ===== verification/Float64.v ===== *)
(** IEEE 754 binary64 arithmetic, Rust's [f64]: the executable specification of
    the Standard Library at 53 bits of precision, with the bit patterns and the
    casts the code uses.  Rust rounds to nearest even, as the specification
    does. *)
From Stdlib Require Import SpecFloat.
From S2P Require Import Prelude.
Open Scope Z_scope.

Definition f64 : Type := spec_float.

Definition f_add : f64 -> f64 -> f64 := SFadd 53 1024.
Definition f_sub : f64 -> f64 -> f64 := SFsub 53 1024.
Definition f_mul : f64 -> f64 -> f64 := SFmul 53 1024.
Definition f_div : f64 -> f64 -> f64 := SFdiv 53 1024.
Definition f_neg : f64 -> f64 := SFopp.
Definition f_lt : f64 -> f64 -> bool := SFltb.

(** [n as f64] of an integer. *)
Definition f_of_Z (n : Z) : f64 := binary_normalize 53 1024 n 0 false.

(** [x as u64]: toward zero, saturating, and zero for NaN. *)
Definition f_as_u64 (x : f64) : Z :=
  match x with
  | S754_finite false m e =>
    let v := if 0 <=? e then Z.pos m * 2 ^ e else Z.pos m / 2 ^ (- e) in
    Z.min v (2 ^ 64 - 1)
  | S754_infinity false => 2 ^ 64 - 1
  | _ => 0
  end.

(** [f64::to_bits]; a NaN is the default quiet one. *)
Definition to_bits (x : f64) : Z :=
  let sign s := if s : bool then 2 ^ 63 else 0 in
  match x with
  | S754_zero s => sign s
  | S754_infinity s => sign s + 0x7ff * 2 ^ 52
  | S754_nan => 0x7ff8 * 2 ^ 48
  | S754_finite s m e =>
    if Z.pos m <? 2 ^ 52 then sign s + Z.pos m else sign s + (e + 1075) * 2 ^ 52 + (Z.pos m - 2 ^ 52)
  end.

(** [f64::from_bits] *)
Definition from_bits (b : Z) : f64 :=
  let s := Z.testbit b 63 in
  let e := (b / 2 ^ 52) mod 2 ^ 11 in
  let m := b mod 2 ^ 52 in
  if e =? 0x7ff then (if m =? 0 then S754_infinity s else S754_nan)
  else if e =? 0 then
    match m with Zpos p => S754_finite s p (-1074) | _ => S754_zero s end
  else
    match m + 2 ^ 52 with Zpos p => S754_finite s p (e - 1075) | _ => S754_nan end.

(** A float the format has: a mantissa in range for its exponent. *)
Definition f_valid (x : f64) : bool := valid_binary 53 1024 x.

Lemma f_as_u64_range x : u64 (f_as_u64 x).
Proof.
  unfold f_as_u64, in_w. destruct x as [|[]| |[] m e]; try lia.
  assert (0 <= (if 0 <=? e then Z.pos m * 2 ^ e else Z.pos m / 2 ^ (- e))); [|lia].
  destruct (0 <=? e) eqn:E; prop_bools; [nia|]. apply Z.div_pos; [lia|]. apply Z.pow_pos_nonneg; lia.
Qed.

(** The leading bit of a mantissa of [d] bits. *)
Lemma digits2_pos_bounds m : 2 ^ (Z.pos (digits2_pos m) - 1) <= Z.pos m < 2 ^ Z.pos (digits2_pos m).
Proof.
  induction m as [m IH|m IH|]; cbn [digits2_pos]; [..|done]; rewrite Pos2Z.inj_succ;
    (replace (Z.succ (Z.pos (digits2_pos m)) - 1) with (Z.succ (Z.pos (digits2_pos m) - 1)) by lia);
    rewrite !Z.pow_succ_r by lia; lia.
Qed.

(** The three fields of a bit pattern. *)
Lemma bits_fields (s : bool) e f : 0 <= e < 2 ^ 11 -> 0 <= f < 2 ^ 52 ->
  let b := (if s then 2 ^ 63 else 0) + e * 2 ^ 52 + f in
  Z.testbit b 63 = s /\ (b / 2 ^ 52) mod 2 ^ 11 = e /\ b mod 2 ^ 52 = f.
Proof.
  intros He Hf b. assert (Eb : b = ((if s then 2 ^ 11 else 0) + e) * 2 ^ 52 + f) by (unfold b; destruct s; lia).
  assert (Hq : b / 2 ^ 52 = (if s then 2 ^ 11 else 0) + e) by (rewrite Eb, Z.div_add_l, Z.div_small by lia; lia).
  split; [|split].
  - apply Z.b2z_inj. rewrite Z.testbit_spec' by lia. change (2 ^ 63) with (2 ^ 52 * 2 ^ 11).
    rewrite <- Z.div_div, Hq by lia. destruct s; cbn [Z.b2z].
    + rewrite <- (Z.mul_1_l (2 ^ 11)) at 1. rewrite Z.div_add_l, Z.div_small by lia. done.
    + by rewrite Z.add_0_l, Z.div_small by lia.
  - rewrite Hq. destruct s; [|by apply Z.mod_small]. rewrite <- (Z.mul_1_l (2 ^ 11)) at 1.
    rewrite Z.add_comm, Z.mod_add by lia. by apply Z.mod_small.
  - rewrite Eb, Z.add_comm, Z.mod_add by lia. by apply Z.mod_small.
Qed.

(** The bits of a float determine it (NaN aside, whose payload is dropped). *)
Lemma from_bits_to_bits x : f_valid x = true -> from_bits (to_bits x) = x.
Proof.
  unfold f_valid. destruct x as [s|s| |s m e]; cbn [valid_binary]; [by destruct s..|done|].
  unfold bounded, canonical_mantissa, fexp, emin. intros H. prop_bools.
  pose proof (digits2_pos_bounds m) as Hm. set (d := Z.pos (digits2_pos m)) in *.
  assert (Hm53 : Z.pos m < 2 ^ 53).
  { apply Z.lt_le_trans with (2 ^ d); [lia|]. apply Z.pow_le_mono_r; lia. }
  unfold to_bits. destruct (Z.pos m <? 2 ^ 52) eqn:E; prop_bools.
  - assert (d <= 52).
    { destruct (decide (d <= 52)) as [|Hd]; [done|]. assert (2 ^ 52 <= 2 ^ (d - 1)) by (apply Z.pow_le_mono_r; lia). lia. }
    assert (e = -1074) as -> by lia. unfold from_bits.
    replace ((if s then 2 ^ 63 else 0) + Z.pos m) with ((if s then 2 ^ 63 else 0) + 0 * 2 ^ 52 + Z.pos m) by lia.
    destruct (bits_fields s 0 (Z.pos m)) as (-> & -> & ->); [lia|lia|]. done.
  - assert (52 < d) by (apply (Z.pow_lt_mono_r_iff 2); lia). unfold from_bits.
    destruct (bits_fields s (e + 1075) (Z.pos m - 2 ^ 52)) as (-> & -> & ->); [lia|lia|].
    assert (e + 1075 =? 0x7ff = false) as -> by (apply Z.eqb_neq; lia).
    assert (e + 1075 =? 0 = false) as -> by (apply Z.eqb_neq; lia).
    replace (Z.pos m - 2 ^ 52 + 2 ^ 52) with (Z.pos m) by lia. by replace (e + 1075 - 1075) with e by lia.
Qed.
