(* ===== verification/SortedMap.v ===== *)
(** Rust's [Ord] as a class, and the specification of an ordered map: an
    association list with strictly increasing keys, with lookup, insertion,
    removal, predecessor and retain.  The B-tree refines it; the engine's
    [BTreeMap]s and [BTreeSet]s are modelled by it. *)
From S2P Require Import Prelude.
From stdpp Require Import sorting.
Open Scope nat_scope.

(** What the code relies on of a key's [Ord]: [cmp] is a lawful total order,
    and [Equal] means equal. *)
Class OrdKey (K : Type) : Type := {
  kcmp : K -> K -> comparison;
  kcmp_eq : forall a b, kcmp a b = Eq <-> a = b;
  kcmp_antisym : forall a b, kcmp b a = CompOpp (kcmp a b);
  kcmp_trans : forall a b c, kcmp a b = Lt -> kcmp b c = Lt -> kcmp a c = Lt
}.

#[export] Instance Z_OrdKey : OrdKey Z.
Proof.
  refine {| kcmp := Z.compare |}.
  - apply Z.compare_eq_iff.
  - intros a b. by rewrite Z.compare_antisym.
  - intros a b c. rewrite !Z.compare_lt_iff. lia.
Defined.

(** Tuples compare lexicographically. *)
#[export] Instance pair_OrdKey {A B} `{OrdKey A, OrdKey B} : OrdKey (A * B).
Proof.
  refine {| kcmp := fun a b => match kcmp a.1 b.1 with Eq => kcmp a.2 b.2 | c => c end |}.
  - intros [a a'] [b b']. cbn. destruct (kcmp a b) eqn:E; rewrite ?kcmp_eq in *; split; try done; try (by intros [= -> ->]).
    + by intros ->; subst.
    + intros [= -> ->]. by rewrite (proj2 (kcmp_eq b b) eq_refl) in E.
    + intros [= -> ->]. by rewrite (proj2 (kcmp_eq b b) eq_refl) in E.
  - intros [a a'] [b b']. cbn. rewrite (kcmp_antisym a b), (kcmp_antisym a' b'). by destruct (kcmp a b).
  - intros [a a'] [b b'] [c c']. cbn. destruct (kcmp a b) eqn:E1; [|intros _|done].
    + apply kcmp_eq in E1 as ->. destruct (kcmp b c); [apply kcmp_trans|done|done].
    + destruct (kcmp b c) eqn:E2; [|intros _|done].
      * apply kcmp_eq in E2 as ->. by rewrite E1.
      * by rewrite (kcmp_trans _ _ _ E1 E2).
Defined.

(** Slices and strings compare lexicographically. *)
Fixpoint list_cmp {A} `{OrdKey A} (xs ys : list A) : comparison :=
  match xs, ys with
  | [], [] => Eq
  | [], _ :: _ => Lt
  | _ :: _, [] => Gt
  | x :: xs, y :: ys => match kcmp x y with Eq => list_cmp xs ys | c => c end
  end.

#[export] Instance list_OrdKey {A} `{OrdKey A} : OrdKey (list A).
Proof.
  refine {| kcmp := list_cmp |}.
  - induction a as [|x a IH]; intros [|y b]; cbn; try done. destruct (kcmp x y) eqn:E; rewrite ?kcmp_eq in E.
    + subst y. rewrite IH. split; [by intros ->|by intros [= ->]].
    + split; [done|]. intros [= -> ->]. by rewrite (proj2 (kcmp_eq y y) eq_refl) in E.
    + split; [done|]. intros [= -> ->]. by rewrite (proj2 (kcmp_eq y y) eq_refl) in E.
  - induction a as [|x a IH]; intros [|y b]; cbn; try done. rewrite (kcmp_antisym x y), IH. by destruct (kcmp x y).
  - induction a as [|x a IH]; intros [|y b] [|z c]; cbn; try done. destruct (kcmp x y) eqn:E1; [|intros _|done].
    + apply kcmp_eq in E1 as ->. destruct (kcmp y z); [apply IH|done|done].
    + destruct (kcmp y z) eqn:E2; [|intros _|done].
      * apply kcmp_eq in E2 as ->. by rewrite E1.
      * by rewrite (kcmp_trans _ _ _ E1 E2).
Defined.

Section SortedMap.
Context {K V : Type} {HK : OrdKey K}.
Implicit Types (k : K) (v : V) (l P M Q : list (K * V)).

Definition klt (a b : K) : Prop := kcmp a b = Lt.
Definition plt (a b : K * V) : Prop := klt a.1 b.1.
Definition sorted l : Prop := StronglySorted plt l.

(** Every key of [l] is below / above [k]. *)
Definition all_lt l k : Prop := Forall (fun e => klt e.1 k) l.
Definition all_gt l k : Prop := Forall (fun e => klt k e.1) l.

Fixpoint sm_lookup (k : K) l : option V :=
  match l with
  | [] => None
  | (k', v) :: l => match kcmp k' k with Eq => Some v | _ => sm_lookup k l end
  end.

Fixpoint sm_insert (k : K) (v : V) l : list (K * V) :=
  match l with
  | [] => [(k, v)]
  | (k', v') :: l' =>
    match kcmp k' k with
    | Lt => (k', v') :: sm_insert k v l'
    | Eq => (k', v) :: l'
    | Gt => (k, v) :: l
    end
  end.

Fixpoint sm_remove (k : K) l : list (K * V) :=
  match l with
  | [] => []
  | (k', v) :: l => match kcmp k' k with Eq => l | _ => (k', v) :: sm_remove k l end
  end.

(** The last entry whose key is below [k]. *)
Definition sm_pred (k : K) l : option (K * V) :=
  last (filter (fun e => kcmp e.1 k = Lt) l).

(** ** Order lemmas *)

Lemma kcmp_refl k : kcmp k k = Eq.
Proof. by apply kcmp_eq. Qed.

Lemma kcmp_gt a b : kcmp a b = Gt <-> klt b a.
Proof. unfold klt. rewrite (kcmp_antisym a b). by destruct (kcmp a b). Qed.

Lemma klt_trans a b c : klt a b -> klt b c -> klt a c.
Proof. apply kcmp_trans. Qed.

Lemma klt_irrefl a : ~ klt a a.
Proof. unfold klt. by rewrite kcmp_refl. Qed.

Lemma klt_gt a b : klt a b -> kcmp b a = Gt.
Proof. apply kcmp_gt. Qed.

Lemma kcmp_cases a b : {klt a b} + {a = b} + {klt b a}.
Proof.
  destruct (kcmp a b) eqn:E.
  - left. right. by apply kcmp_eq.
  - left. left. exact E.
  - right. by apply kcmp_gt.
Qed.

#[export] Instance klt_dec a b : Decision (klt a b).
Proof. unfold klt. solve_decision. Defined.

Lemma all_lt_mono l a b : all_lt l a -> klt a b -> all_lt l b.
Proof. intros H Hab. eapply Forall_impl; [exact H|]. intros e He. exact (klt_trans _ _ _ He Hab). Qed.

Lemma all_gt_mono l a b : all_gt l b -> klt a b -> all_gt l a.
Proof. intros H Hab. eapply Forall_impl; [exact H|]. intros e He. exact (klt_trans _ _ _ Hab He). Qed.

Lemma all_lt_app l1 l2 k : all_lt (l1 ++ l2) k <-> all_lt l1 k /\ all_lt l2 k.
Proof. apply Forall_app. Qed.

Lemma all_gt_app l1 l2 k : all_gt (l1 ++ l2) k <-> all_gt l1 k /\ all_gt l2 k.
Proof. apply Forall_app. Qed.

Lemma sorted_cons e l : sorted (e :: l) <-> all_gt l e.1 /\ sorted l.
Proof. apply StronglySorted_cons. Qed.

Lemma sorted_app l1 l2 :
  sorted (l1 ++ l2) <-> (forall x, x ∈ l1 -> all_gt l2 x.1) /\ sorted l1 /\ sorted l2.
Proof.
  unfold sorted. rewrite StronglySorted_app. unfold all_gt. setoid_rewrite Forall_forall.
  unfold plt. naive_solver.
Qed.

Lemma sorted_mid l1 e l2 :
  sorted (l1 ++ e :: l2) <-> sorted l1 /\ sorted l2 /\ all_lt l1 e.1 /\ all_gt l2 e.1.
Proof.
  rewrite sorted_app, sorted_cons. unfold all_lt, all_gt. setoid_rewrite Forall_forall.
  setoid_rewrite elem_of_cons. unfold plt. split.
  - intros (H1 & H2 & H3 & H4). naive_solver.
  - intros (H1 & H2 & H3 & H4). split; [|done]. intros x Hx y [->|Hy]; [auto|].
    eapply klt_trans; eauto.
Qed.

Lemma sorted_app_l l1 l2 : sorted (l1 ++ l2) -> sorted l1.
Proof. rewrite sorted_app. tauto. Qed.

Lemma sorted_app_r l1 l2 : sorted (l1 ++ l2) -> sorted l2.
Proof. rewrite sorted_app. tauto. Qed.

(** ** The map laws *)

Lemma sm_insert_all_gt k v l a : all_gt l a -> klt a k -> all_gt (sm_insert k v l) a.
Proof.
  intros H Ha. induction l as [|[k' v'] l IH]; cbn; [by constructor|].
  apply Forall_cons in H as [H1 H2]. destruct (kcmp k' k).
  - by constructor.
  - constructor; [exact H1|by apply IH].
  - by repeat constructor.
Qed.

Lemma sm_insert_sorted k v l : sorted l -> sorted (sm_insert k v l).
Proof.
  induction l as [|[k' v'] l IH]; cbn; [by repeat constructor|].
  rewrite sorted_cons. cbn. intros [H1 H2]. destruct (kcmp k' k) eqn:E.
  - by apply sorted_cons.
  - apply sorted_cons. split; [by apply sm_insert_all_gt|by apply IH].
  - apply kcmp_gt in E. apply sorted_cons. cbn. split; [|by apply sorted_cons].
    constructor; [done|]. by eapply all_gt_mono.
Qed.

Lemma sm_lookup_all_gt k l : all_gt l k -> sm_lookup k l = None.
Proof.
  induction l as [|[k' v'] l IH]; [done|]. intros [H1 H2]%Forall_cons. cbn in *.
  rewrite (proj2 (kcmp_gt _ _)) by done. auto.
Qed.

Lemma sm_lookup_insert k v l k' :
  sorted l ->
  sm_lookup k' (sm_insert k v l) = match kcmp k k' with Eq => Some v | _ => sm_lookup k' l end.
Proof.
  induction l as [|[a w] l IH]; cbn; [done|]. rewrite sorted_cons. intros [H1 H2]. cbn in *.
  destruct (kcmp a k) eqn:E; cbn.
  - apply kcmp_eq in E as ->. by destruct (kcmp k k').
  - rewrite IH by done. destruct (kcmp a k') eqn:E'; [|done..]. apply kcmp_eq in E' as ->.
    by rewrite (klt_gt _ _ E).
  - by destruct (kcmp k k').
Qed.

Lemma sm_remove_all_gt_l k l a : all_gt l a -> all_gt (sm_remove k l) a.
Proof.
  induction 1 as [|[k' v'] l H Hl IH]; cbn; [constructor|].
  destruct (kcmp k' k); [exact Hl|by constructor..].
Qed.

Lemma sm_remove_sorted k l : sorted l -> sorted (sm_remove k l).
Proof.
  induction l as [|[k' v'] l IH]; [done|]. rewrite sorted_cons. cbn. intros [H1 H2].
  destruct (kcmp k' k); [done|..]; (apply sorted_cons; split; [by apply sm_remove_all_gt_l|by apply IH]).
Qed.

Lemma sm_lookup_remove k k' l :
  sorted l ->
  sm_lookup k' (sm_remove k l) = match kcmp k k' with Eq => None | _ => sm_lookup k' l end.
Proof.
  induction l as [|[a w] l IH]; cbn; [by destruct (kcmp k k')|]. rewrite sorted_cons. cbn.
  intros [H1 H2]. destruct (kcmp a k) eqn:E; cbn.
  - apply kcmp_eq in E as ->. destruct (kcmp k k') eqn:E'; [|done..].
    apply kcmp_eq in E' as ->. by apply sm_lookup_all_gt.
  - rewrite IH by done. destruct (kcmp a k') eqn:E'; [|done..]. apply kcmp_eq in E' as ->.
    by rewrite (klt_gt _ _ E).
  - rewrite IH by done. destruct (kcmp a k') eqn:E'; [|done..]. apply kcmp_eq in E' as ->.
    apply kcmp_gt in E. by rewrite E.
Qed.

(** Inserting an existing key keeps the length, a new one adds one. *)
Lemma length_sm_insert k v l :
  sorted l ->
  length (sm_insert k v l) = match sm_lookup k l with Some _ => length l | None => S (length l) end.
Proof.
  induction l as [|[a w] l IH]; cbn; [done|]. rewrite sorted_cons. cbn. intros [H1 H2].
  destruct (kcmp a k) eqn:E; cbn; [done| |].
  - rewrite IH by done. by destruct (sm_lookup k l).
  - apply kcmp_gt in E. rewrite sm_lookup_all_gt; [done|]. by eapply all_gt_mono.
Qed.

(** ** Working inside [P ++ M ++ Q] with [P] below the key and [Q] above *)

Lemma all_lt_cmp l k e : all_lt l k -> e ∈ l -> kcmp e.1 k = Lt.
Proof. intros H He. by apply (proj1 (Forall_forall _ _) H). Qed.

Lemma sm_lookup_skip k P M : all_lt P k -> sm_lookup k (P ++ M) = sm_lookup k M.
Proof. induction 1 as [|[a w] P H _ IH]; cbn in *; [done|]. by rewrite H. Qed.

Lemma sm_lookup_stop k M Q : all_gt Q k -> sm_lookup k (M ++ Q) = sm_lookup k M.
Proof.
  intros H. induction M as [|[a w] M IH]; cbn; [by apply sm_lookup_all_gt|]. by rewrite IH.
Qed.

Lemma sm_insert_skip k v P M : all_lt P k -> sm_insert k v (P ++ M) = P ++ sm_insert k v M.
Proof. induction 1 as [|[a w] P H _ IH]; cbn in *; [done|]. by rewrite H, IH. Qed.

Lemma sm_insert_stop k v M Q : all_gt Q k -> sm_insert k v (M ++ Q) = sm_insert k v M ++ Q.
Proof.
  intros H. induction M as [|[a w] M IH]; cbn.
  - destruct Q as [|[b w] Q]; [done|]. apply Forall_cons in H as [H _]. cbn in *.
    by rewrite (klt_gt _ _ H).
  - destruct (kcmp a k); [done|by rewrite IH|done].
Qed.

Lemma sm_insert_front k v Q : all_gt Q k -> sm_insert k v Q = (k, v) :: Q.
Proof. intros H. by apply (sm_insert_stop k v []). Qed.

Lemma sm_insert_at k v w M Q : sm_insert k v ((k, w) :: Q) = (k, v) :: Q.
Proof. cbn. by rewrite kcmp_refl. Qed.

Lemma sm_remove_skip k P M : all_lt P k -> sm_remove k (P ++ M) = P ++ sm_remove k M.
Proof. induction 1 as [|[a w] P H _ IH]; cbn in *; [done|]. by rewrite H, IH. Qed.

Lemma sm_remove_all_gt k Q : all_gt Q k -> sm_remove k Q = Q.
Proof.
  induction 1 as [|[a w] Q H _ IH]; cbn in *; [done|]. by rewrite (klt_gt _ _ H), IH.
Qed.

Lemma sm_remove_stop k M Q : all_gt Q k -> sm_remove k (M ++ Q) = sm_remove k M ++ Q.
Proof.
  intros H. induction M as [|[a w] M IH]; cbn; [by apply sm_remove_all_gt|].
  destruct (kcmp a k); [done|by rewrite IH..].
Qed.

Lemma sm_lookup_None_remove k l : sm_lookup k l = None -> sm_remove k l = l.
Proof. induction l as [|[a w] l IH]; cbn; [done|]. intros H. destruct (kcmp a k); [done|by rewrite IH..]. Qed.

Lemma length_sm_remove k l :
  length (sm_remove k l) = match sm_lookup k l with Some _ => length l - 1 | None => length l end.
Proof.
  induction l as [|[a w] l IH]; cbn; [done|].
  destruct (kcmp a k) eqn:E; cbn; [lia|..]; rewrite IH; destruct (sm_lookup k l) eqn:Hl; try done;
    destruct l; cbn in *; try done; lia.
Qed.

Lemma sm_lookup_elem k v l : sm_lookup k l = Some v -> (k, v) ∈ l.
Proof.
  induction l as [|[a w] l IH]; cbn; [done|]. rewrite elem_of_cons.
  destruct (kcmp a k) eqn:E; [|by right; apply IH..].
  apply kcmp_eq in E as ->. intros [= ->]. by left.
Qed.

Lemma sm_pred_skip k P M : all_lt P k -> sm_pred k (P ++ M) = match sm_pred k M with Some e => Some e | None => last P end.
Proof.
  intros H. unfold sm_pred. rewrite filter_app. rewrite last_app.
  rewrite (filter_keep _ P) by exact H. by destruct (last _).
Qed.

Lemma sm_pred_stop k M Q : all_gt Q k -> sm_pred k (M ++ Q) = sm_pred k M.
Proof.
  intros H. unfold sm_pred. rewrite filter_app, (filter_drop_all _ Q), app_nil_r; [done|].
  eapply Forall_impl; [exact H|]. cbn. intros x Hgt Hlt. by rewrite (klt_gt _ _ Hgt) in Hlt.
Qed.

Lemma sm_lookup_insert_dec `{!EqDecision K} k v l k' :
  sorted l -> sm_lookup k' (sm_insert k v l) = if decide (k = k') then Some v else sm_lookup k' l.
Proof.
  intros Hl. rewrite sm_lookup_insert by done. destruct (kcmp k k') eqn:E, (decide (k = k')) as [->|]; try done;
    solve [apply kcmp_eq in E; done | by rewrite kcmp_refl in E].
Qed.

Lemma sm_lookup_remove_dec `{!EqDecision K} k k' l :
  sorted l -> sm_lookup k' (sm_remove k l) = if decide (k = k') then None else sm_lookup k' l.
Proof.
  intros Hl. rewrite sm_lookup_remove by done. destruct (kcmp k k') eqn:E, (decide (k = k')) as [->|]; try done;
    solve [apply kcmp_eq in E; done | by rewrite kcmp_refl in E].
Qed.

(** [BTreeMap::retain], whose closure may change the value it keeps. *)
Definition sm_retain (f : V -> option V) l : list (K * V) := omap (fun e => pair e.1 <$> f e.2) l.

Lemma sm_retain_all_gt f l k : all_gt l k -> all_gt (sm_retain f l) k.
Proof.
  intros H. apply Forall_forall. intros e He. apply list_elem_of_omap in He as (e' & He' & Hf).
  apply fmap_Some in Hf as (v & _ & ->). exact (proj1 (Forall_forall _ _) H e' He').
Qed.

Lemma sm_retain_sorted f l : sorted l -> sorted (sm_retain f l).
Proof.
  induction l as [|[k v] l IH]; [done|]. intros [Hgt Hs]%sorted_cons. cbn. destruct (f v); cbn; [|by apply IH].
  apply sorted_cons. split; [by apply sm_retain_all_gt|by apply IH].
Qed.

Lemma sm_lookup_retain f l k : sorted l -> sm_lookup k (sm_retain f l) = sm_lookup k l ≫= f.
Proof.
  induction l as [|[k' v] l IH]; [done|]. intros [Hgt Hs]%sorted_cons. cbn.
  destruct (kcmp k' k) eqn:E.
  - apply kcmp_eq in E as ->. cbn. destruct (f v) as [w|]; cbn; [by rewrite kcmp_refl|].
    by apply sm_lookup_all_gt, sm_retain_all_gt.
  - destruct (f v); cbn; rewrite ?E; by apply IH.
  - destruct (f v); cbn; rewrite ?E; by apply IH.
Qed.

(** Inserting what is already there. *)
Lemma sm_insert_same k v l : sorted l -> sm_lookup k l = Some v -> sm_insert k v l = l.
Proof.
  induction l as [|[k' v'] l IH]; [done|]. intros [Hgt Hs]%sorted_cons. cbn. destruct (kcmp k' k) eqn:E.
  - intros [= ->]. by apply kcmp_eq in E as ->.
  - intros H. by rewrite IH.
  - intros H. rewrite sm_lookup_all_gt in H; [done|]. eapply all_gt_mono; [exact Hgt|]. by apply kcmp_gt.
Qed.

(** Removing a key just added. *)
Lemma sm_remove_insert k v l : sorted l -> sm_lookup k l = None -> sm_remove k (sm_insert k v l) = l.
Proof.
  induction l as [|[k' v'] l IH]; intros Hl Hk; cbn; [by rewrite kcmp_refl|].
  apply sorted_cons in Hl as [Hgt Hs]. cbn in Hk. destruct (kcmp k' k) eqn:E; [done|..]; cbn; rewrite ?kcmp_refl, ?E; [|done].
  by rewrite IH.
Qed.

End SortedMap.

(** ** [BTreeSet]: the keys of a sorted map *)
Section BTreeSet.
Context {K : Type} {HK : OrdKey K}.

Definition bset : Type := list (K * unit).
Implicit Types (s : bset) (x y : K).

Definition bs_insert x s : bset := sm_insert x tt s.
Definition bs_remove x s : bset := sm_remove x s.
Definition bs_mem x s : bool := match sm_lookup x s with Some _ => true | None => false end.
Definition bs_elems s : list K := map fst s.
Definition bs_first s : option K := head (bs_elems s).

Lemma bs_insert_sorted x s : sorted s -> sorted (bs_insert x s).
Proof. apply sm_insert_sorted. Qed.

Lemma bs_remove_sorted x s : sorted s -> sorted (bs_remove x s).
Proof. apply sm_remove_sorted. Qed.

Lemma bs_mem_insert x y s : sorted s -> bs_mem x (bs_insert y s) = true <-> x = y \/ bs_mem x s = true.
Proof.
  intros Hs. unfold bs_mem, bs_insert. rewrite sm_lookup_insert by done.
  destruct (kcmp y x) eqn:E; [apply kcmp_eq in E; naive_solver|..];
    (assert (x <> y) by (intros ->; by rewrite kcmp_refl in E)); naive_solver.
Qed.

Lemma bs_mem_remove x y s : sorted s -> bs_mem x (bs_remove y s) = true <-> x <> y /\ bs_mem x s = true.
Proof.
  intros Hs. unfold bs_mem, bs_remove. rewrite sm_lookup_remove by done.
  destruct (kcmp y x) eqn:E; [apply kcmp_eq in E; naive_solver|..];
    (assert (x <> y) by (intros ->; by rewrite kcmp_refl in E)); naive_solver.
Qed.

Lemma bs_mem_elems x s : bs_mem x s = true <-> x ∈ bs_elems s.
Proof.
  unfold bs_mem, bs_elems. induction s as [|[a []] s IH]; cbn; [split; [done|by intros ?%elem_of_nil]|].
  rewrite elem_of_cons. destruct (kcmp a x) eqn:E; [apply kcmp_eq in E; naive_solver|..];
    (assert (x <> a) by (intros ->; by rewrite kcmp_refl in E)); naive_solver.
Qed.

Lemma bs_first_min s m x : sorted s -> bs_first s = Some m -> x ∈ bs_elems s -> x = m \/ klt m x.
Proof.
  destruct s as [|[a []] s]; [done|]. intros [H _]%sorted_cons [= ->] Hx. cbn in Hx.
  apply elem_of_cons in Hx as [->|Hx]; [by left|right].
  apply list_elem_of_fmap in Hx as (e & -> & He). by apply (proj1 (Forall_forall _ _) H).
Qed.

Lemma bs_first_None s : bs_first s = None -> s = [].
Proof. by destruct s. Qed.
End BTreeSet.
Arguments bset K : clear implicits.

Lemma bs_elems_NoDup {K} `{OrdKey K} (s : bset K) : sorted s -> NoDup (bs_elems s).
Proof.
  induction s as [|[x []] s IH]; intros Hs; [constructor|]. apply sorted_cons in Hs as [Hgt Hs]. cbn. constructor; [|by apply IH].
  intros Hin. apply list_elem_of_fmap in Hin as ([y []] & -> & Hin). cbn in *. unfold all_gt in Hgt. rewrite Forall_forall in Hgt. by apply (klt_irrefl y), (Hgt _ Hin).
Qed.

(** The order of integer keys. *)
Lemma klt_Z (a b : Z) : klt a b <-> (a < b)%Z.
Proof. apply Z.compare_lt_iff. Qed.
