(* ===== verification/BTree.v ===== *)
(** The persistent B-tree map (crates/spg-storage/src/persistent_btree.rs):
    nodes, lookups, predecessor and insertion, refining the sorted
    association lists of [SortedMap].

    An [Arc<BNode>] is the node it points to, and [Arc::make_mut] followed by
    an in-place edit is the edited node: every handle on the old node keeps
    the old value.  [None] is a panic (an index out of range, a failed
    [expect]). *)
From S2P Require Import Prelude SortedMap.
Open Scope nat_scope.

Definition ORDER : nat := 8.
Definition MAX_ENTRIES : nat := ORDER - 1.
Definition MAX_CHILDREN : nat := ORDER.
Definition MIN_ENTRIES : nat := ORDER / 2 - 1.

Inductive BNode (K V : Type) : Type :=
| Leaf (entries : list (K * V))
| Internal (entries : list (K * V)) (children : list (BNode K V)).
Arguments Leaf {K V} entries.
Arguments Internal {K V} entries children.

Record PersistentBTreeMap (K V : Type) : Type := mk_map { root : BNode K V; len : nat }.
Arguments mk_map {K V} root len.
Arguments root {K V} p.
Arguments len {K V} p.

Inductive FoundOrDescend : Type :=
| Found (i : nat)
| Descend (i : nat).

Section BTree.
Context {K V : Type} {HK : OrdKey K}.
Implicit Types (k key : K) (v value : V) (entries : list (K * V)) (node : BNode K V).

Definition new : PersistentBTreeMap K V := mk_map (Leaf []) 0.

Definition is_empty (m : PersistentBTreeMap K V) : bool := len m =? 0.

(** [for (i, (k, _)) in entries.iter().enumerate()], from slot [i] on. *)
Fixpoint linear_find_entry (i : nat) entries key : option nat :=
  match entries with
  | [] => None
  | (k, _) :: entries =>
    match kcmp k key with
    | Eq => Some i
    | Gt => None
    | Lt => linear_find_entry (S i) entries key
    end
  end.

Fixpoint linear_position_internal (i : nat) entries key : FoundOrDescend :=
  match entries with
  | [] => Descend i
  | (k, _) :: entries =>
    match kcmp k key with
    | Eq => Found i
    | Gt => Descend i
    | Lt => linear_position_internal (S i) entries key
    end
  end.

(** [entries.binary_search_by(|(ek, _)| ek.cmp(key))]: on strictly sorted
    entries its answer is unique, the slot holding [key] ([Found]) or the
    slot it would be inserted at ([Descend]). *)
Definition binary_search_by entries key : FoundOrDescend := linear_position_internal 0 entries key.

(** [entries.partition_point(p)] on entries partitioned by [p]. *)
Fixpoint partition_point (p : K * V -> bool) entries : nat :=
  match entries with
  | [] => 0
  | e :: entries => if p e then S (partition_point p entries) else 0
  end.

Definition key_lt (k key : K) : bool := match kcmp k key with Lt => true | _ => false end.
Definition key_le (k key : K) : bool := match kcmp k key with Gt => false | _ => true end.

(** ** Lookups *)

Fixpoint get_loop node key : option (option V) :=
  match node with
  | Leaf entries =>
    match linear_find_entry 0 entries key with
    | None => Some None
    | Some i => let! e := entries !! i in Some (Some e.2)
    end
  | Internal entries children =>
    match linear_position_internal 0 entries key with
    | Found i => let! e := entries !! i in Some (Some e.2)
    | Descend i => mjoin (at_child (fun c => get_loop c key) children i)
    end
  end.

Definition get (m : PersistentBTreeMap K V) key : option (option V) := get_loop (root m) key.

(** [if i > 0 { best = Some(&entries[i - 1]) }] *)
Definition best_left entries (i : nat) (best : option (K * V)) : option (option (K * V)) :=
  if 0 <? i then let! e := entries !! (i - 1) in Some (Some e) else Some best.

Fixpoint predecessor_loop node key (best : option (K * V)) : option (option (K * V)) :=
  match node with
  | Leaf entries =>
    let i := partition_point (fun e => key_lt e.1 key) entries in
    best_left entries i best
  | Internal entries children =>
    let i := partition_point (fun e => key_lt e.1 key) entries in
    let! best := best_left entries i best in
    mjoin (at_child (fun c => predecessor_loop c key best) children i)
  end.

Definition predecessor (m : PersistentBTreeMap K V) key : option (option (K * V)) :=
  predecessor_loop (root m) key None.

(** [get_mut]'s borrow of a value: what it reads now, and the tree after a
    new value is written through it. *)
Fixpoint get_mut_helper node key : option (option (V * (V -> BNode K V))) :=
  match node with
  | Leaf entries =>
    match linear_find_entry 0 entries key with
    | None => Some None
    | Some i => let! e := entries !! i in
                Some (Some (e.2, fun v => Leaf (<[i := (e.1, v)]> entries)))
    end
  | Internal entries children =>
    match linear_position_internal 0 entries key with
    | Found i => let! e := entries !! i in
                 Some (Some (e.2, fun v => Internal (<[i := (e.1, v)]> entries) children))
    | Descend i =>
      let! r := mjoin (at_child (fun c => get_mut_helper c key) children i) in
      match r with
      | None => Some None
      | Some (v, put) => Some (Some (v, fun v => Internal entries (<[i := put v]> children)))
      end
    end
  end.

(** The borrow in [*map.get_mut(key)? = f(old)]: [None] inside when absent. *)
Definition get_mut (m : PersistentBTreeMap K V) key
  : option (option (V * (V -> PersistentBTreeMap K V))) :=
  let! r := get_mut_helper (root m) key in
  match r with
  | None => Some None
  | Some (v, put) => Some (Some (v, fun v => mk_map (put v) (len m)))
  end.

(** ** Insertion *)

(** [split_off(mid + 1)] then [pop()]: left, median, right. *)
Definition split_entries entries (mid : nat) : option (list (K * V) * (K * V) * list (K * V)) :=
  let! (left_entries, right_entries) := vec_split_off (mid + 1) entries in
  let! (median, left_entries) := vec_pop left_entries in
  Some (left_entries, median, right_entries).

Definition split_result : Type := option (BNode K V * (K * V)).

(** [insert_helper]'s result: [(new_left_node, optional_split, prev_v)]. *)
Fixpoint insert_helper node k v : option (BNode K V * split_result * option V) :=
  match node with
  | Leaf entries =>
    let! (new_entries, prev_v) :=
      match binary_search_by entries k with
      | Found idx =>
        let! e := entries !! idx in
        let! new_entries := vec_set idx (e.1, v) entries in Some (new_entries, Some e.2)
      | Descend idx => let! new_entries := vec_insert idx (k, v) entries in Some (new_entries, None)
      end in
    if length new_entries <=? MAX_ENTRIES then Some (Leaf new_entries, None, prev_v)
    else
      let mid := length new_entries / 2 in
      let! (left_entries, median, right_entries) := split_entries new_entries mid in
      Some (Leaf left_entries, Some (Leaf right_entries, median), prev_v)
  | Internal entries children =>
    match binary_search_by entries k with
    | Found idx =>
      let! e := entries !! idx in
      let! new_entries := vec_set idx (e.1, v) entries in
      Some (Internal new_entries children, None, Some e.2)
    | Descend idx =>
      let! (new_child, split, prev_v) := mjoin (at_child (fun c => insert_helper c k v) children idx) in
      let! new_children := vec_set idx new_child children in
      let! (new_entries, new_children) :=
        match split with
        | Some (right_sibling, median) =>
          let! new_entries := vec_insert idx median entries in
          let! new_children := vec_insert (idx + 1) right_sibling new_children in
          Some (new_entries, new_children)
        | None => Some (entries, new_children)
        end in
      if length new_children <=? MAX_CHILDREN then Some (Internal new_entries new_children, None, prev_v)
      else
        let mid := length new_entries / 2 in
        let! (left_entries, median, right_entries) := split_entries new_entries mid in
        let! (left_children, right_children) := vec_split_off (mid + 1) new_children in
        Some (Internal left_entries left_children, Some (Internal right_entries right_children, median), prev_v)
    end
  end.

Definition insert (m : PersistentBTreeMap K V) key value
  : option (PersistentBTreeMap K V * option V) :=
  let! (new_left, split, prev_v) := insert_helper (root m) key value in
  let new_root :=
    match split with
    | Some (right_node, median) => Internal [median] [new_left; right_node]
    | None => new_left
    end in
  let new_len := match prev_v with None => len m + 1 | Some _ => len m end in
  Some (mk_map new_root new_len, prev_v).

(** The transient worker: [node] after the call, the split, the old value.
    The match on the search is inside the branches and the mutation is in
    place, otherwise it is [insert_helper]. *)
Fixpoint insert_transient_helper node k v : option (BNode K V * split_result * option V) :=
  match node with
  | Leaf entries =>
    let! (entries, prev_v) :=
      match binary_search_by entries k with
      | Found idx =>
        let! e := entries !! idx in
        let! entries := vec_set idx (e.1, v) entries in Some (entries, Some e.2)
      | Descend idx => let! entries := vec_insert idx (k, v) entries in Some (entries, None)
      end in
    if length entries <=? MAX_ENTRIES then Some (Leaf entries, None, prev_v)
    else
      let mid := length entries / 2 in
      let! (entries, right_entries) := vec_split_off (mid + 1) entries in
      let! (median, entries) := vec_pop entries in
      Some (Leaf entries, Some (Leaf right_entries, median), prev_v)
  | Internal entries children =>
    match binary_search_by entries k with
    | Found idx =>
      let! e := entries !! idx in
      let! entries := vec_set idx (e.1, v) entries in
      Some (Internal entries children, None, Some e.2)
    | Descend idx =>
      let! (child, split, prev_v) :=
        mjoin (at_child (fun c => insert_transient_helper c k v) children idx) in
      let! children := vec_set idx child children in
      let! (entries, children) :=
        match split with
        | Some (right_sibling, median) =>
          let! entries := vec_insert idx median entries in
          let! children := vec_insert (idx + 1) right_sibling children in
          Some (entries, children)
        | None => Some (entries, children)
        end in
      if length children <=? MAX_CHILDREN then Some (Internal entries children, None, prev_v)
      else
        let mid := length entries / 2 in
        let! (entries, right_entries) := vec_split_off (mid + 1) entries in
        let! (median, entries) := vec_pop entries in
        let! (children, right_children) := vec_split_off (mid + 1) children in
        Some (Internal entries children, Some (Internal right_entries right_children, median), prev_v)
    end
  end.

Definition insert_mut (m : PersistentBTreeMap K V) key value
  : option (PersistentBTreeMap K V * option V) :=
  let! (old_root, split, prev_v) := insert_transient_helper (root m) key value in
  let root' :=
    match split with
    | Some (right_node, median) => Internal [median] [old_root; right_node]
    | None => old_root
    end in
  Some (mk_map root' (match prev_v with None => len m + 1 | Some _ => len m end), prev_v).

End BTree.

(** ** What a tree stands for *)

Section Contents.
Context {A : Type}.
Implicit Types (es : list A) (l : list A) (ls : list (list A)).

(** Separators [es] between the runs [ls]. *)
Fixpoint weave es ls : list A :=
  match es, ls with
  | e :: es, l :: ls => l ++ e :: weave es ls
  | [], l :: _ => l
  | es, [] => es
  end.

(** The part of a [weave] before / after a run. *)
Fixpoint wpre es ls : list A :=
  match es, ls with
  | e :: es, l :: ls => l ++ e :: wpre es ls
  | _, _ => []
  end.

Fixpoint wpost es ls : list A :=
  match es, ls with
  | e :: es, l :: ls => e :: l ++ wpost es ls
  | _, _ => []
  end.

Lemma weave_cons es l ls : length es = length ls -> weave es (l :: ls) = l ++ wpost es ls.
Proof.
  revert l ls; induction es as [|e es IH]; intros l [|l' ls] H; try done; cbn.
  - by rewrite app_nil_r.
  - rewrite <- IH by (simpl in H; lia). by destruct es.
Qed.

Lemma weave_split es1 es2 ls1 l ls2 :
  length ls1 = length es1 -> length ls2 = length es2 ->
  weave (es1 ++ es2) (ls1 ++ l :: ls2) = wpre es1 ls1 ++ l ++ wpost es2 ls2.
Proof.
  intros H1 H2. revert ls1 H1; induction es1 as [|e es1 IH]; intros [|l' ls1] H1; try done.
  - by apply weave_cons.
  - simpl in H1. cbn [app weave wpre]. rewrite IH by lia. by rewrite <- app_assoc.
Qed.

Lemma weave_app es1 e es2 ls1 ls2 :
  length ls1 = S (length es1) -> weave (es1 ++ e :: es2) (ls1 ++ ls2) = weave es1 ls1 ++ e :: weave es2 ls2.
Proof.
  revert ls1; induction es1 as [|e' es1 IH]; intros [|l ls1] H; try done.
  - destruct ls1; [done|simpl in H; lia].
  - simpl in H. cbn [app weave]. rewrite IH by lia. by rewrite <- app_assoc.
Qed.

Lemma wpre_snoc es e ls l :
  length ls = length es -> wpre (es ++ [e]) (ls ++ [l]) = wpre es ls ++ l ++ [e].
Proof.
  revert ls; induction es as [|x es IH]; intros [|y ls] H; try done.
  simpl in H. cbn [app wpre]. rewrite IH by lia. by rewrite <- app_assoc.
Qed.

Lemma weave_elem es ls x : x ∈ es -> x ∈ weave es ls.
Proof.
  revert ls; induction es as [|e es IH]; intros ls Hx; [by inversion Hx|].
  destruct ls as [|l ls]; [done|]. cbn. rewrite elem_of_app, elem_of_cons.
  apply elem_of_cons in Hx as [->|Hx]; auto.
Qed.
End Contents.

Section Invariant.
Context {K V : Type}.
Implicit Types (t : BNode K V) (es : list (K * V)) (cs : list (BNode K V)).

Fixpoint to_list t : list (K * V) :=
  match t with
  | Leaf es => es
  | Internal es cs => weave es (map to_list cs)
  end.

(** All leaves at depth [h]; [m] entries or more in the root and [c] or more
    in every other node, [MAX_ENTRIES] at most; one child more than entries. *)
Fixpoint shape (c m h : nat) t : Prop :=
  match h, t with
  | O, Leaf es => m <= length es <= MAX_ENTRIES
  | S h, Internal es cs =>
    m <= length es <= MAX_ENTRIES /\ length cs = S (length es) /\ Forall (shape c c h) cs
  | _, _ => False
  end.

Lemma shape_root_weaken c m m' h t : shape c m h t -> m' <= m -> shape c m' h t.
Proof. destruct h, t; simpl; intuition lia. Qed.

Lemma shape_weaken c c' m h t : shape c m h t -> c' <= c -> shape c' m h t.
Proof.
  revert m t; induction h as [|h IH]; intros m [es|es cs]; simpl; try done.
  intros (H1 & H2 & H3) Hc. split_and!; [lia..|]. eapply Forall_impl; [exact H3|].
  intros x Hx. apply shape_root_weaken with c; [by apply IH|lia].
Qed.

(** Cutting the children where the entries are cut. *)
Lemma cut_children es1 es2 cs :
  length cs = S (length (es1 ++ es2)) ->
  exists cs1 c cs2, cs = cs1 ++ c :: cs2 /\ length cs1 = length es1 /\ length cs2 = length es2.
Proof.
  intros H. rewrite length_app in H.
  destruct (cut_at cs (length es1)) as (cs1 & [|c cs2] & -> & Hl); [lia|..];
    rewrite length_app in H; simpl in H; [lia|].
  exists cs1, c, cs2. split_and!; [done..|lia].
Qed.

Lemma to_list_split es1 es2 cs1 t cs2 :
  length cs1 = length es1 -> length cs2 = length es2 ->
  to_list (Internal (es1 ++ es2) (cs1 ++ t :: cs2)) =
  wpre es1 (map to_list cs1) ++ to_list t ++ wpost es2 (map to_list cs2).
Proof. intros H1 H2. cbn [to_list]. rewrite map_app. cbn [map]. apply weave_split; by rewrite length_map. Qed.

Lemma to_list_app es1 e es2 cs1 cs2 :
  length cs1 = S (length es1) ->
  to_list (Internal (es1 ++ e :: es2) (cs1 ++ cs2)) = to_list (Internal es1 cs1) ++ e :: to_list (Internal es2 cs2).
Proof. intros H. cbn [to_list]. rewrite map_app. apply weave_app. by rewrite length_map. Qed.

Lemma to_list_pair es1 e es2 cs1 l r cs2 :
  length cs1 = length es1 -> length cs2 = length es2 ->
  to_list (Internal (es1 ++ e :: es2) (cs1 ++ l :: r :: cs2)) =
  wpre es1 (map to_list cs1) ++ (to_list l ++ e :: to_list r) ++ wpost es2 (map to_list cs2).
Proof.
  intros H1 H2. rewrite (cons_middle l), (app_assoc cs1), to_list_app by (rewrite length_app; simpl; lia).
  rewrite <- (app_nil_r es1) at 1. rewrite to_list_split by done. cbn [to_list map wpost].
  rewrite weave_cons by (by rewrite length_map). by rewrite app_nil_r, <- !app_assoc.
Qed.

(** ** Searching a node *)
Context {HK : OrdKey K}.

Lemma position_from j es k :
  sorted es ->
  match linear_position_internal j es k with
  | Found i => exists es1 v es2, es = es1 ++ (k, v) :: es2 /\ i = j + length es1 /\ all_lt es1 k /\ all_gt es2 k
  | Descend i => exists es1 es2, es = es1 ++ es2 /\ i = j + length es1 /\ all_lt es1 k /\ all_gt es2 k
  end.
Proof.
  revert j; induction es as [|[a w] es IH]; intros j Hs; cbn.
  - exists [], []. split_and!; [done|simpl; lia|constructor|constructor].
  - apply sorted_cons in Hs as [H1 H2]. cbn in H1. destruct (kcmp a k) eqn:E.
    + apply kcmp_eq in E as ->. exists [], w, es. split_and!; [done|simpl; lia|constructor|done].
    + specialize (IH (S j) H2). destruct (linear_position_internal (S j) es k).
      * destruct IH as (es1 & v & es2 & -> & -> & Hlt & Hgt). exists ((a, w) :: es1), v, es2.
        split_and!; [done|simpl; lia|by constructor|done].
      * destruct IH as (es1 & es2 & -> & -> & Hlt & Hgt). exists ((a, w) :: es1), es2.
        split_and!; [done|simpl; lia|by constructor|done].
    + apply kcmp_gt in E. exists [], ((a, w) :: es). split_and!; [done|simpl; lia|constructor|].
      constructor; [done|]. by eapply all_gt_mono.
Qed.

Lemma find_entry_position j es k :
  linear_find_entry j es k = match linear_position_internal j es k with Found i => Some i | Descend _ => None end.
Proof. revert j; induction es as [|[a w] es IH]; intros j; cbn; [done|]. by destruct (kcmp a k). Qed.

(** The two outcomes of a search in a sorted node, cut at the slot found. *)
Variant position_case k es : FoundOrDescend -> Prop :=
| pos_found es1 v es2 :
    es = es1 ++ (k, v) :: es2 -> all_lt es1 k -> all_gt es2 k -> position_case k es (Found (length es1))
| pos_descend es1 es2 :
    es = es1 ++ es2 -> all_lt es1 k -> all_gt es2 k -> position_case k es (Descend (length es1)).

Lemma position_caseP k es : sorted es -> position_case k es (linear_position_internal 0 es k).
Proof.
  intros Hs. pose proof (position_from 0 es k Hs) as H. destruct (linear_position_internal 0 es k).
  - destruct H as (es1 & v & es2 & E & -> & ? & ?). by eapply pos_found.
  - destruct H as (es1 & es2 & E & -> & ? & ?). by eapply pos_descend.
Qed.

Lemma wpre_lt es ls k :
  length ls = length es -> sorted (wpre es ls) -> all_lt es k -> all_lt (wpre es ls) k.
Proof.
  revert ls; induction es as [|e es IH]; intros [|l ls] Hl Hs Hk; cbn; try done.
  cbn in Hs. apply sorted_mid in Hs as (H1 & H2 & H3 & H4). apply Forall_cons in Hk as [He Hk].
  apply all_lt_app. split; [by eapply all_lt_mono|]. constructor; [done|].
  apply IH; [simpl in Hl; lia|done..].
Qed.

Lemma wpost_gt es ls k :
  length ls = length es -> sorted (wpost es ls) -> all_gt es k -> all_gt (wpost es ls) k.
Proof.
  revert ls; induction es as [|e es IH]; intros [|l ls] Hl Hs Hk; cbn; try done.
  cbn in Hs. apply sorted_cons in Hs as [H1 H2]. apply Forall_cons in Hk as [He Hk].
  constructor; [done|]. by eapply all_gt_mono.
Qed.

Lemma sorted_weave_entries es ls : sorted (weave es ls) -> sorted es.
Proof.
  revert ls; induction es as [|e es IH]; intros [|l ls] Hs; try done; [constructor|].
  cbn in Hs. apply sorted_mid in Hs as (H1 & H2 & H3 & H4). apply sorted_cons. split; [|by eapply IH].
  apply Forall_forall. intros x Hx. apply (proj1 (Forall_forall _ _) H4). by apply weave_elem.
Qed.

(** Searching an internal node whose contents are sorted: the contents, cut
    around the slot. *)
Variant node_case k es cs : FoundOrDescend -> Prop :=
| node_found es1 v es2 cs1 cs2 :
    es = es1 ++ (k, v) :: es2 -> cs = cs1 ++ cs2 ->
    length cs1 = S (length es1) -> length cs2 = S (length es2) ->
    sorted (to_list (Internal es1 cs1)) -> sorted (to_list (Internal es2 cs2)) ->
    all_lt (to_list (Internal es1 cs1)) k -> all_gt (to_list (Internal es2 cs2)) k ->
    node_case k es cs (Found (length es1))
| node_descend es1 es2 cs1 t cs2 :
    es = es1 ++ es2 -> cs = cs1 ++ t :: cs2 ->
    length cs1 = length es1 -> length cs2 = length es2 -> sorted (to_list t) ->
    all_lt (wpre es1 (map to_list cs1)) k -> all_gt (wpost es2 (map to_list cs2)) k ->
    node_case k es cs (Descend (length es1)).

Lemma node_caseP k es cs :
  sorted (to_list (Internal es cs)) -> length cs = S (length es) ->
  node_case k es cs (linear_position_internal 0 es k).
Proof.
  intros Hs Hl. pose proof (sorted_weave_entries _ _ Hs) as Hes.
  destruct (position_caseP k es Hes) as [es1 v es2 -> Hlt Hgt|es1 es2 -> Hlt Hgt].
  - rewrite length_app in Hl. simpl in Hl.
    destruct (cut_at cs (S (length es1))) as (cs1 & cs2 & -> & Hc); [lia|].
    rewrite length_app in Hl. rewrite to_list_app in Hs by done.
    apply sorted_mid in Hs as (H1 & H2 & H3 & H4).
    eapply node_found; eauto. lia.
  - destruct (cut_children es1 es2 cs Hl) as (cs1 & t & cs2 & -> & H1 & H2).
    rewrite to_list_split in Hs by done.
    pose proof (sorted_app_l _ _ Hs) as Hpre. pose proof (sorted_app_r _ _ Hs) as Hr.
    pose proof (sorted_app_l _ _ Hr) as Ht. pose proof (sorted_app_r _ _ Hr) as Hpost.
    eapply node_descend; eauto; [apply wpre_lt|apply wpost_gt]; (done || by rewrite length_map).
Qed.

End Invariant.
