(* ===== verification/BTreeCore.v ===== *)
(** Lookup, predecessor, mutable borrow and insertion of the persistent
    B-tree against the sorted association list it stands for. *)
From S2P Require Import Prelude SortedMap BTree.
Open Scope nat_scope.

Section Core.
Context {K V : Type} {HK : OrdKey K}.
Implicit Types (t : BNode K V) (m : PersistentBTreeMap K V) (es : list (K * V)) (cs : list (BNode K V)).

(** The sorted association list a map stands for. *)
Definition contents m : list (K * V) := to_list (root m).

(** The map invariant: sorted contents, [len] entries, and a tree whose
    nodes but the root hold at least [c] entries.  [c = MIN_ENTRIES] is the
    module's occupancy rule; [c = 0] asks for the shape only. *)
Definition root_min (c h : nat) : nat := match h with O => 0 | S _ => Nat.min 1 c end.

Definition map_inv (c : nat) m : Prop :=
  (exists h, shape c (root_min c h) h (root m)) /\ sorted (contents m) /\ len m = length (contents m).

Lemma map_inv_weaken c c' m : map_inv c m -> c' <= c -> map_inv c' m.
Proof.
  intros ((h & Hh) & Hs & Hl) Hc. split; [|done]. exists h.
  apply shape_root_weaken with (root_min c h); [by apply (shape_weaken c)|].
  destruct h; unfold root_min; lia.
Qed.

(** ** Lookup *)

Lemma get_loop_spec c mi h t k :
  shape c mi h t -> sorted (to_list t) -> get_loop t k = Some (sm_lookup k (to_list t)).
Proof.
  revert mi t; induction h as [|h IH]; intros mi [es|es cs] Hsh Hs; try done; cbn [get_loop].
  - rewrite find_entry_position. cbn [to_list] in *.
    destruct (position_caseP k es Hs) as [es1 v es2 -> Hlt Hgt|es1 es2 -> Hlt Hgt].
    + rewrite list_lookup_middle by done. cbn. rewrite sm_lookup_skip by done. cbn. by rewrite kcmp_refl.
    + rewrite sm_lookup_skip, sm_lookup_all_gt by done. done.
  - destruct Hsh as (_ & Hl & Hc).
    destruct (node_caseP k es cs Hs Hl) as
      [es1 v es2 cs1 cs2 -> -> H1 H2 S1 S2 Hlt Hgt|es1 es2 cs1 t cs2 -> -> H1 H2 St Hlt Hgt].
    + rewrite to_list_app, sm_lookup_skip by done. rewrite list_lookup_middle by done. cbn.
      by rewrite kcmp_refl.
    + rewrite to_list_split, sm_lookup_skip, sm_lookup_stop by done.
      rewrite at_child_mid by done. cbn. apply Forall_app in Hc as [_ Hc]. apply Forall_cons in Hc as [Ht _].
      by rewrite (IH _ _ Ht St).
Qed.

(** ** Predecessor *)

Lemma partition_point_split (p : K * V -> bool) es1 es2 :
  Forall (fun e => p e = true) es1 -> Forall (fun e => p e = false) es2 ->
  partition_point p (es1 ++ es2) = length es1.
Proof.
  intros H1 H2. induction H1 as [|e es1 He H1 IH]; cbn.
  - destruct H2 as [|e es2 He _]; [done|]. cbn. by rewrite He.
  - by rewrite He, IH.
Qed.

Lemma all_lt_key_lt es k : all_lt es k -> Forall (fun e => key_lt e.1 k = true) es.
Proof. intros H. eapply Forall_impl; [exact H|]. intros e He. unfold key_lt. by rewrite He. Qed.

Lemma all_gt_key_lt es k : all_gt es k -> Forall (fun e => key_lt e.1 k = false) es.
Proof. intros H. eapply Forall_impl; [exact H|]. intros e He. unfold key_lt. by rewrite (klt_gt _ _ He). Qed.

(** [i = partition_point(|e| &e.0 < key)] cuts sorted entries below and not
    below the key. *)
Lemma partition_point_lt es k :
  sorted es ->
  exists es1 es2, es = es1 ++ es2 /\ partition_point (fun e => key_lt e.1 k) es = length es1 /\
    all_lt es1 k /\ Forall (fun e => ~ klt e.1 k) es2.
Proof.
  induction es as [|e es IH]; intros Hs; [exists [], []; by repeat constructor|].
  apply sorted_cons in Hs as [H1 H2]. cbn. destruct (key_lt e.1 k) eqn:E; unfold key_lt in E.
  - destruct (IH H2) as (es1 & es2 & -> & -> & ? & ?). exists (e :: es1), es2.
    split_and!; [done|done|constructor; [|done]|done]. unfold klt. by destruct (kcmp e.1 k).
  - exists [], (e :: es). split_and!; [done|done|constructor|].
    assert (~ klt e.1 k) as Hn by (unfold klt; by destruct (kcmp e.1 k)).
    constructor; [done|]. eapply Forall_impl; [exact H1|]. intros x Hx Hk.
    apply Hn. exact (klt_trans _ _ _ Hx Hk).
Qed.

(** The best entry so far, overridden by a better one in [l]. *)
Definition better (best : option (K * V)) (o : option (K * V)) : option (K * V) :=
  match o with Some e => Some e | None => best end.

Lemma best_left_spec es1 es2 best :
  best_left (es1 ++ es2) (length es1) best = Some (better best (last es1)).
Proof.
  destruct es1 as [|x es _] using rev_ind; [done|].
  unfold best_left. rewrite length_app, last_snoc, <- app_assoc. cbn [length app].
  destruct (0 <? length es + 1) eqn:E; prop_bools; [|lia].
  rewrite Nat.add_sub, list_lookup_middle by done. done.
Qed.

Lemma not_lt_filter es k : Forall (fun e : K * V => ~ klt e.1 k) es -> sm_pred k es = None.
Proof. intros H. unfold sm_pred. by rewrite filter_drop_all. Qed.

Lemma wpost_not_lt (es : list (K * V)) ls k :
  length ls = length es -> sorted (wpost es ls) -> Forall (fun e => ~ klt e.1 k) es ->
  Forall (fun e => ~ klt e.1 k) (wpost es ls).
Proof.
  revert ls; induction es as [|e es IH]; intros [|l ls] Hl Hs Hk; try done; cbn in *.
  apply sorted_cons in Hs as [H1 H2]. apply Forall_cons in Hk as [He Hk].
  constructor; [done|]. eapply Forall_impl; [exact H1|]. intros x Hx Hlt. apply He. exact (klt_trans _ _ _ Hx Hlt).
Qed.

Lemma last_wpre (es : list (K * V)) ls : length ls = length es -> last (wpre es ls) = last es.
Proof.
  revert ls; induction es as [|e es IH]; intros [|l ls] Hl; try done. cbn [wpre].
  simpl in Hl. rewrite last_app, !last_cons, IH by lia. by destruct (last es).
Qed.

Lemma sm_pred_stop_not_lt k (M Q : list (K * V)) :
  Forall (fun e => ~ klt e.1 k) Q -> sm_pred k (M ++ Q) = sm_pred k M.
Proof. intros H. unfold sm_pred. by rewrite filter_app, (filter_drop_all _ Q), app_nil_r. Qed.

Lemma predecessor_loop_spec c mi h t k best :
  shape c mi h t -> sorted (to_list t) ->
  predecessor_loop t k best = Some (better best (sm_pred k (to_list t))).
Proof.
  revert mi t best; induction h as [|h IH]; intros mi [es|es cs] best Hsh Hs; try done; cbn [predecessor_loop].
  - cbn [to_list] in *. destruct (partition_point_lt es k Hs) as (es1 & es2 & -> & -> & Hlt & Hge).
    rewrite best_left_spec, sm_pred_skip, not_lt_filter by done. by destruct (last es1).
  - destruct Hsh as (_ & Hl & Hc). pose proof (sorted_weave_entries _ _ Hs) as Hes.
    destruct (partition_point_lt es k Hes) as (es1 & es2 & -> & -> & Hlt & Hge).
    destruct (cut_children es1 es2 cs Hl) as (cs1 & t & cs2 & -> & H1 & H2).
    rewrite to_list_split in Hs |- * by done. rewrite best_left_spec. cbn [mbind option_bind].
    rewrite at_child_mid by done. cbn [mjoin option_join].
    apply Forall_app in Hc as [_ Hc]. apply Forall_cons in Hc as [Ht _].
    pose proof (sorted_app_l _ _ Hs) as Hpre. apply sorted_app_r in Hs.
    pose proof (sorted_app_l _ _ Hs) as Hst. apply sorted_app_r in Hs.
    rewrite (IH _ _ _ Ht Hst). rewrite sm_pred_skip by (apply wpre_lt; [by rewrite length_map|done..]).
    rewrite sm_pred_stop_not_lt by (apply wpost_not_lt; [by rewrite length_map|done..]).
    rewrite last_wpre by (by rewrite length_map). by destruct (sm_pred k (to_list t)), (last es1).
Qed.

(** ** Insertion *)

Lemma split_entries_app es1 e es2 mid :
  mid = length es1 -> split_entries (es1 ++ e :: es2) mid = Some (es1, e, es2).
Proof.
  intros ->. unfold split_entries. rewrite cons_middle, app_assoc.
  rewrite vec_split_off_app by (rewrite length_app; simpl; lia). cbn [mbind option_bind].
  by rewrite vec_pop_snoc.
Qed.

(** An overfull node holds 8 entries and splits 4 / 1 / 3. *)
Lemma cut_overfull es :
  length es = S MAX_ENTRIES ->
  exists es1 e es2, es = es1 ++ e :: es2 /\ length es / 2 = length es1 /\ length es1 = 4 /\ length es2 = 3.
Proof.
  intros H. destruct (cut_at es 4) as (es1 & [|e es2] & -> & H1); [rewrite H; unfold MAX_ENTRIES, ORDER; lia|..];
    rewrite length_app, H1 in H; unfold MAX_ENTRIES, ORDER in H; simpl in H; [lia|].
  exists es1, e, es2. rewrite length_app, H1. simpl. replace (length es2) with 3 by lia. done.
Qed.

(** What a node and its split stand for, and the shape of both. *)
Definition insert_post (c mi h : nat) (l : list (K * V)) (t' : BNode K V) (split : split_result) : Prop :=
  match split with
  | None => to_list t' = l /\ shape c mi h t'
  | Some (r, md) => to_list t' ++ md :: to_list r = l /\ shape c MIN_ENTRIES h t' /\ shape c MIN_ENTRIES h r
  end.

Lemma leaf_settle c mi es :
  mi <= length es -> length es <= S MAX_ENTRIES ->
  forall (prev : option V), exists t' split,
  (if length es <=? MAX_ENTRIES then Some (Leaf es, None, prev)
   else let mid := length es / 2 in
        let! (left_entries, median, right_entries) := split_entries es mid in
        Some (Leaf left_entries, Some (Leaf right_entries, median), prev)) = Some (t', split, prev) /\
  insert_post c mi 0 es t' split.
Proof.
  intros Hm HM prev. destruct (length es <=? MAX_ENTRIES) eqn:E; prop_bools.
  - exists (Leaf es), None. split; [done|]. split; [done|]. simpl. lia.
  - destruct (cut_overfull es) as (es1 & e & es2 & -> & Hmid & H1 & H2); [lia|]. cbn zeta.
    rewrite Hmid, split_entries_app by done. do 2 eexists. split; [reflexivity|].
    cbn. rewrite H1, H2. unfold MIN_ENTRIES, MAX_ENTRIES, ORDER. simpl. split_and!; [done|lia..].
Qed.

Lemma internal_settle c mi h es cs :
  c <= MIN_ENTRIES -> mi <= length es -> length es <= S MAX_ENTRIES -> length cs = S (length es) ->
  Forall (shape c c h) cs ->
  forall (prev : option V), exists t' split,
  (if length cs <=? MAX_CHILDREN then Some (Internal es cs, None, prev)
   else let mid := length es / 2 in
        let! (left_entries, median, right_entries) := split_entries es mid in
        let! (left_children, right_children) := vec_split_off (mid + 1) cs in
        Some (Internal left_entries left_children,
              Some (Internal right_entries right_children, median), prev)) = Some (t', split, prev) /\
  insert_post c mi (S h) (to_list (Internal es cs)) t' split.
Proof.
  intros Hc Hm HM Hl Hsh prev. destruct (length cs <=? MAX_CHILDREN) eqn:E; prop_bools.
  - exists (Internal es cs), None. split; [done|]. split; [done|]. simpl.
    unfold MAX_ENTRIES, MAX_CHILDREN, ORDER in *. split_and!; [lia..|done].
  - destruct (cut_overfull es) as (es1 & e & es2 & -> & Hmid & H1 & H2);
      [unfold MAX_ENTRIES, MAX_CHILDREN, ORDER in *; lia|]. cbn zeta.
    rewrite Hmid, split_entries_app by done. cbn [mbind option_bind].
    rewrite length_app in Hl. simpl in Hl.
    destruct (cut_at cs (length es1 + 1)) as (cs1 & cs2 & -> & Hc1); [lia|].
    rewrite vec_split_off_app by done. do 2 eexists. split; [reflexivity|].
    rewrite length_app in Hl. apply Forall_app in Hsh as [Hs1 Hs2].
    cbn [insert_post]. split; [symmetry; apply to_list_app; lia|].
    cbn [shape]. unfold MIN_ENTRIES, MAX_ENTRIES, ORDER. simpl. split_and!; (done || lia).
Qed.

(** What [insert_helper] must deliver: the node(s) standing for the list with
    the binding inserted, and the value the key had. *)
Definition insert_ok (c mi h : nat) t k v (r : option (BNode K V * split_result * option V)) : Prop :=
  exists t' split, r = Some (t', split, sm_lookup k (to_list t)) /\
    insert_post c mi h (sm_insert k v (to_list t)) t' split.

Lemma insert_helper_spec c mi h t k v :
  c <= MIN_ENTRIES -> shape c mi h t -> sorted (to_list t) -> insert_ok c mi h t k v (insert_helper t k v).
Proof.
  intros Hcm. revert mi t; induction h as [|h IH]; intros mi [es|es cs] Hsh Hs; try done; cbn [insert_helper].
  - cbn [to_list shape] in *. unfold binary_search_by, insert_ok. cbn [to_list].
    destruct (position_caseP k es Hs) as [es1 w es2 -> Hlt Hgt|es1 es2 -> Hlt Hgt].
    + rewrite sm_lookup_skip, sm_insert_skip, sm_insert_at by done. cbn [sm_lookup]. rewrite kcmp_refl.
      rewrite list_lookup_middle by done. cbn [mbind option_bind fst].
      rewrite vec_set_app by done. cbn [mbind option_bind]. rewrite length_app in Hsh. simpl in Hsh.
      apply leaf_settle; rewrite length_app; simpl; lia.
    + rewrite sm_lookup_skip, sm_lookup_all_gt, sm_insert_skip by done.
      rewrite sm_insert_front by done.
      rewrite vec_insert_app by done. cbn [mbind option_bind]. rewrite length_app in Hsh.
      apply leaf_settle; rewrite length_app; simpl; lia.
  - pose proof Hsh as (Hm & Hl & Hc). unfold binary_search_by, insert_ok.
    destruct (node_caseP k es cs Hs Hl) as
      [es1 w es2 cs1 cs2 -> -> H1 H2 S1 S2 Hlt Hgt|es1 es2 cs1 t cs2 -> -> H1 H2 St Hlt Hgt].
    + rewrite list_lookup_middle by done. cbn [mbind option_bind fst].
      rewrite vec_set_app by done. do 2 eexists. rewrite to_list_app by done.
      rewrite sm_lookup_skip, sm_insert_skip, sm_insert_at by done. cbn [sm_lookup]. rewrite kcmp_refl.
      split; [reflexivity|]. cbn [insert_post]. split; [by rewrite to_list_app|].
      rewrite !length_app in Hm, Hl. simpl in Hm, Hl. cbn [shape]. rewrite !length_app. simpl.
      split_and!; [lia..|done].
    + rewrite at_child_mid by done. cbn [mjoin option_join].
      apply Forall_app in Hc as [Hc1 Hc]. apply Forall_cons in Hc as [Ht Hc2].
      destruct (IH _ _ Ht St) as (t' & split & -> & Hpost). cbn [mbind option_bind].
      rewrite vec_set_app by done. cbn [mbind option_bind].
      rewrite to_list_split, sm_lookup_skip, sm_lookup_stop by done.
      rewrite sm_insert_skip, sm_insert_stop by done. rewrite length_app in Hm.
      destruct split as [[r md]|]; cbn [insert_post] in Hpost.
      * destruct Hpost as (<- & Hs1 & Hs2). rewrite (vec_insert_app es1 es2) by done. cbn [mbind option_bind].
        rewrite (cons_middle t'), (app_assoc cs1), (vec_insert_app (cs1 ++ [t'])) by (rewrite length_app; simpl; lia).
        cbn [mbind option_bind]. rewrite <- (app_assoc cs1 [t']). cbn [app].
        replace (wpre es1 (map to_list cs1) ++ (to_list t' ++ md :: to_list r) ++ wpost es2 (map to_list cs2))
          with (to_list (Internal (es1 ++ md :: es2) (cs1 ++ t' :: r :: cs2))) by (by apply to_list_pair).
        apply internal_settle; rewrite ?length_app; simpl; try lia.
        apply Forall_app. split; [done|]. repeat constructor; try done; by eapply shape_root_weaken.
      * destruct Hpost as [<- Hs1]. rewrite <- to_list_split by done.
        apply internal_settle; rewrite ?length_app; simpl; try lia.
        apply Forall_app. split; [done|]. by constructor.
Qed.

(** The transient worker is the path-copying worker. *)
Lemma insert_transient_helper_eq h c mi t k v :
  shape c mi h t -> insert_transient_helper t k v = insert_helper t k v.
Proof.
  revert mi t; induction h as [|h IH]; intros mi [es|es cs] Hsh; try done;
    cbn [insert_transient_helper insert_helper].
  - destruct (binary_search_by es k) as [idx|idx].
    + destruct (es !! idx); [|done]. cbn [mbind option_bind]. destruct (vec_set idx _ es) as [es'|]; [|done]. cbn [mbind option_bind].
      destruct (length es' <=? MAX_ENTRIES); [done|]. unfold split_entries.
      destruct (vec_split_off _ es') as [[l r]|]; [|done]. cbn [mbind option_bind]. by destruct (vec_pop l) as [[md l']|].
    + destruct (vec_insert idx _ es) as [es'|]; [|done]. cbn [mbind option_bind].
      destruct (length es' <=? MAX_ENTRIES); [done|]. unfold split_entries.
      destruct (vec_split_off _ es') as [[l r]|]; [|done]. cbn [mbind option_bind]. by destruct (vec_pop l) as [[md l']|].
  - destruct (binary_search_by es k) as [idx|idx]; [done|]. rewrite !at_child_lookup.
    destruct (cs !! idx) as [t'|] eqn:E; [|done]. cbn [fmap option_fmap option_map mjoin option_join].
    destruct Hsh as (_ & _ & Hc). rewrite (IH c) by (by eapply Forall_lookup_1).
    destruct (insert_helper t' k v) as [[[t'' split] prev]|]; [|done]. cbn [mbind option_bind].
    destruct (vec_set idx t'' cs) as [cs'|]; [|done]. cbn [mbind option_bind].
    destruct (match split with Some _ => _ | None => _ end) as [[es' cs'']|]; [|done]. cbn [mbind option_bind].
    destruct (length cs'' <=? MAX_CHILDREN); [done|]. unfold split_entries.
    destruct (vec_split_off _ es') as [[l r]|]; [|done]. cbn [mbind option_bind]. by destruct (vec_pop l) as [[md l']|].
Qed.

(** ** Mutable borrow *)

Definition get_mut_ok (c mi h : nat) t k (r : option (option (V * (V -> BNode K V)))) : Prop :=
  match sm_lookup k (to_list t) with
  | None => r = Some None
  | Some v => exists put, r = Some (Some (v, put)) /\
      forall v', to_list (put v') = sm_insert k v' (to_list t) /\ shape c mi h (put v')
  end.

Lemma list_insert_mid {A} (l1 l2 : list A) x y i :
  i = length l1 -> <[i := y]> (l1 ++ x :: l2) = l1 ++ y :: l2.
Proof. intros ->. rewrite insert_app_r_alt by done. by rewrite Nat.sub_diag. Qed.

Lemma get_mut_helper_spec c mi h t k :
  shape c mi h t -> sorted (to_list t) -> get_mut_ok c mi h t k (get_mut_helper t k).
Proof.
  revert mi t; induction h as [|h IH]; intros mi [es|es cs] Hsh Hs; try done; cbn [get_mut_helper].
  - rewrite find_entry_position. unfold get_mut_ok. cbn [to_list shape] in *.
    destruct (position_caseP k es Hs) as [es1 v es2 -> Hlt Hgt|es1 es2 -> Hlt Hgt].
    + rewrite list_lookup_middle, sm_lookup_skip by done. cbn [sm_lookup]. rewrite kcmp_refl.
      eexists. split; [reflexivity|]. intros v'. cbn [to_list shape fst].
      rewrite list_insert_mid, sm_insert_skip, sm_insert_at by done.
      rewrite length_app in *. split; [done|]. simpl in *. lia.
    + by rewrite sm_lookup_skip, sm_lookup_all_gt by done.
  - pose proof Hsh as (Hm & Hl & Hc). unfold get_mut_ok.
    destruct (node_caseP k es cs Hs Hl) as
      [es1 v es2 cs1 cs2 -> -> H1 H2 S1 S2 Hlt Hgt|es1 es2 cs1 t cs2 -> -> H1 H2 St Hlt Hgt].
    + rewrite to_list_app, sm_lookup_skip, list_lookup_middle by done. cbn [sm_lookup]. rewrite kcmp_refl.
      eexists. split; [reflexivity|]. intros v'. cbn [fst]. rewrite list_insert_mid by done.
      rewrite to_list_app, sm_insert_skip, sm_insert_at by done. cbn [shape].
      rewrite !length_app in *. simpl in *. split_and!; (lia || done).
    + rewrite at_child_mid by done. cbn [mjoin option_join].
      apply Forall_app in Hc as [Hc1 Hc]. apply Forall_cons in Hc as [Ht Hc2].
      pose proof (IH _ _ Ht St) as Hr. unfold get_mut_ok in Hr.
      rewrite to_list_split, sm_lookup_skip, sm_lookup_stop by done.
      destruct (sm_lookup k (to_list t)) as [v|]; [|by rewrite Hr].
      destruct Hr as (put & -> & Hput). cbn [mbind option_bind]. eexists. split; [reflexivity|].
      intros v'. destruct (Hput v') as [Hl' Hs']. rewrite list_insert_mid by done.
      rewrite to_list_split, sm_insert_skip, sm_insert_stop, Hl' by done. split; [done|].
      cbn [shape]. rewrite !length_app in *. simpl in *. split_and!; [lia..|].
      apply Forall_app. split; [done|by constructor].
Qed.

(** ** Whole maps *)

Lemma new_inv c : map_inv c (new (K:=K) (V:=V)).
Proof. split; [|split; [constructor|done]]. exists 0. simpl. lia. Qed.

Lemma insert_map c m k v :
  c <= MIN_ENTRIES -> map_inv c m ->
  exists m', insert m k v = Some (m', sm_lookup k (contents m)) /\
    contents m' = sm_insert k v (contents m) /\ map_inv c m'.
Proof.
  intros Hc ((h & Hh) & Hs & Hl). unfold contents in *.
  destruct (insert_helper_spec c (root_min c h) h (root m) k v Hc Hh Hs) as (t' & split & E & Hpost).
  unfold insert. rewrite E. cbn [mbind option_bind]. eexists. split; [reflexivity|].
  pose proof (length_sm_insert k v (to_list (root m)) Hs) as Hlen.
  assert (Hr : exists h', let r := match split with
            | Some (right_node, median) => Internal [median] [t'; right_node] | None => t' end in
            to_list r = sm_insert k v (to_list (root m)) /\ shape c (root_min c h') h' r).
  { destruct split as [[r md]|]; cbn [insert_post] in Hpost.
    - destruct Hpost as (Hl' & H1 & H2). exists (S h). split; [exact Hl'|]. cbn [shape root_min length].
      unfold MAX_ENTRIES, ORDER. split_and!; [lia..|done|].
      repeat constructor; (apply shape_root_weaken with MIN_ENTRIES; [|lia]).
      + done.
      + done.
    - exists h. exact Hpost. }
  destruct Hr as (h' & Hl' & Hsh'). cbn [root]. split; [done|].
  split; [by exists h'|]. unfold contents. cbn [root len]. rewrite Hl'.
  split; [by apply sm_insert_sorted|]. rewrite Hlen, Hl. destruct (sm_lookup k (to_list (root m))); lia.
Qed.

Lemma insert_mut_eq m c k v : map_inv c m -> insert_mut m k v = insert m k v.
Proof.
  intros ((h & Hh) & _). unfold insert_mut, insert. by erewrite insert_transient_helper_eq.
Qed.

Lemma get_map c m k : map_inv c m -> get m k = Some (sm_lookup k (contents m)).
Proof. intros ((h & Hh) & Hs & _). by eapply get_loop_spec. Qed.

(** ** Deciding the invariant *)

Fixpoint sortedb es : bool :=
  match es with
  | [] => true
  | e :: es => forallb (fun x => bool_decide (klt e.1 x.1)) es && sortedb es
  end.

Fixpoint shapeb (c mi h : nat) t : bool :=
  match h, t with
  | O, Leaf es => (mi <=? length es) && (length es <=? MAX_ENTRIES)
  | S h, Internal es cs =>
    (mi <=? length es) && (length es <=? MAX_ENTRIES) && (length cs =? S (length es)) &&
    forallb (shapeb c c h) cs
  | _, _ => false
  end.

Definition map_invb (c h : nat) m : bool :=
  shapeb c (root_min c h) h (root m) && sortedb (contents m) && (len m =? length (contents m)).

Lemma sortedb_sound es : sortedb es = true -> sorted es.
Proof.
  induction es as [|e es IH]; cbn; intros H; [constructor|]. prop_bools.
  apply sorted_cons. split; [|by apply IH]. apply Forall_forall. intros x Hx.
  apply list_elem_of_In in Hx. rewrite forallb_forall in H. by apply H, bool_decide_eq_true in Hx.
Qed.

Lemma shapeb_sound c mi h t : shapeb c mi h t = true -> shape c mi h t.
Proof.
  revert mi t; induction h as [|h IH]; intros mi [es|es cs] H; try done; cbn in *; prop_bools; [done|].
  split_and!; [done..|]. apply Forall_forall. intros x Hx. apply IH.
  apply list_elem_of_In in Hx. rewrite forallb_forall in *. auto.
Qed.

Lemma map_invb_sound c h m : map_invb c h m = true -> map_inv c m.
Proof.
  unfold map_invb. intros H. prop_bools. split; [exists h; by apply shapeb_sound|].
  split; [by apply sortedb_sound|done].
Qed.

End Core.

(** ** Lookups by a borrowed key

    [get_by] and [get_mut_by] compare keys with a [Q] through [Borrow]. *)
Section Borrow.
Context {K V Q : Type} (bcmp : K -> Q -> comparison).
Implicit Types (entries : list (K * V)) (node : BNode K V) (key : Q).

Fixpoint linear_find_entry_by (i : nat) entries key : option nat :=
  match entries with
  | [] => None
  | (k, _) :: entries =>
    match bcmp k key with
    | Eq => Some i
    | Gt => None
    | Lt => linear_find_entry_by (S i) entries key
    end
  end.

Fixpoint linear_position_internal_by (i : nat) entries key : FoundOrDescend :=
  match entries with
  | [] => Descend i
  | (k, _) :: entries =>
    match bcmp k key with
    | Eq => Found i
    | Gt => Descend i
    | Lt => linear_position_internal_by (S i) entries key
    end
  end.

Fixpoint get_by_loop node key : option (option V) :=
  match node with
  | Leaf entries =>
    match linear_find_entry_by 0 entries key with
    | None => Some None
    | Some i => let! e := entries !! i in Some (Some e.2)
    end
  | Internal entries children =>
    match linear_position_internal_by 0 entries key with
    | Found i => let! e := entries !! i in Some (Some e.2)
    | Descend i => mjoin (at_child (fun c => get_by_loop c key) children i)
    end
  end.

Definition get_by (m : PersistentBTreeMap K V) key : option (option V) := get_by_loop (root m) key.

Fixpoint get_mut_by_helper node key : option (option (V * (V -> BNode K V))) :=
  match node with
  | Leaf entries =>
    match linear_find_entry_by 0 entries key with
    | None => Some None
    | Some i => let! e := entries !! i in
                Some (Some (e.2, fun v => Leaf (<[i := (e.1, v)]> entries)))
    end
  | Internal entries children =>
    match linear_position_internal_by 0 entries key with
    | Found i => let! e := entries !! i in
                 Some (Some (e.2, fun v => Internal (<[i := (e.1, v)]> entries) children))
    | Descend i =>
      let! r := mjoin (at_child (fun c => get_mut_by_helper c key) children i) in
      match r with
      | None => Some None
      | Some (v, put) => Some (Some (v, fun v => Internal entries (<[i := put v]> children)))
      end
    end
  end.

(** [K: Borrow<Q>] promises that both orders agree: asking with the borrowed
    form of [k] is asking with [k]. *)
Context {HK : OrdKey K} (k : K) (q : Q) (Hborrow : forall k', bcmp k' q = kcmp k' k).

Lemma find_entry_by_eq i entries : linear_find_entry_by i entries q = linear_find_entry i entries k.
Proof using Hborrow.
  revert i; induction entries as [|[a w] es IH]; intros i; cbn; [done|]. by rewrite Hborrow, IH.
Qed.

Lemma position_by_eq i entries : linear_position_internal_by i entries q = linear_position_internal i entries k.
Proof using Hborrow.
  revert i; induction entries as [|[a w] es IH]; intros i; cbn; [done|]. by rewrite Hborrow, IH.
Qed.

Lemma get_by_loop_eq h c mi node : shape c mi h node -> get_by_loop node q = get_loop node k.
Proof using Hborrow.
  revert mi node; induction h as [|h IH]; intros mi [es|es cs] Hsh; try done; cbn [get_by_loop get_loop].
  - by rewrite find_entry_by_eq.
  - rewrite position_by_eq. destruct (linear_position_internal 0 es k) as [i|i]; [done|].
    rewrite !at_child_lookup. destruct Hsh as (_ & _ & Hc). destruct (cs !! i) as [t|] eqn:E; [|done].
    cbn. apply (IH c). by eapply Forall_lookup_1.
Qed.

Lemma get_mut_by_helper_eq h c mi node : shape c mi h node -> get_mut_by_helper node q = get_mut_helper node k.
Proof using Hborrow.
  revert mi node; induction h as [|h IH]; intros mi [es|es cs] Hsh; try done; cbn [get_mut_by_helper get_mut_helper].
  - by rewrite find_entry_by_eq.
  - rewrite position_by_eq. destruct (linear_position_internal 0 es k) as [i|i]; [done|].
    rewrite !at_child_lookup. destruct Hsh as (_ & _ & Hc). destruct (cs !! i) as [t|] eqn:E; [|done].
    cbn [fmap option_fmap option_map mjoin option_join]. by rewrite (IH c t) by (by eapply Forall_lookup_1).
Qed.
End Borrow.

(** A map of the [n] keys [0, 2, .. 2n-2] built by [insert_mut], for the
    concrete instances. *)
Definition even_map (n : nat) : PersistentBTreeMap Z nat :=
  default new (foldl (fun m i => m ← m; fst <$> insert_mut m (2 * Z.of_nat i)%Z i) (Some new) (seq 0 n)).

(** ** Properties *)

(** Insertion refines the sorted map.  [insert] never panics, returns the
    value the key had, and the new tree stands for the old entries with the
    binding inserted; it is again a well-formed tree of the same occupancy
    with the right [len].  The in-place [insert_mut] gives the same tree. *)
Lemma insert_refines {K V} `{!OrdKey K} c (m : PersistentBTreeMap K V) k v :
  c <= MIN_ENTRIES -> map_inv c m ->
  exists m', insert m k v = Some (m', sm_lookup k (contents m)) /\ insert_mut m k v = insert m k v /\
    contents m' = sm_insert k v (contents m) /\ map_inv c m'.
Proof.
  intros Hc Hm. destruct (insert_map c m k v Hc Hm) as (m' & H1 & H2 & H3).
  exists m'. split_and!; [done|by eapply insert_mut_eq|done..].
Qed.

(** Inserting into 99 entries splits leaves up to the root. *)

(** Lookup.  [get] never panics and returns what the sorted list binds
    the key to; after [insert k v] it returns [v] for [k] and is unchanged
    for every other key. *)
Lemma get_refines {K V} `{!OrdKey K} c (m m' : PersistentBTreeMap K V) k v old k' :
  c <= MIN_ENTRIES -> map_inv c m -> insert m k v = Some (m', old) ->
  get m k' = Some (sm_lookup k' (contents m)) /\ get m k = Some old /\
  get m' k' = match kcmp k k' with Eq => Some (Some v) | _ => get m k' end.
Proof.
  intros Hc Hm Hi. destruct (insert_map c m k v Hc Hm) as (m'' & H1 & H2 & H3).
  rewrite H1 in Hi. injection Hi as -> <-. rewrite !(get_map c), H2 by done.
  rewrite sm_lookup_insert by apply Hm. split_and!; [done..|].
  by destruct (kcmp k k').
Qed.


(** Predecessor.  [predecessor] never panics and returns the entry with
    the largest key strictly below the key, or nothing when there is none. *)
Lemma predecessor_refines {K V} `{!OrdKey K} c (m : PersistentBTreeMap K V) k :
  map_inv c m -> predecessor m k = Some (sm_pred k (contents m)).
Proof.
  intros ((h & Hh) & Hs & _). unfold predecessor. erewrite predecessor_loop_spec by done.
  unfold contents. by destruct (sm_pred k (to_list (root m))).
Qed.


(** Mutable borrow.  [get_mut] finds exactly the keys [get] finds, reads
    the stored value, and writing [v'] through the borrow is [insert] of [v']:
    same contents, same [len], still well-formed. *)
Lemma get_mut_refines {K V} `{!OrdKey K} c (m : PersistentBTreeMap K V) k :
  map_inv c m ->
  match sm_lookup k (contents m) with
  | None => get_mut m k = Some None
  | Some v => exists put, get_mut m k = Some (Some (v, put)) /\
      forall v', contents (put v') = sm_insert k v' (contents m) /\ map_inv c (put v')
  end.
Proof.
  intros ((h & Hh) & Hs & Hl). pose proof (get_mut_helper_spec c _ h (root m) k Hh Hs) as H.
  unfold get_mut_ok, contents in *. unfold get_mut.
  destruct (sm_lookup k (to_list (root m))) as [v|] eqn:E; [|by rewrite H].
  destruct H as (put & -> & Hput). cbn [mbind option_bind]. eexists. split; [reflexivity|].
  intros v'. destruct (Hput v') as [H1 H2]. cbn [root]. split; [done|].
  split; [by exists h|]. unfold contents. cbn [root len]. rewrite H1.
  split; [by apply sm_insert_sorted|]. by rewrite length_sm_insert, E by done.
Qed.

