(* ===== verification/BTreeRemove.v ===== *)
(** Removal from the persistent B-tree: rotation, merging, the min-occupancy
    repair, and its refinement of removal from the sorted list. *)
From S2P Require Import Prelude SortedMap BTree BTreeCore.
Open Scope nat_scope.

Section Remove.
Context {K V : Type} {HK : OrdKey K}.
Implicit Types (t node : BNode K V) (m : PersistentBTreeMap K V) (entries es : list (K * V))
  (children cs : list (BNode K V)).

Definition entry_count node : nat :=
  match node with Leaf entries | Internal entries _ => length entries end.

(** [i] is at least 1 at every call. *)
Definition rotate_from_left entries children (i : nat)
  : option (list (K * V) * list (BNode K V)) :=
  let! sibling := children !! (i - 1) in
  let! (moved_entry, moved_child, sibling) :=
    match sibling with
    | Leaf le => let! (x, le) := vec_pop le in Some (x, None, Leaf le)
    | Internal le lc =>
      let! (x, le) := vec_pop le in
      let! (c, lc) := vec_pop lc in Some (x, Some c, Internal le lc)
    end in
  let! children := vec_set (i - 1) sibling children in
  let! separator := entries !! (i - 1) in
  let! entries := vec_set (i - 1) moved_entry entries in
  let! child := children !! i in
  let! child :=
    match child with
    | Leaf ce => let! ce := vec_insert 0 separator ce in Some (Leaf ce)
    | Internal ce cc =>
      let! ce := vec_insert 0 separator ce in
      let! moved_child := moved_child in
      let! cc := vec_insert 0 moved_child cc in Some (Internal ce cc)
    end in
  let! children := vec_set i child children in
  Some (entries, children).

Definition rotate_from_right entries children (i : nat)
  : option (list (K * V) * list (BNode K V)) :=
  let! sibling := children !! (i + 1) in
  let! (moved_entry, moved_child, sibling) :=
    match sibling with
    | Leaf re => let! (x, re) := vec_remove 0 re in Some (x, None, Leaf re)
    | Internal re rc =>
      let! (x, re) := vec_remove 0 re in
      let! (c, rc) := vec_remove 0 rc in Some (x, Some c, Internal re rc)
    end in
  let! children := vec_set (i + 1) sibling children in
  let! separator := entries !! i in
  let! entries := vec_set i moved_entry entries in
  let! child := children !! i in
  let! child :=
    match child with
    | Leaf ce => Some (Leaf (ce ++ [separator]))
    | Internal ce cc =>
      let! moved_child := moved_child in Some (Internal (ce ++ [separator]) (cc ++ [moved_child]))
    end in
  let! children := vec_set i child children in
  Some (entries, children).

Definition merge_children entries children (sep : nat)
  : option (list (K * V) * list (BNode K V)) :=
  let! (separator, entries) := vec_remove sep entries in
  let! (right_node, children) := vec_remove (sep + 1) children in
  let! left_node := children !! sep in
  let merged :=
    match left_node, right_node with
    | Leaf le, Leaf re => Leaf (le ++ [separator] ++ re)
    | Internal le lc, Internal re rc => Internal (le ++ [separator] ++ re) (lc ++ rc)
    | Leaf le, Internal _ _ => Leaf (le ++ [separator])
    | Internal le lc, Leaf _ => Internal (le ++ [separator]) lc
    end in
  let! children := vec_set sep merged children in
  Some (entries, children).

Definition fix_child entries children (i : nat) : option (list (K * V) * list (BNode K V)) :=
  let! child := children !! i in
  if MIN_ENTRIES <=? entry_count child then Some (entries, children)
  else
    let spare j := match children !! j with Some c => MIN_ENTRIES <? entry_count c | None => false end in
    if (0 <? i) && spare (i - 1) then rotate_from_left entries children i
    else if (i + 1 <? length children) && spare (i + 1) then rotate_from_right entries children i
    else if 0 <? i then merge_children entries children (i - 1)
    else merge_children entries children i.

(** The detached entry and the subtree left. *)
Fixpoint remove_max node : option ((K * V) * BNode K V) :=
  match node with
  | Leaf entries => let! (kv, entries) := vec_pop entries in Some (kv, Leaf entries)
  | Internal entries children =>
    let last := length children - 1 in
    let! (kv, child) := mjoin (at_child remove_max children last) in
    let! children := vec_set last child children in
    let! (entries, children) := fix_child entries children last in
    Some (kv, Internal entries children)
  end.

(** The removed value and the subtree left; a miss leaves it as it was. *)
Fixpoint remove_transient_helper node key : option (option V * BNode K V) :=
  match node with
  | Leaf entries =>
    match binary_search_by entries key with
    | Found idx => let! (e, entries) := vec_remove idx entries in Some (Some e.2, Leaf entries)
    | Descend _ => Some (None, node)
    end
  | Internal entries children =>
    match binary_search_by entries key with
    | Found idx =>
      let! (pred, child) := mjoin (at_child remove_max children idx) in
      let! children := vec_set idx child children in
      let! old := entries !! idx in
      let! entries := vec_set idx pred entries in
      let! (entries, children) := fix_child entries children idx in
      Some (Some old.2, Internal entries children)
    | Descend idx =>
      let! (removed, child) := mjoin (at_child (fun c => remove_transient_helper c key) children idx) in
      let! children := vec_set idx child children in
      match removed with
      | None => Some (None, Internal entries children)
      | Some v =>
        let! (entries, children) := fix_child entries children idx in
        Some (Some v, Internal entries children)
      end
    end
  end.

Definition remove_mut m key : option (option V * PersistentBTreeMap K V) :=
  let! (removed, root') := remove_transient_helper (root m) key in
  match removed with
  | None => Some (None, mk_map root' (len m))
  | Some v =>
    let root'' :=
      match root' with
      | Internal [] (only :: _) => only
      | _ => root'
      end in
    let! len' := match len m with O => None | S n => Some n end in
    Some (Some v, mk_map root'' len')
  end.

Definition remove m key : option (PersistentBTreeMap K V * option V) :=
  let! (prev, next) := remove_mut m key in Some (next, prev).

(** ** The repair *)

Lemma min_entries_3 : MIN_ENTRIES = 3. Proof. done. Qed.
Lemma max_entries_7 : MAX_ENTRIES = 7. Proof. done. Qed.

(** Node sizes by arithmetic. *)
Ltac occupancy :=
  rewrite ?length_app in *; cbn [length entry_count shape] in *;
  rewrite ?min_entries_3, ?max_entries_7 in *; lia.

Local Abbreviation ok := (shape MIN_ENTRIES).

Lemma shape_entry_count c mi mi' h t : shape c mi h t -> mi' <= entry_count t -> shape c mi' h t.
Proof. destruct h, t; simpl; intuition lia. Qed.

Lemma entry_count_bound c mi h t : shape c mi h t -> mi <= entry_count t <= MAX_ENTRIES.
Proof. destruct h, t; simpl; intuition lia. Qed.

Lemma cut_snoc_len {A} (l : list A) n : length l = S n -> exists l' x, l = l' ++ [x] /\ length l' = n.
Proof.
  intros H. destruct (cut_last l) as (l' & x & ->); [by intros ->|].
  rewrite length_app in H. simpl in H. exists l', x. split; [done|lia].
Qed.

(** The element after the middle one. *)
Lemma lookup_second {A} (l1 : list A) a b l2 : (l1 ++ a :: b :: l2) !! S (length l1) = Some b.
Proof.
  rewrite (cons_middle a), (app_assoc l1), list_lookup_middle; [done|]. rewrite length_app. simpl. lia.
Qed.

Lemma vec_set_second {A} (l1 : list A) a b c l2 :
  vec_set (S (length l1)) c (l1 ++ a :: b :: l2) = Some (l1 ++ a :: c :: l2).
Proof.
  rewrite (cons_middle a), (app_assoc l1), vec_set_app by (rewrite length_app; simpl; lia).
  by rewrite <- app_assoc.
Qed.

Lemma rotate_from_left_spec h es1 e es2 cs1 l t cs2 i :
  length cs1 = length es1 -> i = S (length es1) ->
  ok (S MIN_ENTRIES) h l -> ok 2 h t -> entry_count t < MIN_ENTRIES ->
  exists e' l' t', rotate_from_left (es1 ++ e :: es2) (cs1 ++ l :: t :: cs2) i =
      Some (es1 ++ e' :: es2, cs1 ++ l' :: t' :: cs2) /\
    to_list l' ++ e' :: to_list t' = to_list l ++ e :: to_list t /\
    ok MIN_ENTRIES h l' /\ ok MIN_ENTRIES h t'.
Proof.
  intros Hc -> Hl Ht Hlt. unfold rotate_from_left. rewrite Nat.sub_succ, Nat.sub_0_r, <- Hc.
  run (list_lookup_middle cs1).
  destruct h as [|h], l as [le|le lc], t as [te|te tc]; try done; cbn [shape entry_count] in *.
  - destruct (cut_last le) as (le' & x & ->); [intros ->; simpl in Hl; lia|].
    run vec_pop_snoc. run (vec_set_app cs1). run (list_lookup_middle es1). run (vec_set_app es1).
    run (lookup_second cs1). rewrite vec_insert_0. cbn [mbind option_bind]. run (vec_set_second cs1).
    do 3 eexists. split; [reflexivity|]. cbn [to_list shape].
    rewrite <- app_assoc. split; [done|]. occupancy.
  - destruct Hl as (Hle & Hlc & Hls), Ht as (Hte & Htc & Hts).
    destruct (cut_last le) as (le' & x & ->); [intros ->; simpl in Hle; lia|].
    destruct (cut_snoc_len lc _ Hlc) as (lc' & y & -> & Hlc').
    rewrite !vec_pop_snoc. cbn [mbind option_bind].
    run (vec_set_app cs1). run (list_lookup_middle es1). run (vec_set_app es1).
    run (lookup_second cs1). rewrite !vec_insert_0. cbn [mbind option_bind]. run (vec_set_second cs1).
    do 3 eexists. split; [reflexivity|].
    rewrite length_app in *. simpl in Hle, Hlc, Hlc'. rewrite to_list_app by lia.
    split; [cbn; by rewrite <- app_assoc|]. apply Forall_app in Hls as [Hls1 Hls2].
    apply Forall_cons in Hls2 as [Hy _]. cbn [shape length]. split_and!; try done; try occupancy. by constructor.
Qed.

Lemma rotate_from_right_spec h es1 e es2 cs1 t r cs2 i :
  length cs1 = length es1 -> i = length es1 ->
  ok 2 h t -> entry_count t < MIN_ENTRIES -> ok (S MIN_ENTRIES) h r ->
  exists e' t' r', rotate_from_right (es1 ++ e :: es2) (cs1 ++ t :: r :: cs2) i =
      Some (es1 ++ e' :: es2, cs1 ++ t' :: r' :: cs2) /\
    to_list t' ++ e' :: to_list r' = to_list t ++ e :: to_list r /\
    ok MIN_ENTRIES h t' /\ ok MIN_ENTRIES h r'.
Proof.
  intros Hc -> Ht Hlt Hr. unfold rotate_from_right. rewrite Nat.add_1_r, <- Hc.
  run (lookup_second cs1).
  destruct h as [|h], t as [te|te tc], r as [re|re rc]; try done; cbn [shape entry_count] in *.
  - destruct re as [|x re]; [simpl in Hr; lia|].
    rewrite vec_remove_0. cbn [mbind option_bind]. run (vec_set_second cs1).
    run (list_lookup_middle es1). run (vec_set_app es1). run (list_lookup_middle cs1). run (vec_set_app cs1).
    do 3 eexists. split; [reflexivity|]. cbn [to_list shape].
    rewrite <- app_assoc. split; [done|]. occupancy.
  - destruct Hr as (Hre & Hrc & Hrs), Ht as (Hte & Htc & Hts).
    destruct re as [|x re]; [simpl in Hre; lia|]. destruct rc as [|y rc]; [done|].
    rewrite !vec_remove_0. cbn [mbind option_bind]. run (vec_set_second cs1).
    run (list_lookup_middle es1). run (vec_set_app es1). run (list_lookup_middle cs1). run (vec_set_app cs1).
    do 3 eexists. split; [reflexivity|]. rewrite to_list_app by done.
    split; [cbn; by rewrite <- app_assoc|]. apply Forall_cons in Hrs as [Hy Hrs].
    simpl in Hrc. cbn [shape]. split_and!; try occupancy; [|done].
    apply Forall_app. split; [done|by constructor].
Qed.

Lemma merge_children_spec ml mr h es1 e es2 cs1 l r cs2 i :
  length cs1 = length es1 -> i = length es1 ->
  ok ml h l -> ok mr h r -> 2 <= ml + mr -> entry_count l + entry_count r < MAX_ENTRIES ->
  exists t', merge_children (es1 ++ e :: es2) (cs1 ++ l :: r :: cs2) i = Some (es1 ++ es2, cs1 ++ t' :: cs2) /\
    to_list t' = to_list l ++ e :: to_list r /\ ok MIN_ENTRIES h t'.
Proof.
  intros Hc -> Hl Hr Hm Hsum. unfold merge_children. rewrite <- Hc.
  run (vec_remove_app es1). rewrite (cons_middle l), (app_assoc cs1).
  rewrite (vec_remove_app (cs1 ++ [l])) by (rewrite length_app; simpl; lia). cbn [mbind option_bind].
  rewrite <- (app_assoc cs1 [l]). cbn [app]. run (list_lookup_middle cs1). run (vec_set_app cs1).
  destruct h as [|h], l as [le|le lc], r as [re|re rc]; try done; cbn [shape entry_count] in *.
  - eexists. split; [reflexivity|]. split; [done|]. occupancy.
  - eexists. split; [reflexivity|]. destruct Hl as (Hle & Hlc & Hls), Hr as (Hre & Hrc & Hrs).
    cbn [app]. rewrite to_list_app by done. split; [done|]. cbn [shape].
    split_and!; try occupancy. by apply Forall_app.
Qed.

(** What the repair keeps: the contents, and every child at minimum
    occupancy; it takes at most one entry from the node. *)
Definition fix_post (h : nat) es cs (l : list (K * V)) (r : option (list (K * V) * list (BNode K V))) : Prop :=
  exists es' cs', r = Some (es', cs') /\ to_list (Internal es' cs') = l /\
    length es - 1 <= length es' <= length es /\ length cs' = S (length es') /\
    Forall (ok MIN_ENTRIES h) cs'.

(** Exchanging two neighbours and their separator for two with the same
    contents, or for one, inside a node. *)
Lemma fix_post_pair h es1 e es2 cs1 a b cs2 e' a' b' :
  length cs1 = length es1 -> length cs2 = length es2 ->
  Forall (ok MIN_ENTRIES h) cs1 -> Forall (ok MIN_ENTRIES h) cs2 ->
  to_list a' ++ e' :: to_list b' = to_list a ++ e :: to_list b ->
  ok MIN_ENTRIES h a' -> ok MIN_ENTRIES h b' ->
  fix_post h (es1 ++ e :: es2) (cs1 ++ a :: b :: cs2) (to_list (Internal (es1 ++ e :: es2) (cs1 ++ a :: b :: cs2)))
    (Some (es1 ++ e' :: es2, cs1 ++ a' :: b' :: cs2)).
Proof.
  intros H1 H2 Hcs1 Hcs2 Hl Ha Hb. do 2 eexists. split; [reflexivity|].
  rewrite !to_list_pair, Hl by done. rewrite !length_app. simpl. split_and!; [done|lia..|].
  apply Forall_app. split; [done|]. by repeat constructor.
Qed.

Lemma fix_post_merge h es1 e es2 cs1 a b cs2 t' :
  length cs1 = length es1 -> length cs2 = length es2 ->
  Forall (ok MIN_ENTRIES h) cs1 -> Forall (ok MIN_ENTRIES h) cs2 ->
  to_list t' = to_list a ++ e :: to_list b -> ok MIN_ENTRIES h t' ->
  fix_post h (es1 ++ e :: es2) (cs1 ++ a :: b :: cs2) (to_list (Internal (es1 ++ e :: es2) (cs1 ++ a :: b :: cs2)))
    (Some (es1 ++ es2, cs1 ++ t' :: cs2)).
Proof.
  intros H1 H2 Hcs1 Hcs2 Hl Ht. do 2 eexists. split; [reflexivity|].
  rewrite to_list_pair, to_list_split, Hl by done. rewrite !length_app. simpl. split_and!; [done|lia..|].
  apply Forall_app. split; [done|]. by constructor.
Qed.

(** The slot [i] of the node seen with its left / right neighbour. *)
Lemma with_left es1 cs1 t cs2 :
  length cs1 = length es1 -> es1 <> [] ->
  exists es1' (e : K * V) cs1' l, length cs1' = length es1' /\ length es1 = S (length es1') /\
    (forall es2, es1 ++ es2 = es1' ++ e :: es2) /\ cs1 ++ t :: cs2 = cs1' ++ l :: t :: cs2 /\
    (forall h, Forall (ok MIN_ENTRIES h) cs1 -> Forall (ok MIN_ENTRIES h) cs1' /\ ok MIN_ENTRIES h l).
Proof.
  intros Hc Hne. destruct (cut_last es1 Hne) as (es1' & e & ->). rewrite length_app in Hc. simpl in Hc.
  destruct (cut_snoc_len cs1 (length es1')) as (cs1' & l & -> & Hl'); [lia|].
  exists es1', e, cs1', l. rewrite length_app, <- app_assoc. split_and!; try done; [simpl; lia| |].
  - intros es2. by rewrite <- app_assoc.
  - intros h [H1 [H2 _]%Forall_cons]%Forall_app. done.
Qed.

Lemma fix_child_left h es1 e es2 cs1 l t cs2 :
  length cs1 = length es1 -> length cs2 = length es2 ->
  Forall (ok MIN_ENTRIES h) cs1 -> Forall (ok MIN_ENTRIES h) cs2 ->
  ok MIN_ENTRIES h l -> ok 2 h t -> entry_count t < MIN_ENTRIES ->
  let es := es1 ++ e :: es2 in let cs := cs1 ++ l :: t :: cs2 in
  fix_post h es cs (to_list (Internal es cs))
    (if MIN_ENTRIES <? entry_count l then rotate_from_left es cs (S (length es1))
     else merge_children es cs (length es1)).
Proof.
  intros Hc1 Hc2 Hcs1 Hcs2 Hl Ht Hlt. cbn zeta. destruct (MIN_ENTRIES <? entry_count l) eqn:E; prop_bools.
  - destruct (rotate_from_left_spec h es1 e es2 cs1 l t cs2 (S (length es1)))
      as (e' & l' & t' & -> & Hl2 & H1 & H2); [done..|by eapply shape_entry_count|done|done|].
    by apply fix_post_pair.
  - destruct (merge_children_spec MIN_ENTRIES 2 h es1 e es2 cs1 l t cs2 (length es1))
      as (t' & -> & Hl2 & H1); [done..|rewrite min_entries_3; lia|rewrite min_entries_3, max_entries_7 in *; lia|].
    by apply fix_post_merge.
Qed.

Lemma fix_child_right h es1 e es2 cs1 t r cs2 :
  length cs1 = length es1 -> length cs2 = length es2 ->
  Forall (ok MIN_ENTRIES h) cs1 -> Forall (ok MIN_ENTRIES h) cs2 ->
  ok MIN_ENTRIES h r -> ok 2 h t -> entry_count t < MIN_ENTRIES ->
  let es := es1 ++ e :: es2 in let cs := cs1 ++ t :: r :: cs2 in
  fix_post h es cs (to_list (Internal es cs))
    (if MIN_ENTRIES <? entry_count r then rotate_from_right es cs (length es1)
     else merge_children es cs (length es1)).
Proof.
  intros Hc1 Hc2 Hcs1 Hcs2 Hr Ht Hlt. cbn zeta. destruct (MIN_ENTRIES <? entry_count r) eqn:E; prop_bools.
  - destruct (rotate_from_right_spec h es1 e es2 cs1 t r cs2 (length es1))
      as (e' & t' & r' & -> & Hl2 & H1 & H2); [done..|by eapply shape_entry_count|].
    by apply fix_post_pair.
  - destruct (merge_children_spec 2 MIN_ENTRIES h es1 e es2 cs1 t r cs2 (length es1))
      as (t' & -> & Hl2 & H1); [done..|rewrite min_entries_3; lia|rewrite min_entries_3, max_entries_7 in *; lia|].
    by apply fix_post_merge.
Qed.

Lemma fix_child_spec h es1 es2 cs1 t cs2 i :
  1 <= length (es1 ++ es2) -> length cs1 = length es1 -> length cs2 = length es2 -> i = length es1 ->
  ok 2 h t -> Forall (ok MIN_ENTRIES h) cs1 -> Forall (ok MIN_ENTRIES h) cs2 ->
  fix_post h (es1 ++ es2) (cs1 ++ t :: cs2) (to_list (Internal (es1 ++ es2) (cs1 ++ t :: cs2)))
    (fix_child (es1 ++ es2) (cs1 ++ t :: cs2) i).
Proof.
  intros Hne Hc1 Hc2 -> Ht Hcs1 Hcs2. unfold fix_child. rewrite <- Hc1.
  run (list_lookup_middle cs1 cs2 t (length cs1)).
  destruct (MIN_ENTRIES <=? entry_count t) eqn:Ecount; prop_bools.
  { do 2 eexists. split_and!; [done|done|lia|lia|rewrite !length_app; simpl; lia|].
    apply Forall_app. split; [done|]. constructor; [|done]. by eapply shape_entry_count. }
  assert (Hright : forall e es2' r cs2', es2 = e :: es2' -> cs2 = r :: cs2' ->
    fix_post h (es1 ++ es2) (cs1 ++ t :: cs2) (to_list (Internal (es1 ++ es2) (cs1 ++ t :: cs2)))
     (if MIN_ENTRIES <? entry_count r then rotate_from_right (es1 ++ es2) (cs1 ++ t :: cs2) (length cs1)
      else merge_children (es1 ++ es2) (cs1 ++ t :: cs2) (length cs1))).
  { intros e es2' r cs2' -> ->. apply Forall_cons in Hcs2 as [Hr Hcs2]. simpl in Hc2.
    rewrite Hc1. by apply fix_child_right; [|lia|..]. }
  assert (Hnext : forall r cs2', cs2 = r :: cs2' -> (cs1 ++ t :: cs2) !! (length cs1 + 1) = Some r)
    by (intros r cs2' ->; rewrite Nat.add_1_r; apply lookup_second).
  destruct (decide (es1 = [])) as [->|Hes1].
  - destruct cs1; [|done]. destruct es2 as [|e es2]; [simpl in Hne; lia|].
    destruct cs2 as [|r cs2]; [done|]. rewrite (Hnext r cs2) by done.
    exact (Hright e es2 r cs2 eq_refl eq_refl).
  - destruct (with_left es1 cs1 t cs2 Hc1 Hes1) as (es1' & e & cs1' & l & H1 & H2 & Ees & Ecs & Hsplit).
    destruct (Hsplit h Hcs1) as [Hcs1' Hl].
    pose proof (fix_child_left h es1' e es2 cs1' l t cs2 H1 Hc2 Hcs1' Hcs2 Hl Ht Ecount) as Hleft.
    cbn zeta in Hleft. rewrite <- Ees, <- Ecs in Hleft.
    rewrite Hc1, H2, Nat.sub_succ, Nat.sub_0_r.
    assert ((cs1 ++ t :: cs2) !! length es1' = Some l) as -> by (rewrite Ecs; by apply list_lookup_middle).
    replace (0 <? S (length es1')) with true by done. cbn [andb].
    destruct (MIN_ENTRIES <? entry_count l); [exact Hleft|].
    destruct ((S (length es1') + 1 <? _) && _) eqn:Er; [|exact Hleft]. prop_bools.
    destruct cs2 as [|r cs2]; [rewrite length_app in *; simpl in *; lia|].
    destruct es2 as [|f es2]; [done|]. rewrite <- H2, <- Hc1, (Hnext r cs2) in * by done.
    pose proof (Hright f es2 r cs2 eq_refl eq_refl) as Hr.
    destruct (MIN_ENTRIES <? entry_count r); [exact Hr|done].
Qed.

(** ** Removal *)

(** The child list cut at a valid slot, with the facts about its parts. *)
Lemma cut_child h es1 es2 cs :
  length cs = S (length (es1 ++ es2)) -> Forall (ok MIN_ENTRIES h) cs ->
  exists cs1 t cs2, cs = cs1 ++ t :: cs2 /\ length cs1 = length es1 /\ length cs2 = length es2 /\
    Forall (ok MIN_ENTRIES h) cs1 /\ ok MIN_ENTRIES h t /\ Forall (ok MIN_ENTRIES h) cs2.
Proof.
  intros Hl Hc. destruct (cut_children es1 es2 cs Hl) as (cs1 & t & cs2 & -> & H1 & H2).
  apply Forall_app in Hc as [Hc1 Hc]. apply Forall_cons in Hc as [Ht Hc2]. exists cs1, t, cs2. done.
Qed.

Lemma remove_max_spec mi h t :
  1 <= mi <= MIN_ENTRIES -> ok mi h t ->
  exists kv t', remove_max t = Some (kv, t') /\ to_list t = to_list t' ++ [kv] /\ ok (mi - 1) h t'.
Proof.
  revert mi t; induction h as [|h IH]; intros mi [es|es cs] Hmi Ht; try done; cbn [remove_max shape] in *.
  - destruct (cut_last es) as (es' & x & ->); [intros ->; simpl in *; lia|].
    run vec_pop_snoc. do 2 eexists. split; [reflexivity|]. split; [done|]. occupancy.
  - destruct Ht as (Hm & Hl & Hc).
    destruct (cut_child h es [] cs) as (cs1 & t & [|] & -> & H1 & H2 & Hc1 & Ht & _); [by rewrite app_nil_r|done| |done].
    rewrite length_app, Nat.add_1_r, Nat.sub_succ, Nat.sub_0_r. rewrite at_child_mid by done.
    cbn [mjoin option_join]. destruct (IH MIN_ENTRIES t) as (kv & t' & -> & Hlt & Ht'); [by rewrite min_entries_3; lia|done|].
    cbn [mbind option_bind]. run (vec_set_app cs1).
    destruct (fix_child_spec h es [] cs1 t' [] (length cs1)) as (es' & cs' & E & Hl' & Hle & Hlc & Hok);
      [rewrite app_nil_r; lia|done..|constructor|].
    rewrite app_nil_r in E, Hl', Hle. rewrite E. cbn [mbind option_bind]. do 2 eexists. split; [reflexivity|].
    rewrite Hl'. pose proof (to_list_split es [] cs1 t []) as P. pose proof (to_list_split es [] cs1 t' []) as P'.
    rewrite app_nil_r in P, P'. rewrite P, P' by done. cbn [map wpost]. rewrite !app_nil_r, Hlt, <- app_assoc.
    split; [done|]. cbn [shape]. split_and!; [lia..|done].
Qed.

(** What removal delivers; a miss returns the very same node. *)
Definition remove_ok (mi h : nat) t k (r : option (option V * BNode K V)) : Prop :=
  exists t', r = Some (sm_lookup k (to_list t), t') /\ to_list t' = sm_remove k (to_list t) /\
    ok (mi - 1) h t' /\ (sm_lookup k (to_list t) = None -> t' = t).

Lemma remove_helper_found h es1 v es2 cs1 cs2 k mi :
  mi <= length (es1 ++ (k, v) :: es2) <= MAX_ENTRIES -> mi <= MIN_ENTRIES ->
  length cs1 = S (length es1) -> length cs2 = S (length es2) -> Forall (ok MIN_ENTRIES h) (cs1 ++ cs2) ->
  all_lt (to_list (Internal es1 cs1)) k ->
  let t := Internal (es1 ++ (k, v) :: es2) (cs1 ++ cs2) in
  binary_search_by (es1 ++ (k, v) :: es2) k = Found (length es1) ->
  remove_ok mi (S h) t k (remove_transient_helper t k).
Proof.
  intros Hm Hmi H1 H2 Hc Hlt t E. unfold t. cbn [remove_transient_helper]. rewrite E.
  destruct (cut_snoc_len cs1 _ H1) as (cs1' & c & -> & H1'). rewrite <- app_assoc in *. cbn [app] in *.
  apply Forall_app in Hc as [Hc1 Hc]. apply Forall_cons in Hc as [Ht Hc2].
  rewrite at_child_mid by done. cbn [mjoin option_join].
  destruct (remove_max_spec MIN_ENTRIES h c) as (kv & c' & -> & Hlc & Hc'); [rewrite min_entries_3; lia|done|].
  cbn [mbind option_bind]. rewrite <- H1'. run (vec_set_app cs1').
  run (list_lookup_middle es1). run (vec_set_app es1).
  destruct (fix_child_spec h es1 (kv :: es2) cs1' c' cs2 (length cs1'))
    as (es' & cs' & Efix & Hl' & Hle & Hlc' & Hok); [rewrite length_app; simpl; lia|done..|].
  rewrite Efix. cbn [mbind option_bind]. unfold remove_ok.
  assert (Hsplit : forall e, to_list (Internal (es1 ++ e :: es2) (cs1' ++ c :: cs2)) =
     to_list (Internal es1 (cs1' ++ [c])) ++ e :: to_list (Internal es2 cs2)).
  { intros e. rewrite (cons_middle c), (app_assoc cs1'). apply to_list_app. rewrite length_app. simpl. lia. }
  rewrite Hsplit, sm_lookup_skip, sm_remove_skip by done. cbn [sm_lookup sm_remove]. rewrite kcmp_refl.
  eexists. split; [reflexivity|]. split; [|split; [|discriminate]].
  - rewrite Hl'. pose proof (to_list_split es1 (kv :: es2) cs1' c' cs2 H1' H2) as P. rewrite P.
    destruct cs2 as [|c2 cs2]; [done|]. cbn [map wpost]. rewrite <- weave_cons by (rewrite length_map; simpl in H2; lia).
    rewrite <- (app_nil_r es1) at 2. rewrite to_list_split by done. cbn [map wpost].
    rewrite Hlc, app_nil_r, <- !app_assoc. done.
  - cbn [shape]. rewrite !length_app in *. simpl in *. split_and!; [lia..|done].
Qed.

Lemma remove_helper_spec mi h t k :
  (h = 0 \/ 1 <= mi) -> mi <= MIN_ENTRIES -> ok mi h t -> sorted (to_list t) ->
  remove_ok mi h t k (remove_transient_helper t k).
Proof.
  revert mi t; induction h as [|h IH]; intros mi [es|es cs] H0 Hmi Hsh Hs; try done.
  - cbn [remove_transient_helper]. unfold remove_ok, binary_search_by. cbn [to_list shape] in *.
    destruct (position_caseP k es Hs) as [es1 v es2 -> Hlt Hgt|es1 es2 -> Hlt Hgt].
    + run (vec_remove_app es1). rewrite sm_lookup_skip, sm_remove_skip by done.
      cbn [sm_lookup sm_remove]. rewrite kcmp_refl. eexists. split; [reflexivity|]. cbn [to_list].
      split; [done|]. split; [cbn [shape]; occupancy|discriminate].
    + rewrite sm_lookup_skip, sm_lookup_all_gt, sm_remove_skip, sm_remove_all_gt by done.
      eexists. split; [reflexivity|]. split; [done|]. split; [cbn [shape]; occupancy|done].
  - pose proof Hsh as (Hm & Hl & Hc). destruct H0 as [|H0]; [done|].
    pose proof (node_caseP k es cs Hs Hl) as Hcase. unfold remove_ok.
    destruct (linear_position_internal 0 es k) eqn:E; inversion Hcase as
      [es1 w es2 cs1 cs2 He1 He2 H1 H2 S1 S2 Hlt Hgt Hi|es1 es2 cs1 t cs2 He1 He2 H1 H2 St Hlt Hgt Hi]; subst.
    + by apply remove_helper_found.
    + cbn [remove_transient_helper]. unfold binary_search_by. rewrite E, at_child_mid by done.
      cbn [mjoin option_join]. apply Forall_app in Hc as [Hc1 Hc]. apply Forall_cons in Hc as [Ht Hc2].
      destruct (IH MIN_ENTRIES t) as (t' & -> & Hlt' & Ht' & Hmiss); [rewrite min_entries_3; lia|done..|].
      cbn [mbind option_bind]. rewrite <- H1. run (vec_set_app cs1).
      rewrite to_list_split, sm_lookup_skip, sm_lookup_stop by done.
      rewrite sm_remove_skip, sm_remove_stop, <- Hlt' by done.
      destruct (sm_lookup k (to_list t)) as [v|].
      * destruct (fix_child_spec h es1 es2 cs1 t' cs2 (length cs1))
          as (es' & cs' & Efix & Hl' & Hle & Hlc' & Hok); [lia|done..|].
        rewrite Efix. cbn [mbind option_bind]. eexists. split; [reflexivity|].
        rewrite Hl', to_list_split by done. split; [done|]. split; [|discriminate].
        cbn [shape]. split_and!; [lia..|done].
      * rewrite Hmiss by done. eexists. split; [reflexivity|]. rewrite to_list_split by done.
        split; [done|]. split; [|done]. by apply shape_root_weaken with mi; [|lia].
Qed.

Lemma remove_map m k :
  map_inv MIN_ENTRIES m ->
  exists m', remove_mut m k = Some (sm_lookup k (contents m), m') /\
    contents m' = sm_remove k (contents m) /\ map_inv MIN_ENTRIES m' /\
    (sm_lookup k (contents m) = None -> m' = m).
Proof.
  intros ((h & Hh) & Hs & Hl). unfold contents in *.
  destruct (remove_helper_spec (root_min MIN_ENTRIES h) h (root m) k) as (t' & E & Hl' & Hsh & Hmiss);
    [destruct h; [by left|right; simpl; lia]|destruct h; rewrite ?min_entries_3; simpl; lia|done|done|].
  unfold remove_mut. rewrite E. cbn [mbind option_bind].
  destruct (sm_lookup k (to_list (root m))) as [v|] eqn:Hk.
  - pose proof (length_sm_remove k (to_list (root m))) as Hlen. rewrite Hk in Hlen.
    pose proof (sm_lookup_elem _ _ _ Hk) as Hin.
    destruct (to_list (root m)) as [|x l] eqn:Hroot; [by inversion Hin|]. rewrite Hl. cbn [length mbind option_bind].
    eexists. split; [reflexivity|]. cbn [root]. rewrite <- Hroot in *.
    assert (Hcol : exists h', let r := match t' with Internal [] (only :: _) => only | _ => t' end in
        to_list r = to_list t' /\ ok (root_min MIN_ENTRIES h') h' r).
    { destruct h as [|h], t' as [es|[|e es] cs]; try done.
      - exists 0. done.
      - destruct Hsh as (_ & Hc & Hall). destruct cs as [|c [|]]; try done. exists h. split; [done|].
        apply Forall_cons in Hall as [Hall _]. eapply shape_root_weaken; [exact Hall|].
        destruct h; rewrite ?min_entries_3; simpl; lia.
      - exists (S h). split; [done|]. destruct Hsh as (H1 & H2 & H3). split_and!; [simpl; lia|lia|done|done]. }
    destruct Hcol as (h' & Hr1 & Hr2). rewrite Hr1, Hl'. split; [done|]. split; [|discriminate].
    split; [by exists h'|]. unfold contents. cbn [root len]. rewrite Hr1, Hl', Hlen.
    split; [by apply sm_remove_sorted|]. rewrite Hroot. simpl. lia.
  - rewrite (Hmiss eq_refl). eexists. split; [reflexivity|]. cbn [root].
    rewrite sm_lookup_None_remove by done. split; [done|]. split; [|by destruct m].
    split; [by exists h|]. done.
Qed.

End Remove.

(** ** The map against its specification, operation by operation *)
Section Trace.
Context {K V : Type} {HK : OrdKey K}.

Inductive map_op : Type :=
| OpInsert (k : K) (v : V)
| OpInsertMut (k : K) (v : V)
| OpRemove (k : K)
| OpRemoveMut (k : K)
| OpGet (k : K)
| OpPredecessor (k : K)
| OpLen.

Inductive map_out : Type :=
| OutValue (v : option V)
| OutEntry (e : option (K * V))
| OutLen (n : nat).

Definition step_map (m : PersistentBTreeMap K V) (o : map_op) : option (PersistentBTreeMap K V * map_out) :=
  match o with
  | OpInsert k v => let! (m, old) := insert m k v in Some (m, OutValue old)
  | OpInsertMut k v => let! (m, old) := insert_mut m k v in Some (m, OutValue old)
  | OpRemove k => let! (m, old) := remove m k in Some (m, OutValue old)
  | OpRemoveMut k => let! (old, m) := remove_mut m k in Some (m, OutValue old)
  | OpGet k => let! v := get m k in Some (m, OutValue v)
  | OpPredecessor k => let! e := predecessor m k in Some (m, OutEntry e)
  | OpLen => Some (m, OutLen (len m))
  end.

(** The same operations on the sorted list. *)
Definition step_spec (l : list (K * V)) (o : map_op) : list (K * V) * map_out :=
  match o with
  | OpInsert k v | OpInsertMut k v => (sm_insert k v l, OutValue (sm_lookup k l))
  | OpRemove k | OpRemoveMut k => (sm_remove k l, OutValue (sm_lookup k l))
  | OpGet k => (l, OutValue (sm_lookup k l))
  | OpPredecessor k => (l, OutEntry (sm_pred k l))
  | OpLen => (l, OutLen (length l))
  end.

Fixpoint run_map (m : PersistentBTreeMap K V) (os : list map_op) : option (PersistentBTreeMap K V * list map_out) :=
  match os with
  | [] => Some (m, [])
  | o :: os =>
    let! (m, out) := step_map m o in
    let! (m, outs) := run_map m os in
    Some (m, out :: outs)
  end.

Fixpoint run_spec (l : list (K * V)) (os : list map_op) : list (K * V) * list map_out :=
  match os with
  | [] => (l, [])
  | o :: os => let '(l, out) := step_spec l o in let '(l, outs) := run_spec l os in (l, out :: outs)
  end.

Lemma step_map_spec m o :
  map_inv MIN_ENTRIES m ->
  exists m', step_map m o = Some (m', (step_spec (contents m) o).2) /\
    contents m' = (step_spec (contents m) o).1 /\ map_inv MIN_ENTRIES m'.
Proof.
  intros Hm. destruct o as [k v|k v|k|k|k|k|]; cbn [step_map step_spec fst snd].
  - destruct (insert_map MIN_ENTRIES m k v (Nat.le_refl _) Hm) as (m' & -> & ? & ?). by exists m'.
  - erewrite insert_mut_eq by done.
    destruct (insert_map MIN_ENTRIES m k v (Nat.le_refl _) Hm) as (m' & -> & ? & ?). by exists m'.
  - unfold remove. destruct (remove_map m k Hm) as (m' & -> & ? & ? & _). by exists m'.
  - destruct (remove_map m k Hm) as (m' & -> & ? & ? & _). by exists m'.
  - erewrite get_map by done. by exists m.
  - destruct Hm as ((h & Hh) & Hs & Hl). unfold predecessor. erewrite predecessor_loop_spec by done.
    exists m. split_and!; [|done|by split; [exists h|]]. unfold contents.
    by destruct (sm_pred k (to_list (root m))).
  - exists m. destruct Hm as (H1 & H2 & H3). rewrite <- H3. done.
Qed.

Lemma run_map_spec m os :
  map_inv MIN_ENTRIES m ->
  exists m', run_map m os = Some (m', (run_spec (contents m) os).2) /\
    contents m' = (run_spec (contents m) os).1 /\ map_inv MIN_ENTRIES m'.
Proof.
  revert m; induction os as [|o os IH]; intros m Hm; cbn [run_map run_spec]; [by exists m|].
  destruct (step_map_spec m o Hm) as (m1 & -> & H1 & Hm1). cbn [mbind option_bind].
  destruct (IH m1 Hm1) as (m2 & -> & H2 & Hm2). cbn [mbind option_bind].
  destruct (step_spec (contents m) o) as [l out]. cbn [fst snd] in *. subst l.
  destruct (run_spec (contents m1) os) as [l outs]. by exists m2.
Qed.
End Trace.

(** ** Properties *)

(** C1: refinement.  Any sequence of inserts, removals (path-copying or in
    place), lookups, predecessor queries and [len] run on the empty map never
    panics and answers exactly what the sorted association list answers; the
    final tree stands for the final list and keeps every B-tree invariant. *)
Theorem btree_refines_sorted_map {K V} `{!OrdKey K} (os : list (map_op (K:=K) (V:=V))) :
  exists m, run_map new os = Some (m, (run_spec [] os).2) /\
    contents m = (run_spec [] os).1 /\ map_inv MIN_ENTRIES m.
Proof. apply (run_map_spec new os), new_inv. Qed.

(** Removal.  On a tree that keeps the occupancy rule, [remove_mut] never
    panics: it returns the value the key had, leaves the other entries, keeps
    every invariant (at least three entries in each node but the root, all
    leaves at one depth, [len]), and a miss returns the map it was given. *)
Lemma remove_refines {K V} `{!OrdKey K} (m : PersistentBTreeMap K V) k :
  map_inv MIN_ENTRIES m ->
  exists m', remove_mut m k = Some (sm_lookup k (contents m), m') /\
    contents m' = sm_remove k (contents m) /\ map_inv MIN_ENTRIES m' /\
    (sm_lookup k (contents m) = None -> m' = m).
Proof. apply remove_map. Qed.

(** Removing from a three-level tree. *)
