(* ===== verification/BTreeBuild.v ===== *)
(** [from_sorted], the bottom-up bulk build of the persistent B-tree: what it
    builds, and where it breaks the occupancy rule removal relies on. *)
From S2P Require Import Prelude SortedMap BTree BTreeCore BTreeRemove.
Open Scope nat_scope.

(** [a.div_ceil(b)] for [b > 0]. *)
Definition div_ceil (a b : nat) : nat := (a + b - 1) / b.

Section Build.
Context {K V : Type}.
Implicit Types (nodes children : list (BNode K V)) (seps inner it : list (K * V)).

(** The [for gi in 0..g] loop of level 0, with [groups_left] turns to go. *)
Fixpoint cut_leaves (groups_left : nat) it (remaining : nat)
  : option (list (BNode K V) * list (K * V)) :=
  match groups_left with
  | O => Some ([], [])
  | S seps_left =>
    if remaining <? seps_left then None
    else
      let take_n := div_ceil (remaining - seps_left) groups_left in
      let leaf := take take_n it in
      let it := drop take_n it in
      let remaining := remaining - length leaf in
      if 0 <? seps_left then
        match it with
        | [] => None
        | sep :: it =>
          let! (nodes, seps) := cut_leaves seps_left it (remaining - 1) in
          Some (Leaf leaf :: nodes, sep :: seps)
        end
      else Some ([Leaf leaf], [])
  end.

(** The inner [loop] of one level: [node_it] and [sep_it] are the iterators,
    [children] and [inner] the group being filled. *)
Fixpoint level_loop (per : nat) (node_it : list (BNode K V)) (sep_it : list (K * V))
    children inner (up_nodes : list (BNode K V)) (up_seps : list (K * V))
  : option (list (BNode K V) * list (K * V)) :=
  match node_it with
  | n :: node_it =>
    match children with
    | [] => level_loop per node_it sep_it [n] inner up_nodes up_seps
    | _ =>
      match sep_it with
      | [] => None
      | sep :: sep_it =>
        if length children <? per then
          level_loop per node_it sep_it (children ++ [n]) (inner ++ [sep]) up_nodes up_seps
        else
          level_loop per node_it sep_it [n] [] (up_nodes ++ [Internal inner children]) (up_seps ++ [sep])
      end
    end
  | [] => Some (up_nodes ++ [Internal inner children], up_seps)
  end.

(** The [while nodes.len() > 1] loop.  A level of [n >= 2] nodes gives at most
    [(n + 1) / 2], so as many turns as nodes are enough. *)
Fixpoint levels (fuel : nat) nodes seps : option (BNode K V) :=
  if 1 <? length nodes then
    match fuel with
    | O => None
    | S fuel =>
      let g := div_ceil (length nodes) MAX_CHILDREN in
      let per := div_ceil (length nodes) g in
      let! (nodes, seps) := level_loop per nodes seps [] [] [] [] in
      levels fuel nodes seps
    end
  else last nodes.

Definition from_sorted (entries : list (K * V)) : option (PersistentBTreeMap K V) :=
  let len := length entries in
  if len <=? MAX_ENTRIES then Some (mk_map (Leaf entries) len)
  else
    let g := div_ceil (len + 1) (MAX_ENTRIES + 1) in
    let! (nodes, seps) := cut_leaves g entries len in
    let! root := levels (length nodes) nodes seps in
    Some (mk_map root len).

(** ** Correctness *)

Lemma div_ceil_spec a b : 0 < b -> a <= b * div_ceil a b < a + b.
Proof.
  intros Hb. unfold div_ceil. pose proof (Nat.div_mod (a + b - 1) b ltac:(lia)).
  pose proof (Nat.mod_upper_bound (a + b - 1) b ltac:(lia)). lia.
Qed.

(** A level: nodes of one height with a separator between neighbours. *)
Definition level (h : nat) (l : list (K * V)) nodes seps : Prop :=
  length nodes = S (length seps) /\ Forall (shape 0 0 h) nodes /\ weave seps (map to_list nodes) = l.

Lemma cut_leaves_spec g it :
  1 <= g -> g - 1 <= length it -> S (length it) <= 8 * g ->
  exists nodes seps, cut_leaves g it (length it) = Some (nodes, seps) /\ length nodes = g /\ level 0 it nodes seps.
Proof.
  revert it; induction g as [|g IH]; intros it Hg Hlo Hhi; [lia|]. cbn [cut_leaves].
  destruct (length it <? g) eqn:E; prop_bools; [lia|].
  pose proof (div_ceil_spec (length it - g) (S g) ltac:(lia)) as Hd.
  set (q := div_ceil (length it - g) (S g)) in *.
  assert (q <= 7) by nia. assert (q <= length it - g) by nia.
  rewrite length_take, Nat.min_l by lia. destruct (0 <? g) eqn:Eg; prop_bools.
  - destruct (drop q it) as [|sep it'] eqn:Edrop.
    { apply (f_equal length) in Edrop. rewrite length_drop in Edrop. simpl in Edrop. lia. }
    pose proof (f_equal length Edrop) as Hlen. rewrite length_drop in Hlen. simpl in Hlen.
    replace (length it - q - 1) with (length it') by lia.
    destruct (IH it') as (nodes & seps & -> & Hn & H1 & H2 & H3); [lia|lia|nia|].
    cbn [mbind option_bind]. do 2 eexists. split; [reflexivity|]. split; [simpl; lia|].
    split; [simpl; lia|]. split.
    + constructor; [|done]. cbn [shape]. rewrite length_take. unfold MAX_ENTRIES, ORDER. lia.
    + cbn [map weave to_list]. rewrite H3, <- Edrop. apply take_drop.
  - assert (g = 0) as -> by lia. do 2 eexists. split; [reflexivity|]. split; [done|].
    assert (q = length it) as Hq by nia. rewrite take_ge by lia.
    split; [done|]. split; [|done]. constructor; [|constructor]. cbn [shape]. unfold MAX_ENTRIES, ORDER. lia.
Qed.

Lemma level_loop_spec h per node_it sep_it children inner up_nodes up_seps :
  2 <= per <= MAX_CHILDREN -> children <> [] -> length children = S (length inner) ->
  length children <= per -> length sep_it = length node_it -> length up_seps = length up_nodes ->
  Forall (shape 0 0 h) node_it -> Forall (shape 0 0 h) children -> Forall (shape 0 0 (S h)) up_nodes ->
  exists un us, level_loop per node_it sep_it children inner up_nodes up_seps = Some (un, us) /\
    level (S h) (wpre up_seps (map to_list up_nodes) ++ to_list (Internal inner children) ++
                 wpost sep_it (map to_list node_it)) un us /\
    2 * length un <= 2 * length up_nodes + length children + length node_it + 1.
Proof.
  intros Hper. revert sep_it children inner up_nodes up_seps.
  assert (Hnode : forall inner children, length children = S (length inner) -> length children <= per ->
    Forall (shape 0 0 h) children -> shape 0 0 (S h) (Internal inner children)).
  { intros inner children H1 H2 H3. split; [unfold MAX_CHILDREN, MAX_ENTRIES, ORDER in *; lia|done]. }
  induction node_it as [|n node_it IH];
    intros sep_it children inner up_nodes up_seps Hne Hc Hcp Hs Hu Hn Hch Hup; cbn [level_loop].
  - destruct sep_it; [|done]. do 2 eexists. split; [reflexivity|]. rewrite length_app. split.
    + split; [rewrite length_app; simpl; lia|].
      split; [apply Forall_app; split; [done|by constructor; [apply Hnode|]]|].
      rewrite map_app. rewrite <- (app_nil_r up_seps) at 1. cbn [map].
      by apply weave_split; rewrite ?length_map.
    + destruct children; [done|]. simpl. lia.
  - destruct sep_it as [|sep sep_it]; [done|]. simpl in Hs. apply Forall_cons in Hn as [Hn1 Hn].
    assert (Hstep : forall c' i' un' us' r, (r = level_loop per node_it sep_it c' i' un' us') ->
       match children with [] => level_loop per node_it (sep :: sep_it) [n] inner up_nodes up_seps | _ => r end = r)
      by (intros; by destruct children). 
    destruct (length children <? per) eqn:E; prop_bools.
    + rewrite (Hstep _ _ _ _ _ eq_refl).
      destruct (IH sep_it (children ++ [n]) (inner ++ [sep]) up_nodes up_seps) as (un & us & -> & Hl & Hm);
        rewrite ?length_app; try done; try (simpl; lia).
      { by destruct children. }
      { apply Forall_app. split; [done|by constructor]. }
      do 2 eexists. split; [reflexivity|]. rewrite length_app in Hm. split; [|simpl in *; lia].
      rewrite to_list_app in Hl by lia. cbn [map wpost]. cbn [to_list map weave] in Hl |- *.
      by rewrite <- app_assoc in Hl.
    + rewrite (Hstep _ _ _ _ _ eq_refl).
      destruct (IH sep_it [n] [] (up_nodes ++ [Internal inner children]) (up_seps ++ [sep]))
        as (un & us & -> & Hl & Hm); rewrite ?length_app; try done; try (simpl; lia).
      { by constructor. }
      { apply Forall_app. split; [done|]. constructor; [by apply Hnode|done]. }
      do 2 eexists. split; [reflexivity|]. rewrite length_app in Hm. split; [|simpl in *; lia].
      rewrite map_app in Hl. cbn [map] in Hl |- *. rewrite wpre_snoc in Hl by (by rewrite length_map).
      cbn [wpost]. rewrite <- !app_assoc in Hl. cbn [app] in Hl. exact Hl.
Qed.

Lemma levels_spec fuel h l nodes seps :
  level h l nodes seps -> length nodes <= fuel ->
  exists r h', levels fuel nodes seps = Some r /\ to_list r = l /\ shape 0 0 h' r.
Proof.
  revert h nodes seps; induction fuel as [|fuel IH]; intros h nodes seps (H1 & H2 & H3) Hf; [lia|].
  cbn [levels]. destruct (1 <? length nodes) eqn:E; prop_bools.
  - destruct nodes as [|n nodes]; [done|]. apply Forall_cons in H2 as [Hn H2].
    set (N := length (n :: nodes)) in *. set (g := div_ceil N MAX_CHILDREN).
    pose proof (div_ceil_spec N MAX_CHILDREN ltac:(unfold MAX_CHILDREN, ORDER; lia)) as Hg. fold g in Hg.
    unfold MAX_CHILDREN, ORDER in Hg. assert (1 <= g) by lia.
    pose proof (div_ceil_spec N g ltac:(lia)) as Hp. set (per := div_ceil N g) in *.
    assert (2 <= per <= 8) as Hper by nia.
    cbn [level_loop]. destruct (level_loop_spec h per nodes seps [n] [] [] []) as (un & us & -> & Hl & Hm);
      try done; try (simpl in *; lia); [by constructor|].
    cbn [mbind option_bind]. cbn [wpre map app to_list weave] in Hl.
    rewrite <- weave_cons in Hl by (rewrite length_map; unfold N in *; simpl in H1; lia). cbn [map] in H3. rewrite H3 in Hl.
    apply (IH (S h) un us Hl). simpl in Hm. unfold N in *. simpl in *. lia.
  - destruct nodes as [|n [|]]; [done| |simpl in E; lia]. destruct seps; [|done].
    exists n, h. cbn in H3. apply Forall_cons in H2 as [Hn _]. split; [done|]. by split.
Qed.

Context {HK : OrdKey K}.

Lemma from_sorted_map (entries : list (K * V)) :
  sorted entries -> exists m, from_sorted entries = Some m /\ contents m = entries /\ map_inv 0 m.
Proof.
  intros Hs. unfold from_sorted. destruct (length entries <=? MAX_ENTRIES) eqn:E; prop_bools.
  - eexists. split; [reflexivity|]. split; [done|]. split; [|done]. exists 0. simpl. lia.
  - pose proof (div_ceil_spec (length entries + 1) (MAX_ENTRIES + 1) ltac:(lia)) as Hg.
    set (g := div_ceil _ _) in *. unfold MAX_ENTRIES, ORDER in Hg, E.
    destruct (cut_leaves_spec g entries) as (nodes & seps & -> & Hn & Hlev); [lia..|].
    cbn [mbind option_bind]. destruct (levels_spec (length nodes) 0 entries nodes seps Hlev) as (r & h & -> & Hl & Hsh); [lia|].
    eexists. split; [reflexivity|]. split; [done|]. unfold map_inv, contents. cbn [root len].
    rewrite Hl. split; [|done]. exists h. by destruct h.
Qed.

End Build.

(** [n] entries with the keys [0 .. n-1]. *)
Definition seq_entries (n : nat) : list (Z * nat) := map (fun i => (Z.of_nat i, i)) (seq 0 n).

(** ** Properties *)

(** Bulk build.  On strictly sorted entries [from_sorted] terminates
    without a panic; the tree stands for exactly the entries given, is
    balanced with at most seven entries a node and the right [len], so
    lookups, predecessor queries and inserts on it behave as on any map. *)
Lemma from_sorted_correct {K V} `{!OrdKey K} (entries : list (K * V)) :
  sorted entries ->
  exists m, from_sorted entries = Some m /\ contents m = entries /\ map_inv 0 m /\
    (forall k, get m k = Some (sm_lookup k entries)) /\
    (forall k v, exists m', insert m k v = Some (m', sm_lookup k entries) /\
       contents m' = sm_insert k v entries /\ map_inv 0 m').
Proof.
  intros Hs. destruct (from_sorted_map entries Hs) as (m & H1 & H2 & H3). exists m.
  split_and!; [done..| |].
  - intros k. erewrite get_map by done. by rewrite H2.
  - intros k v. rewrite <- H2. apply insert_map; [lia|done].
Qed.

(** A bulk-built map can panic on removal.  [from_sorted] cuts each level
    in groups of [per] children and leaves the rest to the last group, which
    may get a single child and no entry; with 3584 entries this happens on
    two levels, and removing the largest key makes [merge_children] take a
    separator out of an empty node.  336 entries already leave a node below
    [MIN_ENTRIES]. *)
Lemma from_sorted_breaks_removal :
  (exists m, from_sorted (seq_entries 3584) = Some m /\ get m 3583%Z = Some (Some 3583) /\
     remove_mut m 3583%Z = None) /\
  (exists m, from_sorted (seq_entries 336) = Some m /\ forall h, ~ shape MIN_ENTRIES 1 h (root m)).
Proof.
  split.
  - assert (match from_sorted (seq_entries 3584) with
            | Some m => bool_decide (get m 3583%Z = Some (Some 3583)) &&
                        match remove_mut m 3583%Z with None => true | Some _ => false end
            | None => false end = true) as H by (vm_compute; reflexivity).
    destruct (from_sorted (seq_entries 3584)) as [m|]; [|discriminate].
    exists m. split; [reflexivity|]. apply andb_true_iff in H as [H1%bool_decide_eq_true H2].
    split; [exact H1|]. destruct (remove_mut m 3583%Z); [discriminate|reflexivity].
  - assert (match from_sorted (seq_entries 336) with
            | Some m => match root m with
                        | Internal _ cs => existsb (fun c => match c with
                            | Internal es (Leaf _ :: _) => length es <? MIN_ENTRIES | _ => false end) cs
                        | Leaf _ => false end
            | None => false end = true) as H by (vm_compute; reflexivity).
    destruct (from_sorted (seq_entries 336)) as [m|]; [|discriminate].
    exists m. split; [reflexivity|]. intros h Hsh.
    destruct (root m) as [es|es cs]; [discriminate|]. destruct h as [|h]; [done|].
    destruct Hsh as (_ & _ & Hc). apply existsb_exists in H as (c & Hin & Hc').
    apply list_elem_of_In in Hin. pose proof (proj1 (Forall_forall _ _) Hc c Hin) as Hs.
    destruct c as [|es' [|[] ?]]; try done. prop_bools. destruct h as [|h]; [done|].
    destruct Hs as ((Hs & _) & _). lia.
Qed.
