(* ===== verification/BTreeIter.v ===== *)
(** The iterators of the persistent B-tree: in-order, descending, key ranges
    and descending predicate groups, as the explicit stack machines of the
    code, against the sorted list the map stands for. *)
From S2P Require Import Prelude Iterator SortedMap BTree BTreeCore.
Open Scope nat_scope.

Section Iter.
Context {K V : Type}.
Implicit Types (t node : BNode K V) (m : PersistentBTreeMap K V) (es entries : list (K * V)) (cs : list (BNode K V)).

(** [Vec<(&Arc<BNode>, usize)>], the top first. *)
Definition stack : Type := list (BNode K V * nat).

(** [phase = idx & 1], [slot = idx >> 1]. *)
Definition iter_turn (s : stack) : option (turn stack (K * V)) :=
  match s with
  | [] => Some Finished
  | (Leaf entries as node, idx) :: rest =>
    if idx <? length entries then
      let! e := entries !! idx in Some (Yield e ((node, idx + 1) :: rest))
    else Some (Continue rest)
  | (Internal entries children as node, idx) :: rest =>
    let phase := idx mod 2 in
    let slot := idx / 2 in
    if phase =? 0 then
      if slot <? length children then
        let! c := children !! slot in Some (Continue ((c, 0) :: (node, idx + 1) :: rest))
      else Some (Continue rest)
    else if slot <? length entries then
      let! e := entries !! slot in Some (Yield e ((node, idx + 1) :: rest))
    else Some (Continue rest)
  end.

(** [IterRev]'s turn: [pos] counts the steps of a node from 1. *)
Definition iter_rev_turn (s : stack) : option (turn stack (K * V)) :=
  match s with
  | [] => Some Finished
  | (Leaf entries as node, pos) :: rest =>
    if pos <=? length entries then
      let! e := entries !! (length entries - pos) in Some (Yield e ((node, pos + 1) :: rest))
    else Some (Continue rest)
  | (Internal entries children as node, pos) :: rest =>
    let n_steps := 2 * length entries + 1 in
    if pos <=? n_steps then
      if pos mod 2 =? 1 then
        let! c := children !! (length entries - (pos - 1) / 2) in
        Some (Continue ((c, 1) :: (node, pos + 1) :: rest))
      else
        let! e := entries !! (length entries - pos / 2) in Some (Yield e ((node, pos + 1) :: rest))
    else Some (Continue rest)
  end.

(** How many turns a node takes: the fuel of the two machines. *)
Fixpoint node_weight t : nat :=
  match t with
  | Leaf es => S (length es)
  | Internal es cs => S (length es + sum_list (map (fun c => S (node_weight c)) cs))
  end.

Definition child_weights cs : nat := sum_list (map (fun c => S (node_weight c)) cs).

Definition frame_weight (f : BNode K V * nat) : nat :=
  match f with
  | (Leaf es, i) => S (length es - i)
  | (Internal es cs, idx) =>
    let s := idx / 2 in
    S (length (drop s es) + child_weights (drop (if idx mod 2 =? 0 then s else S s) cs))
  end.

Definition stack_weight (s : stack) : nat := sum_list (map frame_weight s).

Definition iter_next (s : stack) : option (option (K * V) * stack) :=
  next_loop iter_turn (S (stack_weight s)) s.

Definition iter m : stack := [(root m, 0)].

(** The entries a forward frame has still to give. *)
Definition frame_rest (f : BNode K V * nat) : list (K * V) :=
  match f with
  | (Leaf es, i) => drop i es
  | (Internal es cs, idx) =>
    let s := idx / 2 in
    if idx mod 2 =? 0 then weave (drop s es) (map to_list (drop s cs))
    else wpost (drop s es) (map to_list (drop (S s) cs))
  end.

Definition stack_rest (s : stack) : list (K * V) := concat (map frame_rest s).

Fixpoint wf_depth (h : nat) t : Prop :=
  match h, t with
  | O, Leaf _ => True
  | S h, Internal es cs => length cs = S (length es) /\ Forall (wf_depth h) cs
  | _, _ => False
  end.

Definition wf_node t : Prop := exists h, wf_depth h t.
Definition stack_valid (s : stack) : Prop := Forall (fun f => wf_node f.1) s.

Lemma shape_wf c mi h t : shape c mi h t -> wf_depth h t.
Proof.
  revert mi t; induction h as [|h IH]; intros mi [es|es cs]; simpl; try done.
  intros (_ & H & Hc). split; [done|]. eapply Forall_impl; [exact Hc|]. intros x Hx. by eapply IH.
Qed.

Lemma wf_children es cs : wf_node (Internal es cs) -> length cs = S (length es) /\ Forall wf_node cs.
Proof.
  intros [[|h] H]; [done|]. destruct H as [H Hc]. split; [done|].
  eapply Forall_impl; [exact Hc|]. intros x Hx. by exists h.
Qed.

Lemma map_wf c {HK : OrdKey K} m : map_inv c m -> wf_node (root m).
Proof. intros ((h & Hh) & _). exists h. by eapply shape_wf. Qed.

Lemma even_slot s : (2 * s) mod 2 = 0 /\ (2 * s) / 2 = s.
Proof.
  pose proof (Nat.div_mod (2 * s) 2 ltac:(lia)). pose proof (Nat.mod_upper_bound (2 * s) 2 ltac:(lia)). lia.
Qed.

Lemma odd_slot s : (2 * s + 1) mod 2 = 1 /\ (2 * s + 1) / 2 = s.
Proof.
  pose proof (Nat.div_mod (2 * s + 1) 2 ltac:(lia)). pose proof (Nat.mod_upper_bound (2 * s + 1) 2 ltac:(lia)). lia.
Qed.

Lemma even_or_odd idx : exists s, idx = 2 * s \/ idx = 2 * s + 1.
Proof.
  exists (idx / 2). pose proof (Nat.div_mod idx 2 ltac:(lia)).
  pose proof (Nat.mod_upper_bound idx 2 ltac:(lia)). lia.
Qed.

Lemma frame_rest_even es cs s :
  frame_rest (Internal es cs, 2 * s) = weave (drop s es) (map to_list (drop s cs)).
Proof. unfold frame_rest. destruct (even_slot s) as [-> ->]. done. Qed.

Lemma frame_rest_odd es cs s :
  frame_rest (Internal es cs, 2 * s + 1) = wpost (drop s es) (map to_list (drop (S s) cs)).
Proof. unfold frame_rest. destruct (odd_slot s) as [-> ->]. done. Qed.

Lemma frame_weight_even es cs s :
  frame_weight (Internal es cs, 2 * s) = S (length (drop s es) + child_weights (drop s cs)).
Proof. unfold frame_weight. destruct (even_slot s) as [-> ->]. done. Qed.

Lemma frame_weight_odd es cs s :
  frame_weight (Internal es cs, 2 * s + 1) = S (length (drop s es) + child_weights (drop (S s) cs)).
Proof. unfold frame_weight. destruct (odd_slot s) as [-> ->]. done. Qed.

Lemma frame_start t : frame_rest (t, 0) = to_list t /\ frame_weight (t, 0) = node_weight t.
Proof.
  destruct t as [es|es cs]; [split; [done|cbn [frame_weight]; by rewrite Nat.sub_0_r]|].
  split; [apply (frame_rest_even es cs 0)|apply (frame_weight_even es cs 0)].
Qed.

(** Descending into [children[slot]] splits what the frame has to give. *)
Lemma frame_descend es cs s c :
  length cs = S (length es) -> cs !! s = Some c ->
  frame_rest (Internal es cs, 2 * s) = frame_rest (c, 0) ++ frame_rest (Internal es cs, 2 * s + 1) /\
  frame_weight (c, 0) + frame_weight (Internal es cs, 2 * s + 1) < frame_weight (Internal es cs, 2 * s).
Proof.
  intros Hl Hc. rewrite frame_rest_even, frame_rest_odd, frame_weight_even, frame_weight_odd.
  destruct (frame_start c) as [-> ->]. rewrite (drop_S cs c s Hc). apply lookup_lt_Some in Hc. split.
  - cbn [map]. apply weave_cons. rewrite length_map, !length_drop. lia.
  - unfold child_weights. cbn [map sum_list_with id]. lia.
Qed.

(** Emitting [entries[slot]]. *)
Lemma frame_emit es cs s e :
  length cs = S (length es) -> es !! s = Some e ->
  frame_rest (Internal es cs, 2 * s + 1) = e :: frame_rest (Internal es cs, 2 * s + 1 + 1) /\
  frame_weight (Internal es cs, 2 * s + 1 + 1) < frame_weight (Internal es cs, 2 * s + 1).
Proof.
  intros Hl He. replace (2 * s + 1 + 1) with (2 * S s) by lia.
  rewrite frame_rest_even, frame_rest_odd, frame_weight_even, frame_weight_odd.
  rewrite (drop_S es e s He). pose proof (lookup_lt_Some _ _ _ He).
  destruct (lookup_lt_is_Some_2 cs (S s)) as [c Hc]; [lia|]. rewrite (drop_S cs c (S s) Hc). split.
  - cbn [map wpost]. rewrite weave_cons; [done|]. rewrite length_map, !length_drop. lia.
  - simpl. lia.
Qed.

(** An exhausted frame gives nothing more. *)
Lemma frame_exhausted es cs idx :
  length cs = S (length es) ->
  (if idx mod 2 =? 0 then length cs <= idx / 2 else length es <= idx / 2) -> frame_rest (Internal es cs, idx) = [].
Proof.
  intros Hl H. unfold frame_rest. destruct (idx mod 2 =? 0).
  - by rewrite (drop_ge es), (drop_ge cs) by lia.
  - by rewrite (drop_ge es) by lia.
Qed.

Lemma frame_weight_pos f : 0 < frame_weight f.
Proof. destruct f as [[|] ?]; simpl; lia. Qed.

Lemma iter_turn_ok s : stack_valid s -> turn_ok iter_turn stack_valid stack_rest stack_weight s.
Proof.
  intros Hv. destruct s as [|[node idx] rest]; [done|]. apply Forall_cons in Hv as [Hn Hv]. cbn [fst] in Hn.
  pose proof (frame_weight_pos (node, idx)) as Hpos.
  unfold turn_ok. cbn [iter_turn]. destruct node as [es|es cs].
  - destruct (idx <? length es) eqn:E; prop_bools.
    + destruct (lookup_lt_is_Some_2 es idx E) as [e He]. rewrite He. cbn [mbind option_bind].
      unfold stack_rest, stack_weight. cbn [map concat sum_list_with id frame_rest frame_weight].
      rewrite (drop_S es e idx He), Nat.add_1_r. split; [done|]. split; [lia|]. by constructor.
    + unfold stack_rest, stack_weight. cbn [map concat sum_list_with id frame_rest]. rewrite drop_ge by done.
      split; [done|]. split; [lia|done].
  - destruct (wf_children es cs Hn) as [Hl Hc].
    destruct (even_or_odd idx) as (s & [-> | ->]).
    + destruct (even_slot s) as [-> ->]. cbn [Nat.eqb]. destruct (s <? length cs) eqn:E; prop_bools.
      * destruct (lookup_lt_is_Some_2 cs s E) as [c Hcs]. rewrite Hcs. cbn [mbind option_bind].
        destruct (frame_descend es cs s c Hl Hcs) as [Hr Hw].
        unfold stack_rest, stack_weight. cbn [map concat sum_list_with id]. rewrite Hr, <- app_assoc.
        split; [done|]. split; [lia|]. repeat constructor; try done. by eapply Forall_lookup_1.
      * unfold stack_rest, stack_weight. cbn [map concat sum_list_with id]. rewrite frame_exhausted; [|done|].
        { split; [done|]. split; [lia|done]. }
        destruct (even_slot s) as [-> ->]. done.
    + destruct (odd_slot s) as [-> ->]. cbn [Nat.eqb]. destruct (s <? length es) eqn:E; prop_bools.
      * destruct (lookup_lt_is_Some_2 es s E) as [e He]. rewrite He. cbn [mbind option_bind].
        destruct (frame_emit es cs s e Hl He) as [Hr Hw].
        unfold stack_rest, stack_weight. cbn [map concat sum_list_with id]. rewrite Hr.
        split; [done|]. split; [lia|]. by constructor.
      * unfold stack_rest, stack_weight. cbn [map concat sum_list_with id]. rewrite frame_exhausted; [|done|].
        { split; [done|]. split; [lia|done]. }
        destruct (odd_slot s) as [-> ->]. done.
Qed.

Lemma iter_next_ok s : stack_valid s -> next_ok iter_next stack_valid stack_rest s.
Proof.
  intros Hv. pose proof (next_loop_spec iter_turn stack_valid stack_rest stack_weight iter_turn_ok
    (S (stack_weight s)) s Hv ltac:(lia)) as H.
  unfold next_ok, iter_next. destruct (stack_rest s); [done|]. destruct H as (s' & ? & ? & ? & _). eauto.
Qed.

Lemma iter_collect t l : wf_node t -> to_list t = l -> collect iter_next (S (length l)) [(t, 0)] = Some l.
Proof.
  intros Ht Hl. apply (collect_spec iter_next stack_valid stack_rest iter_next_ok).
  - by repeat constructor.
  - unfold stack_rest. cbn [map concat]. rewrite app_nil_r, <- Hl. apply frame_start.
Qed.

(** ** The descending machine *)

Definition rev_frame_weight (f : BNode K V * nat) : nat :=
  match f with
  | (Leaf es, pos) => S (length es + 1 - pos)
  | (Internal es cs, pos) =>
    let E := length es in
    if pos mod 2 =? 1 then
      if E <? pos / 2 then 1 else S (E - pos / 2 + child_weights (take (S (E - pos / 2)) cs))
    else S (E + 1 - pos / 2 + child_weights (take (E + 1 - pos / 2) cs))
  end.

Definition rev_stack_weight (s : stack) : nat := sum_list (map rev_frame_weight s).

Definition iter_rev_next (s : stack) : option (option (K * V) * stack) :=
  next_loop iter_rev_turn (S (rev_stack_weight s)) s.

Definition iter_rev m : stack := [(root m, 1)].

(** The entries a descending frame has still to give, largest first. *)
Definition rev_frame_rest (f : BNode K V * nat) : list (K * V) :=
  match f with
  | (Leaf es, pos) => rev (take (length es + 1 - pos) es)
  | (Internal es cs, pos) =>
    let E := length es in
    if pos mod 2 =? 1 then
      if E <? pos / 2 then []
      else rev (weave (take (E - pos / 2) es) (map to_list (take (S (E - pos / 2)) cs)))
    else rev (wpre (take (E + 1 - pos / 2) es) (map to_list (take (E + 1 - pos / 2) cs)))
  end.

Definition rev_stack_rest (s : stack) : list (K * V) := concat (map rev_frame_rest s).

(** Positions in [IterRev] start at 1. *)
Definition rev_stack_valid (s : stack) : Prop := Forall (fun f => wf_node f.1 /\ 1 <= f.2) s.

(** The frame whose next step is the child / the entry in slot [r]. *)
Lemma rev_odd es cs r :
  r <= length es ->
  rev_frame_rest (Internal es cs, 2 * (length es - r) + 1) = rev (weave (take r es) (map to_list (take (S r) cs))) /\
  rev_frame_weight (Internal es cs, 2 * (length es - r) + 1) = S (r + child_weights (take (S r) cs)).
Proof.
  intros Hr. unfold rev_frame_rest, rev_frame_weight. destruct (odd_slot (length es - r)) as [-> ->].
  destruct (length es <? length es - r) eqn:E; prop_bools; [lia|].
  replace (length es - (length es - r)) with r by lia. done.
Qed.

Lemma rev_even es cs r :
  r <= length es ->
  rev_frame_rest (Internal es cs, 2 * (length es + 1 - r)) = rev (wpre (take r es) (map to_list (take r cs))) /\
  rev_frame_weight (Internal es cs, 2 * (length es + 1 - r)) = S (r + child_weights (take r cs)).
Proof.
  intros Hr. unfold rev_frame_rest, rev_frame_weight. destruct (even_slot (length es + 1 - r)) as [-> ->].
  replace (length es + 1 - (length es + 1 - r)) with r by lia. done.
Qed.

Lemma rev_frame_start t :
  wf_node t -> rev_frame_rest (t, 1) = rev (to_list t) /\ rev_frame_weight (t, 1) = node_weight t.
Proof.
  intros Ht. destruct t as [es|es cs].
  - cbn. by rewrite Nat.add_sub, firstn_all.
  - destruct (wf_children es cs Ht) as [Hl _].
    destruct (rev_odd es cs (length es) (Nat.le_refl _)) as [H1 H2].
    rewrite Nat.sub_diag in H1, H2. rewrite (take_ge es), (take_ge cs) in H1 by lia. rewrite (take_ge cs) in H2 by lia. done.
Qed.

Lemma child_weights_app cs1 cs2 : child_weights (cs1 ++ cs2) = child_weights cs1 + child_weights cs2.
Proof. unfold child_weights. rewrite map_app. induction (map _ cs1); cbn in *; lia. Qed.

Lemma rev_descend es cs r c :
  length cs = S (length es) -> wf_node c -> cs !! r = Some c -> r <= length es ->
  let pos := 2 * (length es - r) + 1 in
  rev_frame_rest (Internal es cs, pos) = rev_frame_rest (c, 1) ++ rev_frame_rest (Internal es cs, pos + 1) /\
  rev_frame_weight (c, 1) + rev_frame_weight (Internal es cs, pos + 1) < rev_frame_weight (Internal es cs, pos).
Proof.
  intros Hl Hw Hc Hr pos. unfold pos. destruct (rev_odd es cs r Hr) as [-> ->].
  replace (2 * (length es - r) + 1 + 1) with (2 * (length es + 1 - r)) by lia.
  destruct (rev_even es cs r Hr) as [-> ->]. destruct (rev_frame_start c Hw) as [-> ->].
  rewrite (take_S_r cs r c Hc). split.
  - rewrite map_app. cbn [map]. rewrite <- (app_nil_r (take r es)) at 1.
    rewrite weave_split by (rewrite ?length_map, ?length_take; simpl; lia).
    cbn [wpost]. by rewrite app_nil_r, rev_app_distr.
  - rewrite child_weights_app. unfold child_weights at 3. cbn. lia.
Qed.

Lemma rev_emit es cs r e :
  length cs = S (length es) -> es !! r = Some e ->
  let pos := 2 * (length es - r) in
  rev_frame_rest (Internal es cs, pos) = e :: rev_frame_rest (Internal es cs, pos + 1) /\
  rev_frame_weight (Internal es cs, pos + 1) < rev_frame_weight (Internal es cs, pos).
Proof.
  intros Hl He pos. unfold pos. pose proof (lookup_lt_Some _ _ _ He) as Hr.
  replace (2 * (length es - r)) with (2 * (length es + 1 - S r)) at 1 4 by lia.
  destruct (rev_even es cs (S r)) as [-> ->]; [lia|]. destruct (rev_odd es cs r) as [-> ->]; [lia|].
  destruct (lookup_lt_is_Some_2 cs r) as [c Hc]; [lia|]. split; [|lia].
  rewrite (take_S_r es r e He), (take_S_r cs r c Hc), !map_app. cbn [map].
  rewrite wpre_snoc by (rewrite length_map, !length_take; lia).
  rewrite <- (app_nil_r (take r es)) at 2.
  rewrite weave_split by (rewrite ?length_map, ?length_take; simpl; lia). cbn [wpost].
  rewrite app_nil_r, !rev_app_distr. done.
Qed.

Lemma rev_turn_ok s : rev_stack_valid s -> turn_ok iter_rev_turn rev_stack_valid rev_stack_rest rev_stack_weight s.
Proof.
  intros Hv. destruct s as [|[node pos] rest]; [done|]. apply Forall_cons in Hv as [[Hn Hp] Hv]. cbn [fst snd] in *.
  unfold turn_ok. cbn [iter_rev_turn]. destruct node as [es|es cs].
  - destruct (pos <=? length es) eqn:E; prop_bools.
    + destruct (lookup_lt_is_Some_2 es (length es - pos)) as [e He]; [lia|]. rewrite He. cbn [mbind option_bind].
      unfold rev_stack_rest, rev_stack_weight. cbn [map concat sum_list_with id rev_frame_rest rev_frame_weight].
      replace (length es + 1 - pos) with (S (length es - pos)) by lia.
      rewrite (take_S_r es _ e He), rev_app_distr. replace (length es + 1 - (pos + 1)) with (length es - pos) by lia.
      split; [done|]. split; [lia|]. constructor; [simpl; split; [done|lia]|done].
    + unfold rev_stack_rest, rev_stack_weight. cbn [map concat sum_list_with id rev_frame_rest rev_frame_weight].
      replace (length es + 1 - pos) with 0 by lia. split; [done|]. split; [lia|done].
  - destruct (wf_children es cs Hn) as [Hl Hc].
    destruct (pos <=? 2 * length es + 1) eqn:E; prop_bools.
    + destruct (even_or_odd pos) as (j & [-> | ->]).
      * destruct (even_slot j) as [-> ->]. cbn [Nat.eqb].
        destruct (lookup_lt_is_Some_2 es (length es - j)) as [e He]; [lia|]. rewrite He. cbn [mbind option_bind].
        destruct (rev_emit es cs (length es - j) e Hl He) as [Hr Hw].
        replace (length es - (length es - j)) with j in * by lia.
        unfold rev_stack_rest, rev_stack_weight. cbn [map concat sum_list_with id]. rewrite Hr.
        split; [done|]. split; [lia|]. constructor; [simpl; split; [done|lia]|done].
      * rewrite Nat.add_sub. destruct (odd_slot j) as [-> _], (even_slot j) as [_ ->]. cbn [Nat.eqb].
        destruct (lookup_lt_is_Some_2 cs (length es - j)) as [c Hcs]; [lia|]. rewrite Hcs. cbn [mbind option_bind].
        assert (wf_node c) as Hwc by (by eapply Forall_lookup_1).
        destruct (rev_descend es cs (length es - j) c Hl Hwc Hcs) as [Hr Hw]; [lia|].
        replace (length es - (length es - j)) with j in * by lia.
        unfold rev_stack_rest, rev_stack_weight. cbn [map concat sum_list_with id]. rewrite Hr, <- app_assoc.
        split; [done|]. split; [lia|]. repeat constructor; try done; simpl; lia.
    + assert (rev_frame_rest (Internal es cs, pos) = []) as Hr.
      { unfold rev_frame_rest. destruct (even_or_odd pos) as (j & [-> | ->]).
        - destruct (even_slot j) as [-> ->]. cbn [Nat.eqb].
          replace (length es + 1 - j) with 0 by lia. done.
        - destruct (odd_slot j) as [-> ->]. cbn [Nat.eqb].
          destruct (length es <? j) eqn:E'; prop_bools; [done|lia]. }
      unfold rev_stack_rest, rev_stack_weight. cbn [map concat sum_list_with id]. rewrite Hr.
      split; [done|]. split; [|done]. unfold rev_frame_weight. destruct (_ =? 1); [destruct (_ <? _)|]; lia.
Qed.

Lemma iter_rev_next_ok s : rev_stack_valid s -> next_ok iter_rev_next rev_stack_valid rev_stack_rest s.
Proof.
  intros Hv. pose proof (next_loop_spec iter_rev_turn rev_stack_valid rev_stack_rest rev_stack_weight rev_turn_ok
    (S (rev_stack_weight s)) s Hv ltac:(lia)) as H.
  unfold next_ok, iter_rev_next. destruct (rev_stack_rest s); [done|]. destruct H as (s' & ? & ? & ? & _). eauto.
Qed.

End Iter.

(** ** Ranges *)

(** [core::ops::Bound]. *)
Inductive Bound (K : Type) : Type :=
| Unbounded
| Included (k : K)
| Excluded (k : K).
Arguments Unbounded {K}.
Arguments Included {K} k.
Arguments Excluded {K} k.

Section Range.
Context {K V : Type} {HK : OrdKey K}.
Implicit Types (t node : BNode K V) (m : PersistentBTreeMap K V) (es entries : list (K * V)) (cs : list (BNode K V)).

(** [k] is before the range. *)
Definition below_lo (lo : Bound K) (k : K) : bool :=
  match lo with Unbounded => false | Included b => key_lt k b | Excluded b => key_le k b end.

Definition lower_index entries (lo : Bound K) : nat :=
  match lo with
  | Unbounded => 0
  | Included k => partition_point (fun e => key_lt e.1 k) entries
  | Excluded k => partition_point (fun e => key_le e.1 k) entries
  end.

(** The descent of [range]: the frames pushed on the way to [lo]. *)
Fixpoint range_seek node (lo : Bound K) (s : stack (K:=K) (V:=V)) : option (stack (K:=K) (V:=V)) :=
  match node with
  | Leaf entries => Some ((node, lower_index entries lo) :: s)
  | Internal entries children =>
    let i := lower_index entries lo in
    mjoin (at_child (fun c => range_seek c lo ((node, 2 * i + 1) :: s)) children i)
  end.

Record RangeIter : Type := mk_range { inner : stack (K:=K) (V:=V); hi_key : option K; hi_incl : bool; done_ : bool }.

Definition range m (lo hi : Bound K) : option RangeIter :=
  let! s := range_seek (root m) lo [] in
  let '(hi_key, hi_incl) :=
    match hi with
    | Unbounded => (None, false)
    | Included k => (Some k, true)
    | Excluded k => (Some k, false)
    end in
  Some (mk_range s hi_key hi_incl false).

(** [k > h], [k >= h]: past the end. *)
Definition past_hi (hi_key : option K) (hi_incl : bool) (k : K) : bool :=
  match hi_key with
  | None => false
  | Some h => if hi_incl then key_lt h k else key_le h k
  end.

Definition range_next (r : RangeIter) : option (option (K * V) * RangeIter) :=
  if done_ r then Some (None, r)
  else
    let! (item, s) := iter_next (inner r) in
    match item with
    | None => Some (None, mk_range s (hi_key r) (hi_incl r) false)
    | Some e =>
      if past_hi (hi_key r) (hi_incl r) e.1 then Some (None, mk_range s (hi_key r) (hi_incl r) true)
      else Some (Some e, mk_range s (hi_key r) (hi_incl r) false)
    end.

Definition upper_index_by entries (above : K -> bool) : nat := partition_point (fun e => negb (above e.1)) entries.

Fixpoint range_rev_seek node (above : K -> bool) (s : stack (K:=K) (V:=V)) : option (stack (K:=K) (V:=V)) :=
  match node with
  | Leaf entries =>
    let j := upper_index_by entries above in
    Some ((node, length entries - j + 1) :: s)
  | Internal entries children =>
    let j := upper_index_by entries above in
    mjoin (at_child (fun c => range_rev_seek c above ((node, 2 * (length entries - j) + 2) :: s)) children j)
  end.

Record RangeIterRev : Type := mk_range_rev { inner_rev : stack (K:=K) (V:=V); below : K -> bool; done_rev : bool }.

Definition range_rev_by m (above below : K -> bool) : option RangeIterRev :=
  let! s := range_rev_seek (root m) above [] in Some (mk_range_rev s below false).

Definition range_rev_next (r : RangeIterRev) : option (option (K * V) * RangeIterRev) :=
  if done_rev r then Some (None, r)
  else
    let! (item, s) := iter_rev_next (inner_rev r) in
    match item with
    | None => Some (None, mk_range_rev s (below r) false)
    | Some e =>
      if below r e.1 then Some (None, mk_range_rev s (below r) true)
      else Some (Some e, mk_range_rev s (below r) false)
    end.

(** ** Seeking *)

(** A predicate that holds on a lower part of the order. *)
Definition down_closed (p : K -> bool) : Prop := forall a b, klt a b -> p b = true -> p a = true.

Lemma key_lt_down b : down_closed (fun k => key_lt k b).
Proof.
  intros a c Hac H. unfold key_lt in *. destruct (kcmp c b) eqn:E; try done.
  by rewrite (kcmp_trans a c b Hac E).
Qed.

Lemma key_le_down b : down_closed (fun k => key_le k b).
Proof.
  intros a c Hac H. unfold key_le in *. destruct (kcmp c b) eqn:E; try done.
  - apply kcmp_eq in E as ->. unfold klt in Hac. by rewrite Hac.
  - by rewrite (kcmp_trans a c b Hac E).
Qed.

Lemma below_lo_down lo : down_closed (below_lo lo).
Proof. destruct lo; [by intros a b|apply key_lt_down|apply key_le_down]. Qed.

Lemma lower_index_pp es lo : lower_index es lo = partition_point (fun e => below_lo lo e.1) es.
Proof. destruct lo; [|done..]. by destruct es. Qed.

Definition holds (p : K -> bool) (b : bool) (l : list (K * V)) : Prop := Forall (fun e => p e.1 = b) l.

Lemma down_gt p l (k : K) : down_closed p -> all_gt l k -> p k = false -> holds p false l.
Proof.
  intros Hp Hl Hk. eapply Forall_impl; [exact Hl|]. intros e He. cbn in He.
  destruct (p e.1) eqn:E; [|done]. by rewrite (Hp _ _ He E) in Hk.
Qed.

Lemma down_lt p l (k : K) : down_closed p -> all_lt l k -> p k = true -> holds p true l.
Proof. intros Hp Hl Hk. eapply Forall_impl; [exact Hl|]. intros e He. by apply (Hp _ k). Qed.

(** The partition point of sorted entries cuts them. *)
Lemma partition_cut p es :
  down_closed p -> sorted es ->
  exists es1 es2, es = es1 ++ es2 /\ partition_point (fun e => p e.1) es = length es1 /\
    holds p true es1 /\ holds p false es2.
Proof.
  intros Hp. induction es as [|e es IH]; intros Hs; [exists [], []; by repeat constructor|].
  apply sorted_cons in Hs as [H1 H2]. cbn. destruct (p e.1) eqn:E.
  - destruct (IH H2) as (es1 & es2 & -> & -> & ? & ?). exists (e :: es1), es2.
    split_and!; [done|done|by constructor|done].
  - exists [], (e :: es). split_and!; [done|done|constructor|]. constructor; [done|]. by apply (down_gt _ _ e.1).
Qed.

Lemma wpre_holds p es ls :
  down_closed p -> length ls = length es -> sorted (wpre es ls) -> holds p true es -> holds p true (wpre es ls).
Proof.
  intros Hp. revert ls; induction es as [|e es IH]; intros [|l ls] Hl Hs Hk; try done.
  cbn in Hs |- *. apply sorted_mid in Hs as (H1 & H2 & H3 & H4). apply Forall_cons in Hk as [He Hk].
  apply Forall_app. split; [by apply (down_lt _ _ e.1)|]. constructor; [done|]. apply IH; [simpl in Hl; lia|done..].
Qed.

Lemma wpost_holds p es ls :
  down_closed p -> length ls = length es -> sorted (wpost es ls) -> holds p false es -> holds p false (wpost es ls).
Proof.
  intros Hp. revert ls; induction es as [|e es IH]; intros [|l ls] Hl Hs Hk; try done.
  cbn in Hs |- *. apply sorted_cons in Hs as [H1 H2]. apply Forall_cons in Hk as [He Hk].
  constructor; [done|]. by apply (down_gt _ _ e.1).
Qed.

Lemma filter_holds p l : holds p true l -> filter (fun e : K * V => p e.1 = false) l = [].
Proof. intros H. apply filter_drop_all. eapply Forall_impl; [exact H|]. intros e He. cbn in He. by rewrite He. Qed.

Lemma filter_holds_not p l : holds p false l -> filter (fun e : K * V => p e.1 = false) l = l.
Proof. apply filter_keep. Qed.

Lemma filter_true_holds p l : holds p true l -> filter (fun e : K * V => p e.1 = true) l = l.
Proof. apply filter_keep. Qed.

Lemma filter_true_holds_not p l : holds p false l -> filter (fun e : K * V => p e.1 = true) l = [].
Proof. intros H. apply filter_drop_all. eapply Forall_impl; [exact H|]. intros e He. cbn in He. by rewrite He. Qed.

(** An internal node cut at the partition point of a down-closed predicate. *)
Lemma seek_cut p h es cs :
  down_closed p -> wf_depth (S h) (Internal es cs) -> sorted (to_list (Internal es cs)) ->
  exists es1 es2 cs1 t cs2, es = es1 ++ es2 /\ cs = cs1 ++ t :: cs2 /\
    length cs1 = length es1 /\ length cs2 = length es2 /\
    partition_point (fun e => p e.1) es = length es1 /\ wf_depth h t /\ sorted (to_list t) /\
    holds p true (wpre es1 (map to_list cs1)) /\ holds p false (wpost es2 (map to_list cs2)).
Proof.
  intros Hp [Hl Hc] Hs. pose proof (sorted_weave_entries _ _ Hs) as Hes.
  destruct (partition_cut p es Hp Hes) as (es1 & es2 & -> & Hpp & H1 & H2).
  destruct (cut_children es1 es2 cs Hl) as (cs1 & t & cs2 & -> & Hc1 & Hc2).
  rewrite to_list_split in Hs by done. apply Forall_app in Hc as [_ Hc]. apply Forall_cons in Hc as [Ht _].
  pose proof (sorted_app_l _ _ Hs) as Hpre. apply sorted_app_r in Hs.
  pose proof (sorted_app_l _ _ Hs) as Hst. apply sorted_app_r in Hs.
  exists es1, es2, cs1, t, cs2. split_and!; try done.
  - apply wpre_holds; [done|by rewrite length_map|done..].
  - apply wpost_holds; [done|by rewrite length_map|done..].
Qed.

Lemma range_seek_spec lo h t s :
  wf_depth h t -> sorted (to_list t) -> stack_valid s ->
  exists s', range_seek t lo s = Some s' /\ stack_valid s' /\
    stack_rest s' = filter (fun e => below_lo lo e.1 = false) (to_list t) ++ stack_rest s.
Proof.
  pose proof (below_lo_down lo) as Hd.
  revert t s; induction h as [|h IH]; intros [es|es cs] s Ht Hs Hv; try done; cbn [range_seek]; rewrite lower_index_pp.
  - cbn [to_list] in *. destruct (partition_cut (below_lo lo) es Hd Hs) as (es1 & es2 & -> & -> & H1 & H2).
    eexists. split; [reflexivity|]. split; [constructor; [by exists 0|done]|].
    unfold stack_rest. cbn [map concat frame_rest].
    by rewrite drop_app_length, filter_app, filter_holds, filter_holds_not.
  - destruct (seek_cut (below_lo lo) h es cs Hd Ht Hs) as
      (es1 & es2 & cs1 & t & cs2 & -> & -> & Hc1 & Hc2 & -> & Ht' & Hst & Hpre & Hpost).
    rewrite at_child_mid by done. cbn [mjoin option_join].
    destruct (IH t ((Internal (es1 ++ es2) (cs1 ++ t :: cs2), 2 * length es1 + 1) :: s) Ht' Hst) as (s' & -> & Hv' & Hr).
    { constructor; [by exists (S h)|done]. }
    eexists. split; [reflexivity|]. split; [done|]. rewrite Hr. unfold stack_rest at 1. cbn [map concat].
    rewrite frame_rest_odd, to_list_split, !filter_app by done.
    rewrite (filter_holds _ (wpre _ _)), (filter_holds_not _ (wpost _ _)) by done.
    rewrite drop_app_length, (cons_middle t), (app_assoc cs1), drop_app_length' by (rewrite length_app; simpl; lia).
    cbn [app]. by rewrite <- !app_assoc.
Qed.

Lemma range_rev_seek_spec above h t s :
  down_closed (fun k => negb (above k)) -> wf_depth h t -> sorted (to_list t) -> rev_stack_valid s ->
  exists s', range_rev_seek t above s = Some s' /\ rev_stack_valid s' /\
    rev_stack_rest s' = rev (filter (fun e => negb (above e.1) = true) (to_list t)) ++ rev_stack_rest s.
Proof.
  set (p := fun k => negb (above k)). intros Hd.
  revert t s; induction h as [|h IH]; intros [es|es cs] s Ht Hs Hv; try done;
    cbn [range_rev_seek]; unfold upper_index_by; change (fun e : K * V => negb (above e.1)) with (fun e : K * V => p e.1).
  - cbn [to_list] in *. destruct (partition_cut p es Hd Hs) as (es1 & es2 & -> & -> & H1 & H2).
    eexists. split; [reflexivity|]. split; [constructor; [split; [by exists 0|simpl; lia]|done]|].
    unfold rev_stack_rest. cbn [map concat rev_frame_rest].
    rewrite filter_app, (filter_true_holds p), (filter_true_holds_not p), app_nil_r by done.
    rewrite length_app. replace (length es1 + length es2 + 1 - _) with (length es1) by lia.
    by rewrite take_app_length.
  - destruct (seek_cut p h es cs Hd Ht Hs) as
      (es1 & es2 & cs1 & t & cs2 & -> & -> & Hc1 & Hc2 & -> & Ht' & Hst & Hpre & Hpost).
    rewrite at_child_mid by done. cbn [mjoin option_join].
    set (n := Internal (es1 ++ es2) (cs1 ++ t :: cs2)).
    destruct (IH t ((n, 2 * (length (es1 ++ es2) - length es1) + 2) :: s) Ht' Hst) as (s' & -> & Hv' & Hr).
    { constructor; [split; [by exists (S h)|simpl; lia]|done]. }
    eexists. split; [reflexivity|]. split; [done|]. rewrite Hr. unfold rev_stack_rest at 1. cbn [map concat].
    replace (2 * (length (es1 ++ es2) - length es1) + 2) with (2 * (length (es1 ++ es2) + 1 - length es1))
      by (rewrite length_app; lia).
    unfold n. destruct (rev_even (es1 ++ es2) (cs1 ++ t :: cs2) (length es1)) as [-> _]; [rewrite length_app; lia|].
    rewrite to_list_split, !filter_app by done.
    rewrite (filter_true_holds p (wpre _ _)), (filter_true_holds_not p (wpost _ _)), app_nil_r by done.
    rewrite take_app_length, take_app_length', rev_app_distr, <- app_assoc by done. done.
Qed.

(** ** Stopping *)

(** The part of a list before the first element [stop] holds of. *)
Fixpoint take_until (stop : K * V -> bool) (l : list (K * V)) : list (K * V) :=
  match l with
  | [] => []
  | e :: l => if stop e then [] else e :: take_until stop l
  end.

Definition range_rest (r : RangeIter) : list (K * V) :=
  if done_ r then [] else take_until (fun e => past_hi (hi_key r) (hi_incl r) e.1) (stack_rest (inner r)).

Lemma range_next_ok r : stack_valid (inner r) -> next_ok range_next (fun r => stack_valid (inner r)) range_rest r.
Proof.
  intros Hv. destruct r as [s hk hi d]. unfold next_ok, range_rest, range_next. cbn [done_ inner hi_key hi_incl].
  destruct d; [eauto|]. pose proof (iter_next_ok s Hv) as H. unfold next_ok in H.
  destruct (stack_rest s) as [|e l] eqn:E; cbn [take_until].
  - destruct H as (s' & ->). cbn. eauto.
  - destruct H as (s' & -> & Hl & Hv'). cbn [mbind option_bind].
    destruct (past_hi hk hi e.1); [eauto|]. eexists. split; [reflexivity|].
    cbn [done_ inner hi_key hi_incl]. by rewrite Hl.
Qed.

Definition range_rev_rest (r : RangeIterRev) : list (K * V) :=
  if done_rev r then [] else take_until (fun e => below r e.1) (rev_stack_rest (inner_rev r)).

Lemma range_rev_next_ok r :
  rev_stack_valid (inner_rev r) -> next_ok range_rev_next (fun r => rev_stack_valid (inner_rev r)) range_rev_rest r.
Proof.
  intros Hv. destruct r as [s b d]. unfold next_ok, range_rev_rest, range_rev_next. cbn [done_rev inner_rev below].
  destruct d; [eauto|]. pose proof (iter_rev_next_ok s Hv) as H. unfold next_ok in H.
  destruct (rev_stack_rest s) as [|e l] eqn:E; cbn [take_until].
  - destruct H as (s' & ->). cbn. eauto.
  - destruct H as (s' & -> & Hl & Hv'). cbn [mbind option_bind].
    destruct (b e.1); [eauto|]. eexists. split; [reflexivity|].
    cbn [done_rev inner_rev below]. by rewrite Hl.
Qed.

(** On a sorted list, stopping at a predicate that goes up filters. *)
Lemma take_until_sorted p l :
  down_closed p -> sorted l -> take_until (fun e => negb (p e.1)) l = filter (fun e => p e.1 = true) l.
Proof.
  intros Hp. induction l as [|e l IH]; intros Hs; [done|]. apply sorted_cons in Hs as [H1 H2].
  cbn [take_until]. destruct (p e.1) eqn:E; cbn [negb].
  - rewrite filter_cons_True, IH by done. done.
  - rewrite filter_true_holds_not; [done|]. constructor; [done|]. by apply (down_gt p l e.1).
Qed.

(** Walking a sorted list from its top and stopping below. *)
Lemma take_until_rev p l :
  down_closed p -> sorted l -> take_until (fun e => p e.1) (rev l) = rev (filter (fun e => p e.1 = false) l).
Proof.
  intros Hp Hs. destruct (partition_cut p l Hp Hs) as (l1 & l2 & -> & _ & H1 & H2).
  rewrite filter_app, filter_holds, filter_holds_not by done. cbn [app]. rewrite rev_app_distr.
  clear Hs. induction l2 as [|e l2 IH] using rev_ind; cbn [app].
  - destruct l1 as [|e l1 _] using rev_ind; [done|]. rewrite rev_app_distr. cbn.
    apply Forall_app in H1 as [_ H1]. apply Forall_cons in H1 as [-> _]. done.
  - rewrite rev_app_distr. cbn [rev app take_until]. apply Forall_app in H2 as [H2 He].
    apply Forall_cons in He as [-> _]. by rewrite IH.
Qed.

Lemma filter_sorted (P : K * V -> Prop) `{!forall e, Decision (P e)} l : sorted l -> sorted (filter P l).
Proof.
  induction l as [|e l IH]; intros Hs; [done|]. apply sorted_cons in Hs as [H1 H2].
  destruct (decide (P e)).
  - rewrite filter_cons_True by done. apply sorted_cons. split; [|by apply IH].
    apply Forall_forall. intros x Hx. apply list_elem_of_filter in Hx as [_ Hx].
    by apply (proj1 (Forall_forall _ _) H1).
  - rewrite filter_cons_False by done. by apply IH.
Qed.

(** [k] is inside the range. *)
Definition in_range (lo hi : Bound K) (k : K) : bool :=
  negb (below_lo lo k) &&
  match hi with Unbounded => true | Included h => key_le k h | Excluded h => key_lt k h end.

Definition within_hi (hi : Bound K) (k : K) : bool :=
  match hi with Unbounded => true | Included h => key_le k h | Excluded h => key_lt k h end.

Lemma within_hi_down hi : down_closed (within_hi hi).
Proof. destruct hi; [by intros a b|apply key_le_down|apply key_lt_down]. Qed.

Lemma key_lt_le a b : key_lt a b = negb (key_le b a).
Proof. unfold key_lt, key_le. rewrite (kcmp_antisym a b). by destruct (kcmp a b). Qed.

Lemma past_within hi k :
  let '(hk, incl) := match hi with Unbounded => (None, false) | Included k => (Some k, true) | Excluded k => (Some k, false) end in
  past_hi hk incl k = negb (within_hi hi k).
Proof.
  destruct hi as [|h|h]; cbn; [done|by rewrite key_lt_le|]. by rewrite key_lt_le, negb_involutive.
Qed.

Lemma take_until_ext f g l : (forall e, f e = g e) -> take_until f l = take_until g l.
Proof. intros H. induction l as [|e l IH]; cbn; [done|]. by rewrite H, IH. Qed.

End Range.

(** ** Properties *)

(** Iteration.  [iter] and [iter_rev] never panic; calling [next] until
    it answers [None] yields every entry once, in ascending and in descending
    key order. *)
Lemma iter_enumerates {K V} `{!OrdKey K} c (m : PersistentBTreeMap K V) :
  map_inv c m ->
  collect iter_next (S (length (contents m))) (iter m) = Some (contents m) /\
  collect iter_rev_next (S (length (contents m))) (iter_rev m) = Some (rev (contents m)).
Proof.
  intros Hm. pose proof (map_wf c m Hm) as Hw. split.
  - by apply iter_collect.
  - rewrite <- length_rev. apply (collect_spec iter_rev_next rev_stack_valid rev_stack_rest iter_rev_next_ok).
    + constructor; [split; [exact Hw|simpl; lia]|constructor].
    + unfold rev_stack_rest. cbn [iter_rev map concat]. rewrite app_nil_r. by apply rev_frame_start.
Qed.

(** Range scans.  [range lo hi] never panics and yields exactly the
    entries whose key lies between the bounds, each end honoured as included,
    excluded or unbounded, in ascending order. *)
Lemma range_enumerates {K V} `{!OrdKey K} c (m : PersistentBTreeMap K V) lo hi :
  map_inv c m ->
  let l := filter (fun e => in_range lo hi e.1 = true) (contents m) in
  exists r, range m lo hi = Some r /\ collect range_next (S (length l)) r = Some l.
Proof.
  intros Hm l. destruct (map_wf c m Hm) as [h Hw]. destruct Hm as (_ & Hs & _).
  destruct (range_seek_spec lo h (root m) [] Hw Hs ltac:(constructor)) as (s & E & Hv & Hr).
  unfold range. rewrite E. cbn [mbind option_bind].
  pose proof (past_within hi) as Hpast. destruct (match hi with Unbounded => _ | _ => _ end) as [hk incl].
  eexists. split; [reflexivity|].
  apply (collect_spec range_next (fun r => stack_valid (inner r)) range_rest range_next_ok); [done|].
  unfold range_rest. cbn [done_ inner hi_key hi_incl]. rewrite Hr. unfold stack_rest. cbn [map concat].
  rewrite app_nil_r. rewrite (take_until_ext _ (fun e => negb (within_hi hi e.1))) by (intros; apply Hpast).
  rewrite take_until_sorted by (apply within_hi_down || by apply filter_sorted).
  unfold l. rewrite list_filter_filter. apply list_filter_iff. intros e. unfold in_range, within_hi.
  rewrite andb_true_iff, negb_true_iff. tauto.
Qed.

(** Scans.  [iter], [iter_rev] and [range lo hi] never panic; calling
    [next] until it answers [None] yields every entry exactly once in ascending
    order, every entry in descending order, and exactly the entries whose key
    lies between the bounds, each end honoured as included, excluded or
    unbounded, in ascending order. *)
Lemma scans_enumerate {K V} `{!OrdKey K} c (m : PersistentBTreeMap K V) lo hi :
  map_inv c m ->
  collect iter_next (S (length (contents m))) (iter m) = Some (contents m) /\
  collect iter_rev_next (S (length (contents m))) (iter_rev m) = Some (rev (contents m)) /\
  let l := filter (fun e => in_range lo hi e.1 = true) (contents m) in
  exists r, range m lo hi = Some r /\ collect range_next (S (length l)) r = Some l.
Proof.
  intros Hm. destruct (iter_enumerates c m Hm). split; [done|]. split; [done|]. exact (range_enumerates c m lo hi Hm).
Qed.

(** Descending groups.  For a group cut out by [above] (true from some
    key on) and [below] (true up to some key), [range_rev_by] yields exactly
    the entries that are neither, from the largest key down. *)
Lemma range_rev_by_enumerates {K V} `{!OrdKey K} c (m : PersistentBTreeMap K V) above below :
  map_inv c m -> down_closed (fun k => negb (above k)) -> down_closed below ->
  let l := rev (filter (fun e => below e.1 = false) (filter (fun e => negb (above e.1) = true) (contents m))) in
  exists r, range_rev_by m above below = Some r /\ collect range_rev_next (S (length l)) r = Some l.
Proof.
  intros Hm Ha Hb l. destruct (map_wf c m Hm) as [h Hw]. destruct Hm as (_ & Hs & _).
  destruct (range_rev_seek_spec above h (root m) [] Ha Hw Hs ltac:(constructor)) as (s & E & Hv & Hr).
  unfold range_rev_by. rewrite E. cbn [mbind option_bind]. eexists. split; [reflexivity|].
  apply (collect_spec range_rev_next (fun r => rev_stack_valid (inner_rev r)) range_rev_rest range_rev_next_ok); [done|].
  unfold range_rev_rest. cbn [done_rev inner_rev BTreeIter.below]. rewrite Hr. unfold rev_stack_rest. cbn [map concat].
  rewrite app_nil_r. apply take_until_rev; [done|by apply filter_sorted].
Qed.
