(* ===== verification/PersistentVec.v ===== *)
(** The persistent vector (crates/spg-storage/src/persistent.rs): a 32-way
    trie with a tail buffer, refining a plain list.

    Indices are [nat]: the vector never holds 2^59 elements, below which no
    shift or sum of the code leaves 64 bits.  An [Arc<Node>] is the node it
    points to, and [Arc::make_mut] then an edit is the edited node. *)
From S2P Require Import Prelude Iterator.
Open Scope nat_scope.

Definition SHIFT : nat := 5.
Definition BRANCH : nat := 32.
Definition MASK : nat := BRANCH - 1.

Inductive Node (T : Type) : Type :=
| Internal (children : list (Node T))
| Leaf (elems : list T).
Arguments Internal {T} children.
Arguments Leaf {T} elems.

Record PersistentVec (T : Type) : Type := mk_pv { root : Node T; tail : list T; len : nat; shift : nat }.
Arguments mk_pv {T} root tail len shift.
Arguments root {T} p.
Arguments tail {T} p.
Arguments len {T} p.
Arguments shift {T} p.

Section PersistentVec.
Context {T : Type}.
Implicit Types (node t : Node T) (pv : PersistentVec T) (x : T) (i : nat).

Definition new : PersistentVec T := mk_pv (Internal []) [] 0 SHIFT.

Definition is_empty pv : bool := len pv =? 0.

(** [(i >> shift) & MASK] *)
Definition sub_index i (shift : nat) : nat := Nat.land (Nat.shiftr i shift) MASK.

(** The descent of [run_at] inside the trie: the leaf and the offset. *)
Fixpoint run_loop node (shift : nat) i : option (list T * nat) :=
  match node with
  | Leaf elems => Some (elems, Nat.land i MASK)
  | Internal children => mjoin (at_child (fun c => run_loop c (shift - SHIFT) i) children (sub_index i shift))
  end.

Definition run_at pv i : option (list T * nat) :=
  if len pv <=? i then None
  else
    let trie_size := len pv - length (tail pv) in
    if trie_size <=? i then Some (tail pv, i - trie_size)
    else run_loop (root pv) (shift pv) i.

Definition get pv i : option T :=
  match run_at pv i with Some (run, off) => run !! off | None => None end.

Definition run_containing pv i : option (nat * list T) :=
  match run_at pv i with Some (run, off) => Some (i - off, run) | None => None end.

Fixpoint new_path (internal_levels : nat) (leaf : Node T) : Node T :=
  match internal_levels with O => leaf | S n => Internal [new_path n leaf] end.

(** [node] itself comes back from a [Leaf], which a release build allows. *)
Fixpoint push_leaf_into_node node (shift trie_index : nat) (leaf : Node T) : Node T :=
  match node with
  | Leaf _ => node
  | Internal children =>
    let sub_idx := sub_index trie_index shift in
    if shift =? SHIFT then Internal (children ++ [leaf])
    else
      match at_child (fun c => push_leaf_into_node c (shift - SHIFT) trie_index leaf) children sub_idx with
      | Some child => Internal (<[sub_idx := child]> children)
      | None => Internal (children ++ [new_path (shift / SHIFT - 1) leaf])
      end
  end.

(** The trie after a full tail is incorporated, and its shift. *)
Definition incorporate (root : Node T) (shift len : nat) (leaf : Node T) : Node T * nat :=
  let old_trie_size := len - BRANCH in
  let trie_capacity := 2 ^ (shift + SHIFT) in
  if trie_capacity <? old_trie_size + BRANCH then
    (Internal [root; new_path (shift / SHIFT) leaf], shift + SHIFT)
  else (push_leaf_into_node root shift old_trie_size leaf, shift).

Definition push pv x : PersistentVec T :=
  if length (tail pv) <? BRANCH then mk_pv (root pv) (tail pv ++ [x]) (len pv + 1) (shift pv)
  else
    let '(new_root, new_shift) := incorporate (root pv) (shift pv) (len pv) (Leaf (tail pv)) in
    mk_pv new_root [x] (len pv + 1) new_shift.

(** [push_mut], assignment by assignment. *)
Definition push_mut pv x : PersistentVec T :=
  if length (tail pv) <? BRANCH then mk_pv (root pv) (tail pv ++ [x]) (len pv + 1) (shift pv)
  else
    let old_tail_vec := tail pv in
    let pv := mk_pv (root pv) [x] (len pv) (shift pv) in
    let leaf := Leaf old_tail_vec in
    let old_trie_size := len pv - BRANCH in
    let trie_capacity := 2 ^ (shift pv + SHIFT) in
    let pv :=
      if trie_capacity <? old_trie_size + BRANCH then
        let internal_levels := shift pv / SHIFT in
        let new_branch := new_path internal_levels leaf in
        mk_pv (Internal [root pv; new_branch]) (tail pv) (len pv) (shift pv + SHIFT)
      else mk_pv (push_leaf_into_node (root pv) (shift pv) old_trie_size leaf) (tail pv) (len pv) (shift pv) in
    mk_pv (root pv) (tail pv) (len pv + 1) (shift pv).

Fixpoint set_in_trie node (shift : nat) i x : option (Node T) :=
  match node with
  | Leaf elems => let! new_elems := vec_set (Nat.land i MASK) x elems in Some (Leaf new_elems)
  | Internal children =>
    let sub_idx := sub_index i shift in
    let! new_child := mjoin (at_child (fun c => set_in_trie c (shift - SHIFT) i x) children sub_idx) in
    let! new_children := vec_set sub_idx new_child children in
    Some (Internal new_children)
  end.

(** Outer [None] is a panic, inner [None] an index out of bounds. *)
Definition set pv i x : option (option (PersistentVec T)) :=
  if len pv <=? i then Some None
  else
    let trie_size := len pv - length (tail pv) in
    if trie_size <=? i then
      let! new_tail := vec_set (i - trie_size) x (tail pv) in
      Some (Some (mk_pv (root pv) new_tail (len pv) (shift pv)))
    else
      let! new_root := set_in_trie (root pv) (shift pv) i x in
      Some (Some (mk_pv new_root (tail pv) (len pv) (shift pv))).

(** The borrow [get_mut] hands out: what it reads and the node after a write. *)
Fixpoint get_mut_in_trie node (shift : nat) i : option (T * (T -> Node T)) :=
  match node with
  | Leaf elems =>
    match elems !! Nat.land i MASK with
    | Some x => Some (x, fun x => Leaf (<[Nat.land i MASK := x]> elems))
    | None => None
    end
  | Internal children =>
    let sub_idx := sub_index i shift in
    match mjoin (at_child (fun c => get_mut_in_trie c (shift - SHIFT) i) children sub_idx) with
    | Some (x, put) => Some (x, fun x => Internal (<[sub_idx := put x]> children))
    | None => None
    end
  end.

Definition get_mut pv i : option (T * (T -> PersistentVec T)) :=
  if len pv <=? i then None
  else
    let trie_size := len pv - length (tail pv) in
    if trie_size <=? i then
      match tail pv !! (i - trie_size) with
      | Some x => Some (x, fun x => mk_pv (root pv) (<[i - trie_size := x]> (tail pv)) (len pv) (shift pv))
      | None => None
      end
    else
      match get_mut_in_trie (root pv) (shift pv) i with
      | Some (x, put) => Some (x, fun x => mk_pv (put x) (tail pv) (len pv) (shift pv))
      | None => None
      end.

(** The sequential iterator: the position, the run it sits in, the offset. *)
Record Iter : Type := mk_iter { pos : nat; run : list T; off : nat }.

Definition iter : Iter := mk_iter 0 [] 0.

Definition iter_next pv (it : Iter) : option (option T * Iter) :=
  let it' :=
    if off it =? length (run it) then
      match run_at pv (pos it) with
      | None => None
      | Some (run, off) => Some (mk_iter (pos it) run off)
      end
    else Some it in
  match it' with
  | None => Some (None, it)
  | Some it =>
    match run it !! off it with
    | None => Some (None, it)
    | Some v => Some (Some v, mk_iter (pos it + 1) (run it) (off it + 1))
    end
  end.

(** [RunCursor]: the run held between reads. *)
Definition RunCursor : Type := option (nat * list T).

Definition cursor_get pv (c : RunCursor) i : option T * RunCursor :=
  match c with
  | Some (start, run) =>
    if (start <=? i) && (i - start <? length run) then (run !! (i - start), c)
    else
      match run_containing pv i with
      | Some (start, run) => (run !! (i - start), Some (start, run))
      | None => (None, c)
      end
  | None =>
    match run_containing pv i with
    | Some (start, run) => (run !! (i - start), Some (start, run))
    | None => (None, c)
    end
  end.

(** ** What a trie stands for *)

Fixpoint to_list t : list T :=
  match t with
  | Leaf elems => elems
  | Internal children => concat (map to_list children)
  end.

(** The capacity of a node [l] levels above the leaves. *)
Definition width (l : nat) : nat := BRANCH ^ S l.

(** A node whose every slot is taken. *)
Fixpoint full (l : nat) t : Prop :=
  match l, t with
  | O, Leaf elems => length elems = BRANCH
  | S l, Internal cs => length cs = BRANCH /\ Forall (full l) cs
  | _, _ => False
  end.

(** A left-packed node: full children, then one that is left-packed. *)
Fixpoint packed (l : nat) t : Prop :=
  match l, t with
  | O, Leaf elems => length elems = BRANCH
  | S l, Internal cs =>
    length cs <= BRANCH /\ exists cs1 c, cs = cs1 ++ [c] /\ Forall (full l) cs1 /\ packed l c
  | _, _ => False
  end.

Lemma width_S l : width (S l) = BRANCH * width l.
Proof. unfold width. by rewrite (Nat.pow_succ_r' BRANCH (S l)). Qed.

Lemma width_pos l : 0 < width l.
Proof. unfold width. apply Nat.neq_0_lt_0, Nat.pow_nonzero. done. Qed.

Lemma pow_shift l : 2 ^ (SHIFT * S l) = width l.
Proof. unfold width. by rewrite Nat.pow_mul_r. Qed.

Lemma land_mask i : Nat.land i MASK = i mod BRANCH.
Proof. change MASK with (Nat.ones 5). by rewrite Nat.land_ones. Qed.

Lemma sub_index_spec i l : sub_index i (SHIFT * S l) = i / width l mod BRANCH.
Proof. unfold sub_index. by rewrite land_mask, Nat.shiftr_div_pow2, pow_shift. Qed.

Lemma length_concat_full l cs :
  Forall (fun t => length (to_list t) = width l) cs -> length (concat (map to_list cs)) = length cs * width l.
Proof. induction 1 as [|c cs H _ IH]; [done|]. cbn [map concat length]. rewrite length_app, H, IH. lia. Qed.

Lemma full_length l t : full l t -> length (to_list t) = width l.
Proof.
  revert t; induction l as [|l IH]; intros [cs|es]; cbn [full packed to_list]; try done.
  intros [H1 H2]. rewrite (length_concat_full l), H1, width_S; [done|]. eapply Forall_impl; [exact H2|]. exact IH.
Qed.

Lemma full_packed l t : full l t -> packed l t.
Proof.
  revert t; induction l as [|l IH]; intros [cs|es]; cbn [full packed to_list]; try done.
  intros [H1 H2]. split; [lia|]. destruct (cut_last cs) as (cs1 & c & ->); [by intros ->|].
  apply Forall_app in H2 as [H2 H3]. apply Forall_cons in H3 as [H3 _]. exists cs1, c. auto.
Qed.

Lemma full_lengths l cs : Forall (full l) cs -> Forall (fun t => length (to_list t) = width l) cs.
Proof. intros H. eapply Forall_impl; [exact H|]. apply full_length. Qed.

(** A packed node holds a positive multiple of 32 elements, at most its
    capacity, and is full when it reaches it. *)
Lemma packed_length l t :
  packed l t -> exists n, length (to_list t) = BRANCH * n /\ 0 < n /\ BRANCH * n <= width l /\
    (BRANCH * n = width l -> full l t).
Proof.
  revert t; induction l as [|l IH]; intros [cs|es]; cbn [full packed to_list]; try done.
  - intros H. exists 1. rewrite H. unfold width. rewrite Nat.pow_1_r. split_and!; (done || lia).
  - intros (H1 & cs1 & c & -> & H2 & H3). destruct (IH c H3) as (n & Hn & Hpos & Hle & Hfull).
    rewrite length_app in *. simpl in H1. rewrite map_app, concat_app, length_app.
    rewrite (length_concat_full l) by (by apply full_lengths). cbn [map concat]. rewrite app_nil_r, Hn.
    exists (length cs1 * BRANCH ^ l + n). unfold width in *. rewrite Nat.pow_succ_r' in *.
    rewrite (Nat.pow_succ_r' BRANCH (S l)), Nat.pow_succ_r'. split; [lia|]. split; [lia|].
    unfold BRANCH in *. split; [nia|]. intros Heq.
    assert (length cs1 = 31 /\ 32 * n = 32 * 32 ^ l) as [Hc Hf] by nia.
    split; [simpl; unfold BRANCH; lia|]. apply Forall_app. split; [done|]. constructor; [by apply Hfull|done].
Qed.

Lemma packed_le l t : packed l t -> length (to_list t) <= width l.
Proof. intros (n & H & _ & Hle & _)%packed_length. lia. Qed.

(** ** Descending *)

Lemma div_mod_width i l : i mod width (S l) = width l * (i / width l mod BRANCH) + i mod width l.
Proof.
  rewrite width_S, (Nat.mul_comm BRANCH), Nat.Div0.mod_mul_r. lia.
Qed.

Lemma to_list_children cs1 t cs2 :
  to_list (Internal (cs1 ++ t :: cs2)) = concat (map to_list cs1) ++ to_list t ++ concat (map to_list cs2).
Proof. cbn [to_list]. by rewrite map_app, concat_app. Qed.

(** The child the code descends into for index [i], when the node holds the
    position [i mod width]: what is before it, and that it can be replaced by
    any child of the same size. *)
Lemma child_at l cs i :
  packed (S l) (Internal cs) -> i mod width (S l) < length (to_list (Internal cs)) ->
  exists cs1 t cs2, cs = cs1 ++ t :: cs2 /\ sub_index i (SHIFT * S (S l) - SHIFT) = length cs1 /\
    length (concat (map to_list cs1)) + i mod width l = i mod width (S l) /\
    packed l t /\ i mod width l < length (to_list t) /\
    (forall t', packed l t' -> length (to_list t') = length (to_list t) ->
       packed (S l) (Internal (cs1 ++ t' :: cs2))).
Proof.
  intros (Hlen & csa & c & -> & Hfull & Hc) Hi.
  replace (SHIFT * S (S l) - SHIFT) with (SHIFT * S l) by (unfold SHIFT; lia).
  rewrite sub_index_spec. rewrite div_mod_width in Hi |- *. set (s := i / width l mod BRANCH) in *.
  set (r := i mod width l) in *. rewrite length_app in Hlen. simpl in Hlen.
  pose proof (Nat.mod_upper_bound i (width l) ltac:(pose proof (width_pos l); lia)) as Hr. fold r in Hr.
  rewrite to_list_children, !length_app in Hi. cbn [map concat length] in Hi.
  rewrite (length_concat_full l) in Hi by (by apply full_lengths). pose proof (packed_le l c Hc).
  destruct (decide (s < length csa)) as [Hs|Hs].
  - destruct (lookup_lt_is_Some_2 csa s Hs) as [t Ht].
    destruct (cut_lookup csa s t Ht) as (cs1 & cs2 & -> & Hl1).
    apply Forall_app in Hfull as [Hf1 Hf]. apply Forall_cons in Hf as [Hf2 Hf3].
    exists cs1, t, (cs2 ++ [c]). rewrite <- app_assoc. cbn [app].
    rewrite (length_concat_full l) by (by apply full_lengths). rewrite Hl1, (full_length l t) by done.
    split_and!; try done; [lia|by apply full_packed|].
    intros t' Ht' Hlt.
    split; [rewrite length_app in Hlen |- *; cbn [length] in *; rewrite length_app; cbn [length]; lia|].
    exists (cs1 ++ t' :: cs2), c. rewrite <- app_assoc. split_and!; [done| |done].
    apply Forall_app. split; [done|]. constructor; [|done].
    destruct (packed_length l t' Ht') as (n & Hn & _ & _ & Hfl). apply Hfl. lia.
  - assert (s = length csa) as Heq by (destruct (Nat.lt_total s (length csa)) as [|[|]]; [done|done|nia]).
    exists csa, c, []. rewrite (length_concat_full l) by (by apply full_lengths).
    split_and!; try done; [nia|nia|]. intros t' Ht' Hlt. split; [rewrite length_app; simpl; lia|].
    exists csa, t'. done.
Qed.

Lemma shift_step l : SHIFT * S (S l) - SHIFT = SHIFT * S l.
Proof. unfold SHIFT. lia. Qed.

(** The loop reads the 32-element leaf that holds the position. *)
Lemma run_loop_spec l t i :
  packed l t -> i mod width l < length (to_list t) ->
  exists es pre post, run_loop t (SHIFT * S l - SHIFT) i = Some (es, i mod BRANCH) /\
    to_list t = pre ++ es ++ post /\ length pre + i mod BRANCH = i mod width l /\ length es = BRANCH.
Proof.
  revert t; induction l as [|l IH]; intros [cs|es] Ht Hi; try done.
  - exists es, [], []. cbn [run_loop to_list] in *. rewrite land_mask, app_nil_r.
    by split_and!.
  - destruct (child_at l cs i Ht Hi) as (cs1 & c & cs2 & -> & Hsub & Hpos & Hc & Hic & _).
    cbn [run_loop]. rewrite Hsub, at_child_mid by done. cbn [mjoin option_join].
    destruct (IH c Hc Hic) as (es & pre & post & E & Hl & Hpre & Hes).
    rewrite shift_step, E. exists es, (concat (map to_list cs1) ++ pre), (post ++ concat (map to_list cs2)).
    rewrite to_list_children, Hl, length_app, <- !app_assoc. split_and!; try done. lia.
Qed.

Lemma insert_at_app (l1 l2 : list T) n x : n < length l2 -> <[length l1 + n := x]> (l1 ++ l2) = l1 ++ <[n := x]> l2.
Proof. intros H. by rewrite insert_app_r. Qed.

(** Writing one element of a child writes it in the node. *)
Lemma node_insert l cs1 c cs2 i x t' :
  length (concat (map to_list cs1)) + i mod width l = i mod width (S l) -> i mod width l < length (to_list c) ->
  to_list t' = <[i mod width l := x]> (to_list c) ->
  to_list (Internal (cs1 ++ t' :: cs2)) = <[i mod width (S l) := x]> (to_list (Internal (cs1 ++ c :: cs2))).
Proof.
  intros Hpos Hi Ht'. rewrite !to_list_children, <- Hpos, insert_at_app by (rewrite length_app; lia).
  by rewrite insert_app_l, Ht'.
Qed.

Lemma set_in_trie_spec l t i x :
  packed l t -> i mod width l < length (to_list t) ->
  exists t', set_in_trie t (SHIFT * S l - SHIFT) i x = Some t' /\
    to_list t' = <[i mod width l := x]> (to_list t) /\ packed l t'.
Proof.
  revert t; induction l as [|l IH]; intros [cs|es] Ht Hi; try done; cbn [set_in_trie].
  - cbn [to_list packed] in *. rewrite land_mask. unfold width in *. rewrite Nat.pow_1_r in *.
    rewrite vec_set_insert by done. eexists. split; [reflexivity|]. split; [done|]. cbn. by rewrite length_insert.
  - destruct (child_at l cs i Ht Hi) as (cs1 & c & cs2 & -> & Hsub & Hpos & Hc & Hic & Hrepl).
    rewrite Hsub, at_child_mid by done. cbn [mjoin option_join].
    destruct (IH c Hc Hic) as (c' & E & Hl & Hp). rewrite shift_step, E. cbn [mbind option_bind].
    run (vec_set_app cs1). eexists. split; [reflexivity|].
    split; [by apply (node_insert l)|]. apply Hrepl; [done|]. by rewrite Hl, length_insert.
Qed.

Lemma get_mut_in_trie_spec l t i :
  packed l t -> i mod width l < length (to_list t) ->
  exists x put, get_mut_in_trie t (SHIFT * S l - SHIFT) i = Some (x, put) /\
    to_list t !! (i mod width l) = Some x /\
    forall x', to_list (put x') = <[i mod width l := x']> (to_list t) /\ packed l (put x').
Proof.
  revert t; induction l as [|l IH]; intros [cs|es] Ht Hi; try done; cbn [get_mut_in_trie].
  - cbn [to_list packed] in *. rewrite land_mask. unfold width in *. rewrite Nat.pow_1_r in *.
    destruct (lookup_lt_is_Some_2 es _ Hi) as [x Hx]. rewrite Hx. do 2 eexists. split; [reflexivity|].
    split; [done|]. intros x'. cbn. by rewrite length_insert.
  - destruct (child_at l cs i Ht Hi) as (cs1 & c & cs2 & -> & Hsub & Hpos & Hc & Hic & Hrepl).
    rewrite Hsub, at_child_mid by done. cbn [mjoin option_join].
    destruct (IH c Hc Hic) as (x & put & E & Hx & Hput). rewrite shift_step, E.
    do 2 eexists. split; [reflexivity|]. split.
    + rewrite to_list_children, <- Hpos. rewrite lookup_app_r by lia.
      rewrite Nat.add_comm, Nat.add_sub. by apply lookup_app_l_Some.
    + intros x'. destruct (Hput x') as [Hl Hp].
      assert (<[length cs1 := put x']> (cs1 ++ c :: cs2) = cs1 ++ put x' :: cs2) as ->
        by (rewrite insert_app_r_alt by done; by rewrite Nat.sub_diag).
      split; [by apply (node_insert l)|]. apply Hrepl; [done|]. by rewrite Hl, length_insert.
Qed.

(** ** Pushing a leaf *)

Lemma new_path_spec l es :
  length es = BRANCH -> packed l (new_path l (Leaf es)) /\ to_list (new_path l (Leaf es)) = es.
Proof.
  intros Hes. induction l as [|l [IH1 IH2]]; [done|]. cbn [new_path]. split.
  - split; [simpl; unfold BRANCH; lia|]. exists [], (new_path l (Leaf es)). done.
  - cbn [to_list map concat]. by rewrite IH2, app_nil_r.
Qed.

Lemma shift_levels l : SHIFT * S l / SHIFT = S l.
Proof. unfold SHIFT. rewrite Nat.mul_comm. by apply Nat.div_mul. Qed.

Lemma push_leaf_spec l t i es :
  packed (S l) t -> length es = BRANCH -> length (to_list t) < width (S l) ->
  i mod width (S l) = length (to_list t) ->
  let t' := push_leaf_into_node t (SHIFT * S l) i (Leaf es) in
  to_list t' = to_list t ++ es /\ packed (S l) t'.
Proof.
  intros Ht Hes. revert t Ht; induction l as [|l IH]; intros [cs|] Ht Hlt Hi; try done; cbn [push_leaf_into_node].
  - unfold SHIFT at 1 2 5. rewrite Nat.mul_1_r, Nat.eqb_refl.
    destruct Ht as (Hlen & cs1 & c & -> & Hfull & Hc). rewrite to_list_children, !length_app in Hlt.
    pose proof (packed_length 0 c Hc) as (n & Hn & Hpos & _ & _).
    rewrite (length_concat_full 0) in Hlt by (by apply full_lengths). cbn [map concat] in Hlt. rewrite Hn in Hlt.
    change (width 1) with (32 * 32) in Hlt. change (width 0) with 32 in Hlt. unfold BRANCH in Hlt.
    rewrite length_app in Hlen. cbn [length] in Hlen, Hlt.
    split; [rewrite <- app_assoc; cbn [app]; rewrite !to_list_children; cbn [map concat]; by rewrite !app_nil_r, <- app_assoc|].
    split; [rewrite !length_app; simpl; unfold BRANCH; lia|].
    exists (cs1 ++ [c]), (Leaf es). split_and!; [done| |done]. apply Forall_app. split; [done|].
    constructor; [|done]. destruct c; [done|]. exact Hc.
  - assert (SHIFT * S (S l) =? SHIFT = false) as -> by (apply Nat.eqb_neq; unfold SHIFT; lia).
    rewrite sub_index_spec. destruct Ht as (Hlen & cs1 & c & -> & Hfull & Hc).
    rewrite to_list_children, !length_app in Hlt, Hi. cbn [map concat length] in Hlt, Hi.
    rewrite (length_concat_full (S l)) in Hlt, Hi by (by apply full_lengths).
    rewrite div_mod_width in Hi. set (s := i / width (S l) mod BRANCH) in *. rewrite length_app in Hlen. simpl in Hlen.
    pose proof (Nat.mod_upper_bound i (width (S l)) ltac:(pose proof (width_pos (S l)); lia)) as Hr.
    pose proof (packed_length _ c Hc) as (n & Hn & Hpos & Hle & Hfl).
    destruct (decide (length (to_list c) = width (S l))) as [Hw|Hw].
    + (* the last child is full: a fresh branch *)
      destruct (Nat.div_mod_unique (width (S l)) s (S (length cs1)) (i mod width (S l)) 0) as [Hs _];
        [done|lia|lia|]. rewrite Hs.
      rewrite at_child_lookup, lookup_ge_None_2 by (rewrite length_app; simpl; lia). cbn [fmap option_fmap option_map].
      rewrite shift_levels. replace (S (S l) - 1) with (S l) by lia.
      destruct (new_path_spec (S l) es Hes) as [Hnp Hnl]. split.
      * rewrite <- app_assoc. cbn [app]. rewrite !to_list_children. cbn [map concat].
        by rewrite Hnl, !app_nil_r, <- app_assoc.
      * assert (S (length cs1) < BRANCH) by (apply (Nat.mul_lt_mono_pos_r (width (S l)));
          [apply width_pos|rewrite <- width_S; lia]).
        split; [rewrite !length_app; cbn [length]; lia|].
        exists (cs1 ++ [c]), (new_path (S l) (Leaf es)). split_and!; [done| |done].
        apply Forall_app. split; [done|]. constructor; [|done]. apply Hfl. lia.
    + (* descend into the last child *)
      destruct (Nat.div_mod_unique (width (S l)) s (length cs1) (i mod width (S l)) (length (to_list c)))
        as [Hs Hir]; [done|lia|lia|]. rewrite Hs.
      rewrite at_child_mid by done. rewrite shift_step.
      destruct (IH c Hc) as [Hl Hp]; [lia|done|].
      rewrite insert_app_r_alt, Nat.sub_diag by done. cbn [list_insert insert]. split.
      * rewrite !to_list_children. cbn [map concat]. by rewrite Hl, !app_nil_r, <- app_assoc.
      * split; [rewrite length_app; simpl; lia|]. eexists cs1, _. done.
Qed.

(** ** Whole vectors *)

(** The list a vector stands for. *)
Definition contents pv : list T := to_list (root pv) ++ tail pv.

Definition pv_inv pv : Prop :=
  len pv = length (contents pv) /\ length (tail pv) <= BRANCH /\
  exists l, shift pv = SHIFT * S l /\ (packed (S l) (root pv) \/ root pv = Internal [] /\ l = 0).

Lemma trie_size pv : pv_inv pv -> len pv - length (tail pv) = length (to_list (root pv)).
Proof. intros (-> & _). unfold contents. rewrite length_app. lia. Qed.

(** Below the tail, the trie is packed and its positions are the indices. *)
Lemma trie_packed pv i :
  pv_inv pv -> i < length (to_list (root pv)) ->
  exists l, shift pv = SHIFT * S (S l) - SHIFT /\ packed (S l) (root pv) /\ i mod width (S l) = i.
Proof.
  intros (_ & _ & l & Hsh & [Hp|[Hr _]]) Hi; [|rewrite Hr in Hi; simpl in Hi; lia].
  exists l. rewrite shift_step. split_and!; try done. apply Nat.mod_small. pose proof (packed_le _ _ Hp). lia.
Qed.

(** [run] is a part of the vector and [off] the place of [i] in it. *)
Definition run_of pv (run : list T) (off i : nat) : Prop :=
  exists pre post, contents pv = pre ++ run ++ post /\ length pre + off = i /\ off <= length run.

Lemma run_at_spec pv i :
  pv_inv pv ->
  if i <? len pv then exists run off, run_at pv i = Some (run, off) /\ run_of pv run off i /\ off < length run
  else run_at pv i = None.
Proof.
  intros Hinv. unfold run_at. pose proof (trie_size pv Hinv) as Hts. pose proof Hinv as (Hlen & _).
  unfold contents in Hlen. rewrite length_app in Hlen.
  destruct (i <? len pv) eqn:Ei; prop_bools.
  - destruct (len pv <=? i) eqn:E; prop_bools; [lia|]. rewrite Hts.
    destruct (length (to_list (root pv)) <=? i) eqn:E2; prop_bools.
    + do 2 eexists. split; [reflexivity|]. split; [|lia]. exists (to_list (root pv)), []. unfold contents.
      rewrite app_nil_r. split_and!; [done|lia..].
    + destruct (trie_packed pv i Hinv E2) as (l & -> & Hp & Hm).
      destruct (run_loop_spec (S l) (root pv) i Hp ltac:(lia)) as (es & pre & post & -> & Hl & Hpre & Hes).
      do 2 eexists. split; [reflexivity|]. pose proof (Nat.mod_upper_bound i BRANCH ltac:(done)).
      split; [|lia]. exists pre, (post ++ tail pv). unfold contents. rewrite Hl, <- !app_assoc. split_and!; [done|lia..].
  - destruct (len pv <=? i) eqn:E; prop_bools; [done|lia].
Qed.

Lemma run_of_lookup pv run off i : run_of pv run off i -> off < length run -> run !! off = contents pv !! i.
Proof.
  intros (pre & post & -> & <- & _) Hoff. rewrite lookup_app_r by lia.
  rewrite Nat.add_comm, Nat.add_sub. by rewrite lookup_app_l.
Qed.

Lemma get_spec pv i : pv_inv pv -> get pv i = contents pv !! i.
Proof.
  intros Hinv. unfold get. pose proof (run_at_spec pv i Hinv) as H. destruct (i <? len pv) eqn:E; prop_bools.
  - destruct H as (run & off & -> & Hrun & Hoff). by apply run_of_lookup.
  - rewrite H. symmetry. apply lookup_ge_None_2. destruct Hinv as (<- & _). done.
Qed.

Lemma pv_new_inv : pv_inv new.
Proof. split; [done|]. split; [simpl; unfold BRANCH; lia|]. exists 0. split; [done|]. by right. Qed.

(** Incorporating a full tail appends it to the trie. *)
Lemma incorporate_spec pv :
  pv_inv pv -> length (tail pv) = BRANCH ->
  let '(r, sh) := incorporate (root pv) (shift pv) (len pv) (Leaf (tail pv)) in
  to_list r = contents pv /\ exists l, sh = SHIFT * S l /\ packed (S l) r.
Proof.
  intros Hinv Ht. unfold incorporate. pose proof (trie_size pv Hinv) as Hts. rewrite Ht in Hts. rewrite Hts.
  destruct Hinv as (_ & _ & l & Hsh & Hroot). rewrite Hsh.
  replace (SHIFT * S l + SHIFT) with (SHIFT * S (S l)) by lia. rewrite pow_shift. unfold contents.
  destruct Hroot as [Hp|[Hr ->]].
  - destruct (packed_length _ _ Hp) as (n & Hn & Hpos & Hle & Hfull). pose proof (packed_le _ _ Hp).
    destruct (width (S l) <? length (to_list (root pv)) + BRANCH) eqn:E; prop_bools.
    + rewrite shift_levels. destruct (new_path_spec (S l) (tail pv) Ht) as [H1 H2].
      assert (full (S l) (root pv)) as Hf.
      { apply Hfull. rewrite width_S in *. rewrite Hn in E.
        assert (width l < n + 1) by (unfold BRANCH in *; lia). unfold BRANCH in *. lia. }
      split; [cbn [to_list map concat]; by rewrite H2, app_nil_r|]. exists (S l).
      split; [done|]. split; [simpl; unfold BRANCH; lia|]. exists [root pv], (new_path (S l) (Leaf (tail pv))).
      split_and!; [done|by constructor|done].
    + destruct (push_leaf_spec l (root pv) (length (to_list (root pv))) (tail pv) Hp Ht) as [H1 H2];
        [unfold BRANCH in *; lia|apply Nat.mod_small; unfold BRANCH in *; lia|].
      split; [done|]. by exists l.
  - rewrite Hr. cbn [to_list map concat length Nat.add app].
    assert (width 1 <? BRANCH = false) as -> by done. cbn [push_leaf_into_node]. rewrite Nat.mul_1_r, Nat.eqb_refl.
    split; [cbn [app to_list map concat]; by rewrite app_nil_r|]. exists 0. rewrite Nat.mul_1_r. split; [done|].
    split; [simpl; unfold BRANCH; lia|]. exists [], (Leaf (tail pv)). done.
Qed.

Lemma push_spec pv x : pv_inv pv -> pv_inv (push pv x) /\ contents (push pv x) = contents pv ++ [x].
Proof.
  intros Hinv. unfold push. destruct (length (tail pv) <? BRANCH) eqn:E; prop_bools.
  - assert (contents (mk_pv (root pv) (tail pv ++ [x]) (len pv + 1) (shift pv)) = contents pv ++ [x]) as Hc
      by (unfold contents; cbn [root tail]; by rewrite app_assoc).
    split; [|done]. destruct Hinv as (Hlen & Ht & Hl). split; [rewrite Hc, length_app, <- Hlen; done|].
    cbn [tail root shift]. rewrite length_app. split; [simpl; lia|done].
  - pose proof (incorporate_spec pv Hinv) as H. destruct (incorporate _ _ _ _) as [r sh].
    destruct Hinv as (Hlen & Ht & _). destruct H as (Hr & l & Hsh & Hp); [lia|].
    assert (contents (mk_pv r [x] (len pv + 1) sh) = contents pv ++ [x]) as Hc
      by (unfold contents in *; cbn [root tail]; by rewrite Hr).
    split; [|done]. split; [rewrite Hc, length_app, <- Hlen; done|]. cbn [tail root shift].
    split; [simpl; unfold BRANCH; lia|]. exists l. auto.
Qed.

Lemma push_mut_eq pv x : push_mut pv x = push pv x.
Proof.
  unfold push_mut, push, incorporate. destruct (length (tail pv) <? BRANCH); [done|]. cbn [root tail len shift].
  by destruct (_ <? _).
Qed.

Lemma contents_insert pv i x :
  pv_inv pv ->
  <[i := x]> (contents pv) =
  if i <? length (to_list (root pv)) then <[i := x]> (to_list (root pv)) ++ tail pv
  else to_list (root pv) ++ <[i - length (to_list (root pv)) := x]> (tail pv).
Proof.
  intros _. unfold contents. destruct (_ <? _) eqn:E; prop_bools; [by apply insert_app_l|].
  by apply insert_app_r_alt.
Qed.

(** A vector with the same sizes and a rewritten tail or trie. *)
Lemma replaced_inv pv r tl :
  pv_inv pv -> length tl = length (tail pv) -> length (to_list r) = length (to_list (root pv)) ->
  (forall l, packed (S l) (root pv) -> shift pv = SHIFT * S l -> packed (S l) r) ->
  (root pv = Internal [] -> r = Internal []) -> pv_inv (mk_pv r tl (len pv) (shift pv)).
Proof.
  intros (Hlen & Ht & l & Hsh & Hroot) Htl Hr Hp Hr0. unfold pv_inv, contents in *. cbn [root tail len shift].
  rewrite length_app in *. split; [lia|]. split; [lia|]. exists l. split; [done|].
  destruct Hroot as [H|[H ->]]; [left; by apply Hp|right; auto].
Qed.

Lemma set_spec pv i x :
  pv_inv pv ->
  if i <? len pv then exists pv', set pv i x = Some (Some pv') /\ pv_inv pv' /\ contents pv' = <[i := x]> (contents pv)
  else set pv i x = Some None.
Proof.
  intros Hinv. unfold set. pose proof (trie_size pv Hinv) as Hts. pose proof Hinv as (Hlen & _).
  unfold contents in Hlen. rewrite length_app in Hlen.
  destruct (i <? len pv) eqn:Ei; prop_bools; [|by rewrite (proj2 (Nat.leb_le _ _)) by done].
  rewrite (proj2 (Nat.leb_gt _ _)) by done. rewrite Hts, contents_insert by done.
  destruct (length (to_list (root pv)) <=? i) eqn:E; prop_bools.
  - rewrite vec_set_insert by lia. cbn [mbind option_bind]. eexists. split; [reflexivity|].
    rewrite (proj2 (Nat.ltb_ge _ _)) by done. split; [|done].
    apply replaced_inv; auto. by rewrite length_insert.
  - rewrite (proj2 (Nat.ltb_lt _ _)) by done.
    destruct (trie_packed pv i Hinv E) as (l & Hsh & Hp & Hm).
    destruct (set_in_trie_spec (S l) (root pv) i x Hp ltac:(lia)) as (r & Er & Hl & Hpr).
    rewrite <- Hsh in Er. rewrite Er. cbn [mbind option_bind]. eexists. split; [reflexivity|]. rewrite Hm in Hl.
    split; [|unfold contents; cbn [root tail]; by rewrite Hl].
    apply replaced_inv; [done|done|by rewrite Hl, length_insert| |].
    + intros l' _ Hsh'. assert (l' = l) as -> by (rewrite shift_step in Hsh; unfold SHIFT in *; lia). done.
    + intros Hr0. rewrite Hr0 in E. simpl in E. lia.
Qed.

Lemma get_mut_spec pv i :
  pv_inv pv ->
  match contents pv !! i with
  | None => get_mut pv i = None
  | Some x => exists put, get_mut pv i = Some (x, put) /\
      forall x', pv_inv (put x') /\ contents (put x') = <[i := x']> (contents pv)
  end.
Proof.
  intros Hinv. unfold get_mut. pose proof (trie_size pv Hinv) as Hts. pose proof Hinv as (Hlen & _).
  destruct (len pv <=? i) eqn:Ei; prop_bools; [by rewrite lookup_ge_None_2 by lia|]. rewrite Hts.
  destruct (length (to_list (root pv)) <=? i) eqn:E; prop_bools.
  - unfold contents at 1. rewrite lookup_app_r by done. unfold contents in Hlen. rewrite length_app in Hlen.
    destruct (lookup_lt_is_Some_2 (tail pv) (i - length (to_list (root pv)))) as [x Hx]; [lia|]. rewrite Hx.
    eexists. split; [reflexivity|]. intros x'. rewrite contents_insert, (proj2 (Nat.ltb_ge _ _)) by done.
    split; [|done]. apply replaced_inv; auto. by rewrite length_insert.
  - destruct (trie_packed pv i Hinv E) as (l & Hsh & Hp & Hm).
    destruct (get_mut_in_trie_spec (S l) (root pv) i Hp ltac:(lia)) as (x & put & Er & Hx & Hput).
    rewrite Hm in Hx. unfold contents at 1. rewrite lookup_app_l, Hx by done. rewrite <- Hsh in Er. rewrite Er.
    eexists. split; [reflexivity|]. intros x'. destruct (Hput x') as [Hl Hpr]. rewrite Hm in Hl.
    rewrite contents_insert, (proj2 (Nat.ltb_lt _ _)) by done.
    split; [|unfold contents; cbn [root tail]; by rewrite Hl].
    apply replaced_inv; [done|done|by rewrite Hl, length_insert| |].
    + intros l' _ Hsh'. assert (l' = l) as -> by (rewrite shift_step in Hsh; unfold SHIFT in *; lia). done.
    + intros Hr0. rewrite Hr0 in E. simpl in E. lia.
Qed.

(** ** Iteration *)

Definition iter_valid pv (it : Iter) : Prop := run_of pv (run it) (off it) (pos it).
Definition iter_rest pv (it : Iter) : list T := drop (pos it) (contents pv).

Lemma run_of_step pv run off i x :
  run_of pv run off i -> run !! off = Some x ->
  drop i (contents pv) = x :: drop (i + 1) (contents pv) /\ run_of pv run (off + 1) (i + 1).
Proof.
  intros Hrun Hx. pose proof (lookup_lt_Some _ _ _ Hx). rewrite (run_of_lookup pv run off i) in Hx by done.
  split; [by rewrite (drop_S _ _ _ Hx), Nat.add_1_r|].
  destruct Hrun as (pre & post & Hc & Hi & _). exists pre, post. split_and!; [done|lia..].
Qed.

Lemma pv_iter_next_ok pv it : pv_inv pv -> iter_valid pv it -> next_ok (iter_next pv) (iter_valid pv) (iter_rest pv) it.
Proof.
  intros Hinv Hv. unfold next_ok, iter_next, iter_rest.
  assert (Hstep : forall r o, run_of pv r o (pos it) -> o < length r ->
    match drop (pos it) (contents pv) with
    | [] => exists s', match r !! o with None => Some (None, mk_iter (pos it) r o)
        | Some v => Some (Some v, mk_iter (pos it + 1) r (o + 1)) end = Some (None, s')
    | e :: l => exists s', match r !! o with None => Some (None, mk_iter (pos it) r o)
        | Some v => Some (Some v, mk_iter (pos it + 1) r (o + 1)) end = Some (Some e, s') /\
        drop (pos s') (contents pv) = l /\ iter_valid pv s'
    end).
  { intros r o Hr Ho. destruct (lookup_lt_is_Some_2 r o Ho) as [x Hx].
    destruct (run_of_step pv r o (pos it) x Hr Hx) as [-> Hr']. rewrite Hx. eauto. }
  destruct (off it =? length (run it)) eqn:E; prop_bools.
  - pose proof (run_at_spec pv (pos it) Hinv) as H. destruct (pos it <? len pv) eqn:Ep; prop_bools.
    + destruct H as (r & o & -> & Hr & Ho). by apply Hstep.
    + rewrite H. rewrite drop_ge by (destruct Hinv as (<- & _); done). eauto.
  - destruct it as [p r o]. apply Hstep; [done|]. cbn [run off pos] in *.
    destruct Hv as (? & ? & _ & _ & Ho). cbn [run off] in Ho. lia.
Qed.

Lemma pv_iter_collect pv : pv_inv pv -> collect (iter_next pv) (S (length (contents pv))) iter = Some (contents pv).
Proof.
  intros Hinv. apply (collect_spec (iter_next pv) (iter_valid pv) (iter_rest pv)); [by intros; apply pv_iter_next_ok| |done].
  exists [], (contents pv). done.
Qed.

(** ** Run cursors *)

Definition cursor_valid pv (c : RunCursor) : Prop :=
  match c with None => True | Some (start, run) => run_of pv run 0 start end.

Lemma run_containing_spec pv i :
  pv_inv pv ->
  match run_containing pv i with
  | Some (start, run) => run_of pv run 0 start /\ run !! (i - start) = contents pv !! i
  | None => contents pv !! i = None
  end.
Proof.
  intros Hinv. unfold run_containing. pose proof (run_at_spec pv i Hinv) as H.
  destruct (i <? len pv) eqn:E; prop_bools.
  - destruct H as (r & o & -> & Hr & Ho). pose proof (run_of_lookup pv r o i Hr Ho) as Hl.
    destruct Hr as (pre & post & Hc & Hi & _). split; [exists pre, post; split_and!; [done|lia..]|].
    rewrite <- Hl. f_equal. lia.
  - rewrite H. apply lookup_ge_None_2. destruct Hinv as (<- & _). done.
Qed.

Lemma cursor_get_spec pv c i :
  pv_inv pv -> cursor_valid pv c ->
  exists c', cursor_get pv c i = (contents pv !! i, c') /\ cursor_valid pv c'.
Proof.
  intros Hinv Hc. pose proof (run_containing_spec pv i Hinv) as Hr. unfold cursor_get.
  assert (Hmiss : exists c', match run_containing pv i with
     | Some (start, run) => (run !! (i - start), Some (start, run)) | None => (None, c) end
     = (contents pv !! i, c') /\ cursor_valid pv c').
  { destruct (run_containing pv i) as [[start r]|].
    - destruct Hr as [H1 H2]. eexists. split; [by rewrite H2|done].
    - exists c. by rewrite Hr. }
  destruct c as [[start r]|]; [|exact Hmiss].
  destruct ((start <=? i) && (i - start <? length r)) eqn:E; [|exact Hmiss]. prop_bools.
  eexists. split; [|exact Hc]. f_equal. destruct Hc as (pre & post & Hl & Hs & _).
  apply (run_of_lookup pv r (i - start) i); [|done]. exists pre, post. split_and!; [done|lia..].
Qed.

(** ** Operation sequences *)

Inductive vec_op : Type :=
| VPush (x : T)
| VPushMut (x : T)
| VSet (i : nat) (x : T)
| VWrite (i : nat) (x : T)  (** [if let Some(r) = v.get_mut(i) { *r = x }] *)
| VGet (i : nat)
| VLen
| VCollect.

Inductive vec_out : Type :=
| OutUnit
| OutOption (o : option T)
| OutBool (b : bool)
| OutNat (n : nat)
| OutList (l : list T).

Definition step_vec pv (o : vec_op) : option (PersistentVec T * vec_out) :=
  match o with
  | VPush x => Some (push pv x, OutUnit)
  | VPushMut x => Some (push_mut pv x, OutUnit)
  | VSet i x =>
    let! r := set pv i x in
    match r with Some pv' => Some (pv', OutBool true) | None => Some (pv, OutBool false) end
  | VWrite i x =>
    match get_mut pv i with Some (old, put) => Some (put x, OutOption (Some old)) | None => Some (pv, OutOption None) end
  | VGet i => Some (pv, OutOption (get pv i))
  | VLen => Some (pv, OutNat (len pv))
  | VCollect => let! l := collect (iter_next pv) (S (len pv)) iter in Some (pv, OutList l)
  end.

Definition step_list (l : list T) (o : vec_op) : list T * vec_out :=
  match o with
  | VPush x | VPushMut x => (l ++ [x], OutUnit)
  | VSet i x => (<[i := x]> l, OutBool (i <? length l))
  | VWrite i x => (<[i := x]> l, OutOption (l !! i))
  | VGet i => (l, OutOption (l !! i))
  | VLen => (l, OutNat (length l))
  | VCollect => (l, OutList l)
  end.

Fixpoint run_vec pv (os : list vec_op) : option (PersistentVec T * list vec_out) :=
  match os with
  | [] => Some (pv, [])
  | o :: os =>
    let! (pv, out) := step_vec pv o in
    let! (pv, outs) := run_vec pv os in
    Some (pv, out :: outs)
  end.

Fixpoint run_list (l : list T) (os : list vec_op) : list T * list vec_out :=
  match os with
  | [] => (l, [])
  | o :: os => let '(l, out) := step_list l o in let '(l, outs) := run_list l os in (l, out :: outs)
  end.

Lemma step_vec_spec pv o :
  pv_inv pv ->
  exists pv', step_vec pv o = Some (pv', (step_list (contents pv) o).2) /\
    contents pv' = (step_list (contents pv) o).1 /\ pv_inv pv'.
Proof.
  intros Hinv. pose proof Hinv as (Hlen & _). destruct o as [x|x|i x|i x|i| |]; cbn [step_vec step_list fst snd].
  - destruct (push_spec pv x Hinv). eauto.
  - rewrite push_mut_eq. destruct (push_spec pv x Hinv). eauto.
  - pose proof (set_spec pv i x Hinv) as H. rewrite Hlen in H. destruct (i <? length (contents pv)) eqn:E; prop_bools.
    + destruct H as (pv' & -> & ? & ?). cbn. eauto.
    + rewrite H. cbn [mbind option_bind]. rewrite list_insert_ge by done. eauto.
  - pose proof (get_mut_spec pv i Hinv) as H. destruct (contents pv !! i) eqn:E.
    + destruct H as (put & -> & Hput). destruct (Hput x). eauto.
    + rewrite H. rewrite list_insert_ge by (by apply lookup_ge_None_1). eauto.
  - rewrite get_spec by done. eauto.
  - rewrite Hlen. eauto.
  - rewrite Hlen, pv_iter_collect by done. cbn. eauto.
Qed.

Lemma run_vec_spec pv os :
  pv_inv pv ->
  exists pv', run_vec pv os = Some (pv', (run_list (contents pv) os).2) /\
    contents pv' = (run_list (contents pv) os).1 /\ pv_inv pv'.
Proof.
  revert pv; induction os as [|o os IH]; intros pv Hinv; cbn [run_vec run_list]; [eauto|].
  destruct (step_vec_spec pv o Hinv) as (pv1 & -> & H1 & Hi1). cbn [mbind option_bind].
  destruct (IH pv1 Hi1) as (pv2 & -> & H2 & Hi2). cbn [mbind option_bind].
  destruct (step_list (contents pv) o) as [l out]. cbn [fst snd] in *. subst l.
  destruct (run_list (contents pv1) os) as [l outs]. eauto.
Qed.
End PersistentVec.

(** ** Properties *)

(** C2: refinement.  Any sequence of pushes (path-copying or in place), sets,
    writes through [get_mut], reads, [len] and full iterations, run from the
    empty vector, never panics and answers exactly what a plain list answers;
    the final trie stands for the final list and is left-packed. *)
Theorem vec_refines_list {T} (os : list (vec_op (T:=T))) :
  exists pv, run_vec new os = Some (pv, (run_list [] os).2) /\ contents pv = (run_list [] os).1 /\ pv_inv pv.
Proof. apply (run_vec_spec new os), pv_new_inv. Qed.

(** Run cursors are transparent.  However a [RunCursor] was used before,
    reading index [i] through it is [get(i)], and the run it keeps is still a
    part of the vector. *)
Lemma run_cursor_transparent {T} (pv : PersistentVec T) (before : list nat) i :
  pv_inv pv ->
  let c := fold_left (fun c j => (cursor_get pv c j).2) before None in
  (cursor_get pv c i).1 = get pv i /\ cursor_valid pv (cursor_get pv c i).2.
Proof.
  intros Hinv. assert (H : forall c, cursor_valid pv c ->
    cursor_valid pv (fold_left (fun c j => (cursor_get pv c j).2) before c)).
  { induction before as [|j before IH]; intros c Hc; [done|]. cbn. apply IH.
    by destruct (cursor_get_spec pv c j Hinv Hc) as (c' & -> & ?). }
  specialize (H None I). cbn zeta. rewrite get_spec by done.
  by destruct (cursor_get_spec pv _ i Hinv H) as (c' & -> & ?).
Qed.
