(* ===== verification/Lzss.v ===== *)
(** LZSS compression (crates/spg-crypto/src/lzss.rs): the encoder, the
    decoder, the round trip, totality of the decoder on arbitrary bytes and
    the optimality of the match search.

    Loops carry fuel; [find_longest_match_spec], [compress_total] and
    [decompress_total] show the fuel given is always enough.  [None] is a
    panic (an index out of range or a failed [expect]). *)
From S2P Require Import Prelude Bytes.
Open Scope nat_scope.

Definition WINDOW_BITS : nat := 12.
Definition WINDOW_SIZE : nat := 4096.
Definition LENGTH_BITS : Z := 4.
Definition MIN_MATCH : nat := 3.
Definition MAX_MATCH : nat := MIN_MATCH + 16 - 1.

Inductive LzssError : Type :=
| Truncated
| InvalidReference (at_ : nat)
| OutputOverrun.

(** ** The encoder *)

(** The inner [while]: how many bytes at [probe] and [pos] agree, up to
    [max_lookahead]; [fuel] is [max_lookahead - len].  Both indices stay below
    [pos + max_lookahead <= input.len()], so the last branch is never taken. *)
Fixpoint match_len (fuel : nat) (input : list Z) (probe pos len : nat) : nat :=
  match fuel with
  | O => len
  | S fuel =>
    match input !! (probe + len), input !! (pos + len) with
    | Some x, Some y =>
      if (x =? y)%Z then match_len fuel input probe pos (S len) else len
    | _, _ => len
    end
  end.

(** The outer [while probe < pos]; [fuel] is [pos - probe]. *)
Fixpoint probe_loop (fuel : nat) (input : list Z) (pos max_lookahead probe best_off best_len : nat)
  : nat * nat :=
  match fuel with
  | O => (best_off, best_len)
  | S fuel =>
    let len := match_len max_lookahead input probe pos 0 in
    if best_len <? len then
      if len =? max_lookahead then (pos - probe, len)
      else probe_loop fuel input pos max_lookahead (S probe) (pos - probe) len
    else probe_loop fuel input pos max_lookahead (S probe) best_off best_len
  end.

Definition find_longest_match (input : list Z) (pos : nat) : nat * nat :=
  if (pos =? 0) || (length input - pos <? MIN_MATCH) then (0, 0)
  else
    let max_lookahead := Nat.min MAX_MATCH (length input - pos) in
    let window_start := pos - (WINDOW_SIZE - 1) in
    probe_loop (pos - window_start) input pos max_lookahead window_start 0 0.

(** [u16::try_from(off).expect(..) << 4 | u16::try_from(len - 3).expect(..)] *)
Definition pack (match_off mlen : nat) : option Z :=
  if (Z.of_nat match_off <? 2 ^ 16)%Z && (Z.of_nat (mlen - MIN_MATCH) <? 2 ^ 16)%Z then
    Some (Z.lor (shl_w 16 (Z.of_nat match_off) LENGTH_BITS) (Z.of_nat (mlen - MIN_MATCH)))
  else None.

(** The [while i < input.len()] loop with its per-frame state and the final
    flush; every turn advances [i], so [fuel = input.len() - i] is enough. *)
Fixpoint compress_loop (fuel : nat) (input : list Z) (i : nat)
    (flag_byte : Z) (frame : list Z) (tokens_in_frame : nat) (out : list Z) : option (list Z) :=
  if i <? length input then
    match fuel with
    | O => None
    | S fuel =>
      let '(match_off, mlen) := find_longest_match input i in
      let! (flag_byte, frame, i) :=
        (if MIN_MATCH <=? mlen then
           let! packed := pack match_off mlen in
           Some (flag_byte, frame ++ le_bytes 2 packed, i + mlen)
         else
           let! b := input !! i in
           Some (Z.lor flag_byte (shl_w 8 1 (Z.of_nat tokens_in_frame)), frame ++ [b], i + 1)) in
      let tokens_in_frame := S tokens_in_frame in
      if tokens_in_frame =? 8 then compress_loop fuel input i 0 [] 0 (out ++ flag_byte :: frame)
      else compress_loop fuel input i flag_byte frame tokens_in_frame out
    end
  else Some (if 0 <? tokens_in_frame then out ++ flag_byte :: frame else out).

(** [u32::try_from(input.len()).unwrap_or(u32::MAX)] *)
Definition header_len (n : nat) : Z :=
  if (Z.of_nat n <? 2 ^ 32)%Z then Z.of_nat n else (2 ^ 32 - 1)%Z.

Definition compress (input : list Z) : option (list Z) :=
  let out := le_bytes 4 (header_len (length input)) in
  match input with
  | [] => Some out
  | _ => compress_loop (length input) input 0 0 [] 0 out
  end.

(** ** The decoder *)

Definition lzss_outcome : Type := outcome (list Z) LzssError.

(** The [for j in 0..length] copy; [n] bytes are left. *)
Fixpoint copy_loop (n : nat) (orig_len start j : nat) (out : list Z) : lzss_outcome :=
  match n with
  | O => Some (Ok out)
  | S n =>
    if orig_len <=? length out then Some (Err OutputOverrun)
    else
      let! byte := out !! (start + j) in
      copy_loop n orig_len start (S j) (out ++ [byte])
  end.

(** One token of the [for bit in 0..8] body. *)
Definition decode_token (input : list Z) (orig_len : nat) (flag : Z) (bit p : nat) (out : list Z)
  : option (result (nat * list Z) LzssError) :=
  if Z.testbit flag (Z.of_nat bit) then
    if length input <=? p then Some (Err Truncated)
    else let! b := input !! p in Some (Ok (p + 1, out ++ [b]))
  else if length input <? p + 2 then Some (Err Truncated)
  else
    let! b0 := input !! p in
    let! b1 := input !! (p + 1) in
    let packed := le_val [b0; b1] in
    let p := p + 2 in
    let offset := Z.to_nat (Z.shiftr packed LENGTH_BITS) in
    let len := Z.to_nat (Z.land packed (2 ^ LENGTH_BITS - 1)) + MIN_MATCH in
    if (offset =? 0) || (length out <? offset) then Some (Err (InvalidReference (p - 2)))
    else
      let start := length out - offset in
      let! r := copy_loop len orig_len start 0 out in
      Some (let? out := r in Ok (p, out)).

(** The [for bit in 0..8] loop with its [break]; [k] bits are left. *)
Fixpoint bit_loop (k : nat) (input : list Z) (orig_len : nat) (flag : Z) (bit p : nat) (out : list Z)
  : option (result (nat * list Z) LzssError) :=
  match k with
  | O => Some (Ok (p, out))
  | S k =>
    if orig_len <=? length out then Some (Ok (p, out))
    else
      let! r := decode_token input orig_len flag bit p out in
      match r with
      | Ok (p, out) => bit_loop k input orig_len flag (S bit) p out
      | Err e => Some (Err e)
      end
  end.

(** The [while out.len() < orig_len] loop: each turn reads a flag byte, so
    [S (input.len())] turns suffice. *)
Fixpoint frame_loop (fuel : nat) (input : list Z) (orig_len p : nat) (out : list Z) : lzss_outcome :=
  if orig_len <=? length out then Some (Ok out)
  else
    match fuel with
    | O => None
    | S fuel =>
      match input !! p with
      | None => Some (Err Truncated)
      | Some flag =>
        let! r := bit_loop 8 input orig_len flag 0 (p + 1) out in
        match r with
        | Ok (p, out) => frame_loop fuel input orig_len p out
        | Err e => Some (Err e)
        end
      end
    end.

Definition decompress (input : list Z) : lzss_outcome :=
  if length input <? 4 then Some (Err Truncated)
  else
    let orig_len := Z.to_nat (le_val (take 4 input)) in
    let! r := frame_loop (S (length input)) input orig_len 4 [] in
    Some (let? out := r in Ok (take orig_len out)).

(** ** The match search *)

(** The [n] bytes at [a] and at [b] are in range and equal. *)
Definition agree (input : list Z) (a b n : nat) : Prop :=
  forall j, j < n -> exists x, input !! (a + j) = Some x /\ input !! (b + j) = Some x.

Lemma match_len_spec fuel input probe pos len :
  agree input probe pos len ->
  let r := match_len fuel input probe pos len in
  len <= r <= len + fuel /\ agree input probe pos r /\
  (forall n, n <= len + fuel -> agree input probe pos n -> n <= r).
Proof.
  revert len; induction fuel as [|fuel IH]; intros len Ha; simpl.
  { repeat split; [lia|lia|done|]. intros; lia. }
  assert (Hstop : (forall x, ~ (input !! (probe + len) = Some x /\ input !! (pos + len) = Some x)) ->
    len <= len <= len + S fuel /\ agree input probe pos len /\
    (forall n, n <= len + S fuel -> agree input probe pos n -> n <= len)).
  { intros Hno. repeat split; [lia|lia|done|]. intros n _ Hn.
    destruct (decide (n <= len)) as [|Hgt]; [done|].
    destruct (Hn len) as [x Hx]; [lia|]. by apply Hno in Hx. }
  destruct (input !! (probe + len)) as [x|] eqn:Ex; [|apply Hstop; naive_solver].
  destruct (input !! (pos + len)) as [y|] eqn:Ey; [|apply Hstop; naive_solver].
  destruct (x =? y)%Z eqn:Exy; prop_bools; [|apply Hstop; naive_solver]. subst y.
  destruct (IH (S len)) as (Hr & Hag & Hmax).
  { intros j Hj. destruct (decide (j = len)) as [->|]; [eauto|]. apply Ha. lia. }
  repeat split; [lia|lia|done|]. intros n Hn. apply Hmax. lia.
Qed.

(** What a candidate [(off, len)] at [pos] must satisfy to be encodable. *)
Definition good_match (input : list Z) (pos off len : nat) : Prop :=
  1 <= off <= pos /\ off <= WINDOW_SIZE - 1 /\ len <= MAX_MATCH /\
  pos + len <= length input /\ agree input (pos - off) pos len.

Lemma agree_0 input a b : agree input a b 0.
Proof. intros j Hj. lia. Qed.

Lemma probe_loop_spec fuel input pos ml probe bo bl :
  fuel + probe = pos -> pos - (WINDOW_SIZE - 1) <= probe ->
  ml <= MAX_MATCH -> pos + ml <= length input -> bl < ml ->
  (bl = 0 \/ good_match input pos bo bl) ->
  (forall q n, pos - (WINDOW_SIZE - 1) <= q < probe -> n <= ml -> agree input q pos n -> n <= bl) ->
  let '(off, len) := probe_loop fuel input pos ml probe bo bl in
  len <= ml /\ (len = 0 \/ good_match input pos off len) /\
  (forall q n, pos - (WINDOW_SIZE - 1) <= q < pos -> n <= ml -> agree input q pos n -> n <= len).
Proof.
  revert probe bo bl; induction fuel as [|fuel IH]; intros probe bo bl Hf Hw Hml Hlen Hbl Hgood Hbest.
  { cbn [probe_loop]. repeat split; [lia|done|]. intros q n Hq. apply Hbest. lia. }
  cbn [probe_loop].
  pose proof (match_len_spec ml input probe pos 0 (agree_0 _ _ _)) as (Hr & Hag & Hmax).
  set (len := match_len ml input probe pos 0) in *.
  assert (Hg : good_match input pos (pos - probe) len).
  { unfold good_match. replace (pos - (pos - probe)) with probe by lia.
    repeat split; [lia|lia|lia|lia|lia|done]. }
  assert (Hnew : forall q n, pos - (WINDOW_SIZE - 1) <= q < S probe -> n <= ml ->
            agree input q pos n -> n <= Nat.max bl len).
  { intros q n Hq Hn Ha. destruct (decide (q = probe)) as [->|].
    - pose proof (Hmax n ltac:(lia) Ha). lia.
    - pose proof (Hbest q n ltac:(lia) Hn Ha). lia. }
  destruct (bl <? len) eqn:E1; prop_bools.
  - destruct (len =? ml) eqn:E2; prop_bools.
    + repeat split; [lia|by right|]. intros; lia.
    + apply IH; try lia; [by right|].
      intros q n Hq Hn Ha. pose proof (Hnew q n Hq Hn Ha). lia.
  - apply IH; try lia; [done|].
    intros q n Hq Hn Ha. pose proof (Hnew q n Hq Hn Ha). lia.
Qed.

(** [Truncated]-free facts about the search, for every position. *)
Lemma find_longest_match_spec input pos :
  pos <= length input ->
  let '(off, len) := find_longest_match input pos in
  (len = 0 \/ good_match input pos off len) /\
  (forall o n, 1 <= o <= pos -> o <= WINDOW_SIZE - 1 -> MIN_MATCH <= n <= MAX_MATCH ->
     pos + n <= length input -> agree input (pos - o) pos n -> n <= len).
Proof.
  intros Hpos. unfold find_longest_match.
  destruct ((pos =? 0) || (length input - pos <? MIN_MATCH)) eqn:E.
  { split; [by left|]. intros o n Ho _ Hn Hlen _.
    apply orb_true_iff in E as [E|E]; prop_bools; lia. }
  prop_bools. pose proof (probe_loop_spec (pos - (pos - (WINDOW_SIZE - 1))) input pos
    (Nat.min MAX_MATCH (length input - pos)) (pos - (WINDOW_SIZE - 1)) 0 0) as Hs.
  destruct (probe_loop _ _ _ _ _ _ _) as [off len].
  unfold MAX_MATCH, MIN_MATCH, WINDOW_SIZE in *.
  destruct Hs as (Hl & Hg & Hb); try lia.
  split; [done|]. intros o n Ho Ho2 Hn Hn2 Ha. apply (Hb (pos - o)); [lia|lia|done].
Qed.

(** ** The token stream the encoder emits *)

Inductive token : Type :=
| Lit (b : Z)
| Ref (off len : nat).

Definition is_lit (t : token) : bool := match t with Lit _ => true | Ref _ _ => false end.

Definition tok_bytes (t : token) : list Z :=
  match t with
  | Lit b => [b]
  | Ref off len => le_bytes 2 (16 * Z.of_nat off + Z.of_nat (len - MIN_MATCH))%Z
  end.

(** The flag byte of the tokens [ts] when the first has bit [n]. *)
Fixpoint flag_from (n : nat) (ts : list token) : Z :=
  match ts with
  | [] => 0%Z
  | t :: ts => Z.lor (if is_lit t then Z.shiftl 1 (Z.of_nat n) else 0%Z) (flag_from (S n) ts)
  end.

Definition body (ts : list token) : list Z := concat (map tok_bytes ts).
Definition frame_bytes (ts : list token) : list Z := flag_from 0 ts :: body ts.

(** The frames of [pend ++ ts], when the tokens [pend] are already in the
    open frame. *)
Fixpoint frames_from (pend ts : list token) : list Z :=
  match ts with
  | [] => if 0 <? length pend then frame_bytes pend else []
  | t :: ts =>
    if S (length pend) =? 8 then frame_bytes (pend ++ [t]) ++ frames_from [] ts
    else frames_from (pend ++ [t]) ts
  end.

(** [t] encodes [input[i .. i']]. *)
Inductive tok_at (input : list Z) (i : nat) : token -> nat -> Prop :=
| lit_at b : input !! i = Some b -> tok_at input i (Lit b) (i + 1)
| ref_at off len : good_match input i off len -> MIN_MATCH <= len -> tok_at input i (Ref off len) (i + len).

Inductive parse (input : list Z) : nat -> list token -> nat -> Prop :=
| parse_nil i : parse input i [] i
| parse_cons i t i' ts j : tok_at input i t i' -> parse input i' ts j -> parse input i (t :: ts) j.

Lemma tok_at_lt input i t i' : tok_at input i t i' -> i < i' <= length input.
Proof.
  unfold MIN_MATCH. intros [b Hb|off len Hg Hl]; [apply lookup_lt_Some in Hb; lia|].
  destruct Hg as (_ & _ & _ & ? & _). unfold MIN_MATCH in Hl. lia.
Qed.

Lemma parse_le input i ts j : parse input i ts j -> i + length ts <= j.
Proof. induction 1 as [|i t i' ts j Ht _ IH]; simpl; [lia|]. apply tok_at_lt in Ht. lia. Qed.

Lemma parse_app_inv input i ts1 ts2 j :
  parse input i (ts1 ++ ts2) j -> exists k, parse input i ts1 k /\ parse input k ts2 j.
Proof.
  revert i; induction ts1 as [|t ts1 IH]; intros i H; simpl in H.
  - exists i. split; [constructor|done].
  - inversion H as [|? ? i' ? ? Ht Hp]; subst. destruct (IH i' Hp) as (k & H1 & H2).
    exists k. split; [by econstructor|done].
Qed.

Lemma flag_from_snoc n ts t :
  flag_from n (ts ++ [t]) =
  Z.lor (flag_from n ts) (if is_lit t then Z.shiftl 1 (Z.of_nat (n + length ts)) else 0%Z).
Proof.
  revert n; induction ts as [|t0 ts IH]; intros n; cbn [app flag_from length].
  - rewrite Nat.add_0_r, Z.lor_0_r. done.
  - replace (n + S (length ts)) with (S n + length ts) by lia. by rewrite IH, Z.lor_assoc.
Qed.

Lemma testbit_one_shift n m : (0 <= n)%Z -> Z.testbit (Z.shiftl 1 n) m = (n =? m)%Z.
Proof. intros Hn. rewrite Z.shiftl_1_l. apply Z.pow2_bits_eqb; done. Qed.

Lemma flag_from_testbit n ts m :
  Z.testbit (flag_from n ts) (Z.of_nat (n + m)) =
  match ts !! m with Some t => is_lit t | None => false end.
Proof.
  revert n m; induction ts as [|t ts IH]; intros n m; [by rewrite lookup_nil, Z.testbit_0_l|].
  cbn [flag_from]. rewrite Z.lor_spec.
  assert (Hlow : forall k, k < S n -> Z.testbit (flag_from (S n) ts) (Z.of_nat k) = false).
  { clear. revert n; induction ts as [|t ts IH]; intros n k Hk; [by rewrite Z.testbit_0_l|].
    cbn [flag_from]. rewrite Z.lor_spec, IH by lia.
    destruct (is_lit t); [|by rewrite Z.testbit_0_l].
    rewrite testbit_one_shift by lia. rewrite orb_false_r. apply Z.eqb_neq. lia. }
  destruct m as [|m]; cbn [lookup list_lookup].
  - rewrite Hlow by lia. rewrite orb_false_r.
    destruct (is_lit t); [|by rewrite Z.testbit_0_l].
    rewrite testbit_one_shift by lia. apply Z.eqb_eq. lia.
  - replace (n + S m) with (S n + m) by lia. rewrite IH.
    destruct (is_lit t); [|by rewrite Z.testbit_0_l].
    rewrite testbit_one_shift by lia.
    assert ((Z.of_nat n =? Z.of_nat (S n + m))%Z = false) as -> by (apply Z.eqb_neq; lia).
    done.
Qed.

Lemma flag_from_u8 n ts : n + length ts <= 8 -> u8 (flag_from n ts).
Proof.
  revert n; induction ts as [|t ts IH]; intros n Hn; cbn [flag_from length] in *.
  { split; lia. }
  apply in_w_lor; [lia| |apply IH; lia].
  destruct (is_lit t); [|split; lia]. rewrite Z.shiftl_1_l.
  split; [by apply Z.pow_nonneg|]. apply Z.pow_lt_mono_r; lia.
Qed.

Lemma pack_spec off len :
  off <= WINDOW_SIZE - 1 -> MIN_MATCH <= len <= MAX_MATCH ->
  pack off len = Some (16 * Z.of_nat off + Z.of_nat (len - MIN_MATCH))%Z /\
  u16 (16 * Z.of_nat off + Z.of_nat (len - MIN_MATCH))%Z.
Proof.
  unfold WINDOW_SIZE, pack, LENGTH_BITS, MAX_MATCH, MIN_MATCH. intros Ho Hl.
  change (2 ^ 16)%Z with 65536%Z.
  assert ((Z.of_nat off <? 65536)%Z = true) as -> by (apply Z.ltb_lt; lia).
  assert ((Z.of_nat (len - 3) <? 65536)%Z = true) as -> by (apply Z.ltb_lt; lia).
  cbn [andb].
  rewrite shl_w_small, lor_shiftl_add by (try lia; split; change (2 ^ 4)%Z with 16%Z;
    change (2 ^ 16)%Z with 65536%Z; lia).
  change (2 ^ 4)%Z with 16%Z. split; [f_equal; lia|split; change (2 ^ 16)%Z with 65536%Z; lia].
Qed.

(** ** The encoder emits a token stream that parses the input *)

Lemma compress_loop_spec fuel input i pend out :
  length input <= fuel + i -> i <= length input -> length pend < 8 ->
  exists ts, parse input i ts (length input) /\
    compress_loop fuel input i (flag_from 0 pend) (body pend) (length pend) out
      = Some (out ++ frames_from pend ts).
Proof.
  revert i pend out; induction fuel as [|fuel IH]; intros i pend out Hf Hi Hp; cbn [compress_loop];
    (destruct (i <? length input) eqn:E; prop_bools;
      [|assert (i = length input) as -> by lia; exists []; split; [constructor|];
        cbn [frames_from]; unfold frame_bytes; destruct (0 <? length pend);
        [done|by rewrite app_nil_r]]).
  { lia. }
  pose proof (find_longest_match_spec input i ltac:(lia)) as Hs.
  destruct (find_longest_match input i) as [off len]. destruct Hs as [Hg _].
  assert (Hstep : exists t i', tok_at input i t i' /\ (if MIN_MATCH <=? len then
      let! packed := pack off len in Some (flag_from 0 pend, body pend ++ le_bytes 2 packed, i + len)
    else let! b := input !! i in
      Some (Z.lor (flag_from 0 pend) (shl_w 8 1 (Z.of_nat (length pend))), body pend ++ [b], i + 1))
    = Some (flag_from 0 (pend ++ [t]), body (pend ++ [t]), i')).
  { destruct (MIN_MATCH <=? len) eqn:El; prop_bools.
    - assert (good_match input i off len) as Hgm by (destruct Hg; [unfold MIN_MATCH in *; lia|done]).
      exists (Ref off len), (i + len). split; [by constructor|].
      destruct Hgm as (H1 & H2 & H3 & H4 & _).
      destruct (pack_spec off len) as [-> _]; [done|done|]. cbn.
      rewrite flag_from_snoc. cbn [is_lit]. rewrite Z.lor_0_r.
      unfold body. by rewrite map_app, concat_app; cbn [map concat tok_bytes]; rewrite app_nil_r.
    - destruct (lookup_lt_is_Some_2 input i) as [b Hb]; [lia|]. rewrite Hb.
      exists (Lit b), (i + 1). split; [by constructor|]. cbn.
      rewrite flag_from_snoc. cbn [is_lit]. rewrite shl_w_small; [|lia|].
      + unfold body. by rewrite map_app, concat_app.
      + rewrite Z.mul_1_l. split; [by apply Z.pow_nonneg|apply Z.pow_lt_mono_r; lia]. }
  destruct Hstep as (t & i' & Ht & ->). cbn. pose proof (tok_at_lt _ _ _ _ Ht) as Hlt.
  destruct (length pend =? 7) eqn:E8.
  - destruct (IH i' [] (out ++ flag_from 0 (pend ++ [t]) :: body (pend ++ [t]))) as (ts & Hts & Hc);
      [lia|lia|simpl; lia|].
    exists (t :: ts). split; [by econstructor|]. cbn in Hc. rewrite Hc. cbn [frames_from Nat.eqb].
    rewrite E8, <- app_assoc. done.
  - pose proof (proj1 (Nat.eqb_neq _ _) E8) as E7.
    destruct (IH i' (pend ++ [t]) out) as (ts & Hts & Hc); [lia|lia|rewrite length_app; simpl; lia|].
    exists (t :: ts). split; [by econstructor|]. rewrite length_app, Nat.add_1_r in Hc.
    rewrite Hc. cbn [frames_from Nat.eqb]. by rewrite E8.
Qed.

(** ** The decoder, on any input *)

Lemma copy_loop_total n orig start j out :
  start + j < length out ->
  exists r, copy_loop n orig start j out = Some r /\
    (forall o, r = Ok o -> length o = length out + n /\ (n = 0 \/ length o <= orig)).
Proof.
  revert j out; induction n as [|n IH]; intros j out Hj; cbn [copy_loop].
  { exists (Ok out). split; [done|]. intros o [= <-]. lia. }
  destruct (orig <=? length out) eqn:E; prop_bools; [eexists; split; [done|]; discriminate|].
  destruct (lookup_lt_is_Some_2 out (start + j) Hj) as [b ->]. cbn.
  destruct (IH (S j) (out ++ [b])) as (r & -> & Hr); [rewrite length_app; simpl; lia|].
  exists r. split; [done|]. intros o Ho. destruct (Hr o Ho) as [H1 H2].
  rewrite length_app in H1. simpl in H1. split; [lia|]. right. lia.
Qed.

Lemma decode_token_total input orig flag bit p out :
  length out < orig ->
  exists r, decode_token input orig flag bit p out = Some r /\
    (forall p' o, r = Ok (p', o) -> length out < length o <= orig /\ p < p' <= length input).
Proof.
  intros Ho. unfold decode_token.
  destruct (Z.testbit flag (Z.of_nat bit)).
  { destruct (length input <=? p) eqn:E; prop_bools; [eexists; split; [done|]; discriminate|].
    destruct (lookup_lt_is_Some_2 input p E) as [b ->]. cbn. eexists; split; [done|].
    intros p' o [= <- <-]. rewrite length_app. simpl. lia. }
  destruct (length input <? p + 2) eqn:E; prop_bools; [eexists; split; [done|]; discriminate|].
  destruct (lookup_lt_is_Some_2 input p) as [b0 ->]; [lia|]. cbn [mbind option_bind].
  destruct (lookup_lt_is_Some_2 input (p + 1)) as [b1 ->]; [lia|]. cbn [mbind option_bind].
  set (off := Z.to_nat (Z.shiftr _ _)). set (len := _ + MIN_MATCH).
  destruct ((off =? 0) || (length out <? off)) eqn:Eo; [eexists; split; [done|]; discriminate|].
  prop_bools. destruct (copy_loop_total len orig (length out - off) 0 out) as (r & -> & Hr); [lia|].
  eexists; split; [done|]. destruct r as [o|e]; [|discriminate].
  intros p' o' [= <- <-]. destruct (Hr o eq_refl). unfold len, MIN_MATCH in *. lia.
Qed.

Lemma bit_loop_total k input orig flag bit p out :
  length out <= orig -> p <= length input ->
  exists r, bit_loop k input orig flag bit p out = Some r /\
    (forall p' o, r = Ok (p', o) -> length o <= orig /\ p <= p' <= length input).
Proof.
  revert bit p out; induction k as [|k IH]; intros bit p out Ho Hp; cbn [bit_loop].
  { eexists; split; [done|]. intros ? ? [= <- <-]. lia. }
  destruct (orig <=? length out) eqn:E; prop_bools.
  { eexists; split; [done|]. intros ? ? [= <- <-]. lia. }
  destruct (decode_token_total input orig flag bit p out E) as (r & -> & Hr). cbn.
  destruct r as [[p1 o1]|e]; [|eexists; split; [done|]; discriminate].
  destruct (Hr p1 o1 eq_refl). destruct (IH (S bit) p1 o1) as (r & -> & Hr'); [lia|lia|].
  eexists; split; [done|]. intros p' o Hpo. destruct (Hr' p' o Hpo). lia.
Qed.

Lemma frame_loop_total fuel input orig p out :
  length out <= orig -> p <= length input < fuel + p ->
  exists r, frame_loop fuel input orig p out = Some r /\ (forall o, r = Ok o -> length o = orig).
Proof.
  revert p out; induction fuel as [|fuel IH]; intros p out Ho Hp; cbn [frame_loop];
    (destruct (orig <=? length out) eqn:E; prop_bools;
      [eexists; split; [done|]; intros o [= <-]; lia|]).
  - lia.
  - destruct (input !! p) as [flag|] eqn:Ef; [|eexists; split; [done|]; discriminate].
    pose proof (lookup_lt_Some _ _ _ Ef).
    destruct (bit_loop_total 8 input orig flag 0 (p + 1) out) as (r & -> & Hr); [lia|lia|]. cbn.
    destruct r as [[p1 o1]|e]; [|eexists; split; [done|]; discriminate].
    destruct (Hr p1 o1 eq_refl). apply IH; lia.
Qed.

(** Every byte decoded is a byte of the input or of the output so far. *)
Lemma copy_loop_bytes n orig start j out o : is_bytes out -> copy_loop n orig start j out = Some (Ok o) -> is_bytes o.
Proof.
  revert j out; induction n as [|n IH]; intros j out Hb; cbn [copy_loop]; [by intros [= <-]|].
  destruct (orig <=? length out); [done|]. destruct (out !! (start + j)) as [b|] eqn:E; cbn; [|done].
  apply IH, is_bytes_app. split; [done|]. apply Forall_singleton. by eapply Forall_lookup_1 in E.
Qed.

Lemma decode_token_bytes input orig flag bit p out p' o :
  is_bytes input -> is_bytes out -> decode_token input orig flag bit p out = Some (Ok (p', o)) -> is_bytes o.
Proof.
  intros Hi Hb. unfold decode_token. destruct (Z.testbit flag (Z.of_nat bit)).
  { destruct (length input <=? p); [done|]. destruct (input !! p) as [b|] eqn:E; cbn; [|done]. intros [= _ <-].
    apply is_bytes_app. split; [done|]. apply Forall_singleton. by eapply Forall_lookup_1 in E. }
  destruct (length input <? p + 2); [done|]. destruct (input !! p) as [b0|]; cbn [mbind option_bind]; [|done].
  destruct (input !! (p + 1)) as [b1|]; cbn [mbind option_bind]; [|done]. destruct (_ || _); [done|].
  destruct (copy_loop _ orig _ 0 out) as [[o'|e]|] eqn:E; cbn; [|done..]. intros [= _ <-]. by eapply copy_loop_bytes.
Qed.

Lemma bit_loop_bytes k input orig flag bit p out p' o :
  is_bytes input -> is_bytes out -> bit_loop k input orig flag bit p out = Some (Ok (p', o)) -> is_bytes o.
Proof.
  intros Hi. revert bit p out; induction k as [|k IH]; intros bit p out Hb; cbn [bit_loop]; [by intros [= _ <-]|].
  destruct (orig <=? length out); [by intros [= _ <-]|].
  destruct (decode_token input orig flag bit p out) as [[[p1 o1]|e]|] eqn:E; cbn; [|done..]. apply IH. exact (decode_token_bytes _ _ _ _ _ _ _ _ Hi Hb E).
Qed.

Lemma frame_loop_bytes fuel input orig p out o :
  is_bytes input -> is_bytes out -> frame_loop fuel input orig p out = Some (Ok o) -> is_bytes o.
Proof.
  intros Hi. revert p out; induction fuel as [|fuel IH]; intros p out Hb; cbn [frame_loop]; (destruct (orig <=? length out); [by intros [= <-]|]); [done|].
  destruct (input !! p) as [flag|]; [|done].
  destruct (bit_loop 8 input orig flag 0 (p + 1) out) as [[[p1 o1]|e]|] eqn:E; cbn; [|done..]. apply IH. exact (bit_loop_bytes _ _ _ _ _ _ _ _ _ Hi Hb E).
Qed.

Lemma decompress_bytes input out : is_bytes input -> decompress input = Some (Ok out) -> is_bytes out.
Proof.
  intros Hi. unfold decompress. destruct (length input <? 4); [done|].
  destruct (frame_loop _ input _ 4 []) as [[o|e]|] eqn:E; cbn; [|done..]. intros [= <-]. apply is_bytes_take. by apply (frame_loop_bytes _ _ _ _ _ _ Hi ltac:(constructor) E).
Qed.

(** ** The decoder reads the token stream back *)

Lemma take_snoc {A} (l : list A) n x : l !! n = Some x -> take (n + 1) l = take n l ++ [x].
Proof. intros H. rewrite Nat.add_1_r. by apply take_S_r. Qed.

Lemma drop_cons_lookup {A} (l : list A) n x rest :
  drop n l = x :: rest -> l !! n = Some x /\ drop (n + 1) l = rest.
Proof.
  intros H. split.
  - rewrite <- (Nat.add_0_r n), <- lookup_drop, H. done.
  - by rewrite <- drop_drop, H.
Qed.

Lemma copy_loop_agree n input start i j :
  start < i -> i + j + n <= length input -> agree input start i (j + n) ->
  copy_loop n (length input) start j (take (i + j) input) = Some (Ok (take (i + j + n) input)).
Proof.
  intros Hs. revert j; induction n as [|n IH]; intros j Hlen Ha; cbn [copy_loop].
  { by rewrite Nat.add_0_r. }
  rewrite length_take, Nat.min_l by lia.
  destruct (length input <=? i + j) eqn:E; prop_bools; [lia|].
  rewrite lookup_take_lt by lia. destruct (Ha j) as (x & -> & Hx); [lia|]. cbn.
  rewrite <- (take_snoc input (i + j) x) by done. replace (i + j + 1) with (i + S j) by lia.
  rewrite IH; [do 3 f_equal; lia|lia|]. by replace (S j + n) with (j + S n) by lia.
Qed.

Lemma decode_token_parse input s flag bit p i t i' rest :
  is_bytes input -> tok_at input i t i' -> Z.testbit flag (Z.of_nat bit) = is_lit t ->
  drop p s = tok_bytes t ++ rest ->
  decode_token s (length input) flag bit p (take i input)
    = Some (Ok (p + length (tok_bytes t), take i' input)).
Proof.
  intros Hb Ht Hf Hd. unfold decode_token. rewrite Hf. destruct Ht as [b Hl|off len Hg Hm]; cbn [is_lit].
  - apply drop_cons_lookup in Hd as [Hs _]. rewrite Hs. apply lookup_lt_Some in Hs.
    destruct (length s <=? p) eqn:E; prop_bools; [lia|]. cbn. by rewrite (take_snoc input i b).
  - destruct Hg as (H1 & H2 & H3 & H4 & H5). destruct (pack_spec off len) as [_ Hu]; [done|done|].
    pose proof (le_val_le_bytes_id 2 _ Hu) as Hv. cbn [tok_bytes] in *.
    remember (16 * Z.of_nat off + Z.of_nat (len - MIN_MATCH))%Z as w eqn:Ew.
    pose proof (f_equal length Hd) as Hlen. rewrite length_drop, length_app, length_le_bytes in Hlen.
    destruct (length s <? p + 2) eqn:E; prop_bools; [lia|].
    cbn [le_bytes app] in Hd. apply drop_cons_lookup in Hd as [Hs0 Hd].
    apply drop_cons_lookup in Hd as [Hs1 _]. rewrite Hs0. cbn [mbind option_bind].
    rewrite Hs1. cbn [mbind option_bind]. cbn [le_bytes] in Hv. rewrite Hv.
    unfold LENGTH_BITS. rewrite land_low, Z.shiftr_div_pow2 by lia. change (2 ^ 4)%Z with 16%Z.
    unfold MAX_MATCH, MIN_MATCH in *.
    assert (Z.to_nat (w / 16) = off) as ->.
    { rewrite Ew, Z.mul_comm, Z.div_add_l, Z.div_small by lia. lia. }
    assert (Z.to_nat (w mod 16) + 3 = len) as ->.
    { rewrite Ew, Z.add_comm, Z.mul_comm, Z.mod_add, Z.mod_small by lia. lia. }
    rewrite length_take, Nat.min_l by lia.
    destruct ((off =? 0) || (i <? off)) eqn:Eo.
    { apply orb_true_iff in Eo as [Eo|Eo]; prop_bools; lia. }
    pose proof (copy_loop_agree len input (i - off) i 0) as Hc. rewrite Nat.add_0_r in Hc.
    rewrite Hc by (done || lia). done.
Qed.

Lemma bit_loop_parse k input s flag bit p i ts j rest :
  is_bytes input -> parse input i ts j -> length ts <= k ->
  (length ts = k \/ j = length input) ->
  (forall m t, ts !! m = Some t -> Z.testbit flag (Z.of_nat (bit + m)) = is_lit t) ->
  drop p s = body ts ++ rest ->
  bit_loop k s (length input) flag bit p (take i input)
    = Some (Ok (p + length (body ts), take j input)).
Proof.
  intros Hb Hp. revert k bit p. induction Hp as [i|i t i' ts j Ht Hp IH]; intros k bit p Hk Hend Hf Hd.
  - change (body []) with (@nil Z). cbn [length]. rewrite Nat.add_0_r.
    destruct k as [|k]; cbn [bit_loop]; [done|]. destruct Hend as [|Hend]; [done|].
    rewrite length_take, Hend, Nat.min_id, Nat.leb_refl. done.
  - destruct k as [|k]; cbn [bit_loop length] in *; [lia|]. pose proof (tok_at_lt _ _ _ _ Ht).
    rewrite length_take, Nat.min_l by lia.
    destruct (length input <=? i) eqn:E; prop_bools; [lia|].
    unfold body in *. cbn [map concat] in *. rewrite <- app_assoc in Hd.
    rewrite (decode_token_parse input s flag bit p i t i' (concat (map tok_bytes ts) ++ rest));
      [|done|done|rewrite <- (Nat.add_0_r bit); by apply (Hf 0)|done].
    cbn [mbind option_bind].
    rewrite IH; [rewrite length_app; do 3 f_equal; lia|lia|lia| |].
    + intros m t' Hm. rewrite Nat.add_succ_l, <- Nat.add_succ_r. by apply (Hf (S m)).
    + by rewrite <- drop_drop, Hd, drop_app_length.
Qed.

Lemma frames_from_split pend ts :
  length pend < 8 -> pend ++ ts <> [] ->
  frames_from pend ts = frame_bytes (take 8 (pend ++ ts)) ++ frames_from [] (drop 8 (pend ++ ts)).
Proof.
  revert pend; induction ts as [|t ts IH]; intros pend Hp Hne.
  - rewrite app_nil_r in *. cbn [frames_from]. rewrite take_ge, drop_ge by lia.
    destruct pend; [done|]. cbn. by rewrite app_nil_r.
  - cbn [frames_from Nat.eqb]. destruct (length pend =? 7) eqn:E; prop_bools.
    + replace (pend ++ t :: ts) with ((pend ++ [t]) ++ ts) by by rewrite <- app_assoc.
      rewrite take_app_length', drop_app_length' by (rewrite length_app; simpl; lia). done.
    + rewrite IH; [by rewrite <- app_assoc|rewrite length_app; simpl; lia|by destruct pend].
Qed.

Lemma frame_loop_parse fuel input s p i ts :
  is_bytes input -> parse input i ts (length input) -> i <= length input ->
  drop p s = frames_from [] ts -> p <= length s < fuel + p ->
  frame_loop fuel s (length input) p (take i input) = Some (Ok input).
Proof.
  intros Hb. revert p i ts; induction fuel as [|fuel IH]; intros p i ts Hp Hi Hd Hl;
    cbn [frame_loop]; rewrite length_take, Nat.min_l by lia;
    (destruct (length input <=? i) eqn:E; prop_bools; [by rewrite take_ge by lia|]); [lia|].
  assert (ts <> []) as Hne by (intros ->; inversion Hp; lia).
  rewrite frames_from_split in Hd by (done || (simpl; lia)). simpl app in Hd.
  rewrite <- (take_drop 8 ts) in Hp. apply parse_app_inv in Hp as (j & Hp1 & Hp2).
  unfold frame_bytes in Hd. cbn [app] in Hd. apply drop_cons_lookup in Hd as [Hf Hd].
  rewrite Hf. apply lookup_lt_Some in Hf.
  assert (Hend : length (take 8 ts) = 8 \/ j = length input).
  { rewrite length_take. destruct (decide (8 <= length ts)); [left; lia|right].
    rewrite drop_ge in Hp2 by lia. by inversion Hp2. }
  erewrite (bit_loop_parse 8 input s _ 0 (p + 1) i (take 8 ts) j);
    [|done|exact Hp1|rewrite length_take; lia|exact Hend| |exact Hd].
  2: { intros m t Hm. by rewrite flag_from_testbit, Hm. }
  cbn [mbind option_bind]. pose proof (f_equal length Hd) as Hlen.
  rewrite length_drop, length_app in Hlen. pose proof (parse_le _ _ _ _ Hp2).
  apply (IH _ j (drop 8 ts)); [done|lia| |lia].
  by rewrite <- drop_drop, Hd, drop_app_length.
Qed.

(** ** Size and well-formedness of the output *)

Lemma tok_bytes_length input i t i' : tok_at input i t i' -> i + length (tok_bytes t) <= i'.
Proof.
  intros [b _|off len _ Hm]; cbn [tok_bytes length]; [lia|].
  rewrite length_le_bytes. unfold MIN_MATCH in Hm. lia.
Qed.

Lemma body_length input i ts j : parse input i ts j -> i + length (body ts) <= j.
Proof.
  induction 1 as [|i t i' ts j Ht _ IH]; [simpl; lia|]. apply tok_bytes_length in Ht.
  unfold body in *. cbn [map concat]. rewrite length_app. lia.
Qed.

Lemma body_app ts1 ts2 : body (ts1 ++ ts2) = body ts1 ++ body ts2.
Proof. unfold body. by rewrite map_app, concat_app. Qed.

Lemma frames_length pend ts :
  length pend < 8 ->
  length (frames_from pend ts) <= length (body (pend ++ ts)) + (length pend + length ts + 7) / 8.
Proof.
  revert pend; induction ts as [|t ts IH]; intros pend Hp; cbn [frames_from length].
  - rewrite app_nil_r. destruct (0 <? length pend) eqn:E; prop_bools; [|apply Nat.le_0_l].
    unfold frame_bytes. cbn [length]. rewrite Nat.add_0_r.
    pose proof (Nat.div_le_lower_bound (length pend + 7) 8 1 ltac:(lia) ltac:(lia)). lia.
  - cbn [Nat.eqb]. replace (pend ++ t :: ts) with ((pend ++ [t]) ++ ts) by by rewrite <- app_assoc.
    destruct (length pend =? 7) eqn:E; prop_bools.
    + rewrite length_app. unfold frame_bytes. cbn [length]. specialize (IH [] ltac:(simpl; lia)).
      simpl app in IH. cbn [length Nat.add] in IH. rewrite (body_app (pend ++ [t]) ts), !length_app, E.
      replace (7 + S (length ts) + 7) with (length ts + 7 + 1 * 8) by lia. rewrite Nat.div_add by lia. lia.
    + specialize (IH (pend ++ [t])). rewrite (length_app pend [t]) in IH. cbn [length] in IH.
      replace (length pend + S (length ts)) with (length pend + 1 + length ts) by lia. apply IH. lia.
Qed.

Lemma tok_bytes_bytes input i t i' : is_bytes input -> tok_at input i t i' -> is_bytes (tok_bytes t).
Proof.
  intros Hb [b Hl|off len _ _]; cbn [tok_bytes]; [|apply le_bytes_bytes].
  constructor; [|constructor]. eapply Forall_lookup_1; done.
Qed.

Lemma frames_bytes pend ts :
  length pend < 8 -> Forall (fun t => is_bytes (tok_bytes t)) (pend ++ ts) ->
  is_bytes (frames_from pend ts).
Proof.
  assert (Hfb : forall l, length l <= 8 -> Forall (fun t => is_bytes (tok_bytes t)) l ->
    is_bytes (frame_bytes l)).
  { intros l Hl Hall. constructor; [by apply flag_from_u8|].
    apply Forall_concat, Forall_map. exact Hall. }
  revert pend; induction ts as [|t ts IH]; intros pend Hp Hall; cbn [frames_from].
  - rewrite app_nil_r in Hall. destruct (0 <? length pend); [apply Hfb; [lia|done]|constructor].
  - replace (pend ++ t :: ts) with ((pend ++ [t]) ++ ts) in Hall by by rewrite <- app_assoc.
    cbn [Nat.eqb]. destruct (length pend =? 7) eqn:E; prop_bools.
    + apply Forall_app in Hall as [H1 H2]. apply is_bytes_app. split.
      * apply Hfb; [rewrite length_app; simpl; lia|done].
      * apply IH; [simpl; lia|done].
    + apply IH; [rewrite length_app; simpl; lia|done].
Qed.

Lemma parse_tok_bytes input i ts j :
  is_bytes input -> parse input i ts j -> Forall (fun t => is_bytes (tok_bytes t)) ts.
Proof. intros Hb. induction 1; constructor; eauto using tok_bytes_bytes. Qed.

(** The encoder's output in closed form. *)
Lemma compress_spec input :
  exists ts, parse input 0 ts (length input) /\
    compress input = Some (le_bytes 4 (header_len (length input)) ++ frames_from [] ts).
Proof.
  unfold compress. destruct (compress_loop_spec (length input) input 0 []
    (le_bytes 4 (header_len (length input)))) as (ts & Hts & Hc); [lia|lia|simpl; lia|].
  exists ts. split; [done|]. destruct input; [|exact Hc].
  assert (ts = []) as -> by (destruct ts; [done|]; apply parse_le in Hts; simpl in Hts; lia).
  cbn [frames_from length]. by rewrite app_nil_r.
Qed.

(** ** Properties *)

(** Compression is undone by decompression. *)
Lemma compress_roundtrip input :
  is_bytes input -> (Z.of_nat (length input) < 2 ^ 32)%Z ->
  exists out, compress input = Some out /\ is_bytes out /\ decompress out = Some (Ok input).
Proof.
  intros Hb Hlen. destruct (compress_spec input) as (ts & Hts & Hc). eexists. split; [exact Hc|].
  unfold header_len. apply Z.ltb_lt in Hlen as Hl. rewrite Hl.
  set (hdr := le_bytes 4 (Z.of_nat (length input))).
  assert (length hdr = 4) as H4 by apply length_le_bytes.
  assert (le_val hdr = Z.of_nat (length input)) as Hv by (apply le_val_le_bytes_id; split; lia).
  split.
  { apply is_bytes_app. split; [apply le_bytes_bytes|].
    apply frames_bytes; [simpl; lia|by eapply parse_tok_bytes]. }
  unfold decompress. rewrite length_app, H4.
  destruct (4 + length (frames_from [] ts) <? 4) eqn:E; prop_bools; [lia|].
  rewrite take_app_length', Hv, Nat2Z.id by done.
  pose proof (frame_loop_parse (S (4 + length (frames_from [] ts))) input (hdr ++ frames_from [] ts)
    4 0 ts Hb Hts) as Hf. rewrite take_0 in Hf. rewrite Hf.
  - cbn. by rewrite take_ge by lia.
  - lia.
  - by rewrite drop_app_length'.
  - rewrite length_app, H4. lia.
Qed.

(** C23: LZSS round trip.  Every byte string shorter than 4 GiB compresses
    without a panic, to bytes, and [decompress] gives the input back. *)
Theorem compress_decompress input :
  is_bytes input -> (Z.of_nat (length input) < 2 ^ 32)%Z ->
  exists out, compress input = Some out /\ is_bytes out /\ decompress out = Some (Ok input).
Proof. apply compress_roundtrip. Qed.

Lemma compress_decompress_witness :
  let input := [97; 98; 99; 97; 98; 99; 97; 98; 99; 120]%Z in
  exists out, compress input = Some out /\ is_bytes out /\ decompress out = Some (Ok input).
Proof.
  intros input. apply (compress_decompress input).
  - apply (bool_decide_unpack _). vm_compute. exact I.
  - vm_compute. reflexivity.
Defined.

(** C0: worst-case expansion.  A compressed stream is at most 4 header bytes,
    one byte per input byte and one flag byte per eight input bytes. *)
Theorem compress_bound input :
  exists out, compress input = Some out /\
    length out <= 4 + length input + (length input + 7) / 8.
Proof.
  destruct (compress_spec input) as (ts & Hts & Hc). eexists. split; [exact Hc|].
  rewrite length_app, length_le_bytes.
  pose proof (frames_length [] ts ltac:(simpl; lia)) as Hf. simpl app in Hf.
  pose proof (body_length _ _ _ _ Hts). pose proof (parse_le _ _ _ _ Hts).
  cbn [length Nat.add] in *.
  assert ((length ts + 7) / 8 <= (length input + 7) / 8) by (apply Nat.Div0.div_le_mono; lia). lia.
Qed.

(** Decoding answers on any bytes. *)
Lemma decompress_answers input :
  exists r, decompress input = Some r /\
    (forall out, r = Ok out -> length out = Z.to_nat (le_val (take 4 input))).
Proof.
  unfold decompress. destruct (length input <? 4) eqn:E; prop_bools.
  { eexists; split; [done|]. discriminate. }
  destruct (frame_loop_total (S (length input)) input (Z.to_nat (le_val (take 4 input))) 4 [])
    as (r & -> & Hr); [simpl; lia|lia|]. cbn.
  eexists; split; [done|]. destruct r as [o|e]; cbn; [|discriminate].
  intros out [= <-]. rewrite length_take, (Hr o eq_refl). lia.
Qed.

(** The decoder is total.  On any bytes whatever [decompress] stops
    without indexing out of range, and an [Ok] result has exactly the length
    the header declares. *)
Lemma decompress_total input :
  exists r, decompress input = Some r /\
    (forall out, r = Ok out -> length out = Z.to_nat (le_val (take 4 input))).
Proof. apply decompress_answers. Qed.

(** The match search is greedy-optimal.  What [find_longest_match]
    returns is either no match or a back-reference the 12+4 bit token can
    carry whose bytes really repeat, and no encodable back-reference of the
    window is longer. *)
Lemma find_longest_match_optimal input pos :
  pos <= length input ->
  let '(off, len) := find_longest_match input pos in
  (len = 0 \/
    (1 <= off <= pos /\ off <= 4095 /\ len <= 18 /\ pos + len <= length input /\
     agree input (pos - off) pos len)) /\
  (forall o n, 1 <= o <= pos -> o <= 4095 -> 3 <= n <= 18 -> pos + n <= length input ->
     agree input (pos - o) pos n -> n <= len).
Proof. apply find_longest_match_spec. Qed.
