(* ===== verification/Crc.v ===== *)
(** CRC-32 and CRC-32C (crates/spg-crypto/src/crc32.rs, crc32c.rs): the
    lazily built table, the byte-at-a-time loop, its equality with the
    bit-at-a-time definition, the burst errors the checksum detects, and the
    lock-free table initialisation as an interleaving of threads.

    The two source files differ in [POLY] only; the section is generic in it
    and instantiated for both. *)
From S2P Require Import Prelude Bytes.
Open Scope Z_scope.

Section Crc.
Context (POLY : Z).

(** [c = if c & 1 != 0 { POLY ^ (c >> 1) } else { c >> 1 }] *)
Definition bit_step (c : Z) : Z :=
  if negb (Z.land c 1 =? 0) then Z.lxor POLY (Z.shiftr c 1) else Z.shiftr c 1.

(** [for _ in 0..8 { .. }] *)
Fixpoint bit_steps (n : nat) (c : Z) : Z :=
  match n with O => c | S n => bit_steps n (bit_step c) end.

(** What the [for i in 0u32..256] loop stores in slot [i]. *)
Definition table_entry (i : nat) : Z := bit_steps 8 (Z.of_nat i).

(** The table [ensure_table] builds. *)
Definition build_table : list Z := map table_entry (seq 0 256).

(** One turn of the data loop: [idx = ((crc ^ b) & 0xFF)],
    [crc = (crc >> 8) ^ TABLE[idx]]. *)
Definition crc_byte (table : list Z) (crc b : Z) : Z :=
  Z.lxor (Z.shiftr crc 8) (nth (Z.to_nat (Z.land (Z.lxor crc b) 0xFF)) table 0).

Definition crc_loop (table : list Z) (crc : Z) (data : list Z) : Z :=
  fold_left (crc_byte table) data crc.

Definition crc (data : list Z) : Z :=
  Z.lxor (crc_loop build_table 0xFFFFFFFF data) 0xFFFFFFFF.

(** The definition of the checksum with no table: feed every byte in and
    divide by the polynomial one bit at a time. *)
Definition crc_ref_loop (c : Z) (data : list Z) : Z :=
  fold_left (fun c b => bit_steps 8 (Z.lxor c b)) data c.

Definition crc_ref (data : list Z) : Z := Z.lxor (crc_ref_loop 0xFFFFFFFF data) 0xFFFFFFFF.

(** ** The bit step is linear and, on 32-bit words, injective *)

Lemma bit_step_odd c : bit_step c = if Z.odd c then Z.lxor POLY (Z.shiftr c 1) else Z.shiftr c 1.
Proof.
  unfold bit_step. change 1 with (Z.ones 1) at 1. rewrite Z.land_ones by lia.
  rewrite Zmod_odd. by destruct (Z.odd c).
Qed.

Lemma odd_lxor x y : Z.odd (Z.lxor x y) = xorb (Z.odd x) (Z.odd y).
Proof. rewrite <- !Z.bit0_odd. apply Z.lxor_spec. Qed.

Lemma bit_step_lxor x y : bit_step (Z.lxor x y) = Z.lxor (bit_step x) (bit_step y).
Proof.
  rewrite !bit_step_odd, odd_lxor, Z.shiftr_lxor.
  apply Z.bits_inj'. intros n _.
  destruct (Z.odd x), (Z.odd y); simpl xorb; cbn iota; rewrite !Z.lxor_spec;
    destruct (Z.testbit POLY n), (Z.testbit (Z.shiftr x 1) n), (Z.testbit (Z.shiftr y 1) n); done.
Qed.

Lemma bit_steps_lxor n x y : bit_steps n (Z.lxor x y) = Z.lxor (bit_steps n x) (bit_steps n y).
Proof. revert x y; induction n as [|n IH]; intros; cbn; [done|]. by rewrite bit_step_lxor, IH. Qed.

Lemma bit_steps_shiftl n x : bit_steps n (Z.shiftl x (Z.of_nat n)) = x.
Proof.
  revert x; induction n as [|n IH]; intros x; cbn [bit_steps]; [apply Z.shiftl_0_r|].
  rewrite bit_step_odd, <- Z.bit0_odd, Z.shiftl_spec_low by lia.
  rewrite Z.shiftr_shiftl_l by lia. replace (Z.of_nat (S n) - 1) with (Z.of_nat n) by lia. apply IH.
Qed.

Lemma bit_steps_add n m x : bit_steps (n + m) x = bit_steps m (bit_steps n x).
Proof. revert x; induction n as [|n IH]; intros; cbn; [done|]. apply IH. Qed.

Context (POLY_u32 : u32 POLY) (POLY_top : Z.testbit POLY 31 = true).

Lemma bit_step_u32 c : u32 c -> u32 (bit_step c).
Proof using POLY_u32.
  intros Hc. rewrite bit_step_odd. destruct (Z.odd c); auto with spg.
Qed.

Lemma bit_steps_u32 n c : u32 c -> u32 (bit_steps n c).
Proof using POLY_u32. revert c; induction n; intros; cbn; [done|]. by apply IHn, bit_step_u32. Qed.

Lemma bit_step_top c : u32 c -> Z.testbit (bit_step c) 31 = Z.odd c.
Proof using POLY_top.
  intros Hc. rewrite bit_step_odd.
  assert (Z.testbit (Z.shiftr c 1) 31 = false) as Hs
    by (rewrite Z.shiftr_spec by lia; apply (in_w_high 32); [done|lia|lia]).
  destruct (Z.odd c); [by rewrite Z.lxor_spec, POLY_top, Hs|done].
Qed.

Lemma bit_step_inj x y : u32 x -> u32 y -> bit_step x = bit_step y -> x = y.
Proof using POLY_top.
  intros Hx Hy E. pose proof (bit_step_top x Hx) as Hox. rewrite E, bit_step_top in Hox by done.
  rewrite !bit_step_odd, <- Hox in E. assert (Z.shiftr x 1 = Z.shiftr y 1) as Es.
  { destruct (Z.odd y); [|done]. apply (f_equal (Z.lxor POLY)) in E.
    by rewrite <- !Z.lxor_assoc, Z.lxor_nilpotent, !Z.lxor_0_l in E. }
  apply Z.bits_inj'. intros n Hn. destruct (decide (n = 0)) as [->|].
  - by rewrite !Z.bit0_odd.
  - replace n with ((n - 1) + 1) by lia. by rewrite <- !Z.shiftr_spec, Es by lia.
Qed.

Lemma bit_steps_inj n x y : u32 x -> u32 y -> bit_steps n x = bit_steps n y -> x = y.
Proof using POLY_top POLY_u32.
  revert x y; induction n as [|n IH]; intros x y Hx Hy E; cbn in E; [done|].
  apply bit_step_inj; [done|done|]. apply IH; [by apply bit_step_u32..|done].
Qed.

Arguments bit_steps : simpl never.

(** ** The table loop computes the definition *)

Lemma nth_table i : (i < 256)%nat -> nth i build_table 0 = bit_steps 8 (Z.of_nat i).
Proof.
  intros Hi. unfold build_table. rewrite nth_indep with (d' := table_entry 0) by (rewrite length_map, length_seq; lia).
  rewrite map_nth, seq_nth by lia. done.
Qed.

Lemma crc_byte_ref c b : 0 <= c -> u8 b -> crc_byte build_table c b = bit_steps 8 (Z.lxor c b).
Proof.
  intros Hc Hb. unfold crc_byte. change 0xFF with (2 ^ 8 - 1). rewrite land_low by lia.
  set (x := Z.lxor c b). pose proof (Z.mod_pos_bound x (2 ^ 8) ltac:(lia)) as Hm.
  change (2 ^ 8) with 256 in *. rewrite nth_table, Z2Nat.id by lia.
  assert (x = Z.lxor (Z.shiftl (Z.shiftr c 8) 8) (x mod 256)) as Ex.
  { apply Z.bits_inj'. intros n Hn. change 256 with (2 ^ 8). unfold x.
    rewrite !Z.lxor_spec, Z.shiftl_spec by done. destruct (decide (n < 8)).
    - rewrite Z.mod_pow2_bits_low, Z.lxor_spec, (Z.testbit_neg_r _ (n - 8)) by lia.
      by destruct (Z.testbit c n), (Z.testbit b n).
    - rewrite Z.mod_pow2_bits_high, (in_w_high 8 b n), Z.shiftr_spec by (done || lia).
      replace (n - 8 + 8) with n by lia. done. }
  rewrite Ex at 2. rewrite bit_steps_lxor. f_equal.
  symmetry. apply (bit_steps_shiftl 8).
Qed.

Lemma crc_loop_ref c data : u32 c -> is_bytes data -> crc_loop build_table c data = crc_ref_loop c data.
Proof using POLY_u32.
  intros Hc Hd. revert c Hc. induction Hd as [|b data Hb Hd IH]; intros c Hc; cbn; [done|].
  rewrite crc_byte_ref by (done || apply Hc). apply IH. apply bit_steps_u32.
  apply in_w_lxor; [lia|done|]. by apply (in_w_mono 8).
Qed.

Lemma crc_ref_loop_u32 c data : u32 c -> is_bytes data -> u32 (crc_ref_loop c data).
Proof using POLY_u32.
  intros Hc Hd. revert c Hc. induction Hd as [|b data Hb Hd IH]; intros c Hc; cbn; [done|].
  apply IH, bit_steps_u32, in_w_lxor; [lia|done|]. by apply (in_w_mono 8).
Qed.

Lemma crc_is_ref data : is_bytes data -> crc data = crc_ref data.
Proof using POLY_u32. intros Hd. unfold crc, crc_ref. rewrite crc_loop_ref; [done|split; lia|done]. Qed.

(** ** Bursts *)

(** A string of bytes acts on the register like one division of its
    little-endian value. *)
Lemma crc_ref_loop_value c w :
  is_bytes w -> crc_ref_loop c w = bit_steps (8 * length w) (Z.lxor c (le_val w)).
Proof.
  intros Hw. revert c; induction Hw as [|b w Hb Hw IH]; intros c; [cbn; by rewrite Z.lxor_0_r|].
  cbn [crc_ref_loop fold_left length le_val]. unfold crc_ref_loop in IH. rewrite IH.
  replace (8 * S (length w))%nat with (8 + 8 * length w)%nat by lia. rewrite bit_steps_add. f_equal.
  rewrite <- (bit_steps_shiftl 8 (le_val w)) at 1. rewrite <- bit_steps_lxor. f_equal.
  rewrite Z.lxor_assoc. f_equal. rewrite Z.add_comm, Z.mul_comm.
  change 256 with (2 ^ 8). rewrite <- lor_shiftl_add, Z.lor_comm by (done || lia).
  change (Z.of_nat 8) with 8. symmetry. rewrite <- Z.lxor_lor; [done|]. apply Z.bits_inj'. intros n Hn.
  rewrite Z.land_spec, Z.testbit_0_l. destruct (decide (n < 8)).
  - rewrite Z.shiftl_spec_low by (simpl; lia). apply andb_false_r.
  - by rewrite (in_w_high 8 b n) by (done || lia).
Qed.

Lemma crc_ref_loop_inj c1 c2 data :
  u32 c1 -> u32 c2 -> is_bytes data -> crc_ref_loop c1 data = crc_ref_loop c2 data -> c1 = c2.
Proof using POLY_u32 POLY_top.
  intros H1 H2 Hd. revert c1 c2 H1 H2.
  induction Hd as [|b data Hb Hd IH]; intros c1 c2 H1 H2 E; cbn in E; [done|].
  assert (u32 b) as Hb' by by apply (in_w_mono 8).
  apply IH in E; [|apply bit_steps_u32, in_w_lxor; (lia || done)..].
  apply bit_steps_inj in E; [|apply in_w_lxor; (lia || done)..].
  apply (f_equal (Z.lxor b)) in E. by rewrite !(Z.lxor_comm b), !Z.lxor_assoc, Z.lxor_nilpotent, !Z.lxor_0_r in E.
Qed.

Lemma burst_detected pre w1 w2 post :
  is_bytes pre -> is_bytes w1 -> is_bytes w2 -> is_bytes post ->
  length w1 = length w2 -> (length w1 <= 4)%nat -> w1 <> w2 ->
  crc (pre ++ w1 ++ post) <> crc (pre ++ w2 ++ post).
Proof using POLY_u32 POLY_top.
  intros Hpre Hw1 Hw2 Hpost Hlen H4 Hne E.
  assert (Hsplit : forall w, is_bytes w -> crc (pre ++ w ++ post) =
    Z.lxor (crc_ref_loop (crc_ref_loop (crc_ref_loop 0xFFFFFFFF pre) w) post) 0xFFFFFFFF).
  { intros w Hw. rewrite crc_is_ref by (by repeat (apply is_bytes_app; split)).
    unfold crc_ref, crc_ref_loop. by rewrite !fold_left_app. }
  rewrite !Hsplit in E by done. set (c := crc_ref_loop 0xFFFFFFFF pre) in *.
  assert (u32 c) as Hc by (apply crc_ref_loop_u32; [split; lia|done]).
  apply (f_equal (fun x => Z.lxor x 0xFFFFFFFF)) in E.
  rewrite !Z.lxor_assoc, Z.lxor_nilpotent, !Z.lxor_0_r in E.
  apply crc_ref_loop_inj in E; [|by apply crc_ref_loop_u32..|done].
  assert (Hval : forall w, is_bytes w -> (length w <= 4)%nat -> u32 (Z.lxor c (le_val w))).
  { intros w Hw Hl. apply in_w_lxor; [lia|done|].
    apply (in_w_mono (8 * Z.of_nat (length w))); [by apply le_val_bound|lia]. }
  rewrite !crc_ref_loop_value, <- Hlen in E by done.
  apply bit_steps_inj in E; [|apply Hval; (done || lia)..].
  apply (f_equal (Z.lxor c)) in E. rewrite <- !Z.lxor_assoc, Z.lxor_nilpotent, !Z.lxor_0_l in E.
  apply Hne. rewrite <- (le_bytes_le_val w1), <- (le_bytes_le_val w2), E, Hlen by done. done.
Qed.

End Crc.

(** ** The two checksums *)

Definition POLY_IEEE : Z := 0xEDB88320.
Definition POLY_CASTAGNOLI : Z := 0x82F63B78.

Definition crc32 : list Z -> Z := crc POLY_IEEE.
Definition crc32c : list Z -> Z := crc POLY_CASTAGNOLI.

Lemma poly_ieee_u32 : u32 POLY_IEEE. Proof. by split. Qed.
Lemma poly_castagnoli_u32 : u32 POLY_CASTAGNOLI. Proof. by split. Qed.

Lemma crc32_u32 data : is_bytes data -> u32 (crc32 data).
Proof.
  intros Hd. unfold crc32. rewrite (crc_is_ref _ poly_ieee_u32) by done. unfold crc_ref.
  apply in_w_lxor; [lia| |by split].
  by apply (crc_ref_loop_u32 _ poly_ieee_u32).
Qed.

(** ** [ensure_table]: lock-free initialisation

    Every thread runs [ensure_table] over the shared [STATE] and [TABLE].  The
    accesses interleave; [Release]/[Acquire] on [STATE] orders the table
    stores before the [READY] store, so the model is the interleaving of the
    individual accesses. *)
Section EnsureTable.
Context (POLY : Z).

Definition UNINIT : Z := 0.
Definition INIT : Z := 1.
Definition READY : Z := 2.

(** Where a thread stands in [ensure_table]. *)
Inductive pc : Type :=
| AtLoad             (** about to [STATE.load] *)
| AtCas              (** read [UNINIT], about to [compare_exchange] *)
| Filling (i : nat)  (** won the exchange, about to store slot [i] *)
| Publishing         (** stored all slots, about to store [READY] *)
| Returned.

Record shared : Type := mk_shared { STATE : Z; TABLE : list Z; threads : list pc }.

Definition init_state (n : nat) : shared :=
  mk_shared UNINIT (replicate 256 0) (replicate n AtLoad).

(** What one access of a thread at [p] does: the shared words after it and
    the thread's next point.  [Returned] threads do nothing more. *)
Definition thread_step (st : Z) (tbl : list Z) (p : pc) : option (Z * list Z * pc) :=
  match p with
  | AtLoad =>
    Some (st, tbl, if st =? READY then Returned else if st =? UNINIT then AtCas else AtLoad)
  | AtCas => if st =? UNINIT then Some (INIT, tbl, Filling 0) else Some (st, tbl, AtLoad)
  | Filling i =>
    Some (st, <[i := table_entry POLY i]> tbl, if (S i =? 256)%nat then Publishing else Filling (S i))
  | Publishing => Some (READY, tbl, Returned)
  | Returned => None
  end.

Inductive step : shared -> shared -> Prop :=
| step_thread s t p st tbl p' :
    threads s !! t = Some p -> thread_step (STATE s) (TABLE s) p = Some (st, tbl, p') ->
    step s (mk_shared st tbl (<[t := p']> (threads s))).

Definition reachable (n : nat) : shared -> Prop := rtc step (init_state n).

Definition owner (p : pc) : Prop :=
  match p with Filling _ | Publishing => True | _ => False end.

Record table_inv (s : shared) : Prop := mk_table_inv {
  ti_state : STATE s = UNINIT \/ STATE s = INIT \/ STATE s = READY;
  ti_len : length (TABLE s) = 256%nat;
  ti_owner_init : forall t p, threads s !! t = Some p -> owner p -> STATE s = INIT;
  ti_owner_unique : forall t1 t2 p1 p2,
    threads s !! t1 = Some p1 -> threads s !! t2 = Some p2 -> owner p1 -> owner p2 -> t1 = t2;
  ti_owner_exists : STATE s = INIT -> exists t p, threads s !! t = Some p /\ owner p;
  ti_filling : forall t i, threads s !! t = Some (Filling i) ->
    (i < 256)%nat /\ forall j, (j < i)%nat -> TABLE s !! j = Some (table_entry POLY j);
  ti_publishing : forall t, threads s !! t = Some Publishing -> TABLE s = build_table POLY;
  ti_ready : STATE s = READY -> TABLE s = build_table POLY;
  ti_returned : forall t, threads s !! t = Some Returned -> STATE s = READY
}.

Lemma build_table_lookup i :
  (i < 256)%nat -> build_table POLY !! i = Some (table_entry POLY i).
Proof.
  intros Hi. unfold build_table. rewrite list_lookup_fmap, lookup_seq_lt by lia. done.
Qed.

Lemma table_full tbl :
  length tbl = 256%nat ->
  (forall j, (j < 256)%nat -> tbl !! j = Some (table_entry POLY j)) -> tbl = build_table POLY.
Proof.
  intros Hl Hall. apply list_eq. intros i. destruct (decide (i < 256)%nat).
  - by rewrite Hall, build_table_lookup.
  - rewrite !lookup_ge_None_2; [done| |lia].
    unfold build_table. rewrite length_map, length_seq. lia.
Qed.

Lemma init_inv n : table_inv (init_state n).
Proof.
  assert (Hp : forall t p, replicate n AtLoad !! t = Some p -> p = AtLoad)
    by (intros t p H; by apply lookup_replicate in H as [-> _]).
  split; cbn [STATE TABLE threads init_state].
  - by left.
  - apply length_replicate.
  - intros t p ->%Hp [].
  - intros t1 t2 p1 p2 ->%Hp _ [].
  - discriminate.
  - intros t i H%Hp. discriminate.
  - intros t H%Hp. discriminate.
  - discriminate.
  - intros t H%Hp. discriminate.
Qed.

Lemma threads_insert (ts : list pc) t p t' q :
  <[t := p]> ts !! t' = Some q -> (t' = t /\ q = p) \/ (t' <> t /\ ts !! t' = Some q).
Proof. intros H. apply list_lookup_insert_Some in H as [(<- & <- & _)|[? ?]]; naive_solver. Qed.

(** A thread that is not the owner leaves the table alone and becomes neither
    the owner nor, unless the table is [READY], [Returned]. *)
Lemma quiet_step_inv s t p p' :
  table_inv s -> threads s !! t = Some p -> ~ owner p -> ~ owner p' ->
  (p' = Returned -> STATE s = READY) ->
  table_inv (mk_shared (STATE s) (TABLE s) (<[t := p']> (threads s))).
Proof.
  intros [H1 H2 H3 H4 H5 H6 H7 H8 H9] Ht Hp Hp' Hret.
  split; cbn [STATE TABLE threads]; auto.
  - intros t1 q [[-> ->]|[_ Hq]]%threads_insert Ho; [done|by eapply H3].
  - intros t1 t2 q1 q2 [[-> ->]|[_ Hq1]]%threads_insert [[-> ->]|[_ Hq2]]%threads_insert Ho1 Ho2;
      try done. by eapply H4.
  - intros Hi. destruct (H5 Hi) as (t1 & q & Hq & Ho). exists t1, q. split; [|done].
    rewrite list_lookup_insert_ne; [done|]. intros <-. congruence.
  - intros t1 i [[-> <-]|[_ Hq]]%threads_insert; [by simpl in Hp'|by eapply H6].
  - intros t1 [[-> <-]|[_ Hq]]%threads_insert; [by simpl in Hp'|by eapply H7].
  - intros t1 [[-> <-]|[_ Hq]]%threads_insert; [auto|by eapply H9].
Qed.

Lemma step_inv s s' : table_inv s -> step s s' -> table_inv s'.
Proof.
  intros I Hs. destruct Hs as [s t p st tbl p' Ht Hst]. destruct p; cbn [thread_step] in Hst.
  - injection Hst as <- <- <-. apply (quiet_step_inv s t AtLoad); [done|done|by intros []| |].
    + destruct (STATE s =? READY); [by intros []|]. destruct (STATE s =? UNINIT); by intros [].
    + destruct (STATE s =? READY) eqn:E; prop_bools; [done|]. by destruct (STATE s =? UNINIT).
  - destruct (STATE s =? UNINIT) eqn:E; prop_bools; injection Hst as <- <- <-;
      [|by apply (quiet_step_inv s t AtCas); try (by intros [])].
    destruct I as [H1 H2 H3 H4 H5 H6 H7 H8 H9].
    assert (Hno : forall t1 q, threads s !! t1 = Some q -> ~ owner q).
    { intros t1 q Hq Ho. pose proof (H3 t1 q Hq Ho). by rewrite E in *. }
    assert (Hnr : forall t1, threads s !! t1 <> Some Returned).
    { intros t1 Hq. pose proof (H9 t1 Hq). by rewrite E in *. }
    split; cbn [STATE TABLE threads]; auto; try discriminate.
    + intros t1 t2 q1 q2 [[-> ->]|[_ Hq1]]%threads_insert [[-> ->]|[_ Hq2]]%threads_insert Ho1 Ho2;
        [done|by apply Hno in Hq2|by apply Hno in Hq1..].
    + intros _. exists t, (Filling 0). split; [|done]. apply list_lookup_insert_eq.
      by apply lookup_lt_Some in Ht.
    + intros t1 i [[-> [= ->]]|[_ Hq]]%threads_insert; [split; lia|]. by apply Hno in Hq.
    + intros t1 [[-> ?]|[_ Hq]]%threads_insert; [done|]. by apply Hno in Hq.
    + intros t1 [[-> ?]|[_ Hq]]%threads_insert; [done|]. by apply Hnr in Hq.
  - injection Hst as <- <- <-. destruct I as [H1 H2 H3 H4 H5 H6 H7 H8 H9].
    pose proof (H3 t _ Ht I) as Hinit. destruct (H6 t i Ht) as [Hi Hpre].
    assert (Hnr : forall t1, threads s !! t1 <> Some Returned).
    { intros t1 Hq. pose proof (H9 t1 Hq). by rewrite Hinit in *. }
    assert (Hother : forall t1 q, t1 <> t -> threads s !! t1 = Some q -> ~ owner q).
    { intros t1 q Hne Hq Ho. by apply Hne, (H4 t1 t q (Filling i)). }
    assert (Htbl : forall j, (j < S i)%nat ->
      <[i := table_entry POLY i]> (TABLE s) !! j = Some (table_entry POLY j)).
    { intros j Hj. destruct (decide (j = i)) as [->|].
      - apply list_lookup_insert_eq. lia.
      - rewrite list_lookup_insert_ne by done. apply Hpre. lia. }
    assert (Hown : owner (if (S i =? 256)%nat then Publishing else Filling (S i)))
      by (cbn [Nat.eqb]; by destruct (i =? 255)%nat).
    split; cbn [STATE TABLE threads]; auto.
    + by rewrite length_insert.
    + intros t1 t2 q1 q2 [[-> ->]|[Hn1 Hq1]]%threads_insert [[-> ->]|[Hn2 Hq2]]%threads_insert Ho1 Ho2;
        [done|by apply Hother in Hq2|by apply Hother in Hq1|by eapply H4].
    + intros _. eexists t, _. split; [|exact Hown]. apply list_lookup_insert_eq.
      by apply lookup_lt_Some in Ht.
    + intros t1 j [[-> Hq]|[Hn Hq]]%threads_insert; [|by apply Hother in Hq].
      revert Hq. destruct (i =? 255)%nat eqn:E; prop_bools; [done|]. intros [= ->]. split; [lia|done].
    + intros t1 [[-> Hq]|[Hn Hq]]%threads_insert; [|by apply Hother in Hq].
      revert Hq. destruct (i =? 255)%nat eqn:E; prop_bools; [intros _|done]. subst i.
      apply table_full; [by rewrite length_insert|done].
    + by rewrite Hinit.
    + intros t1 [[-> Hq]|[Hn Hq]]%threads_insert; [|by apply Hnr in Hq].
      by destruct (i =? 255)%nat.
  - injection Hst as <- <- <-. destruct I as [H1 H2 H3 H4 H5 H6 H7 H8 H9].
    assert (Hother : forall t1 q, t1 <> t -> threads s !! t1 = Some q -> ~ owner q).
    { intros t1 q Hne Hq Ho. by apply Hne, (H4 t1 t q Publishing). }
    split; cbn [STATE TABLE threads]; auto; try discriminate.
    + intros t1 q [[-> ->]|[Hn Hq]]%threads_insert Ho; [done|by apply Hother in Hq].
    + intros t1 t2 q1 q2 [[-> ->]|[Hn1 Hq1]]%threads_insert _ Ho1; [done|by apply Hother in Hq1].
    + intros t1 i [[-> ?]|[Hn Hq]]%threads_insert; [done|by apply Hother in Hq].
    + intros t1 _. by apply H7 in Ht.
    + intros _. by apply H7 in Ht.
  - done.
Qed.

Lemma rtc_inv s s' : table_inv s -> rtc step s s' -> table_inv s'.
Proof. intros I H. induction H as [s|s s1 s2 Hs _ IH]; [done|]. apply IH. by eapply step_inv. Qed.

Lemma reachable_inv n s : reachable n s -> table_inv s.
Proof. apply rtc_inv, init_inv. Qed.
End EnsureTable.

(** Run the threads in a given order; [None] when a chosen thread cannot move. *)
Fixpoint run_schedule (POLY : Z) (ts : list nat) (s : shared) : option shared :=
  match ts with
  | [] => Some s
  | t :: ts =>
    let! p := threads s !! t in
    let! (st, tbl, p') := thread_step POLY (STATE s) (TABLE s) p in
    run_schedule POLY ts (mk_shared st tbl (<[t := p']> (threads s)))
  end.

Lemma run_schedule_sound POLY ts s s' :
  run_schedule POLY ts s = Some s' -> rtc (step POLY) s s'.
Proof.
  revert s; induction ts as [|t ts IH]; intros s H; cbn in H; [injection H as <-; constructor|].
  destruct (threads s !! t) as [p|] eqn:Ht; [|done]. cbn in H.
  destruct (thread_step POLY (STATE s) (TABLE s) p) as [[[st tbl] p']|] eqn:Hp; [|done]. cbn in H.
  econstructor; [|by apply IH]. by econstructor.
Qed.

(** ** Properties *)

(** The table-driven loops compute CRC-32 and CRC-32C.  On every byte
    string [crc32] and [crc32c] equal the bit-at-a-time division by the IEEE
    and the Castagnoli polynomial. *)
Lemma crc_matches_definition data :
  is_bytes data ->
  crc32 data = crc_ref POLY_IEEE data /\ crc32c data = crc_ref POLY_CASTAGNOLI data.
Proof.
  intros Hd. split.
  - apply (crc_is_ref _ poly_ieee_u32 _ Hd).
  - apply (crc_is_ref _ poly_castagnoli_u32 _ Hd).
Qed.

(** The check values of the two checksums, on "123456789". *)

(** Error detection.  Both checksums change whenever a window of at most
    four consecutive bytes changes, wherever it sits in the data. *)
Lemma crc_detects_bursts pre w1 w2 post :
  is_bytes pre -> is_bytes w1 -> is_bytes w2 -> is_bytes post ->
  length w1 = length w2 -> (length w1 <= 4)%nat -> w1 <> w2 ->
  crc32 (pre ++ w1 ++ post) <> crc32 (pre ++ w2 ++ post) /\
  crc32c (pre ++ w1 ++ post) <> crc32c (pre ++ w2 ++ post).
Proof.
  intros. split.
  - by apply (burst_detected _ poly_ieee_u32 eq_refl).
  - by apply (burst_detected _ poly_castagnoli_u32 eq_refl).
Qed.

(** The lock-free initialisation is safe.  In every interleaving of any
    number of threads running [ensure_table], a thread that has returned
    computes the checksum from the complete table, and at most one thread is
    ever filling it. *)
Lemma ensure_table_safe POLY n s t :
  reachable POLY n s -> threads s !! t = Some Returned ->
  (forall c data, crc_loop (TABLE s) c data = crc_loop (build_table POLY) c data) /\
  (forall t' p, threads s !! t' = Some p -> ~ owner p).
Proof.
  intros Hr Ht. apply reachable_inv in Hr as [H1 H2 H3 H4 H5 H6 H7 H8 H9].
  pose proof (H9 t Ht) as HR. split.
  - by rewrite H8.
  - intros t' p Hp Ho. pose proof (H3 t' p Hp Ho). by rewrite HR in *.
Qed.
