(* ===== verification/Base64.v ===== *)
(** Base64, RFC 4648 (crates/spg-crypto/src/base64.rs). *)
From S2P Require Import Prelude Bytes.
Open Scope Z_scope.

(** [b"ABC..Zabc..z0123456789+/"] *)
Definition ALPHA : list Z :=
  map (fun i => 65 + Z.of_nat i) (seq 0 26) ++ map (fun i => 97 + Z.of_nat i) (seq 0 26) ++
  map (fun i => 48 + Z.of_nat i) (seq 0 10) ++ [43; 47].

Definition PAD : Z := 61.

(** [ALPHA[((n >> s) & 0x3f) as usize]] *)
Definition alpha_at (n s : Z) : Z := nth (Z.to_nat (Z.land (Z.shiftr n s) 0x3f)) ALPHA 0.

Fixpoint encode (input : list Z) : list Z :=
  match input with
  | b0 :: b1 :: b2 :: rest =>
    let n := Z.lor (Z.lor (Z.shiftl b0 16) (Z.shiftl b1 8)) b2 in
    alpha_at n 18 :: alpha_at n 12 :: alpha_at n 6 :: alpha_at n 0 :: encode rest
  | [b0] => let n := Z.shiftl b0 16 in [alpha_at n 18; alpha_at n 12; PAD; PAD]
  | [b0; b1] =>
    let n := Z.lor (Z.shiftl b0 16) (Z.shiftl b1 8) in
    [alpha_at n 18; alpha_at n 12; alpha_at n 6; PAD]
  | [] => []
  end.

Inductive DecodeError : Type :=
| InvalidLength
| InvalidChar (b : Z).

Definition decode_char (b : Z) : result Z DecodeError :=
  if (65 <=? b) && (b <=? 90) then Ok (b - 65)
  else if (97 <=? b) && (b <=? 122) then Ok (b - 97 + 26)
  else if (48 <=? b) && (b <=? 57) then Ok (b - 48 + 52)
  else if b =? 43 then Ok 62
  else if b =? 47 then Ok 63
  else Err (InvalidChar b).

(** The [for (i, &b) in chunk.iter().enumerate()] loop: fills [quad] from
    slot [i] and counts the padding. *)
Fixpoint quad_loop (chunk : list Z) (i : nat) (quad : list Z) (padding : nat)
  : result (list Z * nat) DecodeError :=
  match chunk with
  | [] => Ok (quad, padding)
  | b :: chunk =>
    if b =? PAD then quad_loop chunk (S i) quad (S padding)
    else if (0 <? padding)%nat then Err (InvalidChar b)
    else let? v := decode_char b in quad_loop chunk (S i) (<[i := v]> quad) padding
  end.

(** The bytes one decoded quad contributes. *)
Definition quad_bytes (quad : list Z) (padding : nat) : list Z :=
  let q i := nth i quad 0 in
  let n := Z.lor (Z.lor (Z.lor (Z.shiftl (q 0%nat) 18) (Z.shiftl (q 1%nat) 12))
                        (Z.shiftl (q 2%nat) 6)) (q 3%nat) in
  [wrap 8 (Z.shiftr n 16)] ++
  (if (padding <? 2)%nat then [wrap 8 (Z.shiftr n 8)] else []) ++
  (if (padding <? 1)%nat then [wrap 8 n] else []).

Fixpoint decode_quads (bytes : list Z) (out : list Z) : result (list Z) DecodeError :=
  match bytes with
  | c0 :: c1 :: c2 :: c3 :: rest =>
    let? (quad, padding) := quad_loop [c0; c1; c2; c3] 0 [0; 0; 0; 0] 0 in
    decode_quads rest (out ++ quad_bytes quad padding)
  | _ => Ok out
  end.

Definition decode (bytes : list Z) : result (list Z) DecodeError :=
  if negb (length bytes mod 4 =? 0)%nat then Err InvalidLength else decode_quads bytes [].

(** ** The alphabet *)

Lemma alpha_at_6bit n s : 0 <= s -> 
  alpha_at n s = nth (Z.to_nat ((n / 2 ^ s) mod 64)) ALPHA 0.
Proof.
  intros Hs. unfold alpha_at. change 0x3f with (2 ^ 6 - 1).
  by rewrite land_low, Z.shiftr_div_pow2 by lia.
Qed.

Lemma decode_alpha_all :
  forallb (fun i => match decode_char (nth i ALPHA 0) with
                    | Ok v => (v =? Z.of_nat i) && negb (nth i ALPHA 0 =? PAD)
                    | Err _ => false end) (seq 0 64) = true.
Proof. vm_compute. reflexivity. Qed.

(** The character of a 6-bit value decodes to it and is not the pad. *)
Lemma decode_alpha v :
  0 <= v < 64 ->
  decode_char (nth (Z.to_nat v) ALPHA 0) = Ok v /\ (nth (Z.to_nat v) ALPHA 0 =? PAD) = false.
Proof.
  intros Hv. pose proof (proj1 (forallb_forall _ _) decode_alpha_all (Z.to_nat v)) as H.
  cbn beta in H. destruct (decode_char _) as [v'|e].
  - specialize (H ltac:(apply in_seq; lia)). apply andb_true_iff in H as [H1 H2].
    apply Z.eqb_eq in H1. apply negb_true_iff in H2. rewrite Z2Nat.id in H1 by lia. by subst.
  - specialize (H ltac:(apply in_seq; lia)). discriminate.
Qed.

Definition alpha (v : Z) : Z := nth (Z.to_nat v) ALPHA 0.

Lemma quad_loop_full v0 v1 v2 v3 :
  0 <= v0 < 64 -> 0 <= v1 < 64 -> 0 <= v2 < 64 -> 0 <= v3 < 64 ->
  quad_loop [alpha v0; alpha v1; alpha v2; alpha v3] 0 [0; 0; 0; 0] 0 = Ok ([v0; v1; v2; v3], 0%nat).
Proof.
  intros H0 H1 H2 H3. unfold alpha. cbn [quad_loop].
  destruct (decode_alpha v0 H0) as [-> ->], (decode_alpha v1 H1) as [-> ->].
  destruct (decode_alpha v2 H2) as [-> ->], (decode_alpha v3 H3) as [-> ->]. done.
Qed.

Lemma quad_loop_pad1 v0 v1 v2 :
  0 <= v0 < 64 -> 0 <= v1 < 64 -> 0 <= v2 < 64 ->
  quad_loop [alpha v0; alpha v1; alpha v2; PAD] 0 [0; 0; 0; 0] 0 = Ok ([v0; v1; v2; 0], 1%nat).
Proof.
  intros H0 H1 H2. unfold alpha. cbn [quad_loop].
  destruct (decode_alpha v0 H0) as [-> ->], (decode_alpha v1 H1) as [-> ->].
  destruct (decode_alpha v2 H2) as [-> ->]. done.
Qed.

Lemma quad_loop_pad2 v0 v1 :
  0 <= v0 < 64 -> 0 <= v1 < 64 ->
  quad_loop [alpha v0; alpha v1; PAD; PAD] 0 [0; 0; 0; 0] 0 = Ok ([v0; v1; 0; 0], 2%nat).
Proof.
  intros H0 H1. unfold alpha. cbn [quad_loop].
  destruct (decode_alpha v0 H0) as [-> ->], (decode_alpha v1 H1) as [-> ->]. done.
Qed.

(** ** Recomposing a 24-bit group *)

Lemma group_of_bytes b0 b1 b2 :
  u8 b1 -> u8 b2 -> Z.lor (Z.lor (Z.shiftl b0 16) (Z.shiftl b1 8)) b2 = b0 * 65536 + b1 * 256 + b2.
Proof.
  intros H1 H2. change 16 with (8 + 8). rewrite <- Z.shiftl_shiftl, <- Z.shiftl_lor by lia.
  rewrite (lor_shiftl_add b0 b1 8), lor_shiftl_add by (done || lia). lia.
Qed.

Lemma group_of_sextets v0 v1 v2 v3 :
  0 <= v1 < 64 -> 0 <= v2 < 64 -> 0 <= v3 < 64 ->
  Z.lor (Z.lor (Z.lor (Z.shiftl v0 18) (Z.shiftl v1 12)) (Z.shiftl v2 6)) v3
  = v0 * 262144 + v1 * 4096 + v2 * 64 + v3.
Proof.
  intros H1 H2 H3. change 18 with (6 + 6 + 6). change 12 with (6 + 6).
  rewrite <- !Z.shiftl_shiftl, <- !Z.shiftl_lor by lia.
  rewrite (lor_shiftl_add v0 v1 6), (lor_shiftl_add _ v2 6), lor_shiftl_add by (done || lia). lia.
Qed.

Lemma sextets n :
  0 <= n < 2 ^ 24 ->
  n / 2 ^ 18 mod 64 * 262144 + n / 2 ^ 12 mod 64 * 4096 + n / 2 ^ 6 mod 64 * 64 + n / 2 ^ 0 mod 64 = n.
Proof. intros Hn. simpl Z.pow. change (2 ^ 24) with 16777216 in Hn. zdm. Qed.

Lemma quad_bytes_spec v0 v1 v2 v3 pad :
  0 <= v1 < 64 -> 0 <= v2 < 64 -> 0 <= v3 < 64 ->
  let n := v0 * 262144 + v1 * 4096 + v2 * 64 + v3 in
  quad_bytes [v0; v1; v2; v3] pad =
  [n / 65536 mod 256] ++ (if (pad <? 2)%nat then [n / 256 mod 256] else []) ++
  (if (pad <? 1)%nat then [n mod 256] else []).
Proof.
  intros H1 H2 H3 n. unfold quad_bytes. cbn [nth]. rewrite group_of_sextets by done.
  unfold wrap. rewrite !Z.shiftr_div_pow2 by lia. done.
Qed.

Lemma mod64_range x : 0 <= x mod 64 < 64.
Proof. apply Z.mod_pos_bound. lia. Qed.

(** Induction three bytes at a time, the way [encode] consumes them. *)
Lemma three_ind (P : list Z -> Prop) :
  P [] -> (forall a, P [a]) -> (forall a b, P [a; b]) ->
  (forall a b c l, P l -> P (a :: b :: c :: l)) -> forall l, P l.
Proof.
  intros H0 H1 H2 H3 l. assert (forall n l, (length l < n)%nat -> P l) as H.
  { induction n as [|n IH]; [lia|]. intros [|a [|b [|c l']]] Hl; auto.
    apply H3, IH. simpl in Hl. lia. }
  apply (H (S (length l))). lia.
Qed.

Lemma length_encode input : (length (encode input) mod 4 = 0)%nat.
Proof.
  induction input as [|a|a b|a b c l IH] using three_ind; [reflexivity..|].
  cbn [encode length]. replace (S (S (S (S (length (encode l))))))%nat
    with (length (encode l) + 1 * 4)%nat by lia. by rewrite Nat.Div0.mod_add.
Qed.

Lemma decode_quads_encode input out :
  is_bytes input -> decode_quads (encode input) out = Ok (out ++ input).
Proof.
  revert out. induction input as [|b0|b0 b1|b0 b1 b2 l IH] using three_ind; intros out Hb.
  - cbn. by rewrite app_nil_r.
  - apply Forall_cons in Hb as [H0 _]. destruct H0. change (2 ^ 8) with 256 in *.
    cbn [encode decode_quads]. rewrite !alpha_at_6bit, Z.shiftl_mul_pow2 by lia.
    fold (alpha (b0 * 2 ^ 16 / 2 ^ 18 mod 64)) (alpha (b0 * 2 ^ 16 / 2 ^ 12 mod 64)).
    rewrite quad_loop_pad2 by apply mod64_range. cbn [rbind].
    rewrite quad_bytes_spec by (lia || apply mod64_range). cbn. do 3 f_equal. simpl Z.pow. zdm.
  - apply Forall_cons in Hb as [H0 Hb]. apply Forall_cons in Hb as [H1 _].
    cbn [encode decode_quads].
    pose proof (group_of_bytes b0 b1 0 H1 ltac:(split; lia)) as Hg. rewrite Z.lor_0_r, Z.add_0_r in Hg.
    rewrite Hg. destruct H0, H1. change (2 ^ 8) with 256 in *.
    rewrite !alpha_at_6bit by lia. set (n := b0 * 65536 + b1 * 256) in *.
    fold (alpha (n / 2 ^ 18 mod 64)) (alpha (n / 2 ^ 12 mod 64)) (alpha (n / 2 ^ 6 mod 64)).
    rewrite quad_loop_pad1 by apply mod64_range. cbn [rbind].
    rewrite quad_bytes_spec by (lia || apply mod64_range). cbn. unfold n. simpl Z.pow.
    do 2 f_equal. f_equal; [|f_equal]; zdm.
  - apply Forall_cons in Hb as [H0 Hb]. apply Forall_cons in Hb as [H1 Hb].
    apply Forall_cons in Hb as [H2 Hb]. cbn [encode decode_quads].
    rewrite group_of_bytes by done. destruct H0, H1, H2. change (2 ^ 8) with 256 in *.
    rewrite !alpha_at_6bit by lia. set (n := b0 * 65536 + b1 * 256 + b2) in *.
    fold (alpha (n / 2 ^ 18 mod 64)) (alpha (n / 2 ^ 12 mod 64)) (alpha (n / 2 ^ 6 mod 64))
      (alpha (n / 2 ^ 0 mod 64)).
    rewrite quad_loop_full by apply mod64_range. cbn [rbind].
    rewrite quad_bytes_spec by apply mod64_range.
    rewrite sextets by (unfold n; change (2 ^ 24) with 16777216; lia). cbn.
    rewrite IH by done. rewrite <- app_assoc. cbn. unfold n. do 2 f_equal.
    f_equal; [zdm|f_equal; [zdm|f_equal; zdm]].
Qed.

(** ** Properties *)

(** Base64 round trip.  Decoding the encoding of any byte string gives
    the byte string back. *)
Lemma base64_roundtrip input : is_bytes input -> decode (encode input) = Ok input.
Proof.
  intros Hb. unfold decode. rewrite length_encode. cbn [Nat.eqb negb].
  by apply (decode_quads_encode input []).
Qed.

(** Padding is counted per quad, wherever the quad stands and however much of
    it there is: "====" is one zero byte, and "AA==AA==" is two bytes. *)
Lemma decode_accepts_loose_padding :
  decode [61; 61; 61; 61] = Ok [0] /\
  decode [65; 65; 61; 61; 65; 65; 61; 61] = Ok [0; 0].
Proof. vm_compute. done. Qed.
