(* ===== verification/Mvcc.v ===== *)
(** Row visibility: row headers (crates/spg-storage/src/row_header.rs),
    snapshots (snapshot.rs), the vacuum test (vacuum.rs) and the engine's
    writer-version bookkeeping (crates/spg-engine/src/lib.rs, transaction.rs,
    spg_admin.rs).

    Versions are [u64] that "never wrap" (584 years at one per nanosecond), so
    they are unbounded [Z] here. *)
From S2P Require Import Prelude SortedMap.
Open Scope Z_scope.

(** ** Row headers *)

Definition HEAP_XMIN_FROZEN : Z := 1.
Definition XMAX_ALIVE : Z := 0.
Definition XMIN_FROZEN : Z := 1.

Record RowHeader : Type := mk_header { xmin : Z; xmax : Z; flags : Z }.

Definition frozen : RowHeader := mk_header XMIN_FROZEN XMAX_ALIVE HEAP_XMIN_FROZEN.
Definition alive (xmin : Z) : RowHeader := mk_header xmin XMAX_ALIVE 0.

Definition is_all_visible_fast (h : RowHeader) : bool :=
  (Z.land (flags h) HEAP_XMIN_FROZEN =? HEAP_XMIN_FROZEN) && (xmax h =? XMAX_ALIVE).

Definition is_deleted (h : RowHeader) : bool := negb (xmax h =? XMAX_ALIVE).

(** ** Snapshots *)

Inductive XactStatus : Type := InProgress | Committed | Aborted.

#[export] Instance XactStatus_eq_dec : EqDecision XactStatus.
Proof. solve_decision. Defined.

(** [InProgressSet] is its sorted vector. *)
Record Snapshot : Type := mk_snapshot {
  version : Z;
  in_progress : list Z;
  oldest_active : Z;
  tx_id : Z;
  locked_out : option (Z * list nat)
}.

(** [self.sorted.binary_search(&xid).is_ok()] on a sorted vector. *)
Definition contains (sorted : list Z) (xid : Z) : bool := existsb (Z.eqb xid) sorted.

Definition unbounded : Snapshot := mk_snapshot (2 ^ 64 - 1) [] (2 ^ 64 - 1) 0 None.

Definition snapshot_new (version : Z) (in_progress : list Z) (oldest_active tx_id : Z) : Snapshot :=
  mk_snapshot version in_progress oldest_active tx_id None.

Definition visible (s : Snapshot) (h : RowHeader) : bool :=
  if negb (tx_id s =? 0) && (xmax h =? tx_id s) then false
  else if negb (tx_id s =? 0) && (xmin h =? tx_id s) then true
  else if version s <? xmin h then false
  else if contains (in_progress s) (xmin h) then false
  else if xmax h =? XMAX_ALIVE then true
  else if (version s <? xmax h) || contains (in_progress s) (xmax h) then true
  else false.

Definition visible_with_status (s : Snapshot) (h : RowHeader) (status : Z -> XactStatus) : bool :=
  if negb (tx_id s =? 0) && (xmax h =? tx_id s) then false
  else if negb (tx_id s =? 0) && (xmin h =? tx_id s) then true
  else if negb (Z.land (flags h) HEAP_XMIN_FROZEN =? 0) && (xmax h =? XMAX_ALIVE) then true
  else if version s <? xmin h then false
  else if contains (in_progress s) (xmin h) then false
  else if bool_decide (status (xmin h) = Aborted) then false
  else if xmax h =? XMAX_ALIVE then true
  else if (version s <? xmax h) || contains (in_progress s) (xmax h) then true
  else if bool_decide (status (xmax h) = Aborted) then true
  else false.

Definition AllCommitted (v : Z) : XactStatus := Committed.

Definition is_reclaimable (xmax oldest_active : Z) : bool :=
  negb (xmax =? XMAX_ALIVE) && (xmax <? oldest_active).

(** ** The engine's writer versions *)

(** [GLOBAL_VERSION] and the engine's version fields; [tx_cached] is the
    [cached_snapshot] of every open transaction in [tx_catalogs]. *)
Record Versions : Type := mk_versions {
  GLOBAL_VERSION : Z;
  active_writer_versions : bset Z;
  aborted_versions : bset Z;
  tx_writer_versions : list (Z * Z);
  tx_cached : list (Z * option Snapshot)
}.

Definition initial : Versions := mk_versions (XMIN_FROZEN + 1) [] [] [] [].

Definition current_version (st : Versions) : Z := GLOBAL_VERSION st.

Definition next_version (st : Versions) : Z * Versions :=
  (GLOBAL_VERSION st,
   mk_versions (GLOBAL_VERSION st + 1) (active_writer_versions st) (aborted_versions st)
     (tx_writer_versions st) (tx_cached st)).

(** [saturating_add] does not saturate below [u64::MAX]. *)
Definition observe_persisted_version (v : Z) (st : Versions) : Versions :=
  if v =? XMAX_ALIVE then st
  else mk_versions (Z.max (GLOBAL_VERSION st) (v + 1)) (active_writer_versions st) (aborted_versions st)
         (tx_writer_versions st) (tx_cached st).

Definition begin_writer_version (st : Versions) : Z * Versions :=
  let '(v, st) := next_version st in
  (v, mk_versions (GLOBAL_VERSION st) (bs_insert v (active_writer_versions st)) (aborted_versions st)
        (tx_writer_versions st) (tx_cached st)).

Definition commit_writer_version (v : Z) (st : Versions) : Versions :=
  mk_versions (GLOBAL_VERSION st) (bs_remove v (active_writer_versions st)) (aborted_versions st)
    (tx_writer_versions st) (tx_cached st).

Definition abort_writer_version (v : Z) (st : Versions) : Versions :=
  mk_versions (GLOBAL_VERSION st) (bs_remove v (active_writer_versions st)) (bs_insert v (aborted_versions st))
    (tx_writer_versions st) (tx_cached st).

Definition xact_status (st : Versions) (v : Z) : XactStatus :=
  if bs_mem v (active_writer_versions st) then InProgress
  else if bs_mem v (aborted_versions st) then Aborted
  else Committed.

Definition current_snapshot_inner (st : Versions) (current_tx : option Z) : Snapshot :=
  match (tx ← current_tx; mjoin (sm_lookup tx (tx_cached st))) with
  | Some s => s
  | None =>
    let reader_tx_id := default 0 (tx ← current_tx; sm_lookup tx (tx_writer_versions st)) in
    let version := current_version st in
    match active_writer_versions st with
    | [] => snapshot_new version [] version reader_tx_id
    | _ =>
      let sorted := bs_elems (active_writer_versions st) in
      let oldest := default version (head sorted) in
      snapshot_new version sorted oldest reader_tx_id
    end
  end.

(** [exec_begin]: the version first, then for REPEATABLE READ and
    SERIALIZABLE the cached snapshot.  [None]: already open. *)
Definition exec_begin (tx : Z) (freezes : bool) (st : Versions) : option Versions :=
  if bool_decide (is_Some (sm_lookup tx (tx_cached st))) then None
  else
    let '(v, st) := begin_writer_version st in
    let st := mk_versions (GLOBAL_VERSION st) (active_writer_versions st) (aborted_versions st)
                (sm_insert tx v (tx_writer_versions st)) (tx_cached st) in
    let cached_snapshot := if freezes then Some (current_snapshot_inner st (Some tx)) else None in
    Some (mk_versions (GLOBAL_VERSION st) (active_writer_versions st) (aborted_versions st)
            (tx_writer_versions st) (sm_insert tx cached_snapshot (tx_cached st))).

(** [tx_catalogs.remove(&tx_id)], which every way of ending a transaction
    does first. *)
Definition forget_tx (tx : Z) (st : Versions) : Versions :=
  mk_versions (GLOBAL_VERSION st) (active_writer_versions st) (aborted_versions st)
    (tx_writer_versions st) (sm_remove tx (tx_cached st)).

(** [if let Some(v) = self.tx_writer_versions.remove(&tx_id)]. *)
Definition take_version (tx : Z) (st : Versions) : option (Z * Versions) :=
  v ← sm_lookup tx (tx_writer_versions st);
  Some (v, mk_versions (GLOBAL_VERSION st) (active_writer_versions st) (aborted_versions st)
             (sm_remove tx (tx_writer_versions st)) (tx_cached st)).

(** The version side of a successful [exec_commit]. *)
Definition commit_tx (tx : Z) (st : Versions) : Versions :=
  match take_version tx (forget_tx tx st) with
  | Some (v, st) => commit_writer_version v st
  | None => forget_tx tx st
  end.

(** The version side of a rollback, a failed commit and a caught panic. *)
Definition discard_tx (tx : Z) (st : Versions) : Versions :=
  match take_version tx (forget_tx tx st) with
  | Some (v, st) => abort_writer_version v st
  | None => forget_tx tx st
  end.

Definition vacuum_oldest_active (st : Versions) : Z :=
  let floor := current_version st in
  let floor :=
    match bs_first (active_writer_versions st) with
    | Some min_writer => Z.min floor min_writer
    | None => floor
    end in
  fold_left (fun floor c => match c.2 with Some s => Z.min floor (version s) | None => floor end)
    (tx_cached st) floor.

(** What can happen to the versions: transactions begin and end, an
    autocommit statement takes a version it never registers, a restored image
    is observed. *)
Inductive vstep : Versions -> Versions -> Prop :=
| step_begin tx freezes st st' : exec_begin tx freezes st = Some st' -> vstep st st'
| step_commit tx st : vstep st (commit_tx tx st)
| step_discard tx st : vstep st (discard_tx tx st)
| step_autocommit st : vstep st (next_version st).2
| step_observe v st : vstep st (observe_persisted_version v st).

Definition reachable : Versions -> Prop := rtc vstep initial.

(** ** The visibility rule *)

Lemma contains_spec l x : contains l x = true <-> x ∈ l.
Proof.
  unfold contains. rewrite existsb_exists. setoid_rewrite Z.eqb_eq. setoid_rewrite <- list_elem_of_In. naive_solver.
Qed.

Lemma contains_false l x : contains l x = false <-> x ∉ l.
Proof. rewrite <- contains_spec. by destruct (contains l x). Qed.

(** A version whose effects the snapshot takes into account: its own, or one
    below the horizon that was not in flight and did not abort. *)
Definition effective (s : Snapshot) (status : Z -> XactStatus) (v : Z) : Prop :=
  (tx_id s <> 0 /\ v = tx_id s) \/
  (v <= version s /\ v ∉ in_progress s /\ status v <> Aborted).

(** Nobody but its inserter deletes a row of an open transaction. *)
Definition own_row (s : Snapshot) (h : RowHeader) : Prop :=
  tx_id s <> 0 -> xmin h = tx_id s -> xmax h = XMAX_ALIVE \/ xmax h = tx_id s.

(** A frozen header's [xmin] is old and committed for the snapshot. *)
Definition frozen_ok (s : Snapshot) (status : Z -> XactStatus) (h : RowHeader) : Prop :=
  Z.land (flags h) HEAP_XMIN_FROZEN <> 0 -> effective s status (xmin h).

(** [effective] as the code's tests. *)
Definition effectiveb (s : Snapshot) (status : Z -> XactStatus) (v : Z) : bool :=
  negb (tx_id s =? 0) && (v =? tx_id s) ||
  negb (version s <? v) && negb (contains (in_progress s) v) && negb (bool_decide (status v = Aborted)).

Lemma effectiveb_spec s status v : effectiveb s status v = true <-> effective s status v.
Proof.
  unfold effectiveb, effective.
  rewrite orb_true_iff, !andb_true_iff, !negb_true_iff, Z.eqb_neq, Z.eqb_eq, Z.ltb_ge, contains_false, bool_decide_eq_false.
  tauto.
Qed.

Lemma visible_with_status_bool s h status :
  own_row s h -> frozen_ok s status h ->
  visible_with_status s h status =
  effectiveb s status (xmin h) && negb (negb (xmax h =? XMAX_ALIVE) && effectiveb s status (xmax h)).
Proof.
  intros Hown Hfrozen. unfold frozen_ok in Hfrozen. rewrite <- effectiveb_spec in Hfrozen.
  assert (Ho : (tx_id s =? 0) = false -> (xmin h =? tx_id s) = true -> (xmax h =? XMAX_ALIVE) = true \/ (xmax h =? tx_id s) = true)
    by (rewrite Z.eqb_neq, !Z.eqb_eq; apply Hown).
  assert (Hg : (tx_id s =? 0) = false -> (xmax h =? XMAX_ALIVE) = true -> (xmax h =? tx_id s) = false)
    by (unfold XMAX_ALIVE; rewrite !Z.eqb_neq, Z.eqb_eq; lia).
  assert (Hf : (Z.land (flags h) HEAP_XMIN_FROZEN =? 0) = false -> effectiveb s status (xmin h) = true)
    by (rewrite Z.eqb_neq; exact Hfrozen).
  clear Hown Hfrozen. unfold visible_with_status, effectiveb in *.
  destruct (tx_id s =? 0), (xmax h =? tx_id s), (xmin h =? tx_id s), (xmax h =? XMAX_ALIVE); cbn in *;
    try (by specialize (Hg eq_refl eq_refl)); try (by destruct (Ho eq_refl eq_refl));
    destruct (Z.land (flags h) HEAP_XMIN_FROZEN =? 0), (version s <? xmin h), (contains (in_progress s) (xmin h)),
      (bool_decide (status (xmin h) = Aborted)); cbn in *; try (by specialize (Hf eq_refl)); try done;
    destruct (version s <? xmax h), (contains (in_progress s) (xmax h)), (bool_decide (status (xmax h) = Aborted)); done.
Qed.

Lemma visible_is_all_committed s h :
  visible s h = visible_with_status s (mk_header (xmin h) (xmax h) 0) AllCommitted.
Proof.
  unfold visible, visible_with_status, AllCommitted. cbn [xmin xmax flags]. rewrite Z.land_0_l. cbn [Z.eqb negb andb].
  rewrite !bool_decide_eq_false_2 by done. done.
Qed.

(** ** The invariant of the version bookkeeping *)

(** A snapshot somebody holds: taken at a cursor the engine has reached, its
    in-flight versions below that cursor. *)
Definition snapshot_ok (st : Versions) (s : Snapshot) : Prop :=
  2 <= version s <= GLOBAL_VERSION st /\
  Forall (fun v => 2 <= v < version s) (in_progress s) /\
  (forall v, 2 <= v < version s -> v ∉ in_progress s -> xact_status st v <> InProgress).

Record versions_ok (st : Versions) : Prop := {
  ok_cursor : 2 <= GLOBAL_VERSION st;
  ok_active : sorted (active_writer_versions st);
  ok_aborted : sorted (aborted_versions st);
  ok_writers : sorted (tx_writer_versions st);
  ok_cached : sorted (tx_cached st);
  ok_bounds v : bs_mem v (active_writer_versions st) = true -> 2 <= v < GLOBAL_VERSION st;
  ok_aborted_bounds v : bs_mem v (aborted_versions st) = true -> 2 <= v < GLOBAL_VERSION st;
  ok_owner v : bs_mem v (active_writer_versions st) = true <->
               exists tx, sm_lookup tx (tx_writer_versions st) = Some v;
  ok_dom tx : is_Some (sm_lookup tx (tx_writer_versions st)) <-> is_Some (sm_lookup tx (tx_cached st));
  ok_inj tx tx' v : sm_lookup tx (tx_writer_versions st) = Some v ->
                    sm_lookup tx' (tx_writer_versions st) = Some v -> tx = tx';
  ok_snapshots tx s : sm_lookup tx (tx_cached st) = Some (Some s) -> snapshot_ok st s
}.

Lemma initial_ok : versions_ok initial.
Proof.
  split; cbn; try (by constructor); try done.
  intros v. split; [done|by intros (tx & [=])].
Qed.

Lemma status_InProgress st v : xact_status st v = InProgress <-> bs_mem v (active_writer_versions st) = true.
Proof. unfold xact_status. destruct (bs_mem v (active_writer_versions st)), (bs_mem v (aborted_versions st)); naive_solver. Qed.

(** What a step does to the status of a version: the finished stay as they
    are, and only the next version can start. *)
Definition status_step (st st' : Versions) : Prop :=
  GLOBAL_VERSION st <= GLOBAL_VERSION st' /\
  forall v, v < GLOBAL_VERSION st -> xact_status st v <> InProgress -> xact_status st' v = xact_status st v.

Lemma status_step_refl st : status_step st st.
Proof. split; [lia|done]. Qed.

Lemma status_step_trans a b c : status_step a b -> status_step b c -> status_step a c.
Proof.
  intros [H1 H2] [H3 H4]. split; [lia|]. intros v Hv Hs. rewrite <- (H2 v Hv Hs).
  apply H4; [lia|]. by rewrite H2.
Qed.

Lemma snapshot_ok_step st st' s : status_step st st' -> snapshot_ok st s -> snapshot_ok st' s.
Proof.
  intros [Hc Hf] (Hv & Hin & Hfin). split_and!; [lia..|done|].
  intros v Hr Hni. rewrite Hf by (lia || by apply Hfin). by apply Hfin.
Qed.

Lemma current_snapshot_fresh st tx s :
  2 <= GLOBAL_VERSION st -> (forall v, bs_mem v (active_writer_versions st) = true -> 2 <= v < GLOBAL_VERSION st) ->
  (forall t s', tx = Some t -> sm_lookup t (tx_cached st) <> Some (Some s')) ->
  current_snapshot_inner st tx = s ->
  version s = GLOBAL_VERSION st /\
  in_progress s = bs_elems (active_writer_versions st) /\
  tx_id s = default 0 (t ← tx; sm_lookup t (tx_writer_versions st)) /\
  snapshot_ok st s.
Proof.
  intros Hcur Hb Hno <-.
  assert (Hc : (t ← tx; mjoin (sm_lookup t (tx_cached st))) = None).
  { destruct tx as [t|]; [|done]. cbn. specialize (Hno t). destruct (sm_lookup t (tx_cached st)) as [[s'|]|]; try done.
    by edestruct Hno. }
  unfold current_snapshot_inner. rewrite Hc.
  assert (Hin : Forall (fun v => 2 <= v < GLOBAL_VERSION st) (bs_elems (active_writer_versions st))).
  { apply Forall_forall. intros v Hv%bs_mem_elems. by apply Hb. }
  assert (Hfin : forall v, v ∉ bs_elems (active_writer_versions st) -> xact_status st v <> InProgress).
  { intros v Hv E%status_InProgress%bs_mem_elems. done. }
  unfold snapshot_ok, current_version, snapshot_new.
  destruct (active_writer_versions st) as [|e l] eqn:E; cbn [version in_progress tx_id]; split_and!; try done; try lia;
    intros v _ Hv; by apply Hfin.
Qed.

(** *** Beginning a transaction *)

(** The state in which [exec_begin] takes its snapshot. *)
Definition begun (tx : Z) (st : Versions) : Versions :=
  mk_versions (GLOBAL_VERSION st + 1) (bs_insert (GLOBAL_VERSION st) (active_writer_versions st)) (aborted_versions st)
    (sm_insert tx (GLOBAL_VERSION st) (tx_writer_versions st)) (tx_cached st).

Lemma exec_begin_unfold tx freezes st st' :
  exec_begin tx freezes st = Some st' ->
  sm_lookup tx (tx_cached st) = None /\ st' = mk_versions (GLOBAL_VERSION (begun tx st)) (active_writer_versions (begun tx st)) (aborted_versions st)
          (tx_writer_versions (begun tx st))
          (sm_insert tx (if freezes then Some (current_snapshot_inner (begun tx st) (Some tx)) else None) (tx_cached st)).
Proof.
  unfold exec_begin. case_bool_decide as E; [done|]. intros [= <-].
  split; [by apply eq_None_not_Some|done].
Qed.

Lemma begun_status tx st : versions_ok st -> status_step st (begun tx st).
Proof.
  intros Hok. split; [cbn; lia|]. intros v Hv Hs. unfold xact_status. cbn.
  rewrite status_InProgress in Hs. destruct (bs_mem v (bs_insert _ _)) eqn:E.
  - apply bs_mem_insert in E as [->|E]; [lia|done|apply (ok_active st Hok)].
  - by destruct (bs_mem v (active_writer_versions st)).
Qed.

(** A writer version just begun belongs to [tx] and nobody else. *)
Lemma begun_writer tx st t v :
  versions_ok st -> sm_lookup tx (tx_cached st) = None ->
  sm_lookup t (tx_writer_versions (begun tx st)) = Some v <->
  (t = tx /\ v = GLOBAL_VERSION st) \/ (t <> tx /\ sm_lookup t (tx_writer_versions st) = Some v).
Proof.
  intros Hok Hno. cbn. rewrite sm_lookup_insert_dec by apply (ok_writers st Hok). case_decide; naive_solver.
Qed.

Lemma begun_fresh tx st :
  versions_ok st -> sm_lookup tx (tx_cached st) = None -> sm_lookup tx (tx_writer_versions st) = None.
Proof.
  intros Hok Hno. apply eq_None_not_Some. rewrite (ok_dom st Hok), Hno. by intros [? [=]].
Qed.

Lemma writer_bounds st t v : versions_ok st -> sm_lookup t (tx_writer_versions st) = Some v -> 2 <= v < GLOBAL_VERSION st.
Proof. intros Hok H. apply (ok_bounds st Hok), (ok_owner st Hok). eauto. Qed.

(** Everything about [begun tx st] but the domain of the cached snapshots,
    which [exec_begin] extends next. *)
Lemma begun_ok_with tx st cached :
  versions_ok st -> sm_lookup tx (tx_cached st) = None ->
  (forall s, cached = Some s -> snapshot_ok (begun tx st) s) ->
  versions_ok (mk_versions (GLOBAL_VERSION (begun tx st)) (active_writer_versions (begun tx st)) (aborted_versions st)
                 (tx_writer_versions (begun tx st)) (sm_insert tx cached (tx_cached st))).
Proof.
  intros Hok Hno Hc. pose proof (ok_cursor st Hok).
  assert (Hw := fun t v => begun_writer tx st t v Hok Hno).
  assert (Hfresh := begun_fresh tx st Hok Hno).
  assert (Hmem : forall v, bs_mem v (active_writer_versions (begun tx st)) = true <->
                  v = GLOBAL_VERSION st \/ bs_mem v (active_writer_versions st) = true)
    by (intros v; apply bs_mem_insert, (ok_active st Hok)).
  split; cbn -[begun] in *.
  - cbn. lia.
  - apply bs_insert_sorted, (ok_active st Hok).
  - apply (ok_aborted st Hok).
  - apply sm_insert_sorted, (ok_writers st Hok).
  - apply sm_insert_sorted, (ok_cached st Hok).
  - intros v [->|E]%Hmem; cbn; [lia|]. apply (ok_bounds st Hok) in E. lia.
  - intros v E%(ok_aborted_bounds st Hok). cbn. lia.
  - intros v. rewrite Hmem, (ok_owner st Hok). split.
    + intros [->|[t Ht]]; [exists tx|exists t]; apply Hw; [by left|right]. naive_solver.
    + intros [t [[-> ->]|[? ?]]%Hw]; eauto.
  - intros t. cbn. rewrite !sm_lookup_insert_dec by apply Hok. case_decide; [split; eauto|apply (ok_dom st Hok)].
  - intros t t' v [[-> ->]|[? E]]%Hw [[-> E']|[? ?]]%Hw; try done.
    + eapply writer_bounds in H1; [|done]. lia.
    + eapply writer_bounds in E; [|done]. lia.
    + by eapply (ok_inj st Hok).
  - intros t s. rewrite sm_lookup_insert_dec by apply (ok_cached st Hok). case_decide.
    + intros [= Hs]. by apply (Hc s).
    + intros Hs%(ok_snapshots st Hok). apply (snapshot_ok_step st); [|done]. apply (begun_status tx st Hok).
Qed.

Lemma exec_begin_step tx freezes st st' :
  versions_ok st -> exec_begin tx freezes st = Some st' -> versions_ok st' /\ status_step st st'.
Proof.
  intros Hok [Hno ->]%exec_begin_unfold. split; [|apply (begun_status tx st Hok)].
  apply begun_ok_with; [done..|]. intros s Hs. destruct freezes; [injection Hs as Hs|done].
  pose proof (ok_cursor st Hok). eapply (current_snapshot_fresh (begun tx st) (Some tx) s); [cbn; lia| | |exact Hs].
  - intros v [->|Hv%(ok_bounds st Hok)]%bs_mem_insert; [cbn; lia..|apply (ok_active st Hok)].
  - intros t s' [= <-]. cbn. by rewrite Hno.
Qed.

(** *** Ending a transaction *)

Lemma end_step tx v st ab :
  versions_ok st -> sm_lookup tx (tx_writer_versions st) = Some v ->
  ab = aborted_versions st \/ ab = bs_insert v (aborted_versions st) ->
  let st' := mk_versions (GLOBAL_VERSION st) (bs_remove v (active_writer_versions st)) ab
               (sm_remove tx (tx_writer_versions st)) (sm_remove tx (tx_cached st)) in
  versions_ok st' /\ status_step st st'.
Proof.
  intros Hok Hv Hab st'. assert (Hbv := writer_bounds st tx v Hok Hv).
  assert (Hact : bs_mem v (active_writer_versions st) = true) by (apply (ok_owner st Hok); eauto).
  assert (Hmem : forall w, bs_mem w (active_writer_versions st') = true <->
            w <> v /\ bs_mem w (active_writer_versions st) = true) by (intros w; apply bs_mem_remove, (ok_active st Hok)).
  assert (Hmab : forall w, bs_mem w ab = true -> w = v \/ bs_mem w (aborted_versions st) = true).
  { intros w. destruct Hab as [->| ->]; [by right|]. apply bs_mem_insert, (ok_aborted st Hok). }
  assert (Hmab' : forall w, w <> v -> bs_mem w ab = bs_mem w (aborted_versions st)).
  { intros w Hw. destruct Hab as [->| ->]; [done|]. apply eq_true_iff_eq.
    rewrite bs_mem_insert by apply (ok_aborted st Hok). tauto. }
  assert (Hst : status_step st st').
  { split; [cbn; lia|]. intros w Hw Hs. rewrite status_InProgress in Hs.
    assert (Hwv : w <> v) by congruence. unfold xact_status. cbn [aborted_versions st']. rewrite Hmab' by done.
    destruct (bs_mem w (active_writer_versions st')) eqn:E; [apply Hmem in E as [_ ?]; done|].
    by destruct (bs_mem w (active_writer_versions st)). }
  split; [|done]. subst st'. split; cbn in *.
  - apply (ok_cursor st Hok).
  - apply bs_remove_sorted, (ok_active st Hok).
  - destruct Hab as [->| ->]; [|apply bs_insert_sorted]; apply (ok_aborted st Hok).
  - apply sm_remove_sorted, (ok_writers st Hok).
  - apply sm_remove_sorted, (ok_cached st Hok).
  - intros w [_ ?]%Hmem. by apply (ok_bounds st Hok).
  - intros w [->|?]%Hmab; [done|by apply (ok_aborted_bounds st Hok)].
  - intros w. rewrite Hmem, (ok_owner st Hok). setoid_rewrite sm_lookup_remove_dec; [|apply (ok_writers st Hok)]. split.
    + intros [Hne [t Ht]]. exists t. case_decide; [congruence|done].
    + intros [t Ht]. case_decide; [done|]. split; [|eauto]. intros ->. by pose proof (ok_inj st Hok _ _ _ Hv Ht).
  - intros t. rewrite !sm_lookup_remove_dec by apply Hok. case_decide; [split; intros []; done|apply (ok_dom st Hok)].
  - intros t t' w. rewrite !sm_lookup_remove_dec by apply Hok. do 2 case_decide; try done. apply (ok_inj st Hok).
  - intros t s. rewrite sm_lookup_remove_dec by apply Hok. case_decide; [done|].
    intros Hs%(ok_snapshots st Hok). by eapply snapshot_ok_step.
Qed.

(** A transaction with no version is not open at all. *)
Lemma forget_closed tx st :
  versions_ok st -> sm_lookup tx (tx_writer_versions st) = None -> forget_tx tx st = st.
Proof.
  intros Hok Hno. unfold forget_tx. rewrite sm_lookup_None_remove; [by destruct st|].
  apply eq_None_not_Some. rewrite <- (ok_dom st Hok), Hno. by intros [? [=]].
Qed.

Lemma vstep_ok st st' : vstep st st' -> versions_ok st -> versions_ok st' /\ status_step st st'.
Proof.
  assert (Hmore : forall st c, versions_ok st -> GLOBAL_VERSION st <= c ->
            let st' := mk_versions c (active_writer_versions st) (aborted_versions st) (tx_writer_versions st) (tx_cached st) in
            versions_ok st' /\ status_step st st').
  { intros x c Hok Hc x'. assert (Hst : status_step x x') by (by split). split; [|done].
    split; cbn; [pose proof (ok_cursor x Hok); lia|apply Hok|apply Hok|apply Hok|apply Hok| | |apply Hok|apply Hok|apply Hok|].
    - intros v ?%(ok_bounds x Hok). lia.
    - intros v ?%(ok_aborted_bounds x Hok). lia.
    - intros t s ?%(ok_snapshots x Hok). by eapply snapshot_ok_step. }
  intros [tx freezes x x' Hb|tx x|tx x|x|v x] Hok.
  - by eapply exec_begin_step.
  - unfold commit_tx, take_version. cbn [tx_writer_versions forget_tx].
    destruct (sm_lookup tx (tx_writer_versions x)) as [v|] eqn:E; cbn [mbind option_bind].
    + eapply (end_step tx v x); eauto.
    + rewrite forget_closed by done. split; [done|apply status_step_refl].
  - unfold discard_tx, take_version. cbn [tx_writer_versions forget_tx].
    destruct (sm_lookup tx (tx_writer_versions x)) as [v|] eqn:E; cbn [mbind option_bind].
    + eapply (end_step tx v x); eauto.
    + rewrite forget_closed by done. split; [done|apply status_step_refl].
  - apply Hmore; [done|lia].
  - unfold observe_persisted_version. case_if; [split; [done|apply status_step_refl]|]. apply Hmore; [done|lia].
Qed.

Lemma vsteps_ok st st' : rtc vstep st st' -> versions_ok st -> versions_ok st' /\ status_step st st'.
Proof.
  induction 1 as [x|x y z Hxy _ IH]; intros Hok; [split; [done|apply status_step_refl]|].
  destruct (vstep_ok x y Hxy Hok) as [Hy Hxy']. destruct (IH Hy) as [Hz Hyz].
  split; [done|by eapply status_step_trans].
Qed.

Lemma reachable_ok st : reachable st -> versions_ok st.
Proof. intros H. apply (vsteps_ok initial st H initial_ok). Qed.

(** *** The vacuum floor *)

Lemma fold_floor (l : list (Z * option Snapshot)) f :
  let g := fold_left (fun floor c => match c.2 with Some s => Z.min floor (version s) | None => floor end) l f in
  g <= f /\ forall tx s, (tx, Some s) ∈ l -> g <= version s.
Proof.
  revert f. induction l as [|[t c] l IH]; intros f; cbn; [split; [lia|by intros ?? ?%elem_of_nil]|].
  destruct (IH (match c with Some s => Z.min f (version s) | None => f end)) as [H1 H2]. split.
  - destruct c; lia.
  - intros tx s [[= -> <-]|Hin]%elem_of_cons; [lia|by apply (H2 tx)].
Qed.

Lemma floor_bounds st v :
  versions_ok st -> v < vacuum_oldest_active st ->
  v < GLOBAL_VERSION st /\ bs_mem v (active_writer_versions st) = false.
Proof.
  intros Hok Hv. unfold vacuum_oldest_active in Hv. destruct (fold_floor (tx_cached st)
    (match bs_first (active_writer_versions st) with Some m => Z.min (current_version st) m | None => current_version st end)) as [Hf _].
  unfold current_version in *. destruct (bs_first (active_writer_versions st)) as [m|] eqn:E.
  - split; [lia|]. apply not_true_is_false. intros Hm%bs_mem_elems.
    destruct (bs_first_min _ _ _ (ok_active st Hok) E Hm) as [->|Hlt]; [lia|]. change (m < v)%Z in Hlt. lia.
  - apply bs_first_None in E. rewrite E. split; [lia|done].
Qed.

(** A version in flight later was in flight already, or begins later. *)
Lemma active_later st st' v :
  status_step st st' -> bs_mem v (active_writer_versions st') = true -> v < GLOBAL_VERSION st ->
  bs_mem v (active_writer_versions st) = true.
Proof.
  intros [_ Hf] Hv Hlt. rewrite <- status_InProgress in *.
  destruct (decide (xact_status st v = InProgress)) as [|Hne]; [done|]. by rewrite (Hf v Hlt Hne) in Hv.
Qed.

(** ** What readers see *)

(** The visibility rule of [Snapshot::visible_with_status]: a row is
    visible exactly when its inserter counts for the snapshot and its deleter,
    if any, does not, where a version counts when it is the reader's own or is
    at or below the snapshot's version, was not in flight and did not abort.
    The two provisos are that an open transaction's rows are deleted by nobody
    else and that a frozen [xmin] counts. *)
Lemma visible_with_status_spec s h status :
  own_row s h -> frozen_ok s status h ->
  visible_with_status s h status = true <->
  effective s status (xmin h) /\ ~ (xmax h <> XMAX_ALIVE /\ effective s status (xmax h)).
Proof.
  intros Hown Hfrozen. rewrite visible_with_status_bool by done.
  rewrite andb_true_iff, negb_true_iff, <- not_true_iff_false, andb_true_iff, negb_true_iff, Z.eqb_neq, !effectiveb_spec. done.
Qed.

(** The versions whose effects transaction [tx] must see. *)
Definition seen (st : Versions) (tx v : Z) : Prop :=
  sm_lookup tx (tx_writer_versions st) = Some v \/ xact_status st v = Committed.

Definition no_frozen_view (st : Versions) (tx : Z) : Prop := forall s, sm_lookup tx (tx_cached st) <> Some (Some s).

Lemma fresh_effective st tx v :
  versions_ok st -> no_frozen_view st tx -> v < GLOBAL_VERSION st ->
  effective (current_snapshot_inner st (Some tx)) (xact_status st) v <-> seen st tx v.
Proof.
  intros Hok Hno Hv.
  destruct (current_snapshot_fresh st (Some tx) _ (ok_cursor st Hok) (ok_bounds st Hok)
              ltac:(intros t s' [= <-]; apply Hno) eq_refl) as (Hver & Hin & Hid & _).
  unfold effective, seen. rewrite Hver, Hin, Hid, <- bs_mem_elems, <- status_InProgress. cbn.
  destruct (sm_lookup tx (tx_writer_versions st)) as [w|] eqn:E; cbn.
  - assert (Hw := writer_bounds st tx w Hok E). split.
    + intros [[_ ->]|(_ & H1 & H2)]; [by left|right]. by destruct (xact_status st v).
    + intros [[= ->]|H]; [left; split; [lia|done]|right]. rewrite H. split_and!; (lia || done).
  - split.
    + intros [[? _]|(_ & H1 & H2)]; [done|right]. by destruct (xact_status st v).
    + intros [[=]|H]. right. rewrite H. split_and!; (lia || done).
Qed.

(** C3: in every reachable state a transaction without a frozen view sees
    exactly its own writes and those of committed transactions: a row is
    visible when its inserter is seen and its deleter, if any, is not. *)
Theorem fresh_snapshot_isolates st tx h :
  reachable st -> no_frozen_view st tx ->
  xmin h < current_version st -> xmax h < current_version st ->
  own_row (current_snapshot_inner st (Some tx)) h ->
  (Z.land (flags h) HEAP_XMIN_FROZEN <> 0 -> seen st tx (xmin h)) ->
  visible_with_status (current_snapshot_inner st (Some tx)) h (xact_status st) = true <->
  seen st tx (xmin h) /\ ~ (xmax h <> XMAX_ALIVE /\ seen st tx (xmax h)).
Proof.
  intros Hr%reachable_ok Hno Hmin Hmax Hown Hfr. rewrite visible_with_status_bool; [|done|].
  - rewrite andb_true_iff, negb_true_iff, <- not_true_iff_false, andb_true_iff, negb_true_iff, Z.eqb_neq, !effectiveb_spec.
    by rewrite !fresh_effective.
  - intros Hf%Hfr. by apply fresh_effective.
Qed.

(** A history: writer 7 (version 2) is open when transaction 8 (version 3)
    freezes its view, and then commits. *)
Definition begin_or_stay (tx : Z) (freezes : bool) (st : Versions) : Versions := default st (exec_begin tx freezes st).

Definition overlap : Versions := begin_or_stay 8 true (begin_or_stay 7 false initial).
Definition overlap_committed : Versions := commit_tx 7 overlap.

Lemma begin_or_stay_reachable tx freezes st : reachable st -> reachable (begin_or_stay tx freezes st).
Proof.
  intros H. unfold begin_or_stay. destruct (exec_begin tx freezes st) as [st'|] eqn:E; [|done].
  eapply rtc_r; [exact H|by eapply step_begin].
Qed.

Lemma overlap_reachable : reachable overlap.
Proof. do 2 apply begin_or_stay_reachable. apply rtc_refl. Qed.

Lemma overlap_commits : rtc vstep overlap overlap_committed.
Proof. apply rtc_once, step_commit. Qed.

Lemma overlap_committed_reachable : reachable overlap_committed.
Proof. unfold reachable. etrans; [apply overlap_reachable|apply overlap_commits]. Qed.

Lemma fresh_snapshot_isolates_witness :
  visible_with_status (current_snapshot_inner overlap_committed (Some 9)) (mk_header 2 3 0) (xact_status overlap_committed) = true <->
  seen overlap_committed 9 2 /\ ~ (3 <> XMAX_ALIVE /\ seen overlap_committed 9 3).
Proof.
  apply (fresh_snapshot_isolates overlap_committed 9 (mk_header 2 3 0)).
  - exact overlap_committed_reachable.
  - intros s. by vm_compute.
  - done.
  - done.
  - intros H. by destruct H.
  - intros H. by destruct H.
Defined.

(** A frozen view is frozen: whatever transactions begin, commit and abort
    after a REPEATABLE READ snapshot was taken, it answers the same for every
    row not stamped with the very next version to be allocated. *)
Lemma frozen_view_stable st st' tx s h :
  reachable st -> sm_lookup tx (tx_cached st) = Some (Some s) -> rtc vstep st st' ->
  xmin h <> version s -> xmax h <> version s ->
  visible_with_status s h (xact_status st') = visible_with_status s h (xact_status st).
Proof.
  intros Hok%reachable_ok Hs Hsteps Hmin Hmax.
  destruct (vsteps_ok _ _ Hsteps Hok) as [_ [_ Hf]].
  destruct (ok_snapshots st Hok tx s Hs) as ([Hv1 Hv2] & _ & Hfin).
  assert (Heq : forall v, v <> version s -> (version s <? v) = false -> contains (in_progress s) v = false ->
                 xact_status st' v = xact_status st v).
  { intros v Hne Hv%Z.ltb_ge Hc%contains_false. apply Hf; [lia|]. destruct (decide (2 <= v)); [apply Hfin; [lia|done]|].
    intros Hact%status_InProgress%(ok_bounds st Hok). lia. }
  unfold visible_with_status.
  destruct (version s <? xmin h) eqn:E1, (contains (in_progress s) (xmin h)) eqn:E2; try done.
  rewrite (Heq (xmin h)) by done.
  destruct (version s <? xmax h) eqn:E3, (contains (in_progress s) (xmax h)) eqn:E4; try done.
  by rewrite (Heq (xmax h)) by done.
Qed.

(** C29: vacuum is safe for every reader without a frozen view, now and after
    any further steps: a row whose deletion is below the vacuum floor, did not
    abort and is not older than its insertion is invisible to it. *)
Theorem vacuum_safe st st' tx h :
  reachable st -> rtc vstep st st' ->
  is_reclaimable (xmax h) (vacuum_oldest_active st) = true ->
  xmin h <= xmax h -> xact_status st (xmax h) <> Aborted -> no_frozen_view st' tx ->
  visible_with_status (current_snapshot_inner st' (Some tx)) h (xact_status st') = false.
Proof.
  intros Hok%reachable_ok Hsteps [Hz Hfl]%andb_true_iff Hle Hab Hno. rewrite Z.ltb_lt in Hfl.
  destruct (vsteps_ok _ _ Hsteps Hok) as [Hok' Hst]. pose proof Hst as [Hc Hf].
  destruct (floor_bounds st _ Hok Hfl) as [Hx Hact].
  assert (Hcom : xact_status st' (xmax h) = Committed).
  { assert (xact_status st (xmax h) <> InProgress) by (rewrite status_InProgress; congruence).
    rewrite Hf by done. by destruct (xact_status st (xmax h)). }
  assert (Hgone : effectiveb (current_snapshot_inner st' (Some tx)) (xact_status st') (xmax h) = true).
  { apply effectiveb_spec, fresh_effective; [done..|lia|by right]. }
  destruct (current_snapshot_fresh st' (Some tx) _ (ok_cursor st' Hok') (ok_bounds st' Hok')
              ltac:(intros t s' [= <-]; apply Hno) eq_refl) as (_ & _ & Hid & _).
  assert (Hnotown : (tx_id (current_snapshot_inner st' (Some tx)) =? 0) = false ->
                    (xmin h =? tx_id (current_snapshot_inner st' (Some tx))) = false).
  { rewrite Hid. cbn. destruct (sm_lookup tx (tx_writer_versions st')) as [w|] eqn:E; cbn; [|done]. intros _. apply Z.eqb_neq.
    intros Hw. assert (Ha : bs_mem w (active_writer_versions st') = true) by (apply (ok_owner st' Hok'); eauto).
    destruct (floor_bounds st w Hok ltac:(lia)) as [Hw1 Hw2]. by rewrite (active_later st st' w) in Hw2. }
  apply negb_true_iff in Hz. unfold visible_with_status. unfold effectiveb in Hgone. rewrite Hz, andb_false_r.
  set (s := current_snapshot_inner st' (Some tx)) in *.
  clearbody s. clear -Hgone Hnotown.
  destruct (tx_id s =? 0), (xmax h =? tx_id s), (xmin h =? tx_id s); cbn in *; try done; try (by specialize (Hnotown eq_refl));
    destruct (version s <? xmin h), (contains (in_progress s) (xmin h)), (bool_decide (xact_status st' (xmin h) = Aborted)); try done;
    destruct (version s <? xmax h), (contains (in_progress s) (xmax h)), (bool_decide (xact_status st' (xmax h) = Aborted)); done.
Qed.

Lemma vacuum_safe_witness :
  visible_with_status (current_snapshot_inner overlap_committed (Some 9)) (mk_header 1 2 0) (xact_status overlap_committed) = false.
Proof.
  apply (vacuum_safe overlap_committed overlap_committed 9 (mk_header 1 2 0)).
  - exact overlap_committed_reachable.
  - apply rtc_refl.
  - by vm_compute.
  - done.
  - done.
  - intros s. by vm_compute.
Defined.

(** The exception of the frozen view: [Snapshot.version] is the cursor
    itself, the version the next writer receives, and the rule excludes only
    what is above it, so the rows of a writer that begins right after a
    snapshot was taken are visible to it while that writer is still open. *)
Lemma snapshot_sees_next_writer st reader tx freezes st' :
  reachable st -> no_frozen_view st reader -> exec_begin tx freezes st = Some st' ->
  let h := alive (current_version st) in
  xact_status st' (xmin h) = InProgress /\
  visible_with_status (current_snapshot_inner st (Some reader)) h (xact_status st') = true.
Proof.
  intros Hok%reachable_ok Hno [Hnone ->]%exec_begin_unfold h.
  destruct (current_snapshot_fresh st (Some reader) _ (ok_cursor st Hok) (ok_bounds st Hok)
              ltac:(intros t s' [= <-]; apply Hno) eq_refl) as (Hver & Hin & Hid & _).
  match goal with |- ?P /\ _ => assert (Hs : P) end.
  { apply status_InProgress. cbn. apply bs_mem_insert; [apply (ok_active st Hok)|by left]. }
  split; [exact Hs|]. rewrite visible_with_status_bool; [|by intros _ _; left|by intros []].
  apply andb_true_iff. split; [|done]. apply effectiveb_spec. right. rewrite Hver, Hin, Hs. cbn. unfold current_version.
  split_and!; [lia| |done]. intros Hc%bs_mem_elems%(ok_bounds st Hok). lia.
Qed.

(** The vacuum floor protects a frozen view only through its version: a
    row deleted by a writer that was in flight when the view was frozen is
    reclaimable as soon as that writer commits, although the view still
    shows it. *)
Lemma vacuum_floor_ignores_in_progress :
  exists st tx s h,
    reachable st /\ sm_lookup tx (tx_cached st) = Some (Some s) /\
    is_reclaimable (xmax h) (vacuum_oldest_active st) = true /\ xact_status st (xmax h) = Committed /\
    visible_with_status s h (xact_status st) = true.
Proof.
  exists overlap_committed, 8, (mk_snapshot 4 [2; 3] 2 3 None), (mk_header 1 2 0).
  split; [exact overlap_committed_reachable|]. by vm_compute.
Qed.

(** Nor does it ask whether the deletion aborted: a row whose deleter aborted is
    reclaimable once the floor has passed it, and every new reader sees it. *)
Lemma vacuum_floor_ignores_aborts :
  exists st tx h,
    reachable st /\ no_frozen_view st tx /\ xact_status st (xmax h) = Aborted /\ xmin h <= xmax h /\
    is_reclaimable (xmax h) (vacuum_oldest_active st) = true /\
    visible_with_status (current_snapshot_inner st (Some tx)) h (xact_status st) = true.
Proof.
  exists (discard_tx 7 (begin_or_stay 7 false initial)), 9, (mk_header 1 2 0). split.
  { eapply rtc_r; [apply begin_or_stay_reachable, rtc_refl|apply step_discard]. }
  split; [by intros s; vm_compute|]. by vm_compute.
Qed.

(** [AllCommitted] does not give back [visible] on a frozen header. *)
Lemma all_committed_differs_when_frozen :
  visible (mk_snapshot 4 [] 4 0 None) (mk_header 9 0 HEAP_XMIN_FROZEN) = false /\
  visible_with_status (mk_snapshot 4 [] 4 0 None) (mk_header 9 0 HEAP_XMIN_FROZEN) AllCommitted = true.
Proof. done. Qed.
