(* ===== verification/Posting.v ===== *)
(** Index values: row locators and their nine byte wire form
    (crates/spg-storage/src/row_locator.rs) and posting lists, a sequence of
    locators cut in shared blocks of 256 with an open tail (posting.rs). *)
From S2P Require Import Prelude Bytes Iterator.
Open Scope Z_scope.

(** ** Row locators *)
Module RowLocator.

Definition TAG_HOT : Z := 0.
Definition TAG_COLD : Z := 1.

(** The message of [LegacyIndexOverflow] only names the index. *)
Inductive RowLocatorError : Type :=
| TooShort (got need : nat)
| BadTag (got : Z)
| TruncatedCold (got need : nat)
| LegacyIndexOverflow (idx : Z).

Inductive RowLocator : Type :=
| Hot (idx : Z)
| Cold (segment_id page_offset : Z).

#[export] Instance RowLocator_eq_dec : EqDecision RowLocator.
Proof. solve_decision. Defined.

Definition is_hot (l : RowLocator) : bool := match l with Hot _ => true | Cold _ _ => false end.
Definition is_cold (l : RowLocator) : bool := match l with Cold _ _ => true | Hot _ => false end.
Definition as_hot (l : RowLocator) : option Z := match l with Hot i => Some i | Cold _ _ => None end.
Definition as_cold (l : RowLocator) : option (Z * Z) :=
  match l with Cold segment_id page_offset => Some (segment_id, page_offset) | Hot _ => None end.

Definition encoded_len (l : RowLocator) : nat := 9.

Definition write_le (l : RowLocator) (out : list Z) : list Z :=
  match l with
  | Hot i => out ++ [TAG_HOT] ++ le_bytes 8 i
  | Cold segment_id page_offset => out ++ [TAG_COLD] ++ le_bytes 4 segment_id ++ le_bytes 4 page_offset
  end.

Section Target.
(** The target's [usize] width. *)
Context (usize_bits : Z).

(** [usize::try_from(idx).map_err(..)]. *)
Definition usize_try_from (idx : Z) : result Z RowLocatorError :=
  if idx <? 2 ^ usize_bits then Ok idx else Err (LegacyIndexOverflow idx).

Definition read_le (input : list Z) : result (RowLocator * nat) RowLocatorError :=
  match input with
  | [] => Err (TooShort 0 1)
  | tag :: _ =>
    if tag =? TAG_HOT then
      if (length input <? 9)%nat then Err (TooShort (length input) 9)
      else
        let idx := le_val (slice 1 8 input) in
        let? idx_usize := usize_try_from idx in
        Ok (Hot idx_usize, 9%nat)
    else if tag =? TAG_COLD then
      if (length input <? 9)%nat then Err (TruncatedCold (length input) 9)
      else
        let segment_id := le_val (slice 1 4 input) in
        let page_offset := le_val (slice 5 4 input) in
        Ok (Cold segment_id page_offset, 9%nat)
    else Err (BadTag tag)
  end.

Definition from_legacy_v8_u64 (idx : Z) : result RowLocator RowLocatorError :=
  let? idx_usize := usize_try_from idx in
  Ok (Hot idx_usize).

(** The field types. *)
Definition locator_ok (l : RowLocator) : Prop :=
  match l with
  | Hot i => in_w usize_bits i
  | Cold segment_id page_offset => u32 segment_id /\ u32 page_offset
  end.

Lemma length_write_le l out : length (write_le l out) = (length out + encoded_len l)%nat.
Proof. destruct l; unfold write_le; rewrite !length_app; cbn [length]; by autorewrite with spg_len. Qed.

(** [read_le] reads back what [write_le] wrote, whatever follows it, and
    says that it consumed the nine bytes of [encoded_len]. *)
Lemma locator_roundtrip l rest :
  0 <= usize_bits <= 64 -> locator_ok l ->
  read_le (write_le l [] ++ rest) = Ok (l, encoded_len l).
Proof.
  intros Hw Hl. destruct l as [i|sid off]; cbn [write_le app]; unfold read_le; cbn [Z.eqb TAG_HOT TAG_COLD].
  - rewrite (proj2 (Nat.ltb_ge _ _)) by (cbn [length app]; rewrite length_app, length_le_bytes; lia).
    rewrite (slice_app_exact [TAG_HOT] (le_bytes 8 i) rest) by (done || by rewrite length_le_bytes).
    rewrite le_val_le_bytes_id by (eapply in_w_mono; [exact Hl|lia]).
    unfold usize_try_from. destruct Hl as [_ Hl]. apply Z.ltb_lt in Hl. by rewrite Hl.
  - destruct Hl as [Hs Ho]. rewrite (proj2 (Nat.ltb_ge _ _)) by (cbn [length app]; rewrite !length_app, !length_le_bytes; lia).
    rewrite <- app_assoc, (slice_app_exact [TAG_COLD] (le_bytes 4 sid) (le_bytes 4 off ++ rest)) by (done || by rewrite length_le_bytes).
    change (TAG_COLD :: le_bytes 4 sid ++ le_bytes 4 off ++ rest) with ((TAG_COLD :: le_bytes 4 sid) ++ le_bytes 4 off ++ rest).
    rewrite slice_app_exact by (cbn [length]; by rewrite ?length_le_bytes).
    by rewrite !le_val_le_bytes_id.
Qed.

(** What [read_le] accepts is canonical: the nine bytes it consumed are
    exactly the bytes [write_le] produces for the locator it returned, whose
    fields fit their types. *)
Lemma locator_canonical input l n :
  0 <= usize_bits <= 64 -> is_bytes input -> read_le input = Ok (l, n) ->
  n = encoded_len l /\ locator_ok l /\ take n input = write_le l [].
Proof.
  intros Hw Hin. unfold read_le. destruct input as [|tag t]; [done|].
  destruct (tag =? TAG_HOT) eqn:Et; [|destruct (tag =? TAG_COLD) eqn:Ec; [|done]]; prop_bools; subst tag.
  - case_if; [done|]. unfold usize_try_from. case_if; [|done]. intros [= <- <-]. split_and!; [done| |].
    + split; [|done]. apply le_val_bound, is_bytes_slice, Hin.
    + unfold write_le. change (slice 1 8 (TAG_HOT :: t)) with (take 8 t).
      assert (Hlen : length (take 8 t) = 8%nat) by (rewrite length_take; cbn [length] in *; lia).
      rewrite le_bytes_le_val_n; [done..|]. apply is_bytes_take. by inversion Hin.
  - case_if; [done|]. intros [= <- <-]. assert (Ht : is_bytes t) by by inversion Hin.
    assert (H4 : length (take 4 t) = 4%nat) by (rewrite length_take; cbn [length] in *; lia).
    assert (H8 : length (take 4 (drop 4 t)) = 4%nat) by (rewrite length_take, length_drop; cbn [length] in *; lia).
    change (slice 1 4 (TAG_COLD :: t)) with (take 4 t). change (slice 5 4 (TAG_COLD :: t)) with (take 4 (drop 4 t)).
    assert (Hb4 := le_val_bound (take 4 t) ltac:(auto with spg)).
    assert (Hb8 := le_val_bound (take 4 (drop 4 t)) ltac:(auto with spg)). rewrite H4 in Hb4. rewrite H8 in Hb8.
    split_and!; [done|by split|]. unfold write_le.
    rewrite !le_bytes_le_val_n by auto with spg. by rewrite take_take_drop.
Qed.
End Target.

End RowLocator.

(** ** Posting lists *)
Module PostingList.
Import RowLocator.
Open Scope nat_scope.

Definition BLOCK : nat := 256.

Record PostingList : Type := mk_posting { frozen : list (list RowLocator); tail : list RowLocator }.

Definition new : PostingList := mk_posting [] [].
Definition single (locator : RowLocator) : PostingList := mk_posting [] [locator].

Definition push (locator : RowLocator) (p : PostingList) : PostingList :=
  let t := tail p ++ [locator] in
  if BLOCK <=? length t then mk_posting (frozen p ++ [t]) [] else mk_posting (frozen p) t.

Definition len (p : PostingList) : nat := length (frozen p) * BLOCK + length (tail p).

Definition is_empty (p : PostingList) : bool :=
  match frozen p, tail p with [], [] => true | _, _ => false end.

Record Iter : Type := mk_iter { list_ : PostingList; block : nat; pos : nat }.

Definition iter (p : PostingList) : Iter := mk_iter p 0 0.

(** One turn of the [while] of [next], or its tail part. *)
Definition iter_turn (it : Iter) : option (turn Iter RowLocator) :=
  if block it <? length (frozen (list_ it)) then
    let! b := frozen (list_ it) !! block it in
    match b !! pos it with
    | Some locator => Some (Yield locator (mk_iter (list_ it) (block it) (pos it + 1)))
    | None => Some (Continue (mk_iter (list_ it) (block it + 1) 0))
    end
  else
    match tail (list_ it) !! pos it with
    | Some locator => Some (Yield locator (mk_iter (list_ it) (block it) (pos it + 1)))
    | None => Some Finished
    end.

(** The [while] advances over at most one block per turn. *)
Definition next (it : Iter) : option (option RowLocator * Iter) :=
  next_loop iter_turn (length (frozen (list_ it)) + length (concat (frozen (list_ it))) + length (tail (list_ it)) + 1) it.

Definition size_hint (it : Iter) : nat :=
  let seen := block it * BLOCK + pos it in
  len (list_ it) - seen.

(** Everything [self.iter()] yields. *)
Definition iter_all (p : PostingList) : option (list RowLocator) := collect next (S (len p)) (iter p).

Definition first (p : PostingList) : option RowLocator :=
  match (b ← head (frozen p); head b) with
  | Some l => Some l
  | None => head (tail p)
  end.

Definition last (p : PostingList) : option RowLocator :=
  match list.last (tail p) with
  | Some l => Some l
  | None => b ← list.last (frozen p); list.last b
  end.

Definition contains (locator : RowLocator) (p : PostingList) : option bool :=
  let! ls := iter_all p in
  Some (existsb (fun l => bool_decide (l = locator)) ls).

Definition from_iter (ls : list RowLocator) : PostingList := fold_left (fun out l => push l out) ls new.

Definition retain (keep : RowLocator -> bool) (p : PostingList) : option PostingList :=
  let! ls := iter_all p in
  if forallb keep ls then Some p
  else Some (from_iter (filter keep ls)).

Definition to_vec (p : PostingList) : option (list RowLocator) := iter_all p.

(** [PartialEq<[RowLocator]>]. *)
Definition eq_slice (p : PostingList) (other : list RowLocator) : option bool :=
  if len p =? length other then
    let! ls := iter_all p in
    Some (forallb (fun '(a, b) => bool_decide (a = b)) (combine ls other))
  else Some false.

(** *** The list a posting list stands for *)

Definition posts (p : PostingList) : list RowLocator := concat (frozen p) ++ tail p.

Definition posting_ok (p : PostingList) : Prop :=
  Forall (fun b => length b = BLOCK) (frozen p) /\ length (tail p) < BLOCK.

Lemma new_posting_ok : posting_ok new.
Proof. split; [constructor|unfold BLOCK; cbn; lia]. Qed.

Lemma push_ok l p : posting_ok p -> posting_ok (push l p) /\ posts (push l p) = posts p ++ [l].
Proof.
  intros [Hf Ht]. unfold push, posts. rewrite length_app. cbn [length]. case_if; cbn [frozen tail].
  - split; [split|].
    + apply Forall_app. split; [done|]. repeat constructor. rewrite length_app. cbn [length]. lia.
    + unfold BLOCK. cbn. lia.
    + rewrite concat_app. cbn. by rewrite !app_nil_r, app_assoc.
  - split; [split; [done|cbn [tail]; rewrite length_app; cbn [length]; lia]|by rewrite app_assoc].
Qed.

Lemma push_all_ok ls p :
  posting_ok p -> let q := fold_left (fun out l => push l out) ls p in posting_ok q /\ posts q = posts p ++ ls.
Proof.
  revert p. induction ls as [|l ls IH]; intros p Hp; cbn; [by rewrite app_nil_r|].
  destruct (push_ok l p Hp) as [Hq Eq]. destruct (IH _ Hq) as [H1 H2]. split; [done|].
  by rewrite H2, Eq, <- app_assoc.
Qed.

Lemma from_iter_ok ls : posting_ok (from_iter ls) /\ posts (from_iter ls) = ls.
Proof. apply (push_all_ok ls new new_posting_ok). Qed.

Lemma len_concat (bs : list (list RowLocator)) :
  Forall (fun b => length b = BLOCK) bs -> length (concat bs) = length bs * BLOCK.
Proof. induction 1 as [|b bs Hb _ IH]; [done|]. cbn [concat length]. rewrite length_app, Hb, IH. lia. Qed.

Lemma len_posts p : posting_ok p -> len p = length (posts p).
Proof. intros [Hf _]. unfold len, posts. by rewrite length_app, len_concat. Qed.

(** A posting list is determined by its locators. *)
Lemma posts_inj p q : posting_ok p -> posting_ok q -> posts p = posts q -> p = q.
Proof.
  intros [Hp Htp] [Hq Htq] E. destruct p as [fp tp], q as [fq tq]. unfold posts in E. cbn [frozen tail] in *.
  assert (Hlen : length fp = length fq).
  { apply (f_equal length) in E. rewrite !length_app, !len_concat in E by done. unfold BLOCK in *. lia. }
  revert fq Hq Hlen E. induction Hp as [|b fp Hb _ IH]; intros [|c fq] Hq Hlen E; try done.
  - cbn in E. by subst.
  - inversion_clear Hq as [|? ? Hc Hq']. cbn [concat] in E. rewrite <- !app_assoc in E.
    apply app_inj_1 in E as [-> E]; [|congruence]. injection Hlen as Hlen. specialize (IH fq Hq' Hlen E). congruence.
Qed.

(** *** Iteration *)

(** What an iterator has still to give. *)
Definition to_come (it : Iter) : list RowLocator :=
  if block it <? length (frozen (list_ it)) then
    drop (pos it) (default [] (frozen (list_ it) !! block it)) ++
    concat (drop (block it + 1) (frozen (list_ it))) ++ tail (list_ it)
  else drop (pos it) (tail (list_ it)).

Definition iter_ok (it : Iter) : Prop := block it <= length (frozen (list_ it)).

Definition turns_left (it : Iter) : nat := length (to_come it) + (length (frozen (list_ it)) - block it).

Lemma to_come_start p b :
  to_come (mk_iter p b 0) = concat (drop b (frozen p)) ++ tail p.
Proof.
  unfold to_come. cbn [block pos list_]. case_if; rewrite drop_0.
  - destruct (frozen p !! b) as [bl|] eqn:E; [|apply lookup_ge_None in E; lia]. cbn [from_option id].
    rewrite (drop_S _ _ _ E), Nat.add_1_r. cbn. by rewrite app_assoc.
  - by rewrite drop_ge by done.
Qed.

Lemma posting_turn_ok it : iter_ok it -> turn_ok iter_turn iter_ok to_come turns_left it.
Proof.
  intros Hv. unfold turn_ok, iter_turn. destruct (block it <? length (frozen (list_ it))) eqn:Eb.
  - destruct (frozen (list_ it) !! block it) as [b|] eqn:E; [|prop_bools; apply lookup_ge_None in E; lia].
    cbn [mbind option_bind]. destruct (b !! pos it) as [l|] eqn:El.
    + assert (Hc : to_come it = l :: to_come (mk_iter (list_ it) (block it) (pos it + 1))).
      { unfold to_come. cbn [block pos list_]. rewrite Eb, E. cbn [from_option id]. by rewrite (drop_S _ _ _ El), !Nat.add_1_r. }
      split_and!; [done|unfold turns_left; rewrite Hc; cbn; lia|done].
    + assert (Hc : to_come it = to_come (mk_iter (list_ it) (block it + 1) 0)).
      { rewrite to_come_start. unfold to_come. rewrite Eb, E. cbn [from_option id].
        apply lookup_ge_None in El. by rewrite (drop_ge b) by done. }
      prop_bools. split_and!; [done|unfold turns_left; rewrite Hc; cbn; lia|unfold iter_ok; cbn; lia].
  - destruct (tail (list_ it) !! pos it) as [l|] eqn:El.
    + assert (Hc : to_come it = l :: to_come (mk_iter (list_ it) (block it) (pos it + 1))).
      { unfold to_come. cbn [block pos list_]. by rewrite Eb, (drop_S _ _ _ El), !Nat.add_1_r. }
      split_and!; [done|unfold turns_left; rewrite Hc; cbn; lia|done].
    + unfold to_come. rewrite Eb. apply lookup_ge_None in El. by apply drop_ge.
Qed.

Lemma length_concat_drop n (bs : list (list RowLocator)) : length (concat (drop n bs)) <= length (concat bs).
Proof. rewrite <- (take_drop n bs) at 2. rewrite concat_app, length_app. lia. Qed.

Lemma concat_drop_lookup n (bs : list (list RowLocator)) b :
  bs !! n = Some b -> length b + length (concat (drop (n + 1) bs)) <= length (concat bs).
Proof.
  intros E. rewrite <- length_app, Nat.add_1_r. pose proof (length_concat_drop n bs) as H.
  by rewrite (drop_S _ _ _ E) in H.
Qed.

Lemma next_ok_iter it : iter_ok it -> next_ok next iter_ok to_come it.
Proof.
  intros Hv. assert (Hfuel : turns_left it < length (frozen (list_ it)) + length (concat (frozen (list_ it))) + length (tail (list_ it)) + 1).
  { unfold turns_left, to_come. destruct (block it <? length (frozen (list_ it))) eqn:Eb.
    - destruct (frozen (list_ it) !! block it) as [b|] eqn:E; cbn [from_option id];
        rewrite ?length_app, ?length_drop; [apply concat_drop_lookup in E; lia|].
      pose proof (length_concat_drop (block it + 1) (frozen (list_ it))). cbn. lia.
    - rewrite length_drop. lia. }
  pose proof (next_loop_spec iter_turn iter_ok to_come turns_left posting_turn_ok _ it Hv Hfuel) as H.
  unfold next_ok, next. destruct (to_come it); [exact H|]. destruct H as (s' & ? & ? & ? & _). eauto.
Qed.

Lemma iter_all_posts p : posting_ok p -> iter_all p = Some (posts p).
Proof.
  intros Hp. unfold iter_all. rewrite len_posts by done.
  apply (collect_spec next iter_ok to_come next_ok_iter); [unfold iter_ok; cbn; lia|].
  unfold iter. by rewrite to_come_start, drop_0.
Qed.

(** [ExactSizeIterator]: the hint is the number of items left. *)
Definition in_block (it : Iter) : Prop := block it <= length (frozen (list_ it)) /\ pos it <= BLOCK.

Lemma size_hint_exact it : posting_ok (list_ it) -> in_block it -> size_hint it = length (to_come it).
Proof.
  intros [Hf Ht] [Hb Hp]. unfold size_hint, len, to_come. case_if.
  - destruct (frozen (list_ it) !! block it) as [b|] eqn:E; [|apply lookup_ge_None in E; lia]. cbn [from_option id].
    assert (Hlen : length b = BLOCK) by (by eapply Forall_lookup_1 in Hf).
    rewrite !length_app, len_concat by (by apply Forall_drop). rewrite !length_drop, Hlen. unfold BLOCK in *. nia.
  - assert (block it = length (frozen (list_ it))) as -> by lia. rewrite length_drop. lia.
Qed.

(** *** Refinement *)

Inductive op : Type := Push (l : RowLocator) | Retain (keep : RowLocator -> bool).

Definition exec_op (p : PostingList) (o : op) : option PostingList :=
  match o with Push l => Some (push l p) | Retain keep => retain keep p end.

Definition list_op (l : list RowLocator) (o : op) : list RowLocator :=
  match o with Push x => l ++ [x] | Retain keep => filter keep l end.

Definition exec (ops : list op) : option PostingList := foldl (fun p o => let! p := p in exec_op p o) (Some new) ops.
Definition list_exec (ops : list op) : list RowLocator := foldl list_op [] ops.

Lemma retain_ok keep p :
  posting_ok p -> exists q, retain keep p = Some q /\ posting_ok q /\ posts q = filter keep (posts p).
Proof.
  intros Hp. unfold retain. run (iter_all_posts p Hp). destruct (forallb keep (posts p)) eqn:E.
  - exists p. split_and!; [done..|]. rewrite filter_keep; [done|]. apply Forall_forall. intros x Hx.
    apply Is_true_true. rewrite forallb_forall in E. apply E. by apply list_elem_of_In.
  - exists (from_iter (filter keep (posts p))). split; [done|]. apply from_iter_ok.
Qed.

Lemma exec_ok ops : exists p, exec ops = Some p /\ posting_ok p /\ posts p = list_exec ops.
Proof.
  unfold exec, list_exec. induction ops as [|o ops IH] using rev_ind; [exists new; by split_and!; [|apply new_posting_ok|]|].
  destruct IH as (p & E & Hp & Hl). rewrite !foldl_app, E. cbn [foldl mbind option_bind].
  rewrite <- Hl. destruct o as [l|keep]; cbn [exec_op list_op].
  - exists (push l p). split; [done|]. by apply push_ok.
  - by apply retain_ok.
Qed.

Lemma first_posts p : posting_ok p -> first p = head (posts p).
Proof.
  intros [Hf _]. unfold first, posts. destruct (frozen p) as [|b bs]; [done|]. inversion_clear Hf as [|? ? Hb _].
  destruct b as [|l b]; [done|]. done.
Qed.

Lemma last_posts p : posting_ok p -> last p = list.last (posts p).
Proof.
  intros [Hf _]. unfold last, posts. rewrite last_app. destruct (list.last (tail p)); [done|].
  destruct (frozen p) as [|b bs _] using rev_ind; [done|]. rewrite last_snoc. cbn.
  apply Forall_app in Hf as [_ Hb]. inversion_clear Hb as [|? ? Hb' _]. rewrite concat_app. cbn. rewrite app_nil_r, last_app.
  destruct (cut_last b) as (b' & x & ->); [by intros ->|]. by rewrite last_snoc.
Qed.

Lemma is_empty_posts p : posting_ok p -> is_empty p = bool_decide (posts p = []).
Proof.
  intros [Hf _]. unfold is_empty, posts. symmetry. destruct (frozen p) as [|b bs]; cbn.
  - destruct (tail p); [by apply bool_decide_eq_true|by apply bool_decide_eq_false].
  - inversion_clear Hf as [|? ? Hb _]. apply bool_decide_eq_false. by destruct b.
Qed.

Lemma contains_posts l p : posting_ok p -> contains l p = Some (bool_decide (l ∈ posts p)).
Proof.
  intros Hp. unfold contains. run (iter_all_posts p Hp). f_equal. apply eq_true_iff_eq.
  rewrite existsb_exists, bool_decide_eq_true, list_elem_of_In. setoid_rewrite bool_decide_eq_true. naive_solver.
Qed.

Lemma eq_slice_posts p ys : posting_ok p -> eq_slice p ys = Some (bool_decide (posts p = ys)).
Proof.
  intros Hp. unfold eq_slice. rewrite len_posts by done. case_if.
  - run (iter_all_posts p Hp). f_equal. rename Heqb into E. revert ys E. induction (posts p) as [|x l IH]; intros [|y ys] E; try done.
    injection E as E. cbn [combine forallb]. rewrite IH by done. apply eq_true_iff_eq.
    rewrite andb_true_iff, !bool_decide_eq_true. naive_solver.
  - f_equal. symmetry. apply bool_decide_eq_false. congruence.
Qed.

(** C28: a posting list built by any sequence of pushes and retains never
    panics and is the list those operations build: every frozen block stays
    full and the tail short, every query (length, emptiness, first, last,
    membership, iteration, comparison with a slice) answers what the list
    answers, and two posting lists are structurally equal, which is what the
    derived [PartialEq] compares, exactly when their lists are. *)
Theorem posting_refines_list ops :
  let l := list_exec ops in
  exists p, exec ops = Some p /\ posting_ok p /\
    len p = length l /\ is_empty p = bool_decide (l = []) /\ first p = head l /\ last p = list.last l /\
    to_vec p = Some l /\ (forall x, contains x p = Some (bool_decide (x ∈ l))) /\
    (forall ys, eq_slice p ys = Some (bool_decide (l = ys))) /\
    (forall ops', exec ops' = Some p <-> list_exec ops' = l).
Proof.
  intros l. destruct (exec_ok ops) as (p & E & Hp & Hl). exists p. subst l. rewrite <- Hl.
  split_and!; [done|done|by apply len_posts|by apply is_empty_posts|by apply first_posts|by apply last_posts|
               by apply iter_all_posts|intros x; by apply contains_posts|intros ys; by apply eq_slice_posts|].
  intros ops'. destruct (exec_ok ops') as (q & Eq & Hq & Hlq). rewrite Eq, <- Hlq. split; [by intros [= ->]|].
  intros Hpq. f_equal. by apply posts_inj.
Qed.
End PostingList.
