(* ===== verification/Locks.v ===== *)
(** The row-lock table with its wait-for graph and deadlock detector
    (crates/spg-engine/src/locks.rs).  Relation ids, row ids and writer
    versions are [Z]; [BTreeMap] and [BTreeSet] are the sorted lists of
    SortedMap. *)
From S2P Require Import Prelude SortedMap.
Open Scope Z_scope.

Inductive LockMode : Type := KeyShare | Share | NoKeyUpdate | Exclusive.

#[export] Instance LockMode_eq_dec : EqDecision LockMode.
Proof. solve_decision. Defined.

Definition conflicts_with (held requested : LockMode) : bool :=
  match held with
  | KeyShare => match requested with Exclusive => true | _ => false end
  | Share => match requested with NoKeyUpdate | Exclusive => true | _ => false end
  | NoKeyUpdate => negb match requested with KeyShare => true | _ => false end
  | Exclusive => true
  end.

Inductive WaitPolicy : Type := Wait | NoWait | SkipLocked.

Inductive LockOutcome : Type :=
| Granted
| WouldBlock (on : list Z)
| Skip
| NotAvailable
| Deadlock (victim : Z).

Record LockEntry : Type := mk_entry { holders : list (Z * LockMode); waiters : list Z }.

Record LockTable : Type := mk_table {
  entries : list ((Z * Z) * LockEntry);
  wait_for : list (Z * bset Z)
}.

Definition new : LockTable := mk_table [] [].
Definition empty_entry : LockEntry := mk_entry [] [].

(** ** The deadlock detector *)

(** What the recursion of [dfs_cycle] shares. *)
Record Dfs : Type := mk_dfs { on_path : bset Z; visited : bset Z; path : list Z }.

(** The loop over the edges of a node; [dfs] is the recursive call. *)
Fixpoint for_edges (dfs : Z -> Dfs -> option (option (bset Z) * Dfs)) (start : Z) (edges : list Z) (st : Dfs)
    : option (option (bset Z) * Dfs) :=
  match edges with
  | [] => Some (None, st)
  | next :: edges =>
    if next =? start then Some (Some (bs_insert start (on_path st)), st)
    else if negb (bs_mem next (on_path st)) then
      let! (c, st) := dfs next (mk_dfs (on_path st) (visited st) (path st ++ [next])) in
      match c with
      | Some c => Some (Some c, st)
      | None => for_edges dfs start edges (mk_dfs (on_path st) (visited st) (removelast (path st)))
      end
    else for_edges dfs start edges st
  end.

Fixpoint dfs_cycle (fuel : nat) (t : LockTable) (start node : Z) (st : Dfs) : option (option (bset Z) * Dfs) :=
  match fuel with
  | O => None
  | S fuel =>
    let st := mk_dfs (bs_insert node (on_path st)) (bs_insert node (visited st)) (path st) in
    let! (c, st) :=
      match sm_lookup node (wait_for t) with
      | Some edges => for_edges (dfs_cycle fuel t start) start (bs_elems edges) st
      | None => Some (None, st)
      end in
    match c with
    | Some c => Some (Some c, st)
    | None => Some (None, mk_dfs (bs_remove node (on_path st)) (visited st) (path st))
    end
  end.

(** Only versions with edges recurse, each at most once on a path. *)
Definition find_cycle (t : LockTable) (start : Z) : option (option (bset Z)) :=
  let! (c, _) := dfs_cycle (S (length (wait_for t))) t start start (mk_dfs [] [] [start]) in
  Some c.

(** [cycle.into_iter().max()]. *)
Definition iter_max (l : list Z) : option Z :=
  match l with [] => None | x :: l => Some (fold_left Z.max l x) end.

(** ** The operations *)

Definition blockers_of (mode : LockMode) (version : Z) (holders : list (Z * LockMode)) : list Z :=
  fold_left (fun blockers '(hv, hmode) =>
    if negb (hv =? version) && conflicts_with hmode mode && negb (existsb (Z.eqb hv) blockers)
    then blockers ++ [hv] else blockers) holders [].

(** Recording edges and looking for a cycle through [waiter]. *)
Definition park (waiter : Z) (on : list Z) (t : LockTable) : option (LockOutcome * LockTable) :=
  let! c := find_cycle t waiter in
  match c with
  | Some cycle => Some (Deadlock (default waiter (iter_max (bs_elems cycle))), t)
  | None => Some (WouldBlock on, t)
  end.

Definition add_edges (blockers : list Z) (edges : bset Z) : bset Z :=
  fold_left (fun edges b => bs_insert b edges) blockers edges.

Definition acquire (rel row : Z) (mode : LockMode) (version : Z) (policy : WaitPolicy) (t : LockTable)
    : option (LockOutcome * LockTable) :=
  let key := (rel, row) in
  let entry := default empty_entry (sm_lookup key (entries t)) in
  let t := mk_table (sm_insert key entry (entries t)) (wait_for t) in
  let blockers := blockers_of mode version (holders entry) in
  match blockers with
  | [] =>
    let holders :=
      if existsb (fun '(hv, hm) => (hv =? version) && bool_decide (hm = mode)) (holders entry)
      then holders entry else holders entry ++ [(version, mode)] in
    let waiters := filter (fun w => negb (w =? version)) (waiters entry) in
    Some (Granted, mk_table (sm_insert key (mk_entry holders waiters) (entries t)) (sm_remove version (wait_for t)))
  | _ :: _ =>
    match policy with
    | NoWait => Some (NotAvailable, t)
    | SkipLocked => Some (Skip, t)
    | Wait =>
      let waiters := if existsb (Z.eqb version) (waiters entry) then waiters entry else waiters entry ++ [version] in
      let edges := add_edges blockers (default [] (sm_lookup version (wait_for t))) in
      park version blockers
        (mk_table (sm_insert key (mk_entry (holders entry) waiters) (entries t)) (sm_insert version edges (wait_for t)))
    end
  end.

Definition release_all (version : Z) (t : LockTable) : LockTable :=
  mk_table
    (sm_retain (fun e =>
       let holders := filter (fun h : Z * LockMode => negb (h.1 =? version)) (holders e) in
       let waiters := filter (fun w => negb (w =? version)) (waiters e) in
       match holders, waiters with [], [] => None | _, _ => Some (mk_entry holders waiters) end) (entries t))
    (sm_retain (fun edges => Some (bs_remove version edges)) (sm_remove version (wait_for t))).

Definition wait_on_versions (waiter : Z) (blockers : list Z) (t : LockTable) : option (LockOutcome * LockTable) :=
  let edges := default [] (sm_lookup waiter (wait_for t)) in
  let edges := fold_left (fun edges b => if negb (b =? waiter) then bs_insert b edges else edges) blockers edges in
  park waiter blockers (mk_table (entries t) (sm_insert waiter edges (wait_for t))).

Definition clear_wait (waiter : Z) (t : LockTable) : LockTable :=
  mk_table (entries t) (sm_remove waiter (wait_for t)).

Definition locked_row_count (t : LockTable) : nat := length (entries t).

Definition enumerate (t : LockTable) : list (Z * Z * Z * LockMode * bool) :=
  flat_map (fun '((rel, row), entry) =>
    map (fun '(version, mode) => (rel, row, version, mode, true)) (holders entry) ++
    map (fun version => (rel, row, version, Exclusive, false)) (waiters entry)) (entries t).

(** ** Its caller for UPDATE and DELETE *)

Inductive EngineError : Type := LockWouldBlock | LockDeadlock.

Fixpoint lock_dml_rows (rel : Z) (rids : list Z) (mode : LockMode) (version : Z) (t : LockTable)
    : option (result () EngineError * LockTable) :=
  match rids with
  | [] => Some (Ok (), t)
  | rid :: rids =>
    let! (o, t) := acquire rel rid mode version Wait t in
    match o with
    | Granted => lock_dml_rows rel rids mode version t
    | WouldBlock _ => Some (Err LockWouldBlock, t)
    | Deadlock victim => if victim =? version then Some (Err LockDeadlock, t) else Some (Err LockWouldBlock, t)
    | Skip | NotAvailable => Some (Err LockWouldBlock, t)
    end
  end.

(** Two transactions crossing on two rows. *)
Example crossing :
  (let! (_, t) := acquire 1 1 Exclusive 10 Wait new in
   let! (_, t) := acquire 1 2 Exclusive 20 Wait t in
   let! (o1, t) := acquire 1 2 Exclusive 10 Wait t in
   let! (o2, t) := acquire 1 1 Share 20 Wait t in
   Some (o1, o2)) = Some (WouldBlock [20], Deadlock 20).
Proof. by vm_compute. Qed.

(** ** Walks in the wait-for graph *)

Definition edge (t : LockTable) (a b : Z) : Prop :=
  exists edges, sm_lookup a (wait_for t) = Some edges /\ b ∈ bs_elems edges.

(** [waits t a b]: [a] waits, directly or not, for [b]. *)
Definition waits (t : LockTable) : Z -> Z -> Prop := tc (edge t).

(** A walk [q] from [a] to [b] (which is not listed) outside [P]. *)
Inductive walk (t : LockTable) (P : Z -> Prop) : list Z -> Z -> Z -> Prop :=
| walk_edge a b : ~ P a -> edge t a b -> walk t P [a] a b
| walk_step a c b q : ~ P a -> edge t a c -> walk t P q c b -> walk t P (a :: q) a b.

Lemma walk_waits t P q a b : walk t P q a b -> waits t a b.
Proof. induction 1; [by apply tc_once|by eapply tc_l]. Qed.

Lemma waits_walk t a b : waits t a b -> exists q, walk t (fun _ => False) q a b.
Proof.
  induction 1 as [a b H|a c b H _ [q IH]]; [exists [a]; apply walk_edge; [intros []|done]|].
  exists (a :: q). by eapply walk_step; [intros []| |].
Qed.

Lemma walk_mono t (P Q : Z -> Prop) q a b : (forall x, Q x -> P x) -> walk t P q a b -> walk t Q q a b.
Proof. intros HPQ. induction 1; [apply walk_edge|eapply walk_step]; eauto. Qed.

(** Cutting a walk at the last visit of [a]: the rest avoids [a]. *)
Lemma walk_cut t P a q x b :
  walk t P q x b ->
  (exists q', walk t (fun y => P y \/ y = a) q' x b) \/
  (exists c, edge t a c /\ (c = b \/ exists q', walk t (fun y => P y \/ y = a) q' c b)).
Proof.
  induction 1 as [x b Hx He|x c b q Hx He _ IH].
  - destruct (decide (x = a)) as [->|Hne]; [right; exists b; eauto|left; exists [x]; apply walk_edge; tauto].
  - destruct IH as [[q' Hq]|IH]; [|by right]. destruct (decide (x = a)) as [->|Hne]; [right; exists c; eauto|].
    left. exists (x :: q'). eapply walk_step; [tauto|done|done].
Qed.

Lemma walk_first t P a q b :
  walk t P q a b -> exists c, edge t a c /\ (c = b \/ exists q', walk t (fun y => P y \/ y = a) q' c b).
Proof.
  intros H. destruct (walk_cut t P a q a b H) as [[q' Hq]|]; [|done]. exfalso. inversion Hq as [? ? Hn|? ? ? ? Hn]; apply Hn; by right.
Qed.

(** ** What the detector answers *)

Definition state_ok (st : Dfs) : Prop := sorted (on_path st).

Definition in_path (st : Dfs) (x : Z) : Prop := bs_mem x (on_path st) = true.

(** A cycle found from [node] with [P] on the path: a walk to [start] by
    distinct versions outside [P], and the set of everything on it. *)
Definition found (t : LockTable) (P : Z -> Prop) (start node : Z) (c : bset Z) : Prop :=
  exists q, walk t P q node start /\ NoDup q /\ forall x, x ∈ bs_elems c <-> P x \/ x = start \/ x ∈ q.

Definition dfs_ok (t : LockTable) (start node : Z) (st : Dfs) (r : option (option (bset Z) * Dfs)) : Prop :=
  match r with
  | None => False
  | Some (Some c, _) => found t (in_path st) start node c
  | Some (None, st') => on_path st' = on_path st /\ forall q, ~ walk t (in_path st) q node start
  end.

Lemma bs_insert_elems x y (s : bset Z) : sorted s -> x ∈ bs_elems (bs_insert y s) <-> x = y \/ x ∈ bs_elems s.
Proof. intros Hs. rewrite <- !bs_mem_elems. by apply bs_mem_insert. Qed.

(** The loop over the edges, given that the recursion is right. *)
Lemma for_edges_ok t start node dfs edges st :
  state_ok st -> in_path st start -> in_path st node ->
  (forall next, next ∈ edges -> edge t node next) ->
  (forall next st', on_path st' = on_path st -> ~ in_path st next -> next ∈ edges -> dfs_ok t start next st' (dfs next st')) ->
  match for_edges dfs start edges st with
  | None => False
  | Some (Some c, _) =>
    exists next, edge t node next /\ ((next = start /\ forall x, x ∈ bs_elems c <-> in_path st x) \/ found t (in_path st) start next c)
  | Some (None, st') => on_path st' = on_path st /\ start ∉ edges /\ forall next q, next ∈ edges -> ~ walk t (in_path st) q next start
  end.
Proof.
  revert st. induction edges as [|next edges IH]; intros st Hs Hstart Hnode Hedge Hdfs; cbn [for_edges].
  { split_and!; [done|by intros ?%elem_of_nil|by intros ?? ?%elem_of_nil]. }
  destruct (next =? start) eqn:E; prop_bools.
  { subst next. exists start. split; [apply Hedge; set_solver|]. left. split; [done|]. intros x.
    rewrite bs_insert_elems by done. rewrite <- bs_mem_elems. unfold in_path in *. naive_solver. }
  assert (IH' : forall st', on_path st' = on_path st -> (forall q, ~ walk t (in_path st) q next start) ->
    match for_edges dfs start edges st' with
    | None => False
    | Some (Some c, _) =>
      exists next, edge t node next /\ ((next = start /\ forall x, x ∈ bs_elems c <-> in_path st x) \/ found t (in_path st) start next c)
    | Some (None, st'') => on_path st'' = on_path st /\ start ∉ next :: edges /\
        forall n q, n ∈ next :: edges -> ~ walk t (in_path st) q n start
    end).
  { intros st' Hst' Hno. unfold in_path, state_ok in *. rewrite <- Hst' in *. specialize (IH st').
    lapply IH; [clear IH; intros IH|done]. specialize (IH Hstart Hnode ltac:(set_solver)).
    lapply IH; [clear IH; intros IH|].
    - destruct (for_edges dfs start edges st') as [[[c|] st'']|]; [done| |done]. destruct IH as (H1 & H2 & H3).
      split_and!; [done|set_solver|]. intros n q [->|Hn]%elem_of_cons; [apply Hno|by apply H3].
    - intros n s Hn Hp Hin. apply Hdfs; set_solver. }
  destruct (bs_mem next (on_path st)) eqn:Em; cbn [negb].
  { apply IH'; [done|]. intros q Hq. inversion Hq as [? ? Hn|? ? ? ? Hn]; by apply Hn. }
  specialize (Hdfs next (mk_dfs (on_path st) (visited st) (path st ++ [next])) eq_refl).
  lapply Hdfs; [clear Hdfs; intros Hdfs|unfold in_path; congruence]. specialize (Hdfs ltac:(set_solver)).
  destruct (dfs next _) as [[[c|] st']|]; [..|done]; cbn [mbind option_bind dfs_ok] in *.
  - exists next. split; [apply Hedge; set_solver|]. right. exact Hdfs.
  - destruct Hdfs as [H1 H2]. by apply IH'.
Qed.

Lemma walk_avoids t P q a b x : walk t P q a b -> x ∈ q -> ~ P x.
Proof.
  induction 1; intros Hx; [by apply list_elem_of_singleton in Hx as ->|]. apply elem_of_cons in Hx as [->|Hx]; auto.
Qed.

(** The versions with edges that the path has not reached. *)
Definition keys_free (t : LockTable) (st : Dfs) : nat :=
  length (filter (fun k => bs_mem k (on_path st) = false) (map fst (wait_for t))).

Lemma filter_strict {A} (P Q : A -> Prop) `{!forall x, Decision (P x), !forall x, Decision (Q x)} l x :
  (forall y, P y -> Q y) -> x ∈ l -> Q x -> ~ P x -> (length (filter P l) < length (filter Q l))%nat.
Proof.
  intros HPQ Hx HQ HP. assert (Hle : forall l', (length (filter P l') <= length (filter Q l'))%nat).
  { clear -HPQ. induction l' as [|y l IH]; [done|]. rewrite !filter_cons. repeat case_decide; cbn; try lia. exfalso. auto. }
  induction l as [|y l IH]; [by apply elem_of_nil in Hx|]. apply elem_of_cons in Hx as [->|Hx]; rewrite !filter_cons.
  - rewrite decide_False, decide_True by done. cbn. specialize (Hle l). lia.
  - specialize (IH Hx). repeat case_decide; cbn; try lia. exfalso. auto.
Qed.

Lemma sm_lookup_key {V} k (v : V) (l : list (Z * V)) : sm_lookup k l = Some v -> k ∈ map fst l.
Proof. intros H%sm_lookup_elem. apply list_elem_of_fmap. by exists (k, v). Qed.

Lemma keys_free_insert t st st' node edges :
  state_ok st -> ~ in_path st node -> sm_lookup node (wait_for t) = Some edges ->
  on_path st' = bs_insert node (on_path st) -> (keys_free t st' < keys_free t st)%nat.
Proof.
  intros Hs Hn Hk Heq. apply not_true_is_false in Hn. unfold keys_free. rewrite Heq.
  apply (filter_strict _ _ _ node); [|by eapply sm_lookup_key|done|].
  - intros y. rewrite <- !not_true_iff_false, bs_mem_insert by done. tauto.
  - rewrite not_false_iff_true, bs_mem_insert by done. by left.
Qed.

Lemma dfs_cycle_ok t start fuel : forall node st,
  state_ok st -> ~ in_path st node -> start = node \/ in_path st start -> (keys_free t st < fuel)%nat ->
  dfs_ok t start node st (dfs_cycle fuel t start node st).
Proof.
  induction fuel as [|fuel IH]; intros node st Hs Hn Hstart Hfuel; [lia|]. cbn [dfs_cycle].
  set (st1 := mk_dfs (bs_insert node (on_path st)) (bs_insert node (visited st)) (path st)).
  assert (Hs1 : state_ok st1) by by apply bs_insert_sorted.
  assert (Hp1 : forall x, in_path st1 x <-> x = node \/ in_path st x) by (intros x; by apply bs_mem_insert).
  assert (Hback : forall s, on_path s = on_path st1 -> bs_remove node (on_path s) = on_path st).
  { intros s ->. apply sm_remove_insert; [done|]. unfold in_path, bs_mem in Hn. by destruct (sm_lookup node (on_path st)). }
  destruct (sm_lookup node (wait_for t)) as [edges|] eqn:Ek; cbn [mbind option_bind].
  2:{ cbn [dfs_ok on_path]. split; [by apply (Hback st1)|]. intros q Hq. inversion Hq; destruct_and?; unfold edge in *; naive_solver. }
  pose proof (for_edges_ok t start node (dfs_cycle fuel t start) (bs_elems edges) st1 Hs1) as H.
  lapply H; [clear H; intros H|apply Hp1; naive_solver]. lapply H; [clear H; intros H|apply Hp1; by left].
  lapply H; [clear H; intros H|by intros next Hin; exists edges]. lapply H; [clear H; intros H|].
  2:{ intros next s Hs' Hni Hin. apply IH; unfold state_ok, in_path; rewrite ?Hs'; [done|done|right; apply Hp1; naive_solver|].
      pose proof (keys_free_insert t st s node edges Hs Hn Ek Hs'). lia. }
  destruct (for_edges _ _ _ _) as [[[c|] s]|]; [..|done]; cbn [mbind option_bind dfs_ok].
  - destruct H as (next & He & [[-> Hc]|(q & Hq & Hnd & Hc)]).
    + exists [node]. split_and!; [by apply walk_edge|apply NoDup_singleton|]. intros x. rewrite Hc, Hp1, list_elem_of_singleton. naive_solver.
    + exists (node :: q). split_and!.
      * eapply walk_step; [done|done|]. eapply walk_mono; [|exact Hq]. intros x Hx. apply Hp1. by right.
      * apply NoDup_cons. split; [|done]. intros Hin. eapply walk_avoids in Hq; [|done]. apply Hq, Hp1. by left.
      * intros x. rewrite Hc, Hp1, elem_of_cons. tauto.
  - destruct H as (Hp & Hns & Hno). split; [by apply Hback|]. intros q Hq.
    destruct (walk_first _ _ _ _ _ Hq) as (c & (edges' & Ek' & Hc) & Hcase). rewrite Ek in Ek'. injection Ek' as <-.
    destruct Hcase as [->|[q' Hq']]; [done|]. apply (Hno c q' Hc). eapply walk_mono; [|exact Hq'].
    intros x Hx%Hp1. naive_solver.
Qed.

(** Enough fuel: a cycle search always ends, with a simple cycle through the
    version or with the knowledge that there is none. *)
Lemma find_cycle_ok t v :
  match find_cycle t v with
  | None => False
  | Some (Some c) => exists q, walk t (fun _ => False) q v v /\ NoDup q /\ forall x, x ∈ bs_elems c <-> x ∈ q
  | Some None => ~ waits t v v
  end.
Proof.
  unfold find_cycle. pose proof (dfs_cycle_ok t v (S (length (wait_for t))) v (mk_dfs [] [] [v])) as H.
  lapply H; [clear H; intros H|by constructor]. lapply H; [clear H; intros H|done].
  lapply H; [clear H; intros H|by left]. lapply H; [clear H; intros H|].
  2:{ unfold keys_free. pose proof (length_filter (fun k => bs_mem k (on_path (mk_dfs [] [] [v])) = false) (map fst (wait_for t))) as Hl.
      rewrite length_map in Hl. lia. }
  destruct (dfs_cycle _ _ _ _ _) as [[[c|] s]|]; [..|done]; cbn [mbind option_bind dfs_ok] in *.
  - destruct H as (q & Hq & Hnd & Hc). exists q. split_and!; [by eapply walk_mono; [|exact Hq]|done|].
    intros x. rewrite Hc. unfold in_path. cbn. assert (v ∈ q) by (inversion Hq; set_solver). naive_solver.
  - intros (q & Hq)%waits_walk. destruct H as [_ H]. apply (H q). by eapply walk_mono; [|exact Hq].
Qed.

(** ** What the operations do to the holders and the wait-for graph *)

Definition holds (t : LockTable) (rel row v : Z) (m : LockMode) : Prop :=
  exists e, sm_lookup (rel, row) (entries t) = Some e /\ (v, m) ∈ holders e.

(** [b] stands in the way of [v] taking the row in mode [m]. *)
Definition blocks (t : LockTable) (rel row : Z) (m : LockMode) (v b : Z) : Prop :=
  b <> v /\ exists m', holds t rel row b m' /\ conflicts_with m' m = true.

Record table_ok (t : LockTable) : Prop := {
  ok_entries : sorted (entries t);
  ok_wait_for : sorted (wait_for t);
  ok_edges v edges : sm_lookup v (wait_for t) = Some edges -> sorted edges
}.

Lemma new_ok : table_ok new.
Proof. split; [constructor..|done]. Qed.

Lemma existsb_eqb x l : existsb (Z.eqb x) l = true <-> x ∈ l.
Proof. rewrite existsb_exists. setoid_rewrite Z.eqb_eq. rewrite list_elem_of_In. naive_solver. Qed.

Lemma blockers_of_spec m v hs b :
  b ∈ blockers_of m v hs <-> b <> v /\ exists m', (b, m') ∈ hs /\ conflicts_with m' m = true.
Proof.
  unfold blockers_of.
  assert (H : forall acc, b ∈ fold_left (fun blockers '(hv, hmode) =>
    if negb (hv =? v) && conflicts_with hmode m && negb (existsb (Z.eqb hv) blockers) then blockers ++ [hv] else blockers) hs acc <->
    b ∈ acc \/ (b <> v /\ exists m', (b, m') ∈ hs /\ conflicts_with m' m = true)).
  { induction hs as [|[hv hm] hs IH]; intros acc; cbn [fold_left]; [set_solver|]. rewrite IH.
    destruct (negb (hv =? v) && conflicts_with hm m && negb (existsb (Z.eqb hv) acc)) eqn:E; prop_bools.
    - set_solver.
    - setoid_rewrite elem_of_cons. split; [naive_solver|]. intros [?|(Hb & m' & [[= -> ->]|Hin] & Hc)]; [tauto|left|naive_solver].
      rewrite Hc in E. apply Z.eqb_neq in Hb. rewrite Hb in E. cbn in E. apply negb_false_iff in E. by apply existsb_eqb. }
  rewrite H. set_solver.
Qed.

Lemma add_edges_sorted bs E : sorted E -> sorted (add_edges bs E).
Proof. revert E. induction bs as [|b bs IH]; intros E HE; cbn; [done|]. by apply IH, bs_insert_sorted. Qed.

Lemma add_edges_elems bs E x : sorted E -> x ∈ bs_elems (add_edges bs E) <-> x ∈ bs \/ x ∈ bs_elems E.
Proof.
  revert E. induction bs as [|b bs IH]; intros E HE; [cbn; set_solver|].
  change (add_edges (b :: bs) E) with (add_edges bs (bs_insert b E)). rewrite IH by by apply bs_insert_sorted. rewrite bs_insert_elems by done. set_solver.
Qed.

(** Giving [v] more edges. *)
Lemma edge_add t es v bs a b :
  table_ok t ->
  edge (mk_table es (sm_insert v (add_edges bs (default [] (sm_lookup v (wait_for t)))) (wait_for t))) a b <->
  edge t a b \/ (a = v /\ b ∈ bs).
Proof.
  intros Hok. unfold edge. cbn [wait_for]. setoid_rewrite sm_lookup_insert_dec; [|apply (ok_wait_for t Hok)]. case_decide as E.
  - subst a. destruct (sm_lookup v (wait_for t)) as [E|] eqn:El; cbn; split.
    + intros (? & [= <-] & [H|H]%add_edges_elems); [naive_solver..|by eapply ok_edges].
    + intros H. eexists. split; [done|]. apply add_edges_elems; [by eapply ok_edges|naive_solver].
    + intros (? & [= <-] & [H|H]%add_edges_elems); [naive_solver|by apply elem_of_nil in H|constructor].
    + intros [(? & [=] & _)|[_ H]]. eexists. split; [done|]. apply add_edges_elems; [constructor|by left].
  - naive_solver.
Qed.

Lemma edge_remove t es v a b :
  table_ok t -> edge (mk_table es (sm_remove v (wait_for t))) a b <-> a <> v /\ edge t a b.
Proof.
  intros Hok. unfold edge. cbn [wait_for]. setoid_rewrite sm_lookup_remove_dec; [|apply (ok_wait_for t Hok)]. case_decide; naive_solver.
Qed.

(** Changing the entry of one row. *)
Lemma holds_insert t w rel row e rel' row' v m :
  table_ok t ->
  holds (mk_table (sm_insert (rel, row) e (entries t)) w) rel' row' v m <->
  if decide ((rel, row) = (rel', row')) then (v, m) ∈ holders e else holds t rel' row' v m.
Proof.
  intros Hok. unfold holds. cbn [entries]. setoid_rewrite sm_lookup_insert_dec; [|apply (ok_entries t Hok)]. case_decide; naive_solver.
Qed.

Lemma table_ok_intro es w :
  sorted es -> sorted w -> (forall v E, sm_lookup v w = Some E -> sorted E) -> table_ok (mk_table es w).
Proof. by split. Qed.

Lemma table_ok_add t es v bs :
  table_ok t -> sorted es -> table_ok (mk_table es (sm_insert v (add_edges bs (default [] (sm_lookup v (wait_for t)))) (wait_for t))).
Proof.
  intros Hok Hes. apply table_ok_intro; [done|apply sm_insert_sorted, (ok_wait_for t Hok)|].
  intros a E. rewrite sm_lookup_insert_dec by apply (ok_wait_for t Hok). case_decide; [|apply (ok_edges t Hok)].
  intros [= <-]. apply add_edges_sorted. destruct (sm_lookup v (wait_for t)) as [E'|] eqn:El; [by eapply ok_edges|constructor].
Qed.

Lemma table_ok_remove t es v : table_ok t -> sorted es -> table_ok (mk_table es (sm_remove v (wait_for t))).
Proof.
  intros Hok Hes. apply table_ok_intro; [done|apply sm_remove_sorted, (ok_wait_for t Hok)|].
  intros a E. rewrite sm_lookup_remove_dec by apply (ok_wait_for t Hok). case_decide; [done|apply (ok_edges t Hok)].
Qed.

(** *** Releasing *)

Lemma release_holds t version rel row v m :
  table_ok t -> holds (release_all version t) rel row v m <-> v <> version /\ holds t rel row v m.
Proof.
  intros Hok. unfold holds, release_all. cbn [entries].
  setoid_rewrite sm_lookup_retain; [|apply (ok_entries t Hok)].
  destruct (sm_lookup (rel, row) (entries t)) as [e|]; cbn [mbind option_bind]; [|naive_solver].
  assert (Hin : (v, m) ∈ filter (fun h : Z * LockMode => negb (h.1 =? version)) (holders e) <-> v <> version /\ (v, m) ∈ holders e).
  { rewrite list_elem_of_filter. cbn. rewrite Is_true_true, negb_true_iff, Z.eqb_neq. done. }
  destruct (filter (fun h : Z * LockMode => negb (h.1 =? version)) (holders e)) as [|h hs] eqn:Eh.
  - assert (~ (v <> version /\ (v, m) ∈ holders e)) by (rewrite <- Hin; apply not_elem_of_nil).
    destruct (filter _ (waiters e)); split; try naive_solver;
      intros (e' & [= <-] & Hx); cbn in Hx; by apply elem_of_nil in Hx.
  - split; [|naive_solver]. intros (e' & [= <-] & H). cbn [holders] in H. apply Hin in H. naive_solver.
Qed.

Lemma release_edge t version a b :
  table_ok t -> edge (release_all version t) a b <-> a <> version /\ b <> version /\ edge t a b.
Proof.
  intros Hok. unfold edge, release_all. cbn [wait_for].
  setoid_rewrite sm_lookup_retain; [|apply sm_remove_sorted, (ok_wait_for t Hok)].
  setoid_rewrite sm_lookup_remove_dec; [|apply (ok_wait_for t Hok)]. case_decide; cbn [mbind option_bind]; [naive_solver|].
  destruct (sm_lookup a (wait_for t)) as [E|] eqn:El; cbn [mbind option_bind]; [|naive_solver].
  assert (Hrem : b ∈ bs_elems (bs_remove version E) <-> b <> version /\ b ∈ bs_elems E)
    by (rewrite <- !bs_mem_elems; apply bs_mem_remove; by eapply ok_edges).
  split; [intros (? & [= <-] & ?%Hrem); naive_solver|]. intros (_ & Hb & (? & [= <-] & Hin)). eexists. split; [done|]. by apply Hrem.
Qed.

Lemma release_ok t version : table_ok t -> table_ok (release_all version t).
Proof.
  intros Hok. apply table_ok_intro; [apply sm_retain_sorted, (ok_entries t Hok)|apply sm_retain_sorted, sm_remove_sorted, (ok_wait_for t Hok)|].
  intros a E. rewrite sm_lookup_retain by apply sm_remove_sorted, (ok_wait_for t Hok). rewrite sm_lookup_remove_dec by apply (ok_wait_for t Hok).
  case_decide; cbn [mbind option_bind]; [done|]. intros (E' & El & [= <-])%bind_Some. apply bs_remove_sorted. by eapply ok_edges.
Qed.

(** *** Acquiring *)

Definition blockers (t : LockTable) (rel row : Z) (mode : LockMode) (v : Z) : list Z :=
  blockers_of mode v (holders (default empty_entry (sm_lookup (rel, row) (entries t)))).

Lemma blockers_spec t rel row mode v b : b ∈ blockers t rel row mode v <-> blocks t rel row mode v b.
Proof.
  unfold blockers, blocks, holds. rewrite blockers_of_spec.
  destruct (sm_lookup (rel, row) (entries t)) as [e|]; cbn; [naive_solver|]. setoid_rewrite elem_of_nil. naive_solver.
Qed.

(** [acquire] grants a row nobody stands in the way of. *)
Lemma acquire_granted rel row mode v policy t :
  table_ok t -> blockers t rel row mode v = [] ->
  exists t', acquire rel row mode v policy t = Some (Granted, t') /\ table_ok t' /\
    (forall rel' row' w m, holds t' rel' row' w m <->
       holds t rel' row' w m \/ (rel' = rel /\ row' = row /\ w = v /\ m = mode)) /\
    (forall a b, edge t' a b <-> a <> v /\ edge t a b).
Proof.
  intros Hok Hb. unfold acquire. unfold blockers in Hb. set (e := default empty_entry (sm_lookup (rel, row) (entries t))) in *.
  cbn [entries wait_for]. rewrite Hb. eexists. split; [done|].
  assert (Hok1 : table_ok (mk_table (sm_insert (rel, row) e (entries t)) (wait_for t))).
  { apply table_ok_intro; [apply sm_insert_sorted, (ok_entries t Hok)|apply (ok_wait_for t Hok)|apply (ok_edges t Hok)]. }
  split_and!.
  - apply (table_ok_remove _ _ v Hok). apply sm_insert_sorted, sm_insert_sorted, (ok_entries t Hok).
  - intros rel' row' w m. rewrite (holds_insert _ _ _ _ _ _ _ _ _ Hok1).
    case_decide as Ek; [|rewrite (holds_insert t (wait_for t) _ _ _ _ _ _ _ Hok), decide_False by done; naive_solver]. injection Ek as <- <-. cbn [holders].
    assert (He : (w, m) ∈ holders e <-> holds t rel row w m).
    { unfold holds, e. destruct (sm_lookup (rel, row) (entries t)); cbn; [naive_solver|]. rewrite elem_of_nil. naive_solver. }
    destruct (existsb _ (holders e)) eqn:Ee.
    + rewrite He. split; [tauto|]. intros [?|(_ & _ & -> & ->)]; [done|]. apply He.
      apply existsb_exists in Ee as ([hv hm] & Hin%list_elem_of_In & Hh). prop_bools. by apply bool_decide_eq_true in H0 as ->; subst hv.
    + rewrite elem_of_app, list_elem_of_singleton, He. naive_solver.
  - intros a b. by apply edge_remove.
Qed.

(** Otherwise the policy decides, and only [Wait] changes the table. *)
Lemma acquire_blocked rel row mode v policy t :
  table_ok t -> blockers t rel row mode v <> [] ->
  match policy with
  | NoWait => acquire rel row mode v policy t = Some (NotAvailable, t)
  | SkipLocked => acquire rel row mode v policy t = Some (Skip, t)
  | Wait =>
    exists t', acquire rel row mode v policy t = park v (blockers t rel row mode v) t' /\ table_ok t' /\
      (forall rel' row' w m, holds t' rel' row' w m <-> holds t rel' row' w m) /\
      (forall a b, edge t' a b <-> edge t a b \/ (a = v /\ b ∈ blockers t rel row mode v))
  end.
Proof.
  intros Hok Hb. unfold acquire. unfold blockers in *. cbn [entries wait_for].
  destruct (sm_lookup (rel, row) (entries t)) as [e|] eqn:El; [|by destruct Hb]. cbn [from_option id] in *.
  assert (Hsame : sm_insert (rel, row) e (entries t) = entries t) by (apply sm_insert_same; [apply (ok_entries t Hok)|done]).
  rewrite Hsame. destruct (blockers_of mode v (holders e)) as [|b0 bs] eqn:Eb; [done|].
  assert (Ht : mk_table (entries t) (wait_for t) = t) by by destruct t.
  destruct policy; [|by rewrite Ht..].
  eexists. split; [done|]. split_and!.
  - apply table_ok_add; [done|]. apply sm_insert_sorted, (ok_entries t Hok).
  - intros rel' row' w m. rewrite (holds_insert t _ _ _ _ _ _ _ _ Hok). case_decide as Ek; [|done]. injection Ek as <- <-.
    cbn [holders]. unfold holds. rewrite El. naive_solver.
  - intros a b. by apply edge_add.
Qed.

(** *** Parking *)

Lemma fold_max l x : (forall y, y ∈ l -> y <= fold_left Z.max l x) /\ x <= fold_left Z.max l x /\ (fold_left Z.max l x = x \/ fold_left Z.max l x ∈ l).
Proof.
  revert x. induction l as [|z l IH]; intros x; cbn; [split_and!; [by intros ? ?%elem_of_nil|lia|by left]|].
  destruct (IH (Z.max x z)) as (H1 & H2 & H3). split_and!; [|lia|].
  - intros y [->|Hy]%elem_of_cons; [lia|by apply H1].
  - destruct H3 as [H3|H3]; [|by right; set_solver]. destruct (Z.max_spec x z) as [[? E]|[? E]]; [right|left]; rewrite H3, E; [set_solver|done].
Qed.

Lemma iter_max_spec l : l <> [] -> exists m, iter_max l = Some m /\ m ∈ l /\ forall y, y ∈ l -> y <= m.
Proof.
  destruct l as [|x l]; [done|]. intros _. cbn. exists (fold_left Z.max l x). destruct (fold_max l x) as (H1 & H2 & H3).
  split_and!; [done|destruct H3 as [->|]; set_solver|]. intros y [->|Hy]%elem_of_cons; [done|by apply H1].
Qed.

Lemma walk_elem t P q a b x : walk t P q a b -> x ∈ q -> (x = a \/ waits t a x) /\ waits t x b.
Proof.
  induction 1 as [a b _ He|a c b q _ He Hq IH]; intros Hx.
  - apply list_elem_of_singleton in Hx as ->. split; [by left|by apply tc_once].
  - apply elem_of_cons in Hx as [->|Hx]; [split; [by left|eapply tc_l; [done|by eapply walk_waits]]|].
    destruct (IH Hx) as [[->|H] H']; split; try done; right; [by apply tc_once|by eapply tc_l].
Qed.

(** The victim of a cycle through [v]. *)
Lemma find_cycle_victim t v :
  waits t v v ->
  exists c m, find_cycle t v = Some (Some c) /\ iter_max (bs_elems c) = Some m /\ waits t v m /\ waits t m v /\ v <= m /\
    forall x, x ∈ bs_elems c -> x <= m.
Proof.
  intros Hw. pose proof (find_cycle_ok t v) as H. destruct (find_cycle t v) as [[c|]|]; [|done|done].
  destruct H as (q & Hq & _ & Hc). assert (Hv : v ∈ q) by (inversion Hq; set_solver).
  destruct (iter_max_spec (bs_elems c)) as (m & Em & Hin & Hmax); [intros E; rewrite <- Hc, E in Hv; by apply elem_of_nil in Hv|].
  exists c, m. apply Hc in Hin. destruct (walk_elem _ _ _ _ _ _ Hq Hin) as [Hvm Hmv].
  split_and!; [done|done|by destruct Hvm as [->|]|done|apply Hmax, Hc, Hv|done].
Qed.

Lemma park_spec v on t :
  exists o, park v on t = Some (o, t) /\
  match o with
  | WouldBlock on' => on' = on /\ ~ waits t v v
  | Deadlock victim => waits t v victim /\ waits t victim v /\ v <= victim
  | _ => False
  end.
Proof.
  unfold park. pose proof (find_cycle_ok t v) as H. destruct (find_cycle t v) as [[c|]|] eqn:E; [..|done]; cbn [mbind option_bind].
  - destruct H as (q & Hq & _ & _). destruct (find_cycle_victim t v) as (c' & m & E' & Em & ? & ? & ? & _); [by eapply walk_waits|].
    rewrite E in E'. injection E' as <-. rewrite Em. eexists. split; [done|]. done.
  - eexists. split; [done|]. done.
Qed.

(** ** The theorems *)

(** C25: the deadlock detector always answers, and exactly: it reports a cycle
    if and only if the version waits, directly or through others, for itself,
    and what it reports is the set of versions of a simple cycle through it. *)
Theorem find_cycle_exact t v :
  exists r, find_cycle t v = Some r /\ (is_Some r <-> waits t v v) /\
    forall c, r = Some c ->
      exists q, walk t (fun _ => False) q v v /\ NoDup q /\ forall x, x ∈ bs_elems c <-> x ∈ q.
Proof.
  pose proof (find_cycle_ok t v) as H. destruct (find_cycle t v) as [[c|]|]; [| |done].
  - exists (Some c). split_and!; [done| |by intros c' [= <-]].
    split; [|eauto]. intros _. destruct H as (q & Hq & _). by eapply walk_waits.
  - exists None. split_and!; [done|split; [by intros [? [=]]|done]|done].
Qed.

(** C36: no deadlock survives its members' retries: on every cycle there is a
    version whose own check names itself the victim, so its caller aborts
    it. *)
Theorem deadlock_victim_dies t v :
  waits t v v ->
  exists victim t', waits t v victim /\ waits t victim v /\ park victim [] t = Some (Deadlock victim, t').
Proof.
  intros Hw.
  assert (Hstep : forall n w, waits t v w -> waits t w v ->
            (length (filter (fun k => (w < k)%Z) (map fst (wait_for t))) < n)%nat ->
            exists victim t', waits t v victim /\ waits t victim v /\ park victim [] t = Some (Deadlock victim, t')).
  { induction n as [|n IH]; intros w Hvw Hwv Hn; [lia|].
    assert (Hww : waits t w w) by (etrans; [exact Hwv|exact Hvw]).
    destruct (find_cycle_victim t w Hww) as (c & m & Ec & Em & Hwm & Hmw & Hle & _).
    destruct (decide (m = w)) as [->|Hne].
    - exists w, t. split_and!; [done..|]. unfold park. rewrite Ec. cbn [mbind option_bind]. by rewrite Em.
    - apply (IH m); [by etrans|by etrans|]. eapply Nat.lt_le_trans; [|apply Nat.lt_succ_r, Hn].
      apply (filter_strict _ _ _ m); [intros y; lia| |lia|lia].
      assert (exists b, edge t m b) as (b & E & Hk & _) by (inversion Hmw; eauto). by eapply sm_lookup_key. }
  by apply (Hstep _ v Hw Hw (Nat.lt_succ_diag_r _)).
Qed.

(** What [acquire] answers on a well-formed table, in every case: the lock
    when no other version stands in the way, and otherwise what the policy
    says; a wait is recorded, and is answered [Deadlock] exactly when it closes
    a cycle, whose victim is on the cycle and no older than the requester. *)
Lemma acquire_decides rel row mode v policy t :
  table_ok t ->
  exists o t', acquire rel row mode v policy t = Some (o, t') /\ table_ok t' /\
  match o with
  | Granted => (forall b, ~ blocks t rel row mode v b) /\ holds t' rel row v mode /\ (forall b, ~ edge t' v b)
  | NotAvailable => policy = NoWait /\ t' = t /\ exists b, blocks t rel row mode v b
  | Skip => policy = SkipLocked /\ t' = t /\ exists b, blocks t rel row mode v b
  | WouldBlock on =>
    policy = Wait /\ on <> [] /\ (forall b, b ∈ on <-> blocks t rel row mode v b) /\
    (forall b, b ∈ on -> edge t' v b) /\ ~ waits t' v v
  | Deadlock victim =>
    policy = Wait /\ (exists b, blocks t rel row mode v b) /\ waits t' v victim /\ waits t' victim v /\ v <= victim
  end.
Proof.
  intros Hok. destruct (blockers t rel row mode v) as [|b0 bs] eqn:Eb.
  - destruct (acquire_granted rel row mode v policy t Hok Eb) as (t' & E & Hok' & Hh & He).
    exists Granted, t'. split_and!; [done|done| |apply Hh; by right|intros b Hb%He; naive_solver].
    intros b Hb%blockers_spec. rewrite Eb in Hb. by apply elem_of_nil in Hb.
  - assert (Hsome : exists b, blocks t rel row mode v b) by (exists b0; apply blockers_spec; rewrite Eb; set_solver).
    pose proof (acquire_blocked rel row mode v policy t Hok ltac:(by rewrite Eb)) as H. destruct policy; [|eauto 10..].
    destruct H as (t' & E & Hok' & Hh & He). destruct (park_spec v (blockers t rel row mode v) t') as (o & Ep & Ho).
    rewrite Ep in E. exists o, t'. split_and!; [done|done|]. destruct o; try done.
    destruct Ho as [-> Hn]. split_and!; [done|by rewrite Eb|by intros b; apply blockers_spec|intros b Hb; apply He; by right|done].
Qed.

(** A history of calls, with what each answered. *)
Inductive call : Type :=
| Acquire (rel row : Z) (mode : LockMode) (version : Z) (policy : WaitPolicy)
| WaitOn (waiter : Z) (blockers : list Z)
| ReleaseAll (version : Z)
| ClearWait (waiter : Z).

Definition perform (c : call) (t : LockTable) : option (option LockOutcome * LockTable) :=
  match c with
  | Acquire rel row mode version policy => let! (o, t) := acquire rel row mode version policy t in Some (Some o, t)
  | WaitOn waiter blockers => let! (o, t) := wait_on_versions waiter blockers t in Some (Some o, t)
  | ReleaseAll version => Some (None, release_all version t)
  | ClearWait waiter => Some (None, clear_wait waiter t)
  end.

Fixpoint perform_all (cs : list call) (t : LockTable) : option (list (option LockOutcome) * LockTable) :=
  match cs with
  | [] => Some ([], t)
  | c :: cs =>
    let! (o, t) := perform c t in
    let! (os, t) := perform_all cs t in
    Some (o :: os, t)
  end.

Definition exclusive (t : LockTable) : Prop :=
  forall rel row v1 m1 v2 m2, holds t rel row v1 m1 -> holds t rel row v2 m2 -> v1 <> v2 -> conflicts_with m1 m2 = false.

Definition acyclic (t : LockTable) : Prop := forall v, ~ waits t v v.

Lemma conflicts_sym a b : conflicts_with a b = conflicts_with b a.
Proof. by destruct a, b. Qed.

Lemma exclusive_same t t' :
  (forall rel row v m, holds t' rel row v m -> holds t rel row v m) -> exclusive t -> exclusive t'.
Proof. intros H He rel row v1 m1 v2 m2 H1%H H2%H. by eapply He. Qed.

Lemma waits_mono t t' : (forall a b, edge t' a b -> edge t a b) -> forall a b, waits t' a b -> waits t a b.
Proof. intros H a b. induction 1; [apply tc_once|eapply tc_l]; eauto. Qed.

Lemma acyclic_same t t' : (forall a b, edge t' a b -> edge t a b) -> acyclic t -> acyclic t'.
Proof. intros H Ha v Hv. by eapply Ha, waits_mono. Qed.

(** New edges all start at [v], so a new cycle passes through [v]. *)
Lemma acyclic_add t t' v :
  (forall a b, edge t' a b -> edge t a b \/ a = v) -> ~ waits t' v v -> acyclic t -> acyclic t'.
Proof.
  intros H Hv Ha w Hw. assert (Hcases : forall a b, waits t' a b -> waits t a b \/ (waits t' v b /\ (a = v \/ waits t' a v))).
  { induction 1 as [a b He|a c b He Hcb IH]; [destruct (H a b He) as [He'| ->]; [left; by apply tc_once|right; split; [by apply tc_once|by left]]|].
    destruct IH as [IH|[IH1 IH2]].
    - destruct (H a c He) as [He'| ->]; [left; by eapply tc_l|right; split; [by eapply tc_l|by left]].
    - right. split; [done|]. destruct IH2 as [->|IH2]; right; [by apply tc_once|by eapply tc_l]. }
  destruct (Hcases w w Hw) as [?|[H1 H2]]; [by eapply Ha|]. apply Hv. destruct H2 as [->|H2]; [done|by etrans].
Qed.

Lemma wait_on_edges waiter bs E :
  fold_left (fun edges b => if negb (b =? waiter) then bs_insert b edges else edges) bs E =
  add_edges (filter (fun b => negb (b =? waiter)) bs) E.
Proof.
  revert E. induction bs as [|b bs IH]; intros E; [done|]. cbn [fold_left]. rewrite IH, filter_cons.
  destruct (b =? waiter) eqn:Eb; cbn [negb]; by case_decide.
Qed.

Definition keeps (t t' : LockTable) (o : option LockOutcome) : Prop :=
  table_ok t' /\ (exclusive t -> exclusive t') /\ (acyclic t -> (forall v, o <> Some (Deadlock v)) -> acyclic t').

Lemma park_keeps t t' v on :
  table_ok t' -> (forall rel row w m, holds t' rel row w m <-> holds t rel row w m) ->
  (forall a b, edge t' a b -> edge t a b \/ a = v) ->
  exists o, park v on t' = Some (o, t') /\ keeps t t' (Some o).
Proof.
  intros Hok Hh He. destruct (park_spec v on t') as (o & Ep & Ho). exists o. split; [done|]. split_and!; [done| |].
  - apply exclusive_same. intros. by apply Hh.
  - intros Ha Hnd. destruct o; try done; [|by destruct (Hnd victim)]. eapply acyclic_add; [exact He|apply Ho|done].
Qed.

Lemma acquire_keeps rel row mode v policy t :
  table_ok t -> exists o t', acquire rel row mode v policy t = Some (o, t') /\ keeps t t' (Some o).
Proof.
  intros Hok. destruct (blockers t rel row mode v) as [|b0 bs] eqn:Eb.
  - destruct (acquire_granted rel row mode v policy t Hok Eb) as (t' & E & Hok' & Hh & He). exists Granted, t'.
    assert (Hfree : forall w m, holds t rel row w m -> w <> v -> conflicts_with m mode = false).
    { intros w m Hw Hne. apply not_true_iff_false. intros Hc. assert (Hin : w ∈ blockers t rel row mode v) by (apply blockers_spec; split; eauto).
      rewrite Eb in Hin. by apply elem_of_nil in Hin. }
    split; [done|]. split_and!; [done| |intros Ha _; eapply acyclic_same; [|exact Ha]; intros a b Hab%He; tauto].
    intros Hx r x v1 m1 v2 m2 [H1|H1]%Hh [H2|H2]%Hh Hne; destruct_and?; simplify_eq.
    + by eapply Hx.
    + by eapply Hfree.
    + rewrite conflicts_sym. eapply Hfree; [done|congruence].
  - pose proof (acquire_blocked rel row mode v policy t Hok ltac:(by rewrite Eb)) as H.
    destruct policy; [|eexists _, t; split; [exact H|split_and!; tauto]..].
    destruct H as (t' & E & Hok' & Hh & He).
    destruct (park_keeps t t' v (blockers t rel row mode v) Hok' Hh) as (o & Ep & Hk); [intros a b Hab%He; tauto|].
    exists o, t'. split; [by rewrite E|done].
Qed.

Lemma perform_keeps c t : table_ok t -> exists o t', perform c t = Some (o, t') /\ keeps t t' o.
Proof.
  intros Hok. destruct c as [rel row mode v policy|w bs|v|w]; cbn [perform].
  - destruct (acquire_keeps rel row mode v policy t Hok) as (o & t' & E & Hk). exists (Some o), t'. by rewrite E.
  - unfold wait_on_versions. rewrite wait_on_edges.
    edestruct (park_keeps t (mk_table (entries t) (sm_insert w (add_edges (filter (fun b => negb (b =? w)) bs) (default [] (sm_lookup w (wait_for t)))) (wait_for t))) w bs)
      as (o & Ep & Hk); [apply table_ok_add; [done|apply (ok_entries t Hok)]|done|intros a b Hab%edge_add; [tauto|done]|].
    eexists _, _. by rewrite Ep.
  - eexists None, _. split; [done|]. split_and!; [by apply release_ok| |].
    + apply exclusive_same. intros. by eapply release_holds.
    + intros Ha _. eapply acyclic_same; [|exact Ha]. intros a b Hab. by apply release_edge in Hab as (_ & _ & ?).
  - eexists None, _. split; [done|]. split_and!; [apply table_ok_remove; [done|apply (ok_entries t Hok)]|by apply exclusive_same|].
    intros Ha _. eapply acyclic_same; [|exact Ha]. intros a b Hab. by apply edge_remove in Hab as [_ ?].
Qed.

(** C9: whatever calls the lock table receives, in whatever order, it answers
    them all, two versions never hold one row in conflicting modes, and as long
    as no call was answered [Deadlock] no version waits for itself. *)
Theorem locks_exclude cs :
  exists os t, perform_all cs new = Some (os, t) /\ table_ok t /\ exclusive t /\
    ((forall v, Some (Deadlock v) ∉ os) -> acyclic t).
Proof.
  assert (H : forall t, table_ok t -> exists os t', perform_all cs t = Some (os, t') /\ table_ok t' /\
            (exclusive t -> exclusive t') /\ (acyclic t -> (forall v, Some (Deadlock v) ∉ os) -> acyclic t')).
  { induction cs as [|c cs IH]; intros t Hok; [exists [], t; by split_and!|].
    destruct (perform_keeps c t Hok) as (o & t1 & E & Hok1 & Hx1 & Ha1).
    destruct (IH t1 Hok1) as (os & t' & Es & Hok' & Hx & Ha). exists (o :: os), t'. cbn. rewrite E. cbn. rewrite Es. cbn.
    split_and!; [done|done|auto|]. intros Hac Hnd. apply Ha; [apply Ha1; [done|]|]; intros v; specialize (Hnd v); set_solver. }
  destruct (H new new_ok) as (os & t & E & Hok & Hx & Ha). exists os, t. split_and!; [done|done| |].
  - apply Hx. intros r x v1 m1 v2 m2 (e & [=] & _).
  - apply Ha. intros v Hv. inversion Hv as [? ? (? & [=] & _)|? ? ? (? & [=] & _)].
Qed.

(** The other side of [Deadlock]: releasing everything a victim holds makes it
    a blocker of nobody and takes it out of the wait-for graph. *)
Lemma release_frees version t rel row mode v :
  table_ok t -> ~ blocks (release_all version t) rel row mode v version.
Proof. intros Hok (_ & m' & Hh & _). by apply release_holds in Hh as [? _]. Qed.

Lemma deadlock_victim_dies_witness :
  exists victim t', waits (mk_table [] [(10, [(20, ())]); (20, [(10, ())])]) 10 victim /\
    waits (mk_table [] [(10, [(20, ())]); (20, [(10, ())])]) victim 10 /\
    park victim [] (mk_table [] [(10, [(20, ())]); (20, [(10, ())])]) = Some (Deadlock victim, t').
Proof.
  apply (deadlock_victim_dies (mk_table [] [(10, [(20, ())]); (20, [(10, ())])]) 10).
  apply (tc_l _ _ 20); [|apply tc_once]; eexists; (split; [reflexivity|by constructor]).
Defined.

Lemma acquire_holds_more rel row mode v policy t o t' r x w m :
  table_ok t -> acquire rel row mode v policy t = Some (o, t') -> holds t r x w m -> holds t' r x w m.
Proof.
  intros Hok E Hh. destruct (blockers t rel row mode v) as [|b0 bs] eqn:Eb.
  - destruct (acquire_granted rel row mode v policy t Hok Eb) as (t1 & E1 & _ & H & _). rewrite E1 in E. injection E as <- <-. apply H. by left.
  - pose proof (acquire_blocked rel row mode v policy t Hok ltac:(by rewrite Eb)) as H. destruct policy; [|rewrite H in E; by injection E as <- <-..].
    destruct H as (t1 & E1 & _ & H & _). destruct (park_spec v (blockers t rel row mode v) t1) as (o' & Ep & _).
    rewrite E1, Ep in E. injection E as <- <-. by apply H.
Qed.

(** What a [Wait] request leads to. *)
Lemma acquire_decides_aux rel row mode v t :
  table_ok t ->
  exists o t', acquire rel row mode v Wait t = Some (o, t') /\ table_ok t' /\ (exclusive t -> exclusive t') /\ match o with
  | Granted => holds t' rel row v mode
  | WouldBlock on => exists b, edge t' v b
  | Deadlock victim => waits t' v victim /\ waits t' victim v
  | _ => False
  end.
Proof.
  intros Hok. destruct (acquire_keeps rel row mode v Wait t Hok) as (o & t' & E & Hk & Hx & _).
  exists o, t'. split_and!; [done..|]. destruct (blockers t rel row mode v) as [|b0 bs] eqn:Eb.
  - destruct (acquire_granted rel row mode v Wait t Hok Eb) as (t1 & E1 & _ & H & _). rewrite E1 in E. injection E as <- <-. apply H. by right.
  - destruct (acquire_blocked rel row mode v Wait t Hok ltac:(by rewrite Eb)) as (t1 & E1 & _ & _ & He).
    destruct (park_spec v (blockers t rel row mode v) t1) as (o' & Ep & Ho). rewrite E1, Ep in E. injection E as <- <-.
    destruct o'; try done; [|tauto]. exists b0. apply He. right. split; [done|]. rewrite Eb. set_solver.
Qed.

(** The row locks of UPDATE and DELETE: [lock_dml_rows] either ends with
    every target row held in the mode asked for and nothing waited for, or
    stops at a row another version holds, telling its caller to abort only if
    the caller's version is on a cycle of waits. *)
Lemma lock_dml_rows_spec rel rids mode v t :
  table_ok t ->
  exists r t', lock_dml_rows rel rids mode v t = Some (r, t') /\ table_ok t' /\ (exclusive t -> exclusive t') /\
  match r with
  | Ok _ => forall rid, rid ∈ rids -> holds t' rel rid v mode
  | Err LockWouldBlock => exists b, edge t' v b
  | Err LockDeadlock => waits t' v v
  end.
Proof.
  intros Hok.
  enough (H : exists r t', lock_dml_rows rel rids mode v t = Some (r, t') /\ table_ok t' /\ (exclusive t -> exclusive t') /\
            (forall rid, holds t rel rid v mode -> holds t' rel rid v mode) /\
            match r with
            | Ok _ => forall rid, rid ∈ rids -> holds t' rel rid v mode
            | Err LockWouldBlock => exists b, edge t' v b
            | Err LockDeadlock => waits t' v v
            end) by (destruct H as (r & t' & ? & ? & ? & _ & ?); eauto 10).
  revert t Hok. induction rids as [|rid rids IH]; intros t Hok; cbn [lock_dml_rows].
  { exists (Ok ()), t. split_and!; try done. by intros ? ?%elem_of_nil. }
  destruct (acquire_decides_aux rel rid mode v t Hok) as (o & t1 & E & Hok1 & Hx1 & Ho). rewrite E. cbn [mbind option_bind].
  assert (Hm : forall x, holds t rel x v mode -> holds t1 rel x v mode) by (intros x; by eapply acquire_holds_more).
  destruct o as [|on| | |victim]; try done.
  - destruct (IH t1 Hok1) as (r & t' & E' & Hok' & Hx & Hm' & Hr). exists r, t'. split_and!; [done|done|auto|auto|].
    destruct r as [u|[]]; [|done..]. intros x [->|Hin]%elem_of_cons; [apply Hm', Ho|by apply Hr].
  - exists (Err LockWouldBlock), t1. by split_and!.
  - destruct (victim =? v) eqn:Ev; prop_bools.
    + subst victim. exists (Err LockDeadlock), t1. split_and!; try done. apply Ho.
    + exists (Err LockWouldBlock), t1. split_and!; try done. destruct Ho as [Ho _]. inversion Ho; eauto.
Qed.
