(* ===== verification/Blake3.v ===== *)
(** BLAKE3 (crates/spg-crypto/src/lib.rs): the scalar compression function,
    its NEON twin, chunk and tree hashing, and hex output.  Arrays are lists of
    their fixed length; a [u32] is a [Z] with its wrap-around written out. *)
From S2P Require Import Prelude Bytes.
Open Scope Z_scope.

Definition OUT_LEN : nat := 32.
Definition BLOCK_LEN : nat := 64.
Definition CHUNK_LEN : nat := 1024.

Definition CHUNK_START : Z := 1.
Definition CHUNK_END : Z := 2.
Definition PARENT : Z := 4.
Definition ROOT : Z := 8.

Definition IV : list Z :=
  [0x6A09E667; 0xBB67AE85; 0x3C6EF372; 0xA54FF53A; 0x510E527F; 0x9B05688C; 0x1F83D9AB; 0x5BE0CD19].

Definition MSG_PERMUTATION : list nat :=
  [2; 6; 3; 10; 7; 0; 4; 13; 1; 11; 12; 5; 9; 14; 15; 8]%nat.

Definition add32 (x y : Z) : Z := wrapping_add 32 x y.

(** ** The scalar compression function *)

Definition g (state : list Z) (a b c d : nat) (mx my : Z) : list Z :=
  let state := <[a := add32 (add32 (state !!! a) (state !!! b)) mx]> state in
  let state := <[d := rotate_right 32 (Z.lxor (state !!! d) (state !!! a)) 16]> state in
  let state := <[c := add32 (state !!! c) (state !!! d)]> state in
  let state := <[b := rotate_right 32 (Z.lxor (state !!! b) (state !!! c)) 12]> state in
  let state := <[a := add32 (add32 (state !!! a) (state !!! b)) my]> state in
  let state := <[d := rotate_right 32 (Z.lxor (state !!! d) (state !!! a)) 8]> state in
  let state := <[c := add32 (state !!! c) (state !!! d)]> state in
  <[b := rotate_right 32 (Z.lxor (state !!! b) (state !!! c)) 7]> state.

Definition round (state m : list Z) : list Z :=
  (* Column. *)
  let state := g state 0 4 8 12 (m !!! 0%nat) (m !!! 1%nat) in
  let state := g state 1 5 9 13 (m !!! 2%nat) (m !!! 3%nat) in
  let state := g state 2 6 10 14 (m !!! 4%nat) (m !!! 5%nat) in
  let state := g state 3 7 11 15 (m !!! 6%nat) (m !!! 7%nat) in
  (* Diagonal. *)
  let state := g state 0 5 10 15 (m !!! 8%nat) (m !!! 9%nat) in
  let state := g state 1 6 11 12 (m !!! 10%nat) (m !!! 11%nat) in
  let state := g state 2 7 8 13 (m !!! 12%nat) (m !!! 13%nat) in
  g state 3 4 9 14 (m !!! 14%nat) (m !!! 15%nat).

Definition permute (m : list Z) : list Z := map (fun i => m !!! i) MSG_PERMUTATION.

(** [state[i] ^= state[i + 8]; state[i + 8] ^= chaining_value[i]]. *)
Definition mix_out (chaining_value state : list Z) : list Z :=
  fold_left (fun state i =>
    let state := <[i := Z.lxor (state !!! i) (state !!! (i + 8)%nat)]> state in
    <[(i + 8)%nat := Z.lxor (state !!! (i + 8)%nat) (chaining_value !!! i)]> state) (seq 0 8) state.

Definition compress_scalar (chaining_value block_words : list Z) (counter block_len flags : Z) : list Z :=
  let state :=
    [chaining_value !!! 0%nat; chaining_value !!! 1%nat; chaining_value !!! 2%nat; chaining_value !!! 3%nat;
     chaining_value !!! 4%nat; chaining_value !!! 5%nat; chaining_value !!! 6%nat; chaining_value !!! 7%nat;
     IV !!! 0%nat; IV !!! 1%nat; IV !!! 2%nat; IV !!! 3%nat;
     wrap 32 counter; wrap 32 (Z.shiftr counter 32); block_len; flags] in
  let block := block_words in
  let state := round state block in
  let block := permute block in
  let state := round state block in
  let block := permute block in
  let state := round state block in
  let block := permute block in
  let state := round state block in
  let block := permute block in
  let state := round state block in
  let block := permute block in
  let state := round state block in
  let block := permute block in
  let state := round state block in
  mix_out chaining_value state.

Definition compress := compress_scalar.

(** ** The NEON compression function

    A [uint32x4_t] is a list of four words. *)
Definition vaddq_u32 : list Z -> list Z -> list Z := zip_with add32.
Definition veorq_u32 : list Z -> list Z -> list Z := zip_with Z.lxor.
Definition vshrq_n_u32 (n : Z) : list Z -> list Z := map (fun x => Z.shiftr x n).
Definition vshlq_n_u32 (n : Z) : list Z -> list Z := map (fun x => shl_w 32 x n).
Definition vextq_u32 (n : nat) (a b : list Z) : list Z := take 4 (drop n (a ++ b)).
Definition vld1q_u32 (p : list Z) : list Z := take 4 p.
Definition vld2q_u32 (p : list Z) : list Z * list Z :=
  ([p !!! 0%nat; p !!! 2%nat; p !!! 4%nat; p !!! 6%nat], [p !!! 1%nat; p !!! 3%nat; p !!! 5%nat; p !!! 7%nat]).
Definition vsetq_lane_u32 (lane : nat) (x : Z) (v : list Z) : list Z := <[lane := x]> v.

Definition vrotr16 (x : list Z) : list Z := veorq_u32 (vshrq_n_u32 16 x) (vshlq_n_u32 16 x).
Definition vrotr12 (x : list Z) : list Z := veorq_u32 (vshrq_n_u32 12 x) (vshlq_n_u32 20 x).
Definition vrotr8 (x : list Z) : list Z := veorq_u32 (vshrq_n_u32 8 x) (vshlq_n_u32 24 x).
Definition vrotr7 (x : list Z) : list Z := veorq_u32 (vshrq_n_u32 7 x) (vshlq_n_u32 25 x).

Definition neon_g (a b c d mx my : list Z) : list Z * list Z * list Z * list Z :=
  let a := vaddq_u32 (vaddq_u32 a b) mx in
  let d := vrotr16 (veorq_u32 d a) in
  let c := vaddq_u32 c d in
  let b := vrotr12 (veorq_u32 b c) in
  let a := vaddq_u32 (vaddq_u32 a b) my in
  let d := vrotr8 (veorq_u32 d a) in
  let c := vaddq_u32 c d in
  let b := vrotr7 (veorq_u32 b c) in
  (a, b, c, d).

Definition one_round (v0 v1 v2 v3 m : list Z) : list Z * list Z * list Z * list Z :=
  let pair := vld2q_u32 m in
  let '(v0, v1, v2, v3) := neon_g v0 v1 v2 v3 pair.1 pair.2 in
  let v1r := vextq_u32 1 v1 v1 in
  let v2r := vextq_u32 2 v2 v2 in
  let v3r := vextq_u32 3 v3 v3 in
  let pair := vld2q_u32 (drop 8 m) in
  let '(v0, v1r, v2r, v3r) := neon_g v0 v1r v2r v3r pair.1 pair.2 in
  (v0, vextq_u32 3 v1r v1r, vextq_u32 2 v2r v2r, vextq_u32 1 v3r v3r).

Definition neon_compress (chaining_value block_words : list Z) (counter block_len flags : Z) : list Z :=
  let v0 := vld1q_u32 chaining_value in
  let v1 := vld1q_u32 (drop 4 chaining_value) in
  let v2 := vld1q_u32 IV in
  let v3 := vsetq_lane_u32 0 (wrap 32 counter) (vld1q_u32 (drop 4 IV)) in
  let v3 := vsetq_lane_u32 1 (wrap 32 (Z.shiftr counter 32)) v3 in
  let v3 := vsetq_lane_u32 2 block_len v3 in
  let v3 := vsetq_lane_u32 3 flags v3 in
  let '(v0, v1, v2, v3, _) :=
    fold_left (fun '(v0, v1, v2, v3, block) (round_idx : nat) =>
      let '(v0, v1, v2, v3) := one_round v0 v1 v2 v3 block in
      (v0, v1, v2, v3, if (round_idx <? 6)%nat then permute block else block))
      (seq 0 7) (v0, v1, v2, v3, block_words) in
  let v0 := veorq_u32 v0 v2 in
  let v1 := veorq_u32 v1 v3 in
  let v2 := veorq_u32 v2 (vld1q_u32 chaining_value) in
  let v3 := veorq_u32 v3 (vld1q_u32 (drop 4 chaining_value)) in
  v0 ++ v1 ++ v2 ++ v3.

(** ** Chunks and the tree *)

Definition words_from_le_bytes (bytes : list Z) : list Z := map (fun i => le_val (slice (4 * i) 4 bytes)) (seq 0 16).

Definition bytes_from_le_words (words : list Z) : list Z := concat (map (le_bytes 4) words).

Definition div_ceil (a b : nat) : nat := ((a + b - 1) / b)%nat.

Definition hash_chunk (input : list Z) (chunk_counter : Z) (is_root : bool) (base_flags : Z) : list Z :=
  let block_count := if (length input =? 0)%nat then 1%nat else div_ceil (length input) BLOCK_LEN in
  fold_left (fun cv b_idx =>
    let start := (b_idx * BLOCK_LEN)%nat in
    let end_ := Nat.min (start + BLOCK_LEN) (length input) in
    let block := if (start <? end_)%nat
                 then slice start (end_ - start) input ++ repeat 0 (BLOCK_LEN - (end_ - start))
                 else repeat 0 BLOCK_LEN in
    let block_words := words_from_le_bytes block in
    let block_len := Z.of_nat (end_ - start) in
    let flags := base_flags in
    let flags := if (b_idx =? 0)%nat then Z.lor flags CHUNK_START else flags in
    let flags := if (b_idx =? block_count - 1)%nat
                 then let flags := Z.lor flags CHUNK_END in if is_root then Z.lor flags ROOT else flags
                 else flags in
    take 8 (compress cv block_words chunk_counter block_len flags)) (seq 0 block_count) IV.

Definition parent_cv (left_ right_ : list Z) (is_root : bool) (base_flags : Z) : list Z :=
  let block_words := left_ ++ right_ in
  let flags := Z.lor base_flags PARENT in
  let flags := if is_root then Z.lor flags ROOT else flags in
  take 8 (compress IV block_words 0 (Z.of_nat BLOCK_LEN) flags).

(** [1 << (usize::BITS - 1 - n.leading_zeros())]. *)
Definition largest_power_of_two_leq (n : nat) : nat := (2 ^ Nat.log2 n)%nat.

(** The recursion is bounded by the number of bytes; [None]: out of fuel. *)
Fixpoint hash_subtree (fuel : nat) (input : list Z) (chunk_counter_base base_flags : Z) : option (list Z) :=
  match fuel with
  | O => None
  | S fuel =>
    if (length input <=? CHUNK_LEN)%nat then Some (hash_chunk input chunk_counter_base false base_flags)
    else
      let total_chunks := div_ceil (length input) CHUNK_LEN in
      let left_chunks := largest_power_of_two_leq (total_chunks - 1) in
      let left_len := (left_chunks * CHUNK_LEN)%nat in
      let left_ := take left_len input in
      let right_ := drop left_len input in
      let! left_cv := hash_subtree fuel left_ chunk_counter_base base_flags in
      let! right_cv := hash_subtree fuel right_ (chunk_counter_base + Z.of_nat left_chunks) base_flags in
      Some (parent_cv left_cv right_cv false base_flags)
  end.

Definition hash (input : list Z) : option (list Z) :=
  let base_flags := 0 in
  if (length input <=? CHUNK_LEN)%nat then
    let cv := hash_chunk input 0 true base_flags in
    Some (bytes_from_le_words cv)
  else
    let total_chunks := div_ceil (length input) CHUNK_LEN in
    let left_chunks := largest_power_of_two_leq (total_chunks - 1) in
    let left_len := (left_chunks * CHUNK_LEN)%nat in
    let left_ := take left_len input in
    let right_ := drop left_len input in
    let! left_cv := hash_subtree (length input) left_ 0 base_flags in
    let! right_cv := hash_subtree (length input) right_ (Z.of_nat left_chunks) base_flags in
    let root_cv := parent_cv left_cv right_cv true base_flags in
    Some (bytes_from_le_words root_cv).

(** "0123456789abcdef" *)
Definition HEX : list Z := [48; 49; 50; 51; 52; 53; 54; 55; 56; 57; 97; 98; 99; 100; 101; 102].

Definition hex (digest : list Z) : list Z :=
  concat (map (fun b => [HEX !!! Z.to_nat (Z.shiftr b 4); HEX !!! Z.to_nat (Z.land b 0x0F)]) digest).

(** The published digest of the empty string: af1349b9f5f9a1a6... *)
Example empty_digest :
  take 8 <$> hash [] = Some [0xaf; 0x13; 0x49; 0xb9; 0xf5; 0xf9; 0xa1; 0xa6].
Proof. by vm_compute. Qed.

(** ** The two compression functions agree *)

(** The quarter round on four words. *)
Definition quarter (a b c d mx my : Z) : Z * Z * Z * Z :=
  let a := add32 (add32 a b) mx in
  let d := rotate_right 32 (Z.lxor d a) 16 in
  let c := add32 c d in
  let b := rotate_right 32 (Z.lxor b c) 12 in
  let a := add32 (add32 a b) my in
  let d := rotate_right 32 (Z.lxor d a) 8 in
  let c := add32 c d in
  let b := rotate_right 32 (Z.lxor b c) 7 in
  (a, b, c, d).

(** NEON rotates with [xor] where the scalar code has [or]: the shifted parts
    do not overlap. *)
Lemma lxor_rotate x n : u32 x -> 0 < n < 32 -> Z.lxor (Z.shiftr x n) (shl_w 32 x (32 - n)) = rotate_right 32 x n.
Proof.
  intros Hx Hn. unfold rotate_right. apply Z.bits_inj'. intros i Hi. rewrite Z.lxor_spec, Z.lor_spec.
  enough (Z.testbit (Z.shiftr x n) i = false \/ Z.testbit (shl_w 32 x (32 - n)) i = false) as [-> | ->] by
    (by destruct (Z.testbit _ i)).
  destruct (decide (i < 32 - n)).
  - right. unfold shl_w, wrap. rewrite Z.mod_pow2_bits_low by lia. rewrite Z.shiftl_spec by done. apply Z.testbit_neg_r. lia.
  - left. rewrite Z.shiftr_spec by done. apply (in_w_high 32 x); [done|lia..].
Qed.

Lemma add32_range x y : u32 (add32 x y).
Proof. by apply wrap_range. Qed.

Lemma rotate_range x n : u32 x -> 0 < n < 32 -> u32 (rotate_right 32 x n).
Proof. intros Hx Hn. apply in_w_lor; [done| |by apply wrap_range]. apply in_w_shiftr; [done|lia]. Qed.

Lemma lxor_range x y : u32 x -> u32 y -> u32 (Z.lxor x y).
Proof. by apply in_w_lxor. Qed.

#[local] Hint Resolve add32_range rotate_range lxor_range : spg.
#[local] Hint Extern 1 (_ < _ < _) => lia : spg.

Definition quad_u32 (q : Z * Z * Z * Z) : Prop :=
  let '(a, b, c, d) := q in u32 a /\ u32 b /\ u32 c /\ u32 d.

Lemma quarter_range a b c d mx my : u32 b -> u32 d -> quad_u32 (quarter a b c d mx my).
Proof. intros Hb Hd. unfold quad_u32, quarter. cbn. split_and!; auto 10 with spg. Qed.

(** One lane of NEON's [g]. *)
Lemma quarter_neon a b c d mx my :
  u32 b -> u32 d ->
  (let a := add32 (add32 a b) mx in
   let d := let x := Z.lxor d a in Z.lxor (Z.shiftr x 16) (shl_w 32 x 16) in
   let c := add32 c d in
   let b := let x := Z.lxor b c in Z.lxor (Z.shiftr x 12) (shl_w 32 x 20) in
   let a := add32 (add32 a b) my in
   let d := let x := Z.lxor d a in Z.lxor (Z.shiftr x 8) (shl_w 32 x 24) in
   let c := add32 c d in
   let b := let x := Z.lxor b c in Z.lxor (Z.shiftr x 7) (shl_w 32 x 25) in
   (a, b, c, d)) = quarter a b c d mx my.
Proof.
  intros Hb Hd. unfold quarter. cbv zeta.
  rewrite (lxor_rotate (Z.lxor d _) 16) by auto 10 with spg. rewrite (lxor_rotate (Z.lxor b _) 12) by auto 10 with spg.
  rewrite (lxor_rotate _ 8) by auto 10 with spg. rewrite (lxor_rotate _ 7) by auto 10 with spg. done.
Qed.

Lemma neon_g_lanes a0 a1 a2 a3 b0 b1 b2 b3 c0 c1 c2 c3 d0 d1 d2 d3 x0 x1 x2 x3 y0 y1 y2 y3 :
  Forall u32 [b0; b1; b2; b3] -> Forall u32 [d0; d1; d2; d3] ->
  neon_g [a0; a1; a2; a3] [b0; b1; b2; b3] [c0; c1; c2; c3] [d0; d1; d2; d3] [x0; x1; x2; x3] [y0; y1; y2; y3] =
  let '(a0, b0, c0, d0) := quarter a0 b0 c0 d0 x0 y0 in
  let '(a1, b1, c1, d1) := quarter a1 b1 c1 d1 x1 y1 in
  let '(a2, b2, c2, d2) := quarter a2 b2 c2 d2 x2 y2 in
  let '(a3, b3, c3, d3) := quarter a3 b3 c3 d3 x3 y3 in
  ([a0; a1; a2; a3], [b0; b1; b2; b3], [c0; c1; c2; c3], [d0; d1; d2; d3]).
Proof.
  intros Hb Hd. repeat match goal with H : Forall _ (_ :: _) |- _ => apply Forall_cons in H as [? H] end.
  rewrite <- !quarter_neon by done. reflexivity.
Qed.

(** The scalar [g] on the columns and diagonals of an explicit state. *)
Definition state16 (s : list Z) : Prop := length s = 16%nat /\ Forall u32 s.

Ltac explode s Hlen :=
  repeat (let x := fresh "s" in destruct s as [|x s]; [discriminate Hlen|]); destruct s as [|]; [|discriminate Hlen].

Section Quarters.
Context (s0 s1 s2 s3 s4 s5 s6 s7 s8 s9 s10 s11 s12 s13 s14 s15 mx my : Z).
Let s : list Z := [s0; s1; s2; s3; s4; s5; s6; s7; s8; s9; s10; s11; s12; s13; s14; s15].

Lemma g_col0 : g s 0 4 8 12 mx my = let '(a, b, c, d) := quarter s0 s4 s8 s12 mx my in
  [a; s1; s2; s3; b; s5; s6; s7; c; s9; s10; s11; d; s13; s14; s15].
Proof. reflexivity. Qed.

Lemma g_col1 : g s 1 5 9 13 mx my = let '(a, b, c, d) := quarter s1 s5 s9 s13 mx my in
  [s0; a; s2; s3; s4; b; s6; s7; s8; c; s10; s11; s12; d; s14; s15].
Proof. reflexivity. Qed.

Lemma g_col2 : g s 2 6 10 14 mx my = let '(a, b, c, d) := quarter s2 s6 s10 s14 mx my in
  [s0; s1; a; s3; s4; s5; b; s7; s8; s9; c; s11; s12; s13; d; s15].
Proof. reflexivity. Qed.

Lemma g_col3 : g s 3 7 11 15 mx my = let '(a, b, c, d) := quarter s3 s7 s11 s15 mx my in
  [s0; s1; s2; a; s4; s5; s6; b; s8; s9; s10; c; s12; s13; s14; d].
Proof. reflexivity. Qed.

Lemma g_diag0 : g s 0 5 10 15 mx my = let '(a, b, c, d) := quarter s0 s5 s10 s15 mx my in
  [a; s1; s2; s3; s4; b; s6; s7; s8; s9; c; s11; s12; s13; s14; d].
Proof. reflexivity. Qed.

Lemma g_diag1 : g s 1 6 11 12 mx my = let '(a, b, c, d) := quarter s1 s6 s11 s12 mx my in
  [s0; a; s2; s3; s4; s5; b; s7; s8; s9; s10; c; d; s13; s14; s15].
Proof. reflexivity. Qed.

Lemma g_diag2 : g s 2 7 8 13 mx my = let '(a, b, c, d) := quarter s2 s7 s8 s13 mx my in
  [s0; s1; a; s3; s4; s5; s6; b; c; s9; s10; s11; s12; d; s14; s15].
Proof. reflexivity. Qed.

Lemma g_diag3 : g s 3 4 9 14 mx my = let '(a, b, c, d) := quarter s3 s4 s9 s14 mx my in
  [s0; s1; s2; a; b; s5; s6; s7; s8; c; s10; s11; s12; s13; d; s15].
Proof. reflexivity. Qed.
End Quarters.

(** Name the words of the next quarter round and keep their ranges. *)
Ltac next_quarter :=
  match goal with
  | |- context [quarter ?a ?b ?c ?d ?x ?y] =>
    let H := fresh "Hq" in
    pose proof (quarter_range a b c d x y ltac:(assumption) ltac:(assumption)) as H;
    destruct (quarter a b c d x y) as [[[? ?] ?] ?]; cbn [quad_u32] in H; destruct H as (? & ? & ? & ?)
  end.

Ltac ranges := repeat (apply Forall_cons_2; [assumption|]); apply Forall_nil_2.

Definition vectors (q : list Z * list Z * list Z * list Z) : list Z :=
  let '(v0, v1, v2, v3) := q in v0 ++ v1 ++ v2 ++ v3.

Definition vectors4 (q : list Z * list Z * list Z * list Z) : Prop :=
  let '(v0, v1, v2, v3) := q in length v0 = 4%nat /\ length v1 = 4%nat /\ length v2 = 4%nat /\ length v3 = 4%nat.

Lemma one_round_scalar v0 v1 v2 v3 m :
  vectors4 (v0, v1, v2, v3) -> Forall u32 (vectors (v0, v1, v2, v3)) -> length m = 16%nat ->
  vectors (one_round v0 v1 v2 v3 m) = round (vectors (v0, v1, v2, v3)) m /\
  vectors4 (one_round v0 v1 v2 v3 m) /\ Forall u32 (vectors (one_round v0 v1 v2 v3 m)).
Proof.
  intros (H0 & H1 & H2 & H3) Hs Hm. cbn [vectors] in *.
  explode v0 H0. explode v1 H1. explode v2 H2. explode v3 H3. explode m Hm. cbn [app] in *.
  repeat match goal with H : Forall _ (_ :: _) |- _ => apply Forall_cons in H as [? H] end.
  unfold round, one_round. cbn [lookup_total list_lookup_total vld2q_u32 fst snd drop].
  rewrite g_col0. unfold vld2q_u32. cbn [fst snd lookup_total list_lookup_total].
  rewrite neon_g_lanes by ranges.
  next_quarter. rewrite g_col1. next_quarter. rewrite g_col2. next_quarter. rewrite g_col3. next_quarter.
  cbn [vextq_u32 app drop take].
  rewrite neon_g_lanes by ranges.
  rewrite g_diag0. next_quarter. rewrite g_diag1. next_quarter. rewrite g_diag2. next_quarter. rewrite g_diag3. next_quarter.
  cbn [vextq_u32 app drop take vectors vectors4 length].
  split_and!; [reflexivity|done..|ranges].
Qed.

Lemma length_permute m : length (permute m) = 16%nat.
Proof. done. Qed.

(** Take one round on both sides. *)
Ltac next_round :=
  match goal with
  | |- context [one_round ?a ?b ?c ?d ?m] =>
    let E := fresh "E" in let H4 := fresh "H4" in let Hr := fresh "Hr" in
    destruct (one_round_scalar a b c d m ltac:(assumption) ltac:(assumption) ltac:(assumption || exact (length_permute _)))
      as (E & H4 & Hr);
    rewrite <- E; clear E; destruct (one_round a b c d m) as [[[? ?] ?] ?];
    repeat match goal with
    | |- context [(?i <? 6)%nat] => let b := eval vm_compute in (i <? 6)%nat in change (i <? 6)%nat with b
    end; cbv beta iota
  end.

Definition block_args (cv m : list Z) (counter block_len flags : Z) : Prop :=
  length cv = 8%nat /\ Forall u32 cv /\ length m = 16%nat /\ u64 counter /\ u32 block_len /\ u32 flags.

(** The final mixing, both ways. *)
Lemma mix_out_vectors cv v0 v1 v2 v3 :
  length cv = 8%nat -> vectors4 (v0, v1, v2, v3) ->
  mix_out cv (vectors (v0, v1, v2, v3)) =
  veorq_u32 v0 v2 ++ veorq_u32 v1 v3 ++
  veorq_u32 v2 (vld1q_u32 cv) ++ veorq_u32 v3 (vld1q_u32 (drop 4 cv)).
Proof.
  intros Hc (H0 & H1 & H2 & H3). explode cv Hc. explode v0 H0. explode v1 H1. explode v2 H2. explode v3 H3. reflexivity.
Qed.

Lemma IV_range : Forall u32 IV.
Proof. unfold IV. repeat (apply Forall_cons_2; [by apply in_wb_spec|]). apply Forall_nil_2. Qed.

(** C27: the NEON compression function computes exactly what the scalar one
    computes, for every chaining value, block, counter, length and flags. *)
Theorem neon_matches_scalar cv m counter block_len flags :
  block_args cv m counter block_len flags ->
  neon_compress cv m counter block_len flags = compress cv m counter block_len flags.
Proof.
  intros (Hc & Hcr & Hm & Hcnt & Hbl & Hfl). unfold compress, compress_scalar, neon_compress. cbv zeta.
  set (v0 := vld1q_u32 cv). set (v1 := vld1q_u32 (drop 4 cv)). set (v2 := vld1q_u32 IV).
  set (v3 := vsetq_lane_u32 3 flags _).
  assert (Hinit : [cv !!! 0%nat; cv !!! 1%nat; cv !!! 2%nat; cv !!! 3%nat; cv !!! 4%nat; cv !!! 5%nat; cv !!! 6%nat; cv !!! 7%nat;
     IV !!! 0%nat; IV !!! 1%nat; IV !!! 2%nat; IV !!! 3%nat; wrap 32 counter; wrap 32 (Z.shiftr counter 32); block_len; flags] =
     vectors (v0, v1, v2, v3)) by (clear -Hc; explode cv Hc; reflexivity).
  rewrite Hinit.
  assert (H4 : vectors4 (v0, v1, v2, v3)) by (clear -Hc; explode cv Hc; done).
  assert (Hr : Forall u32 (vectors (v0, v1, v2, v3))).
  { rewrite <- Hinit. clear -Hc Hcr Hbl Hfl. explode cv Hc. cbn [lookup_total list_lookup_total].
    repeat match goal with H : Forall _ (_ :: _) |- _ => apply Forall_cons in H as [? H] end.
    pose proof IV_range as Hi. unfold IV in *.
    repeat match goal with H : Forall _ (_ :: _) |- _ => apply Forall_cons in H as [? H] end.
    repeat (apply Forall_cons_2; [first [assumption|by apply wrap_range]|]). apply Forall_nil_2. }
  clearbody v2 v3. clear Hinit Hcr Hcnt Hbl Hfl.
  cbn [seq fold_left].
  do 7 next_round.
  symmetry. by apply mix_out_vectors.
Qed.

Lemma neon_matches_scalar_witness :
  neon_compress IV (repeat 7 16) 1 64 3 = compress IV (repeat 7 16) 1 64 3.
Proof.
  apply (neon_matches_scalar IV (repeat 7 16) 1 64 3). split_and!; [done|exact IV_range|done|by apply in_wb_spec..].
Defined.

(** ** Hashing always gives 32 bytes *)

Lemma length_g s a b c d mx my : length (g s a b c d mx my) = length s.
Proof. unfold g. by rewrite !length_insert. Qed.

Lemma length_round s m : length (round s m) = length s.
Proof. unfold round. by rewrite !length_g. Qed.

Lemma length_mix_out cv s : length (mix_out cv s) = length s.
Proof.
  unfold mix_out. generalize (seq 0 8) as l. intros l. revert s. induction l as [|i l IH]; intros s; [done|].
  cbn [fold_left]. by rewrite IH, !length_insert.
Qed.

Lemma length_compress cv m counter block_len flags : length (compress cv m counter block_len flags) = 16%nat.
Proof. unfold compress, compress_scalar. cbv zeta. by rewrite length_mix_out, !length_round. Qed.

Lemma fold_length {B} (f : list Z -> B -> list Z) n bs cv :
  (forall cv b, length (f cv b) = n) -> length cv = n -> length (fold_left f bs cv) = n.
Proof. intros Hf. revert cv. induction bs as [|b bs IH]; intros cv Hcv; [done|]. apply IH, Hf. Qed.

Lemma length_cv cv m counter block_len flags : length (take 8 (compress cv m counter block_len flags)) = 8%nat.
Proof. by rewrite length_take, length_compress. Qed.

Lemma length_hash_chunk input counter is_root base_flags : length (hash_chunk input counter is_root base_flags) = 8%nat.
Proof. unfold hash_chunk. apply fold_length; [|reflexivity]. intros cv i. apply length_cv. Qed.

Lemma length_parent_cv l r is_root base_flags : length (parent_cv l r is_root base_flags) = 8%nat.
Proof. unfold parent_cv. apply length_cv. Qed.

(** The left subtree is a power of two of whole chunks and at least as many
    as the right one, which is not empty. *)
Lemma split_bounds len :
  (CHUNK_LEN < len)%nat ->
  let total := div_ceil len CHUNK_LEN in
  let left_chunks := largest_power_of_two_leq (total - 1) in
  (0 < left_chunks)%nat /\ (left_chunks < total <= 2 * left_chunks)%nat /\ (left_chunks * CHUNK_LEN < len)%nat.
Proof.
  intros Hlen total left_chunks. unfold CHUNK_LEN in *.
  assert (Hd : (1024 * (total - 1) < len <= 1024 * total)%nat).
  { unfold total, div_ceil. pose proof (Nat.div_mod_eq (len + 1024 - 1) 1024). pose proof (Nat.mod_upper_bound (len + 1024 - 1) 1024). lia. }
  destruct (Nat.log2_spec (total - 1)) as [Hlo Hhi]; [lia|]. rewrite Nat.pow_succ_r' in Hhi.
  unfold left_chunks, largest_power_of_two_leq. lia.
Qed.

Lemma hash_subtree_total fuel input base base_flags :
  (length input < fuel)%nat -> exists cv, hash_subtree fuel input base base_flags = Some cv /\ length cv = 8%nat.
Proof.
  revert input base. induction fuel as [|fuel IH]; intros input base Hf; [lia|]. cbn [hash_subtree].
  case_if; [eexists; split; [done|apply length_hash_chunk]|].
  destruct (split_bounds (length input)) as (H0 & _ & H1); [lia|].
  set (n := largest_power_of_two_leq _) in *. cbv zeta. assert (0 < CHUNK_LEN)%nat by (unfold CHUNK_LEN; lia).
  destruct (IH (take (n * CHUNK_LEN) input) base) as (l & El & _); [rewrite length_take; nia|].
  destruct (IH (drop (n * CHUNK_LEN) input) (base + Z.of_nat n)) as (r & Er & _); [rewrite length_drop; nia|].
  rewrite El. cbn [mbind option_bind]. rewrite Er. eexists. split; [done|apply length_parent_cv].
Qed.

Lemma bytes_from_le_words_ok ws : length (bytes_from_le_words ws) = (4 * length ws)%nat /\ is_bytes (bytes_from_le_words ws).
Proof.
  unfold bytes_from_le_words. induction ws as [|w ws [IH1 IH2]]; [by split; [|constructor]|]. cbn [map concat]. split.
  - rewrite length_app, length_le_bytes, IH1. cbn [length]. lia.
  - apply is_bytes_app. split; [apply le_bytes_bytes|done].
Qed.

(** [hash] terminates on every input and gives 32 bytes. *)
Lemma hash_total input : exists d, hash input = Some d /\ length d = OUT_LEN /\ is_bytes d.
Proof.
  assert (Hw : forall cv, length cv = 8%nat ->
            exists d, Some (bytes_from_le_words cv) = Some d /\ length d = OUT_LEN /\ is_bytes d).
  { intros cv Hcv. destruct (bytes_from_le_words_ok cv) as [H1 H2]. eexists. split_and!; [done| |done]. rewrite H1, Hcv. done. }
  unfold hash. case_if; [apply Hw, length_hash_chunk|].
  destruct (split_bounds (length input)) as (H0 & _ & H1); [lia|].
  set (n := largest_power_of_two_leq _) in *. cbv zeta. assert (0 < CHUNK_LEN)%nat by (unfold CHUNK_LEN; lia).
  destruct (hash_subtree_total (length input) (take (n * CHUNK_LEN) input) 0 0) as (l & El & _); [rewrite length_take; nia|].
  destruct (hash_subtree_total (length input) (drop (n * CHUNK_LEN) input) (Z.of_nat n) 0) as (r & Er & _); [rewrite length_drop; nia|].
  rewrite El. cbn [mbind option_bind]. rewrite Er. cbn [mbind option_bind]. apply Hw, length_parent_cv.
Qed.

(** Hex output determines the digest. *)
Lemma hex_digit_inj x y : 0 <= x < 16 -> 0 <= y < 16 -> HEX !!! Z.to_nat x = HEX !!! Z.to_nat y -> x = y.
Proof.
  intros Hx Hy.
  assert (H : forallb (fun a => forallb (fun b => negb (HEX !!! a =? HEX !!! b) || (a =? b)%nat) (seq 0 16)) (seq 0 16) = true) by by vm_compute.
  rewrite forallb_forall in H. specialize (H (Z.to_nat x) ltac:(apply in_seq; lia)). rewrite forallb_forall in H.
  specialize (H (Z.to_nat y) ltac:(apply in_seq; lia)). intros E. apply Z.eqb_eq in E. rewrite E in H. cbn [negb orb] in H.
  apply Nat.eqb_eq in H. lia.
Qed.

Lemma hex_inj d1 d2 : is_bytes d1 -> is_bytes d2 -> hex d1 = hex d2 -> d1 = d2.
Proof.
  unfold hex. intros H1. revert d2. induction H1 as [|x d1 Hx _ IH]; intros d2 H2; destruct H2 as [|y d2 Hy H2]; try done.
  cbn [map concat app]. intros E. injection E as Eh El E. f_equal; [|by apply IH].
  assert (Hh : forall z, u8 z -> 0 <= Z.shiftr z 4 < 16) by (intros z [? Hz]; rewrite Z.shiftr_div_pow2 by done; change (2 ^ 8) with 256 in Hz; zdm).
  assert (Hl : forall z, 0 <= Z.land z 15 < 16) by (intros z; change 15 with (2 ^ 4 - 1); rewrite land_low by done; apply Z.mod_pos_bound; lia).
  apply hex_digit_inj in Eh; [|by apply Hh..]. apply hex_digit_inj in El; [|apply Hl..].
  rewrite !Z.shiftr_div_pow2 in Eh by done. change 15 with (2 ^ 4 - 1) in El. rewrite !land_low in El by done.
  rewrite (Z.div_mod x (2 ^ 4)), (Z.div_mod y (2 ^ 4)) by done. congruence.
Qed.
