(* ===== verification/AuditLog.v ===== *)
(** The hash-chained audit log (crates/spg-audit/src/lib.rs): appending,
    verifying, and the on-disk form.  The chain is over the BLAKE3 of
    Blake3.v, used through the interface [Digest]. *)
From S2P Require Import Prelude Bytes Blake3.
Open Scope Z_scope.

(** What the log relies on of its hash: a function to 32 bytes. *)
Class Digest : Type := {
  blake3 : list Z -> list Z;
  blake3_length input : length (blake3 input) = 32%nat;
  blake3_bytes input : is_bytes (blake3 input)
}.

#[export] Instance Blake3_Digest : Digest.
Proof.
  refine {| blake3 := fun input => default [] (hash input) |};
    intros input; destruct (hash_total input) as (d & -> & Hl & Hb); [exact Hl|exact Hb].
Defined.

Definition HASH_LEN : nat := OUT_LEN.

(** "SPGAUDIT" *)
Definition FILE_MAGIC : list Z := [83; 80; 71; 65; 85; 68; 73; 84].
Definition FILE_VERSION : Z := 1.

(** [sql] is the string's UTF-8 bytes. *)
Record AuditEntry : Type := mk_entry {
  seq_ : Z;
  ts_ms : Z;
  prev_hash : list Z;
  hash_ : list Z;
  sql : list Z
}.

#[export] Instance AuditEntry_eq_dec : EqDecision AuditEntry.
Proof. solve_decision. Defined.

(** [AuditLog] is its vector of entries. *)
Abbreviation AuditLog := (list AuditEntry).

(** The texts in [BadHeader] and [BadLength] say which test failed. *)
Inductive BadHeaderCause : Type := TooShort | WrongMagic (got : list Z) | UnsupportedVersion (got : Z).

Inductive AuditError : Type :=
| Truncated
| BadHeader (cause : BadHeaderCause)
| BrokenChain (seq : Z)
| HashMismatch (seq : Z)
| InvalidUtf8 (seq : Z)
| BadLength.

Section Log.
Context {HD : Digest}.

Definition zero_hash : list Z := repeat 0 HASH_LEN.

Definition compute_entry_hash (seq ts : Z) (prev sql : list Z) : list Z :=
  blake3 (le_bytes 8 seq ++ le_bytes 8 ts ++ prev ++ sql).

Definition new : AuditLog := [].

Definition is_empty (log : AuditLog) : bool := match log with [] => true | _ => false end.

Definition append (sql : list Z) (ts_ms : Z) (log : AuditLog) : list Z * AuditLog :=
  let seq := Z.of_nat (length log) in
  let prev_hash := match last log with Some e => hash_ e | None => zero_hash end in
  let hash := compute_entry_hash seq ts_ms prev_hash sql in
  (hash, log ++ [mk_entry seq ts_ms prev_hash hash sql]).

(** One turn of the loop of [verify], at index [i]. *)
Definition verify_entry (log : AuditLog) (i : nat) (e : AuditEntry) : result () AuditError :=
  if negb (seq_ e =? Z.of_nat i) then Err (BrokenChain (seq_ e))
  else
    let expected_prev := if (i =? 0)%nat then zero_hash
                         else match log !! (i - 1)%nat with Some p => hash_ p | None => [] end in
    if bool_decide (prev_hash e <> expected_prev) then Err (BrokenChain (seq_ e))
    else
      let recomputed := compute_entry_hash (seq_ e) (ts_ms e) (prev_hash e) (sql e) in
      if bool_decide (recomputed <> hash_ e) then Err (HashMismatch (seq_ e))
      else Ok ().

Fixpoint verify_from (log : AuditLog) (i : nat) (rest : list AuditEntry) : result () AuditError :=
  match rest with
  | [] => Ok ()
  | e :: rest => let? _ := verify_entry log i e in verify_from log (S i) rest
  end.

Definition verify (log : AuditLog) : result () AuditError := verify_from log 0 log.

(** ** On disk *)

(** [None]: the [expect] on a statement of 4 GiB or more. *)
Definition encode_entry (out : list Z) (e : AuditEntry) : option (list Z) :=
  let out := out ++ le_bytes 8 (seq_ e) in
  let out := out ++ le_bytes 8 (ts_ms e) in
  let out := out ++ prev_hash e in
  let out := out ++ hash_ e in
  if Z.of_nat (length (sql e)) <? 2 ^ 32 then
    let out := out ++ le_bytes 4 (Z.of_nat (length (sql e))) in
    Some (out ++ sql e)
  else None.

Definition header_bytes : list Z := FILE_MAGIC ++ [FILE_VERSION].

Definition serialize (log : AuditLog) : option (list Z) :=
  foldl (fun out e => let! out := out in encode_entry out e) (Some (FILE_MAGIC ++ [FILE_VERSION])) log.

Definition encode_entry_to (log : AuditLog) (idx : nat) (out : list Z) : option (list Z) :=
  let! e := log !! idx in
  encode_entry out e.

(** Offsets stay below [usize::MAX], so the two [checked_add]s succeed. *)
Definition decode_entry (buf : list Z) (off : nat) : result (AuditEntry * nat) AuditError :=
  let fixed_end := (off + 84)%nat in
  if (length buf <? fixed_end)%nat then Err Truncated
  else
    let seq := le_val (slice off 8 buf) in
    let ts_ms := le_val (slice (off + 8) 8 buf) in
    let prev_hash := slice (off + 16) 32 buf in
    let hash := slice (off + 48) 32 buf in
    let sql_len := le_val (slice (off + 80) 4 buf) in
    let sql_end := (fixed_end + Z.to_nat sql_len)%nat in
    if (length buf <? sql_end)%nat then Err Truncated
    else
      let? sql := from_utf8 (slice fixed_end (Z.to_nat sql_len) buf) (InvalidUtf8 seq) in
      Ok (mk_entry seq ts_ms prev_hash hash sql, sql_end).

(** The [while]; every turn consumes at least 84 bytes. *)
Fixpoint decode_loop (fuel : nat) (buf : list Z) (off : nat) (log : AuditLog) : option (result AuditLog AuditError) :=
  match fuel with
  | O => None
  | S fuel =>
    if (off <? length buf)%nat then
      match decode_entry buf off with
      | Err e => Some (Err e)
      | Ok (entry, next) => decode_loop fuel buf next (log ++ [entry])
      end
    else Some (Ok log)
  end.

Definition deserialize (buf : list Z) : option (result AuditLog AuditError) :=
  if (length buf <? 9)%nat then Some (Err (BadHeader TooShort))
  else if bool_decide (take 8 buf <> FILE_MAGIC) then Some (Err (BadHeader (WrongMagic (take 8 buf))))
  else if negb (buf !!! 8%nat =? FILE_VERSION) then Some (Err (BadHeader (UnsupportedVersion (buf !!! 8%nat))))
  else
    let! log := decode_loop (S (length buf)) buf 9 new in
    Some (let? log := log in
          let? _ := verify log in
          Ok log).

(** ** The chain *)

(** What [verify] accepts, entry by entry. *)
Definition link_ok (log : AuditLog) (i : nat) (e : AuditEntry) : Prop :=
  seq_ e = Z.of_nat i /\
  prev_hash e = match i with O => zero_hash | S j => match log !! j with Some p => hash_ p | None => [] end end /\
  hash_ e = compute_entry_hash (seq_ e) (ts_ms e) (prev_hash e) (sql e).

Definition chain_ok (log : AuditLog) : Prop := forall i e, log !! i = Some e -> link_ok log i e.

Lemma verify_entry_ok log i e : verify_entry log i e = Ok () <-> link_ok log i e.
Proof.
  unfold verify_entry, link_ok.
  replace (if (i =? 0)%nat then zero_hash else match log !! (i - 1)%nat with Some p => hash_ p | None => [] end)
    with (match i with O => zero_hash | S j => match log !! j with Some p => hash_ p | None => [] end end)
    by (destruct i as [|i]; [done|]; cbn [Nat.eqb]; by rewrite Nat.sub_1_r).
  destruct (seq_ e =? Z.of_nat i) eqn:E; prop_bools; cbn [negb]; [|naive_solver].
  do 2 (case_bool_decide; [naive_solver|]). split; [|done]. intros _. split_and!; [done|first [done|by apply dec_stable]|symmetry; first [done|by apply dec_stable]].
Qed.

Lemma verify_from_ok log i rest :
  verify_from log i rest = Ok () <-> forall j e, rest !! j = Some e -> link_ok log (i + j) e.
Proof.
  revert i. induction rest as [|e rest IH]; intros i; cbn [verify_from]; [naive_solver|]. rewrite rbind_ok. split.
  - intros ([] & He%verify_entry_ok & Hr) [|j] e' Hj; cbn in Hj.
    + injection Hj as <-. by rewrite Nat.add_0_r.
    + rewrite <- Nat.add_succ_comm. by apply (proj1 (IH _) Hr).
  - intros H. exists (). split; [apply verify_entry_ok; specialize (H 0%nat e eq_refl); by rewrite Nat.add_0_r in H|].
    apply IH. intros j e' Hj. rewrite Nat.add_succ_comm. by apply (H (S j)).
Qed.

Lemma verify_ok log : verify log = Ok () <-> chain_ok log.
Proof. apply verify_from_ok. Qed.

(** A link only looks back. *)
Lemma link_ok_prefix log log' i e : (forall j, (j < i)%nat -> log' !! j = log !! j) -> link_ok log i e -> link_ok log' i e.
Proof. intros H (H1 & H2 & H3). split_and!; [done| |done]. destruct i as [|i]; [done|]. by rewrite H by lia. Qed.

Lemma append_chain text ts log : chain_ok log -> chain_ok (append text ts log).2.
Proof.
  intros H i e. cbn. intros [Hi|[Hi <-]]%lookup_snoc_Some.
  - eapply link_ok_prefix; [|apply (H i e); tauto]. intros j Hj. unfold append. cbn [snd]. by rewrite lookup_app_l by lia.
  - subst i. unfold link_ok, append. cbn [snd seq_ prev_hash hash_ ts_ms sql]. split_and!; [done| |done].
    rewrite last_lookup. destruct (length log) as [|n] eqn:E; [by destruct log|]. cbn [Nat.pred].
    rewrite lookup_app_l by lia. destruct (log !! n) eqn:En; [done|]. apply lookup_ge_None in En. lia.
Qed.

(** ** Types of the fields *)
Definition entry_ok (e : AuditEntry) : Prop :=
  u64 (seq_ e) /\ u64 (ts_ms e) /\ is_bytes (prev_hash e) /\ length (prev_hash e) = HASH_LEN /\
  is_bytes (hash_ e) /\ length (hash_ e) = HASH_LEN /\ is_str (sql e) /\ Z.of_nat (length (sql e)) < 2 ^ 32.

Definition log_ok (log : AuditLog) : Prop := Forall entry_ok log.

Lemma zero_hash_ok : is_bytes zero_hash /\ length zero_hash = HASH_LEN.
Proof. split; [|done]. unfold zero_hash. apply Forall_forall. intros x Hx%list_elem_of_In%repeat_spec. subst. by apply in_wb_spec. Qed.

(** A log as the server builds it. *)
Definition built (statements : list (list Z * Z)) : AuditLog :=
  foldl (fun log s => (append s.1 s.2 log).2) new statements.

Definition statement_ok (s : list Z * Z) : Prop := is_str s.1 /\ Z.of_nat (length s.1) < 2 ^ 32 /\ u64 s.2.

Lemma append_ok s log :
  statement_ok s -> Z.of_nat (length log) < 2 ^ 64 -> log_ok log -> log_ok (append s.1 s.2 log).2.
Proof.
  intros (H1 & H2 & H3) Hn Hl. unfold append. cbn [snd]. apply Forall_app. split; [done|]. apply Forall_singleton.
  assert (Hp : is_bytes (match last log with Some e => hash_ e | None => zero_hash end) /\
               length (match last log with Some e => hash_ e | None => zero_hash end) = HASH_LEN).
  { destruct (last log) as [e|] eqn:E; [|apply zero_hash_ok]. rewrite last_lookup in E.
    eapply Forall_lookup_1 in Hl; [|exact E]. by destruct Hl as (_ & _ & _ & _ & ? & ? & _). }
  destruct Hp. unfold entry_ok. cbn [seq_ prev_hash hash_ ts_ms sql].
  split_and!; try done; [unfold in_w; lia|apply blake3_bytes|apply blake3_length].
Qed.

Lemma built_ok ss :
  Forall statement_ok ss -> Z.of_nat (length ss) <= 2 ^ 64 ->
  chain_ok (built ss) /\ log_ok (built ss) /\ length (built ss) = length ss.
Proof.
  unfold built. induction ss as [|s ss IH] using rev_ind; intros Hs Hlen.
  { split_and!; [by intros ? ?|constructor|done]. }
  apply Forall_app in Hs as [Hs Hs1]. apply Forall_cons in Hs1 as [Hs1 _]. rewrite length_app in *. cbn [length] in *.
  destruct (IH Hs ltac:(lia)) as (Hc & Hl & Hn). rewrite foldl_snoc.
  revert Hc Hl Hn. generalize (foldl (fun log s => (append s.1 s.2 log).2) new ss) as log. intros log Hc Hl Hn.
  split_and!; [by apply append_chain|apply (append_ok s log Hs1); [lia|done]|]. unfold append. cbn [snd]. rewrite length_app, Hn. done.
Qed.

(** ** The file *)

Definition entry_bytes (e : AuditEntry) : list Z :=
  le_bytes 8 (seq_ e) ++ le_bytes 8 (ts_ms e) ++ prev_hash e ++ hash_ e ++ le_bytes 4 (Z.of_nat (length (sql e))) ++ sql e.

Lemma encode_entry_bytes out e : Z.of_nat (length (sql e)) < 2 ^ 32 -> encode_entry out e = Some (out ++ entry_bytes e).
Proof. intros H. unfold encode_entry. rewrite (proj2 (Z.ltb_lt _ _)) by done. unfold entry_bytes. by rewrite <- !app_assoc. Qed.

Lemma length_entry_bytes e : entry_ok e -> length (entry_bytes e) = (84 + length (sql e))%nat.
Proof.
  intros (_ & _ & _ & H1 & _ & H2 & _ & _). unfold entry_bytes. rewrite !length_app, !length_le_bytes, H1, H2. unfold HASH_LEN, OUT_LEN. lia.
Qed.

Lemma encode_all log out :
  log_ok log ->
  foldl (fun out e => let! out := out in encode_entry out e) (Some out) log = Some (out ++ concat (map entry_bytes log)).
Proof.
  intros H. revert out. induction H as [|e log He _ IH]; intros out; cbn [foldl map concat]; [by rewrite app_nil_r|].
  cbn [mbind option_bind]. rewrite encode_entry_bytes by apply He. by rewrite IH, <- app_assoc.
Qed.

Lemma serialize_bytes log : log_ok log -> serialize log = Some (header_bytes ++ concat (map entry_bytes log)).
Proof. intros H. unfold serialize. by rewrite encode_all. Qed.

Lemma decode_encoded pre e rest :
  entry_ok e ->
  decode_entry (pre ++ entry_bytes e ++ rest) (length pre) = Ok (e, (length pre + length (entry_bytes e))%nat).
Proof.
  intros He. pose proof (length_entry_bytes e He) as Hlen. destruct He as (Hs & Ht & Hpb & Hp & Hhb & Hh & Hq & Hq32).
  set (buf := pre ++ entry_bytes e ++ rest).
  assert (Hbuf : length buf = (length pre + 84 + length (sql e) + length rest)%nat) by (unfold buf; rewrite !length_app, Hlen; lia).
  assert (Hseg : forall p mid r off n, buf = p ++ mid ++ r -> off = length p -> n = length mid -> slice off n buf = mid)
    by (intros p mid r off n -> -> ->; by apply slice_app_exact).
  unfold HASH_LEN, OUT_LEN in *. unfold decode_entry. rewrite (proj2 (Nat.ltb_ge _ _)) by lia.
  rewrite (Hseg pre (le_bytes 8 (seq_ e)) (le_bytes 8 (ts_ms e) ++ prev_hash e ++ hash_ e ++ le_bytes 4 (Z.of_nat (length (sql e))) ++ sql e ++ rest) (length pre) 8%nat)
    by (first [unfold buf, entry_bytes; by rewrite <- !app_assoc|rewrite ?length_app, ?length_le_bytes, ?Hp, ?Hh; lia]).
  rewrite (Hseg (pre ++ le_bytes 8 (seq_ e)) (le_bytes 8 (ts_ms e)) (prev_hash e ++ hash_ e ++ le_bytes 4 (Z.of_nat (length (sql e))) ++ sql e ++ rest) (length pre + 8)%nat 8%nat)
    by (first [unfold buf, entry_bytes; by rewrite <- !app_assoc|rewrite ?length_app, ?length_le_bytes, ?Hp, ?Hh; lia]).
  rewrite (Hseg (pre ++ le_bytes 8 (seq_ e) ++ le_bytes 8 (ts_ms e)) (prev_hash e) (hash_ e ++ le_bytes 4 (Z.of_nat (length (sql e))) ++ sql e ++ rest) (length pre + 16)%nat 32%nat)
    by (first [unfold buf, entry_bytes; by rewrite <- !app_assoc|rewrite ?length_app, ?length_le_bytes, ?Hp, ?Hh; lia]).
  rewrite (Hseg (pre ++ le_bytes 8 (seq_ e) ++ le_bytes 8 (ts_ms e) ++ prev_hash e) (hash_ e) (le_bytes 4 (Z.of_nat (length (sql e))) ++ sql e ++ rest) (length pre + 48)%nat 32%nat)
    by (first [unfold buf, entry_bytes; by rewrite <- !app_assoc|rewrite ?length_app, ?length_le_bytes, ?Hp, ?Hh; lia]).
  rewrite (Hseg (pre ++ le_bytes 8 (seq_ e) ++ le_bytes 8 (ts_ms e) ++ prev_hash e ++ hash_ e) (le_bytes 4 (Z.of_nat (length (sql e)))) (sql e ++ rest) (length pre + 80)%nat 4%nat)
    by (first [unfold buf, entry_bytes; by rewrite <- !app_assoc|rewrite ?length_app, ?length_le_bytes, ?Hp, ?Hh; lia]).
  rewrite !le_val_le_bytes_id by (done || (split; [lia|done])). rewrite Nat2Z.id.
  rewrite (proj2 (Nat.ltb_ge _ _)) by lia.
  rewrite (Hseg (pre ++ le_bytes 8 (seq_ e) ++ le_bytes 8 (ts_ms e) ++ prev_hash e ++ hash_ e ++ le_bytes 4 (Z.of_nat (length (sql e)))) (sql e) rest (length pre + 84)%nat (length (sql e)))
    by (first [unfold buf, entry_bytes; by rewrite <- !app_assoc|rewrite ?length_app, ?length_le_bytes, ?Hp, ?Hh; lia]).
  rewrite from_utf8_str by done. cbn [rbind]. rewrite Hlen. destruct e. cbn. do 2 f_equal. lia.
Qed.

Lemma decode_loop_all fuel pre rest acc :
  log_ok rest -> (length rest < fuel)%nat ->
  decode_loop fuel (pre ++ concat (map entry_bytes rest)) (length pre) acc = Some (Ok (acc ++ rest)).
Proof.
  intros Hr. revert pre fuel acc. induction Hr as [|e rest He _ IH]; intros pre [|fuel] acc Hf; cbn [length] in *; try lia;
    cbn [decode_loop map concat].
  - rewrite app_nil_r, (proj2 (Nat.ltb_ge _ _)) by lia. by rewrite app_nil_r.
  - pose proof (length_entry_bytes e He). rewrite (proj2 (Nat.ltb_lt _ _)) by (rewrite !length_app; lia).
    rewrite decode_encoded by done. rewrite <- length_app, app_assoc, IH by lia. by rewrite <- app_assoc.
Qed.

Lemma decode_entry_sound buf off e next :
  is_bytes buf -> decode_entry buf off = Ok (e, next) ->
  entry_ok e /\ next = (off + length (entry_bytes e))%nat /\ (next <= length buf)%nat /\
  slice off (length (entry_bytes e)) buf = entry_bytes e.
Proof.
  intros Hb. unfold decode_entry. case_if; [done|]. case_if; [done|]. unfold from_utf8. case_if; [|done].
  cbn [rbind]. intros [= <- <-].
  set (n := Z.to_nat (le_val (slice (off + 80) 4 buf))) in *.
  assert (Hl : forall a k, (a + k <= length buf)%nat -> length (slice a k buf) = k) by (intros a k; apply length_slice).
  assert (Hv : forall a k, (a + k <= length buf)%nat -> in_w (8 * Z.of_nat k) (le_val (slice a k buf))).
  { intros a k Hak. pose proof (le_val_bound (slice a k buf) ltac:(auto with spg)) as H. by rewrite Hl in H. }
  assert (Hn : Z.of_nat n = le_val (slice (off + 80) 4 buf)) by (unfold n; pose proof (Hv (off + 80)%nat 4%nat ltac:(lia)) as []; lia).
  match goal with |- entry_ok ?e /\ _ => assert (He : entry_ok e) end.
  { unfold entry_ok. cbn [seq_ prev_hash hash_ ts_ms sql]. rewrite !Hl by lia. rewrite Hn.
    split_and!; [apply (Hv off 8%nat); lia|apply (Hv (off + 8)%nat 8%nat); lia|auto with spg|done|auto with spg|done|split; [auto with spg|done]|].
    apply (Hv (off + 80)%nat 4%nat). lia. }
  split; [done|]. rewrite (length_entry_bytes _ He). cbn [sql]. rewrite Hl by lia. split_and!; [lia|lia|].
  unfold entry_bytes. cbn [seq_ prev_hash hash_ ts_ms sql]. rewrite (Hl (off + 84)%nat) by lia. rewrite Hn.
  rewrite !le_bytes_le_val_n by (first [apply Hl; lia|auto with spg]).
  replace (off + 84)%nat with (off + 80 + 4)%nat by lia. rewrite slice_slice.
  replace (off + 80)%nat with (off + 48 + 32)%nat by lia. rewrite slice_slice.
  replace (off + 48)%nat with (off + 16 + 32)%nat by lia. rewrite slice_slice.
  replace (off + 16)%nat with (off + 8 + 8)%nat by lia. by rewrite slice_slice, slice_slice.
Qed.

Lemma decode_loop_sound fuel buf off acc :
  is_bytes buf -> (off <= length buf)%nat -> (length buf - off < fuel)%nat ->
  exists r, decode_loop fuel buf off acc = Some r /\
    forall log, r = Ok log -> exists rest, log = acc ++ rest /\ log_ok rest /\ drop off buf = concat (map entry_bytes rest).
Proof.
  intros Hb. revert off acc. induction fuel as [|fuel IH]; intros off acc Hoff Hf; [lia|]. cbn [decode_loop]. case_if.
  - destruct (decode_entry buf off) as [[e next]|err] eqn:E; [|eexists; split; [done|by intros ? [=]]].
    destruct (decode_entry_sound _ _ _ _ Hb E) as (He & -> & Hnext & Hslice). pose proof (length_entry_bytes e He).
    destruct (IH (off + length (entry_bytes e))%nat (acc ++ [e])) as (r & Er & Hr); [lia..|]. exists r. split; [done|].
    intros log Hlog. destruct (Hr log Hlog) as (rest & -> & Hrest & Hd). exists (e :: rest).
    split_and!; [by rewrite <- app_assoc|by constructor|]. cbn [map concat]. rewrite <- Hd, <- Hslice at 1. unfold slice.
    by rewrite <- drop_drop, take_drop.
  - eexists. split; [done|]. intros log [= <-]. exists []. split_and!; [by rewrite app_nil_r|constructor|]. by rewrite drop_ge.
Qed.

Lemma encode_indices log pre rest out :
  log = pre ++ rest ->
  foldl (fun out i => let! out := out in encode_entry_to log i out) out (seq (length pre) (length rest)) =
  foldl (fun out e => let! out := out in encode_entry out e) out rest.
Proof.
  revert pre out. induction rest as [|e rest IH]; intros pre out ->; [done|]. cbn [length seq foldl].
  assert (E : (pre ++ e :: rest) !! length pre = Some e) by by rewrite list_lookup_middle.
  assert (Es : (let! out := out in encode_entry_to (pre ++ e :: rest) (length pre) out) = (let! out := out in encode_entry out e)).
  { destruct out as [out|]; [|done]. cbn [mbind option_bind]. unfold encode_entry_to. by rewrite E. }
  rewrite Es, <- (IH (pre ++ [e])) by by rewrite <- app_assoc. by rewrite length_app, Nat.add_1_r.
Qed.

(** The log as the server builds it verifies, and its file reads back as
    the same log, whether it was written at once or entry by entry. *)
Lemma audit_roundtrip ss :
  Forall statement_ok ss -> Z.of_nat (length ss) <= 2 ^ 64 ->
  verify (built ss) = Ok () /\
  exists bs, serialize (built ss) = Some bs /\ deserialize bs = Some (Ok (built ss)) /\
    foldl (fun out i => let! out := out in encode_entry_to (built ss) i out) (Some header_bytes) (seq 0 (length (built ss))) = Some bs.
Proof.
  intros Hs Hlen. destruct (built_ok ss Hs Hlen) as (Hc & Hl & _). apply verify_ok in Hc. split; [done|].
  generalize (built ss) as log, Hc, Hl. clear. intros log Hc Hl.
  exists (header_bytes ++ concat (map entry_bytes log)). split_and!; [by apply serialize_bytes| |].
  - unfold deserialize.
    assert (H9 : (9 <= length (header_bytes ++ concat (map entry_bytes log)))%nat) by (rewrite length_app; cbn [length header_bytes]; unfold header_bytes, FILE_MAGIC; cbn [length app]; lia).
    rewrite (proj2 (Nat.ltb_ge _ _)) by done. rewrite bool_decide_eq_false_2 by (intros Hne; by apply Hne).
    change ((header_bytes ++ concat (map entry_bytes log)) !!! 8%nat) with FILE_VERSION. cbn [Z.eqb negb].
    rewrite Z.eqb_refl. cbn [negb]. change 9%nat with (length header_bytes). rewrite decode_loop_all; [|done|].
    + cbn [mbind option_bind rbind app new]. by rewrite Hc.
    + rewrite length_app. clear -Hl. induction Hl as [|e log He _ IH]; cbn [length map concat]; [lia|].
      rewrite length_app. pose proof (length_entry_bytes e He). lia.
  - rewrite (encode_indices log [] log) by done. by apply encode_all.
Qed.

(** Reading an arbitrary file always ends, and a log it accepts verifies
    and is the one whose serialisation is that file. *)
Lemma deserialize_sound buf :
  is_bytes buf ->
  exists r, deserialize buf = Some r /\ forall log, r = Ok log -> verify log = Ok () /\ serialize log = Some buf.
Proof.
  intros Hb. unfold deserialize. case_if; [eexists; split; [done|by intros ? [=]]|].
  case_bool_decide as Hm; [eexists; split; [done|by intros ? [=]]|].
  destruct (buf !!! 8%nat =? FILE_VERSION) eqn:Ev; cbn [negb]; [|eexists; split; [done|by intros ? [=]]]. prop_bools.
  destruct (decode_loop_sound (S (length buf)) buf 9 new Hb) as (r & Er & Hr); [lia..|]. rewrite Er. cbn [mbind option_bind].
  eexists. split; [done|]. intros log (log' & -> & Hv)%rbind_ok. apply rbind_ok in Hv as ([] & Hv & [= ->]).
  split; [done|]. destruct (Hr log eq_refl) as (rest & -> & Hok & Hd). change (new ++ rest) with rest.
  rewrite serialize_bytes by done. f_equal. rewrite <- Hd, <- (take_drop 9 buf) at 1. f_equal.
  unfold header_bytes. rewrite <- Hm, <- Ev.
  destruct buf as [|b0 [|b1 [|b2 [|b3 [|b4 [|b5 [|b6 [|b7 [|b8 buf]]]]]]]]]; cbn [length] in *; try lia. done.
Qed.

(** C22: the chain is tamper evident: two well-formed logs of the same length
    that both verify and end in the same hash are the same log, or they
    exhibit a collision of the hash function. *)
Theorem tamper_evident l1 l2 :
  verify l1 = Ok () -> verify l2 = Ok () -> log_ok l1 -> log_ok l2 -> length l1 = length l2 ->
  hash_ <$> last l1 = hash_ <$> last l2 ->
  l1 = l2 \/ exists x y, x <> y /\ blake3 x = blake3 y.
Proof.
  rewrite !verify_ok. revert l2. induction l1 as [|e1 l1 IH] using rev_ind; intros l2 Hc1 Hc2 Ho1 Ho2 Hlen Hlast.
  { left. by destruct l2. }
  destruct l2 as [|e2 l2 _] using rev_ind; [rewrite length_app in Hlen; cbn in Hlen; lia|].
  rewrite !length_app in Hlen. cbn [length] in Hlen. rewrite !last_snoc in Hlast. injection Hlast as Hh.
  assert (Hlen' : length l1 = length l2) by lia.
  destruct (Hc1 (length l1) e1) as (Hs1 & Hp1 & He1); [by rewrite list_lookup_middle|].
  destruct (Hc2 (length l2) e2) as (Hs2 & Hp2 & He2); [by rewrite list_lookup_middle|].
  apply Forall_app in Ho1 as [Ho1 Hx1]. apply Forall_cons in Hx1 as [(H11 & H12 & _ & H14 & _) _].
  apply Forall_app in Ho2 as [Ho2 Hx2]. apply Forall_cons in Hx2 as [(H21 & H22 & _ & H24 & _) _].
  rewrite He1, He2 in Hh. unfold compute_entry_hash in Hh.
  destruct (decide (le_bytes 8 (seq_ e1) ++ le_bytes 8 (ts_ms e1) ++ prev_hash e1 ++ sql e1 =
                    le_bytes 8 (seq_ e2) ++ le_bytes 8 (ts_ms e2) ++ prev_hash e2 ++ sql e2)) as [E|E]; [|right; eauto].
  apply app_inj_1 in E as [E1 E]; [|by rewrite !length_le_bytes]. apply app_inj_1 in E as [E2 E]; [|by rewrite !length_le_bytes].
  apply app_inj_1 in E as [E3 E4]; [|by rewrite H14, H24]. apply le_bytes_inj in E1, E2; [|done..].
  assert (Hee : e1 = e2).
  { clear -E1 E2 E3 E4 He1 He2. destruct e1, e2. cbn in *. subst. done. }
  destruct (IH l2) as [->|?]; [..|by left; rewrite Hee|by right]; try done.
  - intros i e Hi. eapply link_ok_prefix; [|apply Hc1, lookup_app_l_Some, Hi]. intros j Hj. apply lookup_lt_Some in Hi. by rewrite lookup_app_l by lia.
  - intros i e Hi. eapply link_ok_prefix; [|apply Hc2, lookup_app_l_Some, Hi]. intros j Hj. apply lookup_lt_Some in Hi. by rewrite lookup_app_l by lia.
  - rewrite E3 in Hp1. rewrite Hp1 in Hp2. rewrite !last_lookup, Hlen'. rewrite Hlen' in Hp2. destruct (length l2) as [|n] eqn:En; [by destruct l1, l2|]. cbn [Nat.pred].
    rewrite !lookup_app_l in Hp2 by lia. destruct (l1 !! n) eqn:E5, (l2 !! n) eqn:E6; cbn; [by f_equal| | |done];
      try (apply lookup_ge_None in E5; lia); apply lookup_ge_None in E6; lia.
Qed.

(** What the chain does not show: a log cut short at any entry still
    verifies, so entries deleted from its end go unnoticed. *)
Lemma truncated_log_verifies n log : verify log = Ok () -> verify (take n log) = Ok ().
Proof.
  rewrite !verify_ok. intros H i e Hi. apply lookup_take_Some in Hi as [Hi Hn].
  eapply link_ok_prefix; [|by apply H]. intros j Hj. apply lookup_take_lt. lia.
Qed.
End Log.

(** Two statements. *)
Definition sample : list (list Z * Z) := [([83; 49], 1000); ([83; 50], 2000)].

Lemma sample_ok : Forall statement_ok sample.
Proof.
  unfold sample. repeat (apply Forall_cons_2; [unfold statement_ok; split_and!; [by apply (bool_decide_unpack _); vm_compute|done|by apply in_wb_spec]|]).
  apply Forall_nil_2.
Qed.

Lemma sample_verifies : verify (built sample) = Ok ().
Proof. apply verify_ok, built_ok; [exact sample_ok|done]. Qed.

Lemma tamper_evident_witness :
  built sample = built sample \/ exists x y, x <> y /\ blake3 x = blake3 y.
Proof.
  apply (tamper_evident (built sample) (built sample)); [exact sample_verifies..| | |reflexivity|reflexivity];
    apply (built_ok sample sample_ok); done.
Defined.
