(* ===== verification/Sha256.v ===== *)
(** SHA-256, HMAC-SHA-256 and PBKDF2-HMAC-SHA-256
    (crates/spg-crypto/src/sha256.rs, hmac.rs, pbkdf2.rs): the password hashing
    of SCRAM authentication.  A [u32] is a [Z] with its wrap-around written
    out. *)
From S2P Require Import Prelude Bytes.
Open Scope Z_scope.

Definition K : list Z :=
  [0x428a_2f98; 0x7137_4491; 0xb5c0_fbcf; 0xe9b5_dba5; 0x3956_c25b; 0x59f1_11f1; 0x923f_82a4; 0xab1c_5ed5;
   0xd807_aa98; 0x1283_5b01; 0x2431_85be; 0x550c_7dc3; 0x72be_5d74; 0x80de_b1fe; 0x9bdc_06a7; 0xc19b_f174;
   0xe49b_69c1; 0xefbe_4786; 0x0fc1_9dc6; 0x240c_a1cc; 0x2de9_2c6f; 0x4a74_84aa; 0x5cb0_a9dc; 0x76f9_88da;
   0x983e_5152; 0xa831_c66d; 0xb003_27c8; 0xbf59_7fc7; 0xc6e0_0bf3; 0xd5a7_9147; 0x06ca_6351; 0x1429_2967;
   0x27b7_0a85; 0x2e1b_2138; 0x4d2c_6dfc; 0x5338_0d13; 0x650a_7354; 0x766a_0abb; 0x81c2_c92e; 0x9272_2c85;
   0xa2bf_e8a1; 0xa81a_664b; 0xc24b_8b70; 0xc76c_51a3; 0xd192_e819; 0xd699_0624; 0xf40e_3585; 0x106a_a070;
   0x19a4_c116; 0x1e37_6c08; 0x2748_774c; 0x34b0_bcb5; 0x391c_0cb3; 0x4ed8_aa4a; 0x5b9c_ca4f; 0x682e_6ff3;
   0x748f_82ee; 0x78a5_636f; 0x84c8_7814; 0x8cc7_0208; 0x90be_fffa; 0xa450_6ceb; 0xbef9_a3f7; 0xc671_78f2].

Definition H0 : list Z :=
  [0x6a09_e667; 0xbb67_ae85; 0x3c6e_f372; 0xa54f_f53a; 0x510e_527f; 0x9b05_688c; 0x1f83_d9ab; 0x5be0_cd19].

Definition OUT_LEN : nat := 32.
Definition BLOCK_LEN : nat := 64.

Definition add (x y : Z) : Z := wrapping_add 32 x y.
Definition rotr (x n : Z) : Z := rotate_right 32 x n.

Definition ch (x y z : Z) : Z := Z.lxor (Z.land x y) (Z.land (not_w 32 x) z).
Definition maj (x y z : Z) : Z := Z.lxor (Z.lxor (Z.land x y) (Z.land x z)) (Z.land y z).
Definition big_sigma0 (x : Z) : Z := Z.lxor (Z.lxor (rotr x 2) (rotr x 13)) (rotr x 22).
Definition big_sigma1 (x : Z) : Z := Z.lxor (Z.lxor (rotr x 6) (rotr x 11)) (rotr x 25).
Definition small_sigma0 (x : Z) : Z := Z.lxor (Z.lxor (rotr x 7) (rotr x 18)) (Z.shiftr x 3).
Definition small_sigma1 (x : Z) : Z := Z.lxor (Z.lxor (rotr x 17) (rotr x 19)) (Z.shiftr x 10).

(** The message schedule [w]. *)
Definition schedule (block : list Z) : list Z :=
  let w := repeat 0 64 in
  let w := fold_left (fun w t => <[t := be_val (slice (t * 4) 4 block)]> w) (seq 0 16) w in
  fold_left (fun w t =>
    <[t := add (add (add (small_sigma1 (w !!! (t - 2)%nat)) (w !!! (t - 7)%nat))
                    (small_sigma0 (w !!! (t - 15)%nat))) (w !!! (t - 16)%nat)]> w) (seq 16 48) w.

Record Vars : Type := mk_vars { a : Z; b : Z; c : Z; d : Z; e : Z; f : Z; g : Z; hh : Z }.

Definition round_step (w : list Z) (v : Vars) (t : nat) : Vars :=
  let t1 := add (add (add (add (hh v) (big_sigma1 (e v))) (ch (e v) (f v) (g v))) (K !!! t)) (w !!! t) in
  let t2 := add (big_sigma0 (a v)) (maj (a v) (b v) (c v)) in
  mk_vars (add t1 t2) (a v) (b v) (c v) (add (d v) t1) (e v) (f v) (g v).

Definition compress (h block : list Z) : list Z :=
  let w := schedule block in
  let v := mk_vars (h !!! 0%nat) (h !!! 1%nat) (h !!! 2%nat) (h !!! 3%nat) (h !!! 4%nat) (h !!! 5%nat) (h !!! 6%nat) (h !!! 7%nat) in
  let v := fold_left (round_step w) (seq 0 64) v in
  [add (h !!! 0%nat) (a v); add (h !!! 1%nat) (b v); add (h !!! 2%nat) (c v); add (h !!! 3%nat) (d v);
   add (h !!! 4%nat) (e v); add (h !!! 5%nat) (f v); add (h !!! 6%nat) (g v); add (h !!! 7%nat) (hh v)].

Definition hash (input : list Z) : list Z :=
  let len_bits := wrapping_mul 64 (Z.of_nat (length input)) 8 in
  let full_blocks := (length input / BLOCK_LEN)%nat in
  let h := fold_left (fun h i => compress h (slice (i * BLOCK_LEN) BLOCK_LEN input)) (seq 0 full_blocks) H0 in
  let tail_start := (full_blocks * BLOCK_LEN)%nat in
  let tail := drop tail_start input in
  let block := repeat 0 BLOCK_LEN in
  let block := splice 0 tail block in
  let block := <[length tail := 0x80]> block in
  let '(h, block) :=
    if (BLOCK_LEN <? length tail + 1 + 8)%nat then (compress h block, repeat 0 BLOCK_LEN) else (h, block) in
  let block := splice (BLOCK_LEN - 8) (be_bytes 8 len_bits) block in
  let h := compress h block in
  concat (map (be_bytes 4) h).

(** ** HMAC and PBKDF2 *)

Definition xor_bytes (xs ys : list Z) : list Z := zip_with Z.lxor xs ys.

Definition hmac_sha256 (key message : list Z) : list Z :=
  let block_key := repeat 0 BLOCK_LEN in
  let block_key := if (BLOCK_LEN <? length key)%nat then splice 0 (hash key) block_key else splice 0 key block_key in
  let ipad := map (fun x => Z.lxor x 0x36) block_key in
  let opad := map (fun x => Z.lxor x 0x5c) block_key in
  let inner_input := ipad ++ message in
  let inner := hash inner_input in
  let outer_input := opad ++ inner in
  hash outer_input.

Definition pbkdf2_sha256_32 (password salt : list Z) (iterations : Z) : list Z :=
  let salt_with_index := salt ++ be_bytes 4 1 in
  let u := hmac_sha256 password salt_with_index in
  let out := u in
  (fold_left (fun '(u, out) _ =>
     let u := hmac_sha256 password u in
     (u, xor_bytes out u)) (seq 1 (Z.to_nat (iterations - 1))) (u, out)).2.

(** The published digests of "abc" and of "" under an empty HMAC key. *)
Example abc_digest : take 4 (hash [97; 98; 99]) = [0xba; 0x78; 0x16; 0xbf].
Proof. by vm_compute. Qed.

Example empty_hmac : take 4 (hmac_sha256 [] []) = [0xb6; 0x13; 0x67; 0x9a].
Proof. by vm_compute. Qed.

(** ** The standards *)

(** FIPS 180-4, in the terms of the standard: operations on words bit by bit,
    the constants from the roots of the primes, the message schedule as a
    recurrence. *)
Module Fips.

(** The word whose bit [i] is [f i]. *)
Fixpoint bits (n : nat) (f : nat -> bool) : Z :=
  match n with O => 0 | S n => bits n f + (if f n then 2 ^ Z.of_nat n else 0) end.
Definition word (f : nat -> bool) : Z := bits 32 f.
Definition bit (x : Z) (i : nat) : bool := Z.odd (x / 2 ^ Z.of_nat i).

Definition ROTR (n : nat) (x : Z) : Z := word (fun i => bit x ((i + n) mod 32)).
Definition SHR (n : nat) (x : Z) : Z := word (fun i => (i + n <? 32)%nat && bit x (i + n)).
Definition Ch (x y z : Z) : Z := word (fun i => if bit x i then bit y i else bit z i).
Definition Maj (x y z : Z) : Z := word (fun i => (2 <=? count_occ Bool.bool_dec [bit x i; bit y i; bit z i] true)%nat).
Definition parity (x y z : Z) : Z := word (fun i => Nat.odd (count_occ Bool.bool_dec [bit x i; bit y i; bit z i] true)).

Definition Sigma0 (x : Z) : Z := parity (ROTR 2 x) (ROTR 13 x) (ROTR 22 x).
Definition Sigma1 (x : Z) : Z := parity (ROTR 6 x) (ROTR 11 x) (ROTR 25 x).
Definition sigma0 (x : Z) : Z := parity (ROTR 7 x) (ROTR 18 x) (SHR 3 x).
Definition sigma1 (x : Z) : Z := parity (ROTR 17 x) (ROTR 19 x) (SHR 10 x).

Definition modulus : Z := 2 ^ 32.

(** The largest [r] with [r ^ k <= n], of at most 41 bits. *)
Definition root (k n : Z) : Z :=
  fold_left (fun r i => if (r + 2 ^ Z.of_nat i) ^ k <=? n then r + 2 ^ Z.of_nat i else r) (rev (seq 0 41)) 0.

Definition is_prime (n : nat) : bool := forallb (fun d => negb (n mod d =? 0)%nat) (seq 2 (n - 2)).
Definition primes (n : nat) : list Z := map Z.of_nat (firstn n (List.filter is_prime (seq 2 320))).

(** The first 32 bits of the fractional parts of the cube roots of the first
    64 primes, and of the square roots of the first eight. *)
Definition constants : list Z := map (fun p => root 3 (p * 2 ^ 96) mod modulus) (primes 64).
Definition initial : list Z := map (fun p => root 2 (p * 2 ^ 64) mod modulus) (primes 8).

(** The sixteen words of a block. *)
Definition parse (block : list Z) : list Z :=
  map (fun t => let m i := nth (4 * t + i) block 0 in m 0%nat * 2 ^ 24 + m 1%nat * 2 ^ 16 + m 2%nat * 2 ^ 8 + m 3%nat) (seq 0 16).

(** The message schedule up to word [16 + n]. *)
Fixpoint expand (M : list Z) (n : nat) : list Z :=
  match n with
  | O => M
  | S n =>
    let W := expand M n in
    let w k := nth (16 + n - k) W 0 in
    W ++ [(sigma1 (w 2%nat) + w 7%nat + sigma0 (w 15%nat) + w 16%nat) mod modulus]
  end.

Definition round (W : list Z) (v : Z * Z * Z * Z * Z * Z * Z * Z) (t : nat) : Z * Z * Z * Z * Z * Z * Z * Z :=
  let '(a, b, c, d, e, f, g, h) := v in
  let T1 := h + Sigma1 e + Ch e f g + nth t constants 0 + nth t W 0 in
  let T2 := Sigma0 a + Maj a b c in
  ((T1 + T2) mod modulus, a, b, c, (d + T1) mod modulus, e, f, g).

Definition added (H : list Z) (v : Z * Z * Z * Z * Z * Z * Z * Z) : list Z :=
  let '(a, b, c, d, e, f, g, h) := v in map (fun p => (p.1 + p.2) mod modulus) (zip H [a; b; c; d; e; f; g; h]).

Definition digest (H block : list Z) : list Z :=
  let h i := nth i H 0 in
  added H (fold_left (round (expand (parse block) 48)) (seq 0 64) (h 0%nat, h 1%nat, h 2%nat, h 3%nat, h 4%nat, h 5%nat, h 6%nat, h 7%nat)).

(** A one bit, zeros and the bit length up to a multiple of 512 bits. *)
Definition padded (input : list Z) : list Z :=
  input ++ [0x80] ++ repeat 0 (Z.to_nat ((55 - Z.of_nat (length input)) mod 64)) ++
  be_bytes 8 (wrap 64 (8 * Z.of_nat (length input))).

Definition blocks (bs : list Z) : list (list Z) := map (fun i => slice (i * 64) 64 bs) (seq 0 (length bs / 64)).

Definition sha256 (input : list Z) : list Z := concat (map (be_bytes 4) (fold_left digest (blocks (padded input)) initial)).
End Fips.
Import Fips(padded, blocks).

(** Block after block, by the compression of the code. *)
Definition blockwise (input : list Z) : list Z := concat (map (be_bytes 4) (fold_left compress (blocks (padded input)) H0)).

(** RFC 2104. *)
Definition rfc2104 (key message : list Z) : list Z :=
  let k := if (BLOCK_LEN <? length key)%nat then hash key else key in
  let k := k ++ repeat 0 (BLOCK_LEN - length k) in
  hash (xor_bytes k (repeat 0x5c BLOCK_LEN) ++ hash (xor_bytes k (repeat 0x36 BLOCK_LEN) ++ message)).

(** RFC 8018: [U_1 xor U_2 xor .. xor U_c] of the one block SCRAM uses. *)
Fixpoint iterates (f : list Z -> list Z) (n : nat) (u : list Z) : list (list Z) :=
  match n with O => [] | S n => u :: iterates f n (f u) end.

Definition rfc8018 (password salt : list Z) (count : nat) : list Z :=
  fold_left xor_bytes (iterates (rfc2104 password) count (rfc2104 password (salt ++ [0; 0; 0; 1]))) (repeat 0 OUT_LEN).

(** ** Blocks *)

Lemma blocks_app xs ys q :
  length xs = (q * 64)%nat -> blocks (xs ++ ys) = map (fun i => slice (i * 64) 64 xs) (seq 0 q) ++ blocks ys.
Proof.
  intros Hx. unfold blocks, BLOCK_LEN. rewrite length_app, Hx.
  replace ((q * 64 + length ys) / 64)%nat with (q + length ys / 64)%nat by (by rewrite Nat.div_add_l by lia).
  rewrite seq_app, map_app, Nat.add_0_l. f_equal.
  - apply map_ext_in. intros i Hi%in_seq. unfold slice. rewrite drop_app_le by (rewrite Hx; lia).
    apply take_app_le. rewrite length_drop, Hx. nia.
  - rewrite <- (Nat.add_0_r q) at 1. rewrite <- fmap_add_seq. change (fmap (M:=list)) with (@map nat nat).
    rewrite map_map. apply map_ext. intros i. unfold slice. f_equal. rewrite drop_app_ge by (rewrite Hx; lia). f_equal. rewrite Hx. lia.
Qed.

Lemma blocks_one bs : length bs = 64%nat -> blocks bs = [bs].
Proof.
  intros H. unfold blocks. rewrite H. cbn [Nat.div Nat.divmod fst seq map]. change (64 / BLOCK_LEN)%nat with 1%nat. cbn [seq map].
  unfold slice, BLOCK_LEN. rewrite Nat.mul_0_l, drop_0, take_ge by lia. done.
Qed.

Lemma blocks_two bs1 bs2 : length bs1 = 64%nat -> length bs2 = 64%nat -> blocks (bs1 ++ bs2) = [bs1; bs2].
Proof.
  intros H1 H2. rewrite (blocks_app bs1 bs2 1) by done. rewrite blocks_one by done. cbn [seq map app].
  unfold slice. by rewrite Nat.mul_0_l, drop_0, take_ge by lia.
Qed.

Lemma repeat_app_nat {A} (x : A) m n : repeat x (m + n) = repeat x m ++ repeat x n.
Proof. apply repeat_app. Qed.

Lemma take_repeat {A} (x : A) m n : (m <= n)%nat -> take m (repeat x n) = repeat x m.
Proof. intros H. replace n with (m + (n - m))%nat by lia. rewrite repeat_app, take_app_le; rewrite ?repeat_length; [|lia]. apply take_ge. by rewrite repeat_length. Qed.

Lemma drop_repeat {A} (x : A) m n : drop m (repeat x n) = repeat x (n - m).
Proof.
  destruct (decide (m <= n)%nat) as [H|H].
  - replace n with (m + (n - m))%nat at 1 by lia. rewrite repeat_app, drop_app_ge, repeat_length, Nat.sub_diag, drop_0 by (rewrite repeat_length; lia). done.
  - rewrite drop_ge by (rewrite repeat_length; lia). by replace (n - m)%nat with 0%nat by lia.
Qed.

Lemma fold_left_map_in {A B C} (f : A -> C -> A) (k : B -> C) (h : A -> B -> A) l x :
  (forall acc y, In y l -> h acc y = f acc (k y)) -> fold_left h l x = fold_left f (map k l) x.
Proof. revert x. induction l as [|y l IH]; intros x H; [done|]. cbn [fold_left map]. rewrite H by (by left). apply IH. intros. apply H. by right. Qed.

(** The scratch block: the tail, the terminator, zeros. *)
Lemma tail_block tail :
  (length tail < 64)%nat ->
  <[length tail := 0x80]> (splice 0 tail (repeat 0 BLOCK_LEN)) = tail ++ [0x80] ++ repeat 0 (63 - length tail).
Proof.
  intros H. unfold splice. rewrite take_0, app_nil_l, Nat.add_0_l. rewrite drop_repeat. unfold BLOCK_LEN.
  replace (64 - length tail)%nat with (S (63 - length tail)) by lia. cbn [repeat].
  rewrite insert_app_r_alt by lia. by rewrite Nat.sub_diag.
Qed.

(** Writing the length over the last eight bytes. *)
Lemma splice_end (block l : list Z) n :
  length block = 64%nat -> length l = 8%nat -> n = 56%nat -> splice n l block = take 56 block ++ l.
Proof.
  intros Hb Hl ->. unfold splice. rewrite Hl, drop_ge by lia. by rewrite app_nil_r.
Qed.

Ltac last_block :=
  match goal with
  | |- concat (map _ (compress ?h0 _)) = _ => apply (f_equal (fun x => concat (map (be_bytes 4) (compress h0 x))))
  end.

Lemma hash_blockwise input : hash input = blockwise input.
Proof.
  unfold hash, blockwise.
  set (n := length input). set (q := (n / BLOCK_LEN)%nat). set (tail := drop (q * BLOCK_LEN) input).
  assert (Hq : n = (64 * q + n mod 64)%nat) by apply Nat.div_mod_eq.
  assert (Hr : (n mod 64 < 64)%nat) by (apply Nat.mod_upper_bound; lia).
  assert (Ht : length tail = (n mod 64)%nat) by (unfold tail; rewrite length_drop; fold n; unfold BLOCK_LEN; lia).
  assert (Hlen : wrapping_mul 64 (Z.of_nat n) 8 = wrap 64 (8 * Z.of_nat n)) by (unfold wrapping_mul; by rewrite Z.mul_comm).
  rewrite Hlen. set (len := be_bytes 8 (wrap 64 (8 * Z.of_nat n))).
  assert (Hl8 : length len = 8%nat) by apply length_be_bytes.
  assert (Hp : padded input = take (q * 64) input ++ (tail ++ [0x80] ++ repeat 0 (Z.to_nat ((55 - Z.of_nat n) mod 64)) ++ len)).
  { unfold padded, len, tail. fold n. unfold BLOCK_LEN. by rewrite (app_assoc (take (q * 64) input)), take_drop. }
  assert (Hz : Z.to_nat ((55 - Z.of_nat n) mod 64) = if (64 <? length tail + 1 + 8)%nat then (119 - length tail)%nat else (55 - length tail)%nat).
  { rewrite Ht. assert (Hm : (55 - Z.of_nat n) mod 64 = (55 - Z.of_nat (n mod 64)) mod 64).
    { replace (55 - Z.of_nat n) with ((55 - Z.of_nat (n mod 64)) + (- Z.of_nat q) * 64) by lia. by rewrite Z.mod_add. }
    rewrite Hm. case_if.
    - replace (55 - Z.of_nat (n mod 64)) with ((119 - Z.of_nat (n mod 64)) + (-1) * 64) by lia. rewrite Z.mod_add, Z.mod_small by lia. lia.
    - rewrite Z.mod_small by lia. lia. }
  rewrite Hp, (blocks_app _ _ q) by (rewrite length_take; fold n; lia). rewrite fold_left_app. rewrite Hz.
  assert (Hfull : forall h, fold_left (fun h i => compress h (slice (i * BLOCK_LEN) BLOCK_LEN input)) (seq 0 q) h =
            fold_left compress (map (fun i => slice (i * 64) 64 (take (q * 64) input)) (seq 0 q)) h).
  { intros h. apply fold_left_map_in. intros acc i Hi%in_seq. apply (f_equal (compress acc)). unfold slice, BLOCK_LEN.
    rewrite skipn_firstn_comm, take_take, Nat.min_l by lia. done. }
  rewrite <- Hfull. clear Hfull. rewrite tail_block by lia.
  set (h := fold_left _ (seq 0 q) H0). unfold BLOCK_LEN. case_if.
  - assert (E : tail ++ [0x80] ++ repeat 0 (119 - length tail) ++ len = (tail ++ [0x80] ++ repeat 0 (63 - length tail)) ++ (repeat 0 56 ++ len)).
    { replace (119 - length tail)%nat with ((63 - length tail) + 56)%nat by lia. rewrite repeat_app. by rewrite <- !app_assoc. }
    rewrite E, blocks_two by (rewrite ?length_app, ?repeat_length, ?Hl8; cbn [length]; lia). cbn [fold_left]. last_block.
    rewrite splice_end by (rewrite ?repeat_length; done). by rewrite take_repeat by lia.
  - rewrite blocks_one by (rewrite !length_app, repeat_length, Hl8; cbn [length]; lia). cbn [fold_left]. last_block.
    rewrite splice_end by (rewrite ?length_app, ?repeat_length, ?Hl8; cbn [length]; lia).
    rewrite take_app_ge by lia. rewrite <- app_assoc. f_equal. rewrite take_app_ge by (cbn [length]; lia). cbn [length app]. f_equal. f_equal.
    rewrite take_repeat by lia. f_equal. lia.
Qed.

(** *** The compression function *)

Lemma bits_range n f : 0 <= Fips.bits n f < 2 ^ Z.of_nat n.
Proof.
  induction n as [|n IH]; [done|]. cbn [Fips.bits]. rewrite Nat2Z.inj_succ, Z.pow_succ_r by lia. destruct (f n); lia.
Qed.

Lemma bits_testbit n f i : (i < n)%nat -> Z.testbit (Fips.bits n f) (Z.of_nat i) = f i.
Proof.
  induction n as [|n IH]; intros Hi; [lia|]. cbn [Fips.bits]. pose proof (bits_range n f) as Hb.
  assert (0 < 2 ^ Z.of_nat n) by by apply Z.pow_pos_nonneg; lia.
  destruct (decide (i = n)) as [->|].
  - rewrite Z.testbit_odd, Z.shiftr_div_pow2 by lia. destruct (f n).
    + replace (Fips.bits n f + 2 ^ Z.of_nat n) with (Fips.bits n f + 1 * 2 ^ Z.of_nat n) by lia. by rewrite Z.div_add, Z.div_small by lia.
    + by rewrite Z.add_0_r, Z.div_small by lia.
  - rewrite <- IH by lia. destruct (f n); [|by rewrite Z.add_0_r].
    rewrite <- (Z.mod_pow2_bits_low (Fips.bits n f + 2 ^ Z.of_nat n) (Z.of_nat n)) by lia.
    replace (Fips.bits n f + 2 ^ Z.of_nat n) with (Fips.bits n f + 1 * 2 ^ Z.of_nat n) by lia. by rewrite Z.mod_add, Z.mod_small by lia.
Qed.

Lemma bit_testbit x i : Fips.bit x i = Z.testbit x (Z.of_nat i).
Proof. unfold Fips.bit. by rewrite Z.testbit_odd, Z.shiftr_div_pow2 by lia. Qed.

Lemma word_range f : in_w 32 (Fips.word f).
Proof. exact (bits_range 32 f). Qed.

(** A word is what its 32 bits are. *)
Lemma word_is x f : in_w 32 x -> (forall i, (i < 32)%nat -> Z.testbit x (Z.of_nat i) = f i) -> x = Fips.word f.
Proof.
  intros Hx H. apply Z.bits_inj'. intros i Hi. destruct (decide (i < 32)) as [Hlt|Hge].
  - rewrite <- (Z2Nat.id i) by lia. rewrite H by lia. symmetry. apply bits_testbit. lia.
  - rewrite (in_w_high 32 x), (in_w_high 32 (Fips.word f)) by (done || lia || apply word_range). done.
Qed.

Lemma rotr_range x n : in_w 32 x -> 0 <= n -> in_w 32 (rotr x n).
Proof. intros Hx Hn. apply in_w_lor; [done|by apply in_w_shiftr|by apply wrap_range]. Qed.

Lemma rotr_fips x n : in_w 32 x -> (0 < n < 32)%nat -> rotr x (Z.of_nat n) = Fips.ROTR n x.
Proof.
  intros Hx Hn. apply word_is; [by apply rotr_range; [|lia]|]. intros i Hi. rewrite bit_testbit. unfold rotr, rotate_right, shl_w, wrap.
  rewrite Z.lor_spec, Z.shiftr_spec, Z.mod_pow2_bits_low, Z.shiftl_spec by lia. destruct (decide (i + n < 32)%nat).
  - rewrite Nat.mod_small, (Z.testbit_neg_r x (Z.of_nat i - _)), orb_false_r, Nat2Z.inj_add by lia. done.
  - rewrite (in_w_high 32 x (Z.of_nat i + Z.of_nat n)) by (done || lia). cbn [orb]. f_equal.
    replace (i + n)%nat with ((i + n - 32) + 1 * 32)%nat by lia. rewrite Nat.Div0.mod_add, Nat.mod_small by lia. lia.
Qed.

Lemma shr_fips x n : in_w 32 x -> Z.shiftr x (Z.of_nat n) = Fips.SHR n x.
Proof.
  intros Hx. apply word_is; [apply in_w_shiftr; [done|lia]|]. intros i Hi. rewrite bit_testbit, Z.shiftr_spec, <- Nat2Z.inj_add by lia.
  destruct (Nat.ltb_spec (i + n) 32); [done|]. apply (in_w_high 32); (done || lia).
Qed.

Lemma parity_fips x y z : in_w 32 x -> in_w 32 y -> in_w 32 z -> Z.lxor (Z.lxor x y) z = Fips.parity x y z.
Proof.
  intros Hx Hy Hz. apply word_is; [by repeat apply in_w_lxor|]. intros i Hi. rewrite !bit_testbit, !Z.lxor_spec.
  by destruct (Z.testbit x _), (Z.testbit y _), (Z.testbit z _).
Qed.

Lemma maj_fips x y z : in_w 32 x -> in_w 32 y -> in_w 32 z -> maj x y z = Fips.Maj x y z.
Proof.
  intros Hx Hy Hz. apply word_is; [by repeat apply in_w_lxor; try apply in_w_land; try done; (apply Hy || apply Hz)|].
  intros i Hi. unfold maj. rewrite !bit_testbit, !Z.lxor_spec, !Z.land_spec. by destruct (Z.testbit x _), (Z.testbit y _), (Z.testbit z _).
Qed.

Lemma ch_fips x y z : in_w 32 x -> in_w 32 y -> in_w 32 z -> ch x y z = Fips.Ch x y z.
Proof.
  intros Hx Hy Hz. assert (in_w 32 (not_w 32 x)) as Hn by (by apply in_w_lxor).
  apply word_is; [by apply in_w_lxor; [|apply in_w_land; [..|apply Hy]|apply in_w_land; [..|apply Hz]]|].
  intros i Hi. unfold ch, not_w. rewrite !bit_testbit, Z.lxor_spec, !Z.land_spec, Z.lxor_spec.
  rewrite <- (Z.ones_spec_low 32 (Z.of_nat i)) at 1 || idtac. change (2 ^ 32 - 1) with (Z.ones 32). rewrite Z.ones_spec_low by lia.
  by destruct (Z.testbit x _), (Z.testbit y _), (Z.testbit z _).
Qed.

Lemma turns x (Hx : in_w 32 x) n : (0 < n < 32)%nat -> in_w 32 (rotr x (Z.of_nat n)) /\ rotr x (Z.of_nat n) = Fips.ROTR n x.
Proof. intros Hn. split; [apply rotr_range; [done|lia]|by apply rotr_fips]. Qed.

Lemma big_sigma0_fips x : in_w 32 x -> big_sigma0 x = Fips.Sigma0 x.
Proof.
  intros Hx. destruct (turns x Hx 2 ltac:(lia)) as [R1 E1], (turns x Hx 13 ltac:(lia)) as [R2 E2], (turns x Hx 22 ltac:(lia)) as [R3 E3].
  unfold Fips.Sigma0. rewrite <- E1, <- E2, <- E3. by apply parity_fips.
Qed.
Lemma big_sigma1_fips x : in_w 32 x -> big_sigma1 x = Fips.Sigma1 x.
Proof.
  intros Hx. destruct (turns x Hx 6 ltac:(lia)) as [R1 E1], (turns x Hx 11 ltac:(lia)) as [R2 E2], (turns x Hx 25 ltac:(lia)) as [R3 E3].
  unfold Fips.Sigma1. rewrite <- E1, <- E2, <- E3. by apply parity_fips.
Qed.
Lemma small_sigma0_fips x : in_w 32 x -> small_sigma0 x = Fips.sigma0 x.
Proof.
  intros Hx. destruct (turns x Hx 7 ltac:(lia)) as [R1 E1], (turns x Hx 18 ltac:(lia)) as [R2 E2].
  unfold Fips.sigma0. rewrite <- E1, <- E2, <- (shr_fips x 3 Hx). apply parity_fips; [done..|by apply in_w_shiftr].
Qed.
Lemma small_sigma1_fips x : in_w 32 x -> small_sigma1 x = Fips.sigma1 x.
Proof.
  intros Hx. destruct (turns x Hx 17 ltac:(lia)) as [R1 E1], (turns x Hx 19 ltac:(lia)) as [R2 E2].
  unfold Fips.sigma1. rewrite <- E1, <- E2, <- (shr_fips x 10 Hx). apply parity_fips; [done..|by apply in_w_shiftr].
Qed.

Lemma constants_fips : K = Fips.constants.
Proof. by vm_compute. Qed.
Lemma initial_fips : H0 = Fips.initial.
Proof. by vm_compute. Qed.

Lemma add_range x y : in_w 32 (add x y).
Proof. by apply wrap_range. Qed.

Lemma add_mod_l x y : add (x mod 2 ^ 32) y = (x + y) mod 2 ^ 32.
Proof. unfold add, wrapping_add, wrap. apply Zplus_mod_idemp_l. Qed.

Lemma add_mod_r x y : add x (y mod 2 ^ 32) = (x + y) mod 2 ^ 32.
Proof. unfold add, wrapping_add, wrap. apply Zplus_mod_idemp_r. Qed.

(** Sums of words, wrapped once at the end. *)
Lemma add_four x y z u : add (add (add x y) z) u = (x + y + z + u) mod 2 ^ 32.
Proof. change (add x y) with ((x + y) mod 2 ^ 32). by rewrite !add_mod_l. Qed.
Lemma add_five x y z u v : add (add (add (add x y) z) u) v = (x + y + z + u + v) mod 2 ^ 32.
Proof. by rewrite (add_four x y z u), add_mod_l. Qed.

(** *** The message schedule *)

Definition schedule_step (w : list Z) (t : nat) : list Z :=
  <[t := add (add (add (small_sigma1 (w !!! (t - 2)%nat)) (w !!! (t - 7)%nat))
                  (small_sigma0 (w !!! (t - 15)%nat))) (w !!! (t - 16)%nat)]> w.

Lemma expand_length M n : length M = 16%nat -> length (Fips.expand M n) = (16 + n)%nat.
Proof. intros HM. induction n as [|n IH]; [done|]. cbn [Fips.expand]. rewrite length_app, IH. cbn. lia. Qed.

Lemma word_mod x : in_w 32 (x mod Fips.modulus).
Proof. exact (Z.mod_pos_bound x (2 ^ 32) eq_refl). Qed.

Lemma expand_range M n : Forall (in_w 32) M -> Forall (in_w 32) (Fips.expand M n).
Proof.
  intros HM. induction n as [|n IH]; [done|]. cbn [Fips.expand]. apply Forall_app. split; [done|]. apply Forall_singleton, word_mod.
Qed.

Lemma range_nth l i : Forall (in_w 32) l -> in_w 32 (nth i l 0).
Proof. intros H. revert i. induction H as [|x l Hx _ IH]; intros [|i]; try done; apply IH. Qed.

Lemma total_nth (l : list Z) i : (i < length l)%nat -> l !!! i = nth i l 0.
Proof. intros [x Hx]%lookup_lt_is_Some_2. rewrite (list_lookup_total_correct _ _ _ Hx). symmetry. by apply nth_lookup_Some. Qed.

Lemma take_lookup (w l : list Z) n i : take n w = l -> (i < n)%nat -> (n <= length w)%nat -> w !!! i = nth i l 0.
Proof.
  intros <- Hi Hn. destruct (lookup_lt_is_Some_2 w i ltac:(lia)) as [x Hx]. rewrite (list_lookup_total_correct _ _ _ Hx).
  symmetry. apply nth_lookup_Some. by rewrite lookup_take_lt.
Qed.

Lemma take_inserted (w : list Z) n v : (n < length w)%nat -> take (S n) (<[n := v]> w) = take n w ++ [v].
Proof. intros Hn. rewrite (take_S_r _ _ v) by (by apply list_lookup_insert_eq). by rewrite take_insert_ge. Qed.

Lemma schedule_expands M n w :
  length M = 16%nat -> Forall (in_w 32) M -> length w = 64%nat -> take 16 w = M -> (n <= 48)%nat ->
  let w' := fold_left schedule_step (seq 16 n) w in length w' = 64%nat /\ take (16 + n) w' = Fips.expand M n.
Proof.
  intros HM HR Hw Ht. induction n as [|n IH]; intros Hn; [done|]. destruct (IH ltac:(lia)) as [Hl Hp]. clear IH.
  rewrite seq_S, fold_left_app. cbn [fold_left]. set (w1 := fold_left _ _ _) in *. pose proof (expand_range M n HR) as HE.
  split; [unfold schedule_step; by rewrite length_insert|].
  unfold schedule_step. replace (16 + S n)%nat with (S (16 + n)) by lia. rewrite take_inserted, Hp by lia. cbn [Fips.expand]. f_equal. f_equal. rewrite !(take_lookup w1 (Fips.expand M n) (16 + n)) by (done || lia).
  rewrite small_sigma1_fips, small_sigma0_fips by by apply range_nth. apply add_four.
Qed.

Lemma le_val_app4 a b c d : le_val [a; b; c; d] = a + b * 2 ^ 8 + c * 2 ^ 16 + d * 2 ^ 24.
Proof. cbn [le_val]. lia. Qed.

Lemma slice_four (block : list Z) i : (i + 4 <= length block)%nat ->
  slice i 4 block = [nth i block 0; nth (i + 1) block 0; nth (i + 2) block 0; nth (i + 3) block 0].
Proof.
  intros H. unfold slice. assert (forall j, (j < 4)%nat -> drop i block !! j = Some (nth (i + j) block 0)) as Hj.
  { intros j Hj. rewrite lookup_drop. destruct (lookup_lt_is_Some_2 block (i + j) ltac:(lia)) as [x Hx]. rewrite Hx. f_equal. symmetry. by apply nth_lookup_Some. }
  pose proof (Hj 0%nat ltac:(lia)) as E0. pose proof (Hj 1%nat ltac:(lia)) as E1. pose proof (Hj 2%nat ltac:(lia)) as E2. pose proof (Hj 3%nat ltac:(lia)) as E3.
  destruct (drop i block) as [|x0 [|x1 [|x2 [|x3 l]]]]; cbn in E0, E1, E2, E3; try done. rewrite Nat.add_0_r in E0. by simplify_eq.
Qed.

Definition words_step (block : list Z) (w : list Z) (t : nat) : list Z := <[t := be_val (slice (t * 4) 4 block)]> w.

Lemma first_words block n w : (n <= 16)%nat -> length w = 64%nat -> length block = 64%nat ->
  let w' := fold_left (words_step block) (seq 0 n) w in length w' = 64%nat /\ take n w' = firstn n (Fips.parse block).
Proof.
  intros Hn Hw Hb. induction n as [|n IH]; [done|]. destruct (IH ltac:(lia)) as [Hl Hp]. clear IH.
  rewrite seq_S, fold_left_app. cbn [fold_left Nat.add]. set (w1 := fold_left _ _ _) in *. split; [unfold words_step; by rewrite length_insert|].
  unfold words_step. rewrite take_inserted, Hp by lia.
  assert (Fips.parse block !! n = Some (be_val (slice (n * 4) 4 block))) as E.
  { unfold Fips.parse. change (@map nat Z) with (fmap (M := list) (A := nat) (B := Z)). rewrite list_lookup_fmap, lookup_seq_lt by lia. cbn [fmap option_fmap option_map Nat.add].
    f_equal. rewrite slice_four by lia. unfold be_val. cbn [rev app]. rewrite le_val_app4. rewrite (Nat.mul_comm n 4), Nat.add_0_r. lia. }
  by rewrite (take_S_r _ _ _ E).
Qed.

Lemma parse_range block : is_bytes block -> length block = 64%nat -> Forall (in_w 32) (Fips.parse block).
Proof.
  intros Hb Hl. unfold Fips.parse. apply Forall_map, Forall_forall. intros t Ht%elem_of_seq.
  assert (forall i, u8 (nth i block 0)) as Hu.
  { intros i. destruct (block !! i) as [x|] eqn:E; [rewrite (nth_lookup_Some _ _ _ _ E); by apply (Forall_lookup_1 _ _ _ _ Hb E)|].
    apply lookup_ge_None in E. by rewrite nth_overflow by lia. }
  pose proof (Hu (4 * t + 0)%nat). pose proof (Hu (4 * t + 1)%nat). pose proof (Hu (4 * t + 2)%nat). pose proof (Hu (4 * t + 3)%nat).
  unfold u8, in_w in *. lia.
Qed.

Lemma schedule_fips block : is_bytes block -> length block = 64%nat -> schedule block = Fips.expand (Fips.parse block) 48.
Proof.
  intros Hb Hl. unfold schedule. cbv zeta.
  destruct (first_words block 16 (repeat 0 64) ltac:(lia) eq_refl Hl) as [Hl1 Hp1]. fold (words_step block). set (w1 := fold_left _ _ _) in *. clearbody w1.
  rewrite (firstn_all2 (n := 16) (Fips.parse block)) in Hp1 by done.
  destruct (schedule_expands (Fips.parse block) 48 w1 eq_refl (parse_range block Hb Hl) Hl1 Hp1 ltac:(lia)) as [Hl2 Hp2].
  rewrite take_ge in Hp2 by lia. exact Hp2.
Qed.

(** *** The rounds *)

Definition as_tuple (v : Vars) : Z * Z * Z * Z * Z * Z * Z * Z := (a v, b v, c v, d v, e v, f v, g v, hh v).

Definition vars_ok (v : Vars) : Prop :=
  in_w 32 (a v) /\ in_w 32 (b v) /\ in_w 32 (c v) /\ in_w 32 (d v) /\ in_w 32 (e v) /\ in_w 32 (f v) /\ in_w 32 (g v) /\ in_w 32 (hh v).

Lemma round_fips W v t : length W = 64%nat -> (t < 64)%nat -> vars_ok v ->
  vars_ok (round_step W v t) /\ as_tuple (round_step W v t) = Fips.round W (as_tuple v) t.
Proof.
  intros HW Ht (Ha & Hb & Hc & Hd & He & Hf & Hg & Hh). split.
  { unfold round_step. split_and!; cbn [a b c d e f g hh]; (done || apply add_range). }
  unfold as_tuple, round_step, Fips.round. cbn [a b c d e f g hh].
  rewrite (big_sigma1_fips (e v)), (big_sigma0_fips (a v)), (ch_fips (e v)), (maj_fips (a v)) by done.
  rewrite (total_nth K t Ht), (total_nth W t) by lia. rewrite <- constants_fips, (add_five (hh v)).
  change (add (Fips.Sigma0 (a v)) (Fips.Maj (a v) (b v) (c v))) with ((Fips.Sigma0 (a v) + Fips.Maj (a v) (b v) (c v)) mod 2 ^ 32).
  by rewrite add_mod_l, add_mod_r, Zplus_mod_idemp_r.
Qed.

Lemma rounds_fips W n v : length W = 64%nat -> (n <= 64)%nat -> vars_ok v ->
  let v' := fold_left (round_step W) (seq 0 n) v in vars_ok v' /\ as_tuple v' = fold_left (Fips.round W) (seq 0 n) (as_tuple v).
Proof.
  intros HW Hn Hv. induction n as [|n IH]; [done|]. destruct (IH ltac:(lia)) as [Hok E]. rewrite seq_S, !fold_left_app. cbn [fold_left Nat.add].
  rewrite <- E. by apply round_fips; [|lia|].
Qed.

Definition start_vars (h : list Z) : Vars :=
  mk_vars (h !!! 0%nat) (h !!! 1%nat) (h !!! 2%nat) (h !!! 3%nat) (h !!! 4%nat) (h !!! 5%nat) (h !!! 6%nat) (h !!! 7%nat).

Lemma start_fips h : length h = 8%nat -> Forall (in_w 32) h ->
  vars_ok (start_vars h) /\
  as_tuple (start_vars h) = (nth 0 h 0, nth 1 h 0, nth 2 h 0, nth 3 h 0, nth 4 h 0, nth 5 h 0, nth 6 h 0, nth 7 h 0).
Proof.
  intros Hl Hh. unfold vars_ok, start_vars, as_tuple. cbn [a b c d e f g hh]. rewrite !total_nth by lia. split; [|reflexivity].
  split_and!; by apply range_nth.
Qed.

Definition added (h : list Z) (v : Vars) : list Z :=
  [add (h !!! 0%nat) (a v); add (h !!! 1%nat) (b v); add (h !!! 2%nat) (c v); add (h !!! 3%nat) (d v);
   add (h !!! 4%nat) (e v); add (h !!! 5%nat) (f v); add (h !!! 6%nat) (g v); add (h !!! 7%nat) (hh v)].
Lemma compress_rounds h block : compress h block = added h (fold_left (round_step (schedule block)) (seq 0 64) (start_vars h)).
Proof. reflexivity. Qed.
Lemma digest_rounds h block :
  Fips.digest h block = Fips.added h (fold_left (Fips.round (Fips.expand (Fips.parse block) 48)) (seq 0 64)
    (nth 0 h 0, nth 1 h 0, nth 2 h 0, nth 3 h 0, nth 4 h 0, nth 5 h 0, nth 6 h 0, nth 7 h 0)).
Proof. reflexivity. Qed.

Lemma finish_fips h v : length h = 8%nat -> added h v = Fips.added h (as_tuple v).
Proof. intros Hl. by destruct h as [|h0 [|h1 [|h2 [|h3 [|h4 [|h5 [|h6 [|h7 [|]]]]]]]]]. Qed.

Lemma compress_fips h block : length h = 8%nat -> Forall (in_w 32) h -> is_bytes block -> length block = 64%nat ->
  compress h block = Fips.digest h block.
Proof.
  intros Hl Hh Hb Hbl. rewrite compress_rounds, digest_rounds, schedule_fips, finish_fips by done. destruct (start_fips h Hl Hh) as [Hv <-].
  generalize (Fips.expand (Fips.parse block) 48), (expand_length (Fips.parse block) 48 eq_refl). intros W HW.
  by destruct (rounds_fips W 64 (start_vars h) HW (le_n 64) Hv) as [_ <-].
Qed.

Lemma compress_words h block : Forall (in_w 32) (compress h block).
Proof. rewrite compress_rounds. unfold added. repeat (constructor; [apply add_range|]). constructor. Qed.
Lemma compress_length h block : length (compress h block) = 8%nat.
Proof. rewrite compress_rounds. reflexivity. Qed.

Lemma fold_left_agree {A B} (f g : A -> B -> A) (P : A -> Prop) (Q : B -> Prop) :
  (forall x y, P x -> Q y -> f x y = g x y /\ P (f x y)) -> forall l x, P x -> Forall Q l -> fold_left f l x = fold_left g l x.
Proof.
  intros H. induction l as [|y l IH]; intros x Hx Hl; [done|]. apply Forall_cons in Hl as [Hy Hl]. cbn [fold_left].
  destruct (H x y Hx Hy) as [<- Hp]. by apply IH.
Qed.

Lemma fold_digest bs h : length h = 8%nat -> Forall (in_w 32) h -> Forall (fun b => is_bytes b /\ length b = 64%nat) bs ->
  fold_left compress bs h = fold_left Fips.digest bs h.
Proof.
  intros Hl Hh. apply (fold_left_agree _ _ (fun h => length h = 8%nat /\ Forall (in_w 32) h)); [|done].
  intros h' x [Hl' Hh'] [Hx Hxl]. split; [by apply compress_fips|]. split; [apply compress_length|apply compress_words].
Qed.

Lemma blocks_ok input : is_bytes input -> Forall (fun b => is_bytes b /\ length b = 64%nat) (blocks (padded input)).
Proof.
  intros Hi. assert (is_bytes (padded input)) as Hp.
  { unfold padded. rewrite !is_bytes_app. split_and!; [done|by repeat constructor|apply Forall_forall; intros x Hx%list_elem_of_In%repeat_spec; by subst|apply be_bytes_bytes]. }
  unfold blocks. apply Forall_map, Forall_forall. intros i Hin%elem_of_seq. split; [by apply is_bytes_slice|].
  unfold slice. rewrite length_take, length_drop. pose proof (Nat.div_mod_eq (length (padded input)) 64). lia.
Qed.

(** C24: [hash] is SHA-256.  For inputs of every length it gives what FIPS 180-4
    defines: the message padded, and over its blocks the compression function of
    the standard, whose word operations are given bit by bit, whose constants are
    computed from the roots of the primes and whose schedule is the recurrence. *)
Theorem hash_is_sha256 input : is_bytes input -> hash input = Fips.sha256 input.
Proof.
  intros Hi. rewrite hash_blockwise. unfold blockwise, Fips.sha256. rewrite <- initial_fips. f_equal. f_equal.
  apply fold_digest; [done| |by apply blocks_ok]. apply (bool_decide_unpack _). by vm_compute.
Qed.

Lemma hash_is_sha256_witness : hash [97; 98; 99] = Fips.sha256 [97; 98; 99] /\ take 4 (Fips.sha256 [97; 98; 99]) = [0xba; 0x78; 0x16; 0xbf].
Proof. split; [apply hash_is_sha256; by repeat constructor|by vm_compute]. Defined.

(** ** HMAC and PBKDF2 follow their standards *)

Lemma concat_be_length h : length (concat (map (be_bytes 4) h)) = (4 * length h)%nat.
Proof. induction h as [|x h IH]; [done|]. cbn [map concat length]. rewrite length_app, length_be_bytes, IH. lia. Qed.

Lemma fold_compress_length bs h : length h = 8%nat -> length (fold_left compress bs h) = 8%nat.
Proof. revert h. induction bs as [|x bs IH]; intros h Hh; [done|]. cbn [fold_left]. by apply IH. Qed.

Lemma hash_length input : length (hash input) = OUT_LEN.
Proof. rewrite hash_blockwise. unfold blockwise. by rewrite concat_be_length, fold_compress_length. Qed.

Lemma map_lxor k x : map (fun y => Z.lxor y x) k = xor_bytes k (repeat x (length k)).
Proof. unfold xor_bytes. induction k as [|y k IH]; [done|]. cbn [map length repeat zip_with]. by rewrite IH. Qed.

Lemma splice_key k : (length k <= 64)%nat -> splice 0 k (repeat 0 BLOCK_LEN) = k ++ repeat 0 (BLOCK_LEN - length k).
Proof. intros H. unfold splice. by rewrite take_0, app_nil_l, Nat.add_0_l, drop_repeat. Qed.

Lemma hmac_is_rfc2104 key message : hmac_sha256 key message = rfc2104 key message.
Proof.
  unfold hmac_sha256, rfc2104.
  set (k := if (BLOCK_LEN <? length key)%nat then hash key else key).
  assert (Hk : (length k <= 64)%nat).
  { unfold k. case_if; [rewrite hash_length; unfold OUT_LEN; lia|unfold BLOCK_LEN in *; lia]. }
  assert (E : (if (BLOCK_LEN <? length key)%nat then splice 0 (hash key) (repeat 0 BLOCK_LEN) else splice 0 key (repeat 0 BLOCK_LEN)) =
              k ++ repeat 0 (BLOCK_LEN - length k)).
  { rewrite <- splice_key by done. unfold k. by destruct (BLOCK_LEN <? length key)%nat. }
  rewrite E, !map_lxor.
  replace (length (k ++ repeat 0 (BLOCK_LEN - length k))) with BLOCK_LEN by (rewrite length_app, repeat_length; unfold BLOCK_LEN; lia). done.
Qed.

Lemma zero_xor u n : length u = n -> xor_bytes (repeat 0 n) u = u.
Proof. intros <-. unfold xor_bytes. induction u as [|x u IH]; [done|]. cbn [length repeat zip_with]. by rewrite IH. Qed.

(** The loop of [pbkdf2_sha256_32] from an accumulator. *)
Lemma pbkdf2_loop (h k : list Z -> list Z) n : (forall u, h u = k u) -> forall i u out,
  (fold_left (fun '(u, out) (_ : nat) => let u := h u in (u, xor_bytes out u)) (seq i n) (u, out)).2 =
  fold_left xor_bytes (iterates k n (k u)) out.
Proof. intros Hk. induction n as [|n IH]; intros i u out; [done|]. cbn [seq fold_left iterates]. cbv zeta. rewrite Hk. apply IH. Qed.

(** [pbkdf2_sha256_32] is the PBKDF2 of RFC 8018 with the HMAC of RFC 2104
    over the SHA-256 of FIPS 180-4, for every password, salt and iteration
    count (a count of zero is treated as one). *)
Lemma pbkdf2_is_rfc8018 password salt iterations :
  pbkdf2_sha256_32 password salt iterations = rfc8018 password salt (Z.to_nat (Z.max 1 iterations)).
Proof.
  unfold pbkdf2_sha256_32, rfc8018. change (be_bytes 4 1) with [0; 0; 0; 1].
  replace (Z.to_nat (Z.max 1 iterations)) with (S (Z.to_nat (iterations - 1))) by lia.
  cbn [iterates fold_left]. rewrite zero_xor by apply hash_length. rewrite hmac_is_rfc2104.
  apply pbkdf2_loop. intros u. apply hmac_is_rfc2104.
Qed.
