(* ===== verification/Users.v ===== *)
(** Roles, credentials and memberships: crates/spg-engine/src/users.rs, with
    the user table's file form.  The SHA-1 and SHA-256 of the MySQL plugins
    come from external crates and are parameters here; BLAKE3, HMAC and PBKDF2
    are the repository's own.  Definitions only; UsersOk holds the theorems. *)
From S2P Require Import Prelude Bytes SortedMap Sha256 Blake3.
Open Scope Z_scope.

Definition SALT_LEN : nat := 16.
Definition HASH_LEN : nat := 32.
Definition MYSQL_NATIVE_HASH_LEN : nat := 20.
Definition CACHING_SHA2_HASH_LEN : nat := 32.
Definition SCRAM_SALT_LEN : nat := 16.
Definition SCRAM_DEFAULT_ITERS : Z := 4096.

Inductive Role : Type := Admin | ReadWrite | ReadOnly.

#[export] Instance Role_eq_dec : EqDecision Role.
Proof. solve_decision. Defined.

Definition as_str (r : Role) : list Z :=
  match r with Admin => lit "admin" | ReadWrite => lit "readwrite" | ReadOnly => lit "readonly" end.

Definition role_parse (s : list Z) : option Role :=
  let s := to_ascii_lowercase s in
  if bool_decide (s = lit "admin") then Some Admin
  else if bool_decide (s = lit "readwrite" \/ s = lit "rw") then Some ReadWrite
  else if bool_decide (s = lit "readonly" \/ s = lit "ro") then Some ReadOnly
  else None.

Definition can_read (r : Role) : bool := true.
Definition can_write (r : Role) : bool := match r with Admin | ReadWrite => true | ReadOnly => false end.
Definition can_manage_users (r : Role) : bool := match r with Admin => true | _ => false end.

Record ScramSecrets : Type := mk_scram {
  iters : Z;
  scram_salt : list Z;
  stored_key : list Z;
  server_key : list Z;
}.

Record UserRecord : Type := mk_user {
  role : Role;
  salt : list Z;
  hash : list Z;
  scram : option ScramSecrets;
  mysql_native : option (list Z);
  caching_sha2 : option (list Z);
  can_login : bool;
  password_declared : bool;
  inherit : bool;
  superuser : bool;
}.

Record UserStore : Type := mk_store {
  users : list (list Z * UserRecord);
  memberships : list (list Z * bset (list Z));
}.

Definition store_new : UserStore := mk_store [] [].

Inductive UserError : Type := Exists | NotFound | InvalidRole | EmptyName | EmptyPassword.

(** ** Verifiers *)

(** The comparison of two digests, for its value. *)
Definition constant_time_eq (a b : list Z) : bool := fold_left Z.lor (zip_with Z.lxor a b) 0 =? 0.

Definition derive_hash (salt password : list Z) : option (list Z) := Blake3.hash (salt ++ password).

Definition verify_record (rec : UserRecord) (password : list Z) : option bool :=
  let! candidate := derive_hash (salt rec) password in
  Some (constant_time_eq candidate (hash rec)).

Definition has_credentials (rec : UserRecord) : bool := can_login rec && password_declared rec.

Definition compute_scram_secrets (password salt : list Z) (iters : Z) : ScramSecrets :=
  let salted := pbkdf2_sha256_32 password salt iters in
  let client_key := hmac_sha256 salted (lit "Client Key") in
  let stored_key := Sha256.hash client_key in
  let server_key := hmac_sha256 salted (lit "Server Key") in
  mk_scram iters salt stored_key server_key.

Section Store.
(** The digests of the sha1 and sha2 crates. *)
Context (sha1_bytes sha256_bytes : list Z -> list Z).

Definition compute_mysql_native_hash (password : list Z) : list Z := sha1_bytes (sha1_bytes password).
Definition compute_caching_sha2_hash (password : list Z) : list Z := sha256_bytes (sha256_bytes password).

Definition verify_mysql_native_password (rec : UserRecord) (scramble client_response : list Z) : bool :=
  match mysql_native rec with
  | None => false
  | Some stored =>
    if negb (length client_response =? MYSQL_NATIVE_HASH_LEN)%nat then false
    else if negb (length scramble =? 20)%nat then false
    else
      let mask := sha1_bytes (scramble ++ stored) in
      let recovered := xor_bytes client_response mask in
      constant_time_eq (sha1_bytes recovered) stored
  end.

Definition verify_caching_sha2_password (rec : UserRecord) (scramble client_response : list Z) : bool :=
  match caching_sha2 rec with
  | None => false
  | Some stored =>
    if negb (length client_response =? CACHING_SHA2_HASH_LEN)%nat then false
    else if negb (length scramble =? 20)%nat then false
    else
      let mask := sha256_bytes (scramble ++ stored) in
      let recovered := xor_bytes client_response mask in
      constant_time_eq (sha256_bytes recovered) stored
  end.

(** ** The store *)

Definition store_get (s : UserStore) (name : list Z) : option UserRecord := sm_lookup name (users s).

(** [if let Some(r) = self.users.get_mut(name)]. *)
Definition update_user (s : UserStore) (name : list Z) (f : UserRecord -> UserRecord) : UserStore :=
  match sm_lookup name (users s) with
  | Some r => mk_store (sm_insert name (f r) (users s)) (memberships s)
  | None => s
  end.

Definition create (s : UserStore) (name password : list Z) (r : Role) (salt : list Z) : outcome UserStore UserError :=
  match name, password with
  | [], _ => Some (Err EmptyName)
  | _, [] => Some (Err EmptyPassword)
  | _, _ =>
    match sm_lookup name (users s) with
    | Some _ => Some (Err Exists)
    | None =>
      let! hash := derive_hash salt password in
      let mysql_native := Some (compute_mysql_native_hash password) in
      let caching_sha2 := Some (compute_caching_sha2_hash password) in
      let rec := mk_user r salt hash None mysql_native caching_sha2 true true true (match r with Admin => true | _ => false end) in
      Some (Ok (mk_store (sm_insert name rec (users s)) (memberships s)))
    end
  end.

Definition set_attributes (s : UserStore) (name : list Z) (can_login inherit superuser : bool) : UserStore :=
  update_user s name (fun r => mk_user (role r) (salt r) (hash r) (scram r) (mysql_native r) (caching_sha2 r)
    can_login (password_declared r) inherit superuser).

Definition set_password_declared (s : UserStore) (name : list Z) (declared : bool) : UserStore :=
  update_user s name (fun r => mk_user (role r) (salt r) (hash r) (scram r) (mysql_native r) (caching_sha2 r)
    (can_login r) declared (inherit r) (superuser r)).

Definition add_member (s : UserStore) (role member : list Z) : UserStore :=
  let set := default [] (sm_lookup member (memberships s)) in
  mk_store (users s) (sm_insert member (bs_insert role set) (memberships s)).

Definition drop_member (s : UserStore) (role member : list Z) : UserStore :=
  match sm_lookup member (memberships s) with
  | Some set =>
    let set := bs_remove role set in
    mk_store (users s) (match set with [] => sm_remove member (memberships s) | _ => sm_insert member set (memberships s) end)
  | None => s
  end.

Definition memberships_of (s : UserStore) (member : list Z) : list (list Z) :=
  match sm_lookup member (memberships s) with Some set => bs_elems set | None => [] end.

Definition all_memberships (s : UserStore) : list (list Z * list Z) :=
  concat (map (fun '(m, roles) => map (pair m) (bs_elems roles)) (memberships s)).

(** The work lists below are stacks, the top at the head. *)

(** One role of a matching member: pushed when new. *)
Definition see_role (st : bset (list Z) * list (list Z)) (r : list Z) : bset (list Z) * list (list Z) :=
  let '(seen, queue) := st in
  if bs_mem (to_ascii_lowercase r) seen then (seen, queue)
  else (bs_insert (to_ascii_lowercase r) seen, r :: queue).

Fixpoint transitive_loop (fuel : nat) (ms : list (list Z * bset (list Z))) (seen : bset (list Z)) (queue : list (list Z)) : option (bset (list Z)) :=
  match queue with
  | [] => Some seen
  | cur :: queue =>
    match fuel with
    | O => None
    | S fuel =>
      let '(seen, queue) := fold_left (fun st '(m, roles) =>
        if eq_ignore_ascii_case m cur then fold_left see_role (bs_elems roles) st else st) ms (seen, queue) in
      transitive_loop fuel ms seen queue
    end
  end.

(** Every membership is followed once. *)
Definition closure_fuel (s : UserStore) : nat := S (length (all_memberships s)).

Definition memberships_of_transitive (s : UserStore) (member : list Z) : option (bset (list Z)) :=
  transitive_loop (closure_fuel s) (memberships s) [] [member].

(** [is_none_or(|r| r.inherit)]. *)
Definition inherits (s : UserStore) (role : list Z) : bool :=
  match sm_lookup role (users s) with Some r => inherit r | None => true end.

Fixpoint effective_loop (fuel : nat) (s : UserStore) (out : bset (list Z)) (queue : list (list Z)) : option (bset (list Z)) :=
  match queue with
  | [] => Some out
  | r :: queue =>
    match fuel with
    | O => None
    | S fuel =>
      if bs_mem r out then effective_loop fuel s out queue
      else
        let out := bs_insert r out in
        let queue := if inherits s r then rev (memberships_of s r) ++ queue else queue in
        effective_loop fuel s out queue
    end
  end.

Definition effective_roles (s : UserStore) (role : list Z) : option (bset (list Z)) :=
  let out := bs_insert role [] in
  if negb (inherits s role) then Some out
  else effective_loop (closure_fuel s) s out (rev (memberships_of s role)).

(** The memberships change even when the user is not there. *)
Definition drop_user (s : UserStore) (name : list Z) : UserStore * result () UserError :=
  let ms := map (fun '(m, set) => (m, bs_remove name set)) (sm_remove name (memberships s)) in
  match sm_lookup name (users s) with
  | Some _ => (mk_store (sm_remove name (users s)) ms, Ok ())
  | None => (mk_store (users s) ms, Err NotFound)
  end.

Definition set_password (s : UserStore) (name : list Z) (password : option (list Z)) (salt : list Z) : outcome UserStore UserError :=
  match sm_lookup name (users s) with
  | None => Some (Err NotFound)
  | Some rec =>
    let put r := Some (Ok (mk_store (sm_insert name r (users s)) (memberships s))) in
    match password with
    | Some [] => Some (Err EmptyPassword)
    | Some p =>
      let! hash := derive_hash salt p in
      put (mk_user (role rec) salt hash (scram rec) (Some (compute_mysql_native_hash p)) (Some (compute_caching_sha2_hash p))
        (can_login rec) true (inherit rec) (superuser rec))
    | None =>
      let! digest := Blake3.hash salt in
      let anti := take SALT_LEN digest in
      let! hash := derive_hash anti ([0] ++ lit "unreachable") in
      put (mk_user (role rec) salt hash None None None (can_login rec) false (inherit rec) (superuser rec))
    end
  end.

Definition enable_scram (s : UserStore) (name password salt : list Z) (iters : Z) : result UserStore UserError :=
  match sm_lookup name (users s) with
  | None => Err NotFound
  | Some _ => Ok (update_user s name (fun r => mk_user (role r) (Users.salt r) (hash r) (Some (compute_scram_secrets password salt iters))
      (mysql_native r) (caching_sha2 r) (can_login r) (password_declared r) (inherit r) (superuser r)))
  end.

Definition verify (s : UserStore) (name password : list Z) : option (option Role) :=
  match sm_lookup name (users s) with
  | None => Some None
  | Some rec => let! ok := verify_record rec password in Some (if ok : bool then Some (role rec) else None)
  end.

(** [Engine::create_user] and [Engine::alter_user_password] with the salts of
    the host's generator. *)
Definition create_user (s : UserStore) (name password : list Z) (r : Role) (salt scram_salt : list Z) : outcome UserStore UserError :=
  let!? s := create s name password r salt in
  Some (enable_scram s name password scram_salt SCRAM_DEFAULT_ITERS).

Definition alter_user_password (s : UserStore) (name : list Z) (password : option (list Z)) (salt scram_salt : list Z) : outcome UserStore UserError :=
  let!? s := set_password s name password salt in
  match password with
  | Some p => Some (enable_scram s name p scram_salt SCRAM_DEFAULT_ITERS)
  | None => Some (Ok s)
  end.
End Store.

(** ** The file form *)

Definition SCRAM_FORMAT_MARKER : Z := 0xff.
Definition MYSQL_NATIVE_FORMAT_MARKER : Z := 0xfe.
Definition CACHING_SHA2_FORMAT_MARKER : Z := 0xfd.
Definition ROLE_ATTRS_FORMAT_MARKER : Z := 0xfc.
Definition PASSWORD_DECLARED_FORMAT_MARKER : Z := 0xfb.

(** [uN::try_from(len).expect(..)] in little-endian bytes. *)
Definition len_bytes (w : nat) (n : nat) : option (list Z) :=
  if Z.of_nat n <? 2 ^ (8 * Z.of_nat w) then Some (le_bytes w (Z.of_nat n)) else None.

Definition name_bytes (name : list Z) : option (list Z) :=
  let! nl := len_bytes 2 (length name) in Some (nl ++ name).

Definition role_byte (r : Role) : Z := match r with Admin => 0 | ReadWrite => 1 | ReadOnly => 2 end.

Definition opt_bytes (o : option (list Z)) : list Z := match o with None => [0] | Some h => 1 :: h end.

Definition scram_bytes (s : ScramSecrets) : list Z :=
  le_bytes 4 (iters s) ++ scram_salt s ++ stored_key s ++ server_key s.

Definition bool_byte (b : bool) : Z := if b then 1 else 0.

Definition user_bytes (u : list Z * UserRecord) : option (list Z) :=
  let '(name, rec) := u in
  let! nb := name_bytes name in
  Some (nb ++ [role_byte (role rec)] ++ salt rec ++ hash rec ++ opt_bytes (scram_bytes <$> scram rec) ++
    opt_bytes (mysql_native rec) ++ opt_bytes (caching_sha2 rec) ++
    [bool_byte (can_login rec); bool_byte (inherit rec); bool_byte (superuser rec)] ++ [bool_byte (password_declared rec)]).

Definition pair_bytes (p : list Z * list Z) : option (list Z) :=
  let! mb := name_bytes p.1 in let! rb := name_bytes p.2 in Some (mb ++ rb).

Definition serialize_users (s : UserStore) : option (list Z) :=
  let! count := len_bytes 4 (length (users s)) in
  let! us := mapM user_bytes (users s) in
  let pairs := all_memberships s in
  let! mcount := len_bytes 4 (length pairs) in
  let! ps := mapM pair_bytes pairs in
  Some ([PASSWORD_DECLARED_FORMAT_MARKER] ++ count ++ concat us ++ mcount ++ concat ps).

Inductive UserDeserializeError : Type := Truncated | BadRole (b : Z) | InvalidUtf8.

(** The buffer and the cursor in it are the bytes left. *)
Definition parsed (A : Type) : Type := result (A * list Z) UserDeserializeError.

Definition take_ (n : nat) (buf : list Z) : parsed (list Z) :=
  if (length buf <? n)%nat then Err Truncated else Ok (take n buf, drop n buf).

Definition take_byte (buf : list Z) : parsed Z :=
  let? (b, buf) := take_ 1 buf in Ok (hd 0 b, buf).

Definition take_le (n : nat) (buf : list Z) : parsed Z :=
  let? (b, buf) := take_ n buf in Ok (le_val b, buf).

Definition take_name (buf : list Z) : parsed (list Z) :=
  let? (nl, buf) := take_le 2 buf in
  let? (nb, buf) := take_ (Z.to_nat nl) buf in
  let? name := from_utf8 nb InvalidUtf8 in
  Ok (name, buf).

(** An optional field behind its flag, if the version has it. *)
Definition take_opt {A} (present : bool) (body : list Z -> parsed A) (buf : list Z) : parsed (option A) :=
  if present then
    let? (flag, buf) := take_byte buf in
    if flag =? 1 then let? (a, buf) := body buf in Ok (Some a, buf) else Ok (None, buf)
  else Ok (None, buf).

Definition take_scram (buf : list Z) : parsed ScramSecrets :=
  let? (iters, buf) := take_le 4 buf in
  let? (s_salt, buf) := take_ SCRAM_SALT_LEN buf in
  let? (stored_key, buf) := take_ HASH_LEN buf in
  let? (server_key, buf) := take_ HASH_LEN buf in
  Ok (mk_scram iters s_salt stored_key server_key, buf).

(** What each version holds inline. *)
Record format : Type := mk_format {
  scram_present_inline : bool;
  mysql_native_present_inline : bool;
  caching_sha2_present_inline : bool;
  role_attrs_inline : bool;
  password_declared_inline : bool;
}.

Definition take_user (f : format) (buf : list Z) : parsed (list Z * UserRecord) :=
  let? (name, buf) := take_name buf in
  let? (role_byte, buf) := take_byte buf in
  let? role := if role_byte =? 0 then Ok Admin else if role_byte =? 1 then Ok ReadWrite
               else if role_byte =? 2 then Ok ReadOnly else Err (BadRole role_byte) in
  let? (salt, buf) := take_ SALT_LEN buf in
  let? (hash, buf) := take_ HASH_LEN buf in
  let? (scram, buf) := take_opt (scram_present_inline f) take_scram buf in
  let? (mysql_native, buf) := take_opt (mysql_native_present_inline f) (take_ MYSQL_NATIVE_HASH_LEN) buf in
  let? (caching_sha2, buf) := take_opt (caching_sha2_present_inline f) (take_ CACHING_SHA2_HASH_LEN) buf in
  let? (attrs, buf) :=
    if role_attrs_inline f then
      let? (b, buf) := take_ 3 buf in
      Ok ((nth 0 b 0 =? 1, nth 1 b 0 =? 1, nth 2 b 0 =? 1), buf)
    else Ok ((true, true, match role with Admin => true | _ => false end), buf) in
  let '(can_login, inherit, superuser) := attrs in
  let? (password_declared, buf) :=
    if password_declared_inline f then let? (b, buf) := take_byte buf in Ok (b =? 1, buf) else Ok (can_login, buf) in
  Ok ((name, mk_user role salt hash scram mysql_native caching_sha2 can_login password_declared inherit superuser), buf).

Fixpoint take_users (count : nat) (f : format) (store : UserStore) (buf : list Z) : parsed UserStore :=
  match count with
  | O => Ok (store, buf)
  | S count =>
    let? (u, buf) := take_user f buf in
    take_users count f (mk_store (sm_insert u.1 u.2 (users store)) (memberships store)) buf
  end.

Fixpoint take_members (mcount : nat) (store : UserStore) (buf : list Z) : parsed UserStore :=
  match mcount with
  | O => Ok (store, buf)
  | S mcount =>
    let? (member, buf) := take_name buf in
    let? (role, buf) := take_name buf in
    take_members mcount (add_member store role member) buf
  end.

(** The version marker, and what follows it. *)
Definition take_format (buf : list Z) : format * list Z :=
  match buf with
  | b :: rest =>
    if b =? PASSWORD_DECLARED_FORMAT_MARKER then (mk_format true true true true true, rest)
    else if b =? ROLE_ATTRS_FORMAT_MARKER then (mk_format true true true true false, rest)
    else if b =? CACHING_SHA2_FORMAT_MARKER then (mk_format true true true false false, rest)
    else if b =? MYSQL_NATIVE_FORMAT_MARKER then (mk_format true true false false false, rest)
    else if b =? SCRAM_FORMAT_MARKER then (mk_format true false false false false, rest)
    else (mk_format false false false false false, buf)
  | [] => (mk_format false false false false false, buf)
  end.

Definition deserialize_users (buf : list Z) : result UserStore UserDeserializeError :=
  let '(f, buf) := take_format buf in
  let? (count, buf) := take_le 4 buf in
  let? (store, buf) := take_users (Z.to_nat count) f store_new buf in
  let? (store, buf) :=
    if role_attrs_inline f then
      let? (mcount, buf) := take_le 4 buf in take_members (Z.to_nat mcount) store buf
    else Ok (store, buf) in
  match buf with [] => Ok store | _ => Err Truncated end.
