(* ===== verification/UsersOk.v ===== *)
(** The user table: well-formedness under any operations and any file, what a
    password verifies, the closure of memberships, and the file round trip. *)
From S2P Require Import Prelude Bytes SortedMap Sha256 Blake3 Users.
Open Scope Z_scope.

(** ** Digests *)

Lemma fold_lor_zero l acc : Forall (fun x => 0 <= x) l -> 0 <= acc -> fold_left Z.lor l acc = 0 <-> acc = 0 /\ Forall (fun x => x = 0) l.
Proof.
  intros Hl. revert acc. induction Hl as [|x l Hx Hl IH]; intros acc Ha; cbn [fold_left].
  - split; [intros ->; by split|by intros [-> _]].
  - rewrite IH by (apply Z.lor_nonneg; by split). rewrite Z.lor_eq_0_iff, Forall_cons. tauto.
Qed.

Lemma constant_time_eq_spec a b : is_bytes a -> is_bytes b -> length a = length b -> constant_time_eq a b = true <-> a = b.
Proof.
  intros Ha Hb Hl. unfold constant_time_eq. rewrite Z.eqb_eq, fold_lor_zero; [| |lia].
  - split; [intros [_ H]|intros ->; split; [done|]].
    + revert b Hb Hl H. induction Ha as [|x a Hx Ha IH]; intros [|y b] Hb Hl H; try done. cbn in H. apply Forall_cons in H as [Hxy H].
      apply Forall_cons in Hb as [Hy Hb]. apply Z.lxor_eq in Hxy as ->. f_equal. apply IH; [done|by injection Hl|done].
    + clear. induction b as [|x b IH]; cbn; constructor; [apply Z.lxor_nilpotent|done].
  - clear Hl. revert b Hb. induction Ha as [|x a Hx Ha IH]; intros [|y b] Hb; cbn; try constructor.
    + apply Forall_cons in Hb as [Hy Hb]. apply Z.lxor_nonneg. split; intros; [apply Hy|apply Hx].
    + apply IH. by apply Forall_cons in Hb as [_ Hb].
Qed.

Lemma xor_bytes_cancel a b : length a = length b -> xor_bytes (xor_bytes a b) b = a.
Proof.
  revert b. induction a as [|x a IH]; intros [|y b] H; try done. cbn. rewrite Z.lxor_assoc, Z.lxor_nilpotent, Z.lxor_0_r. f_equal.
  apply IH. by injection H.
Qed.

Lemma length_xor a b : length a = length b -> length (xor_bytes a b) = length a.
Proof. intros H. unfold xor_bytes. rewrite length_zip_with_l by lia. done. Qed.

Lemma xor_is_bytes a b : is_bytes a -> is_bytes b -> is_bytes (xor_bytes a b).
Proof.
  intros Ha. revert b. induction Ha as [|x a Hx Ha IH]; intros [|y b] Hb; cbn; try constructor.
  - apply Forall_cons in Hb as [Hy Hb]. apply in_w_lxor; [lia|done|done].
  - apply IH. by apply Forall_cons in Hb as [_ Hb].
Qed.

Definition digest (n : nat) (h : list Z) : Prop := is_bytes h /\ length h = n.

Lemma sha256_digest m : digest 32 (Sha256.hash m).
Proof.
  split; [|apply hash_length].
  unfold Sha256.hash. destruct (if _ : bool then _ else _) as [h b]. apply is_bytes_concat_map. intros w. apply be_bytes_bytes.
Qed.

Lemma hmac_digest k m : digest 32 (hmac_sha256 k m).
Proof. apply sha256_digest. Qed.

Lemma derive_total salt pw : exists h, derive_hash salt pw = Some h /\ digest 32 h.
Proof. destruct (hash_total (salt ++ pw)) as (h & E & Hl & Hb). by exists h. Qed.

Lemma scram_secrets_ok pw salt n : u32 n -> digest 16 salt ->
  let s := compute_scram_secrets pw salt n in digest 32 (stored_key s) /\ digest 32 (server_key s) /\ digest 16 (scram_salt s) /\ u32 (iters s).
Proof. intros Hn Hs s. split; [apply sha256_digest|]. split; [apply hmac_digest|done]. Qed.

(** ** Well-formed stores *)

Definition opt_ok {A} (P : A -> Prop) (o : option A) : Prop := match o with Some a => P a | None => True end.

Definition scram_ok (s : ScramSecrets) : Prop :=
  u32 (iters s) /\ digest 16 (scram_salt s) /\ digest 32 (stored_key s) /\ digest 32 (server_key s).

Definition record_ok (r : UserRecord) : Prop :=
  digest 16 (salt r) /\ digest 32 (hash r) /\ opt_ok scram_ok (scram r) /\
  opt_ok (digest 20) (mysql_native r) /\ opt_ok (digest 32) (caching_sha2 r).

Record store_ok (s : UserStore) : Prop := {
  so_users : sorted (users s);
  so_records : Forall (fun u => is_str u.1 /\ record_ok u.2) (users s);
  so_members : sorted (memberships s);
  so_sets : Forall (fun m => is_str m.1 /\ sorted m.2 /\ Forall (fun r => is_str r.1) m.2) (memberships s);
}.

(** [BTreeMap] entries under insertion and removal. *)
Lemma sm_insert_Forall {K V} `{OrdKey K} (P : K * V -> Prop) k v l : Forall P l -> P (k, v) -> Forall P (sm_insert k v l).
Proof. intros Hl Hp. induction Hl as [|[k' v'] l Hx Hl IH]; cbn; [by constructor|]. destruct (kcmp k' k) eqn:E; [apply kcmp_eq in E as ->|..]; repeat constructor; done. Qed.

Lemma sm_remove_Forall {K V} `{OrdKey K} (P : K * V -> Prop) k l : Forall P l -> Forall P (sm_remove k l).
Proof. intros Hl. induction Hl as [|[k' v'] l Hx Hl IH]; cbn; [by constructor|]. destruct (kcmp k' k); [done|by constructor|by constructor]. Qed.

Lemma sm_lookup_Forall {K V} `{OrdKey K} (P : K * V -> Prop) k v l : Forall P l -> sm_lookup k l = Some v -> P (k, v).
Proof. intros Hl E. apply sm_lookup_elem in E. rewrite Forall_forall in Hl. by apply Hl. Qed.

Lemma store_new_ok : store_ok store_new.
Proof. by repeat constructor. Qed.

Lemma update_ok s name f : store_ok s -> (forall r, record_ok r -> record_ok (f r)) -> store_ok (update_user s name f).
Proof.
  intros [H1 H2 H3 H4] Hf. unfold update_user. destruct (sm_lookup name (users s)) as [r|] eqn:E; [|done].
  pose proof (sm_lookup_Forall _ _ _ _ H2 E) as (Hn & Hr). constructor; cbn; try done; [by apply sm_insert_sorted|].
  apply sm_insert_Forall; [done|]. split; [done|by apply Hf].
Qed.

Lemma add_member_ok s role member : store_ok s -> is_str role -> is_str member -> store_ok (add_member s role member).
Proof.
  intros [H1 H2 H3 H4] Hr Hm. unfold add_member. constructor; cbn; try done; [by apply sm_insert_sorted|].
  apply sm_insert_Forall; [done|]. cbn. split; [done|].
  destruct (sm_lookup member (memberships s)) as [set|] eqn:E; cbn [default].
  - pose proof (sm_lookup_Forall _ _ _ _ H4 E) as (_ & Hs & Hf). split; [by apply bs_insert_sorted|]. by apply sm_insert_Forall.
  - split; [apply bs_insert_sorted; constructor|]. apply (sm_insert_Forall (fun r => is_str r.1)); [constructor|exact Hr].
Qed.

Lemma drop_member_ok s role member : store_ok s -> store_ok (drop_member s role member).
Proof.
  intros [H1 H2 H3 H4]. unfold drop_member. destruct (sm_lookup member (memberships s)) as [set|] eqn:E; [|done].
  pose proof (sm_lookup_Forall _ _ _ _ H4 E) as (Hm & Hs & Hf). assert (Hset : sorted (bs_remove role set) /\ Forall (fun r => is_str r.1) (bs_remove role set)).
  { split; [by apply bs_remove_sorted|by apply sm_remove_Forall]. }
  destruct (bs_remove role set) eqn:Er; constructor; cbn; try done;
    [by apply sm_remove_sorted|by apply sm_remove_Forall|by apply sm_insert_sorted|by apply sm_insert_Forall].
Qed.

Lemma map_sets_sorted {K V W} `{OrdKey K} (f : V -> W) (l : list (K * V)) : sorted l -> sorted (map (fun '(m, x) => (m, f x)) l).
Proof.
  induction 1 as [|[m x] l Hl IH Hx]; cbn; constructor; [done|]. clear -Hx. induction Hx as [|[m' y] l Hy Hl IH]; constructor; done.
Qed.

Lemma drop_user_ok s name : store_ok s -> store_ok (drop_user s name).1.
Proof.
  intros [H1 H2 H3 H4]. unfold drop_user.
  assert (Hms : sorted (map (fun '(m, set) => (m, bs_remove name set)) (sm_remove name (memberships s))) /\
    Forall (fun m => is_str m.1 /\ sorted m.2 /\ Forall (fun r => is_str r.1) m.2) (map (fun '(m, set) => (m, bs_remove name set)) (sm_remove name (memberships s)))).
  { split; [by apply map_sets_sorted, sm_remove_sorted|]. apply Forall_map. eapply Forall_impl; [by apply sm_remove_Forall|].
    intros [m set] (Hm & Hs & Hf). split; [done|]. split; [by apply bs_remove_sorted|by apply sm_remove_Forall]. }
  destruct (sm_lookup name (users s)); constructor; cbn; try done; try apply Hms; [by apply sm_remove_sorted|by apply sm_remove_Forall].
Qed.

(** ** Any operations

    The salts are the host's, of their declared lengths; names and passwords
    are strings. *)
Inductive user_op : Type :=
| OpCreate (name password : list Z) (r : Role) (salt scram_salt : list Z)
| OpPassword (name : list Z) (password : option (list Z)) (salt scram_salt : list Z)
| OpAttributes (name : list Z) (can_login inherit superuser : bool)
| OpDeclared (name : list Z) (declared : bool)
| OpGrant (role member : list Z)
| OpRevoke (role member : list Z)
| OpDrop (name : list Z).

Definition op_ok (op : user_op) : Prop :=
  match op with
  | OpCreate name pw _ s1 s2 => is_str name /\ is_str pw /\ digest 16 s1 /\ digest 16 s2
  | OpPassword name pw s1 s2 => digest 16 s1 /\ digest 16 s2
  | OpGrant role member => is_str role /\ is_str member
  | _ => True
  end.

Section Store.
Context (sha1 sha2 : list Z -> list Z).
Context (sha1_digest : forall m, digest 20 (sha1 m)) (sha2_digest : forall m, digest 32 (sha2 m)).

(** A failed operation leaves the store, but for [drop]. *)
Definition run_op (s : UserStore) (op : user_op) : option UserStore :=
  let keep (o : outcome UserStore UserError) := match o with Some (Ok s') => Some s' | Some (Err _) => Some s | None => None end in
  match op with
  | OpCreate name pw r s1 s2 => keep (create_user sha1 sha2 s name pw r s1 s2)
  | OpPassword name pw s1 s2 => keep (alter_user_password sha1 sha2 s name pw s1 s2)
  | OpAttributes name a b c => Some (set_attributes s name a b c)
  | OpDeclared name d => Some (set_password_declared s name d)
  | OpGrant role member => Some (add_member s role member)
  | OpRevoke role member => Some (drop_member s role member)
  | OpDrop name => Some (drop_user s name).1
  end.

Fixpoint run_ops (s : UserStore) (ops : list user_op) : option UserStore :=
  match ops with
  | [] => Some s
  | op :: ops => let! s := run_op s op in run_ops s ops
  end.

Lemma enable_scram_ok s name pw salt n s' : store_ok s -> u32 n -> digest 16 salt -> enable_scram s name pw salt n = Ok s' -> store_ok s'.
Proof.
  intros Hs Hn Hsalt. unfold enable_scram. destruct (sm_lookup name (users s)); [|done]. intros [= <-]. apply update_ok; [done|].
  intros r (H1 & H2 & H3 & H4 & H5). repeat split; cbn; try done; try apply H1; try apply H2; try apply Hsalt; try apply Hn; try apply sha256_digest; apply hmac_digest.
Qed.

Lemma create_total s name pw r salt : exists o, create sha1 sha2 s name pw r salt = Some o /\
  match o with
  | Ok s' => name <> [] /\ pw <> [] /\ sm_lookup name (users s) = None /\ exists h, derive_hash salt pw = Some h /\ digest 32 h /\
      s' = mk_store (sm_insert name (mk_user r salt h None (Some (sha1 (sha1 pw))) (Some (sha2 (sha2 pw))) true true true (match r with Admin => true | _ => false end)) (users s)) (memberships s)
  | Err _ => True
  end.
Proof.
  unfold create. destruct name as [|n name]; [by eexists|]. destruct pw as [|p pw]; [by eexists|].
  destruct (sm_lookup _ _) eqn:E; [by eexists|]. destruct (derive_total salt (p :: pw)) as (h & Hh & Hd). rewrite Hh. cbn [mbind option_bind].
  eexists. split; [done|]. split; [done|]. split; [done|]. split; [done|]. by exists h.
Qed.

Lemma create_ok s name pw r salt s' : store_ok s -> is_str name -> digest 16 salt -> create sha1 sha2 s name pw r salt = Some (Ok s') -> store_ok s'.
Proof using sha1_digest sha2_digest.
  intros [H1 H2 H3 H4] Hn Hsalt E. destruct (create_total s name pw r salt) as (o & E' & Ho). rewrite E in E'. injection E' as <-.
  destruct Ho as (_ & _ & _ & h & _ & Hh & ->). constructor; cbn; try done; [by apply sm_insert_sorted|]. apply sm_insert_Forall; [done|].
  cbn. split; [done|]. split; [done|]. split; [done|]. split; [done|]. split; [apply sha1_digest|apply sha2_digest].
Qed.

Lemma set_password_total s name pw salt : store_ok s -> digest 16 salt ->
  exists o, set_password sha1 sha2 s name pw salt = Some o /\ match o with Ok s' => store_ok s' /\ is_Some (sm_lookup name (users s)) /\ is_Some (sm_lookup name (users s')) | Err _ => True end.
Proof using sha1_digest sha2_digest.
  intros [H1 H2 H3 H4] Hsalt. unfold set_password. destruct (sm_lookup name (users s)) as [rec|] eqn:E; [|by eexists].
  pose proof (sm_lookup_Forall _ _ _ _ H2 E) as (Hn & Hr & Hh & Hsc & Hm & Hc). cbn in *.
  assert (Hput : forall r, record_ok r -> store_ok (mk_store (sm_insert name r (users s)) (memberships s)) /\ is_Some (Some rec) /\
    is_Some (sm_lookup name (users (mk_store (sm_insert name r (users s)) (memberships s))))).
  { intros r Hok. split; [constructor; cbn; try done; [by apply sm_insert_sorted|by apply sm_insert_Forall]|].
    split; [by eexists|]. cbn. rewrite sm_lookup_insert by done. rewrite (proj2 (kcmp_eq name name) eq_refl). by eexists. }
  destruct pw as [[|p pw]|]; [by eexists| |].
  - destruct (derive_total salt (p :: pw)) as (h & -> & Hd). cbn [mbind option_bind]. eexists. split; [done|]. apply Hput.
    split; [done|]. split; [done|]. split; [done|]. split; [apply sha1_digest|apply sha2_digest].
  - destruct (hash_total salt) as (d & -> & _). cbn [mbind option_bind].
    match goal with |- context [derive_hash ?a ?b] => destruct (derive_total a b) as (h & -> & Hd) end. cbn [mbind option_bind]. eexists. split; [done|]. apply Hput. by repeat split; try apply Hsalt; try apply Hd.
Qed.

Lemma run_op_ok s op : store_ok s -> op_ok op -> exists s', run_op s op = Some s' /\ store_ok s'.
Proof using sha1_digest sha2_digest.
  intros Hs Hop. assert (H4096 : u32 SCRAM_DEFAULT_ITERS) by (split; unfold SCRAM_DEFAULT_ITERS; lia).
  destruct op as [name pw r s1 s2|name pw s1 s2|name a b c|name d|role member|role member|name]; cbn [op_ok run_op] in *.
  - destruct Hop as (Hn & Hpw & H1 & H2). unfold create_user. destruct (create_total s name pw r s1) as (o & E & Ho). rewrite E. cbn [obind].
    destruct o as [s1'|er]; [|by exists s]. apply create_ok in E; [|done..]. destruct (enable_scram s1' name pw s2 SCRAM_DEFAULT_ITERS) as [s'|] eqn:E2; [|by exists s].
    exists s'. split; [done|]. by apply (enable_scram_ok _ _ _ _ _ _ E H4096 H2 E2).
  - destruct Hop as (H1 & H2). unfold alter_user_password. destruct (set_password_total s name pw s1 Hs H1) as (o & E & Ho). rewrite E. cbn [obind].
    destruct o as [s1'|er]; [|by exists s]. destruct Ho as (Hs1 & _). destruct pw as [p|]; [|by exists s1'].
    destruct (enable_scram s1' name p s2 SCRAM_DEFAULT_ITERS) as [s'|] eqn:E2; [|by exists s].
    exists s'. split; [done|]. by apply (enable_scram_ok _ _ _ _ _ _ Hs1 H4096 H2 E2).
  - eexists. split; [done|]. by apply update_ok.
  - eexists. split; [done|]. by apply update_ok.
  - eexists. split; [done|]. destruct Hop. by apply add_member_ok.
  - eexists. split; [done|]. by apply drop_member_ok.
  - eexists. split; [done|]. by apply drop_user_ok.
Qed.

Lemma run_ops_ok ops s : store_ok s -> Forall op_ok ops -> exists s', run_ops s ops = Some s' /\ store_ok s'.
Proof using sha1_digest sha2_digest.
  intros Hs Hops. revert s Hs. induction Hops as [|op ops Hop _ IH]; intros s Hs; [by exists s|].
  destruct (run_op_ok s op Hs Hop) as (s1 & E & Hs1). cbn [run_ops]. rewrite E. by apply IH.
Qed.
End Store.

(** ** Any file *)

Lemma take_ok n buf x rest : is_bytes buf -> take_ n buf = Ok (x, rest) -> digest n x /\ is_bytes rest.
Proof.
  intros Hb. unfold take_. destruct (length buf <? n)%nat eqn:E; [done|]. prop_bools. intros [= <- <-].
  split; [split; [by apply is_bytes_take|rewrite length_take; lia]|by apply is_bytes_drop].
Qed.

(** One [?] of a parser that succeeded. *)
Ltac parse_step E F :=
  match type of E with rbind ?m _ = Ok _ => destruct m as [[? ?]|] eqn:F; cbn [rbind] in E; [|discriminate E] end.

Lemma take_le_ok n buf x rest : is_bytes buf -> take_le n buf = Ok (x, rest) -> in_w (8 * Z.of_nat n) x /\ is_bytes rest.
Proof.
  intros Hb E. unfold take_le in E. parse_step E F. injection E as <- <-.
  destruct (take_ok _ _ _ _ Hb F) as ((Hd & <-) & Hr). split; [by apply le_val_bound|done].
Qed.

Lemma take_byte_ok buf x rest : is_bytes buf -> take_byte buf = Ok (x, rest) -> is_bytes rest.
Proof. intros Hb E. unfold take_byte in E. parse_step E F. injection E as <- <-. by destruct (take_ok _ _ _ _ Hb F). Qed.

Lemma take_name_ok buf x rest : is_bytes buf -> take_name buf = Ok (x, rest) -> is_str x /\ is_bytes rest.
Proof.
  intros Hb E. unfold take_name in E. parse_step E F. apply take_le_ok in F as (_ & Hl0); [|done]. parse_step E F.
  destruct (take_ok _ _ _ _ Hl0 F) as ((Hx & _) & Hr). unfold from_utf8 in E. destruct (utf8_valid _) eqn:Eu; [|done].
  cbn [rbind] in E. injection E as <- <-. done.
Qed.

Lemma take_opt_ok {A} (P : A -> Prop) present (body : list Z -> parsed A) buf o rest :
  (forall b a r, is_bytes b -> body b = Ok (a, r) -> P a /\ is_bytes r) ->
  is_bytes buf -> take_opt present body buf = Ok (o, rest) -> opt_ok P o /\ is_bytes rest.
Proof.
  intros Hbody Hb E. unfold take_opt in E. destruct present; [|by injection E as <- <-]. parse_step E F.
  apply take_byte_ok in F; [|done]. destruct (_ =? 1); [|by injection E as <- <-]. parse_step E G.
  injection E as <- <-. by eapply Hbody.
Qed.

Lemma take_scram_ok buf x rest : is_bytes buf -> take_scram buf = Ok (x, rest) -> scram_ok x /\ is_bytes rest.
Proof.
  intros Hb E. unfold take_scram in E. parse_step E F1. apply take_le_ok in F1 as (H1 & Hr1); [|done].
  parse_step E F2. apply take_ok in F2 as (H2 & Hr2); [|done]. parse_step E F3. apply take_ok in F3 as (H3 & Hr3); [|done].
  parse_step E F4. apply take_ok in F4 as (H4 & Hr4); [|done]. injection E as <- <-. done.
Qed.

Lemma take_user_ok f buf u rest : is_bytes buf -> take_user f buf = Ok (u, rest) -> (is_str u.1 /\ record_ok u.2) /\ is_bytes rest.
Proof.
  intros Hb E. unfold take_user in E. parse_step E F1. apply take_name_ok in F1 as (H1 & Hr1); [|done].
  parse_step E F2. apply take_byte_ok in F2; [|done].
  match type of E with rbind ?m _ = Ok _ => destruct m as [r|]; cbn [rbind] in E; [|discriminate E] end.
  parse_step E F3. apply take_ok in F3 as (H3 & Hr3); [|done]. parse_step E F4. apply take_ok in F4 as (H4 & Hr4); [|done].
  parse_step E F5. apply (take_opt_ok scram_ok) in F5 as (H5 & Hr5); [|by apply take_scram_ok|done].
  parse_step E F6. apply (take_opt_ok (digest 20)) in F6 as (H6 & Hr6); [|by intros; eapply take_ok|done].
  parse_step E F7. apply (take_opt_ok (digest 32)) in F7 as (H7 & Hr7); [|by intros; eapply take_ok|done].
  match type of E with rbind ?m _ = Ok _ => destruct m as [[[[a b] c] r8]|] eqn:F8; cbn [rbind] in E; [|discriminate E] end.
  assert (Hr8 : is_bytes r8).
  { destruct (role_attrs_inline f); [|by injection F8 as _ _ _ <-]. parse_step F8 G. apply take_ok in G as (_ & G); [|done]. by injection F8 as _ _ _ <-. }
  parse_step E F9. injection E as <- <-. split; [exact (conj H1 (conj H3 (conj H4 (conj H5 (conj H6 H7)))))|].
  destruct (password_declared_inline f); [|by injection F9 as _ <-]. parse_step F9 G. apply take_byte_ok in G; [|done]. by injection F9 as _ <-.
Qed.

Lemma insert_user_ok s u : store_ok s -> is_str u.1 /\ record_ok u.2 -> store_ok (mk_store (sm_insert u.1 u.2 (users s)) (memberships s)).
Proof. intros [H1 H2 H3 H4] Hu. constructor; cbn; try done; [by apply sm_insert_sorted|by apply sm_insert_Forall]. Qed.

Lemma take_users_ok count f : forall s buf s' rest, store_ok s -> is_bytes buf -> take_users count f s buf = Ok (s', rest) -> store_ok s' /\ is_bytes rest.
Proof.
  induction count as [|count IH]; intros s buf s' rest Hs Hb E; cbn [take_users] in E; [by injection E as <- <-|].
  parse_step E F. apply take_user_ok in F as (Hu & Hr); [|done]. eapply IH; [|done|exact E]. by apply insert_user_ok.
Qed.

Lemma take_members_ok count : forall s buf s' rest, store_ok s -> is_bytes buf -> take_members count s buf = Ok (s', rest) -> store_ok s' /\ is_bytes rest.
Proof.
  induction count as [|count IH]; intros s buf s' rest Hs Hb E; cbn [take_members] in E; [by injection E as <- <-|].
  parse_step E F. apply take_name_ok in F as (H1 & Hr1); [|done]. parse_step E F. apply take_name_ok in F as (H2 & Hr2); [|done].
  eapply IH; [|done|exact E]. by apply add_member_ok.
Qed.

Lemma deserialize_ok buf s : is_bytes buf -> deserialize_users buf = Ok s -> store_ok s.
Proof.
  intros Hb E. unfold deserialize_users in E. destruct (take_format buf) as [f b0] eqn:Ef.
  assert (Hb0 : is_bytes b0).
  { unfold take_format in Ef. destruct buf as [|b buf]; [by injection Ef as _ <-|]. apply Forall_cons in Hb as Hb'. destruct Hb' as [_ Hb'].
    repeat (destruct (b =? _); [by injection Ef as _ <-|]). by injection Ef as _ <-. }
  parse_step E F1. apply take_le_ok in F1 as (_ & H1); [|done]. parse_step E F2. apply take_users_ok in F2 as (H2 & Hr2); [|exact store_new_ok|done].
  match type of E with rbind ?m _ = Ok _ => destruct m as [[s3 r3]|] eqn:F3; cbn [rbind] in E; [|discriminate E] end.
  assert (H3 : store_ok s3).
  { destruct (role_attrs_inline f); [|by injection F3 as <- <-]. parse_step F3 G. apply take_le_ok in G as (_ & Hg); [|done].
    by apply take_members_ok in F3 as [F3 _]. }
  destruct r3; [|done]. by injection E as <-.
Qed.

(** ** The file round trip *)

Lemma take_app x n rest : n = length x -> take_ n (x ++ rest) = Ok (x, rest).
Proof.
  intros ->. unfold take_. rewrite length_app, (proj2 (Nat.ltb_ge _ _)) by lia. by rewrite take_app_length, drop_app_length.
Qed.

Lemma take_byte_app b rest : take_byte (b :: rest) = Ok (b, rest).
Proof. unfold take_byte. change (b :: rest) with ([b] ++ rest). by rewrite take_app. Qed.

Lemma take_le_app n x rest : in_w (8 * Z.of_nat n) x -> take_le n (le_bytes n x ++ rest) = Ok (x, rest).
Proof. intros H. unfold take_le. rewrite take_app by by rewrite length_le_bytes. cbn [rbind]. by rewrite le_val_le_bytes_id. Qed.

Definition name_fits (n : list Z) : Prop := is_str n /\ Z.of_nat (length n) < 2 ^ 16.

Lemma name_bytes_ok n : name_fits n -> exists b, name_bytes n = Some b /\ forall rest, take_name (b ++ rest) = Ok (n, rest).
Proof.
  intros (Hs & Hl). unfold name_bytes, len_bytes. rewrite (proj2 (Z.ltb_lt _ _)) by exact Hl. cbn [mbind option_bind].
  eexists. split; [done|]. intros rest. unfold take_name. rewrite <- app_assoc, take_le_app by (split; [lia|exact Hl]). cbn [rbind].
  rewrite take_app by by rewrite Nat2Z.id. cbn [rbind]. by rewrite from_utf8_str.
Qed.

Lemma take_opt_app {A} (enc : A -> list Z) (body : list Z -> parsed A) o rest :
  (forall a, o = Some a -> body (enc a ++ rest) = Ok (a, rest)) ->
  take_opt true body (opt_bytes (enc <$> o) ++ rest) = Ok (o, rest).
Proof.
  intros Hb. unfold take_opt. destruct o as [a|]; cbn [fmap option_fmap option_map opt_bytes app]; rewrite take_byte_app; cbn [rbind]; [|done].
  rewrite Z.eqb_refl. by rewrite (Hb a).
Qed.

Lemma take_scram_app s rest : scram_ok s -> take_scram (scram_bytes s ++ rest) = Ok (s, rest).
Proof.
  intros (H1 & (_ & H2) & (_ & H3) & (_ & H4)). unfold take_scram, scram_bytes. rewrite <- !app_assoc, take_le_app by done. cbn [rbind].
  rewrite take_app by done. cbn [rbind]. rewrite take_app by done. cbn [rbind]. rewrite take_app by done. cbn [rbind]. by destruct s.
Qed.

Lemma bool_byte_eq b : (bool_byte b =? 1) = b.
Proof. by destruct b. Qed.

Definition v6 : format := mk_format true true true true true.

Lemma user_bytes_ok u : name_fits u.1 -> record_ok u.2 ->
  exists b, user_bytes u = Some b /\ forall rest, take_user v6 (b ++ rest) = Ok (u, rest).
Proof.
  destruct u as [n r]. intros Hn ((_ & H1) & (_ & H2) & H3 & H4 & H5). cbn [fst snd] in *. destruct (name_bytes_ok n Hn) as (nb & Enb & Hnb).
  unfold user_bytes. rewrite Enb. cbn [mbind option_bind]. eexists. split; [done|]. intros rest. unfold take_user, v6.
  rewrite <- !app_assoc, Hnb. cbn [rbind app]. rewrite take_byte_app. cbn [rbind].
  assert (Hr : (if role_byte (role r) =? 0 then Ok Admin else if role_byte (role r) =? 1 then Ok ReadWrite
    else if role_byte (role r) =? 2 then Ok ReadOnly else Err (BadRole (role_byte (role r)))) = Ok (role r)) by by destruct (role r).
  rewrite Hr. cbn [rbind]. rewrite take_app by done. cbn [rbind]. rewrite take_app by done. cbn [rbind].
  cbn [scram_present_inline mysql_native_present_inline caching_sha2_present_inline role_attrs_inline password_declared_inline].
  rewrite take_opt_app by (intros a Ha; rewrite Ha in H3; by apply take_scram_app). cbn [rbind].
  assert (Hid : forall o : option (list Z), o = id <$> o) by by intros [].
  rewrite (Hid (mysql_native r)), take_opt_app by (intros a Ha; rewrite Ha in H4; apply take_app; symmetry; apply H4). cbn [rbind].
  rewrite (Hid (caching_sha2 r)), take_opt_app by (intros a Ha; rewrite Ha in H5; apply take_app; symmetry; apply H5). cbn [rbind].
  match goal with |- context [take_ 3 (?a :: ?b :: ?c :: ?l)] => assert (take_ 3 (a :: b :: c :: l) = Ok ([a; b; c], l)) as -> by reflexivity end. cbn [rbind nth]. rewrite take_byte_app. cbn [rbind]. rewrite !bool_byte_eq. by destruct r.
Qed.

(** A list of entries and the loop that reads them back. *)
Lemma mapM_bytes {A} (enc : A -> option (list Z)) (P : A -> Prop) l : (forall a, P a -> is_Some (enc a)) -> Forall P l -> is_Some (mapM enc l).
Proof. intros He Hl. apply mapM_is_Some. eapply Forall_impl; [exact Hl|]. auto. Qed.

Lemma take_users_app us : forall s bs rest, Forall (fun u => name_fits u.1 /\ record_ok u.2) us -> mapM user_bytes us = Some bs ->
  take_users (length us) v6 s (concat bs ++ rest) = Ok (mk_store (fold_left (fun l u => sm_insert u.1 u.2 l) us (users s)) (memberships s), rest).
Proof.
  induction us as [|u us IH]; intros s bs rest Hus E.
  - injection E as <-. by destruct s.
  - apply Forall_cons in Hus as [[Hn Hr] Hus]. destruct (user_bytes_ok u Hn Hr) as (b & Eb & Hb). cbn [mapM] in E.
    rewrite Eb in E. cbn [mbind option_bind] in E. destruct (mapM user_bytes us) as [bs'|] eqn:Em; [|done]. injection E as <-.
    cbn [concat length take_users]. rewrite <- app_assoc, Hb. cbn [rbind]. rewrite (IH _ bs') by done. done.
Qed.

(** Entries inserted in order. *)
Lemma fold_insert_sorted {K V} `{OrdKey K} (l acc : list (K * V)) : sorted (acc ++ l) ->
  fold_left (fun l u => sm_insert u.1 u.2 l) l acc = acc ++ l.
Proof.
  revert acc. induction l as [|[k v] l IH]; intros acc Hs; [by rewrite app_nil_r|]. cbn [fold_left fst snd].
  apply sorted_mid in Hs as Hm. destruct Hm as (_ & _ & Hlt & _). rewrite <- (app_nil_r acc) at 1. rewrite sm_insert_skip by done. cbn [sm_insert].
  rewrite IH; by rewrite <- app_assoc.
Qed.

Lemma pair_bytes_ok p : name_fits p.1 -> name_fits p.2 -> exists b, pair_bytes p = Some b /\
  forall n s rest, take_members (S n) s (b ++ rest) = take_members n (add_member s p.2 p.1) rest.
Proof.
  intros H1 H2. destruct (name_bytes_ok _ H1) as (b1 & E1 & F1). destruct (name_bytes_ok _ H2) as (b2 & E2 & F2).
  unfold pair_bytes. rewrite E1, E2. cbn [mbind option_bind]. eexists. split; [done|]. intros n s rest. cbn [take_members].
  rewrite <- app_assoc, F1. cbn [rbind]. rewrite F2. done.
Qed.

Lemma take_members_app ps : forall s bs rest, Forall (fun p => name_fits p.1 /\ name_fits p.2) ps -> mapM pair_bytes ps = Some bs ->
  take_members (length ps) s (concat bs ++ rest) = Ok (fold_left (fun s p => add_member s p.2 p.1) ps s, rest).
Proof.
  induction ps as [|p ps IH]; intros s bs rest Hps E.
  - injection E as <-. done.
  - apply Forall_cons in Hps as [[H1 H2] Hps]. destruct (pair_bytes_ok p H1 H2) as (b & Eb & Hb). cbn [mapM] in E.
    rewrite Eb in E. cbn [mbind option_bind] in E. destruct (mapM pair_bytes ps) as [bs'|] eqn:Em; [|done]. injection E as <-.
    cbn [concat length]. rewrite <- app_assoc, Hb. by rewrite (IH _ bs').
Qed.

Lemma filter_Forall {A} (P Q : A -> Prop) `{!forall x, Decision (Q x)} l : Forall P l -> Forall P (filter Q l).
Proof. induction 1 as [|x l Hx Hl IH]; [constructor|]. rewrite filter_cons. case_decide; [by constructor|done]. Qed.

(** The memberships as the file keeps them: no empty sets. *)
Definition nonempty (ms : list (list Z * bset (list Z))) : list (list Z * bset (list Z)) := filter (fun m => m.2 <> []) ms.

(** Granting one member's roles in order. *)
Lemma grant_set us m roles acc set0 : sorted acc -> sorted (set0 ++ roles) -> all_lt acc m ->
  fold_left (fun s p => add_member s p.2 p.1) (map (pair m) (bs_elems roles)) (mk_store us (acc ++ match set0 with [] => [] | _ => [(m, set0)] end)) =
  mk_store us (acc ++ match set0 ++ roles with [] => [] | _ => [(m, set0 ++ roles)] end).
Proof.
  revert set0. induction roles as [|[r []] roles IH]; intros set0 Ha Hs Hlt; [by rewrite app_nil_r|].
  change (bs_elems ((r, tt) :: roles)) with (r :: bs_elems roles). cbn [map fold_left fst snd]. unfold add_member at 2. cbn [users memberships].
  apply sorted_mid in Hs as Hm. destruct Hm as (_ & _ & Hr & _).
  assert (Hset : bs_insert r set0 = set0 ++ [(r, tt)]).
  { unfold bs_insert. rewrite <- (app_nil_r set0) at 1. by rewrite sm_insert_skip. }
  replace (mk_store us (sm_insert m _ _)) with (mk_store us (acc ++ match set0 ++ [(r, tt)] with [] => [] | _ => [(m, set0 ++ [(r, tt)])] end)).
  - rewrite (IH (set0 ++ [(r, tt)])) by (done || by rewrite <- app_assoc). by rewrite <- app_assoc.
  - f_equal. rewrite sm_lookup_skip, sm_insert_skip by done. f_equal. destruct set0 as [|x set0]; cbn [sm_lookup sm_insert fst snd app].
    + done.
    + rewrite !kcmp_refl. cbn [default]. unfold id. by rewrite Hset.
Qed.

Lemma fold_members us ms : forall acc, sorted (acc ++ ms) -> Forall (fun m => sorted m.2) ms ->
  fold_left (fun s p => add_member s p.2 p.1) (concat (map (fun '(m, roles) => map (pair m) (bs_elems roles)) ms)) (mk_store us (nonempty acc)) =
  mk_store us (nonempty (acc ++ ms)).
Proof.
  induction ms as [|[m roles] ms IH]; intros acc Hs Hf; [by rewrite app_nil_r|]. apply Forall_cons in Hf as [Hr Hf]. cbn [map concat].
  rewrite fold_left_app. apply sorted_mid in Hs as Hm. destruct Hm as (_ & _ & Hlt & _). pose proof (sorted_app_l _ _ Hs) as Ha.
  assert (Hna : sorted (nonempty acc) /\ all_lt (nonempty acc) m).
  { split; [|by apply filter_Forall]. clear -Ha. induction Ha as [|[a x] acc Ha IH Hx]; [constructor|]. unfold nonempty. rewrite filter_cons. case_decide; [|done].
    constructor; [done|]. by apply filter_Forall. }
  pose proof (grant_set us m roles (nonempty acc) [] (proj1 Hna) Hr (proj2 Hna)) as Hg. rewrite app_nil_r in Hg. rewrite Hg.
  rewrite (cons_middle (m, roles)), app_assoc in Hs |- *. rewrite <- (IH (acc ++ [(m, roles)]) Hs Hf). f_equal. f_equal.
  unfold nonempty. rewrite filter_app. cbn [app filter list_filter]. destruct roles; case_decide; cbn in *; try done.
Qed.

(** What the file's length fields hold. *)
Definition store_fits (s : UserStore) : Prop :=
  Z.of_nat (length (users s)) < 2 ^ 32 /\ Z.of_nat (length (all_memberships s)) < 2 ^ 32 /\
  Forall (fun u => Z.of_nat (length u.1) < 2 ^ 16) (users s) /\
  Forall (fun p => Z.of_nat (length p.1) < 2 ^ 16 /\ Z.of_nat (length p.2) < 2 ^ 16) (all_memberships s).

Lemma all_memberships_names s : store_ok s -> Forall (fun p => is_str p.1 /\ is_str p.2) (all_memberships s).
Proof.
  intros [_ _ _ H4]. unfold all_memberships. induction H4 as [|[m roles] ms (Hm & _ & Hf) _ IH]; [constructor|]. cbn [map concat].
  apply Forall_app. split; [|done]. apply Forall_map, Forall_map. eapply Forall_impl; [exact Hf|]. by intros [r []] Hr.
Qed.

Lemma len_bytes_ok w n : Z.of_nat n < 2 ^ (8 * Z.of_nat w) -> len_bytes w n = Some (le_bytes w (Z.of_nat n)).
Proof. intros H. unfold len_bytes. by rewrite (proj2 (Z.ltb_lt _ _)). Qed.

Lemma deserialize_serialize s : store_ok s -> store_fits s ->
  exists b, serialize_users s = Some b /\ deserialize_users b = Ok (mk_store (users s) (nonempty (memberships s))).
Proof.
  intros Hok (Hu & Hp & Hun & Hpn). pose proof (all_memberships_names s Hok) as Hnames.
  assert (Hus : Forall (fun u => name_fits u.1 /\ record_ok u.2) (users s)).
  { pose proof (so_records _ Hok) as Hr. rewrite Forall_forall in *. intros u Hin. destruct (Hr u Hin) as (Hn & Hrec). split; [split; [done|by apply Hun]|done]. }
  assert (Hps : Forall (fun p => name_fits p.1 /\ name_fits p.2) (all_memberships s)).
  { rewrite Forall_forall in *. intros p Hin. destruct (Hnames p Hin), (Hpn p Hin). done. }
  unfold serialize_users. rewrite !len_bytes_ok by done. cbn [mbind option_bind].
  destruct (mapM_bytes user_bytes (fun u => name_fits u.1 /\ record_ok u.2) (users s)) as [us Eus]; [|done|].
  { intros u [H1 H2]. destruct (user_bytes_ok u H1 H2) as (b & -> & _). by eexists. }
  destruct (mapM_bytes pair_bytes (fun p => name_fits p.1 /\ name_fits p.2) (all_memberships s)) as [ps Eps]; [|done|].
  { intros p [H1 H2]. destruct (pair_bytes_ok p H1 H2) as (b & -> & _). by eexists. }
  rewrite Eus, Eps. cbn [mbind option_bind]. eexists. split; [done|].
  unfold deserialize_users. cbn [app take_format]. rewrite Z.eqb_refl. rewrite take_le_app by (split; [lia|done]). cbn [rbind].
  fold v6. rewrite Nat2Z.id, (take_users_app _ _ us) by done. cbn [rbind role_attrs_inline v6].
  rewrite take_le_app by (split; [lia|done]). cbn [rbind]. rewrite Nat2Z.id, <- (app_nil_r (concat ps)), (take_members_app _ _ ps) by done. cbn [rbind].
  f_equal. cbn [users memberships store_new]. rewrite (fold_insert_sorted _ []) by apply Hok. cbn [app].
  apply (fold_members (users s) (memberships s) []); [apply Hok|]. eapply Forall_impl; [apply Hok|]. by intros m (_ & Hs & _).
Qed.

Lemma sm_lookup_filter {V} (P : list Z * V -> Prop) `{!forall x, Decision (P x)} k (l : list (list Z * V)) : sorted l ->
  sm_lookup k (filter P l) = match sm_lookup k l with Some v => if decide (P (k, v)) then Some v else None | None => None end.
Proof.
  induction l as [|[a v] l IH]; [done|]. rewrite sorted_cons. intros [Hgt Hs]. rewrite filter_cons. cbn [sm_lookup fst] in *.
  assert (Hnone : kcmp a k = Eq -> sm_lookup k (filter P l) = None).
  { intros E. apply kcmp_eq in E as ->. apply sm_lookup_all_gt. by apply filter_Forall. }
  destruct (decide (P (a, v))) as [Hp|Hp]; cbn [sm_lookup]; destruct (kcmp a k) eqn:E.
  - apply kcmp_eq in E as ->. by rewrite decide_True.
  - by apply IH.
  - by apply IH.
  - rewrite Hnone by done. apply kcmp_eq in E as ->. by rewrite decide_False.
  - by apply IH.
  - by apply IH.
Qed.

(** Dropping empty sets changes no membership. *)
Lemma memberships_of_nonempty us ms m : sorted ms -> memberships_of (mk_store us (nonempty ms)) m = memberships_of (mk_store us ms) m.
Proof.
  intros Hs. unfold memberships_of, nonempty. cbn [memberships]. rewrite sm_lookup_filter by done.
  destruct (sm_lookup m ms) as [[|x set]|]; [by case_decide|by case_decide|done].
Qed.
