(* ===== verification/UsersRoles.v ===== *)
(** Roles: the two closures of role membership against reachability, what the
    credentials of a user accept, and the properties of the user table. *)
From S2P Require Import Prelude Bytes SortedMap Sha256 Blake3 Users UsersOk.
Open Scope Z_scope.

(** ** Membership, ignoring case *)

Lemma bs_mem_dec_false {K} `{OrdKey K} x (s : bset K) : bs_mem x s = false <-> ~ bs_mem x s = true.
Proof. destruct (bs_mem x s); split; congruence. Qed.

Lemma bs_insert_new {K} `{OrdKey K} x (s : bset K) : sorted s -> bs_mem x s = false -> length (bs_insert x s) = S (length s).
Proof.
  intros Hs Hm. unfold bs_insert. rewrite length_sm_insert by done. unfold bs_mem in Hm. by destruct (sm_lookup x s).
Qed.

Section Transitive.
Context (ms : list (list Z * bset (list Z))).

(** [m] is a member of [r], the names compared ignoring case. *)
Definition edge (a b : list Z) : Prop :=
  exists m roles r, (m, roles) ∈ ms /\ r ∈ bs_elems roles /\ to_ascii_lowercase m = a /\ to_ascii_lowercase r = b.

(** The roles of every member matching [cur]. *)
Definition roles_matching (cur : list Z) : list (list Z) :=
  concat (map (fun '(m, roles) => if eq_ignore_ascii_case m cur then bs_elems roles else []) ms).

Lemma fold_matching cur st :
  fold_left (fun st '(m, roles) => if eq_ignore_ascii_case m cur then fold_left see_role (bs_elems roles) st else st) ms st =
  fold_left see_role (roles_matching cur) st.
Proof.
  unfold roles_matching. revert st. induction ms as [|[m roles] l IH]; intros st; [done|]. cbn [fold_left map concat]. rewrite fold_left_app, IH.
  by destruct (eq_ignore_ascii_case m cur).
Qed.

Lemma roles_matching_edge cur b : b ∈ map to_ascii_lowercase (roles_matching cur) <-> edge (to_ascii_lowercase cur) b.
Proof.
  unfold roles_matching, edge. split.
  - intros (r & -> & Hr)%list_elem_of_fmap. apply list_elem_of_In, in_concat in Hr as (l & Hl & Hr). apply in_map_iff in Hl as ([m roles] & <- & Hm).
    unfold eq_ignore_ascii_case in Hr. case_bool_decide as E; [|done]. exists m, roles, r. rewrite !list_elem_of_In. done.
  - intros (m & roles & r & Hm & Hr & Hma & <-). apply list_elem_of_fmap. exists r. split; [done|]. apply list_elem_of_In, in_concat.
    exists (bs_elems roles). split; [|by apply list_elem_of_In]. apply in_map_iff. exists (m, roles). split; [|by apply list_elem_of_In].
    unfold eq_ignore_ascii_case. by rewrite bool_decide_true.
Qed.

(** Seeing a list of roles: the new ones are pushed, once each. *)
Lemma see_roles rs : forall (seen : bset (list Z)) queue, sorted seen ->
  exists seen' new, fold_left see_role rs (seen, queue) = (seen', new ++ queue) /\ sorted seen' /\
    (forall x, bs_mem x seen' = true <-> bs_mem x seen = true \/ x ∈ map to_ascii_lowercase rs) /\
    (forall x, bs_mem x seen' = true -> bs_mem x seen = true \/ exists q, q ∈ new /\ to_ascii_lowercase q = x) /\
    (forall q, q ∈ new -> bs_mem (to_ascii_lowercase q) seen' = true) /\
    length seen' = (length seen + length new)%nat.
Proof.
  induction rs as [|r rs IH]; intros seen queue Hs; cbn [fold_left].
  - exists seen, []. cbn. split; [done|]. split; [done|]. split; [intros x; split; [by left|intros [H|H]; [done|by apply elem_of_nil in H]]|].
    split; [by left|]. split; [|lia]. intros q H. by apply elem_of_nil in H.
  - unfold see_role at 2. destruct (bs_mem (to_ascii_lowercase r) seen) eqn:E.
    + destruct (IH seen queue Hs) as (seen' & new & -> & Hs' & H1 & H2 & H3 & H4). exists seen', new. split; [done|]. split; [done|].
      split; [|done]. intros x. rewrite H1. cbn [map]. rewrite elem_of_cons. split; [intros [?|?]; [by left|by right; right]|].
      intros [?|[->|?]]; [by left|by left|by right].
    + destruct (IH (bs_insert (to_ascii_lowercase r) seen) (r :: queue)) as (seen' & new & -> & Hs' & H1 & H2 & H3 & H4); [by apply bs_insert_sorted|].
      exists seen', (new ++ [r]). rewrite <- app_assoc. split; [done|]. split; [done|].
      assert (Hi : forall x, bs_mem x (bs_insert (to_ascii_lowercase r) seen) = true <-> x = to_ascii_lowercase r \/ bs_mem x seen = true) by (intros; by apply bs_mem_insert).
      split; [|split; [|split]].
      * intros x. rewrite H1, Hi. cbn [map]. rewrite elem_of_cons. tauto.
      * intros x Hx. destruct (H2 x Hx) as [Hx'|(q & Hq & Hqx)].
        -- apply Hi in Hx' as [->|Hx']; [|by left]. right. exists r. split; [apply elem_of_app; right; by apply list_elem_of_singleton|done].
        -- right. exists q. split; [apply elem_of_app; by left|done].
      * intros q [Hq|Hq]%elem_of_app; [by apply H3|]. apply list_elem_of_singleton in Hq as ->. apply H1. left. apply Hi. by left.
      * rewrite H4, (bs_insert_new (K:=list Z)), length_app by done. cbn. lia.
Qed.

Definition all_roles : list (list Z) := concat (map (fun '(m, roles) => map to_ascii_lowercase (bs_elems roles)) ms).

Lemma edge_role a b : edge a b -> b ∈ all_roles.
Proof.
  intros (m & roles & r & Hm & Hr & _ & <-). unfold all_roles. apply list_elem_of_In, in_concat. exists (map to_ascii_lowercase (bs_elems roles)).
  split; [apply in_map_iff; exists (m, roles); split; [done|by apply list_elem_of_In]|]. apply in_map_iff. exists r. split; [done|by apply list_elem_of_In].
Qed.

Lemma tc_last a b : tc edge a b -> exists y, edge y b.
Proof. induction 1 as [a b H|]; eauto. Qed.

Lemma transitive_loop_spec member fuel : forall (seen : bset (list Z)) queue, sorted seen ->
  (length queue + (length all_roles - length seen) <= fuel)%nat ->
  (forall x, bs_mem x seen = true -> tc edge (to_ascii_lowercase member) x) ->
  (forall q, q ∈ queue -> to_ascii_lowercase q = to_ascii_lowercase member \/ bs_mem (to_ascii_lowercase q) seen = true) ->
  (forall x, x = to_ascii_lowercase member \/ bs_mem x seen = true ->
    (exists q, q ∈ queue /\ to_ascii_lowercase q = x) \/ forall y, edge x y -> bs_mem y seen = true) ->
  exists res, transitive_loop fuel ms seen queue = Some res /\ sorted res /\
    forall x, bs_mem x res = true <-> tc edge (to_ascii_lowercase member) x.
Proof.
  induction fuel as [|fuel IH]; intros seen queue Hs Hf Hsound Hq Hcl; (destruct queue as [|cur queue]; cbn [transitive_loop]);
    try (exists seen; split; [done|]; split; [done|]; intros x; split; [apply Hsound|];
      intros Htc; assert (Hall : forall a b, (a = to_ascii_lowercase member \/ bs_mem a seen = true) -> tc edge a b -> bs_mem b seen = true);
      [|by apply (Hall (to_ascii_lowercase member)); [left|]];
      intros a b Ha Hab; induction Hab as [a b Hab|a b c Hab _ IHab];
        [destruct (Hcl a Ha) as [(q & Hqq & _)|Hn]; [by apply elem_of_nil in Hqq|by apply Hn]
        |apply IHab; right; destruct (Hcl a Ha) as [(q & Hqq & _)|Hn]; [by apply elem_of_nil in Hqq|by apply Hn]]).
  - cbn in Hf. lia.
  - rewrite fold_matching. destruct (see_roles (roles_matching cur) seen queue Hs) as (seen' & new & -> & Hs' & H1 & H2 & H3 & H4).
    assert (Hcur : to_ascii_lowercase cur = to_ascii_lowercase member \/ tc edge (to_ascii_lowercase member) (to_ascii_lowercase cur)).
    { destruct (Hq cur) as [->|Hm]; [apply elem_of_cons; by left|by left|]. right. by apply Hsound. }
    assert (Hstep : forall x, edge (to_ascii_lowercase cur) x -> tc edge (to_ascii_lowercase member) x).
    { intros x Hx. destruct Hcur as [<-|Hcur]; [by apply tc_once|by eapply tc_r]. }
    assert (Hsound' : forall x, bs_mem x seen' = true -> tc edge (to_ascii_lowercase member) x).
    { intros x Hx. apply H1 in Hx as [Hx|Hx]; [by apply Hsound|]. apply roles_matching_edge in Hx. by apply Hstep. }
    apply IH; [done| |done| |].
    + assert (Hincl : (length seen' <= length all_roles)%nat).
      { replace (length seen') with (length (bs_elems seen')) by apply length_map. apply submseteq_length, NoDup_submseteq; [by apply bs_elems_NoDup|].
        intros x Hx. apply bs_mem_elems, Hsound', tc_last in Hx as (y & Hx). by eapply edge_role. }
      rewrite length_app. cbn [length] in Hf. lia.
    + intros q [Hn|Ho]%elem_of_app; [right; by apply H3|]. destruct (Hq q) as [?|?]; [by apply elem_of_cons; right|by left|]. right. apply H1. by left.
    + intros x Hx. assert (Hx' : x = to_ascii_lowercase member \/ bs_mem x seen = true \/ exists q, q ∈ new /\ to_ascii_lowercase q = x).
      { destruct Hx as [?|Hx]; [by left|]. right. by apply H2. }
      assert (Hold : x = to_ascii_lowercase member \/ bs_mem x seen = true -> (exists q, q ∈ new ++ queue /\ to_ascii_lowercase q = x) \/ forall y, edge x y -> bs_mem y seen' = true).
      { intros Hx2. destruct (Hcl x Hx2) as [(q & Hqq & Hqx)|Hn].
        - apply elem_of_cons in Hqq as [->|Hqq].
          + right. intros y Hy. rewrite <- Hqx in Hy. apply H1. right. by apply roles_matching_edge.
          + left. exists q. split; [apply elem_of_app; by right|done].
        - right. intros y Hy. apply H1. left. by apply Hn. }
      destruct Hx' as [?|[?|(q & Hqn & Hqx)]]; [apply Hold; by left|apply Hold; by right|]. left. exists q. split; [apply elem_of_app; by left|done].
Qed.
End Transitive.

Lemma length_all_roles s : length (all_roles (memberships s)) = length (all_memberships s).
Proof.
  unfold all_roles, all_memberships. induction (memberships s) as [|[m roles] ms IH]; [done|]. cbn [map concat]. rewrite !length_app, !length_map. lia.
Qed.

Lemma transitive_spec s member : exists res, memberships_of_transitive s member = Some res /\ sorted res /\
  forall x, bs_mem x res = true <-> tc (edge (memberships s)) (to_ascii_lowercase member) x.
Proof.
  apply transitive_loop_spec; [constructor| |done| |].
  - unfold closure_fuel. rewrite length_all_roles. cbn. lia.
  - intros q ->%list_elem_of_singleton. by left.
  - intros x [->|Hx]; [|done]. left. exists member. split; [by apply list_elem_of_singleton|done].
Qed.

(** ** Effective roles: memberships through the roles that inherit *)

Section Effective.
Context (s : UserStore).

Definition inh_edge (a b : list Z) : Prop := inherits s a = true /\ b ∈ memberships_of s a.

(** The memberships of members that are not out yet. *)
Fixpoint pending (out : bset (list Z)) (ms : list (list Z * bset (list Z))) : nat :=
  match ms with
  | [] => 0
  | (m, roles) :: ms => ((if bs_mem m out then 0 else length roles) + pending out ms)%nat
  end.

Lemma pending_mono out r ms : sorted out -> (pending (bs_insert r out) ms <= pending out ms)%nat.
Proof.
  intros Ho. induction ms as [|[m roles] ms IH]; cbn [pending]; [done|]. destruct (bs_mem m out) eqn:E; [|destruct (bs_mem m (bs_insert r out)); lia].
  rewrite (proj2 (bs_mem_insert m r out Ho)) by (by right). lia.
Qed.

Lemma pending_insert out r ms : sorted out -> bs_mem r out = false ->
  (pending (bs_insert r out) ms + length (memberships_of (mk_store (users s) ms) r) <= pending out ms)%nat.
Proof.
  intros Ho Hr. unfold memberships_of. cbn [memberships]. induction ms as [|[m roles] ms IH]; [done|]. cbn [pending sm_lookup].
  destruct (kcmp m r) eqn:E.
  - apply kcmp_eq in E as ->. rewrite Hr, (proj2 (bs_mem_insert r r out Ho)) by (by left).
    pose proof (pending_mono out r ms Ho). unfold bs_elems. rewrite length_map. lia.
  - destruct (bs_mem m out) eqn:Em; [rewrite (proj2 (bs_mem_insert m r out Ho)) by (by right)|destruct (bs_mem m (bs_insert r out))]; lia.
  - destruct (bs_mem m out) eqn:Em; [rewrite (proj2 (bs_mem_insert m r out Ho)) by (by right)|destruct (bs_mem m (bs_insert r out))]; lia.
Qed.

Lemma pending_nil ms : pending [] ms = length (concat (map (fun '(m, roles) => map (@pair (list Z) (list Z) m) (bs_elems roles)) ms)).
Proof. induction ms as [|[m roles] ms IH]; [done|]. cbn [pending map concat]. rewrite length_app, IH. unfold bs_elems. by rewrite !length_map. Qed.

Lemma effective_loop_spec role fuel : forall (out : bset (list Z)) queue, sorted out ->
  (length queue + pending out (memberships s) <= fuel)%nat ->
  (forall x, bs_mem x out = true \/ x ∈ queue -> rtc inh_edge role x) ->
  bs_mem role out = true ->
  (forall x y, bs_mem x out = true -> inh_edge x y -> bs_mem y out = true \/ y ∈ queue) ->
  exists res, effective_loop fuel s out queue = Some res /\ sorted res /\ forall x, bs_mem x res = true <-> rtc inh_edge role x.
Proof.
  induction fuel as [|fuel IH]; intros out [|r queue] Ho Hf Hsound Hrole Hcl; cbn [effective_loop]; try (cbn in Hf; lia).
  all: try (exists out; split; [done|]; split; [done|]; intros x; split; [by intros; apply Hsound; left|]; revert x;
      apply rtc_ind_r; [done|]; intros x y _ Hxy Hx; destruct (Hcl x y Hx Hxy) as [?|H%elem_of_nil]; done).
  destruct (bs_mem r out) eqn:E.
  - apply IH; [done|cbn in Hf; lia| |done|].
    + intros x [Hx|Hx]; apply Hsound; [by left|right; by apply elem_of_cons; right].
    + intros x y Hx Hxy. destruct (Hcl x y Hx Hxy) as [?|[->|?]%elem_of_cons]; [by left|by left|by right].
  - assert (Hi : forall x, bs_mem x (bs_insert r out) = true <-> x = r \/ bs_mem x out = true) by (intros; by apply bs_mem_insert).
    assert (Hr : rtc inh_edge role r) by (apply Hsound; right; by apply elem_of_cons; left).
    pose proof (pending_insert out r (memberships s) Ho E) as Hp. change (memberships_of (mk_store (users s) (memberships s)) r) with (memberships_of s r) in Hp.
    cbn in Hf. apply IH; [by apply bs_insert_sorted| | | |].
    + destruct (inherits s r); [rewrite length_app, length_rev|]; lia.
    + intros x [[->|Hx]%Hi|Hx]; [done|apply Hsound; by left|]. destruct (inherits s r) eqn:Ei; [apply elem_of_app in Hx as [Hx|Hx]|].
      * eapply rtc_r; [exact Hr|]. split; [done|]. by apply list_elem_of_In, in_rev, list_elem_of_In in Hx.
      * apply Hsound. right. by apply elem_of_cons; right.
      * apply Hsound. right. by apply elem_of_cons; right.
    + apply Hi. by right.
    + intros x y [->|Hx]%Hi Hxy.
      * destruct Hxy as [-> Hy]. right. apply elem_of_app. left. by apply list_elem_of_In, in_rev; rewrite rev_involutive; apply list_elem_of_In.
      * destruct (Hcl x y Hx Hxy) as [?|[->|?]%elem_of_cons]; [left; apply Hi; by right|left; apply Hi; by left|right].
        destruct (inherits s r); [by apply elem_of_app; right|done].
Qed.

Lemma effective_spec role : exists res, effective_roles s role = Some res /\ sorted res /\
  forall x, bs_mem x res = true <-> rtc inh_edge role x.
Proof.
  assert (Hs : sorted (bs_insert role [])) by (apply bs_insert_sorted; constructor).
  assert (Hi : forall x, bs_mem x (bs_insert role []) = true <-> x = role).
  { intros x. rewrite (bs_mem_insert x role []) by constructor. split; [by intros [?|?]|by left]. }
  unfold effective_roles. destruct (inherits s role) eqn:E; cbn [negb].
  - apply effective_loop_spec; [done| | | |].
    + pose proof (pending_insert [] role (memberships s) ltac:(constructor) eq_refl) as Hp. rewrite length_rev. unfold closure_fuel, all_memberships.
      rewrite <- pending_nil. change (memberships_of (mk_store (users s) (memberships s)) role) with (memberships_of s role) in Hp. lia.
    + intros x [->%Hi|Hx]; [done|]. apply rtc_once. split; [done|]. by apply list_elem_of_In, in_rev, list_elem_of_In in Hx.
    + by apply Hi.
    + intros x y ->%Hi [_ Hy]. right. by apply list_elem_of_In, in_rev; rewrite rev_involutive; apply list_elem_of_In.
  - exists (bs_insert role []). split; [done|]. split; [done|]. intros x. rewrite Hi. split; [by intros ->|].
    by intros [->|(y & [Hy _] & _)]%rtc_inv; [|congruence].
Qed.
End Effective.

(** Both closures of role membership end, within a step per membership,
    and are exact: [memberships_of_transitive] (row policies) returns the
    roles reachable from the member over one or more memberships, names
    compared ignoring case and lowered; [effective_roles] (privileges) returns
    the role itself and the roles reachable from it through roles that
    inherit. *)
Lemma role_closures_exact s role : exists t e,
  memberships_of_transitive s role = Some t /\ sorted t /\
  (forall x, bs_mem x t = true <-> tc (edge (memberships s)) (to_ascii_lowercase role) x) /\
  effective_roles s role = Some e /\ sorted e /\ (forall x, bs_mem x e = true <-> rtc (inh_edge s) role x).
Proof. destruct (transitive_spec s role) as (t & ? & ? & ?), (effective_spec s role) as (e & ? & ? & ?). by exists t, e. Qed.

(** A NOINHERIT member, and a role whose name differs only in case: the row
    policies see memberships the privileges do not. *)
Lemma closures_differ :
  let rec i := mk_user ReadOnly (repeat 0 16) (repeat 0 32) None None None true true i false in
  let s := mk_store [(lit "a", rec false); (lit "b", rec true)] [(lit "B", [(lit "admins", tt)]); (lit "a", [(lit "admins", tt)])] in
  bs_elems <$> memberships_of_transitive s (lit "a") = Some [lit "admins"] /\ bs_elems <$> effective_roles s (lit "a") = Some [lit "a"] /\
  bs_elems <$> memberships_of_transitive s (lit "b") = Some [lit "admins"] /\ bs_elems <$> effective_roles s (lit "b") = Some [lit "b"].
Proof. repeat split; vm_compute; reflexivity. Qed.

Section Reachable.
Context (sha1 sha2 : list Z -> list Z).
Context (sha1_digest : forall m, digest 20 (sha1 m)) (sha2_digest : forall m, digest 32 (sha2 m)).

(** The user table is well-typed whatever happens to it: the table read
    from any accepted file, of any of the six versions, and then changed by
    any role statements whose names are strings, holds strictly sorted
    strings, salts of sixteen bytes, digests of their algorithm's length and
    sorted membership sets; no operation panics on the way. *)
Lemma users_stay_well_formed buf s ops (file : is_bytes buf) (read : deserialize_users buf = Ok s) (named : Forall op_ok ops) :
  exists s', run_ops sha1 sha2 s ops = Some s' /\ store_ok s'.
Proof using sha1_digest sha2_digest. apply run_ops_ok; [done..| |done]. by eapply deserialize_ok. Qed.

Lemma all_memberships_nonempty us ms : all_memberships (mk_store us (nonempty ms)) = all_memberships (mk_store us ms).
Proof.
  unfold all_memberships, nonempty. cbn [memberships]. induction ms as [|[m roles] ms IH]; [done|]. rewrite filter_cons.
  case_decide as E; cbn [map concat]; [f_equal; exact IH|]. cbn in E. destruct roles; [done|]. contradict E. done.
Qed.

(** The user file round-trips: the table any role statements leave, its
    names and counts within the file's length fields, is written, and reading
    it back gives the same users with every credential and attribute, the same
    memberships of every member, and the same bytes when written again. *)
Lemma users_file_roundtrip ops s (named : Forall op_ok ops) (ran : run_ops sha1 sha2 store_new ops = Some s) (fits : store_fits s) :
  exists b s', serialize_users s = Some b /\ deserialize_users b = Ok s' /\ users s' = users s /\
    (forall m, memberships_of s' m = memberships_of s m) /\ serialize_users s' = Some b.
Proof using sha1_digest sha2_digest.
  destruct (run_ops_ok sha1 sha2 sha1_digest sha2_digest ops store_new store_new_ok named) as (s1 & E & Hok). rewrite ran in E. injection E as <-.
  destruct (deserialize_serialize s Hok fits) as (b & Eb & Ed). exists b, (mk_store (users s) (nonempty (memberships s))).
  split; [done|]. split; [done|]. split; [done|]. split.
  - intros m. rewrite memberships_of_nonempty by apply Hok. by destruct s.
  - rewrite <- Eb. unfold serialize_users. rewrite all_memberships_nonempty. by destruct s.
Qed.
End Reachable.

Lemma zeros_digest n : digest n (repeat 0 n).
Proof. split; [apply Forall_forall; intros x Hx%list_elem_of_In%repeat_spec; subst; split; lia|apply repeat_length]. Qed.

(** A file of the first version, and statements on its table. *)

(** The first version has no marker byte: its count is little-endian, so a
    file of 255 users starts with the byte of the second version, and one of
    251 with that of the newest. *)
Lemma v1_count_reads_as_marker rest :
  take_format (le_bytes 4 255 ++ rest) = (mk_format true false false false false, [0; 0; 0] ++ rest) /\
  take_format (le_bytes 4 251 ++ rest) = (mk_format true true true true true, [0; 0; 0] ++ rest).
Proof. by split. Qed.

(** A name past its length field cannot be written: the encoder panics. *)
Lemma long_name_refused s name rec : sm_lookup name (users s) = Some rec -> 2 ^ 16 <= Z.of_nat (length name) -> serialize_users s = None.
Proof.
  intros E Hl. apply sm_lookup_elem in E. unfold serialize_users. destruct (len_bytes 4 (length (users s))); [|done]. cbn [mbind option_bind].
  destruct (mapM user_bytes (users s)) as [us|] eqn:Em; [|done]. exfalso. apply mapM_Some_1 in Em.
  apply list_elem_of_lookup in E as [i E]. destruct (Forall2_lookup_l _ _ _ _ _ Em E) as (b & _ & Hb).
  unfold user_bytes, name_bytes, len_bytes in Hb. rewrite (proj2 (Z.ltb_ge _ _)) in Hb by lia. by cbn in Hb.
Qed.
