(* ===== verification/UsersLogin.v ===== *)
(** What logs in: after any operations, each way of authenticating follows the
    last password given to the role, and nothing else. *)
From stdpp Require Import gmap.
From S2P Require Import Prelude Bytes SortedMap Sha256 Blake3 Users UsersOk.
Open Scope Z_scope.

(** ** What a role was given, by name *)

Inductive secret : Type :=
| Password (pw salt scram_salt : list Z)
| Locked (salt : list Z).

Definition give (acc : gmap (list Z) (Role * secret)) (name : list Z) (k : secret) : gmap (list Z) (Role * secret) :=
  match acc !! name with Some a => <[name := (a.1, k)]> acc | None => acc end.

Definition spec_op (acc : gmap (list Z) (Role * secret)) (op : user_op) : gmap (list Z) (Role * secret) :=
  match op with
  | OpCreate name pw r s1 s2 =>
    if decide (name = [] \/ pw = [] \/ is_Some (acc !! name)) then acc else <[name := (r, Password pw s1 s2)]> acc
  | OpPassword name (Some []) _ _ => acc
  | OpPassword name (Some pw) s1 s2 => give acc name (Password pw s1 s2)
  | OpPassword name None s1 _ => give acc name (Locked s1)
  | OpDrop name => delete name acc
  | _ => acc
  end.

(** The bytes whose BLAKE3 is stored, and the salt a candidate is hashed with. *)
Definition secret_salt (k : secret) : list Z := match k with Password _ salt _ => salt | Locked salt => salt end.
Definition secret_preimage (k : secret) : list Z :=
  match k with
  | Password pw salt _ => salt ++ pw
  | Locked salt => take SALT_LEN (default [] (Blake3.hash salt)) ++ [0] ++ lit "unreachable"
  end.

Section Login.
Context (sha1 sha2 : list Z -> list Z).
Context (sha1_digest : forall m, digest 20 (sha1 m)) (sha2_digest : forall m, digest 32 (sha2 m)).

Definition holds_secret (rec : UserRecord) (k : secret) : Prop :=
  salt rec = secret_salt k /\ Blake3.hash (secret_preimage k) = Some (hash rec) /\
  match k with
  | Password pw _ ss =>
    mysql_native rec = Some (sha1 (sha1 pw)) /\ caching_sha2 rec = Some (sha2 (sha2 pw)) /\
    scram rec = Some (compute_scram_secrets pw ss SCRAM_DEFAULT_ITERS)
  | Locked _ => mysql_native rec = None /\ caching_sha2 rec = None /\ scram rec = None
  end.

Definition holds (o : option UserRecord) (a : option (Role * secret)) : Prop :=
  match o, a with
  | Some rec, Some (r, k) => role rec = r /\ holds_secret rec k
  | None, None => True
  | _, _ => False
  end.

Record tracks (s : UserStore) (acc : gmap (list Z) (Role * secret)) : Prop := {
  tr_sorted : sorted (users s);
  tr_holds : forall name, holds (sm_lookup name (users s)) (acc !! name);
}.

Lemma tracks_new : tracks store_new ∅.
Proof. split; [constructor|]. intros name. by rewrite lookup_empty. Qed.

Lemma tracks_insert s acc ms name rec r k : tracks s acc -> role rec = r -> holds_secret rec k ->
  tracks (mk_store (sm_insert name rec (users s)) ms) (<[name := (r, k)]> acc).
Proof.
  intros [H1 H2] Hr Hk. split; [by apply sm_insert_sorted|]. intros n. cbn [users]. rewrite sm_lookup_insert_dec by done.
  case_decide as Hn; [subst n; rewrite lookup_insert_eq; exact (conj Hr Hk)|]. by rewrite lookup_insert_ne.
Qed.

Lemma tracks_remove s acc ms name : tracks s acc -> tracks (mk_store (sm_remove name (users s)) ms) (delete name acc).
Proof.
  intros [H1 H2]. split; [by apply sm_remove_sorted|]. intros n. cbn [users]. rewrite sm_lookup_remove_dec by done.
  case_decide as Hn; [subst n; by rewrite lookup_delete_eq|]. by rewrite lookup_delete_ne.
Qed.

(** Attributes and memberships carry no credential. *)
Lemma tracks_update s acc name f : tracks s acc ->
  (forall r, role (f r) = role r /\ salt (f r) = salt r /\ hash (f r) = hash r /\ mysql_native (f r) = mysql_native r /\
    caching_sha2 (f r) = caching_sha2 r /\ scram (f r) = scram r) ->
  tracks (update_user s name f) acc.
Proof.
  intros [H1 H2] Hf. unfold update_user. destruct (sm_lookup name (users s)) as [r|] eqn:E; [|done].
  split; [by apply sm_insert_sorted|]. intros n. cbn [users]. rewrite sm_lookup_insert_dec by done.
  case_decide as Hn; [subst n|done]. specialize (H2 name). rewrite E in H2. cbn in H2 |- *.
  destruct (acc !! name) as [[r' k]|]; [|done]. destruct (Hf r) as (E1 & E2 & E3 & E4 & E5 & E6). unfold holds_secret. by rewrite E1, E2, E3, E4, E5, E6.
Qed.

Lemma tracks_users s acc ms : tracks s acc -> tracks (mk_store (users s) ms) acc.
Proof. by intros [H1 H2]; split. Qed.

(** [enable_scram] on a user just stored. *)
Lemma enable_scram_fresh s name rec ms pw ss : sorted (users s) ->
  enable_scram (mk_store (sm_insert name rec (users s)) ms) name pw ss SCRAM_DEFAULT_ITERS =
  Ok (mk_store (sm_insert name (mk_user (role rec) (salt rec) (hash rec) (Some (compute_scram_secrets pw ss SCRAM_DEFAULT_ITERS))
    (mysql_native rec) (caching_sha2 rec) (can_login rec) (password_declared rec) (inherit rec) (superuser rec)) (sm_insert name rec (users s))) ms).
Proof.
  intros Hs. unfold enable_scram, update_user. cbn [users memberships]. rewrite sm_lookup_insert_dec by done. by rewrite decide_True.
Qed.

Lemma tracks_scram s acc ms name rec r k : tracks s acc -> holds (Some rec) (Some (r, k)) -> forall rec0,
  tracks (mk_store (sm_insert name rec (sm_insert name rec0 (users s))) ms) (<[name := (r, k)]> acc).
Proof.
  intros Ht [Hr Hk] rec0. pose proof (tr_sorted _ _ Ht) as Hs. split; [by repeat apply sm_insert_sorted|]. intros n. cbn [users].
  rewrite !sm_lookup_insert_dec by (done || by apply sm_insert_sorted).
  case_decide as Hn; [subst n; rewrite lookup_insert_eq; exact (conj Hr Hk)|]. rewrite lookup_insert_ne by done. apply Ht.
Qed.

Lemma step_tracks s acc op : tracks s acc -> exists s', run_op sha1 sha2 s op = Some s' /\ tracks s' (spec_op acc op).
Proof.
  intros Ht. pose proof (tr_sorted _ _ Ht) as Hs.
  destruct op as [name pw r s1 s2|name pw s1 s2|name a b c|name d|role member|role member|name]; cbn [run_op spec_op].
  - pose proof (tr_holds _ _ Ht name) as Hn. unfold create_user, create.
    destruct name as [|n name]; [exists s; split; [done|]; rewrite decide_True by (by left); done|].
    destruct pw as [|p pw]; [exists s; split; [done|]; rewrite decide_True by (by right; left); done|].
    destruct (sm_lookup (n :: name) (users s)) as [rec|], (acc !! (n :: name)) as [a|] eqn:Ea; try done.
    { exists s. split; [done|]. rewrite decide_True by (right; right; by eexists). done. }
    rewrite decide_False by (intros [?|[?|[? ?]]]; congruence).
    destruct (derive_total s1 (p :: pw)) as (h & Eh & Hd). rewrite Eh. cbn [mbind option_bind obind]. rewrite enable_scram_fresh by done.
    eexists. split; [done|]. apply tracks_scram; [done|]. by repeat split.
  - pose proof (tr_holds _ _ Ht name) as Hn. unfold alter_user_password, set_password.
    assert (Hg : forall k, give acc name k = match acc !! name with Some a => <[name := (a.1, k)]> acc | None => acc end) by done.
    destruct (sm_lookup name (users s)) as [rec|], (acc !! name) as [[r k]|]; try done.
    2: { exists s. split; [done|]. destruct pw as [[|p pw]|]; try done; by rewrite Hg. }
    destruct pw as [[|p pw]|]; [by exists s| |]; rewrite Hg; cbn [fst].
    + destruct (derive_total s1 (p :: pw)) as (h & Eh & Hd). rewrite Eh. cbn [mbind option_bind obind]. rewrite enable_scram_fresh by done.
      eexists. split; [done|]. apply tracks_scram; [done|]. destruct Hn as [Hr _]. by repeat split.
    + destruct (hash_total s1) as (d & Ed & _). rewrite Ed. cbn [mbind option_bind].
      destruct (derive_total (take SALT_LEN d) ([0] ++ lit "unreachable")) as (h & Eh & Hd). rewrite Eh. cbn [mbind option_bind obind].
      eexists. split; [done|]. destruct Hn as [Hr _]. apply tracks_insert; [done|done|]. split; [done|].
      split; [|done]. cbn [secret_preimage hash]. rewrite Ed. exact Eh.
  - eexists. split; [done|]. by apply tracks_update.
  - eexists. split; [done|]. by apply tracks_update.
  - eexists. split; [done|]. by apply tracks_users.
  - eexists. split; [done|]. unfold drop_member. destruct (sm_lookup member (memberships s)); [by apply tracks_users|done].
  - eexists. split; [done|]. unfold drop_user. pose proof (tr_holds _ _ Ht name) as Hn.
    destruct (sm_lookup name (users s)), (acc !! name) eqn:Ea; try done; [by apply tracks_remove|].
    rewrite delete_id by done. by apply tracks_users.
Qed.

Lemma run_ops_tracks ops : forall s acc, tracks s acc -> exists s', run_ops sha1 sha2 s ops = Some s' /\ tracks s' (fold_left spec_op ops acc).
Proof.
  induction ops as [|op ops IH]; intros s acc Ht; [by exists s|]. cbn [run_ops fold_left].
  destruct (step_tracks s acc op Ht) as (s1 & -> & Ht1). cbn [mbind option_bind]. by apply IH.
Qed.

(** ** Each way to authenticate *)

(** The answer to a MySQL scramble: a preimage of the stored digest, masked. *)
Definition masked (h : list Z -> list Z) (n : nat) (stored scramble response : list Z) : Prop :=
  length scramble = 20%nat /\ exists x, digest n x /\ h x = stored /\ response = xor_bytes x (h (scramble ++ stored)).

Lemma recovered_spec (h : list Z -> list Z) n stored scramble response : (forall m, digest n (h m)) -> digest n stored -> is_bytes response ->
  (if negb (length response =? n)%nat then false else if negb (length scramble =? 20)%nat then false
   else constant_time_eq (h (xor_bytes response (h (scramble ++ stored)))) stored) = true <-> masked h n stored scramble response.
Proof.
  intros Hh [Hsb Hsl] Hrb. unfold masked. destruct (Hh (scramble ++ stored)) as [Hmb Hml].
  destruct (length response =? n)%nat eqn:E1; prop_bools; cbn [negb].
  2: { split; [done|]. intros (_ & x & [_ Hx] & _ & ->). exfalso. apply E1. rewrite length_xor; congruence. }
  destruct (length scramble =? 20)%nat eqn:E2; prop_bools; cbn [negb]; [|split; [done|by intros [? _]]].
  destruct (Hh (xor_bytes response (h (scramble ++ stored)))) as [Hxb Hxl]. rewrite constant_time_eq_spec by (done || congruence).
  split.
  - intros Heq. split; [done|]. exists (xor_bytes response (h (scramble ++ stored))). split; [split|].
    + by apply xor_is_bytes.
    + rewrite length_xor; congruence.
    + split; [done|]. by rewrite xor_bytes_cancel by congruence.
  - intros (_ & x & [_ Hx] & <- & ->). by rewrite xor_bytes_cancel by congruence.
Qed.

Lemma verify_record_spec rec k : holds_secret rec k -> digest 32 (hash rec) -> forall pw,
  exists b, verify_record rec pw = Some b /\ (b = true <-> Blake3.hash (secret_salt k ++ pw) = Blake3.hash (secret_preimage k)).
Proof.
  intros (Hs & Hh & _) [Hb Hl] pw. unfold verify_record. destruct (derive_total (salt rec) pw) as (c & Ec & Hcb & Hcl). rewrite Ec.
  cbn [mbind option_bind]. eexists. split; [done|]. rewrite constant_time_eq_spec by (done || congruence). unfold derive_hash in Ec.
  rewrite <- Hs, Ec, Hh. split; congruence.
Qed.

Lemma holds_digest rec k : holds_secret rec k -> digest 32 (hash rec).
Proof. intros (_ & H & _). destruct (hash_total (secret_preimage k)) as (h & E & Hl & Hb). rewrite E in H. by injection H as <-. Qed.
End Login.

(** What the three verifiers and the SCRAM secrets of a role answer. *)
Definition answers (sha1 sha2 : list Z -> list Z) (s : UserStore) (name : list Z) (a : option (Role * secret)) : Prop :=
  match a with
  | None => store_get s name = None /\ forall pw, verify s name pw = Some None
  | Some (r, k) => exists rec, store_get s name = Some rec /\
    (forall pw, exists ok, verify s name pw = Some (if ok : bool then Some r else None) /\
      (ok = true <-> Blake3.hash (secret_salt k ++ pw) = Blake3.hash (secret_preimage k))) /\
    (forall scramble response, is_bytes response -> verify_mysql_native_password sha1 rec scramble response = true <->
      match k with Password pw _ _ => masked sha1 20 (sha1 (sha1 pw)) scramble response | Locked _ => False end) /\
    (forall scramble response, is_bytes response -> verify_caching_sha2_password sha2 rec scramble response = true <->
      match k with Password pw _ _ => masked sha2 32 (sha2 (sha2 pw)) scramble response | Locked _ => False end) /\
    scram rec = match k with Password pw _ ss => Some (compute_scram_secrets pw ss SCRAM_DEFAULT_ITERS) | Locked _ => None end
  end.

Lemma tracks_answers sha1 sha2 s acc name : (forall m, digest 20 (sha1 m)) -> (forall m, digest 32 (sha2 m)) ->
  tracks sha1 sha2 s acc -> answers sha1 sha2 s name (acc !! name).
Proof.
  intros H1 H2 Ht. pose proof (tr_holds _ _ _ _ Ht name) as Hn. unfold answers, store_get, verify.
  destruct (sm_lookup name (users s)) as [rec|], (acc !! name) as [[r k]|]; try done. destruct Hn as [Hr Hk]. exists rec. split; [done|].
  pose proof Hk as (Hs & Hh & Hc). split; [|split; [|split]].
  - intros pw. destruct (verify_record_spec _ _ _ _ Hk (holds_digest _ _ _ _ Hk) pw) as (ok & E & Hok).
    exists ok. rewrite E, <- Hr. done.
  - intros scramble response Hb. unfold verify_mysql_native_password. destruct k as [pw ? ?|?]; destruct Hc as (-> & _).
    + by apply recovered_spec.
    + done.
  - intros scramble response Hb. unfold verify_caching_sha2_password. destruct k as [pw ? ?|?]; destruct Hc as (_ & -> & _).
    + by apply recovered_spec.
    + done.
  - destruct k; apply Hc.
Qed.

(** C40: the user table keeps the contract of a credential store: after any
    sequence of role statements, successful or not, every way to authenticate
    follows the last password given to the role by that name and still there.
    The text password is accepted exactly when its salted BLAKE3 equals that
    password's (of a role whose password was removed: the digest of an
    unrelated preimage under another salt), a MySQL response exactly when it
    masks a preimage of the password's double digest (the honest client's is
    the single digest), never after the password was removed, and the SCRAM
    secrets are those of that password or absent. *)
Theorem logins_follow_last_password (sha1 sha2 : list Z -> list Z)
    (sha1_digest : forall m, digest 20 (sha1 m)) (sha2_digest : forall m, digest 32 (sha2 m)) ops :
  exists s, run_ops sha1 sha2 store_new ops = Some s /\ forall name, answers sha1 sha2 s name (fold_left spec_op ops ∅ !! name).
Proof.
  destruct (run_ops_tracks sha1 sha2 ops store_new ∅ (tracks_new _ _)) as (s & E & Ht). exists s. split; [done|].
  intros name. by apply tracks_answers.
Qed.

(** A stand-in of SHA-1's length. *)
Definition short_digest (m : list Z) : list Z := take 20 (Sha256.hash m).

Lemma short_digest_ok m : digest 20 (short_digest m).
Proof. destruct (sha256_digest m) as [Hb Hl]. split; [by apply is_bytes_take|]. unfold short_digest. rewrite length_take, Hl. done. Qed.

Lemma logins_follow_last_password_witness :
  let ops := [OpCreate (lit "ann") (lit "one") ReadWrite (repeat 7 16) (repeat 8 16); OpPassword (lit "ann") (Some (lit "two")) (repeat 9 16) (repeat 10 16);
    OpCreate (lit "bob") (lit "b") ReadOnly (repeat 1 16) (repeat 2 16); OpPassword (lit "bob") None (repeat 3 16) (repeat 4 16)] in
  (fold_left spec_op ops ∅ : gmap (list Z) (Role * secret)) !! lit "ann" = Some (ReadWrite, Password (lit "two") (repeat 9 16) (repeat 10 16)) /\
  (fold_left spec_op ops ∅ : gmap (list Z) (Role * secret)) !! lit "bob" = Some (ReadOnly, Locked (repeat 3 16)) /\
  exists s, run_ops short_digest Sha256.hash store_new ops = Some s /\ forall name, answers short_digest Sha256.hash s name (fold_left spec_op ops ∅ !! name).
Proof.
  intros ops. split; [by vm_compute|]. split; [by vm_compute|]. exact (logins_follow_last_password short_digest Sha256.hash short_digest_ok sha256_digest ops).
Defined.
