(* ===== verification/Hba.v ===== *)
(** Host-based authentication rules: crates/spg-server/src/hba.rs, and what a
    file of them decides. *)
From S2P Require Import Prelude Bytes Text.
Open Scope Z_scope.

Inductive Method : Type := Trust | Reject | Scram | Password.

#[export] Instance Method_eq_dec : EqDecision Method.
Proof. solve_decision. Defined.

Definition method_parse (w : list Z) : option Method :=
  let w := to_ascii_lowercase w in
  if bool_decide (w = lit "trust") then Some Trust
  else if bool_decide (w = lit "reject") then Some Reject
  else if bool_decide (w = lit "scram-sha-256") then Some Scram
  else if bool_decide (w = lit "password") then Some Password
  else None.

Inductive ConnType : Type := Local | Host | HostSsl | HostNoSsl.

#[export] Instance ConnType_eq_dec : EqDecision ConnType.
Proof. solve_decision. Defined.

Record Rule : Type := mk_rule {
  conn : ConnType;
  database : list Z;
  user : list Z;
  net : option (IpAddr * Z);
  method : Method;
}.

(** [Hba]: its rules. *)
Definition Hba : Type := list Rule.

Definition parse_net (tok : list Z) : option (IpAddr * Z) :=
  if eq_ignore_ascii_case tok (lit "all") then Some (V4 0, 0)
  else
    let! (addr, bits) := split_once 47 tok in
    let! ip := parse_ip addr in
    let! len := parse_u8 bits in
    let max := match ip with V4 _ => 32 | V6 _ => 128 end in
    if len <=? max then Some (ip, len) else None.

(** [bits == 0 || (p ^ n) >> (w - bits) == 0] *)
Definition prefix_eq (w p n bits : Z) : bool := (bits =? 0) || (Z.shiftr (Z.lxor p n) (w - bits) =? 0).

Definition in_net (peer : IpAddr) (rule : IpAddr * Z) : bool :=
  let '(net, bits) := rule in
  if (bits =? 0) && bool_decide (net = V4 0) then true
  else match peer, net with
  | V4 p, V4 n => prefix_eq 32 p n bits
  | V6 p, V6 n => prefix_eq 128 p n bits
  | V6 p, V4 n => match to_ipv4_mapped p with Some v4 => prefix_eq 32 v4 n bits | None => false end
  | V4 p, V6 n => match to_ipv4_mapped n with Some v4 => prefix_eq 32 p v4 (Z.max 0 (bits - 96)) | None => false end
  end.

Definition matches_name (pattern name : list Z) : bool :=
  bool_decide (pattern = lit "all") || eq_ignore_ascii_case pattern name.

(** What is wrong with a line, as its message says. *)
Inductive line_error : Type :=
| ExpectedConn (found : list Z)
| ExpectedFields (want found : nat)
| NotAddress (tok : list Z)
| NotMethod (tok : list Z).

(** One line: [None] when it holds no rule. *)
Definition parse_line (raw : list Z) : result (option Rule) line_error :=
  match split_whitespace (hd [] (split 35 raw)) with
  | [] => Ok None
  | (first :: _) as f =>
    let s := to_ascii_lowercase first in
    let? conn :=
      if bool_decide (s = lit "local") then Ok Local
      else if bool_decide (s = lit "host") then Ok Host
      else if bool_decide (s = lit "hostssl") then Ok HostSsl
      else if bool_decide (s = lit "hostnossl") then Ok HostNoSsl
      else Err (ExpectedConn s) in
    let local := bool_decide (conn = Local) in
    let want := if local then 4%nat else 5%nat in
    if (length f <? want)%nat then Err (ExpectedFields want (length f))
    else
      let? net :=
        if local then Ok None
        else match parse_net (nth 3 f []) with Some n => Ok (Some n) | None => Err (NotAddress (nth 3 f [])) end in
      let method_tok := nth (if local then 3%nat else 4%nat) f [] in
      let? method := match method_parse method_tok with Some m => Ok m | None => Err (NotMethod method_tok) end in
      Ok (Some (mk_rule conn (nth 1 f []) (nth 2 f []) net method))
  end.

Fixpoint parse_lines (n : nat) (ls : list (list Z)) (rules : list Rule) : result Hba (nat * line_error) :=
  match ls with
  | [] => Ok rules
  | raw :: ls =>
    match parse_line raw with
    | Err e => Err ((n + 1)%nat, e)
    | Ok None => parse_lines (n + 1) ls rules
    | Ok (Some r) => parse_lines (n + 1) ls (rules ++ [r])
    end
  end.

Definition parse (text : list Z) : result Hba (nat * line_error) := parse_lines 0 (lines text) [].

Definition is_empty (self : Hba) : bool := match self with [] => true | _ => false end.

Definition conn_ok (c : ConnType) (tls : bool) : bool :=
  match c with Local => false | Host => true | HostSsl => tls | HostNoSsl => negb tls end.

Definition rule_matches (peer : IpAddr) (db name : list Z) (tls : bool) (r : Rule) : bool :=
  conn_ok (conn r) tls && matches_name (database r) db && matches_name (user r) name &&
  match net r with Some n => in_net peer n | None => false end.

Definition method_for (self : Hba) (peer : IpAddr) (db name : list Z) (tls : bool) : option Method :=
  method <$> find (rule_matches peer db name tls) self.

(** ** Networks *)

Definition ip_ok (a : IpAddr) : Prop := match a with V4 n => in_w 32 n | V6 n => in_w 128 n end.
Definition net_ok (r : IpAddr * Z) : Prop := ip_ok r.1 /\ 0 <= r.2 <= match r.1 with V4 _ => 32 | V6 _ => 128 end.

(** An address among the IPv6 addresses, IPv4 mapped to ::ffff:0:0/96. *)
Definition widen (a : IpAddr) : Z := match a with V4 n => 0xFFFF * 2 ^ 32 + n | V6 n => n end.
Definition widen_len (r : IpAddr * Z) : Z := match r.1 with V4 _ => r.2 + 96 | V6 _ => r.2 end.

(** The addresses of a network: those with its first bits. *)
Definition same_prefix (a b len : Z) : Prop := a / 2 ^ (128 - len) = b / 2 ^ (128 - len).

(** The two networks read otherwise: the [all] keyword, which has no bits of
    its own and also stands for 0.0.0.0/0, and an IPv6 network that is not of
    mapped addresses, which no IPv4 peer is in. *)
Definition all_net (r : IpAddr * Z) : Prop := r = (V4 0, 0).
Definition foreign (peer : IpAddr) (r : IpAddr * Z) : Prop :=
  match peer, r.1 with V4 _, V6 n => to_ipv4_mapped n = None | _, _ => False end.

Lemma shiftr_lxor_zero a b k : 0 <= k -> 0 <= a -> 0 <= b -> Z.shiftr (Z.lxor a b) k = 0 <-> a / 2 ^ k = b / 2 ^ k.
Proof.
  intros Hk Ha Hb. rewrite Z.shiftr_lxor, <- !Z.shiftr_div_pow2 by done. split; [apply Z.lxor_eq|intros ->; apply Z.lxor_nilpotent].
Qed.

Lemma prefix_eq_spec w a b len : 0 <= len <= w -> in_w w a -> in_w w b -> prefix_eq w a b len = true <-> a / 2 ^ (w - len) = b / 2 ^ (w - len).
Proof.
  intros Hl [Ha0 Ha] [Hb0 Hb]. unfold prefix_eq. rewrite orb_true_iff, !Z.eqb_eq, shiftr_lxor_zero by lia.
  split; [|by right]. intros [->|?]; [|done]. rewrite Z.sub_0_r, !Z.div_small by done. done.
Qed.

(** Mapped addresses agree on [96 + k] bits when the IPv4 addresses do on [k]. *)
Lemma mapped_prefix a b len : 0 <= len <= 32 -> in_w 32 a -> in_w 32 b ->
  a / 2 ^ (32 - len) = b / 2 ^ (32 - len) <-> same_prefix (widen (V4 a)) (widen (V4 b)) (len + 96).
Proof.
  intros Hl Ha Hb. unfold same_prefix, widen. replace (128 - (len + 96)) with (32 - len) by lia.
  assert (Hs : forall x, (0xFFFF * 2 ^ 32 + x) / 2 ^ (32 - len) = 0xFFFF * 2 ^ len + x / 2 ^ (32 - len)).
  { intros x. replace (2 ^ 32) with (2 ^ len * 2 ^ (32 - len)) by (rewrite <- Z.pow_add_r by lia; f_equal; lia).
    rewrite Z.mul_assoc. apply Z.div_add_l. apply Z.pow_nonzero; lia. }
  rewrite !Hs. lia.
Qed.

Lemma mapped_widen n v : in_w 128 n -> to_ipv4_mapped n = Some v -> n = widen (V4 v) /\ in_w 32 v.
Proof.
  intros Hn. unfold to_ipv4_mapped. destruct (n / 2 ^ 32 =? 0xFFFF) eqn:E; [|done]. intros [= <-]. apply Z.eqb_eq in E.
  pose proof (Z.div_mod n (2 ^ 32) ltac:(lia)) as Hd. split; [unfold widen; lia|]. apply Z.mod_pos_bound. lia.
Qed.

(** A prefix shorter than the mapping's: any two mapped addresses agree. *)
Lemma mapped_short a b len : 0 <= len <= 96 -> in_w 32 a -> in_w 32 b -> same_prefix (widen (V4 a)) (widen (V4 b)) len.
Proof.
  intros Hl [Ha0 Ha] [Hb0 Hb]. unfold same_prefix, widen.
  assert (Hs : forall x, 0 <= x < 2 ^ 32 -> (0xFFFF * 2 ^ 32 + x) / 2 ^ (128 - len) = 0xFFFF / 2 ^ (96 - len)).
  { intros x Hx. replace (128 - len) with (32 + (96 - len)) by lia. rewrite Z.pow_add_r, <- Z.div_div by lia. f_equal.
    rewrite Z.div_add_l, (Z.div_small x) by lia. lia. }
  by rewrite !Hs.
Qed.

(** A mapped network of 97 bits or more holds only mapped addresses. *)
Lemma unmapped_outside p n len : in_w 128 p -> to_ipv4_mapped p = None -> 0 <= len <= 32 -> in_w 32 n -> ~ same_prefix p (widen (V4 n)) (len + 96).
Proof.
  intros Hp Hm Hl Hn. unfold same_prefix, widen, to_ipv4_mapped in *. destruct (p / 2 ^ 32 =? 0xFFFF) eqn:E; [done|]. apply Z.eqb_neq in E.
  intros Heq. apply E. replace (2 ^ 32) with (2 ^ (128 - (len + 96)) * 2 ^ len) by (rewrite <- Z.pow_add_r by lia; f_equal; lia).
  rewrite <- Z.div_div, Heq, Z.div_div by (try apply Z.pow_nonzero; try apply Z.pow_pos_nonneg; lia).
  rewrite <- Z.pow_add_r by lia. replace (128 - (len + 96) + len) with 32 by lia. rewrite Z.div_add_l, (Z.div_small n) by (lia || apply Hn). lia.
Qed.

Lemma in_net_spec peer r : ip_ok peer -> net_ok r ->
  in_net peer r = true <-> all_net r \/ (~ foreign peer r /\ same_prefix (widen peer) (widen r.1) (widen_len r)).
Proof.
  destruct r as [net bits]. intros Hp [Hn Hb]. unfold in_net, all_net. cbn [fst snd] in *.
  destruct ((bits =? 0) && bool_decide (net = V4 0)) eqn:Eall.
  { apply andb_true_iff in Eall as [E1%Z.eqb_eq E2%bool_decide_eq_true]. subst. split; [by left|done]. }
  assert (Hna : (net, bits) <> (V4 0, 0)) by (intros [= -> ->]; done).
  destruct peer as [p|p], net as [n|n]; cbn [foreign widen_len fst snd ip_ok] in *.
  - rewrite prefix_eq_spec by done. rewrite mapped_prefix by done. tauto.
  - destruct (to_ipv4_mapped n) as [v|] eqn:E; [|split; [done|intros [?|[? _]]; done]]. destruct (mapped_widen n v Hn E) as [-> Hv].
    rewrite prefix_eq_spec by (done || lia). cbn [widen]. change (0xFFFF * 2 ^ 32 + v) with (widen (V4 v)).
    destruct (decide (bits <= 96)) as [Hs|Hs].
    + replace (Z.max 0 (bits - 96)) with 0 by lia. pose proof (mapped_short p v bits ltac:(lia) Hp Hv). rewrite !Z.sub_0_r, !Z.div_small by done.
      split; [by right|done].
    + replace (Z.max 0 (bits - 96)) with (bits - 96) by lia. rewrite mapped_prefix by (done || lia). replace (bits - 96 + 96) with bits by lia.
      split; [right; split; done|intros [?|[_ ?]]; done].
  - destruct (to_ipv4_mapped p) as [v|] eqn:E.
    + destruct (mapped_widen p v Hp E) as [-> Hv]. rewrite prefix_eq_spec, mapped_prefix by done. cbn [widen]. tauto.
    + split; [done|]. intros [?|[_ H]]; [done|]. by apply unmapped_outside in H.
  - rewrite prefix_eq_spec by done. unfold same_prefix. cbn [widen]. tauto.
Qed.

(** ** What is read is an address *)

Lemma to_digit_range radix c d : to_digit radix c = Some d -> 0 <= d < radix.
Proof.
  unfold to_digit.
  assert (G : forall x, 0 <= x -> (if x <? radix then Some x else None) = Some d -> 0 <= d < radix).
  { intros x Hx. destruct (x <? radix) eqn:E; [|done]. apply Z.ltb_lt in E. intros [= <-]. done. }
  repeat match goal with |- context [if ?b then _ else _] => lazymatch b with (_ && _) => destruct b eqn:? end end;
    repeat match goal with H : (_ && _) = true |- _ => apply andb_true_iff in H as [?%Z.leb_le ?%Z.leb_le] end; try done; apply G; lia.
Qed.

Lemma read_digits_range radix top max s : forall count n m c rest, 0 <= n <= top ->
  read_digits radix top max count n s = Some (m, c, rest) -> 0 <= m <= top.
Proof.
  induction s as [|x s IH]; intros count n m c rest Hn; cbn [read_digits]; [by intros [= <- _ _]|].
  destruct (to_digit radix x) as [d|] eqn:E; [|by intros [= <- _ _]]. apply to_digit_range in E.
  destruct (top <? n * radix + d) eqn:Et; [done|]. apply Z.ltb_ge in Et. destruct (max <? count + 1)%nat; [done|]. apply IH. nia.
Qed.

Lemma read_number_range radix top max z s n rest : 0 <= top -> read_number radix top max z s = Some (n, rest) -> 0 <= n <= top.
Proof.
  intros Ht. unfold read_number. destruct (read_digits radix top max 0 0 s) as [[[m c] r]|] eqn:E; cbn [mbind option_bind]; [|done].
  apply read_digits_range in E; [|lia]. destruct (c =? 0)%nat; [done|]. destruct (_ && _ && _); [done|]. by intros [= <- _].
Qed.

Lemma read_separator_inner {A} sep i (inner : parser A) s r : read_separator sep i inner s = Some r -> exists s', inner s' = Some r.
Proof.
  unfold read_separator. destruct (0 <? i)%nat; [|by eauto]. destruct (read_given sep s) as [[[] s']|]; cbn [mbind option_bind]; [by eauto|done].
Qed.

Lemma read_ipv4_range s n rest : read_ipv4 s = Some (n, rest) -> in_w 32 n.
Proof.
  unfold read_ipv4.
  assert (G : forall i s a r, read_separator 46 i (read_number 10 255 3 false) s = Some (a, r) -> 0 <= a <= 255).
  { intros i s' a r (s'' & E)%read_separator_inner. by apply read_number_range in E. }
  repeat match goal with |- context [read_separator 46 ?i ?p ?t] =>
    let E := fresh "E" in destruct (read_separator 46 i p t) as [[? ?]|] eqn:E; cbn [mbind option_bind]; [apply G in E|done] end.
  intros [= <- _]. unfold in_w. lia.
Qed.

Lemma read_groups_range slots limit : forall i gs s gs' v4 rest, Forall (in_w 16) gs -> (i = length gs)%nat -> (i + slots = limit)%nat ->
  read_groups slots limit i gs s = (gs', v4, rest) -> Forall (in_w 16) gs' /\ (length gs' <= limit)%nat.
Proof.
  induction slots as [|slots IH]; intros i gs s gs' v4 rest Hg Hi Hl; cbn [read_groups]; [intros [= <- _ _]; split; [done|lia]|].
  destruct (if (i <? limit - 1)%nat then _ else None) as [[a r]|] eqn:E4.
  - destruct (i <? limit - 1)%nat eqn:Ei; [|done]. apply Nat.ltb_lt in Ei. apply read_separator_inner in E4 as (s' & E4). apply read_ipv4_range in E4.
    intros [= <- _ _]. rewrite length_app. cbn [length]. split; [|lia]. apply Forall_app. split; [done|]. destruct E4 as [Ha0 Ha1].
    repeat constructor; try (by apply Z.div_pos); try (by apply Z.mod_pos_bound). apply Z.div_lt_upper_bound; lia.
  - destruct (read_separator 58 i (read_number 16 0xFFFF 4 true) s) as [[g r]|] eqn:E; [|intros [= <- _ _]; split; [done|lia]].
    apply read_separator_inner in E as (s' & E). apply read_number_range in E; [|lia].
    apply IH; [|rewrite length_app; cbn; lia|lia]. apply Forall_app. split; [done|]. repeat constructor; lia.
Qed.

Lemma of_groups_range gs : Forall (in_w 16) gs -> in_w (16 * Z.of_nat (length gs)) (of_groups gs).
Proof.
  unfold of_groups. induction gs as [|g gs IH] using rev_ind; intros H; [done|].
  apply Forall_app in H as [H Hg]. apply Forall_cons in Hg as [Hg _]. rewrite fold_left_app, length_app. cbn [fold_left length].
  specialize (IH H). unfold in_w in *. replace (16 * Z.of_nat (length gs + 1)) with (16 * Z.of_nat (length gs) + 16) by lia.
  rewrite Z.pow_add_r by lia. revert IH. generalize (2 ^ (16 * Z.of_nat (length gs))) as m. generalize (fold_left (fun n g => n * 2 ^ 16 + g) gs 0) as x.
  change (2 ^ 16) with 65536 in *. lia.
Qed.

Lemma parse_ip_ok s a : parse_ip s = Some a -> ip_ok a.
Proof.
  unfold parse_ip. destruct (read_ipv4 s) as [[n [|]]|] eqn:E; [|done|].
  - intros [= <-]. by apply read_ipv4_range in E.
  - destruct (read_ipv6 s) as [[n [|]]|] eqn:E6; [|done..]. intros [= <-]. unfold read_ipv6 in E6.
    destruct (read_groups 8 8 0 [] s) as [[head v4] r] eqn:Eh. apply read_groups_range in Eh as [Hh Hl]; [|done..].
    destruct (length head =? 8)%nat eqn:E8; [apply Nat.eqb_eq in E8; injection E6 as <- _; cbn [ip_ok]; apply of_groups_range in Hh; by rewrite E8 in Hh|].
    apply Nat.eqb_neq in E8. destruct v4; [done|]. destruct (read_given 58 r) as [[[] r1]|]; cbn [mbind option_bind] in E6; [|done].
    destruct (read_given 58 r1) as [[[] r2]|]; cbn [mbind option_bind] in E6; [|done].
    destruct (read_groups _ _ 0 [] r2) as [[tail v4] r3] eqn:Et. apply read_groups_range in Et as [Ht Hlt]; [|done|done|lia].
    injection E6 as <- _. cbn [ip_ok].
    assert (Hall : Forall (in_w 16) (head ++ repeat 0 (8 - length head - length tail) ++ tail)).
    { repeat (apply Forall_app; split); [done| |done]. apply Forall_forall. intros x Hx. apply list_elem_of_In, repeat_spec in Hx as ->. done. }
    apply of_groups_range in Hall. rewrite !length_app, repeat_length in Hall. by replace (16 * _) with 128 in Hall by lia.
Qed.

Lemma parse_u8_nonneg s n : parse_u8 s = Some n -> 0 <= n.
Proof.
  unfold parse_u8. destruct (match s with [] => s | _ => _ end) as [|c l] eqn:E; [done|]. clear E. destruct (forallb _ _) eqn:Ef; [|done].
  assert (G : forall l acc, forallb is_ascii_digit l = true -> 0 <= acc -> 0 <= fold_left (fun n c => n * 10 + (c - 48)) l acc).
  { induction l0 as [|x l0 IH]; intros acc Hl Ha; [done|]. cbn in Hl. apply andb_true_iff in Hl as [Hx Hl]. cbn [fold_left]. apply IH; [done|].
    unfold is_ascii_digit in Hx. apply andb_true_iff in Hx as [Hx%Z.leb_le _]. lia. }
  cbv zeta. destruct (Z.ltb _ _); [|done]. intros [= <-]. by apply (G (c :: l)).
Qed.

Lemma parse_net_ok tok r : parse_net tok = Some r -> net_ok r.
Proof.
  unfold parse_net. destruct (eq_ignore_ascii_case tok _); [by intros [= <-]|]. destruct (split_once 47 tok) as [[addr bits]|]; cbn [mbind option_bind]; [|done].
  destruct (parse_ip addr) as [ip|] eqn:Ei; cbn [mbind option_bind]; [|done]. apply parse_ip_ok in Ei.
  destruct (parse_u8 bits) as [len|] eqn:El; cbn [mbind option_bind]; [|done]. apply parse_u8_nonneg in El.
  destruct (len <=? _) eqn:E; [|done]. apply Z.leb_le in E. intros [= <-]. by split.
Qed.

(** ** Files *)

Definition line_ok (l : list Z) : Prop := is_ok (parse_line l) = true.

Lemma parse_line_net raw r n : parse_line raw = Ok (Some r) -> net r = Some n -> net_ok n.
Proof.
  unfold parse_line. destruct (split_whitespace _) as [|first f]; [done|]. intros E.
  apply rbind_ok in E as (c & _ & E). cbv zeta in E. destruct (_ <? _)%nat; [done|]. apply rbind_ok in E as (n' & En & E).
  apply rbind_ok in E as (m & _ & [= <-]). cbn [net]. intros ->. destruct (bool_decide _); [done|].
  destruct (parse_net _) as [x|] eqn:Ep; [|done]. injection En as <-. by apply parse_net_ok in Ep.
Qed.

Definition line_rules (ls : list (list Z)) : list Rule := omap (fun l => match parse_line l with Ok o => o | Err _ => None end) ls.

Lemma parse_lines_spec ls : forall n rules,
  match parse_lines n ls rules with
  | Ok h => Forall line_ok ls /\ h = rules ++ line_rules ls
  | Err (k, e) => exists pre l post, ls = pre ++ l :: post /\ Forall line_ok pre /\ parse_line l = Err e /\ k = (n + length pre + 1)%nat
  end.
Proof.
  induction ls as [|l ls IH]; intros n rules; cbn [parse_lines]; [by rewrite app_nil_r|]. unfold line_rules. cbn [omap list_omap].
  destruct (parse_line l) as [[r|]|e] eqn:E.
  - specialize (IH (n + 1)%nat (rules ++ [r])). destruct (parse_lines _ _ _) as [h|[k e]].
    + destruct IH as [Hf ->]. split; [constructor; [unfold line_ok; by rewrite E|done]|]. by rewrite <- app_assoc.
    + destruct IH as (pre & l' & post & -> & Hf & He & ->). exists (l :: pre), l', post. split; [done|]. split; [constructor; [unfold line_ok; by rewrite E|done]|].
      split; [done|]. cbn. lia.
  - specialize (IH (n + 1)%nat rules). destruct (parse_lines _ _ _) as [h|[k e]].
    + destruct IH as [Hf ->]. split; [constructor; [unfold line_ok; by rewrite E|done]|done].
    + destruct IH as (pre & l' & post & -> & Hf & He & ->). exists (l :: pre), l', post. split; [done|]. split; [constructor; [unfold line_ok; by rewrite E|done]|].
      split; [done|]. cbn. lia.
  - exists [], l, ls. repeat split; try done. cbn. lia.
Qed.

Lemma find_first ls (p : Rule -> bool) :
  match find p (line_rules ls) with
  | Some r => exists pre l post, ls = pre ++ l :: post /\ parse_line l = Ok (Some r) /\ p r = true /\
      forall l' r', l' ∈ pre -> parse_line l' = Ok (Some r') -> p r' = false
  | None => forall l' r', l' ∈ ls -> parse_line l' = Ok (Some r') -> p r' = false
  end.
Proof.
  induction ls as [|l ls IH]; [by intros l' r' H%elem_of_nil|]. unfold line_rules. cbn [omap list_omap].
  assert (Hskip : (forall r', parse_line l = Ok (Some r') -> p r' = false) -> 
    match find p (line_rules ls) with
    | Some r => exists pre l0 post, l :: ls = pre ++ l0 :: post /\ parse_line l0 = Ok (Some r) /\ p r = true /\
        forall l' r', l' ∈ pre -> parse_line l' = Ok (Some r') -> p r' = false
    | None => forall l' r', l' ∈ l :: ls -> parse_line l' = Ok (Some r') -> p r' = false
    end).
  { intros Hl. destruct (find p (line_rules ls)) as [r|].
    - destruct IH as (pre & l0 & post & -> & E0 & Hr & Hpre). exists (l :: pre), l0, post. split; [done|]. split; [done|]. split; [done|].
      intros l' r' [->|Hin]%elem_of_cons; [by apply Hl|by apply Hpre].
    - intros l' r' [->|Hin]%elem_of_cons; [by apply Hl|by apply IH]. }
  destruct (parse_line l) as [[r|]|e] eqn:E; [|apply Hskip; congruence..]. cbn [find].
  destruct (p r) eqn:Er; [|apply Hskip; by intros r' [= <-]].
  exists [], l, ls. split; [done|]. split; [done|]. split; [done|]. by intros l' r' H%elem_of_nil.
Qed.

(** A connection against the lines of a file, from the top. *)
Definition decided_by (ls : list (list Z)) (p : Rule -> bool) (m : option Method) : Prop :=
  match m with
  | Some m => exists pre l post r, ls = pre ++ l :: post /\ parse_line l = Ok (Some r) /\ p r = true /\ method r = m /\
      forall l' r', l' ∈ pre -> parse_line l' = Ok (Some r') -> p r' = false
  | None => forall l' r', l' ∈ ls -> parse_line l' = Ok (Some r') -> p r' = false
  end.

(** A rules file is read to the letter or not at all.  A file is accepted
    exactly when each of its lines is a rule or holds none; otherwise the
    error carries the number of the first line that is wrong and what is
    wrong with it.  In an accepted file every connection gets the method of
    the first line that applies to it, whatever stands below, and no method
    when no line applies. *)
Lemma hba_first_line_decides text :
  match parse text with
  | Ok h => Forall line_ok (lines text) /\
      forall peer db name tls, decided_by (lines text) (rule_matches peer db name tls) (method_for h peer db name tls)
  | Err (k, e) => exists pre l post, lines text = pre ++ l :: post /\ Forall line_ok pre /\ parse_line l = Err e /\ k = S (length pre)
  end.
Proof.
  unfold parse. pose proof (parse_lines_spec (lines text) 0 []) as H. destruct (parse_lines _ _ _) as [h|[k e]].
  - destruct H as [Hf ->]. split; [done|]. intros peer db name tls. unfold method_for. cbn [app].
    pose proof (find_first (lines text) (rule_matches peer db name tls)) as Hd. destruct (find _ _) as [r|]; cbn [fmap option_fmap option_map]; [|done].
    destruct Hd as (pre & l & post & E & H1 & H2 & H3). exists pre, l, post, r. done.
  - destruct H as (pre & l & post & E & H1 & H2 & ->). exists pre, l, post. repeat split; try done. cbn. lia.
Qed.

Lemma line_rules_elem ls r : r ∈ line_rules ls -> exists l, parse_line l = Ok (Some r).
Proof.
  unfold line_rules. intros (l & _ & E)%list_elem_of_omap. exists l. destruct (parse_line l) as [o|]; [by subst|done].
Qed.

(** The network of a rule holds the addresses it names.  For any rule of an
    accepted file and any peer, the network test is true exactly when the
    rule's prefix and the peer agree on the rule's first bits, an IPv4 address
    standing for its mapped IPv6 address on either side; apart from that, a
    network of IPv6 addresses that are not mapped never holds an IPv4 peer,
    and [all], which the file may also write 0.0.0.0/0, holds every peer of
    either family.  The bits are in range, so no shift overflows. *)
Lemma hba_networks text h r n peer (read : parse text = Ok h) (rule : r ∈ h) (network : net r = Some n) (address : ip_ok peer) :
  net_ok n /\ (in_net peer n = true <-> all_net n \/ (~ foreign peer n /\ same_prefix (widen peer) (widen n.1) (widen_len n))).
Proof.
  unfold parse in read. pose proof (parse_lines_spec (lines text) 0 []) as H. rewrite read in H. destruct H as [_ ->].
  apply line_rules_elem in rule as (l & El). pose proof (parse_line_net _ _ _ El network) as Hn. split; [done|]. by apply in_net_spec.
Qed.

Definition shipped : list Z := lit "# comment" ++ [10; 10] ++ lit "local all all trust" ++ [10] ++ lit "host all all 127.0.0.1/32 trust" ++ [13; 10]
  ++ lit "host all all ::1/128 trust # loopback" ++ [10] ++ lit "host all all all scram-sha-256" ++ [10].

(** What the rules of a text decide. *)
Definition decides (text : list Z) (peer : IpAddr) (m : option Method) : Prop :=
  match parse text with Ok h => method_for h peer (lit "db") (lit "u") false = m | Err _ => False end.

(** PostgreSQL's 0.0.0.0/0 is the IPv4 addresses; here it is everyone. *)
Lemma zero_prefix_holds_ipv6 : decides (lit "host all all 0.0.0.0/0 trust") (V6 1) (Some Trust).
Proof. vm_compute. reflexivity. Qed.

(** One client against ::/0: seen by its mapped address it is in the network,
    seen by its IPv4 address it is not. *)
Lemma zero_prefix_misses_ipv4 : decides (lit "host all all ::/0 reject") (V6 281470681743361) (Some Reject) /\
  decides (lit "host all all ::/0 reject") (V4 1) None.
Proof. split; vm_compute; reflexivity. Qed.
