(* ===== verification/Scram.v ===== *)
(** SCRAM-SHA-256 on the server: crates/spg-server/src/scram.rs and the
    authentication exchanges of pgwire.rs.  Definitions only; ScramClient holds the
    theorems.

    A connection is the bytes the client sends and the messages sent back.  An
    error response is its SQLSTATE; its text is not modelled.  Writes succeed:
    a failed one ends the connection as an unexpected end of input does. *)
From S2P Require Import Prelude Bytes Text SortedMap Base64 Sha256 Users.
Open Scope Z_scope.

Inductive initial_error : Type :=
| NoFirstComma | NoAuthzidTerminator | UnsupportedBinding (name : list Z) | UnrecognizedFlag (flag : list Z) | MissingClientNonce.

Inductive final_error : Type := MissingProof | ProofNotBase64 | ProofLength (n : nat) | MissingNonce | MissingBinding.

Inductive ScramError : Type :=
| BadInitial (e : initial_error)
| BadFinal (e : final_error)
| NonceMismatch
| ProofMismatch.

Inductive Gs2CbindFlag : Type := NotSupported | SupportedNotUsed | Required.

Record ClientFirst : Type := mk_first {
  gs2_header : list Z;
  cbind_flag : Gs2CbindFlag;
  bare : list Z;
  client_nonce : list Z;
}.

Definition CB_NAME : list Z := lit "tls-server-end-point".

(** The last attribute of that name. *)
Definition last_attr (prefix : list Z) (attrs : list (list Z)) : option (list Z) :=
  fold_left (fun acc attr => match strip_str prefix attr with Some rest => Some rest | None => acc end) attrs None.

Definition parse_client_first (msg : list Z) : result ClientFirst ScramError :=
  let? c1 := match find_byte 44 msg with Some i => Ok i | None => Err (BadInitial NoFirstComma) end in
  let? c2 := match find_byte 44 (drop (c1 + 1) msg) with Some i => Ok (c1 + 1 + i)%nat | None => Err (BadInitial NoAuthzidTerminator) end in
  let gs2_header := take (c2 + 1) msg in
  let flag_str := take c1 msg in
  let? cbind_flag :=
    if bool_decide (flag_str = lit "n") then Ok NotSupported
    else if bool_decide (flag_str = lit "y") then Ok SupportedNotUsed
    else match strip_str (lit "p=") flag_str with
    | Some name => if bool_decide (name = CB_NAME) then Ok Required else Err (BadInitial (UnsupportedBinding name))
    | None => Err (BadInitial (UnrecognizedFlag flag_str))
    end in
  let bare := drop (c2 + 1) msg in
  match last_attr (lit "r=") (split 44 bare) with
  | Some client_nonce => Ok (mk_first gs2_header cbind_flag bare client_nonce)
  | None => Err (BadInitial MissingClientNonce)
  end.

Definition channel_binding_c_value (gs2_header cbind_data : list Z) : list Z := Base64.encode (gs2_header ++ cbind_data).

Definition build_server_first (combined_nonce : list Z) (secrets : ScramSecrets) : list Z :=
  let salt_b64 := Base64.encode (scram_salt secrets) in
  lit "r=" ++ combined_nonce ++ lit ",s=" ++ salt_b64 ++ lit ",i=" ++ to_string (iters secrets).

Record ClientFinal : Type := mk_final {
  without_proof : list Z;
  channel_binding : list Z;
  combined_nonce : list Z;
  client_proof : list Z;
}.

Definition parse_client_final (msg : list Z) : result ClientFinal ScramError :=
  match rfind (lit ",p=") msg with
  | None => Err (BadFinal MissingProof)
  | Some p_idx =>
    let without_proof := take p_idx msg in
    let proof_b64 := drop (p_idx + 3) msg in
    match Base64.decode proof_b64 with
    | Err _ => Err (BadFinal ProofNotBase64)
    | Ok client_proof =>
      if negb (length client_proof =? OUT_LEN)%nat then Err (BadFinal (ProofLength (length client_proof)))
      else
        let attrs := split 44 without_proof in
        match last_attr (lit "r=") attrs with
        | None => Err (BadFinal MissingNonce)
        | Some combined_nonce =>
          match last_attr (lit "c=") attrs with
          | None => Err (BadFinal MissingBinding)
          | Some channel_binding => Ok (mk_final without_proof channel_binding combined_nonce client_proof)
          end
        end
    end
  end.

Definition auth_message (client_first_bare server_first client_final_without_proof : list Z) : list Z :=
  client_first_bare ++ [44] ++ server_first ++ [44] ++ client_final_without_proof.

Definition verify_and_sign (secrets : ScramSecrets) (client_first_bare server_first client_final_without_proof client_proof : list Z) : result (list Z) ScramError :=
  let auth := auth_message client_first_bare server_first client_final_without_proof in
  let client_signature := hmac_sha256 (stored_key secrets) auth in
  let client_key := xor_bytes client_proof client_signature in
  let computed_stored := Sha256.hash client_key in
  if negb (constant_time_eq computed_stored (stored_key secrets)) then Err ProofMismatch
  else
    let server_signature := hmac_sha256 (server_key secrets) auth in
    Ok (lit "v=" ++ Base64.encode server_signature).

(** ** The connection *)

Inductive sent : Type :=
| Message (ty : Z) (body : list Z)
| ErrorResponse (sqlstate : list Z).

Record stream : Type := mk_stream {
  input : list Z;
  output : list sent;
}.

(** An error of the stream, a refusal whose response has been sent, or the end
    of the connection without one. *)
Inductive exit : Type := UnexpectedEof | OtherError | Refused | Closed.

Definition io (A : Type) : Type := stream -> stream * result A exit.

Definition io_ret {A} (a : A) : io A := fun s => (s, Ok a).
Definition io_fail {A} (e : exit) : io A := fun s => (s, Err e).
Definition io_bind {A B} (m : io A) (k : A -> io B) : io B :=
  fun s => match m s with (s, Ok a) => k a s | (s, Err e) => (s, Err e) end.

Notation "'do!' x ':=' m 'in' k" := (io_bind m (fun x => k)) (at level 10, x pattern, m at level 100, k at level 200) : spg_scope.

Definition read_exact (n : nat) : io (list Z) :=
  fun s => if (length (input s) <? n)%nat then (mk_stream [] (output s), Err UnexpectedEof)
           else (mk_stream (drop n (input s)) (output s), Ok (take n (input s))).

Definition send_msg (ty : Z) (body : list Z) : io () :=
  fun s => if Z.of_nat (length body) + 4 <? 2 ^ 32 then (mk_stream (input s) (output s ++ [Message ty body]), Ok tt) else (s, Err OtherError).

(** [send_error(..)?; return Ok(None)] *)
Definition refuse {A} (sqlstate : list Z) : io A :=
  fun s => (mk_stream (input s) (output s ++ [ErrorResponse sqlstate]), Err Refused).

Definition io_of {A E} (sqlstate : list Z) (r : result A E) : io A :=
  match r with Ok a => io_ret a | Err _ => refuse sqlstate end.

(** A message of the client: its tag and its body. *)
Definition read_message : io (Z * list Z) :=
  do! header := read_exact 5 in
  if hd 0 header =? 112 then
    do! body := read_exact (Z.to_nat (be_val (drop 1 header)) - 4) in
    io_ret (112, body)
  else io_ret (hd 0 header, []).

(** The body of the initial response: mechanism and client-first. *)
Definition sasl_initial (advertise_plus : bool) (body : list Z) : io (bool * list Z) :=
  match find_byte 0 body with
  | None => refuse (lit "28000")
  | Some mech_end =>
    let mech := match from_utf8 (take mech_end body) () with Ok m => m | Err _ => [] end in
    do! using_plus :=
      if bool_decide (mech = lit "SCRAM-SHA-256-PLUS") then (if negb advertise_plus then refuse (lit "28000") else io_ret true)
      else if bool_decide (mech = lit "SCRAM-SHA-256") then io_ret false
      else refuse (lit "28000") in
    let cur := (mech_end + 1)%nat in
    if (length body <? cur + 4)%nat then refuse (lit "28000")
    else
      let cf_len := Z.to_nat (be_val (slice cur 4 body)) in
      let cur := (cur + 4)%nat in
      if (length body <? cur + cf_len)%nat then refuse (lit "28000")
      else
        do! client_first_msg := io_of (lit "28000") (from_utf8 (slice cur cf_len body) ()) in
        io_ret (using_plus, client_first_msg)
  end.

(** The flag against the mechanism, and the downgrade guard. *)
Definition flag_agrees (flag : Gs2CbindFlag) (using_plus advertise_plus : bool) : bool :=
  match flag, using_plus with
  | Required, true => true
  | Required, false => false
  | NotSupported, true | SupportedNotUsed, true => false
  | SupportedNotUsed, false => negb advertise_plus
  | NotSupported, false => true
  end.

Definition mechanisms (advertise_plus : bool) : list Z :=
  if advertise_plus then lit "SCRAM-SHA-256-PLUS" ++ [0] ++ lit "SCRAM-SHA-256" ++ [0; 0] else lit "SCRAM-SHA-256" ++ [0; 0].

(** [cert]: the hash of the server's certificate, when there is one to bind to;
    [rng]: eighteen random bytes, unless the generator fails; [users]: the user
    table when the secrets are read, and when the role is. *)
Definition scram_auth (cert : option (list Z)) (rng : option (list Z)) (users users' : UserStore) (user : list Z) (secure : bool) : io (option Role) :=
  let cbind_hash := if secure then cert else None in
  let advertise_plus := match cbind_hash with Some _ => true | None => false end in
  do! _ := send_msg 82 (be_bytes 4 10 ++ mechanisms advertise_plus) in
  do! (tag, body) := read_message in
  if negb (tag =? 112) then refuse (lit "28000")
  else
    do! (using_plus, client_first_msg) := sasl_initial advertise_plus body in
    do! client_first := io_of (lit "28000") (parse_client_first client_first_msg) in
    if negb (flag_agrees (cbind_flag client_first) using_plus advertise_plus) then refuse (lit "28000")
    else
      let cbind_data := if using_plus then default [] cbind_hash else [] in
      match store_get users user ≫= scram with
      | None => refuse (lit "28P01")
      | Some secrets =>
        match rng with
        | None => refuse (lit "58000")
        | Some bytes =>
          let server_nonce := Base64.encode bytes in
          let combined := client_nonce client_first ++ server_nonce in
          let server_first := build_server_first combined secrets in
          do! _ := send_msg 82 (be_bytes 4 11 ++ server_first) in
          do! (tag, body) := read_message in
          if negb (tag =? 112) then refuse (lit "28000")
          else
            do! client_final_msg := io_of (lit "28000") (from_utf8 body ()) in
            do! client_final := io_of (lit "28000") (parse_client_final client_final_msg) in
            let expected_c := channel_binding_c_value (gs2_header client_first) cbind_data in
            if negb (bool_decide (channel_binding client_final = expected_c)) then refuse (lit "28000")
            else if negb (bool_decide (combined_nonce client_final = combined)) then refuse (lit "28000")
            else
              do! server_signature := io_of (lit "28P01")
                (verify_and_sign secrets (bare client_first) server_first (without_proof client_final) (client_proof client_final)) in
              do! _ := send_msg 82 (be_bytes 4 12 ++ server_signature) in
              io_ret (role <$> store_get users' user)
        end
      end.

(** ** A password in the clear *)

Definition read_password_message : io (list Z) :=
  do! (tag, body) := read_message in
  if negb (tag =? 112) then io_fail OtherError
  else
    let pw := match rev body with 0 :: r => rev r | _ => body end in
    match from_utf8 pw () with Ok p => io_ret p | Err _ => io_fail OtherError end.

(** [None] is a panic in the hash. *)
Definition cleartext_auth (users : UserStore) (user : list Z) : stream -> option (stream * result Role exit) :=
  fun s =>
    let '(s, r) := (do! _ := send_msg 82 (be_bytes 4 3) in read_password_message) s in
    match r with
    | Err e => Some (s, Err e)
    | Ok pwd =>
      let! verified := verify users user pwd in
      Some (match verified with Some r => io_ret r s | None => refuse (lit "28P01") s end)
    end.
