(* ===== verification/ScramClient.v ===== *)
(** SCRAM: who is let in.  What a finished exchange proves, and that the
    exchange of a client that knows the password finishes.

    SCRAM: a client that knows the password is let in, and can check that the
    server knows it too; the properties of the exchange. *)
From S2P Require Import Prelude Bytes Text SortedMap Base64 Sha256 Users UsersOk Scram.
Open Scope Z_scope.

(** ** Exchanges that succeed *)

Lemma io_bind_ok {A B} (m : io A) (k : A -> io B) s s' b :
  io_bind m k s = (s', Ok b) <-> exists s1 a, m s = (s1, Ok a) /\ k a s1 = (s', Ok b).
Proof.
  unfold io_bind. destruct (m s) as [s1 [a|e]]; split.
  - intros E. by exists s1, a.
  - intros (s2 & a2 & [= <- <-] & E). exact E.
  - discriminate.
  - intros (s2 & a2 & [=] & _).
Qed.

Lemma io_of_ok {A E} c (r : result A E) s s' a : io_of c r s = (s', Ok a) <-> r = Ok a /\ s' = s.
Proof. destruct r as [x|e]; cbn; split; try done; [by intros [= <- <-]|by intros [[= <-] ->]|by intros [[=] _]]. Qed.

Lemma refuse_ok {A} c s s' (a : A) : refuse c s = (s', Ok a) -> False.
Proof. discriminate. Qed.

Lemma read_exact_ok n s s' x : read_exact n s = (s', Ok x) <-> input s = x ++ input s' /\ length x = n /\ output s' = output s.
Proof.
  unfold read_exact. destruct (length (input s) <? n)%nat eqn:E; prop_bools; split.
  - discriminate.
  - intros (H & Hl & _). apply (f_equal length) in H. rewrite length_app in H. lia.
  - intros [= <- <-]. cbn. split; [by rewrite take_drop|]. split; [rewrite length_take; lia|done].
  - intros (H & Hl & Ho). destruct s as [i o], s' as [i' o']. cbn in *. subst. rewrite take_app_length, drop_app_length. done.
Qed.

Lemma send_msg_ok ty body s s' : send_msg ty body s = (s', Ok tt) <->
  Z.of_nat (length body) + 4 < 2 ^ 32 /\ input s' = input s /\ output s' = output s ++ [Message ty body].
Proof.
  unfold send_msg. destruct (_ <? _) eqn:E; prop_bools; split.
  - by intros [= <-].
  - intros (_ & H1 & H2). destruct s'. cbn in *. by subst.
  - discriminate.
  - lia.
Qed.

(** A message of the client as it stands in the input. *)
Definition framed (body : list Z) (i rest : list Z) : Prop :=
  exists len, length len = 4%nat /\ i = [112] ++ len ++ body ++ rest /\ length body = (Z.to_nat (be_val len) - 4)%nat.

Lemma read_message_ok s s' body : read_message s = (s', Ok (112, body)) -> framed body (input s) (input s') /\ output s' = output s.
Proof.
  unfold read_message. intros (s1 & header & Hh & H)%io_bind_ok. apply read_exact_ok in Hh as (E & Hl & Ho).
  destruct header as [|t len]; [done|]. cbn [hd drop] in H. destruct (t =? 112) eqn:Et; prop_bools.
  - apply io_bind_ok in H as (s2 & b & Hb & [= <- <-]). apply read_exact_ok in Hb as (E2 & Hl2 & Ho2).
    split; [|congruence]. exists len. injection Hl as Hl. split; [done|]. split; [|done]. rewrite E, E2. by subst t.
  - injection H as _ Ht _. by rewrite Ht in Et.
Qed.


Lemma slice_is_bytes (m body : list Z) off n : is_bytes body -> m = slice off n body -> is_bytes m.
Proof. intros H ->. by apply is_bytes_slice. Qed.

(** What an initial response says does not depend on the stream. *)
Definition initial_of (adv : bool) (body : list Z) : option (bool * list Z) :=
  match (sasl_initial adv body (mk_stream [] [])).2 with Ok r => Some r | Err _ => None end.

Lemma sasl_initial_ok adv body s s' plus m1 : is_bytes body -> sasl_initial adv body s = (s', Ok (plus, m1)) ->
  s' = s /\ initial_of adv body = Some (plus, m1) /\ is_bytes m1 /\ (plus = true -> adv = true).
Proof.
  intros Hb. unfold initial_of, sasl_initial. destruct (find_byte 0 body) as [e|]; [|done]. cbv zeta.
  intros H. apply io_bind_ok in H as (s1 & p & Hp & H).
  destruct (length body <? e + 1 + 4)%nat eqn:E1; [done|]. destruct (length body <? e + 1 + 4 + Z.to_nat (be_val (slice (e + 1) 4 body)))%nat eqn:E2; [done|].
  apply io_bind_ok in H as (s2 & m & Hm & [= <- <- <-]). apply io_of_ok in Hm as [Hm ->].
  assert (Hs : s1 = s /\ (p = true -> adv = true)).
  { destruct (bool_decide (_ = lit "SCRAM-SHA-256-PLUS")); [destruct adv; cbn in Hp; [by injection Hp as <- <-|done]|].
    destruct (bool_decide _); [by injection Hp as <- <-|done]. }
  destruct Hs as [-> Hadv]. split; [done|]. split; [|split; [|done]].
  - assert (Hp' : forall s0, (if bool_decide (match from_utf8 (take e body) () with Ok m0 => m0 | Err _ => [] end = lit "SCRAM-SHA-256-PLUS")
        then if negb adv then refuse (lit "28000") else io_ret true
        else if bool_decide (match from_utf8 (take e body) () with Ok m0 => m0 | Err _ => [] end = lit "SCRAM-SHA-256") then io_ret false else refuse (lit "28000")) s0 = (s0, Ok p)).
    { intros s0. destruct (bool_decide (_ = lit "SCRAM-SHA-256-PLUS")); [destruct adv; cbn in Hp |- *; [by injection Hp as <-|done]|].
      destruct (bool_decide _); [by injection Hp as <-|done]. }
    unfold io_bind. rewrite Hp'. unfold io_of. by rewrite Hm.
  - unfold from_utf8 in Hm. destruct (utf8_valid _); [|done]. injection Hm as <-. by apply is_bytes_slice.
Qed.

(** ** What a finished exchange proves *)

Section Exchange.
Context (cert rng : option (list Z)) (users users' : UserStore) (user : list Z) (secure : bool).

Definition offered : option (list Z) := if secure then cert else None.
Definition advertised : bool := match offered with Some _ => true | None => false end.

(** The proof of a client-final: a preimage of the stored key, masked by the
    signature of everything said. *)
Definition proof_holds (secrets : ScramSecrets) (auth proof : list Z) : Prop :=
  Sha256.hash (xor_bytes proof (hmac_sha256 (stored_key secrets) auth)) = stored_key secrets.

(** The client's two messages in the input, and what they say. *)
Definition proves (i rest : list Z) (secrets : ScramSecrets) : Prop :=
  exists body1 i1 plus m1 m2 cf fin nonce,
    framed body1 i i1 /\ initial_of advertised body1 = Some (plus, m1) /\ parse_client_first m1 = Ok cf /\
    framed m2 i1 rest /\ parse_client_final m2 = Ok fin /\ rng = Some nonce /\
    combined_nonce fin = client_nonce cf ++ Base64.encode nonce /\
    (cbind_flag cf = Required <-> plus = true) /\ (plus = true -> is_Some offered) /\ (cbind_flag cf = SupportedNotUsed -> offered = None) /\
    Base64.decode (channel_binding fin) = Ok (gs2_header cf ++ if plus then default [] offered else []) /\
    length (client_proof fin) = 32%nat /\
    proof_holds secrets (auth_message (bare cf) (build_server_first (combined_nonce fin) secrets) (without_proof fin)) (client_proof fin).

Lemma parse_client_first_header m cf : parse_client_first m = Ok cf -> exists n, gs2_header cf = take n m.
Proof.
  unfold parse_client_first. intros (c1 & _ & H)%rbind_ok. apply rbind_ok in H as (c2 & _ & H). apply rbind_ok in H as (f & _ & H).
  destruct (last_attr _ _); [|done]. injection H as <-. by eexists.
Qed.

Lemma flag_agrees_spec f plus adv : flag_agrees f plus adv = true ->
  (f = Required <-> plus = true) /\ (f = SupportedNotUsed -> adv = false).
Proof. destruct f, plus, adv; cbn; naive_solver. Qed.

Lemma parse_client_final_proof m fin : parse_client_final m = Ok fin -> length (client_proof fin) = 32%nat.
Proof.
  unfold parse_client_final. destruct (rfind _ m); [|done]. cbv zeta. destruct (Base64.decode _); [|done].
  destruct (length a =? OUT_LEN)%nat eqn:E; cbn [negb]; [|done]. prop_bools. destruct (last_attr (lit "r=") _); [|done]. destruct (last_attr (lit "c=") _); [|done].
  by intros [= <-].
Qed.

Lemma verify_and_sign_ok secrets b sf wp proof sig : digest 32 (stored_key secrets) ->
  verify_and_sign secrets b sf wp proof = Ok sig <->
  proof_holds secrets (auth_message b sf wp) proof /\ sig = lit "v=" ++ Base64.encode (hmac_sha256 (server_key secrets) (auth_message b sf wp)).
Proof.
  intros [Hsb Hsl]. unfold verify_and_sign, proof_holds. cbv zeta. set (d := Sha256.hash _). destruct (sha256_digest (xor_bytes proof (hmac_sha256 (stored_key secrets) (auth_message b sf wp)))) as [Hdb Hdl].
  pose proof (constant_time_eq_spec d (stored_key secrets) Hdb Hsb ltac:(by rewrite Hsl)) as Hct. destruct (constant_time_eq d (stored_key secrets)); cbn [negb].
  - split; [intros [= <-]; split; [by apply Hct|done]|by intros [_ ->]].
  - split; [done|]. intros [H _]. by apply Hct in H.
Qed.

Lemma framed_bytes body i rest : is_bytes i -> framed body i rest -> is_bytes body /\ is_bytes rest.
Proof. intros Hi (len & _ & -> & _). apply is_bytes_app in Hi as [_ Hi]. apply is_bytes_app in Hi as [_ Hi]. by apply is_bytes_app in Hi. Qed.

Lemma scram_auth_ok s s' o : is_bytes (input s) -> store_ok users -> opt_ok is_bytes cert ->
  scram_auth cert rng users users' user secure s = (s', Ok o) ->
  exists secrets, store_get users user ≫= scram = Some secrets /\ proves (input s) (input s') secrets /\ o = role <$> store_get users' user.
Proof.
  intros Hb Hst Hc. unfold scram_auth. cbv zeta. fold offered. fold advertised. intros H.
  apply io_bind_ok in H as (s1 & [] & H1 & H). apply send_msg_ok in H1 as (_ & Hi1 & _).
  apply io_bind_ok in H as (s2 & [tag body] & H2 & H). destruct (tag =? 112) eqn:Et; [|done]. prop_bools. subst tag. cbn [negb] in H.
  apply read_message_ok in H2 as [Hf1 _]. rewrite Hi1 in Hf1. destruct (framed_bytes _ _ _ Hb Hf1) as [Hbb Hb2].
  apply io_bind_ok in H as (s3 & [plus m1] & H3 & H). apply sasl_initial_ok in H3 as (-> & Hin & Hm1 & Hadv); [|done].
  apply io_bind_ok in H as (s4 & cf & H4 & H). apply io_of_ok in H4 as [Hcf ->].
  destruct (flag_agrees (cbind_flag cf) plus advertised) eqn:Ef; [|done]. cbn [negb] in H. apply flag_agrees_spec in Ef as [Hreq Hdown].
  destruct (store_get users user ≫= scram) as [secrets|] eqn:Es; [|done]. destruct rng as [nonce|] eqn:Er; [|done].
  apply io_bind_ok in H as (s5 & [] & H5 & H). apply send_msg_ok in H5 as (_ & Hi5 & _).
  apply io_bind_ok in H as (s6 & [tag body2] & H6 & H). destruct (tag =? 112) eqn:Et; [|done]. prop_bools. subst tag. cbn [negb] in H.
  apply read_message_ok in H6 as [Hf2 _]. rewrite Hi5 in Hf2. destruct (framed_bytes _ _ _ Hb2 Hf2) as [Hbb2 _].
  apply io_bind_ok in H as (s7 & m2 & H7 & H). apply io_of_ok in H7 as [Hm2 ->]. unfold from_utf8 in Hm2. destruct (utf8_valid body2); [|done]. injection Hm2 as <-.
  apply io_bind_ok in H as (s8 & fin & H8 & H). apply io_of_ok in H8 as [Hfin ->].
  destruct (bool_decide (channel_binding fin = _)) eqn:Ec; [|done]. apply bool_decide_eq_true in Ec.
  destruct (bool_decide (combined_nonce fin = _)) eqn:En; [|done]. apply bool_decide_eq_true in En. cbn [negb] in H.
  apply io_bind_ok in H as (s9 & sig & H9 & H). apply io_of_ok in H9 as [Hv ->].
  apply io_bind_ok in H as (s10 & [] & H10 & [= <- <-]). apply send_msg_ok in H10 as (_ & Hi10 & _).
  exists secrets. split; [done|]. split; [|done]. exists body, (input s2), plus, m1, body2, cf, fin, nonce. rewrite Hi10. rewrite En.
  apply verify_and_sign_ok in Hv as [Hproof _].
  2: { destruct (store_get users user) as [rec|] eqn:Eg; [|done]. cbn in Es. apply (sm_lookup_Forall _ _ _ _ (so_records _ Hst)) in Eg as (_ & _ & _ & Hok & _).
       cbn in Hok. rewrite Es in Hok. apply Hok. }
  do 7 (split; [done|]). split; [done|]. split; [|split; [|split; [|split; [by eapply parse_client_final_proof|exact Hproof]]]].
  - intros Hp. specialize (Hadv Hp). unfold advertised in Hadv. destruct offered; [by eexists|done].
  - intros Hp. specialize (Hdown Hp). unfold advertised in Hdown. by destruct offered.
  - rewrite Ec. unfold channel_binding_c_value. apply base64_roundtrip, is_bytes_app. split.
    + destruct (parse_client_first_header _ _ Hcf) as [n ->]. by apply is_bytes_take.
    + destruct plus; [|constructor]. unfold offered. destruct secure; [|constructor]. destruct cert; [done|constructor].
Qed.
End Exchange.

(** ** Base64 as text *)

Definition b64_char (c : Z) : Prop := 43 <= c <= 122 /\ c <> 44.

#[export] Instance b64_char_dec c : Decision (b64_char c).
Proof. unfold b64_char. apply _. Defined.

Lemma alpha_b64 n s : b64_char (alpha_at n s).
Proof.
  unfold alpha_at. set (i := Z.to_nat _).
  assert (Hi : (i < 64)%nat).
  { subst i. replace 0x3f with (Z.ones 6) by reflexivity. rewrite Z.land_ones by lia. pose proof (Z.mod_pos_bound (Z.shiftr n s) (2 ^ 6) ltac:(lia)). lia. }
  assert (Hall : Forall b64_char ALPHA) by (by_deciding).
  rewrite Forall_forall in Hall. apply Hall, list_elem_of_In, nth_In. exact Hi.
Qed.

Lemma encode_b64 l : Forall b64_char (encode l).
Proof.
  assert (Hp : b64_char PAD) by (unfold b64_char, PAD; lia).
  induction l as [|a|a b|a b c l IH] using three_ind; cbn [encode]; cbv zeta; repeat constructor; try apply alpha_b64; try apply Hp; apply IH.
Qed.

Lemma encode_length l : (length (encode l) <= 2 * length l + 2)%nat.
Proof. induction l as [|a|a b|a b c l IH] using three_ind; cbn [encode length]; lia. Qed.

Lemma b64_ascii l : Forall b64_char l -> Forall (fun b => 0 <= b < 0x80) l.
Proof. intros H. eapply Forall_impl; [exact H|]. unfold b64_char. intros; lia. Qed.

Lemma no_comma (P : Z -> Prop) l : (forall c, P c -> c <> 44) -> Forall P l -> 44 ∉ l.
Proof. intros HP Hl Hin. rewrite Forall_forall in Hl. by apply (HP 44 (Hl _ Hin)). Qed.

(** ** The client *)

(** A nonce is printable, without commas. *)
Definition printable (c : Z) : Prop := 33 <= c <= 126 /\ c <> 44.

Lemma printable_ascii l : Forall printable l -> Forall (fun b => 0 <= b < 0x80) l.
Proof. intros H. eapply Forall_impl; [exact H|]. unfold printable. intros; lia. Qed.

Definition flag_text (f : Gs2CbindFlag) : list Z :=
  match f with NotSupported => lit "n" | SupportedNotUsed => lit "y" | Required => lit "p=" ++ CB_NAME end.

Definition gs2 (f : Gs2CbindFlag) : list Z := flag_text f ++ [44; 44].
Definition first_bare (name nonce : list Z) : list Z := lit "n=" ++ name ++ [44] ++ lit "r=" ++ nonce.
Definition first_message (f : Gs2CbindFlag) (name nonce : list Z) : list Z := gs2 f ++ first_bare name nonce.

Definition initial_response (plus : bool) (m1 : list Z) : list Z :=
  lit (if plus then "SCRAM-SHA-256-PLUS" else "SCRAM-SHA-256") ++ [0] ++ be_bytes 4 (Z.of_nat (length m1)) ++ m1.

Definition frame (body : list Z) : list Z := [112] ++ be_bytes 4 (Z.of_nat (length body) + 4) ++ body.

Definition final_without_proof (f : Gs2CbindFlag) (cbind nonce : list Z) : list Z :=
  lit "c=" ++ Base64.encode (gs2 f ++ cbind) ++ [44] ++ lit "r=" ++ nonce.

(** The client's keys are its own, from the password, salt and count. *)
Definition client_key (pw salt : list Z) (n : Z) : list Z := hmac_sha256 (pbkdf2_sha256_32 pw salt n) (lit "Client Key").

Definition final_message (pw salt : list Z) (n : Z) (wp auth : list Z) : list Z :=
  let proof := xor_bytes (client_key pw salt n) (hmac_sha256 (Sha256.hash (client_key pw salt n)) auth) in
  wp ++ lit ",p=" ++ Base64.encode proof.

(** What the client expects of a server that knows its password. *)
Definition expected_signature (pw salt : list Z) (n : Z) (auth : list Z) : list Z :=
  lit "v=" ++ Base64.encode (hmac_sha256 (hmac_sha256 (pbkdf2_sha256_32 pw salt n) (lit "Server Key")) auth).

Lemma flag_text_no_comma f : 44 ∉ flag_text f.
Proof. destruct f; apply (no_comma (fun c => c <> 44)); (done || by_deciding). Qed.

Lemma parse_first_message f name nonce : 44 ∉ name -> Forall printable nonce ->
  parse_client_first (first_message f name nonce) = Ok (mk_first (gs2 f) f (first_bare name nonce) nonce).
Proof.
  intros Hn Hp. unfold parse_client_first, first_message, gs2. rewrite <- !app_assoc. cbn [app].
  rewrite find_byte_app by apply flag_text_no_comma. cbn [rbind].
  replace (drop (length (flag_text f) + 1) (flag_text f ++ 44 :: 44 :: first_bare name nonce)) with (44 :: first_bare name nonce).
  2: { by rewrite cons_middle, app_assoc, drop_app_length' by (rewrite length_app; cbn; lia). }
  cbn [find_byte]. rewrite Z.eqb_refl. cbn [rbind]. cbv zeta. rewrite take_app_length.
  assert (Hd : drop (length (flag_text f) + 1 + 0 + 1) (flag_text f ++ 44 :: 44 :: first_bare name nonce) = first_bare name nonce).
  { change (44 :: 44 :: first_bare name nonce) with ([44; 44] ++ first_bare name nonce). rewrite app_assoc. apply drop_app_length'. rewrite length_app. cbn. lia. }
  assert (Ht : take (length (flag_text f) + 1 + 0 + 1) (flag_text f ++ 44 :: 44 :: first_bare name nonce) = flag_text f ++ [44; 44]).
  { change (44 :: 44 :: first_bare name nonce) with ([44; 44] ++ first_bare name nonce). rewrite app_assoc. apply take_app_length'. rewrite length_app. cbn. lia. }
  rewrite Hd, Ht.
  assert (Hf : (if bool_decide (flag_text f = lit "n") then Ok NotSupported
    else if bool_decide (flag_text f = lit "y") then Ok SupportedNotUsed
    else match strip_str (lit "p=") (flag_text f) with
    | Some name => if bool_decide (name = CB_NAME) then Ok Required else Err (BadInitial (UnsupportedBinding name))
    | None => Err (BadInitial (UnrecognizedFlag (flag_text f)))
    end) = Ok f) by (destruct f; vm_compute; reflexivity).
  rewrite Hf. cbn [rbind]. unfold first_bare at 1.
  replace (lit "n=" ++ name ++ [44] ++ lit "r=" ++ nonce) with ((lit "n=" ++ name) ++ 44 :: lit "r=" ++ nonce) by by rewrite <- app_assoc.
  assert (Hc : forall w, 44 ∉ lit w ++ name <-> 44 ∉ lit w) by (intros w; rewrite elem_of_app; tauto).
  rewrite split_app by (apply Hc; by_deciding).
  rewrite split_none.
  2: { rewrite elem_of_app. intros [H|H]; [clear -H; revert H; by_deciding|]. eapply no_comma, H; [|exact Hp]. by intros c [_ ?]. }
  unfold last_attr. cbn [fold_left]. rewrite strip_str_app.
  done.
Qed.

Lemma parse_final_message f cbind nonce pw salt n auth : Forall printable nonce ->
  parse_client_final (final_message pw salt n (final_without_proof f cbind nonce) auth) =
  Ok (mk_final (final_without_proof f cbind nonce) (Base64.encode (gs2 f ++ cbind)) nonce
    (xor_bytes (client_key pw salt n) (hmac_sha256 (Sha256.hash (client_key pw salt n)) auth))).
Proof.
  intros Hp. unfold parse_client_final, final_message. set (wp := final_without_proof f cbind nonce). set (proof := xor_bytes _ _).
  assert (Hproof : digest 32 proof).
  { assert (Hk : digest 32 (client_key pw salt n)) by apply hmac_digest. destruct Hk as [Hkb Hkl]. destruct (hmac_digest (Sha256.hash (client_key pw salt n)) auth) as [Hsb Hsl].
    split; [by apply xor_is_bytes|]. unfold proof. rewrite length_xor; congruence. }
  destruct Hproof as [Hpb Hpl]. pose proof (encode_b64 proof) as He. change (lit ",p=" ++ Base64.encode proof) with ((44 :: lit "p=") ++ Base64.encode proof).
  change (lit ",p=") with (44 :: lit "p="). rewrite rfind_app.
  2: { rewrite elem_of_app. intros [H|H]; [clear -H; revert H; by_deciding|]. eapply no_comma, H; [|exact He]. by intros c [_ ?]. }
  cbv zeta. rewrite take_app_length.
  replace (drop (length wp + 3) (wp ++ (44 :: lit "p=") ++ Base64.encode proof)) with (Base64.encode proof).
  2: { rewrite app_assoc, drop_app_length' by (rewrite length_app; done). done. }
  rewrite base64_roundtrip by done. rewrite Hpl. cbn [Nat.eqb negb OUT_LEN].
  assert (Hs : split 44 wp = [lit "c=" ++ Base64.encode (gs2 f ++ cbind); lit "r=" ++ nonce]).
  { unfold wp, final_without_proof.
    replace (lit "c=" ++ Base64.encode (gs2 f ++ cbind) ++ [44] ++ lit "r=" ++ nonce) with ((lit "c=" ++ Base64.encode (gs2 f ++ cbind)) ++ 44 :: lit "r=" ++ nonce)
      by by rewrite <- app_assoc.
    rewrite split_app, split_none; [done| |].
    - rewrite elem_of_app. intros [H|H]; [clear -H; revert H; by_deciding|]. eapply no_comma, H; [|exact Hp]. by intros c [_ ?].
    - rewrite elem_of_app. intros [H|H]; [clear -H; revert H; by_deciding|]. eapply no_comma, H; [|apply encode_b64]. by intros c [_ ?]. }
  rewrite Hs. unfold last_attr. cbn [fold_left]. rewrite !strip_str_app. done.
Qed.

Lemma final_message_utf8 f cbind nonce pw salt n auth : Forall printable nonce ->
  utf8_valid (final_message pw salt n (final_without_proof f cbind nonce) auth) = true.
Proof.
  intros Hp. apply utf8_ascii. unfold final_message, final_without_proof. cbv zeta. repeat (apply Forall_app; split); try (by apply b64_ascii, encode_b64);
    try (by apply printable_ascii); by_deciding.
Qed.

(** ** Its messages on the wire *)

Lemma read_message_frame body rest out : Z.of_nat (length body) + 4 < 2 ^ 32 ->
  read_message (mk_stream (frame body ++ rest) out) = (mk_stream rest out, Ok (112, body)).
Proof.
  intros Hl. unfold read_message, frame, io_bind, read_exact at 1. cbn [input output].
  pose proof (length_be_bytes 4 (Z.of_nat (length body) + 4)) as H4. set (len := be_bytes 4 _) in *.
  replace ((([112] ++ len ++ body) ++ rest)) with ((112 :: len) ++ body ++ rest) by by rewrite <- !app_assoc.
  assert (H5 : length (112 :: len) = 5%nat) by (cbn; lia).
  rewrite (proj2 (Nat.ltb_ge _ _)) by (rewrite length_app; lia). rewrite take_app_length', drop_app_length' by done.
  cbn [hd drop]. change (112 =? 112) with true. cbv iota. unfold len. rewrite drop_0, be_val_be_bytes, Z.mod_small by lia.
  replace (Z.to_nat (Z.of_nat (length body) + 4) - 4)%nat with (length body) by lia. unfold read_exact. cbn [input output].
  rewrite (proj2 (Nat.ltb_ge _ _)) by (rewrite length_app; lia). by rewrite take_app_length, drop_app_length.
Qed.

Lemma sasl_initial_response (plus adv : bool) m1 s : (plus = true -> adv = true) -> Z.of_nat (length m1) < 2 ^ 32 -> utf8_valid m1 = true ->
  sasl_initial adv (initial_response plus m1) s = (s, Ok (plus, m1)).
Proof.
  intros Hpa Hl Hu. unfold sasl_initial, initial_response. set (mech := lit _).
  assert (Hz : 0 ∉ mech) by (subst mech; destruct plus; by_deciding). cbn [app]. rewrite find_byte_app by done. cbv zeta. rewrite take_app_length.
  assert (Hm : @from_utf8 () mech () = Ok mech) by (subst mech; destruct plus; vm_compute; reflexivity). rewrite Hm.
  pose proof (length_be_bytes 4 (Z.of_nat (length m1))) as H4.
  assert (Hlen : length (mech ++ 0 :: be_bytes 4 (Z.of_nat (length m1)) ++ m1) = (length mech + 1 + 4 + length m1)%nat) by (rewrite length_app; cbn [length]; rewrite length_app; lia).
  assert (Hslice : slice (length mech + 1) 4 (mech ++ 0 :: be_bytes 4 (Z.of_nat (length m1)) ++ m1) = be_bytes 4 (Z.of_nat (length m1))).
  { unfold slice. rewrite cons_middle, app_assoc, drop_app_length' by (rewrite length_app; cbn; lia). by rewrite take_app_length'. }
  assert (Hslice2 : slice (length mech + 1 + 4) (length m1) (mech ++ 0 :: be_bytes 4 (Z.of_nat (length m1)) ++ m1) = m1).
  { unfold slice. rewrite cons_middle, !app_assoc, drop_app_length' by (rewrite !length_app; cbn; lia). by rewrite take_ge. }
  unfold io_bind at 1.
  replace ((if bool_decide (mech = lit "SCRAM-SHA-256-PLUS") then if negb adv then refuse (lit "28000") else io_ret true
    else if bool_decide (mech = lit "SCRAM-SHA-256") then io_ret false else refuse (lit "28000")) s) with (s, @Ok bool exit plus).
  2: { subst mech. destruct plus; [rewrite Hpa by done|]; vm_compute; reflexivity. }
  rewrite Hslice, Hlen, be_val_be_bytes, Z.mod_small by lia. rewrite Nat2Z.id.
  rewrite !(proj2 (Nat.ltb_ge _ _)) by lia. rewrite Hslice2. unfold io_bind, io_of, from_utf8. by rewrite Hu.
Qed.

(** ** The exchange *)

Lemma io_bind_run {A B} (m : io A) (k : A -> io B) s s1 a : m s = (s1, Ok a) -> io_bind m k s = k a s1.
Proof. unfold io_bind. by intros ->. Qed.

Lemma send_run ty body i out : Z.of_nat (length body) + 4 < 2 ^ 32 -> send_msg ty body (mk_stream i out) = (mk_stream i (out ++ [Message ty body]), Ok tt).
Proof. intros H. unfold send_msg. by rewrite (proj2 (Z.ltb_lt _ _)). Qed.

Lemma digits_of_length fuel : forall n s, (length (digits_of fuel n s) <= fuel + length s)%nat.
Proof.
  induction fuel as [|fuel IH]; intros n s; [done|]. cbn [digits_of]. destruct (n / 10 =? 0); [cbn; lia|]. specialize (IH (n / 10) ((48 + n mod 10) :: s)). cbn [length] in IH. lia.
Qed.

Lemma server_first_length nonce secrets : (length (scram_salt secrets) <= 16)%nat -> (length (build_server_first nonce secrets) <= length nonce + 64)%nat.
Proof.
  intros H. unfold build_server_first. cbv zeta. rewrite !length_app. pose proof (encode_length (scram_salt secrets)).
  pose proof (digits_of_length 10 (iters secrets) []) as Hd. change (digits_of 10 (iters secrets) []) with (to_string (iters secrets)) in Hd. cbn [length] in Hd.
  assert (length (lit "r=") = 2%nat /\ length (lit ",s=") = 3%nat /\ length (lit ",i=") = 3%nat) as (-> & -> & ->) by done. lia.
Qed.

Definition uses_plus (f : Gs2CbindFlag) : bool := match f with Required => true | _ => false end.

(** A client may choose the mechanism with channel binding when it is offered,
    and may say it could have only when it is not. *)
Definition may_choose (f : Gs2CbindFlag) (offer : option (list Z)) : Prop :=
  match f with Required => is_Some offer | SupportedNotUsed => offer = None | NotSupported => True end.

Section Client.
Context (cert : option (list Z)) (bytes : list Z) (users users' : UserStore) (user : list Z) (secure : bool).
Context (f : Gs2CbindFlag) (name cnonce pw salt : list Z) (n : Z).

Definition bound : list Z := if uses_plus f then default [] (offered cert secure) else [].
Definition nonce : list Z := cnonce ++ Base64.encode bytes.
Definition server_says : list Z := build_server_first nonce (compute_scram_secrets pw salt n).
Definition client_ends : list Z := final_without_proof f bound nonce.
Definition agreed : list Z := auth_message (first_bare name cnonce) server_says client_ends.

(** Everything the client sends: it answers [server_says] with its proof. *)
Definition client_sends : list Z :=
  frame (initial_response (uses_plus f) (first_message f name cnonce)) ++ frame (final_message pw salt n client_ends agreed).

Definition server_sends : list sent :=
  [Message 82 (be_bytes 4 10 ++ mechanisms (advertised cert secure)); Message 82 (be_bytes 4 11 ++ server_says);
   Message 82 (be_bytes 4 12 ++ expected_signature pw salt n agreed)].

Lemma nonce_printable : Forall printable cnonce -> Forall printable nonce.
Proof.
  intros H. apply Forall_app. split; [done|]. eapply Forall_impl; [apply encode_b64|]. unfold b64_char, printable. intros; lia.
Qed.

Lemma own_proof_verifies : verify_and_sign (compute_scram_secrets pw salt n) (first_bare name cnonce) server_says client_ends
    (xor_bytes (client_key pw salt n) (hmac_sha256 (Sha256.hash (client_key pw salt n)) agreed)) = Ok (expected_signature pw salt n agreed).
Proof.
  apply verify_and_sign_ok; [apply sha256_digest|]. split; [|done]. unfold proof_holds. cbn [compute_scram_secrets stored_key].
  change (Sha256.hash (hmac_sha256 (pbkdf2_sha256_32 pw salt n) (lit "Client Key"))) with (Sha256.hash (client_key pw salt n)).
  assert (Hk : digest 32 (client_key pw salt n)) by apply hmac_digest. destruct Hk as [_ Hkl]. destruct (hmac_digest (Sha256.hash (client_key pw salt n)) agreed) as [_ Hsl].
  fold agreed. rewrite xor_bytes_cancel by congruence. done.
Qed.

Lemma bound_length : opt_ok (digest 32) cert -> (length bound <= 32)%nat.
Proof. unfold bound, offered. intros H. destruct (uses_plus f), secure, cert as [c|]; cbn; try lia. destruct H as [_ H]. lia. Qed.

Lemma honest_client rest out : opt_ok (digest 32) cert -> length bytes = 18%nat ->
  store_get users user ≫= scram = Some (compute_scram_secrets pw salt n) -> length salt = 16%nat ->
  may_choose f (offered cert secure) -> is_str name -> 44 ∉ name -> Forall printable cnonce -> utf8_valid (first_message f name cnonce) = true ->
  Z.of_nat (length (first_message f name cnonce)) < 2 ^ 24 ->
  scram_auth cert (Some bytes) users users' user secure (mk_stream (client_sends ++ rest) out) =
  (mk_stream rest (out ++ server_sends), Ok (role <$> store_get users' user)).
Proof.
  intros Hcert Hbytes Hrec Hsalt Hmay Hname Hcomma Hnonce Hutf Hlen. unfold scram_auth. cbv zeta. fold (offered cert secure). fold (advertised cert secure).
  pose proof (bound_length Hcert) as Hbound. pose proof (nonce_printable Hnonce) as Hnp.
  assert (Hcl : (length cnonce <= length (first_message f name cnonce))%nat).
  { unfold first_message, first_bare. rewrite !length_app. lia. }
  assert (Hnl : (length nonce <= length cnonce + 38)%nat) by (unfold nonce; rewrite length_app; pose proof (encode_length bytes); lia).
  cbv beta iota. erewrite io_bind_run.
  2: { apply send_run. clear. destruct (advertised cert secure); vm_compute; reflexivity. }
  unfold client_sends. rewrite <- app_assoc. cbv beta iota. erewrite io_bind_run.
  2: { apply read_message_frame. unfold initial_response. rewrite !length_app, length_be_bytes.
       assert (length (lit (if uses_plus f then "SCRAM-SHA-256-PLUS" else "SCRAM-SHA-256")) <= 18)%nat by (clear; destruct (uses_plus f); vm_compute; lia). cbn [length]. lia. }
  cbv beta iota. change (112 =? 112) with true. cbn [negb]. cbv beta iota. erewrite io_bind_run.
  2: { apply sasl_initial_response; [|lia|done]. unfold advertised. destruct f; try done. intros _. destruct Hmay as [c ->]. done. }
  cbv beta iota. erewrite io_bind_run by (apply io_of_ok; split; [by apply parse_first_message|done]). cbv beta iota. cbn [cbind_flag gs2_header bare client_nonce].
  assert (Hflag : flag_agrees f (uses_plus f) (advertised cert secure) = true) by (unfold advertised; destruct f; cbn; [done|by rewrite Hmay|done]).
  rewrite Hflag, Hrec. cbn [negb]. fold nonce. fold server_says. fold bound.
  cbv beta iota. erewrite io_bind_run.
  2: { apply send_run. unfold server_says. rewrite length_app, length_be_bytes. pose proof (server_first_length nonce (compute_scram_secrets pw salt n)) as Hs.
       cbn [compute_scram_secrets scram_salt] in Hs. lia. }
  cbv beta iota. erewrite io_bind_run.
  2: { apply read_message_frame. unfold final_message, client_ends, final_without_proof. cbv zeta. rewrite !length_app.
       pose proof (encode_length (gs2 f ++ bound)) as Hg. rewrite length_app in Hg.
       assert (length (gs2 f) <= 32)%nat by (destruct f; vm_compute; lia).
       match goal with |- context [length (encode (xor_bytes ?a ?b))] => pose proof (encode_length (xor_bytes a b)) as Hx; assert (length (xor_bytes a b) = 32%nat) end.
       { rewrite length_xor; [apply hmac_digest|]. transitivity 32%nat; [apply hmac_digest|symmetry; apply hmac_digest]. }
       assert (length (lit "c=") = 2%nat /\ length (lit "r=") = 2%nat /\ length (lit ",p=") = 3%nat) as (-> & -> & ->) by done. cbn [length]. lia. }
  cbv beta iota. change (112 =? 112) with true. cbn [negb].
  cbv beta iota. erewrite io_bind_run by (apply io_of_ok; split; [unfold from_utf8, client_ends; by rewrite final_message_utf8|done]).
  cbv beta iota. erewrite io_bind_run by (apply io_of_ok; split; [unfold client_ends; by apply parse_final_message|done]).
  cbv beta iota. cbn [channel_binding combined_nonce without_proof client_proof]. rewrite !bool_decide_eq_true_2 by done. cbn [negb].
  fold client_ends. cbv beta iota. erewrite io_bind_run by (apply io_of_ok; split; [apply own_proof_verifies|done]).
  cbv beta iota. erewrite io_bind_run.
  2: { apply send_run. unfold expected_signature. rewrite !length_app, length_be_bytes.
       match goal with |- context [encode (hmac_sha256 ?k ?a)] => pose proof (encode_length (hmac_sha256 k a)); destruct (hmac_digest k a) as [_ Hh] end.
       change (length (lit "v=")) with 2%nat. lia. }
  unfold io_ret, server_sends. f_equal. f_equal. by rewrite <- !app_assoc.
Qed.
Lemma client_sends_bytes : is_bytes name -> Forall printable cnonce -> is_bytes client_sends.
Proof.
  intros Hn Hc. assert (Hascii : forall l, Forall (fun b => 0 <= b < 0x80) l -> is_bytes l).
  { intros l Hl. eapply Forall_impl; [exact Hl|]. unfold in_w. intros; lia. }
  assert (Hframe : forall b, is_bytes b -> is_bytes (frame b)).
  { intros b Hb. unfold frame. rewrite !is_bytes_app. split_and!; [by_deciding|apply be_bytes_bytes|done]. }
  unfold client_sends. apply is_bytes_app. split; apply Hframe.
  - unfold initial_response, first_message, first_bare. rewrite !is_bytes_app; split_and!; try done; try by_deciding;
      [clear; destruct (uses_plus f); by_deciding|apply be_bytes_bytes|clear; destruct f; by_deciding|by apply Hascii, printable_ascii].
  - unfold final_message, client_ends, final_without_proof. cbv zeta.
    rewrite !is_bytes_app; split_and!; try (by apply Hascii, b64_ascii, encode_b64); try (by apply Hascii, printable_ascii, nonce_printable); by_deciding.
Qed.
End Client.

(** A client that knows the password is let in, and learns that the server
    knows it too.  Whatever the connection offers, a client that names a role
    whose verifier was derived from its password, follows RFC 5802 and RFC 5929
    with any printable nonce, and says it supports channel binding only as the
    offer allows, finishes the exchange: the server consumes exactly the
    client's two messages, answers with the mechanisms, its nonce and the
    signature the client expects from the password, and returns the role. *)
Lemma client_with_password_accepted cert bytes users users' user secure f name cnonce pw salt n rest out
    (certified : opt_ok (digest 32) cert) (random : length bytes = 18%nat)
    (verifier : store_get users user ≫= scram = Some (compute_scram_secrets pw salt n)) (salted : length salt = 16%nat)
    (offer : may_choose f (offered cert secure)) (named : is_str name) (unescaped : 44 ∉ name) (fresh : Forall printable cnonce)
    (text : utf8_valid (first_message f name cnonce) = true) (sized : Z.of_nat (length (first_message f name cnonce)) < 2 ^ 24) :
  scram_auth cert (Some bytes) users users' user secure
    (mk_stream (client_sends cert bytes secure f name cnonce pw salt n ++ rest) out) =
  (mk_stream rest (out ++ server_sends cert bytes secure f name cnonce pw salt n), Ok (role <$> store_get users' user)).
Proof. by apply honest_client. Qed.

(** C39: nobody else is let in.  If the server returns a role, over any bytes
    the client may have sent, then the input starts with an initial response
    and a final message such that: the final message's proof is, unmasked by
    the signature of the whole exchange, a preimage of the stored key; the
    exchange signed contains the server's fresh nonce; the mechanism, the
    flag and the offer agree, and a client that says the server offered no
    channel binding is right; and the binding the client sent decodes to its
    own header followed by the hash of this server's certificate exactly when
    it binds.  So a message replayed under another nonce, or an exchange bound
    to another certificate, is refused. *)
Theorem scram_accepts_only_proofs cert rng users users' user secure s s' o
    (sent : is_bytes (input s)) (table : store_ok users) (certified : opt_ok is_bytes cert)
    (accepted : scram_auth cert rng users users' user secure s = (s', Ok o)) :
  exists secrets, store_get users user ≫= scram = Some secrets /\
    proves cert rng secure (input s) (input s') secrets /\ o = role <$> store_get users' user.
Proof. by apply scram_auth_ok. Qed.

(** One role, its password "p" salted with zeros and iterated once. *)
Definition one_role : UserStore :=
  mk_store [(lit "ann", mk_user ReadWrite (repeat 0 16) (repeat 0 32) (Some (compute_scram_secrets (lit "p") (repeat 0 16) 1)) None None true true true false)] [].

Lemma one_role_ok : store_ok one_role.
Proof.
  constructor; [repeat constructor| |constructor|constructor]. constructor; [|constructor]. split; [by_deciding|].
  assert (Hz : forall k, digest k (repeat 0 k)) by (intros k; split; [apply Forall_forall; intros x Hx%list_elem_of_In%repeat_spec; subst; done|apply repeat_length]).
  split; [apply (Hz 16%nat)|]. split; [apply (Hz 32%nat)|]. split; [|done]. split; [done|]. split; [apply (Hz 16%nat)|]. split; [apply sha256_digest|apply hmac_digest].
Qed.

Lemma scram_accepts_only_proofs_witness :
  let s := mk_stream (client_sends (Some (repeat 9 32)) (repeat 1 18) true Required (lit "ann") (lit "abc") (lit "p") (repeat 0 16) 1 ++ []) [] in
  exists secrets, store_get one_role (lit "ann") ≫= scram = Some secrets /\
    proves (Some (repeat 9 32)) (Some (repeat 1 18)) true (input s) [] secrets /\ Some ReadWrite = role <$> store_get one_role (lit "ann").
Proof.
  intros s.
  apply (scram_accepts_only_proofs (Some (repeat 9 32)) (Some (repeat 1 18)) one_role one_role (lit "ann") true s
    (mk_stream [] ([] ++ server_sends (Some (repeat 9 32)) (repeat 1 18) true Required (lit "ann") (lit "abc") (lit "p") (repeat 0 16) 1)) (Some ReadWrite)).
  - subst s. cbn [input]. rewrite app_nil_r. apply client_sends_bytes; [by_deciding|repeat constructor; vm_compute; done].
  - apply one_role_ok.
  - subst s. cbn [opt_ok]. by_deciding.
  - subst s. apply (honest_client (Some (repeat 9 32)) (repeat 1 18) one_role one_role (lit "ann") true Required (lit "ann") (lit "abc") (lit "p") (repeat 0 16) 1);
      [split; [by_deciding|reflexivity]|reflexivity|reflexivity|reflexivity|eexists; reflexivity|by_deciding|by_deciding|repeat constructor; vm_compute; done|vm_compute; reflexivity|vm_compute; reflexivity].
Defined.
