(* ===== verification/Login.v ===== *)
(** Who a connection may be: the authentication step of a PostgreSQL startup
    (handle_startup in crates/spg-server/src/pgwire.rs), from the rules of Hba
    and the table of Users through the exchanges of Scram. *)
From S2P Require Import Prelude Bytes Text SortedMap Base64 Sha256 Blake3 Users UsersOk Hba Scram ScramClient.
Open Scope Z_scope.

(** The user table as each step of a login reads it: other connections may
    change it in between. *)
Record readings : Type := mk_readings {
  at_start : UserStore;
  at_choice : UserStore;
  at_secrets : UserStore;
  at_role : UserStore;
}.

Definition localhost : IpAddr := V4 (127 * 2 ^ 24 + 1).

(** The rule that applies: [Err] when there are rules and none does. *)
Definition rule_for (hba : Hba) (peer_ip : option IpAddr) (params : list (list Z * list Z)) (user : list Z) (secure : bool) : result (option Method) () :=
  if is_empty hba then Ok None
  else
    let peer := default localhost peer_ip in
    let db := match find (fun p => bool_decide (p.1 = lit "database")) params with Some p => p.2 | None => user end in
    match method_for hba peer db user secure with Some m => Ok (Some m) | None => Err tt end.

(** [e.users().iter().any(|(_, r)| r.has_credentials())] *)
Definition any_credentials (s : UserStore) : bool := existsb (fun u => has_credentials u.2) (users s).

Definition wants_scram (hba_method : option Method) (s : UserStore) (user : list Z) : bool :=
  match hba_method with
  | Some Hba.Scram => true
  | Some Hba.Password => false
  | _ => match store_get s user with Some r => match scram r with Some _ => true | None => false end | None => false end
  end.

(** The role a connection gets, and whether its name was checked. *)
Definition authenticate (hba : Hba) (peer_ip : option IpAddr) (params : list (list Z * list Z)) (user : list Z) (secure : bool)
    (cert rng : option (list Z)) (r : readings) (s : stream) : option (stream * result (Role * bool) exit) :=
  let has_users := any_credentials (at_start r) in
  match rule_for hba peer_ip params user secure with
  | Err _ => Some (refuse (lit "28000") s)
  | Ok hba_method =>
    if bool_decide (hba_method = Some Reject) then Some (refuse (lit "28000") s)
    else
      let! (s, outcome) :=
        if bool_decide (hba_method = Some Trust) then
          Some (s, Ok (match store_get (at_choice r) user with Some rec => role rec | None => Admin end))
        else if has_users || match hba_method with Some _ => true | None => false end then
          if wants_scram hba_method (at_choice r) user then
            let '(s, o) := scram_auth cert rng (at_secrets r) (at_role r) user secure s in
            Some (s, match o with Ok (Some role) => Ok role | Ok None => Err Closed | Err e => Err e end)
          else cleartext_auth (at_secrets r) user s
        else Some (s, Ok Admin) in
      match outcome with
      | Err e => Some (s, Err e)
      | Ok role =>
        let checked := has_users && match user with [] => false | _ => true end in
        Some ((do! _ := send_msg 82 (be_bytes 4 0) in io_ret (role, checked)) s)
      end
  end.

(** ** What a login proves *)

(** The password of the input, in the clear, with or without a final zero. *)
Definition cleartext_proves (r : readings) (user i rest : list Z) (ro : Role) : Prop :=
  exists body pwd, framed body i rest /\ (body = pwd \/ body = pwd ++ [0]) /\ verify (at_secrets r) user pwd = Some (Some ro).

Definition scram_proves (cert rng : option (list Z)) (secure : bool) (r : readings) (user i rest : list Z) (ro : Role) : Prop :=
  exists secrets, store_get (at_secrets r) user ≫= scram = Some secrets /\ proves cert rng secure i rest secrets /\
    role <$> store_get (at_role r) user = Some ro.

Definition credential_proves (want_scram : bool) cert rng secure r user i rest ro : Prop :=
  if want_scram then scram_proves cert rng secure r user i rest ro else cleartext_proves r user i rest ro.

Lemma read_password_ok s s' pwd : read_password_message s = (s', Ok pwd) -> exists body, framed body (input s) (input s') /\ (body = pwd \/ body = pwd ++ [0]).
Proof.
  unfold read_password_message. intros (s1 & [tag body] & H1 & H)%io_bind_ok. destruct (tag =? 112) eqn:Et; [|done]. prop_bools. subst tag. cbn [negb] in H.
  apply read_message_ok in H1 as [Hf _]. exists body. unfold from_utf8 in H. destruct (utf8_valid _) in H; [|done]. injection H as <- <-. split; [done|].
  destruct (rev body) as [|[| |] l] eqn:E; try (by left). right. by rewrite <- (rev_involutive body), E.
Qed.

Lemma cleartext_ok users user s s' ro : cleartext_auth users user s = Some (s', Ok ro) ->
  exists body pwd, framed body (input s) (input s') /\ (body = pwd \/ body = pwd ++ [0]) /\ verify users user pwd = Some (Some ro).
Proof.
  unfold cleartext_auth. destruct (io_bind _ _ s) as [s1 [pwd|e]] eqn:E; [|done]. apply io_bind_ok in E as (s0 & [] & H0 & H1).
  apply send_msg_ok in H0 as (_ & Hi & _). apply read_password_ok in H1 as (body & Hf & Hb). rewrite Hi in Hf.
  destruct (verify users user pwd) as [[r|]|] eqn:Ev; cbn [mbind option_bind]; [|done..]. intros [= <- <-]. by exists body, pwd.
Qed.

Lemma authenticate_ok hba peer params user secure cert rng r s s' ro checked : is_bytes (input s) -> store_ok (at_secrets r) -> opt_ok is_bytes cert ->
  authenticate hba peer params user secure cert rng r s = Some (s', Ok (ro, checked)) ->
  checked = any_credentials (at_start r) && match user with [] => false | _ => true end /\
  match rule_for hba peer params user secure with
  | Err _ | Ok (Some Reject) => False
  | Ok (Some Trust) => ro = match store_get (at_choice r) user with Some rec => role rec | None => Admin end /\ input s' = input s
  | Ok (Some Hba.Scram) => scram_proves cert rng secure r user (input s) (input s') ro
  | Ok (Some Hba.Password) => cleartext_proves r user (input s) (input s') ro
  | Ok None => if any_credentials (at_start r)
      then credential_proves (wants_scram None (at_choice r) user) cert rng secure r user (input s) (input s') ro
      else ro = Admin /\ input s' = input s
  end.
Proof.
  intros Hb Hst Hc. unfold authenticate. cbv zeta. destruct (rule_for _ _ _ _ _) as [m|]; [|done].
  destruct (bool_decide (m = Some Reject)) eqn:Er; [done|]. apply bool_decide_eq_false in Er.
  assert (Hfin : forall s1 o, match o with Err e => Some (s1, Err e) | Ok role =>
      Some ((do! _ := send_msg 82 (be_bytes 4 0) in io_ret (role, any_credentials (at_start r) && match user with [] => false | _ => true end)) s1) end = Some (s', Ok (ro, checked)) ->
      o = Ok ro /\ checked = any_credentials (at_start r) && match user with [] => false | _ => true end /\ input s' = input s1).
  { intros s1 [a|e] H; [|done]. apply (inj Some) in H. apply io_bind_ok in H as (s2 & [] & H1 & [= <- <- <-]). apply send_msg_ok in H1 as (_ & Hi & _). done. }
  destruct (bool_decide (m = Some Trust)) eqn:Et.
  { apply bool_decide_eq_true in Et as ->. cbn [mbind option_bind]. intros H. apply (Hfin s (Ok _)) in H as (E & Hch & Hi). injection E as <-. done. }
  apply bool_decide_eq_false in Et.
  assert (Hcred : forall want, (let! (s, outcome) := if want : bool then let '(s, o) := scram_auth cert rng (at_secrets r) (at_role r) user secure s in
      Some (s, match o with Ok (Some role) => Ok role | Ok None => Err Closed | Err e => Err e end) else cleartext_auth (at_secrets r) user s in
      match outcome with Err e => Some (s, Err e) | Ok role => Some ((do! _ := send_msg 82 (be_bytes 4 0) in
        io_ret (role, any_credentials (at_start r) && match user with [] => false | _ => true end)) s) end) = Some (s', Ok (ro, checked)) ->
      checked = any_credentials (at_start r) && match user with [] => false | _ => true end /\ credential_proves want cert rng secure r user (input s) (input s') ro).
  { intros want. destruct want.
    - destruct (scram_auth _ _ _ _ _ _ s) as [s1 o] eqn:Es. cbn [mbind option_bind]. intros (E & Hch & Hi)%Hfin. split; [done|].
      destruct o as [[ro'|]|]; [|done..]. injection E as ->. apply scram_auth_ok in Es as (secrets & H1 & H2 & H3); [|done..].
      exists secrets. rewrite Hi. done.
    - destruct (cleartext_auth _ _ s) as [[s1 o]|] eqn:Ec; cbn [mbind option_bind]; [|done]. intros (E & Hch & Hi)%Hfin. split; [done|].
      subst o. apply cleartext_ok in Ec. cbn. rewrite Hi. exact Ec. }
  destruct m as [m|].
  - rewrite orb_true_r. intros H. destruct m; [done|done|by apply (Hcred true) in H|by apply (Hcred false) in H].
  - rewrite orb_false_r. destruct (any_credentials (at_start r)) eqn:Ea.
    + intros H. by apply (Hcred (wants_scram None (at_choice r) user)) in H.
    + cbn [mbind option_bind]. intros H. apply (Hfin s (Ok _)) in H as (E & Hch & Hi). injection E as <-. done.
Qed.

(** ** Properties *)

(** C38: a login proves a credential unless the operator said otherwise.
    Whatever the rules, the peer, the bytes it sends and the changes other
    connections make to the user table meanwhile: a connection that gets a
    role was refused by no rule and, under a [scram-sha-256] rule, completed
    the exchange of SCRAM for the role it got; under a [password] rule, sent a
    password that verifies for it; without rules but with a role that has
    credentials, did one or the other; and only under a [trust] rule, or
    without rules and without any credential, sent nothing.  Its name counts
    as checked exactly when some role had credentials. *)
Theorem login_proves_credential hba peer params user secure cert rng r s s' ro checked
    (sent : is_bytes (input s)) (table : store_ok (at_secrets r)) (certified : opt_ok is_bytes cert)
    (admitted : authenticate hba peer params user secure cert rng r s = Some (s', Ok (ro, checked))) :
  checked = any_credentials (at_start r) && match user with [] => false | _ => true end /\
  match rule_for hba peer params user secure with
  | Err _ | Ok (Some Reject) => False
  | Ok (Some Trust) => ro = match store_get (at_choice r) user with Some rec => role rec | None => Admin end /\ input s' = input s
  | Ok (Some Hba.Scram) => scram_proves cert rng secure r user (input s) (input s') ro
  | Ok (Some Hba.Password) => cleartext_proves r user (input s) (input s') ro
  | Ok None => if any_credentials (at_start r)
      then credential_proves (wants_scram None (at_choice r) user) cert rng secure r user (input s) (input s') ro
      else ro = Admin /\ input s' = input s
  end.
Proof. by eapply authenticate_ok. Qed.

(** A table of one role, "ann", whose password is "p". *)
Definition zeros (n : nat) (_ : list Z) : list Z := repeat 0 n.
Definition ann : UserStore :=
  match create (zeros 20) (zeros 32) store_new (lit "ann") (lit "p") ReadWrite (repeat 0 16) with Some (Ok s) => s | _ => store_new end.

Lemma zeros_ok n m : digest n (zeros n m).
Proof. split; [|apply repeat_length]. apply Forall_forall. intros x Hx%list_elem_of_In%repeat_spec. subst. done. Qed.

Lemma ann_ok : store_ok ann.
Proof.
  unfold ann. destruct (create _ _ _ _ _ _ _) as [[s|]|] eqn:E; [|apply store_new_ok..].
  eapply create_ok, E; [apply zeros_ok|apply zeros_ok|apply store_new_ok|by_deciding|apply (zeros_ok 16 [])].
Qed.

Definition all_ann : readings := mk_readings ann ann ann ann.

(** The rules of a text that parses. *)
Definition rules (text : string) : Hba := match parse (lit text) with Ok h => h | Err _ => [] end.

Lemma login_proves_credential_witness :
  let s := mk_stream ([112; 0; 0; 0; 6] ++ lit "p" ++ [0]) [] in
  let s' := mk_stream [] [Message 82 (be_bytes 4 3); Message 82 (be_bytes 4 0)] in
  true = any_credentials (at_start all_ann) && true /\
  cleartext_proves all_ann (lit "ann") (input s) (input s') ReadWrite.
Proof.
  intros s s'. apply (login_proves_credential (rules "host all all all password") None [] (lit "ann") false None None all_ann s s' ReadWrite true).
  - subst s s'. by_deciding.
  - apply ann_ok.
  - exact I.
  - vm_compute. reflexivity.
Defined.

(** Under a [trust] rule a name no role has is the administrator, and counts
    as checked when any role has credentials. *)
Lemma trusted_stranger_is_admin :
  authenticate (rules "host all all all trust") None [] (lit "nobody") false None None all_ann (mk_stream [] []) =
  Some (mk_stream [] [Message 82 (be_bytes 4 0)], Ok (Admin, true)).
Proof. vm_compute. reflexivity. Qed.

(** NOLOGIN is not consulted: the password and the SCRAM secrets of the role
    keep working. *)
Lemma nologin_keeps_credentials s name pw i su : store_ok s ->
  verify (set_attributes s name false i su) name pw = verify s name pw /\
  store_get (set_attributes s name false i su) name ≫= scram = store_get s name ≫= scram.
Proof.
  intros Hs. pose proof (so_users _ Hs) as Hso. unfold verify, store_get, set_attributes, update_user.
  destruct (sm_lookup name (users s)) as [r|] eqn:E; cbn [users]; [|by rewrite E]. rewrite sm_lookup_insert by done. by rewrite (proj2 (kcmp_eq name name) eq_refl).
Qed.
