(* ===== verification/Bloom.v ===== *)
(** The Bloom filter of cold segments (crates/spg-storage/src/bloom.rs): the
    sizing from a target false positive rate, in [f64] arithmetic, the double
    hashing, insertion, probing and the file form. *)
From S2P Require Import Prelude Bytes Float64 Crc.
Open Scope Z_scope.

Definition BLOOM_MAGIC : Z := 0xB100F11E.
Definition FNV_OFFSET_BASIS : Z := 0xcbf29ce484222325.
Definition FNV_PRIME : Z := 0x00000001000001b3.
Definition NUM_HASHES_MAX : Z := 32.

(** What the texts of [BadShape] distinguish. *)
Inductive BadShapeCause : Type :=
| NotMultipleOf64 (num_bits : Z)
| WrongWordCount (got : nat) (expected : Z)
| WrongLength (got : nat) (expected : Z).

Inductive BloomError : Type :=
| TooShort (got need : nat)
| BadMagic (got : Z)
| BadShape (cause : BadShapeCause)
| BadCrc (expected got : Z)
| BadNumHashes (got : Z).

Record BloomFilter : Type := mk_bloom { bits : list Z; num_bits : Z; num_hashes : Z }.

(** ** Hashing *)

Definition fnv1a_64 (bytes : list Z) : Z :=
  fold_left (fun h b => let h := Z.lxor h b in wrapping_mul 64 h FNV_PRIME) bytes FNV_OFFSET_BASIS.

Definition splitmix64 (x : Z) : Z :=
  let x := wrapping_add 64 x 0x9e3779b97f4a7c15 in
  let x := wrapping_mul 64 (Z.lxor x (Z.shiftr x 30)) 0xbf58476d1ce4e5b9 in
  let x := wrapping_mul 64 (Z.lxor x (Z.shiftr x 27)) 0x94d049bb133111eb in
  Z.lxor x (Z.shiftr x 31).

Definition derive_hash_pair (key : list Z) : Z * Z :=
  let h1 := fnv1a_64 key in
  let h2 := splitmix64 h1 in
  let h2 := if h2 =? 0 then 0xdeadbeefdeadbeef else h2 in
  (h1, h2).

Definition mix (h1 h2 i num_bits : Z) : Z :=
  let combined := wrapping_add 64 h1 (wrapping_mul 64 i h2) in
  combined mod num_bits.

(** ** Sizing *)

(** [core::f64::consts::LN_2] *)
Definition LN_2 : f64 := from_bits 0x3fe62e42fefa39ef.

Definition libm_ln (x : f64) : f64 :=
  let bits := Float64.to_bits x in
  let exponent_raw := Z.land (Z.shiftr bits 52) 0x7ff in
  let exponent := exponent_raw - 1023 in
  let mantissa_bits := Z.lor (Z.land bits 0x000fffffffffffff) 0x3ff0000000000000 in
  let mantissa := from_bits mantissa_bits in
  let n := f_of_Z in
  let y := f_sub mantissa (n 1) in
  let t := f_div y (f_add mantissa (n 1)) in
  let t2 := f_mul t t in
  let ln_mantissa :=
    f_mul (n 2)
      (f_add (f_add (f_add t
        (f_div (f_mul t2 t) (n 3)))
        (f_div (f_mul (f_mul t2 t2) t) (n 5)))
        (f_div (f_mul (f_mul (f_mul t2 t2) t2) t) (n 7))) in
  f_add (f_mul (n exponent) LN_2) ln_mantissa.

Definition f64_ceil_to_u64 (x : f64) : Z :=
  let truncated := f_as_u64 x in
  if f_lt (f_of_Z truncated) x then wrapping_add 64 truncated 1 else truncated.

(** [None]: one of the two assertions fails. *)
Definition with_target_fp_rate (num_items : nat) (fp_rate : f64) : option BloomFilter :=
  if negb (0 <? num_items)%nat then None
  else if negb (f_lt (f_of_Z 0) fp_rate && f_lt fp_rate (f_of_Z 1)) then None
  else
    let n := f_of_Z (Z.of_nat num_items) in
    let ln_2 := libm_ln (f_of_Z 2) in
    let m_raw := f_div (f_neg (f_mul n (libm_ln fp_rate))) (f_mul ln_2 ln_2) in
    let m_ceil_bits := Z.max (f64_ceil_to_u64 m_raw) 64 in
    let num_words := (m_ceil_bits + 63) / 64 in
    let num_bits := wrapping_mul 64 num_words 64 in
    let k_raw := f_mul (f_div (f_of_Z num_bits) n) ln_2 in
    let num_hashes := Z.max 1 (Z.min (wrap 32 (f64_ceil_to_u64 k_raw)) NUM_HASHES_MAX) in
    Some (mk_bloom (repeat 0 (Z.to_nat num_words)) num_bits num_hashes).

(** ** The filter *)

Definition from_params (num_bits num_hashes : Z) (bits : list Z) : result BloomFilter BloomError :=
  if (num_bits =? 0) || negb (num_bits mod 64 =? 0) then Err (BadShape (NotMultipleOf64 num_bits))
  else if (num_hashes =? 0) || (NUM_HASHES_MAX <? num_hashes) then Err (BadNumHashes num_hashes)
  else
    let expected_words := num_bits / 64 in
    if negb (Z.of_nat (length bits) =? expected_words)
    then Err (BadShape (WrongWordCount (length bits) expected_words))
    else Ok (mk_bloom bits num_bits num_hashes).

(** [for i in 0..self.num_hashes]; [None]: a word index out of range. *)
Fixpoint set_bits (h1 h2 num_bits : Z) (n : nat) (i : Z) (bits : list Z) : option (list Z) :=
  match n with
  | O => Some bits
  | S n =>
    let bit_idx := mix h1 h2 i num_bits in
    let word_idx := Z.to_nat (bit_idx / 64) in
    let bit_in_word := bit_idx mod 64 in
    let! w := bits !! word_idx in
    let! bits := vec_set word_idx (Z.lor w (Z.shiftl 1 bit_in_word)) bits in
    set_bits h1 h2 num_bits n (i + 1) bits
  end.

Definition insert (key : list Z) (f : BloomFilter) : option BloomFilter :=
  let '(h1, h2) := derive_hash_pair key in
  let! bits := set_bits h1 h2 (num_bits f) (Z.to_nat (num_hashes f)) 0 (bits f) in
  Some (mk_bloom bits (num_bits f) (num_hashes f)).

Fixpoint probe (h1 h2 num_bits : Z) (n : nat) (i : Z) (bits : list Z) : option bool :=
  match n with
  | O => Some true
  | S n =>
    let bit_idx := mix h1 h2 i num_bits in
    let word_idx := Z.to_nat (bit_idx / 64) in
    let bit_in_word := bit_idx mod 64 in
    let! w := bits !! word_idx in
    if Z.land w (Z.shiftl 1 bit_in_word) =? 0 then Some false
    else probe h1 h2 num_bits n (i + 1) bits
  end.

Definition contains (key : list Z) (f : BloomFilter) : option bool :=
  let '(h1, h2) := derive_hash_pair key in
  probe h1 h2 (num_bits f) (Z.to_nat (num_hashes f)) 0 (bits f).

Definition encoded_len (f : BloomFilter) : nat := (20 + length (bits f) * 8)%nat.

(** ** The file form *)

Definition to_bytes (f : BloomFilter) : list Z :=
  let out := le_bytes 4 BLOOM_MAGIC in
  let body_start := length out in
  let out := out ++ le_bytes 8 (num_bits f) in
  let out := out ++ le_bytes 4 (num_hashes f) in
  let crc_offset := length out in
  let out := out ++ le_bytes 4 0 in
  let out := fold_left (fun out word => out ++ le_bytes 8 word) (bits f) out in
  let body_crc :=
    let to_hash := slice body_start (crc_offset - body_start) out in
    let to_hash := to_hash ++ drop (crc_offset + 4) out in
    crc32 to_hash in
  splice crc_offset (le_bytes 4 body_crc) out.

Definition HEADER_LEN : nat := 20.

(** [usize] has 64 bits, so no [usize] computation here wraps: a body of
    [num_bits / 8 < 2^61] bytes. *)
Definition from_bytes (input : list Z) : result BloomFilter BloomError :=
  if (length input <? HEADER_LEN)%nat then Err (TooShort (length input) HEADER_LEN)
  else
    let magic := le_val (slice 0 4 input) in
    if negb (magic =? BLOOM_MAGIC) then Err (BadMagic magic)
    else
      let num_bits := le_val (slice 4 8 input) in
      let num_hashes := le_val (slice 12 4 input) in
      let crc_stored := le_val (slice 16 4 input) in
      if (num_bits =? 0) || negb (num_bits mod 64 =? 0) then Err (BadShape (NotMultipleOf64 num_bits))
      else
        let expected_words := num_bits / 64 in
        let expected_body_bytes := expected_words * 8 in
        if negb (Z.of_nat (length input) =? Z.of_nat HEADER_LEN + expected_body_bytes)
        then Err (BadShape (WrongLength (length input) (Z.of_nat HEADER_LEN + expected_body_bytes)))
        else
          let crc_computed :=
            let to_hash := slice 4 12 input in
            let to_hash := to_hash ++ drop HEADER_LEN input in
            crc32 to_hash in
          if negb (crc_computed =? crc_stored) then Err (BadCrc crc_stored crc_computed)
          else
            let bits := map (fun w => le_val (slice (HEADER_LEN + w * 8) 8 input)) (seq 0 (Z.to_nat expected_words)) in
            from_params num_bits num_hashes bits.

(** ** Well-formed filters *)

Record filter_ok (f : BloomFilter) : Prop := {
  ok_words : num_bits f = 64 * Z.of_nat (length (bits f));
  ok_some : (0 < length (bits f))%nat;
  ok_hashes : 1 <= num_hashes f <= NUM_HASHES_MAX;
  ok_bits : Forall u64 (bits f)
}.

(** An empty filter of a given size. *)
Definition empty (words : nat) (hashes : Z) : BloomFilter := mk_bloom (repeat 0 words) (64 * Z.of_nat words) hashes.

Lemma empty_ok words hashes : (0 < words)%nat -> 1 <= hashes <= NUM_HASHES_MAX -> filter_ok (empty words hashes).
Proof.
  intros Hw Hh. split; cbn [bits num_bits num_hashes empty]; rewrite ?repeat_length; [lia..|].
  apply Forall_forall. intros x Hx%list_elem_of_In%repeat_spec. subst. by apply in_wb_spec.
Qed.

(** Sizing: whatever the rate, the filter asked for is empty and well formed,
    with at least one word and between one and 32 hashes; its bit count is exact
    as long as it is a [u64]. *)
Lemma with_target_fp_rate_spec n fp f : with_target_fp_rate n fp = Some f ->
  Z.of_nat (length (bits f)) * 64 < 2 ^ 64 ->
  exists words hashes, (0 < words)%nat /\ 1 <= hashes <= NUM_HASHES_MAX /\ f = empty words hashes.
Proof.
  unfold with_target_fp_rate. destruct (negb (0 <? n)%nat); [done|]. destruct (negb _); [done|]. cbv zeta.
  set (m := Z.max _ 64). set (k := Z.max 1 _). intros [= <-]. cbn [bits]. rewrite repeat_length. intros Hfit.
  assert (1 <= (m + 63) / 64) by (apply Z.div_le_lower_bound; lia).
  exists (Z.to_nat ((m + 63) / 64)), k. split; [lia|]. split; [unfold k, NUM_HASHES_MAX; lia|].
  unfold empty. f_equal. unfold wrapping_mul. rewrite wrap_id by (split; lia). lia.
Qed.

(** [mix] picks a bit of the filter. *)
Lemma mix_range h1 h2 i n : 0 < n -> 0 <= mix h1 h2 i n < n.
Proof. intros H. by apply Z.mod_pos_bound. Qed.

Lemma word_in_range h1 h2 i words :
  (0 < words)%nat -> (Z.to_nat (mix h1 h2 i (64 * Z.of_nat words) / 64) < words)%nat.
Proof. intros H. pose proof (mix_range h1 h2 i (64 * Z.of_nat words) ltac:(lia)). zdm. Qed.

(** Bit [k] of the filter. *)
Definition bit_set (bs : list Z) (k : Z) : Prop :=
  exists w, bs !! Z.to_nat (k / 64) = Some w /\ Z.testbit w (k mod 64) = true.

Lemma land_bit w k : 0 <= k -> (Z.land w (Z.shiftl 1 k) =? 0) = negb (Z.testbit w k).
Proof.
  intros Hk. destruct (Z.testbit w k) eqn:E; cbn [negb].
  - apply Z.eqb_neq. intros H. apply (f_equal (fun z => Z.testbit z k)) in H.
    rewrite Z.land_spec, E, Z.shiftl_spec, Z.sub_diag, Z.bits_0 in H by done. done.
  - apply Z.eqb_eq. apply Z.bits_inj'. intros j Hj. rewrite Z.land_spec, Z.shiftl_spec, Z.bits_0 by done.
    destruct (decide (j = k)) as [->|Hne]; [by rewrite E|].
    destruct (decide (j < k)); [by rewrite (Z.testbit_neg_r 1), andb_false_r by lia|].
    replace (Z.testbit 1 (j - k)) with false; [apply andb_false_r|]. symmetry. apply (in_w_high 1); [by split|lia..].
Qed.

Lemma lor_bit w k : 0 <= k -> Z.testbit (Z.lor w (Z.shiftl 1 k)) k = true.
Proof. intros Hk. rewrite Z.lor_spec, Z.shiftl_spec, Z.sub_diag by done. apply orb_true_r. Qed.

Lemma lor_bit_u64 w k : u64 w -> 0 <= k < 64 -> u64 (Z.lor w (Z.shiftl 1 k)).
Proof.
  intros Hw Hk. apply in_w_lor; [done|done|]. rewrite Z.shiftl_mul_pow2, Z.mul_1_l by lia.
  split; [by apply Z.pow_nonneg|]. apply Z.pow_lt_mono_r; lia.
Qed.

(** Setting one bit sets exactly that bit. *)
Lemma bit_set_insert bs k w j :
  0 <= k -> 0 <= j -> bs !! Z.to_nat (k / 64) = Some w ->
  bit_set (<[Z.to_nat (k / 64) := Z.lor w (Z.shiftl 1 (k mod 64))]> bs) j <-> bit_set bs j \/ j = k.
Proof.
  intros Hk Hj Hw. assert (Hm : 0 <= k mod 64 < 64) by (apply Z.mod_pos_bound; lia).
  assert (Hmj : 0 <= j mod 64 < 64) by (apply Z.mod_pos_bound; lia).
  unfold bit_set. destruct (decide (j / 64 = k / 64)) as [E|E].
  - rewrite E, list_lookup_insert_eq by (by eapply lookup_lt_Some). rewrite Hw. split.
    + intros (? & [= <-] & Ht). rewrite Z.lor_spec, orb_true_iff in Ht. destruct Ht as [Ht|Ht]; [left; eauto|right].
      rewrite Z.shiftl_spec in Ht by lia. destruct (decide (j mod 64 = k mod 64)) as [Em|Em].
      { rewrite (Z.div_mod j 64), (Z.div_mod k 64), E, Em by done. done. }
      exfalso. destruct (decide (j mod 64 < k mod 64)); [by rewrite Z.testbit_neg_r in Ht by lia|].
      rewrite (in_w_high 1) in Ht; [done|by split|lia..].
    + intros [(? & [= <-] & Ht)| ->]; eexists; (split; [done|]); [|apply lor_bit; lia]. by rewrite Z.lor_spec, Ht.
  - rewrite list_lookup_insert_ne by (intros H; apply E; assert (0 <= j / 64) by (apply Z.div_pos; lia);
      assert (0 <= k / 64) by (apply Z.div_pos; lia); lia).
    split; [by left|]. intros [H| ->]; [done|done].
Qed.

Lemma set_bits_spec h1 h2 words n i bs :
  (0 < words)%nat -> length bs = words -> Forall u64 bs ->
  exists bs', set_bits h1 h2 (64 * Z.of_nat words) n i bs = Some bs' /\ length bs' = words /\ Forall u64 bs' /\
    forall k, 0 <= k -> bit_set bs' k <->
      bit_set bs k \/ exists j, i <= j < i + Z.of_nat n /\ k = mix h1 h2 j (64 * Z.of_nat words).
Proof.
  intros Hw. revert i bs. induction n as [|n IH]; intros i bs Hl Hu; cbn [set_bits].
  { exists bs. split_and!; [done..|]. intros k Hk. split; [by left|]. intros [H|(j & ? & _)]; [done|lia]. }
  pose proof (word_in_range h1 h2 i words Hw) as Hi. pose proof (mix_range h1 h2 i (64 * Z.of_nat words) ltac:(lia)) as Hr.
  set (m := mix h1 h2 i (64 * Z.of_nat words)) in *.
  destruct (bs !! Z.to_nat (m / 64)) as [w|] eqn:E; [|apply lookup_ge_None in E; lia]. cbn [mbind option_bind].
  rewrite vec_set_insert by lia. cbn [mbind option_bind].
  destruct (IH (i + 1) (<[Z.to_nat (m / 64) := Z.lor w (Z.shiftl 1 (m mod 64))]> bs)) as (bs' & Eb & Hl' & Hu' & Hk').
  { by rewrite length_insert. }
  { apply Forall_insert; [done|]. apply lor_bit_u64; [by eapply Forall_lookup_1 in Hu|apply Z.mod_pos_bound; lia]. }
  exists bs'. split_and!; [done..|]. intros k Hk. rewrite Hk', bit_set_insert by (done || lia). split.
  - intros [[H| ->]|(j & Hj & ->)]; [by left|right; exists i; split; [lia|done]|right; exists j; split; [lia|done]].
  - intros [H|(j & Hj & ->)]; [by do 2 left|]. destruct (decide (j = i)) as [->|]; [left; by right|right; exists j; split; [lia|done]].
Qed.

Lemma probe_spec h1 h2 words n i bs :
  (0 < words)%nat -> length bs = words ->
  exists b, probe h1 h2 (64 * Z.of_nat words) n i bs = Some b /\
    (b = true <-> forall j, i <= j < i + Z.of_nat n -> bit_set bs (mix h1 h2 j (64 * Z.of_nat words))).
Proof.
  intros Hw Hl. revert i. induction n as [|n IH]; intros i; cbn [probe].
  { exists true. split; [done|]. split; [|done]. intros _ j Hj. lia. }
  pose proof (word_in_range h1 h2 i words Hw) as Hi. pose proof (mix_range h1 h2 i (64 * Z.of_nat words) ltac:(lia)) as Hr.
  destruct (bs !! Z.to_nat (mix h1 h2 i (64 * Z.of_nat words) / 64)) as [w|] eqn:E; [|apply lookup_ge_None in E; lia].
  cbn [mbind option_bind]. rewrite land_bit by (apply Z.mod_pos_bound; lia). destruct (Z.testbit w _) eqn:Et; cbn [negb].
  - destruct (IH (i + 1)) as (b & -> & Hb). exists b. split; [done|]. rewrite Hb. split; intros H j Hj.
    + destruct (decide (j = i)) as [->|]; [exists w; done|apply H; lia].
    + apply H. lia.
  - exists false. split; [done|]. split; [done|]. intros H. destruct (H i ltac:(lia)) as (w' & E' & Et'). congruence.
Qed.

(** ** No false negatives *)

Definition insert_all (keys : list (list Z)) (f : BloomFilter) : option BloomFilter :=
  foldl (fun f key => let! f := f in insert key f) (Some f) keys.

(** The bits a key stands for. *)
Definition key_bits (words : nat) (hashes : Z) (key : list Z) (k : Z) : Prop :=
  exists j, 0 <= j < hashes /\ k = mix (derive_hash_pair key).1 (derive_hash_pair key).2 j (64 * Z.of_nat words).

Lemma insert_spec key f :
  filter_ok f -> exists f', insert key f = Some f' /\ filter_ok f' /\ length (bits f') = length (bits f) /\ num_hashes f' = num_hashes f /\
    forall k, 0 <= k -> bit_set (bits f') k <-> bit_set (bits f) k \/ key_bits (length (bits f)) (num_hashes f) key k.
Proof.
  intros [Hn Hs Hh Hb]. unfold insert, key_bits. destruct (derive_hash_pair key) as [h1 h2]. rewrite Hn.
  destruct (set_bits_spec h1 h2 (length (bits f)) (Z.to_nat (num_hashes f)) 0 (bits f)) as (bs & -> & Hl & Hu & Hk); [done..|].
  cbn [mbind option_bind]. eexists. split; [done|]. cbn [bits num_hashes fst snd]. split_and!; [|done|done|].
  - by split; cbn [bits num_bits num_hashes]; rewrite ?Hl.
  - intros k Hk0. rewrite Hk by done. rewrite Z.add_0_l, Z2Nat.id by lia. done.
Qed.

Lemma filter_contains_spec key f :
  filter_ok f -> exists b, contains key f = Some b /\
    (b = true <-> forall k, key_bits (length (bits f)) (num_hashes f) key k -> bit_set (bits f) k).
Proof.
  intros [Hn Hs Hh Hb]. unfold contains, key_bits. destruct (derive_hash_pair key) as [h1 h2]. rewrite Hn.
  destruct (probe_spec h1 h2 (length (bits f)) (Z.to_nat (num_hashes f)) 0 (bits f)) as (b & -> & Hp); [done..|].
  exists b. split; [done|]. rewrite Hp, Z.add_0_l, Z2Nat.id by lia. cbn [fst snd]. naive_solver.
Qed.

Lemma key_bits_pos words hashes key k : (0 < words)%nat -> key_bits words hashes key k -> 0 <= k.
Proof. intros Hw (j & _ & ->). apply mix_range. lia. Qed.

(** The bits of a filter are those of the keys inserted. *)
Lemma insert_all_spec words hashes keys : (0 < words)%nat -> 1 <= hashes <= NUM_HASHES_MAX ->
  exists f, insert_all keys (empty words hashes) = Some f /\ filter_ok f /\ length (bits f) = words /\ num_hashes f = hashes /\
    forall k, 0 <= k -> bit_set (bits f) k <-> exists key', key' ∈ keys /\ key_bits words hashes key' k.
Proof.
  intros Hw Hh. unfold insert_all. induction keys as [|key keys IH] using rev_ind.
  - exists (empty words hashes). split_and!; [done|by apply empty_ok|cbn [bits empty]; apply repeat_length|done|].
    intros k Hk. split; [|by intros (key' & ?%elem_of_nil & _)]. intros (w & Hw0 & Ht). cbn [bits empty] in Hw0.
    apply list_elem_of_lookup_2, list_elem_of_In, repeat_spec in Hw0. subst. by rewrite Z.bits_0 in Ht.
  - destruct IH as (f & E & Hok & Hl & Hn & Hb). rewrite foldl_snoc, E. cbn [mbind option_bind].
    destruct (insert_spec key f Hok) as (f' & E' & Hok' & Hl' & Hn' & Hb'). exists f'. split_and!; [done|done|congruence|congruence|].
    intros k Hk. rewrite Hb', Hb, Hl, Hn by done. setoid_rewrite elem_of_app. setoid_rewrite list_elem_of_singleton. naive_solver.
Qed.

(** Every inserted key is reported present. *)
Lemma insert_all_contains words hashes keys f key : (0 < words)%nat -> 1 <= hashes <= NUM_HASHES_MAX ->
  insert_all keys (empty words hashes) = Some f -> key ∈ keys -> contains key f = Some true.
Proof.
  intros Hw Hh E Hkey. destruct (insert_all_spec words hashes keys Hw Hh) as (f' & E' & Hok & Hl & Hn & Hb).
  rewrite E in E'. injection E' as <-. destruct (filter_contains_spec key f Hok) as (b & -> & Hc). f_equal. apply Hc.
  rewrite Hl, Hn. intros k Hk. apply Hb; [by eapply key_bits_pos|eauto].
Qed.

(** C26: a filter never denies a key it holds: for any number of items and rate
    the assertions admit, sizing answers an empty filter; after any sequence of
    insertions into it, none of which indexes out of range, every inserted key
    is reported present, and every probe answers, [true] exactly when all the
    bits of the probed key were set by some inserted key. *)
Theorem no_false_negatives n fp keys :
  (0 < n)%nat -> f_lt (f_of_Z 0) fp = true -> f_lt fp (f_of_Z 1) = true ->
  exists f0, with_target_fp_rate n fp = Some f0 /\ (Z.of_nat (length (bits f0)) * 64 < 2 ^ 64 ->
  exists f, insert_all keys f0 = Some f /\ filter_ok f /\
    (forall key, key ∈ keys -> contains key f = Some true) /\
    forall key, exists b, contains key f = Some b /\
      (b = true <-> forall k, key_bits (length (bits f0)) (num_hashes f0) key k ->
                      exists key', key' ∈ keys /\ key_bits (length (bits f0)) (num_hashes f0) key' k)).
Proof.
  intros Hn H0 H1. destruct (with_target_fp_rate n fp) as [f0|] eqn:E.
  2:{ unfold with_target_fp_rate in E. apply Nat.ltb_lt in Hn. by rewrite Hn, H0, H1 in E. }
  exists f0. split; [done|]. intros Hfit. destruct (with_target_fp_rate_spec n fp f0 E Hfit) as (words & hashes & Hw & Hh & ->).
  destruct (insert_all_spec words hashes keys Hw Hh) as (f & Ef & Hok & Hl & Hnh & Hb). exists f.
  split; [done|]. split; [done|]. split; [intros key; by apply (insert_all_contains words hashes keys)|].
  replace (length (bits (empty words hashes))) with words by (symmetry; apply repeat_length).
  intros key. destruct (filter_contains_spec key f Hok) as (b & -> & Hc). exists b. split; [done|]. rewrite Hc, Hl, Hnh.
  split; intros H k Hk; [apply Hb|apply Hb]; eauto using key_bits_pos.
Qed.

Lemma no_false_negatives_witness :
  exists f0, with_target_fp_rate 2 (from_bits 0x3f847ae147ae147b) = Some f0 /\ length (bits f0) = 1%nat /\
  exists f, insert_all [[1; 2]; [3]] f0 = Some f /\ contains [1; 2] f = Some true.
Proof.
  destruct (no_false_negatives 2 (from_bits 0x3f847ae147ae147b) [[1; 2]; [3]]) as (f0 & E & H); [lia|by vm_compute..|].
  exists f0. split; [done|]. assert (Hl : length (bits f0) = 1%nat) by (vm_compute in E; by injection E as <-).
  split; [done|]. rewrite Hl in H. destruct (H eq_refl) as (f & Ef & _ & Hc & _). exists f. split; [done|]. apply Hc. by left.
Defined.

(** ** The file form reads back *)

Definition body (f : BloomFilter) : list Z := concat (map (le_bytes 8) (bits f)).

Definition hashed (f : BloomFilter) : list Z := le_bytes 8 (num_bits f) ++ le_bytes 4 (num_hashes f) ++ body f.

Lemma fold_words ws out : fold_left (fun out word => out ++ le_bytes 8 word) ws out = out ++ concat (map (le_bytes 8) ws).
Proof.
  revert out. induction ws as [|w ws IH]; intros out; cbn [fold_left map concat]; [by rewrite app_nil_r|]. by rewrite IH, <- app_assoc.
Qed.

Lemma to_bytes_parts f :
  to_bytes f = le_bytes 4 BLOOM_MAGIC ++ le_bytes 8 (num_bits f) ++ le_bytes 4 (num_hashes f) ++ le_bytes 4 (crc32 (hashed f)) ++ body f.
Proof.
  unfold to_bytes. cbv zeta. rewrite fold_words. fold (body f). rewrite !length_app, !length_le_bytes.
  cbn [Nat.add Nat.sub]. rewrite <- !app_assoc.
  rewrite (slice_app_skip (le_bytes 4 BLOOM_MAGIC)) by by rewrite length_le_bytes.
  rewrite (app_assoc (le_bytes 8 _)), take_app_ge by (rewrite !length_app, !length_le_bytes; lia).
  rewrite length_app, !length_le_bytes. cbn [Nat.add Nat.sub]. rewrite take_0, app_nil_r.
  replace (drop 20 _) with (body f); cycle 1.
  { rewrite (app_assoc _ (le_bytes 4 0)), (app_assoc (le_bytes 4 BLOOM_MAGIC)).
    rewrite drop_app_length'; [done|]. by rewrite !length_app, !length_le_bytes. }
  unfold splice. rewrite length_le_bytes.
  rewrite (app_assoc (le_bytes 4 BLOOM_MAGIC)), take_app_length' by (by rewrite !length_app, !length_le_bytes).
  rewrite (app_assoc _ (le_bytes 4 0)), drop_app_length' by (by rewrite !length_app, !length_le_bytes).
  unfold hashed. by rewrite <- !app_assoc.
Qed.

Lemma length_words ws : length (concat (map (le_bytes 8) ws)) = (8 * length ws)%nat.
Proof. induction ws as [|w ws IH]; [done|]. cbn [map concat length]. rewrite length_app, length_le_bytes, IH. lia. Qed.

Lemma words_bytes ws : is_bytes (concat (map (le_bytes 8) ws)).
Proof. induction ws as [|w ws IH]; [constructor|]. cbn [map concat]. apply is_bytes_app. split; [apply le_bytes_bytes|done]. Qed.

(** Reading the words back. *)
Lemma read_words pre ws :
  Forall u64 ws ->
  map (fun w => le_val (slice (length pre + w * 8) 8 (pre ++ concat (map (le_bytes 8) ws)))) (seq 0 (length ws)) = ws.
Proof.
  intros H. revert pre. induction H as [|w ws Hw _ IH]; intros pre; [done|]. cbn [length seq map concat]. f_equal.
  - rewrite slice_app_exact by (rewrite ?length_le_bytes; lia). by apply le_val_le_bytes_id.
  - rewrite <- seq_shift, map_map. rewrite <- (IH (pre ++ le_bytes 8 w)) at 2. apply map_ext. intros i.
    rewrite <- app_assoc, length_app, length_le_bytes. do 2 f_equal. lia.
Qed.

(** What [from_bytes] accepts is a well-formed filter. *)
Lemma from_bytes_sound input f : is_bytes input -> from_bytes input = Ok f -> filter_ok f.
Proof.
  intros Hb. unfold from_bytes. destruct (length input <? HEADER_LEN)%nat; [done|]. destruct (negb (_ =? BLOOM_MAGIC)); [done|]. cbv zeta.
  destruct ((_ =? 0) || _) eqn:E1; [done|]. destruct (negb (Z.of_nat _ =? _)) eqn:E2; [done|]. destruct (negb (_ =? le_val (slice 16 4 input))); [done|].
  unfold from_params. rewrite E1. destruct ((le_val (slice 12 4 input) =? 0) || _) eqn:E3; [done|]. destruct (negb (Z.of_nat (length (map _ _)) =? _)) eqn:E4; [done|].
  intros [= <-]. apply orb_false_iff in E1 as (E1 & E1'). apply orb_false_iff in E3 as (E3 & E3'). prop_bools.
  pose proof (le_val_bound _ (is_bytes_slice 4 8 input Hb)). pose proof (le_val_bound _ (is_bytes_slice 12 4 input Hb)).
  constructor; cbn [bits num_bits num_hashes]; [| |lia|].
  - rewrite length_map, length_seq in E4 |- *. pose proof (Z.div_mod (le_val (slice 4 8 input)) 64 ltac:(lia)). lia.
  - rewrite length_map, length_seq in E4 |- *. pose proof (Z.div_mod (le_val (slice 4 8 input)) 64 ltac:(lia)). lia.
  - apply Forall_fmap, Forall_forall. intros w _. cbn. pose proof (le_val_bound _ (is_bytes_slice (HEADER_LEN + w * 8) 8 input Hb)) as Hv.
    eapply in_w_mono; [exact Hv|]. unfold slice. rewrite length_take. lia.
Qed.

(** [from_bytes] reads back what [to_bytes] wrote, and [encoded_len] is the
    length written. *)
Lemma bloom_roundtrip f :
  filter_ok f -> u64 (num_bits f) -> from_bytes (to_bytes f) = Ok f /\ length (to_bytes f) = encoded_len f.
Proof.
  intros [Hn Hs Hh Hb] Hn64. rewrite to_bytes_parts. set (crc := crc32 (hashed f)).
  assert (Hcrc : u32 crc).
  { apply crc32_u32. unfold hashed. apply is_bytes_app. split; [apply le_bytes_bytes|]. apply is_bytes_app. split; [apply le_bytes_bytes|apply words_bytes]. }
  set (l := le_bytes 4 BLOOM_MAGIC ++ le_bytes 8 (num_bits f) ++ le_bytes 4 (num_hashes f) ++ le_bytes 4 crc ++ body f).
  assert (Hl : length l = encoded_len f).
  { unfold l, body, encoded_len. rewrite !length_app, !length_le_bytes, length_words. lia. }
  split; [|done].
  assert (Hseg : forall p mid r off n, l = p ++ mid ++ r -> off = length p -> n = length mid -> slice off n l = mid)
    by (intros p mid r off n -> -> ->; by apply slice_app_exact).
  assert (H1 : slice 0 4 l = le_bytes 4 BLOOM_MAGIC) by (eapply (Hseg []); [reflexivity|done|by rewrite length_le_bytes]).
  assert (H2 : slice 4 8 l = le_bytes 8 (num_bits f)) by (eapply (Hseg (le_bytes 4 BLOOM_MAGIC)); [reflexivity|by rewrite length_le_bytes..]).
  assert (H3 : slice 12 4 l = le_bytes 4 (num_hashes f)).
  { eapply (Hseg (le_bytes 4 BLOOM_MAGIC ++ le_bytes 8 (num_bits f))); [by rewrite <- app_assoc|by rewrite ?length_app, ?length_le_bytes..]. }
  assert (H4 : slice 16 4 l = le_bytes 4 crc).
  { eapply (Hseg (le_bytes 4 BLOOM_MAGIC ++ le_bytes 8 (num_bits f) ++ le_bytes 4 (num_hashes f)));
      [by rewrite <- !app_assoc|by rewrite ?length_app, ?length_le_bytes..]. }
  assert (H5 : slice 4 12 l = le_bytes 8 (num_bits f) ++ le_bytes 4 (num_hashes f)).
  { eapply (Hseg (le_bytes 4 BLOOM_MAGIC)); [unfold l; by rewrite <- (app_assoc (le_bytes 8 _))|by rewrite ?length_app, ?length_le_bytes..]. }
  assert (Hpre : l = (le_bytes 4 BLOOM_MAGIC ++ le_bytes 8 (num_bits f) ++ le_bytes 4 (num_hashes f) ++ le_bytes 4 crc) ++ body f)
    by (unfold l; by rewrite <- !app_assoc).
  assert (Hlp : length (le_bytes 4 BLOOM_MAGIC ++ le_bytes 8 (num_bits f) ++ le_bytes 4 (num_hashes f) ++ le_bytes 4 crc) = HEADER_LEN)
    by (by rewrite !length_app, !length_le_bytes).
  unfold from_bytes. rewrite H1, H2, H3, H4, H5. rewrite !le_val_le_bytes_id by (first [done|split; [lia|unfold NUM_HASHES_MAX in *; lia]]).
  rewrite (proj2 (Nat.ltb_ge _ _)) by (rewrite Hl; unfold encoded_len, HEADER_LEN; lia). rewrite Z.eqb_refl. cbn [negb].
  assert (Hmod : num_bits f mod 64 = 0) by (rewrite Hn, Z.mul_comm; by apply Z.mod_mul).
  assert (Hdiv : num_bits f / 64 = Z.of_nat (length (bits f))) by (rewrite Hn, Z.mul_comm; by apply Z.div_mul).
  assert (Hshape : (num_bits f =? 0) || negb (num_bits f mod 64 =? 0) = false).
  { rewrite Hmod. cbn [Z.eqb negb]. rewrite orb_false_r. apply Z.eqb_neq. lia. }
  rewrite Hshape, Hdiv, Hl. unfold encoded_len.
  rewrite (proj2 (Z.eqb_eq (Z.of_nat (20 + length (bits f) * 8)) _)) by (unfold HEADER_LEN; lia). cbn [negb].
  rewrite Hpre, <- Hlp, drop_app_length. rewrite <- (app_assoc (le_bytes 8 (num_bits f)) (le_bytes 4 (num_hashes f)) (body f)). fold (hashed f). fold crc. rewrite Z.eqb_refl. cbn [negb].
  rewrite Nat2Z.id. unfold body at 1. rewrite read_words by done. unfold from_params. rewrite Hshape, Hdiv, Z.eqb_refl. cbn [negb].
  replace ((num_hashes f =? 0) || (NUM_HASHES_MAX <? num_hashes f)) with false by (symmetry; apply orb_false_iff; split; [apply Z.eqb_neq|apply Z.ltb_ge]; lia).
  by destruct f.
Qed.

(** The guard in [derive_hash_pair] is not vacuous: [splitmix64] is zero at one
    input. *)
Lemma splitmix64_zero : u64 0x61c8864680b583eb /\ splitmix64 0x61c8864680b583eb = 0.
Proof. split; [by apply in_wb_spec|by vm_compute]. Qed.
