(* ===== verification/Segment.v ===== *)
(** Cold segments (crates/spg-storage/src/segment.rs): immutable sorted files
    of keyed rows, cut in pages behind a page index and a Bloom filter and
    closed by a checksum; their optional LZSS envelope with per-page key
    ranges (BRIN); the reader, which looks keys up with two binary searches. *)
From S2P Require Import Prelude Bytes Float64 Crc Lzss Bloom.
Open Scope Z_scope.

Definition SEGMENT_MAGIC : list Z := [83; 80; 71; 83; 69; 71; 1; 0].
Definition SEGMENT_MAGIC_V2 : list Z := [83; 80; 71; 83; 69; 71; 2; 0].
Definition SEGMENT_MAGIC_V3 : list Z := [83; 80; 71; 83; 69; 71; 3; 0].
Definition SEGMENT_MAGIC_V4 : list Z := [83; 80; 71; 83; 69; 71; 4; 0].
Definition BRIN_SIDECAR_MAGIC : list Z := [66; 82; 73; 78].

Definition SEGMENT_V2_HEADER_LEN : nat := 8 + 1 + 4.
Definition SEGMENT_COMPRESS_ALGO_NONE : Z := 0.
Definition SEGMENT_COMPRESS_ALGO_LZSS : Z := 1.
Definition SEGMENT_PAGE_BYTES : Z := 4096.
Definition HEADER_FIXED_LEN : nat := 8 + 4 + 4 + 4 + 8 + 8 + 4.
Definition FOOTER_LEN : nat := 4.

Record BrinSummary : Type := mk_brin { brin_page : Z; min_key : Z; max_key : Z }.

(** What the texts of [BadShape] distinguish. *)
Inductive BadShapeCause : Type :=
| PageSizeRange (page_size_bytes : Z)
| NoRows
| PayloadTooLarge (len : nat)
| TooManyPages (pages : nat)
| TooManyRows (num_rows : Z)
| IndexTooShort
| IndexLength (got expected : nat)
| IndexPastInput (len : nat)
| InputLength (got expected : nat)
| EnvelopeLength (declared body : nat)
| BrinHeader (len : nat)
| BrinBody (need have : nat)
| EnvelopeNotUnwrapped.

Inductive SegmentError : Type :=
| TooShort (got need : nat)
| BadMagic (got : list Z)
| BadShape (cause : BadShapeCause)
| BadCrc (expected got : Z)
| BloomErr (e : BloomError)
| UnsortedKey (prev next : Z)
| CompressionDecodeFailed (e : LzssError)
| UnknownCompressionAlgo (algo : Z).

Record SegmentMeta : Type := mk_meta {
  num_rows : Z; num_pages : nat; page_size_bytes : Z; min_pk : Z; max_pk : Z; total_bytes : nat
}.

Record PageIndexEntry : Type := mk_entry { first_pk : Z; file_offset : nat }.

Abbreviation row := (Z * list Z)%type.

(** ** The writer *)

(** [page.resize(n, 0)] *)
Definition resize_zero (n : nat) (v : list Z) : list Z := take n v ++ repeat 0 (n - length v).

(** [u32::try_from(n)] of a length. *)
Definition u32_try_from (n : nat) : option Z := if Z.of_nat n <? 2 ^ 32 then Some (Z.of_nat n) else None.

(** [for row in row_bytes]: the page so far and the offsets recorded. *)
Fixpoint push_rows (row_bytes : list (list Z)) (page : list Z) (offsets : list Z) : option (list Z * list Z) :=
  match row_bytes with
  | [] => Some (page, offsets)
  | row :: row_bytes =>
    let! off := u32_try_from (length page) in
    push_rows row_bytes (page ++ row) (offsets ++ [off])
  end.

(** The backfill loop over [offsets]. *)
Fixpoint backfill (i : nat) (offsets : list Z) (page : list Z) : list Z :=
  match offsets with
  | [] => page
  | off :: offsets => backfill (S i) offsets (splice (4 + i * 4) (le_bytes 4 off) page)
  end.

Definition serialise_page (row_bytes : list (list Z)) (page_size_bytes : nat) : option (list Z) :=
  let! num_rows := u32_try_from (length row_bytes) in
  let offsets_section_bytes := (length row_bytes * 4)%nat in
  let header_total := (4 + offsets_section_bytes)%nat in
  let page := le_bytes 4 num_rows in
  let page := resize_zero header_total page in
  let! (page, offsets) := push_rows row_bytes page [] in
  let page := backfill 0 offsets page in
  Some (resize_zero page_size_bytes page).

Definition encode_page_index (index : list PageIndexEntry) : option (list Z) :=
  let! n := u32_try_from (length index) in
  Some (fold_left (fun out entry => out ++ le_bytes 8 (first_pk entry) ++ le_bytes 4 (Z.of_nat (file_offset entry))) index
          (le_bytes 4 n)).

(** The variables of [encode_segment]'s loop. *)
Record encoder : Type := mk_encoder {
  enc_bloom : BloomFilter;
  pages : list (list Z);
  pages_bytes_total : nat;
  enc_index : list PageIndexEntry;
  row_bytes_in_page : list (list Z);
  first_pk_in_page : option Z;
  last_key : option Z;
  enc_min_pk : option Z;
  enc_max_pk : Z;
  total_rows : Z
}.

(** The row as it lives on the page. *)
Definition row_bytes (key plen : Z) (payload : list Z) : list Z := le_bytes 8 key ++ le_bytes 4 plen ++ payload.

(** A page closed: its index entry, its bytes. *)
Definition finalise_page (page_size : nat) (st : encoder) : option encoder :=
  let! _ := u32_try_from (pages_bytes_total st) in
  let! first_pk := first_pk_in_page st in
  let! finalised := serialise_page (row_bytes_in_page st) page_size in
  Some (mk_encoder (enc_bloom st) (pages st ++ [finalised]) (pages_bytes_total st + length finalised)
          (enc_index st ++ [mk_entry first_pk (pages_bytes_total st)]) [] None (last_key st)
          (enc_min_pk st) (enc_max_pk st) (total_rows st)).

(** A row wider than a page, on a page of its own. *)
Definition jumbo_page (key : Z) (row : list Z) (st : encoder) : option encoder :=
  let! _ := u32_try_from (pages_bytes_total st) in
  let natural := (4 + 4 + length row)%nat in
  let! jumbo := serialise_page [row] natural in
  Some (mk_encoder (enc_bloom st) (pages st ++ [jumbo]) (pages_bytes_total st + length jumbo)
          (enc_index st ++ [mk_entry key (pages_bytes_total st)]) (row_bytes_in_page st) (first_pk_in_page st) (last_key st)
          (enc_min_pk st) (enc_max_pk st) (total_rows st)).

Definition push_row (key : Z) (row : list Z) (st : encoder) : encoder :=
  mk_encoder (enc_bloom st) (pages st) (pages_bytes_total st) (enc_index st) (row_bytes_in_page st ++ [row])
    (match first_pk_in_page st with None => Some key | Some k => Some k end) (last_key st)
    (enc_min_pk st) (enc_max_pk st) (total_rows st).

(** The key taken in: the order check, the bounds, the count and the filter. *)
Definition note_key (key : Z) (st : encoder) : outcome encoder SegmentError :=
  let!? st := match last_key st with
  | Some prev => if key <=? prev then Some (Err (UnsortedKey prev key)) else Some (Ok st)
  | None => Some (Ok st)
  end in
  let! bloom := Bloom.insert (le_bytes 8 key) (enc_bloom st) in
  Some (Ok (mk_encoder bloom (pages st) (pages_bytes_total st) (enc_index st) (row_bytes_in_page st) (first_pk_in_page st)
    (Some key) (match enc_min_pk st with None => Some key | Some k => Some k end) key
    (wrapping_add 64 (total_rows st) 1))).

(** The row's bytes, and the page it goes to. *)
Definition place_row (page_size : nat) (key : Z) (payload : list Z) (st : encoder) : outcome encoder SegmentError :=
  match u32_try_from (length payload) with
  | None => Some (Err (BadShape (PayloadTooLarge (length payload))))
  | Some plen =>
    let row := row_bytes key plen payload in
    let proposed_num_rows := (length (row_bytes_in_page st) + 1)%nat in
    let proposed_offsets_bytes := (proposed_num_rows * 4)%nat in
    let proposed_rows_bytes := (sum_list (map length (row_bytes_in_page st)) + length row)%nat in
    let proposed_size := (4 + proposed_offsets_bytes + proposed_rows_bytes)%nat in
    if (page_size <? proposed_size)%nat then
      let! st := match row_bytes_in_page st with [] => Some st | _ => finalise_page page_size st end in
      if (page_size <? 4 + 4 + length row)%nat then
        let! st := jumbo_page key row st in Some (Ok st)
      else Some (Ok (push_row key row st))
    else Some (Ok (push_row key row st))
  end.

(** One turn of the loop over the rows. *)
Definition encode_row (page_size : nat) (st : encoder) (r : row) : outcome encoder SegmentError :=
  let '(key, payload) := r in
  let!? st := note_key key st in
  place_row page_size key payload st.

Fixpoint encode_rows (page_size : nat) (rows : list row) (st : encoder) : outcome encoder SegmentError :=
  match rows with
  | [] => Some (Ok st)
  | r :: rows => let!? st := encode_row page_size st r in encode_rows page_size rows st
  end.

(** The assembly of the file. *)
Definition assemble (page_size_bytes : Z) (st : encoder) : outcome (list Z * SegmentMeta) SegmentError :=
  match u32_try_from (length (pages st)) with
  | None => Some (Err (BadShape (TooManyPages (length (pages st)))))
  | Some num_pages =>
    let num_rows := total_rows st in
    if 2 ^ 32 <=? num_rows then Some (Err (BadShape (TooManyRows num_rows)))
    else
      let! min_pk := enc_min_pk st in
      let bloom_bytes := Bloom.to_bytes (enc_bloom st) in
      let! page_index_bytes := encode_page_index (enc_index st) in
      let out := SEGMENT_MAGIC_V4 in
      let body_start := length out in
      let out := out ++ le_bytes 4 num_rows in
      let out := out ++ le_bytes 4 num_pages in
      let out := out ++ le_bytes 4 page_size_bytes in
      let out := out ++ le_bytes 8 min_pk in
      let out := out ++ le_bytes 8 (enc_max_pk st) in
      let! bloom_len := u32_try_from (length bloom_bytes) in
      let out := out ++ le_bytes 4 bloom_len in
      let out := out ++ bloom_bytes in
      let! page_index_len := u32_try_from (length page_index_bytes) in
      let out := out ++ le_bytes 4 page_index_len in
      let out := out ++ page_index_bytes in
      let out := fold_left (fun out page => out ++ page) (pages st) out in
      let crc := crc32 (drop body_start out) in
      let out := out ++ le_bytes 4 crc in
      Some (Ok (out, mk_meta num_rows (length (pages st)) page_size_bytes min_pk (enc_max_pk st) (length out)))
  end.

Definition encode_segment (rows : list row) (bloom_target_fp : f64) (page_size_bytes : Z) :
    outcome (list Z * SegmentMeta) SegmentError :=
  if negb ((256 <=? page_size_bytes) && (page_size_bytes <=? 65536)) then Some (Err (BadShape (PageSizeRange page_size_bytes)))
  else
    let num_rows_hint := length rows in
    if (num_rows_hint =? 0)%nat then Some (Err (BadShape NoRows))
    else
      let page_size := Z.to_nat page_size_bytes in
      let! bloom := with_target_fp_rate num_rows_hint bloom_target_fp in
      let!? st := encode_rows page_size rows (mk_encoder bloom [] 0 [] [] None None None 0 0) in
      let! st := match row_bytes_in_page st with [] => Some st | _ => finalise_page page_size st end in
      assemble page_size_bytes st.

(** ** Parsing *)

(** [for i in 0..count] of [parse_page_index]. *)
Fixpoint parse_entries (input : list Z) (i count : nat) (out : list PageIndexEntry) : option (list PageIndexEntry) :=
  match count with
  | O => Some out
  | S count =>
    let off := (4 + i * 12)%nat in
    let! first_pk := index_le 8 off input in
    let! file_offset := index_le 4 (off + 8) input in
    parse_entries input (S i) count (out ++ [mk_entry first_pk (Z.to_nat file_offset)])
  end.

Definition parse_page_index (input : list Z) : outcome (list PageIndexEntry) SegmentError :=
  if (length input <? 4)%nat then Some (Err (BadShape IndexTooShort))
  else
    let! count := index_le 4 0 input in
    let count := Z.to_nat count in
    let expected := (4 + count * 12)%nat in
    if negb (length input =? expected)%nat then Some (Err (BadShape (IndexLength (length input) expected)))
    else let! out := parse_entries input 0 count [] in Some (Ok out).

Record SegmentMetadata : Type := mk_metadata {
  meta : SegmentMeta; bloom : BloomFilter; page_index : list PageIndexEntry; codec_version : Z; pages_start_offset : nat
}.

Definition list_eqb (xs ys : list Z) : bool := bool_decide (xs = ys).

(** The codec version an inner magic implies. *)
Definition inner_version (magic : list Z) : outcome Z SegmentError :=
  if list_eqb magic SEGMENT_MAGIC_V4 then Some (Ok 47)
  else if list_eqb magic SEGMENT_MAGIC_V3 then Some (Ok 46)
  else if list_eqb magic SEGMENT_MAGIC then Some (Ok 0)
  else Some (Err (BadMagic magic)).

Definition parse_segment_metadata (bytes : list Z) : outcome SegmentMetadata SegmentError :=
  let len := length bytes in
  if (len <? HEADER_FIXED_LEN + FOOTER_LEN)%nat then Some (Err (TooShort len (HEADER_FIXED_LEN + FOOTER_LEN)))
  else
    let! magic := subslice 0 8 bytes in
    let!? codec_version := inner_version magic in
    let! num_rows := index_le 4 8 bytes in
    let! num_pages := index_le 4 12 bytes in
    let! page_size_bytes := index_le 4 16 bytes in
    let! min_pk := index_le 8 20 bytes in
    let! max_pk := index_le 8 28 bytes in
    let! bloom_len := index_le 4 36 bytes in
    let bloom_len := Z.to_nat bloom_len in
    let bloom_offset := HEADER_FIXED_LEN in
    if (len <? bloom_offset + bloom_len + 4)%nat then Some (Err (TooShort len (bloom_offset + bloom_len + 4)))
    else
      let! bloom_bytes := subslice bloom_offset (bloom_offset + bloom_len) bytes in
      let!? bloom := match Bloom.from_bytes bloom_bytes with Ok b => Some (Ok b) | Err e => Some (Err (BloomErr e)) end in
      let page_index_len_off := (bloom_offset + bloom_len)%nat in
      let! page_index_len := index_le 4 page_index_len_off bytes in
      let page_index_len := Z.to_nat page_index_len in
      let page_index_off := (page_index_len_off + 4)%nat in
      if (len <? page_index_off + page_index_len)%nat then Some (Err (TooShort len (page_index_off + page_index_len)))
      else
        let! page_index_bytes := subslice page_index_off (page_index_off + page_index_len) bytes in
        let!? page_index := parse_page_index page_index_bytes in
        let pages_start_offset := (page_index_off + page_index_len)%nat in
        let pages_total_bytes := (Z.to_nat num_pages * Z.to_nat page_size_bytes)%nat in
        let expected_total := (pages_start_offset + pages_total_bytes + FOOTER_LEN)%nat in
        let exact_len_applies := codec_version =? 0 in
        if (len <? pages_start_offset + FOOTER_LEN)%nat
           || existsb (fun e => (len - FOOTER_LEN <? pages_start_offset + file_offset e)%nat) page_index
        then Some (Err (BadShape (IndexPastInput len)))
        else if exact_len_applies && negb (len =? expected_total)%nat then Some (Err (BadShape (InputLength len expected_total)))
        else
          let stored_crc_off := (len - FOOTER_LEN)%nat in
          let! stored_crc := index_le 4 stored_crc_off bytes in
          let! body := subslice 8 stored_crc_off bytes in
          let computed_crc := crc32 body in
          if negb (computed_crc =? stored_crc) then Some (Err (BadCrc stored_crc computed_crc))
          else
            let meta := mk_meta num_rows (Z.to_nat num_pages) page_size_bytes min_pk max_pk len in
            Some (Ok (mk_metadata meta bloom page_index codec_version pages_start_offset)).

(** ** Looking keys up *)

(** [binary_search_by] of the standard library: the size halves until one
    entry is left. *)
Fixpoint bs_loop {A} (fuel : nat) (f : A -> comparison) (l : list A) (base size : nat) : option nat :=
  if (1 <? size)%nat then
    match fuel with
    | O => None
    | S fuel =>
      let half := (size / 2)%nat in
      let mid := (base + half)%nat in
      let! x := l !! mid in
      let base := match f x with Gt => base | _ => mid end in
      bs_loop fuel f l base (size - half)
    end
  else Some base.

Inductive search : Type := At (i : nat) | Before (i : nat).

Definition binary_search_by {A} (f : A -> comparison) (l : list A) : option search :=
  let size := length l in
  if (size =? 0)%nat then Some (Before 0)
  else
    let! base := bs_loop size f l 0 size in
    let! x := l !! base in
    match f x with
    | Eq => Some (At base)
    | Lt => Some (Before (base + 1))
    | Gt => Some (Before base)
    end.

(** [offsets] of [decode_page_lookup] and [decode_page_iter]. *)
Fixpoint read_offsets (page : list Z) (i n : nat) (out : list nat) : option (list nat) :=
  match n with
  | O => Some out
  | S n =>
    let o := (4 + i * 4)%nat in
    let! off := index_le 4 o page in
    read_offsets page (S i) n (out ++ [Z.to_nat off])
  end.

(** The search loop; what it returns is the row's payload, or nothing. *)
Fixpoint page_search (fuel : nat) (page : list Z) (offsets : list nat) (key : Z) (lo hi : nat) : option (option (list Z)) :=
  if (lo <? hi)%nat then
    match fuel with
    | O => None
    | S fuel =>
      let mid := ((lo + hi) / 2)%nat in
      let! row_off := offsets !! mid in
      if (length page <? row_off + 8)%nat then Some None
      else
        let! row_key := index_le 8 row_off page in
        match Z.compare row_key key with
        | Lt => page_search fuel page offsets key (mid + 1) hi
        | Gt => page_search fuel page offsets key lo mid
        | Eq =>
          let plen_off := (row_off + 8)%nat in
          if (length page <? plen_off + 4)%nat then Some None
          else
            let! plen := index_le 4 plen_off page in
            let payload_start := (plen_off + 4)%nat in
            let payload_end := (payload_start + Z.to_nat plen)%nat in
            if (length page <? payload_end)%nat then Some None
            else let! payload := subslice payload_start payload_end page in Some (Some payload)
        end
    end
  else Some None.

Definition decode_page_lookup (page : list Z) (key : Z) : option (option (list Z)) :=
  if (length page <? 4)%nat then Some None
  else
    let! num_rows := index_le 4 0 page in
    let num_rows := Z.to_nat num_rows in
    if (num_rows =? 0)%nat then Some None
    else
      let offsets_end := (4 + num_rows * 4)%nat in
      if (length page <? offsets_end)%nat then Some None
      else
        let! offsets := read_offsets page 0 num_rows [] in
        page_search (S num_rows) page offsets key 0 num_rows.

Definition segment_might_contain (metadata : SegmentMetadata) (key : Z) : option bool :=
  if (key <? min_pk (meta metadata)) || (max_pk (meta metadata) <? key) then Some false
  else Bloom.contains (le_bytes 8 key) (bloom metadata).

Definition segment_lookup (metadata : SegmentMetadata) (bytes : list Z) (key : Z) : option (option (list Z)) :=
  let! might := segment_might_contain metadata key in
  if negb might then Some None
  else
    let! found := binary_search_by (fun entry => Z.compare (first_pk entry) key) (page_index metadata) in
    match found with
    | Before O => Some None
    | At candidate | Before (S candidate) =>
      let! entry := page_index metadata !! candidate in
      let page_off := (pages_start_offset metadata + file_offset entry)%nat in
      let page_end :=
        match page_index metadata !! (candidate + 1)%nat with
        | Some next => (pages_start_offset metadata + file_offset next)%nat
        | None => (length bytes - FOOTER_LEN)%nat
        end in
      if (length bytes - FOOTER_LEN <? page_end)%nat || (page_end <=? page_off)%nat then Some None
      else let! page := subslice page_off page_end bytes in decode_page_lookup page key
    end.

(** ** Scanning *)

(** The loop over the offsets: it stops at the first row past the page. *)
Fixpoint iter_rows (page : list Z) (offsets : list nat) (out : list row) : option (list row) :=
  match offsets with
  | [] => Some out
  | row_off :: offsets =>
    if (length page <? row_off + 12)%nat then Some out
    else
      let! key := index_le 8 row_off page in
      let! plen := index_le 4 (row_off + 8) page in
      let payload_start := (row_off + 12)%nat in
      let payload_end := (payload_start + Z.to_nat plen)%nat in
      if (length page <? payload_end)%nat then Some out
      else
        let! payload := subslice payload_start payload_end page in
        iter_rows page offsets (out ++ [(key, payload)])
  end.

Definition decode_page_iter (page : list Z) : option (list row) :=
  if (length page <? 4)%nat then Some []
  else
    let! num_rows := index_le 4 0 page in
    let num_rows := Z.to_nat num_rows in
    if (num_rows =? 0)%nat then Some []
    else
      let offsets_end := (4 + num_rows * 4)%nat in
      if (length page <? offsets_end)%nat then Some []
      else
        let! offsets := read_offsets page 0 num_rows [] in
        iter_rows page offsets [].

(** The pages from [i] on, run to their end. *)
Fixpoint scan_pages (metadata : SegmentMetadata) (bytes : list Z) (i n : nat) : option (list row) :=
  match n with
  | O => Some []
  | S n =>
    let pages_end := (length bytes - FOOTER_LEN)%nat in
    let! entry := page_index metadata !! i in
    let off := (pages_start_offset metadata + file_offset entry)%nat in
    let end_ :=
      match page_index metadata !! (i + 1)%nat with
      | Some next => (pages_start_offset metadata + file_offset next)%nat
      | None => pages_end
      end in
    let! page := subslice off (Nat.min end_ pages_end) bytes in
    let! rows := decode_page_iter page in
    let! rest := scan_pages metadata bytes (S i) n in
    Some (rows ++ rest)
  end.

Definition segment_scan (metadata : SegmentMetadata) (bytes : list Z) : option (list row) :=
  scan_pages metadata bytes 0 (length (page_index metadata)).

(** ** Readers *)

Record SegmentReader : Type := mk_reader { reader_bytes : list Z; reader_metadata : SegmentMetadata }.

Definition has_magic (magic bytes : list Z) : bool :=
  (length magic <=? length bytes)%nat && list_eqb (take (length magic) bytes) magic.

(** [SegmentReader::open] *)
Definition open (bytes : list Z) : outcome SegmentReader SegmentError :=
  if has_magic SEGMENT_MAGIC_V2 bytes then Some (Err (BadShape EnvelopeNotUnwrapped))
  else let!? metadata := parse_segment_metadata bytes in Some (Ok (mk_reader bytes metadata)).

Definition might_contain (r : SegmentReader) (key : Z) : option bool := segment_might_contain (reader_metadata r) key.
Definition lookup (r : SegmentReader) (key : Z) : option (option (list Z)) := segment_lookup (reader_metadata r) (reader_bytes r) key.
Definition scan (r : SegmentReader) : option (list row) := segment_scan (reader_metadata r) (reader_bytes r).

(** ** BRIN summaries *)

(** [while current_page + 1 < num_pages && key >= page_starts[current_page + 1]] *)
Fixpoint advance (fuel : nat) (num_pages : nat) (page_starts : list Z) (key : Z) (current_page : nat) : option nat :=
  if (current_page + 1 <? num_pages)%nat then
    let! start := page_starts !! (current_page + 1)%nat in
    if start <=? key then
      match fuel with
      | O => None
      | S fuel => advance fuel num_pages page_starts key (current_page + 1)
      end
    else Some current_page
  else Some current_page.

Fixpoint bucket_keys (num_pages : nat) (page_starts : list Z) (rows : list row) (current_page : nat)
    (min_by_page max_by_page : list (option Z)) : option (list (option Z) * list (option Z)) :=
  match rows with
  | [] => Some (min_by_page, max_by_page)
  | (key, _) :: rows =>
    let! current_page := advance num_pages num_pages page_starts key current_page in
    let! m := min_by_page !! current_page in
    let! min_by_page := match m with None => vec_set current_page (Some key) min_by_page | Some _ => Some min_by_page end in
    let! max_by_page := vec_set current_page (Some key) max_by_page in
    bucket_keys num_pages page_starts rows current_page min_by_page max_by_page
  end.

(** [for p in 0..num_pages]; [p] counts up along the two lists. *)
Fixpoint collect (p : nat) (min_by_page max_by_page : list (option Z)) : option (list BrinSummary) :=
  match min_by_page, max_by_page with
  | m :: min_by_page, M :: max_by_page =>
    let! rest := collect (S p) min_by_page max_by_page in
    match m, M with
    | Some min_key, Some max_key => let! p := u32_try_from p in Some (mk_brin p min_key max_key :: rest)
    | _, _ => Some rest
    end
  | _, _ => Some []
  end.

Definition derive_brin_summaries (v1_bytes : list Z) : outcome (list BrinSummary) SegmentError :=
  let!? reader := open v1_bytes in
  let num_pages := num_pages (meta (reader_metadata reader)) in
  if (num_pages =? 0)%nat then Some (Ok [])
  else
    let page_starts := map first_pk (page_index (reader_metadata reader)) in
    let! rows := scan reader in
    let! (mins, maxs) := bucket_keys num_pages page_starts rows 0 (repeat None num_pages) (repeat None num_pages) in
    let! out := collect 0 mins maxs in
    Some (Ok out).

(** ** Envelopes *)

Definition wrap_v2_envelope (v1_bytes : list Z) (compress : bool) : option (list Z) :=
  if negb compress then Some v1_bytes
  else
    let! compressed := Lzss.compress v1_bytes in
    if (length v1_bytes <=? length compressed + SEGMENT_V2_HEADER_LEN)%nat then Some v1_bytes
    else
      let! inner_len := u32_try_from (length v1_bytes) in
      let out := SEGMENT_MAGIC_V2 in
      let out := out ++ [SEGMENT_COMPRESS_ALGO_LZSS] in
      let out := out ++ le_bytes 4 inner_len in
      Some (out ++ compressed).

Definition summary_bytes (s : BrinSummary) : list Z := le_bytes 4 (brin_page s) ++ le_bytes 8 (min_key s) ++ le_bytes 8 (max_key s).

Definition wrap_v2_envelope_with_brin (v1_bytes : list Z) (summaries : list BrinSummary) (compress : bool) : option (list Z) :=
  match summaries with
  | [] => wrap_v2_envelope v1_bytes compress
  | _ =>
    let inner := BRIN_SIDECAR_MAGIC in
    let! n := u32_try_from (length summaries) in
    let inner := inner ++ le_bytes 4 n in
    let inner := fold_left (fun inner s => inner ++ summary_bytes s) summaries inner in
    let inner := inner ++ v1_bytes in
    wrap_v2_envelope inner compress
  end.

Fixpoint parse_summaries (decoded : list Z) (i n : nat) (summaries : list BrinSummary) : option (list BrinSummary) :=
  match n with
  | O => Some summaries
  | S n =>
    let off := (8 + i * 20)%nat in
    let! page_index := index_le 4 off decoded in
    let! min_key := index_le 8 (off + 4) decoded in
    let! max_key := index_le 8 (off + 12) decoded in
    parse_summaries decoded (S i) n (summaries ++ [mk_brin page_index min_key max_key])
  end.

Definition parse_brin_sidecar_then_v1 (decoded : list Z) : outcome (list Z * list BrinSummary) SegmentError :=
  if (length decoded <? 8)%nat then Some (Err (BadShape (BrinHeader (length decoded))))
  else
    let! n_summaries := index_le 4 4 decoded in
    let n_summaries := Z.to_nat n_summaries in
    let summaries_end := (8 + n_summaries * 20)%nat in
    if (length decoded <? summaries_end)%nat then Some (Err (BadShape (BrinBody summaries_end (length decoded))))
    else
      let! summaries := parse_summaries decoded 0 n_summaries [] in
      Some (Ok (drop summaries_end decoded, summaries)).

Definition unwrap_v2_envelope (bytes : list Z) : outcome (list Z * list BrinSummary) SegmentError :=
  if negb (has_magic SEGMENT_MAGIC_V2 bytes) then Some (Ok (bytes, []))
  else if (length bytes <? SEGMENT_V2_HEADER_LEN)%nat then Some (Err (TooShort (length bytes) SEGMENT_V2_HEADER_LEN))
  else
    let! algo := index_le 1 8 bytes in
    let! inner_len := index_le 4 9 bytes in
    let inner_len := Z.to_nat inner_len in
    let inner := drop SEGMENT_V2_HEADER_LEN bytes in
    let!? decoded :=
      if algo =? SEGMENT_COMPRESS_ALGO_NONE then
        if negb (length inner =? inner_len)%nat then Some (Err (BadShape (EnvelopeLength inner_len (length inner))))
        else Some (Ok inner)
      else if algo =? SEGMENT_COMPRESS_ALGO_LZSS then
        let! r := Lzss.decompress inner in
        match r with
        | Err e => Some (Err (CompressionDecodeFailed e))
        | Ok decompressed =>
          if negb (length decompressed =? inner_len)%nat
          then Some (Err (BadShape (EnvelopeLength inner_len (length decompressed))))
          else Some (Ok decompressed)
        end
      else Some (Err (UnknownCompressionAlgo algo)) in
    if has_magic BRIN_SIDECAR_MAGIC decoded then parse_brin_sidecar_then_v1 decoded else Some (Ok (decoded, [])).

Record OwnedSegment : Type := mk_owned { owned_bytes : list Z; owned_metadata : SegmentMetadata; brin_summaries : list BrinSummary }.

(** [OwnedSegment::from_bytes] *)
Definition owned_from_bytes (bytes : list Z) : outcome OwnedSegment SegmentError :=
  let!? (bytes, brin_summaries) := unwrap_v2_envelope bytes in
  let!? metadata := parse_segment_metadata bytes in
  Some (Ok (mk_owned bytes metadata brin_summaries)).

Definition owned_might_contain (s : OwnedSegment) (key : Z) : option bool := segment_might_contain (owned_metadata s) key.
Definition owned_lookup (s : OwnedSegment) (key : Z) : option (option (list Z)) := segment_lookup (owned_metadata s) (owned_bytes s) key.
Definition owned_scan (s : OwnedSegment) : option (list row) := segment_scan (owned_metadata s) (owned_bytes s).
