(* ===== verification/SegmentEncode.v ===== *)
(** Pages of a cold segment: what [serialise_page] writes, and that scanning
    and searching a page give the rows it was made of.

    The segment writer: how [encode_segment] cuts rows into pages, the layout
    of the file it assembles, and the inputs it refuses. *)
From S2P Require Import Prelude Bytes SortedMap Lzss Bloom Segment Float64 Crc.
Open Scope Z_scope.

(** ** What the writer lays out *)

(** A row as the writer encodes it. *)
Definition row_enc (r : row) : list Z := row_bytes r.1 (Z.of_nat (length r.2)) r.2.

Definition row_ok (r : row) : Prop := u64 r.1 /\ is_bytes r.2 /\ Z.of_nat (length r.2) < 2 ^ 32.

#[export] Instance row_ok_dec r : Decision (row_ok r).
Proof. unfold row_ok, is_bytes. apply _. Defined.

Fixpoint row_offsets (off : nat) (rbs : list (list Z)) : list nat :=
  match rbs with
  | [] => []
  | r :: rbs => off :: row_offsets (off + length r) rbs
  end.

Definition off_enc (o : nat) : list Z := le_bytes 4 (Z.of_nat o).

Definition page_body (rbs : list (list Z)) : list Z :=
  le_bytes 4 (Z.of_nat (length rbs)) ++ concat (map off_enc (row_offsets (4 + 4 * length rbs) rbs)) ++ concat rbs.

Lemma length_row_enc r : length (row_enc r) = (12 + length r.2)%nat.
Proof. unfold row_enc, row_bytes. rewrite !length_app, !length_le_bytes. lia. Qed.

Lemma row_enc_bytes r : row_ok r -> is_bytes (row_enc r).
Proof. intros (_ & H & _). unfold row_enc, row_bytes. rewrite !is_bytes_app. auto with spg. Qed.

Lemma length_off_enc o : length (off_enc o) = 4%nat.
Proof. apply length_le_bytes. Qed.

Lemma length_row_offsets off rbs : length (row_offsets off rbs) = length rbs.
Proof. revert off. induction rbs as [|r rbs IH]; intros off; cbn [row_offsets length]; [done|by rewrite IH]. Qed.

Lemma length_page_body rbs : length (page_body rbs) = (4 + 4 * length rbs + length (concat rbs))%nat.
Proof.
  unfold page_body. rewrite !length_app, length_le_bytes, (length_concat_map off_enc 4), length_row_offsets by apply length_off_enc. lia.
Qed.

Lemma page_body_bytes rbs : Forall is_bytes rbs -> is_bytes (page_body rbs).
Proof.
  intros H. unfold page_body. rewrite !is_bytes_app. split; [apply le_bytes_bytes|]. split.
  - apply is_bytes_concat_map. intros o. apply le_bytes_bytes.
  - induction H as [|r rbs Hr H IH]; [constructor|]. cbn [concat]. apply is_bytes_app. done.
Qed.

Lemma u32_try_from_ok n : Z.of_nat n < 2 ^ 32 -> u32_try_from n = Some (Z.of_nat n).
Proof. intros H. unfold u32_try_from. by apply Z.ltb_lt in H as ->. Qed.

Lemma push_rows_spec rbs page offs : Z.of_nat (length page + length (concat rbs)) < 2 ^ 32 ->
  push_rows rbs page offs = Some (page ++ concat rbs, offs ++ map Z.of_nat (row_offsets (length page) rbs)).
Proof.
  revert page offs. induction rbs as [|r rbs IH]; intros page offs; cbn [push_rows concat row_offsets map]; intros H.
  - by rewrite !app_nil_r.
  - rewrite length_app in H. rewrite u32_try_from_ok by lia. cbn [mbind option_bind]. rewrite IH by (rewrite length_app; lia).
    by rewrite <- !app_assoc, length_app.
Qed.

Lemma backfill_spec offs i pre mid post :
  length pre = (4 + i * 4)%nat -> length mid = (length offs * 4)%nat ->
  backfill i (map Z.of_nat offs) (pre ++ mid ++ post) = pre ++ concat (map off_enc offs) ++ post.
Proof.
  revert i pre mid. induction offs as [|o offs IH]; intros i pre mid Hp Hm; cbn [map backfill concat length] in *.
  - by destruct mid.
  - assert (Hc : mid = take 4 mid ++ drop 4 mid) by (by rewrite take_drop).
    rewrite Hc. unfold splice. rewrite length_le_bytes.
    assert (Hl : length (take 4 mid) = 4%nat) by (rewrite length_take; lia).
    rewrite take_app_length' by lia.
    replace (drop _ (pre ++ _)) with (drop 4 mid ++ post).
    2:{ rewrite !app_assoc, <- (app_assoc _ (drop 4 mid)). symmetry. apply drop_app_length'. rewrite length_app. lia. }
    specialize (IH (S i) (pre ++ off_enc o) (drop 4 mid)). unfold off_enc in *. rewrite <- !app_assoc in *.
    rewrite IH; [done|rewrite length_app, length_le_bytes; lia|rewrite length_drop; lia].
Qed.

Lemma resize_zero_ge n v : (length v <= n)%nat -> resize_zero n v = v ++ repeat 0 (n - length v).
Proof. intros H. unfold resize_zero. by rewrite take_ge. Qed.

Lemma length_resize_zero n v : length (resize_zero n v) = n.
Proof. unfold resize_zero. rewrite length_app, length_take, repeat_length. lia. Qed.

Lemma serialise_page_spec rbs size : Z.of_nat (length (page_body rbs)) < 2 ^ 32 -> (length (page_body rbs) <= size)%nat ->
  serialise_page rbs size = Some (page_body rbs ++ repeat 0 (size - length (page_body rbs))).
Proof.
  rewrite length_page_body. intros H Hs. unfold serialise_page. rewrite u32_try_from_ok by lia. cbn [mbind option_bind].
  rewrite (resize_zero_ge _ (le_bytes _ _)) by (rewrite length_le_bytes; lia). rewrite length_le_bytes.
  set (page := le_bytes 4 _ ++ _).
  assert (Hl : length page = (4 + length rbs * 4)%nat) by (unfold page; rewrite length_app, length_le_bytes, repeat_length; lia).
  rewrite push_rows_spec by (rewrite Hl; lia). cbn [mbind option_bind app]. rewrite Hl, (Nat.mul_comm _ 4).
  unfold page. rewrite <- app_assoc.
  rewrite backfill_spec by (rewrite ?length_le_bytes, ?repeat_length, ?length_row_offsets; lia).
  fold (page_body rbs). rewrite resize_zero_ge by (rewrite length_page_body; lia). by rewrite length_page_body.
Qed.

(** ** Reading a page back *)

Section Reading.
Context (rows : list row) (post page : list Z).
Hypothesis (Hok : Forall row_ok rows) (Hpage : page = page_body (map row_enc rows) ++ post).
Hypothesis (Hlen : Z.of_nat (length (page_body (map row_enc rows))) < 2 ^ 32).

Let n := length rows.
Let offs := row_offsets (4 + 4 * n) (map row_enc rows).

Lemma length_offs : length offs = n.
Proof. unfold offs. by rewrite length_row_offsets, length_map. Qed.

Lemma n_bound : (4 + 4 * n + length (concat (map row_enc rows)) <= length page)%nat /\ Z.of_nat (4 + 4 * n + length (concat (map row_enc rows))) < 2 ^ 32.
Proof. rewrite Hpage, length_app. rewrite !length_page_body, !length_map in *. fold n in Hlen |- *. lia. Qed.

Lemma page_count : index_le 4 0 page = Some (Z.of_nat n).
Proof.
  pose proof n_bound. rewrite Hpage. unfold page_body. rewrite length_map. rewrite <- !app_assoc.
  apply (index_le_field 4 0 _ [] _ _ eq_refl); [done|]. split; [lia|]. fold n. change (8 * Z.of_nat 4) with 32. lia.
Qed.

(** The rows lie one after the other. *)
Lemma row_offsets_at off rbs i o : row_offsets off rbs !! i = Some o -> exists r, rbs !! i = Some r /\ o = (off + length (concat (take i rbs)))%nat.
Proof.
  revert off i. induction rbs as [|r rbs IH]; intros off [|i]; cbn [row_offsets lookup list_lookup take concat length]; try done.
  - intros [= <-]. exists r. split; [done|lia].
  - intros H. destruct (IH _ _ H) as (r' & Hr & ->). exists r'. split; [done|]. rewrite length_app. lia.
Qed.

Lemma row_at i o : offs !! i = Some o -> exists r pre tl, rows !! i = Some r /\ row_ok r /\ page = pre ++ row_enc r ++ tl /\ length pre = o /\
  (length (row_enc r) + o <= 4 + 4 * n + length (concat (map row_enc rows)))%nat.
Proof.
  intros H. destruct (row_offsets_at _ _ _ _ H) as (rb & Hrb & Ho). apply list_lookup_fmap_Some in Hrb as (r & -> & Hr).
  exists r. set (head := le_bytes 4 (Z.of_nat (length (map row_enc rows))) ++ concat (map off_enc offs)).
  exists (head ++ concat (take i (map row_enc rows))), (concat (drop (S i) (map row_enc rows)) ++ post).
  assert (Hc : concat (map row_enc rows) = concat (take i (map row_enc rows)) ++ row_enc r ++ concat (drop (S i) (map row_enc rows))).
  { rewrite <- (take_drop_middle (map row_enc rows) i (row_enc r)) at 1 by (by rewrite list_lookup_fmap, Hr).
    by rewrite concat_app. }
  assert (Hh : length head = (4 + 4 * n)%nat).
  { unfold head. rewrite length_app, length_le_bytes, (length_concat_map off_enc 4), length_offs by apply length_off_enc. lia. }
  split_and!; [done|by eapply Forall_lookup_1| | |].
  - rewrite Hpage. unfold page_body. rewrite length_map. fold n. fold offs. rewrite Hc. unfold head. rewrite length_map. fold n. by rewrite <- !app_assoc.
  - rewrite length_app, Hh. lia.
  - rewrite Hc, !length_app. lia.
Qed.

Lemma read_offsets_at i : (i <= n)%nat -> read_offsets page i (n - i) (take i offs) = Some offs.
Proof.
  remember (n - i)%nat as k. revert i Heqk. induction k as [|k IH]; intros i Hk Hi; cbn [read_offsets].
  { f_equal. apply take_ge. rewrite length_offs. lia. }
  destruct (lookup_lt_is_Some_2 offs i) as [o Ho]; [rewrite length_offs; lia|].
  destruct (row_at i o Ho) as (r & pre & tl & _ & _ & _ & _ & Hb). pose proof n_bound as (Hn1 & Hn2).
  destruct (concat_map_field off_enc 4 offs i o length_off_enc Ho) as (p & q & Hpq & Hlp).
  rewrite (index_le_field 4 _ (Z.of_nat o) (le_bytes 4 (Z.of_nat n) ++ p) (q ++ concat (map row_enc rows) ++ post)).
  - cbn [mbind option_bind]. rewrite Nat2Z.id. rewrite <- (IH (S i)) by lia. by rewrite (take_S_r _ _ _ Ho).
  - rewrite Hpage. unfold page_body. rewrite length_map. fold n. fold offs. rewrite Hpq. unfold off_enc. by rewrite <- !app_assoc.
  - rewrite length_app, length_le_bytes. lia.
  - split; [lia|]. change (8 * Z.of_nat 4) with 32. lia.
Qed.

(** The fields of the row at an offset. *)
Lemma row_read i o : offs !! i = Some o -> exists r, rows !! i = Some r /\ (o + 12 + length r.2 <= length page)%nat /\
  index_le 8 o page = Some r.1 /\ index_le 4 (o + 8) page = Some (Z.of_nat (length r.2)) /\
  subslice (o + 12) (o + 12 + length r.2) page = Some r.2.
Proof.
  intros H. destruct (row_at i o H) as (r & pre & tl & Hr & (Hk & Hb & Hl) & Hp & <- & Hend). exists r.
  rewrite length_row_enc in Hend. pose proof n_bound as (Hn1 & Hn2). unfold row_enc, row_bytes in Hp. rewrite <- !app_assoc in Hp.
  split; [done|]. split; [lia|]. split; [|split].
  - by eapply index_le_field.
  - eapply (index_le_field 4 _ _ (pre ++ le_bytes 8 r.1)); [by rewrite Hp, <- !app_assoc|by rewrite length_app, length_le_bytes|].
    split; [lia|]. change (8 * Z.of_nat 4) with 32. lia.
  - eapply (subslice_field _ _ _ (pre ++ le_bytes 8 r.1 ++ le_bytes 4 (Z.of_nat (length r.2)))); [by rewrite Hp, <- !app_assoc| |done].
    rewrite !length_app, !length_le_bytes. lia.
Qed.

Lemma iter_rows_at i : (i <= n)%nat -> iter_rows page (drop i offs) (take i rows) = Some rows.
Proof.
  remember (n - i)%nat as k. revert i Heqk. induction k as [|k IH]; intros i Hk Hi.
  { rewrite drop_ge by (rewrite length_offs; lia). cbn [iter_rows]. f_equal. apply take_ge. fold n. lia. }
  destruct (lookup_lt_is_Some_2 offs i) as [o Ho]; [rewrite length_offs; lia|].
  destruct (row_read i o Ho) as (r & Hr & Hb & Hkey & Hplen & Hpay). rewrite (drop_S _ _ _ Ho). cbn [iter_rows].
  assert ((length page <? o + 12)%nat = false) as -> by (apply Nat.ltb_ge; lia). rewrite Hkey, Hplen. cbn [mbind option_bind].
  rewrite Nat2Z.id. assert ((length page <? o + 12 + length r.2)%nat = false) as -> by (apply Nat.ltb_ge; lia).
  rewrite Hpay. cbn [mbind option_bind]. rewrite <- (IH (S i)) by lia. rewrite (take_S_r _ _ _ Hr). by destruct r.
Qed.

Lemma decode_page_iter_spec : rows <> [] -> decode_page_iter page = Some rows.
Proof.
  intros Hne. pose proof n_bound as (Hn1 & Hn2). assert (Hn : n <> 0%nat) by (unfold n; by destruct rows).
  unfold decode_page_iter. assert ((length page <? 4)%nat = false) as -> by (apply Nat.ltb_ge; lia).
  rewrite page_count. cbn [mbind option_bind]. rewrite Nat2Z.id. apply Nat.eqb_neq in Hn as ->.
  assert ((length page <? 4 + n * 4)%nat = false) as -> by (apply Nat.ltb_ge; lia).
  pose proof (read_offsets_at 0 ltac:(lia)) as Hr. rewrite Nat.sub_0_r, take_0 in Hr. rewrite Hr. cbn [mbind option_bind].
  exact (iter_rows_at 0 ltac:(lia)).
Qed.

(** The binary search: the key, if any row has it, lies in [lo..hi]. *)
Lemma page_search_spec fuel key lo hi : sorted rows -> (hi - lo < fuel)%nat -> (hi <= n)%nat ->
  all_lt (take lo rows) key -> all_gt (drop hi rows) key ->
  page_search fuel page offs key lo hi = Some (sm_lookup key rows).
Proof.
  intros Hs. revert lo hi. induction fuel as [|fuel IH]; intros lo hi Hf Hhi Hlt Hgt; [lia|]. cbn [page_search].
  destruct (lo <? hi)%nat eqn:E; prop_bools.
  2:{ f_equal. symmetry. rewrite <- (take_drop lo rows), sm_lookup_skip by done. apply sm_lookup_all_gt.
      replace lo with (hi + (lo - hi))%nat by lia. rewrite <- drop_drop. by apply Forall_drop. }
  set (mid := ((lo + hi) / 2)%nat). assert (Hmid : (lo <= mid < hi)%nat).
  { unfold mid. pose proof (Nat.div_mod (lo + hi) 2 ltac:(lia)). pose proof (Nat.mod_upper_bound (lo + hi) 2 ltac:(lia)). lia. }
  destruct (lookup_lt_is_Some_2 offs mid) as [o Ho]; [rewrite length_offs; lia|]. rewrite Ho. cbn [mbind option_bind].
  destruct (row_read mid o Ho) as (r & Hr & Hb & Hkey & Hplen & Hpay).
  assert ((length page <? o + 8)%nat = false) as -> by (apply Nat.ltb_ge; lia). rewrite Hkey. cbn [mbind option_bind].
  assert (Hrows : rows = take mid rows ++ r :: drop (S mid) rows) by (symmetry; by apply take_drop_middle).
  assert (Hs' := Hs). rewrite Hrows in Hs'. apply sorted_mid in Hs' as (_ & _ & Hl & Hg). destruct (Z.compare r.1 key) eqn:Ec.
  - apply Z.compare_eq_iff in Ec. assert ((length page <? o + 8 + 4)%nat = false) as -> by (apply Nat.ltb_ge; lia).
    rewrite Hplen. cbn [mbind option_bind]. rewrite Nat2Z.id. replace (o + 8 + 4)%nat with (o + 12)%nat by lia.
    assert ((length page <? o + 12 + length r.2)%nat = false) as -> by (apply Nat.ltb_ge; lia). rewrite Hpay. cbn [mbind option_bind].
    f_equal. rewrite Hrows, sm_lookup_skip by (by rewrite <- Ec). destruct r as [k v]. cbn [fst snd] in *. subst k. cbn [sm_lookup]. by rewrite kcmp_refl.
  - apply IH; [lia|lia| |done]. rewrite Nat.add_1_r, (take_S_r _ _ _ Hr). apply all_lt_app. split; [by eapply all_lt_mono|].
    by apply Forall_singleton.
  - assert (Hgt' : klt key r.1) by (by apply kcmp_gt). apply IH; [lia|lia|done|]. rewrite (drop_S _ _ _ Hr). constructor; [done|].
    by eapply all_gt_mono.
Qed.

Lemma decode_page_lookup_spec key : sorted rows -> rows <> [] -> decode_page_lookup page key = Some (sm_lookup key rows).
Proof.
  intros Hs Hne. pose proof n_bound as (Hn1 & Hn2). assert (Hn : n <> 0%nat) by (unfold n; by destruct rows).
  unfold decode_page_lookup. assert ((length page <? 4)%nat = false) as -> by (apply Nat.ltb_ge; lia).
  rewrite page_count. cbn [mbind option_bind]. rewrite Nat2Z.id. apply Nat.eqb_neq in Hn as ->.
  assert ((length page <? 4 + n * 4)%nat = false) as -> by (apply Nat.ltb_ge; lia).
  pose proof (read_offsets_at 0 ltac:(lia)) as Hr. rewrite Nat.sub_0_r, take_0 in Hr. rewrite Hr. cbn [mbind option_bind].
  apply page_search_spec; [done|lia|lia|constructor|]. rewrite drop_ge by (fold n; lia). constructor.
Qed.
End Reading.

(** ** Pages as groups of rows *)

Section Groups.
Context (ps : nat).

(** The page made of a group: padded to the page size, or wider. *)
Definition group_page (g : list row) : list Z :=
  let b := page_body (map row_enc g) in b ++ repeat 0 (ps - length b).

Definition first_key (g : list row) : Z := match g with [] => 0 | r :: _ => r.1 end.

Fixpoint group_index (off : nat) (gs : list (list row)) : list PageIndexEntry :=
  match gs with
  | [] => []
  | g :: gs => mk_entry (first_key g) off :: group_index (off + length (group_page g)) gs
  end.

(** The page bytes of a list of groups. *)
Definition region (gs : list (list row)) : list Z := concat (map group_page gs).

Lemma region_snoc gs g : region (gs ++ [g]) = region gs ++ group_page g.
Proof. unfold region. rewrite map_app, concat_app. cbn [map concat]. by rewrite app_nil_r. Qed.

Lemma group_index_snoc off gs g :
  group_index off (gs ++ [g]) = group_index off gs ++ [mk_entry (first_key g) (off + length (region gs))].
Proof.
  revert off. induction gs as [|h gs IH]; intros off; cbn [app group_index region map concat]; [by rewrite Nat.add_0_r|].
  rewrite IH, length_app. do 4 f_equal. unfold region. lia.
Qed.

Lemma length_group_index off gs : length (group_index off gs) = length gs.
Proof. revert off. induction gs as [|g gs IH]; intros off; cbn [group_index length]; [done|by rewrite IH]. Qed.

(** What a row weighs on a page: its offset and its bytes. *)
Definition weight (r : row) : nat := (16 + length r.2)%nat.
Definition weights (rs : list row) : nat := sum_list (map weight rs).

Lemma weights_app a b : weights (a ++ b) = (weights a + weights b)%nat.
Proof. unfold weights. induction a as [|x a IH]; cbn; unfold id in *; lia. Qed.

Lemma length_group_body g : length (page_body (map row_enc g)) = (4 + weights g)%nat.
Proof.
  rewrite length_page_body, length_map. unfold weights. induction g as [|r g IH]; [done|].
  cbn [map concat length sum_list sum_list_with] in *. rewrite length_app, length_row_enc. unfold id, weight in *. lia.
Qed.

Lemma length_group_page g : length (group_page g) = Nat.max ps (4 + weights g).
Proof. unfold group_page. rewrite length_app, repeat_length, length_group_body. lia. Qed.

(** The bound on the page bytes that the cutting keeps: a page is closed only
    when the next row does not fit, and that row's weight pays for the padding. *)
Definition bound (rs : list row) : nat := (2 * weights rs + 4 * length rs)%nat.

Lemma bound_app a b : bound (a ++ b) = (bound a + bound b)%nat.
Proof. unfold bound. rewrite weights_app, length_app. lia. Qed.

Definition head_weight (cur : list row) : nat := match cur with [] => 0 | r :: _ => weight r end.

(** The encoder has cut the closed groups [gs] and holds [cur] back; [paid] is
    what the next rows owe for the padding of the last page. *)
Record pages_inv (gs : list (list row)) (cur : list row) (paid : nat) (st : encoder) : Prop := {
  pi_pages : pages st = map group_page gs;
  pi_total : pages_bytes_total st = length (region gs);
  pi_index : enc_index st = group_index 0 gs;
  pi_rows : row_bytes_in_page st = map row_enc cur;
  pi_first : first_pk_in_page st = fst <$> head cur;
  pi_groups : Forall (fun g => g <> []) gs;
  pi_fits : cur <> [] -> (4 + weights cur <= ps)%nat;
  pi_bound : (length (region gs) <= bound (concat gs) + paid)%nat
}.

Lemma serialise_group g size : Z.of_nat (4 + weights g) < 2 ^ 32 -> (4 + weights g <= size)%nat ->
  serialise_page (map row_enc g) size = Some (page_body (map row_enc g) ++ repeat 0 (size - (4 + weights g))).
Proof. intros H1 H2. rewrite serialise_page_spec; rewrite length_group_body; done. Qed.

(** What the pages do not touch. *)
Definition same_keys (st st' : encoder) : Prop :=
  (enc_bloom st', last_key st', enc_min_pk st', enc_max_pk st', total_rows st') =
  (enc_bloom st, last_key st, enc_min_pk st, enc_max_pk st, total_rows st).

(** Closing the page in the making, because of a row of weight [w]. *)
Lemma finalise_page_spec gs cur w st : pages_inv gs cur (head_weight cur) st -> cur <> [] -> (ps < 4 + weights cur + w)%nat ->
  Z.of_nat (length (region gs)) < 2 ^ 32 -> Z.of_nat ps <= 65536 ->
  exists st', finalise_page ps st = Some st' /\ same_keys st st' /\ pages_inv (gs ++ [cur]) [] w st'.
Proof.
  intros [Hp Ht Hi Hr Hf Hg Hfit Hb] Hne Hw Hreg Hps. specialize (Hfit Hne). unfold finalise_page.
  rewrite Ht, u32_try_from_ok by done. cbn [mbind option_bind]. rewrite Hf, Hr.
  rewrite (serialise_group cur ps) by lia.
  assert (page_body (map row_enc cur) ++ repeat 0 (ps - (4 + weights cur)) = group_page cur) as ->
    by (unfold group_page; by rewrite length_group_body).
  destruct (head cur) as [r|] eqn:Eh; [|by destruct cur]. cbn [fmap option_fmap option_map mbind option_bind].
  assert (first_key cur = r.1) as Hk by (destruct cur; [done|by injection Eh as ->]).
  assert (head_weight cur <= weights cur)%nat as Hhw by (destruct cur; cbn; unfold id; lia).
  eexists. split; [done|]. split; [done|]. constructor; cbn [pages pages_bytes_total enc_index row_bytes_in_page first_pk_in_page].
  - by rewrite map_app, Hp.
  - by rewrite region_snoc, length_app.
  - by rewrite group_index_snoc, Hi, Hk.
  - done.
  - done.
  - apply Forall_app. split; [done|]. by apply Forall_singleton.
  - done.
  - rewrite region_snoc, length_app, length_group_page, concat_app, bound_app. cbn [concat]. rewrite app_nil_r. unfold bound at 2.
    assert (0 < length cur)%nat by (destruct cur; [done|cbn; lia]). lia.
Qed.

(** A row of its own page. *)
Lemma jumbo_page_spec gs st r : pages_inv gs [] (weight r) st -> row_ok r -> (ps < 4 + weight r)%nat ->
  Z.of_nat (bound (concat gs ++ [r])) < 2 ^ 32 ->
  exists st', jumbo_page r.1 (row_enc r) st = Some st' /\ same_keys st st' /\ pages_inv (gs ++ [[r]]) [] 0 st'.
Proof.
  intros [Hp Ht Hi Hr Hf Hg Hfit Hb] Hok Hbig Hbd. rewrite bound_app in Hbd. unfold bound at 2 in Hbd.
  assert (weights [r] = weight r) as Hw by (cbn; unfold id; lia). rewrite Hw in Hbd. cbn [length] in Hbd.
  unfold jumbo_page. rewrite Ht, u32_try_from_ok by lia. cbn [mbind option_bind].
  change [row_enc r] with (map row_enc [r]). rewrite length_row_enc. unfold weight in *.
  rewrite serialise_group by (rewrite Hw; lia). cbn [mbind option_bind].
  replace (page_body (map row_enc [r]) ++ repeat 0 _) with (group_page [r]); cycle 1.
  { unfold group_page. rewrite length_group_body, Hw. do 2 f_equal. lia. }
  eexists. split; [done|]. split; [done|].
  constructor; cbn [pages pages_bytes_total enc_index row_bytes_in_page first_pk_in_page].
  - by rewrite map_app, Hp.
  - by rewrite region_snoc, length_app.
  - by rewrite group_index_snoc, Hi.
  - done.
  - done.
  - apply Forall_app. split; [done|]. by apply Forall_singleton.
  - done.
  - rewrite region_snoc, length_app, length_group_page, Hw, concat_app, bound_app. cbn [concat app]. unfold bound at 2. rewrite Hw. cbn [length]. lia.
Qed.

Lemma push_row_spec gs cur paid st r : pages_inv gs cur paid st -> (4 + weights (cur ++ [r]) <= ps)%nat ->
  pages_inv gs (cur ++ [r]) paid (push_row r.1 (row_enc r) st) /\ same_keys st (push_row r.1 (row_enc r) st).
Proof.
  intros [Hp Ht Hi Hr Hf Hg Hfit Hb] Hle. split; [|done].
  constructor; cbn [pages pages_bytes_total enc_index row_bytes_in_page first_pk_in_page push_row]; try done.
  - by rewrite Hr, map_app.
  - rewrite Hf. by destruct cur.
Qed.

Lemma pages_inv_weaken gs cur a b st : pages_inv gs cur a st -> (a <= b)%nat -> pages_inv gs cur b st.
Proof. intros [] Hab. constructor; try done. lia. Qed.

Lemma same_keys_trans a b c : same_keys a b -> same_keys b c -> same_keys a c.
Proof. unfold same_keys. congruence. Qed.

Lemma proposed_size cur r : (4 + (length (map row_enc cur) + 1) * 4 + (sum_list (map length (map row_enc cur)) + length (row_enc r)))%nat =
  (4 + weights (cur ++ [r]))%nat.
Proof.
  unfold weights. rewrite length_map, length_row_enc.
  induction cur as [|x cur IH]; cbn [map app sum_list sum_list_with length] in *; rewrite ?length_row_enc; unfold id, weight in *; lia.
Qed.

(** Placing a row: the groups grow by it. *)
Lemma place_row_spec gs cur st r : pages_inv gs cur (head_weight cur) st -> row_ok r -> Z.of_nat ps <= 65536 ->
  Z.of_nat (bound (concat gs ++ cur ++ [r])) < 2 ^ 32 ->
  exists gs' cur' st', place_row ps r.1 r.2 st = Some (Ok st') /\ same_keys st st' /\ pages_inv gs' cur' (head_weight cur') st' /\
    concat gs' ++ cur' = concat gs ++ cur ++ [r].
Proof.
  intros Hinv Hok Hps Hbd. pose proof Hinv as [Hp Ht Hi Hr Hf Hg Hfit Hb]. pose proof Hok as (_ & _ & Hlen).
  assert (Hw1 : weights [r] = weight r) by (cbn; unfold id; lia). assert (Hjw : (4 + 4 + length (row_enc r) = 4 + weight r)%nat)
    by (rewrite length_row_enc; unfold weight; lia).
  unfold place_row. rewrite u32_try_from_ok by done. fold (row_enc r). cbv zeta. rewrite Hr, proposed_size, Hjw.
  destruct (ps <? 4 + weights (cur ++ [r]))%nat eqn:E; prop_bools.
  2:{ destruct (push_row_spec gs cur _ st r Hinv E) as (H1 & H2). exists gs, (cur ++ [r]), (push_row r.1 (row_enc r) st).
      split; [done|]. split; [done|]. split; [|done]. destruct cur as [|c cur]; [|done]. eapply pages_inv_weaken; [exact H1|cbn; lia]. }
  rewrite weights_app, Hw1 in E. rewrite !bound_app in Hbd.
  assert (Hclose : exists gs1 st1, match map row_enc cur with [] => Some st | _ => finalise_page ps st end = Some st1 /\ same_keys st st1 /\
            pages_inv gs1 [] (weight r) st1 /\ concat gs1 = concat gs ++ cur).
  { destruct cur as [|c cur]; [exists gs, st|].
    - split; [done|]. split; [done|]. split; [eapply pages_inv_weaken; [exact Hinv|cbn; lia]|by rewrite app_nil_r].
    - cbn [map]. set (g := c :: cur) in *. destruct (finalise_page_spec gs g (weight r) st) as (st1 & E1 & S1 & I1); [done|done|lia| |done|].
      { assert (weight c <= bound g)%nat by (unfold bound, g; cbn; unfold id; lia). change (head_weight g) with (weight c) in Hb. lia. }
      exists (gs ++ [g]), st1. split; [done|]. split; [done|]. split; [done|]. rewrite concat_app. cbn [concat]. by rewrite app_nil_r. }
  destruct Hclose as (gs1 & st1 & -> & S1 & I1 & C1). cbn [mbind option_bind].
  destruct (ps <? 4 + weight r)%nat eqn:Ej; prop_bools.
  - destruct (jumbo_page_spec gs1 st1 r I1 Hok Ej) as (st2 & -> & S2 & I2); [rewrite C1, !bound_app; lia|].
    exists (gs1 ++ [[r]]), [], st2. cbn [mbind option_bind]. split; [done|]. split; [by eapply same_keys_trans|]. split; [done|].
    rewrite concat_app, C1. cbn [concat app]. by rewrite app_nil_r, <- app_assoc.
  - destruct (push_row_spec gs1 [] _ st1 r I1) as (I2 & S2); [cbn [app]; lia|]. exists gs1, [r], (push_row r.1 (row_enc r) st1).
    split; [done|]. split; [by eapply same_keys_trans|]. split; [done|]. by rewrite C1, <- app_assoc.
Qed.

(** The last page closed. *)
Lemma close_last gs cur st : pages_inv gs cur (head_weight cur) st -> Z.of_nat ps <= 65536 ->
  Z.of_nat (bound (concat gs ++ cur) + ps) < 2 ^ 32 ->
  exists st' gs', match row_bytes_in_page st with [] => Some st | _ => finalise_page ps st end = Some st' /\ same_keys st st' /\
    pages_inv gs' [] ps st' /\ concat gs' = concat gs ++ cur.
Proof.
  intros Hinv Hps Hb. pose proof Hinv as [_ _ _ Hr _ _ _ Hbd]. rewrite Hr, bound_app in *. destruct cur as [|c cur].
  - exists st, gs. split; [done|]. split; [done|]. split; [eapply pages_inv_weaken; [exact Hinv|cbn; lia]|by rewrite app_nil_r].
  - cbn [map]. set (g := c :: cur) in *. destruct (finalise_page_spec gs g ps st) as (st' & E & S & I); [done|done| | |done|].
    + unfold g, weights. cbn. unfold id. lia.
    + assert (weight c <= bound g)%nat by (unfold bound, g; cbn; unfold id; lia). change (head_weight g) with (weight c) in Hbd. lia.
    + exists st', (gs ++ [g]). split; [done|]. split; [done|]. split; [done|]. rewrite concat_app. cbn [concat]. by rewrite app_nil_r.
Qed.
End Groups.

(** ** The loop over the rows *)

Definition key_bytes (r : row) : list Z := le_bytes 8 r.1.

Section Rows.
Context (ps words : nat) (hashes : Z).
Hypothesis (Hps : Z.of_nat ps <= 65536) (Hwords : (0 < words)%nat) (Hhashes : 1 <= hashes <= NUM_HASHES_MAX).

(** What the encoder remembers of the rows [done]. *)
Record keys_inv (done : list row) (st : encoder) : Prop := {
  ki_bloom : insert_all (map key_bytes done) (empty words hashes) = Some (enc_bloom st);
  ki_last : last_key st = fst <$> last done;
  ki_min : enc_min_pk st = fst <$> head done;
  ki_max : enc_max_pk st = from_option fst 0 (last done);
  ki_total : total_rows st = wrap 64 (Z.of_nat (length done))
}.

Lemma keys_inv_same done st st' : keys_inv done st -> same_keys st st' -> keys_inv done st'.
Proof. intros [] [= ]. constructor; congruence. Qed.

Lemma note_key_spec done gs cur paid st r : keys_inv done st -> pages_inv ps gs cur paid st -> sorted (done ++ [r]) ->
  exists st', note_key r.1 st = Some (Ok st') /\ keys_inv (done ++ [r]) st' /\ pages_inv ps gs cur paid st'.
Proof.
  intros [Hb Hl Hm HM Ht] Hp Hs. unfold note_key. rewrite Hl.
  destruct (insert_all_spec words hashes (map key_bytes (done ++ [r])) Hwords Hhashes) as (f & Ef & _).
  rewrite map_app in Ef. unfold insert_all in Ef, Hb. cbn [map] in Ef. rewrite foldl_snoc, Hb in Ef. cbn [mbind option_bind] in Ef.
  assert (Hord : forall p, last done = Some p -> r.1 <=? p.1 = false).
  { intros p (l & ->)%last_Some. apply Z.leb_gt. apply sorted_app in Hs as (Hs & _).
    specialize (Hs p ltac:(apply elem_of_app; right; by left)). by apply Forall_singleton, klt_Z in Hs. }
  set (checked := match fst <$> last done with Some _ => _ | None => _ end).
  assert (checked = Some (Ok st)) as ->.
  { unfold checked. destruct (last done) as [p|]; [|done]. cbn [fmap option_fmap option_map]. by rewrite (Hord p eq_refl). }
  cbn [obind]. fold (key_bytes r). rewrite Ef. cbn [mbind option_bind]. eexists. split; [done|]. split.
  - constructor; cbn [enc_bloom last_key enc_min_pk enc_max_pk total_rows].
    + unfold insert_all. rewrite map_app. cbn [map]. by rewrite foldl_snoc, Hb.
    + by rewrite last_snoc.
    + rewrite Hm. by destruct done.
    + by rewrite last_snoc.
    + rewrite Ht, length_app. unfold wrapping_add, wrap. rewrite Zplus_mod_idemp_l. cbn [length]. f_equal. lia.
  - destruct Hp. by constructor.
Qed.

Lemma encode_rows_app a b st : encode_rows ps (a ++ b) st = let!? st := encode_rows ps a st in encode_rows ps b st.
Proof.
  revert st. induction a as [|r a IH]; intros st; cbn [app encode_rows obind]; [done|].
  destruct (encode_row ps st r) as [[st'|e]|]; cbn [obind]; [apply IH|done..].
Qed.

Lemma encode_rows_spec rows done gs cur st :
  keys_inv done st -> pages_inv ps gs cur (head_weight cur) st -> concat gs ++ cur = done ->
  sorted (done ++ rows) -> Forall row_ok rows -> Z.of_nat (bound (done ++ rows)) < 2 ^ 32 ->
  exists gs' cur' st', encode_rows ps rows st = Some (Ok st') /\ keys_inv (done ++ rows) st' /\
    pages_inv ps gs' cur' (head_weight cur') st' /\ concat gs' ++ cur' = done ++ rows.
Proof.
  revert done gs cur st. induction rows as [|r rows IH]; intros done gs cur st Hk Hp Hc Hs Hok Hb.
  { exists gs, cur, st. rewrite app_nil_r. split; [done|]. split; [done|]. split; [done|done]. }
  apply Forall_cons in Hok as (Hr & Hok). cbn [encode_rows]. rewrite (app_assoc done [r] rows : done ++ r :: rows = _) in *.
  destruct (note_key_spec done gs cur _ st r Hk Hp) as (st1 & E1 & K1 & P1); [by apply sorted_app_l in Hs|].
  destruct (place_row_spec ps gs cur st1 r P1 Hr Hps) as (gs2 & cur2 & st2 & E2 & S2 & P2 & C2).
  { rewrite app_assoc, Hc. rewrite bound_app in Hb. lia. }
  unfold encode_row. destruct r as [key payload]. cbn [fst snd] in *. rewrite E1. cbn [obind]. rewrite E2. cbn [obind].
  apply (IH (done ++ [(key, payload)]) gs2 cur2 st2); [by eapply keys_inv_same|done| |done..].
  by rewrite C2, app_assoc, Hc.
Qed.

(** A key that does not grow ends the encoding. *)
Lemma encode_rows_unsorted done gs cur st good prev r rest :
  keys_inv done st -> pages_inv ps gs cur (head_weight cur) st -> concat gs ++ cur = done ->
  sorted (done ++ good ++ [prev]) -> Forall row_ok (good ++ [prev]) -> Z.of_nat (bound (done ++ good ++ [prev])) < 2 ^ 32 ->
  r.1 <= prev.1 -> encode_rows ps (good ++ prev :: r :: rest) st = Some (Err (UnsortedKey prev.1 r.1)).
Proof.
  intros Hk Hp Hc Hs Hok Hb Hle. rewrite (app_assoc good [prev] (r :: rest) : good ++ prev :: r :: rest = _), encode_rows_app.
  destruct (encode_rows_spec (good ++ [prev]) done gs cur st Hk Hp Hc Hs Hok Hb) as (gs' & cur' & st' & -> & K & _ & _).
  cbn [obind encode_rows]. destruct r as [key payload]. cbn [encode_row fst] in *. unfold note_key. rewrite (ki_last _ _ K).
  rewrite app_assoc, last_snoc. cbn [fmap option_fmap option_map]. by apply Z.leb_le in Hle as ->.
Qed.
End Rows.

(** ** The file *)

Definition entry_enc (e : PageIndexEntry) : list Z := le_bytes 8 (first_pk e) ++ le_bytes 4 (Z.of_nat (file_offset e)).
Definition index_enc (index : list PageIndexEntry) : list Z := le_bytes 4 (Z.of_nat (length index)) ++ concat (map entry_enc index).

Lemma length_entry_enc e : length (entry_enc e) = 12%nat.
Proof. unfold entry_enc. by rewrite length_app, !length_le_bytes. Qed.

Lemma length_index_enc index : length (index_enc index) = (4 + length index * 12)%nat.
Proof. unfold index_enc. by rewrite length_app, length_le_bytes, (length_concat_map entry_enc 12) by apply length_entry_enc. Qed.

Lemma fold_app_concat {A} (f : A -> list Z) xs out : fold_left (fun out x => out ++ f x) xs out = out ++ concat (map f xs).
Proof.
  revert out. induction xs as [|x xs IH]; intros out; cbn [fold_left map concat]; [by rewrite app_nil_r|]. by rewrite IH, <- app_assoc.
Qed.

Lemma encode_page_index_spec index : Z.of_nat (length index) < 2 ^ 32 -> encode_page_index index = Some (index_enc index).
Proof. intros H. unfold encode_page_index. rewrite u32_try_from_ok by done. cbn [mbind option_bind]. by rewrite (fold_app_concat entry_enc). Qed.

Section File.
Context (psz : Z) (gs : list (list row)) (bf : BloomFilter).
Let ps := Z.to_nat psz.

Definition last_pk (rows : list row) : Z := from_option fst 0 (last rows).

(** The header's fields, the filter and the page index. *)
Definition file_head : list Z :=
  le_bytes 4 (Z.of_nat (length (concat gs))) ++ le_bytes 4 (Z.of_nat (length gs)) ++ le_bytes 4 psz ++
  le_bytes 8 (first_key (concat gs)) ++ le_bytes 8 (last_pk (concat gs)) ++
  le_bytes 4 (Z.of_nat (length (Bloom.to_bytes bf))) ++ Bloom.to_bytes bf ++
  le_bytes 4 (Z.of_nat (length (index_enc (group_index ps 0 gs)))) ++ index_enc (group_index ps 0 gs).

Definition file_body : list Z := file_head ++ region ps gs.

Definition segment_file : list Z := SEGMENT_MAGIC_V4 ++ file_body ++ le_bytes 4 (crc32 file_body).

Definition segment_meta : SegmentMeta :=
  mk_meta (Z.of_nat (length (concat gs))) (length gs) psz (first_key (concat gs)) (last_pk (concat gs)) (length segment_file).
End File.

(** A well-formed segment of [rows]: its pages cut them, its filter holds their
    keys, and every length fits its field. *)
Record segment_of (psz : Z) (rows : list row) (gs : list (list row)) (bf : BloomFilter) : Prop := {
  so_rows : concat gs = rows;
  so_some : rows <> [];
  so_sorted : sorted rows;
  so_ok : Forall row_ok rows;
  so_pages : Forall (fun g => g <> []) gs;
  so_psz : 256 <= psz <= 65536;
  so_region : Z.of_nat (length (region (Z.to_nat psz) gs)) < 2 ^ 32;
  so_count : Z.of_nat (4 + length rows * 12) < 2 ^ 32;
  so_filter : filter_ok bf;
  so_bits : u64 (num_bits bf);
  so_size : Z.of_nat (length (Bloom.to_bytes bf)) < 2 ^ 32;
  so_keys : forall r, r ∈ rows -> Bloom.contains (key_bytes r) bf = Some true
}.

Lemma length_groups gs : Forall (fun g : list row => g <> []) gs -> (length gs <= length (concat gs))%nat.
Proof.
  induction 1 as [|g gs Hg H IH]; [done|]. cbn [concat length]. rewrite length_app.
  assert (0 < length g)%nat by (destruct g; [done|cbn; lia]). lia.
Qed.

Lemma u32_of_nat n : Z.of_nat n < 2 ^ 32 -> in_w 32 (Z.of_nat n).
Proof. split; [lia|done]. Qed.

Lemma head_first_key rows : rows <> [] -> fst <$> head rows = Some (first_key rows).
Proof. by destruct rows. Qed.

Section Encode.
Context (words : nat) (hashes : Z).
Hypothesis (Hwords : (0 < words)%nat) (Hhashes : 1 <= hashes <= NUM_HASHES_MAX).
Hypothesis (Hbloom : Z.of_nat (20 + words * 8) < 2 ^ 32).

Definition encoder_start (bf : BloomFilter) : encoder := mk_encoder bf [] 0 [] [] None None None 0 0.

(** The encoder run over all the rows, and its last page closed. *)
Lemma encode_pages psz rows : 256 <= psz <= 65536 -> rows <> [] -> sorted rows -> Forall row_ok rows ->
  Z.of_nat (bound rows) + psz < 2 ^ 32 ->
  exists st st' gs, encode_rows (Z.to_nat psz) rows (encoder_start (empty words hashes)) = Some (Ok st) /\
    match row_bytes_in_page st with [] => Some st | _ => finalise_page (Z.to_nat psz) st end = Some st' /\
    keys_inv words hashes rows st' /\ pages st' = map (group_page (Z.to_nat psz)) gs /\
    enc_index st' = group_index (Z.to_nat psz) 0 gs /\ segment_of psz rows gs (enc_bloom st').
Proof.
  intros Hpsz Hne Hs Hok Hb. set (ps := Z.to_nat psz). assert (Hps : Z.of_nat ps <= 65536) by lia.
  assert (K0 : keys_inv words hashes [] (encoder_start (empty words hashes))) by done.
  assert (P0 : pages_inv ps [] [] 0 (encoder_start (empty words hashes))) by (constructor; [done..|cbn; lia]).
  destruct (encode_rows_spec ps words hashes Hps Hwords Hhashes rows [] [] [] _ K0 P0 eq_refl Hs Hok ltac:(cbn [app]; lia))
    as (gs0 & cur & st & E & K & P & C). cbn [app] in K, C.
  destruct (close_last ps gs0 cur st P Hps) as (st' & gs & E' & S & P' & C'); [rewrite C; lia|].
  apply (keys_inv_same _ _ _ _ st') in K; [|done]. exists st, st', gs. destruct P'. rewrite C in C'.
  destruct (insert_all_spec words hashes (map key_bytes rows) Hwords Hhashes) as (f & Ef & Fok & Fl & Fn & _).
  pose proof (ki_bloom _ _ _ _ K) as Eb. rewrite Ef in Eb. injection Eb as Eb.
  do 5 (split; [done|]). constructor; try done.
  - rewrite C' in pi_bound0. fold ps. lia.
  - unfold bound, weights in Hb. assert (16 * length rows <= sum_list (map weight rows))%nat; [|lia].
    clear. induction rows as [|r rows IH]; cbn; unfold id, weight in *; lia.
  - by rewrite <- Eb.
  - rewrite <- Eb, (ok_words f Fok), Fl. split; lia.
  - rewrite <- Eb. destruct (bloom_roundtrip f Fok) as (_ & ->); [rewrite (ok_words f Fok), Fl; split; lia|]. unfold encoded_len. rewrite Fl. lia.
  - intros r Hr. rewrite <- Eb. apply (insert_all_contains words hashes (map key_bytes rows)); [done|done|done|].
    apply list_elem_of_In, in_map_iff. exists r. split; [done|]. by apply list_elem_of_In.
Qed.

(** The assembled file is the layout. *)
Lemma assemble_spec psz rows gs st : keys_inv words hashes rows st -> pages st = map (group_page (Z.to_nat psz)) gs ->
  enc_index st = group_index (Z.to_nat psz) 0 gs -> segment_of psz rows gs (enc_bloom st) ->
  assemble psz st = Some (Ok (segment_file psz gs (enc_bloom st), segment_meta psz gs (enc_bloom st))).
Proof.
  intros [_ _ Hm HM Ht] Hp Hi [Hrows Hne _ _ Hgs _ _ Hc _ _ Hsz _].
  assert (Hlg : (length gs <= length rows)%nat) by (rewrite <- Hrows; by apply length_groups).
  unfold assemble. rewrite Hp, length_map, u32_try_from_ok by lia. rewrite Ht, wrap_id by (split; lia).
  assert (2 ^ 32 <=? Z.of_nat (length rows) = false) as -> by (apply Z.leb_gt; lia).
  rewrite Hm, head_first_key, Hi by done. cbn [mbind option_bind].
  rewrite encode_page_index_spec by (rewrite length_group_index; lia). cbn [mbind option_bind].
  rewrite (u32_try_from_ok (length (Bloom.to_bytes _))) by done. cbn [mbind option_bind].
  rewrite u32_try_from_ok by (rewrite length_index_enc, length_group_index; lia). cbn [mbind option_bind]. rewrite HM.
  rewrite (fold_app_concat id), map_id. fold (region (Z.to_nat psz) gs).
  unfold segment_meta, segment_file, file_body, file_head, last_pk. rewrite Hrows. rewrite <- !app_assoc. cbn [length SEGMENT_MAGIC_V4].
  by rewrite drop_app_length'.
Qed.
End Encode.

(** Rows the writer takes: ascending keys, payloads and a total within the
    format's 32-bit lengths, and a filter under 4 GiB. *)
Record encodable (rows : list row) (fp : f64) (psz : Z) : Prop := {
  ec_psz : 256 <= psz <= 65536;
  ec_some : rows <> [];
  ec_sorted : sorted rows;
  ec_ok : Forall row_ok rows;
  ec_bound : Z.of_nat (bound rows) + psz < 2 ^ 32;
  ec_filter : exists bf, with_target_fp_rate (length rows) fp = Some bf /\ Z.of_nat (20 + length (bits bf) * 8) < 2 ^ 32
}.

Lemma filter_start n fp bf : with_target_fp_rate n fp = Some bf -> Z.of_nat (20 + length (bits bf) * 8) < 2 ^ 32 ->
  exists words hashes, (0 < words)%nat /\ 1 <= hashes <= NUM_HASHES_MAX /\ Z.of_nat (20 + words * 8) < 2 ^ 32 /\ bf = empty words hashes.
Proof.
  intros E H. destruct (with_target_fp_rate_spec n fp bf E) as (words & hashes & H1 & H2 & ->); [lia|].
  exists words, hashes. split; [done|]. split; [done|]. split; [|done]. cbn [bits empty] in H. by rewrite repeat_length in H.
Qed.

Lemma encode_guards psz n : 256 <= psz <= 65536 -> (0 < n)%nat ->
  negb ((256 <=? psz) && (psz <=? 65536)) = false /\ (n =? 0)%nat = false.
Proof. intros H Hn. split; [apply negb_false_iff, andb_true_iff; split; apply Z.leb_le; lia|apply Nat.eqb_neq; lia]. Qed.

Lemma encode_segment_ok rows fp psz : encodable rows fp psz ->
  exists gs bf, encode_segment rows fp psz = Some (Ok (segment_file psz gs bf, segment_meta psz gs bf)) /\ segment_of psz rows gs bf.
Proof.
  intros [Hpsz Hne Hs Hok Hb (bf & Ef & Hbf)]. destruct (filter_start _ _ _ Ef Hbf) as (words & hashes & Hw & Hh & Hsz & ->).
  destruct (encode_pages words hashes Hw Hh Hsz psz rows Hpsz Hne Hs Hok Hb) as (st & st' & gs & E1 & E2 & K & P & I & S).
  exists gs, (enc_bloom st'). split; [|done]. unfold encode_segment.
  destruct (encode_guards psz (length rows) Hpsz) as (-> & ->); [destruct rows; [done|cbn; lia]|].
  rewrite Ef. cbn [mbind option_bind]. fold (encoder_start (empty words hashes)). rewrite E1. cbn [obind]. rewrite E2. cbn [mbind option_bind].
  by eapply assemble_spec.
Qed.

Lemma encode_segment_unsorted good prev r rest fp psz bf :
  256 <= psz <= 65536 -> sorted (good ++ [prev]) -> Forall row_ok (good ++ [prev]) -> Z.of_nat (bound (good ++ [prev])) < 2 ^ 32 ->
  with_target_fp_rate (length (good ++ prev :: r :: rest)) fp = Some bf -> Z.of_nat (20 + length (bits bf) * 8) < 2 ^ 32 ->
  r.1 <= prev.1 -> encode_segment (good ++ prev :: r :: rest) fp psz = Some (Err (UnsortedKey prev.1 r.1)).
Proof.
  intros Hpsz Hs Hok Hb Ef Hbf Hle. destruct (filter_start _ _ _ Ef Hbf) as (words & hashes & Hw & Hh & Hsz & ->). unfold encode_segment.
  destruct (encode_guards psz (length (good ++ prev :: r :: rest)) Hpsz) as (-> & ->); [rewrite length_app; cbn; lia|].
  rewrite Ef. cbn [mbind option_bind].
  rewrite (encode_rows_unsorted (Z.to_nat psz) words hashes ltac:(lia) Hw Hh [] [] []); done.
Qed.
