(* ===== verification/SegmentRead.v ===== *)
(** The segment reader on what the writer wrote: the header parses back, every
    lookup is the lookup in the sorted rows, and the scan gives the rows. *)
From S2P Require Import Prelude Bytes SortedMap Crc Lzss Bloom Segment SegmentEncode.
Open Scope Z_scope.

(** ** The page index *)

Lemma parse_entries_spec index i post : Forall (fun e => u64 (first_pk e) /\ Z.of_nat (file_offset e) < 2 ^ 32) index ->
  (i <= length index)%nat ->
  parse_entries (index_enc index ++ post) i (length index - i) (take i index) = Some index.
Proof.
  intros Hok. remember (length index - i)%nat as k. revert i Heqk. induction k as [|k IH]; intros i Hk Hi; cbn [parse_entries].
  { f_equal. apply take_ge. lia. }
  destruct (lookup_lt_is_Some_2 index i) as [e He]; [lia|].
  destruct (concat_map_field entry_enc 12 index i e length_entry_enc He) as (p & q & Hpq & Hlp).
  pose proof (Forall_lookup_1 _ _ _ _ Hok He) as (Hpk & Hoff). unfold index_enc in *. unfold entry_enc at 2 in Hpq.
  rewrite (index_le_field 8 _ (first_pk e) (le_bytes 4 (Z.of_nat (length index)) ++ p) (le_bytes 4 (Z.of_nat (file_offset e)) ++ q ++ post));
    [|by rewrite Hpq, <- !app_assoc|rewrite length_app, length_le_bytes; lia|done]. cbn [mbind option_bind].
  rewrite (index_le_field 4 _ (Z.of_nat (file_offset e)) (le_bytes 4 (Z.of_nat (length index)) ++ p ++ le_bytes 8 (first_pk e)) (q ++ post));
    [|by rewrite Hpq, <- !app_assoc|rewrite !length_app, !length_le_bytes; lia|by apply u32_of_nat]. cbn [mbind option_bind].
  rewrite Nat2Z.id, <- (IH (S i)) by lia. rewrite (take_S_r _ _ _ He). by destruct e.
Qed.

Lemma parse_page_index_spec index : Forall (fun e => u64 (first_pk e) /\ Z.of_nat (file_offset e) < 2 ^ 32) index ->
  Z.of_nat (length index) < 2 ^ 32 -> parse_page_index (index_enc index) = Some (Ok index).
Proof.
  intros Hok Hl. unfold parse_page_index. rewrite length_index_enc.
  assert ((4 + length index * 12 <? 4)%nat = false) as -> by (apply Nat.ltb_ge; lia).
  rewrite (index_le_field 4 0 (Z.of_nat (length index)) [] (concat (map entry_enc index))); [|done|done|by apply u32_of_nat].
  cbn [mbind option_bind]. rewrite Nat2Z.id, Nat.eqb_refl. cbn [negb].
  pose proof (parse_entries_spec index 0 [] Hok ltac:(lia)) as H. rewrite app_nil_r, Nat.sub_0_r, take_0 in H. by rewrite H.
Qed.

(** Where the pages lie. *)
Lemma group_index_at ps off gs i e : group_index ps off gs !! i = Some e ->
  exists g, gs !! i = Some g /\ e = mk_entry (first_key g) (off + length (region ps (take i gs))).
Proof.
  revert off i. induction gs as [|g gs IH]; intros off [|i]; cbn [group_index lookup list_lookup take]; try done.
  - intros [= <-]. exists g. split; [done|]. cbn. by rewrite Nat.add_0_r.
  - intros H. destruct (IH _ _ H) as (g' & Hg' & ->). exists g'. split; [done|]. f_equal. unfold region. cbn [map concat]. rewrite length_app. lia.
Qed.

Lemma group_index_lookup ps gs i g : gs !! i = Some g ->
  group_index ps 0 gs !! i = Some (mk_entry (first_key g) (length (region ps (take i gs)))).
Proof.
  intros Hg. destruct (lookup_lt_is_Some_2 (group_index ps 0 gs) i) as [e He].
  { rewrite length_group_index. by eapply lookup_lt_Some. }
  destruct (group_index_at _ _ _ _ _ He) as (g' & Hg' & ->). by rewrite He, Hg in *; injection Hg' as ->.
Qed.

Lemma region_split ps gs i g : gs !! i = Some g -> region ps gs = region ps (take i gs) ++ group_page ps g ++ region ps (drop (S i) gs).
Proof.
  intros Hg. rewrite <- (take_drop_middle gs i g Hg) at 1. unfold region. by rewrite map_app, concat_app.
Qed.

(** ** The file is made of bytes *)

Lemma to_bytes_bytes f : is_bytes (Bloom.to_bytes f).
Proof.
  rewrite to_bytes_parts, !is_bytes_app. split_and!; [apply le_bytes_bytes..|apply words_bytes].
Qed.

Lemma zeros_bytes n : is_bytes (repeat 0 n).
Proof. induction n; constructor; [done|done]. Qed.

Lemma group_page_bytes ps g : Forall row_ok g -> is_bytes (group_page ps g).
Proof.
  intros H. unfold group_page. apply is_bytes_app. split; [|apply zeros_bytes]. apply page_body_bytes, Forall_fmap.
  eapply Forall_impl; [exact H|]. apply row_enc_bytes.
Qed.

Lemma region_bytes ps gs : Forall row_ok (concat gs) -> is_bytes (region ps gs).
Proof.
  unfold region. induction gs as [|g gs IH]; cbn [concat map]; intros H; [constructor|]. apply Forall_app in H as (Hg & H).
  apply is_bytes_app. split; [by apply group_page_bytes|by apply IH].
Qed.

Lemma index_enc_bytes index : is_bytes (index_enc index).
Proof.
  unfold index_enc. apply is_bytes_app. split; [apply le_bytes_bytes|]. apply is_bytes_concat_map. intros e. unfold entry_enc.
  apply is_bytes_app. split; apply le_bytes_bytes.
Qed.

Lemma file_body_bytes psz gs bf : Forall row_ok (concat gs) -> is_bytes (file_body psz gs bf).
Proof.
  intros H. unfold file_body, file_head. rewrite !is_bytes_app.
  split_and!; auto using le_bytes_bytes, to_bytes_bytes, index_enc_bytes, region_bytes.
Qed.

(** ** The standard library's binary search *)

(** It answers for any comparison, an index of the list. *)
Lemma bs_loop_total {A} fuel (f : A -> comparison) l base size :
  (0 < size)%nat -> (size <= S fuel)%nat -> (base + size <= length l)%nat ->
  exists b, bs_loop fuel f l base size = Some b /\ (base <= b < base + size)%nat.
Proof.
  revert base size. induction fuel as [|fuel IH]; intros base size H0 Hf Hl; cbn [bs_loop]; (destruct (1 <? size)%nat eqn:E; prop_bools; [|exists base; split; [done|lia]]); [lia|].
  assert (Hh : (1 <= size / 2 <= size - 1)%nat).
  { pose proof (Nat.div_mod size 2 ltac:(lia)). pose proof (Nat.mod_upper_bound size 2 ltac:(lia)). lia. }
  destruct (lookup_lt_is_Some_2 l (base + size / 2)) as [x ->]; [lia|]. cbn [mbind option_bind].
  set (base' := match f x with Gt => base | _ => _ end). assert (base <= base' <= base + size / 2)%nat by (unfold base'; destruct (f x); lia).
  destruct (IH base' (size - size / 2)%nat) as (b & -> & Hb); [lia..|]. exists b. split; [done|lia].
Qed.

(** [f] is [Gt] from some point on and never before. *)
Definition gt_tail {A} (f : A -> comparison) (l : list A) : Prop :=
  forall i j x y, (i < j)%nat -> l !! i = Some x -> l !! j = Some y -> f x <> Lt -> f y = Gt.

Lemma bs_loop_spec {A} fuel (f : A -> comparison) l base size b : gt_tail f l ->
  (0 < size)%nat -> (base + size <= length l)%nat ->
  (base <> 0%nat -> forall x, l !! base = Some x -> f x <> Gt) ->
  (forall j x, (base + size <= j)%nat -> l !! j = Some x -> f x = Gt) ->
  bs_loop fuel f l base size = Some b ->
  (b <> 0%nat -> forall x, l !! b = Some x -> f x <> Gt) /\ (forall j x, (b < j)%nat -> l !! j = Some x -> f x = Gt).
Proof.
  intros Hm. revert base size. induction fuel as [|fuel IH]; intros base size H0 Hl Hb Ha; cbn [bs_loop];
    (destruct (1 <? size)%nat eqn:E; prop_bools; [|intros [= <-]; split; [done|intros j x Hj; apply Ha; lia]]); [done|].
  assert (Hh : (1 <= size / 2 <= size - 1)%nat /\ (2 * (size / 2) <= size)%nat).
  { pose proof (Nat.div_mod size 2 ltac:(lia)). pose proof (Nat.mod_upper_bound size 2 ltac:(lia)). lia. }
  destruct (l !! (base + size / 2)%nat) as [x|] eqn:Ex; cbn [mbind option_bind]; [|done].
  destruct (f x) eqn:Ef; apply IH; try lia; try done.
  - intros _ y Hy. rewrite Ex in Hy. injection Hy as <-. by rewrite Ef.
  - intros j y Hj. apply Ha. lia.
  - intros _ y Hy. rewrite Ex in Hy. injection Hy as <-. by rewrite Ef.
  - intros j y Hj. apply Ha. lia.
  - intros j y Hj Hy. destruct (decide (j = base + size / 2)%nat) as [->|]; [congruence|].
    apply (Hm (base + size / 2)%nat j x y); [lia|done|done|by rewrite Ef].
Qed.

(** What the answer says: the candidate is the last entry that is not [Gt]. *)
Definition candidate (r : search) : option nat := match r with At i => Some i | Before O => None | Before (S i) => Some i end.

Lemma binary_search_by_total {A} (f : A -> comparison) l :
  exists r, binary_search_by f l = Some r /\ forall c, candidate r = Some c -> (c < length l)%nat.
Proof.
  unfold binary_search_by. destruct (length l =? 0)%nat eqn:E; prop_bools; [by exists (Before 0)|].
  destruct (bs_loop_total (length l) f l 0 (length l)) as (b & -> & Hb); [lia..|]. cbn [mbind option_bind].
  destruct (lookup_lt_is_Some_2 l b) as [x ->]; [lia|]. cbn [mbind option_bind].
  exists (match f x with Eq => At b | Lt => Before (b + 1) | Gt => Before b end). split; [by destruct (f x)|]. intros c.
  rewrite Nat.add_1_r. destruct (f x); [..|destruct b; [done|]]; intros [= <-]; lia.
Qed.

Lemma binary_search_by_spec {A} (f : A -> comparison) l r : gt_tail f l -> binary_search_by f l = Some r ->
  match candidate r with
  | Some c => exists x, l !! c = Some x /\ f x <> Gt /\ forall j y, (c < j)%nat -> l !! j = Some y -> f y = Gt
  | None => forall j y, l !! j = Some y -> f y = Gt
  end.
Proof.
  intros Hm. unfold binary_search_by. destruct (length l =? 0)%nat eqn:E; prop_bools.
  { intros [= <-]. cbn [candidate]. intros j y Hj. by destruct l. }
  destruct (bs_loop (length l) f l 0 (length l)) as [b|] eqn:Eb; cbn [mbind option_bind]; [|done].
  destruct (bs_loop_spec (length l) f l 0 (length l) b Hm) as (H1 & H2); [lia|lia|done| |done|].
  { intros j x Hj Hx. apply lookup_lt_Some in Hx. lia. }
  destruct (l !! b) as [x|] eqn:Ex; cbn [mbind option_bind]; [|done].
  destruct (f x) eqn:Ef; intros [= <-]; rewrite ?Nat.add_1_r; cbn [candidate].
  - exists x. split; [done|]. by rewrite Ef.
  - exists x. split; [done|]. by rewrite Ef.
  - destruct b as [|b]; [|by destruct (H1 ltac:(done) x eq_refl)]. intros j y Hj. destruct j; [congruence|]. apply (H2 (S j)); [lia|done].
Qed.

(** ** The header *)

Section Read.
Context (psz : Z) (rows : list row) (gs : list (list row)) (bf : BloomFilter).
Hypothesis (Hseg : segment_of psz rows gs bf).

Let ps := Z.to_nat psz.
Let B := Bloom.to_bytes bf.
Let I := index_enc (group_index ps 0 gs).
Let R := region ps gs.
Let bytes := segment_file psz gs bf.

Definition file_metadata : SegmentMetadata :=
  mk_metadata (segment_meta psz gs bf) bf (group_index ps 0 gs) 47 (40 + length B + 4 + length I).

Lemma file_chain : bytes = SEGMENT_MAGIC_V4 ++ le_bytes 4 (Z.of_nat (length rows)) ++ le_bytes 4 (Z.of_nat (length gs)) ++ le_bytes 4 psz ++
  le_bytes 8 (first_key rows) ++ le_bytes 8 (last_pk rows) ++ le_bytes 4 (Z.of_nat (length B)) ++ B ++
  le_bytes 4 (Z.of_nat (length I)) ++ I ++ R ++ le_bytes 4 (crc32 (file_body psz gs bf)).
Proof.
  unfold bytes, segment_file, B, I, R, ps. unfold file_body at 1, file_head. rewrite (so_rows _ _ _ _ Hseg). by rewrite <- !app_assoc.
Qed.

Lemma length_file : length bytes = (40 + length B + 4 + length I + length R + 4)%nat.
Proof. rewrite file_chain, !length_app, !length_le_bytes. cbn [length SEGMENT_MAGIC_V4]. lia. Qed.

Lemma row_key_u64 r : r ∈ rows -> u64 r.1.
Proof. intros Hr. pose proof (so_ok _ _ _ _ Hseg) as H. rewrite Forall_forall in H. by destruct (H r Hr). Qed.

Lemma first_key_in g : g <> [] -> exists r, r ∈ g /\ first_key g = r.1.
Proof. destruct g as [|r g]; [done|]. exists r. split; [by left|done]. Qed.

Lemma last_pk_in g : g <> [] -> exists r, r ∈ g /\ last_pk g = r.1.
Proof.
  intros Hne. unfold last_pk. destruct (last g) as [r|] eqn:E; [|by apply last_None in E]. exists r. split; [|done].
  apply last_Some in E as (l & ->). apply elem_of_app. right. by left.
Qed.

Lemma in_groups g r : g ∈ gs -> r ∈ g -> r ∈ rows.
Proof. rewrite <- (so_rows _ _ _ _ Hseg). intros Hg Hr. apply list_elem_of_In, in_concat. exists g. split; by apply list_elem_of_In. Qed.

Lemma group_entries_ok : Forall (fun e => u64 (first_pk e) /\ Z.of_nat (file_offset e) < 2 ^ 32) (group_index ps 0 gs).
Proof.
  apply Forall_lookup_2. intros i e He. destruct (group_index_at _ _ _ _ _ He) as (g & Hg & ->). cbn [first_pk file_offset].
  split.
  - pose proof (Forall_lookup_1 _ _ _ _ (so_pages _ _ _ _ Hseg) Hg) as Hne. destruct (first_key_in g Hne) as (r & Hr & ->).
    eapply row_key_u64, in_groups; [by eapply list_elem_of_lookup_2|done].
  - pose proof (so_region _ _ _ _ Hseg) as Hr. fold ps in Hr. rewrite (region_split _ _ _ _ Hg), !length_app in Hr. lia.
Qed.

Lemma entries_inside : existsb (fun e => (length bytes - FOOTER_LEN <? 40 + length B + 4 + length I + file_offset e)%nat) (group_index ps 0 gs) = false.
Proof.
  apply not_true_iff_false. intros H. apply existsb_exists in H as (e & He & Hlt). prop_bools. apply list_elem_of_In in He.
  apply list_elem_of_lookup_1 in He as (i & He). destruct (group_index_at _ _ _ _ _ He) as (g & Hg & ->). cbn [file_offset] in Hlt.
  rewrite length_file in Hlt. unfold R in Hlt. rewrite (region_split _ _ _ _ Hg), !length_app in Hlt. unfold FOOTER_LEN in Hlt. lia.
Qed.

Lemma crc_u32 : u32 (crc32 (file_body psz gs bf)).
Proof. apply crc32_u32, file_body_bytes. rewrite (so_rows _ _ _ _ Hseg). apply Hseg. Qed.

Lemma index_count : Z.of_nat (length (group_index ps 0 gs)) < 2 ^ 32 /\ Z.of_nat (length I) < 2 ^ 32.
Proof.
  pose proof (so_count _ _ _ _ Hseg). pose proof (length_groups gs (so_pages _ _ _ _ Hseg)) as Hg. rewrite (so_rows _ _ _ _ Hseg) in Hg.
  unfold I. rewrite length_index_enc, length_group_index. lia.
Qed.

Ltac chain HC := rewrite HC, <- ?app_assoc; reflexivity.
Ltac len := rewrite ?length_app; lia.

(** Every field is where the parser reads it. *)
Lemma file_fields :
  index_le 4 8 bytes = Some (Z.of_nat (length rows)) /\ index_le 4 12 bytes = Some (Z.of_nat (length gs)) /\
  index_le 4 16 bytes = Some psz /\ index_le 8 20 bytes = Some (first_key rows) /\ index_le 8 28 bytes = Some (last_pk rows) /\
  index_le 4 36 bytes = Some (Z.of_nat (length B)) /\ subslice 40 (40 + length B) bytes = Some B /\
  index_le 4 (40 + length B) bytes = Some (Z.of_nat (length I)) /\
  subslice (40 + length B + 4) (40 + length B + 4 + length I) bytes = Some I /\
  index_le 4 (length bytes - FOOTER_LEN) bytes = Some (crc32 (file_body psz gs bf)) /\
  subslice 8 (length bytes - FOOTER_LEN) bytes = Some (file_body psz gs bf).
Proof.
  pose proof (length_file) as Hl. pose proof index_count as (Hi1 & Hi2). pose proof crc_u32 as Hcrc.
  destruct Hseg as [Hrows Hne Hs Hok Hgs Hpsz Hreg Hcnt Hf Hbits Hsz Hkeys].
  pose proof (length_groups gs Hgs) as Hlg. rewrite Hrows in Hlg. pose proof file_chain as HC.
  set (n := le_bytes 4 (Z.of_nat (length rows))) in *. set (np := le_bytes 4 (Z.of_nat (length gs))) in *. set (pz := le_bytes 4 psz) in *.
  set (mn := le_bytes 8 (first_key rows)) in *. set (mx := le_bytes 8 (last_pk rows)) in *. set (bl := le_bytes 4 (Z.of_nat (length B))) in *.
  set (il := le_bytes 4 (Z.of_nat (length I))) in *. set (M := SEGMENT_MAGIC_V4) in *. set (c := le_bytes 4 (crc32 _)) in HC.
  assert (F : forall k off x pre post, bytes = pre ++ le_bytes k x ++ post -> off = length pre -> in_w (8 * Z.of_nat k) x -> index_le k off bytes = Some x)
    by (intros; by eapply index_le_field).
  assert (Hmn : u64 (first_key rows)) by (destruct (first_key_in rows Hne) as (r & Hr & ->); by apply row_key_u64).
  assert (Hmx : u64 (last_pk rows)) by (destruct (last_pk_in rows Hne) as (r & Hr & ->); by apply row_key_u64).
  assert (H32 : 8 * Z.of_nat 4 = 32) by done.
  assert (Ln : length n = 4%nat) by apply length_le_bytes. assert (Lnp : length np = 4%nat) by apply length_le_bytes.
  assert (Lpz : length pz = 4%nat) by apply length_le_bytes. assert (Lmn : length mn = 8%nat) by apply length_le_bytes.
  assert (Lmx : length mx = 8%nat) by apply length_le_bytes. assert (Lbl : length bl = 4%nat) by apply length_le_bytes.
  assert (Lil : length il = 4%nat) by apply length_le_bytes. assert (LM : length M = 8%nat) by done.
  assert (Lc : length c = 4%nat) by apply length_le_bytes.
  split; [eapply (F _ _ _ M); [chain HC|len|apply u32_of_nat; lia]|].
  split; [eapply (F _ _ _ (M ++ n)); [chain HC|len|apply u32_of_nat; lia]|].
  split; [eapply (F _ _ _ (M ++ n ++ np)); [chain HC|len|split; lia]|].
  split; [eapply (F _ _ _ (M ++ n ++ np ++ pz)); [chain HC|len|done]|].
  split; [eapply (F _ _ _ (M ++ n ++ np ++ pz ++ mn)); [chain HC|len|done]|].
  split; [eapply (F _ _ _ (M ++ n ++ np ++ pz ++ mn ++ mx)); [chain HC|len|by apply u32_of_nat]|].
  split; [eapply (subslice_field _ _ _ (M ++ n ++ np ++ pz ++ mn ++ mx ++ bl)); [chain HC|len|len]|].
  split; [eapply (F _ _ _ (M ++ n ++ np ++ pz ++ mn ++ mx ++ bl ++ B)); [chain HC|len|by apply u32_of_nat]|].
  split; [eapply (subslice_field _ _ _ (M ++ n ++ np ++ pz ++ mn ++ mx ++ bl ++ B ++ il)); [chain HC|len|len]|].
  split; [eapply (F _ _ _ (M ++ n ++ np ++ pz ++ mn ++ mx ++ bl ++ B ++ il ++ I ++ R) []); [chain HC|rewrite Hl; unfold FOOTER_LEN; len|done]|].
  eapply (subslice_field _ _ _ M); [done|done|]. unfold bytes, segment_file. rewrite !length_app, length_le_bytes.
  unfold FOOTER_LEN. change (length SEGMENT_MAGIC_V4) with 8%nat. lia.
Qed.

Lemma parse_file : parse_segment_metadata bytes = Some (Ok file_metadata).
Proof.
  pose proof length_file as Hl. pose proof index_count as (Hi1 & Hi2). pose proof file_chain as HC.
  destruct file_fields as (G1 & G2 & G3 & G4 & G5 & G6 & G7 & G8 & G9 & G10 & G11).
  destruct Hseg as [Hrows Hne Hs Hok Hgs Hpsz Hreg Hcnt Hf Hbits Hsz Hkeys]. set (M := SEGMENT_MAGIC_V4) in *.
  assert (HB : Bloom.from_bytes B = Ok bf) by (by apply bloom_roundtrip).
  assert (HI : parse_page_index I = Some (Ok (group_index ps 0 gs))) by (apply parse_page_index_spec; [apply group_entries_ok|done]).
  unfold parse_segment_metadata. cbv zeta. unfold HEADER_FIXED_LEN.
  assert ((length bytes <? 8 + 4 + 4 + 4 + 8 + 8 + 4 + FOOTER_LEN)%nat = false) as -> by (apply Nat.ltb_ge; rewrite Hl; unfold FOOTER_LEN; lia).
  rewrite (subslice_field 0 8 M [] _ bytes HC) by done. cbn [mbind option_bind].
  assert (inner_version M = Some (Ok 47)) as -> by done. cbn [obind].
  rewrite G1, G2, G3, G4, G5, G6. cbn [mbind option_bind]. rewrite Nat2Z.id. change (8 + 4 + 4 + 4 + 8 + 8 + 4)%nat with 40%nat.
  assert ((length bytes <? 40 + length B + 4)%nat = false) as -> by (apply Nat.ltb_ge; lia).
  rewrite G7. cbn [mbind option_bind]. rewrite HB. cbn [obind]. rewrite G8. cbn [mbind option_bind]. rewrite Nat2Z.id.
  assert ((length bytes <? 40 + length B + 4 + length I)%nat = false) as -> by (apply Nat.ltb_ge; lia).
  rewrite G9. cbn [mbind option_bind]. rewrite HI. cbn [obind].
  assert ((length bytes <? 40 + length B + 4 + length I + FOOTER_LEN)%nat = false) as -> by (apply Nat.ltb_ge; unfold FOOTER_LEN; lia).
  rewrite entries_inside. cbn [orb Z.eqb andb]. rewrite G10, G11. cbn [mbind option_bind]. rewrite Z.eqb_refl. cbn [negb].
  unfold file_metadata, segment_meta. rewrite Nat2Z.id, Hrows. done.
Qed.

(** ** Lookups and scans *)

(** The bytes of a page, cut the way lookups and scans do. *)
Lemma page_cut i g : gs !! i = Some g ->
  let off := (40 + length B + 4 + length I + length (region ps (take i gs)))%nat in
  let stop := match group_index ps 0 gs !! (i + 1)%nat with
              | Some next => (40 + length B + 4 + length I + file_offset next)%nat
              | None => (length bytes - FOOTER_LEN)%nat end in
  (off < stop)%nat /\ (stop <= length bytes - FOOTER_LEN)%nat /\ subslice off stop bytes = Some (group_page ps g).
Proof.
  intros Hg. cbv zeta. set (off := (40 + length B + 4 + length I + _)%nat).
  assert (Hstop : match group_index ps 0 gs !! (i + 1)%nat with
              | Some next => (40 + length B + 4 + length I + file_offset next)%nat
              | None => (length bytes - FOOTER_LEN)%nat end = (off + length (group_page ps g))%nat).
  { rewrite Nat.add_1_r. destruct (gs !! S i) as [g'|] eqn:Eg'.
    - rewrite (group_index_lookup _ _ _ _ Eg'). cbn [file_offset]. rewrite (take_S_r _ _ _ Hg), region_snoc, length_app. unfold off. lia.
    - assert (group_index ps 0 gs !! S i = None) as -> by (apply lookup_ge_None; rewrite length_group_index; by apply lookup_ge_None).
      rewrite length_file. unfold R, FOOTER_LEN, off. rewrite (region_split _ _ _ _ Hg), !length_app.
      apply lookup_ge_None in Eg'. rewrite (drop_ge gs (S i)) by done. cbn [region map concat length]. lia. }
  rewrite Hstop, length_file. unfold FOOTER_LEN, R. rewrite (region_split _ _ _ _ Hg), !length_app.
  assert (Hps : (4 <= length (group_page ps g))%nat) by (rewrite length_group_page; lia).
  split; [lia|]. split; [unfold off; lia|].
  pose proof file_chain as HC. unfold R in HC. rewrite (region_split _ _ _ _ Hg) in HC.
  eapply (subslice_field _ _ _ (SEGMENT_MAGIC_V4 ++ le_bytes 4 (Z.of_nat (length rows)) ++ le_bytes 4 (Z.of_nat (length gs)) ++ le_bytes 4 psz ++
    le_bytes 8 (first_key rows) ++ le_bytes 8 (last_pk rows) ++ le_bytes 4 (Z.of_nat (length B)) ++ B ++
    le_bytes 4 (Z.of_nat (length I)) ++ I ++ region ps (take i gs))).
  - rewrite HC, <- ?app_assoc. reflexivity.
  - rewrite !length_app, !length_le_bytes. unfold off. cbn [length SEGMENT_MAGIC_V4]. lia.
  - done.
Qed.

(** A group is a sorted page. *)
Lemma group_props i g : gs !! i = Some g -> g <> [] /\ sorted g /\ Forall row_ok g /\ Z.of_nat (length (page_body (map row_enc g))) < 2 ^ 32 /\
  rows = concat (take i gs) ++ g ++ concat (drop (S i) gs).
Proof.
  intros Hg. destruct Hseg as [Hrows Hne Hs Hok Hgs Hpsz Hreg Hcnt Hf Hbits Hsz Hkeys].
  assert (E : rows = concat (take i gs) ++ g ++ concat (drop (S i) gs)) by (rewrite <- Hrows, <- (take_drop_middle gs i g Hg) at 1; by rewrite concat_app).
  split; [by eapply (Forall_lookup_1 _ _ _ _ Hgs)|]. rewrite E in Hs, Hok. split; [by eapply sorted_app_l, sorted_app_r|].
  apply Forall_app in Hok as (_ & Hok). apply Forall_app in Hok as (Hok & _). split; [done|]. split; [|done].
  fold ps in Hreg. rewrite (region_split _ _ _ _ Hg), !length_app, length_group_page in Hreg. rewrite length_group_body. lia.
Qed.

Lemma page_lookup i g key : gs !! i = Some g -> decode_page_lookup (group_page ps g) key = Some (sm_lookup key g).
Proof.
  intros Hg. destruct (group_props i g Hg) as (Hne & Hs & Hok & Hl & _). by eapply decode_page_lookup_spec.
Qed.

Lemma page_scan i g : gs !! i = Some g -> decode_page_iter (group_page ps g) = Some g.
Proof.
  intros Hg. destruct (group_props i g Hg) as (Hne & Hs & Hok & Hl & _). by eapply decode_page_iter_spec.
Qed.

Lemma scan_from i : (i <= length gs)%nat -> scan_pages file_metadata bytes i (length gs - i) = Some (concat (drop i gs)).
Proof.
  remember (length gs - i)%nat as k. revert i Heqk. induction k as [|k IH]; intros i Hk Hi; cbn [scan_pages].
  { by rewrite drop_ge by lia. }
  destruct (lookup_lt_is_Some_2 gs i) as [g Hg]; [lia|]. cbn [page_index file_metadata pages_start_offset].
  rewrite (group_index_lookup _ _ _ _ Hg). cbn [mbind option_bind file_offset].
  destruct (page_cut i g Hg) as (H1 & H2 & H3). rewrite Nat.min_l by done. rewrite H3. cbn [mbind option_bind].
  rewrite (page_scan i g Hg). cbn [mbind option_bind]. rewrite (IH (S i)) by lia. cbn [mbind option_bind]. by rewrite (drop_S _ _ _ Hg).
Qed.

Lemma scan_file : segment_scan file_metadata bytes = Some rows.
Proof.
  unfold segment_scan. cbn [page_index file_metadata]. rewrite length_group_index.
  pose proof (scan_from 0 ltac:(lia)) as H. rewrite Nat.sub_0_r, drop_0, (so_rows _ _ _ _ Hseg) in H. exact H.
Qed.

(** First keys grow from page to page, and every key of a later page is at
    least its first key. *)
Lemma later_keys i j g h r : gs !! i = Some g -> gs !! j = Some h -> (i < j)%nat -> r ∈ g ++ h -> r ∈ h -> first_key g < r.1.
Proof.
  intros Hg Hh Hij _ Hr. destruct (group_props i g Hg) as (Hne & _ & _ & _ & E). pose proof (so_sorted _ _ _ _ Hseg) as Hs. rewrite E in Hs.
  apply sorted_app_r, sorted_app in Hs as (Hs & _). destruct (first_key_in g Hne) as (r0 & Hr0 & ->). specialize (Hs r0 Hr0).
  unfold all_gt in Hs. rewrite Forall_forall in Hs. apply klt_Z, (Hs r). apply list_elem_of_In, in_concat. exists h.
  split; apply list_elem_of_In; [|done]. apply (list_elem_of_lookup_2 _ (j - S i)). rewrite lookup_drop. by replace (S i + (j - S i))%nat with j by lia.
Qed.

Lemma own_keys g r : sorted g -> r ∈ g -> first_key g <= r.1.
Proof.
  destruct g as [|r0 g]; [by intros _ ?%elem_of_nil|]. intros (Hg & _)%sorted_cons [->|Hr]%elem_of_cons; [done|].
  unfold all_gt in Hg. rewrite Forall_forall in Hg. cbn [first_key]. specialize (Hg r Hr). apply (proj1 (klt_Z r0.1 r.1)) in Hg. lia.
Qed.

Lemma index_gt_tail key : gt_tail (fun e => Z.compare (first_pk e) key) (group_index ps 0 gs).
Proof.
  intros i j x y Hij Hx Hy Hne. destruct (group_index_at _ _ _ _ _ Hx) as (g & Hg & ->). destruct (group_index_at _ _ _ _ _ Hy) as (h & Hh & ->).
  cbn [first_pk] in *. destruct (group_props j h Hh) as (Hhne & _). destruct (first_key_in h Hhne) as (r & Hr & E).
  pose proof (later_keys i j g h r Hg Hh Hij ltac:(apply elem_of_app; by right) Hr). apply Z.compare_gt_iff. rewrite E.
  enough (key <= first_key g) by lia. by apply Z.compare_ge_iff.
Qed.

(** Rows of pages whose first key is past the key do not hold it. *)
Lemma skip_later key i : (forall j y, (i <= j)%nat -> group_index ps 0 gs !! j = Some y -> Z.compare (first_pk y) key = Gt) ->
  all_gt (concat (drop i gs)) key.
Proof.
  intros H. unfold all_gt. rewrite Forall_forall. intros r Hr. apply list_elem_of_In, in_concat in Hr as (h & Hh & Hr).
  apply list_elem_of_In, list_elem_of_lookup_1 in Hh as (j & Hh). rewrite lookup_drop in Hh. apply list_elem_of_In in Hr.
  specialize (H (i + j)%nat _ ltac:(lia) (group_index_lookup ps gs _ h Hh)). cbn [first_pk] in H. apply Z.compare_gt_iff in H.
  destruct (group_props _ h Hh) as (_ & Hs & _). pose proof (own_keys h r Hs Hr). apply klt_Z. lia.
Qed.

Lemma not_present key : Bloom.contains (le_bytes 8 key) bf = Some false -> sm_lookup key rows = None.
Proof.
  intros Hc. destruct (sm_lookup key rows) as [v|] eqn:E; [|done]. apply sm_lookup_elem in E.
  pose proof (so_keys _ _ _ _ Hseg _ E) as Hk. unfold key_bytes in Hk. cbn [fst] in Hk. congruence.
Qed.

Lemma out_of_range key : (key <? first_key rows) || (last_pk rows <? key) = true -> sm_lookup key rows = None.
Proof.
  intros H. destruct (sm_lookup key rows) as [v|] eqn:E; [|done]. apply sm_lookup_elem in E. exfalso.
  pose proof (so_sorted _ _ _ _ Hseg) as Hs. pose proof (own_keys _ _ Hs E) as Hlo. cbn [fst] in Hlo.
  assert (key <= last_pk rows); [|apply orb_true_iff in H as [H|H]; prop_bools; lia].
  unfold last_pk. destruct (last rows) as [p|] eqn:El; [|apply last_None in El; rewrite El in E; by apply elem_of_nil in E].
  apply last_Some in El as (l & El). rewrite El in Hs, E. cbn [from_option]. apply elem_of_app in E as [E|E%list_elem_of_singleton]; [|by rewrite <- E].
  apply sorted_app in Hs as (Hs & _). specialize (Hs _ E). unfold all_gt in Hs. rewrite Forall_singleton in Hs. apply (proj1 (klt_Z _ _)) in Hs. cbn [fst] in Hs. lia.
Qed.

Lemma might_file key : exists b, segment_might_contain file_metadata key = Some b /\ (b = false -> sm_lookup key rows = None).
Proof.
  unfold segment_might_contain. cbn [meta min_pk max_pk bloom file_metadata segment_meta]. rewrite (so_rows _ _ _ _ Hseg).
  destruct ((key <? _) || (_ <? key)) eqn:E; [exists false; split; [done|intros _; by apply out_of_range]|].
  destruct (filter_contains_spec (le_bytes 8 key) bf (so_filter _ _ _ _ Hseg)) as (b & Hb & _). exists b. split; [done|].
  intros ->. by apply not_present.
Qed.

(** The lookup in the file is the lookup in the rows. *)
Lemma lookup_file key : segment_lookup file_metadata bytes key = Some (sm_lookup key rows).
Proof.
  unfold segment_lookup. destruct (might_file key) as (b & -> & Hb). cbn [mbind option_bind]. destruct b; cbn [negb]; [|by rewrite Hb].
  cbn [page_index file_metadata pages_start_offset]. set (f := fun entry => Z.compare (first_pk entry) key).
  destruct (binary_search_by_total f (group_index ps 0 gs)) as (r & Er & _). rewrite Er. cbn [mbind option_bind].
  pose proof (binary_search_by_spec f _ r (index_gt_tail key) Er) as Hr.
  assert (Hcase : forall c, candidate r = Some c -> (let! entry := group_index ps 0 gs !! c in
      let page_off := (40 + length B + 4 + length I + file_offset entry)%nat in
      let page_end := match group_index ps 0 gs !! (c + 1)%nat with
        | Some next => (40 + length B + 4 + length I + file_offset next)%nat | None => (length bytes - FOOTER_LEN)%nat end in
      if (length bytes - FOOTER_LEN <? page_end)%nat || (page_end <=? page_off)%nat then Some None
      else let! page := subslice page_off page_end bytes in decode_page_lookup page key) = Some (sm_lookup key rows)).
  { intros c Ec. rewrite Ec in Hr. destruct Hr as (x & Hx & Hle & Hgt). destruct (group_index_at _ _ _ _ _ Hx) as (g & Hg & ->).
    rewrite (group_index_lookup ps gs c g Hg). cbn [mbind option_bind file_offset]. destruct (page_cut c g Hg) as (H1 & H2 & H3). cbv zeta in *.
    set (stop := match _ with Some _ => _ | None => _ end) in *.
    assert ((length bytes - FOOTER_LEN <? stop)%nat = false) as -> by (by apply Nat.ltb_ge).
    match goal with |- context [(stop <=? ?o)%nat] => assert ((stop <=? o)%nat = false) as -> by (apply Nat.leb_gt; exact H1) end.
    cbn [orb]. rewrite H3. cbn [mbind option_bind]. rewrite (page_lookup c g key Hg). f_equal.
    destruct (group_props c g Hg) as (Hne & _ & _ & _ & E). rewrite E at 1. symmetry. rewrite sm_lookup_skip; [apply sm_lookup_stop|].
    - apply skip_later. intros j y Hj. apply Hgt. lia.
    - pose proof (so_sorted _ _ _ _ Hseg) as Hs. rewrite E in Hs. apply sorted_app in Hs as (Hs & _). unfold all_lt. rewrite Forall_forall. intros p Hp.
      specialize (Hs p Hp). destruct g as [|r0 g]; [done|]. cbn [app] in Hs. apply Forall_cons in Hs as (Hs & _). unfold f in Hle. cbn [first_pk first_key] in Hle.
      apply (proj1 (klt_Z _ _)) in Hs. apply klt_Z. assert (r0.1 <= key) by (by apply Z.compare_le_iff). lia. }
  destruct r as [c|[|c]]; [by apply Hcase| |by apply Hcase]. f_equal. symmetry. apply sm_lookup_all_gt.
  rewrite <- (so_rows _ _ _ _ Hseg). rewrite <- (drop_0 gs). apply skip_later. intros j y _. apply Hr.
Qed.
End Read.
