(* ===== verification/SegmentFile.v ===== *)
(** Cold segments, end to end: what is written is what every reader answers,
    through the envelope or not; what the writer and the readers refuse; and
    what a damaged file can and cannot do. *)
From S2P Require Import Prelude Bytes SortedMap Float64 Crc Lzss Bloom Segment SegmentEncode SegmentRead.
Open Scope Z_scope.

Lemma has_magic_app magic rest : has_magic magic (magic ++ rest) = true.
Proof.
  unfold has_magic. rewrite length_app, take_app_length. apply andb_true_iff. split; [apply Nat.leb_le; lia|by apply bool_decide_eq_true_2].
Qed.

Lemma segment_file_magic psz gs bf : has_magic SEGMENT_MAGIC_V2 (segment_file psz gs bf) = false /\
  has_magic BRIN_SIDECAR_MAGIC (segment_file psz gs bf) = false.
Proof. split; reflexivity. Qed.

Lemma open_file psz rows gs bf : segment_of psz rows gs bf ->
  open (segment_file psz gs bf) = Some (Ok (mk_reader (segment_file psz gs bf) (file_metadata psz gs bf))).
Proof. intros H. unfold open. destruct (segment_file_magic psz gs bf) as (-> & _). by rewrite (parse_file _ _ _ _ H). Qed.

Lemma segment_file_bytes psz rows gs bf : segment_of psz rows gs bf -> is_bytes (segment_file psz gs bf).
Proof.
  intros H. unfold segment_file. rewrite !is_bytes_app. split; [by repeat constructor|]. split; [|apply le_bytes_bytes].
  apply file_body_bytes. rewrite (so_rows _ _ _ _ H). apply H.
Qed.

(** ** The envelope *)

(** Wrapping is undone by unwrapping, for any bytes that do not look wrapped. *)
Lemma unwrap_wrap v compress : is_bytes v -> Z.of_nat (length v) < 2 ^ 32 ->
  has_magic SEGMENT_MAGIC_V2 v = false ->
  exists w, wrap_v2_envelope v compress = Some w /\ (length w <= length v)%nat /\
    (w = v \/ exists c, Lzss.compress v = Some c /\ w = SEGMENT_MAGIC_V2 ++ [SEGMENT_COMPRESS_ALGO_LZSS] ++ le_bytes 4 (Z.of_nat (length v)) ++ c) /\
    unwrap_v2_envelope w = if decide (w = v) then Some (Ok (v, [])) else
      if has_magic BRIN_SIDECAR_MAGIC v then parse_brin_sidecar_then_v1 v else Some (Ok (v, [])).
Proof.
  intros Hb Hl Hm. unfold wrap_v2_envelope.
  assert (Hid : forall w : list Z, w = v -> unwrap_v2_envelope w = if decide (w = v) then Some (Ok (v, [])) else
      if has_magic BRIN_SIDECAR_MAGIC v then parse_brin_sidecar_then_v1 v else Some (Ok (v, []))).
  { intros w ->. rewrite decide_True by done. unfold unwrap_v2_envelope. by rewrite Hm. }
  destruct compress; cbn [negb]; [|exists v; split; [done|]; split; [lia|]; split; [by left|by apply Hid]].
  destruct (compress_roundtrip v Hb Hl) as (c & -> & Hc & Hd). cbn [mbind option_bind].
  destruct (length v <=? length c + SEGMENT_V2_HEADER_LEN)%nat eqn:E; prop_bools; [exists v; split; [done|]; split; [lia|]; split; [by left|by apply Hid]|].
  rewrite u32_try_from_ok by done. cbn [mbind option_bind]. rewrite <- !app_assoc.
  set (w := SEGMENT_MAGIC_V2 ++ _). assert (Hlw : length w = (13 + length c)%nat) by (unfold w; rewrite !length_app, length_le_bytes; cbn; lia).
  exists w. split; [done|]. unfold SEGMENT_V2_HEADER_LEN in E. split; [lia|]. split; [right; by exists c|].
  rewrite decide_False by (intros Ew; rewrite <- Ew, Hlw in E; lia). unfold unwrap_v2_envelope.
  assert (has_magic SEGMENT_MAGIC_V2 w = true) as -> by apply has_magic_app. cbn [negb].
  assert ((length w <? SEGMENT_V2_HEADER_LEN)%nat = false) as -> by (apply Nat.ltb_ge; unfold SEGMENT_V2_HEADER_LEN; lia).
  rewrite (index_le_in 1 8) by lia. cbn [mbind option_bind]. change (le_val (slice 8 1 w)) with SEGMENT_COMPRESS_ALGO_LZSS.
  rewrite (index_le_field 4 9 (Z.of_nat (length v)) (SEGMENT_MAGIC_V2 ++ [SEGMENT_COMPRESS_ALGO_LZSS]) c); [|done|done|by apply u32_of_nat].
  cbn [mbind option_bind]. rewrite Nat2Z.id. replace (drop SEGMENT_V2_HEADER_LEN w) with c.
  2:{ unfold w. rewrite !app_assoc. symmetry. apply drop_app_length'. by rewrite !length_app, length_le_bytes. }
  change (SEGMENT_COMPRESS_ALGO_LZSS =? SEGMENT_COMPRESS_ALGO_NONE) with false. cbn iota.
  rewrite Hd. cbn [mbind option_bind]. by rewrite Nat.eqb_refl.
Qed.

(** ** What the theorems say of a reader *)

(** A reader that answers as the sorted rows do. *)
Definition reads (metadata : SegmentMetadata) (bytes : list Z) (rows : list row) : Prop :=
  (forall key, segment_lookup metadata bytes key = Some (sm_lookup key rows)) /\
  segment_scan metadata bytes = Some rows /\
  (forall key, exists b, segment_might_contain metadata key = Some b /\ (b = false -> sm_lookup key rows = None)) /\
  num_rows (meta metadata) = Z.of_nat (length rows) /\
  min_pk (meta metadata) = first_key rows /\ max_pk (meta metadata) = last_pk rows /\
  total_bytes (meta metadata) = length bytes.

Lemma file_reads psz rows gs bf : segment_of psz rows gs bf -> reads (file_metadata psz gs bf) (segment_file psz gs bf) rows.
Proof.
  intros H. split; [intros key; by eapply lookup_file|]. split; [by eapply scan_file|]. split; [intros key; by eapply might_file|].
  unfold file_metadata, segment_meta. cbn [meta num_rows min_pk max_pk total_bytes]. by rewrite (so_rows _ _ _ _ H).
Qed.

(** C10: a segment is the sorted map it was made of: rows with strictly ascending
    keys, within the format's 32-bit lengths, are encoded without a panic or an
    error, whatever the page size, oversized rows included; the file opens, and
    its reader answers every lookup with the row's payload or nothing, scans
    the rows in order, and never denies a key it holds. *)
Theorem segment_refines_map rows fp psz : encodable rows fp psz ->
  exists out m r, encode_segment rows fp psz = Some (Ok (out, m)) /\ open out = Some (Ok r) /\
    reader_bytes r = out /\ meta (reader_metadata r) = m /\ reads (reader_metadata r) out rows.
Proof.
  intros H. destruct (encode_segment_ok rows fp psz H) as (gs & bf & E & Hs).
  exists (segment_file psz gs bf), (segment_meta psz gs bf), (mk_reader (segment_file psz gs bf) (file_metadata psz gs bf)).
  split; [done|]. split; [by eapply open_file|]. split; [done|]. split; [done|]. by apply file_reads.
Qed.

(** A few rows, one of them wider than a page. *)
Definition sample : list row := [(3, [1; 2; 3]); (5, repeat 7 300); (9, [])].
Definition sample_fp : f64 := from_bits 0x3f847ae147ae147b.

Lemma sample_encodable : encodable sample sample_fp 256.
Proof.
  constructor; [lia|done| | |by vm_compute|].
  - repeat constructor.
  - apply (bool_decide_unpack _). by vm_compute.
  - eexists. split; [by vm_compute|]. by vm_compute.
Defined.

Lemma segment_refines_map_witness :
  exists out m r, encode_segment sample sample_fp 256 = Some (Ok (out, m)) /\ open out = Some (Ok r) /\
    lookup r 5 = Some (Some (repeat 7 300)) /\ lookup r 4 = Some None.
Proof.
  destruct (segment_refines_map sample sample_fp 256 sample_encodable) as (out & m & r & E & O & B & _ & L & _).
  exists out, m, r. split; [done|]. split; [done|]. unfold lookup. rewrite B, !L. split; reflexivity.
Defined.

(** ** Any bytes *)

(** What opening has checked. *)
Record metadata_ok (md : SegmentMetadata) (bytes : list Z) : Prop := {
  mo_filter : filter_ok (bloom md);
  mo_entries : forall e, e ∈ page_index md -> (pages_start_offset md + file_offset e <= length bytes - FOOTER_LEN)%nat;
  mo_length : (44 <= length bytes)%nat;
  mo_crc : crc32 (slice 8 (length bytes - 12) bytes) = le_val (slice (length bytes - 4) 4 bytes)
}.

Lemma parse_entries_total input i count out : (4 + (i + count) * 12 <= length input)%nat -> exists es, parse_entries input i count out = Some es.
Proof.
  revert i out. induction count as [|count IH]; intros i out H; cbn [parse_entries]; [by exists out|].
  rewrite !index_le_in by lia. cbn [mbind option_bind]. apply IH. lia.
Qed.

Lemma parse_page_index_total input : exists r, parse_page_index input = Some r.
Proof.
  unfold parse_page_index. destruct (length input <? 4)%nat eqn:E; prop_bools; [by eexists|]. rewrite index_le_in by lia. cbn [mbind option_bind].
  destruct (negb _) eqn:E2; [by eexists|]. prop_bools.
  destruct (parse_entries_total input 0 (Z.to_nat (le_val (slice 0 4 input))) []) as (es & ->); [lia|]. by eexists.
Qed.

(** Opening arbitrary bytes answers, and what it accepts passed its checks. *)
Lemma parse_total bytes : is_bytes bytes -> exists r, parse_segment_metadata bytes = Some r /\ forall md, r = Ok md -> metadata_ok md bytes.
Proof.
  intros Hb. unfold parse_segment_metadata. cbv zeta.
  destruct (length bytes <? HEADER_FIXED_LEN + FOOTER_LEN)%nat eqn:E0; prop_bools; [by eexists|]. unfold HEADER_FIXED_LEN, FOOTER_LEN in *.
  change (8 + 4 + 4 + 4 + 8 + 8 + 4 + 4)%nat with 44%nat in E0. change (8 + 4 + 4 + 4 + 8 + 8 + 4)%nat with 40%nat.
  rewrite (subslice_in 0 8) by lia. cbn [mbind option_bind]. set (magic := slice 0 _ bytes).
  assert (exists r, inner_version magic = Some r) as ([cv|e] & ->)
    by (unfold inner_version; destruct (list_eqb magic SEGMENT_MAGIC_V4), (list_eqb magic SEGMENT_MAGIC_V3), (list_eqb magic SEGMENT_MAGIC); by eexists);
    cbn [obind]; [|by eexists].
  rewrite !index_le_in by lia. cbn [mbind option_bind]. set (bl := Z.to_nat (le_val (slice 36 4 bytes))).
  destruct (length bytes <? 40 + bl + 4)%nat eqn:E1; prop_bools; [by eexists|]. rewrite (subslice_in 40 (40 + bl)) by lia. cbn [mbind option_bind].
  destruct (Bloom.from_bytes _) as [bf|e] eqn:Ebf; cbn [obind]; [|by eexists]. apply from_bytes_sound in Ebf; [|by apply is_bytes_slice].
  rewrite index_le_in by lia. cbn [mbind option_bind]. set (il := Z.to_nat (le_val (slice (40 + bl) 4 bytes))).
  destruct (length bytes <? 40 + bl + 4 + il)%nat eqn:E2; prop_bools; [by eexists|]. rewrite (subslice_in (40 + bl + 4) (40 + bl + 4 + il)) by lia. cbn [mbind option_bind].
  match goal with |- context [parse_page_index ?x] => destruct (parse_page_index_total x) as ([idx|e] & ->) end; cbn [obind]; [|by eexists].
  destruct ((length bytes <? _)%nat || existsb _ idx) eqn:E3; [by eexists|]. apply orb_false_iff in E3 as (E3 & E3').
  match goal with |- context [if ?b then _ else _] => destruct b end; [by eexists|].
  rewrite subslice_in by lia. cbn [mbind option_bind].
  match goal with |- context [if ?b then _ else _] => destruct b eqn:E4 end; [by eexists|]. prop_bools.
  eexists. split; [done|]. intros md [= <-]. constructor; cbn [bloom page_index pages_start_offset].
  - done.
  - intros e He. destruct (decide (40 + bl + 4 + il + file_offset e <= length bytes - FOOTER_LEN)%nat) as [|Hgt]; [done|].
    exfalso. apply (not_true_iff_false (existsb _ idx)) in E3'. apply E3', existsb_exists. exists e. split; [by apply list_elem_of_In|]. apply Nat.ltb_lt. unfold FOOTER_LEN in Hgt. lia.
  - done.
  - rewrite <- E4. f_equal. f_equal. lia.
Qed.

Lemma read_offsets_total page i n out : (4 + (i + n) * 4 <= length page)%nat ->
  exists offs, read_offsets page i n out = Some offs /\ length offs = (length out + n)%nat.
Proof.
  revert i out. induction n as [|n IH]; intros i out H; cbn [read_offsets]; [exists out; split; [done|lia]|].
  rewrite index_le_in by lia. cbn [mbind option_bind]. destruct (IH (S i) (out ++ [Z.to_nat (le_val (slice (4 + i * 4) 4 page))])) as (offs & E & Hl); [lia|].
  exists offs. split; [done|]. rewrite Hl, length_app. cbn [length]. lia.
Qed.

Lemma page_search_total fuel page offs key lo hi : (hi - lo < fuel)%nat -> (hi <= length offs)%nat ->
  exists r, page_search fuel page offs key lo hi = Some r.
Proof.
  revert lo hi. induction fuel as [|fuel IH]; intros lo hi Hf Hh; [lia|]. cbn [page_search].
  destruct (lo <? hi)%nat eqn:E; prop_bools; [|by eexists].
  assert (Hmid : (lo <= (lo + hi) / 2 < hi)%nat).
  { pose proof (Nat.div_mod (lo + hi) 2 ltac:(lia)). pose proof (Nat.mod_upper_bound (lo + hi) 2 ltac:(lia)). lia. }
  destruct (lookup_lt_is_Some_2 offs ((lo + hi) / 2)) as [o ->]; [lia|]. cbn [mbind option_bind].
  destruct (length page <? o + 8)%nat eqn:E1; prop_bools; [by eexists|]. rewrite (index_le_in 8 o) by lia. cbn [mbind option_bind].
  destruct (Z.compare _ key); [|apply IH; lia..].
  destruct (length page <? o + 8 + 4)%nat eqn:E2; prop_bools; [by eexists|]. rewrite index_le_in by lia. cbn [mbind option_bind].
  match goal with |- context [if (length page <? ?x)%nat then _ else _] => destruct (length page <? x)%nat eqn:E3 end; prop_bools; [by eexists|].
  rewrite subslice_in by lia. by eexists.
Qed.

Lemma decode_page_lookup_total page key : exists r, decode_page_lookup page key = Some r.
Proof.
  unfold decode_page_lookup. destruct (length page <? 4)%nat eqn:E; prop_bools; [by eexists|]. rewrite index_le_in by lia. cbn [mbind option_bind].
  set (n := Z.to_nat _). destruct (n =? 0)%nat; [by eexists|]. destruct (length page <? 4 + n * 4)%nat eqn:E1; prop_bools; [by eexists|].
  destruct (read_offsets_total page 0 n []) as (offs & -> & Hl); [lia|]. cbn [mbind option_bind length] in *. apply page_search_total; lia.
Qed.

Lemma lookup_total md bytes key : metadata_ok md bytes -> exists r, segment_lookup md bytes key = Some r.
Proof.
  intros [Hf He Hl _]. unfold segment_lookup, segment_might_contain.
  assert (exists b, (if (key <? min_pk (meta md)) || (max_pk (meta md) <? key) then Some false else contains (le_bytes 8 key) (bloom md)) = Some b) as (b & ->).
  { destruct (_ || _); [by eexists|]. destruct (filter_contains_spec (le_bytes 8 key) (bloom md) Hf) as (b & -> & _). by eexists. }
  cbn [mbind option_bind]. destruct (negb b); [by eexists|].
  destruct (binary_search_by_total (fun entry => Z.compare (first_pk entry) key) (page_index md)) as (r & -> & Hr). cbn [mbind option_bind].
  assert (Hcut : forall c, candidate r = Some c -> exists out, (let! entry := page_index md !! c in
      let page_off := (pages_start_offset md + file_offset entry)%nat in
      let page_end := match page_index md !! (c + 1)%nat with
        | Some next => (pages_start_offset md + file_offset next)%nat | None => (length bytes - FOOTER_LEN)%nat end in
      if (length bytes - FOOTER_LEN <? page_end)%nat || (page_end <=? page_off)%nat then Some None
      else let! page := subslice page_off page_end bytes in decode_page_lookup page key) = Some out).
  { intros c Hc. destruct (lookup_lt_is_Some_2 (page_index md) c (Hr c Hc)) as [e ->]. cbn [mbind option_bind]. cbv zeta.
    match goal with |- context [if ?b then _ else _] => destruct b eqn:E end; [by eexists|]. apply orb_false_iff in E as (E1 & E2). prop_bools.
    rewrite subslice_in by lia. cbn [mbind option_bind]. apply decode_page_lookup_total. }
  destruct r as [c|[|c]]; [by apply Hcut|by eexists|by apply Hcut].
Qed.

Lemma parse_summaries_total decoded i n out : (8 + (i + n) * 20 <= length decoded)%nat -> exists s, parse_summaries decoded i n out = Some s.
Proof.
  revert i out. induction n as [|n IH]; intros i out H; cbn [parse_summaries]; [by eexists|].
  rewrite !index_le_in by lia. cbn [mbind option_bind]. apply IH. lia.
Qed.

Lemma parse_brin_total decoded : is_bytes decoded ->
  exists r, parse_brin_sidecar_then_v1 decoded = Some r /\ forall v s, r = Ok (v, s) -> is_bytes v.
Proof.
  intros Hb. unfold parse_brin_sidecar_then_v1. destruct (length decoded <? 8)%nat eqn:E; prop_bools; [by eexists|].
  rewrite index_le_in by lia. cbn [mbind option_bind]. set (n := Z.to_nat _).
  destruct (length decoded <? 8 + n * 20)%nat eqn:E2; prop_bools; [by eexists|].
  destruct (parse_summaries_total decoded 0 n []) as (s & ->); [lia|]. cbn [mbind option_bind]. eexists. split; [done|].
  intros v s' [= <- _]. by apply is_bytes_drop.
Qed.

Lemma unwrap_total bytes : is_bytes bytes ->
  exists r, unwrap_v2_envelope bytes = Some r /\ forall v s, r = Ok (v, s) -> is_bytes v.
Proof.
  intros Hb. unfold unwrap_v2_envelope. destruct (negb (has_magic _ bytes)); [eexists; split; [done|]; by intros v s [= <- _]|].
  destruct (length bytes <? SEGMENT_V2_HEADER_LEN)%nat eqn:E; prop_bools; [by eexists|]. unfold SEGMENT_V2_HEADER_LEN in E.
  rewrite !index_le_in by lia. cbn [mbind option_bind]. set (inner := drop _ bytes). assert (Hi : is_bytes inner) by by apply is_bytes_drop.
  match goal with |- context [obind ?m _] => assert (exists r, m = Some r /\ forall d, r = Ok d -> is_bytes d) as (r & -> & Hr) end.
  { destruct (_ =? SEGMENT_COMPRESS_ALGO_NONE); [destruct (negb _); eexists; (split; [done|]); [done|by intros d [= <-]]|].
    destruct (_ =? SEGMENT_COMPRESS_ALGO_LZSS); [|by eexists]. destruct (decompress_answers inner) as (r & Er & _). rewrite Er. cbn [mbind option_bind].
    destruct r as [d|e]; [|by eexists]. destruct (negb _); eexists; (split; [done|]); [done|]. intros d' [= <-]. by eapply decompress_bytes. }
  destruct r as [d|e]; cbn [obind]; [|by eexists]. destruct (has_magic BRIN_SIDECAR_MAGIC d); [by apply parse_brin_total, Hr|].
  eexists. split; [done|]. intros v s [= <- _]. by apply Hr.
Qed.

(** C18: hostile files are harmless to lookups: opening any bytes, wrapped in an
    envelope or not, answers a segment or an error without a panic, and no
    lookup or filter probe in what it accepted panics. *)
Theorem open_safe bytes : is_bytes bytes ->
  exists r, owned_from_bytes bytes = Some r /\
    forall s, r = Ok s -> forall key, (exists v, owned_lookup s key = Some v) /\ exists b, owned_might_contain s key = Some b.
Proof.
  intros Hb. unfold owned_from_bytes. destruct (unwrap_total bytes Hb) as ([(v & sums)|e] & -> & Hv); cbn [obind]; [|by eexists].
  destruct (parse_total v (Hv v sums eq_refl)) as ([md|e] & -> & Hmd); cbn [obind]; [|by eexists].
  eexists. split; [done|]. intros s [= <-] key. specialize (Hmd md eq_refl). split; [by apply lookup_total|].
  unfold owned_might_contain, segment_might_contain. cbn [owned_metadata]. destruct (_ || _); [by eexists|].
  destruct (filter_contains_spec (le_bytes 8 key) (bloom md) (mo_filter _ _ Hmd)) as (b & -> & _). by eexists.
Qed.

Lemma open_safe_witness : exists r, owned_from_bytes (SEGMENT_MAGIC_V2 ++ [1; 0; 0]) = Some (Err r).
Proof.
  destruct (open_safe (SEGMENT_MAGIC_V2 ++ [1; 0; 0])) as (r & E & _); [by apply (bool_decide_unpack _); vm_compute|].
  exists (TooShort 11 13). vm_compute in E |- *. done.
Defined.

(** Scanning has no such guard: a file whose page offsets descend opens, and its
    scan slices from a larger offset to a smaller one. *)
Definition descending_file : list Z :=
  let filter := Bloom.to_bytes (empty 1 1) in
  let body := le_bytes 4 1 ++ le_bytes 4 2 ++ le_bytes 4 256 ++ le_bytes 8 0 ++ le_bytes 8 9 ++ le_bytes 4 28 ++ filter ++
    le_bytes 4 28 ++ index_enc [mk_entry 0 8; mk_entry 5 0] ++ repeat 0 8 in
  SEGMENT_MAGIC_V4 ++ body ++ le_bytes 4 (crc32 body).

Lemma scan_panics : exists s, owned_from_bytes descending_file = Some (Ok s) /\ owned_scan s = None /\ owned_lookup s 3 = Some None.
Proof. eexists. split; [vm_compute; reflexivity|]. split; vm_compute; reflexivity. Qed.

(** ** Damage *)

Lemma open_crc bytes r : is_bytes bytes -> open bytes = Some (Ok r) -> metadata_ok (reader_metadata r) bytes.
Proof.
  intros Hb. unfold open. destruct (has_magic _ bytes); [done|]. destruct (parse_total bytes Hb) as (m & -> & Hm).
  destruct m as [md|e]; cbn [obind]; [|done]. intros [= <-]. by apply Hm.
Qed.

Lemma open_answers bytes : is_bytes bytes -> exists r, open bytes = Some r.
Proof.
  intros Hb. unfold open. destruct (has_magic _ bytes); [by eexists|]. destruct (parse_total bytes Hb) as ([md|e] & -> & _); by eexists.
Qed.

(** The checksum of a file cut in its magic, its body and its footer. *)
Lemma open_cut magic body footer r : length magic = 8%nat -> length footer = 4%nat -> is_bytes (magic ++ body ++ footer) ->
  open (magic ++ body ++ footer) = Some (Ok r) -> crc32 body = le_val footer.
Proof.
  intros Hm Hf Hb Ho. destruct (open_crc _ _ Hb Ho) as [_ _ _ Hc]. rewrite !length_app, Hm, Hf in Hc.
  rewrite (slice_app_exact magic body footer) in Hc by lia.
  replace (8 + (length body + 4) - 4)%nat with (length (magic ++ body)) in Hc by (rewrite length_app; lia).
  rewrite (app_assoc magic body footer) in Hc. replace (slice (length (magic ++ body)) 4 _) with footer in Hc; [exact Hc|].
  unfold slice. rewrite drop_app_length' by done. symmetry. apply take_ge. lia.
Qed.

(** Damage is detected: if a file opens, changing any of up to four
    consecutive bytes of its body, header, filter, page index or pages, or
    changing its footer, gives a file that is refused with an error. *)
Lemma damage_detected magic pre w post footer r :
  length magic = 8%nat -> length footer = 4%nat -> (length w <= 4)%nat -> is_bytes (magic ++ (pre ++ w ++ post) ++ footer) ->
  open (magic ++ (pre ++ w ++ post) ++ footer) = Some (Ok r) ->
  (forall w', length w' = length w -> is_bytes w' -> w' <> w -> exists e, open (magic ++ (pre ++ w' ++ post) ++ footer) = Some (Err e)) /\
  (forall footer', length footer' = 4%nat -> is_bytes footer' -> footer' <> footer -> exists e, open (magic ++ (pre ++ w ++ post) ++ footer') = Some (Err e)).
Proof.
  intros Hm Hf Hw Hb Ho. pose proof (open_cut _ _ _ _ Hm Hf Hb Ho) as Hc. rewrite !is_bytes_app in Hb. destruct Hb as (B1 & (B2 & B3 & B4) & B5).
  split.
  - intros w' Hl Hb' Hne. assert (Hbytes : is_bytes (magic ++ (pre ++ w' ++ post) ++ footer)) by (rewrite !is_bytes_app; tauto).
    destruct (open_answers _ Hbytes) as ([r'|e] & E); [|by exists e]. exfalso. apply (open_cut _ _ _ _ Hm Hf Hbytes) in E.
    apply (burst_detected POLY_IEEE poly_ieee_u32 eq_refl pre w w' post); try done. unfold crc32 in *. congruence.
  - intros f' Hl Hb' Hne. assert (Hbytes : is_bytes (magic ++ (pre ++ w ++ post) ++ f')) by (rewrite !is_bytes_app; tauto).
    destruct (open_answers _ Hbytes) as ([r'|e] & E); [|by exists e]. exfalso. apply (open_cut _ _ _ _ Hm Hl Hbytes) in E.
    apply Hne. rewrite <- (le_bytes_le_val f'), <- (le_bytes_le_val footer) by done. rewrite Hl, Hf. congruence.
Qed.

(** The file of one small row. *)
Definition tiny : list row := [(3, [1; 2; 3])].

Lemma tiny_encodable : encodable tiny sample_fp 256.
Proof.
  constructor; [lia|done|by repeat constructor| |by vm_compute|].
  - apply (bool_decide_unpack _). by vm_compute.
  - eexists. split; [by vm_compute|]. by vm_compute.
Defined.

Definition tiny_file : list Z := Eval vm_compute in match encode_segment tiny sample_fp 256 with Some (Ok (out, _)) => out | _ => [] end.

Lemma tiny_encodes : exists m, encode_segment tiny sample_fp 256 = Some (Ok (tiny_file, m)).
Proof. eexists. vm_compute. reflexivity. Qed.

Lemma tiny_file_bytes : is_bytes tiny_file.
Proof. apply (bool_decide_unpack _). vm_compute. exact I. Qed.

Definition sample_pre : list Z := take 32 (drop 8 tiny_file).
Definition sample_post : list Z := drop 44 (take (length tiny_file - 4) tiny_file).

Lemma sample_cut : take 8 tiny_file ++ (sample_pre ++ take 4 (drop 40 tiny_file) ++ sample_post) ++ drop (length tiny_file - 4) tiny_file = tiny_file.
Proof. vm_compute. reflexivity. Qed.

Lemma sample_opens : exists r, open tiny_file = Some (Ok r).
Proof. eexists. vm_compute. reflexivity. Qed.

(** ** What the writer refuses *)

(** The writer's errors: a page size outside 256..65536, no rows, and the
    first row whose key is not above its predecessor's are refused, each with
    its own error, whatever follows. *)
Lemma encode_refuses rows fp psz :
  (psz < 256 \/ 65536 < psz -> encode_segment rows fp psz = Some (Err (BadShape (PageSizeRange psz)))) /\
  (256 <= psz <= 65536 -> rows = [] -> encode_segment rows fp psz = Some (Err (BadShape NoRows))) /\
  (forall good prev r rest bf, 256 <= psz <= 65536 -> rows = good ++ prev :: r :: rest ->
     sorted (good ++ [prev]) -> Forall row_ok (good ++ [prev]) -> Z.of_nat (bound (good ++ [prev])) < 2 ^ 32 ->
     with_target_fp_rate (length rows) fp = Some bf -> Z.of_nat (20 + length (bits bf) * 8) < 2 ^ 32 ->
     r.1 <= prev.1 -> encode_segment rows fp psz = Some (Err (UnsortedKey prev.1 r.1))).
Proof.
  split; [|split].
  - intros H. unfold encode_segment. assert ((256 <=? psz) && (psz <=? 65536) = false) as ->; [|done].
    apply andb_false_iff. rewrite !Z.leb_gt. lia.
  - intros H ->. unfold encode_segment. assert ((256 <=? psz) && (psz <=? 65536) = true) as ->; [|done].
    apply andb_true_iff. rewrite !Z.leb_le. lia.
  - intros good prev r rest bf Hpsz -> Hs Hok Hb Ef Hsz Hle. by eapply encode_segment_unsorted.
Qed.

(** ** Through the envelope *)

(** The envelope is transparent: a segment of less than 4 GiB, wrapped with
    or without compression, never grows and opens as the same file with the same
    answers and no summaries. *)
Lemma envelope_transparent rows fp psz out m compress :
  encodable rows fp psz -> encode_segment rows fp psz = Some (Ok (out, m)) -> Z.of_nat (length out) < 2 ^ 32 ->
  exists w s, wrap_v2_envelope out compress = Some w /\ (length w <= length out)%nat /\ owned_from_bytes w = Some (Ok s) /\
    owned_bytes s = out /\ brin_summaries s = [] /\ reads (owned_metadata s) out rows.
Proof.
  intros H E Hl. destruct (encode_segment_ok rows fp psz H) as (gs & bf & E' & Hs). rewrite E in E'. injection E' as -> _.
  destruct (segment_file_magic psz gs bf) as (M1 & M2).
  destruct (unwrap_wrap _ compress (segment_file_bytes psz rows gs bf Hs) Hl M1) as (w & -> & Hlw & _ & Hu). rewrite M2 in Hu.
  exists w, (mk_owned (segment_file psz gs bf) (file_metadata psz gs bf) []). split; [done|]. split; [done|].
  split; [|split; [done|]; split; [done|]; by apply file_reads].
  unfold owned_from_bytes. rewrite Hu. destruct (decide _); cbn [obind]; by rewrite (parse_file psz rows gs bf Hs).
Qed.
