(* ===== verification/SegmentBrin.v ===== *)
(** The per-page key ranges of a segment (BRIN): what [derive_brin_summaries]
    computes from a file, and the sidecar of the envelope that carries it. *)
From S2P Require Import Prelude Bytes SortedMap Crc Lzss Bloom Segment SegmentEncode SegmentRead SegmentFile.
Open Scope Z_scope.

(** One range a page. *)
Fixpoint summaries_from (p : nat) (gs : list (list row)) : list BrinSummary :=
  match gs with
  | [] => []
  | g :: gs => mk_brin (Z.of_nat p) (first_key g) (last_pk g) :: summaries_from (S p) gs
  end.

Lemma collect_summaries_spec p gs : Z.of_nat (p + length gs) < 2 ^ 32 ->
  collect p (map (fun g => Some (first_key g)) gs) (map (fun g => Some (last_pk g)) gs) = Some (summaries_from p gs).
Proof.
  revert p. induction gs as [|g gs IH]; intros p H; cbn [map collect summaries_from length] in *; [done|].
  rewrite IH by lia. cbn [mbind option_bind]. by rewrite u32_try_from_ok by lia.
Qed.

Section Derive.
Context (psz : Z) (rows : list row) (gs : list (list row)) (bf : BloomFilter).
Hypothesis (Hseg : segment_of psz rows gs bf).

Let n := length gs.
Let starts := map first_key gs.

(** A key belongs to page [c]. *)
Definition in_page (c : nat) (key : Z) : Prop :=
  (forall j s, (j <= c)%nat -> starts !! j = Some s -> s <= key) /\ (forall s, starts !! S c = Some s -> key < s).

Lemma advance_spec fuel c key cp : in_page c key -> (cp <= c)%nat -> (c < n)%nat -> (c - cp <= fuel)%nat -> advance fuel n starts key cp = Some c.
Proof.
  intros (Hlo & Hhi). revert cp. induction fuel as [|fuel IH]; intros cp Hcp Hc Hf; cbn [advance];
    (destruct (cp + 1 <? n)%nat eqn:E; prop_bools; [|f_equal; lia]);
    (destruct (lookup_lt_is_Some_2 starts (cp + 1)) as [s Hs]; [unfold starts; rewrite length_map; fold n; lia|]); rewrite Hs; cbn [mbind option_bind].
  - assert (cp = c) as -> by lia. rewrite Nat.add_1_r in Hs. specialize (Hhi s Hs). by apply Z.leb_gt in Hhi as ->.
  - destruct (decide (cp = c)) as [->|].
    + rewrite Nat.add_1_r in Hs. specialize (Hhi s Hs). by apply Z.leb_gt in Hhi as ->.
    + specialize (Hlo (cp + 1)%nat s ltac:(lia) Hs). apply Z.leb_le in Hlo as ->. apply IH; lia.
Qed.

Lemma group_in_page c g r : gs !! c = Some g -> r ∈ g -> in_page c r.1.
Proof.
  intros Hg Hr. destruct (group_props psz rows gs bf Hseg c g Hg) as (Hne & Hs & _). split.
  - intros j s Hj Hlk. unfold starts in Hlk. apply list_lookup_fmap_Some in Hlk as (h & -> & Hh).
    destruct (decide (j = c)) as [->|]; [rewrite Hg in Hh; injection Hh as <-; by apply own_keys|].
    pose proof (later_keys psz rows gs bf Hseg j c h g r Hh Hg ltac:(lia) ltac:(apply elem_of_app; by right) Hr). lia.
  - intros s Hlk. unfold starts in Hlk. apply list_lookup_fmap_Some in Hlk as (h & -> & Hh).
    destruct (group_props psz rows gs bf Hseg (S c) h Hh) as (Hne' & _). destruct (first_key_in h Hne') as (r' & Hr' & ->).
    destruct (group_props psz rows gs bf Hseg c g Hg) as (_ & _ & _ & _ & E). pose proof (so_sorted _ _ _ _ Hseg) as Hso. rewrite E in Hso.
    apply sorted_app_r, sorted_app in Hso as (Hso & _). specialize (Hso r Hr). unfold all_gt in Hso. rewrite Forall_forall in Hso.
    apply (proj1 (klt_Z _ _)), (Hso r'). rewrite (drop_S _ _ _ Hh). cbn [concat]. apply elem_of_app. by left.
Qed.

(** More rows of the page at hand: only its maximum moves. *)
Lemma bucket_more c l rest m M (mins maxs : list (option Z)) : (forall r, r ∈ l -> in_page c r.1) -> (c < n)%nat ->
  mins !! c = Some (Some m) -> maxs !! c = Some M ->
  bucket_keys n starts (l ++ rest) c mins maxs =
  bucket_keys n starts rest c mins (<[c := match last l with Some r => Some r.1 | None => M end]> maxs).
Proof.
  intros Hl Hc Hm. revert M maxs. induction l as [|[k v] l IH]; intros M maxs HM; cbn [app bucket_keys].
  { cbn [last]. by rewrite list_insert_id. }
  pose proof (Hl (k, v) ltac:(by left)) as Hk. rewrite (advance_spec n c k c Hk) by lia. cbn [mbind option_bind]. rewrite Hm. cbn [mbind option_bind].
  rewrite vec_set_insert by (by eapply lookup_lt_Some). cbn [mbind option_bind].
  rewrite (IH ltac:(intros r Hr; apply Hl; by right) (Some k)).
  - f_equal. rewrite list_insert_insert_eq. f_equal. destruct l as [|x l]; [done|]. rewrite last_cons_cons. destruct (last (x :: l)) eqn:El; [done|]. by apply last_None in El.
  - rewrite list_lookup_insert_eq; [done|]. by eapply lookup_lt_Some.
Qed.

(** A whole page. *)
Lemma bucket_group c g rest cp (mins maxs : list (option Z)) : gs !! c = Some g -> (cp <= c)%nat ->
  mins !! c = Some None -> maxs !! c = Some None ->
  bucket_keys n starts (g ++ rest) cp mins maxs =
  bucket_keys n starts rest c (<[c := Some (first_key g)]> mins) (<[c := Some (last_pk g)]> maxs).
Proof.
  intros Hg Hcp Hm HM. pose proof (lookup_lt_Some _ _ _ Hg) as Hc. fold n in Hc.
  destruct (group_props psz rows gs bf Hseg c g Hg) as (Hne & _). destruct g as [|[k v] g]; [done|]. cbn [app bucket_keys first_key].
  assert (Hin : forall r, r ∈ (k, v) :: g -> in_page c r.1) by (intros r; by apply group_in_page).
  pose proof (Hin (k, v) ltac:(by left)) as Hk. rewrite (advance_spec n c k cp Hk) by lia. cbn [mbind option_bind]. rewrite Hm. cbn [mbind option_bind].
  rewrite !vec_set_insert by (by eapply lookup_lt_Some). cbn [mbind option_bind fst].
  rewrite (bucket_more c g rest k (Some k)); [|intros r Hr; apply Hin; by right|done|..].
  - f_equal. rewrite list_insert_insert_eq. f_equal. unfold last_pk. destruct g as [|x g]; [done|]. rewrite last_cons_cons. 
    destruct (last (x :: g)) eqn:El; [done|]. by apply last_None in El.
  - rewrite list_lookup_insert_eq; [done|]. by eapply lookup_lt_Some.
  - rewrite list_lookup_insert_eq; [done|]. by eapply lookup_lt_Some.
Qed.

(** The first [i] pages done. *)
Definition filled (f : list row -> Z) (i : nat) : list (option Z) := map (fun g => Some (f g)) (take i gs) ++ repeat None (n - i).

Lemma filled_next f i g : gs !! i = Some g -> filled f i !! i = Some None /\ <[i := Some (f g)]> (filled f i) = filled f (S i).
Proof.
  intros Hg. pose proof (lookup_lt_Some _ _ _ Hg) as Hc. fold n in Hc. unfold filled.
  assert (Hl : length (map (fun g => Some (f g)) (take i gs)) = i) by (rewrite length_map, length_take; fold n; lia).
  assert (Hr : repeat (@None Z) (n - i) = None :: repeat None (n - S i)) by (by replace (n - i)%nat with (S (n - S i)) by lia).
  rewrite Hr. split; [by apply list_lookup_middle|]. rewrite insert_app_r_alt by lia. rewrite Hl, Nat.sub_diag.
  rewrite (take_S_r _ _ _ Hg), map_app, <- app_assoc. done.
Qed.

Lemma bucket_all i cp : (i <= n)%nat -> (cp <= i)%nat ->
  bucket_keys n starts (concat (drop i gs)) cp (filled first_key i) (filled last_pk i) = Some (filled first_key n, filled last_pk n).
Proof.
  remember (n - i)%nat as k. revert i cp Heqk. induction k as [|k IH]; intros i cp Hk Hi Hcp.
  { assert (i = n) as -> by lia. rewrite drop_ge by done. done. }
  destruct (lookup_lt_is_Some_2 gs i) as [g Hg]; [fold n; lia|]. rewrite (drop_S _ _ _ Hg). cbn [concat].
  destruct (filled_next first_key i g Hg) as (H1 & E1). destruct (filled_next last_pk i g Hg) as (H2 & E2).
  rewrite (bucket_group i g) by (done || lia). rewrite E1, E2. apply IH; lia.
Qed.

Lemma derive_file : derive_brin_summaries (segment_file psz gs bf) = Some (Ok (summaries_from 0 gs)).
Proof.
  unfold derive_brin_summaries. rewrite (open_file psz rows gs bf Hseg). cbn [obind reader_metadata meta file_metadata segment_meta num_pages page_index].
  assert (Hn : (0 < length gs)%nat).
  { destruct gs; [|cbn; lia]. pose proof (so_rows _ _ _ _ Hseg) as E. pose proof (so_some _ _ _ _ Hseg). by rewrite <- E in *. }
  assert ((length gs =? 0)%nat = false) as -> by (apply Nat.eqb_neq; lia).
  unfold scan. cbn [reader_metadata reader_bytes]. rewrite (scan_file psz rows gs bf Hseg). cbn [mbind option_bind].
  assert (map first_pk (group_index (Z.to_nat psz) 0 gs) = starts) as ->.
  { unfold starts. generalize 0%nat at 1. clear. induction gs as [|g l IH]; intros off; cbn [group_index map first_pk]; [done|by rewrite IH]. }
  pose proof (bucket_all 0 0 ltac:(lia) ltac:(lia)) as H. unfold filled at 1 2 in H. rewrite Nat.sub_0_r, take_0, drop_0, (so_rows _ _ _ _ Hseg) in H.
  cbn [map app] in H. fold n. rewrite H. cbn [mbind option_bind]. unfold filled. rewrite Nat.sub_diag, take_ge by done. cbn [repeat]. rewrite !app_nil_r.
  rewrite collect_summaries_spec; [done|]. pose proof (length_groups gs (so_pages _ _ _ _ Hseg)) as Hg. rewrite (so_rows _ _ _ _ Hseg) in Hg.
  pose proof (so_count _ _ _ _ Hseg). lia.
Qed.
End Derive.

(** ** The sidecar *)

Definition summary_ok (s : BrinSummary) : Prop := u32 (brin_page s) /\ u64 (min_key s) /\ u64 (max_key s).

Lemma length_summary_bytes s : length (summary_bytes s) = 20%nat.
Proof. unfold summary_bytes. by rewrite !length_app, !length_le_bytes. Qed.

Definition brin_inner (sums : list BrinSummary) (v1 : list Z) : list Z :=
  BRIN_SIDECAR_MAGIC ++ le_bytes 4 (Z.of_nat (length sums)) ++ concat (map summary_bytes sums) ++ v1.

Lemma length_brin_inner sums v1 : length (brin_inner sums v1) = (8 + length sums * 20 + length v1)%nat.
Proof.
  unfold brin_inner. rewrite !length_app, length_le_bytes, (length_concat_map summary_bytes 20) by apply length_summary_bytes. cbn [length BRIN_SIDECAR_MAGIC]. lia.
Qed.

Lemma wrap_with_brin_inner sums v1 c : sums <> [] -> Z.of_nat (length sums) < 2 ^ 32 ->
  wrap_v2_envelope_with_brin v1 sums c = wrap_v2_envelope (brin_inner sums v1) c.
Proof.
  intros Hne Hn. unfold wrap_v2_envelope_with_brin. destruct sums as [|s sums]; [done|]. rewrite u32_try_from_ok by done. cbn [mbind option_bind].
  rewrite (fold_app_concat summary_bytes). unfold brin_inner. by rewrite <- !app_assoc.
Qed.

Lemma parse_summaries_spec sums v1 i : Forall summary_ok sums -> (i <= length sums)%nat ->
  parse_summaries (brin_inner sums v1) i (length sums - i) (take i sums) = Some sums.
Proof.
  intros Hok. remember (length sums - i)%nat as k. revert i Heqk. induction k as [|k IH]; intros i Hk Hi; cbn [parse_summaries].
  { f_equal. apply take_ge. lia. }
  destruct (lookup_lt_is_Some_2 sums i) as [s Hs]; [lia|].
  destruct (concat_map_field summary_bytes 20 sums i s length_summary_bytes Hs) as (p & q & Hpq & Hlp).
  pose proof (Forall_lookup_1 _ _ _ _ Hok Hs) as (H1 & H2 & H3). unfold brin_inner in *. unfold summary_bytes at 2 in Hpq.
  set (pre := BRIN_SIDECAR_MAGIC ++ le_bytes 4 (Z.of_nat (length sums)) ++ p).
  assert (Hpre : length pre = (8 + i * 20)%nat) by (unfold pre; rewrite !length_app, length_le_bytes; cbn [length BRIN_SIDECAR_MAGIC]; lia).
  rewrite (index_le_field 4 _ (brin_page s) pre (le_bytes 8 (min_key s) ++ le_bytes 8 (max_key s) ++ q ++ v1));
    [|unfold pre; by rewrite Hpq, <- !app_assoc|lia|done]. cbn [mbind option_bind].
  rewrite (index_le_field 8 (8 + i * 20 + 4) (min_key s) (pre ++ le_bytes 4 (brin_page s)) (le_bytes 8 (max_key s) ++ q ++ v1));
    [|unfold pre; by rewrite Hpq, <- !app_assoc|rewrite length_app, length_le_bytes; lia|done]. cbn [mbind option_bind].
  rewrite (index_le_field 8 (8 + i * 20 + 12) (max_key s) (pre ++ le_bytes 4 (brin_page s) ++ le_bytes 8 (min_key s)) (q ++ v1));
    [|unfold pre; by rewrite Hpq, <- !app_assoc|rewrite !length_app, !length_le_bytes; lia|done]. cbn [mbind option_bind].
  rewrite <- (IH (S i)) by lia. rewrite (take_S_r _ _ _ Hs). by destruct s.
Qed.

Lemma parse_brin_spec sums v1 : Forall summary_ok sums -> Z.of_nat (length sums) < 2 ^ 32 ->
  parse_brin_sidecar_then_v1 (brin_inner sums v1) = Some (Ok (v1, sums)).
Proof.
  intros Hok Hn. unfold parse_brin_sidecar_then_v1. rewrite length_brin_inner.
  assert ((8 + length sums * 20 + length v1 <? 8)%nat = false) as -> by (apply Nat.ltb_ge; lia).
  rewrite (index_le_field 4 4 (Z.of_nat (length sums)) BRIN_SIDECAR_MAGIC (concat (map summary_bytes sums) ++ v1)); [|done|done|by apply u32_of_nat].
  cbn [mbind option_bind]. rewrite Nat2Z.id.
  assert ((8 + length sums * 20 + length v1 <? 8 + length sums * 20)%nat = false) as -> by (apply Nat.ltb_ge; lia).
  pose proof (parse_summaries_spec sums v1 0 Hok ltac:(lia)) as H. rewrite Nat.sub_0_r, take_0 in H. rewrite H. cbn [mbind option_bind].
  do 3 f_equal. unfold brin_inner. rewrite !app_assoc. rewrite drop_app_length'; [done|].
  rewrite !length_app, length_le_bytes, (length_concat_map summary_bytes 20) by apply length_summary_bytes. cbn [length BRIN_SIDECAR_MAGIC]. lia.
Qed.

Lemma brin_inner_bytes sums v1 : is_bytes v1 -> is_bytes (brin_inner sums v1).
Proof.
  intros H. unfold brin_inner. rewrite !is_bytes_app. split; [by repeat constructor|]. split; [apply le_bytes_bytes|]. split; [|done].
  apply is_bytes_concat_map. intros s. unfold summary_bytes. rewrite !is_bytes_app. split_and!; apply le_bytes_bytes.
Qed.

(** ** The summaries of a segment *)

Lemma summaries_at p gs i s : summaries_from p gs !! i = Some s ->
  exists g, gs !! i = Some g /\ s = mk_brin (Z.of_nat (p + i)) (first_key g) (last_pk g).
Proof.
  revert p i. induction gs as [|g gs IH]; intros p [|i]; cbn [summaries_from lookup list_lookup]; try done.
  - intros [= <-]. exists g. split; [done|]. by rewrite Nat.add_0_r.
  - intros H. destruct (IH _ _ H) as (h & Hh & ->). exists h. split; [done|]. by rewrite Nat.add_succ_comm.
Qed.

Lemma length_summaries p gs : length (summaries_from p gs) = length gs.
Proof. revert p. induction gs as [|g gs IH]; intros p; cbn [summaries_from length]; [done|by rewrite IH]. Qed.

Lemma summaries_lookup gs i g : gs !! i = Some g -> summaries_from 0 gs !! i = Some (mk_brin (Z.of_nat i) (first_key g) (last_pk g)).
Proof.
  intros Hg. destruct (lookup_lt_is_Some_2 (summaries_from 0 gs) i) as [s Hs]; [rewrite length_summaries; by eapply lookup_lt_Some|].
  destruct (summaries_at _ _ _ _ Hs) as (h & Hh & ->). rewrite Hg in Hh. by injection Hh as ->.
Qed.

Section Summaries.
Context (psz : Z) (rows : list row) (gs : list (list row)) (bf : BloomFilter).
Hypothesis (Hseg : segment_of psz rows gs bf).

Lemma last_key_bound g r : sorted g -> r ∈ g -> r.1 <= last_pk g.
Proof.
  intros Hs Hr. unfold last_pk. destruct (last g) as [p|] eqn:El; [|apply last_None in El; rewrite El in Hr; by apply elem_of_nil in Hr].
  apply last_Some in El as (l & ->). cbn [from_option]. apply elem_of_app in Hr as [Hr|Hr%list_elem_of_singleton]; [|by rewrite Hr].
  apply sorted_app in Hs as (Hs & _). specialize (Hs _ Hr). unfold all_gt in Hs. rewrite Forall_singleton in Hs. apply (proj1 (klt_Z _ _)) in Hs. lia.
Qed.

(** Every key is in a range, and the ranges ascend without overlap. *)
Lemma summaries_cover r : r ∈ rows -> exists s, s ∈ summaries_from 0 gs /\ min_key s <= r.1 <= max_key s.
Proof.
  rewrite <- (so_rows _ _ _ _ Hseg). intros Hr. apply list_elem_of_In, in_concat in Hr as (g & Hg & Hr).
  apply list_elem_of_In in Hr. apply list_elem_of_In, list_elem_of_lookup_1 in Hg as (i & Hg).
  exists (mk_brin (Z.of_nat i) (first_key g) (last_pk g)). split; [by eapply list_elem_of_lookup_2, summaries_lookup|].
  destruct (group_props psz rows gs bf Hseg i g Hg) as (_ & Hs & _). cbn [min_key max_key]. split; [by apply own_keys|by apply last_key_bound].
Qed.

Lemma summaries_ascend i j a b : (i < j)%nat -> summaries_from 0 gs !! i = Some a -> summaries_from 0 gs !! j = Some b -> max_key a < min_key b.
Proof.
  intros Hij Ha Hb. destruct (summaries_at _ _ _ _ Ha) as (g & Hg & ->). destruct (summaries_at _ _ _ _ Hb) as (h & Hh & ->). cbn [max_key min_key].
  destruct (group_props psz rows gs bf Hseg i g Hg) as (Hgne & _ & _ & _ & E). destruct (group_props psz rows gs bf Hseg j h Hh) as (Hhne & _).
  destruct (last_pk_in g Hgne) as (r & Hr & ->). destruct (first_key_in h Hhne) as (r' & Hr' & ->).
  pose proof (so_sorted _ _ _ _ Hseg) as Hs. rewrite E in Hs. apply sorted_app_r, sorted_app in Hs as (Hs & _). specialize (Hs r Hr).
  unfold all_gt in Hs. rewrite Forall_forall in Hs. apply (proj1 (klt_Z _ _)), (Hs r'). apply list_elem_of_In, in_concat. exists h.
  split; apply list_elem_of_In; [|done]. apply (list_elem_of_lookup_2 _ (j - S i)). rewrite lookup_drop. by replace (S i + (j - S i))%nat with j by lia.
Qed.

Lemma summaries_ok : Forall summary_ok (summaries_from 0 gs).
Proof.
  apply Forall_lookup_2. intros i s Hs. destruct (summaries_at _ _ _ _ Hs) as (g & Hg & ->).
  destruct (group_props psz rows gs bf Hseg i g Hg) as (Hne & _). destruct (first_key_in g Hne) as (r & Hr & Ef). destruct (last_pk_in g Hne) as (r' & Hr' & El).
  pose proof (length_groups gs (so_pages _ _ _ _ Hseg)) as Hl. rewrite (so_rows _ _ _ _ Hseg) in Hl. pose proof (so_count _ _ _ _ Hseg).
  pose proof (lookup_lt_Some _ _ _ Hg). apply list_elem_of_lookup_2 in Hg.
  unfold summary_ok. cbn [brin_page min_key max_key]. rewrite Ef, El. split; [split; lia|].
  split; (eapply (row_key_u64 psz rows gs bf Hseg), (in_groups psz rows gs bf Hseg); done).
Qed.
End Summaries.

(** Summaries describe the pages and survive the compressed envelope: for an
    encoded segment, [derive_brin_summaries] answers one range a page; every key
    lies in one of them and they ascend without overlap; and a file that
    [wrap_v2_envelope_with_brin] compresses opens as the same segment, with the
    same answers and the same summaries. *)
Lemma brin_roundtrip rows fp psz out m : encodable rows fp psz -> encode_segment rows fp psz = Some (Ok (out, m)) ->
  exists sums, derive_brin_summaries out = Some (Ok sums) /\ length sums = num_pages m /\
    (forall r, r ∈ rows -> exists s, s ∈ sums /\ min_key s <= r.1 <= max_key s) /\
    (forall i j a b, (i < j)%nat -> sums !! i = Some a -> sums !! j = Some b -> max_key a < min_key b) /\
    (Z.of_nat (8 + length sums * 20 + length out) < 2 ^ 32 ->
     forall w, wrap_v2_envelope_with_brin out sums true = Some w -> has_magic SEGMENT_MAGIC_V2 w = true ->
     exists s, owned_from_bytes w = Some (Ok s) /\ owned_bytes s = out /\ brin_summaries s = sums /\ reads (owned_metadata s) out rows).
Proof.
  intros H E. destruct (encode_segment_ok rows fp psz H) as (gs & bf & E' & Hs). rewrite E in E'. injection E' as -> ->.
  exists (summaries_from 0 gs). split; [by eapply derive_file|]. split; [apply length_summaries|].
  split; [by eapply summaries_cover|]. split; [by eapply summaries_ascend|]. intros Hl w Ew Hw. set (sums := summaries_from 0 gs) in *.
  set (out := segment_file psz gs bf) in *. assert (Hne : sums <> []).
  { intros Hn. apply (f_equal length) in Hn. unfold sums in Hn. rewrite length_summaries in Hn. apply (so_some _ _ _ _ Hs).
    rewrite <- (so_rows _ _ _ _ Hs). by destruct gs. }
  assert (Hn : Z.of_nat (length sums) < 2 ^ 32) by lia.
  rewrite (wrap_with_brin_inner sums out true Hne Hn) in Ew.
  destruct (unwrap_wrap (brin_inner sums out) true) as (w' & Ew' & _ & _ & Hu);
    [apply brin_inner_bytes; by eapply segment_file_bytes|rewrite length_brin_inner; lia|done|].
  rewrite Ew in Ew'. injection Ew' as <-. assert (Hbrin : has_magic BRIN_SIDECAR_MAGIC (brin_inner sums out) = true) by apply has_magic_app.
  rewrite Hbrin, decide_False in Hu by (intros Eq; rewrite Eq in Hw; done).
  rewrite (parse_brin_spec sums out) in Hu by (by eapply summaries_ok || done).
  exists (mk_owned out (file_metadata psz gs bf) sums). split; [|split; [done|]; split; [done|]; by apply file_reads].
  unfold owned_from_bytes. rewrite Hu. cbn [obind]. unfold out. by rewrite (parse_file psz rows gs bf Hs).
Qed.

(** The summary of the one-row file, and the file wrapped with it. *)
Definition tiny_sums : list BrinSummary := [mk_brin 0 3 3].
Definition tiny_wrapped : list Z := Eval vm_compute in default [] (wrap_v2_envelope_with_brin tiny_file tiny_sums true).

Lemma tiny_wraps : wrap_v2_envelope_with_brin tiny_file tiny_sums true = Some tiny_wrapped /\ has_magic SEGMENT_MAGIC_V2 tiny_wrapped = true.
Proof. split; vm_compute; reflexivity. Qed.

Lemma tiny_derives : derive_brin_summaries tiny_file = Some (Ok tiny_sums).
Proof. vm_compute. reflexivity. Qed.

(** Summaries without compression give a file nobody can open: when
    [wrap_v2_envelope_with_brin] leaves its input uncompressed, as it always
    does with [compress = false], it returns the sidecar and the segment
    without an envelope around them, and [from_bytes] refuses it. *)
Lemma brin_uncompressed_unreadable v1 sums w compress : (44 <= length v1)%nat -> sums <> [] -> Z.of_nat (length sums) < 2 ^ 32 ->
  wrap_v2_envelope_with_brin v1 sums compress = Some w -> has_magic SEGMENT_MAGIC_V2 w = false ->
  owned_from_bytes w = Some (Err (BadMagic (take 8 w))).
Proof.
  intros Hl Hne Hn E Hw. rewrite wrap_with_brin_inner in E by done.
  assert (w = brin_inner sums v1) as ->.
  { unfold wrap_v2_envelope in E. destruct (negb compress); [by injection E|]. destruct (Lzss.compress _) as [c|]; cbn [mbind option_bind] in E; [|done].
    destruct (_ <=? _)%nat; [by injection E|]. destruct (u32_try_from _); cbn [mbind option_bind] in E; [|done]. injection E as E. exfalso.
    apply not_true_iff_false in Hw. apply Hw. rewrite <- E. apply (has_magic_app SEGMENT_MAGIC_V2). }
  set (w := brin_inner sums v1) in *. unfold owned_from_bytes, unwrap_v2_envelope. rewrite Hw. cbn [negb obind].
  assert (Hlw : (44 <= length w)%nat) by (unfold w; rewrite length_brin_inner; lia).
  unfold parse_segment_metadata. cbv zeta. unfold HEADER_FIXED_LEN, FOOTER_LEN. change (8 + 4 + 4 + 4 + 8 + 8 + 4 + 4)%nat with 44%nat.
  assert ((length w <? 44)%nat = false) as -> by (by apply Nat.ltb_ge). rewrite (subslice_in 0 8) by lia. cbn [mbind option_bind].
  change (slice 0 (8 - 0) w) with (take 8 w). assert (inner_version (take 8 w) = Some (Err (BadMagic (take 8 w)))) as ->; [|done].
  unfold inner_version, w, brin_inner, BRIN_SIDECAR_MAGIC. done.
Qed.

Lemma brin_uncompressed_unreadable_witness :
  let w := brin_inner tiny_sums tiny_file in
  wrap_v2_envelope_with_brin tiny_file tiny_sums false = Some w /\ owned_from_bytes w = Some (Err (BadMagic (take 8 w))).
Proof.
  intros w. assert (E : wrap_v2_envelope_with_brin tiny_file tiny_sums false = Some w) by (vm_compute; reflexivity). split; [exact E|].
  apply (brin_uncompressed_unreadable tiny_file tiny_sums w false); [|discriminate|by vm_compute|exact E|by vm_compute].
  apply Nat.leb_le. by vm_compute.
Defined.
