(* ===== verification/Wal.v ===== *)
(** The write-ahead log of crates/spg-server/src/wal.rs: the record codec of
    its three framings, appending, and replay; with the readers of the same
    bytes elsewhere, the replication follower (replication.rs) and the
    offline tools of crates/spgctl/src/main.rs, and the boot sequence around
    replay (main.rs).  Definitions only; WalReplay and WalRecovery hold the
    theorems. *)
From S2P Require Import Prelude Bytes Crc Lzss.
Open Scope Z_scope.

Definition WAL_V2_SENTINEL : Z := 0x80000000.
Definition WAL_V3_FLAG : Z := 0x40000000.
Definition WAL_V3_SENTINEL : Z := Z.lor WAL_V2_SENTINEL WAL_V3_FLAG.

Definition WAL_V3_TYPE_AUTO_COMMIT_SQL : Z := 0x01.
Definition WAL_V3_TYPE_DURABILITY_CHECKPOINT : Z := 0x02.
Definition WAL_V3_TYPE_COMPRESSED_SQL : Z := 0x03.
Definition WAL_V3_TYPE_MYSQL_SQL : Z := 0x04.
Definition WAL_V3_TYPE_VOLATILE_INPUTS : Z := 0x05.
Definition WAL_COMPRESS_ALGO_NONE : Z := 0x00.
Definition WAL_COMPRESS_ALGO_LZSS : Z := 0x01.

(** The errors, without their texts; offsets are those of the frame. *)
Inductive wal_error : Type :=
| SqlTooLarge
| SqlAliasesSentinel
| PayloadTooLarge
| PayloadAliasesSentinel
| StorageFull
| WriteFailed
| SyncFailed
| NonUtf8Sql
| VolatileInputsLength (frame_off len : nat)
| EmptyPayload (frame_off : nat)
| UnknownAlgo (frame_off : nat) (algo : Z)
| LzssFailed (frame_off : nat) (e : LzssError)
| CheckpointLength (frame_off len : nat)
| UnknownType (frame_off : nat) (tag : Z)
| CrcMismatch (frame_off : nat)
| ApplyRejected
| TruncatedRecord
| RollbackFailed.

(** What a statement drew from: the instant and the random state. *)
Definition volatiles : Type := Z * Z.

(** What replay asks of the engine.  A statement may be rejected ([false]);
    the engine keeps whatever state it is left in. *)
Class ReplayEngine (Eng : Type) : Type := {
  execute : Eng -> list Z -> Eng * bool;
  replay_statement : Eng -> Z -> Z -> list Z -> Eng * bool;
  in_mysql_dialect : Eng -> bool;
  set_mysql_dialect : Eng -> bool -> Eng;
  in_transaction : Eng -> bool;
}.

(** ** Records *)

Definition encode_wal_record (sql : list Z) : result (list Z) wal_error :=
  let? len := if Z.of_nat (length sql) <? 2 ^ 32 then Ok (Z.of_nat (length sql)) else Err SqlTooLarge in
  if negb (Z.land len WAL_V2_SENTINEL =? 0) then Err SqlAliasesSentinel
  else
    let crc := crc32 sql in
    Ok (le_bytes 4 (Z.lor len WAL_V2_SENTINEL) ++ le_bytes 4 crc ++ sql).

Definition encode_wal_v3_record (type_tag : Z) (payload : list Z) : result (list Z) wal_error :=
  let? len := if Z.of_nat (length payload) <? 2 ^ 32 then Ok (Z.of_nat (length payload)) else Err PayloadTooLarge in
  if negb (Z.land len (Z.lor WAL_V2_SENTINEL WAL_V3_FLAG) =? 0) then Err PayloadAliasesSentinel
  else
    let crc := crc32 ([type_tag] ++ payload) in
    Ok (le_bytes 4 (Z.lor len WAL_V3_SENTINEL) ++ le_bytes 4 crc ++ [type_tag] ++ payload).

(** [None] is the failed [expect]. *)
Definition encode_wal_volatile_inputs (v : option volatiles) : option (list Z) :=
  match v with
  | None => Some []
  | Some (micros, random) =>
    match encode_wal_v3_record WAL_V3_TYPE_VOLATILE_INPUTS
            (le_bytes 8 (wrap 64 micros) ++ le_bytes 8 random) with
    | Ok b => Some b
    | Err _ => None
    end
  end.

Section Encoders.
(** [SPG_WAL_COMPRESSION] and [SPG_COMPRESSION_MIN_BYTES]. *)
Context (wal_compression_enabled : bool) (wal_compression_min_bytes : nat).

Definition encode_wal_auto_commit_sql_mysql (sql : list Z) : outcome (list Z) wal_error :=
  let threshold := wal_compression_min_bytes in
  let! payload :=
    if negb wal_compression_enabled || (length sql <? threshold)%nat then
      Some ([WAL_COMPRESS_ALGO_NONE] ++ sql)
    else
      let! compressed := compress sql in
      if (length sql <=? length compressed + 1)%nat then Some ([WAL_COMPRESS_ALGO_NONE] ++ sql)
      else Some ([WAL_COMPRESS_ALGO_LZSS] ++ compressed) in
  Some (encode_wal_v3_record WAL_V3_TYPE_MYSQL_SQL payload).

Definition encode_wal_auto_commit_sql (sql : list Z) : outcome (list Z) wal_error :=
  let threshold := wal_compression_min_bytes in
  if negb wal_compression_enabled || (length sql <? threshold)%nat then
    Some (encode_wal_v3_record WAL_V3_TYPE_AUTO_COMMIT_SQL sql)
  else
    let! compressed := compress sql in
    if (length sql <=? length compressed + 1)%nat then
      Some (encode_wal_v3_record WAL_V3_TYPE_AUTO_COMMIT_SQL sql)
    else
      Some (encode_wal_v3_record WAL_V3_TYPE_COMPRESSED_SQL ([WAL_COMPRESS_ALGO_LZSS] ++ compressed)).

(** What the commit leader writes for one statement of its group. *)
Definition leader_entry (mysql : bool) (v : option volatiles) (sql : list Z) : outcome (list Z) wal_error :=
  let!? b := if mysql then encode_wal_auto_commit_sql_mysql sql else encode_wal_auto_commit_sql sql in
  let! framed := encode_wal_volatile_inputs v in
  Some (Ok (framed ++ b)).

(** What a connection writes itself, outside the group commit. *)
Definition append_wal_entry (mysql : bool) (v : option volatiles) (sql : list Z) : outcome (list Z) wal_error :=
  let! entry := encode_wal_volatile_inputs v in
  let!? b := if mysql then encode_wal_auto_commit_sql_mysql sql else Some (encode_wal_record sql) in
  Some (Ok (entry ++ b)).
End Encoders.

Definition encode_durability_marker (byte_offset : Z) : result (list Z) wal_error :=
  encode_wal_v3_record WAL_V3_TYPE_DURABILITY_CHECKPOINT (le_bytes 8 byte_offset).

(** ** Appending *)

(** What the file system does during one append: [write_all] may fail after
    some bytes have landed, the rollback's [set_len] may fail, and so may the
    [fsync]; [volume_free] is what [statvfs] answers. *)
Record io_fate : Type := mk_fate {
  write_fails_after : option nat;
  set_len_works : bool;
  sync_works : bool;
  volume_free : Z;
}.

Record wal_limits : Type := mk_limits {
  wal_quota_bytes : option Z;
  wal_min_free_bytes : option Z;
}.

(** The quota and the water mark. *)
Definition wal_limits_refuse (limits : wal_limits) (fate : io_fate) (current len : nat) : bool :=
  match wal_quota_bytes limits with
  | Some quota => quota <? Z.min (Z.of_nat current + Z.of_nat len) (2 ^ 64 - 1)
  | None => false
  end ||
  match wal_min_free_bytes limits with
  | Some min_free => volume_free fate <? min_free
  | None => false
  end.

(** The write under the log's mutex, its byte rollback and the [fsync]: the
    file afterwards, and the outcome. *)
Definition write_and_sync (fate : io_fate) (wal batched : list Z) (sync : bool) : list Z * result () wal_error :=
  let pre_append_len := length wal in
  let set_len f := if set_len_works fate then take pre_append_len f else f in
  match write_fails_after fate with
  | Some k => (set_len (wal ++ take k batched), Err WriteFailed)
  | None =>
    let f := wal ++ batched in
    if sync && negb (sync_works fate) then (set_len f, Err SyncFailed)
    else (f, Ok ())
  end.

(** One group of framed entries. *)
Definition append_wal_v3_group (limits : wal_limits) (fate : io_fate)
    (wal : list Z) (entries : list (list Z)) (sync : bool) : list Z * result () wal_error :=
  match entries with
  | [] => (wal, Ok ())
  | _ =>
    let batched := concat entries in
    if wal_limits_refuse limits fate (length wal) (length batched) then (wal, Err StorageFull)
    else write_and_sync fate wal batched sync
  end.

(** One statement, appended by its own connection. *)
Definition append_wal_dialect (enabled : bool) (threshold : nat) (limits : wal_limits) (fate : io_fate)
    (wal : list Z) (v : option volatiles) (sql : list Z) (sync mysql : bool) : option (list Z * result () wal_error) :=
  let! r := append_wal_entry enabled threshold mysql v sql in
  match r with
  | Err e => Some (wal, Err e)
  | Ok entry =>
    if wal_limits_refuse limits fate (length wal) (length entry) then Some (wal, Err StorageFull)
    else Some (write_and_sync fate wal entry sync)
  end.

(** The flusher's marker: synced after the mutex is released, so that a
    failed [fsync] leaves it in the file. *)
Definition append_durability_marker (limits : wal_limits) (fate : io_fate) (wal : list Z) : list Z * result nat wal_error :=
  let pre_marker_offset := length wal in
  match encode_durability_marker (Z.of_nat pre_marker_offset) with
  | Err e => (wal, Err e)
  | Ok entry =>
    if wal_limits_refuse limits fate pre_marker_offset (length entry) then (wal, Err StorageFull)
    else
      match write_fails_after fate with
      | Some k => (if set_len_works fate then take (length wal) (wal ++ take k entry) else wal ++ take k entry, Err WriteFailed)
      | None => (wal ++ entry, if sync_works fate then Ok pre_marker_offset else Err SyncFailed)
      end
  end.

(** ** Reading a frame header *)

Definition is_v2 (raw_len : Z) : bool := negb (Z.land raw_len WAL_V2_SENTINEL =? 0).
Definition is_v3 (raw_len : Z) : bool := is_v2 raw_len && negb (Z.land raw_len WAL_V3_FLAG =? 0).

Definition rec_len (raw_len : Z) : nat :=
  let len_mask := if is_v3 raw_len then not_w 32 (Z.lor WAL_V2_SENTINEL WAL_V3_FLAG)
                  else not_w 32 WAL_V2_SENTINEL in
  Z.to_nat (Z.land raw_len len_mask).

(** The header of the frame at [frame_off], as replay and [records_follow]
    read it: where the payload starts, its length, the CRC and the type. *)
Record header : Type := mk_header {
  h_cur : nat;
  h_len : nat;
  h_crc : option Z;
  h_tag : option Z;
}.

(** [Some None] is a header cut short. *)
Definition read_header (bytes : list Z) (frame_off : nat) : option (option header) :=
  let cur := frame_off in
  if (length bytes - cur <? 4)%nat then Some None
  else
    let! raw_len := index_le 4 cur bytes in
    let cur := (cur + 4)%nat in
    let len := rec_len raw_len in
    if is_v2 raw_len then
      if (length bytes - cur <? 4)%nat then Some None
      else
        let! c := index_le 4 cur bytes in
        let cur := (cur + 4)%nat in
        if is_v3 raw_len then
          if (length bytes - cur <? 1)%nat then Some None
          else
            let! t := bytes !! cur in
            Some (Some (mk_header (cur + 1) len (Some c) (Some t)))
        else Some (Some (mk_header cur len (Some c) None))
    else Some (Some (mk_header cur len None None)).

(** [actual != expected]; v1 frames carry no CRC. *)
Definition crc_differs (h : header) (payload : list Z) : bool :=
  match h_crc h with
  | None => false
  | Some expected =>
    let actual := match h_tag h with
                  | Some t => crc32 ([t] ++ payload)
                  | None => crc32 payload
                  end in
    negb (actual =? expected)
  end.

Fixpoint records_follow_loop (fuel : nat) (bytes : list Z) (cur seen : nat) : option bool :=
  if (cur <? length bytes)%nat then
    match fuel with
    | O => None
    | S fuel =>
      let! r := read_header bytes cur in
      match r with
      | None => Some false
      | Some h =>
        if (length bytes <? h_cur h + h_len h)%nat then Some false
        else
          let! payload := subslice (h_cur h) (h_cur h + h_len h) bytes in
          if crc_differs h payload then Some false
          else records_follow_loop fuel bytes (h_cur h + h_len h) (seen + 1)
      end
    end
  else Some (0 <? seen)%nat.

(** Does a readable chain of records run from [at_] to the end? *)
Definition records_follow (bytes : list Z) (at_ : nat) : option bool :=
  records_follow_loop (length bytes) bytes at_ 0.

(** ** Replay *)

Record WalReplay : Type := mk_replay {
  applied : nat;
  valid_bytes : nat;
}.

Section Replay.
Context {Eng : Type} `{ReplayEngine Eng}.

(** A rejected statement is reported and skipped. *)
Definition replay_execute_quarantining (engine : Eng) (sql : list Z) (v : option volatiles) : Eng :=
  match v with
  | Some (at_, random) => (replay_statement engine at_ random sql).1
  | None => (execute engine sql).1
  end.

(** The payload's two words. *)
Definition volatiles_of (payload : list Z) : volatiles :=
  (signed 64 (le_val (take 8 payload)), le_val (drop 8 payload)).

(** The outcome of a record: the engine, what is left pending, and whether
    the record counts as a statement. *)
Definition dispatched : Type := Eng * option volatiles * result bool wal_error.

Definition dispatch_v3_record (tag : Z) (payload : list Z) (frame_off : nat)
    (engine : Eng) (pending : option volatiles) : option dispatched :=
  let fail e := Some (engine, pending, Err e) in
  if tag =? WAL_V3_TYPE_VOLATILE_INPUTS then
    if (length payload =? 16)%nat then Some (engine, Some (volatiles_of payload), Ok false)
    else fail (VolatileInputsLength frame_off (length payload))
  else if tag =? WAL_V3_TYPE_AUTO_COMMIT_SQL then
    match from_utf8 payload NonUtf8Sql with
    | Err e => fail e
    | Ok sql => Some (replay_execute_quarantining engine sql pending, None, Ok true)
    end
  else if tag =? WAL_V3_TYPE_MYSQL_SQL then
    match payload with
    | [] => fail (EmptyPayload frame_off)
    | algo :: rest =>
      let! raw :=
        if algo =? WAL_COMPRESS_ALGO_NONE then Some (Ok rest)
        else if algo =? WAL_COMPRESS_ALGO_LZSS then
          let! r := decompress rest in
          Some (match r with Ok out => Ok out | Err e => Err (LzssFailed frame_off e) end)
        else Some (Err (UnknownAlgo frame_off algo)) in
      match rbind raw (fun raw => from_utf8 raw NonUtf8Sql) with
      | Err e => fail e
      | Ok sql =>
        let was := in_mysql_dialect engine in
        let engine := set_mysql_dialect engine true in
        let engine := replay_execute_quarantining engine sql pending in
        Some (set_mysql_dialect engine was, None, Ok true)
      end
    end
  else if tag =? WAL_V3_TYPE_COMPRESSED_SQL then
    match payload with
    | [] => fail (EmptyPayload frame_off)
    | algo :: compressed =>
      let! raw :=
        if algo =? WAL_COMPRESS_ALGO_LZSS then
          let! r := decompress compressed in
          Some (match r with Ok out => Ok out | Err e => Err (LzssFailed frame_off e) end)
        else Some (Err (UnknownAlgo frame_off algo)) in
      match rbind raw (fun raw => from_utf8 raw NonUtf8Sql) with
      | Err e => fail e
      | Ok sql => Some (replay_execute_quarantining engine sql pending, None, Ok true)
      end
    end
  else if tag =? WAL_V3_TYPE_DURABILITY_CHECKPOINT then
    if (length payload =? 8)%nat then Some (engine, pending, Ok false)
    else fail (CheckpointLength frame_off (length payload))
  else fail (UnknownType frame_off tag).

(** The last part of replay's loop: v1 and v2 payloads are the SQL text. *)
Definition play_record (tag : option Z) (payload : list Z) (frame_off : nat)
    (engine : Eng) (pending : option volatiles) : option dispatched :=
  match tag with
  | Some tag => dispatch_v3_record tag payload frame_off engine pending
  | None =>
    match from_utf8 payload NonUtf8Sql with
    | Err e => Some (engine, pending, Err e)
    | Ok sql => Some (replay_execute_quarantining engine sql None, pending, Ok true)
    end
  end.

(** An error leaves the engine with what was applied before it. *)
Fixpoint replay_loop (fuel : nat) (bytes : list Z) (cur applied : nat) (pending : option volatiles) (engine : Eng)
  : option (Eng * result WalReplay wal_error) :=
  if (cur <? length bytes)%nat then
    match fuel with
    | O => None
    | S fuel =>
      let frame_off := cur in
      let break := Some (engine, Ok (mk_replay applied frame_off)) in
      let! r := read_header bytes frame_off in
      match r with
      | None => break
      | Some h =>
        if (length bytes <? h_cur h + h_len h)%nat then break
        else
          let! payload := subslice (h_cur h) (h_cur h + h_len h) bytes in
          if crc_differs h payload then
            let! follow := records_follow bytes (h_cur h + h_len h) in
            if follow : bool then Some (engine, Err (CrcMismatch frame_off)) else break
          else
            let! d := play_record (h_tag h) payload frame_off engine pending in
            match d with
            | (engine, _, Err e) => Some (engine, Err e)
            | (engine, pending, Ok counts) =>
              replay_loop fuel bytes (h_cur h + h_len h) (if counts : bool then applied + 1 else applied)%nat pending engine
            end
      end
    end
  else Some (engine, Ok (mk_replay applied cur)).

Definition replay_wal_bytes_reporting (bytes : list Z) (engine : Eng) : option (Eng * result WalReplay wal_error) :=
  replay_loop (length bytes) bytes 0 0 None engine.

(** ** Boot *)

Definition ROLLBACK : list Z := [0x52; 0x4F; 0x4C; 0x4C; 0x42; 0x41; 0x43; 0x4B].

(** The log file present at boot: the [SPG_REPLAY_UPTO] cap, the manifest's
    baseline, replay, and the cut; the engine and the file afterwards. *)
Definition replay_wal_into_engine (engine : Eng) (file : list Z) (upto : option nat) (manifest_wal_baseline : nat)
  : option (Eng * list Z * result WalReplay wal_error) :=
  let '(bytes, pitr_capped) :=
    match upto with
    | Some upto => if (upto <? length file)%nat then (take upto file, true) else (file, false)
    | None => (file, false)
    end in
  let skip := ((0 <? manifest_wal_baseline) && (manifest_wal_baseline <=? length bytes))%nat in
  let replay_from := if skip then manifest_wal_baseline else 0%nat in
  let bytes := if skip then drop manifest_wal_baseline bytes else bytes in
  let! (engine, r) := replay_wal_bytes_reporting bytes engine in
  match r with
  | Err e => Some (engine, file, Err e)
  | Ok replay =>
    let file := if (valid_bytes replay <? length bytes)%nat && negb pitr_capped
                then take (replay_from + valid_bytes replay) file else file in
    if in_transaction engine then
      let '(engine, ok) := execute engine ROLLBACK in
      if ok : bool then Some (engine, file, Ok replay) else Some (engine, file, Err RollbackFailed)
    else Some (engine, file, Ok replay)
  end.

(** ** The replication follower *)

(** A malformed payload reads as [None]. *)
Definition decode_volatile_inputs (payload : list Z) : option volatiles :=
  if (length payload =? 16)%nat then Some (volatiles_of payload) else None.

Definition apply_replicated (engine : Eng) (sql : list Z) (v : option volatiles) : Eng * bool :=
  match v with
  | Some (at_, random) => replay_statement engine at_ random sql
  | None => execute engine sql
  end.

(** What a follower keeps between connections: the engine and the position
    stored for the next handshake ([follower_applied_pos]); and what a
    connection keeps between two chunks of the stream: the bytes not consumed
    yet, the readings waiting for their statement, and the position reached. *)
Record follower : Type := mk_follower {
  f_engine : Eng;
  f_applied_pos : Z;
}.

Record connection : Type := mk_connection {
  c_pending : list Z;
  c_volatiles : option volatiles;
  c_applied_offset : Z;
}.

(** The loop over the complete records of [pending]. *)
Fixpoint follower_loop (fuel : nat) (pending : list Z) (cur : nat) (engine : Eng) (v : option volatiles) (off : Z)
  : option (Eng * result (nat * option volatiles * Z) wal_error) :=
  if (length pending - cur <? 4)%nat then Some (engine, Ok (cur, v, off))
  else
    match fuel with
    | O => None
    | S fuel =>
      let! raw_len := index_le 4 cur pending in
      let len := rec_len raw_len in
      let header_len := if is_v3 raw_len then 9%nat else if is_v2 raw_len then 8%nat else 4%nat in
      if (length pending - cur <? header_len + len)%nat then Some (engine, Ok (cur, v, off))
      else
        let payload_off := (cur + header_len)%nat in
        let! sql_bytes := subslice payload_off (payload_off + len) pending in
        let! damaged :=
          if is_v2 raw_len then
            let! expected := index_le 4 (cur + 4) pending in
            let! actual :=
              if is_v3 raw_len then
                let! type_byte := pending !! (cur + 8)%nat in Some (crc32 ([type_byte] ++ sql_bytes))
              else Some (crc32 sql_bytes) in
            Some (negb (actual =? expected))
          else Some false in
        if damaged : bool then Some (engine, Err (CrcMismatch cur))
        else
          let next := (cur + (header_len + len))%nat in
          let off' := Z.min (off + Z.of_nat (header_len + len)) (2 ^ 64 - 1) in
          let apply := match from_utf8 sql_bytes NonUtf8Sql with
                       | Err e => Some (engine, Err e)
                       | Ok sql =>
                         let '(engine, ok) := apply_replicated engine sql v in
                         if ok : bool then follower_loop fuel pending next engine None off'
                         else Some (engine, Err ApplyRejected)
                       end in
          if is_v3 raw_len then
            let! type_byte := pending !! (cur + 8)%nat in
            if type_byte =? WAL_V3_TYPE_AUTO_COMMIT_SQL then apply
            else if type_byte =? WAL_V3_TYPE_VOLATILE_INPUTS then
              follower_loop fuel pending next engine (decode_volatile_inputs sql_bytes) off'
            else Some (engine, Err (UnknownType cur type_byte))
          else apply
    end.

(** A handshake resumes at the stored position. *)
Definition follow_connect (f : follower) : connection := mk_connection [] None (f_applied_pos f).

(** One chunk of the stream: appended to what is pending, the complete
    records applied, the rest kept and the position stored.  On an error the
    connection ends before the position is stored. *)
Definition follower_receive (f : follower) (c : connection) (chunk : list Z) : option (follower * result connection wal_error) :=
  let pending := c_pending c ++ chunk in
  let! (engine, r) := follower_loop (length pending) pending 0 (f_engine f) (c_volatiles c) (c_applied_offset c) in
  match r with
  | Err e => Some (mk_follower engine (f_applied_pos f), Err e)
  | Ok (cur, v, off) => Some (mk_follower engine off, Ok (mk_connection (drop cur pending) v off))
  end.

(** A connection over the chunks the primary sends. *)
Fixpoint follow_chunks (f : follower) (c : connection) (chunks : list (list Z)) : option (follower * result connection wal_error) :=
  match chunks with
  | [] => Some (f, Ok c)
  | chunk :: chunks =>
    let! (f, r) := follower_receive f c chunk in
    match r with
    | Err e => Some (f, Err e)
    | Ok c => follow_chunks f c chunks
    end
  end.

Definition follow_once (f : follower) (chunks : list (list Z)) : option (follower * result connection wal_error) :=
  follow_chunks f (follow_connect f) chunks.
End Replay.

Arguments follower : clear implicits.

(** ** The offline tools *)

(** [spgctl]'s reader of one record: the SQL and the record's length. *)
Definition decode_one_record (tail : list Z) : outcome (list Z * nat) wal_error :=
  if (length tail <? 4)%nat then Some (Err TruncatedRecord)
  else
    let raw_len := le_val (take 4 tail) in
    let len := rec_len raw_len in
    let header_len := if is_v3 raw_len then 9%nat else if is_v2 raw_len then 8%nat else 4%nat in
    if (length tail <? header_len + len)%nat then Some (Err TruncatedRecord)
    else
      let payload := slice header_len len tail in
      if is_v3 raw_len then
        let! type_byte := tail !! 8%nat in
        if type_byte =? 0x01 then Some (Ok (payload, (header_len + len)%nat))
        else if type_byte =? 0x02 then Some (Ok ([], (header_len + len)%nat))
        else if type_byte =? 0x03 then
          match payload with
          | [] => Some (Err (EmptyPayload 0))
          | algo :: compressed =>
            if negb (algo =? 0x01) then Some (Err (UnknownAlgo 0 algo))
            else
              let! r := decompress compressed in
              Some (match r with
                    | Ok out => Ok (out, (header_len + len)%nat)
                    | Err e => Err (LzssFailed 0 e)
                    end)
          end
        else Some (Err (UnknownType 0 type_byte))
      else Some (Ok (payload, (header_len + len)%nat)).

(** [spg lint]: every record in turn, the first rejection reported at its offset. *)
Fixpoint wal_lint_loop {Eng} `{ReplayEngine Eng} (fuel : nat) (wal_bytes : list Z) (cur applied : nat) (engine : Eng)
  : option (result nat (nat * wal_error)) :=
  if (cur <? length wal_bytes)%nat then
    match fuel with
    | O => None
    | S fuel =>
      let! r := decode_one_record (drop cur wal_bytes) in
      match r with
      | Err e => Some (Err (cur, e))
      | Ok (sql_bytes, total) =>
        match from_utf8 sql_bytes NonUtf8Sql with
        | Err e => Some (Err (cur, e))
        | Ok sql =>
          let '(engine, ok) := execute engine sql in
          if ok : bool then wal_lint_loop fuel wal_bytes (cur + total) (applied + 1) engine
          else Some (Err (cur, ApplyRejected))
        end
      end
    end
  else Some (Ok applied).

Definition wal_lint {Eng} `{ReplayEngine Eng} (wal_bytes : list Z) (engine : Eng) : option (result nat (nat * wal_error)) :=
  wal_lint_loop (length wal_bytes) wal_bytes 0 0 engine.

(** [spg revert]: the first [to_seq] statements, markers skipped. *)
Fixpoint wal_revert_loop {Eng} `{ReplayEngine Eng} (fuel : nat) (wal_bytes : list Z) (to_seq : Z) (cur : nat) (applied : Z) (engine : Eng)
  : option (Eng * result Z wal_error) :=
  if (cur <? length wal_bytes)%nat && (applied <? to_seq) then
    match fuel with
    | O => None
    | S fuel =>
      let! r := decode_one_record (drop cur wal_bytes) in
      match r with
      | Err e => Some (engine, Err e)
      | Ok (sql_bytes, total) =>
        let cur := (cur + total)%nat in
        match sql_bytes with
        | [] => wal_revert_loop fuel wal_bytes to_seq cur applied engine
        | _ =>
          match from_utf8 sql_bytes NonUtf8Sql with
          | Err e => Some (engine, Err e)
          | Ok sql =>
            let '(engine, ok) := execute engine sql in
            if ok : bool then wal_revert_loop fuel wal_bytes to_seq cur (applied + 1) engine
            else Some (engine, Err ApplyRejected)
          end
        end
      end
    end
  else Some (engine, Ok applied).

Definition wal_revert {Eng} `{ReplayEngine Eng} (wal_bytes : list Z) (to_seq : Z) (engine : Eng) : option (Eng * result Z wal_error) :=
  wal_revert_loop (length wal_bytes) wal_bytes to_seq 0 0 engine.
