(* ===== verification/WalReplay.v ===== *)
(** Frames of the write-ahead log: what reading a header gives on written,
    cut and arbitrary bytes, and replay's loop by its unfolding equation. *)
From S2P Require Import Prelude Bytes Crc Lzss Wal.
Open Scope Z_scope.

(** ** The length word *)

Lemma land_pow2_testbit x n : 0 <= n -> (Z.land x (2 ^ n) =? 0) = negb (Z.testbit x n).
Proof.
  intros Hn. destruct (Z.testbit x n) eqn:E; cbn [negb].
  - apply Z.eqb_neq. intros H0. assert (Z.testbit (Z.land x (2 ^ n)) n = false) as Hf by (rewrite H0; apply Z.testbit_0_l).
    rewrite Z.land_spec, E, Z.pow2_bits_true in Hf by done. done.
  - apply Z.eqb_eq. apply Z.bits_inj'. intros m Hm. rewrite Z.land_spec, Z.testbit_0_l, Z.pow2_bits_eqb by done.
    destruct (n =? m) eqn:Em; [apply Z.eqb_eq in Em as <-; by rewrite E|apply andb_false_r].
Qed.

Lemma is_v2_testbit raw : is_v2 raw = Z.testbit raw 31.
Proof. unfold is_v2. change WAL_V2_SENTINEL with (2 ^ 31). rewrite land_pow2_testbit by lia. apply negb_involutive. Qed.

Lemma is_v3_testbit raw : is_v3 raw = Z.testbit raw 31 && Z.testbit raw 30.
Proof.
  unfold is_v3. rewrite is_v2_testbit. change WAL_V3_FLAG with (2 ^ 30).
  rewrite land_pow2_testbit by lia. by rewrite negb_involutive.
Qed.

Lemma rec_len_mod raw : rec_len raw = Z.to_nat (raw mod 2 ^ (if is_v3 raw then 30 else 31)).
Proof.
  unfold rec_len. destruct (is_v3 raw); f_equal.
  - change (not_w 32 _) with (2 ^ 30 - 1). by apply land_low.
  - change (not_w 32 _) with (2 ^ 31 - 1). by apply land_low.
Qed.

(** A length below the sentinel bits, with them set. *)
Lemma lor_sentinel n len : 0 <= n -> in_w n len -> Z.lor len (2 ^ n) = len + 2 ^ n.
Proof.
  intros Hn Hl. rewrite Z.lor_comm, <- (Z.mul_1_l (2 ^ n)), <- (Z.shiftl_mul_pow2 1) by done.
  rewrite lor_shiftl_add, Z.shiftl_mul_pow2 by done. lia.
Qed.

Lemma v3_word len : in_w 30 len ->
  let raw := Z.lor len WAL_V3_SENTINEL in u32 raw /\ is_v2 raw = true /\ is_v3 raw = true /\ rec_len raw = Z.to_nat len.
Proof.
  intros Hl raw. assert (Hr : raw = len + 3 * 2 ^ 30).
  { unfold raw. replace WAL_V3_SENTINEL with (Z.shiftl 3 30) by done. rewrite Z.lor_comm, lor_shiftl_add by done. lia. }
  assert (Ht : forall k, 30 <= k -> Z.testbit raw k = Z.testbit 3 (k - 30)).
  { intros k Hk. rewrite Hr. replace (len + 3 * 2 ^ 30) with (3 * 2 ^ 30 + len) by lia.
    rewrite <- lor_shiftl_add, Z.lor_spec, Z.shiftl_spec, (in_w_high 30 len) by (done || lia). apply orb_false_r. }
  assert (is_v3 raw = true) as Hv by (rewrite is_v3_testbit, !Ht by lia; done).
  split; [destruct Hl; split; lia|]. split; [rewrite is_v2_testbit, Ht by lia; done|]. split; [done|].
  rewrite rec_len_mod, Hv, Hr, Z.mod_add by done. by rewrite Z.mod_small.
Qed.

Lemma v2_word len : in_w 31 len ->
  let raw := Z.lor len WAL_V2_SENTINEL in u32 raw /\ is_v2 raw = true /\ is_v3 raw = Z.testbit len 30 /\
  rec_len raw = Z.to_nat (len mod 2 ^ (if Z.testbit len 30 then 30 else 31)).
Proof.
  intros Hl raw. assert (Hr : raw = len + 2 ^ 31) by (unfold raw; apply (lor_sentinel 31); [lia|done]).
  assert (Ht : Z.testbit raw 31 = true /\ Z.testbit raw 30 = Z.testbit len 30).
  { unfold raw. rewrite !Z.lor_spec. split; [apply orb_true_r|apply orb_false_r]. }
  assert (is_v3 raw = Z.testbit len 30) as Hv by (rewrite is_v3_testbit, (proj1 Ht), (proj2 Ht); done).
  split; [destruct Hl; split; lia|]. split; [rewrite is_v2_testbit; apply Ht|]. split; [done|].
  rewrite rec_len_mod, Hv, Hr. f_equal. destruct (Z.testbit len 30).
  - change (2 ^ 31) with (2 * 2 ^ 30). by rewrite Z.mod_add.
  - replace (len + 2 ^ 31) with (len + 1 * 2 ^ 31) by lia. by rewrite Z.mod_add.
Qed.

Lemma testbit_30_small len : in_w 30 len -> Z.testbit len 30 = false.
Proof. intros H. by apply (in_w_high 30). Qed.

Lemma v1_word len : in_w 31 len -> is_v2 len = false /\ is_v3 len = false /\ rec_len len = Z.to_nat len.
Proof.
  intros Hl. assert (Z.testbit len 31 = false) as Ht by by apply (in_w_high 31).
  assert (is_v3 len = false) as Hv by by rewrite is_v3_testbit, Ht.
  split; [by rewrite is_v2_testbit|]. split; [done|]. by rewrite rec_len_mod, Hv, Z.mod_small.
Qed.

(** ** Frames *)

Inductive frame : Type :=
| F1 (payload : list Z)
| F2 (payload : list Z)
| F3 (tag : Z) (payload : list Z).

Definition f_payload (f : frame) : list Z := match f with F1 p | F2 p | F3 _ p => p end.
Definition f_tag (f : frame) : option Z := match f with F3 t _ => Some t | _ => None end.

Definition f_crc (f : frame) : option Z :=
  match f with F1 _ => None | F2 p => Some (crc32 p) | F3 t p => Some (crc32 ([t] ++ p)) end.

Definition f_header_len (f : frame) : nat := match f with F1 _ => 4 | F2 _ => 8 | F3 _ _ => 9 end.

(** The bytes of a frame whose CRC field holds [crc]. *)
Definition frame_with (crc : Z) (f : frame) : list Z :=
  let len := Z.of_nat (length (f_payload f)) in
  match f with
  | F1 p => le_bytes 4 len ++ p
  | F2 p => le_bytes 4 (Z.lor len WAL_V2_SENTINEL) ++ le_bytes 4 crc ++ p
  | F3 t p => le_bytes 4 (Z.lor len WAL_V3_SENTINEL) ++ le_bytes 4 crc ++ [t] ++ p
  end.

Definition frame_bytes (f : frame) : list Z := frame_with (default 0 (f_crc f)) f.

Definition frame_fits (f : frame) : Prop :=
  is_bytes (f_payload f) /\ in_w (match f with F1 _ => 31 | _ => 30 end) (Z.of_nat (length (f_payload f))) /\
  match f_tag f with Some t => u8 t | None => True end.

Definition frame_header (crc : Z) (off : nat) (f : frame) : header :=
  mk_header (off + f_header_len f) (length (f_payload f)) (match f with F1 _ => None | _ => Some crc end) (f_tag f).

Lemma length_frame_with crc f : length (frame_with crc f) = (f_header_len f + length (f_payload f))%nat.
Proof. destruct f; cbn [frame_with f_header_len f_payload]; rewrite !length_app, !length_le_bytes; simpl length; lia. Qed.

Lemma length_frame f : length (frame_bytes f) = (f_header_len f + length (f_payload f))%nat.
Proof. apply length_frame_with. Qed.

Lemma frame_crc_u32 f : frame_fits f -> u32 (default 0 (f_crc f)).
Proof.
  intros (Hp & _ & Ht). destruct f; cbn in *; [by split|by apply crc32_u32|apply crc32_u32; by constructor].
Qed.

Lemma length_ltb_false {A} (bs : list A) a b : (a + b <= length bs)%nat -> (length bs - a <? b)%nat = false.
Proof. intros H. apply Nat.ltb_ge. lia. Qed.

(** A frame in place is read as written, whatever its CRC field holds. *)
Lemma read_header_frame crc f pre rest : frame_fits f -> u32 crc ->
  read_header (pre ++ frame_with crc f ++ rest) (length pre) = Some (Some (frame_header crc (length pre) f)).
Proof.
  intros (Hp & Hl & Ht) Hc. set (bytes := pre ++ frame_with crc f ++ rest).
  assert (Hlen : (length pre + f_header_len f <= length bytes)%nat)
    by (unfold bytes; rewrite !length_app, length_frame_with; lia).
  unfold read_header. destruct f as [p|p|t p]; cbn [f_header_len f_payload] in *.
  - destruct (v1_word _ Hl) as (Hv2 & _ & Hr). rewrite length_ltb_false by lia.
    rewrite (index_le_field 4 (length pre) (Z.of_nat (length p)) pre (p ++ rest)); [|unfold bytes; cbn [frame_with f_payload]; by rewrite <- !app_assoc|done|by apply (in_w_mono 31)].
    cbn [mbind option_bind]. by rewrite Hv2, Hr, Nat2Z.id.
  - destruct (v2_word _ (in_w_mono 30 31 _ Hl ltac:(lia))) as (Hu & Hv2 & Hv3 & Hr).
    rewrite (testbit_30_small _ Hl) in Hv3, Hr. rewrite Z.mod_small in Hr by by apply (in_w_mono 30 31). rewrite !length_ltb_false by lia.
    rewrite (index_le_field 4 (length pre) (Z.lor (Z.of_nat (length p)) WAL_V2_SENTINEL) pre (le_bytes 4 crc ++ p ++ rest)); [|unfold bytes; cbn [frame_with f_payload]; by rewrite <- !app_assoc|done|done].
    cbn [mbind option_bind]. rewrite Hv2, Hr, Nat2Z.id.
    rewrite (index_le_field 4 (length pre + 4) crc (pre ++ le_bytes 4 (Z.lor (Z.of_nat (length p)) WAL_V2_SENTINEL)) (p ++ rest));
      [|unfold bytes; cbn [frame_with f_payload]; by rewrite <- !app_assoc|by rewrite length_app, length_le_bytes|done].
    cbn [mbind option_bind]. rewrite Hv3. unfold frame_header, f_header_len, f_payload. do 3 f_equal. lia.
  - destruct (v3_word _ Hl) as (Hu & Hv2 & Hv3 & Hr). rewrite !length_ltb_false by lia.
    rewrite (index_le_field 4 (length pre) (Z.lor (Z.of_nat (length p)) WAL_V3_SENTINEL) pre (le_bytes 4 crc ++ [t] ++ p ++ rest)); [|unfold bytes; cbn [frame_with f_payload]; by rewrite <- !app_assoc|done|done].
    cbn [mbind option_bind]. rewrite Hv2, Hr, Nat2Z.id.
    rewrite (index_le_field 4 (length pre + 4) crc (pre ++ le_bytes 4 (Z.lor (Z.of_nat (length p)) WAL_V3_SENTINEL)) ([t] ++ p ++ rest));
      [|unfold bytes; cbn [frame_with f_payload]; by rewrite <- !app_assoc|by rewrite length_app, length_le_bytes|done].
    cbn [mbind option_bind]. rewrite Hv3.
    assert (bytes !! (length pre + 4 + 4)%nat = Some t) as ->.
    { unfold bytes. cbn [frame_with f_payload]. rewrite <- !app_assoc. rewrite lookup_app_r by lia.
      rewrite lookup_app_r by (rewrite length_le_bytes; lia). rewrite lookup_app_r by (rewrite !length_le_bytes; lia).
      rewrite !length_le_bytes. by replace (length pre + 4 + 4 - length pre - 4 - 4)%nat with 0%nat by lia. }
    cbn [mbind option_bind]. unfold frame_header, f_header_len, f_payload. do 3 f_equal. lia.
Qed.

(** The payload of a frame in place. *)
Lemma frame_payload crc f pre rest :
  subslice (length pre + f_header_len f) (length pre + f_header_len f + length (f_payload f)) (pre ++ frame_with crc f ++ rest) = Some (f_payload f).
Proof.
  apply (subslice_field _ _ _ (pre ++ take (f_header_len f) (frame_with crc f)) rest).
  - rewrite <- !app_assoc. f_equal. rewrite !app_assoc. f_equal. rewrite <- (take_drop (f_header_len f) (frame_with crc f)) at 1. f_equal.
    destruct f; cbn [frame_with f_header_len f_payload]; rewrite ?app_assoc; apply drop_app_length'; rewrite ?length_app, ?length_le_bytes; done.
  - rewrite length_app, length_take, length_frame_with. lia.
  - lia.
Qed.

(** The same for a frame as it is written. *)
Definition own_header (off : nat) (f : frame) : header := frame_header (default 0 (f_crc f)) off f.

Lemma read_header_own f pre rest : frame_fits f ->
  read_header (pre ++ frame_bytes f ++ rest) (length pre) = Some (Some (own_header (length pre) f)).
Proof. intros Hf. apply read_header_frame; [done|by apply frame_crc_u32]. Qed.

Lemma own_payload f pre rest :
  subslice (length pre + f_header_len f) (length pre + f_header_len f + length (f_payload f)) (pre ++ frame_bytes f ++ rest) = Some (f_payload f).
Proof. apply frame_payload. Qed.

Lemma own_end f pre : (length pre + f_header_len f + length (f_payload f))%nat = length (pre ++ frame_bytes f).
Proof. rewrite length_app, length_frame. lia. Qed.

Lemma own_crc f off : crc_differs (own_header off f) (f_payload f) = false.
Proof. unfold crc_differs. destruct f; cbn [own_header frame_header h_crc h_tag f_tag f_crc default f_payload]; rewrite ?Z.eqb_refl; done. Qed.

(** ** Headers of cut and of longer files *)

Lemma index_le_app n off p q : (off + n <= length p)%nat -> index_le n off (p ++ q) = index_le n off p.
Proof.
  intros H. rewrite !index_le_in by (rewrite ?length_app; lia). unfold slice.
  rewrite drop_app_le by lia. by rewrite take_app_le by (rewrite length_drop; lia).
Qed.

Lemma subslice_app {A} a b (p q : list A) : (a <= b)%nat -> (b <= length p)%nat -> subslice a b (p ++ q) = subslice a b p.
Proof.
  intros Hab Hb. rewrite !subslice_in by (rewrite ?length_app; lia). unfold slice.
  rewrite drop_app_le by lia. by rewrite take_app_le by (rewrite length_drop; lia).
Qed.

(** A header read is a header in range, past its frame's start. *)
Lemma read_header_range bytes cur h : read_header bytes cur = Some (Some h) -> (cur + 4 <= h_cur h <= length bytes)%nat.
Proof.
  unfold read_header. destruct (length bytes - cur <? 4)%nat eqn:E1; [done|]. prop_bools.
  destruct (index_le 4 cur bytes) as [raw|]; cbn [mbind option_bind]; [|done].
  destruct (is_v2 raw); [|intros [= <-]; cbn; lia].
  destruct (length bytes - (cur + 4) <? 4)%nat eqn:E2; [done|]. prop_bools.
  destruct (index_le 4 (cur + 4) bytes) as [c|]; cbn [mbind option_bind]; [|done].
  destruct (is_v3 raw); [|intros [= <-]; cbn; lia].
  destruct (length bytes - (cur + 4 + 4) <? 1)%nat eqn:E3; [done|]. prop_bools.
  destruct (bytes !! _) as [t|]; cbn [mbind option_bind]; [|done]. intros [= <-]. cbn. lia.
Qed.

(** Reading never panics inside the file. *)
Lemma read_header_total bytes cur : exists r, read_header bytes cur = Some r.
Proof.
  unfold read_header. destruct (length bytes - cur <? 4)%nat eqn:E1; [eauto|]. prop_bools.
  rewrite (index_le_in 4 cur) by lia. cbn [mbind option_bind]. destruct (is_v2 _); [|eauto].
  destruct (length bytes - (cur + 4) <? 4)%nat eqn:E2; [eauto|]. prop_bools.
  rewrite (index_le_in 4 (cur + 4)) by lia. cbn [mbind option_bind]. destruct (is_v3 _); [|eauto].
  destruct (length bytes - (cur + 4 + 4) <? 1)%nat eqn:E3; [eauto|]. prop_bools.
  destruct (lookup_lt_is_Some_2 bytes (cur + 4 + 4)) as (t & ->); [lia|]. cbn [mbind option_bind]. eauto.
Qed.

(** A file cut after a header's bytes or before: the same header or none. *)
Lemma read_header_prefix p q cur : read_header p cur = Some None \/ read_header (p ++ q) cur = read_header p cur.
Proof.
  unfold read_header. rewrite length_app. destruct (length p - cur <? 4)%nat eqn:E1; [by left|]. prop_bools.
  rewrite (proj2 (Nat.ltb_ge (length p + length q - cur) 4)), (index_le_app 4 cur) by lia.
  destruct (index_le 4 cur p) as [raw|]; cbn [mbind option_bind]; [|by right].
  destruct (is_v2 raw); [|by right].
  destruct (length p - (cur + 4) <? 4)%nat eqn:E2; [by left|]. prop_bools.
  rewrite (proj2 (Nat.ltb_ge (length p + length q - (cur + 4)) 4)), (index_le_app 4 (cur + 4)) by lia.
  destruct (index_le 4 (cur + 4) p) as [c|]; cbn [mbind option_bind]; [|by right].
  destruct (is_v3 raw); [|by right].
  destruct (length p - (cur + 4 + 4) <? 1)%nat eqn:E3; [by left|]. prop_bools.
  rewrite (proj2 (Nat.ltb_ge (length p + length q - (cur + 4 + 4)) 1)), lookup_app_l by lia. by right.
Qed.

Lemma read_header_longer p q cur h : read_header p cur = Some (Some h) -> read_header (p ++ q) cur = Some (Some h).
Proof. intros E. destruct (read_header_prefix p q cur) as [F|F]; congruence. Qed.

(** A frame cut short is no frame. *)
Lemma read_header_torn crc f pre n : frame_fits f -> u32 crc -> (n < length (frame_with crc f))%nat ->
  let bytes := pre ++ take n (frame_with crc f) in
  read_header bytes (length pre) = Some None \/
  exists h, read_header bytes (length pre) = Some (Some h) /\ (length bytes < h_cur h + h_len h)%nat.
Proof.
  intros Hf Hc Hn bytes. pose proof (read_header_frame crc f pre [] Hf Hc) as Hr.
  rewrite app_nil_r in Hr. destruct (read_header_prefix bytes (drop n (frame_with crc f)) (length pre)) as [E|E]; [by left|right].
  unfold bytes in E at 1. rewrite <- app_assoc, take_drop, Hr in E. eexists. split; [symmetry; exact E|].
  unfold bytes. rewrite length_app, length_take. cbn [frame_header h_cur h_len]. rewrite length_frame_with in Hn. lia.
Qed.

(** ** [records_follow] *)

Lemma records_follow_loop_total fuel bytes cur seen : (length bytes - cur <= fuel)%nat ->
  exists b, records_follow_loop fuel bytes cur seen = Some b.
Proof.
  revert cur seen. induction fuel as [|fuel IH]; intros cur seen Hf; cbn [records_follow_loop];
    (destruct (cur <? length bytes)%nat eqn:E; [|eauto]); prop_bools; [lia|].
  destruct (read_header_total bytes cur) as (r & Hr). rewrite Hr. cbn [mbind option_bind]. destruct r as [h|]; [|eauto].
  apply read_header_range in Hr. destruct (length bytes <? h_cur h + h_len h)%nat eqn:E2; [eauto|]. prop_bools.
  rewrite subslice_in by lia. cbn [mbind option_bind]. destruct (crc_differs _ _); [eauto|]. apply IH. lia.
Qed.

Lemma records_follow_total bytes at_ : exists b, records_follow bytes at_ = Some b.
Proof. apply records_follow_loop_total. lia. Qed.

(** Whole frames follow. *)
Lemma records_follow_loop_frames fs fuel pre seen : Forall frame_fits fs -> (length (concat (map frame_bytes fs)) <= fuel)%nat ->
  (fs <> [] \/ 0 < seen)%nat ->
  records_follow_loop fuel (pre ++ concat (map frame_bytes fs)) (length pre) seen = Some true.
Proof.
  intros Hfs. revert fuel pre seen. induction Hfs as [|f fs Hf _ IH]; intros fuel pre seen Hfuel Hne; cbn [map concat].
  - rewrite app_nil_r. destruct fuel; cbn [records_follow_loop]; rewrite Nat.ltb_irrefl; f_equal; apply Nat.ltb_lt; destruct Hne; done.
  - cbn [map concat] in Hfuel. rewrite length_app, length_frame in Hfuel.
    destruct fuel as [|fuel]; [destruct f; cbn in Hfuel; lia|]. cbn [records_follow_loop].
    rewrite (proj2 (Nat.ltb_lt _ _)) by (rewrite !length_app, length_frame; destruct f; cbn; lia).
    rewrite read_header_own by done. cbn [mbind option_bind own_header frame_header h_cur h_len].
    rewrite (proj2 (Nat.ltb_ge _ _)) by (rewrite !length_app, length_frame; lia).
    rewrite own_payload. cbn [mbind option_bind]. change (crc_differs _ (f_payload f)) with (crc_differs (own_header (length pre) f) (f_payload f)).
    rewrite own_crc, own_end, app_assoc.
    apply IH; [destruct f; cbn in *; lia|right; lia].
Qed.

Lemma records_follow_frames fs pre : Forall frame_fits fs -> fs <> [] ->
  records_follow (pre ++ concat (map frame_bytes fs)) (length pre) = Some true.
Proof. intros Hf Hne. apply records_follow_loop_frames; [done|rewrite length_app; lia|by left]. Qed.

(** A header depends only on the bytes before its payload. *)
Lemma read_header_local p q cur h : read_header (p ++ q) cur = Some (Some h) -> (h_cur h <= length p)%nat ->
  read_header p cur = Some (Some h).
Proof.
  intros E Hh. pose proof E as E'. unfold read_header in E. rewrite length_app in E. unfold read_header.
  apply read_header_range in E'.
  rewrite (proj2 (Nat.ltb_ge (length p - cur) 4)) by lia.
  rewrite (proj2 (Nat.ltb_ge (length p + length q - cur) 4)), (index_le_app 4 cur) in E by lia.
  destruct (index_le 4 cur p) as [raw|]; cbn [mbind option_bind] in E |- *; [|done].
  destruct (is_v2 raw); [|done].
  destruct (length p + length q - (cur + 4) <? 4)%nat eqn:E2; [done|]. prop_bools.
  assert (cur + 4 + 4 <= h_cur h)%nat as H8.
  { destruct (index_le 4 (cur + 4) (p ++ q)) as [c|]; cbn [mbind option_bind] in E; [|done].
    destruct (is_v3 raw); [|injection E as <-; cbn; lia].
    destruct (length p + length q - (cur + 4 + 4) <? 1)%nat; [done|].
    destruct ((p ++ q) !! _); cbn [mbind option_bind] in E; [|done]. injection E as <-. cbn. lia. }
  rewrite (proj2 (Nat.ltb_ge (length p - (cur + 4)) 4)) by lia. rewrite (index_le_app 4 (cur + 4)) in E by lia.
  destruct (index_le 4 (cur + 4) p) as [c|]; cbn [mbind option_bind] in E |- *; [|done].
  destruct (is_v3 raw); [|done].
  destruct (length p + length q - (cur + 4 + 4) <? 1)%nat eqn:E3; [done|]. prop_bools.
  assert (cur + 4 + 4 + 1 <= h_cur h)%nat as H9.
  { destruct ((p ++ q) !! _); cbn [mbind option_bind] in E; [|done]. injection E as <-. cbn. lia. }
  rewrite (proj2 (Nat.ltb_ge (length p - (cur + 4 + 4)) 1)) by lia. by rewrite lookup_app_l in E by lia.
Qed.

(** ** Replay's loop *)

Section Loop.
Context {Eng : Type} {RE : ReplayEngine Eng}.
Implicit Types (e : Eng) (v : option volatiles).

(** Any payload of any type is dispatched without a panic. *)
Lemma dispatch_total tag payload off e v : exists d, dispatch_v3_record tag payload off e v = Some d.
Proof.
  unfold dispatch_v3_record.
  assert (Hd : forall rest, exists r, decompress rest = Some r) by (intros rest; destruct (decompress_answers rest) as (r & Hr & _); eauto).
  repeat case_match; eauto; cbn [mbind option_bind]; try (destruct (Hd l) as (r & ->)); cbn [mbind option_bind]; case_match; eauto.
Qed.

Lemma play_record_total tag payload off e v : exists d, play_record tag payload off e v = Some d.
Proof. unfold play_record. destruct tag; [apply dispatch_total|]. case_match; eauto. Qed.

Definition replay_from (bytes : list Z) (cur applied : nat) v e : option (Eng * result WalReplay wal_error) :=
  replay_loop (length bytes) bytes cur applied v e.

Lemma replay_loop_fuel fuel fuel' bytes cur a v e :
  (length bytes - cur <= fuel)%nat -> (length bytes - cur <= fuel')%nat ->
  replay_loop fuel bytes cur a v e = replay_loop fuel' bytes cur a v e.
Proof.
  revert fuel' cur a v e. induction fuel as [|fuel IH]; intros fuel' cur a v e H1 H2.
  - destruct fuel'; [done|]. cbn [replay_loop]. by rewrite (proj2 (Nat.ltb_ge cur (length bytes))) by lia.
  - destruct fuel' as [|fuel']; cbn [replay_loop]; (destruct (cur <? length bytes)%nat eqn:E; [|done]); prop_bools; [lia|].
    destruct (read_header bytes cur) as [[h|]|] eqn:Er; cbn [mbind option_bind]; [|done..].
    apply read_header_range in Er. destruct (length bytes <? h_cur h + h_len h)%nat; [done|].
    destruct (subslice _ _ bytes) as [payload|]; cbn [mbind option_bind]; [|done]. destruct (crc_differs h payload); [done|].
    destruct (play_record _ _ _ _ _) as [[[e' v'] [c|er]]|]; cbn [mbind option_bind]; [|done..]. apply IH; lia.
Qed.

(** One turn of the loop, whatever the fuel. *)
Lemma replay_from_unfold bytes cur a v e : (cur < length bytes)%nat ->
  replay_from bytes cur a v e =
  let break := Some (e, Ok (mk_replay a cur)) in
  let! r := read_header bytes cur in
  match r with
  | None => break
  | Some h =>
    if (length bytes <? h_cur h + h_len h)%nat then break
    else
      let! payload := subslice (h_cur h) (h_cur h + h_len h) bytes in
      if crc_differs h payload then
        let! follow := records_follow bytes (h_cur h + h_len h) in
        if follow : bool then Some (e, Err (CrcMismatch cur)) else break
      else
        let! d := play_record (h_tag h) payload cur e v in
        match d with
        | (e, _, Err er) => Some (e, Err er)
        | (e, v, Ok counts) => replay_from bytes (h_cur h + h_len h) (if counts : bool then a + 1 else a)%nat v e
        end
  end.
Proof.
  intros H. unfold replay_from at 1. rewrite (replay_loop_fuel _ (S (length bytes)) bytes cur) by lia.
  cbn [replay_loop]. rewrite (proj2 (Nat.ltb_lt cur (length bytes))) by done.
  destruct (read_header bytes cur) as [[h|]|] eqn:Er; cbn [mbind option_bind]; [|done..].
  apply read_header_range in Er. destruct (length bytes <? h_cur h + h_len h)%nat; [done|].
  destruct (subslice _ _ bytes) as [payload|]; cbn [mbind option_bind]; [|done]. destruct (crc_differs h payload); [done|].
  destruct (play_record _ _ _ _ _) as [[[e' v'] [c|er]]|]; cbn [mbind option_bind]; [|done..]. unfold replay_from. apply replay_loop_fuel; lia.
Qed.

Lemma replay_from_end bytes a v e : replay_from bytes (length bytes) a v e = Some (e, Ok (mk_replay a (length bytes))).
Proof.
  assert (Hf : forall fuel, replay_loop fuel bytes (length bytes) a v e = Some (e, Ok (mk_replay a (length bytes)))).
  { intros [|fuel]; cbn [replay_loop]; by rewrite Nat.ltb_irrefl. }
  apply Hf.
Qed.

(** A whole frame is played and passed. *)
Lemma replay_from_frame pre f rest a v e : frame_fits f ->
  replay_from (pre ++ frame_bytes f ++ rest) (length pre) a v e =
  let! d := play_record (f_tag f) (f_payload f) (length pre) e v in
  match d with
  | (e, _, Err er) => Some (e, Err er)
  | (e, v, Ok counts) => replay_from ((pre ++ frame_bytes f) ++ rest) (length (pre ++ frame_bytes f)) (if counts : bool then a + 1 else a)%nat v e
  end.
Proof.
  intros Hf. rewrite replay_from_unfold by (rewrite !length_app, length_frame; destruct f; cbn; lia).
  rewrite read_header_own by done. cbn [mbind option_bind]. cbv zeta.
  change (h_cur (own_header (length pre) f)) with (length pre + f_header_len f)%nat.
  change (h_len (own_header (length pre) f)) with (length (f_payload f)). change (h_tag (own_header (length pre) f)) with (f_tag f).
  rewrite (proj2 (Nat.ltb_ge _ _)) by (rewrite !length_app, length_frame; lia).
  rewrite own_payload. cbn [mbind option_bind]. by rewrite own_crc, own_end, app_assoc.
Qed.

(** A cut frame ends the replay where it starts. *)
Lemma replay_from_torn pre crc f n a v e : frame_fits f -> u32 crc -> (n < length (frame_with crc f))%nat ->
  replay_from (pre ++ take n (frame_with crc f)) (length pre) a v e = Some (e, Ok (mk_replay a (length pre))).
Proof.
  intros Hf Hc Hn. destruct n as [|n].
  { rewrite take_0, app_nil_r. apply replay_from_end. }
  rewrite replay_from_unfold by (rewrite length_app, length_take; lia). cbv zeta.
  destruct (read_header_torn crc f pre (S n) Hf Hc Hn) as [->|(h & -> & Hh)]; cbn [mbind option_bind]; [done|].
  by rewrite (proj2 (Nat.ltb_lt _ _)).
Qed.

(** Replay answers on any bytes, and reports an end inside them. *)
Lemma replay_from_total bytes cur a v e : (cur <= length bytes)%nat ->
  exists e' r, replay_from bytes cur a v e = Some (e', r) /\
    match r with Ok w => (cur <= valid_bytes w <= length bytes)%nat | Err _ => True end.
Proof.
  remember (length bytes - cur)%nat as n eqn:Hn. revert cur Hn a v e.
  induction n as [n IH] using lt_wf_ind. intros cur Hn a v e Hc.
  destruct (decide (cur = length bytes)) as [->|Hne]; [rewrite replay_from_end; eexists _, _; split; [done|]; cbn; lia|].
  rewrite replay_from_unfold by lia. cbv zeta. destruct (read_header_total bytes cur) as (r & Er). rewrite Er. cbn [mbind option_bind].
  destruct r as [h|]; [|eexists _, _; split; [done|]; cbn; lia]. apply read_header_range in Er.
  destruct (length bytes <? h_cur h + h_len h)%nat eqn:El; prop_bools; [eexists _, _; split; [done|]; cbn; lia|].
  rewrite subslice_in by lia. cbn [mbind option_bind]. destruct (crc_differs _ _).
  - destruct (records_follow_total bytes (h_cur h + h_len h)) as (b & ->). cbn [mbind option_bind].
    destruct b; eexists _, _; (split; [done|]); cbn; lia || done.
  - destruct (play_record_total (h_tag h) (slice (h_cur h) (h_cur h + h_len h - h_cur h) bytes) cur e v) as ([[e' v'] [c|er]] & ->); cbn [mbind option_bind];
      [|eexists _, _; by split].
    destruct (IH (length bytes - (h_cur h + h_len h))%nat ltac:(lia) (h_cur h + h_len h)%nat eq_refl (if c then a + 1 else a)%nat v' e' ltac:(lia)) as (e2 & r2 & -> & Hr2).
    eexists _, _. split; [done|]. destruct r2; [lia|done].
Qed.

(** What replay accepted can be cut there, and continued: the bytes before
    the reported end replay alike whatever follows them. *)
Lemma replay_from_resume bytes cur a v e e' w : (cur <= length bytes)%nat -> replay_from bytes cur a v e = Some (e', Ok w) ->
  (cur <= valid_bytes w <= length bytes)%nat /\
  exists v', forall q, let bytes' := take (valid_bytes w) bytes ++ q in
    replay_from bytes' cur a v e = replay_from bytes' (valid_bytes w) (applied w) v' e'.
Proof.
  remember (length bytes - cur)%nat as n eqn:Hn. revert cur Hn a v e.
  induction n as [n IH] using lt_wf_ind. intros cur Hn a v e Hc E.
  assert (Hstop : forall (x : Eng) t, x = e' -> t = w -> t = mk_replay a cur -> x = e ->
    (cur <= valid_bytes w <= length bytes)%nat /\ exists v', forall q, let bytes' := take (valid_bytes w) bytes ++ q in
    replay_from bytes' cur a v e = replay_from bytes' (valid_bytes w) (applied w) v' e').
  { intros x t Hx <- -> Hxe. subst x e'. cbn. split; [lia|]. exists v. done. }
  destruct (decide (cur = length bytes)) as [->|Hne].
  { rewrite replay_from_end in E. injection E as E1 E2. by eapply Hstop. }
  rewrite replay_from_unfold in E by lia. cbv zeta in E. destruct (read_header bytes cur) as [[h|]|] eqn:Er; cbn [mbind option_bind] in E; [|injection E as E1 E2; by eapply Hstop|done].
  pose proof (read_header_range _ _ _ Er) as Hr.
  destruct (length bytes <? h_cur h + h_len h)%nat eqn:El; prop_bools; [injection E as E1 E2; by eapply Hstop|].
  destruct (subslice _ _ bytes) as [payload|] eqn:Es; cbn [mbind option_bind] in E; [|done]. destruct (crc_differs h payload) eqn:Ec.
  { destruct (records_follow _ _) as [[]|]; cbn [mbind option_bind] in E; [done|injection E as E1 E2; by eapply Hstop|done]. }
  destruct (play_record _ _ _ _ _) as [[[e2 v2] [c|er]]|] eqn:Ep; cbn [mbind option_bind] in E; [|done..].
  destruct (IH (length bytes - (h_cur h + h_len h))%nat ltac:(lia) _ eq_refl _ _ _ ltac:(lia) E) as (Hv & v' & Hq).
  split; [lia|]. exists v'. intros q. cbv zeta. rewrite <- (Hq q).
  assert (Hlp : length (take (valid_bytes w) bytes) = valid_bytes w) by (rewrite length_take; lia).
  rewrite replay_from_unfold by (rewrite length_app; lia). cbv zeta.
  rewrite (read_header_longer (take (valid_bytes w) bytes) q cur h).
  2:{ apply (read_header_local _ (drop (valid_bytes w) bytes)); [by rewrite take_drop|lia]. }
  cbn [mbind option_bind]. rewrite (proj2 (Nat.ltb_ge _ _)) by (rewrite length_app; lia).
  rewrite subslice_app by lia. rewrite <- (take_drop (valid_bytes w) bytes), subslice_app in Es by lia. rewrite Es. cbn [mbind option_bind].
  by rewrite Ec, Ep.
Qed.
End Loop.
