(* ===== verification/WalLog.v ===== *)
(** What a log means: the entries a primary writes, the frames they become,
    what each does to the engine, and replay as the run of the entries. *)
From S2P Require Import Prelude Bytes Crc Lzss Wal WalReplay.
Open Scope Z_scope.

(** ** Entries *)

(** The instant and random state of the next statement; a statement of the
    group commit in its dialect; one a connection writes itself; a marker. *)
Inductive entry : Type :=
| Readings (v : volatiles)
| Statement (mysql : bool) (sql : list Z)
| Direct (sql : list Z)
| Marker (byte_offset : Z).

Definition readings_ok (v : volatiles) : Prop := - 2 ^ 63 <= v.1 < 2 ^ 63 /\ u64 v.2.

(** Statements are Rust strings that fit a frame. *)
Definition entry_ok (en : entry) : Prop :=
  match en with
  | Readings v => readings_ok v
  | Statement _ sql => is_str sql /\ Z.of_nat (length sql) < 2 ^ 30 - 1
  | Direct sql => is_str sql /\ Z.of_nat (length sql) < 2 ^ 30
  | Marker off => u64 off
  end.

Definition is_statement (en : entry) : bool :=
  match en with Statement _ _ | Direct _ => true | _ => false end.

Section Meaning.
Context {Eng : Type} {RE : ReplayEngine Eng}.

Definition run_entry (s : Eng * option volatiles) (en : entry) : Eng * option volatiles :=
  let '(e, v) := s in
  match en with
  | Readings r => (e, Some r)
  | Statement false sql => (replay_execute_quarantining e sql v, None)
  | Statement true sql =>
    (set_mysql_dialect (replay_execute_quarantining (set_mysql_dialect e true) sql v) (in_mysql_dialect e), None)
  | Direct sql => (replay_execute_quarantining e sql None, v)
  | Marker _ => s
  end.

Definition run_log (es : list entry) (s : Eng * option volatiles) : Eng * option volatiles := fold_left run_entry es s.
End Meaning.

Definition statements (es : list entry) : nat := length (filter (fun en => is_statement en = true) es).

Lemma run_log_app {Eng} {RE : ReplayEngine Eng} es1 es2 s : run_log (es1 ++ es2) s = run_log es2 (run_log es1 s).
Proof. apply fold_left_app. Qed.

Lemma statements_app es1 es2 : statements (es1 ++ es2) = (statements es1 + statements es2)%nat.
Proof. unfold statements. by rewrite filter_app, length_app. Qed.

Lemma statements_cons en es : statements (en :: es) = ((if is_statement en then 1 else 0) + statements es)%nat.
Proof. unfold statements. rewrite filter_cons. destruct (is_statement en); by case_decide. Qed.

(** ** Encoding *)

Section Encoding.
Context (enabled : bool) (threshold : nat).

Definition encode_entry (en : entry) : outcome (list Z) wal_error :=
  match en with
  | Readings v => let! b := encode_wal_volatile_inputs (Some v) in Some (Ok b)
  | Statement true sql => encode_wal_auto_commit_sql_mysql enabled threshold sql
  | Statement false sql => encode_wal_auto_commit_sql enabled threshold sql
  | Direct sql => Some (encode_wal_record sql)
  | Marker off => Some (encode_durability_marker off)
  end.

(** [f] is the frame of [en]. *)
Definition frame_of (en : entry) (f : frame) : Prop :=
  frame_fits f /\ is_Some (f_crc f) /\ encode_entry en = Some (Ok (frame_bytes f)) /\
  forall (Eng : Type) (RE : ReplayEngine Eng) (off : nat) (e : Eng) v,
    play_record (f_tag f) (f_payload f) off e v = Some (run_entry (e, v) en, Ok (is_statement en)).

Lemma land_high_zero len n : 0 <= n -> in_w n len -> forall m, (exists k, m = Z.shiftl k n /\ 0 <= k) -> Z.land len m = 0.
Proof.
  intros Hn Hl m (k & -> & Hk). apply Z.bits_inj'. intros i Hi. rewrite Z.land_spec, Z.testbit_0_l, Z.shiftl_spec by done.
  destruct (decide (i < n)); [by rewrite (Z.testbit_neg_r k) by lia; rewrite andb_false_r|by rewrite (in_w_high n len) by (done || lia)].
Qed.

Lemma encode_v3 tag payload : in_w 30 (Z.of_nat (length payload)) ->
  encode_wal_v3_record tag payload = Ok (frame_bytes (F3 tag payload)).
Proof.
  intros [H0 H1]. unfold encode_wal_v3_record. rewrite (proj2 (Z.ltb_lt _ _)) by lia. cbn [rbind].
  rewrite (land_high_zero _ 30); [done|lia|done|]. exists 3. done.
Qed.

Lemma encode_v2 sql : in_w 30 (Z.of_nat (length sql)) -> encode_wal_record sql = Ok (frame_bytes (F2 sql)).
Proof.
  intros [H0 H1]. unfold encode_wal_record. rewrite (proj2 (Z.ltb_lt _ _)) by lia. cbn [rbind].
  rewrite (land_high_zero _ 31); [done|lia|split; lia|]. exists 1. done.
Qed.

Lemma from_utf8_ok {E} s (er : E) : is_str s -> from_utf8 s er = Ok s.
Proof. apply from_utf8_str. Qed.

Lemma in_30 n : Z.of_nat n < 2 ^ 30 -> in_w 30 (Z.of_nat n).
Proof. split; lia. Qed.

(** A frame whose payload is no statement text. *)
Lemma frame_intro en tag payload :
  is_bytes payload -> Z.of_nat (length payload) < 2 ^ 30 -> u8 tag ->
  encode_entry en = Some (encode_wal_v3_record tag payload) ->
  (forall (Eng : Type) (RE : ReplayEngine Eng) (off : nat) (e : Eng) v,
    dispatch_v3_record tag payload off e v = Some (run_entry (e, v) en, Ok (is_statement en))) ->
  exists f, frame_of en f.
Proof.
  intros Hb Hl Ht He Hp. exists (F3 tag payload). split; [split; [done|split; [by apply in_30|done]]|].
  split; [by eexists|]. split; [|done]. rewrite He. by rewrite encode_v3 by by apply in_30.
Qed.

Lemma volatiles_of_readings v : readings_ok v ->
  volatiles_of (le_bytes 8 (wrap 64 v.1) ++ le_bytes 8 v.2) = v.
Proof.
  intros (H1 & H2). unfold volatiles_of. rewrite take_app_length', drop_app_length' by (by rewrite length_le_bytes).
  rewrite !le_val_le_bytes_id; [|exact H2|by apply wrap_range]. rewrite (signed_wrap 64) by (lia || exact H1). by destruct v.
Qed.

Lemma frame_of_readings v : readings_ok v -> exists f, frame_of (Readings v) f.
Proof.
  intros Hv. eapply (frame_intro _ WAL_V3_TYPE_VOLATILE_INPUTS (le_bytes 8 (wrap 64 v.1) ++ le_bytes 8 v.2)).
  - apply is_bytes_app. split; apply le_bytes_bytes.
  - rewrite length_app, !length_le_bytes. done.
  - done.
  - destruct v as [m r]. cbn [encode_entry encode_wal_volatile_inputs fst snd]. rewrite encode_v3; [done|]. rewrite length_app, !length_le_bytes. done.
  - intros. unfold dispatch_v3_record. rewrite Z.eqb_refl, length_app, !length_le_bytes. cbn [Nat.add Nat.eqb].
    by rewrite volatiles_of_readings.
Qed.

Lemma frame_of_marker off : u64 off -> exists f, frame_of (Marker off) f.
Proof.
  intros Ho. eapply (frame_intro _ WAL_V3_TYPE_DURABILITY_CHECKPOINT (le_bytes 8 off)); [apply le_bytes_bytes|by rewrite length_le_bytes|done|done|].
  intros. unfold dispatch_v3_record. rewrite length_le_bytes. done.
Qed.

Lemma frame_of_direct sql : is_str sql -> Z.of_nat (length sql) < 2 ^ 30 -> exists f, frame_of (Direct sql) f.
Proof.
  intros Hs Hl. exists (F2 sql). split; [split; [apply Hs|split; [by apply in_30|done]]|].
  split; [by eexists|]. split; [cbn [encode_entry]; by rewrite encode_v2 by by apply in_30|].
  intros. cbn [f_tag f_payload play_record]. by rewrite from_utf8_str.
Qed.

(** What compression may answer for a statement: nothing smaller, or bytes
    that decompress to it. *)
Lemma compress_sql sql : is_str sql -> Z.of_nat (length sql) < 2 ^ 30 ->
  exists c, compress sql = Some c /\ is_bytes c /\ decompress c = Some (Ok sql).
Proof. intros Hs Hl. apply compress_roundtrip; [apply Hs|lia]. Qed.

Lemma frame_of_sql sql : is_str sql -> Z.of_nat (length sql) < 2 ^ 30 - 1 -> exists f, frame_of (Statement false sql) f.
Proof.
  intros Hs Hl. destruct (compress_sql sql Hs ltac:(lia)) as (c & Hc & Hb & Hd).
  assert (Hplain : encode_entry (Statement false sql) = Some (encode_wal_v3_record WAL_V3_TYPE_AUTO_COMMIT_SQL sql) ->
    exists f, frame_of (Statement false sql) f).
  { intros He. eapply (frame_intro _ WAL_V3_TYPE_AUTO_COMMIT_SQL sql); [apply Hs|lia|done|done|].
    intros. unfold dispatch_v3_record. cbn. by rewrite from_utf8_str. }
  cbn [encode_entry] in *. unfold encode_wal_auto_commit_sql in *.
  destruct (negb enabled || (length sql <? threshold)%nat) eqn:E1; [by apply Hplain|].
  rewrite Hc in *. cbn [mbind option_bind] in *. destruct (length sql <=? length c + 1)%nat eqn:E2; [by apply Hplain|]. apply Nat.leb_gt in E2.
  eapply (frame_intro _ WAL_V3_TYPE_COMPRESSED_SQL ([WAL_COMPRESS_ALGO_LZSS] ++ c)); [by constructor|rewrite length_app; cbn [length]; lia|done| |].
  - cbn [encode_entry]. unfold encode_wal_auto_commit_sql. rewrite E1, Hc. cbn [mbind option_bind]. by rewrite (proj2 (Nat.leb_gt _ _)) by lia.
  - intros. unfold dispatch_v3_record. cbn -[decompress]. rewrite Hd. cbn. by rewrite from_utf8_str.
Qed.

Lemma frame_of_mysql sql : is_str sql -> Z.of_nat (length sql) < 2 ^ 30 - 1 -> exists f, frame_of (Statement true sql) f.
Proof.
  intros Hs Hl. destruct (compress_sql sql Hs ltac:(lia)) as (c & Hc & Hb & Hd).
  assert (Hplain : encode_entry (Statement true sql) = Some (encode_wal_v3_record WAL_V3_TYPE_MYSQL_SQL ([WAL_COMPRESS_ALGO_NONE] ++ sql)) ->
    exists f, frame_of (Statement true sql) f).
  { intros He. eapply (frame_intro _ WAL_V3_TYPE_MYSQL_SQL ([WAL_COMPRESS_ALGO_NONE] ++ sql)); [constructor; [done|apply Hs]|rewrite length_app; cbn [length]; lia|done|done|].
    intros. unfold dispatch_v3_record. cbn. by rewrite from_utf8_str. }
  cbn [encode_entry] in *. unfold encode_wal_auto_commit_sql_mysql in *.
  destruct (negb enabled || (length sql <? threshold)%nat) eqn:E1; [by apply Hplain|].
  rewrite Hc in *. cbn [mbind option_bind] in *. destruct (length sql <=? length c + 1)%nat eqn:E2; [by apply Hplain|]. apply Nat.leb_gt in E2.
  eapply (frame_intro _ WAL_V3_TYPE_MYSQL_SQL ([WAL_COMPRESS_ALGO_LZSS] ++ c)); [by constructor|rewrite length_app; cbn [length]; lia|done| |].
  - cbn [encode_entry]. unfold encode_wal_auto_commit_sql_mysql. rewrite E1, Hc. cbn [mbind option_bind]. by rewrite (proj2 (Nat.leb_gt _ _)) by lia.
  - intros. unfold dispatch_v3_record. cbn -[decompress]. rewrite Hd. cbn. by rewrite from_utf8_str.
Qed.

(** Every entry has its frame. *)
Lemma entry_frame en : entry_ok en -> exists f, frame_of en f.
Proof.
  destruct en as [v|[] sql|sql|off]; cbn [entry_ok].
  - apply frame_of_readings.
  - intros []. by apply frame_of_mysql.
  - intros []. by apply frame_of_sql.
  - intros []. by apply frame_of_direct.
  - apply frame_of_marker.
Qed.
End Encoding.

(** ** Logs

    The compression settings may have changed between entries. *)
Definition encodes (en : entry) (bs : list Z) : Prop :=
  entry_ok en /\ exists enabled threshold, encode_entry enabled threshold en = Some (Ok bs).

Inductive log_of (P : entry -> list Z -> Prop) : list entry -> list Z -> Prop :=
| log_nil : log_of P [] []
| log_cons en bs es L : P en bs -> log_of P es L -> log_of P (en :: es) (bs ++ L).
Arguments log_nil {P}.
Arguments log_cons {P}.

Abbreviation is_log := (log_of encodes).

Lemma log_of_mono (P Q : entry -> list Z -> Prop) es L : (forall en bs, P en bs -> Q en bs) -> log_of P es L -> log_of Q es L.
Proof. intros HPQ. induction 1; constructor; auto. Qed.

(** A write cut short inside an entry. *)
Definition torn_tail (t : list Z) : Prop := exists en bs n, encodes en bs /\ (n < length bs)%nat /\ t = take n bs.

Lemma is_log_app es1 L1 es2 L2 : is_log es1 L1 -> is_log es2 L2 -> is_log (es1 ++ es2) (L1 ++ L2).
Proof. intros H1 H2. induction H1; [done|]. cbn [app]. rewrite <- app_assoc. by constructor. Qed.

Lemma is_log_one en bs : encodes en bs -> is_log [en] bs.
Proof. intros H. rewrite <- (app_nil_r bs). by constructor; [|constructor]. Qed.

(** What an encoded entry is: one frame, playing the entry. *)
Lemma encodes_frame en bs : encodes en bs -> exists f, frame_fits f /\ is_Some (f_crc f) /\ bs = frame_bytes f /\
  forall (Eng : Type) (RE : ReplayEngine Eng) (off : nat) (e : Eng) v,
    play_record (f_tag f) (f_payload f) off e v = Some (run_entry (e, v) en, Ok (is_statement en)).
Proof.
  intros (Hok & enabled & threshold & He). destruct (entry_frame enabled threshold en Hok) as (f & Hf & Hs & Hb & Hp).
  exists f. split; [done|]. split; [done|]. split; [congruence|done].
Qed.

(** Every entry can be encoded, under any settings. *)
Lemma entry_encodes en enabled threshold : entry_ok en -> exists bs, encode_entry enabled threshold en = Some (Ok bs) /\ encodes en bs.
Proof.
  intros Hok. destruct (entry_frame enabled threshold en Hok) as (f & _ & _ & Hb & _). exists (frame_bytes f).
  split; [done|]. split; [done|eauto].
Qed.

Lemma encodes_nonempty en bs : encodes en bs -> (4 <= length bs)%nat.
Proof. intros (f & _ & _ & -> & _)%encodes_frame. rewrite length_frame. destruct f; cbn; lia. Qed.

Lemma is_log_frames es L : is_log es L -> exists fs, Forall frame_fits fs /\ L = concat (map frame_bytes fs) /\ length fs = length es.
Proof.
  induction 1 as [|en bs es L Hen _ (fs & Hfs & -> & Hl)]; [by exists []|].
  destruct (encodes_frame _ _ Hen) as (f & Hf & _ & -> & _). exists (f :: fs). split; [by constructor|]. split; [done|]. cbn. lia.
Qed.

(** A log cut anywhere: whole entries, then a cut one. *)
Lemma log_take (P : entry -> list Z -> Prop) es L n : log_of P es L -> (n < length L)%nat ->
  exists es1 es2 L1 L2 (en : entry) (bs : list Z) (k : nat), es = es1 ++ es2 /\ es2 <> [] /\ L = L1 ++ L2 /\ log_of P es1 L1 /\ log_of P es2 L2 /\ P en bs /\ (k < length bs)%nat /\ take n L = L1 ++ take k bs.
Proof.
  intros HL. revert n. induction HL as [|en bs es L Hen HL IH]; intros n Hn; [cbn in Hn; lia|].
  rewrite length_app in Hn. destruct (decide (n < length bs)%nat) as [Hlt|Hge].
  - exists [], (en :: es), [], (bs ++ L), en, bs, n. split_and!; try done; [constructor|by constructor|]. by rewrite take_app_le by lia.
  - destruct (IH (n - length bs)%nat ltac:(lia)) as (es1 & es2 & L1 & L2 & en' & bs' & k & -> & Hne & -> & H1 & H2 & Hen' & Hk & E).
    exists (en :: es1), es2, (bs ++ L1), L2, en', bs', k. split_and!; try done; [by rewrite app_assoc|by constructor|].
    rewrite take_app_ge by lia. by rewrite E, app_assoc.
Qed.

Lemma is_log_take es L n : is_log es L -> (n < length L)%nat ->
  exists es1 es2 L1 L2 t, es = es1 ++ es2 /\ es2 <> [] /\ L = L1 ++ L2 /\ is_log es1 L1 /\ torn_tail t /\ take n L = L1 ++ t.
Proof.
  intros HL Hn. destruct (log_take _ _ _ _ HL Hn) as (es1 & es2 & L1 & L2 & en & bs & k & ? & ? & ? & ? & ? & ? & ? & ?).
  exists es1, es2, L1, L2, (take k bs). split_and!; try done. by exists en, bs, k.
Qed.

Section Replaying.
Context {Eng : Type} {RE : ReplayEngine Eng}.
Implicit Types (e : Eng) (v : option volatiles).

Lemma replay_from_log es L pre rest a v e : is_log es L ->
  replay_from (pre ++ L ++ rest) (length pre) a v e =
  replay_from ((pre ++ L) ++ rest) (length (pre ++ L)) (a + statements es)%nat (run_log es (e, v)).2 (run_log es (e, v)).1.
Proof.
  intros HL. revert pre a v e. induction HL as [|en bs es L Hen HL IH]; intros pre a v e.
  - cbn [run_log fold_left fst snd]. rewrite app_nil_r. f_equal. unfold statements. cbn. lia.
  - destruct (encodes_frame _ _ Hen) as (f & Hf & _ & -> & Hp). rewrite <- (app_assoc _ L rest).
    rewrite replay_from_frame, Hp by done. cbn [mbind option_bind]. destruct (run_entry (e, v) en) as [e1 v1] eqn:E1.
    rewrite IH. rewrite <- !app_assoc. cbn [run_log fold_left]. rewrite E1. f_equal. rewrite statements_cons. destruct (is_statement en); lia.
Qed.

Lemma replay_from_tail t pre a v e : torn_tail t -> replay_from (pre ++ t) (length pre) a v e = Some (e, Ok (mk_replay a (length pre))).
Proof.
  intros (en & bs & n & (f & Hf & _ & -> & _)%encodes_frame & Hn & ->).
  apply replay_from_torn; [done|by apply frame_crc_u32|done].
Qed.

(** A log with a torn tail: its entries, in order, and where they end. *)
Lemma replay_log es L t e : is_log es L -> torn_tail t ->
  replay_wal_bytes_reporting (L ++ t) e = Some ((run_log es (e, None)).1, Ok (mk_replay (statements es) (length L))).
Proof.
  intros HL Ht. change (replay_wal_bytes_reporting (L ++ t) e) with (replay_from ([] ++ L ++ t) (length (@nil Z)) 0 None e).
  rewrite (replay_from_log es) by done. cbn [app]. by rewrite replay_from_tail.
Qed.

Lemma torn_nil : torn_tail [].
Proof.
  destruct (entry_encodes (Marker 0) false 0) as (bs & _ & H); [split; lia|].
  exists (Marker 0), bs, 0%nat. split; [done|]. apply encodes_nonempty in H. split; [lia|done].
Qed.

Lemma replay_whole_log es L e : is_log es L ->
  replay_wal_bytes_reporting L e = Some ((run_log es (e, None)).1, Ok (mk_replay (statements es) (length L))).
Proof. intros HL. rewrite <- (app_nil_r L) at 1. apply replay_log; [done|apply torn_nil]. Qed.
End Replaying.
