(* ===== verification/WalRecovery.v ===== *)
(** Recovery: what boot makes of a log that was written whole, cut by a crash,
    damaged, or arbitrary; and the log over any run of appends and crashes. *)
From S2P Require Import Prelude Bytes Crc Lzss Wal WalReplay WalLog.
Open Scope Z_scope.

(** ** The statements of the group commit *)

Record stmt : Type := mk_stmt {
  st_mysql : bool;
  st_readings : option volatiles;
  st_sql : list Z;
}.

Definition stmt_ok (s : stmt) : Prop :=
  is_str (st_sql s) /\ Z.of_nat (length (st_sql s)) < 2 ^ 30 - 1 /\
  match st_readings s with Some v => readings_ok v | None => True end.

Definition stmt_entries (s : stmt) : list entry :=
  match st_readings s with Some v => [Readings v] | None => [] end ++ [Statement (st_mysql s) (st_sql s)].

(** The same statement logged by its own connection. *)
Definition direct_entries (s : stmt) : list entry :=
  match st_readings s with Some v => [Readings v] | None => [] end ++
  [if st_mysql s then Statement true (st_sql s) else Direct (st_sql s)].

(** The statement run again: in its dialect, at its readings. *)
Definition run_stmt {Eng} `{ReplayEngine Eng} (e : Eng) (s : stmt) : Eng :=
  if st_mysql s then
    set_mysql_dialect (replay_execute_quarantining (set_mysql_dialect e true) (st_sql s) (st_readings s)) (in_mysql_dialect e)
  else replay_execute_quarantining e (st_sql s) (st_readings s).

Lemma run_stmt_entries {Eng} {RE : ReplayEngine Eng} s (e : Eng) : run_log (stmt_entries s) (e, None) = (run_stmt e s, None).
Proof. unfold stmt_entries, run_stmt, run_log. by destruct s as [[] [v|] sql]. Qed.

Lemma run_stmts {Eng} {RE : ReplayEngine Eng} ss (e : Eng) :
  run_log (concat (map stmt_entries ss)) (e, None) = (fold_left run_stmt ss e, None).
Proof.
  revert e. induction ss as [|s ss IH]; intros e; [done|]. cbn [map concat]. by rewrite run_log_app, run_stmt_entries, IH.
Qed.

Lemma statements_stmts ss : statements (concat (map stmt_entries ss)) = length ss.
Proof.
  induction ss as [|s ss IH]; [done|]. cbn [map concat]. rewrite statements_app, IH.
  unfold stmt_entries. by destruct (st_readings s).
Qed.

Definition leader_stmt (enabled : bool) (threshold : nat) (s : stmt) : outcome (list Z) wal_error :=
  leader_entry enabled threshold (st_mysql s) (st_readings s) (st_sql s).

Lemma readings_bytes v : readings_ok v -> exists b, encode_wal_volatile_inputs (Some v) = Some b /\ encodes (Readings v) b.
Proof.
  intros Hv. destruct (entry_encodes (Readings v) false 0 Hv) as (b & He & H). cbn [encode_entry] in He.
  destruct (encode_wal_volatile_inputs (Some v)) as [b'|] eqn:E; cbn [mbind option_bind] in He; [|done].
  injection He as ->. by exists b.
Qed.

(** What the leader writes is the statement's entries. *)
Lemma leader_is_log enabled threshold s : stmt_ok s ->
  exists bs, leader_stmt enabled threshold s = Some (Ok bs) /\ is_log (stmt_entries s) bs.
Proof.
  intros (Hs & Hl & Hv). destruct (entry_encodes (Statement (st_mysql s) (st_sql s)) enabled threshold) as (b & Hb & He); [done|].
  unfold leader_stmt, leader_entry. assert ((if st_mysql s then encode_wal_auto_commit_sql_mysql enabled threshold (st_sql s)
    else encode_wal_auto_commit_sql enabled threshold (st_sql s)) = Some (Ok b)) as -> by (by destruct (st_mysql s)).
  cbn [obind]. unfold stmt_entries. destruct (st_readings s) as [v|].
  - destruct (readings_bytes v Hv) as (r & -> & Hr). cbn [mbind option_bind]. eexists. split; [done|].
    apply (log_cons _ r); [done|]. by apply is_log_one.
  - cbn [mbind option_bind encode_wal_volatile_inputs app]. eexists. split; [done|]. by apply is_log_one.
Qed.

Lemma leader_log enabled threshold ss bss : Forall stmt_ok ss ->
  Forall2 (fun s bs => leader_stmt enabled threshold s = Some (Ok bs)) ss bss -> is_log (concat (map stmt_entries ss)) (concat bss).
Proof.
  intros Hok H2. induction H2 as [|s bs ss bss Hbs _ IH]; [constructor|]. apply Forall_cons in Hok as [Hs Hok].
  cbn [map concat]. apply is_log_app; [|by apply IH]. destruct (leader_is_log enabled threshold s Hs) as (bs' & E & H). congruence.
Qed.

(** A statement's entries cut short run nothing. *)
Lemma stmt_entries_cut s es1 es2 : stmt_entries s = es1 ++ es2 -> es2 <> [] ->
  statements es1 = 0%nat /\ forall (Eng : Type) (RE : ReplayEngine Eng) (e : Eng), (run_log es1 (e, None)).1 = e.
Proof.
  unfold stmt_entries. destruct (st_readings s) as [v|]; destruct es1 as [|en1 [|en2 es1]]; cbn [app]; intros E Hne; simplify_eq/=; try done.
  all: by destruct es1.
Qed.

(** ** The server's log over appends and crashes

    The log file, how much of it an [fsync] has covered, and the entries a
    synchronous commit acknowledged. *)
Record wal_state : Type := mk_wal {
  w_file : list Z;
  w_synced : nat;
  w_acked : list entry;
}.

Inductive wal_step : wal_state -> wal_state -> Prop :=
| step_append s limits fate entries sync es file' r :
    is_log es (concat entries) ->
    (* the rollback's own failure is not covered *)
    set_len_works fate = true ->
    append_wal_v3_group limits fate (w_file s) entries sync = (file', r) ->
    wal_step s (if is_ok r && sync then mk_wal file' (length file') (w_acked s ++ es)
                else mk_wal file' (w_synced s) (w_acked s))
| step_direct s enabled threshold limits fate v sql sync mysql file' r :
    stmt_ok (mk_stmt mysql v sql) ->
    set_len_works fate = true ->
    append_wal_dialect enabled threshold limits fate (w_file s) v sql sync mysql = Some (file', r) ->
    wal_step s (if is_ok r && sync then mk_wal file' (length file') (w_acked s ++ direct_entries (mk_stmt mysql v sql))
                else mk_wal file' (w_synced s) (w_acked s))
| step_marker s limits fate file' r :
    Z.of_nat (length (w_file s)) < 2 ^ 64 ->
    set_len_works fate = true ->
    append_durability_marker limits fate (w_file s) = (file', r) ->
    wal_step s (mk_wal file' (if is_ok r then length file' else w_synced s) (w_acked s))
| step_crash s (Eng : Type) (RE : ReplayEngine Eng) (e e' : Eng) n file' r :
    (w_synced s <= n <= length (w_file s))%nat ->
    replay_wal_into_engine e (take n (w_file s)) None 0 = Some (e', file', r) ->
    wal_step s (mk_wal file' (if (length file' <? n)%nat then length file' else w_synced s) (w_acked s)).

Definition wal_reachable : wal_state -> Prop := rtc wal_step (mk_wal [] 0 []).

(** The synced part is a log holding every acknowledged entry in order, and
    so is the whole file. *)
Definition wal_inv (s : wal_state) : Prop :=
  exists es1 es2 L1 L2, is_log es1 L1 /\ is_log es2 L2 /\ w_file s = L1 ++ L2 /\ w_synced s = length L1 /\ w_acked s `sublist_of` es1.

Lemma write_outcome fate wal batched sync file' r : set_len_works fate = true ->
  write_and_sync fate wal batched sync = (file', r) ->
  match r with Ok _ => file' = wal ++ batched | Err _ => file' = wal end.
Proof.
  intros Hset. unfold write_and_sync. rewrite Hset.
  destruct (write_fails_after fate) as [k|]; [intros [= <- <-]; by rewrite take_app_length|].
  destruct (sync && negb (sync_works fate)); intros [= <- <-]; [by rewrite take_app_length|done].
Qed.

Lemma append_outcome limits fate wal entries sync file' r : set_len_works fate = true ->
  append_wal_v3_group limits fate wal entries sync = (file', r) ->
  match r with Ok _ => file' = wal ++ concat entries | Err _ => file' = wal end.
Proof.
  intros Hset. unfold append_wal_v3_group. destruct entries as [|en entries]; [intros [= <- <-]; by rewrite app_nil_r|].
  destruct (wal_limits_refuse _ _ _ _); [by intros [= <- <-]|]. by apply write_outcome.
Qed.

(** What a connection writes itself is the statement's entries. *)
Lemma direct_is_log enabled threshold s : stmt_ok s ->
  exists bs, append_wal_entry enabled threshold (st_mysql s) (st_readings s) (st_sql s) = Some (Ok bs) /\ is_log (direct_entries s) bs.
Proof.
  intros (Hs & Hl & Hv). set (en := if st_mysql s then Statement true (st_sql s) else Direct (st_sql s)).
  destruct (entry_encodes en enabled threshold) as (b & Hb & He); [unfold en; destruct (st_mysql s); split; done || lia|].
  unfold append_wal_entry. assert ((if st_mysql s then encode_wal_auto_commit_sql_mysql enabled threshold (st_sql s)
    else Some (encode_wal_record (st_sql s))) = Some (Ok b)) as Hen by (by unfold en in Hb; destruct (st_mysql s)).
  unfold direct_entries. fold en. destruct (st_readings s) as [v|].
  - destruct (readings_bytes v Hv) as (r & -> & Hr). cbn [mbind option_bind]. rewrite Hen. cbn [obind]. eexists. split; [done|].
    apply (log_cons _ r); [done|]. by apply is_log_one.
  - cbn [mbind option_bind encode_wal_volatile_inputs app]. rewrite Hen. cbn [obind]. eexists. split; [done|]. by apply is_log_one.
Qed.

Lemma direct_outcome enabled threshold limits fate wal s sync file' r : stmt_ok s -> set_len_works fate = true ->
  append_wal_dialect enabled threshold limits fate wal (st_readings s) (st_sql s) sync (st_mysql s) = Some (file', r) ->
  match r with Ok _ => exists bs, is_log (direct_entries s) bs /\ file' = wal ++ bs | Err _ => file' = wal end.
Proof.
  intros Hok Hset. unfold append_wal_dialect. destruct (direct_is_log enabled threshold s Hok) as (bs & -> & Hl). cbn [mbind option_bind].
  destruct (wal_limits_refuse _ _ _ _); [by intros [= <- <-]|]. intros [= E]. apply write_outcome in E; [|done].
  destruct r; [by exists bs|done].
Qed.

(** A marker is appended, or the file is as it was. *)
Lemma marker_outcome limits fate wal file' r : Z.of_nat (length wal) < 2 ^ 64 -> set_len_works fate = true ->
  append_durability_marker limits fate wal = (file', r) ->
  exists es bs, is_log es bs /\ file' = wal ++ bs.
Proof.
  intros Hw Hset. unfold append_durability_marker.
  destruct (entry_encodes (Marker (Z.of_nat (length wal))) false 0) as (b & Hb & He); [split; [lia|done]|]. cbn [encode_entry] in Hb. apply (inj Some) in Hb as ->.
  destruct (wal_limits_refuse _ _ _ _); [intros [= <- <-]; exists [], []; split; [constructor|by rewrite app_nil_r]|]. rewrite Hset.
  destruct (write_fails_after fate) as [k|]; intros [= <- <-].
  - exists [], []. split; [constructor|]. by rewrite take_app_length, app_nil_r.
  - eexists _, b. split; [by apply is_log_one|done].
Qed.

(** Boot on a cut file: the whole entries, and the file cut to them. *)
Lemma boot_cut {Eng} {RE : ReplayEngine Eng} (e : Eng) es L t : is_log es L -> torn_tail t ->
  exists e' r, replay_wal_into_engine e (L ++ t) None 0 = Some (e', L, r).
Proof.
  intros HL Ht. unfold replay_wal_into_engine. change ((0 <? 0)%nat && _)%nat with false. cbv iota zeta.
  rewrite (replay_log es) by done. cbn [mbind option_bind negb]. rewrite andb_true_r. cbn [valid_bytes Nat.add].
  assert ((if (length L <? length (L ++ t))%nat then take (length L) (L ++ t) else L ++ t) = L) as ->.
  { destruct (length L <? length (L ++ t))%nat eqn:E; [by rewrite take_app_length|]. apply Nat.ltb_ge in E. rewrite length_app in E.
    destruct t; [apply app_nil_r|cbn in E; lia]. }
  destruct (in_transaction _); [|eauto]. destruct (execute _ _) as [e2 []]; eauto.
Qed.

(** What a crash leaves: the synced log, and a cut of what followed it. *)
Lemma crash_leaves es1 es2 L1 L2 n : is_log es1 L1 -> is_log es2 L2 -> (length L1 <= n <= length (L1 ++ L2))%nat ->
  exists es2a L2a L2b t, is_log es2a L2a /\ torn_tail t /\ L2 = L2a ++ L2b /\ take n (L1 ++ L2) = (L1 ++ L2a) ++ t.
Proof.
  intros H1 H2 Hn. rewrite length_app in Hn. rewrite take_app_ge by lia.
  destruct (decide (n = length L1 + length L2)%nat) as [->|Hne].
  - exists es2, L2, [], []. split; [done|]. split; [apply torn_nil|]. split; [by rewrite app_nil_r|].
    rewrite take_ge by lia. by rewrite app_nil_r.
  - destruct (is_log_take es2 L2 (n - length L1) H2 ltac:(lia)) as (ea & eb & La & Lb & t & _ & _ & -> & Ha & Ht & E).
    exists ea, La, Lb, t. split; [done|]. split; [done|]. split; [done|]. by rewrite E, app_assoc.
Qed.

(** Appending a log: synced and acknowledged, or neither. *)
Lemma wal_inv_append s es bs (sync : bool) : wal_inv s -> is_log es bs ->
  wal_inv (if sync then mk_wal (w_file s ++ bs) (length (w_file s ++ bs)) (w_acked s ++ es)
           else mk_wal (w_file s ++ bs) (w_synced s) (w_acked s)).
Proof.
  intros (es1 & es2 & L1 & L2 & H1 & H2 & Hf & Hs & Ha) Hes. rewrite Hf. destruct sync.
  - exists (es1 ++ es2 ++ es), [], (L1 ++ L2 ++ bs), []. cbn [w_file w_synced w_acked].
    split; [by repeat apply is_log_app|]. split; [constructor|]. split; [by rewrite app_nil_r, <- app_assoc|]. split; [by rewrite <- app_assoc|].
    apply sublist_app; [done|]. by apply sublist_inserts_l.
  - exists es1, (es2 ++ es), L1, (L2 ++ bs). cbn [w_file w_synced w_acked].
    split; [done|]. split; [by apply is_log_app|]. split; [by rewrite <- app_assoc|]. by split.
Qed.

(** Acknowledging less is no harm. *)
Lemma wal_inv_fewer file n acked acked' : wal_inv (mk_wal file n acked) -> acked' `sublist_of` acked -> wal_inv (mk_wal file n acked').
Proof.
  intros (es1 & es2 & L1 & L2 & H1 & H2 & Hf & Hs & Ha) Hsub. exists es1, es2, L1, L2. split_and!; try done. cbn in *. by etrans.
Qed.

Lemma wal_step_inv s s' : wal_inv s -> wal_step s s' -> wal_inv s'.
Proof.
  intros Hi Hst. destruct Hst as [s limits fate entries sync es file' r Hes Hset Happ|s en th limits fate v sql sync mysql file' r Hok Hset Happ|
    s limits fate file' r H64 Hset Happ|s Eng RE e e' n file' r Hn Hb].
  - apply append_outcome in Happ; [|done]. destruct r as [u|er]; subst file'; [by apply wal_inv_append|by destruct s].
  - apply (direct_outcome _ _ _ _ _ (mk_stmt mysql v sql)) in Happ; [|done..].
    destruct r as [u|er]; [|by subst file'; destruct s]. destruct Happ as (bs & Hl & ->). by apply wal_inv_append.
  - apply marker_outcome in Happ as (es & bs & Hl & ->); [|done..]. destruct (is_ok r).
    + apply (wal_inv_fewer _ _ (w_acked s ++ es)); [by apply (wal_inv_append s es bs true)|by apply sublist_inserts_r].
    + by apply (wal_inv_append s es bs false).
  - destruct Hi as (es1 & es2 & L1 & L2 & H1 & H2 & Hf & Hs & Ha).
    rewrite Hf, Hs in Hn. destruct (crash_leaves es1 es2 L1 L2 n H1 H2 Hn) as (ea & La & Lb & t & Hea & Ht & HL2 & E).
    rewrite Hf, E in Hb. destruct (boot_cut e (es1 ++ ea) (L1 ++ La) t (is_log_app _ _ _ _ H1 Hea) Ht) as (e2 & r2 & Hb2).
    rewrite Hb2 in Hb. injection Hb as <- <- <-. destruct (length (L1 ++ La) <? n)%nat.
    + exists (es1 ++ ea), [], (L1 ++ La), []. cbn [w_file w_synced w_acked]. split; [by apply is_log_app|]. split; [constructor|].
      split; [by rewrite app_nil_r|]. split; [done|]. by apply sublist_inserts_r.
    + by exists es1, ea, L1, La.
Qed.

Lemma wal_reachable_inv s : wal_reachable s -> wal_inv s.
Proof.
  assert (Hi : forall s0 s1, rtc wal_step s0 s1 -> wal_inv s0 -> wal_inv s1).
  { intros s0 s1 Hr. induction Hr; [done|]. intros. eauto using wal_step_inv. }
  intros Hr. apply (Hi _ _ Hr). exists [], [], [], []. repeat split; constructor.
Qed.

(** ** Damage *)

(** A window of at most four bytes of an entry differs: in what the CRC
    covers, or in the CRC field itself. *)
Definition damaged (bs bs' : list Z) : Prop :=
  (exists h a w w' b, bs = h ++ a ++ w ++ b /\ bs' = h ++ a ++ w' ++ b /\ length h = 8%nat /\
    is_bytes w' /\ length w = length w' /\ (length w <= 4)%nat /\ w <> w') \/
  (exists h c c' b, bs = h ++ c ++ b /\ bs' = h ++ c' ++ b /\ length h = 4%nat /\ length c = 4%nat /\ length c' = 4%nat /\
    is_bytes c' /\ c <> c').

(** A frame that keeps its shape and fails its check. *)
Definition bad_frame (bs : list Z) : Prop :=
  exists f crc, frame_fits f /\ is_Some (f_crc f) /\ u32 crc /\ bs = frame_with crc f /\ f_crc f <> Some crc.

(** What the CRC of a frame covers, after the length word and the CRC. *)
Definition f_covered (f : frame) : list Z := match f with F3 t p => [t] ++ p | F1 p | F2 p => p end.

Definition f_word (f : frame) : list Z :=
  let len := Z.of_nat (length (f_payload f)) in
  le_bytes 4 (match f with F1 _ => len | F2 _ => Z.lor len WAL_V2_SENTINEL | F3 _ _ => Z.lor len WAL_V3_SENTINEL end).

Lemma length_f_word f : length (f_word f) = 4%nat.
Proof. apply length_le_bytes. Qed.

Lemma frame_with_parts crc f : is_Some (f_crc f) -> frame_with crc f = f_word f ++ le_bytes 4 crc ++ f_covered f.
Proof. intros [? Hf]. by destruct f. Qed.

Lemma f_crc_covered f : is_Some (f_crc f) -> f_crc f = Some (crc32 (f_covered f)).
Proof. intros [? Hf]. by destruct f. Qed.

Lemma covered_bytes f : frame_fits f -> is_bytes (f_covered f).
Proof. intros (Hp & _ & Ht). destruct f; cbn in *; [done|done|by constructor]. Qed.

(** Other covered bytes of the same length make a frame of the same word. *)
Lemma recover_frame f cov : frame_fits f -> is_Some (f_crc f) -> is_bytes cov -> length cov = length (f_covered f) ->
  exists f', frame_fits f' /\ is_Some (f_crc f') /\ f_covered f' = cov /\ f_word f' = f_word f.
Proof.
  intros (Hp & Hl & Ht) [? Hs] Hb Hlen. destruct f as [p|p|t p]; [done| |].
  - cbn in Hlen. exists (F2 cov). split; [by split; [|split; [cbn; rewrite Hlen|]]|]. split; [by eexists|]. split; [done|].
    unfold f_word. cbn [f_payload]. by rewrite Hlen.
  - cbn in Hlen. destruct cov as [|t' cov]; [done|]. apply Forall_cons in Hb as [Ht' Hb]. injection Hlen as Hlen.
    exists (F3 t' cov). split; [split; [done|split; [cbn; by rewrite Hlen|done]]|]. split; [by eexists|]. split; [done|].
    unfold f_word. cbn [f_payload]. by rewrite Hlen.
Qed.

Lemma damaged_bad en bs bs' : encodes en bs -> damaged bs bs' -> bad_frame bs' /\ length bs' = length bs.
Proof.
  intros (f & Hf & Hs & -> & _)%encodes_frame Hd. pose proof (covered_bytes f Hf) as Hcb.
  unfold frame_bytes in Hd |- *. rewrite (f_crc_covered f Hs) in Hd |- *. cbn [default id] in Hd |- *. rewrite (frame_with_parts _ f Hs) in Hd |- *.
  destruct Hd as [(h & a & w & w' & b & E & -> & Hh & Hw' & Hlen & H4 & Hne)|(h & c & c' & b & E & -> & Hh & Hc & Hc' & Hb & Hne)].
  - rewrite app_assoc in E. apply app_inj_1 in E as [<- E]; [|by rewrite length_app, length_f_word, length_le_bytes, Hh].
    rewrite E in Hcb |- *. rewrite !is_bytes_app in Hcb. destruct Hcb as (Ha & Hw & Hbb).
    destruct (recover_frame f (a ++ w' ++ b) Hf Hs) as (f' & Hf' & Hs' & Hcov & Hword).
    { rewrite !is_bytes_app. done. } { rewrite E, !length_app. lia. }
    split; [|rewrite !length_app; lia].
    exists f', (crc32 (f_covered f)). split; [done|]. split; [done|]. split; [by apply crc32_u32, covered_bytes|].
    split; [rewrite (frame_with_parts _ f' Hs'), Hcov, Hword, E; by rewrite <- !app_assoc|].
    rewrite (f_crc_covered f' Hs'), Hcov, E. intros [= Heq].
    eapply (burst_detected _ poly_ieee_u32 eq_refl a w w' b); try done.
  - apply app_inj_1 in E as [<- E]; [|by rewrite length_f_word, Hh]. apply app_inj_1 in E as [<- <-]; [|by rewrite length_le_bytes, Hc].
    split; [|rewrite !length_app, Hc, Hc'; lia].
    exists f, (le_val c'). split; [done|]. split; [done|]. pose proof (le_val_bound _ Hb) as Hbd. rewrite Hc' in Hbd.
    split; [exact Hbd|]. split; [rewrite (frame_with_parts _ f Hs), (le_bytes_le_val_n 4 c' Hc' Hb); done|].
    rewrite (f_crc_covered f Hs). intros [= Heq]. apply Hne. rewrite Heq. by rewrite (le_bytes_le_val_n 4 c' Hc' Hb).
Qed.

Section Damage.
Context {Eng : Type} {RE : ReplayEngine Eng}.
Implicit Types (e : Eng) (v : option volatiles).

Lemma replay_from_bad pre bs rest a v e : bad_frame bs ->
  replay_from (pre ++ bs ++ rest) (length pre) a v e =
  let! follow := records_follow ((pre ++ bs) ++ rest) (length (pre ++ bs)) in
  if follow : bool then Some (e, Err (CrcMismatch (length pre))) else Some (e, Ok (mk_replay a (length pre))).
Proof.
  intros (f & crc & Hf & Hs & Hc & -> & Hne). pose proof (length_frame_with crc f) as Hl.
  rewrite replay_from_unfold by (rewrite !length_app, Hl; destruct f; cbn; lia). cbv zeta.
  rewrite read_header_frame by done. cbn [mbind option_bind frame_header h_cur h_len].
  rewrite (proj2 (Nat.ltb_ge _ _)) by (rewrite !length_app, Hl; lia). rewrite frame_payload. cbn [mbind option_bind].
  assert (crc_differs (frame_header crc (length pre) f) (f_payload f) = true) as Hd.
  { unfold crc_differs. destruct f as [p|p|t p]; [by destruct Hs| |]; cbn in Hne |- *; apply negb_true_iff, Z.eqb_neq; congruence. }
  change (crc_differs _ (f_payload f)) with (crc_differs (frame_header crc (length pre) f) (f_payload f)). rewrite Hd. replace (length pre + f_header_len f + length (f_payload f))%nat with (length (pre ++ frame_with crc f)) by (rewrite length_app, Hl; lia).
  by rewrite app_assoc.
Qed.

Lemma records_follow_end bytes : records_follow bytes (length bytes) = Some false.
Proof.
  assert (Hf : forall fuel, records_follow_loop fuel bytes (length bytes) 0 = Some false) by (intros [|fuel]; cbn [records_follow_loop]; by rewrite Nat.ltb_irrefl).
  apply Hf.
Qed.

Lemma read_header_len bytes cur h : read_header bytes cur = Some (Some h) ->
  exists raw, index_le 4 cur bytes = Some raw /\ h_len h = rec_len raw.
Proof.
  unfold read_header. destruct (length bytes - cur <? 4)%nat; [done|].
  destruct (index_le 4 cur bytes) as [raw|]; cbn [mbind option_bind]; [|done]. intros E. exists raw. split; [done|]. revert E.
  destruct (is_v2 raw); [|by intros [= <-]]. destruct (_ <? 4)%nat; [done|].
  destruct (index_le _ _ _); cbn [mbind option_bind]; [|done]. destruct (is_v3 raw); [|by intros [= <-]].
  destruct (_ <? 1)%nat; [done|]. destruct (bytes !! _); cbn [mbind option_bind]; [|done]. by intros [= <-].
Qed.

(** A length word that claims more than the file holds ends the replay,
    whatever follows. *)
Lemma replay_from_overlong pre word rest a v e : length word = 4%nat -> (length (word ++ rest) < rec_len (le_val word))%nat ->
  replay_from (pre ++ word ++ rest) (length pre) a v e = Some (e, Ok (mk_replay a (length pre))).
Proof.
  intros H4 Hl. rewrite replay_from_unfold by (rewrite !length_app; lia). cbv zeta.
  destruct (read_header_total (pre ++ word ++ rest) (length pre)) as ([h|] & E); rewrite E; cbn [mbind option_bind]; [|done].
  pose proof (read_header_range _ _ _ E). destruct (read_header_len _ _ _ E) as (raw & Hi & Hh).
  rewrite index_le_in in Hi by (rewrite !length_app; lia). rewrite slice_app_exact in Hi by done. injection Hi as <-.
  rewrite (proj2 (Nat.ltb_lt _ _)); [done|]. rewrite !length_app in *. lia.
Qed.
End Damage.

Lemma testbit_lower x n : 0 <= x -> 0 <= n -> Z.testbit x n = true -> 2 ^ n <= x.
Proof.
  intros Hx Hn Ht. destruct (decide (x < 2 ^ n)); [|lia]. by rewrite (in_w_high n x n) in Ht by (done || lia).
Qed.

(** The length field's top bit set. *)
Lemma rec_len_top raw : (Z.to_nat (2 ^ 29) <= rec_len (Z.lor raw (2 ^ 29)))%nat.
Proof.
  rewrite rec_len_mod. apply Z2Nat.inj_le; [lia|apply Z.mod_pos_bound; by destruct (is_v3 _)|].
  apply testbit_lower; [apply Z.mod_pos_bound; by destruct (is_v3 _)|lia|].
  rewrite Z.mod_pow2_bits_low by (destruct (is_v3 _); lia). rewrite Z.lor_spec, Z.pow2_bits_true by lia. apply orb_true_r.
Qed.

(** ** An engine that records what it is asked

    Used by the witnesses: the statements it ran, each with its readings and
    dialect, and the dialect now. *)
Definition trace : Type := list (list Z * option volatiles * bool) * bool.

#[export] Instance trace_engine : ReplayEngine trace := {
  execute := fun t sql => ((t.1 ++ [(sql, None, t.2)], t.2), true);
  replay_statement := fun t at_ random sql => ((t.1 ++ [(sql, Some (at_, random), t.2)], t.2), true);
  in_mysql_dialect := snd;
  set_mysql_dialect := fun t b => (t.1, b);
  in_transaction := fun _ => false;
}.

Definition idle : trace := ([], false).

(** Two statements: a PostgreSQL one with its readings, a MySQL one without. *)
Definition stmt_a : stmt := mk_stmt false (Some (-7, 9)) [0x41; 0x3B].
Definition stmt_b : stmt := mk_stmt true None [0x42].

Lemma stmt_a_ok : stmt_ok stmt_a. Proof. repeat split; try (by repeat constructor); cbn; lia. Qed.
Lemma stmt_b_ok : stmt_ok stmt_b. Proof. repeat split; try (by repeat constructor); cbn; lia. Qed.

(** ** The properties *)

(** C14: recovery replays the group commit's log.  For any statements, in
    either dialect, with or without recorded readings and whatever the
    compression settings, and a crash that cut the entry after them anywhere:
    boot runs exactly those statements, once each and in order, every one in
    its own dialect and at its own readings, counts them, and reports an end
    inside the cut entry.  Encoding such a statement never fails. *)
Theorem log_replays {Eng : Type} {RE : ReplayEngine Eng} enabled threshold ss bss next nb n (e : Eng) :
  Forall stmt_ok ss -> stmt_ok next ->
  Forall2 (fun s bs => leader_stmt enabled threshold s = Some (Ok bs)) ss bss ->
  leader_stmt enabled threshold next = Some (Ok nb) -> (n < length nb)%nat ->
  exists w, replay_wal_bytes_reporting (concat bss ++ take n nb) e = Some (fold_left run_stmt ss e, Ok w) /\
    applied w = length ss /\ (length (concat bss) <= valid_bytes w <= length (concat bss) + n)%nat.
Proof.
  intros Hss Hnext Hbss Hnb Hn. pose proof (leader_log _ _ _ _ Hss Hbss) as HL.
  destruct (leader_is_log enabled threshold next Hnext) as (nb' & E & HN). rewrite Hnb in E. injection E as <-.
  destruct (is_log_take _ _ _ HN Hn) as (es1 & es2 & L1 & L2 & t & Hes & Hne & -> & H1 & Ht & Et). rewrite Et, app_assoc.
  destruct (stmt_entries_cut _ _ _ Hes Hne) as (Hc & Hr).
  rewrite (replay_log (concat (map stmt_entries ss) ++ es1)); [|by apply is_log_app|done].
  rewrite run_log_app, run_stmts, Hr. eexists. split; [done|]. cbn. rewrite statements_app, statements_stmts, Hc, length_app.
  apply (f_equal length) in Et. rewrite length_take, !length_app in Et. rewrite length_app in Hn. split; lia.
Qed.

Lemma log_replays_witness :
  exists bs nb w, replay_wal_bytes_reporting (bs ++ take 20 nb) idle = Some (([([0x41; 0x3B], Some (-7, 9), false)], false), Ok w) /\ applied w = 1%nat.
Proof.
  destruct (leader_is_log false 256 stmt_a stmt_a_ok) as (bs & Hbs & Hl). destruct (leader_is_log false 256 stmt_a stmt_a_ok) as (nb & Hnb & _).
  exists bs, nb.
  destruct (log_replays false 256 [stmt_a] [bs] stmt_a nb 20 idle) as (w & Hw & Ha & _).
  - constructor; [exact stmt_a_ok|constructor].
  - exact stmt_a_ok.
  - constructor; [exact Hbs|constructor].
  - exact Hnb.
  - revert Hnb. unfold leader_stmt, leader_entry, stmt_a. cbn [st_mysql st_readings st_sql]. unfold encode_wal_auto_commit_sql. cbn [negb orb].
    rewrite encode_v3 by (split; cbn; lia). cbn [obind]. cbn [encode_wal_volatile_inputs]. rewrite encode_v3 by (split; cbn; lia).
    cbn [mbind option_bind]. intros [= <-]. cbn [length]. lia.
  - exists w. cbn [concat] in Hw. rewrite app_nil_r in Hw. split; [exact Hw|exact Ha].
Defined.

(** C15: durability.  Over any run of appends (by the group commit,
    by connections and of markers; refused, failed and rolled back, synced or
    not), crashes that keep at least the synced bytes, and
    boots, in any order, and whatever engines the boots ran: after one more
    crash, recovery never fails and runs a log in which every entry a
    synchronous commit acknowledged appears, in the order acknowledged. *)
Theorem acknowledged_survive {Eng : Type} {RE : ReplayEngine Eng} s n (e : Eng) :
  wal_reachable s -> (w_synced s <= n <= length (w_file s))%nat ->
  exists es L, is_log es L /\ L `prefix_of` w_file s /\ w_acked s `sublist_of` es /\
    replay_wal_bytes_reporting (take n (w_file s)) e = Some ((run_log es (e, None)).1, Ok (mk_replay (statements es) (length L))).
Proof.
  intros (es1 & es2 & L1 & L2 & H1 & H2 & Hf & Hs & Ha)%wal_reachable_inv Hn. rewrite Hf, Hs in Hn.
  destruct (crash_leaves es1 es2 L1 L2 n H1 H2 Hn) as (ea & La & Lb & t & Hea & Ht & HL2 & E).
  exists (es1 ++ ea), (L1 ++ La). split; [by apply is_log_app|].
  split; [exists Lb; by rewrite Hf, HL2, app_assoc|]. split; [by apply sublist_inserts_r|].
  rewrite Hf, E. apply replay_log; [by apply is_log_app|done].
Qed.

Lemma acknowledged_survive_witness :
  exists s es (L : list Z), wal_reachable s /\ length (w_acked s) = 2%nat /\ w_acked s `sublist_of` es /\
    replay_wal_bytes_reporting (take (w_synced s) (w_file s)) idle = Some ((run_log es (idle, None)).1, Ok (mk_replay (statements es) (length L))).
Proof.
  destruct (leader_is_log false 256 stmt_a stmt_a_ok) as (bs & Hbs & Hl).
  set (s := mk_wal bs (length bs) (stmt_entries stmt_a)).
  assert (Hr : wal_reachable s).
  { eapply rtc_l; [|apply rtc_refl].
    eapply (step_append (mk_wal [] 0 []) (mk_limits None None) (mk_fate None true true 0) [bs] true (stmt_entries stmt_a) bs (Ok ())).
    - cbn [concat]. rewrite app_nil_r. exact Hl.
    - reflexivity.
    - unfold append_wal_v3_group. cbn. by rewrite app_nil_r. }
  destruct (acknowledged_survive s (w_synced s) idle Hr) as (es & L & _ & _ & Ha & Hrep); [cbn; lia|].
  exists s, es, L. split; [exact Hr|]. split; [reflexivity|]. split; [exact Ha|exact Hrep].
Defined.

(** C37: any bytes.  Replay of an arbitrary file ends without a panic; the end
    it reports lies inside the file; and when it accepts, the file cut there
    replays to the same engine and count, with nothing further to cut. *)
Theorem replay_any_bytes {Eng : Type} {RE : ReplayEngine Eng} bytes (e : Eng) :
  exists e' r, replay_wal_bytes_reporting bytes e = Some (e', r) /\
    forall w, r = Ok w -> (valid_bytes w <= length bytes)%nat /\
      replay_wal_bytes_reporting (take (valid_bytes w) bytes) e = Some (e', Ok w).
Proof.
  destruct (replay_from_total bytes 0 0 None e ltac:(lia)) as (e' & r & E & _). exists e', r. split; [exact E|]. intros w ->.
  destruct (replay_from_resume _ _ _ _ _ _ _ (Nat.le_0_l _) E) as (Hv & v' & Hq). split; [lia|].
  specialize (Hq []). cbv zeta in Hq. rewrite app_nil_r in Hq.
  assert (Hl : length (take (valid_bytes w) bytes) = valid_bytes w) by (rewrite length_take; lia).
  change (replay_from (take (valid_bytes w) bytes) 0 0 None e = Some (e', Ok w)).
  rewrite Hq. rewrite <- Hl at 2. rewrite replay_from_end, Hl. by destruct w.
Qed.

(** Damage inside the log is told from a torn tail.  When a window of at
    most four bytes of an entry changes, past its length word: if entries
    follow, replay refuses with the entry's offset; if it was the last one,
    replay ends before it.  Either way exactly the entries before it ran. *)
Lemma damage_located {Eng : Type} {RE : ReplayEngine Eng} es1 L1 en bs bs' es2 L2 (e : Eng) :
  is_log es1 L1 -> encodes en bs -> damaged bs bs' -> is_log es2 L2 ->
  replay_wal_bytes_reporting (L1 ++ bs' ++ L2) e =
  Some ((run_log es1 (e, None)).1,
    match es2 with [] => Ok (mk_replay (statements es1) (length L1)) | _ => Err (CrcMismatch (length L1)) end).
Proof.
  intros H1 Hen Hd H2. destruct (damaged_bad _ _ _ Hen Hd) as (Hbad & _).
  change (replay_wal_bytes_reporting (L1 ++ bs' ++ L2) e) with (replay_from ([] ++ L1 ++ bs' ++ L2) (length (@nil Z)) 0 None e).
  rewrite (replay_from_log es1) by done. cbn [app]. rewrite replay_from_bad by done.
  destruct (is_log_frames _ _ H2) as (fs & Hfs & -> & Hl). destruct es2 as [|en2 es2].
  - destruct fs; [|done]. cbn [map concat]. rewrite app_nil_r, records_follow_end. done.
  - rewrite records_follow_frames; [done|done|by destruct fs].
Qed.

(** C0: but not in a length word.  One bit of an entry's length flipped ends
    the replay before it as if the tail were torn, and reports everything
    from there on as unreadable, however many intact entries follow: boot
    cuts them from the file. *)

Lemma encodes_bytes en bs : encodes en bs -> is_bytes bs.
Proof.
  intros (f & Hf & Hs & -> & _)%encodes_frame. unfold frame_bytes. rewrite frame_with_parts by done.
  rewrite !is_bytes_app. split; [apply le_bytes_bytes|]. split; [apply le_bytes_bytes|by apply covered_bytes].
Qed.

(** Boot on a file that replay reads up to the end of [L]. *)
Lemma boot_cuts {Eng} {RE : ReplayEngine Eng} (e e1 : Eng) L rest a :
  replay_wal_bytes_reporting (L ++ rest) e = Some (e1, Ok (mk_replay a (length L))) ->
  exists e' r, replay_wal_into_engine e (L ++ rest) None 0 = Some (e', L, r).
Proof.
  intros E. unfold replay_wal_into_engine. change ((0 <? 0)%nat && _)%nat with false. cbv iota zeta.
  rewrite E. cbn [mbind option_bind negb]. rewrite andb_true_r. cbn [valid_bytes Nat.add].
  assert ((if (length L <? length (L ++ rest))%nat then take (length L) (L ++ rest) else L ++ rest) = L) as ->.
  { destruct (length L <? length (L ++ rest))%nat eqn:El; [by rewrite take_app_length|]. apply Nat.ltb_ge in El. rewrite length_app in El.
    destruct rest; [apply app_nil_r|cbn in El; lia]. }
  destruct (in_transaction _); [|eauto]. destruct (execute _ _) as [e2 []]; eauto.
Qed.

(** Damage in a length word is taken for a torn tail.  When the top bit
    of an entry's length is set, replay ends before the entry, whatever
    follows it, and boot cuts the entry and every intact entry behind it from
    the file. *)
Lemma length_bit_drops_log {Eng : Type} {RE : ReplayEngine Eng} es1 L1 en bs es2 L2 (e : Eng) :
  is_log es1 L1 -> encodes en bs -> is_log es2 L2 -> Z.of_nat (length (bs ++ L2)) < 2 ^ 29 ->
  let damaged_log := L1 ++ (le_bytes 4 (Z.lor (le_val (take 4 bs)) (2 ^ 29)) ++ drop 4 bs) ++ L2 in
  replay_wal_bytes_reporting damaged_log e = Some ((run_log es1 (e, None)).1, Ok (mk_replay (statements es1) (length L1))) /\
  exists e' r, replay_wal_into_engine e damaged_log None 0 = Some (e', L1, r).
Proof.
  intros H1 Hen H2 Hl damaged_log.
  assert (Hr : replay_wal_bytes_reporting damaged_log e = Some ((run_log es1 (e, None)).1, Ok (mk_replay (statements es1) (length L1)))).
  { change (replay_from ([] ++ damaged_log) (length (@nil Z)) 0 None e = Some ((run_log es1 (e, None)).1, Ok (mk_replay (statements es1) (length L1)))).
    unfold damaged_log. rewrite (replay_from_log es1) by done. cbn [app]. rewrite <- app_assoc. apply replay_from_overlong; [apply length_le_bytes|].
    pose proof (encodes_nonempty _ _ Hen) as H4. pose proof (le_val_bound (take 4 bs) (is_bytes_take _ _ (encodes_bytes _ _ Hen))) as Hb.
    rewrite length_take_le in Hb by done. rewrite le_val_le_bytes_id by (apply (in_w_lor 32); [lia|exact Hb|split; lia]).
    pose proof (rec_len_top (le_val (take 4 bs))). rewrite !length_app, length_le_bytes, length_drop. rewrite length_app in Hl. lia. }
  split; [exact Hr|]. exact (boot_cuts _ _ _ _ _ Hr).
Qed.

Lemma length_bit_drops_log_example :
  exists bs, let damaged_log := [] ++ (le_bytes 4 (Z.lor (le_val (take 4 bs)) (2 ^ 29)) ++ drop 4 bs) ++ bs in
  replay_wal_bytes_reporting damaged_log idle = Some (idle, Ok (mk_replay 0 0)).
Proof.
  destruct (entry_encodes (Statement false [0x41]) false 256) as (bs & Hbs & Hen); [split; [by repeat constructor|cbn; lia]|].
  exists bs. apply (length_bit_drops_log [] [] (Statement false [0x41]) bs [Statement false [0x41]] bs idle).
  - constructor.
  - exact Hen.
  - by apply is_log_one.
  - cbn [encode_entry] in Hbs. unfold encode_wal_auto_commit_sql in Hbs. cbn [negb orb] in Hbs.
    rewrite encode_v3 in Hbs by (split; cbn; lia). injection Hbs as Hbs. rewrite <- Hbs. reflexivity.
Defined.

(** What a connection logs itself loses its readings.  In the PostgreSQL
    dialect the statement follows its readings as a v2 record, and replay
    runs a v2 record without them, so the statement draws from the clock
    again; the readings stay behind for the next statement logged without its
    own.  The group commit's entry of the same statement replays at them. *)
Lemma direct_entry_loses_readings {Eng : Type} {RE : ReplayEngine Eng} enabled threshold v sql (e : Eng) :
  readings_ok v -> is_str sql -> Z.of_nat (length sql) < 2 ^ 30 - 1 ->
  exists bs lb nb,
    append_wal_entry enabled threshold false (Some v) sql = Some (Ok bs) /\
    leader_entry enabled threshold false (Some v) sql = Some (Ok lb) /\
    leader_entry enabled threshold false None sql = Some (Ok nb) /\
    replay_wal_bytes_reporting bs e = Some ((execute e sql).1, Ok (mk_replay 1 (length bs))) /\
    replay_wal_bytes_reporting lb e = Some ((replay_statement e v.1 v.2 sql).1, Ok (mk_replay 1 (length lb))) /\
    replay_wal_bytes_reporting (bs ++ nb) e =
      Some ((replay_statement (execute e sql).1 v.1 v.2 sql).1, Ok (mk_replay 2 (length (bs ++ nb)))).
Proof.
  intros Hv Hs Hl. destruct (readings_bytes v Hv) as (r & Hr & Hre).
  destruct (entry_encodes (Direct sql) enabled threshold) as (d & Hd & Hde); [split; [done|lia]|].
  destruct (leader_is_log enabled threshold (mk_stmt false (Some v) sql)) as (lb & Hlb & Hlog); [done|].
  destruct (leader_is_log enabled threshold (mk_stmt false None sql)) as (nb & Hnb & Hnlog); [done|].
  assert (is_log [Readings v; Direct sql] (r ++ d)) as Hbs by (apply log_cons; [done|by apply is_log_one]).
  exists (r ++ d), lb, nb.
  split; [unfold append_wal_entry; rewrite Hr; cbn [mbind option_bind]; by cbn [encode_entry] in Hd; rewrite Hd|].
  split; [exact Hlb|]. split; [exact Hnb|]. rewrite (replay_whole_log _ _ _ Hbs), (replay_whole_log _ _ _ Hlog), (replay_whole_log _ _ _ (is_log_app _ _ _ _ Hbs Hnlog)).
  by destruct v.
Qed.

(** ** What frames can be mistaken for *)

(** A v2 record of 1 GiB or more is accepted, and read as a v3 record. *)
Lemma v2_gib_reads_as_v3 sql : 2 ^ 30 <= Z.of_nat (length sql) < 2 ^ 31 ->
  exists tl, encode_wal_record sql = Ok (le_bytes 4 (Z.lor (Z.of_nat (length sql)) WAL_V2_SENTINEL) ++ tl) /\
    is_v3 (Z.lor (Z.of_nat (length sql)) WAL_V2_SENTINEL) = true.
Proof.
  intros Hl. eexists. split.
  - unfold encode_wal_record. rewrite (proj2 (Z.ltb_lt _ _)) by lia. cbn [rbind].
    rewrite (land_high_zero _ 31); [done|lia|split; lia|]. by exists 1.
  - destruct (v2_word (Z.of_nat (length sql))) as (_ & _ & -> & _); [split; lia|].
    replace (Z.of_nat (length sql)) with (Z.of_nat (length sql) - 2 ^ 30 + 2 ^ 30) by lia.
    rewrite <- lor_sentinel by (try split; lia). rewrite Z.lor_spec, Z.pow2_bits_true by lia. apply orb_true_r.
Qed.

(** Zeros are a chain of empty v1 records, which carry no CRC: they run as
    empty statements, and after a damaged last entry they make replay refuse. *)
Lemma zeros_frames k : repeat 0 (4 * k) = concat (map frame_bytes (repeat (F1 []) k)).
Proof.
  induction k as [|k IH]; [done|]. replace (4 * S k)%nat with (4 + 4 * k)%nat by lia. rewrite repeat_app, IH. done.
Qed.

Lemma zeros_fit k : Forall frame_fits (repeat (F1 []) k).
Proof. induction k; constructor; [|done]. split; [constructor|split; [split; cbn; lia|done]]. Qed.

Lemma zeros_run {Eng} {RE : ReplayEngine Eng} pre k a v (e : Eng) :
  replay_from (pre ++ repeat 0 (4 * k)) (length pre) a v e =
  Some (Nat.iter k (fun e => (execute e []).1) e, Ok (mk_replay (a + k) (length pre + 4 * k))).
Proof.
  revert pre a e. induction k as [|k IH]; intros pre a e.
  - rewrite app_nil_r, replay_from_end. cbn. f_equal. f_equal. f_equal. f_equal; lia.
  - replace (4 * S k)%nat with (4 + 4 * k)%nat by lia. rewrite repeat_app. change (repeat 0 4) with (frame_bytes (F1 [])).
    rewrite replay_from_frame by (split; [constructor|split; [split; cbn; lia|done]]). cbn [play_record f_tag f_payload mbind option_bind from_utf8].
    change (from_utf8 [] NonUtf8Sql) with (@Ok (list Z) wal_error []). cbv iota beta. cbn [mbind option_bind]. rewrite IH. rewrite length_app, Nat.iter_succ_r.
    change (length (frame_bytes (F1 []))) with 4%nat. f_equal. f_equal. f_equal. f_equal; lia.
Qed.

Lemma zeros_after_damage_refused {Eng} {RE : ReplayEngine Eng} es1 L1 bs k (e : Eng) :
  is_log es1 L1 -> bad_frame bs ->
  replay_wal_bytes_reporting (L1 ++ bs ++ repeat 0 (4 * S k)) e = Some ((run_log es1 (e, None)).1, Err (CrcMismatch (length L1))).
Proof.
  intros H1 Hb. change (replay_wal_bytes_reporting (L1 ++ bs ++ repeat 0 (4 * S k)) e) with (replay_from ([] ++ L1 ++ bs ++ repeat 0 (4 * S k)) (length (@nil Z)) 0 None e).
  rewrite (replay_from_log es1) by done. cbn [app]. rewrite replay_from_bad by done. rewrite zeros_frames, records_follow_frames; [done|apply zeros_fit|done].
Qed.
