(* ===== verification/WalFollower.v ===== *)
(** The other readers of the log: the replication follower, whose result does
    not depend on how the stream is cut into chunks, and where it stops; and
    the offline tools, and what they refuse. *)
From S2P Require Import Prelude Bytes Crc Lzss Wal WalReplay WalLog WalRecovery.
Open Scope Z_scope.

(** ** What the follower accepts *)

(** Readings, and uncompressed statements of the PostgreSQL dialect. *)
Definition followable (en : entry) : Prop :=
  match en with Readings _ | Statement false _ | Direct _ => True | _ => False end.

Definition plain (en : entry) (bs : list Z) : Prop :=
  entry_ok en /\ followable en /\ encode_entry false 0 en = Some (Ok bs).

Abbreviation plain_log := (log_of plain).

Lemma plain_encodes en bs : plain en bs -> encodes en bs.
Proof. intros (Hok & _ & He). split; [done|by exists false, 0%nat]. Qed.

Lemma some_ok_inj {A E} (x y : A) : Some (Ok x) = Some (Ok y : result A E) -> x = y.
Proof. by intros [= ->]. Qed.

(** The frame of a plain entry, and how the follower's switch takes it. *)
Lemma plain_frame en bs : plain en bs -> exists f, frame_fits f /\ is_Some (f_crc f) /\ bs = frame_bytes f /\
  match en with
  | Readings v => f_tag f = Some WAL_V3_TYPE_VOLATILE_INPUTS /\ decode_volatile_inputs (f_payload f) = Some v
  | Statement _ sql => f_tag f = Some WAL_V3_TYPE_AUTO_COMMIT_SQL /\ f_payload f = sql /\ is_str sql
  | Direct sql => f_tag f = None /\ f_payload f = sql /\ is_str sql
  | Marker _ => False
  end.
Proof.
  intros (Hok & Hfo & He). destruct en as [v|[] sql|sql|off]; cbn [followable] in Hfo; [|done| | |done]; cbn [encode_entry] in He.
  - destruct v as [m r]. cbn [encode_wal_volatile_inputs] in He. rewrite encode_v3 in He by (rewrite length_app, !length_le_bytes; split; lia). apply some_ok_inj in He.
    eexists. split; [|split; [|split; [symmetry; exact He|]]]; [|by eexists|].
    + split; [apply is_bytes_app; split; apply le_bytes_bytes|]. split; [cbn [f_payload]; rewrite length_app, !length_le_bytes; split; lia|done].
    + split; [done|]. unfold decode_volatile_inputs. cbn [f_payload]. rewrite length_app, !length_le_bytes. cbn [Nat.add Nat.eqb].
      by apply (f_equal Some), (volatiles_of_readings (m, r)).
  - destruct Hok as (Hs & Hl). unfold encode_wal_auto_commit_sql in He. cbn [negb orb] in He. rewrite encode_v3 in He by (split; lia). apply some_ok_inj in He.
    eexists. split; [|split; [|split; [symmetry; exact He|]]]; [|by eexists|done].
    split; [apply Hs|]. split; [cbn; split; lia|done].
  - destruct Hok as (Hs & Hl). rewrite encode_v2 in He by (split; lia). apply some_ok_inj in He.
    eexists. split; [|split; [|split; [symmetry; exact He|]]]; [|by eexists|done].
    split; [apply Hs|]. split; [cbn; split; lia|done].
Qed.

(** The word, header length and payload length of a frame in the stream. *)
Lemma frame_word f : frame_fits f -> is_Some (f_crc f) ->
  let raw := le_val (take 4 (frame_bytes f)) in
  u32 raw /\ is_v2 raw = true /\ is_v3 raw = bool_decide (f_tag f <> None) /\ rec_len raw = length (f_payload f) /\
  (if is_v3 raw then 9 else if is_v2 raw then 8 else 4)%nat = f_header_len f.
Proof.
  intros (Hp & Hl & Ht) [? Hs]. destruct f as [p|p|t p]; [done| |]; cbn [f_payload f_tag f_header_len] in *.
  - destruct (v2_word _ (in_w_mono 30 31 _ Hl ltac:(lia))) as (Hu & Hv2 & Hv3 & Hr). rewrite (testbit_30_small _ Hl) in Hv3, Hr.
    rewrite Z.mod_small in Hr by by apply (in_w_mono 30 31).
    unfold frame_bytes. cbn [frame_with f_payload]. rewrite take_app_length' by by rewrite length_le_bytes. rewrite le_val_le_bytes_id by done. cbv zeta. rewrite Hv2, Hv3, Hr, Nat2Z.id. split_and!; done || apply Hu.
  - destruct (v3_word _ Hl) as (Hu & Hv2 & Hv3 & Hr).
    unfold frame_bytes. cbn [frame_with f_payload]. rewrite take_app_length' by by rewrite length_le_bytes. rewrite le_val_le_bytes_id by done. cbv zeta. rewrite Hv2, Hv3, Hr, Nat2Z.id. split_and!; done || apply Hu.
Qed.

Section Follower.
Context {Eng : Type} {RE : ReplayEngine Eng}.
Implicit Types (e : Eng) (v : option volatiles).

Definition advance (off : Z) (n : nat) : Z := Z.min (off + Z.of_nat n) (2 ^ 64 - 1).

(** One turn on a whole frame. *)
Lemma follower_turn fuel pre f rest e v off : frame_fits f -> is_Some (f_crc f) ->
  follower_loop (S fuel) (pre ++ frame_bytes f ++ rest) (length pre) e v off =
  let loop e v := follower_loop fuel (pre ++ frame_bytes f ++ rest) (length (pre ++ frame_bytes f)) e v (advance off (length (frame_bytes f))) in
  let apply := match from_utf8 (f_payload f) NonUtf8Sql with
               | Err er => Some (e, Err er)
               | Ok sql => let '(e', ok) := apply_replicated e sql v in
                           if ok : bool then loop e' None else Some (e', Err ApplyRejected)
               end in
  match f_tag f with
  | Some t => if t =? WAL_V3_TYPE_AUTO_COMMIT_SQL then apply
              else if t =? WAL_V3_TYPE_VOLATILE_INPUTS then loop e (decode_volatile_inputs (f_payload f))
              else Some (e, Err (UnknownType (length pre) t))
  | None => apply
  end.
Proof.
  intros Hf Hs. destruct (frame_word f Hf Hs) as (Hu & Hv2 & Hv3 & Hr & Hh). pose proof (length_frame f) as Hl.
  assert (Hw : index_le 4 (length pre) (pre ++ frame_bytes f ++ rest) = Some (le_val (take 4 (frame_bytes f)))).
  { rewrite index_le_in by (rewrite !length_app, Hl; destruct f; cbn; lia). f_equal. f_equal. rewrite slice_app_skip by done.
    apply take_app_le. rewrite Hl. destruct f; cbn; lia. }
  cbn [follower_loop]. rewrite (proj2 (Nat.ltb_ge _ _)) by (rewrite !length_app, Hl; destruct f; cbn; lia).
  rewrite Hw. cbn [mbind option_bind]. rewrite Hh, Hr, Hv2.
  rewrite (proj2 (Nat.ltb_ge _ _)) by (rewrite !length_app, Hl; lia). rewrite own_payload. cbn [mbind option_bind].
  assert (Hnext : (length pre + (f_header_len f + length (f_payload f)))%nat = length (pre ++ frame_bytes f)) by (rewrite length_app, Hl; lia).
  rewrite Hnext, <- Hl. fold (advance off (length (frame_bytes f))).
  assert (Hc : index_le 4 (length pre + 4) (pre ++ frame_bytes f ++ rest) = f_crc f).
  { unfold frame_bytes. rewrite (frame_with_parts _ f Hs), (f_crc_covered f Hs). cbn [default id].
    apply (index_le_field 4 _ _ (pre ++ f_word f) (f_covered f ++ rest)); [by rewrite <- !app_assoc|by rewrite length_app, length_f_word|by apply crc32_u32, covered_bytes]. }
  rewrite Hc. clear Hc Hw Hr Hnext. destruct f as [p|p|t p]; [by destruct Hs| |]; cbn [f_crc f_tag f_payload] in *; rewrite Hv3; cbn [mbind option_bind].
  - change (bool_decide (None <> None)) with false. cbv iota. cbn [mbind option_bind]. rewrite Z.eqb_refl. cbn [negb mbind option_bind]. done.
  - change (bool_decide (Some t <> None)) with true. cbv iota.
    assert ((pre ++ frame_bytes (F3 t p) ++ rest) !! (length pre + 8)%nat = Some t) as Ht.
    { unfold frame_bytes. rewrite (frame_with_parts _ (F3 t p)) by by eexists. cbn [f_covered f_crc default]. rewrite !app_assoc.
      rewrite <- (app_assoc _ p rest), <- (app_assoc _ [t]). cbn [app]. apply list_lookup_middle. rewrite !length_app, length_f_word, length_le_bytes. lia. }
    rewrite Ht. cbn [mbind option_bind]. rewrite Z.eqb_refl. cbn [negb mbind option_bind]. done.
Qed.

(** The run of plain entries, as long as the engine accepts them: an entry a
    connection logged itself takes the readings before it. *)
Definition follow_entry (s : Eng * option volatiles) (en : entry) : option (Eng * option volatiles) :=
  match en with
  | Readings r => Some (s.1, Some r)
  | Statement _ sql | Direct sql =>
    let '(e, ok) := apply_replicated s.1 sql s.2 in if ok : bool then Some (e, None) else None
  | Marker _ => None
  end.

Fixpoint follow_log (es : list entry) (s : Eng * option volatiles) : option (Eng * option volatiles) :=
  match es with
  | [] => Some s
  | en :: es => let! s := follow_entry s en in follow_log es s
  end.

Lemma follow_log_app es1 es2 s : follow_log (es1 ++ es2) s = let! s := follow_log es1 s in follow_log es2 s.
Proof.
  revert s. induction es1 as [|en es1 IH]; intros s; [done|]. cbn [app follow_log].
  destruct (follow_entry s en); cbn [mbind option_bind]; [apply IH|done].
Qed.

Lemma follower_loop_log es L fuel pre rest e v off e' v' : plain_log es L -> follow_log es (e, v) = Some (e', v') ->
  0 <= off -> off + Z.of_nat (length L) < 2 ^ 64 -> (length L + length rest <= fuel)%nat ->
  exists fuel', (length rest <= fuel')%nat /\
    follower_loop fuel (pre ++ L ++ rest) (length pre) e v off =
    follower_loop fuel' ((pre ++ L) ++ rest) (length (pre ++ L)) e' v' (off + Z.of_nat (length L)).
Proof.
  intros HL. revert fuel pre e v off. induction HL as [|en bs es L Hen HL IH]; intros fuel pre e v off Hrun H0 H64 Hfuel.
  - cbn in Hrun. injection Hrun as <- <-. exists fuel. split; [lia|]. rewrite app_nil_r. cbn [length Z.of_nat]. by rewrite Z.add_0_r.
  - destruct (plain_frame _ _ Hen) as (f & Hf & Hs & -> & Hen'). pose proof (length_frame f) as Hl.
    assert (H4 : (4 <= f_header_len f)%nat) by (destruct f; cbn; lia). rewrite length_app in H64, Hfuel.
    destruct fuel as [|fuel]; [lia|]. rewrite <- (app_assoc _ L rest), follower_turn by done.
    assert (Hadv : advance off (length (frame_bytes f)) = off + Z.of_nat (length (frame_bytes f))) by (unfold advance; lia). rewrite Hadv. cbv zeta.
    assert (Hstep : exists e1 v1, follow_entry (e, v) en = Some (e1, v1) /\ follow_log es (e1, v1) = Some (e', v')).
    { cbn [follow_log] in Hrun. destruct (follow_entry (e, v) en) as [[e1 v1]|]; cbn [mbind option_bind] in Hrun; [|done]. by exists e1, v1. }
    destruct Hstep as (e1 & v1 & Hstep & Hrest).
    destruct (IH fuel (pre ++ frame_bytes f) e1 v1 (off + Z.of_nat (length (frame_bytes f))) Hrest ltac:(lia) ltac:(lia) ltac:(lia)) as (fuel' & Hfuel' & E).
    exists fuel'. split; [done|]. rewrite (app_assoc pre (frame_bytes f) L), (length_app (frame_bytes f) L), Nat2Z.inj_add, Z.add_assoc, <- E.
    rewrite <- (app_assoc pre (frame_bytes f) (L ++ rest)). clear E.
    assert (Happly : forall sql, apply_replicated e sql v = (e1, true) -> v1 = None -> is_str sql -> f_payload f = sql ->
      match from_utf8 (f_payload f) NonUtf8Sql with
      | Err er => Some (e, Err er)
      | Ok sql => let '(e2, ok) := apply_replicated e sql v in
        if ok : bool then follower_loop fuel (pre ++ frame_bytes f ++ L ++ rest) (length (pre ++ frame_bytes f)) e2 None (off + Z.of_nat (length (frame_bytes f)))
        else Some (e2, Err ApplyRejected)
      end = follower_loop fuel (pre ++ frame_bytes f ++ L ++ rest) (length (pre ++ frame_bytes f)) e1 v1 (off + Z.of_nat (length (frame_bytes f)))).
    { intros sql Ha -> Hsql ->. by rewrite from_utf8_str, Ha. }
    destruct en as [r|m sql|sql|o]; cbn [follow_entry fst snd] in Hstep.
    + destruct Hen' as (-> & ->). by injection Hstep as <- <-.
    + destruct Hen' as (-> & Hp & Hsql). destruct (apply_replicated e sql v) as [e2 []] eqn:Ea; [|done]. injection Hstep as <- <-. by apply (Happly sql).
    + destruct Hen' as (-> & Hp & Hsql). destruct (apply_replicated e sql v) as [e2 []] eqn:Ea; [|done]. injection Hstep as <- <-. by apply (Happly sql).
    + done.
Qed.

(** A cut frame waits for the rest of its bytes. *)
Lemma follower_loop_torn fuel pre f k e v off : frame_fits f -> is_Some (f_crc f) -> (k < length (frame_bytes f))%nat -> (k <= fuel)%nat ->
  follower_loop fuel (pre ++ take k (frame_bytes f)) (length pre) e v off = Some (e, Ok (length pre, v, off)).
Proof.
  intros Hf Hs Hk Hfuel. destruct (frame_word f Hf Hs) as (Hu & Hv2 & Hv3 & Hr & Hh).
  destruct fuel as [|fuel]; cbn [follower_loop].
  { by rewrite (proj2 (Nat.ltb_lt _ _)) by (rewrite length_app, length_take; lia). }
  destruct (decide (k < 4)%nat) as [H4|H4].
  { by rewrite (proj2 (Nat.ltb_lt _ _)) by (rewrite length_app, length_take; lia). }
  rewrite (proj2 (Nat.ltb_ge _ _)) by (rewrite length_app, length_take; lia).
  rewrite (index_le_in 4 (length pre)) by (rewrite length_app, length_take; lia). rewrite slice_app_skip, take_take by done.
  replace (4 `min` k)%nat with 4%nat by lia. cbn [mbind option_bind]. rewrite Hh, Hr.
  rewrite length_frame in Hk. by rewrite (proj2 (Nat.ltb_lt _ _)) by (rewrite length_app, length_take; lia).
Qed.
End Follower.

(** ** Chunks *)

(** The stream so far ends inside an entry. *)
Definition plain_torn (t : list Z) : Prop := exists en bs k, plain en bs /\ (k < length bs)%nat /\ t = take k bs.

Section Chunks.
Context {Eng : Type} {RE : ReplayEngine Eng}.

Lemma receive_log es L t f c chunk e' v' :
  plain_log es L -> plain_torn t -> c_pending c ++ chunk = L ++ t ->
  follow_log es (f_engine f, c_volatiles c) = Some (e', v') ->
  0 <= c_applied_offset c -> c_applied_offset c + Z.of_nat (length L) < 2 ^ 64 ->
  let off := c_applied_offset c + Z.of_nat (length L) in
  follower_receive f c chunk = Some (mk_follower e' off, Ok (mk_connection t v' off)).
Proof.
  intros HL (en & bs & k & Hen & Hk & ->) Hc Hrun H0 H64 off. unfold follower_receive. rewrite Hc.
  destruct (plain_frame _ _ Hen) as (fr & Hf & Hs & -> & _).
  destruct (follower_loop_log es L (length (L ++ take k (frame_bytes fr))) [] (take k (frame_bytes fr)) _ _ (c_applied_offset c) _ _ HL Hrun H0 H64 ltac:(rewrite length_app; lia)) as (fuel' & Hfuel & E).
  cbn [app length] in E. rewrite E. rewrite length_take in Hfuel.
  rewrite follower_loop_torn by (done || lia). cbn [mbind option_bind]. by rewrite drop_app_length.
Qed.

Lemma follow_log_prefix es1 es2 s s' : follow_log (es1 ++ es2) s = Some s' ->
  exists s1, follow_log es1 s = Some s1 /\ follow_log es2 s1 = Some s'.
Proof. rewrite follow_log_app. destruct (follow_log es1 s) as [s1|]; cbn [mbind option_bind]; [eauto|done]. Qed.

Lemma chunks_log chunks : forall es L t (f : follower Eng) c e' v', chunks <> [] ->
  plain_log es L -> plain_torn t -> c_pending c ++ concat chunks = L ++ t ->
  follow_log es (f_engine f, c_volatiles c) = Some (e', v') ->
  0 <= c_applied_offset c -> c_applied_offset c + Z.of_nat (length L) < 2 ^ 64 ->
  let off := c_applied_offset c + Z.of_nat (length L) in
  follow_chunks f c chunks = Some (mk_follower e' off, Ok (mk_connection t v' off)).
Proof.
  induction chunks as [|chunk chunks IH]; intros es L t f c e' v' Hne HL Ht Hc Hrun H0 H64 off; [done|]. clear Hne. cbn [follow_chunks concat] in *.
  destruct (decide (chunks = [])) as [->|Hne].
  { cbn [concat] in Hc. rewrite app_nil_r in Hc. by rewrite (receive_log _ _ _ _ _ _ _ _ HL Ht Hc Hrun H0 H64). }
  assert (Hsplit : exists es1 es2 L1 L2 t1, es = es1 ++ es2 /\ L = L1 ++ L2 /\ plain_log es1 L1 /\ plain_log es2 L2 /\ plain_torn t1 /\
    c_pending c ++ chunk = L1 ++ t1 /\ t1 ++ concat chunks = L2 ++ t).
  { set (n := length (c_pending c ++ chunk)). rewrite app_assoc in Hc.
    assert (Hp : c_pending c ++ chunk = take n (L ++ t)) by (rewrite <- Hc; unfold n; by rewrite take_app_length).
    assert (Hd : concat chunks = drop n (L ++ t)) by (rewrite <- Hc; unfold n; by rewrite drop_app_length).
    destruct (decide (n < length L)%nat) as [Hlt|Hge].
    - destruct (log_take _ _ _ _ HL Hlt) as (es1 & es2 & L1 & L2 & en & bs & k & -> & _ & -> & H1 & H2 & Hen & Hk & E).
      exists es1, es2, L1, L2, (take k bs). split_and!; try done; [by exists en, bs, k| |].
      + rewrite Hp, take_app_le by lia. done.
      + apply (app_inv_head L1). rewrite !app_assoc, <- E. rewrite <- (take_app_le _ t) by lia. rewrite Hd. apply take_drop.
    - exists es, [], L, [], (take (n - length L) t). destruct Ht as (en & bs & k & Hen & Hk & ->).
      split_and!; try done; [by rewrite app_nil_r|by rewrite app_nil_r|constructor| | |].
      + exists en, bs, ((n - length L) `min` k)%nat. split; [done|]. split; [lia|]. by rewrite take_take.
      + rewrite Hp, take_app_ge by lia. done.
      + rewrite Hd, drop_app_ge by lia. apply take_drop. }
  destruct Hsplit as (es1 & es2 & L1 & L2 & t1 & -> & -> & H1 & H2 & Ht1 & Ec & Er).
  apply follow_log_prefix in Hrun as ([e1 v1] & Hr1 & Hr2). rewrite length_app in H64.
  rewrite (receive_log _ _ _ _ _ _ _ _ H1 Ht1 Ec Hr1 H0) by lia. cbn [mbind option_bind].
  unfold off. rewrite length_app, Nat2Z.inj_add, Z.add_assoc. apply (IH es2 L2 t); try done; cbn; lia.
Qed.

(** An entry of another kind ends the connection. *)
Lemma receive_stops es L fr rest f c e' v' tag :
  plain_log es L -> follow_log es (f_engine f, c_volatiles c) = Some (e', v') -> c_pending c = [] ->
  frame_fits fr -> f_tag fr = Some tag ->
  tag <> WAL_V3_TYPE_AUTO_COMMIT_SQL -> tag <> WAL_V3_TYPE_VOLATILE_INPUTS ->
  0 <= c_applied_offset c -> c_applied_offset c + Z.of_nat (length L) < 2 ^ 64 ->
  follower_receive f c (L ++ frame_bytes fr ++ rest) = Some (mk_follower e' (f_applied_pos f), Err (UnknownType (length L) tag)).
Proof.
  intros HL Hrun Hp Hf Ht Ht1 Ht2 H0 H64. unfold follower_receive. rewrite Hp. cbn [app].
  destruct (follower_loop_log es L (length (L ++ frame_bytes fr ++ rest)) [] (frame_bytes fr ++ rest) _ _ (c_applied_offset c) _ _ HL Hrun H0 H64 ltac:(rewrite !length_app; lia)) as (fuel' & Hfuel & E).
  cbn [app length] in E. rewrite E. rewrite length_app, length_frame in Hfuel. destruct fuel' as [|fuel']; [destruct fr; cbn in Hfuel; lia|].
  rewrite follower_turn by (done || by destruct fr). rewrite Ht. cbv zeta.
  apply Z.eqb_neq in Ht1 as ->. apply Z.eqb_neq in Ht2 as ->. done.
Qed.
End Chunks.

(** ** The properties *)

(** Replication does not depend on the chunks.  For a stream of readings
    and PostgreSQL statements, cut into chunks anywhere (inside headers,
    payloads, between a statement and its readings), with an incomplete entry
    at its end: the follower's engine, the position it stores, the bytes it
    keeps and the readings it holds are those of the whole stream in one
    piece, as long as the engine accepts the statements. *)
Lemma follower_ignores_chunks {Eng : Type} {RE : ReplayEngine Eng} chunks es L t (f : follower Eng) e' v' :
  plain_log es L -> plain_torn t -> concat chunks = L ++ t -> chunks <> [] ->
  follow_log es (f_engine f, None) = Some (e', v') ->
  0 <= f_applied_pos f -> f_applied_pos f + Z.of_nat (length L) < 2 ^ 64 ->
  let off := f_applied_pos f + Z.of_nat (length L) in
  follow_once f chunks = Some (mk_follower e' off, Ok (mk_connection t v' off)).
Proof. intros HL Ht Hc Hne Hrun H0 H64. unfold follow_once. by apply (chunks_log chunks es L t). Qed.

(** An entry the follower does not know ends the connection after the
    statements before it ran and before its position is stored.  A durability
    marker, a MySQL statement, a compressed one: every reconnection runs the
    statements of that chunk again, and stops again. *)
Lemma follower_runs_twice {Eng : Type} {RE : ReplayEngine Eng} es L fr rest tag (f : follower Eng) e1 v1 e2 v2 :
  plain_log es L -> frame_fits fr -> f_tag fr = Some tag ->
  tag = WAL_V3_TYPE_DURABILITY_CHECKPOINT \/ tag = WAL_V3_TYPE_MYSQL_SQL \/ tag = WAL_V3_TYPE_COMPRESSED_SQL ->
  follow_log es (f_engine f, None) = Some (e1, v1) -> follow_log es (e1, None) = Some (e2, v2) ->
  0 <= f_applied_pos f -> f_applied_pos f + Z.of_nat (length L) < 2 ^ 64 ->
  let f1 := mk_follower e1 (f_applied_pos f) in
  follow_once f [L ++ frame_bytes fr ++ rest] = Some (f1, Err (UnknownType (length L) tag)) /\
  follow_once f1 [L ++ frame_bytes fr ++ rest] = Some (mk_follower e2 (f_applied_pos f), Err (UnknownType (length L) tag)).
Proof.
  intros HL Hfr Ht Htag H1 H2 H0 H64 f1.
  assert (Hs : tag <> WAL_V3_TYPE_AUTO_COMMIT_SQL /\ tag <> WAL_V3_TYPE_VOLATILE_INPUTS) by (destruct Htag as [-> | [-> | ->]]; done).
  destruct Hs as [Hs1 Hs2]. unfold follow_once. cbn [follow_chunks].
  rewrite (receive_stops es L fr rest f (follow_connect f) e1 v1 tag) by done.
  rewrite (receive_stops es L fr rest f1 (follow_connect f1) e2 v2 tag) by done. done.
Qed.

Lemma follower_runs_twice_example :
  let L := frame_bytes (F3 1 [0x41]) in let bs := frame_bytes (F3 2 (le_bytes 8 0)) in
  follow_once (mk_follower ([([0x41], None, false)], false) 7) [L ++ bs ++ []] =
    Some (mk_follower ([([0x41], None, false); ([0x41], None, false)], false) 7, Err (UnknownType 10 2)).
Proof.
  intros L bs.
  assert (Hp : plain (Statement false [0x41]) L) by (split; [split; [by repeat constructor|cbn; lia]|by split]).
  apply (follower_runs_twice [Statement false [0x41]] L (F3 2 (le_bytes 8 0)) [] 2 (mk_follower idle 7) ([([0x41], None, false)], false) None
    ([([0x41], None, false); ([0x41], None, false)], false) None).
  - rewrite <- (app_nil_r L). by constructor; [|constructor].
  - split; [apply le_bytes_bytes|split; [split; cbn; lia|done]].
  - reflexivity.
  - by left.
  - reflexivity.
  - reflexivity.
  - cbn; lia.
  - reflexivity.
Defined.

(** ** The offline tools *)

(** What they make of a v3 frame. *)
Lemma decode_one_v3 tag p rest : frame_fits (F3 tag p) ->
  decode_one_record (frame_bytes (F3 tag p) ++ rest) =
  let n := (9 + length p)%nat in
  if tag =? 0x01 then Some (Ok (p, n))
  else if tag =? 0x02 then Some (Ok ([], n))
  else if tag =? 0x03 then
    match p with
    | [] => Some (Err (EmptyPayload 0))
    | algo :: compressed =>
      if negb (algo =? 0x01) then Some (Err (UnknownAlgo 0 algo))
      else
        let! r := decompress compressed in
        Some (match r with Ok out => Ok (out, n) | Err e => Err (LzssFailed 0 e) end)
    end
  else Some (Err (UnknownType 0 tag)).
Proof.
  intros Hf. set (f := F3 tag p) in *. assert (Hs : is_Some (f_crc f)) by by eexists.
  destruct (frame_word f Hf Hs) as (Hu & Hv2 & Hv3 & Hr & Hh). pose proof (length_frame f) as Hl.
  assert (H9 : f_header_len f = 9%nat) by done. unfold decode_one_record.
  rewrite (proj2 (Nat.ltb_ge _ _)) by (rewrite length_app; lia). rewrite (take_app_le (frame_bytes f)) by lia. cbv zeta. rewrite Hh, Hr.
  rewrite (proj2 (Nat.ltb_ge _ _)) by (rewrite length_app; lia). rewrite Hv3. change (bool_decide (f_tag f <> None)) with true. cbv iota.
  pose proof (own_payload f [] rest) as Hp. cbn [length app Nat.add] in Hp. rewrite subslice_in in Hp by (rewrite ?length_app; lia).
  apply (inj Some) in Hp. rewrite Nat.add_comm, Nat.add_sub in Hp. change (f_payload f) with p in *. rewrite Hp.
  assert ((frame_bytes f ++ rest) !! 8%nat = Some tag) as ->.
  { unfold frame_bytes. rewrite (frame_with_parts _ f) by done. cbn [f_covered f]. rewrite !app_assoc.
    rewrite <- (app_assoc _ p rest), <- (app_assoc _ [tag]). cbn [app]. apply list_lookup_middle. by rewrite !length_app, length_f_word, length_le_bytes. }
  cbn [mbind option_bind]. rewrite H9. done.
Qed.

(** [spg lint] and [spg revert] stop at the readings that the group commit
    writes before every statement that has them. *)
Lemma lint_refuses_readings {Eng} {RE : ReplayEngine Eng} v bs rest (e : Eng) : encodes (Readings v) bs ->
  wal_lint (bs ++ rest) e = Some (Err (0%nat, UnknownType 0 WAL_V3_TYPE_VOLATILE_INPUTS)) /\
  forall to_seq, 0 < to_seq -> wal_revert (bs ++ rest) to_seq e = Some (e, Err (UnknownType 0 WAL_V3_TYPE_VOLATILE_INPUTS)).
Proof.
  intros (Hv & en & th & He). assert (Hpl : plain (Readings v) bs) by (split; [done|split; [done|exact He]]).
  destruct (plain_frame _ _ Hpl) as (f & Hf & Hs & -> & Ht & _). destruct f as [p|p|t p]; [done..|]. injection Ht as ->.
  set (f := F3 WAL_V3_TYPE_VOLATILE_INPUTS p) in *. pose proof (length_frame f) as Hl. assert (H9 : f_header_len f = 9%nat) by done.
  assert (exists n, length (frame_bytes f ++ rest) = S n) as [n Hn] by (rewrite length_app; exists (length (frame_bytes f) + length rest - 1)%nat; lia).
  unfold wal_lint, wal_revert. rewrite Hn. cbn [wal_lint_loop wal_revert_loop]. rewrite Hn, drop_0.
  unfold f. rewrite decode_one_v3 by done. cbn [mbind option_bind]. split; [done|].
  intros to_seq Hto. by rewrite (proj2 (Z.ltb_lt _ _)).
Qed.

(** [spg lint] runs the empty statement for a marker, which replay and
    [spg revert] skip. *)
Lemma lint_executes_marker {Eng} {RE : ReplayEngine Eng} off bs (e : Eng) :
  encode_durability_marker off = Ok bs -> u64 off -> (execute e []).2 = false ->
  wal_lint bs e = Some (Err (0%nat, ApplyRejected)) /\
  replay_wal_bytes_reporting bs e = Some (e, Ok (mk_replay 0 (length bs))).
Proof.
  intros Hbs Ho He. assert (Hlog : is_log [Marker off] bs).
  { apply is_log_one. split; [done|]. exists false, 0%nat. cbn [encode_entry]. by rewrite Hbs. }
  split; [|by rewrite (replay_whole_log _ _ _ Hlog)].
  unfold encode_durability_marker in Hbs. rewrite encode_v3 in Hbs by (rewrite length_le_bytes; split; lia).
  apply (f_equal Some), some_ok_inj in Hbs as <-. set (f := F3 _ _). pose proof (length_frame f) as Hl. cbn [f_payload f f_header_len] in Hl.
  rewrite length_le_bytes in Hl. assert (exists n, length (frame_bytes f) = S n) as [n Hn] by (exists 16%nat; done).
  unfold wal_lint. rewrite Hn. cbn [wal_lint_loop]. rewrite Hn, drop_0. cbn [Nat.ltb Nat.leb].
  rewrite <- (app_nil_r (frame_bytes f)). unfold f. rewrite decode_one_v3 by (split; [apply le_bytes_bytes|split; [cbn [f_payload]; rewrite length_le_bytes; split; lia|done]]).
  change (WAL_V3_TYPE_DURABILITY_CHECKPOINT =? 1) with false. change (WAL_V3_TYPE_DURABILITY_CHECKPOINT =? 2) with true. cbv zeta iota.
  cbn [mbind option_bind]. change (from_utf8 [] NonUtf8Sql) with (@Ok (list Z) wal_error []). cbv iota.
  destruct (execute e []) as [e' ok]. cbn [snd] in He. by subst ok.
Qed.
