(* ===== verification/Wire.v ===== *)
(** The native wire protocol (crates/spg-wire/src/lib.rs): frames, the value
    codec, and the payloads of each opcode.  A string is its UTF-8 bytes, an
    [f64] or [f32] its bit pattern, an [i32] or [i64] a signed [Z].  The parsers
    are those of a release build (a [debug_assert!] on the opcode is not a
    check), and offsets are naturals: an offset is at most the buffer's length,
    so that the [checked_add] of a [u32] length to it never fails on a 64-bit
    machine. *)
From S2P Require Import Prelude Bytes.
Open Scope Z_scope.

Definition FRAME_HEADER_LEN : nat := 5.
Definition MAX_PAYLOAD : Z := 16 * 1024 * 1024.

Inductive FrameError : Type :=
| ShortHeader
| ShortPayload
| PayloadTooLarge (n : Z)
| UnknownOp (b : Z)
| TruncatedPayload
| InvalidUtf8
| UnknownWireType (b : Z)
| FieldTooLarge.

(** ** Frames *)

Inductive Op : Type :=
| Ping | Pong | Auth | AuthUser | Query | RowDescription | DataRow | CommandComplete | ErrorResponse
| Stats | StatsResponse | DataRowBatch | Error.

(** [op as u8]. *)
Definition op_byte (op : Op) : Z :=
  match op with
  | Ping => 0x00 | Pong => 0x01 | Auth => 0x02 | AuthUser => 0x03 | Query => 0x10 | RowDescription => 0x11
  | DataRow => 0x12 | CommandComplete => 0x13 | ErrorResponse => 0x14 | Stats => 0x15 | StatsResponse => 0x16
  | DataRowBatch => 0x17 | Error => 0xFF
  end.

Definition op_from_byte (b : Z) : result Op FrameError :=
  if b =? 0x00 then Ok Ping else if b =? 0x01 then Ok Pong else if b =? 0x02 then Ok Auth
  else if b =? 0x03 then Ok AuthUser else if b =? 0x10 then Ok Query else if b =? 0x11 then Ok RowDescription
  else if b =? 0x12 then Ok DataRow else if b =? 0x13 then Ok CommandComplete else if b =? 0x14 then Ok ErrorResponse
  else if b =? 0x15 then Ok Stats else if b =? 0x16 then Ok StatsResponse else if b =? 0x17 then Ok DataRowBatch
  else if b =? 0xFF then Ok Error else Err (UnknownOp b).

Record Frame : Type := mk_frame { op : Op; payload : list Z }.

Definition ping : Frame := mk_frame Ping [].
Definition pong : Frame := mk_frame Pong [].
Definition error (message : list Z) : Frame := mk_frame Error message.

(** What is left in [out], and the result. *)
Definition encode (frame : Frame) (out : list Z) : list Z * result () FrameError :=
  let n := Z.of_nat (length (payload frame)) in
  if negb (n <? 2 ^ 32) then (out, Err (PayloadTooLarge (2 ^ 32 - 1)))
  else if MAX_PAYLOAD <? n then (out, Err (PayloadTooLarge n))
  else (((out ++ le_bytes 4 n) ++ [op_byte (op frame)]) ++ payload frame, Ok ()).

Definition decode (buf : list Z) : result (Frame * nat) FrameError :=
  if (length buf <? FRAME_HEADER_LEN)%nat then Err ShortHeader
  else
    let len := le_val (slice 0 4 buf) in
    if MAX_PAYLOAD <? len then Err (PayloadTooLarge len)
    else
      let? op := op_from_byte (buf !!! 4%nat) in
      let payload_end := (FRAME_HEADER_LEN + Z.to_nat len)%nat in
      if (length buf <? payload_end)%nat then Err ShortPayload
      else Ok (mk_frame op (slice FRAME_HEADER_LEN (payload_end - FRAME_HEADER_LEN) buf), payload_end).

(** ** Values *)

Inductive WireType : Type := TNull | TInt | TBigInt | TFloat | TText | TBool | TVector.

Definition type_byte (t : WireType) : Z :=
  match t with
  | TNull => 0x00 | TInt => 0x01 | TBigInt => 0x02 | TFloat => 0x03 | TText => 0x04 | TBool => 0x05 | TVector => 0x06
  end.

Definition type_from_byte (b : Z) : result WireType FrameError :=
  if b =? 0x00 then Ok TNull else if b =? 0x01 then Ok TInt else if b =? 0x02 then Ok TBigInt
  else if b =? 0x03 then Ok TFloat else if b =? 0x04 then Ok TText else if b =? 0x05 then Ok TBool
  else if b =? 0x06 then Ok TVector else Err (UnknownWireType b).

Inductive WireValue : Type :=
| Null
| Int (n : Z)
| BigInt (n : Z)
| Float (bits : Z)
| Text (s : list Z)
| Bool (b : bool)
| Vector (v : list Z).

Definition wire_type (v : WireValue) : WireType :=
  match v with
  | Null => TNull | Int _ => TInt | BigInt _ => TBigInt | Float _ => TFloat | Text _ => TText | Bool _ => TBool
  | Vector _ => TVector
  end.

Definition bool_byte (b : bool) : Z := if b then 1 else 0.

Definition encode_value (v : WireValue) (out : list Z) : list Z * result () FrameError :=
  let out := out ++ [type_byte (wire_type v)] in
  match v with
  | Null => (out, Ok ())
  | Int n => (out ++ le_bytes 4 (wrap 32 n), Ok ())
  | BigInt n => (out ++ le_bytes 8 (wrap 64 n), Ok ())
  | Float x => (out ++ le_bytes 8 x, Ok ())
  | Text s =>
    let len := Z.of_nat (length s) in
    if negb (len <? 2 ^ 32) then (out, Err FieldTooLarge)
    else ((out ++ le_bytes 4 len) ++ s, Ok ())
  | Bool b => (out ++ [bool_byte b], Ok ())
  | Vector v =>
    let dim := Z.of_nat (length v) in
    if negb (dim <? 2 ^ 32) then (out, Err FieldTooLarge)
    else (fold_left (fun out x => out ++ le_bytes 4 x) v (out ++ le_bytes 4 dim), Ok ())
  end.

(** *** The cursor helpers *)

Definition read_u8 (buf : list Z) (off : nat) : result (Z * nat) FrameError :=
  if (length buf <=? off)%nat then Err TruncatedPayload else Ok (buf !!! off, (off + 1)%nat).

(** [read_u16], [read_u32] and [read_u64] by their width in bytes. *)
Definition read_le (n : nat) (buf : list Z) (off : nat) : result (Z * nat) FrameError :=
  let end_ := (off + n)%nat in
  if (length buf <? end_)%nat then Err TruncatedPayload
  else Ok (le_val (slice off n buf), end_).

Definition read_u16 := read_le 2.
Definition read_u32 := read_le 4.
Definition read_u64 := read_le 8.

Definition read_i32 (buf : list Z) (off : nat) : result (Z * nat) FrameError :=
  let? (n, end_) := read_le 4 buf off in Ok (signed 32 n, end_).
Definition read_i64 (buf : list Z) (off : nat) : result (Z * nat) FrameError :=
  let? (n, end_) := read_le 8 buf off in Ok (signed 64 n, end_).
Definition read_f64 (buf : list Z) (off : nat) : result (Z * nat) FrameError := read_le 8 buf off.

(** [for _ in 0..dim]. *)
Fixpoint read_floats (dim : nat) (buf : list Z) (off : nat) (v : list Z) : result (list Z * nat) FrameError :=
  match dim with
  | O => Ok (v, off)
  | S dim =>
    let end_ := (off + 4)%nat in
    if (length buf <? end_)%nat then Err TruncatedPayload
    else read_floats dim buf end_ (v ++ [le_val (slice off 4 buf)])
  end.

Definition decode_value (buf : list Z) (off : nat) : result (WireValue * nat) FrameError :=
  let? (tag, off) := read_u8 buf off in
  let? ty := type_from_byte tag in
  match ty with
  | TNull => Ok (Null, off)
  | TInt => let? (n, off) := read_i32 buf off in Ok (Int n, off)
  | TBigInt => let? (n, off) := read_i64 buf off in Ok (BigInt n, off)
  | TFloat => let? (x, off) := read_f64 buf off in Ok (Float x, off)
  | TText =>
    let? (len, off) := read_u32 buf off in
    let end_ := (off + Z.to_nat len)%nat in
    if (length buf <? end_)%nat then Err TruncatedPayload
    else let? s := from_utf8 (slice off (end_ - off) buf) InvalidUtf8 in Ok (Text s, end_)
  | TBool => let? (b, off) := read_u8 buf off in Ok (Bool (negb (b =? 0)), off)
  | TVector =>
    let? (dim, off) := read_u32 buf off in
    let? (v, off) := read_floats (Z.to_nat dim) buf off [] in
    Ok (Vector v, off)
  end.

(** ** The payload of each opcode *)

Record ColumnDesc : Type := mk_column { name : list Z; ty : WireType; nullable : bool }.

(** [u16::try_from(n).map_err(|_| FieldTooLarge)]. *)
Definition to_u16 (n : nat) : result Z FrameError :=
  if Z.of_nat n <? 2 ^ 16 then Ok (Z.of_nat n) else Err FieldTooLarge.

(** [for v in values { v.encode(&mut p)?; }] *)
Fixpoint encode_values (values : list WireValue) (p : list Z) : result (list Z) FrameError :=
  match values with
  | [] => Ok p
  | v :: values => let '(p, r) := encode_value v p in let? _ := r in encode_values values p
  end.

(** [for _ in 0..count { let (v, next) = WireValue::decode(buf, off)?; .. }] *)
Fixpoint decode_values (count : nat) (buf : list Z) (off : nat) (out : list WireValue) : result (list WireValue * nat) FrameError :=
  match count with
  | O => Ok (out, off)
  | S count => let? (v, next) := decode_value buf off in decode_values count buf next (out ++ [v])
  end.

Definition build_query (sql : list Z) : Frame := mk_frame Query sql.
Definition parse_query (frame : Frame) : result (list Z) FrameError := from_utf8 (payload frame) InvalidUtf8.
Definition build_auth (password : list Z) : Frame := mk_frame Auth password.
Definition parse_auth (frame : Frame) : result (list Z) FrameError := from_utf8 (payload frame) InvalidUtf8.

Definition build_auth_user (user password : list Z) : result Frame FrameError :=
  let? user_len := to_u16 (length user) in
  let p := le_bytes 2 user_len in
  let p := p ++ user in
  let p := p ++ password in
  Ok (mk_frame AuthUser p).

Definition parse_auth_user (frame : Frame) : result (list Z * list Z) FrameError :=
  if (length (payload frame) <? 2)%nat then Err TruncatedPayload
  else
    let user_len := Z.to_nat (le_val (slice 0 2 (payload frame))) in
    if (length (payload frame) <? 2 + user_len)%nat then Err TruncatedPayload
    else
      let user_bytes := slice 2 user_len (payload frame) in
      let pass_bytes := drop (2 + user_len) (payload frame) in
      let? user := from_utf8 user_bytes InvalidUtf8 in
      let? password := from_utf8 pass_bytes InvalidUtf8 in
      Ok (user, password).

Fixpoint encode_columns (cols : list ColumnDesc) (p : list Z) : result (list Z) FrameError :=
  match cols with
  | [] => Ok p
  | c :: cols =>
    let p := p ++ [type_byte (ty c)] in
    let? name_len := to_u16 (length (name c)) in
    let p := p ++ le_bytes 2 name_len in
    let p := p ++ name c in
    let p := p ++ [bool_byte (nullable c)] in
    encode_columns cols p
  end.

Definition build_row_description (cols : list ColumnDesc) : result Frame FrameError :=
  let? count := to_u16 (length cols) in
  let? p := encode_columns cols (le_bytes 2 count) in
  Ok (mk_frame RowDescription p).

Fixpoint decode_columns (count : nat) (buf : list Z) (off : nat) (cols : list ColumnDesc) : result (list ColumnDesc) FrameError :=
  match count with
  | O => Ok cols
  | S count =>
    let? (ty_byte, o1) := read_u8 buf off in
    let? ty := type_from_byte ty_byte in
    let? (name_len, o2) := read_u16 buf o1 in
    let end_ := (o2 + Z.to_nat name_len)%nat in
    if (length buf <? end_)%nat then Err TruncatedPayload
    else
      let? name := from_utf8 (slice o2 (end_ - o2) buf) InvalidUtf8 in
      let? (nullable_byte, o3) := read_u8 buf end_ in
      decode_columns count buf o3 (cols ++ [mk_column name ty (negb (nullable_byte =? 0))])
  end.

Definition parse_row_description (frame : Frame) : result (list ColumnDesc) FrameError :=
  let buf := payload frame in
  let? (count, off) := read_u16 buf 0 in
  decode_columns (Z.to_nat count) buf off [].

Definition build_data_row (values : list WireValue) : result Frame FrameError :=
  let? count := to_u16 (length values) in
  let? p := encode_values values (le_bytes 2 count) in
  Ok (mk_frame DataRow p).

Definition parse_data_row (frame : Frame) : result (list WireValue) FrameError :=
  let buf := payload frame in
  let? (count, off) := read_u16 buf 0 in
  let? (out, _) := decode_values (Z.to_nat count) buf off [] in
  Ok out.

Fixpoint encode_rows (rows : list (list WireValue)) (p : list Z) : result (list Z) FrameError :=
  match rows with
  | [] => Ok p
  | row :: rows => let? p := encode_values row p in encode_rows rows p
  end.

Definition build_data_row_batch (rows : list (list WireValue)) : result Frame FrameError :=
  let? row_count := to_u16 (length rows) in
  let? cell_count := to_u16 (match rows with row :: _ => length row | [] => 0%nat end) in
  let? p := encode_rows rows (le_bytes 2 row_count ++ le_bytes 2 cell_count) in
  Ok (mk_frame DataRowBatch p).

Fixpoint decode_rows (row_count cell_count : nat) (buf : list Z) (off : nat) (rows : list (list WireValue))
    : result (list (list WireValue)) FrameError :=
  match row_count with
  | O => Ok rows
  | S row_count =>
    let? (row, off) := decode_values cell_count buf off [] in
    decode_rows row_count cell_count buf off (rows ++ [row])
  end.

Definition parse_data_row_batch (frame : Frame) : result (list (list WireValue)) FrameError :=
  let buf := payload frame in
  let? (row_count, off1) := read_u16 buf 0 in
  let? (cell_count, off) := read_u16 buf off1 in
  decode_rows (Z.to_nat row_count) (Z.to_nat cell_count) buf off [].

Definition build_command_complete (affected : Z) : Frame := mk_frame CommandComplete (le_bytes 8 affected).
Definition parse_command_complete (frame : Frame) : result Z FrameError :=
  let? (n, _) := read_u64 (payload frame) 0 in Ok n.

Definition build_error_response (msg : list Z) : Frame := mk_frame ErrorResponse msg.
Definition parse_error_response (frame : Frame) : result (list Z) FrameError := from_utf8 (payload frame) InvalidUtf8.
Definition build_stats_request : Frame := mk_frame Stats [].
Definition build_stats_response (body : list Z) : Frame := mk_frame StatsResponse body.
Definition parse_stats_response (frame : Frame) : result (list Z) FrameError := from_utf8 (payload frame) InvalidUtf8.

(** ** Frames on a stream *)

Lemma op_from_op_byte o : op_from_byte (op_byte o) = Ok o.
Proof. by destruct o. Qed.

Lemma op_from_byte_inv b o : op_from_byte b = Ok o -> b = op_byte o.
Proof. unfold op_from_byte. repeat case_if; by intros [= <-]. Qed.

Lemma type_from_type_byte t : type_from_byte (type_byte t) = Ok t.
Proof. by destruct t. Qed.

Definition frame_ok (f : Frame) : Prop := is_bytes (payload f) /\ Z.of_nat (length (payload f)) <= MAX_PAYLOAD.

Definition frame_bytes (f : Frame) : list Z :=
  le_bytes 4 (Z.of_nat (length (payload f))) ++ [op_byte (op f)] ++ payload f.

Lemma length_frame_bytes f : length (frame_bytes f) = (5 + length (payload f))%nat.
Proof. unfold frame_bytes. rewrite !length_app, length_le_bytes. cbn [length]. lia. Qed.

Lemma encode_ok f out : Z.of_nat (length (payload f)) <= MAX_PAYLOAD -> encode f out = (out ++ frame_bytes f, Ok ()).
Proof.
  intros H. unfold encode. unfold MAX_PAYLOAD in *.
  rewrite (proj2 (Z.ltb_lt _ (2 ^ 32))) by lia. cbn [negb]. rewrite (proj2 (Z.ltb_ge _ _)) by lia.
  unfold frame_bytes. by rewrite <- !app_assoc.
Qed.

(** What [decode] sees of a frame's header. *)
Lemma decode_header f t :
  Z.of_nat (length (payload f)) <= MAX_PAYLOAD ->
  decode (le_bytes 4 (Z.of_nat (length (payload f))) ++ [op_byte (op f)] ++ t) =
  if (length t <? length (payload f))%nat then Err ShortPayload
  else Ok (mk_frame (op f) (take (length (payload f)) t), (5 + length (payload f))%nat).
Proof.
  intros H. unfold decode. set (n := length (payload f)) in *.
  rewrite (proj2 (Nat.ltb_ge _ FRAME_HEADER_LEN)) by (rewrite !length_app, length_le_bytes; unfold FRAME_HEADER_LEN; cbn [length]; lia).
  rewrite slice_app_head by (by rewrite length_le_bytes).
  rewrite le_val_le_bytes_id by (split; [lia|unfold MAX_PAYLOAD in H; cbn; lia]).
  rewrite (proj2 (Z.ltb_ge MAX_PAYLOAD _)) by done.
  rewrite (lookup_total_app_r (le_bytes 4 (Z.of_nat n))) by (rewrite length_le_bytes; lia).
  rewrite length_le_bytes. change (([op_byte (op f)] ++ t) !!! (4 - 4)%nat) with (op_byte (op f)).
  rewrite op_from_op_byte. cbn [rbind]. rewrite Nat2Z.id. rewrite !length_app, length_le_bytes.
  cbn [length]. unfold FRAME_HEADER_LEN. replace (5 + n - 5)%nat with n by lia.
  replace (4 + (1 + length t) <? 5 + n)%nat with (length t <? n)%nat
    by (apply eq_true_iff_eq; rewrite !Nat.ltb_lt; lia).
  case_if; [done|]. rewrite app_assoc, slice_app_skip by (by rewrite length_app, length_le_bytes). done.
Qed.

Lemma decode_frame f rest : Z.of_nat (length (payload f)) <= MAX_PAYLOAD ->
  decode (frame_bytes f ++ rest) = Ok (f, length (frame_bytes f)).
Proof.
  intros H. unfold frame_bytes at 1. rewrite <- !app_assoc, decode_header by done. rewrite length_frame_bytes.
  rewrite (proj2 (Nat.ltb_ge _ _)) by (rewrite length_app; lia). rewrite take_app_length. by destruct f.
Qed.

(** ** Reading at a cursor *)

(** [buf] has [l] from [off] on. *)
Definition at_ (buf : list Z) (off : nat) (l : list Z) : Prop := (off <= length buf)%nat /\ drop off buf = l.

(** [rd] reads [bytes] as [x], whatever is before and after them. *)
Definition reads {A} (rd : list Z -> nat -> result (A * nat) FrameError) (x : A) (bytes : list Z) : Prop :=
  forall buf off l, at_ buf off (bytes ++ l) ->
    rd buf off = Ok (x, (off + length bytes)%nat) /\ at_ buf (off + length bytes) l.

Lemma at_app buf off x l : at_ buf off (x ++ l) ->
  (off + length x <= length buf)%nat /\ slice off (length x) buf = x /\ at_ buf (off + length x) l.
Proof.
  intros [Hoff Hd].
  assert (Hle : (off + length x <= length buf)%nat).
  { pose proof (f_equal length Hd) as H. rewrite length_drop, length_app in H. lia. }
  split; [done|]. split; [unfold slice; by rewrite Hd, take_app_length|]. split; [done|].
  by rewrite <- drop_drop, Hd, drop_app_length.
Qed.

Lemma at_start l : at_ l 0 l.
Proof. split; [lia|done]. Qed.

Lemma reads_u8 b : reads read_u8 b [b].
Proof.
  intros buf off l H. destruct (at_app _ _ [b] _ H) as (Hle & Hs & Hat). cbn [length] in *. split; [|done].
  unfold read_u8. rewrite (proj2 (Nat.leb_gt _ _)) by lia. do 2 f_equal.
  destruct H as [_ Hd]. rewrite <- (take_drop off buf), Hd, lookup_total_app_r by (rewrite length_take; lia).
  rewrite length_take. by replace (off - _)%nat with 0%nat by lia.
Qed.

Lemma reads_le n w : in_w (8 * Z.of_nat n) w -> reads (read_le n) w (le_bytes n w).
Proof.
  intros Hw buf off l H. destruct (at_app _ _ _ _ H) as (Hle & Hs & Hat). split; [|done].
  rewrite length_le_bytes in *. unfold read_le. rewrite (proj2 (Nat.ltb_ge _ _)) by lia.
  by rewrite Hs, le_val_le_bytes_id.
Qed.

(** [let (x, off) = rd(buf, off)?] on bytes [rd] reads as [x]. *)
Ltac read H L :=
  let Hr := fresh "Hr" in let Ha := fresh "Ha" in
  edestruct L as [Hr Ha]; [..|rewrite Hr; clear Hr; cbn [rbind]];
  [try exact H ..|clear H; rename Ha into H].

(** What a successful read says. *)

Lemma read_u8_inv buf off b off' : read_u8 buf off = Ok (b, off') -> off' = (off + 1)%nat /\ (off < off' <= length buf)%nat.
Proof. unfold read_u8. case_if; [done|]. intros [= _ <-]. lia. Qed.

Lemma read_le_inv n buf off w off' : is_bytes buf -> read_le n buf off = Ok (w, off') ->
  (off' = off + n /\ off' <= length buf)%nat /\ in_w (8 * Z.of_nat n) w.
Proof.
  intros Hb. unfold read_le. case_if; [done|]. intros [= <- <-]. split; [lia|].
  pose proof (le_val_bound (slice off n buf) ltac:(auto with spg)) as H. by rewrite length_slice in H by lia.
Qed.

Lemma read_floats_inv dim buf off v v' off' : is_bytes buf -> (off <= length buf)%nat -> Forall u32 v ->
  read_floats dim buf off v = Ok (v', off') ->
  (off <= off' <= length buf)%nat /\ length v' = (length v + dim)%nat /\ Forall u32 v'.
Proof.
  intros Hb. revert off v. induction dim as [|dim IH]; intros off v Hoff Hv; cbn [read_floats].
  - intros [= <- <-]. split_and!; [lia..|done].
  - case_if; [done|]. intros H. apply IH in H as (H1 & H2 & H3); [|lia|].
    + rewrite length_app in H2. cbn [length] in H2. split_and!; [lia..|done].
    + apply Forall_app; split; [done|]. constructor; [|constructor].
      pose proof (le_val_bound (slice off 4 buf) ltac:(auto with spg)) as Hl. by rewrite length_slice in Hl by lia.
Qed.

Lemma signed_range w x : 1 <= w -> in_w w x -> - 2 ^ (w - 1) <= signed w x < 2 ^ (w - 1).
Proof.
  intros Hw [H1 H2]. unfold signed.
  assert (2 ^ w = 2 * 2 ^ (w - 1)) by (rewrite <- Z.pow_succ_r by lia; f_equal; lia).
  case_if; lia.
Qed.

(** *** Values *)

Definition value_ok (v : WireValue) : Prop :=
  match v with
  | Null | Bool _ => True
  | Int n => - 2 ^ 31 <= n < 2 ^ 31
  | BigInt n => - 2 ^ 63 <= n < 2 ^ 63
  | Float x => u64 x
  | Text s => is_str s /\ Z.of_nat (length s) < 2 ^ 32
  | Vector v => Forall u32 v /\ Z.of_nat (length v) < 2 ^ 32
  end.

#[export] Instance value_ok_dec v : Decision (value_ok v).
Proof. destruct v; cbn; apply _. Defined.

Definition value_bytes (v : WireValue) : list Z :=
  type_byte (wire_type v) ::
  match v with
  | Null => []
  | Int n => le_bytes 4 (wrap 32 n)
  | BigInt n => le_bytes 8 (wrap 64 n)
  | Float x => le_bytes 8 x
  | Text s => le_bytes 4 (Z.of_nat (length s)) ++ s
  | Bool b => [bool_byte b]
  | Vector v => le_bytes 4 (Z.of_nat (length v)) ++ concat (map (le_bytes 4) v)
  end.

Lemma fold_floats v out : fold_left (fun out x => out ++ le_bytes 4 x) v out = out ++ concat (map (le_bytes 4) v).
Proof. revert out. induction v as [|x v IH]; intros out; cbn; [by rewrite app_nil_r|]. by rewrite IH, <- app_assoc. Qed.

Lemma encode_value_ok v out : value_ok v -> encode_value v out = (out ++ value_bytes v, Ok ()).
Proof.
  intros Hv. unfold encode_value, value_bytes.
  destruct v as [|n|n|x|s|b|v]; cbn [wire_type value_ok] in *; try done; try by rewrite <- app_assoc.
  - rewrite (proj2 (Z.ltb_lt _ _)) by lia. cbn [negb]. by rewrite <- !app_assoc.
  - rewrite (proj2 (Z.ltb_lt _ _)) by lia. cbn [negb]. by rewrite fold_floats, <- !app_assoc.
Qed.

Lemma reads_floats v acc : Forall u32 v ->
  reads (fun buf off => read_floats (length v) buf off acc) (acc ++ v) (concat (map (le_bytes 4) v)).
Proof.
  intros Hv. revert acc. induction Hv as [|x v Hx Hv IH]; intros acc buf off l H; cbn [length read_floats map concat].
  - rewrite app_nil_r, Nat.add_0_r. done.
  - cbn [map concat] in H. rewrite <- app_assoc in H. destruct (at_app _ _ _ _ H) as (Hle & Hs & Hat).
    rewrite length_le_bytes in *. rewrite (proj2 (Nat.ltb_ge (length buf) (off + 4))) by lia.
    rewrite Hs, le_val_le_bytes_id by done. destruct (IH (acc ++ [x]) _ _ _ Hat) as [Hr Ha].
    rewrite Hr, length_app, length_le_bytes, Nat.add_assoc, <- app_assoc. done.
Qed.

(** [from_utf8(&buf[off..end])] on a string's bytes. *)
Lemma read_str {E} buf off s l (e : E) : is_str s -> at_ buf off (s ++ l) ->
  (length buf <? off + length s)%nat = false /\ from_utf8 (slice off (off + length s - off) buf) e = Ok s /\
  at_ buf (off + length s) l.
Proof.
  intros Hs H. destruct (at_app _ _ _ _ H) as (Hle & Hsl & Hat). split; [by apply Nat.ltb_ge|]. split; [|done].
  replace (off + length s - off)%nat with (length s) by lia. rewrite Hsl. by apply from_utf8_str.
Qed.

Lemma reads_value v : value_ok v -> reads decode_value v (value_bytes v).
Proof.
  intros Hv buf off l H. unfold value_bytes in *.
  change (?t :: ?r) with ([t] ++ r) in *. rewrite <- app_assoc in H. rewrite length_app, Nat.add_assoc.
  unfold decode_value. read H @reads_u8. cbn [length] in *. rewrite type_from_type_byte. cbn [rbind].
  destruct v as [|n|n|x|s|b|v]; cbn [wire_type value_ok] in *.
  - cbn [length]. rewrite Nat.add_0_r. done.
  - unfold read_i32. read H reads_le; [by apply (wrap_range 32)|]. rewrite length_le_bytes in *.
    by rewrite (signed_wrap 32) by lia.
  - unfold read_i64. read H reads_le; [by apply (wrap_range 64)|]. rewrite length_le_bytes in *.
    by rewrite (signed_wrap 64) by lia.
  - unfold read_f64. read H reads_le; [done|]. done.
  - destruct Hv as [Hs Hlen]. rewrite <- app_assoc in H. rewrite length_app, Nat.add_assoc.
    unfold read_u32. read H reads_le; [split; cbn; lia|]. rewrite Nat2Z.id.
    destruct (read_str _ _ _ _ InvalidUtf8 Hs H) as (Hl & Hf & Ha). by rewrite Hl, Hf.
  - read H reads_u8. by destruct b.
  - destruct Hv as [Hs Hlen]. rewrite <- app_assoc in H. rewrite length_app, Nat.add_assoc.
    unfold read_u32. read H reads_le; [split; cbn; lia|]. rewrite Nat2Z.id.
    destruct (reads_floats v [] Hs _ _ _ H) as [Hr Ha]. by rewrite Hr.
Qed.

Lemma encode_values_ok vs p : Forall value_ok vs -> encode_values vs p = Ok (p ++ concat (map value_bytes vs)).
Proof.
  intros Hvs. revert p. induction Hvs as [|v vs Hv Hvs IH]; intros p; cbn [encode_values map concat]; [by rewrite app_nil_r|].
  rewrite encode_value_ok by done. cbn [rbind]. by rewrite IH, <- app_assoc.
Qed.

Lemma reads_values vs acc : Forall value_ok vs ->
  reads (fun buf off => decode_values (length vs) buf off acc) (acc ++ vs) (concat (map value_bytes vs)).
Proof.
  intros Hvs. revert acc. induction Hvs as [|v vs Hv Hvs IH]; intros acc buf off l H; cbn [length decode_values map concat].
  - rewrite app_nil_r, Nat.add_0_r. done.
  - cbn [map concat] in H. rewrite <- app_assoc in H. read H reads_value; [done|].
    destruct (IH (acc ++ [v]) _ _ _ H) as [Hr Ha]. rewrite Hr, length_app, Nat.add_assoc, <- app_assoc. done.
Qed.

(** ** The opcodes' payloads *)

Definition column_ok (c : ColumnDesc) : Prop := is_str (name c) /\ Z.of_nat (length (name c)) < 2 ^ 16.

Definition column_bytes (c : ColumnDesc) : list Z :=
  [type_byte (ty c)] ++ le_bytes 2 (Z.of_nat (length (name c))) ++ name c ++ [bool_byte (nullable c)].

Lemma to_u16_ok n : Z.of_nat n < 2 ^ 16 -> to_u16 n = Ok (Z.of_nat n).
Proof. intros H. unfold to_u16. by rewrite (proj2 (Z.ltb_lt _ _)) by done. Qed.

Lemma encode_columns_ok cols p : Forall column_ok cols -> encode_columns cols p = Ok (p ++ concat (map column_bytes cols)).
Proof.
  intros Hcs. revert p. induction Hcs as [|c cols [Hs Hl] Hcs IH]; intros p; cbn [encode_columns map concat]; [by rewrite app_nil_r|].
  rewrite to_u16_ok by done. cbn [rbind]. rewrite IH. unfold column_bytes. by rewrite <- !app_assoc.
Qed.

Lemma decode_columns_ok cols buf off acc : Forall column_ok cols -> at_ buf off (concat (map column_bytes cols)) ->
  decode_columns (length cols) buf off acc = Ok (acc ++ cols).
Proof.
  intros Hcs. revert off acc. induction Hcs as [|c cols [Hs Hl] Hcs IH]; intros off acc H;
    cbn [length decode_columns]; [by rewrite app_nil_r|].
  cbn [map concat] in H. unfold column_bytes at 1 in H. rewrite <- !app_assoc in H.
  read H reads_u8. rewrite type_from_type_byte. cbn [rbind].
  unfold read_u16. read H reads_le; [split; cbn; lia|]. rewrite Nat2Z.id.
  destruct (read_str _ _ _ _ InvalidUtf8 Hs H) as (Hlen & Hf & Ha). rewrite Hlen, Hf. cbn [rbind].
  read Ha reads_u8. rewrite (IH _ _ Ha), <- app_assoc. destruct c as [nm t []]; done.
Qed.

Lemma encode_rows_ok rows p : Forall (Forall value_ok) rows ->
  encode_rows rows p = Ok (p ++ concat (map value_bytes (concat rows))).
Proof.
  intros Hrs. revert p. induction Hrs as [|r rows Hr Hrs IH]; intros p; cbn [encode_rows concat]; [by rewrite app_nil_r|].
  rewrite encode_values_ok by done. cbn [rbind]. by rewrite IH, map_app, concat_app, <- app_assoc.
Qed.

Lemma decode_rows_ok k rows buf off acc : Forall (Forall value_ok) rows -> Forall (fun r => length r = k) rows ->
  at_ buf off (concat (map value_bytes (concat rows))) ->
  decode_rows (length rows) k buf off acc = Ok (acc ++ rows).
Proof.
  intros Hrs. revert off acc. induction Hrs as [|r rows Hr Hrs IH]; intros off acc Hk H;
    cbn [length decode_rows]; [by rewrite app_nil_r|].
  apply Forall_cons in Hk as [<- Hk]. cbn [concat] in H. rewrite map_app, concat_app in H.
  destruct (reads_values r [] Hr _ _ _ H) as [Hd Ha]. rewrite Hd. cbn [rbind app]. by rewrite (IH _ _ Hk Ha), <- app_assoc.
Qed.

(** ** Messages

    What the two ends mean to say, one constructor per opcode that carries
    something, against the frames they send. *)

Inductive Message : Type :=
| MPing | MPong | MStats
| MQuery (sql : list Z)
| MAuth (password : list Z)
| MAuthUser (user password : list Z)
| MRowDescription (cols : list ColumnDesc)
| MDataRow (values : list WireValue)
| MDataRowBatch (rows : list (list WireValue))
| MCommandComplete (affected : Z)
| MErrorResponse (msg : list Z)
| MStatsResponse (body : list Z).

Definition message_ok (m : Message) : Prop :=
  match m with
  | MPing | MPong | MStats => True
  | MQuery s | MAuth s | MErrorResponse s | MStatsResponse s => is_str s
  | MAuthUser u p => is_str u /\ is_str p /\ Z.of_nat (length u) < 2 ^ 16
  | MRowDescription cols => Forall column_ok cols /\ Z.of_nat (length cols) < 2 ^ 16
  | MDataRow vs => Forall value_ok vs /\ Z.of_nat (length vs) < 2 ^ 16
  | MDataRowBatch rows =>
    Forall (Forall value_ok) rows /\ Z.of_nat (length rows) < 2 ^ 16 /\
    Z.of_nat (length (hd [] rows)) < 2 ^ 16 /\ Forall (fun r => length r = length (hd [] rows)) rows
  | MCommandComplete n => u64 n
  end.

Definition build (m : Message) : result Frame FrameError :=
  match m with
  | MPing => Ok ping
  | MPong => Ok pong
  | MStats => Ok build_stats_request
  | MQuery s => Ok (build_query s)
  | MAuth s => Ok (build_auth s)
  | MAuthUser u p => build_auth_user u p
  | MRowDescription cols => build_row_description cols
  | MDataRow vs => build_data_row vs
  | MDataRowBatch rows => build_data_row_batch rows
  | MCommandComplete n => Ok (build_command_complete n)
  | MErrorResponse s => Ok (build_error_response s)
  | MStatsResponse s => Ok (build_stats_response s)
  end.

(** The parser of a frame's opcode ([Error] frames have none). *)
Definition parse (f : Frame) : result Message FrameError :=
  match op f with
  | Ping => Ok MPing
  | Pong => Ok MPong
  | Stats => Ok MStats
  | Query => let? s := parse_query f in Ok (MQuery s)
  | Auth => let? s := parse_auth f in Ok (MAuth s)
  | AuthUser => let? (u, p) := parse_auth_user f in Ok (MAuthUser u p)
  | RowDescription => let? cols := parse_row_description f in Ok (MRowDescription cols)
  | DataRow => let? vs := parse_data_row f in Ok (MDataRow vs)
  | DataRowBatch => let? rows := parse_data_row_batch f in Ok (MDataRowBatch rows)
  | CommandComplete => let? n := parse_command_complete f in Ok (MCommandComplete n)
  | ErrorResponse => let? s := parse_error_response f in Ok (MErrorResponse s)
  | StatsResponse => let? s := parse_stats_response f in Ok (MStatsResponse s)
  | Error => Err (UnknownOp (op_byte Error))
  end.

Lemma parse_auth_user_ok u p : is_str u -> is_str p -> Z.of_nat (length u) < 2 ^ 16 ->
  parse_auth_user (mk_frame AuthUser (le_bytes 2 (Z.of_nat (length u)) ++ u ++ p)) = Ok (u, p).
Proof.
  intros Hu Hp Hl. unfold parse_auth_user. cbn [payload].
  rewrite (proj2 (Nat.ltb_ge _ 2)) by (rewrite length_app, length_le_bytes; lia).
  rewrite slice_app_head by (by rewrite length_le_bytes).
  rewrite le_val_le_bytes_id by (split; cbn; lia). rewrite Nat2Z.id.
  rewrite (proj2 (Nat.ltb_ge _ _)) by (rewrite !length_app, length_le_bytes; lia).
  rewrite slice_app_exact by (by rewrite ?length_le_bytes).
  rewrite app_assoc, drop_app_length' by (by rewrite length_app, length_le_bytes).
  by rewrite !from_utf8_str by done.
Qed.

Lemma build_parse m : message_ok m -> exists f, build m = Ok f /\ parse f = Ok m.
Proof.
  destruct m as [ | | |s|s|u p|cols|vs|rows|n|s|s]; cbn [message_ok build]; intros H;
    try (eexists; split; [done|]; unfold parse; cbn [op build_query build_auth build_error_response build_stats_response];
         unfold parse_query, parse_auth, parse_error_response, parse_stats_response; cbn [payload];
         by rewrite ?from_utf8_str by done).
  - destruct H as (Hu & Hp & Hl). unfold build_auth_user. rewrite to_u16_ok by done. cbn [rbind].
    eexists; split; [done|]. unfold parse. cbn [op]. rewrite <- app_assoc, parse_auth_user_ok by done. done.
  - destruct H as [Hc Hl]. unfold build_row_description. rewrite to_u16_ok by done. cbn [rbind].
    rewrite encode_columns_ok by done. eexists; split; [done|]. unfold parse, parse_row_description, read_u16. cbn [op payload].
    pose proof (at_start (le_bytes 2 (Z.of_nat (length cols)) ++ concat (map column_bytes cols))) as Ha.
    read Ha reads_le; [split; cbn; lia|]. rewrite Nat2Z.id. by rewrite (decode_columns_ok _ _ _ [] Hc Ha).
  - destruct H as [Hv Hl]. unfold build_data_row. rewrite to_u16_ok by done. cbn [rbind].
    rewrite encode_values_ok by done. eexists; split; [done|]. unfold parse, parse_data_row, read_u16. cbn [op payload].
    pose proof (at_start (le_bytes 2 (Z.of_nat (length vs)) ++ concat (map value_bytes vs) ++ [])) as Ha.
    rewrite app_nil_r in Ha at 1. read Ha reads_le; [split; cbn; lia|]. rewrite Nat2Z.id.
    destruct (reads_values vs [] Hv _ _ _ Ha) as [Hr _]. by rewrite Hr.
  - destruct H as (Hv & Hl & Hc & Hk). unfold build_data_row_batch. rewrite to_u16_ok by done. cbn [rbind].
    replace (match rows with [] => 0%nat | row :: _ => length row end) with (length (hd [] rows)) by (by destruct rows).
    rewrite to_u16_ok by done. cbn [rbind]. rewrite encode_rows_ok by done. eexists; split; [done|].
    unfold parse, parse_data_row_batch, read_u16. cbn [op payload]. rewrite <- app_assoc.
    pose proof (at_start (le_bytes 2 (Z.of_nat (length rows)) ++ le_bytes 2 (Z.of_nat (length (hd [] rows))) ++
      concat (map value_bytes (concat rows)))) as Ha.
    read Ha reads_le; [split; cbn; lia|]. read Ha reads_le; [split; cbn; lia|]. rewrite !Nat2Z.id.
    by rewrite (decode_rows_ok _ _ _ _ [] Hv Hk Ha).
  - eexists; split; [done|]. unfold parse, parse_command_complete, read_u64. cbn [op payload build_command_complete].
    pose proof (at_start (le_bytes 8 n ++ [])) as Ha. rewrite app_nil_r in Ha at 1. by read Ha reads_le.
Qed.

(** ** Properties: frames *)

(** Frames survive a stream: what [encode] appends for a frame within the
    size limit decodes to that frame and its length whatever follows it, and
    every proper prefix of it, however the bytes arrive, is answered with a
    request for more bytes, never with another frame or a fatal error; a frame
    over the limit is refused and leaves the output untouched. *)
Lemma frame_stream f out rest :
  (Z.of_nat (length (payload f)) <= MAX_PAYLOAD ->
     encode f out = (out ++ frame_bytes f, Ok ()) /\
     decode (frame_bytes f ++ rest) = Ok (f, length (frame_bytes f)) /\
     forall n, (n < length (frame_bytes f))%nat ->
       decode (take n (frame_bytes f)) = Err ShortHeader \/ decode (take n (frame_bytes f)) = Err ShortPayload) /\
  (MAX_PAYLOAD < Z.of_nat (length (payload f)) -> exists e, encode f out = (out, Err (PayloadTooLarge e))).
Proof.
  split; [intros H; split_and!|intros H].
  - by apply encode_ok.
  - by apply decode_frame.
  - intros n Hn. rewrite length_frame_bytes in Hn. destruct (decide (n < 5)%nat) as [H5|H5].
    + left. unfold decode. rewrite (proj2 (Nat.ltb_lt _ _)); [done|].
      rewrite length_take, length_frame_bytes. unfold FRAME_HEADER_LEN. lia.
    + right. unfold frame_bytes. rewrite take_app_ge by (rewrite length_le_bytes; lia). rewrite length_le_bytes.
      replace (n - 4)%nat with (S (n - 5)) by lia. cbn [app take].
      change (op_byte (op f) :: take (n - 5) (payload f)) with ([op_byte (op f)] ++ take (n - 5) (payload f)).
      rewrite decode_header by done. rewrite (proj2 (Nat.ltb_lt _ _)); [done|]. rewrite length_take. lia.
  - unfold encode. destruct (Z.of_nat (length (payload f)) <? 2 ^ 32); cbn [negb]; [|eauto].
    apply Z.ltb_lt in H. rewrite H. eauto.
Qed.

(** What [decode] accepts is bounded and canonical: the payload is within
    the limit, no more is consumed than there is, and encoding the frame gives
    back exactly the bytes consumed. *)
Lemma frame_canonical buf f n :
  is_bytes buf -> decode buf = Ok (f, n) ->
  frame_ok f /\ (n <= length buf)%nat /\ encode f [] = (take n buf, Ok ()).
Proof.
  intros Hb. unfold decode. case_if; [done|]. set (len := le_val (slice 0 4 buf)).
  destruct (MAX_PAYLOAD <? len) eqn:Hmax; [done|]. intros (o & Ho%op_from_byte_inv & H)%rbind_ok. revert H.
  case_if; [done|]. intros [= <- <-]. prop_bools. unfold FRAME_HEADER_LEN in *.
  assert (H4 : length (slice 0 4 buf) = 4%nat) by (apply length_slice; lia).
  pose proof (le_val_bound (slice 0 4 buf) ltac:(auto with spg)) as Hl. fold len in Hl.
  assert (Hlen : length (slice 5 (Z.to_nat len) buf) = Z.to_nat len) by (apply length_slice; lia).
  assert (Hok : frame_ok (mk_frame o (slice 5 (Z.to_nat len) buf))).
  { split; cbn [payload]; [auto with spg|]. rewrite Hlen. lia. }
  rewrite Nat.sub_0_r. split; [done|]. split; [lia|]. rewrite encode_ok by apply Hok. unfold frame_bytes. cbn [payload op]. rewrite Hlen, Z2Nat.id by lia.
  rewrite app_nil_l. f_equal. unfold len. rewrite (le_bytes_le_val_n 4 _ H4) by auto with spg. fold len. rewrite <- Ho.
  assert (H1 : [buf !!! 4%nat] = slice 4 1 buf).
  { destruct (lookup_lt_is_Some_2 buf 4) as [x Hx]; [lia|]. rewrite (list_lookup_total_correct _ _ _ Hx). unfold slice.
    by rewrite (drop_S _ _ _ Hx). }
  rewrite H1. unfold slice at 2 3. rewrite (app_assoc (slice 0 4 buf)). change (take 1 (drop 4 buf)) with (slice (0 + 4) 1 buf).
  rewrite slice_slice. change (take (Z.to_nat len) (drop 5 buf)) with (slice (0 + 5) (Z.to_nat len) buf). by rewrite slice_slice.
Qed.

(** ** Properties: values and messages *)

(** One message after another into one buffer. *)
Fixpoint send (ms : list Message) (out : list Z) : result (list Z) FrameError :=
  match ms with
  | [] => Ok out
  | m :: ms =>
    let? f := build m in
    let '(out, r) := encode f out in
    let? _ := r in send ms out
  end.

(** The reader's loop: decode a frame, drop the bytes it took, go on until the
    buffer is empty.  [fuel] bounds the number of frames: a frame takes at
    least one byte, so that the buffer's length is enough. *)
Fixpoint receive (fuel : nat) (buf : list Z) : result (list Message) FrameError :=
  match fuel, buf with
  | O, _ | _, [] => Ok []
  | S fuel, _ =>
    let? (f, n) := decode buf in
    let? m := parse f in
    let? ms := receive fuel (drop n buf) in
    Ok (m :: ms)
  end.

(** The message's frame is within the limit. *)
Definition fits (m : Message) : Prop :=
  exists f, build m = Ok f /\ Z.of_nat (length (payload f)) <= MAX_PAYLOAD.

Lemma send_receive ms out : Forall (fun m => message_ok m /\ fits m) ms ->
  exists s, send ms out = Ok (out ++ s) /\ forall fuel, (length s <= fuel)%nat -> receive fuel s = Ok ms.
Proof.
  intros Hms. revert out. induction Hms as [|m ms [Hm (f & Hf & Hlen)] Hms IH]; intros out.
  { exists []. split; [by rewrite app_nil_r|]. by intros [|fuel]. }
  destruct (IH (out ++ frame_bytes f)) as (s & Hs & Hr). exists (frame_bytes f ++ s). split.
  - cbn [send]. rewrite Hf. cbn [rbind]. rewrite encode_ok by done. cbn [rbind]. by rewrite Hs, app_assoc.
  - intros fuel Hfuel. rewrite length_app, length_frame_bytes in Hfuel. destruct fuel as [|fuel]; [lia|].
    pose proof (decode_frame f s Hlen) as Hd. destruct (build_parse m Hm) as (f' & Hf' & Hp).
    assert (f' = f) as -> by congruence. cbn [receive].
    destruct (frame_bytes f ++ s) as [|b l] eqn:E.
    { apply (f_equal length) in E. rewrite length_app, length_frame_bytes in E. cbn in E. lia. }
    rewrite Hd. cbn [rbind]. rewrite Hp. cbn [rbind]. rewrite <- E, drop_app_length, Hr by lia. done.
Qed.

(** C30: the protocol says what was meant: any sequence of messages of any kind
    (queries, logins, row descriptions, rows of every value type, batches,
    completions, errors), each within the limits of its own fields and of a
    frame, is written without error, and reading the bytes back with the
    parser of each frame's opcode gives exactly that sequence. *)
Theorem messages_roundtrip ms :
  Forall (fun m => message_ok m /\ fits m) ms ->
  exists stream, send ms [] = Ok stream /\ receive (length stream) stream = Ok ms.
Proof. intros H. destruct (send_receive ms [] H) as (s & Hs & Hr). exists s. split; [done|]. by apply Hr. Qed.

Lemma messages_roundtrip_witness :
  let ms := [MAuthUser [97] [98; 99];
             MQuery [0xC3; 0xA9];
             MRowDescription [mk_column [105; 100] TBigInt false; mk_column [] TVector true];
             MDataRowBatch [[BigInt (-1); Vector [0; 0x7FC00000]]; [Null; Int (-2147483648)]];
             MDataRow [Bool true; Text [0xE2; 0x9C; 0x93]; Float 0x7FF8000000000001];
             MCommandComplete (2 ^ 64 - 1)] in
  exists stream, send ms [] = Ok stream /\ receive (length stream) stream = Ok ms.
Proof.
  apply messages_roundtrip.
  repeat (apply Forall_cons; split; [split; [cbn [message_ok]; by repeat (apply conj; [by apply (bool_decide_unpack _)|]);
    apply (bool_decide_unpack _); vm_compute; exact I|eexists; split; [vm_compute; reflexivity|vm_compute; discriminate]]|]).
  apply Forall_nil_2.
Defined.

Lemma decode_value_ok buf off v off' :
  is_bytes buf -> decode_value buf off = Ok (v, off') ->
  (off < off' <= length buf)%nat /\ value_ok v.
Proof.
  intros Hb. unfold decode_value, read_i32, read_i64, read_u32, read_f64.
  intros ([tag o] & [_ Ho]%read_u8_inv & (t & _ & H)%rbind_ok)%rbind_ok. destruct t.
  - by injection H as <- <-.
  - apply rbind_ok in H as ([n o2] & ([m o3] & Hm & [= <- <-])%rbind_ok & [= <- <-]).
    apply read_le_inv in Hm as [? Hm]; [|done]. split; [lia|]. by apply (signed_range 32).
  - apply rbind_ok in H as ([n o2] & ([m o3] & Hm & [= <- <-])%rbind_ok & [= <- <-]).
    apply read_le_inv in Hm as [? Hm]; [|done]. split; [lia|]. by apply (signed_range 64).
  - apply rbind_ok in H as ([n o2] & Hm & [= <- <-]). apply read_le_inv in Hm as [? Hm]; [|done]. split; [lia|done].
  - apply rbind_ok in H as ([n o2] & Hm & H). apply read_le_inv in Hm as [? Hm]; [|done]. revert H. case_if; [done|].
    intros (s & Hs & [= <- <-])%rbind_ok. replace (o2 + Z.to_nat n - o2)%nat with (Z.to_nat n) in Hs by lia.
    destruct Hm. split; [lia|]. revert Hs. unfold from_utf8. case_if; [|done]. intros [= <-].
    split; [split; [auto with spg|done]|]. rewrite length_slice by lia. rewrite Z2Nat.id by lia. done.
  - apply rbind_ok in H as ([n o2] & [? ?]%read_u8_inv & [= <- <-]). split; [lia|done].
  - apply rbind_ok in H as ([n o2] & Hm & H). apply read_le_inv in Hm as [? Hm]; [|done].
    apply rbind_ok in H as ([w o3] & Hw & [= <- <-]). apply read_floats_inv in Hw as (? & Hl & Hf); [|done|lia|done].
    destruct Hm. split; [lia|]. split; [done|]. rewrite Hl. cbn [length]. rewrite Nat.add_0_l, Z2Nat.id by lia. done.
Qed.

(** Reading a value from hostile bytes is safe: whatever the bytes and the
    offset, a value that [decode] accepts starts and ends inside the buffer,
    takes at least one byte, is within the ranges of its type, and is one
    [encode] accepts and [decode] reads back. *)
Lemma decode_value_bounds buf off v off' :
  is_bytes buf -> decode_value buf off = Ok (v, off') ->
  (off < off' <= length buf)%nat /\ value_ok v /\
  exists bs, encode_value v [] = (bs, Ok ()) /\ decode_value bs 0%nat = Ok (v, length bs).
Proof.
  intros Hb H. destruct (decode_value_ok _ _ _ _ Hb H) as [Hoff Hv]. split; [done|]. split; [done|].
  exists (value_bytes v). split; [by rewrite encode_value_ok|].
  destruct (reads_value v Hv (value_bytes v) 0%nat []) as [Hr _]; [|exact Hr]. rewrite app_nil_r. apply at_start.
Qed.
