(* ===== verification/BigNum.v ===== *)
(** Arbitrary precision decimals (crates/spg-storage/src/bignum.rs), the
    definitions: magnitudes as little-endian vectors of base-10^9 limbs, signed
    decimals with a scale, division, square root, the transcendental functions
    and the text form.

    A [u32], [u64], [u128] or [i64] is a [Z].  Where a computation can leave
    its width on some vector of [u32] limbs its wrap-around is written out;
    elsewhere the bound holds for every [u32], such as a remainder modulo
    [BASE].  A string is the list of its characters. *)
From S2P Require Import Prelude Bytes.
Open Scope Z_scope.

Definition BASE : Z := 1000000000.
Definition BASE_DIGITS : nat := 9.

Record BigNumeric : Type := mk_big { neg : bool; limbs : list Z; scale : Z }.

Definition is_zero (b : BigNumeric) : bool := match limbs b with [] => true | _ => false end.
Definition parts (b : BigNumeric) : bool * list Z * Z := (neg b, limbs b, scale b).

(** [while v.last() == Some(&0) { v.pop(); }] *)
Fixpoint pop_zeros (v : list Z) : list Z :=
  match v with
  | [] => []
  | x :: v =>
    match pop_zeros v with
    | [] => if x =? 0 then [] else [x]
    | v => x :: v
    end
  end.

Definition normalize (b : BigNumeric) : BigNumeric :=
  let limbs := pop_zeros (limbs b) in
  mk_big (match limbs with [] => false | _ => neg b end) limbs (scale b).

Definition from_parts (neg : bool) (limbs : list Z) (scale : Z) : BigNumeric :=
  let out := mk_big neg limbs scale in normalize out.

(** ** The [i128] bridge *)

(** [while mag != 0]: a [u128] has at most five limbs. *)
Fixpoint push_limbs (fuel : nat) (mag : Z) (limbs : list Z) : list Z :=
  match fuel with
  | O => limbs
  | S fuel => if mag =? 0 then limbs else push_limbs fuel (mag / BASE) (limbs ++ [mag mod BASE])
  end.

Definition from_i128 (v scale : Z) : BigNumeric :=
  let neg := v <? 0 in
  let mag := Z.abs v in
  let out := mk_big neg (push_limbs 5 mag []) scale in
  normalize out.

Definition checked_mul_u128 (x y : Z) : option Z := if x * y <? 2 ^ 128 then Some (x * y) else None.
Definition checked_add_u128 (x y : Z) : option Z := if x + y <? 2 ^ 128 then Some (x + y) else None.

(** [for &limb in self.limbs.iter().rev()]; [None] is the code's own [None]. *)
Fixpoint to_u128 (rev_limbs : list Z) (mag : Z) : option Z :=
  match rev_limbs with
  | [] => Some mag
  | limb :: rev_limbs =>
    let! mag := checked_mul_u128 mag BASE in
    let! mag := checked_add_u128 mag limb in
    to_u128 rev_limbs mag
  end.

Definition to_i128 (b : BigNumeric) : option Z :=
  let! mag := to_u128 (rev (limbs b)) 0 in
  if neg b then
    if mag <=? (2 ^ 127 - 1) + 1 then Some (signed 128 (wrap 128 (- signed 128 mag))) else None
  else if mag <? 2 ^ 127 then Some mag else None.

(** ** Magnitudes *)

Definition reverse (o : comparison) : comparison := CompOpp o.

(** [for i in (0..a.len()).rev()] *)
Fixpoint cmp_limbs (n : nat) (a b : list Z) : comparison :=
  match n with
  | O => Eq
  | S i =>
    match Z.compare (a !!! i) (b !!! i) with
    | Eq => cmp_limbs i a b
    | other => other
    end
  end.

Definition cmp_mag (a b : list Z) : comparison :=
  match Nat.compare (length a) (length b) with
  | Eq => cmp_limbs (length a) a b
  | other => other
  end.

(** [v.get(i).copied().unwrap_or(0)] *)
Definition limb (v : list Z) (i : nat) : Z := default 0 (v !! i).

Definition add_step (a b : list Z) (st : list Z * Z) (i : nat) : list Z * Z :=
  let '(out, carry) := st in
  let av := limb a i in
  let bv := limb b i in
  let s := av + bv + carry in
  (out ++ [s mod BASE], s / BASE).

Definition add_mag (a b : list Z) : list Z :=
  let '(out, carry) := fold_left (add_step a b) (seq 0 (Nat.max (length a) (length b))) ([], 0) in
  if negb (carry =? 0) then out ++ [carry] else out.

Definition sub_step (a b : list Z) (st : list Z * Z) (i : nat) : list Z * Z :=
  let '(out, borrow) := st in
  let av := a !!! i in
  let bv := limb b i in
  let d := av - bv - borrow in
  let '(d, borrow) := if d <? 0 then (d + BASE, 1) else (d, 0) in
  (out ++ [wrap 32 d], borrow).

Definition sub_mag (a b : list Z) : list Z :=
  let '(out, _) := fold_left (sub_step a b) (seq 0 (length a)) ([], 0) in
  pop_zeros out.

(** [for &l in limbs { let v = l * factor + carry; .. }] *)
Fixpoint scale_limbs (limbs : list Z) (factor carry : Z) (out : list Z) : list Z * Z :=
  match limbs with
  | [] => (out, carry)
  | l :: limbs =>
    let v := l * factor + carry in
    scale_limbs limbs factor (v / BASE) (out ++ [v mod BASE])
  end.

Definition mul_pow10 (limbs : list Z) (k : Z) : list Z :=
  match limbs with
  | [] => []
  | _ =>
    let whole := Z.to_nat (k / Z.of_nat BASE_DIGITS) in
    let rem := k mod Z.of_nat BASE_DIGITS in
    let cur :=
      if rem =? 0 then limbs
      else
        let factor := 10 ^ rem in
        let '(out, carry) := scale_limbs limbs factor 0 [] in
        if negb (carry =? 0) then out ++ [carry] else out in
    if (0 <? whole)%nat then repeat 0 whole ++ cur else cur
  end.

(** [while carry != 0]: a [u64] has at most three limbs. *)
Fixpoint push_carry (fuel : nat) (carry : Z) (out : list Z) : list Z :=
  match fuel with
  | O => out
  | S fuel => if carry =? 0 then out else push_carry fuel (carry / BASE) (out ++ [carry mod BASE])
  end.

Definition mul_scalar (limbs : list Z) (factor : Z) : list Z :=
  if (factor =? 0) || match limbs with [] => true | _ => false end then []
  else
    let '(out, carry) := scale_limbs limbs factor 0 [] in
    push_carry 3 carry out.

(** ** Signed decimals *)

Definition align (self other : BigNumeric) : list Z * list Z * Z :=
  match Z.compare (scale self) (scale other) with
  | Eq => (limbs self, limbs other, scale self)
  | Lt =>
    let k := scale other - scale self in
    (mul_pow10 (limbs self) k, limbs other, scale other)
  | Gt =>
    let k := scale self - scale other in
    (limbs self, mul_pow10 (limbs other) k, scale self)
  end.

Definition cmp (self other : BigNumeric) : comparison :=
  if is_zero self && is_zero other then Eq
  else
    match neg self, neg other with
    | false, true => Gt
    | true, false => Lt
    | _, _ =>
      let '(a, b, _) := align self other in
      let mag := cmp_mag a b in
      if neg self then reverse mag else mag
    end.

Definition add (self other : BigNumeric) : BigNumeric :=
  let '(a, b, scale) := align self other in
  let out :=
    if Bool.eqb (neg self) (neg other) then mk_big (neg self) (add_mag a b) scale
    else
      match cmp_mag a b with
      | Lt => mk_big (neg other) (sub_mag b a) scale
      | _ => mk_big (neg self) (sub_mag a b) scale
      end in
  normalize out.

(** The method [neg]. *)
Definition negate (self : BigNumeric) : BigNumeric :=
  if negb (is_zero self) then mk_big (negb (neg self)) (limbs self) (scale self) else self.

Definition sub (self other : BigNumeric) : BigNumeric := add self (negate other).

(** [for (j, &b) in other.limbs.iter().enumerate()]: the row of [a] at [i]. *)
Fixpoint mul_row (a : Z) (i j : nat) (bs : list Z) (acc : list Z) (carry : Z) : list Z * Z :=
  match bs with
  | [] => (acc, carry)
  | b :: bs =>
    let cur := wrap 64 (acc !!! (i + j)%nat + a * b + carry) in
    mul_row a i (S j) bs (<[(i + j)%nat := cur mod BASE]> acc) (cur / BASE)
  end.

(** [for (i, &a) in self.limbs.iter().enumerate()] *)
Fixpoint mul_rows (i : nat) (aa bs : list Z) (acc : list Z) : list Z :=
  match aa with
  | [] => acc
  | a :: aa =>
    let '(acc, carry) := mul_row a i 0 bs acc 0 in
    let top := (i + length bs)%nat in
    mul_rows (S i) aa bs (<[top := wrap 64 (acc !!! top + carry)]> acc)
  end.

(** [for v in acc]: the residual carries. *)
Fixpoint narrow (acc : list Z) (carry : Z) (limbs : list Z) : list Z * Z :=
  match acc with
  | [] => (limbs, carry)
  | v :: acc =>
    let cur := wrap 64 (v + carry) in
    narrow acc (cur / BASE) (limbs ++ [cur mod BASE])
  end.

(** The scale is a [u16]: the sum wraps in a release build. *)
Definition mul (self other : BigNumeric) : BigNumeric :=
  if is_zero self || is_zero other then mk_big false [] (wrapping_add 16 (scale self) (scale other))
  else
    let acc := mul_rows 0 (limbs self) (limbs other) (repeat 0 (length (limbs self) + length (limbs other))) in
    let '(limbs, carry) := narrow acc 0 [] in
    let limbs := push_carry 3 carry limbs in
    let out := mk_big (negb (Bool.eqb (neg self) (neg other))) limbs (wrapping_add 16 (scale self) (scale other)) in
    normalize out.

(** ** Division: Knuth's algorithm D

    [None] is a panic: a division by zero, or [v.len() - 1] with [v] empty.
    Indices are in range by the lengths the vectors are given. *)

Definition div_u (x d : Z) : option (Z * Z) := if d =? 0 then None else Some (x / d, x mod d).

(** [for i in (0..u.len()).rev()]: [q] and the remainder. *)
Fixpoint short_div (n : nat) (u : list Z) (d rem : Z) (q : list Z) : option (list Z * Z) :=
  match n with
  | O => Some (q, rem)
  | S i =>
    let cur := rem * BASE + u !!! i in
    let! (x, rem) := div_u cur d in
    short_div i u d rem (<[i := wrap 32 x]> q)
  end.

(** D3: the [while] loop.  Each turn adds [v1], at least half of [BASE], to
    [rhat], so that the second turn ends the loop. *)
Fixpoint adjust (fuel : nat) (qhat rhat v1 v0 u0 : Z) : option Z :=
  if (BASE <=? qhat) || (rhat * BASE + u0 <? qhat * v0) then
    match fuel with
    | O => None
    | S fuel =>
      let qhat := qhat - 1 in
      let rhat := rhat + v1 in
      if BASE <=? rhat then Some qhat else adjust fuel qhat rhat v1 v0 u0
    end
  else Some qhat.

(** D4: [un[j..j+n] -= qhat * vn], with its borrow and carry. *)
Definition mulsub_step (qhat : Z) (vn : list Z) (j : nat) (st : list Z * Z * Z) (i : nat) : list Z * Z * Z :=
  let '(un, borrow, carry) := st in
  let p := qhat * (vn !!! i) + carry in
  let carry := wrap 64 (p / BASE) in
  let sub := p mod BASE in
  let t := un !!! (j + i)%nat - sub - borrow in
  let '(t, borrow) := if t <? 0 then (t + BASE, 1) else (t, 0) in
  (<[(j + i)%nat := wrap 32 t]> un, borrow, carry).

(** D6: [un[j..j+n] += vn]. *)
Definition addback_step (vn : list Z) (j : nat) (st : list Z * Z) (i : nat) : list Z * Z :=
  let '(un, c) := st in
  let s := un !!! (j + i)%nat + vn !!! i + c in
  (<[(j + i)%nat := s mod BASE]> un, s / BASE).

(** One turn of D2..D7. *)
Definition div_step (vn : list Z) (n j : nat) (un q : list Z) : option (list Z * list Z) :=
  let num := un !!! (j + n)%nat * BASE + un !!! (j + n - 1)%nat in
  let! (qhat, rhat) := div_u num (vn !!! (n - 1)%nat) in
  let! qhat := adjust 2 qhat rhat (vn !!! (n - 1)%nat) (vn !!! (n - 2)%nat) (un !!! (j + n - 2)%nat) in
  let '(un, borrow, carry) := fold_left (mulsub_step qhat vn j) (seq 0 n) (un, 0, 0) in
  let t := un !!! (j + n)%nat - carry - borrow in
  let '(un, qhat, t) :=
    if t <? 0 then
      let qhat := qhat - 1 in
      let '(un, c) := fold_left (addback_step vn j) (seq 0 n) (un, 0) in
      (un, qhat, t + (BASE + c))
    else (un, qhat, t) in
  let un := <[(j + n)%nat := wrap 32 t]> un in
  Some (un, <[j := wrap 32 qhat]> q).

(** [for j in (0..=m).rev()], from [j = k - 1] down. *)
Fixpoint div_loop (k : nat) (vn : list Z) (n : nat) (un q : list Z) : option (list Z * list Z) :=
  match k with
  | O => Some (un, q)
  | S j => let! (un, q) := div_step vn n j un q in div_loop j vn n un q
  end.

(** [v.resize(n, 0)] *)
Definition resize (n : nat) (v : list Z) : list Z := take n v ++ repeat 0 (n - length v).

(** The body of [div_rem_mag]; [rec] is the recursive call. *)
Definition div_rem_body (rec : list Z -> list Z -> option (list Z * list Z)) (u v : list Z) : option (list Z * list Z) :=
  match cmp_mag u v with
  | Lt => let r := u in Some ([], pop_zeros r)
  | _ =>
    match v with
    | [] => None
    | [d] =>
      let! (q, rem) := short_div (length u) u d 0 (repeat 0 (length u)) in
      let q := pop_zeros q in
      let r := if rem =? 0 then [] else [rem] in
      Some (q, r)
    | _ =>
      let n := length v in
      let! (d, _) := div_u BASE (v !!! (n - 1)%nat + 1) in
      let vn := resize n (mul_scalar v d) in
      let m := (length u - n)%nat in
      let un := resize (length u + 1) (mul_scalar u d) in
      let! (un, q) := div_loop (m + 1) vn n un (repeat 0 (m + 1)) in
      let rem := pop_zeros (take n un) in
      let! (rem, _) := rec rem [d] in
      Some (pop_zeros q, rem)
    end
  end.

(** The recursive call divides by one limb and makes no further call. *)
Definition div_rem_1 : list Z -> list Z -> option (list Z * list Z) := div_rem_body (fun _ _ => None).
Definition div_rem_mag : list Z -> list Z -> option (list Z * list Z) := div_rem_body div_rem_1.

Definition div_rem_int (self other : BigNumeric) : option (BigNumeric * BigNumeric) :=
  let! (q, r) := div_rem_mag (limbs self) (limbs other) in
  let quo := mk_big (negb (Bool.eqb (neg self) (neg other))) q 0 in
  let rem := mk_big (neg self) r 0 in
  Some (normalize quo, normalize rem).

(** A panic is [None], the code's own [None] is [Some None]. *)
Definition div (self other : BigNumeric) (result_scale : Z) : option (option BigNumeric) :=
  if is_zero other then Some None
  else
    let want := result_scale + 1 + scale other - scale self in
    let num := if 0 <? want then mul_pow10 (limbs self) want else limbs self in
    let den := if want <? 0 then mul_pow10 (limbs other) (- want) else limbs other in
    let! (q, _) := div_rem_mag num den in
    let guard := match q with [] => 0 | q0 :: _ => q0 mod 10 end in
    let! (q, _) := div_rem_mag q [10] in
    let q := if 5 <=? guard then add_mag q [1] else q in
    let out := mk_big (negb (Bool.eqb (neg self) (neg other))) q result_scale in
    Some (Some (normalize out)).

(** ** Square root *)

(** Newton's loop.  Every turn at least halves the distance to the root, so
    that the number of binary digits of the first guess bounds the turns. *)
Fixpoint newton (fuel : nat) (n x two : BigNumeric) : option BigNumeric :=
  let! (div, _) := div_rem_int n x in
  let sum := add x div in
  let! (next, _) := div_rem_int sum two in
  match cmp next x with
  | Lt => match fuel with O => None | S fuel => newton fuel n next two end
  | _ => Some x
  end.

(** [while x.mul(&x).cmp(&n) == Greater]: Newton's loop leaves nothing to do. *)
Fixpoint descend (fuel : nat) (n x one : BigNumeric) : option BigNumeric :=
  match cmp (mul x x) n with
  | Gt => match fuel with O => None | S fuel => descend fuel n (sub x one) one end
  | _ => Some x
  end.

Definition isqrt_mag (self : BigNumeric) : option BigNumeric :=
  let n := mk_big false (limbs self) 0 in
  if is_zero n then Some (mk_big false [] 0)
  else
    let! top := last (limbs n) in
    let ndigits := ((length (limbs n) - 1) * BASE_DIGITS + length (to_string top))%nat in
    let half := ((ndigits + 1) / 2)%nat in
    let one := from_i128 1 0 in
    let two := from_i128 2 0 in
    let x := mk_big false (mul_pow10 (limbs one) (Z.of_nat half)) 0 in
    let! x := newton (30 * length (limbs x) + 1) n x two in
    descend 1 n x one.

Definition sqrt (self : BigNumeric) (result_scale : Z) : option (option BigNumeric) :=
  if neg self && negb (is_zero self) then Some None
  else if is_zero self then Some (Some (mk_big false [] result_scale))
  else
    let shift := 2 * (result_scale + 1) - scale self in
    let mant := mk_big false (limbs self) 0 in
    let! radicand :=
      if 0 <=? shift then Some (mk_big false (mul_pow10 (limbs mant) shift) 0)
      else
        let! (q, _) := div_rem_mag (limbs mant) (mul_pow10 [1] (- shift)) in
        Some (mk_big false q 0) in
    let! root := isqrt_mag radicand in
    let ten := from_i128 10 0 in
    let! (q, r) := div_rem_int root ten in
    let five := from_i128 5 0 in
    let rounded := match cmp r five with Lt => q | _ => add q (from_i128 1 0) end in
    Some (Some (normalize (mk_big (neg rounded) (limbs rounded) result_scale))).

(** ** Rounding *)

Definition round_to (self : BigNumeric) (target_scale : Z) : option BigNumeric :=
  match Z.compare (scale self) target_scale with
  | Eq => Some self
  | Lt =>
    let k := target_scale - scale self in
    Some (normalize (mk_big (neg self) (mul_pow10 (limbs self) k) target_scale))
  | Gt =>
    let k := scale self - target_scale in
    let divisor := mul_pow10 [1] k in
    let! (q, r) := div_rem_mag (limbs self) divisor in
    let two_r := mul_scalar r 2 in
    let q := match cmp_mag two_r divisor with Lt => q | _ => add_mag q [1] end in
    Some (normalize (mk_big (neg self) q target_scale))
  end.

(** ** Text *)

(** [char::is_whitespace]: Unicode's White_Space. *)
Definition is_whitespace (c : Z) : bool :=
  ((0x09 <=? c) && (c <=? 0x0D)) || (c =? 0x20) || (c =? 0x85) || (c =? 0xA0) || (c =? 0x1680)
  || ((0x2000 <=? c) && (c <=? 0x200A)) || (c =? 0x2028) || (c =? 0x2029) || (c =? 0x202F)
  || (c =? 0x205F) || (c =? 0x3000).

(** [s.trim_start_matches(p)] *)
Fixpoint trim_start_matches (p : Z -> bool) (s : list Z) : list Z :=
  match s with
  | [] => []
  | c :: s' => if p c then trim_start_matches p s' else s
  end.

Definition trim (s : list Z) : list Z :=
  rev (trim_start_matches is_whitespace (rev (trim_start_matches is_whitespace s))).

Definition strip_prefix (c : Z) (s : list Z) : option (list Z) :=
  match s with
  | d :: s => if d =? c then Some s else None
  | [] => None
  end.

(** [chunk.parse::<u32>().ok()] *)
Definition parse_u32 (chunk : list Z) : option Z :=
  let digits := match chunk with c :: (_ :: _) as rest => if c =? 43 then rest else chunk | _ => chunk end in
  match digits with
  | [] => None
  | _ =>
    if forallb is_ascii_digit digits then
      let n := fold_left (fun n c => n * 10 + (c - 48)) digits 0 in
      if n <? 2 ^ 32 then Some n else None
    else None
  end.

Definition repeat_str (c : Z) (n : nat) : list Z := repeat c n.

(** [{limb:0width$}] *)
Definition pad_zero (width : nat) (s : list Z) : list Z := repeat_str 48 (width - length s) ++ s.

Definition to_decimal_str (self : BigNumeric) : list Z :=
  if is_zero self then
    if scale self =? 0 then [48] else [48; 46] ++ repeat_str 48 (Z.to_nat (scale self))
  else
    let digits :=
      match rev (limbs self) with
      | [] => []
      | top :: rest => fold_left (fun digits limb => digits ++ pad_zero BASE_DIGITS (to_string limb)) rest (to_string top)
      end in
    let scale := Z.to_nat (scale self) in
    let body :=
      if (scale =? 0)%nat then digits
      else if (length digits <=? scale)%nat then
        let pad := (scale + 1 - length digits)%nat in
        let padded := repeat_str 48 pad ++ digits in
        let point := (length padded - scale)%nat in
        take point padded ++ [46] ++ drop point padded
      else
        let point := (length digits - scale)%nat in
        take point digits ++ [46] ++ drop point digits in
    if neg self then [45] ++ body else body.

(** [while i > 0 { .. }]: nine digits a turn; [i] bounds the turns. *)
Fixpoint group_limbs (fuel : nat) (bytes : list Z) (i : nat) (limbs : list Z) : option (list Z) :=
  match fuel with
  | O => Some limbs
  | S fuel =>
    if (i =? 0)%nat then Some limbs
    else
      let start := (i - BASE_DIGITS)%nat in
      let! limb := parse_u32 (slice start (i - start) bytes) in
      group_limbs fuel bytes start (limbs ++ [limb])
  end.

Definition from_decimal_str (s : list Z) : option BigNumeric :=
  let s := trim s in
  let '(neg, rest) :=
    match strip_prefix 45 s with
    | Some r => (true, r)
    | None => (false, default s (strip_prefix 43 s))
    end in
  let '(int_part, frac_part) := default (rest, []) (split_once 46 rest) in
  if match int_part, frac_part with [], [] => true | _, _ => false end then None
  else if negb (forallb is_ascii_digit int_part) || negb (forallb is_ascii_digit frac_part) then None
  else
    let scale := Z.of_nat (length frac_part) in
    if negb (scale <? 2 ^ 16) then None
    else
      let all := int_part ++ frac_part in
      let trimmed := trim_start_matches (Z.eqb 48) all in
      let digits := match trimmed with [] => [48] | _ => trimmed end in
      let! limbs := group_limbs (length digits) digits (length digits) [] in
      Some (normalize (mk_big neg limbs scale)).

(** ** Transcendental functions

    [fuel] bounds the turns of every loop, and [None] is also running out of
    it. *)

Definition transcendental_scale (self : BigNumeric) : Z :=
  let ndigits :=
    match last (limbs self) with
    | None => 1
    | Some top => Z.of_nat ((length (limbs self) - 1) * BASE_DIGITS + length (to_string top))
    end in
  let int_digits := ndigits - scale self in
  if int_digits <=? 1 then 16 else Z.max (17 - int_digits) 0.

(** [x.div(&y, ws).unwrap()] *)
Definition div_unwrap (x y : BigNumeric) (ws : Z) : option BigNumeric := let! r := div x y ws in r.

(** [while t.cmp(&sixteenth) == Greater] *)
Fixpoint halve (fuel : nat) (t sixteenth two : BigNumeric) (ws : Z) (halvings : nat) : option (BigNumeric * nat) :=
  match cmp t sixteenth with
  | Gt =>
    match fuel with
    | O => None
    | S fuel => let! t := div_unwrap t two ws in halve fuel t sixteenth two ws (halvings + 1)
    end
  | _ => Some (t, halvings)
  end.

(** The series of the exponential. *)
Fixpoint exp_series (fuel : nat) (t sum term : BigNumeric) (k ws : Z) : option BigNumeric :=
  match fuel with
  | O => None
  | S fuel =>
    let! term := round_to (mul term t) ws in
    let! term := div_unwrap term (from_i128 k 0) ws in
    if is_zero term then Some sum
    else
      let sum := add sum term in
      exp_series fuel t sum term (k + 1) ws
  end.

(** [for _ in 0..halvings] *)
Fixpoint square_up (halvings : nat) (sum : BigNumeric) (ws : Z) : option BigNumeric :=
  match halvings with
  | O => Some sum
  | S halvings => let! sum := round_to (mul sum sum) ws in square_up halvings sum ws
  end.

(** ["0.0625"], and the constants of [ln_at]. *)
Definition str_sixteenth : list Z := [48; 46; 48; 54; 50; 53].
Definition str_ln2 : list Z :=
  [48; 46; 54; 57; 51; 49; 52; 55; 49; 56; 48; 53; 53; 57; 57; 52; 53; 51; 48; 57; 52; 49; 55; 50; 51; 50; 49;
   50; 49; 52; 53; 56; 49; 55; 54; 53; 54; 56; 48; 55; 53; 53].
Definition str_four_thirds : list Z := [49; 46] ++ repeat 51 16.
Definition str_two_thirds : list Z := [48; 46] ++ repeat 54 15 ++ [55].

Definition exp_core (fuel : nat) (self : BigNumeric) (ws : Z) : option BigNumeric :=
  let one := from_i128 1 0 in
  if is_zero self then round_to one ws
  else
    let! sixteenth := from_decimal_str str_sixteenth in
    let two := from_i128 2 0 in
    let! (t, halvings) := halve fuel self sixteenth two ws 0 in
    let! sum := round_to one ws in
    let! term := round_to one ws in
    let! sum := exp_series fuel t sum term 1 ws in
    square_up halvings sum ws.

Definition exp (fuel : nat) (self : BigNumeric) : option BigNumeric :=
  let ws := 28 in
  let! raw :=
    if neg self && negb (is_zero self) then
      let! pos := exp_core fuel (negate self) ws in
      div_unwrap (from_i128 1 0) pos ws
    else exp_core fuel self ws in
  round_to raw (transcendental_scale raw).

(** [while m.cmp(&four_thirds) != Less] *)
Fixpoint scale_down (fuel : nat) (m four_thirds two : BigNumeric) (ws e : Z) : option (BigNumeric * Z) :=
  match cmp m four_thirds with
  | Lt => Some (m, e)
  | _ =>
    match fuel with
    | O => None
    | S fuel => let! m := div_unwrap m two ws in scale_down fuel m four_thirds two ws (e + 1)
    end
  end.

(** [while m.cmp(&two_thirds) == Less] *)
Fixpoint scale_up (fuel : nat) (m two_thirds two : BigNumeric) (ws e : Z) : option (BigNumeric * Z) :=
  match cmp m two_thirds with
  | Lt =>
    match fuel with
    | O => None
    | S fuel => let! m := round_to (mul m two) ws in scale_up fuel m two_thirds two ws (e - 1)
    end
  | _ => Some (m, e)
  end.

(** The series of the logarithm. *)
Fixpoint ln_series (fuel : nat) (t2 sum power : BigNumeric) (k ws : Z) : option BigNumeric :=
  match fuel with
  | O => None
  | S fuel =>
    let! power := round_to (mul power t2) ws in
    let! term := div_unwrap power (from_i128 k 0) ws in
    if is_zero term then Some sum
    else
      let sum := add sum term in
      ln_series fuel t2 sum power (k + 2) ws
  end.

(** The code's own [None] is [Some None]. *)
Definition ln_at (fuel : nat) (self : BigNumeric) (ws : Z) : option (option BigNumeric) :=
  if neg self || is_zero self then Some None
  else
    let two := from_i128 2 0 in
    let! ln2 := from_decimal_str str_ln2 in
    let! four_thirds := from_decimal_str str_four_thirds in
    let! two_thirds := from_decimal_str str_two_thirds in
    let! m := round_to self ws in
    let! (m, e) := scale_down fuel m four_thirds two ws 0 in
    let! (m, e) := scale_up fuel m two_thirds two ws e in
    let one := from_i128 1 0 in
    let! t := div_unwrap (sub m one) (add m one) ws in
    let! t2 := round_to (mul t t) ws in
    let! sum := ln_series fuel t2 t t 3 ws in
    let! ln_m := round_to (mul sum two) ws in
    let! e_ln2 := round_to (mul ln2 (from_i128 e 0)) ws in
    Some (Some (add ln_m e_ln2)).

Definition ln (fuel : nat) (self : BigNumeric) : option (option BigNumeric) :=
  let! raw := ln_at fuel self 30 in
  match raw with
  | None => Some None
  | Some raw => let! r := round_to raw (transcendental_scale raw) in Some (Some r)
  end.

Definition pow_numeric (fuel : nat) (self e : BigNumeric) : option (option BigNumeric) :=
  if neg self || is_zero self then Some None
  else
    let ws := 30 in
    let! ln_hi := ln_at fuel self ws in
    match ln_hi with
    | None => Some None
    | Some ln_hi =>
      let! prod := round_to (mul e ln_hi) ws in
      let! r := exp fuel prod in
      Some (Some r)
    end.

Definition log_base (fuel : nat) (self base : BigNumeric) : option (option BigNumeric) :=
  let ws := 32 in
  let! ln_x := ln_at fuel self ws in
  match ln_x with
  | None => Some None
  | Some ln_x =>
    let! ln_b := ln_at fuel base ws in
    match ln_b with
    | None => Some None
    | Some ln_b =>
      if is_zero ln_b then Some None
      else
        let! raw := div ln_x ln_b ws in
        match raw with
        | None => Some None
        | Some raw => let! r := round_to raw (transcendental_scale raw) in Some (Some r)
        end
    end
  end.

Definition log10 (fuel : nat) (self : BigNumeric) : option (option BigNumeric) := log_base fuel self (from_i128 10 0).
