(* ===== verification/BigNumMag.v ===== *)
(** Magnitudes of bignum.rs against the integers they stand for: comparison,
    addition, subtraction, products by a power of ten, by a limb and in full. *)
From S2P Require Import Prelude Bytes BigNum.
Open Scope Z_scope.

(** ** The value of a magnitude *)

Fixpoint val (l : list Z) : Z :=
  match l with
  | [] => 0
  | x :: l => x + BASE * val l
  end.

(** [BASE^n]. *)
Definition bpow (n : nat) : Z := BASE ^ Z.of_nat n.

Definition limb_ok (x : Z) : Prop := 0 <= x < BASE.
Definition limbs_ok (l : list Z) : Prop := Forall limb_ok l.

(** No most significant zero limb. *)
Definition normal (l : list Z) : Prop := last l <> Some 0.

Definition mag_ok (l : list Z) : Prop := limbs_ok l /\ normal l.

#[export] Instance limb_ok_dec x : Decision (limb_ok x).
Proof. unfold limb_ok. apply _. Defined.
#[export] Instance mag_ok_dec l : Decision (mag_ok l).
Proof. unfold mag_ok, limbs_ok, normal. apply _. Defined.

Lemma BASE_gt : 1 < BASE.
Proof. done. Qed.

Lemma BASE_u32 : 2 * BASE < 2 ^ 32.
Proof. done. Qed.

Lemma bpow_0 : bpow 0 = 1.
Proof. done. Qed.

Lemma bpow_S n : bpow (S n) = BASE * bpow n.
Proof. unfold bpow. by rewrite Nat2Z.inj_succ, Z.pow_succ_r by lia. Qed.

Lemma bpow_add n m : bpow (n + m) = bpow n * bpow m.
Proof. unfold bpow. by rewrite Nat2Z.inj_add, Z.pow_add_r by lia. Qed.

Lemma bpow_pos n : 0 < bpow n.
Proof. unfold bpow. apply Z.pow_pos_nonneg; [done|lia]. Qed.

Lemma bpow_le n m : (n <= m)%nat -> bpow n <= bpow m.
Proof. intros H. unfold bpow. apply Z.pow_le_mono_r; [done|lia]. Qed.

Lemma val_app a b : val (a ++ b) = val a + bpow (length a) * val b.
Proof.
  induction a as [|x a IH]; cbn [app val length]; [rewrite bpow_0; lia|].
  rewrite IH, bpow_S. lia.
Qed.

Lemma val_snoc l x : val (l ++ [x]) = val l + bpow (length l) * x.
Proof. rewrite val_app. cbn. lia. Qed.

Lemma val_bound l : limbs_ok l -> 0 <= val l < bpow (length l).
Proof.
  induction 1 as [|x l Hx _ IH]; cbn [val length]; [rewrite bpow_0; lia|].
  rewrite bpow_S. pose proof BASE_gt. unfold limb_ok in Hx. nia.
Qed.

Lemma val_repeat n : val (repeat 0 n) = 0.
Proof. induction n; cbn [repeat val]; lia. Qed.

Lemma limbs_ok_repeat n : limbs_ok (repeat 0 n).
Proof. apply Forall_forall. intros x Hx. apply list_elem_of_In, repeat_spec in Hx as ->. done. Qed.

Lemma limbs_ok_nil : limbs_ok [].
Proof. by apply Forall_nil. Qed.

Lemma limbs_ok_app a b : limbs_ok (a ++ b) <-> limbs_ok a /\ limbs_ok b.
Proof. apply Forall_app. Qed.

Lemma limbs_ok_snoc l x : limbs_ok l -> limb_ok x -> limbs_ok (l ++ [x]).
Proof. intros Hl Hx. apply limbs_ok_app. split; [done|by apply Forall_singleton]. Qed.

Lemma limbs_ok_take n l : limbs_ok l -> limbs_ok (take n l).
Proof. apply Forall_take. Qed.

Lemma limbs_ok_drop n l : limbs_ok l -> limbs_ok (drop n l).
Proof. apply Forall_drop. Qed.

Lemma limb_ok_lookup l i : limbs_ok l -> limb_ok (limb l i).
Proof.
  intros Hl. unfold limb. destruct (l !! i) as [x|] eqn:E; [|done].
  by apply (Forall_lookup_1 _ _ _ _ Hl E).
Qed.

Lemma limb_total l i : (i < length l)%nat -> l !!! i = limb l i.
Proof.
  intros H. destruct (lookup_lt_is_Some_2 l i H) as [x Hx]. unfold limb. by rewrite Hx, (list_lookup_total_correct _ _ _ Hx).
Qed.

Lemma limb_ge l i : (length l <= i)%nat -> limb l i = 0.
Proof. intros H. unfold limb. by rewrite lookup_ge_None_2. Qed.

Lemma val_take_S l i : val (take (S i) l) = val (take i l) + bpow i * limb l i.
Proof.
  destruct (decide (i < length l)%nat) as [H|H].
  - destruct (lookup_lt_is_Some_2 l i H) as [x Hx]. unfold limb.
    rewrite (take_S_r _ _ _ Hx), Hx, val_snoc, length_take_le by lia. done.
  - rewrite limb_ge, !take_ge by lia. lia.
Qed.

Lemma limbs_ok_insert l i x : limbs_ok l -> limb_ok x -> limbs_ok (<[i := x]> l).
Proof. intros. by apply Forall_insert. Qed.

Lemma val_insert l i x : (i < length l)%nat -> val (<[i := x]> l) = val l + bpow i * (x - limb l i).
Proof.
  revert i. induction l as [|y l IH]; intros [|i] Hi; cbn [length] in *; try lia.
  - cbn. rewrite bpow_0. unfold limb. cbn. lia.
  - cbn [insert list_insert val]. change (list_insert i x l) with (<[i := x]> l). rewrite IH by lia. rewrite bpow_S.
    change (limb (y :: l) (S i)) with (limb l i). lia.
Qed.

Lemma limb_insert l i j x : (i < length l)%nat -> limb (<[i := x]> l) j = if decide (i = j) then x else limb l j.
Proof.
  intros Hi. unfold limb. case_decide as E.
  - subst. by rewrite list_lookup_insert_eq.
  - by rewrite list_lookup_insert_ne.
Qed.

#[export] Hint Resolve limbs_ok_snoc limbs_ok_take limbs_ok_drop limb_ok_lookup limbs_ok_insert limbs_ok_repeat limbs_ok_nil : spg.

(** A remainder and its quotient as a limb and a carry. *)
Lemma limb_ok_mod v : limb_ok (v mod BASE).
Proof. apply Z.mod_pos_bound. done. Qed.
#[export] Hint Resolve limb_ok_mod : spg.

Lemma split_base v : v = v mod BASE + BASE * (v / BASE).
Proof. rewrite Z.add_comm. by apply Z.div_mod. Qed.

(** ** Normal form *)

Lemma pop_zeros_val l : val (pop_zeros l) = val l.
Proof.
  induction l as [|x l IH]; [done|]. cbn [pop_zeros val]. rewrite <- IH.
  destruct (pop_zeros l); [|done]. case_if; cbn [val]; lia.
Qed.

Lemma pop_zeros_ok l : limbs_ok l -> limbs_ok (pop_zeros l).
Proof.
  induction 1 as [|x l Hx Hl IH]; [by constructor|]. cbn [pop_zeros].
  destruct (pop_zeros l); [|by constructor]. case_if; constructor; done.
Qed.

Lemma pop_zeros_normal l : normal (pop_zeros l).
Proof.
  unfold normal. induction l as [|x l IH]; [done|]. cbn [pop_zeros].
  destruct (pop_zeros l) as [|y l']; [case_if; cbn; congruence|]. done.
Qed.

Lemma pop_zeros_mag_ok l : limbs_ok l -> mag_ok (pop_zeros l).
Proof. intros H. split; [by apply pop_zeros_ok|apply pop_zeros_normal]. Qed.

Lemma pop_zeros_id l : normal l -> pop_zeros l = l.
Proof.
  induction l as [|x l IH]; [done|]. intros Hn. destruct l as [|y l].
  - cbn. case_if; [|done]. subst. by destruct Hn.
  - cbn [pop_zeros] in *. rewrite IH by done. done.
Qed.

#[export] Hint Resolve pop_zeros_ok pop_zeros_mag_ok pop_zeros_normal : spg.

(** Normal exactly when the value needs all the limbs. *)
Lemma normal_ge l : limbs_ok l -> l <> [] -> normal l <-> bpow (length l - 1) <= val l.
Proof.
  intros Hl Hne. destruct l as [|x l _] using rev_ind; [done|]. apply limbs_ok_app in Hl as [Hl Hx].
  apply Forall_cons in Hx as [Hx _]. unfold normal. rewrite last_snoc, val_snoc, length_app. cbn [length].
  replace (length l + 1 - 1)%nat with (length l) by lia. pose proof (val_bound l Hl). pose proof (bpow_pos (length l)).
  unfold limb_ok in Hx. split.
  - intros Hn. assert (1 <= x) by (destruct (decide (x = 0)); [congruence|lia]). nia.
  - intros Hv [= ->]. lia.
Qed.

Lemma mag_ok_nil : mag_ok [].
Proof. split; [apply limbs_ok_nil|done]. Qed.

Lemma mag_ok_zero l : mag_ok l -> val l = 0 <-> l = [].
Proof.
  intros [Hl Hn]. split; [|by intros ->]. intros Hv. destruct (decide (l = [])); [done|].
  pose proof (bpow_pos (length l - 1)). apply (normal_ge l Hl) in Hn; [lia|done].
Qed.

Lemma mag_ok_pos l : mag_ok l -> l <> [] -> 0 < val l.
Proof. intros [Hl Hn] Hne. pose proof (bpow_pos (length l - 1)). apply (normal_ge l Hl) in Hn; [lia|done]. Qed.

(** The number of limbs is that of the value. *)
Lemma mag_ok_length_lt a b : mag_ok a -> mag_ok b -> (length a < length b)%nat -> val a < val b.
Proof.
  intros [Ha _] [Hb Hn] Hlt. pose proof (val_bound a Ha).
  assert (b <> []) by (intros ->; cbn in Hlt; lia). apply (normal_ge b Hb) in Hn; [|done].
  pose proof (bpow_le (length a) (length b - 1) ltac:(lia)). lia.
Qed.

Lemma mag_ok_inj a b : mag_ok a -> mag_ok b -> val a = val b -> a = b.
Proof.
  intros Ha Hb Hv. assert (Hlen : length a = length b).
  { destruct (lt_eq_lt_dec (length a) (length b)) as [[H|H]|H]; [|done|].
    - pose proof (mag_ok_length_lt _ _ Ha Hb H). lia.
    - pose proof (mag_ok_length_lt _ _ Hb Ha H). lia. }
  destruct Ha as [Ha _], Hb as [Hb _]. clear -Hlen Ha Hb Hv. revert b Hlen Hb Hv. induction Ha as [|x a Hx Ha IH];
    intros [|y b] Hlen Hb Hv; try done. apply Forall_cons in Hb as [Hy Hb]. cbn [val length] in *.
  unfold limb_ok in *. pose proof BASE_gt. assert (val a = val b) by nia. f_equal; [nia|]. apply IH; [lia|done|done].
Qed.

(** ** Comparison *)

Lemma cmp_limbs_spec n a b : limbs_ok a -> limbs_ok b -> (n <= length a)%nat -> (n <= length b)%nat ->
  cmp_limbs n a b = Z.compare (val (take n a)) (val (take n b)).
Proof.
  intros Ha Hb. induction n as [|i IH]; intros Hna Hnb; [done|]. cbn [cmp_limbs]. rewrite !limb_total, !val_take_S by lia.
  pose proof (val_bound (take i a) ltac:(auto with spg)) as H1. pose proof (val_bound (take i b) ltac:(auto with spg)) as H2.
  rewrite length_take_le in H1, H2 by lia. pose proof (bpow_pos i). rewrite IH by lia. symmetry.
  destruct (Z.compare_spec (limb a i) (limb b i)) as [E|E|E].
  - rewrite E, !(Z.add_comm (val _)). apply Z.add_compare_mono_l.
  - apply Z.compare_lt_iff. nia.
  - apply Z.compare_gt_iff. nia.
Qed.

Lemma cmp_mag_spec a b : mag_ok a -> mag_ok b -> cmp_mag a b = Z.compare (val a) (val b).
Proof.
  intros Ha Hb. unfold cmp_mag. symmetry. destruct (Nat.compare_spec (length a) (length b)) as [E|E|E].
  - rewrite cmp_limbs_spec by (apply Ha || apply Hb || lia). rewrite take_ge by lia. by rewrite take_ge by lia.
  - apply Z.compare_lt_iff. by apply mag_ok_length_lt.
  - apply Z.compare_gt_iff. by apply mag_ok_length_lt.
Qed.

(** ** Addition and subtraction *)

Lemma add_mag_spec a b : limbs_ok a -> limbs_ok b ->
  val (add_mag a b) = val a + val b /\ limbs_ok (add_mag a b).
Proof.
  intros Ha Hb. unfold add_mag. set (n := Nat.max (length a) (length b)).
  pose proof (fold_seq_ind (add_step a b)
    (fun i st => length st.1 = i /\ limbs_ok st.1 /\ 0 <= st.2 <= 1 /\
       val st.1 + bpow i * st.2 = val (take i a) + val (take i b)) n ([], 0)) as H.
  destruct (fold_left _ _ _) as [out carry]. cbn [fst snd] in H.
  destruct H as (Hlen & Hok & Hc & Hv).
  - cbn [fst snd]. split_and!; [done|apply limbs_ok_nil|lia|lia|rewrite !take_0; cbn [val]; lia].
  - intros i [o c] Hi (Hl & Ho & Hc & Hv). cbn [fst snd] in *. unfold add_step. cbn [fst snd].
    pose proof (limb_ok_lookup a i Ha) as H1. pose proof (limb_ok_lookup b i Hb) as H2. unfold limb_ok in H1, H2.
    set (s := limb a i + limb b i + c). pose proof BASE_gt. assert (0 <= s < 2 * BASE) by (unfold s; lia). split_and!.
    + rewrite length_app. cbn. lia.
    + auto with spg.
    + apply Z.div_pos; lia.
    + assert (s / BASE < 2); [apply Z.div_lt_upper_bound; lia|lia].
    + rewrite val_snoc, bpow_S, !val_take_S, Hl. pose proof (split_base s) as E. unfold s in E at 1. nia.
  - rewrite !take_ge in Hv by lia. case_if.
    + split; [|apply limbs_ok_snoc; [done|unfold limb_ok; pose proof BASE_gt; lia]]. rewrite val_snoc, Hlen. lia.
    + split; [lia|done].
Qed.

Lemma sub_mag_spec a b : limbs_ok a -> limbs_ok b -> val b <= val a -> (length b <= length a)%nat ->
  val (sub_mag a b) = val a - val b /\ mag_ok (sub_mag a b).
Proof.
  intros Ha Hb Hle Hlb. unfold sub_mag.
  pose proof (fold_seq_ind (sub_step a b)
    (fun i st => length st.1 = i /\ limbs_ok st.1 /\ 0 <= st.2 <= 1 /\
       val st.1 - bpow i * st.2 = val (take i a) - val (take i b)) (length a) ([], 0)) as H.
  destruct (fold_left _ _ _) as [out borrow]. cbn [fst snd] in H.
  destruct H as (Hlen & Hok & Hc & Hv).
  - cbn [fst snd]. split_and!; [done|apply limbs_ok_nil|lia|lia|rewrite !take_0; cbn [val]; lia].
  - intros i [o c] Hi (Hl & Ho & Hc & Hv). cbn [fst snd] in *. unfold sub_step. rewrite limb_total by done.
    pose proof (limb_ok_lookup a i Ha) as H1. pose proof (limb_ok_lookup b i Hb) as H2. unfold limb_ok in H1, H2.
    pose proof BASE_gt. pose proof BASE_u32. case_if; cbn [fst snd]; rewrite wrap_id by (unfold in_w; lia).
    + split_and!; [rewrite length_app; cbn; lia|apply limbs_ok_snoc; [done|unfold limb_ok; lia]|lia|lia|].
      rewrite val_snoc, bpow_S, !val_take_S, Hl. nia.
    + split_and!; [rewrite length_app; cbn; lia|apply limbs_ok_snoc; [done|unfold limb_ok; lia]|lia|lia|].
      rewrite val_snoc, bpow_S, !val_take_S, Hl. nia.
  - rewrite !take_ge in Hv by lia. rewrite pop_zeros_val. split; [|by apply pop_zeros_mag_ok].
    pose proof (val_bound out Hok) as Ho. rewrite Hlen in Ho. assert (borrow = 0 \/ borrow = 1) as [-> | ->] by lia; lia.
Qed.

(** ** Products by a small factor *)

Lemma scale_limbs_spec l : forall f c out, limbs_ok l -> 0 <= f <= BASE -> 0 <= c -> c <= f -> limbs_ok out ->
  let '(out', c') := scale_limbs l f c out in
  length out' = (length out + length l)%nat /\ limbs_ok out' /\ 0 <= c' <= f /\
  val out' + bpow (length out') * c' = val out + bpow (length out) * (val l * f + c).
Proof.
  induction l as [|x l IH]; intros f c out Hl Hf Hc Hcf Hout; cbn [scale_limbs].
  - split_and!; [cbn; lia|done|lia|lia|cbn [val]; lia].
  - apply Forall_cons in Hl as [Hx Hl]. unfold limb_ok in Hx. set (v := x * f + c).
    pose proof BASE_gt. assert (0 <= v) by nia.
    assert (v / BASE <= f).
    { destruct (decide (f = 0)) as [->|]; [|apply Z.lt_succ_r, Z.div_lt_upper_bound; unfold v; nia].
      assert (c = 0) as -> by lia. unfold v. rewrite Z.mul_0_r. done. }
    specialize (IH f (v / BASE) (out ++ [v mod BASE]) Hl Hf ltac:(apply Z.div_pos; lia) ltac:(done) ltac:(auto with spg)).
    destruct (scale_limbs _ _ _ _) as [out' c']. destruct IH as (I1 & I2 & I3 & I4).
    rewrite length_app in *. cbn [length] in *. split_and!; [lia|done|lia|lia|].
    rewrite I4, val_snoc, Nat.add_1_r, bpow_S. cbn [val]. pose proof (split_base v) as E. unfold v in E at 1. nia.
Qed.

Lemma push_carry_spec fuel : forall c out, limbs_ok out -> 0 <= c < bpow fuel ->
  val (push_carry fuel c out) = val out + bpow (length out) * c /\ limbs_ok (push_carry fuel c out) /\
  (normal out -> normal (push_carry fuel c out)) /\ (0 < c -> normal (push_carry fuel c out)).
Proof.
  induction fuel as [|fuel IH]; intros c out Hout Hc; cbn [push_carry].
  - rewrite bpow_0 in Hc. assert (c = 0) as -> by lia. split_and!; [lia|done|done|lia].
  - pose proof BASE_gt. case_if; [subst; split_and!; [lia|done|done|lia]|].
    assert (Hd : 0 <= c / BASE) by (apply Z.div_pos; lia).
    destruct (IH (c / BASE) (out ++ [c mod BASE]) ltac:(auto with spg)) as (H1 & H2 & H3 & H4).
    { rewrite bpow_S in Hc. split; [done|]. apply Z.div_lt_upper_bound; lia. }
    split; [|split; [done|]].
    { rewrite H1, val_snoc, length_app, Nat.add_1_r, bpow_S. pose proof (split_base c). nia. }
    assert (Hn : normal (push_carry fuel (c / BASE) (out ++ [c mod BASE]))).
    { destruct (decide (0 < c / BASE)) as [Hp|Hp]; [by apply H4|]. apply H3. unfold normal. rewrite last_snoc.
      pose proof (split_base c) as E. intros [= E']. nia. }
    done.
Qed.

(** With the carry of a product pushed, the product is normal when the factor
    is positive. *)
Lemma pushed_normal l out c f : mag_ok l -> l <> [] -> 1 <= f -> limbs_ok out -> 0 <= c ->
  length out = length l -> val out + bpow (length out) * c = val l * f -> c = 0 -> normal out.
Proof.
  intros [Hl Hn] Hne Hf Hok Hc Hlen Hv ->. apply (normal_ge l Hl) in Hn; [|done].
  assert (out <> []) by (intros ->; by destruct l). apply normal_ge; [done|done|].
  rewrite Hlen. pose proof (val_bound l Hl). nia.
Qed.

Lemma mul_scalar_spec l f : mag_ok l -> 0 <= f <= BASE -> val (mul_scalar l f) = val l * f /\ mag_ok (mul_scalar l f).
Proof.
  intros Hl Hf. unfold mul_scalar. destruct (f =? 0) eqn:E; prop_bools.
  { subst. split; [cbn; lia|apply mag_ok_nil]. }
  destruct l as [|x l']; [split; [done|apply mag_ok_nil]|]. cbn [orb]. remember (x :: l') as l eqn:El.
  pose proof (scale_limbs_spec l f 0 [] (proj1 Hl) Hf ltac:(lia) ltac:(lia) limbs_ok_nil) as H.
  destruct (scale_limbs l f 0 []) as [out c]. destruct H as (H1 & H2 & H3 & H4). cbn [length Nat.add val] in *.
  rewrite bpow_0 in H4. destruct (push_carry_spec 3 c out H2) as (P1 & P2 & P3 & P4).
  { change (bpow 3) with (BASE * BASE * BASE). pose proof BASE_gt. nia. }
  split; [lia|]. split; [done|]. destruct (decide (c = 0)) as [->|]; [|apply P4; lia].
  apply P3. eapply (pushed_normal l out 0 f); try done; subst; [done|lia|lia].
Qed.

Lemma mul_pow10_spec l k : mag_ok l -> 0 <= k -> val (mul_pow10 l k) = val l * 10 ^ k /\ mag_ok (mul_pow10 l k).
Proof.
  intros Hl Hk. unfold mul_pow10. destruct l as [|x l']; [split; [done|apply mag_ok_nil]|].
  remember (x :: l') as l eqn:El. assert (Hne : l <> []) by (by subst). clear x l' El.
  change (Z.of_nat BASE_DIGITS) with 9. set (whole := Z.to_nat (k / 9)). set (r := k mod 9).
  assert (Hr : 0 <= r < 9) by (apply Z.mod_pos_bound; lia).
  set (cur := if r =? 0 then l else _).
  assert (Hcur : val cur = val l * 10 ^ r /\ mag_ok cur).
  { unfold cur. destruct (r =? 0) eqn:E; prop_bools; [rewrite E; split; [lia|done]|].
    assert (Hp : 1 <= 10 ^ r <= BASE).
    { split; [change 1 with (10 ^ 0); apply Z.pow_le_mono_r; lia|]. change BASE with (10 ^ 9). apply Z.pow_le_mono_r; lia. }
    pose proof (scale_limbs_spec l (10 ^ r) 0 [] (proj1 Hl) ltac:(lia) ltac:(lia) ltac:(lia) limbs_ok_nil) as H.
    destruct (scale_limbs l (10 ^ r) 0 []) as [out c]. destruct H as (H1 & H2 & H3 & H4). cbn [length Nat.add val] in *.
    rewrite bpow_0 in H4. assert (c < BASE).
    { assert (10 ^ r <= 10 ^ 8) by (apply Z.pow_le_mono_r; lia). change BASE with (10 ^ 9). lia. }
    case_if.
    - split; [rewrite val_snoc; lia|]. split; [apply limbs_ok_snoc; [done|split; lia]|]. unfold normal. rewrite last_snoc. congruence.
    - subst c. split; [lia|]. split; [done|]. eapply (pushed_normal l out 0 (10 ^ r)); try done; lia. }
  destruct Hcur as [Hv Hok]. assert (Hk' : 10 ^ k = bpow whole * 10 ^ r).
  { unfold bpow, whole. change BASE with (10 ^ 9). rewrite Z2Nat.id by (apply Z.div_pos; lia).
    rewrite <- Z.pow_mul_r, <- Z.pow_add_r by (lia || (pose proof (Z.div_pos k 9); lia)). f_equal. unfold r. apply Z.div_mod. lia. }
  case_if.
  - split; [rewrite val_app, val_repeat, repeat_length, Hv, Hk'; lia|]. destruct Hok as [Hok Hn]. split.
    + apply limbs_ok_app. auto with spg.
    + unfold normal in *. rewrite last_app. destruct (last cur) eqn:E; [done|]. apply last_None in E.
      rewrite E in Hv. cbn in Hv. destruct Hl as [Hl Hln]. apply (mag_ok_pos l) in Hne; [|done].
      pose proof (Z.pow_pos_nonneg 10 r). nia.
  - assert (whole = 0%nat) as E by lia. rewrite E, bpow_0 in Hk'. split; [lia|done].
Qed.

(** ** Full products *)

(** The widest sum of the inner loop. *)
Lemma row_cur x a b c : limb_ok x -> limb_ok a -> limb_ok b -> limb_ok c ->
  0 <= x + a * b + c < BASE * BASE /\ wrap 64 (x + a * b + c) = x + a * b + c.
Proof.
  unfold limb_ok. intros. assert (Hcur : 0 <= x + a * b + c < BASE * BASE) by nia. split; [done|].
  apply wrap_id. split; [lia|]. assert (BASE * BASE < 2 ^ 64) by done. lia.
Qed.

Lemma mul_row_spec a i bs : forall j acc c, limb_ok a -> limbs_ok bs -> limbs_ok acc -> limb_ok c ->
  (i + j + length bs <= length acc)%nat ->
  let '(acc', c') := mul_row a i j bs acc c in
  length acc' = length acc /\ limbs_ok acc' /\ limb_ok c' /\
  (forall k, (i + j + length bs <= k)%nat -> limb acc' k = limb acc k) /\
  val acc' + bpow (i + j + length bs) * c' = val acc + bpow (i + j) * (a * val bs + c).
Proof.
  induction bs as [|b bs IH]; intros j acc c Ha Hbs Hacc Hc Hlen; cbn [mul_row length] in *.
  - rewrite Nat.add_0_r. split_and!; [done|done|apply Hc..|done|cbn [val]; lia].
  - apply Forall_cons in Hbs as [Hb Hbs]. rewrite limb_total by lia.
    destruct (row_cur (limb acc (i + j)) a b c ltac:(auto with spg) Ha Hb Hc) as [Hr ->].
    set (cur := limb acc (i + j) + a * b + c) in *. pose proof BASE_gt.
    assert (Hd : limb_ok (cur / BASE)) by (split; [apply Z.div_pos; lia|apply Z.div_lt_upper_bound; lia]).
    specialize (IH (S j) (<[(i + j)%nat := cur mod BASE]> acc) (cur / BASE) Ha Hbs ltac:(auto with spg) Hd).
    rewrite length_insert in IH. specialize (IH ltac:(lia)).
    destruct (mul_row _ _ _ _ _ _) as [acc' c']. destruct IH as (I1 & I2 & I3 & I4 & I5).
    replace (i + S j + length bs)%nat with (i + j + S (length bs))%nat in * by lia.
    split; [done|]. split; [done|]. split; [done|]. split.
    + intros k Hk. rewrite I4 by done. rewrite limb_insert, decide_False by lia. done.
    + rewrite I5, val_insert by lia. rewrite Nat.add_succ_r, bpow_S. cbn [val].
      pose proof (split_base cur) as E. unfold cur in E at 1. nia.
Qed.

Lemma mul_rows_spec aa bs : forall i acc, limbs_ok aa -> limbs_ok bs -> limbs_ok acc ->
  (i + length aa + length bs <= length acc)%nat ->
  (forall k, (i + length bs <= k)%nat -> limb acc k = 0) ->
  let acc' := mul_rows i aa bs acc in
  length acc' = length acc /\ limbs_ok acc' /\ val acc' = val acc + bpow i * (val aa * val bs).
Proof.
  induction aa as [|a aa IH]; intros i acc Haa Hbs Hacc Hlen Hz; cbn [mul_rows length] in *.
  { split_and!; [done|done|cbn [val]; lia]. }
  apply Forall_cons in Haa as [Ha Haa].
  pose proof (mul_row_spec a i bs 0 acc 0 Ha Hbs Hacc ltac:(done) ltac:(lia)) as H.
  destruct (mul_row a i 0 bs acc 0) as [acc1 c]. rewrite Nat.add_0_r in H. destruct H as (L1 & Hok1 & Hc & Hsame & Hv).
  rewrite limb_total, Hsame, Hz by lia. unfold limb_ok in Hc.
  rewrite Z.add_0_l, wrap_id by (split; [lia|]; pose proof BASE_u32; lia).
  destruct (IH (S i) (<[(i + length bs)%nat := c]> acc1) Haa Hbs) as (I1 & I2 & I3).
  - by apply limbs_ok_insert.
  - rewrite length_insert. lia.
  - intros k Hk. rewrite limb_insert, decide_False, Hsame by lia. apply Hz. lia.
  - rewrite length_insert in I1. split_and!; [lia|done|]. rewrite I3, val_insert by lia.
    rewrite Hsame, Hz by lia. rewrite bpow_S. cbn [val]. rewrite bpow_add in *. nia.
Qed.

Lemma narrow_spec acc out : limbs_ok acc -> narrow acc 0 out = (out ++ acc, 0).
Proof.
  intros Hacc. revert out. induction Hacc as [|x acc Hx _ IH]; intros out; cbn [narrow]; [by rewrite app_nil_r|].
  unfold limb_ok in Hx. rewrite Z.add_0_r, wrap_id by (split; [lia|]; pose proof BASE_u32; lia).
  rewrite Z.div_small, Z.mod_small by lia. by rewrite IH, <- app_assoc.
Qed.

(** The magnitude [mul] computes. *)
Lemma mul_mag_spec a b : limbs_ok a -> limbs_ok b ->
  let '(l, c) := narrow (mul_rows 0 a b (repeat 0 (length a + length b))) 0 [] in
  val (push_carry 3 c l) = val a * val b /\ limbs_ok (push_carry 3 c l).
Proof.
  intros Ha Hb. destruct (mul_rows_spec a b 0 (repeat 0 (length a + length b)) Ha Hb) as (H1 & H2 & H3).
  - apply limbs_ok_repeat.
  - rewrite repeat_length. lia.
  - intros k _. unfold limb. destruct (repeat 0 _ !! k) as [x|] eqn:E; [|done].
    apply list_elem_of_lookup_2, list_elem_of_In, repeat_spec in E as ->. done.
  - rewrite narrow_spec by done. cbn [app push_carry]. rewrite Z.eqb_refl, H3, val_repeat, bpow_0. split; [lia|done].
Qed.
