(* ===== verification/BigNumDiv.v ===== *)
(** Division of magnitudes (Knuth's algorithm D in bignum.rs): short division,
    the estimate of a quotient limb and its correction, one turn of the loop,
    the normalisation, and the quotient and remainder. *)
From S2P Require Import Prelude Bytes BigNum BigNumMag.
Open Scope Z_scope.

(** ** Short division *)

Lemma short_div_spec u d n : forall rem q, limbs_ok u -> 0 < d < BASE -> 0 <= rem < d ->
  (n <= length u)%nat -> length q = length u -> limbs_ok q -> (forall k, (k < n)%nat -> limb q k = 0) ->
  exists q' r, short_div n u d rem q = Some (q', r) /\ limbs_ok q' /\ 0 <= r < d /\
    val (take n u) + bpow n * rem = d * (val q' - val q) + r.
Proof.
  induction n as [|i IH]; intros rem q Hu Hd Hr Hn Hlq Hq Hz; cbn [short_div].
  { exists q, rem. split_and!; [done|done|lia|lia|]. rewrite bpow_0, take_0. cbn [val]. lia. }
  rewrite limb_total by lia. pose proof (limb_ok_lookup u i Hu) as Hl. unfold limb_ok in Hl.
  set (cur := rem * BASE + limb u i). unfold div_u. rewrite (proj2 (Z.eqb_neq d 0)) by lia. cbn [mbind option_bind].
  assert (Hx : limb_ok (cur / d)).
  { split; [apply Z.div_pos; unfold cur; nia|apply Z.div_lt_upper_bound; unfold cur; nia]. }
  rewrite wrap_id by (unfold limb_ok in Hx; pose proof BASE_u32; pose proof BASE_gt; split; lia).
  destruct (IH (cur mod d) (<[i := cur / d]> q) Hu Hd (Z.mod_pos_bound cur d ltac:(lia)) ltac:(lia))
    as (q' & r & -> & Hq' & Hr' & Hv).
  - by rewrite length_insert.
  - auto with spg.
  - intros k Hk. rewrite limb_insert, decide_False by lia. apply Hz. lia.
  - exists q', r. split_and!; [done|done|lia|lia|]. rewrite val_insert, Hz in Hv by lia.
    rewrite val_take_S, bpow_S. pose proof (Z.div_mod cur d ltac:(lia)) as E. unfold cur in E at 1. nia.
Qed.

(** ** The estimate of a quotient limb

    [a] holds the two top limbs of the window [w], [u0] the third, [v1] and [v0]
    the top limbs of the divisor [v]; [p] is the weight of [u0] and [v0]. *)
Section Adjust.
Context (a v1 v0 u0 p vl wl v w : Z).
Context (Hp : 0 < p) (Hv1 : BASE <= 2 * v1) (Hv0 : limb_ok v0) (Hu0 : limb_ok u0) (Ha : 0 <= a).
Context (Hvl : 0 <= vl < p) (Hwl : 0 <= wl < p).
Context (Hv : v = (v1 * BASE + v0) * p + vl) (Hw : w = (a * BASE + u0) * p + wl) (Hwv : w < v * BASE).

Lemma top_bound : a < v1 * BASE + BASE.
Proof.
  unfold limb_ok in *. assert (v < (v1 * BASE + BASE) * p) by nia. assert (a * BASE * p < v * BASE) by nia. nia.
Qed.

(** A rejected estimate is too large. *)
Lemma rejected qhat rhat : qhat * v1 + rhat = a ->
  BASE <= qhat \/ rhat * BASE + u0 < qhat * v0 -> w < qhat * v.
Proof.
  unfold limb_ok in *. pose proof BASE_gt. intros E [G|G]; [assert (0 < v) by nia; nia|].
  assert (0 <= rhat \/ rhat < 0) as [?|?] by lia.
  - assert (0 <= qhat) by nia. assert (G1 : a * BASE + u0 + 1 <= qhat * (v1 * BASE + v0)) by nia.
    assert (w < (a * BASE + u0 + 1) * p) by nia. assert ((a * BASE + u0 + 1) * p <= qhat * (v1 * BASE + v0) * p) by nia. nia.
  - assert (0 <= qhat) by nia. assert (G1 : a * BASE + u0 + 1 <= qhat * (v1 * BASE + v0)) by nia.
    assert (w < (a * BASE + u0 + 1) * p) by nia. assert ((a * BASE + u0 + 1) * p <= qhat * (v1 * BASE + v0) * p) by nia. nia.
Qed.

(** An accepted estimate is too large by one at most. *)
Lemma accepted qhat rhat : qhat * v1 + rhat = a -> qhat < BASE -> qhat * v0 <= rhat * BASE + u0 -> (qhat - 1) * v <= w.
Proof.
  unfold limb_ok in *. pose proof BASE_gt. intros E Hq G. assert (0 < v) by nia.
  destruct (decide (qhat <= 0)); [assert (0 <= w) by nia; nia|].
  assert (G1 : qhat * (v1 * BASE + v0) <= a * BASE + u0) by nia.
  assert (G2 : qhat * (v1 * BASE + v0) * p <= w) by nia.
  assert (G3 : qhat * vl <= BASE * p) by nia. assert (G4 : BASE * p <= v) by nia. nia.
Qed.

Lemma adjust_spec fuel : forall qhat rhat, 0 <= rhat < BASE -> qhat * v1 + rhat = a -> w < (qhat + 1) * v ->
  BASE <= rhat + Z.of_nat fuel * v1 ->
  exists q, adjust fuel qhat rhat v1 v0 u0 = Some q /\ w < (q + 1) * v /\ (q - 1) * v <= w /\ q < BASE.
Proof.
  induction fuel as [|fuel IH]; intros qhat rhat Hr E Hup Hf; [lia|]. cbn [adjust].
  destruct ((BASE <=? qhat) || (rhat * BASE + u0 <? qhat * v0)) eqn:G.
  - assert (Hlow : w < qhat * v).
    { apply (rejected qhat rhat E). apply orb_true_iff in G as [G|G]; prop_bools; auto. }
    pose proof top_bound. destruct (BASE <=? rhat + v1) eqn:Hb; prop_bools.
    + assert (Hq : qhat - 1 < BASE) by (unfold limb_ok in *; nia). exists (qhat - 1). split; [done|].
      split; [replace (qhat - 1 + 1) with qhat by lia; done|]. split; [|done].
      apply (accepted (qhat - 1) (rhat + v1)); [nia|done|]. unfold limb_ok in *. destruct (decide (qhat - 1 <= 0)); nia.
    + apply IH; [lia|nia|replace (qhat - 1 + 1) with qhat by lia; done|lia].
  - apply orb_false_iff in G as [G1 G2]. prop_bools. exists qhat. split_and!; [done|done| |done].
    by apply (accepted qhat rhat).
Qed.
End Adjust.

(** D3: the estimate the loop of [div_rem_mag] uses. *)
Lemma estimate_spec a v1 v0 u0 p vl wl v w :
  0 < p -> BASE <= 2 * v1 -> limb_ok v1 -> limb_ok v0 -> limb_ok u0 -> 0 <= a -> 0 <= vl < p -> 0 <= wl < p ->
  v = (v1 * BASE + v0) * p + vl -> w = (a * BASE + u0) * p + wl -> w < v * BASE ->
  exists q, adjust 2 (a / v1) (a mod v1) v1 v0 u0 = Some q /\ w < (q + 1) * v /\ (q - 1) * v <= w /\ limb_ok q.
Proof.
  intros Hp Hv1 Hv1' Hv0 Hu0 Ha Hvl Hwl Hv Hw Hwv. pose proof BASE_gt. unfold limb_ok in Hv1'.
  pose proof (Z.div_mod a v1 ltac:(lia)) as E. pose proof (Z.mod_pos_bound a v1 ltac:(lia)) as Hr.
  destruct (adjust_spec a v1 v0 u0 p vl wl v w Hp Hv1 Hv0 Hu0 Ha Hvl Hwl Hv Hw Hwv 2 (a / v1) (a mod v1)) as (q & Hq & H1 & H2 & H3).
  - lia.
  - lia.
  - unfold limb_ok in *. assert (a + 1 <= (a / v1 + 1) * v1) by nia. assert (w < (a + 1) * BASE * p) by nia.
    assert (0 <= a / v1) by (apply Z.div_pos; lia). assert ((a / v1 + 1) * (v1 * BASE * p) <= (a / v1 + 1) * v) by nia. nia.
  - lia.
  - exists q. split_and!; [done..|]. unfold limb_ok in *. assert (0 < v) by nia. assert (0 <= w) by nia. split; [nia|done].
Qed.

(** ** One turn of the loop *)

(** Every limb below [m] is a limb; the ones above may be left over. *)
Definition ok_below (m : nat) (un : list Z) : Prop := forall k, (k < m)%nat -> limb_ok (limb un k).

Lemma limb_take l m k : (k < m)%nat -> limb (take m l) k = limb l k.
Proof. intros H. unfold limb. by rewrite lookup_take_lt. Qed.

Lemma ok_below_take m un : ok_below m un -> limbs_ok (take m un).
Proof.
  intros H. apply Forall_lookup_2. intros k x Hk. pose proof (lookup_lt_Some _ _ _ Hk) as Hl. rewrite length_take in Hl.
  rewrite lookup_take_lt in Hk by lia. specialize (H k ltac:(lia)). unfold limb in H. by rewrite Hk in H.
Qed.

Lemma ok_below_mono m m' un : ok_below m un -> (m' <= m)%nat -> ok_below m' un.
Proof. intros H Hm k Hk. apply H. lia. Qed.

Lemma ok_below_insert m un k x : ok_below m un -> (k < length un)%nat -> limb_ok x -> ok_below m (<[k := x]> un).
Proof. intros H Hk Hx i Hi. rewrite limb_insert by done. case_decide; [done|by apply H]. Qed.

Lemma ok_below_insert_top m un x : ok_below m un -> (m < length un)%nat -> ok_below m (<[m := x]> un).
Proof. intros H Hk i Hi. rewrite limb_insert, decide_False by lia. by apply H. Qed.

Lemma val_take_bound m un : ok_below m un -> (m <= length un)%nat -> 0 <= val (take m un) < bpow m.
Proof. intros H Hm. pose proof (val_bound _ (ok_below_take m un H)) as Hv. by rewrite length_take_le in Hv. Qed.

Lemma val_take_insert m un k x : (k < m)%nat -> (k < length un)%nat ->
  val (take m (<[k := x]> un)) = val (take m un) + bpow k * (x - limb un k).
Proof.
  intros Hm Hk. rewrite take_insert_lt by done. rewrite val_insert by (rewrite length_take; lia).
  by rewrite limb_take.
Qed.

Lemma take_insert_top {A} m (un : list A) x : take m (<[m := x]> un) = take m un.
Proof. apply take_insert_ge. lia. Qed.

(** D4 subtracts [qhat * vn] from the window, up to a borrow and a carry. *)
Lemma mulsub_spec qhat vn j n un : limb_ok qhat -> limbs_ok vn -> (n <= length vn)%nat ->
  (j + n < length un)%nat -> ok_below (j + n + 1) un ->
  let '(un', borrow, carry) := fold_left (mulsub_step qhat vn j) (seq 0 n) (un, 0, 0) in
  length un' = length un /\ ok_below (j + n + 1) un' /\ limb un' (j + n) = limb un (j + n) /\
  val (take (j + n + 1) un') =
    val (take (j + n + 1) un) - bpow j * (qhat * val (take n vn)) + bpow (j + n) * (borrow + carry).
Proof.
  intros Hq Hvn Hn Hlen Hok. set (m := (j + n + 1)%nat) in *.
  pose proof (fold_seq_ind (mulsub_step qhat vn j)
    (fun i st => length st.1.1 = length un /\ ok_below m st.1.1 /\ 0 <= st.1.2 <= 1 /\ 0 <= st.2 < BASE /\
       (forall k, (j + i <= k)%nat -> limb st.1.1 k = limb un k) /\
       val (take m st.1.1) = val (take m un) - bpow j * (qhat * val (take i vn)) + bpow (j + i) * (st.1.2 + st.2)) n (un, 0, 0)) as H.
  destruct (fold_left _ _ _) as [[un' borrow] carry]. cbn [fst snd] in H.
  destruct H as (H1 & H2 & H3 & H4 & H5 & H6); [|intros i [[w b] c] Hi (L & Ok & Hb & Hc & Same & V)|].
  - cbn [fst snd]. rewrite take_0. cbn [val]. pose proof BASE_gt. split_and!; [done|done|lia..|done|lia].
  - cbn [fst snd] in *. unfold mulsub_step. rewrite !limb_total by lia.
    pose proof (limb_ok_lookup vn i Hvn) as Hvi. pose proof (Ok (j + i)%nat ltac:(lia)) as Hu. unfold limb_ok in Hvi, Hu, Hq.
    set (p := qhat * limb vn i + c). pose proof BASE_gt. assert (Hp : 0 <= p < BASE * BASE) by (unfold p; nia).
    assert (Hd : 0 <= p / BASE < BASE) by (split; [apply Z.div_pos; lia|apply Z.div_lt_upper_bound; lia]).
    pose proof (Z.mod_pos_bound p BASE ltac:(lia)) as Hm. pose proof (split_base p) as E. unfold p in E at 1.
    rewrite (wrap_id 64) by (split; [lia|]; pose proof BASE_u32; assert (2 ^ 32 < 2 ^ 64) by done; lia).
    assert (G : exists t b', (if limb w (j + i) - p mod BASE - b <? 0
        then (limb w (j + i) - p mod BASE - b + BASE, 1) else (limb w (j + i) - p mod BASE - b, 0)) = (t, b')
        /\ limb_ok t /\ 0 <= b' <= 1 /\ t = limb w (j + i) - p mod BASE - b + BASE * b').
    { unfold limb_ok. case_if; eexists _, _; (split; [done|lia]). }
    destruct G as (t & b' & -> & Ht & Hb' & Et).
    rewrite (wrap_id 32) by (unfold limb_ok in Ht; pose proof BASE_u32; split; lia). cbn [fst snd]. split_and!; [| |lia..| |].
    + by rewrite length_insert.
    + apply ok_below_insert; [done|lia|done].
    + intros k Hk. rewrite limb_insert, decide_False by lia. apply Same. lia.
    + rewrite val_take_insert, V by lia. rewrite val_take_S, Nat.add_succ_r, bpow_S, !bpow_add. nia.
  - split_and!; [done|done|apply H5; lia|done].
Qed.

(** D6 adds [vn] back, up to a carry. *)
Lemma addback_spec vn j n un : limbs_ok vn -> (n <= length vn)%nat -> (j + n <= length un)%nat -> ok_below (j + n) un ->
  let '(un', c) := fold_left (addback_step vn j) (seq 0 n) (un, 0) in
  length un' = length un /\ ok_below (j + n) un' /\
  val (take (j + n) un') + bpow (j + n) * c = val (take (j + n) un) + bpow j * val (take n vn).
Proof.
  intros Hvn Hn Hlen Hok. set (m := (j + n)%nat) in *.
  pose proof (fold_seq_ind (addback_step vn j)
    (fun i st => length st.1 = length un /\ ok_below m st.1 /\ 0 <= st.2 <= 1 /\
       val (take m st.1) + bpow (j + i) * st.2 = val (take m un) + bpow j * val (take i vn)) n (un, 0)) as H.
  destruct (fold_left _ _ _) as [un' c]. cbn [fst snd] in H.
  destruct H as (H1 & H2 & H3 & H4); [|intros i [w c0] Hi (L & Ok & Hc & V)|by split_and!].
  - cbn [fst snd]. rewrite take_0. cbn [val]. split_and!; [done|done|lia..].
  - cbn [fst snd] in *. unfold addback_step. rewrite !limb_total by lia. cbn [fst snd].
    pose proof (limb_ok_lookup vn i Hvn) as Hvi. pose proof (Ok (j + i)%nat ltac:(lia)) as Hu. unfold limb_ok in Hvi, Hu.
    set (s := limb w (j + i) + limb vn i + c0). pose proof BASE_gt. assert (Hs : 0 <= s < 2 * BASE) by (unfold s; lia).
    pose proof (split_base s) as E. unfold s in E at 1. assert (Hd : s / BASE < 2) by (apply Z.div_lt_upper_bound; lia).
    split_and!; [by rewrite length_insert|apply ok_below_insert; [done|lia|apply limb_ok_mod]|apply Z.div_pos; lia|lia|].
    rewrite val_take_insert by lia. rewrite val_take_S, Nat.add_succ_r, bpow_S. rewrite !bpow_add in *. nia.
Qed.

(** A window and a divisor by their top limbs. *)
Lemma val_take_top2 l k : (2 <= k)%nat ->
  val (take k l) = (limb l (k - 1) * BASE + limb l (k - 2)) * bpow (k - 2) + val (take (k - 2) l).
Proof.
  intros Hk. destruct k as [|[|k]]; try lia. replace (S (S k) - 1)%nat with (S k) by lia. replace (S (S k) - 2)%nat with k by lia.
  rewrite !val_take_S, bpow_S. lia.
Qed.

Lemma val_take_top3 l k : (3 <= k)%nat ->
  val (take k l) = ((limb l (k - 1) * BASE + limb l (k - 2)) * BASE + limb l (k - 3)) * bpow (k - 3) + val (take (k - 3) l).
Proof.
  intros Hk. destruct k as [|[|[|k]]]; try lia. replace (S (S (S k)) - 1)%nat with (S (S k)) by lia.
  replace (S (S (S k)) - 2)%nat with (S k) by lia. replace (S (S (S k)) - 3)%nat with k by lia.
  rewrite !val_take_S, !bpow_S. lia.
Qed.

(** D3 on the window [j .. j + n]. *)
Lemma div_step_estimate vn n j un : (2 <= n)%nat -> length vn = n -> limbs_ok vn -> BASE <= 2 * limb vn (n - 1) ->
  (j + n < length un)%nat -> ok_below (j + n + 1) un -> val (take (j + n + 1) un) < bpow (S j) * val vn ->
  exists q, adjust 2 ((limb un (j + n) * BASE + limb un (j + n - 1)) / limb vn (n - 1))
      ((limb un (j + n) * BASE + limb un (j + n - 1)) mod limb vn (n - 1))
      (limb vn (n - 1)) (limb vn (n - 2)) (limb un (j + n - 2)) = Some q /\
    val (take (j + n + 1) un) < (q + 1) * (bpow j * val vn) /\ (q - 1) * (bpow j * val vn) <= val (take (j + n + 1) un) /\
    limb_ok q.
Proof.
  intros Hn Hvn Hok Htop Hlen Hun Hlt.
  pose proof (val_take_top3 un (j + n + 1) ltac:(lia)) as Ew. pose proof (val_take_top2 vn n ltac:(lia)) as Ev.
  rewrite (take_ge vn) in Ev by lia.
  replace (j + n + 1 - 1)%nat with (j + n)%nat in Ew by lia. replace (j + n + 1 - 2)%nat with (j + n - 1)%nat in Ew by lia.
  replace (j + n + 1 - 3)%nat with (j + n - 2)%nat in Ew by lia.
  assert (Hb : bpow (j + n - 2) = bpow j * bpow (n - 2)) by (rewrite <- bpow_add; f_equal; lia).
  pose proof (val_take_bound (j + n - 2) un ltac:(apply (ok_below_mono _ _ _ Hun); lia) ltac:(lia)) as Hwl.
  pose proof (val_bound (take (n - 2) vn) ltac:(auto with spg)) as Hvl. rewrite length_take_le in Hvl by lia.
  pose proof (bpow_pos j). pose proof (bpow_pos (n - 2)).
  pose proof (Hun (j + n)%nat ltac:(lia)) as H1. pose proof (Hun (j + n - 1)%nat ltac:(lia)) as H2. unfold limb_ok in H1, H2.
  eapply (estimate_spec _ _ _ _ (bpow (j + n - 2)) (bpow j * val (take (n - 2) vn)) (val (take (j + n - 2) un)));
    [apply bpow_pos|done|auto with spg..|nia|nia|lia|rewrite Ev, Hb; lia|rewrite Ew; done|rewrite bpow_S in Hlt; lia].
  apply Hun. lia.
Qed.

Lemma div_step_spec vn n j un q : (2 <= n)%nat -> length vn = n -> limbs_ok vn -> BASE <= 2 * limb vn (n - 1) ->
  (j + n < length un)%nat -> ok_below (j + n + 1) un -> val (take (j + n + 1) un) < bpow (S j) * val vn ->
  exists un' d, div_step vn n j un q = Some (un', <[j := d]> q) /\ limb_ok d /\ length un' = length un /\
    ok_below (j + n) un' /\ val (take (j + n + 1) un) = bpow j * d * val vn + val (take (j + n) un') /\
    val (take (j + n) un') < bpow j * val vn.
Proof.
  intros Hn Hvn Hok Htop Hlen Hun Hlt.
  destruct (div_step_estimate vn n j un Hn Hvn Hok Htop Hlen Hun Hlt) as (qh & Hadj & Hup & Hlow & Hqh).
  unfold div_step. rewrite !limb_total by lia. unfold div_u. pose proof BASE_gt.
  rewrite (proj2 (Z.eqb_neq (limb vn (n - 1)) 0)) by lia. cbn [mbind option_bind]. rewrite Hadj. cbn [mbind option_bind].
  pose proof (mulsub_spec qh vn j n un Hqh Hok ltac:(lia) Hlen Hun) as Hms. rewrite (take_ge vn) in Hms by lia.
  destruct (fold_left (mulsub_step qh vn j) (seq 0 n) (un, 0, 0)) as [[un1 borrow] carry].
  destruct Hms as (L1 & Ok1 & Etop & V1). rewrite limb_total by lia.
  set (t := limb un1 (j + n) - carry - borrow).
  assert (Hval : val (take (j + n) un1) + bpow (j + n) * t = val (take (j + n + 1) un) - bpow j * (qh * val vn)).
  { rewrite (Nat.add_1_r (j + n)) in V1 at 1. rewrite val_take_S in V1. unfold t. lia. }
  pose proof (val_take_bound (j + n) un1 ltac:(apply (ok_below_mono _ _ _ Ok1); lia) ltac:(lia)) as Hb1.
  pose proof (val_take_bound (j + n + 1) un Hun ltac:(lia)) as Hb0. pose proof (bpow_pos j). pose proof (bpow_pos (j + n)) as Hbp.
  pose proof (val_bound vn Hok) as Hbv. rewrite Hvn in Hbv. rewrite bpow_add in Hbp, Hb1, Hval.
  unfold limb_ok in Hqh. pose proof BASE_u32.
  assert (Hjv : bpow j * val vn <= bpow j * bpow n) by (apply Z.mul_le_mono_nonneg_l; lia).
  destruct (t <? 0) eqn:Ht; prop_bools.
  - assert (t = -1) as Et by nia.
    pose proof (addback_spec vn j n un1 Hok ltac:(lia) ltac:(lia) ltac:(apply (ok_below_mono _ _ _ Ok1); lia)) as Hab.
    rewrite (take_ge vn) in Hab by lia.
    destruct (fold_left (addback_step vn j) (seq 0 n) (un1, 0)) as [un2 c]. destruct Hab as (L2 & Ok2 & V2).
    pose proof (val_take_bound (j + n) un2 Ok2 ltac:(lia)) as Hb2. rewrite bpow_add in Hb2, V2.
    assert (1 <= qh) by (destruct (decide (qh = 0)) as [->|]; [exfalso; nia|lia]).
    rewrite (wrap_id 32 (qh - 1)) by (split; lia). eexists _, (qh - 1). split; [done|]. unfold limb_ok.
    split_and!; [lia|lia|rewrite length_insert; lia|apply ok_below_insert_top; [done|lia]|..]; rewrite take_insert_top.
    + assert (c = 1) by nia. nia.
    + assert (c = 1) by nia. nia.
  - assert (t = 0) as Et by nia. rewrite (wrap_id 32 qh) by (split; lia). eexists _, qh. split; [done|]. unfold limb_ok.
    split_and!; [lia|lia|rewrite length_insert; lia| |..]; rewrite ?take_insert_top, ?Et.
    + apply ok_below_insert_top; [eapply ok_below_mono; [done|lia]|lia].
    + nia.
    + nia.
Qed.

(** ** The loop *)

Lemma div_loop_spec vn n k : forall un q, (2 <= n)%nat -> length vn = n -> limbs_ok vn -> BASE <= 2 * limb vn (n - 1) ->
  (k + n <= length un)%nat -> (k <= length q)%nat -> limbs_ok q -> (forall i, (i < k)%nat -> limb q i = 0) ->
  ok_below (k + n) un -> val (take (k + n) un) < bpow k * val vn ->
  exists un' q', div_loop k vn n un q = Some (un', q') /\ limbs_ok q' /\ length un' = length un /\ ok_below n un' /\
    val (take (k + n) un) = val vn * (val q' - val q) + val (take n un') /\ val (take n un') < val vn.
Proof.
  induction k as [|j IH]; intros un q Hn Hvn Hok Htop Hlen Hlq Hq Hz Hun Hlt; cbn [div_loop].
  - exists un, q. rewrite bpow_0 in Hlt. cbn [Nat.add] in *. split_and!; [done|done|done|done|lia|lia].
  - destruct (div_step_spec vn n j un q) as (un1 & d & E & Hd & L1 & Ok1 & V1 & Lt1); try done; try lia.
    { by replace (j + n + 1)%nat with (S j + n)%nat by lia. }
    { by replace (j + n + 1)%nat with (S j + n)%nat by lia. }
    rewrite E. cbn [mbind option_bind].
    destruct (IH un1 (<[j := d]> q)) as (un' & q' & E' & Hq' & L' & Ok' & V' & Lt'); try done; try lia.
    { rewrite length_insert. lia. }
    { by apply limbs_ok_insert. }
    { intros i Hi. rewrite limb_insert, decide_False by lia. apply Hz. lia. }
    exists un', q'. split_and!; [done|done|lia|done| |done].
    replace (j + n + 1)%nat with (S j + n)%nat in V1 by lia. rewrite V1, V', val_insert, Hz by lia. lia.
Qed.

(** ** Normalisation *)

Lemma resize_spec n l : limbs_ok l -> (length l <= n)%nat ->
  val (resize n l) = val l /\ limbs_ok (resize n l) /\ length (resize n l) = n.
Proof.
  intros Hl Hn. unfold resize. rewrite take_ge by lia. split_and!.
  - rewrite val_app, val_repeat. lia.
  - apply limbs_ok_app. auto with spg.
  - rewrite length_app, repeat_length. lia.
Qed.

Lemma mag_ok_length_le l n : mag_ok l -> val l < bpow n -> (length l <= n)%nat.
Proof.
  intros [Hl Hn] Hv. destruct (decide (length l <= n)%nat) as [|Hgt]; [done|].
  assert (l <> []) by (intros ->; cbn in Hgt; lia). apply (normal_ge l Hl) in Hn; [|done].
  pose proof (bpow_le n (length l - 1) ltac:(lia)). lia.
Qed.

(** The factor [d] of D1. *)
Lemma normalise_factor vt d : 1 <= vt < BASE -> d = BASE / (vt + 1) -> 1 <= d < BASE /\ d * (vt + 1) <= BASE /\ BASE <= 2 * (vt * d).
Proof.
  intros Hvt ->. pose proof (Z.div_mod BASE (vt + 1) ltac:(lia)) as E. pose proof (Z.mod_pos_bound BASE (vt + 1) ltac:(lia)) as Hr.
  set (d := BASE / (vt + 1)) in *. set (r := BASE mod (vt + 1)) in *. pose proof BASE_gt.
  assert (Hd : 1 <= d) by (apply Z.div_le_lower_bound; lia). split; [split; [done|nia]|]. split; [nia|].
  destruct (decide (vt = 1)) as [->|].
  - assert (d = BASE / 2) as -> by done. change (BASE / 2) with 500000000. done.
  - destruct (decide (d = 1)) as [Ed|].
    + assert (BASE = vt + 1 + r) by lia. assert (Hev : BASE = 2 * 500000000) by done. nia.
    + nia.
Qed.

(** ** Quotient and remainder *)

Lemma limb_repeat n i : limb (repeat 0 n) i = 0.
Proof.
  unfold limb. destruct (repeat 0 n !! i) as [x|] eqn:E; [|done].
  by apply list_elem_of_lookup_2, list_elem_of_In, repeat_spec in E.
Qed.

Lemma div_rem_short rec u d : mag_ok u -> 0 < d < BASE ->
  exists q r, div_rem_body rec u [d] = Some (q, r) /\ mag_ok q /\ mag_ok r /\ val q = val u / d /\ val r = val u mod d.
Proof.
  intros Hu Hd. assert (Hdv : mag_ok [d]).
  { split; [apply Forall_singleton; unfold limb_ok; lia|]. cbn. intros [= ->]. lia. }
  assert (Hvd : val [d] = d) by (cbn; lia).
  unfold div_rem_body. rewrite cmp_mag_spec by done. rewrite Hvd. pose proof (val_bound u (proj1 Hu)) as Hb.
  destruct (Z.compare_spec (val u) d) as [E|E|E].
  2:{ exists [], (pop_zeros u). rewrite pop_zeros_id by apply Hu. split_and!; [done|apply mag_ok_nil|done|..].
      - cbn. symmetry. apply Z.div_small. lia.
      - symmetry. apply Z.mod_small. lia. }
  all: destruct (short_div_spec u d (length u) 0 (repeat 0 (length u)) (proj1 Hu) Hd ltac:(lia)) as (q & r & -> & Hq & Hr & V);
    [done|by rewrite repeat_length|apply limbs_ok_repeat|
     by intros; apply limb_repeat|].
  all: cbn [mbind option_bind]; rewrite take_ge, val_repeat in V by lia.
  all: exists (pop_zeros q), (if r =? 0 then [] else [r]); split; [done|]; split; [by apply pop_zeros_mag_ok|].
  all: assert (Hvr : val (if r =? 0 then [] else [r]) = r) by (case_if; cbn [val]; lia).
  all: assert (Hokr : mag_ok (if r =? 0 then [] else [r])) by
    (case_if; [apply mag_ok_nil|split; [apply Forall_singleton; unfold limb_ok; lia|cbn; intros [= ?]; lia]]).
  all: rewrite Hvr, pop_zeros_val; split_and!; [done| |].
  all: [> apply Z.div_unique with r; lia | apply Z.mod_unique with (val q); lia | apply Z.div_unique with r; lia | apply Z.mod_unique with (val q); lia ].
Qed.

(** A full-length magnitude by its top limb. *)
Lemma val_top l : l <> [] -> val l = val (take (length l - 1) l) + bpow (length l - 1) * limb l (length l - 1).
Proof.
  intros Hne. assert (length l <> 0%nat) by (by intros ?%nil_length_inv). rewrite <- val_take_S.
  by rewrite take_ge by lia.
Qed.

Lemma top_positive v : mag_ok v -> v <> [] -> 1 <= limb v (length v - 1) < BASE.
Proof.
  intros [Hl Hn] Hne. pose proof (limb_ok_lookup v (length v - 1) Hl) as H. unfold limb_ok in H.
  assert (length v <> 0%nat) by (by intros ?%nil_length_inv). unfold normal in Hn. rewrite last_lookup in Hn.
  unfold limb in *. replace (pred (length v)) with (length v - 1)%nat in Hn by lia.
  destruct (v !! (length v - 1)%nat) as [x|] eqn:Ex; cbn in *; [assert (x <> 0) by congruence; lia|].
  apply lookup_ge_None in Ex. lia.
Qed.

(** D1 on the divisor: its top limb is at least half of the base. *)
Lemma normalised_divisor v d : mag_ok v -> v <> [] -> d = BASE / (limb v (length v - 1) + 1) ->
  let vn := resize (length v) (mul_scalar v d) in
  1 <= d < BASE /\ val vn = val v * d /\ limbs_ok vn /\ length vn = length v /\ BASE <= 2 * limb vn (length v - 1).
Proof.
  intros Hv Hne Ed vn. pose proof (top_positive v Hv Hne) as Ht.
  destruct (normalise_factor _ d Ht Ed) as (Hd & Hdv & Hdt). destruct (mul_scalar_spec v d Hv ltac:(lia)) as [Hmv Hmvok].
  pose proof (val_top v Hne) as Hvtop. pose proof BASE_gt. assert (length v <> 0%nat) by (by intros ?%nil_length_inv).
  pose proof (val_bound (take (length v - 1) v) (limbs_ok_take _ _ (proj1 Hv))) as Htb. rewrite length_take_le in Htb by lia.
  assert (Hbn : bpow (length v) = BASE * bpow (length v - 1)) by (rewrite <- bpow_S; f_equal; lia).
  pose proof (bpow_pos (length v - 1)) as Hbpos.
  destruct (resize_spec (length v) (mul_scalar v d) (proj1 Hmvok)) as (Rv & Rok & Rlen).
  { apply mag_ok_length_le; [done|nia]. }
  fold vn in Rv, Rok, Rlen. split_and!; [lia|lia|lia|done|done|].
  assert (vn <> []) as Hvne by (intros E; rewrite E in Rlen; cbn in Rlen; lia).
  pose proof (val_top vn Hvne) as E. rewrite Rlen in E.
  pose proof (val_bound (take (length v - 1) vn) (limbs_ok_take _ _ Rok)) as B. rewrite length_take_le in B by lia.
  assert (bpow (length v - 1) * (limb v (length v - 1) * d) <= val v * d) by (rewrite Hvtop; nia).
  rewrite Rv, Hmv in E. generalize dependent (limb vn (length v - 1)). generalize dependent (val (take (length v - 1) vn)).
  intros T HT L E. assert (bpow (length v - 1) * (limb v (length v - 1) * d - L) < bpow (length v - 1) * 1) as Hlt by lia.
  apply Z.mul_lt_mono_pos_l in Hlt; lia.
Qed.

(** D1 on the dividend, which gets a leading limb. *)
Lemma normalised_dividend u v d : mag_ok u -> mag_ok v -> v <> [] -> 1 <= d < BASE -> (length v <= length u)%nat ->
  let un := resize (length u + 1) (mul_scalar u d) in
  val un = val u * d /\ limbs_ok un /\ length un = (length u + 1)%nat /\
  val un < bpow (length u - length v + 1) * (val v * d).
Proof.
  intros Hu Hv Hne Hd Hlen un. destruct (mul_scalar_spec u d Hu ltac:(lia)) as [Hmu Hmuok].
  pose proof (val_bound u (proj1 Hu)) as Hub.
  destruct (resize_spec (length u + 1) (mul_scalar u d) (proj1 Hmuok)) as (Ru & Ruok & Rulen).
  { apply mag_ok_length_le; [done|]. rewrite Hmu, Nat.add_1_r, bpow_S. nia. }
  split_and!; [by rewrite <- Hmu|done|done|]. fold un in Ru. rewrite Ru, Hmu. destruct Hv as [Hvl Hvn].
  apply (normal_ge v Hvl) in Hvn; [|done]. assert (length v <> 0%nat) by (by intros ?%nil_length_inv).
  assert (bpow (length u) = bpow (length u - length v + 1) * bpow (length v - 1)) by (rewrite <- bpow_add; f_equal; lia).
  pose proof (bpow_pos (length u - length v + 1)). assert (val u < bpow (length u - length v + 1) * val v) by nia. nia.
Qed.

Lemma div_rem_long rec u v : mag_ok u -> mag_ok v -> (2 <= length v)%nat -> val v <= val u ->
  (forall r d, mag_ok r -> 0 < d < BASE -> exists q' r', rec r [d] = Some (q', r') /\ mag_ok q' /\ val q' = val r / d) ->
  exists q r, div_rem_body rec u v = Some (q, r) /\ mag_ok q /\ mag_ok r /\ val q = val u / val v /\ val r = val u mod val v.
Proof.
  intros Hu Hv Hn Hle Hrec. unfold div_rem_body. rewrite cmp_mag_spec by done.
  assert (Hcmp : forall (A : Type) (x y : A), match val u ?= val v with Lt => x | _ => y end = y).
  { intros A x y. destruct (Z.compare_spec (val u) (val v)); [done|lia|done]. }
  rewrite Hcmp. clear Hcmp. destruct v as [|v0 [|v1 v']]; [cbn in Hn; lia..|].
  remember (v0 :: v1 :: v') as v eqn:Ev. assert (Hne : v <> []) by (by subst). clear v0 v1 v' Ev.
  rewrite limb_total by lia. pose proof (top_positive v Hv Hne). pose proof (mag_ok_pos v Hv Hne) as Hvpos.
  unfold div_u. rewrite (proj2 (Z.eqb_neq _ 0)) by lia. cbn [mbind option_bind]. set (d := BASE / (limb v (length v - 1) + 1)).
  destruct (normalised_divisor v d Hv Hne eq_refl) as (Hd & Rv & Rok & Rlen & Htop).
  assert (Hlu : (length v <= length u)%nat).
  { destruct (decide (length v <= length u)%nat); [done|]. pose proof (mag_ok_length_lt u v Hu Hv ltac:(lia)). lia. }
  destruct (normalised_dividend u v d Hu Hv Hne Hd Hlu) as (Ru & Ruok & Rulen & Hult).
  set (vn := resize _ (mul_scalar v d)) in *. set (un := resize _ (mul_scalar u d)) in *. set (m := (length u - length v)%nat) in *.
  destruct (div_loop_spec vn (length v) (m + 1) un (repeat 0 (m + 1))) as (un' & q & -> & Hq & Lun & Okun & Vq & Lt); try done;
    [lia|rewrite repeat_length; lia|apply limbs_ok_repeat|by intros; apply limb_repeat|intros k _; auto with spg|
     rewrite take_ge by lia; by rewrite Rv|].
  cbn [mbind option_bind]. rewrite take_ge, val_repeat, Ru, Rv in Vq by lia. rewrite Rv in Lt.
  pose proof (ok_below_take _ _ Okun) as HokR. pose proof (val_bound _ HokR) as HR.
  destruct (Hrec (pop_zeros (take (length v) un')) d) as (r & r' & -> & Hr & Vr); [by apply pop_zeros_mag_ok|lia|].
  cbn [mbind option_bind]. exists (pop_zeros q), r. rewrite pop_zeros_val in *.
  set (r0 := val u - val v * val q). assert (HRr : val (take (length v) un') = r0 * d) by (unfold r0; lia).
  assert (0 <= r0 < val v) by nia. rewrite HRr, Z.div_mul in Vr by lia.
  split; [done|]. split; [by apply pop_zeros_mag_ok|]. split; [done|]. rewrite Vr.
  split; [apply Z.div_unique with r0; lia|apply Z.mod_unique with (val q); lia].
Qed.

Lemma div_rem_mag_spec u v : mag_ok u -> mag_ok v -> v <> [] ->
  exists q r, div_rem_mag u v = Some (q, r) /\ mag_ok q /\ mag_ok r /\ val q = val u / val v /\ val r = val u mod val v.
Proof.
  intros Hu Hv Hne. unfold div_rem_mag.
  destruct (decide (val u < val v)) as [Hlt|Hge].
  - unfold div_rem_body. rewrite cmp_mag_spec by done. rewrite (proj2 (Z.compare_lt_iff _ _) Hlt).
    pose proof (val_bound u (proj1 Hu)). exists [], (pop_zeros u). rewrite pop_zeros_id by apply Hu.
    split_and!; [done|apply mag_ok_nil|done|by rewrite Z.div_small by lia|by rewrite Z.mod_small by lia].
  - destruct v as [|d [|v1 v']]; [done|..].
    + replace (val [d]) with d by (cbn; lia). apply div_rem_short; [done|]. destruct Hv as [Hl Hn].
      apply Forall_cons in Hl as [Hd _]. unfold limb_ok in Hd. unfold normal in Hn. cbn in Hn. assert (d <> 0) by congruence. lia.
    + apply div_rem_long; [done|done|cbn; lia|lia|]. intros r e Hr He.
      destruct (div_rem_short (fun _ _ => None) r e Hr He) as (q & r' & E & Hq & _ & Vq & _). exists q, r'. by split_and!.
Qed.
