(* ===== verification/BigNumeric.v ===== *)
(** Signed decimals of bignum.rs against the rationals they stand for: exact
    sums, differences, products and comparisons, division and rounding half
    away from zero, the square root, and the bridge to [i128]. *)
From S2P Require Import Prelude Bytes BigNum BigNumMag BigNumDiv.
Open Scope Z_scope.

(** A value is [mant b / 10^(scale b)]. *)
Definition mant (b : BigNumeric) : Z := if neg b then - val (limbs b) else val (limbs b).

Record big_ok (b : BigNumeric) : Prop := {
  ok_limbs : mag_ok (limbs b);
  ok_neg : limbs b = [] -> neg b = false;
  ok_scale : u16 (scale b)
}.

#[export] Instance big_ok_dec b : Decision (big_ok b).
Proof.
  destruct (decide (mag_ok (limbs b) /\ (limbs b = [] -> neg b = false) /\ u16 (scale b))) as [H|H].
  - left. by destruct H as (? & ? & ?).
  - right. intros [? ? ?]. by apply H.
Defined.

(** The mantissa of [b] at scale [s]. *)
Definition at_scale (s : Z) (b : BigNumeric) : Z := mant b * 10 ^ (s - scale b).

Lemma pow10_pos k : 0 <= k -> 0 < 10 ^ k.
Proof. intros. by apply Z.pow_pos_nonneg. Qed.

Lemma is_zero_spec b : mag_ok (limbs b) -> is_zero b = true <-> mant b = 0.
Proof.
  intros H. unfold is_zero, mant. pose proof (mag_ok_zero _ H) as Hz. destruct (limbs b) as [|x l].
  - split; [intros _; by destruct (neg b)|done].
  - split; [done|]. assert (val (x :: l) <> 0) by (intros E; by apply Hz in E). destruct (neg b); lia.
Qed.

Lemma is_zero_limbs b : is_zero b = true <-> limbs b = [].
Proof. unfold is_zero. by destruct (limbs b). Qed.

Lemma mant_abs b : limbs_ok (limbs b) -> Z.abs (mant b) = val (limbs b).
Proof. intros H. pose proof (val_bound _ H). unfold mant. destruct (neg b); lia. Qed.

(** What [normalize] makes of a sign and a magnitude. *)
Lemma normalize_spec n l s : limbs_ok l -> u16 s ->
  let b := normalize (mk_big n l s) in
  big_ok b /\ scale b = s /\ mant b = (if n then - val l else val l) /\ val (limbs b) = val l.
Proof.
  intros Hl Hs. unfold normalize. cbn [limbs neg scale]. pose proof (pop_zeros_mag_ok l Hl) as Hm.
  pose proof (pop_zeros_val l) as Hv. destruct (pop_zeros l) as [|x l'] eqn:E; (split; [split; [done..|done]|]);
    (split; [done|]); unfold mant; cbn [limbs neg]; rewrite <- Hv; [|done].
  cbn [val]. destruct n; lia.
Qed.

Lemma normalize_id b : big_ok b -> normalize b = b.
Proof.
  intros [Hl Hn Hs]. unfold normalize. rewrite pop_zeros_id by apply Hl. destruct b as [n l s]. cbn in *.
  destruct l; [|done]. by rewrite Hn.
Qed.

(** Equal mantissas at equal scales are equal values. *)
Lemma big_ok_inj a b : big_ok a -> big_ok b -> mant a = mant b -> scale a = scale b -> a = b.
Proof.
  intros [Ha Hna _] [Hb Hnb _] Hm Hs. destruct a as [na la sa], b as [nb lb sb]. cbn in *. unfold mant in Hm. cbn in Hm.
  pose proof (val_bound _ (proj1 Ha)). pose proof (val_bound _ (proj1 Hb)).
  assert (la = lb) as <- by (apply mag_ok_inj; [done..|destruct na, nb; lia]). subst sb. f_equal.
  destruct la as [|x l]; [by rewrite Hna, Hnb|]. pose proof (mag_ok_pos _ Ha ltac:(done)). destruct na, nb; [done|lia..|done].
Qed.

(** ** Sums, differences, comparison *)

Lemma align_spec a b : big_ok a -> big_ok b ->
  let '(la, lb, s) := align a b in
  s = Z.max (scale a) (scale b) /\ mag_ok la /\ mag_ok lb /\
  val la = val (limbs a) * 10 ^ (s - scale a) /\ val lb = val (limbs b) * 10 ^ (s - scale b).
Proof.
  intros [Ha _ [Hsa _]] [Hb _ [Hsb _]]. unfold align. destruct (Z.compare_spec (scale a) (scale b)) as [E|E|E].
  - rewrite E, Z.sub_diag. refine (conj _ (conj Ha (conj Hb (conj _ _)))); lia.
  - destruct (mul_pow10_spec (limbs a) (scale b - scale a) Ha ltac:(lia)) as [Hv Hl]. rewrite Z.sub_diag.
    refine (conj _ (conj Hl (conj Hb (conj Hv _)))); lia.
  - destruct (mul_pow10_spec (limbs b) (scale a - scale b) Hb ltac:(lia)) as [Hv Hl]. rewrite Z.sub_diag.
    refine (conj _ (conj Ha (conj Hl (conj _ Hv)))); lia.
Qed.

Lemma at_scale_sign s b : at_scale s b = if neg b then - (val (limbs b) * 10 ^ (s - scale b)) else val (limbs b) * 10 ^ (s - scale b).
Proof. unfold at_scale, mant. destruct (neg b); lia. Qed.

Lemma scale_max a b : big_ok a -> big_ok b -> u16 (Z.max (scale a) (scale b)).
Proof. intros [_ _ Ha] [_ _ Hb]. unfold in_w in *. lia. Qed.

Lemma add_spec a b : big_ok a -> big_ok b ->
  let s := Z.max (scale a) (scale b) in
  big_ok (add a b) /\ scale (add a b) = s /\ mant (add a b) = at_scale s a + at_scale s b.
Proof.
  intros Ha Hb. pose proof (align_spec a b Ha Hb) as Hal. pose proof (scale_max a b Ha Hb) as Hs. unfold add.
  remember (Z.max (scale a) (scale b)) as s eqn:Es. cbv zeta. clear Es.
  destruct (align a b) as [[la lb] s']. destruct Hal as (-> & Hla & Hlb & Ea & Eb).
  rewrite !at_scale_sign, <- Ea, <- Eb.
  pose proof (add_mag_spec la lb (proj1 Hla) (proj1 Hlb)) as [Hav Haok].
  destruct (neg a) eqn:Na, (neg b) eqn:Nb; cbn [Bool.eqb].
  1,4: destruct (normalize_spec (neg a) (add_mag la lb) s Haok Hs) as (H1 & H2 & H3 & _); rewrite Na in *;
    split; [done|]; split; [done|]; lia.
  all: rewrite cmp_mag_spec by done; destruct (Z.compare_spec (val la) (val lb)) as [E|E|E].
  all: assert (Hlen : val la <= val lb -> (length la <= length lb)%nat) by
    (intros; destruct (decide (length la <= length lb)%nat); [done|]; pose proof (mag_ok_length_lt lb la Hlb Hla ltac:(lia)); lia).
  all: assert (Hlen' : val lb <= val la -> (length lb <= length la)%nat) by
    (intros; destruct (decide (length lb <= length la)%nat); [done|]; pose proof (mag_ok_length_lt la lb Hla Hlb ltac:(lia)); lia).
  all: try (destruct (sub_mag_spec la lb (proj1 Hla) (proj1 Hlb) ltac:(lia) (Hlen' ltac:(lia))) as [Hv [Hok _]]).
  all: try (destruct (sub_mag_spec lb la (proj1 Hlb) (proj1 Hla) ltac:(lia) (Hlen ltac:(lia))) as [Hv' [Hok' _]]).
  all: match goal with |- context [normalize (mk_big ?n ?l ?s)] =>
    destruct (normalize_spec n l s ltac:(assumption) ltac:(assumption)) as (H1 & H2 & H3 & _) end;
    split; [done|]; split; [done|]; lia.
Qed.

Lemma negate_spec a : big_ok a -> big_ok (negate a) /\ scale (negate a) = scale a /\ mant (negate a) = - mant a.
Proof.
  intros [Hl Hn Hs]. unfold negate. destruct (is_zero a) eqn:E; cbn [negb].
  - split; [done|]. split; [done|]. apply is_zero_spec in E; [|done]. lia.
  - split; [|split; [done|]].
    + split; [done| |done]. cbn. intros El. apply is_zero_limbs in El. congruence.
    + unfold mant. cbn. destruct (neg a); cbn; lia.
Qed.

Lemma sub_spec a b : big_ok a -> big_ok b ->
  let s := Z.max (scale a) (scale b) in
  big_ok (sub a b) /\ scale (sub a b) = s /\ mant (sub a b) = at_scale s a - at_scale s b.
Proof.
  intros Ha Hb s. destruct (negate_spec b Hb) as (Hn & Hs & Hm). unfold sub.
  destruct (add_spec a (negate b) Ha Hn) as (H1 & H2 & H3). rewrite Hs in *. fold s in H2, H3.
  split; [done|]. split; [done|]. rewrite H3. unfold at_scale. rewrite Hs, Hm. lia.
Qed.

Lemma cmp_spec a b : big_ok a -> big_ok b ->
  let s := Z.max (scale a) (scale b) in cmp a b = Z.compare (at_scale s a) (at_scale s b).
Proof.
  intros Ha Hb. unfold cmp. pose proof (is_zero_spec a (ok_limbs a Ha)) as Za. pose proof (is_zero_spec b (ok_limbs b Hb)) as Zb.
  destruct (is_zero a && is_zero b) eqn:E.
  { apply andb_true_iff in E as [E1 E2]. cbv zeta. unfold at_scale. by rewrite (proj1 Za E1), (proj1 Zb E2). }
  pose proof (align_spec a b Ha Hb) as Hal. remember (Z.max (scale a) (scale b)) as s eqn:Es. cbv zeta.
  destruct (align a b) as [[la lb] s']. destruct Hal as (-> & Hla & Hlb & Ea & Eb). rewrite !at_scale_sign, <- Ea, <- Eb.
  pose proof (val_bound la (proj1 Hla)). pose proof (val_bound lb (proj1 Hlb)).
  assert (Pa : 0 < 10 ^ (s - scale a)) by (apply pow10_pos; lia). assert (Pb : 0 < 10 ^ (s - scale b)) by (apply pow10_pos; lia).
  pose proof (ok_neg a Ha) as Na. pose proof (ok_neg b Hb) as Nb.
  assert (Hza : neg a = true -> 0 < val la).
  { intros N. rewrite Ea. assert (limbs a <> []) by (intros E'; apply Na in E'; congruence).
    pose proof (mag_ok_pos _ (ok_limbs a Ha) ltac:(done)). lia. }
  assert (Hzb : neg b = true -> 0 < val lb).
  { intros N. rewrite Eb. assert (limbs b <> []) by (intros E'; apply Nb in E'; congruence).
    pose proof (mag_ok_pos _ (ok_limbs b Hb) ltac:(done)). lia. }
  destruct (neg a), (neg b).
  - rewrite cmp_mag_spec by done. unfold reverse. by rewrite Z.compare_opp, (Z.compare_antisym (val la)).
  - symmetry. apply Z.compare_lt_iff. specialize (Hza eq_refl). lia.
  - symmetry. apply Z.compare_gt_iff. specialize (Hzb eq_refl). lia.
  - by apply cmp_mag_spec.
Qed.

(** ** Products *)

Lemma mul_spec a b : big_ok a -> big_ok b -> scale a + scale b < 2 ^ 16 ->
  big_ok (mul a b) /\ scale (mul a b) = scale a + scale b /\ mant (mul a b) = mant a * mant b.
Proof.
  intros Ha Hb Hs. pose proof (ok_scale a Ha) as Sa. pose proof (ok_scale b Hb) as Sb. unfold in_w in Sa, Sb.
  assert (Hw : wrapping_add 16 (scale a) (scale b) = scale a + scale b) by (apply wrap_id; split; lia).
  assert (Hsok : u16 (scale a + scale b)) by (split; lia).
  unfold mul. rewrite Hw. destruct (is_zero a || is_zero b) eqn:E.
  { split; [by split; [apply mag_ok_nil|..]|]. split; [done|]. change (mant (mk_big false [] (scale a + scale b))) with 0.
    apply orb_true_iff in E as [E|E]; apply is_zero_spec in E; try apply Ha; try apply Hb; rewrite E; lia. }
  pose proof (mul_mag_spec (limbs a) (limbs b) (proj1 (ok_limbs a Ha)) (proj1 (ok_limbs b Hb))) as H.
  destruct (narrow _ 0 []) as [l c]. destruct H as [Hv Hok].
  destruct (normalize_spec (negb (Bool.eqb (neg a) (neg b))) _ (scale a + scale b) Hok Hsok) as (H1 & H2 & H3 & _).
  split; [done|]. split; [done|]. rewrite H3, Hv. unfold mant. destruct (neg a), (neg b); cbn [Bool.eqb negb]; lia.
Qed.

(** ** Rounding half away from zero *)

(** [n / d] rounded to the nearest integer, halves up, for [0 <= n], [0 < d]. *)
Definition half_up (n d : Z) : Z := (2 * n + d) / (2 * d).

(** [n / d] rounded to the nearest integer, halves away from zero. *)
Definition half_away (n d : Z) : Z := Z.sgn n * Z.sgn d * half_up (Z.abs n) (Z.abs d).

Lemma half_up_cancel n d k : 0 < d -> 0 < k -> half_up (n * k) (d * k) = half_up n d.
Proof.
  intros Hd Hk. unfold half_up. replace (2 * (n * k) + d * k) with ((2 * n + d) * k) by lia.
  replace (2 * (d * k)) with (2 * d * k) by lia. apply Z.div_mul_cancel_r; lia.
Qed.

Lemma half_up_exact n d : 0 < d -> half_up (n * d) d = n.
Proof. intros Hd. unfold half_up. symmetry. apply Z.div_unique with d; lia. Qed.

Lemma half_up_bump n d : 0 <= n -> 0 < d -> half_up n d = n / d + (if 2 * (n mod d) <? d then 0 else 1).
Proof.
  intros Hn Hd. unfold half_up. pose proof (Z.div_mod n d ltac:(lia)). pose proof (Z.mod_pos_bound n d ltac:(lia)). symmetry.
  case_if.
  - apply Z.div_unique with (2 * (n mod d) + d); lia.
  - apply Z.div_unique with (2 * (n mod d) - d); lia.
Qed.

(** A guard digit is enough to round: the last digit of [10 * n / d] decides. *)
Lemma half_up_guard n d : 0 <= n -> 0 < d -> half_up n d = (10 * n / d + 5) / 10.
Proof.
  intros Hn Hd. unfold half_up. rewrite <- Z.div_add by lia. rewrite Z.div_div by lia.
  replace (10 * n + 5 * d) with ((2 * n + d) * 5) by lia. replace (d * 10) with (2 * d * 5) by lia.
  by rewrite Z.div_mul_cancel_r by lia.
Qed.

Lemma drop_guard q : (q + 5) / 10 = q / 10 + (if 5 <=? q mod 10 then 1 else 0).
Proof. case_if; zdm. Qed.

(** The sign the code gives a quotient. *)
Lemma sign_half_away (na nb : bool) x y n d : 0 <= x -> 0 < y ->
  n = (if na then - x else x) -> d = (if nb then - y else y) ->
  (if negb (Bool.eqb na nb) then - half_up x y else half_up x y) = half_away n d.
Proof.
  intros Hx Hy -> ->. unfold half_away.
  assert (Ax : Z.abs (if na then - x else x) = x) by (destruct na; lia).
  assert (Ay : Z.abs (if nb then - y else y) = y) by (destruct nb; lia). rewrite Ax, Ay.
  assert (Sy : Z.sgn (if nb then - y else y) = if nb then -1 else 1) by (destruct nb; [by rewrite Z.sgn_neg by lia|by rewrite Z.sgn_pos by lia]).
  rewrite Sy. destruct (decide (x = 0)) as [->|].
  - assert (half_up 0 y = 0) as -> by (unfold half_up; apply Z.div_small; lia). by destruct na, nb.
  - assert (Sx : Z.sgn (if na then - x else x) = if na then -1 else 1) by (destruct na; [by rewrite Z.sgn_neg by lia|by rewrite Z.sgn_pos by lia]).
    rewrite Sx. destruct na, nb; cbn [Bool.eqb negb]; lia.
Qed.

Lemma mag_ok_small n : 1 <= n < BASE -> mag_ok [n] /\ val [n] = n.
Proof.
  intros Hn. split; [split; [apply Forall_singleton; unfold limb_ok; lia|]|cbn; lia]. cbn. intros [= ->]. lia.
Qed.

(** ** Division *)

(** The operands of the integer division of [div]. *)
Lemma div_operands a b rs : big_ok a -> big_ok b -> u16 rs -> limbs b <> [] ->
  let want := rs + 1 + scale b - scale a in
  let num := if 0 <? want then mul_pow10 (limbs a) want else limbs a in
  let den := if want <? 0 then mul_pow10 (limbs b) (- want) else limbs b in
  mag_ok num /\ mag_ok den /\ den <> [] /\
  val num / val den = 10 * (val (limbs a) * 10 ^ (rs + scale b)) / (val (limbs b) * 10 ^ scale a).
Proof.
  intros [Ha _ [Sa _]] [Hb _ [Sb _]] [Hrs _] Hne want num den. pose proof (mag_ok_pos _ Hb Hne) as Pb.
  assert (Hnum : mag_ok num /\ val num = val (limbs a) * 10 ^ Z.max 0 want).
  { unfold num. case_if; [|rewrite Z.max_l, Z.pow_0_r by lia; split; [done|lia]].
    destruct (mul_pow10_spec (limbs a) want Ha ltac:(lia)) as [Hv Hok]. rewrite Z.max_r by lia. done. }
  assert (Hden : mag_ok den /\ val den = val (limbs b) * 10 ^ Z.max 0 (- want)).
  { unfold den. case_if; [|rewrite Z.max_l, Z.pow_0_r by lia; split; [done|lia]].
    destruct (mul_pow10_spec (limbs b) (- want) Hb ltac:(lia)) as [Hv Hok]. rewrite Z.max_r by lia. done. }
  destruct Hnum as [Hn ->], Hden as [Hd Vd]. split; [done|]. split; [done|].
  assert (0 < val den) by (rewrite Vd; pose proof (pow10_pos (Z.max 0 (- want)) ltac:(lia)); nia).
  split; [intros E; rewrite E in *; cbn in *; lia|]. rewrite Vd.
  set (k := scale a - Z.max 0 (- want)). assert (Hk : 0 <= k) by (unfold k, want; lia).
  replace (10 * (val (limbs a) * 10 ^ (rs + scale b))) with (val (limbs a) * 10 ^ Z.max 0 want * 10 ^ k).
  2:{ rewrite <- Z.mul_assoc, <- Z.pow_add_r by lia. replace (Z.max 0 want + k) with (Z.succ (rs + scale b)) by (unfold k, want; lia).
      rewrite Z.pow_succ_r by lia. lia. }
  replace (val (limbs b) * 10 ^ scale a) with (val (limbs b) * 10 ^ Z.max 0 (- want) * 10 ^ k).
  2:{ rewrite <- Z.mul_assoc, <- Z.pow_add_r by lia. do 2 f_equal. unfold k. lia. }
  pose proof (pow10_pos k Hk). pose proof (pow10_pos (Z.max 0 (- want)) ltac:(lia)).
  symmetry. apply Z.div_mul_cancel_r; [nia|lia].
Qed.

Lemma guard_digit q : limbs_ok q -> (match q with [] => 0 | q0 :: _ => q0 mod 10 end) = val q mod 10.
Proof.
  intros _. destruct q as [|q0 q]; [done|]. cbn [val]. change BASE with (100000000 * 10).
  replace (100000000 * 10 * val q) with (100000000 * val q * 10) by lia. by rewrite Z.mod_add by lia.
Qed.

Lemma div_spec a b rs : big_ok a -> big_ok b -> u16 rs -> mant b <> 0 ->
  exists r, div a b rs = Some (Some r) /\ big_ok r /\ scale r = rs /\
    mant r = half_away (mant a * 10 ^ (rs + scale b)) (mant b * 10 ^ scale a).
Proof.
  intros Ha Hb Hrs Hnz. pose proof (is_zero_spec b (ok_limbs b Hb)) as Zb. unfold div.
  destruct (is_zero b) eqn:E; [by destruct Hnz; apply Zb|].
  assert (Hne : limbs b <> []) by (intros E'; apply is_zero_limbs in E'; congruence).
  destruct (div_operands a b rs Ha Hb Hrs Hne) as (Hn & Hd & Hdne & Vq).
  destruct (div_rem_mag_spec _ _ Hn Hd Hdne) as (q & r & -> & Hq & _ & Eq & _). cbn [mbind option_bind].
  destruct (mag_ok_small 10 ltac:(done)) as [H10 V10].
  destruct (div_rem_mag_spec q [10] Hq H10 ltac:(done)) as (q' & r' & -> & Hq' & _ & Eq' & _). cbn [mbind option_bind].
  rewrite V10 in Eq'. rewrite guard_digit by apply Hq. rewrite Vq in Eq.
  set (x := val (limbs a) * 10 ^ (rs + scale b)) in *. set (y := val (limbs b) * 10 ^ scale a) in *.
  pose proof (val_bound _ (proj1 (ok_limbs a Ha))). pose proof (mag_ok_pos _ (ok_limbs b Hb) Hne).
  destruct Hrs as [Hrs1 Hrs2]. pose proof (ok_scale a Ha) as [Sa _]. pose proof (ok_scale b Hb) as [Sb _].
  pose proof (pow10_pos (rs + scale b) ltac:(lia)) as P1. pose proof (pow10_pos (scale a) Sa) as P2.
  assert (Hx : 0 <= x) by (unfold x; nia). assert (Hy : 0 < y) by (unfold y; nia).
  set (q2 := if 5 <=? val q mod 10 then add_mag q' [1] else q').
  assert (Hq2 : limbs_ok q2 /\ val q2 = half_up x y).
  { rewrite half_up_guard, drop_guard, <- Eq, <- Eq' by done. unfold q2. destruct (mag_ok_small 1 ltac:(done)) as [[H1 _] V1].
    destruct (5 <=? val q mod 10); [|split; [apply Hq'|lia]].
    destruct (add_mag_spec q' [1] (proj1 Hq') H1) as [Hv Hok]. split; [done|]. by rewrite Hv, V1. }
  destruct Hq2 as [Hok2 V2].
  destruct (normalize_spec (negb (Bool.eqb (neg a) (neg b))) q2 rs Hok2 (conj Hrs1 Hrs2)) as (H1 & H2 & H3 & _).
  eexists. split; [done|]. split; [done|]. split; [done|]. rewrite H3, V2.
  apply sign_half_away; [done|done|unfold mant, x; destruct (neg a); lia|unfold mant, y; destruct (neg b); lia].
Qed.

Lemma div_zero a b rs : big_ok b -> mant b = 0 -> div a b rs = Some None.
Proof. intros Hb Hz. unfold div. by rewrite (proj2 (is_zero_spec b (ok_limbs b Hb)) Hz). Qed.

Lemma div_rem_int_spec a b : big_ok a -> big_ok b -> mant b <> 0 ->
  exists q r, div_rem_int a b = Some (q, r) /\ big_ok q /\ big_ok r /\ scale q = 0 /\ scale r = 0 /\
    mant q = Z.quot (mant a) (mant b) /\ mant r = Z.rem (mant a) (mant b).
Proof.
  intros Ha Hb Hnz. unfold div_rem_int. pose proof (mag_ok_zero _ (ok_limbs b Hb)) as Hz.
  assert (Hne : limbs b <> []). { intros E. destruct Hnz. unfold mant. rewrite E. by destruct (neg b). }
  destruct (div_rem_mag_spec _ _ (ok_limbs a Ha) (ok_limbs b Hb) Hne) as (q & r & -> & Hq & Hr & Eq & Er). cbn [mbind option_bind].
  destruct (normalize_spec (negb (Bool.eqb (neg a) (neg b))) q 0 (proj1 Hq) ltac:(done)) as (H1 & H2 & H3 & _).
  destruct (normalize_spec (neg a) r 0 (proj1 Hr) ltac:(done)) as (H4 & H5 & H6 & _).
  eexists _, _. split; [done|]. split; [done|]. split; [done|]. split; [done|]. split; [done|]. rewrite H3, H6, Eq, Er. unfold mant.
  pose proof (val_bound _ (proj1 (ok_limbs a Ha))). pose proof (mag_ok_pos _ (ok_limbs b Hb) Hne).
  destruct (neg a), (neg b); cbn [Bool.eqb negb]; rewrite ?Z.quot_opp_opp, ?Z.rem_opp_opp, ?Z.quot_opp_l, ?Z.quot_opp_r, ?Z.rem_opp_l, ?Z.rem_opp_r by lia;
    rewrite Z.quot_div_nonneg, Z.rem_mod_nonneg by lia; done.
Qed.

(** ** [round_to] *)

Lemma round_to_spec a t : big_ok a -> u16 t ->
  exists r, round_to a t = Some r /\ big_ok r /\ scale r = t /\ mant r = half_away (mant a * 10 ^ t) (10 ^ scale a).
Proof.
  intros Ha Ht. pose proof (ok_scale a Ha) as [Sa _]. pose proof (proj1 Ht) as Ht0.
  pose proof (pow10_pos t Ht0) as Pt. pose proof (pow10_pos (scale a) Sa) as Ps.
  pose proof (val_bound _ (proj1 (ok_limbs a Ha))) as Hva.
  assert (Hsign : forall m, m = half_up (val (limbs a) * 10 ^ t) (10 ^ scale a) ->
    (if neg a then - m else m) = half_away (mant a * 10 ^ t) (10 ^ scale a)).
  { intros m ->. rewrite <- (sign_half_away (neg a) false (val (limbs a) * 10 ^ t) (10 ^ scale a));
      [by destruct (neg a)|nia|done|unfold mant; destruct (neg a); lia|done]. }
  unfold round_to. destruct (Z.compare_spec (scale a) t) as [E|E|E].
  - exists a. split; [done|]. split; [done|]. split; [done|]. rewrite <- Hsign with (val (limbs a)); [done|].
    by rewrite <- E, half_up_exact.
  - destruct (mul_pow10_spec (limbs a) (t - scale a) (ok_limbs a Ha) ltac:(lia)) as [Hv [Hl _]].
    destruct (normalize_spec (neg a) _ t Hl Ht) as (H1 & H2 & H3 & _). eexists. split; [done|]. split; [done|]. split; [done|].
    rewrite H3. apply Hsign. rewrite Hv. replace (10 ^ t) with (10 ^ (t - scale a) * 10 ^ scale a) by (rewrite <- Z.pow_add_r by lia; f_equal; lia).
    by rewrite Z.mul_assoc, half_up_exact.
  - destruct (mag_ok_small 1 ltac:(done)) as [H1 V1].
    destruct (mul_pow10_spec [1] (scale a - t) H1 ltac:(lia)) as [Hdv Hdok]. rewrite V1, Z.mul_1_l in Hdv.
    pose proof (pow10_pos (scale a - t) ltac:(lia)) as Pk. set (k := scale a - t) in *.
    destruct (div_rem_mag_spec (limbs a) (mul_pow10 [1] k) (ok_limbs a Ha) Hdok) as (q & r & -> & Hq & Hr & Eq & Er).
    { intros E'. rewrite E' in Hdv. cbn in Hdv. lia. }
    cbn [mbind option_bind]. destruct (mul_scalar_spec r 2 Hr ltac:(done)) as [Hr2 Hr2ok].
    rewrite cmp_mag_spec, Hr2, Hdv by done. rewrite Hdv in Eq, Er.
    set (q2 := match _ with Lt => q | _ => add_mag q [1] end).
    assert (Hq2 : limbs_ok q2 /\ val q2 = half_up (val (limbs a)) (10 ^ k)).
    { rewrite half_up_bump, <- Er, <- Eq by lia. destruct (add_mag_spec q [1] (proj1 Hq) (proj1 H1)) as [Hv Hok]. rewrite V1 in Hv.
      unfold q2. destruct (Z.compare_spec (val r * 2) (10 ^ k)); case_if; (split; [done || apply Hq|lia]). }
    destruct Hq2 as [Hok2 V2]. destruct (normalize_spec (neg a) q2 t Hok2 Ht) as (G1 & G2 & G3 & _).
    eexists. split; [done|]. split; [done|]. split; [done|]. rewrite G3. apply Hsign. rewrite V2.
    replace (10 ^ scale a) with (10 ^ k * 10 ^ t) by (rewrite <- Z.pow_add_r by lia; f_equal; unfold k; lia).
    by rewrite half_up_cancel.
Qed.

(** ** The [i128] bridge *)

Definition i128 (v : Z) : Prop := - 2 ^ 127 <= v < 2 ^ 127.

Lemma push_limbs_spec fuel : forall mag out, limbs_ok out -> 0 <= mag < bpow fuel ->
  limbs_ok (push_limbs fuel mag out) /\ val (push_limbs fuel mag out) = val out + bpow (length out) * mag.
Proof.
  induction fuel as [|fuel IH]; intros mag out Hout Hm; cbn [push_limbs].
  - rewrite bpow_0 in Hm. assert (mag = 0) as -> by lia. split; [done|lia].
  - case_if; [subst; split; [done|lia]|]. pose proof BASE_gt. rewrite bpow_S in Hm.
    destruct (IH (mag / BASE) (out ++ [mag mod BASE])) as [H1 H2]; [auto with spg|split; [apply Z.div_pos; lia|apply Z.div_lt_upper_bound; lia]|].
    split; [done|]. rewrite H2, val_snoc, length_app, Nat.add_1_r, bpow_S. pose proof (split_base mag). nia.
Qed.

Lemma from_i128_spec v s : i128 v -> u16 s -> big_ok (from_i128 v s) /\ scale (from_i128 v s) = s /\ mant (from_i128 v s) = v.
Proof.
  intros [H1 H2] Hs. unfold from_i128.
  destruct (push_limbs_spec 5 (Z.abs v) [] limbs_ok_nil) as [Hl Hv]; [assert (2 ^ 127 < bpow 5) by done; lia|].
  change (@length Z []) with 0%nat in Hv. rewrite bpow_0 in Hv. cbn [val] in Hv.
  destruct (normalize_spec (v <? 0) _ s Hl Hs) as (G1 & G2 & G3 & _). split; [done|]. split; [done|]. rewrite G3.
  destruct (v <? 0) eqn:E; prop_bools; lia.
Qed.

Lemma to_u128_spec l : forall mag, limbs_ok l -> 0 <= mag < 2 ^ 128 ->
  let v := mag * bpow (length l) + val (rev l) in to_u128 l mag = if v <? 2 ^ 128 then Some v else None.
Proof.
  induction l as [|x l IH]; intros mag Hl Hm; cbn [to_u128 length rev].
  - rewrite bpow_0. cbn [val]. rewrite Z.mul_1_r, Z.add_0_r. by rewrite (proj2 (Z.ltb_lt _ _)) by lia.
  - apply Forall_cons in Hl as [Hx Hl]. rewrite val_snoc, length_rev, bpow_S. unfold limb_ok in Hx. pose proof BASE_gt.
    pose proof (val_bound (rev l) ltac:(by apply Forall_rev)) as Hb. rewrite length_rev in Hb. pose proof (bpow_pos (length l)).
    assert (Hv : mag * (BASE * bpow (length l)) + (val (rev l) + bpow (length l) * x) = (mag * BASE + x) * bpow (length l) + val (rev l)) by lia.
    cbv zeta in *. rewrite Hv. unfold checked_mul_u128, checked_add_u128.
    destruct (mag * BASE <? 2 ^ 128) eqn:E1; prop_bools; cbn [mbind option_bind]; [destruct (mag * BASE + x <? 2 ^ 128) eqn:E2; prop_bools; cbn [mbind option_bind]|].
    + rewrite IH by (done || lia). done.
    + by rewrite (proj2 (Z.ltb_ge _ _)) by nia.
    + by rewrite (proj2 (Z.ltb_ge _ _)) by nia.
Qed.

Lemma to_i128_spec b : big_ok b -> to_i128 b = if bool_decide (i128 (mant b)) then Some (mant b) else None.
Proof.
  intros Hb. unfold to_i128. pose proof (to_u128_spec (rev (limbs b)) 0 ltac:(apply Forall_rev, Hb) ltac:(done)) as H. cbv zeta in H.
  rewrite rev_involutive, Z.mul_0_l, Z.add_0_l in H. rewrite H. pose proof (val_bound _ (proj1 (ok_limbs b Hb))) as Hv.
  unfold mant, i128. assert (2 ^ 128 = 2 * 2 ^ 127) by done. assert (0 < 2 ^ 127) by done.
  destruct (neg b) eqn:En, (val (limbs b) <? 2 ^ 128) eqn:E1; prop_bools; cbn [mbind option_bind]; case_bool_decide as D; try lia; try done.
  - rewrite (proj2 (Z.leb_le _ _)) by lia. f_equal. destruct (decide (val (limbs b) = 2 ^ 127)) as [->|]; [done|].
    unfold signed at 2. rewrite (proj2 (Z.ltb_lt _ _)) by (change (128 - 1) with 127; lia).
    assert (Hne : val (limbs b) <> 0).
    { intros E. apply mag_ok_zero in E; [|apply Hb]. apply (ok_neg b Hb) in E. congruence. }
    unfold wrap. replace (- val (limbs b) mod 2 ^ 128) with (2 ^ 128 - val (limbs b)) by (apply Z.mod_unique with (-1); lia).
    unfold signed. rewrite (proj2 (Z.ltb_ge _ _)) by (change (128 - 1) with 127; lia). lia.
  - by rewrite (proj2 (Z.leb_gt _ _)) by lia.
  - by rewrite (proj2 (Z.ltb_lt _ _)) by lia.
  - by rewrite (proj2 (Z.ltb_ge _ _)) by lia.
Qed.
