(* ===== verification/BigNumText.v ===== *)
(** The text form of decimals (bignum.rs): decimal digits of a limb, the
    digits of a magnitude, and reading back what was printed. *)
From S2P Require Import Prelude Bytes BigNum BigNumMag BigNumDiv BigNumeric.
Open Scope Z_scope.

(** ** Digit strings *)

Definition digit (c : Z) : Prop := 48 <= c <= 57.
Definition digits (s : list Z) : Prop := Forall digit s.

(** The number a digit string reads as. *)
Definition dval (s : list Z) : Z := fold_left (fun n c => n * 10 + (c - 48)) s 0.

Definition pow10 (n : nat) : Z := 10 ^ Z.of_nat n.

Lemma pow10_S n : pow10 (S n) = 10 * pow10 n.
Proof. unfold pow10. by rewrite Nat2Z.inj_succ, Z.pow_succ_r by lia. Qed.

Lemma pow10_add n m : pow10 (n + m) = pow10 n * pow10 m.
Proof. unfold pow10. by rewrite Nat2Z.inj_add, Z.pow_add_r by lia. Qed.

Lemma pow10_gt n : 0 < pow10 n.
Proof. apply Z.pow_pos_nonneg; lia. Qed.

Lemma pow10_le n m : (n <= m)%nat -> pow10 n <= pow10 m.
Proof. intros. apply Z.pow_le_mono_r; lia. Qed.

Lemma dval_acc s n : fold_left (fun n c => n * 10 + (c - 48)) s n = n * pow10 (length s) + dval s.
Proof.
  unfold dval. revert n. induction s as [|c s IH]; intros n; cbn [fold_left length]; [change (pow10 0) with 1; lia|].
  rewrite IH, (IH (0 * 10 + _)), pow10_S. lia.
Qed.

Lemma dval_app s t : dval (s ++ t) = dval s * pow10 (length t) + dval t.
Proof. unfold dval at 1. rewrite fold_left_app. apply dval_acc. Qed.

Lemma dval_cons c s : dval (c :: s) = (c - 48) * pow10 (length s) + dval s.
Proof. change (c :: s) with ([c] ++ s). rewrite dval_app. unfold dval. cbn [fold_left]. lia. Qed.

Lemma dval_bound s : digits s -> 0 <= dval s < pow10 (length s).
Proof.
  induction 1 as [|c s Hc _ IH]; [cbn; unfold pow10; cbn; lia|]. rewrite dval_cons. cbn [length]. rewrite pow10_S. unfold digit in Hc. nia.
Qed.

Lemma dval_zeros n : dval (repeat 48 n) = 0.
Proof. induction n as [|n IH]; [done|]. cbn [repeat]. rewrite dval_cons, IH. lia. Qed.

Lemma digits_zeros n : digits (repeat 48 n).
Proof. apply Forall_forall. intros x Hx. apply list_elem_of_In, repeat_spec in Hx as ->. by split. Qed.

Lemma digits_app s t : digits (s ++ t) <-> digits s /\ digits t.
Proof. apply Forall_app. Qed.

Lemma all_digits s : digits s -> forallb is_ascii_digit s = true.
Proof.
  intros H. apply forallb_forall. intros c Hc%list_elem_of_In. apply (proj1 (Forall_forall _ _) H) in Hc. unfold digit in Hc.
  unfold is_ascii_digit. apply andb_true_iff. rewrite !Z.leb_le. lia.
Qed.

(** ** [to_string] *)

(** No leading zero, except in ["0"]. *)
Definition canonical (s : list Z) : Prop := pow10 (length s - 1) <= dval s \/ s = [48].

Lemma digits_of_spec fuel : forall n s, 0 <= n < pow10 fuel -> (0 < fuel)%nat ->
  exists ds, digits_of fuel n s = ds ++ s /\ ds <> [] /\ digits ds /\ dval ds = n /\ canonical ds.
Proof.
  induction fuel as [|fuel IH]; intros n s Hn Hf; [lia|]. cbn [digits_of].
  pose proof (Z.mod_pos_bound n 10 ltac:(lia)) as Hm. pose proof (Z.div_mod n 10 ltac:(lia)) as E.
  assert (Hd : 0 <= n / 10) by (apply Z.div_pos; lia).
  destruct (n / 10 =? 0) eqn:Ez; prop_bools.
  - exists [48 + n mod 10]. split; [done|]. split; [done|]. split; [apply Forall_singleton; unfold digit; lia|].
    split; [cbn; lia|]. destruct (decide (n mod 10 = 0)) as [->|]; [by right|left; cbn; unfold pow10; cbn; lia].
  - rewrite pow10_S in Hn. assert (Hlt : n / 10 < pow10 fuel) by (apply Z.div_lt_upper_bound; lia).
    assert (0 < fuel)%nat by (destruct fuel; [unfold pow10 in Hlt; cbn in Hlt; lia|lia]).
    destruct (IH (n / 10) ((48 + n mod 10) :: s) ltac:(lia) ltac:(lia)) as (ds & -> & Hne & Hds & Hv & Hc).
    exists (ds ++ [48 + n mod 10]). split; [by rewrite <- app_assoc|]. split; [by destruct ds|]. split; [|split].
    + apply digits_app. split; [done|]. apply Forall_singleton. unfold digit. lia.
    + rewrite dval_app, Hv. unfold dval. cbn [fold_left length]. unfold pow10. cbn. lia.
    + left. rewrite length_app, dval_app, Hv. cbn [length]. replace (length ds + 1 - 1)%nat with (length ds) by lia.
      destruct Hc as [Hc | ->]; [|cbn in Hv; unfold dval in Hv; cbn in Hv; lia].
      destruct ds as [|c ds]; [done|]. cbn [length] in *. replace (S (length ds) - 1)%nat with (length ds) in Hc by lia.
      rewrite pow10_S. change (pow10 1) with 10. unfold dval at 1. cbn [fold_left]. lia.
Qed.

Lemma to_string_spec n : u32 n ->
  let s := to_string n in s <> [] /\ digits s /\ dval s = n /\ canonical s.
Proof.
  intros [H0 H1]. destruct (digits_of_spec 10 n [] ltac:(split; [done|]; assert (2 ^ 32 < pow10 10) by done; lia) ltac:(lia))
    as (ds & E & H). unfold to_string. rewrite E, app_nil_r. done.
Qed.

Lemma limb_u32 x : limb_ok x -> u32 x.
Proof. unfold limb_ok. intros. pose proof BASE_u32. pose proof BASE_gt. split; lia. Qed.

(** The number of digits of a number below a power of ten. *)
Lemma canonical_length s k : canonical s -> (0 < k)%nat -> dval s < pow10 k -> (length s <= k)%nat.
Proof.
  intros [H | ->] Hk Hlt; [|cbn; lia]. destruct (decide (length s <= k)%nat) as [|Hgt]; [done|].
  pose proof (pow10_le k (length s - 1) ltac:(lia)). lia.
Qed.

Lemma BASE_pow10 : BASE = pow10 9.
Proof. done. Qed.

Lemma pad_zero_spec x : limb_ok x ->
  let s := pad_zero BASE_DIGITS (to_string x) in length s = 9%nat /\ digits s /\ dval s = x.
Proof.
  intros Hx. destruct (to_string_spec x (limb_u32 x Hx)) as (Hne & Hd & Hv & Hc).
  assert (Hl : (length (to_string x) <= 9)%nat) by (apply canonical_length; [done|lia|]; rewrite Hv, <- BASE_pow10; apply Hx).
  unfold pad_zero, repeat_str. split; [|split].
  - rewrite length_app, repeat_length. unfold BASE_DIGITS. lia.
  - apply digits_app. split; [apply digits_zeros|done].
  - rewrite dval_app, dval_zeros, Hv. lia.
Qed.

(** ** The digits of a magnitude *)

(** The loop of [to_decimal_str] over the lower limbs, from the top down. *)
Lemma lower_digits rest s : limbs_ok rest -> digits s ->
  let t := fold_left (fun digits limb => digits ++ pad_zero BASE_DIGITS (to_string limb)) rest s in
  digits t /\ dval t = dval s * bpow (length rest) + val (rev rest) /\ exists u, t = s ++ u.
Proof.
  intros Hr. revert s. induction Hr as [|x rest Hx Hr IH]; intros s Hs; cbn [fold_left length rev].
  - split; [done|]. rewrite bpow_0. split; [cbn; lia|]. exists []. by rewrite app_nil_r.
  - destruct (pad_zero_spec x Hx) as (Hl & Hd & Hv).
    destruct (IH (s ++ pad_zero BASE_DIGITS (to_string x))) as (I1 & I2 & u & I3); [by apply digits_app|].
    split; [done|]. split; [|exists (pad_zero BASE_DIGITS (to_string x) ++ u); rewrite I3; by rewrite <- app_assoc].
    rewrite I2, dval_app, Hl, Hv, val_snoc, bpow_S, length_rev, BASE_pow10. lia.
Qed.

Definition mag_digits (l : list Z) : list Z :=
  match rev l with
  | [] => []
  | top :: rest => fold_left (fun digits limb => digits ++ pad_zero BASE_DIGITS (to_string limb)) rest (to_string top)
  end.

Lemma mag_digits_spec l : mag_ok l -> l <> [] ->
  digits (mag_digits l) /\ dval (mag_digits l) = val l /\ exists c s, mag_digits l = c :: s /\ c <> 48 /\ digit c.
Proof.
  intros [Hl Hn] Hne. unfold mag_digits. destruct l as [|top l _] using rev_ind; [done|]. rewrite rev_app_distr. cbn [rev app].
  apply limbs_ok_app in Hl as [Hl Ht]. apply Forall_cons in Ht as [Ht _]. unfold normal in Hn. rewrite last_snoc in Hn.
  destruct (to_string_spec top (limb_u32 top Ht)) as (Hts & Hd & Hv & Hc).
  destruct (lower_digits (rev l) (to_string top)) as (I1 & I2 & u & I3); [by apply Forall_rev|done|].
  rewrite rev_involutive, length_rev in I2. split; [done|]. split; [rewrite I2, Hv, val_snoc; lia|].
  rewrite I3. destruct (to_string top) as [|c s]; [done|]. exists c, (s ++ u). split; [done|].
  apply Forall_cons in Hd as [Hdc Hds]. split; [|done]. intros ->. destruct Hc as [Hc|[= ->]].
  - rewrite dval_cons in Hc. cbn [length] in Hc. replace (S (length s) - 1)%nat with (length s) in Hc by lia.
    pose proof (dval_bound s Hds). lia.
  - by rewrite <- Hv in Hn.
Qed.

(** ** Reading *)

Lemma parse_u32_digits s : digits s -> s <> [] -> (length s <= 9)%nat -> parse_u32 s = Some (dval s).
Proof.
  intros Hd Hne Hl. unfold parse_u32.
  assert (E : match s with c :: (_ :: _) as rest => if c =? 43 then rest else s | _ => s end = s).
  { destruct s as [|c [|d s]]; try done. apply Forall_cons in Hd as [Hc _]. unfold digit in Hc. by rewrite (proj2 (Z.eqb_neq c 43)) by lia. }
  rewrite E. destruct s as [|c s]; [done|]. rewrite all_digits by done. fold (dval (c :: s)).
  pose proof (dval_bound _ Hd) as [_ Hb]. pose proof (pow10_le (length (c :: s)) 9 Hl). rewrite <- BASE_pow10 in *.
  by rewrite (proj2 (Z.ltb_lt _ _)) by (pose proof BASE_u32; pose proof BASE_gt; lia).
Qed.

Lemma dval_limb s : digits s -> (length s <= 9)%nat -> limb_ok (dval s).
Proof.
  intros Hd Hl. pose proof (dval_bound _ Hd). pose proof (pow10_le (length s) 9 Hl). rewrite <- BASE_pow10 in *. unfold limb_ok. lia.
Qed.

Lemma group_limbs_spec fuel bytes : forall i acc, digits bytes -> (i <= length bytes)%nat -> (i <= fuel)%nat -> limbs_ok acc ->
  exists l, group_limbs fuel bytes i acc = Some l /\ limbs_ok l /\ val l = val acc + bpow (length acc) * dval (take i bytes).
Proof.
  induction fuel as [|fuel IH]; intros i acc Hb Hi Hf Hacc; cbn [group_limbs].
  - assert (i = 0%nat) as -> by lia. exists acc. rewrite take_0. unfold dval. cbn. split_and!; [done|done|lia].
  - case_if. { subst i. exists acc. rewrite take_0. unfold dval. cbn. split_and!; [done|done|lia]. }
    unfold BASE_DIGITS. set (start := (i - 9)%nat). set (chunk := slice start (i - start) bytes).
    assert (Hlc : length chunk = (i - start)%nat) by (apply length_slice; lia).
    assert (Hdc : digits chunk) by (by apply Forall_take, Forall_drop).
    rewrite parse_u32_digits; [|done|intros E; rewrite E in Hlc; cbn in Hlc; lia|lia]. cbn [mbind option_bind].
    destruct (IH start (acc ++ [dval chunk]) Hb ltac:(lia) ltac:(lia)) as (l & E & Hl & Hv).
    { apply limbs_ok_snoc; [done|]. apply dval_limb; [done|lia]. }
    exists l. split; [done|]. split; [done|]. rewrite Hv, val_snoc, length_app. cbn [length].
    assert (Ht : take i bytes = take start bytes ++ chunk).
    { unfold chunk, slice. rewrite <- (take_drop start (take i bytes)), take_take, skipn_firstn_comm.
      by replace (start `min` i)%nat with start by lia. }
    rewrite Ht, dval_app, Hlc, Nat.add_1_r, bpow_S, BASE_pow10.
    destruct (decide (9 <= i)%nat); [by replace (i - start)%nat with 9%nat by lia; lia|].
    assert (start = 0%nat) as -> by lia. rewrite take_0. change (dval []) with 0. lia.
Qed.

Lemma trim_start_cons p c s : p c = false -> trim_start_matches p (c :: s) = c :: s.
Proof. intros E. cbn. by rewrite E. Qed.

Lemma trim_id s : Forall (fun c => is_whitespace c = false) s -> trim s = s.
Proof.
  intros H. unfold trim.
  assert (G : forall t, Forall (fun c => is_whitespace c = false) t -> trim_start_matches is_whitespace t = t).
  { intros t Ht. destruct Ht as [|c t Hc _]; [done|]. by apply trim_start_cons. }
  rewrite (G s H), (G (rev s)) by (by apply Forall_rev). apply rev_involutive.
Qed.

Lemma printed_not_space c : digit c \/ c = 45 \/ c = 46 -> is_whitespace c = false.
Proof.
  unfold digit, is_whitespace. intros H. rewrite !orb_false_iff, !andb_false_iff, !Z.eqb_neq, !Z.leb_gt. lia.
Qed.

Lemma trim_zeros n s : match s with c :: _ => c <> 48 | [] => True end -> trim_start_matches (Z.eqb 48) (repeat 48 n ++ s) = s.
Proof.
  intros Hs. induction n as [|n IH]; [|done]. destruct s as [|c s]; [done|]. apply trim_start_cons. by apply Z.eqb_neq.
Qed.

Lemma split_once_digits s t : digits s -> split_once 46 (s ++ 46 :: t) = Some (s, t).
Proof.
  induction 1 as [|c s Hc _ IH]; [done|]. cbn [app split_once]. unfold digit in Hc. rewrite (proj2 (Z.eqb_neq c 46)) by lia. by rewrite IH.
Qed.

Lemma split_once_none s : digits s -> split_once 46 s = None.
Proof.
  induction 1 as [|c s Hc _ IH]; [done|]. cbn [split_once]. unfold digit in Hc. rewrite (proj2 (Z.eqb_neq c 46)) by lia. by rewrite IH.
Qed.

(** A printed number: a sign, integer digits, and a point and fraction digits
    when there is a scale. *)
Definition printed (n : bool) (i f : list Z) : list Z :=
  (if n then [45] else []) ++ i ++ match f with [] => [] | _ => 46 :: f end.

(** Reading a printed number whose digits are zeros before [d]. *)
Lemma read_printed n i f z d : digits i -> digits f -> i <> [] -> i ++ f = repeat 48 z ++ d ->
  match d with c :: _ => c <> 48 | [] => True end -> Z.of_nat (length f) < 2 ^ 16 ->
  exists b, from_decimal_str (printed n i f) = Some b /\ big_ok b /\ scale b = Z.of_nat (length f) /\
    mant b = if n then - dval d else dval d.
Proof.
  intros Hi Hf Hne E Hd Hs. unfold from_decimal_str. rewrite trim_id.
  2:{ unfold printed. apply Forall_app. split; [destruct n; repeat constructor|]. apply Forall_app.
      split; [eapply Forall_impl; [exact Hi|]; intros; apply printed_not_space; auto|].
      destruct f as [|c f]; [constructor|]. constructor; [apply printed_not_space; auto|].
      eapply Forall_impl; [exact Hf|]. intros; apply printed_not_space; auto. }
  set (body := i ++ match f with [] => [] | _ => 46 :: f end).
  assert (Hsign : match strip_prefix 45 (printed n i f) with Some r => (true, r)
      | None => (false, default (printed n i f) (strip_prefix 43 (printed n i f))) end = (n, body)).
  { unfold printed, body. destruct n; [done|]. destruct i as [|c i]; [done|]. apply Forall_cons in Hi as [Hc _]. unfold digit in Hc.
    cbn [app strip_prefix]. rewrite (proj2 (Z.eqb_neq c 45)), (proj2 (Z.eqb_neq c 43)) by lia. done. }
  rewrite Hsign. assert (Hsp : default (body, []) (split_once 46 body) = (i, f)).
  { unfold body. destruct f as [|c f]; [by rewrite app_nil_r, split_once_none|by rewrite split_once_digits]. }
  rewrite Hsp. destruct i as [|c0 i]; [done|]. remember (c0 :: i) as i' eqn:Ei. rewrite (all_digits i'), (all_digits f) by done.
  cbn [negb orb]. rewrite (proj2 (Z.ltb_lt _ _)) by done. cbn [negb]. rewrite E, trim_zeros by done.
  set (ds := match d with [] => [48] | _ => d end).
  assert (Hds : digits ds /\ dval ds = dval d).
  { assert (Hd' : digits (i' ++ f)) by (by apply digits_app). rewrite E in Hd'. apply digits_app in Hd' as [_ Hd'].
    unfold ds. destruct d; [split; [by apply Forall_singleton|done]|done]. }
  destruct Hds as [Hds Hv]. destruct (group_limbs_spec (length ds) ds (length ds) [] Hds ltac:(lia) ltac:(lia) limbs_ok_nil) as (l & -> & Hl & Hvl).
  cbn [mbind option_bind]. rewrite take_ge, Hv in Hvl by lia. change (@length Z []) with 0%nat in Hvl. rewrite bpow_0 in Hvl. cbn [val] in Hvl.
  destruct (normalize_spec n l (Z.of_nat (length f)) Hl ltac:(split; lia)) as (H1 & H2 & H3 & _).
  subst i'. eexists. split; [done|]. split; [done|]. split; [done|]. rewrite H3. replace (val l) with (dval d) by lia. done.
Qed.

(** [to_decimal_str] prints that shape. *)
Lemma print_shape b : big_ok b -> exists i f z d, to_decimal_str b = printed (neg b) i f /\
  digits i /\ digits f /\ i <> [] /\ i ++ f = repeat 48 z ++ d /\ match d with c :: _ => c <> 48 | [] => True end /\
  Z.of_nat (length f) = scale b /\ dval d = val (limbs b).
Proof.
  intros Hb. pose proof (ok_scale b Hb) as [Hs0 Hs]. unfold to_decimal_str. destruct (is_zero b) eqn:Ez.
  { apply is_zero_limbs in Ez. rewrite (ok_neg b Hb Ez), Ez. exists [48], (repeat 48 (Z.to_nat (scale b))), (S (Z.to_nat (scale b))), [].
    rewrite repeat_length, Z2Nat.id by done. split; [|split; [by apply Forall_singleton|]; split; [apply digits_zeros|];
      split; [done|]; split; [by rewrite app_nil_r|]; done].
    unfold printed, repeat_str. case_if; [by replace (scale b) with 0 by lia|].
    destruct (Z.to_nat (scale b)) eqn:En; [lia|]. done. }
  assert (Hne : limbs b <> []) by (intros E; apply is_zero_limbs in E; congruence).
  destruct (mag_digits_spec (limbs b) (ok_limbs b Hb) Hne) as (Hd & Hv & c & s & E & Hc & _). fold (mag_digits (limbs b)).
  set (ds := mag_digits (limbs b)) in *. set (k := Z.to_nat (scale b)).
  assert (Hcut : forall z, (k < length (repeat 48%Z z ++ ds))%nat -> (0 < k)%nat ->
    let w := repeat 48 z ++ ds in let p := (length w - k)%nat in
    exists i f z d, (if neg b then [45] ++ take p w ++ [46] ++ drop p w else take p w ++ [46] ++ drop p w) = printed (neg b) i f /\
      digits i /\ digits f /\ i <> [] /\ i ++ f = repeat 48 z ++ d /\ match d with c :: _ => c <> 48 | [] => True end /\
      Z.of_nat (length f) = scale b /\ dval d = val (limbs b)).
  { intros z Hz Hk w p. assert (Hw : digits w) by (apply digits_app; split; [apply digits_zeros|done]).
    assert (Hf : length (drop p w) = k) by (rewrite length_drop; unfold p, w in *; lia).
    exists (take p w), (drop p w), z, ds. split.
    { unfold printed. destruct (drop p w) as [|x t] eqn:Ed; [cbn in Hf; lia|]. by destruct (neg b). }
    split; [by apply Forall_take|]. split; [by apply Forall_drop|]. split.
    { intros Et. apply (f_equal length) in Et. rewrite length_take in Et. cbn in Et. unfold p, w in *. lia. }
    split; [apply take_drop|]. split; [by rewrite E|]. split; [rewrite Hf; unfold k; lia|done]. }
  destruct (k =? 0)%nat eqn:Ek; prop_bools.
  - exists ds, [], 0%nat, ds. split; [unfold printed; rewrite !app_nil_r; by destruct (neg b)|]. split; [done|]. split; [constructor|].
    split; [by rewrite E|]. split; [by rewrite app_nil_r|]. split; [by rewrite E|]. split; [cbn; unfold k in Ek; lia|done].
  - destruct (length ds <=? k)%nat eqn:El; prop_bools.
    + apply (Hcut (k + 1 - length ds)%nat); [rewrite length_app, repeat_length; lia|lia].
    + apply (Hcut 0%nat); [cbn; lia|lia].
Qed.

Lemma text_roundtrip b : big_ok b -> from_decimal_str (to_decimal_str b) = Some b.
Proof.
  intros Hb. destruct (print_shape b Hb) as (i & f & z & d & -> & Hi & Hf & Hne & E & Hd & Hl & Hv).
  pose proof (ok_scale b Hb) as [_ Hs].
  destruct (read_printed (neg b) i f z d Hi Hf Hne E Hd ltac:(lia)) as (b' & -> & Hb' & Hs' & Hm'). f_equal.
  apply big_ok_inj; [done|done| |lia]. rewrite Hm', Hv. done.
Qed.
