(* ===== verification/BigNumRoot.v ===== *)
(** The square root of bignum.rs, a loop of the logarithm that may not end, and
    the properties of decimals. *)
From S2P Require Import Prelude Bytes BigNum BigNumMag BigNumDiv BigNumeric BigNumText.
Open Scope Z_scope.

(** ** Whole numbers *)

(** [b] is the whole number [v]. *)
Definition whole (b : BigNumeric) (v : Z) : Prop := big_ok b /\ scale b = 0 /\ mant b = v.

Lemma whole_cmp a b x y : whole a x -> whole b y -> cmp a b = Z.compare x y.
Proof.
  intros (Ha & Sa & <-) (Hb & Sb & <-). rewrite cmp_spec by done. cbv zeta. unfold at_scale.
  rewrite Sa, Sb. cbn [Z.max Z.compare Z.sub Z.add Z.opp]. by rewrite !Z.mul_1_r.
Qed.

Lemma whole_add a b x y : whole a x -> whole b y -> whole (add a b) (x + y).
Proof.
  intros (Ha & Sa & <-) (Hb & Sb & <-). destruct (add_spec a b Ha Hb) as (H1 & H2 & H3). rewrite Sa, Sb in H2, H3.
  split; [done|]. split; [done|]. rewrite H3. unfold at_scale. rewrite Sa, Sb. cbn [Z.max Z.compare Z.sub Z.add Z.opp]. by rewrite !Z.mul_1_r.
Qed.

Lemma whole_mul a b x y : whole a x -> whole b y -> whole (mul a b) (x * y).
Proof.
  intros (Ha & Sa & <-) (Hb & Sb & <-). destruct (mul_spec a b Ha Hb ltac:(rewrite Sa, Sb; done)) as (H1 & H2 & H3).
  split; [done|]. split; [by rewrite H2, Sa, Sb|done].
Qed.

Lemma whole_div a b x y : whole a x -> whole b y -> 0 <= x -> 0 < y ->
  exists q r, div_rem_int a b = Some (q, r) /\ whole q (x / y) /\ whole r (x mod y).
Proof.
  intros (Ha & Sa & <-) (Hb & Sb & <-) Hx Hy.
  destruct (div_rem_int_spec a b Ha Hb ltac:(lia)) as (q & r & E & Hq & Hr & Sq & Sr & Eq & Er).
  exists q, r. split; [done|]. rewrite Z.quot_div_nonneg in Eq by lia. rewrite Z.rem_mod_nonneg in Er by lia. done.
Qed.

Lemma from_i128_whole v : 0 <= v < BASE -> whole (from_i128 v 0) v.
Proof.
  intros Hv. unfold from_i128. rewrite (proj2 (Z.ltb_ge v 0)) by lia. rewrite Z.abs_eq by lia.
  assert (E : exists l, push_limbs 5 v [] = l /\ limbs_ok l /\ val l = v).
  { eexists. split; [done|]. cbn [push_limbs]. rewrite Z.div_small by lia. rewrite Z.eqb_refl. case_if; [subst; split; [apply limbs_ok_nil|done]|].
    rewrite Z.mod_small by lia. split; [apply Forall_singleton; unfold limb_ok; lia|cbn; lia]. }
  destruct E as (l & -> & Hl & Vl). destruct (normalize_spec false l 0 Hl ltac:(done)) as (H1 & H2 & H3 & _).
  split; [done|]. split; [done|]. by rewrite H3.
Qed.

(** ** Newton's loop *)

Lemma newton_above n s x : s * s <= n -> 0 < x -> s <= (x + n / x) / 2.
Proof.
  intros Hs Hx. assert (2 * s - x <= n / x) by (apply Z.div_le_lower_bound; [lia|]; pose proof (Z.square_nonneg (x - s)); nia).
  apply Z.div_le_lower_bound; lia.
Qed.

Lemma newton_halves n s x : n < (s + 1) * (s + 1) -> 0 <= s < x -> (x + n / x) / 2 - s <= (x - s) / 2.
Proof.
  intros Hs Hx. assert (n / x < s + 1) by (apply Z.div_lt_upper_bound; [lia|]; assert ((s + 1) * (s + 1) <= x * (s + 1)) by nia; lia).
  transitivity ((x + s) / 2 - s); [apply Z.sub_le_mono_r, Z.div_le_mono; lia|]. zdm.
Qed.

Lemma newton_spec fuel n nb : forall x xb, 0 < n -> whole nb n -> whole xb x -> Z.sqrt n <= x -> 0 < x ->
  x - Z.sqrt n < 2 ^ Z.of_nat fuel ->
  exists rb, newton fuel nb xb (from_i128 2 0) = Some rb /\ whole rb (Z.sqrt n).
Proof.
  pose proof (from_i128_whole 2 ltac:(done)) as H2.
  induction fuel as [|fuel IH]; intros x xb Hn Hnb Hxb Hle Hx Hf;
    destruct (whole_div nb xb n x Hnb Hxb ltac:(lia) Hx) as (d & r & E & Hd & _); cbn [newton]; rewrite E; cbn [mbind option_bind];
    pose proof (whole_add xb d _ _ Hxb Hd) as Hsum;
    assert (Hq : 0 <= n / x) by (apply Z.div_pos; lia);
    destruct (whole_div _ _ _ _ Hsum H2 ltac:(lia) ltac:(lia)) as (nx & r' & E' & Hnx & _); rewrite E'; cbn [mbind option_bind];
    rewrite (whole_cmp _ _ _ _ Hnx Hxb); pose proof (Z.sqrt_spec n ltac:(lia)) as [S1 S2]; cbv zeta in S1, S2;
    pose proof (newton_above n (Z.sqrt n) x S1 Hx); pose proof (Z.sqrt_nonneg n);
    (destruct (decide (x = Z.sqrt n)) as [Ex|Ex];
      [rewrite Ex in *; destruct (Z.compare_spec ((Z.sqrt n + n / Z.sqrt n) / 2) (Z.sqrt n)); [by eexists|lia|by eexists]|]).
  - cbn in Hf. lia.
  - pose proof (newton_halves n (Z.sqrt n) x S2 ltac:(lia)) as Hh. set (y := (x + n / x) / 2) in *.
    destruct (Z.compare_spec y x) as [C|C|C].
    + exfalso. assert ((x - Z.sqrt n) / 2 < x - Z.sqrt n) by (apply Z.div_lt; lia). lia.
    + apply (IH y nx); [done..| |].
      * destruct (decide (0 < y)); [done|]. assert (0 < Z.sqrt n) by (apply Z.sqrt_pos; lia). lia.
      * rewrite Nat2Z.inj_succ, Z.pow_succ_r in Hf by lia.
        assert ((x - Z.sqrt n) / 2 < 2 ^ Z.of_nat fuel) by (apply Z.div_lt_upper_bound; lia). lia.
    + exfalso. assert ((x - Z.sqrt n) / 2 < x - Z.sqrt n) by (apply Z.div_lt; lia). lia.
Qed.

(** ** The first guess *)

Lemma ndigits_bound l top : mag_ok l -> last l = Some top ->
  val l < pow10 ((length l - 1) * BASE_DIGITS + length (to_string top)).
Proof.
  intros [Hl _] Ht. apply last_Some in Ht as (l' & ->). rewrite val_snoc, length_app. cbn [length].
  replace (length l' + 1 - 1)%nat with (length l') by lia. apply limbs_ok_app in Hl as [Hl Ht]. apply Forall_cons in Ht as [Ht _].
  destruct (to_string_spec top (limb_u32 top Ht)) as (_ & Hd & Hv & _). pose proof (dval_bound _ Hd) as Hb. rewrite Hv in Hb.
  pose proof (val_bound l' Hl). rewrite pow10_add.
  assert (pow10 (length l' * BASE_DIGITS) = bpow (length l')) as ->.
  { unfold pow10, bpow. change BASE with (10 ^ 9). rewrite <- Z.pow_mul_r by lia. f_equal. unfold BASE_DIGITS. lia. }
  pose proof (bpow_pos (length l')). nia.
Qed.

Lemma sqrt_below n k : 0 <= n -> n < pow10 k -> Z.sqrt n < pow10 ((k + 1) / 2).
Proof.
  intros H0 Hn. destruct (Z.sqrt_spec n H0) as [S1 _]. pose proof (Z.sqrt_nonneg n). pose proof (pow10_gt ((k + 1) / 2)).
  assert (pow10 k <= pow10 ((k + 1) / 2) * pow10 ((k + 1) / 2)).
  { rewrite <- pow10_add. apply pow10_le. pose proof (Nat.div_mod_eq (k + 1) 2). pose proof (Nat.mod_upper_bound (k + 1) 2). lia. }
  nia.
Qed.

Lemma bpow_pow2 n : bpow n <= 2 ^ Z.of_nat (30 * n).
Proof.
  rewrite Nat2Z.inj_mul. unfold bpow. change (Z.of_nat 30) with 30. rewrite Z.pow_mul_r by lia. apply Z.pow_le_mono_l. split; [done|]. done.
Qed.

Lemma isqrt_mag_spec b : mag_ok (limbs b) -> exists r, isqrt_mag b = Some r /\ whole r (Z.sqrt (val (limbs b))).
Proof.
  intros Hb. unfold isqrt_mag. set (n := mk_big false (limbs b) 0).
  assert (Hn : whole n (val (limbs b))) by (split; [by split; [apply Hb|..]|done]).
  destruct (is_zero n) eqn:Ez.
  { apply is_zero_limbs in Ez. cbn in Ez. rewrite Ez. eexists. split; [done|]. split; [split; [apply mag_ok_nil|done..]|done]. }
  assert (Hne : limbs b <> []) by (intros E; apply is_zero_limbs in E; cbn in *; unfold is_zero in *; cbn in *; congruence).
  pose proof (mag_ok_pos _ Hb Hne) as Hpos. cbn [limbs n].
  destruct (last (limbs b)) as [top|] eqn:Et; [|by apply last_None in Et]. cbn [mbind option_bind].
  pose proof (ndigits_bound _ _ Hb Et) as Hnd. set (k := (_ * BASE_DIGITS + _)%nat) in *.
  destruct (from_i128_whole 1 ltac:(done)) as (H1 & S1 & M1).
  destruct (mul_pow10_spec (limbs (from_i128 1 0)) (Z.of_nat ((k + 1) / 2)) (ok_limbs _ H1) ltac:(lia)) as [Vx Ox].
  change (val (limbs (from_i128 1 0))) with 1 in Vx. rewrite Z.mul_1_l in Vx. fold (pow10 ((k + 1) / 2)) in Vx.
  set (x := mul_pow10 _ _) in *. pose proof (pow10_gt ((k + 1) / 2)) as Px.
  pose proof (sqrt_below (val (limbs b)) k ltac:(lia) Hnd) as Hs. pose proof (Z.sqrt_nonneg (val (limbs b))).
  destruct (newton_spec (30 * length x + 1) (val (limbs b)) n (val x) (mk_big false x 0)) as (r & -> & Hr);
    [done|done|split; [split; [done| |done]|done]|lia|lia| |].
  { intros E. done. }
  { pose proof (val_bound x (proj1 Ox)) as [_ Hvx]. pose proof (bpow_pow2 (length x)).
    rewrite Nat2Z.inj_add, Z.pow_add_r by lia. lia. }
  cbn [mbind option_bind descend]. exists r. split; [|done]. cbn [limbs descend].
  rewrite (whole_cmp _ _ _ _ (whole_mul _ _ _ _ Hr Hr) Hn). destruct (Z.sqrt_spec (val (limbs b)) ltac:(lia)) as [S2 _]. cbv zeta in S2.
  destruct (Z.compare_spec (Z.sqrt (val (limbs b)) * Z.sqrt (val (limbs b))) (val (limbs b))); [done|done|lia].
Qed.

(** ** Square root *)

(** The integer under the root: the value at twice the result's scale and two
    guard digits, rounded down. *)
Lemma radicand_spec b rs : big_ok b -> u16 rs ->
  let shift := 2 * (rs + 1) - scale b in
  exists l, (if 0 <=? shift then Some (mk_big false (mul_pow10 (limbs b) shift) 0)
    else let! (q, _) := div_rem_mag (limbs b) (mul_pow10 [1] (- shift)) in Some (mk_big false q 0)) = Some (mk_big false l 0) /\
    mag_ok l /\ val l = val (limbs b) * 10 ^ (2 * (rs + 1)) / 10 ^ scale b.
Proof.
  intros Hb [Hrs _] shift. pose proof (ok_scale b Hb) as [Sb _]. pose proof (pow10_pos (scale b) Sb). case_if.
  - destruct (mul_pow10_spec (limbs b) shift (ok_limbs b Hb) ltac:(lia)) as [V O]. eexists. split; [done|]. split; [done|].
    rewrite V. replace (2 * (rs + 1)) with (shift + scale b) by (unfold shift; lia). rewrite Z.pow_add_r by lia.
    rewrite Z.mul_assoc, Z.div_mul by lia. done.
  - destruct (mag_ok_small 1 ltac:(done)) as [H1 V1]. destruct (mul_pow10_spec [1] (- shift) H1 ltac:(lia)) as [V O].
    rewrite V1, Z.mul_1_l in V. pose proof (pow10_pos (- shift) ltac:(lia)).
    destruct (div_rem_mag_spec (limbs b) (mul_pow10 [1] (- shift)) (ok_limbs b Hb) O) as (q & r & -> & Hq & _ & Vq & _).
    { intros E. rewrite E in V. cbn in V. lia. }
    eexists. split; [done|]. split; [done|]. rewrite Vq, V. replace (scale b) with (- shift + 2 * (rs + 1)) by (unfold shift; lia).
    rewrite (Z.pow_add_r 10 (- shift)) by lia. pose proof (pow10_pos (2 * (rs + 1)) ltac:(lia)). by rewrite Z.div_mul_cancel_r by lia.
Qed.

(** Dropping the guard digit of a rounded down root rounds to the nearest. *)
Lemma root_nearest m d p : 0 <= m -> 0 < d -> 0 < p ->
  let r := (Z.sqrt (m * (100 * (p * p)) / d) + 5) / 10 in
  0 <= r /\ (2 * r - 1) * Z.max 0 (2 * r - 1) * d <= 4 * m * (p * p) /\ 4 * m * (p * p) < (2 * r + 1) * (2 * r + 1) * d.
Proof.
  intros Hm Hd Hp. set (y := m * (100 * (p * p)) / d). assert (Hy : 0 <= y) by (apply Z.div_pos; nia).
  pose proof (Z.div_mod (m * (100 * (p * p))) d ltac:(lia)) as E. pose proof (Z.mod_pos_bound (m * (100 * (p * p))) d Hd) as Hr.
  fold y in E. destruct (Z.sqrt_spec y Hy) as [S1 S2]. pose proof (Z.sqrt_nonneg y). set (s := Z.sqrt y) in *.
  intros r. assert (Hrs : 10 * r <= s + 5 < 10 * r + 10) by (unfold r; zdm). clearbody r s. split; [lia|]. split.
  - destruct (decide (r = 0)) as [->|]; [lia|]. rewrite Z.max_r by lia.
    assert ((10 * r - 5) * (10 * r - 5) <= y) by nia. nia.
  - assert (y + 1 <= (10 * r + 5) * (10 * r + 5)) by nia. nia.
Qed.

Lemma sqrt_spec b rs : big_ok b -> u16 rs -> 0 <= mant b ->
  exists r, sqrt b rs = Some (Some r) /\ big_ok r /\ scale r = rs /\
    mant r = (Z.sqrt (mant b * 10 ^ (2 * (rs + 1)) / 10 ^ scale b) + 5) / 10.
Proof.
  intros Hb Hrs Hm. unfold sqrt. pose proof (is_zero_spec b (ok_limbs b Hb)) as Hz.
  destruct (is_zero b) eqn:Ez.
  { rewrite andb_false_r. assert (mant b = 0) as -> by (by apply Hz). eexists. split; [done|].
    split; [split; [apply mag_ok_nil|done|done]|]. split; [done|]. done. }
  assert (Hneg : neg b = false).
  { unfold mant in Hm. destruct (neg b) eqn:En; [|done]. assert (limbs b <> []) as Hne by (intros E'; apply is_zero_limbs in E'; congruence).
    pose proof (mag_ok_pos _ (ok_limbs b Hb) Hne). lia. }
  rewrite Hneg. cbn [andb limbs].
  destruct (radicand_spec b rs Hb Hrs) as (l & -> & Hl & Vl). cbn [mbind option_bind].
  destruct (isqrt_mag_spec (mk_big false l 0) Hl) as (root & -> & Hroot). cbn [mbind option_bind limbs] in *.
  pose proof (from_i128_whole 10 ltac:(done)) as H10. pose proof (from_i128_whole 5 ltac:(done)) as H5.
  pose proof (from_i128_whole 1 ltac:(done)) as H1. set (s := Z.sqrt (val l)) in *. pose proof (Z.sqrt_nonneg (val l)) as Hs. fold s in Hs.
  destruct (whole_div _ _ _ _ Hroot H10 Hs ltac:(lia)) as (q & r & -> & Hq & Hr). cbn [mbind option_bind].
  rewrite (whole_cmp _ _ _ _ Hr H5). set (rounded := match s mod 10 ?= 5 with Lt => q | _ => add q (from_i128 1 0) end).
  assert (Hrd : whole rounded ((s + 5) / 10)).
  { rewrite drop_guard. unfold rounded. destruct (Z.compare_spec (s mod 10) 5); case_if; try lia;
      (rewrite Z.add_0_r; exact Hq) || (apply whole_add; assumption). }
  destruct Hrd as (Ho & _ & Hmr). destruct (normalize_spec (neg rounded) (limbs rounded) rs (proj1 (ok_limbs _ Ho)) Hrs) as (G1 & G2 & G3 & _).
  eexists. split; [done|]. split; [done|]. split; [done|]. rewrite G3. unfold mant in Hmr. rewrite Hmr.
  unfold s. rewrite Vl. unfold mant. by rewrite Hneg.
Qed.

(** ** The loop of the logarithm *)

(** At working scale [ws] the value is below one half of the last place. *)
Lemma round_to_zero b ws : big_ok b -> u16 ws -> 0 <= mant b -> 2 * (mant b * 10 ^ ws) < 10 ^ scale b ->
  round_to b ws = Some (mk_big false [] ws).
Proof.
  intros Hb Hws Hm Hlt. destruct (round_to_spec b ws Hb Hws) as (r & -> & Hr & Sr & Mr). f_equal.
  assert (Hz : mant r = 0).
  { rewrite Mr. unfold half_away, half_up. pose proof (pow10_pos (scale b) (proj1 (ok_scale b Hb))).
    pose proof (pow10_pos ws (proj1 Hws)). rewrite (Z.abs_eq (mant b * 10 ^ ws)), (Z.abs_eq (10 ^ scale b)) by nia.
    rewrite Z.div_small by nia. lia. }
  apply big_ok_inj; [done|split; [apply mag_ok_nil|done|done]|done|done].
Qed.

(** Doubling zero never reaches two thirds. *)
Lemma scale_up_zero fuel t ws e : u16 ws -> cmp (mk_big false [] ws) t = Lt ->
  scale_up fuel (mk_big false [] ws) t (from_i128 2 0) ws e = None.
Proof.
  intros Hws Hc. revert e. induction fuel as [|fuel IH]; intros e; cbn [scale_up]; rewrite Hc; [done|].
  assert (E : round_to (mul (mk_big false [] ws) (from_i128 2 0)) ws = Some (mk_big false [] ws)).
  { unfold mul. cbn [is_zero limbs orb scale]. change (scale (from_i128 2 0)) with 0. unfold wrapping_add. rewrite Z.add_0_r, wrap_id by done.
    unfold round_to. cbn [scale]. by rewrite Z.compare_refl. }
  rewrite E. cbn [mbind option_bind]. apply IH.
Qed.

Lemma ln_at_diverges fuel b : big_ok b -> 0 < mant b -> 2 * (mant b * 10 ^ 30) < 10 ^ scale b -> ln_at fuel b 30 = None.
Proof.
  intros Hb Hm Hlt. unfold ln_at. assert (neg b || is_zero b = false) as ->.
  { apply orb_false_iff. split; [unfold mant in Hm; destruct (neg b); [pose proof (val_bound _ (proj1 (ok_limbs b Hb))); lia|done]|].
    apply not_true_iff_false. intros E. apply is_zero_spec in E; [lia|apply Hb]. }
  destruct (from_decimal_str str_ln2) as [ln2|] eqn:E1; [cbn [mbind option_bind]|done].
  destruct (from_decimal_str str_four_thirds) as [f|] eqn:E2; [cbn [mbind option_bind]|done].
  destruct (from_decimal_str str_two_thirds) as [t|] eqn:E3; [cbn [mbind option_bind]|done].
  rewrite (round_to_zero b 30 Hb ltac:(done) ltac:(lia) Hlt). cbn [mbind option_bind].
  assert (Hf : cmp (mk_big false [] 30) f = Lt).
  { vm_compute in E2. injection E2 as <-. by vm_compute. }
  assert (Ht : cmp (mk_big false [] 30) t = Lt).
  { vm_compute in E3. injection E3 as <-. by vm_compute. }
  assert (E : scale_down fuel (mk_big false [] 30) f (from_i128 2 0) 30 0 = Some (mk_big false [] 30, 0)).
  { destruct fuel; cbn [scale_down]; by rewrite Hf. }
  rewrite E. cbn [mbind option_bind]. by rewrite scale_up_zero.
Qed.

(** ** Properties *)

(** Decimal arithmetic is exact: on well-formed operands of any length and
    scale, [add], [sub], [neg] and [mul] give well-formed results whose value
    is the sum, the difference, the opposite and the product, at the larger
    scale or the sum of the scales, and [cmp] orders the values, so that
    [1.5] and [1.50] compare equal. *)
Lemma decimal_arithmetic a b : big_ok a -> big_ok b ->
  let s := Z.max (scale a) (scale b) in
  (big_ok (add a b) /\ scale (add a b) = s /\ mant (add a b) = at_scale s a + at_scale s b) /\
  (big_ok (sub a b) /\ scale (sub a b) = s /\ mant (sub a b) = at_scale s a - at_scale s b) /\
  (big_ok (negate a) /\ scale (negate a) = scale a /\ mant (negate a) = - mant a) /\
  (scale a + scale b < 2 ^ 16 ->
    big_ok (mul a b) /\ scale (mul a b) = scale a + scale b /\ mant (mul a b) = mant a * mant b) /\
  cmp a b = Z.compare (at_scale s a) (at_scale s b).
Proof.
  intros Ha Hb s. split; [by apply add_spec|]. split; [by apply sub_spec|]. split; [by apply negate_spec|].
  split; [intros; by apply mul_spec|by apply cmp_spec].
Qed.

(** C17: division never panics on a nonzero divisor and is exact: [div_rem_int]
    gives the quotient and remainder of the mantissas truncated toward zero,
    [div] the quotient rounded half away from zero at the scale asked for, and
    [round_to] the operand rounded the same way; dividing by zero is [None]. *)
Theorem division_correct a b rs : big_ok a -> big_ok b -> u16 rs ->
  (mant b <> 0 ->
    (exists q r, div_rem_int a b = Some (q, r) /\ big_ok q /\ big_ok r /\ scale q = 0 /\ scale r = 0 /\
      mant q = Z.quot (mant a) (mant b) /\ mant r = Z.rem (mant a) (mant b)) /\
    (exists r, div a b rs = Some (Some r) /\ big_ok r /\ scale r = rs /\
      mant r = half_away (mant a * 10 ^ (rs + scale b)) (mant b * 10 ^ scale a))) /\
  (mant b = 0 -> div a b rs = Some None) /\
  (exists r, round_to a rs = Some r /\ big_ok r /\ scale r = rs /\ mant r = half_away (mant a * 10 ^ rs) (10 ^ scale a)).
Proof.
  intros Ha Hb Hrs. split; [intros Hnz; split; [by apply div_rem_int_spec|by apply div_spec]|].
  split; [by apply div_zero|by apply round_to_spec].
Qed.

Lemma division_correct_witness :
  let a := mk_big true [2; 0; 1] 4 in let b := mk_big false [3; 500000000] 1 in
  exists r, div a b 30 = Some (Some r) /\ mant r = half_away (mant a * 10 ^ (30 + scale b)) (mant b * 10 ^ scale a).
Proof.
  destruct (division_correct (mk_big true [2; 0; 1] 4) (mk_big false [3; 500000000] 1) 30) as (H & _ & _);
    [by apply (bool_decide_unpack _); vm_compute|by apply (bool_decide_unpack _); vm_compute|by apply in_wb_spec|].
  destruct H as (_ & r & E & _ & _ & M); [by vm_compute|]. exists r. exact (conj E M).
Defined.

(** The square root ends and is correctly rounded: for a nonnegative value
    and any scale asked for, Newton's loop converges within its fuel, and the
    result [r], a well-formed value at that scale, is the nearest to the root,
    halves up: [(2r - 1)^2 <= 4 x < (2r + 1)^2] for [x] the value at twice the
    scale; a negative value is refused. *)
Lemma sqrt_correct b rs : big_ok b -> u16 rs ->
  (mant b < 0 -> sqrt b rs = Some None) /\
  (0 <= mant b -> exists r, sqrt b rs = Some (Some r) /\ big_ok r /\ scale r = rs /\ 0 <= mant r /\
    (2 * mant r - 1) * Z.max 0 (2 * mant r - 1) * 10 ^ scale b <= 4 * mant b * (10 ^ rs * 10 ^ rs) /\
    4 * mant b * (10 ^ rs * 10 ^ rs) < (2 * mant r + 1) * (2 * mant r + 1) * 10 ^ scale b).
Proof.
  intros Hb Hrs. split; intros Hm.
  - unfold sqrt. assert (is_zero b = false) as -> by (apply not_true_iff_false; intros E; apply is_zero_spec in E; [lia|apply Hb]).
    assert (neg b = true) as ->; [|done]. pose proof (val_bound _ (proj1 (ok_limbs b Hb))). unfold mant in Hm. destruct (neg b); [done|lia].
  - destruct (sqrt_spec b rs Hb Hrs Hm) as (r & E & Hr & Sr & Mr). exists r.
    pose proof (pow10_pos (scale b) (proj1 (ok_scale b Hb))). pose proof (pow10_pos rs (proj1 Hrs)).
    pose proof (root_nearest (mant b) (10 ^ scale b) (10 ^ rs) Hm ltac:(done) ltac:(done)) as Hn. cbv zeta in Hn.
    replace (10 ^ (2 * (rs + 1))) with (100 * (10 ^ rs * 10 ^ rs)) in Mr.
    2:{ replace (2 * (rs + 1)) with (2 + (rs + rs)) by lia. destruct Hrs. by rewrite !Z.pow_add_r by lia. }
    rewrite <- Mr in Hn. split; [done|]. split; [done|]. split; [done|]. exact Hn.
Qed.

(** Decimals survive their two external forms: printing a well-formed value
    and reading the text back gives the same value and scale, and so does the
    trip through [i128], which is refused exactly when the mantissa does not
    fit. *)
Lemma decimal_roundtrip b : big_ok b ->
  from_decimal_str (to_decimal_str b) = Some b /\
  to_i128 b = (if bool_decide (i128 (mant b)) then Some (mant b) else None) /\
  (forall v, i128 v -> from_i128 v (scale b) = b <-> mant b = v).
Proof.
  intros Hb. split; [by apply text_roundtrip|]. split; [by apply to_i128_spec|]. intros v Hv.
  destruct (from_i128_spec v (scale b) Hv (ok_scale b Hb)) as (H1 & H2 & H3). split; [by intros <-|]. intros Hm.
  apply big_ok_inj; [done|done|by rewrite H3|done].
Qed.

(** The logarithm of a tiny value does not end: for a positive value below
    half of 10^-30, which rounds to zero at the working scale, no number of
    turns is enough for the loop that doubles it up to two thirds, so neither
    [ln] nor [pow_numeric] returns. *)
Lemma ln_diverges fuel b e : big_ok b -> 0 < mant b -> 2 * (mant b * 10 ^ 30) < 10 ^ scale b ->
  ln fuel b = None /\ pow_numeric fuel b e = None.
Proof.
  intros Hb Hm Hlt. unfold ln, pow_numeric. rewrite (ln_at_diverges fuel b Hb Hm Hlt). split; [done|].
  assert (neg b || is_zero b = false) as ->; [|done]. apply orb_false_iff.
  split; [unfold mant in Hm; destruct (neg b); [pose proof (val_bound _ (proj1 (ok_limbs b Hb))); lia|done]|].
  apply not_true_iff_false. intros E. apply is_zero_spec in E; [lia|apply Hb].
Qed.
