(* ===== verification/Values.v ===== *)
(** Column types and cell values (crates/spg-storage/src/lib.rs): [DataType] and
    [Value] with the source's constructors, the type a value reports of itself,
    and what it means for a [Value] to be one a Rust value can be.

    An [iW] is a signed [Z], a [uW] a [Z] below [2 ^ W], an [f32] or [f64] its
    bit pattern, a string its UTF-8 bytes, a boxed slice or array its bytes.  The
    constructors stand in modules of their own, [DT] and [V], since the two enums
    share most of their names. *)
From S2P Require Import Prelude Bytes BigNum.
Open Scope Z_scope.

(** A [w]-bit two's complement integer. *)
Definition in_i (w n : Z) : Prop := - 2 ^ (w - 1) <= n < 2 ^ (w - 1).
Abbreviation i8 := (in_i 8) (only parsing).
Abbreviation i16 := (in_i 16) (only parsing).
Abbreviation i32 := (in_i 32) (only parsing).
Abbreviation i64 := (in_i 64) (only parsing).
Abbreviation i128 := (in_i 128) (only parsing).

#[export] Instance in_i_dec w n : Decision (in_i w n).
Proof. unfold in_i. apply _. Defined.

(** The bytes of a [[u8; n]]. *)
Definition array (n : nat) (bs : list Z) : Prop := length bs = n /\ is_bytes bs.

#[export] Instance array_dec n bs : Decision (array n bs).
Proof. unfold array, is_bytes. apply _. Defined.

(** ** The small enums *)

Inductive VecEncoding : Type := F32 | Sq8 | F16.

Inductive RangeKind : Type := Int4 | Int8 | Num | Ts | TsTz | Date.

Definition range_tag (k : RangeKind) : Z :=
  match k with Int4 => 0 | Int8 => 1 | Num => 2 | Ts => 3 | TsTz => 4 | Date => 5 end.

Definition range_from_tag (t : Z) : option RangeKind :=
  if t =? 0 then Some Int4 else if t =? 1 then Some Int8 else if t =? 2 then Some Num
  else if t =? 3 then Some Ts else if t =? 4 then Some TsTz else if t =? 5 then Some Date else None.

Lemma range_from_tag_tag k : range_from_tag (range_tag k) = Some k.
Proof. by destruct k. Qed.

Lemma range_tag_u8 k : u8 (range_tag k).
Proof. by destruct k. Qed.

Module NumericKind.
Inductive NumericKind : Type := Finite | NaN | PosInf | NegInf.
End NumericKind.
Abbreviation NumericKind := NumericKind.NumericKind.

Module IntervalKind.
Inductive IntervalKind : Type := Finite | NegInf | PosInf.

Definition I32_MAX : Z := 2 ^ 31 - 1.
Definition I32_MIN : Z := - 2 ^ 31.
Definition I64_MAX : Z := 2 ^ 63 - 1.
Definition I64_MIN : Z := - 2 ^ 63.

Definition from_fields (months days micros : Z) : IntervalKind :=
  if (micros =? I64_MAX) && (days =? I32_MAX) && (months =? I32_MAX) then PosInf
  else if (micros =? I64_MIN) && (days =? I32_MIN) && (months =? I32_MIN) then NegInf
  else Finite.

Definition to_fields (self : IntervalKind) (months days micros : Z) : Z * Z * Z :=
  match self with
  | Finite => (months, days, micros)
  | PosInf => (I32_MAX, I32_MAX, I64_MAX)
  | NegInf => (I32_MIN, I32_MIN, I64_MIN)
  end.
End IntervalKind.
Abbreviation IntervalKind := IntervalKind.IntervalKind.

(** ** Column types *)

Module DT.
Inductive DataType : Type :=
| SmallInt | Int | BigInt | Float | Real | Text | Varchar (max : Z) | Char (size : Z) | Bool
| Vector (dim : Z) (encoding : VecEncoding)
| Numeric (precision scale : Z)
| Date | Void | Timestamp | Timestamptz | Name | Xid | Xid8 | Oid | Tid | Cid | RegClass | RegType | RegProc
| PgNodeTree | AnyArray | AclItemArray | Char1Array | RegTypeArray
| Interval | Json | Jsonb | Bytes | TextArray | IntArray | BigIntArray | OidArray | Int2Vector | OidVector
| IntervalArray | BoolArray | SmallIntArray | FloatArray | NumericArray | DateArray | TimestampArray
| TimestamptzArray | UuidArray | JsonArray | JsonbArray | BytesArray | VarcharArray | CharArray | RealArray
| TimeArray | TimeTzArray | InetArray | XmlArray
| Multirange (kind : RangeKind)
| Point | Lseg | Path | PgBox | Polygon | Line | Circle
| Inet | Cidr | Macaddr | Macaddr8 | PgLsn | Bit (n : Z) | BitVarying (n : Z) | Xml | Char1 | MoneyArray
| TsVector | TsQuery | Uuid | Time | Year | TimeTz | Money
| Range (kind : RangeKind)
| Hstore | IntArray2D | BigIntArray2D | TextArray2D | BoolArray2D.
End DT.
Abbreviation DataType := DT.DataType.

#[export] Instance vec_encoding_eq_dec : EqDecision VecEncoding.
Proof. solve_decision. Defined.
#[export] Instance range_kind_eq_dec : EqDecision RangeKind.
Proof. solve_decision. Defined.
#[export] Instance numeric_kind_eq_dec : EqDecision NumericKind.
Proof. solve_decision. Defined.
#[export] Instance interval_kind_eq_dec : EqDecision IntervalKind.
Proof. solve_decision. Defined.

(** ** Cell values *)

Record Point2D : Type := mk_point { px : Z; py : Z }.
Record IntervalSpan : Type :=
  mk_span { span_months : Z; span_days : Z; span_micros : Z; span_kind : IntervalKind }.
Record Sq8Vector : Type := mk_sq8 { sq8_min : Z; sq8_max : Z; sq8_bytes : list Z }.
Record HalfVector : Type := mk_half { half_bytes : list Z }.
Record TsLexeme : Type := mk_lexeme { word : list Z; positions : list Z; weight : Z }.

Definition half_dim (h : HalfVector) : nat := (length (half_bytes h) / 2)%nat.

Inductive TsQueryAst : Type :=
| Term (word : list Z) (weight_mask : Z)
| And (a b : TsQueryAst)
| Or (a b : TsQueryAst)
| Not (x : TsQueryAst)
| Phrase (left right : TsQueryAst) (distance : Z).

(** [RangeSpan], over the type of its bounds: [Value] is the type. *)
Record RangeSpan (V : Type) : Type :=
  mk_range { lower : option V; upper : option V; lower_inc : bool; upper_inc : bool; empty : bool }.
Arguments mk_range {V} lower upper lower_inc upper_inc empty.
Arguments lower {V} r.
Arguments upper {V} r.
Arguments lower_inc {V} r.
Arguments upper_inc {V} r.
Arguments empty {V} r.

Module V.
Inductive Value : Type :=
| SmallInt (n : Z) | Int (n : Z) | BigInt (n : Z) | Float (x : Z) | Real (x : Z) | Text (s : list Z)
| Bool (b : bool) | Vector (v : list Z) | Sq8Vector (q : Sq8Vector) | HalfVector (h : HalfVector)
| Numeric (scaled scale : Z) (kind : NumericKind)
| NumericBig (b : BigNumeric)
| Date (d : Z) | Void | Timestamp (t : Z)
| Interval (months days micros : Z) (kind : IntervalKind)
| Json (s : list Z) | Bytes (b : list Z)
| TextArray (items : list (option (list Z))) | IntArray (items : list (option Z))
| BigIntArray (items : list (option Z)) | IntervalArray (items : list (option IntervalSpan))
| BoolArray (items : list (option bool)) | SmallIntArray (items : list (option Z))
| Int2Vector (items : list Z) | OidVector (items : list Z)
| FloatArray (items : list (option Z)) | NumericArray (items : list (option (Z * Z)))
| DateArray (items : list (option Z)) | TimestampArray (items : list (option Z))
| TimestamptzArray (items : list (option Z)) | UuidArray (items : list (option (list Z)))
| JsonArray (items : list (option (list Z))) | JsonbArray (items : list (option (list Z)))
| BytesArray (items : list (option (list Z))) | VarcharArray (items : list (option (list Z)))
| CharArray (items : list (option (list Z))) | RealArray (items : list (option Z))
| TimeArray (items : list (option Z)) | TimeTzArray (items : list (option (Z * Z)))
| InetArray (items : list (option (Z * Z * list Z))) | XmlArray (items : list (option (list Z)))
| Multirange (kind : RangeKind) (ranges : list (RangeSpan Value))
| Point (p : Point2D) | Lseg (p1 p2 : Point2D) | Path (points : list Point2D) (closed : bool)
| PgBox (ur ll : Point2D) | Polygon (points : list Point2D) | Line (a b c : Z)
| Circle (center : Point2D) (radius : Z)
| Inet (family bits : Z) (addr : list Z) | Cidr (family bits : Z) (addr : list Z)
| Macaddr (m : list Z) | Macaddr8 (m : list Z) | PgLsn (l : Z)
| RegClass (oid : Z) (name : list Z) | RegProc (oid : Z) (name : list Z) | RegType (oid : Z) (name : list Z)
| Xid (x : Z) | Cid (x : Z) | Tid (block off : Z)
| BitString (nbits : Z) (bytes : list Z)
| Xml (s : list Z) | Char1 (b : Z) | BpChar (s : list Z) | MoneyArray (items : list (option Z))
| TsVector (lexs : list TsLexeme) | TsQuery (ast : TsQueryAst) | Uuid (b : list Z)
| Time (us : Z) | Year (y : Z) | TimeTz (us offset_secs : Z) | Money (c : Z)
| Hstore (pairs : list (list Z * option (list Z)))
| IntArray2D (rows : list (list (option Z))) | BigIntArray2D (rows : list (list (option Z)))
| TextArray2D (rows : list (list (option (list Z)))) | BoolArray2D (rows : list (list (option bool)))
| Range (kind : RangeKind) (lower upper : option Value) (lower_inc upper_inc empty : bool)
| Composite (fields : list (list Z * Value))
| Null.
End V.
Abbreviation Value := V.Value.

Definition is_null (v : Value) : bool := match v with V.Null => true | _ => false end.

Definition numeric_special (kind : NumericKind) : Value := V.Numeric 0 0 kind.

(** [s.chars().count()] of valid UTF-8: the bytes that are not continuations. *)
Definition chars_count (s : list Z) : Z := Z.of_nat (length (filter (fun b => cont 0x80 0xBF b = false) s)).

(** [u32::try_from(n).expect(..)] of a [usize]. *)
Definition u32_try_from (n : nat) : option Z := let n := Z.of_nat n in if n <? 2 ^ 32 then Some n else None.

(** [i16::try_from(n).unwrap_or(i16::MAX)] of a [u16]. *)
Definition i16_or_max (n : Z) : Z := if n <? 2 ^ 15 then n else 2 ^ 15 - 1.

(** [Value::data_type]; the outer option is the panic of its [expect]s. *)
Definition data_type (v : Value) : option (option DataType) :=
  match v with
  | V.Void => Some (Some DT.Void)
  | V.SmallInt _ => Some (Some DT.SmallInt)
  | V.Int _ => Some (Some DT.Int)
  | V.BigInt _ => Some (Some DT.BigInt)
  | V.Float _ => Some (Some DT.Float)
  | V.Real _ => Some (Some DT.Real)
  | V.Text _ => Some (Some DT.Text)
  | V.Bool _ => Some (Some DT.Bool)
  | V.Vector v => let! dim := u32_try_from (length v) in Some (Some (DT.Vector dim F32))
  | V.Sq8Vector q => let! dim := u32_try_from (length (sq8_bytes q)) in Some (Some (DT.Vector dim Sq8))
  | V.HalfVector h => let! dim := u32_try_from (half_dim h) in Some (Some (DT.Vector dim F16))
  | V.Numeric _ scale _ => Some (Some (DT.Numeric 0 (i16_or_max scale)))
  | V.NumericBig b => Some (Some (DT.Numeric 0 (i16_or_max (scale b))))
  | V.Date _ => Some (Some DT.Date)
  | V.Timestamp _ => Some (Some DT.Timestamp)
  | V.Interval _ _ _ _ => Some (Some DT.Interval)
  | V.Json _ => Some (Some DT.Json)
  | V.Bytes _ => Some (Some DT.Bytes)
  | V.TextArray _ => Some (Some DT.TextArray)
  | V.IntArray _ => Some (Some DT.IntArray)
  | V.BigIntArray _ => Some (Some DT.BigIntArray)
  | V.IntervalArray _ => Some (Some DT.IntervalArray)
  | V.BoolArray _ => Some (Some DT.BoolArray)
  | V.SmallIntArray _ => Some (Some DT.SmallIntArray)
  | V.Int2Vector _ => Some (Some DT.Int2Vector)
  | V.OidVector _ => Some (Some DT.OidVector)
  | V.FloatArray _ => Some (Some DT.FloatArray)
  | V.NumericArray _ => Some (Some DT.NumericArray)
  | V.DateArray _ => Some (Some DT.DateArray)
  | V.TimestampArray _ => Some (Some DT.TimestampArray)
  | V.TimestamptzArray _ => Some (Some DT.TimestamptzArray)
  | V.RealArray _ => Some (Some DT.RealArray)
  | V.TimeArray _ => Some (Some DT.TimeArray)
  | V.TimeTzArray _ => Some (Some DT.TimeTzArray)
  | V.InetArray _ => Some (Some DT.InetArray)
  | V.XmlArray _ => Some (Some DT.XmlArray)
  | V.UuidArray _ => Some (Some DT.UuidArray)
  | V.JsonArray _ => Some (Some DT.JsonArray)
  | V.JsonbArray _ => Some (Some DT.JsonbArray)
  | V.BytesArray _ => Some (Some DT.BytesArray)
  | V.VarcharArray _ => Some (Some DT.VarcharArray)
  | V.CharArray _ => Some (Some DT.CharArray)
  | V.Multirange kind _ => Some (Some (DT.Multirange kind))
  | V.Point _ => Some (Some DT.Point)
  | V.Lseg _ _ => Some (Some DT.Lseg)
  | V.Path _ _ => Some (Some DT.Path)
  | V.PgBox _ _ => Some (Some DT.PgBox)
  | V.Polygon _ => Some (Some DT.Polygon)
  | V.Line _ _ _ => Some (Some DT.Line)
  | V.Circle _ _ => Some (Some DT.Circle)
  | V.Inet _ _ _ => Some (Some DT.Inet)
  | V.Cidr _ _ _ => Some (Some DT.Cidr)
  | V.Macaddr _ => Some (Some DT.Macaddr)
  | V.Macaddr8 _ => Some (Some DT.Macaddr8)
  | V.PgLsn _ => Some (Some DT.PgLsn)
  | V.BitString _ _ => Some (Some (DT.BitVarying 0))
  | V.Xml _ => Some (Some DT.Xml)
  | V.Char1 _ => Some (Some DT.Char1)
  | V.BpChar s => Some (Some (DT.Char (if chars_count s <? 2 ^ 32 then chars_count s else 0)))
  | V.MoneyArray _ => Some (Some DT.MoneyArray)
  | V.TsVector _ => Some (Some DT.TsVector)
  | V.TsQuery _ => Some (Some DT.TsQuery)
  | V.Uuid _ => Some (Some DT.Uuid)
  | V.Time _ => Some (Some DT.Time)
  | V.Year _ => Some (Some DT.Year)
  | V.TimeTz _ _ => Some (Some DT.TimeTz)
  | V.Money _ => Some (Some DT.Money)
  | V.Range kind _ _ _ _ _ => Some (Some (DT.Range kind))
  | V.Hstore _ => Some (Some DT.Hstore)
  | V.IntArray2D _ => Some (Some DT.IntArray2D)
  | V.BigIntArray2D _ => Some (Some DT.BigIntArray2D)
  | V.TextArray2D _ => Some (Some DT.TextArray2D)
  | V.BoolArray2D _ => Some (Some DT.BoolArray2D)
  | V.Composite _ => Some None
  | V.Xid _ => Some (Some DT.Xid)
  | V.Tid _ _ => Some (Some DT.Tid)
  | V.Cid _ => Some (Some DT.Cid)
  | V.RegClass _ _ => Some (Some DT.RegClass)
  | V.RegType _ _ => Some (Some DT.RegType)
  | V.RegProc _ _ => Some (Some DT.RegProc)
  | V.Null => Some None
  end.

(** ** The values Rust's types allow *)

Definition opt_all {A} (P : A -> Prop) (o : option A) : Prop := match o with Some x => P x | None => True end.

#[export] Instance opt_all_dec {A} (P : A -> Prop) `{!forall x, Decision (P x)} o : Decision (opt_all P o).
Proof. destruct o; simpl; apply _. Defined.

(** A [Vec<Option<T>>], and a [Vec<Vec<Option<T>>>]. *)
Definition items_ok {A} (P : A -> Prop) (items : list (option A)) : Prop := Forall (opt_all P) items.
Definition matrix_ok {A} (P : A -> Prop) (rows : list (list (option A))) : Prop := Forall (items_ok P) rows.

Definition point_ok (p : Point2D) : Prop := u64 (px p) /\ u64 (py p).
Definition interval_ok (months days micros : Z) : Prop := i32 months /\ i32 days /\ i64 micros.
Definition span_ok (s : IntervalSpan) : Prop := interval_ok (span_months s) (span_days s) (span_micros s).
Definition lexeme_ok (l : TsLexeme) : Prop := is_str (word l) /\ Forall u16 (positions l) /\ u8 (weight l).
Definition net_ok (family bits : Z) (addr : list Z) : Prop := u8 family /\ u8 bits /\ array 16 addr.

Fixpoint query_ok (q : TsQueryAst) : Prop :=
  match q with
  | Term word mask => is_str word /\ u8 mask
  | And a b | Or a b => query_ok a /\ query_ok b
  | Not x => query_ok x
  | Phrase l r d => query_ok l /\ query_ok r /\ u16 d
  end.

Fixpoint value_ok (v : Value) : Prop :=
  match v with
  | V.SmallInt n => i16 n
  | V.Int n | V.Date n => i32 n
  | V.BigInt n | V.Timestamp n | V.Time n | V.Money n => i64 n
  | V.Float x | V.PgLsn x => u64 x
  | V.Real x | V.Xid x | V.Cid x => u32 x
  | V.Text s | V.Json s | V.Xml s | V.BpChar s => is_str s
  | V.Bool _ | V.Void | V.Null => True
  | V.Vector v => Forall u32 v
  | V.Sq8Vector q => u32 (sq8_min q) /\ u32 (sq8_max q) /\ is_bytes (sq8_bytes q)
  | V.HalfVector h => is_bytes (half_bytes h)
  | V.Numeric scaled scale _ => i128 scaled /\ u16 scale
  | V.NumericBig b => Forall u32 (limbs b) /\ u16 (scale b)
  | V.Interval months days micros _ => interval_ok months days micros
  | V.Bytes b => is_bytes b
  | V.TextArray items | V.JsonArray items | V.JsonbArray items | V.VarcharArray items | V.CharArray items
  | V.XmlArray items => items_ok is_str items
  | V.IntArray items | V.DateArray items => items_ok i32 items
  | V.BigIntArray items | V.TimestampArray items | V.TimestamptzArray items | V.TimeArray items
  | V.MoneyArray items => items_ok i64 items
  | V.IntervalArray items => items_ok span_ok items
  | V.BoolArray _ => True
  | V.SmallIntArray items => items_ok i16 items
  | V.Int2Vector items => Forall i16 items
  | V.OidVector items => Forall u32 items
  | V.FloatArray items => items_ok u64 items
  | V.NumericArray items => items_ok (fun x => i128 x.1 /\ u16 x.2) items
  | V.UuidArray items => items_ok (array 16) items
  | V.BytesArray items => items_ok is_bytes items
  | V.RealArray items => items_ok u32 items
  | V.TimeTzArray items => items_ok (fun x => i64 x.1 /\ i32 x.2) items
  | V.InetArray items => items_ok (fun x => net_ok x.1.1 x.1.2 x.2) items
  | V.Multirange _ ranges =>
      (fix go rs := match rs with
        | [] => True
        | r :: rs =>
            match lower r with Some v => value_ok v | None => True end /\
            match upper r with Some v => value_ok v | None => True end /\ go rs
        end) ranges
  | V.Point p => point_ok p
  | V.Lseg p q | V.PgBox p q => point_ok p /\ point_ok q
  | V.Path points _ | V.Polygon points => Forall point_ok points
  | V.Line a b c => u64 a /\ u64 b /\ u64 c
  | V.Circle center radius => point_ok center /\ u64 radius
  | V.Inet family bits addr | V.Cidr family bits addr => net_ok family bits addr
  | V.Macaddr m => array 6 m
  | V.Macaddr8 m => array 8 m
  | V.RegClass oid name | V.RegProc oid name | V.RegType oid name => i64 oid /\ is_str name
  | V.Tid block off => u32 block /\ u32 off
  | V.BitString nbits bytes => u32 nbits /\ is_bytes bytes
  | V.Char1 b => u8 b
  | V.TsVector lexs => Forall lexeme_ok lexs
  | V.TsQuery ast => query_ok ast
  | V.Uuid b => array 16 b
  | V.Year y => u16 y
  | V.TimeTz us offset_secs => i64 us /\ i32 offset_secs
  | V.Hstore pairs => Forall (fun kv => is_str kv.1 /\ opt_all is_str kv.2) pairs
  | V.IntArray2D rows => matrix_ok i32 rows
  | V.BigIntArray2D rows => matrix_ok i64 rows
  | V.TextArray2D rows => matrix_ok is_str rows
  | V.BoolArray2D _ => True
  | V.Range _ lower upper _ _ _ =>
      match lower with Some v => value_ok v | None => True end /\
      match upper with Some v => value_ok v | None => True end
  | V.Composite fields =>
      (fix go fs := match fs with [] => True | f :: fs => is_str f.1 /\ value_ok f.2 /\ go fs end) fields
  end.
