(* ===== verification/CodecIO.v ===== *)
(** The primitives of the storage codec (crates/spg-storage/src/codec.rs): what
    the writers append, and the [Cursor] the readers advance.

    A writer is the bytes it appends to its buffer, [None] where one of its
    [expect]s panics.  A reader takes a cursor to [Ok] of a value and the
    advanced cursor, to an [Err], or to [None] when it runs out of fuel, which
    the readers that recurse are proved not to.  A position is a natural: the
    lengths added to it are below [2 ^ 34], so that the [checked_add] of [take]
    never fails on a 64-bit machine. *)
From S2P Require Import Prelude Bytes Values.
Open Scope Z_scope.

(** ** Writers *)

(** [n.to_le_bytes()] of a signed [n] is its two's complement: [le_bytes]
    takes the remainders of a negative number too. *)

Definition STR_LEN_ESCAPE : Z := 2 ^ 16 - 1.

Definition write_u16 (n : Z) : list Z := le_bytes 2 n.
Definition write_u32 (n : Z) : list Z := le_bytes 4 n.

(** Writers that cannot panic: [out.extend_from_slice(&x.to_le_bytes())], and of
    bytes that are there. *)
Definition le (n : nat) (x : Z) : option (list Z) := Some (le_bytes n x).
Definition raw (bs : list Z) : option (list Z) := Some bs.

(** [u8::from(b)]. *)
Definition byte_of_bool (b : bool) : Z := if b then 1 else 0.

(** [u16::try_from(n).expect(..)] of a [usize]. *)
Definition u16_try_from (n : nat) : option Z := let n := Z.of_nat n in if n <? 2 ^ 16 then Some n else None.

(** [write_str] and [write_bytes_escaped] have the same body. *)
Definition write_bytes_escaped (b : list Z) : option (list Z) :=
  if STR_LEN_ESCAPE <=? Z.of_nat (length b) then
    let! len := u32_try_from (length b) in
    Some (write_u16 STR_LEN_ESCAPE ++ write_u32 len ++ b)
  else Some (write_u16 (Z.of_nat (length b)) ++ b).

Definition write_str (s : list Z) : option (list Z) :=
  if STR_LEN_ESCAPE <=? Z.of_nat (length s) then
    let! len := u32_try_from (length s) in
    Some (write_u16 STR_LEN_ESCAPE ++ write_u32 len ++ s)
  else Some (write_u16 (Z.of_nat (length s)) ++ s).

(** [[u32 len][bytes]]: the cells of [hstore] and of [text[][]]. *)
Definition write_u32_str (s : list Z) : option (list Z) :=
  let! len := u32_try_from (length s) in Some (write_u32 len ++ s).

(** A loop that writes each element in turn. *)
Fixpoint write_each {A} (wr : A -> option (list Z)) (items : list A) : option (list Z) :=
  match items with
  | [] => Some []
  | x :: items => let! a := wr x in let! b := write_each wr items in Some (a ++ b)
  end.

(** The element loop of the array bodies: [None => out.push(1)], and a zero
    byte before the body of [Some(x)]. *)
Definition write_item {A} (wr : A -> option (list Z)) (item : option A) : option (list Z) :=
  match item with None => Some [1] | Some x => let! a := wr x in Some (0 :: a) end.

(** [[u16 count]] and the elements. *)
Definition write_counted {A} (wr : A -> option (list Z)) (items : list A) : option (list Z) :=
  let! count := u16_try_from (length items) in
  let! body := write_each wr items in
  Some (write_u16 count ++ body).

Definition write_array {A} (wr : A -> option (list Z)) (items : list (option A)) : option (list Z) :=
  write_counted (write_item wr) items.

(** ** The cursor *)

Inductive StorageError : Type := Corrupt (message : string).

Record Cursor : Type := mk_cursor { buf : list Z; pos : nat; codec_version : Z }.

Definition Read (A : Type) : Type := Cursor -> outcome (A * Cursor) StorageError.

Definition ret {A} (x : A) : Read A := fun cur => Some (Ok (x, cur)).
Definition corrupt {A} (message : string) : Read A := fun _ => Some (Err (Corrupt message)).
Definition bind {A B} (m : Read A) (f : A -> Read B) : Read B := fun cur => let!? (x, cur) := m cur in f x cur.

(** [let x = self.read()?;] *)
Notation "'let*' x ':=' m 'in' k" := (bind m (fun x => k))
  (at level 10, x pattern, m at level 100, k at level 200) : spg_scope.

Definition take (n : nat) : Read (list Z) := fun cur =>
  if (length (buf cur) <? pos cur + n)%nat then Some (Err (Corrupt "unexpected EOF"))
  else Some (Ok (slice (pos cur) n (buf cur), mk_cursor (buf cur) (pos cur + n) (codec_version cur))).

Definition read_u8 : Read Z := let* s := take 1 in ret (s !!! 0%nat).
Definition read_u16 : Read Z := let* s := take 2 in ret (le_val s).
Definition read_u32 : Read Z := let* s := take 4 in ret (le_val s).
Definition read_i32 : Read Z := let* s := take 4 in ret (signed 32 (le_val s)).
Definition read_i16 : Read Z := let* s := take 2 in ret (signed 16 (le_val s)).
Definition read_u64 : Read Z := let* s := take 8 in ret (le_val s).
Definition read_i64 : Read Z := let* s := take 8 in ret (signed 64 (le_val s)).
(** Floats are their bit patterns. *)
Definition read_f64 : Read Z := let* s := take 8 in ret (le_val s).
Definition read_f32 : Read Z := let* s := take 4 in ret (le_val s).
(** [i128::from_le_bytes(self.take(16)?)] *)
Definition read_i128 : Read Z := let* s := take 16 in ret (signed 128 (le_val s)).

Definition codec_at_least (v : Z) : Read bool := fun cur => Some (Ok (v <=? codec_version cur, cur)).

Definition utf8_or (message : string) (bytes : list Z) : Read (list Z) :=
  if utf8_valid bytes then ret bytes else corrupt message.

(** The length field of [read_str] and [skip_str], escaped from version 46 on,
    and of [read_len_escaped_v47], from version 47 on. *)
Definition read_len_escaped (since : Z) : Read nat :=
  let* short := read_u16 in
  let* escaped := codec_at_least since in
  if escaped && (short =? STR_LEN_ESCAPE) then let* n := read_u32 in ret (Z.to_nat n) else ret (Z.to_nat short).

Definition read_len_escaped_v47 : Read nat := read_len_escaped 47.

Definition read_str_escaped_v47 : Read (list Z) :=
  let* len := read_len_escaped_v47 in
  let* bytes := take len in
  utf8_or "invalid UTF-8 in cell payload" bytes.

Definition skip_str : Read () :=
  let* len := read_len_escaped 46 in
  let* _ := take len in
  ret ().

Definition read_str : Read (list Z) :=
  let* len := read_len_escaped 46 in
  let* bytes := take len in
  utf8_or "invalid UTF-8 in identifier or text" bytes.

(** [let l = self.read_u32()? as usize; String::from_utf8(self.take(l)?.to_vec())] *)
Definition read_u32_str (message : string) : Read (list Z) :=
  let* l := read_u32 in
  let* bytes := take (Z.to_nat l) in
  utf8_or message bytes.

(** [for _ in 0..n { v.push(self.read()?) }] *)
Fixpoint read_each {A} (rd : Read A) (n : nat) : Read (list A) :=
  match n with
  | O => ret []
  | S n => let* x := rd in let* xs := read_each rd n in ret (x :: xs)
  end.

(** The element of an array body: a flag, then the element when it is zero. *)
Definition read_item {A} (message : string) (rd : Read A) : Read (option A) :=
  let* flag := read_u8 in
  if flag =? 0 then let* x := rd in ret (Some x)
  else if flag =? 1 then ret None
  else corrupt message.

Definition read_counted {A} (rd : Read A) : Read (list A) :=
  let* count := read_u16 in read_each rd (Z.to_nat count).

Definition read_array {A} (message : string) (rd : Read A) : Read (list (option A)) :=
  read_counted (read_item message rd).
