(* ===== verification/CodecReads.v ===== *)
(** The law of the codec's readers: [reads ver rd bs x] says that, wherever the
    bytes [bs] stand, [rd] reads them as [x] and stops right after them; with
    its rules for sequencing, loops and arrays, and the primitives' instances. *)
From S2P Require Import Prelude Bytes Values CodecIO.
Open Scope Z_scope.

Definition reads {A} (ver : Z) (rd : Read A) (bs : list Z) (x : A) : Prop :=
  forall pre post,
    rd (mk_cursor (pre ++ bs ++ post) (length pre) ver) =
    Some (Ok (x, mk_cursor (pre ++ bs ++ post) (length pre + length bs) ver)).

Create HintDb reads.

(** The parts of a body that was written without a panic. *)
Ltac written :=
  repeat match goal with
  | H : (fun _ => _) _ = Some _ |- _ => cbv beta in H
  | H : le _ _ = Some _ |- _ => unfold le in H
  | H : raw _ = Some _ |- _ => unfold raw in H
  | H : mbind _ _ = Some _ |- _ => apply bind_Some in H as (? & ? & H)
  | H : Some ?a = Some ?b |- _ => first [is_var a; apply (inj Some) in H; subst a
                                        | apply (inj Some) in H; symmetry in H; subst b]
  end.

Section Rules.
Context (ver : Z).

Lemma reads_ret {A} (x : A) : reads ver (ret x) [] x.
Proof. intros pre post. unfold ret. cbn [length]. by rewrite Nat.add_0_r. Qed.

Lemma reads_bind {A B} (m : Read A) (k : A -> Read B) bs1 bs2 x y :
  reads ver m bs1 x -> reads ver (k x) bs2 y -> reads ver (bind m k) (bs1 ++ bs2) y.
Proof.
  intros Hm Hk pre post. unfold bind.
  rewrite <-(app_assoc bs1), Hm. cbn [obind].
  specialize (Hk (pre ++ bs1) post). rewrite <-app_assoc, length_app in Hk.
  by rewrite Hk, length_app, Nat.add_assoc.
Qed.

(** The last read of a body. *)
Lemma reads_last {A B} (m : Read A) (k : A -> Read B) bs x y :
  reads ver m bs x -> k x = ret y -> reads ver (bind m k) bs y.
Proof. intros Hm Hk. rewrite <-(app_nil_r bs). eapply reads_bind; [exact Hm|]. rewrite Hk. apply reads_ret. Qed.

Lemma reads_take n bs : length bs = n -> reads ver (take n) bs bs.
Proof.
  intros <- pre post. unfold take. cbn [buf pos codec_version].
  rewrite !length_app. rewrite (proj2 (Nat.ltb_ge _ _)) by lia.
  by rewrite slice_app_exact.
Qed.

Lemma reads_version v : reads ver (codec_at_least v) [] (v <=? ver).
Proof. intros pre post. unfold codec_at_least. cbn [length codec_version]. by rewrite Nat.add_0_r. Qed.

(** A question to the version takes no bytes. *)
Lemma reads_if_version {B} v (k : bool -> Read B) bs y :
  reads ver (k (v <=? ver)) bs y -> reads ver (bind (codec_at_least v) k) bs y.
Proof. intros H. change bs with ([] ++ bs). eapply reads_bind; [apply reads_version|exact H]. Qed.

Lemma reads_byte b : reads ver read_u8 [b] b.
Proof. by eapply reads_last; [apply reads_take|]. Qed.

Lemma reads_u8_then {B} (k : Z -> Read B) b bs y : reads ver (k b) bs y -> reads ver (bind read_u8 k) (b :: bs) y.
Proof. intros H. change (b :: bs) with ([b] ++ bs). eapply reads_bind; [apply reads_byte|exact H]. Qed.

Lemma reads_u16 n : u16 n -> reads ver read_u16 (le_bytes 2 n) n.
Proof. intros H. eapply reads_last; [by apply reads_take, length_le_bytes|]. by rewrite le_val_le_bytes_id. Qed.

Lemma reads_u32 n : u32 n -> reads ver read_u32 (le_bytes 4 n) n.
Proof. intros H. eapply reads_last; [by apply reads_take, length_le_bytes|]. by rewrite le_val_le_bytes_id. Qed.

Lemma reads_u64 n : u64 n -> reads ver read_u64 (le_bytes 8 n) n.
Proof. intros H. eapply reads_last; [by apply reads_take, length_le_bytes|]. by rewrite le_val_le_bytes_id. Qed.

(** What a signed read gives back, in every width. *)
Lemma signed_le_bytes k n :
  (0 < k)%nat -> in_i (8 * Z.of_nat k) n -> signed (8 * Z.of_nat k) (le_val (le_bytes k n)) = n.
Proof. intros Hk H. rewrite le_val_le_bytes. apply (signed_wrap (8 * Z.of_nat k) n); [lia|exact H]. Qed.

Lemma reads_i16 n : i16 n -> reads ver read_i16 (le_bytes 2 n) n.
Proof. intros H. eapply reads_last; [by apply reads_take, length_le_bytes|]. by rewrite (signed_le_bytes 2) by (lia || done). Qed.

Lemma reads_i32 n : i32 n -> reads ver read_i32 (le_bytes 4 n) n.
Proof. intros H. eapply reads_last; [by apply reads_take, length_le_bytes|]. by rewrite (signed_le_bytes 4) by (lia || done). Qed.

Lemma reads_i64 n : i64 n -> reads ver read_i64 (le_bytes 8 n) n.
Proof. intros H. eapply reads_last; [by apply reads_take, length_le_bytes|]. by rewrite (signed_le_bytes 8) by (lia || done). Qed.

Lemma reads_i128 n : i128 n -> reads ver read_i128 (le_bytes 16 n) n.
Proof. intros H. eapply reads_last; [by apply reads_take, length_le_bytes|]. by rewrite (signed_le_bytes 16) by (lia || done). Qed.

Lemma reads_f32 n : u32 n -> reads ver read_f32 (le_bytes 4 n) n.
Proof. exact (reads_u32 n). Qed.

Lemma reads_f64 n : u64 n -> reads ver read_f64 (le_bytes 8 n) n.
Proof. exact (reads_u64 n). Qed.

(** ** Lengths and strings *)

Lemma len_u32 n m : u32_try_from n = Some m -> m = Z.of_nat n /\ u32 m.
Proof. unfold u32_try_from. case_if; intros [= <-]. split; [done|]. split; lia. Qed.

Lemma u16_try_from_ok n m : u16_try_from n = Some m -> m = Z.of_nat n /\ u16 m.
Proof. unfold u16_try_from. case_if; intros [= <-]. split; [done|]. split; lia. Qed.

(** The header that [write_str] and [write_bytes_escaped] put before the bytes. *)
Lemma escaped_header b bs :
  write_bytes_escaped b = Some bs ->
  exists header, bs = header ++ b /\
    forall since, since <= ver -> reads ver (read_len_escaped since) header (length b).
Proof.
  unfold write_bytes_escaped, read_len_escaped, write_u16, write_u32, STR_LEN_ESCAPE. case_if.
  - intros H. apply bind_Some in H as (len & Hlen & H). written. apply len_u32 in Hlen as [-> Hlen].
    exists (le_bytes 2 (2 ^ 16 - 1) ++ le_bytes 4 (Z.of_nat (length b))). split; [by rewrite <-app_assoc|].
    intros since Hs. eapply reads_bind; [by apply reads_u16|].
    apply reads_if_version. rewrite (proj2 (Z.leb_le _ _)) by done.
    rewrite Z.eqb_refl. cbn [andb]. eapply reads_last; [by apply reads_u32|]. by rewrite Nat2Z.id.
  - intros H. written. exists (le_bytes 2 (Z.of_nat (length b))). split; [done|]. intros since Hs.
    rewrite <-(app_nil_r (le_bytes 2 _)). eapply reads_bind; [apply reads_u16; split; lia|].
    apply reads_if_version. rewrite (proj2 (Z.eqb_neq _ _)) by lia. rewrite andb_false_r, Nat2Z.id. apply reads_ret.
Qed.

Lemma reads_utf8 message s : is_str s -> reads ver (utf8_or message s) [] s.
Proof. intros [_ H]. unfold utf8_or. rewrite H. apply reads_ret. Qed.

(** Both string readers are this one. *)
Lemma reads_escaped_str since message s bs :
  since <= ver -> is_str s -> write_bytes_escaped s = Some bs ->
  reads ver (let* len := read_len_escaped since in let* bytes := take len in utf8_or message bytes) bs s.
Proof.
  intros Hv Hs H. apply escaped_header in H as (header & -> & Hh).
  eapply reads_bind; [by apply Hh|]. rewrite <-(app_nil_r s) at 2.
  eapply reads_bind; [by apply reads_take|]. by apply reads_utf8.
Qed.

Lemma reads_str s bs : 46 <= ver -> is_str s -> write_str s = Some bs -> reads ver read_str bs s.
Proof. intros. by apply reads_escaped_str. Qed.

Lemma reads_str_v47 s bs :
  47 <= ver -> is_str s -> write_bytes_escaped s = Some bs -> reads ver read_str_escaped_v47 bs s.
Proof. intros. by apply reads_escaped_str. Qed.

Lemma reads_u32_str message s bs : is_str s -> write_u32_str s = Some bs -> reads ver (read_u32_str message) bs s.
Proof.
  intros Hs H. unfold write_u32_str, write_u32 in H. apply bind_Some in H as (len & Hlen & H). written.
  apply len_u32 in Hlen as [-> Hlen]. unfold read_u32_str.
  eapply reads_bind; [by apply reads_u32|]. rewrite <-(app_nil_r s) at 2.
  eapply reads_bind; [by apply reads_take; rewrite Nat2Z.id|]. by apply reads_utf8.
Qed.

(** ** Loops *)

Lemma reads_each {A B} (P : A -> Prop) (f : A -> B) wr rd items bs :
  (forall x bs, P x -> wr x = Some bs -> reads ver rd bs (f x)) ->
  Forall P items -> write_each wr items = Some bs -> reads ver (read_each rd (length items)) bs (map f items).
Proof.
  intros Hx HP. revert bs. induction HP as [|x items Px HP IH]; intros bs H; cbn [write_each read_each map length] in *.
  - written. apply reads_ret.
  - apply bind_Some in H as (a & Ha & H). apply bind_Some in H as (b & Hb & H). written.
    eapply reads_bind; [by apply Hx|]. by eapply reads_last; [apply IH|].
Qed.

Lemma reads_each_id {A} (P : A -> Prop) wr rd items bs n :
  (forall x bs, P x -> wr x = Some bs -> reads ver rd bs x) ->
  Forall P items -> write_each wr items = Some bs -> n = length items -> reads ver (read_each rd n) bs items.
Proof. intros Hx HP H ->. rewrite <-(map_id items) at 2. by eapply (reads_each P id). Qed.

(** The same over elements written without failure. *)
Lemma reads_concat {A} (P : A -> Prop) (enc : A -> list Z) rd items n :
  (forall x, P x -> reads ver rd (enc x) x) -> Forall P items -> n = length items ->
  reads ver (read_each rd n) (concat (map enc items)) items.
Proof.
  intros Hx HP ->. rewrite <-(map_id items) at 3.
  apply (reads_each P id (fun x => Some (enc x))); [|done|].
  - intros x bs Px H. written. by apply Hx.
  - clear Hx HP. induction items as [|x items IH]; [done|]. cbn [write_each map concat]. by rewrite IH.
Qed.

Lemma reads_counted {A B} (P : A -> Prop) (f : A -> B) wr rd items bs :
  (forall x bs, P x -> wr x = Some bs -> reads ver rd bs (f x)) ->
  Forall P items -> write_counted wr items = Some bs -> reads ver (read_counted rd) bs (map f items).
Proof.
  intros Hx HP H. unfold write_counted in H.
  apply bind_Some in H as (count & Hc & H). apply bind_Some in H as (body & Hb & H). written.
  apply u16_try_from_ok in Hc as [-> Hc]. unfold read_counted, write_u16.
  eapply reads_bind; [by apply reads_u16|]. rewrite Nat2Z.id. by eapply reads_each.
Qed.

Lemma reads_item {A B} (P : A -> Prop) (f : A -> B) message wr rd item bs :
  (forall x bs, P x -> wr x = Some bs -> reads ver rd bs (f x)) ->
  opt_all P item -> write_item wr item = Some bs -> reads ver (read_item message rd) bs (option_map f item).
Proof.
  intros Hx HP H. unfold read_item. destruct item as [x|]; cbn [write_item option_map opt_all] in *.
  - apply bind_Some in H as (a & Ha & H). written. apply reads_u8_then. by eapply reads_last; [apply Hx|].
  - written. apply reads_u8_then, reads_ret.
Qed.

(** An array whose elements are read back as [f] of what they were. *)
Lemma reads_array_map {A B} (P : A -> Prop) (f : A -> B) message wr rd items bs :
  (forall x bs, P x -> wr x = Some bs -> reads ver rd bs (f x)) ->
  items_ok P items -> write_array wr items = Some bs ->
  reads ver (read_array message rd) bs (map (option_map f) items).
Proof. intros Hx HP H. eapply reads_counted; [|exact HP|exact H]. intros. by eapply reads_item. Qed.

Lemma reads_array {A} (P : A -> Prop) message wr rd items bs :
  (forall x bs, P x -> wr x = Some bs -> reads ver rd bs x) ->
  items_ok P items -> write_array wr items = Some bs -> reads ver (read_array message rd) bs items.
Proof.
  intros Hx HP H. replace items with (map (option_map id) items) by (rewrite map_ext with (g := id); [apply map_id|by intros []]).
  by eapply reads_array_map.
Qed.

End Rules.

#[export] Hint Resolve reads_byte reads_u16 reads_u32 reads_u64 reads_i16 reads_i32 reads_i64 reads_i128 reads_f32
  reads_f64 reads_ret reads_take reads_str reads_str_v47 reads_u32_str : reads.
