(* ===== verification/RowCodec.v ===== *)
(** The row codec (crates/spg-storage/src/codec.rs): the self-describing
    [write_value]/[read_value], the schema-driven [write_value_body]/
    [read_value_body], and the dense row bodies with their NULL bitmap.

    A read of a length-prefixed vector is the loop over that many elements: the
    capacity the code reserves beforehand is not modelled. *)
From S2P Require Import Prelude Bytes BigNum Values CodecIO.
Open Scope Z_scope.

(** ** Shared bodies, written *)

Definition write_point (p : Point2D) : list Z := le_bytes 8 (px p) ++ le_bytes 8 (py p).

Definition write_f32_vector (v : list Z) : option (list Z) :=
  let! dim := u32_try_from (length v) in
  Some (le_bytes 4 dim ++ concat (map (le_bytes 4) v)).

Definition write_sq8 (q : Sq8Vector) : option (list Z) :=
  let! dim := u32_try_from (length (sq8_bytes q)) in
  Some (le_bytes 4 dim ++ le_bytes 4 (sq8_min q) ++ le_bytes 4 (sq8_max q) ++ sq8_bytes q).

Definition write_half (h : HalfVector) : option (list Z) :=
  let! dim := u32_try_from (half_dim h) in
  Some (le_bytes 4 dim ++ half_bytes h).

(** The form byte and, for a finite value, the mantissa and the scale. *)
Definition write_numeric (scaled scale : Z) (kind : NumericKind) : list Z :=
  match kind with
  | NumericKind.Finite =>
    if scale <? 256 then 0 :: le_bytes 16 scaled ++ [scale]
    else 4 :: le_bytes 16 scaled ++ le_bytes 2 scale
  | NumericKind.NaN => [1]
  | NumericKind.PosInf => [2]
  | NumericKind.NegInf => [3]
  end.

(** [limbs.len() as u16] truncates. *)
Definition write_big (b : BigNumeric) : list Z :=
  let '(neg, limbs, scale) := parts b in
  (if 255 <? scale then 34 else 33) :: byte_of_bool neg ::
  (if scale <? 256 then [scale] else le_bytes 2 scale) ++
  le_bytes 2 (wrap 16 (Z.of_nat (length limbs))) ++ concat (map (le_bytes 4) limbs).

Definition write_interval (months days micros : Z) (kind : IntervalKind) : list Z :=
  let '(months, days, micros) := IntervalKind.to_fields kind months days micros in
  le_bytes 8 micros ++ le_bytes 4 days ++ le_bytes 4 months.

(** An element of [INTERVAL[]]: the fields as they are. *)
Definition write_span (s : IntervalSpan) : list Z :=
  le_bytes 8 (span_micros s) ++ le_bytes 4 (span_days s) ++ le_bytes 4 (span_months s).

(** An element of [NUMERIC[]]: the flag carries the width of the scale. *)
Definition write_numeric_item (item : option (Z * Z)) : option (list Z) :=
  match item with
  | None => Some [1]
  | Some (scaled, scale) =>
    Some (if scale <? 256 then 0 :: le_bytes 16 scaled ++ [scale] else 2 :: le_bytes 16 scaled ++ le_bytes 2 scale)
  end.

Definition write_net (family bits : Z) (addr : list Z) : list Z := family :: bits :: addr.

Definition write_lexeme (l : TsLexeme) : option (list Z) :=
  let! w := write_bytes_escaped (word l) in
  let! plen := u16_try_from (length (positions l)) in
  Some (w ++ le_bytes 2 plen ++ concat (map (le_bytes 2) (positions l)) ++ [weight l]).

Definition write_tsvector_body (lexs : list TsLexeme) : option (list Z) := write_counted write_lexeme lexs.

Fixpoint write_tsquery_body (ast : TsQueryAst) : option (list Z) :=
  match ast with
  | Term word weight_mask => let! w := write_bytes_escaped word in Some (0 :: w ++ [weight_mask])
  | And a b => let! x := write_tsquery_body a in let! y := write_tsquery_body b in Some (1 :: x ++ y)
  | Or a b => let! x := write_tsquery_body a in let! y := write_tsquery_body b in Some (2 :: x ++ y)
  | Not x => let! x := write_tsquery_body x in Some (3 :: x)
  | Phrase l r distance =>
    let! x := write_tsquery_body l in
    let! y := write_tsquery_body r in
    Some (4 :: le_bytes 2 distance ++ x ++ y)
  end.

Definition write_hstore_pair (kv : list Z * option (list Z)) : option (list Z) :=
  let! k := write_u32_str kv.1 in
  match kv.2 with
  | None => Some (k ++ [0])
  | Some v => let! v := write_u32_str v in Some (k ++ 1 :: v)
  end.

Definition write_hstore_body (pairs : list (list Z * option (list Z))) : option (list Z) :=
  let! count := u32_try_from (length pairs) in
  let! body := write_each write_hstore_pair pairs in
  Some (le_bytes 4 count ++ body).

(** [rows.first().map(|r| r.len()).unwrap_or(0)] *)
Definition first_len {A} (rows : list (list A)) : nat := match rows with [] => 0%nat | r :: _ => length r end.

(** The two dimensions, then every cell of every row. *)
Definition write_2d {A} (wr : A -> option (list Z)) (rows : list (list A)) : option (list Z) :=
  let! nrows := u32_try_from (length rows) in
  let! ncols := u32_try_from (first_len rows) in
  let! body := write_each (write_each wr) rows in
  Some (le_bytes 4 nrows ++ le_bytes 4 ncols ++ body).

Definition write_bool_2d_body : list (list (option bool)) -> option (list Z) :=
  write_2d (fun cell => Some [match cell with None => 2 | Some false => 0 | Some true => 1 end]).
Definition write_int_2d_body : list (list (option Z)) -> option (list Z) :=
  write_2d (write_item (fun n => Some (le_bytes 4 n))).
Definition write_bigint_2d_body : list (list (option Z)) -> option (list Z) :=
  write_2d (write_item (fun n => Some (le_bytes 8 n))).
Definition write_text_2d_body : list (list (option (list Z))) -> option (list Z) :=
  write_2d (write_item write_u32_str).

Definition is_some {A} (o : option A) : bool := match o with Some _ => true | None => false end.

Definition range_flags (empty lower upper lower_inc upper_inc : bool) : Z :=
  let flags := 0 in
  let flags := if empty then Z.lor flags 1 else flags in
  let flags := if lower then Z.lor flags 2 else flags in
  let flags := if upper then Z.lor flags 4 else flags in
  let flags := if lower_inc then Z.lor flags 8 else flags in
  if upper_inc then Z.lor flags 16 else flags.

(** ** The self-describing codec, written *)

(** [None] also where the code has [unreachable!]: a value that is stored in a
    column only, never without its type. *)
Fixpoint write_value (v : Value) : option (list Z) :=
  match v with
  | V.Composite _ => Some [0]
  | V.Void => Some [0]
  | V.RegClass _ _ | V.RegProc _ _ | V.RegType _ _ | V.Tid _ _ | V.Xid _ | V.Cid _ => Some [0]
  | V.Null => Some [0]
  | V.SmallInt n => Some (7 :: le_bytes 2 n)
  | V.Int n => Some (1 :: le_bytes 4 n)
  | V.BigInt n => Some (2 :: le_bytes 8 n)
  | V.Float x => Some (3 :: le_bytes 8 x)
  | V.Real x => Some (32 :: le_bytes 4 x)
  | V.Text s | V.Json s | V.BpChar s => let! s := write_str s in Some (4 :: s)
  | V.Bool b => Some [5; byte_of_bool b]
  | V.Vector v => let! v := write_f32_vector v in Some (6 :: v)
  | V.Sq8Vector q => let! q := write_sq8 q in Some (11 :: q)
  | V.HalfVector h => let! h := write_half h in Some (12 :: h)
  | V.Numeric scaled scale kind => Some (8 :: write_numeric scaled scale kind)
  | V.NumericBig b => Some (write_big b)
  | V.Date d => Some (9 :: le_bytes 4 d)
  | V.Timestamp t => Some (10 :: le_bytes 8 t)
  | V.Interval months days micros kind => Some (30 :: write_interval months days micros kind)
  | V.Bytes b => let! b := write_bytes_escaped b in Some (14 :: b)
  | V.TextArray items => let! a := write_array write_bytes_escaped items in Some (15 :: a)
  | V.IntArray items => let! a := write_array (fun n => Some (le_bytes 4 n)) items in Some (16 :: a)
  | V.BigIntArray items => let! a := write_array (fun n => Some (le_bytes 8 n)) items in Some (17 :: a)
  | V.IntervalArray items => let! a := write_array (fun s => Some (write_span s)) items in Some (31 :: a)
  | V.BoolArray _ | V.SmallIntArray _ | V.Int2Vector _ | V.OidVector _ | V.FloatArray _ | V.NumericArray _
  | V.DateArray _ | V.TimestampArray _ | V.TimestamptzArray _ | V.UuidArray _ | V.JsonArray _ | V.JsonbArray _
  | V.BytesArray _ | V.VarcharArray _ | V.RealArray _ | V.TimeArray _ | V.TimeTzArray _ | V.InetArray _
  | V.XmlArray _ | V.CharArray _ => None
  | V.Multirange _ _ => None
  | V.Point _ | V.Lseg _ _ | V.Path _ _ | V.PgBox _ _ | V.Polygon _ | V.Line _ _ _ | V.Circle _ _ => None
  | V.Inet _ _ _ | V.Cidr _ _ _ | V.Macaddr _ | V.Macaddr8 _ | V.PgLsn _ | V.BitString _ _ | V.Xml _ | V.Char1 _
  | V.MoneyArray _ => None
  | V.TsVector lexs => let! b := write_tsvector_body lexs in Some (18 :: b)
  | V.TsQuery ast => let! b := write_tsquery_body ast in Some (19 :: b)
  | V.Uuid b => Some (20 :: b)
  | V.Time us => Some (21 :: le_bytes 8 us)
  | V.Year y => Some (22 :: le_bytes 2 y)
  | V.TimeTz us offset_secs => Some (23 :: le_bytes 8 us ++ le_bytes 4 offset_secs)
  | V.Money c => Some (24 :: le_bytes 8 c)
  | V.Range kind lower upper lower_inc upper_inc empty =>
    let flags := range_flags empty (is_some lower) (is_some upper) lower_inc upper_inc in
    let! l := match lower with Some l => write_value l | None => Some [] end in
    let! u := match upper with Some u => write_value u | None => Some [] end in
    Some (25 :: range_tag kind :: flags :: l ++ u)
  | V.Hstore pairs => let! b := write_hstore_body pairs in Some (26 :: b)
  | V.IntArray2D rows => let! b := write_int_2d_body rows in Some (27 :: b)
  | V.BigIntArray2D rows => let! b := write_bigint_2d_body rows in Some (28 :: b)
  | V.TextArray2D rows => let! b := write_text_2d_body rows in Some (29 :: b)
  | V.BoolArray2D rows => let! b := write_bool_2d_body rows in Some (67 :: b)
  end.

(** The bounds of a range body, after its flags. *)
Definition write_bounds (lower upper : option Value) : option (list Z) :=
  let! l := match lower with Some l => write_value l | None => Some [] end in
  let! u := match upper with Some u => write_value u | None => Some [] end in
  Some (l ++ u).

Definition write_range_span (r : RangeSpan Value) : option (list Z) :=
  let flags := range_flags (empty r) (is_some (lower r)) (is_some (upper r)) (lower_inc r) (upper_inc r) in
  let! b := write_bounds (lower r) (upper r) in
  Some (flags :: b).

(** ** The schema-driven codec, written *)

(** [write_value_body]: the last arm is [unreachable!]. *)
Definition write_value_body (v : Value) (ty : DataType) : option (list Z) :=
  match v, ty with
  | V.SmallInt n, DT.SmallInt => le 2 n
  | V.Int n, DT.Int => le 4 n
  | V.BigInt n, (DT.BigInt | DT.Xid | DT.Xid8 | DT.Oid) => le 8 n
  | V.Xid x, DT.Xid => le 8 x
  | V.Float x, DT.Float => le 8 x
  | V.Real x, DT.Real => le 4 x
  | V.Bool b, DT.Bool => raw [byte_of_bool b]
  | (V.Text s | V.BpChar s), (DT.Text | DT.Varchar _ | DT.Char _ | DT.Name) => write_str s
  | V.Vector v, DT.Vector _ F32 => write_f32_vector v
  | V.Sq8Vector q, DT.Vector _ Sq8 => write_sq8 q
  | V.HalfVector h, DT.Vector _ F16 => write_half h
  | V.Numeric scaled scale kind, DT.Numeric _ _ => raw (write_numeric scaled scale kind)
  | V.Date d, DT.Date => le 4 d
  | V.Timestamp t, (DT.Timestamp | DT.Timestamptz) => le 8 t
  | V.Interval months days micros kind, DT.Interval => raw (write_interval months days micros kind)
  | V.Json s, (DT.Json | DT.Jsonb) => write_str s
  | V.Bytes b, DT.Bytes => write_bytes_escaped b
  | V.TextArray items, DT.TextArray => write_array write_bytes_escaped items
  | V.IntArray items, DT.IntArray => write_array (le 4) items
  | V.BigIntArray items, DT.BigIntArray => write_array (le 8) items
  | V.IntervalArray items, DT.IntervalArray => write_array (fun s => raw (write_span s)) items
  | V.BoolArray items, DT.BoolArray => write_array (fun b => raw [byte_of_bool b]) items
  | V.Int2Vector items, DT.Int2Vector => write_counted (le 2) items
  | V.OidVector items, DT.OidVector => write_counted (le 4) items
  | V.SmallIntArray items, DT.SmallIntArray => write_array (le 2) items
  | V.FloatArray items, DT.FloatArray => write_array (le 8) items
  | V.NumericArray items, DT.NumericArray => write_counted write_numeric_item items
  | V.DateArray items, DT.DateArray => write_array (le 4) items
  | V.TimestampArray items, DT.TimestampArray | V.TimestamptzArray items, DT.TimestamptzArray =>
    write_array (le 8) items
  | V.RealArray items, DT.RealArray => write_array (le 4) items
  | V.TimeArray items, DT.TimeArray => write_array (le 8) items
  | V.TimeTzArray items, DT.TimeTzArray => write_array (fun x => raw (le_bytes 8 x.1 ++ le_bytes 4 x.2)) items
  | V.InetArray items, DT.InetArray => write_array (fun x => raw (write_net x.1.1 x.1.2 x.2)) items
  | V.UuidArray items, DT.UuidArray => write_array raw items
  | V.JsonArray items, DT.JsonArray | V.JsonbArray items, DT.JsonbArray | V.VarcharArray items, DT.VarcharArray
  | V.XmlArray items, DT.XmlArray | V.CharArray items, DT.CharArray => write_array write_bytes_escaped items
  | V.BytesArray items, DT.BytesArray => write_array write_bytes_escaped items
  | V.Point p, DT.Point => raw (write_point p)
  | V.Lseg p1 p2, DT.Lseg => raw (write_point p1 ++ write_point p2)
  | V.PgBox ur ll, DT.PgBox => raw (write_point ur ++ write_point ll)
  | V.Line a b c, DT.Line => raw (le_bytes 8 a ++ le_bytes 8 b ++ le_bytes 8 c)
  | V.Circle center radius, DT.Circle => raw (write_point center ++ le_bytes 8 radius)
  | V.Path points closed, DT.Path =>
    let! count := u32_try_from (length points) in
    Some (byte_of_bool closed :: le_bytes 4 count ++ concat (map write_point points))
  | V.Polygon points, DT.Polygon =>
    let! count := u32_try_from (length points) in
    Some (le_bytes 4 count ++ concat (map write_point points))
  | V.Inet family bits addr, DT.Inet | V.Cidr family bits addr, DT.Cidr => raw (write_net family bits addr)
  | V.Macaddr m, DT.Macaddr => raw m
  | V.Macaddr8 m, DT.Macaddr8 => raw m
  | V.PgLsn l, DT.PgLsn => le 8 l
  | V.BitString nbits bytes, (DT.Bit _ | DT.BitVarying _) => raw (le_bytes 4 nbits ++ bytes)
  | V.Xml s, DT.Xml => write_str s
  | V.Char1 b, DT.Char1 => raw [b]
  | V.MoneyArray items, DT.MoneyArray => write_array (le 8) items
  | V.Multirange _ ranges, DT.Multirange _ => write_counted write_range_span ranges
  | V.TsVector lexs, DT.TsVector => write_tsvector_body lexs
  | V.TsQuery ast, DT.TsQuery => write_tsquery_body ast
  | V.Uuid b, DT.Uuid => raw b
  | V.Time us, DT.Time => le 8 us
  | V.Year y, DT.Year => le 2 y
  | V.TimeTz us offset_secs, DT.TimeTz => raw (le_bytes 8 us ++ le_bytes 4 offset_secs)
  | V.Money c, DT.Money => le 8 c
  | V.Range _ lower upper lower_inc upper_inc empty, DT.Range _ =>
    write_range_span (mk_range lower upper lower_inc upper_inc empty)
  | V.Hstore pairs, DT.Hstore => write_hstore_body pairs
  | V.IntArray2D rows, DT.IntArray2D => write_int_2d_body rows
  | V.BigIntArray2D rows, DT.BigIntArray2D => write_bigint_2d_body rows
  | V.TextArray2D rows, DT.TextArray2D => write_text_2d_body rows
  | V.BoolArray2D rows, DT.BoolArray2D => write_bool_2d_body rows
  | V.Text s, (DT.Json | DT.Jsonb) => write_str s
  | _, _ => None
  end.

(** ** Shared bodies, read *)

Definition read_point : Read Point2D := let* x := read_f64 in let* y := read_f64 in ret (mk_point x y).

Definition read_f32_vector : Read (list Z) := let* dim := read_u32 in read_each read_f32 (Z.to_nat dim).

Definition read_sq8 : Read Sq8Vector :=
  let* dim := read_u32 in
  let* min := read_f32 in
  let* max := read_f32 in
  let* bytes := take (Z.to_nat dim) in
  ret (mk_sq8 min max bytes).

Definition read_half : Read HalfVector :=
  let* dim := read_u32 in
  let* bytes := take (Z.to_nat dim * 2) in
  ret (mk_half bytes).

Definition read_finite : Read Value :=
  let* scaled := read_i128 in
  let* scale := read_u8 in
  ret (V.Numeric scaled scale NumericKind.Finite).

(** The two bytes of a [u16], read one by one. *)
Definition read_u16_bytes : Read Z := let* lo := read_u8 in let* hi := read_u8 in ret (le_val [lo; hi]).

(** The form byte is there from version 56 on. *)
Definition read_numeric : Read Value :=
  let* with_form := codec_at_least 56 in
  if with_form : bool then
    let* form := read_u8 in
    if form =? 0 then read_finite
    else if form =? 4 then
      let* scaled := read_i128 in
      let* scale := read_u16_bytes in
      ret (V.Numeric scaled scale NumericKind.Finite)
    else if form =? 1 then ret (numeric_special NumericKind.NaN)
    else if form =? 2 then ret (numeric_special NumericKind.PosInf)
    else if form =? 3 then ret (numeric_special NumericKind.NegInf)
    else corrupt "unknown NUMERIC form byte"
  else read_finite.

(** Tags 33 and 34. *)
Definition read_big (tag : Z) : Read Value :=
  let* neg := read_u8 in
  let* scale := if tag =? 34 then read_u16_bytes else read_u8 in
  let* nlimbs := read_u16 in
  let* limbs := read_each read_u32 (Z.to_nat nlimbs) in
  ret (V.NumericBig (from_parts (negb (neg =? 0)) limbs scale)).

(** Micros, days and months. *)
Definition read_interval_fields : Read (Z * Z * Z) :=
  let* micros := read_i64 in
  let* days := read_i32 in
  let* months := read_i32 in
  ret (months, days, micros).

Definition read_interval : Read Value :=
  let* (months, days, micros) := read_interval_fields in
  ret (V.Interval months days micros (IntervalKind.from_fields months days micros)).

Definition read_span : Read IntervalSpan :=
  let* (months, days, micros) := read_interval_fields in
  ret (mk_span months days micros (IntervalKind.from_fields months days micros)).

Definition read_bool : Read bool := let* b := read_u8 in ret (negb (b =? 0)).

Definition read_bytes_escaped : Read (list Z) := let* len := read_len_escaped_v47 in take len.

Definition read_numeric_item : Read (option (Z * Z)) :=
  let* flag := read_u8 in
  if flag =? 0 then let* scaled := read_i128 in let* scale := read_u8 in ret (Some (scaled, scale))
  else if flag =? 2 then let* scaled := read_i128 in let* scale := read_u16_bytes in ret (Some (scaled, scale))
  else if flag =? 1 then ret None
  else corrupt "NUMERIC[] null flag".

Definition read_net : Read (Z * Z * list Z) :=
  let* family := read_u8 in
  let* bits := read_u8 in
  let* addr := take 16 in
  ret (family, bits, addr).

Definition read_timetz : Read (Z * Z) := let* us := read_i64 in let* off := read_i32 in ret (us, off).

Definition read_points : Read (list Point2D) := let* count := read_u32 in read_each read_point (Z.to_nat count).

Definition read_lexeme : Read TsLexeme :=
  let* word := read_str_escaped_v47 in
  let* pos_count := read_u16 in
  let* positions := read_each read_u16 (Z.to_nat pos_count) in
  let* weight := read_u8 in
  ret (mk_lexeme word positions weight).

Definition read_tsvector_body : Read (list TsLexeme) := read_counted read_lexeme.

(** Every node takes a byte at least: the bytes left, and one, are fuel enough. *)
Fixpoint read_tsquery (fuel : nat) : Read TsQueryAst :=
  match fuel with
  | O => fun _ => None
  | S fuel =>
    let* tag := read_u8 in
    if tag =? 0 then
      let* word := read_str_escaped_v47 in let* weight_mask := read_u8 in ret (Term word weight_mask)
    else if tag =? 1 then let* a := read_tsquery fuel in let* b := read_tsquery fuel in ret (And a b)
    else if tag =? 2 then let* a := read_tsquery fuel in let* b := read_tsquery fuel in ret (Or a b)
    else if tag =? 3 then let* x := read_tsquery fuel in ret (Not x)
    else if tag =? 4 then
      let* distance := read_u16 in
      let* l := read_tsquery fuel in
      let* r := read_tsquery fuel in
      ret (Phrase l r distance)
    else corrupt "tsquery: unknown node tag"
  end.

Definition fuel_of (cur : Cursor) : nat := S (length (buf cur) - pos cur).

Definition read_tsquery_body : Read TsQueryAst := fun cur => read_tsquery (fuel_of cur) cur.

Definition read_hstore_pair : Read (list Z * option (list Z)) :=
  let* k := read_u32_str "hstore key is not valid UTF-8" in
  let* has_val := read_u8 in
  if negb (has_val =? 0) then let* v := read_u32_str "hstore value is not valid UTF-8" in ret (k, Some v)
  else ret (k, None).

Definition read_hstore_body : Read (list (list Z * option (list Z))) :=
  let* count := read_u32 in read_each read_hstore_pair (Z.to_nat count).

Definition read_2d {A} (rd : Read A) : Read (list (list A)) :=
  let* nrows := read_u32 in
  let* ncols := read_u32 in
  read_each (read_each rd (Z.to_nat ncols)) (Z.to_nat nrows).

(** A cell of a two-dimensional array: null is the flag 1, any other is not. *)
Definition read_cell {A} (rd : Read A) : Read (option A) :=
  let* null := read_u8 in
  if null =? 1 then ret None else let* x := rd in ret (Some x).

Definition read_bool_2d_body : Read (list (list (option bool))) :=
  read_2d (let* b := read_u8 in
           ret (if b =? 0 then Some false else if b =? 1 then Some true else None)).
Definition read_int_2d_body : Read (list (list (option Z))) := read_2d (read_cell read_i32).
Definition read_bigint_2d_body : Read (list (list (option Z))) := read_2d (read_cell read_i64).
Definition read_text_2d_body : Read (list (list (option (list Z)))) :=
  read_2d (read_cell (read_u32_str "2D TEXT cell is not valid UTF-8")).

(** ** The self-describing codec, read *)

(** The flags of a range and the bounds they announce, each read by [rd]. *)
Definition read_range_span (rd : Read Value) : Read (RangeSpan Value) :=
  let* flags := read_u8 in
  let empty := negb (Z.land flags 1 =? 0) in
  let has_lower := negb (Z.land flags 2 =? 0) in
  let has_upper := negb (Z.land flags 4 =? 0) in
  let lower_inc := negb (Z.land flags 8 =? 0) in
  let upper_inc := negb (Z.land flags 16 =? 0) in
  let* lower := if has_lower then let* v := rd in ret (Some v) else ret None in
  let* upper := if has_upper then let* v := rd in ret (Some v) else ret None in
  ret (mk_range lower upper lower_inc upper_inc empty).

Definition value_of_range (kind : RangeKind) (r : RangeSpan Value) : Value :=
  V.Range kind (lower r) (upper r) (lower_inc r) (upper_inc r) (empty r).

(** The value after its tag, its bounds (of a range) read by [rd]. *)
Definition read_tagged (rd : Read Value) (tag : Z) : Read Value :=
  match tag with
  | 0 => ret V.Null
  | 1 => let* n := read_i32 in ret (V.Int n)
  | 2 => let* n := read_i64 in ret (V.BigInt n)
  | 3 => let* x := read_f64 in ret (V.Float x)
  | 32 => let* x := read_f32 in ret (V.Real x)
  | 33 | 34 => read_big tag
  | 4 => let* s := read_str in ret (V.Text s)
  | 5 => let* b := read_bool in ret (V.Bool b)
  | 6 => let* v := read_f32_vector in ret (V.Vector v)
  | 7 => let* n := read_i16 in ret (V.SmallInt n)
  | 8 => read_numeric
  | 9 => let* d := read_i32 in ret (V.Date d)
  | 10 => let* t := read_i64 in ret (V.Timestamp t)
  | 11 => let* q := read_sq8 in ret (V.Sq8Vector q)
  | 12 => let* h := read_half in ret (V.HalfVector h)
  | 14 => let* b := read_bytes_escaped in ret (V.Bytes b)
  | 15 =>
    let* items := read_array "TEXT[] null flag in value tag" read_str_escaped_v47 in ret (V.TextArray items)
  | 16 => let* items := read_array "INT[] null flag in value tag" read_i32 in ret (V.IntArray items)
  | 17 => let* items := read_array "BIGINT[] null flag in value tag" read_i64 in ret (V.BigIntArray items)
  | 18 => let* lexs := read_tsvector_body in ret (V.TsVector lexs)
  | 19 => let* ast := read_tsquery_body in ret (V.TsQuery ast)
  | 20 => let* b := take 16 in ret (V.Uuid b)
  | 21 => let* us := read_i64 in ret (V.Time us)
  | 22 => let* y := read_u16 in ret (V.Year y)
  | 23 => let* (us, offset_secs) := read_timetz in ret (V.TimeTz us offset_secs)
  | 24 => let* c := read_i64 in ret (V.Money c)
  | 26 => let* pairs := read_hstore_body in ret (V.Hstore pairs)
  | 27 => let* rows := read_int_2d_body in ret (V.IntArray2D rows)
  | 67 => let* rows := read_bool_2d_body in ret (V.BoolArray2D rows)
  | 28 => let* rows := read_bigint_2d_body in ret (V.BigIntArray2D rows)
  | 29 => let* rows := read_text_2d_body in ret (V.TextArray2D rows)
  | 30 => read_interval
  | 31 => let* items := read_array "INTERVAL[] null flag in value tag" read_span in ret (V.IntervalArray items)
  | 25 =>
    let* kt := read_u8 in
    match range_from_tag kt with
    | Some kind => let* r := read_range_span rd in ret (value_of_range kind r)
    | None => corrupt "unknown RangeKind tag"
    end
  | _ => corrupt "unknown value tag"
  end.

(** A range reads its bounds after its own tag: the bytes left, and one, are
    fuel enough. *)
Fixpoint read_value_fuel (fuel : nat) : Read Value :=
  match fuel with
  | O => fun _ => None
  | S fuel => let* tag := read_u8 in read_tagged (read_value_fuel fuel) tag
  end.

Definition read_value : Read Value := fun cur => read_value_fuel (fuel_of cur) cur.

(** ** The schema-driven codec, read *)

(** [format!("{n}")] of an [i64]. *)
Definition to_string_i64 (n : Z) : list Z :=
  if n <? 0 then 45 :: digits_of 20 (- n) [] else digits_of 20 n [].

Definition read_value_body (ty : DataType) : Read Value :=
  match ty with
  | DT.Void => ret V.Void
  | DT.SmallInt => let* n := read_i16 in ret (V.SmallInt n)
  | DT.Int => let* n := read_i32 in ret (V.Int n)
  | DT.BigInt | DT.Xid8 | DT.Oid => let* n := read_i64 in ret (V.BigInt n)
  | DT.Xid => let* n := read_i64 in ret (V.Xid (wrap 32 n))
  | DT.Tid => let* a := read_i64 in let* b := read_i64 in ret (V.Tid (wrap 32 a) (wrap 32 b))
  | DT.Cid => let* n := read_i64 in ret (V.Cid (wrap 32 n))
  | DT.RegClass => let* oid := read_i64 in ret (V.RegClass oid (to_string_i64 oid))
  | DT.RegType => let* oid := read_i64 in ret (V.RegType oid (to_string_i64 oid))
  | DT.RegProc => let* oid := read_i64 in ret (V.RegProc oid (to_string_i64 oid))
  | DT.Float => let* x := read_f64 in ret (V.Float x)
  | DT.Real => let* x := read_f32 in ret (V.Real x)
  | DT.Bool => let* b := read_bool in ret (V.Bool b)
  | DT.Text | DT.Varchar _ | DT.Name | DT.PgNodeTree | DT.AnyArray | DT.AclItemArray | DT.Char1Array
  | DT.RegTypeArray => let* s := read_str in ret (V.Text s)
  | DT.Char _ => let* s := read_str in ret (V.BpChar s)
  | DT.Vector _ F32 => let* v := read_f32_vector in ret (V.Vector v)
  | DT.Vector _ Sq8 => let* q := read_sq8 in ret (V.Sq8Vector q)
  | DT.Vector _ F16 => let* h := read_half in ret (V.HalfVector h)
  | DT.Numeric _ _ => read_numeric
  | DT.Date => let* d := read_i32 in ret (V.Date d)
  | DT.Timestamp | DT.Timestamptz => let* t := read_i64 in ret (V.Timestamp t)
  | DT.Jsonb | DT.Json => let* s := read_str in ret (V.Json s)
  | DT.Interval => read_interval
  | DT.Bytes => let* b := read_bytes_escaped in ret (V.Bytes b)
  | DT.TextArray => let* items := read_array "TEXT[] null flag" read_str_escaped_v47 in ret (V.TextArray items)
  | DT.IntArray => let* items := read_array "INT[] null flag" read_i32 in ret (V.IntArray items)
  | DT.BigIntArray | DT.OidArray =>
    let* items := read_array "BIGINT[] null flag" read_i64 in ret (V.BigIntArray items)
  | DT.IntervalArray => let* items := read_array "INTERVAL[] null flag" read_span in ret (V.IntervalArray items)
  | DT.BoolArray => let* items := read_array "BOOL[] null flag" read_bool in ret (V.BoolArray items)
  | DT.SmallIntArray => let* items := read_array "SMALLINT[] null flag" read_i16 in ret (V.SmallIntArray items)
  | DT.Int2Vector => let* items := read_counted read_i16 in ret (V.Int2Vector items)
  | DT.OidVector => let* items := read_counted read_u32 in ret (V.OidVector items)
  | DT.FloatArray => let* items := read_array "FLOAT[] null flag" read_f64 in ret (V.FloatArray items)
  | DT.NumericArray => let* items := read_counted read_numeric_item in ret (V.NumericArray items)
  | DT.DateArray => let* items := read_array "DATE[] null flag" read_i32 in ret (V.DateArray items)
  | DT.TimestampArray => let* items := read_array "TIMESTAMP[] null flag" read_i64 in ret (V.TimestampArray items)
  | DT.TimestamptzArray =>
    let* items := read_array "TIMESTAMPTZ[] null flag" read_i64 in ret (V.TimestamptzArray items)
  | DT.RealArray => let* items := read_array "REAL[] null flag" read_f32 in ret (V.RealArray items)
  | DT.TimeArray => let* items := read_array "TIME[] null flag" read_i64 in ret (V.TimeArray items)
  | DT.TimeTzArray => let* items := read_array "TIMETZ[] null flag" read_timetz in ret (V.TimeTzArray items)
  | DT.InetArray => let* items := read_array "INET[] null flag" read_net in ret (V.InetArray items)
  | DT.UuidArray => let* items := read_array "UUID[] null flag" (take 16) in ret (V.UuidArray items)
  | DT.JsonArray => let* items := read_array "string-array null flag" read_str_escaped_v47 in ret (V.JsonArray items)
  | DT.JsonbArray =>
    let* items := read_array "string-array null flag" read_str_escaped_v47 in ret (V.JsonbArray items)
  | DT.VarcharArray =>
    let* items := read_array "string-array null flag" read_str_escaped_v47 in ret (V.VarcharArray items)
  | DT.XmlArray => let* items := read_array "string-array null flag" read_str_escaped_v47 in ret (V.XmlArray items)
  | DT.CharArray => let* items := read_array "string-array null flag" read_str_escaped_v47 in ret (V.CharArray items)
  | DT.BytesArray => let* items := read_array "BYTEA[] null flag" read_bytes_escaped in ret (V.BytesArray items)
  | DT.Point => let* p := read_point in ret (V.Point p)
  | DT.Lseg => let* p1 := read_point in let* p2 := read_point in ret (V.Lseg p1 p2)
  | DT.PgBox => let* ur := read_point in let* ll := read_point in ret (V.PgBox ur ll)
  | DT.Line => let* a := read_f64 in let* b := read_f64 in let* c := read_f64 in ret (V.Line a b c)
  | DT.Circle => let* center := read_point in let* radius := read_f64 in ret (V.Circle center radius)
  | DT.Path => let* closed := read_bool in let* points := read_points in ret (V.Path points closed)
  | DT.Polygon => let* points := read_points in ret (V.Polygon points)
  | DT.Inet => let* (family, bits, addr) := read_net in ret (V.Inet family bits addr)
  | DT.Cidr => let* (family, bits, addr) := read_net in ret (V.Cidr family bits addr)
  | DT.Macaddr => let* m := take 6 in ret (V.Macaddr m)
  | DT.PgLsn => let* l := read_u64 in ret (V.PgLsn l)
  | DT.Macaddr8 => let* m := take 8 in ret (V.Macaddr8 m)
  | DT.Bit _ | DT.BitVarying _ =>
    let* nbits := read_u32 in
    let* bytes := take ((Z.to_nat nbits + 7) / 8) in
    ret (V.BitString nbits bytes)
  | DT.Xml => let* s := read_str in ret (V.Xml s)
  | DT.Char1 => let* b := read_u8 in ret (V.Char1 b)
  | DT.MoneyArray => let* items := read_array "MONEY[] null flag" read_i64 in ret (V.MoneyArray items)
  | DT.Multirange kind =>
    let* ranges := read_counted (read_range_span read_value) in ret (V.Multirange kind ranges)
  | DT.TsVector => let* lexs := read_tsvector_body in ret (V.TsVector lexs)
  | DT.TsQuery => let* ast := read_tsquery_body in ret (V.TsQuery ast)
  | DT.Uuid => let* b := take 16 in ret (V.Uuid b)
  | DT.Time => let* us := read_i64 in ret (V.Time us)
  | DT.Year => let* y := read_u16 in ret (V.Year y)
  | DT.TimeTz => let* (us, offset_secs) := read_timetz in ret (V.TimeTz us offset_secs)
  | DT.Money => let* c := read_i64 in ret (V.Money c)
  | DT.Hstore => let* pairs := read_hstore_body in ret (V.Hstore pairs)
  | DT.IntArray2D => let* rows := read_int_2d_body in ret (V.IntArray2D rows)
  | DT.BigIntArray2D => let* rows := read_bigint_2d_body in ret (V.BigIntArray2D rows)
  | DT.TextArray2D => let* rows := read_text_2d_body in ret (V.TextArray2D rows)
  | DT.BoolArray2D => let* rows := read_bool_2d_body in ret (V.BoolArray2D rows)
  | DT.Range kind => let* r := read_range_span read_value in ret (value_of_range kind r)
  end.

(** ** Rows *)

(** What the codec reads of a column's schema, and what the validator does. *)
Record ColumnSchema : Type := mk_column { column_name : list Z; ty : DataType; nullable : bool }.

Abbreviation Row := (list Value) (only parsing).
Abbreviation TableSchema := (list ColumnSchema) (only parsing).

(** [schema.columns.len().div_ceil(8)] *)
Definition bitmap_bytes (schema : TableSchema) : nat := ((length schema + 7) / 8)%nat.

(** [!needed.is_empty() && !needed[i]] *)
Definition dropped (needed : list bool) (i : nat) : option bool :=
  match needed with [] => Some false | _ => negb <$> needed !! i end.

(** [out[bitmap_offset + i / 8] |= 1 << (i % 8)] *)
Definition set_null_bit (offset i : nat) (out : list Z) : option (list Z) :=
  let! b := out !! (offset + i / 8)%nat in
  vec_set (offset + i / 8) (Z.lor b (Z.shiftl 1 (Z.of_nat (i mod 8)))) out.

Fixpoint set_null_bits (needed : list bool) (offset i : nat) (values : Row) (out : list Z) : option (list Z) :=
  match values with
  | [] => Some out
  | v :: values =>
    let! d := dropped needed i in
    let! out := if d || is_null v then set_null_bit offset i out else Some out in
    set_null_bits needed offset (S i) values out
  end.

Fixpoint write_cells (schema : TableSchema) (needed : list bool) (i : nat) (values : Row) : option (list Z) :=
  match values with
  | [] => Some []
  | v :: values =>
    let! d := dropped needed i in
    let! cell := if d || is_null v then Some []
                 else let! col := schema !! i in write_value_body v (ty col) in
    let! cells := write_cells schema needed (S i) values in
    Some (cell ++ cells)
  end.

Definition encode_row_body_dense_masked_into (row : Row) (schema : TableSchema) (needed : list bool)
    (out : list Z) : option (list Z) :=
  let bitmap_offset := length out in
  let out := out ++ replicate (bitmap_bytes schema) 0 in
  let! out := set_null_bits needed bitmap_offset 0 row out in
  let! cells := write_cells schema needed 0 row in
  Some (out ++ cells).

Definition encode_row_body_dense_into (row : Row) (schema : TableSchema) (out : list Z) : option (list Z) :=
  encode_row_body_dense_masked_into row schema [] out.

Definition encode_row_body_dense (row : Row) (schema : TableSchema) : option (list Z) :=
  encode_row_body_dense_into row schema [].

(** [(bitmap_buf[i / 8] >> (i % 8)) & 1 == 1], the buffer being the bitmap
    padded with zeros to 32 bytes. *)
Definition null_bit (bitmap : list Z) (i : nat) : bool :=
  Z.land (Z.shiftr ((bitmap ++ replicate (32 - length bitmap) 0) !!! (i / 8)%nat) (Z.of_nat (i mod 8))) 1 =? 1.

(** The bitmap both decoders start with. *)
Definition read_bitmap (schema : TableSchema) : Read (list Z) :=
  if (32 <? bitmap_bytes schema)%nat then corrupt "row NULL bitmap exceeds 32 B cap" else take (bitmap_bytes schema).

Fixpoint read_cells (bitmap : list Z) (i : nat) (schema : TableSchema) : Read Row :=
  match schema with
  | [] => ret []
  | col :: schema =>
    let* v := if null_bit bitmap i then ret V.Null else read_value_body (ty col) in
    let* vs := read_cells bitmap (S i) schema in
    ret (v :: vs)
  end.

(** [Ok((Row { values }, cur.pos))] *)
Definition run_row (m : Read Row) (bytes : list Z) (codec_version : Z) : outcome (Row * nat) StorageError :=
  let!? (values, cur) := m (mk_cursor bytes 0 codec_version) in Some (Ok (values, pos cur)).

Definition decode_row_body_dense (bytes : list Z) (schema : TableSchema) (codec_version : Z)
    : outcome (Row * nat) StorageError :=
  run_row (let* bitmap := read_bitmap schema in read_cells bitmap 0 schema) bytes codec_version.

Definition skippable (t : DataType) : bool :=
  match t with DT.Text | DT.Varchar _ | DT.Name | DT.Char _ => true | _ => false end.

(** [needed.get(i).copied().unwrap_or(true)] *)
Definition wanted (needed : list bool) (i : nat) : bool := default true (needed !! i).

Fixpoint read_cells_pruned (needed : list bool) (bitmap : list Z) (i : nat) (schema : TableSchema) : Read Row :=
  match schema with
  | [] => ret []
  | col :: schema =>
    let* v :=
      if null_bit bitmap i then ret V.Null
      else if wanted needed i || negb (skippable (ty col)) then read_value_body (ty col)
      else let* _ := skip_str in ret V.Null in
    let* vs := read_cells_pruned needed bitmap (S i) schema in
    ret (v :: vs)
  end.

Definition decode_row_body_dense_pruned (bytes : list Z) (schema : TableSchema) (codec_version : Z)
    (needed : list bool) : outcome (Row * nat) StorageError :=
  run_row (let* bitmap := read_bitmap schema in read_cells_pruned needed bitmap 0 schema) bytes codec_version.
