(* ===== verification/RowCodecOk.v ===== *)
(** The bodies of the row codec, read back: every writer of a shared body has a
    reader that inverts it ([CodecReads.reads]), up to the form a value takes on
    disk where it takes one.

    The row codec is a round trip: a value written without a panic is read back
    as its stored form, with or without its column's type, and a row is read
    back cell by cell.  A container whose codec version is older than the
    NUMERIC form byte reads back what holds no NUMERIC. *)
From S2P Require Import Prelude Bytes BigNum Values CodecIO CodecReads RowCodec.
Open Scope Z_scope.

#[local] Arguments le_bytes : simpl never.

(** An interval whose kind is not [Finite] is written as the extreme fields, and
    the kind is read off the fields. *)
Definition interval_form (months days micros : Z) (kind : IntervalKind) : Value :=
  let '(months, days, micros) := IntervalKind.to_fields kind months days micros in
  V.Interval months days micros (IntervalKind.from_fields months days micros).

(** In an array the fields are written as they are. *)
Definition span_form (s : IntervalSpan) : IntervalSpan :=
  mk_span (span_months s) (span_days s) (span_micros s)
    (IntervalKind.from_fields (span_months s) (span_days s) (span_micros s)).

Definition numeric_form (scaled scale : Z) (kind : NumericKind) : Value :=
  match kind with NumericKind.Finite => V.Numeric scaled scale kind | _ => numeric_special kind end.

(** All rows as long as the first. *)
Definition rectangular {A} (rows : list (list A)) : Prop := Forall (fun r => length r = first_len rows) rows.

(** A bit string has the bytes its bit count takes. *)
Definition bits_ok (nbits : Z) (bytes : list Z) : Prop := length bytes = ((Z.to_nat nbits + 7) / 8)%nat.

#[export] Instance rectangular_dec {A} (rows : list (list A)) : Decision (rectangular rows).
Proof. unfold rectangular. apply _. Defined.

#[export] Instance interval_ok_dec months days micros : Decision (interval_ok months days micros).
Proof. unfold interval_ok. apply _. Defined.

Section Bodies.
Context (ver : Z).

Lemma reads_point p : point_ok p -> reads ver read_point (write_point p) p.
Proof.
  intros [Hx Hy]. destruct p as [x y]. unfold read_point, write_point.
  eapply reads_bind; [by apply reads_f64|]. by eapply reads_last; [apply reads_f64|].
Qed.

Lemma reads_points points bs :
  Forall point_ok points ->
  (let! count := u32_try_from (length points) in Some (le_bytes 4 count ++ concat (map write_point points))) = Some bs ->
  reads ver read_points bs points.
Proof.
  intros HP H. written. apply len_u32 in H0 as [-> Hn].
  eapply reads_bind; [by apply reads_u32|].
  eapply (reads_concat ver point_ok); [apply reads_point|done|by rewrite Nat2Z.id].
Qed.

Lemma reads_f32_vector v bs : Forall u32 v -> write_f32_vector v = Some bs -> reads ver read_f32_vector bs v.
Proof.
  intros HP H. unfold write_f32_vector in H. written. apply len_u32 in H0 as [-> Hn].
  eapply reads_bind; [by apply reads_u32|].
  eapply (reads_concat ver u32); [apply reads_f32|done|by rewrite Nat2Z.id].
Qed.

Lemma reads_sq8 q bs : value_ok (V.Sq8Vector q) -> write_sq8 q = Some bs -> reads ver read_sq8 bs q.
Proof.
  intros (Hmin & Hmax & _) H. destruct q as [min max bytes]. unfold write_sq8 in H. written.
  apply len_u32 in H0 as [-> Hn]. cbn [sq8_min sq8_max sq8_bytes] in *.
  eapply reads_bind; [by apply reads_u32|]. eapply reads_bind; [by apply reads_f32|].
  eapply reads_bind; [by apply reads_f32|].
  eapply reads_last; [apply reads_take; by rewrite Nat2Z.id|done].
Qed.

Lemma reads_half h bs :
  length (half_bytes h) = (half_dim h * 2)%nat -> write_half h = Some bs -> reads ver read_half bs h.
Proof.
  intros Hl H. destruct h as [b]. unfold write_half in H. written.
  apply len_u32 in H0 as [-> Hn]. cbn [half_bytes] in *.
  eapply reads_bind; [by apply reads_u32|]. eapply reads_last; [apply reads_take; by rewrite Nat2Z.id|done].
Qed.

Lemma reads_u16_bytes n : u16 n -> reads ver read_u16_bytes (le_bytes 2 n) n.
Proof.
  intros H. unfold read_u16_bytes. rewrite <-(le_val_le_bytes_id 2 n) at 2 by done.
  unfold le_bytes. apply reads_u8_then. by eapply reads_last; [apply reads_byte|].
Qed.

Lemma reads_finite scaled scale :
  i128 scaled -> reads ver read_finite (le_bytes 16 scaled ++ [scale]) (V.Numeric scaled scale NumericKind.Finite).
Proof.
  intros Hm. unfold read_finite. eapply reads_bind; [by apply reads_i128|].
  by eapply reads_last; [apply reads_byte|].
Qed.

Lemma reads_numeric scaled scale kind :
  56 <= ver -> i128 scaled -> u16 scale ->
  reads ver read_numeric (write_numeric scaled scale kind) (numeric_form scaled scale kind).
Proof.
  intros Hv Hm Hs. apply reads_if_version. rewrite (proj2 (Z.leb_le _ _)) by done.
  destruct kind; cbn [write_numeric numeric_form]; [|apply reads_u8_then, reads_ret..].
  case_if; apply reads_u8_then; [by apply reads_finite|].
  eapply reads_bind; [by apply reads_i128|]. by eapply reads_last; [apply reads_u16_bytes|].
Qed.

Lemma reads_big b bs :
  Forall u32 (limbs b) -> u16 (scale b) -> Z.of_nat (length (limbs b)) < 2 ^ 16 -> write_big b = bs ->
  exists tag rest, bs = tag :: rest /\ (tag = 33 \/ tag = 34) /\
    reads ver (read_big tag) rest (V.NumericBig (normalize b)).
Proof.
  intros Hl Hs Hn <-. destruct b as [neg limbs scale]. cbn [BigNum.limbs BigNum.scale] in *.
  unfold write_big, parts. cbn [BigNum.neg BigNum.limbs BigNum.scale].
  eexists _, _. split; [done|]. split; [case_if; auto|].
  unfold read_big. apply reads_u8_then.
  rewrite wrap_id by (split; lia).
  eapply reads_bind.
  - instantiate (1 := scale). destruct (Z.lt_ge_cases scale 256).
    + rewrite (proj2 (Z.ltb_lt scale 256)), (proj2 (Z.ltb_ge 255 scale)) by lia. apply reads_byte.
    + rewrite (proj2 (Z.ltb_ge scale 256)), (proj2 (Z.ltb_lt 255 scale)) by lia. by apply reads_u16_bytes.
  - eapply reads_bind; [apply reads_u16; split; lia|].
    eapply reads_last; [eapply (reads_concat ver u32); [apply reads_u32|done|by rewrite Nat2Z.id]|].
    by destruct neg.
Qed.

Lemma reads_interval_fields months days micros :
  interval_ok months days micros ->
  reads ver read_interval_fields (le_bytes 8 micros ++ le_bytes 4 days ++ le_bytes 4 months) (months, days, micros).
Proof.
  intros (Hm & Hd & Hu). eapply reads_bind; [by apply reads_i64|]. eapply reads_bind; [by apply reads_i32|].
  by eapply reads_last; [apply reads_i32|].
Qed.

Lemma reads_interval months days micros kind :
  interval_ok months days micros ->
  reads ver read_interval (write_interval months days micros kind) (interval_form months days micros kind).
Proof.
  intros H. unfold read_interval, write_interval, interval_form.
  destruct (IntervalKind.to_fields kind months days micros) as [[m d] u] eqn:E.
  eapply reads_last; [apply reads_interval_fields|done].
  destruct kind; apply (inj2 pair) in E as [E <-]; apply (inj2 pair) in E as [<- <-]; [done|..];
    by apply (bool_decide_unpack (interval_ok _ _ _)).
Qed.

Lemma reads_span s : span_ok s -> reads ver read_span (write_span s) (span_form s).
Proof. intros H. by eapply reads_last; [by apply reads_interval_fields|]. Qed.

Lemma reads_bool b : reads ver read_bool [byte_of_bool b] b.
Proof. by eapply reads_last; [apply reads_byte|destruct b]. Qed.

Lemma reads_bool_then {B} (k : bool -> Read B) b bs y :
  reads ver (k b) bs y -> reads ver (bind read_bool k) (byte_of_bool b :: bs) y.
Proof. intros H. change (byte_of_bool b :: bs) with ([byte_of_bool b] ++ bs). eapply reads_bind; [apply reads_bool|exact H]. Qed.

Lemma reads_bytes_escaped b bs : 47 <= ver -> write_bytes_escaped b = Some bs -> reads ver read_bytes_escaped bs b.
Proof.
  intros Hv H. apply (escaped_header ver) in H as (header & -> & Hh).
  eapply reads_bind; [by apply Hh|]. by apply reads_take.
Qed.

Lemma reads_numeric_item item bs :
  opt_all (fun x => i128 x.1 /\ u16 x.2) item -> write_numeric_item item = Some bs ->
  reads ver read_numeric_item bs item.
Proof.
  intros HP H. destruct item as [[scaled scale]|]; cbn [opt_all write_numeric_item fst snd] in *; written.
  - destruct HP as [Hm Hs]. unfold read_numeric_item. case_if; apply reads_u8_then; cbn [Z.eqb Pos.eqb].
    + eapply reads_bind; [by apply reads_i128|]. by eapply reads_last; [apply reads_byte|].
    + eapply reads_bind; [by apply reads_i128|]. by eapply reads_last; [apply reads_u16_bytes|].
  - apply reads_u8_then, reads_ret.
Qed.

Lemma reads_net family bits addr :
  net_ok family bits addr -> reads ver read_net (write_net family bits addr) (family, bits, addr).
Proof.
  intros (_ & _ & Ha & _). do 2 apply reads_u8_then. by eapply reads_last; [apply reads_take|].
Qed.

Lemma reads_timetz us off : i64 us -> i32 off -> reads ver read_timetz (le_bytes 8 us ++ le_bytes 4 off) (us, off).
Proof. intros Hu Ho. eapply reads_bind; [by apply reads_i64|]. by eapply reads_last; [apply reads_i32|]. Qed.

(** ** Text search *)

Lemma reads_lexeme l bs : 47 <= ver -> lexeme_ok l -> write_lexeme l = Some bs -> reads ver read_lexeme bs l.
Proof.
  intros Hv (Hw & Hp & _) H. destruct l as [word positions weight]. unfold write_lexeme in H.
  cbn [Values.word Values.positions Values.weight] in *. written. apply u16_try_from_ok in H1 as [-> Hn].
  eapply reads_bind; [by apply reads_str_v47|]. eapply reads_bind; [by apply reads_u16|].
  eapply reads_bind; [eapply (reads_concat ver u16); [apply reads_u16|done|by rewrite Nat2Z.id]|].
  by eapply reads_last; [apply reads_byte|].
Qed.

Lemma reads_tsvector_body lexs bs :
  47 <= ver -> Forall lexeme_ok lexs -> write_tsvector_body lexs = Some bs -> reads ver read_tsvector_body bs lexs.
Proof.
  intros Hv HP H. rewrite <-(map_id lexs). eapply reads_counted; [|exact HP|exact H].
  intros l bs' Hl. by apply reads_lexeme.
Qed.

(** With fuel for the bytes the tree takes. *)
Lemma reads_tsquery ast bs fuel :
  47 <= ver -> query_ok ast -> write_tsquery_body ast = Some bs -> (length bs <= fuel)%nat ->
  reads ver (read_tsquery fuel) bs ast.
Proof.
  intros Hv. revert bs fuel. induction ast as [w m|a IHa b IHb|a IHa b IHb|x IHx|l IHl r IHr d];
    intros bs fuel Hq H Hf; cbn [query_ok write_tsquery_body] in *; written;
    cbn [length] in Hf; rewrite ?length_app, ?length_le_bytes in Hf; (destruct fuel as [|fuel]; [lia|]);
    cbn [read_tsquery]; apply reads_u8_then; cbn [Z.eqb Pos.eqb].
  - destruct Hq as [Hw Hm]. eapply reads_bind; [by apply reads_str_v47|]. by eapply reads_last; [apply reads_byte|].
  - destruct Hq as [Ha Hb]. eapply reads_bind; [apply IHa; (done || lia)|].
    by eapply reads_last; [apply IHb; (done || lia)|].
  - destruct Hq as [Ha Hb]. eapply reads_bind; [apply IHa; (done || lia)|].
    by eapply reads_last; [apply IHb; (done || lia)|].
  - by eapply reads_last; [apply IHx; (done || lia)|].
  - destruct Hq as (Hl & Hr & Hd). eapply reads_bind; [by apply reads_u16|].
    eapply reads_bind; [apply IHl; (done || lia)|]. by eapply reads_last; [apply IHr; (done || lia)|].
Qed.

(** A reader with fuel reads with the fuel of the cursor what it reads with the
    bytes themselves. *)
Lemma reads_fuel_of {A} (rd : nat -> Read A) bs x :
  (forall fuel, (length bs <= fuel)%nat -> reads ver (rd fuel) bs x) ->
  reads ver (fun cur => rd (fuel_of cur) cur) bs x.
Proof.
  intros H pre post. apply H. unfold fuel_of. cbn [buf pos]. rewrite !length_app. lia.
Qed.

Lemma reads_tsquery_body ast bs :
  47 <= ver -> query_ok ast -> write_tsquery_body ast = Some bs -> reads ver read_tsquery_body bs ast.
Proof. intros. apply reads_fuel_of. intros fuel Hf. by apply reads_tsquery. Qed.

(** ** Maps and matrices *)

Lemma reads_hstore_pair kv bs :
  is_str kv.1 /\ opt_all is_str kv.2 -> write_hstore_pair kv = Some bs -> reads ver read_hstore_pair bs kv.
Proof.
  intros [Hk Hv] H. destruct kv as [k [v|]]; unfold write_hstore_pair in H; cbn [fst snd opt_all] in *; written.
  - eapply reads_bind; [by apply (reads_u32_str _ _ k)|]. apply reads_u8_then. cbn [Z.eqb negb].
    by eapply reads_last; [apply reads_u32_str|].
  - eapply reads_bind; [by apply (reads_u32_str _ _ k)|]. apply reads_u8_then. apply reads_ret.
Qed.

Lemma reads_hstore_body pairs bs :
  Forall (fun kv => is_str kv.1 /\ opt_all is_str kv.2) pairs -> write_hstore_body pairs = Some bs ->
  reads ver read_hstore_body bs pairs.
Proof.
  intros HP H. unfold write_hstore_body in H. written. apply len_u32 in H0 as [-> Hn].
  eapply reads_bind; [by apply reads_u32|]. rewrite Nat2Z.id.
  eapply reads_each_id; [|exact HP|done..]. intros. by apply reads_hstore_pair.
Qed.

Lemma reads_2d {A} (P : A -> Prop) wr (rd : Read A) rows bs :
  (forall x bs, P x -> wr x = Some bs -> reads ver rd bs x) ->
  Forall (Forall P) rows -> rectangular rows -> write_2d wr rows = Some bs -> reads ver (read_2d rd) bs rows.
Proof.
  intros Hx HP Hr H. unfold write_2d in H. written.
  apply len_u32 in H0 as [-> Hn]. apply len_u32 in H1 as [-> Hm].
  do 2 (eapply reads_bind; [by apply reads_u32|]). rewrite !Nat2Z.id.
  eapply (reads_each_id ver (fun r => Forall P r /\ length r = first_len rows)); [| |done..].
  - intros r bs' [Hr1 Hr2] Hw. by eapply reads_each_id; [exact Hx|exact Hr1|..].
  - apply Forall_and. split; done.
Qed.

Lemma reads_cell {A} (P : A -> Prop) wr (rd : Read A) cell bs :
  (forall x bs, P x -> wr x = Some bs -> reads ver rd bs x) ->
  opt_all P cell -> write_item wr cell = Some bs -> reads ver (read_cell rd) bs cell.
Proof.
  intros Hx HP H. destruct cell as [x|]; cbn [write_item opt_all] in *; written; apply reads_u8_then; cbn [Z.eqb].
  - by eapply reads_last; [apply Hx|].
  - apply reads_ret.
Qed.

End Bodies.

#[local] Arguments le_bytes : simpl never.

(** ** What is written and what comes back *)

(** What has to hold of a value for its bytes to be read back in step, at codec
    version [ver], beyond its being a value of its Rust type. *)
Fixpoint storable (ver : Z) (v : Value) : Prop :=
  match v with
  | V.HalfVector h => length (half_bytes h) = (half_dim h * 2)%nat
  | V.Numeric _ _ _ => 56 <= ver
  | V.NumericBig b => Z.of_nat (length (limbs b)) < 2 ^ 16
  | V.BitString nbits bytes => bits_ok nbits bytes
  | V.IntArray2D rows | V.BigIntArray2D rows => rectangular rows
  | V.TextArray2D rows => rectangular rows
  | V.BoolArray2D rows => rectangular rows
  | V.Range _ lower upper _ _ _ =>
      match lower with Some v => storable ver v | None => True end /\
      match upper with Some v => storable ver v | None => True end
  | V.Multirange _ ranges =>
      (fix go rs := match rs with
        | [] => True
        | r :: rs =>
            match lower r with Some v => storable ver v | None => True end /\
            match upper r with Some v => storable ver v | None => True end /\ go rs
        end) ranges
  | _ => True
  end.

(** What [read_value] gives back for what [write_value] wrote. *)
Fixpoint tagged_form (v : Value) : Value :=
  match v with
  | V.Composite _ | V.Void | V.RegClass _ _ | V.RegProc _ _ | V.RegType _ _ | V.Tid _ _ | V.Xid _ | V.Cid _ => V.Null
  | V.Json s | V.BpChar s => V.Text s
  | V.Numeric scaled scale kind => numeric_form scaled scale kind
  | V.NumericBig b => V.NumericBig (normalize b)
  | V.Interval months days micros kind => interval_form months days micros kind
  | V.IntervalArray items => V.IntervalArray (map (option_map span_form) items)
  | V.Range kind lower upper lower_inc upper_inc empty =>
    V.Range kind
      (match lower with Some v => Some (tagged_form v) | None => None end)
      (match upper with Some v => Some (tagged_form v) | None => None end) lower_inc upper_inc empty
  | v => v
  end.

Definition range_form (r : RangeSpan Value) : RangeSpan Value :=
  mk_range (option_map tagged_form (lower r)) (option_map tagged_form (upper r)) (lower_inc r) (upper_inc r) (empty r).

(** What [read_value_body ty] gives back for what [write_value_body ty] wrote:
    a [Text] takes the shape of its column, a [BigInt] in an [xid] column loses
    its upper half, and a range its column's kind. *)
Definition stored_form (ty : DataType) (v : Value) : Value :=
  match v, ty with
  | (V.Text s | V.BpChar s), DT.Char _ => V.BpChar s
  | V.Text s, (DT.Json | DT.Jsonb) => V.Json s
  | V.BpChar s, _ => V.Text s
  | V.BigInt n, DT.Xid => V.Xid (wrap 32 n)
  | V.Numeric scaled scale kind, _ => numeric_form scaled scale kind
  | V.Interval months days micros kind, _ => interval_form months days micros kind
  | V.IntervalArray items, _ => V.IntervalArray (map (option_map span_form) items)
  | V.Range _ lower upper lower_inc upper_inc empty, DT.Range kind =>
    value_of_range kind (range_form (mk_range lower upper lower_inc upper_inc empty))
  | V.Multirange _ ranges, DT.Multirange kind => V.Multirange kind (map range_form ranges)
  | v, _ => v
  end.

Definition bound_ok (ver : Z) (b : option Value) : Prop := opt_all (fun v => value_ok v /\ storable ver v) b.
Definition range_ok (ver : Z) (r : RangeSpan Value) : Prop := bound_ok ver (lower r) /\ bound_ok ver (upper r).

(** ** With its tag *)

Lemma range_flags_read e l u li ui :
  let flags := range_flags e l u li ui in
  (negb (Z.land flags 1 =? 0), negb (Z.land flags 2 =? 0), negb (Z.land flags 4 =? 0),
   negb (Z.land flags 8 =? 0), negb (Z.land flags 16 =? 0)) = (e, l, u, li, ui).
Proof. by destruct e, l, u, li, ui. Qed.

Section Values.
Context (ver : Z) (Hver : 47 <= ver).

(** A range span, when its bounds are read back. *)
Lemma reads_range_span (rd : Read Value) (P : Value -> list Z -> Prop) r bs :
  (forall v bs, P v bs -> reads ver rd bs (tagged_form v)) ->
  (forall l, lower r = Some l -> forall lb, write_value l = Some lb -> (length lb < length bs)%nat -> P l lb) ->
  (forall u, upper r = Some u -> forall ub, write_value u = Some ub -> (length ub < length bs)%nat -> P u ub) ->
  write_range_span r = Some bs -> reads ver (read_range_span rd) bs (range_form r).
Proof.
  intros HP Hl Hu H. destruct r as [l u li ui e]. unfold write_range_span, write_bounds in H.
  cbn [lower upper lower_inc upper_inc empty] in *. written.
  unfold read_range_span. apply reads_u8_then.
  pose proof (range_flags_read e (is_some l) (is_some u) li ui) as F. cbn zeta in F.
  apply (inj2 pair) in F as [F E16]. apply (inj2 pair) in F as [F E8]. apply (inj2 pair) in F as [F E4].
  apply (inj2 pair) in F as [E1 E2]. cbn zeta. rewrite E1, E2, E4, E8, E16. clear E1 E2 E4 E8 E16.
  cbn [length] in Hl, Hu. rewrite length_app in Hl, Hu.
  eapply reads_bind with (x := option_map tagged_form l).
  - destruct l as [l|]; cbn [is_some option_map]; written; [|apply reads_ret].
    eapply reads_last; [apply HP; apply Hl; [done..|lia]|done].
  - rewrite <-(app_nil_r x1). eapply reads_bind with (x := option_map tagged_form u); [|apply reads_ret].
    destruct u as [u|]; cbn [is_some option_map]; written; [|apply reads_ret].
    eapply reads_last; [apply HP; apply Hu; [done..|lia]|done].
Qed.

Lemma reads_range_kind (rd : Read Value) kind bs r :
  reads ver (read_range_span rd) bs r ->
  reads ver (read_tagged rd 25) (range_tag kind :: bs) (value_of_range kind r).
Proof.
  intros H. cbn [read_tagged]. apply reads_u8_then. rewrite range_from_tag_tag. by eapply reads_last; [exact H|].
Qed.

Lemma write_range_value kind l u li ui e bs :
  write_value (V.Range kind l u li ui e) = Some bs ->
  exists body, bs = 25 :: range_tag kind :: body /\ write_range_span (mk_range l u li ui e) = Some body.
Proof.
  cbn [write_value]. intros H. unfold write_range_span, write_bounds. cbn [lower upper lower_inc upper_inc empty].
  apply bind_Some in H as (lb & -> & H). apply bind_Some in H as (ub & -> & H). written. by eexists.
Qed.

Lemma reads_text_array message items bs :
  items_ok is_str items -> write_array write_bytes_escaped items = Some bs ->
  reads ver (read_array message read_str_escaped_v47) bs items.
Proof. intros HP H. eapply reads_array; [|exact HP|exact H]. intros. by apply reads_str_v47. Qed.

Lemma reads_fixed_array (P : Z -> Prop) k message rd items bs :
  (forall n, P n -> reads ver rd (le_bytes k n) n) ->
  items_ok P items -> write_array (le k) items = Some bs -> reads ver (read_array message rd) bs items.
Proof. intros Hrd HP H. eapply reads_array; [|exact HP|exact H]. unfold le. intros. written. auto. Qed.

Lemma reads_span_array message items bs :
  items_ok span_ok items -> write_array (fun s => Some (write_span s)) items = Some bs ->
  reads ver (read_array message read_span) bs (map (option_map span_form) items).
Proof. intros HP H. eapply reads_array_map; [|exact HP|exact H]. intros. written. by apply reads_span. Qed.

Lemma reads_fixed_array' (P : Z -> Prop) k message rd items bs :
  (forall n, P n -> reads ver rd (le_bytes k n) n) ->
  items_ok P items -> write_array (fun n => Some (le_bytes k n)) items = Some bs ->
  reads ver (read_array message rd) bs items.
Proof. apply reads_fixed_array. Qed.

Lemma reads_fixed_2d (P : Z -> Prop) k rd rows bs :
  (forall n, P n -> reads ver rd (le_bytes k n) n) ->
  matrix_ok P rows -> rectangular rows -> write_2d (write_item (fun n => Some (le_bytes k n))) rows = Some bs ->
  reads ver (read_2d (read_cell rd)) bs rows.
Proof.
  intros Hrd HP Hr H. eapply reads_2d; [|exact HP|done..]. intros c bs' Hc Hw.
  eapply reads_cell; [|exact Hc|exact Hw]. intros. written. auto.
Qed.

Lemma reads_text_2d rows bs :
  matrix_ok is_str rows -> rectangular rows -> write_text_2d_body rows = Some bs ->
  reads ver read_text_2d_body bs rows.
Proof.
  intros HP Hr H. eapply reads_2d; [|exact HP|done..]. intros c bs' Hc Hw.
  eapply reads_cell; [|exact Hc|exact Hw]. intros. by apply reads_u32_str.
Qed.

Lemma reads_bool_2d rows bs :
  rectangular rows -> write_bool_2d_body rows = Some bs -> reads ver read_bool_2d_body bs rows.
Proof.
  intros Hr H. eapply (reads_2d ver (fun _ => True)); [| |done..].
  - intros c bs' _ Hw. written. by eapply reads_last; [apply reads_byte|destruct c as [[]|]].
  - apply Forall_true. intros r. by apply Forall_true.
Qed.

Lemma reads_timetz_value us off :
  i64 us -> i32 off ->
  reads ver (let* (us, off) := read_timetz in ret (V.TimeTz us off)) (le_bytes 8 us ++ le_bytes 4 off) (V.TimeTz us off).
Proof. intros. by eapply reads_last; [apply reads_timetz|]. Qed.

Lemma reads_tagged_big rd b bs :
  Forall u32 (limbs b) -> u16 (scale b) -> Z.of_nat (length (limbs b)) < 2 ^ 16 -> write_big b = bs ->
  exists tag rest, bs = tag :: rest /\ reads ver (read_tagged rd tag) rest (V.NumericBig (normalize b)).
Proof.
  intros Hl Hs Hn H. destruct (reads_big ver b bs) as (tag & rest & -> & Ht & Hr); [done..|].
  exists tag, rest. split; [done|]. by destruct Ht as [-> | ->].
Qed.

#[local] Hint Extern 1 (_ <= ver) => lia : reads.
#[local] Hint Resolve reads_bool reads_f32_vector reads_sq8 reads_half reads_bytes_escaped reads_text_array
  reads_tsvector_body reads_tsquery_body reads_hstore_body reads_text_2d reads_bool_2d reads_span_array
  reads_array reads_point : reads.

(** The read of one body, by its lemma. *)
Local Ltac one_body :=
  first
    [ apply reads_ret
    | apply reads_numeric; tauto
    | apply reads_interval; done
    | apply reads_timetz_value; tauto
    | eapply reads_last;
      [ first [ solve [eauto 3 with reads]
              | solve [eapply reads_fixed_array'; [intros; eauto 2 with reads|eassumption|eassumption]]
              | solve [eapply reads_fixed_2d; [intros; eauto 2 with reads|eassumption..]]
              | match goal with H : array _ _ |- _ => solve [apply reads_take, H] end ]
      | done ] ].

Lemma reads_value_fuel fuel v bs :
  value_ok v -> storable ver v -> write_value v = Some bs -> (length bs <= fuel)%nat ->
  reads ver (read_value_fuel fuel) bs (tagged_form v).
Proof using Hver.
  revert v bs. induction fuel as [|fuel IH]; intros v bs Hv Hs H Hf.
  { exfalso. destruct v; cbn [write_value] in H; written; try discriminate;
      try (cbn [length] in Hf; lia). unfold write_big, parts in Hf. cbn in Hf. destruct b; cbn in Hf; lia. }
  cbn [read_value_fuel].
  destruct v; cbn [value_ok storable] in Hv, Hs;
    try solve [cbn [write_value] in H; written; try discriminate H; apply reads_u8_then;
               cbn [tagged_form read_tagged]; one_body].
  - destruct Hv as [Hl Hsc]. cbn [write_value] in H. apply (inj Some) in H.
    apply (reads_tagged_big (read_value_fuel fuel)) in H as (tag & rest & -> & Hr); [|done..].
    by apply reads_u8_then.
  - apply write_range_value in H as (body & -> & H). cbn [length] in Hf. apply reads_u8_then.
    apply (reads_range_kind _ kind _ (range_form (mk_range lower upper lower_inc upper_inc empty))).
    eapply (reads_range_span _ (fun v lb => value_ok v /\ storable ver v /\ write_value v = Some lb /\ (length lb <= fuel)%nat));
      [|intros w E wb Hw Hn; cbn in E; subst; repeat split; (tauto || lia)..|exact H].
    intros w wb (? & ? & ? & ?). by apply IH.
Qed.

Lemma reads_value_any v bs :
  value_ok v -> storable ver v -> write_value v = Some bs -> reads ver read_value bs (tagged_form v).
Proof using Hver. intros. apply reads_fuel_of. intros. by apply reads_value_fuel. Qed.

(** ** With its column's type *)

Lemma reads_range_any r bs :
  range_ok ver r -> write_range_span r = Some bs -> reads ver (read_range_span read_value) bs (range_form r).
Proof using Hver.
  intros [Hl Hu] H.
  eapply (reads_range_span _ (fun v lb => value_ok v /\ storable ver v /\ write_value v = Some lb));
    [|intros w E wb Hw Hn..|exact H].
  - intros w wb (? & ? & ?). by apply reads_value_any.
  - rewrite E in Hl. cbn in Hl. tauto.
  - rewrite E in Hu. cbn in Hu. tauto.
Qed.

Lemma reads_multirange ranges bs :
  Forall (range_ok ver) ranges -> write_counted write_range_span ranges = Some bs ->
  reads ver (read_counted (read_range_span read_value)) bs (map range_form ranges).
Proof using Hver. intros HP H. eapply reads_counted; [|exact HP|exact H]. apply reads_range_any. Qed.

Lemma multirange_ok kind ranges :
  value_ok (V.Multirange kind ranges) -> storable ver (V.Multirange kind ranges) -> Forall (range_ok ver) ranges.
Proof.
  intros Hv Hs. induction ranges as [|r ranges IH]; [done|].
  cbn in Hv, Hs. destruct Hv as (Hl & Hu & Hv), Hs as (Hl' & Hu' & Hs).
  constructor; [|by apply IH]. split; [destruct (lower r)|destruct (upper r)]; cbn; tauto.
Qed.

Lemma reads_bool_array message items bs :
  write_array (fun b => raw [byte_of_bool b]) items = Some bs -> reads ver (read_array message read_bool) bs items.
Proof.
  intros H. eapply (reads_array ver (fun _ => True)); [| |exact H]; [intros; written; apply reads_bool|].
  apply Forall_true. by intros [].
Qed.

Lemma reads_fixed_vector (P : Z -> Prop) k rd items bs :
  (forall n, P n -> reads ver rd (le_bytes k n) n) ->
  Forall P items -> write_counted (le k) items = Some bs -> reads ver (read_counted rd) bs items.
Proof.
  intros Hrd HP H. rewrite <-(map_id items). eapply reads_counted; [|exact HP|exact H]. intros. written. by apply Hrd.
Qed.

Lemma reads_numeric_array items bs :
  items_ok (fun x => i128 x.1 /\ u16 x.2) items -> write_counted write_numeric_item items = Some bs ->
  reads ver (read_counted read_numeric_item) bs items.
Proof.
  intros HP H. rewrite <-(map_id items). eapply reads_counted; [|exact HP|exact H].
  intros. by apply reads_numeric_item.
Qed.

Lemma reads_uuid_array message items bs :
  items_ok (array 16) items -> write_array raw items = Some bs -> reads ver (read_array message (take 16)) bs items.
Proof. intros HP H. eapply reads_array; [|exact HP|exact H]. intros ? ? Ha ?. written. apply reads_take, Ha. Qed.

Lemma reads_timetz_array message items bs :
  items_ok (fun x => i64 x.1 /\ i32 x.2) items ->
  write_array (fun x => raw (le_bytes 8 x.1 ++ le_bytes 4 x.2)) items = Some bs ->
  reads ver (read_array message read_timetz) bs items.
Proof.
  intros HP H. eapply reads_array; [|exact HP|exact H]. intros [us off] ? [] ?. written. by apply reads_timetz.
Qed.

Lemma reads_inet_array message items bs :
  items_ok (fun x => net_ok x.1.1 x.1.2 x.2) items ->
  write_array (fun x => raw (write_net x.1.1 x.1.2 x.2)) items = Some bs ->
  reads ver (read_array message read_net) bs items.
Proof.
  intros HP H. eapply reads_array; [|exact HP|exact H]. intros [[f b] a] ? ? ?. written. by apply reads_net.
Qed.

Lemma reads_xid x : u32 x -> reads ver (let* n := read_i64 in ret (V.Xid (wrap 32 n))) (le_bytes 8 x) (V.Xid x).
Proof.
  intros H. eapply reads_last; [apply reads_i64; destruct H; split; lia|]. by rewrite wrap_id.
Qed.

Lemma reads_bits nbits bytes :
  u32 nbits -> bits_ok nbits bytes ->
  reads ver (let* nbits := read_u32 in let* bytes := take ((Z.to_nat nbits + 7) / 8) in ret (V.BitString nbits bytes))
    (le_bytes 4 nbits ++ bytes) (V.BitString nbits bytes).
Proof. intros Hn Hb. eapply reads_bind; [by apply reads_u32|]. by eapply reads_last; [apply reads_take|]. Qed.

Lemma reads_inet_value (mk : Z -> Z -> list Z -> Value) family bits addr :
  net_ok family bits addr ->
  reads ver (let* (family, bits, addr) := read_net in ret (mk family bits addr))
    (write_net family bits addr) (mk family bits addr).
Proof. intros. by eapply reads_last; [apply reads_net|]. Qed.

#[local] Hint Resolve reads_bool_array reads_numeric_array reads_uuid_array reads_timetz_array reads_inet_array
  reads_bool_then : reads.

(** Reads one after the other. *)
Local Ltac seq_body :=
  repeat (eapply reads_bind; [solve [eauto 2 with reads]|]); eapply reads_last; [solve [eauto 2 with reads]|done].

Lemma reads_vector v dim encoding bs :
  value_ok v -> storable ver v -> write_value_body v (DT.Vector dim encoding) = Some bs ->
  reads ver (read_value_body (DT.Vector dim encoding)) bs v.
Proof.
  intros Hv Hs H. destruct v; try discriminate H; destruct encoding; try discriminate H;
    (eapply reads_last; [solve [eauto 3 with reads]|done]).
Qed.

Lemma reads_path points closed bs :
  Forall point_ok points -> write_value_body (V.Path points closed) DT.Path = Some bs ->
  reads ver (read_value_body DT.Path) bs (V.Path points closed).
Proof.
  intros HP H. cbn [write_value_body] in H. apply bind_Some in H as (n & Hn & H). written.
  apply reads_bool_then. eapply reads_last; [apply (reads_points ver points); [done|by rewrite Hn]|done].
Qed.

Lemma reads_polygon points bs :
  Forall point_ok points -> write_value_body (V.Polygon points) DT.Polygon = Some bs ->
  reads ver (read_value_body DT.Polygon) bs (V.Polygon points).
Proof. intros HP H. eapply reads_last; [by apply (reads_points ver points)|done]. Qed.

Lemma reads_body v ty bs :
  value_ok v -> storable ver v -> write_value_body v ty = Some bs ->
  reads ver (read_value_body ty) bs (stored_form ty v).
Proof using Hver.
  intros Hv Hs H.
  destruct v; destruct ty; try discriminate H;
    try solve [by apply reads_vector|by apply reads_path|by apply reads_polygon];
    try (apply multirange_ok in Hs; [|exact Hv]);
    cbn [write_value_body stored_form read_value_body] in H |- *;
    cbn [value_ok storable] in Hv, Hs; written;
    try solve [one_body|apply reads_xid; done|apply reads_bits; tauto|apply reads_inet_value; done];
    try solve [repeat match goal with H : _ /\ _ |- _ => destruct H end; seq_body].
  all: eapply reads_last; [|done].
  all: try (eapply reads_fixed_vector; [|eassumption|eassumption]; intros; eauto 2 with reads).
  - by apply reads_multirange.
  - apply reads_range_any; [|done]. destruct Hv as [Hl Hu], Hs as [Hl' Hu'].
    split; simpl; [destruct lower|destruct upper]; done.
Qed.
End Values.
