(* ===== verification/RowRoundtrip.v ===== *)
(** Rows: the NULL bitmap and the cells after it are read back, wherever they
    stand and whatever follows; a column the writer was told to drop reads back
    as NULL; and what the codec versions of cold segments do to NUMERIC. *)
From S2P Require Import Prelude Bytes Text BigNum Values CodecIO CodecReads RowCodec RowCodecOk.
Open Scope Z_scope.

#[local] Arguments le_bytes : simpl never.

(** Whether the encoder marks the cell [v] at [i] as null. *)
Definition marked (needed : list bool) (i : nat) (v : Value) : bool := default false (dropped needed i) || is_null v.

(** What a row reads back as. *)
Fixpoint stored_row (needed : list bool) (i : nat) (schema : TableSchema) (row : Row) : Row :=
  match schema, row with
  | col :: schema, v :: row =>
    (if marked needed i v then V.Null else stored_form (ty col) v) :: stored_row needed (S i) schema row
  | _, _ => []
  end.

(** ** The bitmap *)

Definition bit (bitmap : list Z) (j : nat) : bool := Z.testbit (bitmap !!! (j / 8)%nat) (Z.of_nat (j mod 8)).

Definition marked_at (needed : list bool) (i : nat) (row : Row) (j : nat) : bool :=
  (i <=? j)%nat && match row !! (j - i)%nat with Some v => marked needed j v | None => false end.

Lemma bit_set bitmap i j b :
  bitmap !! (i / 8)%nat = Some b ->
  bit (<[(i / 8)%nat := Z.lor b (Z.shiftl 1 (Z.of_nat (i mod 8)))]> bitmap) j = bit bitmap j || bool_decide (j = i).
Proof.
  intros Hb. unfold bit. pose proof (lookup_lt_Some _ _ _ Hb) as Hl.
  destruct (decide (j / 8 = i / 8)%nat) as [E|E].
  - rewrite E, list_lookup_total_insert_eq by done. rewrite (list_lookup_total_correct _ _ _ Hb).
    rewrite Z.lor_spec, Z.shiftl_spec by lia. f_equal.
    destruct (decide (j = i)) as [->|Hj].
    + rewrite Z.sub_diag, bool_decide_true by done. done.
    + rewrite bool_decide_false by done.
      assert (j mod 8 <> i mod 8)%nat.
      { intros Hm. apply Hj. pose proof (Nat.div_mod_eq j 8). pose proof (Nat.div_mod_eq i 8). lia. }
      destruct (Z.lt_ge_cases (Z.of_nat (j mod 8) - Z.of_nat (i mod 8)) 0); [by rewrite Z.testbit_neg_r|].
      rewrite Z.bits_above_log2; [done|lia|change (Z.log2 1) with 0; lia].
  - rewrite list_lookup_total_insert_ne by done. rewrite bool_decide_false by (intros ->; done). by rewrite orb_false_r.
Qed.

Lemma set_null_bits_spec needed pre bitmap i row out :
  set_null_bits needed (length pre) i row (pre ++ bitmap) = Some out ->
  exists bitmap', out = pre ++ bitmap' /\ length bitmap' = length bitmap /\
    forall j, bit bitmap' j = bit bitmap j || marked_at needed i row j.
Proof.
  revert bitmap i. induction row as [|v row IH]; intros bitmap i H; cbn [set_null_bits] in H.
  { written. exists bitmap. split; [done|]. split; [done|]. intros j. unfold marked_at. rewrite lookup_nil.
    by rewrite andb_false_r, orb_false_r. }
  apply bind_Some in H as (d & Hd & H). apply bind_Some in H as (out1 & H1 & H).
  assert (Hstep : forall j, marked_at needed i (v :: row) j = bool_decide (j = i) && (d || is_null v) || marked_at needed (S i) row j).
  { intros j. unfold marked_at, marked. destruct (decide (j = i)) as [->|Hj].
    - rewrite bool_decide_true, Nat.leb_refl, Nat.sub_diag, Hd by done. rewrite (proj2 (Nat.leb_gt _ _)) by lia.
      cbn. by rewrite orb_false_r.
    - rewrite bool_decide_false by done. destruct (Nat.leb_spec i j), (Nat.leb_spec (S i) j); try (exfalso; lia); try done.
      by replace (j - i)%nat with (S (j - S i)) by lia. }
  destruct (d || is_null v).
  - unfold set_null_bit in H1. apply bind_Some in H1 as (b & Hb & H1).
    rewrite lookup_app_r in Hb by lia. replace (length pre + i / 8 - length pre)%nat with (i / 8)%nat in Hb by lia.
    rewrite vec_set_insert in H1 by (rewrite length_app; apply lookup_lt_Some in Hb; lia).
    rewrite insert_app_r in H1. written.
    apply IH in H as (bm & -> & Hl & Hbit). exists bm. split; [done|]. split; [by rewrite Hl, length_insert|].
    intros j. rewrite Hbit, (bit_set _ _ _ b), Hstep by done. by rewrite andb_true_r, orb_assoc.
  - written. apply IH in H as (bm & -> & Hl & Hbit). exists bm. split; [done|]. split; [done|].
    intros j. by rewrite Hbit, Hstep, andb_false_r.
Qed.

Lemma bit_replicate n j : (j / 8 < n)%nat -> bit (replicate n 0) j = false.
Proof. intros H. unfold bit. rewrite lookup_total_replicate_2 by done. by rewrite Z.testbit_0_l. Qed.

(** The decoder's question to its padded buffer. *)
Lemma null_bit_spec bitmap j : (j / 8 < length bitmap)%nat -> null_bit bitmap j = bit bitmap j.
Proof.
  intros H. unfold null_bit, bit. rewrite lookup_total_app_l by done.
  change 1 with (Z.ones 1) at 1. rewrite Z.land_ones by lia.
  rewrite <-Z.bit0_mod. rewrite Z.shiftr_spec by lia. rewrite Z.add_0_l. by destruct (Z.testbit _ _).
Qed.

Lemma bitmap_covers (schema : TableSchema) i : (i < length schema)%nat -> (i / 8 < bitmap_bytes schema)%nat.
Proof. intros H. unfold bitmap_bytes. apply Nat.Div0.div_lt_upper_bound. pose proof (Nat.div_mod_eq (length schema + 7) 8).
  pose proof (Nat.mod_upper_bound (length schema + 7) 8). lia.
Qed.

(** ** Encoding *)

(** The body does not depend on what is in the buffer before it. *)
Lemma encode_masked_parts row schema needed out bs :
  encode_row_body_dense_masked_into row schema needed out = Some bs ->
  exists bitmap cells, bs = out ++ bitmap ++ cells /\ length bitmap = bitmap_bytes schema /\
    write_cells schema needed 0 row = Some cells /\
    forall j, (j < length schema)%nat -> null_bit bitmap j = marked_at needed 0 row j.
Proof.
  intros H. unfold encode_row_body_dense_masked_into in H.
  apply bind_Some in H as (o & Ho & H). apply bind_Some in H as (cells & Hc & H). written.
  apply set_null_bits_spec in Ho as (bitmap & -> & Hl & Hbit). rewrite length_replicate in Hl.
  exists bitmap, cells. rewrite <-app_assoc. split; [done|]. split; [done|]. split; [done|].
  intros j Hj. apply bitmap_covers in Hj. rewrite null_bit_spec, Hbit, bit_replicate by lia. done.
Qed.

Section Version.
Context (ver : Z) (Hver : 47 <= ver).

Lemma reads_cells bitmap needed schema row i cells pre :
  length row = length schema -> i = length pre ->
  Forall value_ok row -> Forall (storable ver) row ->
  (forall j v, row !! j = Some v -> null_bit bitmap (i + j) = marked needed (i + j) v) ->
  write_cells (pre ++ schema) needed i row = Some cells ->
  reads ver (read_cells bitmap i schema) cells (stored_row needed i schema row).
Proof using Hver.
  revert row i cells pre. induction schema as [|col schema IH]; intros row i cells pre Hlen -> Hok Hst Hb H;
    destruct row as [|v row]; try discriminate Hlen; cbn [write_cells read_cells stored_row] in *.
  - written. apply reads_ret.
  - apply Forall_cons in Hok as [Hv Hok], Hst as [Hs Hst].
    apply bind_Some in H as (d & Hd & H). apply bind_Some in H as (cell & Hcell & H).
    apply bind_Some in H as (rest & Hrest & H). written.
    pose proof (Hb 0%nat v eq_refl) as Hnull. rewrite Nat.add_0_r in Hnull.
    eapply reads_bind with (x := if marked needed (length pre) v then V.Null else stored_form (ty col) v).
    + rewrite Hnull. assert (marked needed (length pre) v = d || is_null v) as -> by (unfold marked; by rewrite Hd).
      destruct (d || is_null v); [written; apply reads_ret|].
      rewrite list_lookup_middle in Hcell by done. cbn [mbind option_bind] in Hcell. by apply reads_body.
    + eapply reads_last; [|done]. apply (IH row _ _ (pre ++ [col])); [simpl in Hlen; lia|rewrite length_app; simpl; lia|done|done| |].
      * intros j w Hj. specialize (Hb (S j) w Hj). by rewrite Nat.add_succ_r in Hb.
      * by rewrite <-app_assoc.
Qed.

Lemma decode_masked row schema needed bs rest :
  length row = length schema -> (length schema <= 256)%nat ->
  Forall value_ok row -> Forall (storable ver) row ->
  encode_row_body_dense_masked_into row schema needed [] = Some bs ->
  decode_row_body_dense (bs ++ rest) schema ver = Some (Ok (stored_row needed 0 schema row, length bs)).
Proof using Hver.
  intros Hlen Hcols Hok Hst H. apply encode_masked_parts in H as (bitmap & cells & -> & Hl & Hcells & Hnull).
  unfold decode_row_body_dense, run_row.
  assert (Hr : reads ver (let* bitmap := read_bitmap schema in read_cells bitmap 0 schema) (bitmap ++ cells)
                 (stored_row needed 0 schema row)).
  { eapply reads_bind.
    - unfold read_bitmap. rewrite (proj2 (Nat.ltb_ge _ _)); [by apply reads_take|].
      unfold bitmap_bytes. apply Nat.lt_succ_r, Nat.Div0.div_lt_upper_bound. lia.
    - apply (reads_cells _ needed _ _ _ _ []); [done..| |done].
      intros j v Hj. rewrite Hnull by (rewrite <-Hlen; by eapply lookup_lt_Some).
      unfold marked_at. cbn [Nat.leb Nat.add andb]. by rewrite Nat.sub_0_r, Hj. }
  specialize (Hr [] rest). cbn [app length] in Hr. cbn [app]. rewrite Hr. done.
Qed.
End Version.

(** ** The round trip *)

(** C11: Round trip of rows.  A row of at most 256 columns that was encoded
    without a panic decodes, whatever bytes follow it, cell by cell to the
    stored form of what was written, and exactly its own bytes are consumed:
    at the codec version of a current container, and from version 47 on (the
    cold segments') if no cell holds a NUMERIC.  A row of more columns, which
    the encoder writes as readily, decodes to an error. *)
Theorem row_roundtrip ver row schema bs rest :
  47 <= ver -> length row = length schema -> Forall value_ok row -> Forall (storable ver) row ->
  encode_row_body_dense row schema = Some bs ->
  decode_row_body_dense (bs ++ rest) schema ver =
    if bool_decide (length schema <= 256)%nat then Some (Ok (stored_row [] 0 schema row, length bs))
    else Some (Err (Corrupt "row NULL bitmap exceeds 32 B cap")).
Proof.
  intros Hver Hlen Hok Hst H. case_bool_decide as Hcols.
  - by apply decode_masked.
  - unfold decode_row_body_dense, run_row, bind, read_bitmap.
    rewrite (proj2 (Nat.ltb_lt _ _)); [done|]. unfold bitmap_bytes.
    apply Nat.div_le_lower_bound; lia.
Qed.

Definition sample_schema : TableSchema :=
  [mk_column (lit "id") DT.Int false; mk_column (lit "price") (DT.Numeric 10 2) true;
   mk_column (lit "note") DT.Text true; mk_column (lit "span") (DT.Range Num) true;
   mk_column (lit "code") (DT.Char 2) true; mk_column (lit "q") DT.TsQuery true].

Definition sample_row : Row :=
  [V.Int (-5); V.Numeric 150 2 NumericKind.Finite; V.Null;
   V.Range Num (Some (V.NumericBig (mk_big true [1; 2; 3] 300))) None true false false;
   V.Text (lit "ab"); V.TsQuery (And (Term (lit "a") 0) (Not (Term (lit "b") 1)))].

Lemma row_roundtrip_witness :
  exists bs, encode_row_body_dense sample_row sample_schema = Some bs /\
    decode_row_body_dense (bs ++ [7]) sample_schema 105 =
      Some (Ok ([V.Int (-5); V.Numeric 150 2 NumericKind.Finite; V.Null;
        V.Range Num (Some (V.NumericBig (mk_big true [1; 2; 3] 300))) None true false false;
        V.BpChar (lit "ab"); V.TsQuery (And (Term (lit "a") 0) (Not (Term (lit "b") 1)))], length bs)).
Proof.
  eexists. split; [vm_compute; reflexivity|].
  refine (row_roundtrip 105 sample_row sample_schema _ [7] _ _ _ _ _); [done|done| | |vm_compute; reflexivity].
  - unfold sample_row. repeat (apply Forall_cons; split); try apply Forall_nil; cbn; by_deciding.
  - unfold sample_row. repeat (apply Forall_cons; split); try apply Forall_nil; cbn; by_deciding.
Defined.

(** ** Cold segments *)

Lemma le_bytes_snoc n w : le_bytes (S n) w = le_bytes n w ++ [(w / 2 ^ (8 * Z.of_nat n)) mod 256].
Proof.
  revert w. induction n as [|n IH]; intros w; [cbn [le_bytes app]; by rewrite Z.div_1_r|].
  change (le_bytes (S (S n)) w) with (w mod 256 :: le_bytes (S n) (w / 256)). rewrite IH.
  change (le_bytes (S n) w) with (w mod 256 :: le_bytes n (w / 256)). cbn [app]. do 3 f_equal.
  rewrite Z.div_div by lia. replace (8 * Z.of_nat (S n)) with (8 + 8 * Z.of_nat n) by lia. by rewrite Z.pow_add_r by lia.
Qed.

(** The value an older reader makes of a finite NUMERIC: its form byte is taken
    for the low byte of the mantissa, and the top byte for the scale. *)
Definition shifted (scaled : Z) : Value :=
  V.Numeric (signed 128 (256 * (scaled mod 2 ^ 120))) ((scaled / 2 ^ 120) mod 256) NumericKind.Finite.

Lemma shifted_same scaled scale :
  i128 scaled -> shifted scaled = V.Numeric scaled scale NumericKind.Finite <-> scaled = 0 /\ scale = 0.
Proof.
  intros Hs. split; [|by intros [-> ->]].
  unfold shifted. intros H. assert (Hx : signed 128 (256 * (scaled mod 2 ^ 120)) = scaled) by congruence.
  assert (Hy : (scaled / 2 ^ 120) mod 256 = scale) by congruence. clear H.
  assert (Hz : scaled = 0); [|subst scaled; by rewrite <-Hy].
  assert (Hd : (2 ^ 128 | 255 * scaled)).
  { unfold signed in Hx. pose proof (Z.div_mod scaled (2 ^ 120)).
    destruct (_ <? _); [exists (scaled / 2 ^ 120)|exists (scaled / 2 ^ 120 + 1)]; lia. }
  apply Z.gauss in Hd; [|done]. destruct Hd as [k Hk], Hs. lia.
Qed.

Lemma numeric_read_before_56 ver scaled scale :
  ver < 56 -> 0 <= scale < 256 ->
  exists rest, write_numeric scaled scale NumericKind.Finite = rest ++ [scale] /\
    reads ver read_numeric rest (shifted scaled).
Proof.
  intros Hv Hs. cbn [write_numeric]. rewrite (proj2 (Z.ltb_lt _ _)) by lia.
  exists (0 :: le_bytes 16 scaled). split; [done|]. rewrite (le_bytes_snoc 15).
  apply reads_if_version. rewrite (proj2 (Z.leb_gt _ _)) by done.
  unfold read_finite. eapply (reads_bind ver _ _ (0 :: le_bytes 15 scaled)).
  - eapply reads_last; [apply reads_take; cbn [length]; by rewrite length_le_bytes|reflexivity].
  - eapply reads_last; [apply reads_byte|]. unfold shifted. cbn [le_val]. by rewrite le_val_le_bytes.
Qed.

(** Functional behaviour of cold segments on NUMERIC.  A segment carries
    codec version 47, but its row bodies are written by the current encoder: a
    frozen row with one finite NUMERIC cell decodes without an error, one byte
    short of its body, to a value that is the frozen one exactly when that one
    is zero at scale zero. *)
Lemma cold_numeric_misread precision colscale name nullable scaled scale :
  i128 scaled -> 0 <= scale < 256 ->
  let schema := [mk_column name (DT.Numeric precision colscale) nullable] in
  exists bs v, encode_row_body_dense [V.Numeric scaled scale NumericKind.Finite] schema = Some bs /\
    decode_row_body_dense bs schema 47 = Some (Ok ([v], (length bs - 1)%nat)) /\
    (v = V.Numeric scaled scale NumericKind.Finite <-> scaled = 0 /\ scale = 0).
Proof.
  intros Hi Hs schema. destruct (numeric_read_before_56 47 scaled scale) as (body & Hb & Hr); [done|done|].
  exists (0 :: body ++ [scale]), (shifted scaled).
  split; [|split; [|by apply shifted_same]].
  - unfold encode_row_body_dense, encode_row_body_dense_into, encode_row_body_dense_masked_into.
    cbn [set_null_bits write_cells dropped mbind option_bind is_null orb schema lookup list_lookup ty write_value_body].
    unfold raw. rewrite Hb. cbn. by rewrite app_nil_r.
  - assert (Hrow : reads 47 (let* bitmap := read_bitmap schema in read_cells bitmap 0 schema) ([0] ++ body) [shifted scaled]).
    { eapply reads_bind; [by apply (reads_take 47 1 [0])|]. cbn [read_cells schema ty read_value_body].
      eapply reads_last; [exact Hr|done]. }
    unfold decode_row_body_dense, run_row. specialize (Hrow [] [scale]). cbn [app length] in Hrow.
    rewrite Hrow. cbn [obind pos length]. by rewrite length_app, Nat.add_1_r, Nat.add_0_l, Nat.sub_succ, Nat.sub_0_r.
Qed.
