(* ===== verification/RowAccept.v ===== *)
(** What [Table::insert] lets into a column and what the row encoder can write
    (crates/spg-storage/src/table.rs, codec.rs): the compatibility matrix, the
    row validator, and exactly which validated cells the encoder has no arm
    for. *)
From S2P Require Import Prelude Bytes Text BigNum Values CodecIO CodecReads RowCodec.
Open Scope Z_scope.

#[export] Instance data_type_eq_dec : EqDecision DataType.
Proof. solve_decision. Defined.

(** ** The matrix *)

Definition shape_accepts (actual declared : DataType) : bool :=
  match actual, declared with
  | DT.Text, (DT.Varchar _ | DT.Char _ | DT.Name | DT.Json | DT.Jsonb) => true
  | DT.Text, (DT.PgNodeTree | DT.AnyArray | DT.AclItemArray | DT.Char1Array | DT.RegTypeArray) => true
  | (DT.PgNodeTree | DT.AnyArray | DT.AclItemArray | DT.Char1Array | DT.RegTypeArray), DT.Text => true
  | DT.TextArray, DT.RegTypeArray => true
  | DT.RegTypeArray, DT.TextArray => true
  | DT.Text, DT.RegType => true
  | DT.Name, DT.Text => true
  | DT.BigInt, (DT.Xid | DT.Xid8) => true
  | (DT.Xid | DT.Xid8), DT.BigInt => true
  | (DT.BigInt | DT.Int | DT.SmallInt), DT.Oid => true
  | DT.Oid, (DT.BigInt | DT.Int) => true
  | (DT.BigIntArray | DT.IntArray), DT.OidArray => true
  | DT.OidArray, DT.BigIntArray => true
  | (DT.Json | DT.Jsonb), DT.Text => true
  | DT.Json, DT.Jsonb => true
  | DT.Jsonb, DT.Json => true
  | DT.Timestamp, DT.Timestamptz => true
  | DT.Timestamptz, DT.Timestamp => true
  | DT.Bit _, DT.BitVarying _ => true
  | DT.BitVarying _, DT.Bit _ => true
  | DT.Bit _, DT.Bit _ => true
  | DT.BitVarying _, DT.BitVarying _ => true
  | DT.Inet, DT.Cidr => true
  | DT.Cidr, DT.Inet => true
  | _, _ => false
  end.

Definition column_accepts (actual declared : DataType) : bool :=
  if bool_decide (actual = declared) then true
  else if shape_accepts actual declared then true
  else
    match actual, declared with
    | DT.Numeric _ a, DT.Numeric bp b => (a =? b) || ((bp =? 0) && (b =? 0)) || ((b <? 0) && (a =? 0))
    | _, _ => false
    end.

Inductive InsertError : Type :=
| NullInNotNull (column : list Z)
| TypeMismatch (column : list Z) (expected actual : DataType) (position : nat).

(** [validate_row_against_schema], from the [i]-th cell on; [insert] and
    [update] have the same loop.  The outer option is the panic of
    [data_type]. *)
Fixpoint validate_row (i : nat) (values : Row) (schema : TableSchema) : outcome () InsertError :=
  match values, schema with
  | val :: values, col :: schema =>
    if is_null val then
      if negb (nullable col) then Some (Err (NullInNotNull (column_name col)))
      else validate_row (S i) values schema
    else
      let! actual := data_type val in
      match actual with
      | None => validate_row (S i) values schema
      | Some actual =>
        if negb (column_accepts actual (ty col)) then Some (Err (TypeMismatch (column_name col) (ty col) actual i))
        else validate_row (S i) values schema
      end
  | _, _ => Some (Ok ())
  end.

Definition validate_row_against_schema (values : Row) (schema : TableSchema) : outcome () InsertError :=
  validate_row 0 values schema.

(** ** What the encoder has no arm for *)

(** Of the cells the validator lets through, those [write_value_body] answers
    with its [unreachable!]. *)
Definition no_arm (v : Value) (ty : DataType) : bool :=
  match v, ty with
  | (V.Composite _ | V.Void | V.Tid _ _ | V.Cid _ | V.RegClass _ _ | V.RegType _ _ | V.RegProc _ _), _ => true
  | V.NumericBig _, _ => true
  | V.Text _, (DT.PgNodeTree | DT.AnyArray | DT.AclItemArray | DT.Char1Array | DT.RegTypeArray | DT.RegType) => true
  | V.TextArray _, DT.RegTypeArray => true
  | V.Xid _, DT.BigInt => true
  | (V.Int _ | V.SmallInt _), DT.Oid => true
  | (V.BigIntArray _ | V.IntArray _), DT.OidArray => true
  | V.Json _, DT.Text => true
  | V.Inet _ _ _, DT.Cidr => true
  | V.Cidr _ _ _, DT.Inet => true
  | _, _ => false
  end.

(** ** Sizes the encoder's [expect]s allow *)

Definition len_lt {A} (w : Z) (l : list A) : Prop := Z.of_nat (length l) < 2 ^ w.
#[export] Instance len_lt_dec {A} w (l : list A) : Decision (len_lt w l).
Proof. unfold len_lt. apply _. Defined.

Definition str_fits (s : list Z) : Prop := len_lt 32 s.
Definition strings_fit (items : list (option (list Z))) : Prop := len_lt 16 items /\ Forall (opt_all str_fits) items.
Definition matrix_fits {A} (rows : list (list A)) : Prop := len_lt 32 rows /\ Z.of_nat (first_len rows) < 2 ^ 32.
Definition lexeme_fits (l : TsLexeme) : Prop := str_fits (word l) /\ len_lt 16 (positions l).

Fixpoint query_fits (q : TsQueryAst) : Prop :=
  match q with
  | Term word _ => str_fits word
  | And a b | Or a b | Phrase a b _ => query_fits a /\ query_fits b
  | Not x => query_fits x
  end.

(** The values with a tag of the self-describing codec. *)
Definition has_tag (v : Value) : bool :=
  match v with
  | V.BoolArray _ | V.SmallIntArray _ | V.Int2Vector _ | V.OidVector _ | V.FloatArray _ | V.NumericArray _
  | V.DateArray _ | V.TimestampArray _ | V.TimestamptzArray _ | V.UuidArray _ | V.JsonArray _ | V.JsonbArray _
  | V.BytesArray _ | V.VarcharArray _ | V.RealArray _ | V.TimeArray _ | V.TimeTzArray _ | V.InetArray _
  | V.XmlArray _ | V.CharArray _ | V.Multirange _ _ | V.Point _ | V.Lseg _ _ | V.Path _ _ | V.PgBox _ _
  | V.Polygon _ | V.Line _ _ _ | V.Circle _ _ | V.Inet _ _ _ | V.Cidr _ _ _ | V.Macaddr _ | V.Macaddr8 _
  | V.PgLsn _ | V.BitString _ _ | V.Xml _ | V.Char1 _ | V.MoneyArray _ => false
  | _ => true
  end.

Fixpoint fits (v : Value) : Prop :=
  match v with
  | V.Text s | V.Json s | V.BpChar s | V.Xml s | V.Bytes s => str_fits s
  | V.Vector v => len_lt 32 v
  | V.Sq8Vector q => len_lt 32 (sq8_bytes q)
  | V.HalfVector h => Z.of_nat (half_dim h) < 2 ^ 32
  | V.TextArray items | V.JsonArray items | V.JsonbArray items | V.VarcharArray items | V.CharArray items
  | V.XmlArray items | V.BytesArray items => strings_fit items
  | V.IntArray items | V.BigIntArray items | V.SmallIntArray items | V.FloatArray items | V.DateArray items
  | V.TimestampArray items | V.TimestamptzArray items | V.RealArray items | V.TimeArray items
  | V.MoneyArray items => len_lt 16 items
  | V.IntervalArray items => len_lt 16 items
  | V.BoolArray items => len_lt 16 items
  | V.NumericArray items | V.TimeTzArray items => len_lt 16 items
  | V.InetArray items => len_lt 16 items
  | V.UuidArray items => len_lt 16 items
  | V.Int2Vector items | V.OidVector items => len_lt 16 items
  | V.Path points _ | V.Polygon points => len_lt 32 points
  | V.TsVector lexs => len_lt 16 lexs /\ Forall lexeme_fits lexs
  | V.TsQuery ast => query_fits ast
  | V.Hstore pairs => len_lt 32 pairs /\ Forall (fun kv => str_fits kv.1 /\ opt_all str_fits kv.2) pairs
  | V.IntArray2D rows | V.BigIntArray2D rows => matrix_fits rows
  | V.BoolArray2D rows => matrix_fits rows
  | V.TextArray2D rows => matrix_fits rows /\ Forall (Forall (opt_all str_fits)) rows
  | V.Range _ lower upper _ _ _ =>
      match lower with Some v => has_tag v = true /\ fits v | None => True end /\
      match upper with Some v => has_tag v = true /\ fits v | None => True end
  | V.Multirange _ ranges =>
      len_lt 16 ranges /\
      (fix go rs := match rs with
        | [] => True
        | r :: rs =>
            match lower r with Some v => has_tag v = true /\ fits v | None => True end /\
            match upper r with Some v => has_tag v = true /\ fits v | None => True end /\ go rs
        end) ranges
  | _ => True
  end.

(** ** Within those sizes no writer panics *)

Lemma u16_fits {A} (l : list A) : len_lt 16 l -> u16_try_from (length l) = Some (Z.of_nat (length l)).
Proof. intros H. unfold u16_try_from. by rewrite (proj2 (Z.ltb_lt _ _)). Qed.

Lemma u32_fits n : Z.of_nat n < 2 ^ 32 -> u32_try_from n = Some (Z.of_nat n).
Proof. intros H. unfold u32_try_from. by rewrite (proj2 (Z.ltb_lt _ _)). Qed.

Lemma escaped_fits s : str_fits s -> is_Some (write_bytes_escaped s).
Proof. intros H. unfold write_bytes_escaped. case_if; [|done]. rewrite u32_fits by done. done. Qed.

Lemma u32_str_fits s : str_fits s -> is_Some (write_u32_str s).
Proof. intros H. unfold write_u32_str. by rewrite u32_fits. Qed.

Lemma each_fits {A} (wr : A -> option (list Z)) (P : A -> Prop) items :
  (forall x, P x -> is_Some (wr x)) -> Forall P items -> is_Some (write_each wr items).
Proof.
  intros Hw. induction 1 as [|x items Hx HP IH]; [done|]. cbn [write_each].
  destruct (Hw x Hx) as [a ->], IH as [b ->]. done.
Qed.

Lemma counted_fits {A} (wr : A -> option (list Z)) (P : A -> Prop) items :
  (forall x, P x -> is_Some (wr x)) -> len_lt 16 items -> Forall P items -> is_Some (write_counted wr items).
Proof.
  intros Hw Hn HP. unfold write_counted. rewrite u16_fits by done.
  destruct (each_fits wr P items) as [b Hb]; [done..|]. cbn [mbind option_bind]. by rewrite Hb.
Qed.

Lemma item_fits {A} (wr : A -> option (list Z)) (P : A -> Prop) item :
  (forall x, P x -> is_Some (wr x)) -> opt_all P item -> is_Some (write_item wr item).
Proof. intros Hw. destruct item as [x|]; [|done]. intros Hx. destruct (Hw x Hx) as [a Ha]. cbn. by rewrite Ha. Qed.

Lemma array_fits {A} (wr : A -> option (list Z)) items :
  (forall x, is_Some (wr x)) -> len_lt 16 items -> is_Some (write_array wr items).
Proof.
  intros Hw Hn. apply (counted_fits _ (fun _ => True)); [|done|by apply Forall_true].
  intros x _. apply (item_fits _ (fun _ => True)); [auto|by destruct x].
Qed.

Lemma strings_array_fits items : strings_fit items -> is_Some (write_array write_bytes_escaped items).
Proof.
  intros [Hn HP]. eapply counted_fits; [|done|exact HP]. intros x. apply item_fits, escaped_fits.
Qed.

Lemma matrix_written {A} (wr : A -> option (list Z)) (P : A -> Prop) rows :
  (forall x, P x -> is_Some (wr x)) -> matrix_fits rows -> Forall (Forall P) rows -> is_Some (write_2d wr rows).
Proof.
  intros Hw [Hr Hc] HP. unfold write_2d. rewrite !u32_fits by done. cbn [mbind option_bind].
  destruct (each_fits (write_each wr) (Forall P) rows) as [b Hb]; [|done|by rewrite Hb].
  intros r. by apply each_fits.
Qed.

Lemma matrix_fixed k rows : matrix_fits rows -> is_Some (write_2d (write_item (fun n => Some (le_bytes k n))) rows).
Proof.
  intros H. apply (matrix_written _ (fun _ => True)); [|done|].
  - by intros [] _.
  - apply Forall_true. intros r. by apply Forall_true.
Qed.

Lemma tsvector_fits lexs : len_lt 16 lexs -> Forall lexeme_fits lexs -> is_Some (write_tsvector_body lexs).
Proof.
  intros Hn HP. apply (counted_fits _ lexeme_fits); [|done..]. intros l [Hw Hp].
  unfold write_lexeme. destruct (escaped_fits _ Hw) as [b ->]. cbn [mbind option_bind]. by rewrite u16_fits.
Qed.

Lemma tsquery_fits q : query_fits q -> is_Some (write_tsquery_body q).
Proof.
  induction q as [w m|a IHa b IHb|a IHa b IHb|x IHx|a IHa b IHb d]; cbn [query_fits write_tsquery_body].
  - intros H. by destruct (escaped_fits _ H) as [bs ->].
  - intros [Ha Hb]. by destruct (IHa Ha) as [x ->], (IHb Hb) as [y ->].
  - intros [Ha Hb]. by destruct (IHa Ha) as [x ->], (IHb Hb) as [y ->].
  - intros H. by destruct (IHx H) as [y ->].
  - intros [Ha Hb]. by destruct (IHa Ha) as [x ->], (IHb Hb) as [y ->].
Qed.

Lemma hstore_fits pairs :
  len_lt 32 pairs -> Forall (fun kv => str_fits kv.1 /\ opt_all str_fits kv.2) pairs -> is_Some (write_hstore_body pairs).
Proof.
  intros Hn HP. unfold write_hstore_body. rewrite u32_fits by done. cbn [mbind option_bind].
  destruct (each_fits write_hstore_pair (fun kv => str_fits kv.1 /\ opt_all str_fits kv.2) pairs) as [b ->]; [|done..].
  intros [k [v|]] [Hk Hv]; unfold write_hstore_pair; cbn [fst snd opt_all] in *;
    destruct (u32_str_fits k Hk) as [x ->]; cbn [mbind option_bind]; [|done].
  by destruct (u32_str_fits v Hv) as [y ->].
Qed.

Lemma text_2d_fits rows :
  matrix_fits rows -> Forall (Forall (opt_all str_fits)) rows -> is_Some (write_text_2d_body rows).
Proof. intros Hm HP. eapply matrix_written; [|done|exact HP]. intros x. apply item_fits, u32_str_fits. Qed.

Lemma bool_2d_fits rows : matrix_fits rows -> is_Some (write_bool_2d_body rows).
Proof.
  intros Hm. apply (matrix_written _ (fun _ => True)); [by intros|done|].
  apply Forall_true. intros r. by apply Forall_true.
Qed.

Lemma sized_fits (v : list Z) : len_lt 32 v -> is_Some (write_f32_vector v).
Proof. intros H. unfold write_f32_vector. by rewrite u32_fits. Qed.

Lemma sq8_fits q : len_lt 32 (sq8_bytes q) -> is_Some (write_sq8 q).
Proof. intros H. unfold write_sq8. by rewrite u32_fits. Qed.

Lemma half_fits h : Z.of_nat (half_dim h) < 2 ^ 32 -> is_Some (write_half h).
Proof. intros H. unfold write_half. by rewrite u32_fits. Qed.

Lemma some_map (m : option (list Z)) (f : list Z -> list Z) : is_Some m -> is_Some (let! x := m in Some (f x)).
Proof. by intros [x ->]. Qed.

Create HintDb fits.
#[export] Hint Resolve escaped_fits u32_str_fits strings_array_fits tsvector_fits tsquery_fits hstore_fits text_2d_fits
  bool_2d_fits sized_fits sq8_fits half_fits matrix_fixed array_fits : fits.
#[export] Hint Extern 1 (is_Some (Some _)) => done : fits.

Lemma value_fits : forall v, has_tag v = true -> fits v -> is_Some (write_value v).
Proof.
  fix IH 1. intros v Ht H.
  destruct v; try discriminate Ht; cbn [fits] in H; cbn [write_value]; try done;
    try solve [apply some_map; eauto 3 with fits];
    try solve [apply some_map; destruct H; eauto 3 with fits].
  destruct H as [Hl Hu].
  assert (is_Some match lower with Some l => write_value l | None => Some [] end) as [x ->].
  { destruct lower as [l|]; [|done]. destruct Hl as [Htl Hl]. exact (IH l Htl Hl). }
  assert (is_Some match upper with Some u => write_value u | None => Some [] end) as [y ->]; [|done].
  destruct upper as [u|]; [|done]. destruct Hu as [Htu Hu]. exact (IH u Htu Hu).
Qed.

(** *** And where they do not fit, a writer panics *)

Lemma u16_inv {A} (l : list A) : is_Some (u16_try_from (length l)) -> len_lt 16 l.
Proof. unfold u16_try_from. destruct (_ <? _) eqn:E; [by apply Z.ltb_lt in E|by intros []]. Qed.

Lemma u32_inv n : is_Some (u32_try_from n) -> Z.of_nat n < 2 ^ 32.
Proof. unfold u32_try_from. destruct (_ <? _) eqn:E; [by apply Z.ltb_lt in E|by intros []]. Qed.

Lemma bind_some {A B} (m : option A) (f : A -> option B) : is_Some (let! x := m in f x) -> exists x, m = Some x /\ is_Some (f x).
Proof. destruct m as [x|]; cbn; [by exists x|by intros []]. Qed.

Lemma escaped_inv s : is_Some (write_bytes_escaped s) -> str_fits s.
Proof.
  unfold write_bytes_escaped, str_fits, len_lt. case_if.
  - intros (x & Hx & _)%bind_some. apply u32_inv. by eexists.
  - intros _. unfold STR_LEN_ESCAPE in *. lia.
Qed.

Lemma u32_str_inv s : is_Some (write_u32_str s) -> str_fits s.
Proof. intros (x & Hx & _)%bind_some. apply u32_inv. by eexists. Qed.

Lemma each_inv {A} (wr : A -> option (list Z)) (P : A -> Prop) items :
  (forall x, is_Some (wr x) -> P x) -> is_Some (write_each wr items) -> Forall P items.
Proof.
  intros Hw. induction items as [|x items IH]; [constructor|]. cbn [write_each].
  intros (a & Ha & (b & Hb & _)%bind_some)%bind_some. constructor; [apply Hw; by eexists|apply IH; by eexists].
Qed.

Lemma counted_inv {A} (wr : A -> option (list Z)) (P : A -> Prop) items :
  (forall x, is_Some (wr x) -> P x) -> is_Some (write_counted wr items) -> len_lt 16 items /\ Forall P items.
Proof.
  intros Hw (n & Hn & (b & Hb & _)%bind_some)%bind_some. split; [apply u16_inv; by eexists|].
  eapply each_inv; [exact Hw|by eexists].
Qed.

Lemma item_inv {A} (wr : A -> option (list Z)) (P : A -> Prop) item :
  (forall x, is_Some (wr x) -> P x) -> is_Some (write_item wr item) -> opt_all P item.
Proof. intros Hw. destruct item as [x|]; [|done]. intros (a & Ha & _)%bind_some. apply Hw. by eexists. Qed.

Lemma array_inv {A} (wr : A -> option (list Z)) items : is_Some (write_array wr items) -> len_lt 16 items.
Proof. intros H. by apply (counted_inv _ (fun _ => True)) in H as [? _]. Qed.

Lemma strings_inv items : is_Some (write_array write_bytes_escaped items) -> strings_fit items.
Proof. apply counted_inv. intros x. apply item_inv, escaped_inv. Qed.

Lemma matrix_inv {A} (wr : A -> option (list Z)) (P : A -> Prop) rows :
  (forall x, is_Some (wr x) -> P x) -> is_Some (write_2d wr rows) -> matrix_fits rows /\ Forall (Forall P) rows.
Proof.
  intros Hw (n & Hn & (m & Hm & (b & Hb & _)%bind_some)%bind_some)%bind_some.
  split; [split; apply u32_inv; by eexists|]. eapply each_inv; [|by eexists]. intros r. by apply each_inv.
Qed.

Lemma tsvector_inv lexs : is_Some (write_tsvector_body lexs) -> len_lt 16 lexs /\ Forall lexeme_fits lexs.
Proof.
  apply counted_inv. intros l (a & Ha & (n & Hn & _)%bind_some)%bind_some. split; [apply escaped_inv|apply u16_inv]; by eexists.
Qed.

Lemma tsquery_inv q : is_Some (write_tsquery_body q) -> query_fits q.
Proof.
  induction q as [w m|a IHa b IHb|a IHa b IHb|x IHx|a IHa b IHb d]; cbn [query_fits write_tsquery_body].
  1, 4: intros (y & Hy & _)%bind_some; (apply escaped_inv || apply IHx); by eexists.
  all: intros (y & Hy & (z & Hz & _)%bind_some)%bind_some; split; [apply IHa|apply IHb]; by eexists.
Qed.

Lemma hstore_inv pairs :
  is_Some (write_hstore_body pairs) -> len_lt 32 pairs /\ Forall (fun kv => str_fits kv.1 /\ opt_all str_fits kv.2) pairs.
Proof.
  intros (n & Hn & (b & Hb & _)%bind_some)%bind_some. split; [apply u32_inv; by eexists|]. eapply each_inv; [|by eexists].
  intros [k v] (x & Hx & Hv)%bind_some. split; [apply u32_str_inv; by eexists|]. cbn [fst snd] in *.
  destruct v as [v|]; [|done]. apply bind_some in Hv as (y & Hy & _). apply u32_str_inv. by eexists.
Qed.

Lemma text_2d_inv rows : is_Some (write_text_2d_body rows) -> matrix_fits rows /\ Forall (Forall (opt_all str_fits)) rows.
Proof. apply matrix_inv. intros x. apply item_inv, u32_str_inv. Qed.

Lemma dims_inv {A} (wr : A -> option (list Z)) rows : is_Some (write_2d wr rows) -> matrix_fits rows.
Proof. intros H. by apply (matrix_inv _ (fun _ => True)) in H as [? _]. Qed.

Lemma sized_inv {A} (l : list A) (f : Z -> list Z) : is_Some (let! n := u32_try_from (length l) in Some (f n)) -> len_lt 32 l.
Proof. intros (n & Hn & _)%bind_some. apply u32_inv. by eexists. Qed.

Lemma vector_inv v : is_Some (write_f32_vector v) -> len_lt 32 v.
Proof. apply sized_inv. Qed.

Lemma sq8_inv q : is_Some (write_sq8 q) -> len_lt 32 (sq8_bytes q).
Proof. apply sized_inv. Qed.

Lemma half_inv h : is_Some (write_half h) -> Z.of_nat (half_dim h) < 2 ^ 32.
Proof. intros (n & Hn & _)%bind_some. apply u32_inv. by eexists. Qed.

Lemma some_map_inv (m : option (list Z)) (f : list Z -> list Z) : is_Some (let! x := m in Some (f x)) -> is_Some m.
Proof. intros (x & Hx & _)%bind_some. by eexists. Qed.

Create HintDb fits_inv.
#[export] Hint Resolve escaped_inv strings_inv array_inv tsvector_inv tsquery_inv hstore_inv text_2d_inv dims_inv vector_inv sq8_inv half_inv sized_inv : fits_inv.

Definition bound_fits (b : option Value) : Prop := match b with Some v => has_tag v = true /\ fits v | None => True end.

Lemma value_inv : forall v, is_Some (write_value v) -> has_tag v = true /\ fits v.
Proof.
  fix IH 1. intros v H. destruct v; cbn [write_value] in H; cbn [has_tag fits];
    try (by destruct H); (split; [reflexivity|]); try exact I;
    try solve [apply some_map_inv in H; eauto 2 with fits_inv].
  apply bind_some in H as (x & Hx & (y & Hy & _)%bind_some). split.
  - destruct lower as [l|]; [|exact I]. apply IH. by eexists.
  - destruct upper as [u|]; [|exact I]. apply IH. by eexists.
Qed.

Lemma bounds_inv lower upper : is_Some (write_bounds lower upper) -> bound_fits lower /\ bound_fits upper.
Proof.
  intros (x & Hx & (y & Hy & _)%bind_some)%bind_some.
  split; [destruct lower|destruct upper]; try exact I; apply value_inv; by eexists.
Qed.

Lemma span_inv r : is_Some (write_range_span r) -> bound_fits (lower r) /\ bound_fits (upper r).
Proof. intros H%some_map_inv. by apply bounds_inv. Qed.

Lemma multirange_inv kind ranges : is_Some (write_counted write_range_span ranges) -> fits (V.Multirange kind ranges).
Proof.
  intros [Hn H]%(counted_inv _ (fun r => bound_fits (lower r) /\ bound_fits (upper r)) _ span_inv). split; [done|]. clear Hn.
  induction H as [|r ranges [Hl Hu] _ IH]; [exact I|]. by split_and!.
Qed.

(** ** Validated cells *)

Lemma column_accepts_cases t ty :
  column_accepts t ty = true ->
  t = ty \/ shape_accepts t ty = true \/ exists p a bp b, t = DT.Numeric p a /\ ty = DT.Numeric bp b.
Proof.
  unfold column_accepts. case_bool_decide; [auto|]. destruct (shape_accepts t ty); [auto|].
  destruct t, ty; try discriminate. intros _. right. right. by repeat eexists.
Qed.

Lemma bound_written (b : option Value) :
  match b with Some v => has_tag v = true /\ fits v | None => True end ->
  is_Some match b with Some v => write_value v | None => Some [] end.
Proof. destruct b as [v|]; [|done]. intros [Ht Hf]. by apply value_fits. Qed.

Lemma span_written (r : RangeSpan Value) :
  match lower r with Some v => has_tag v = true /\ fits v | None => True end ->
  match upper r with Some v => has_tag v = true /\ fits v | None => True end ->
  is_Some (write_range_span r).
Proof.
  intros Hl Hu. unfold write_range_span, write_bounds.
  destruct (bound_written _ Hl) as [x ->], (bound_written _ Hu) as [y ->]. done.
Qed.

Lemma multirange_written kind ranges : fits (V.Multirange kind ranges) -> is_Some (write_counted write_range_span ranges).
Proof.
  intros [Hn HP]. apply (counted_fits _ (fun r =>
    match lower r with Some v => has_tag v = true /\ fits v | None => True end /\
    match upper r with Some v => has_tag v = true /\ fits v | None => True end)); [|done|].
  - intros r [Hl Hu]. by apply span_written.
  - clear Hn. induction ranges as [|r ranges IH]; [done|]. destruct HP as (Hl & Hu & HP). auto.
Qed.

Lemma points_written (points : list Point2D) f :
  len_lt 32 points -> is_Some (let! count := u32_try_from (length points) in Some (f count : list Z)).
Proof. intros H. by rewrite u32_fits. Qed.

#[export] Hint Resolve points_written : fits.

Lemma vector_written (items : list Z) k : len_lt 16 items -> is_Some (write_counted (le k) items).
Proof. intros H. apply (counted_fits _ (fun _ => True)); [done|done|]. by apply Forall_true. Qed.

Lemma numeric_array_written items : len_lt 16 items -> is_Some (write_counted write_numeric_item items).
Proof.
  intros H. apply (counted_fits _ (fun _ => True)); [by intros [[]|]|done|]. by apply Forall_true.
Qed.

#[export] Hint Resolve vector_written numeric_array_written : fits.

(** A value in a column of the very type it reports. *)
Lemma own_type_written v ty :
  data_type v = Some (Some ty) -> fits v ->
  if no_arm v ty then write_value_body v ty = None else is_Some (write_value_body v ty).
Proof.
  intros Ht H. destruct v; cbn [data_type] in Ht; try (apply bind_Some in Ht as (dim & _ & Ht));
    repeat apply (inj Some) in Ht; try discriminate Ht; subst ty; cbn [fits] in H;
    cbn [no_arm write_value_body]; try done; try solve [eauto 3 with fits];
    try solve [destruct H; eauto 3 with fits].
  - exact (multirange_written kind ranges H).
  - destruct H as [Hl Hu]. by apply span_written.
Qed.

(** A value in a column of another type that the matrix lets it into. *)
Lemma shape_written v t ty :
  data_type v = Some (Some t) -> shape_accepts t ty = true -> fits v ->
  if no_arm v ty then write_value_body v ty = None else is_Some (write_value_body v ty).
Proof.
  intros Ht Ha H. destruct v; cbn [data_type] in Ht; try (apply bind_Some in Ht as (dim & _ & Ht));
    repeat apply (inj Some) in Ht; try discriminate Ht; subst t; try discriminate Ha;
    destruct ty; try discriminate Ha; cbn [fits] in H; cbn [no_arm write_value_body]; try done;
    eauto 3 with fits.
Qed.

Lemma accepted_written v t ty :
  data_type v = Some (Some t) -> column_accepts t ty = true -> fits v ->
  if no_arm v ty then write_value_body v ty = None else is_Some (write_value_body v ty).
Proof.
  intros Ht Ha H. apply column_accepts_cases in Ha as [-> | [Ha | (p & a & bp & b & -> & ->)]].
  - by apply own_type_written.
  - by eapply shape_written.
  - destruct v; cbn [data_type] in Ht; try (apply bind_Some in Ht as (dim & _ & Ht));
      repeat apply (inj Some) in Ht; try discriminate Ht; cbn [no_arm write_value_body]; by unfold raw.
Qed.

(** What is written fits, and has an arm. *)
Lemma numeric_array_inv items : is_Some (write_counted write_numeric_item items) -> len_lt 16 items.
Proof. intros H. by apply (counted_inv _ (fun _ => True)) in H as [? _]. Qed.
Lemma plain_counted_inv (items : list Z) k : is_Some (write_counted (le k) items) -> len_lt 16 items.
Proof. intros H. by apply (counted_inv _ (fun _ => True)) in H as [? _]. Qed.
#[export] Hint Resolve numeric_array_inv plain_counted_inv : fits_inv.

Lemma body_inv v ty : is_Some (write_value_body v ty) -> fits v.
Proof.
  intros H. destruct v; try exact I; destruct ty; cbn [write_value_body] in H; try (by destruct H); try exact (multirange_inv _ _ H);
    try (destruct encoding; try (by destruct H)); cbn [fits];
    try solve [eauto 2 with fits_inv]; try solve [apply bind_some in H as (count & Hc & _); apply u32_inv; by eexists].
  by apply span_inv in H.
Qed.

Lemma no_arm_none v ty : no_arm v ty = true -> write_value_body v ty = None.
Proof. destruct v; try done; destruct ty; done. Qed.

(** Every validated cell that is not null is one of those. *)
Lemma validate_row_cells i values schema :
  validate_row i values schema = Some (Ok ()) -> length values = length schema ->
  Forall2 (fun v col => is_null v = true \/
    exists actual, data_type v = Some actual /\ opt_all (fun t => column_accepts t (ty col) = true) actual) values schema.
Proof.
  revert i schema. induction values as [|v values IH]; intros i [|col schema] H Hlen; try discriminate Hlen; [done|].
  cbn [validate_row] in H. simpl in Hlen. destruct (is_null v) eqn:Hn.
  - destruct (negb (nullable col)); [done|]. constructor; [auto|]. apply (IH (S i)); [done|lia].
  - apply bind_Some in H as (actual & Ha & H). constructor.
    + right. exists actual. split; [done|]. destruct actual as [t|]; [|done]. cbn.
      by destruct (column_accepts t (ty col)).
    + destruct actual as [t|]; [destruct (negb (column_accepts t (ty col))); [done|]|]; (apply (IH (S i)); [done|lia]).
Qed.

Lemma untyped_no_arm v ty : data_type v = Some None -> is_null v = false -> no_arm v ty = true /\ write_value_body v ty = None.
Proof.
  intros Ht Hn. destruct v; cbn [data_type] in Ht; try (apply bind_Some in Ht as (dim & _ & Ht));
    apply (inj Some) in Ht; try discriminate; done.
Qed.

Lemma cell_written v col :
  is_null v = true \/
    (exists actual, data_type v = Some actual /\ opt_all (fun t => column_accepts t (ty col) = true) actual) ->
  is_null v = false ->
  is_Some (write_value_body v (ty col)) <-> no_arm v (ty col) = false /\ fits v.
Proof.
  intros [Hn|(actual & Ht & Ha)] Hn'; [congruence|]. split.
  - intros H. split; [|by eapply body_inv]. apply not_true_iff_false. intros Hno. rewrite (no_arm_none _ _ Hno) in H. by destruct H.
  - intros [Hno H]. destruct actual as [t|].
    + pose proof (accepted_written v t (ty col) Ht Ha H) as Hw. by rewrite Hno in Hw.
    + destruct (untyped_no_arm v (ty col) Ht Hn') as [Hno' _]. congruence.
Qed.

(** The cells of a row the encoder has an arm for and room for. *)
Definition encodable (v : Value) (col : ColumnSchema) : Prop := is_null v = true \/ (no_arm v (ty col) = false /\ fits v).

Lemma write_cells_accepted pre schema row i :
  i = length pre ->
  Forall2 (fun v col => is_null v = true \/
    exists actual, data_type v = Some actual /\ opt_all (fun t => column_accepts t (ty col) = true) actual) row schema ->
  is_Some (write_cells (pre ++ schema) [] i row) <-> Forall2 encodable row schema.
Proof.
  intros Hi HF. revert pre i Hi. induction HF as [|v col row schema Hc HF IH]; intros pre i ->; [by split|].
  cbn [write_cells dropped mbind option_bind orb].
  specialize (IH (pre ++ [col]) (S (length pre))). rewrite <-app_assoc in IH.
  specialize (IH ltac:(rewrite length_app; simpl; lia)). cbn [app] in IH.
  pose proof (cell_written v col Hc) as Hw. clear Hc.
  rewrite Forall2_cons, <-IH. unfold encodable. destruct (is_null v) eqn:Hn.
  - destruct (write_cells _ [] _ row); cbn; split; [by split; [left|]|by intros []|by intros []|by intros [_ []]].
  - rewrite list_lookup_middle by done. cbn [mbind option_bind]. specialize (Hw eq_refl).
    split.
    + intros (cell & Hcell & (cells & Hcells & _)%bind_some)%bind_some. split; [right; apply Hw; by eexists|by eexists].
    + intros [[?|[cell ->]%Hw] [cells ->]]; done.
Qed.

Lemma set_null_bits_some offset i row out :
  (forall j, (j < length row)%nat -> (offset + (i + j) / 8 < length out)%nat) ->
  is_Some (set_null_bits [] offset i row out).
Proof.
  revert i out. induction row as [|v row IH]; intros i out H; [done|].
  cbn [set_null_bits dropped mbind option_bind orb].
  assert (Hr : forall j, (j < length row)%nat -> (offset + (S i + j) / 8 < length out)%nat).
  { intros j Hj. specialize (H (S j)). simpl in H. rewrite Nat.add_succ_r in H. apply H. lia. }
  destruct (is_null v); cbn [mbind option_bind]; [|by apply IH].
  unfold set_null_bit. specialize (H 0%nat ltac:(simpl; lia)). rewrite Nat.add_0_r in H.
  destruct (lookup_lt_is_Some_2 out (offset + i / 8)%nat H) as [b ->]. cbn [mbind option_bind].
  rewrite vec_set_insert by done. cbn [mbind option_bind]. apply IH. intros j Hj. rewrite length_insert. by apply Hr.
Qed.

(** C12: Safety of the row encoder behind the row validator.  A row that
    [validate_row_against_schema] lets through is encoded without a panic exactly
    when each cell is NULL or is neither too large for its length field ([fits])
    nor one of [no_arm]: an arbitrary-precision NUMERIC, an [oid[]] cell, an
    integer in an [oid] column, [inet] in [cidr] and back, JSON in TEXT, an [xid]
    in [bigint], the text of the catalogs' own types, and the transient values. *)
Theorem validated_row_encodes row schema :
  validate_row_against_schema row schema = Some (Ok ()) -> length row = length schema ->
  is_Some (encode_row_body_dense row schema) <-> Forall2 encodable row schema.
Proof.
  intros Hval Hlen. unfold encode_row_body_dense, encode_row_body_dense_into, encode_row_body_dense_masked_into.
  destruct (set_null_bits_some 0 0 row ([] ++ replicate (bitmap_bytes schema) 0)) as [out Hout].
  { intros j Hj. cbn [app]. rewrite length_replicate. rewrite Hlen in Hj. unfold bitmap_bytes.
    apply Nat.Div0.div_lt_upper_bound. pose proof (Nat.div_mod_eq (length schema + 7) 8).
    pose proof (Nat.mod_upper_bound (length schema + 7) 8). lia. }
  rewrite <-(write_cells_accepted [] schema row 0 eq_refl (validate_row_cells 0 row schema Hval Hlen)).
  cbn [length app] in *. rewrite Hout. cbn [mbind option_bind].
  destruct (write_cells schema [] 0 row); cbn; split; [done|done|by intros []|by intros []].
Qed.

(** A [numeric] and an [oid[]] column, with a mantissa past [i128] and a plain array. *)
Lemma validated_row_encodes_witness :
  let schema := [mk_column (lit "n") (DT.Numeric 0 0) true; mk_column (lit "o") DT.OidArray true] in
  let row := [V.NumericBig (mk_big false [1; 2; 3; 4; 5; 6] 0); V.BigIntArray [Some 42]] in
  is_Some (encode_row_body_dense row schema) <-> Forall2 encodable row schema.
Proof. intros schema row. apply validated_row_encodes; [vm_compute; reflexivity|done]. Defined.

(** An array of 65536 elements passes the validator and has no encoding. *)
Lemma long_array_stuck items :
  65536 <= Z.of_nat (length items) ->
  let schema := [mk_column (lit "a") DT.IntArray true] in
  validate_row_against_schema [V.IntArray items] schema = Some (Ok ()) /\ encode_row_body_dense [V.IntArray items] schema = None.
Proof.
  intros Hn schema. assert (validate_row_against_schema [V.IntArray items] schema = Some (Ok ())) as Hv by done. split; [done|].
  apply eq_None_not_Some. intros He. unfold encode_row_body_dense, encode_row_body_dense_into, encode_row_body_dense_masked_into in He.
  cbn in He. unfold write_array, write_counted, u16_try_from in He.
  destruct (Z.ltb_spec (Z.of_nat (length items)) (2 ^ 16)) as [H|_]; [lia|]. cbn in He. by destruct He.
Qed.

(** Both cells are ones the engine's coercion lets through (conversions.rs), and
    the checkpoint that encodes them panics. *)
Lemma validated_row_stuck :
  let schema := [mk_column (lit "n") (DT.Numeric 0 0) true; mk_column (lit "o") DT.OidArray true] in
  forall row, In row [[V.NumericBig (mk_big false [1; 2; 3; 4; 5; 6] 0); V.Null]; [V.Null; V.BigIntArray [Some 42]]] ->
  validate_row_against_schema row schema = Some (Ok ()) /\ encode_row_body_dense row schema = None.
Proof. intros schema row [<-|[<-|[]]]; by split. Qed.
