(* ===== verification/RowDecode.v ===== *)
(** Decoding any bytes: every reader of the row codec ends, stops inside its
    buffer and yields a value of its Rust type; and the pruned decoder agrees
    with the full one on the columns it keeps. *)
From S2P Require Import Prelude Bytes Text BigNum Values CodecIO CodecReads RowCodec RowCodecOk RowRoundtrip.
Open Scope Z_scope.

#[local] Arguments le_bytes : simpl never.
#[local] Arguments le_val : simpl never.

(** [rd] ends on every cursor with at most [n] bytes left; what it yields is a
    [P], and its cursor has only moved forward, inside the buffer. *)
Definition safe {A} (n : nat) (P : A -> Prop) (rd : Read A) : Prop :=
  forall cur, is_bytes (buf cur) -> (pos cur <= length (buf cur) <= pos cur + n)%nat ->
  match rd cur with
  | None => False
  | Some (Err _) => True
  | Some (Ok (x, cur')) =>
    P x /\ buf cur' = buf cur /\ codec_version cur' = codec_version cur /\
    (pos cur <= pos cur' <= length (buf cur))%nat
  end.

Lemma safe_mono {A} n n' (P Q : A -> Prop) rd :
  safe n P rd -> (n' <= n)%nat -> (forall x, P x -> Q x) -> safe n' Q rd.
Proof.
  intros H Hn HPQ cur Hb Hp. specialize (H cur Hb ltac:(lia)).
  destruct (rd cur) as [[[x cur']|]|]; [|done|done]. destruct H as (HP & H). auto.
Qed.

Lemma safe_ret {A} n (P : A -> Prop) x : P x -> safe n P (ret x).
Proof. intros H cur _ Hp. split; [done|]. split; [done|]. split; [done|]. lia. Qed.

Lemma safe_corrupt {A} n (P : A -> Prop) message : safe n P (corrupt message).
Proof. intros cur _ _. done. Qed.

Lemma safe_bind {A B} n (P : A -> Prop) (Q : B -> Prop) m k :
  safe n P m -> (forall x, P x -> safe n Q (k x)) -> safe n Q (bind m k).
Proof.
  intros Hm Hk cur Hb Hp. specialize (Hm cur Hb Hp). unfold bind.
  destruct (m cur) as [[[x cur']|e]|]; cbn [obind]; [|done|done].
  destruct Hm as (HP & Hbuf & Hver & Hpos).
  specialize (Hk x HP cur'). rewrite Hbuf in Hk. specialize (Hk Hb ltac:(lia)).
  destruct (k x cur') as [[[y cur'']|e]|]; [|done|done].
  destruct Hk as (HQ & Hbuf' & Hver' & Hpos'). rewrite Hver', Hver.
  split; [done|]. split; [done|]. split; [done|]. lia.
Qed.

Lemma safe_take n k : safe n (array k) (take k).
Proof.
  intros cur Hb Hp. unfold take. case_if; [done|]. cbn [buf codec_version pos].
  split; [|split; [done|split; [done|lia]]]. split; [rewrite length_slice; lia|by apply is_bytes_slice].
Qed.

(** A byte read leaves one byte less. *)
Lemma safe_u8_then {B} n (Q : B -> Prop) k :
  (forall b m, n = S m -> u8 b -> safe m Q (k b)) -> safe n Q (bind read_u8 k).
Proof.
  intros Hk cur Hb Hp. unfold bind, read_u8, bind, take. case_if; [done|]. cbn [obind ret].
  destruct n as [|m]; [lia|].
  specialize (Hk (slice (pos cur) 1 (buf cur) !!! 0%nat)).
  assert (Hu : u8 (slice (pos cur) 1 (buf cur) !!! 0%nat)).
  { apply Forall_lookup_total_1; [by apply is_bytes_slice|]. rewrite length_slice; lia. }
  specialize (Hk m eq_refl Hu (mk_cursor (buf cur) (pos cur + 1) (codec_version cur)) Hb). cbn [buf pos codec_version] in Hk.
  specialize (Hk ltac:(lia)). destruct (k _ _) as [[[y cur'']|e]|]; [|done|done].
  destruct Hk as (HQ & Hbuf' & Hver' & Hpos'). split; [done|]. split; [done|]. split; [done|]. lia.
Qed.

Lemma safe_u8 n : safe n u8 read_u8.
Proof.
  apply safe_bind with (P := array 1); [apply safe_take|]. intros s [Hl Hs]. apply safe_ret.
  apply Forall_lookup_total_1; [done|lia].
Qed.

Lemma le_val_array k s : array k s -> in_w (8 * Z.of_nat k) (le_val s).
Proof. intros [<- Hs]. by apply le_val_bound. Qed.

Lemma signed_in w x : 1 <= w -> in_w w x -> in_i w (signed w x).
Proof.
  intros Hw [H1 H2]. unfold signed, in_i. replace w with (1 + (w - 1)) in H2 by lia. rewrite Z.pow_add_r in H2 by lia.
  replace (2 ^ w) with (2 * 2 ^ (w - 1)) by (rewrite <-(Z.pow_add_r 2 1) by lia; f_equal; lia).
  case_if; lia.
Qed.

(** Every fixed-width read: the bytes, and what is made of them. *)
Lemma safe_fixed {A} n (P : A -> Prop) k f :
  (forall s, array k s -> P (f s)) -> safe n P (let* s := take k in ret (f s)).
Proof. intros H. apply safe_bind with (P := array k); [apply safe_take|]. intros s Hs. by apply safe_ret, H. Qed.

Lemma safe_u16 n : safe n u16 read_u16. Proof. apply safe_fixed, (le_val_array 2). Qed.
Lemma safe_u32 n : safe n u32 read_u32. Proof. apply safe_fixed, (le_val_array 4). Qed.
Lemma safe_u64 n : safe n u64 read_u64. Proof. apply safe_fixed, (le_val_array 8). Qed.
Lemma safe_f32 n : safe n u32 read_f32. Proof. apply safe_u32. Qed.
Lemma safe_f64 n : safe n u64 read_f64. Proof. apply safe_u64. Qed.
Lemma safe_i16 n : safe n i16 read_i16.
Proof. apply safe_fixed. intros s Hs. apply signed_in; [done|by apply (le_val_array 2)]. Qed.
Lemma safe_i32 n : safe n i32 read_i32.
Proof. apply safe_fixed. intros s Hs. apply signed_in; [done|by apply (le_val_array 4)]. Qed.
Lemma safe_i64 n : safe n i64 read_i64.
Proof. apply safe_fixed. intros s Hs. apply signed_in; [done|by apply (le_val_array 8)]. Qed.
Lemma safe_i128 n : safe n i128 read_i128.
Proof. apply safe_fixed. intros s Hs. apply signed_in; [done|by apply (le_val_array 16)]. Qed.

Lemma safe_version n v : safe n (fun _ => True) (codec_at_least v).
Proof. intros cur _ Hp. split; [done|]. split; [done|]. split; [done|]. lia. Qed.

Lemma safe_if {A} n (P : A -> Prop) (b : bool) m1 m2 : safe n P m1 -> safe n P m2 -> safe n P (if b then m1 else m2).
Proof. by destruct b. Qed.

Create HintDb safe.
#[export] Hint Resolve safe_ret safe_corrupt safe_take safe_u8 safe_u16 safe_u32 safe_u64 safe_f32 safe_f64 safe_i16
  safe_i32 safe_i64 safe_i128 safe_version : safe.

(** One step of a reader's body. *)
Ltac safe_step :=
  first
    [ apply safe_ret
    | apply safe_corrupt
    | apply safe_if
    | eapply safe_bind; [solve [eauto 2 with safe]|cbn beta; intros ? ?] ].

(** ** Strings and loops *)

Lemma safe_utf8 n message s : is_bytes s -> safe n is_str (utf8_or message s).
Proof. intros H. unfold utf8_or. destruct (utf8_valid s) eqn:E; [by apply safe_ret|apply safe_corrupt]. Qed.

Lemma safe_len n since : safe n (fun _ => True) (read_len_escaped since).
Proof. unfold read_len_escaped. repeat safe_step; done. Qed.
#[export] Hint Resolve safe_len safe_utf8 : safe.

Lemma safe_escaped_str n since message :
  safe n is_str (let* len := read_len_escaped since in let* bytes := take len in utf8_or message bytes).
Proof. safe_step. safe_step. apply safe_utf8, H0. Qed.

Lemma safe_str n : safe n is_str read_str. Proof. apply safe_escaped_str. Qed.
Lemma safe_str_v47 n : safe n is_str read_str_escaped_v47. Proof. apply safe_escaped_str. Qed.
Lemma safe_u32_str n message : safe n is_str (read_u32_str message).
Proof. unfold read_u32_str. safe_step. safe_step. apply safe_utf8, H0. Qed.

Lemma safe_bytes n k : safe n is_bytes (take k).
Proof. eapply safe_mono; [apply (safe_take n)|lia|by intros x []]. Qed.

Lemma safe_bytes_escaped n : safe n is_bytes read_bytes_escaped.
Proof. unfold read_bytes_escaped, read_len_escaped_v47. safe_step. apply safe_bytes. Qed.
#[export] Hint Resolve safe_str safe_str_v47 safe_u32_str safe_bytes_escaped : safe.

Lemma safe_each {A} n (P : A -> Prop) rd k : safe n P rd -> safe n (Forall P) (read_each rd k).
Proof.
  intros H. induction k as [|k IH]; cbn [read_each]; [by apply safe_ret|].
  eapply safe_bind; [exact H|]. intros x Hx. eapply safe_bind; [exact IH|]. intros xs Hxs.
  apply safe_ret. by constructor.
Qed.

Lemma safe_counted {A} n (P : A -> Prop) rd : safe n P rd -> safe n (Forall P) (read_counted rd).
Proof. intros H. unfold read_counted. safe_step. by apply safe_each. Qed.

Lemma safe_array {A} n (P : A -> Prop) message rd : safe n P rd -> safe n (items_ok P) (read_array message rd).
Proof.
  intros H. apply safe_counted. unfold read_item. safe_step. apply safe_if; [|by repeat safe_step].
  eapply safe_bind; [exact H|]. intros y Hy. by apply safe_ret.
Qed.

Lemma safe_2d {A} n (P : A -> Prop) rd : safe n P rd -> safe n (Forall (Forall P)) (read_2d rd).
Proof. intros H. unfold read_2d. safe_step. safe_step. by apply safe_each, safe_each. Qed.

Lemma safe_cell {A} n (P : A -> Prop) rd : safe n P rd -> safe n (opt_all P) (read_cell rd).
Proof.
  intros H. unfold read_cell. safe_step. apply safe_if; [by apply safe_ret|].
  eapply safe_bind; [exact H|]. intros y Hy. by apply safe_ret.
Qed.

(** ** Bodies *)

Lemma safe_point n : safe n point_ok read_point.
Proof. unfold read_point. repeat safe_step. by split. Qed.

Lemma safe_points n : safe n (Forall point_ok) read_points.
Proof. unfold read_points. safe_step. apply safe_each, safe_point. Qed.

Lemma safe_f32_vector n : safe n (Forall u32) read_f32_vector.
Proof. unfold read_f32_vector. safe_step. apply safe_each, safe_f32. Qed.

Lemma safe_sq8 n : safe n (fun q => value_ok (V.Sq8Vector q)) read_sq8.
Proof. unfold read_sq8. repeat safe_step. split; [done|]. split; [done|]. apply H2. Qed.

Lemma safe_half n : safe n (fun h => value_ok (V.HalfVector h)) read_half.
Proof. unfold read_half. repeat safe_step. apply H0. Qed.

Lemma u8_u16 x : u8 x -> u16 x.
Proof. intros []. split; lia. Qed.

Lemma safe_u16_bytes n : safe n u16 read_u16_bytes.
Proof.
  unfold read_u16_bytes. repeat safe_step. apply (le_val_array 2). split; [done|].
  constructor; [done|]. by constructor.
Qed.
#[export] Hint Resolve safe_point safe_points safe_f32_vector safe_sq8 safe_half safe_u16_bytes : safe.

Lemma safe_finite n : safe n value_ok read_finite.
Proof. unfold read_finite. repeat safe_step. split; [done|by apply u8_u16]. Qed.
#[export] Hint Resolve safe_finite : safe.

Lemma special_ok kind : value_ok (numeric_special kind).
Proof. by split. Qed.

Lemma safe_numeric n : safe n value_ok read_numeric.
Proof.
  unfold read_numeric. safe_step. apply safe_if; [|apply safe_finite]. safe_step.
  apply safe_if; [apply safe_finite|].
  repeat safe_step; try apply special_ok. by split.
Qed.

Lemma pop_zeros_incl (P : Z -> Prop) v : Forall P v -> Forall P (pop_zeros v).
Proof.
  induction 1 as [|x v Hx Hv IH]; [done|]. cbn [pop_zeros]. destruct (pop_zeros v); [|by constructor].
  case_if; [done|by constructor].
Qed.

Lemma safe_big n tag : safe n value_ok (read_big tag).
Proof.
  unfold read_big. safe_step. apply safe_bind with (P := u16).
  - apply safe_if; [apply safe_u16_bytes|]. eapply safe_mono; [apply safe_u8|done|apply u8_u16].
  - intros sc Hsc. safe_step. eapply safe_bind; [apply safe_each, safe_u32|]. intros limbs Hl.
    apply safe_ret. split; [by apply pop_zeros_incl|done].
Qed.

Lemma safe_interval_fields n : safe n (fun x => interval_ok x.1.1 x.1.2 x.2) read_interval_fields.
Proof. unfold read_interval_fields. repeat safe_step. by repeat split; try apply H; try apply H0; try apply H1. Qed.

Lemma safe_interval n : safe n value_ok read_interval.
Proof. eapply safe_bind; [apply safe_interval_fields|]. intros [[m d] u] H. by apply safe_ret. Qed.

Lemma safe_span n : safe n span_ok read_span.
Proof. eapply safe_bind; [apply safe_interval_fields|]. intros [[m d] u] H. by apply safe_ret. Qed.

Lemma safe_bool n : safe n (fun _ => True) read_bool.
Proof. unfold read_bool. by repeat safe_step. Qed.

Lemma safe_numeric_item n : safe n (opt_all (fun x => i128 x.1 /\ u16 x.2)) read_numeric_item.
Proof.
  unfold read_numeric_item. repeat safe_step; cbn [opt_all fst snd]; try done; split; (done || by apply u8_u16).
Qed.

Lemma safe_net n : safe n (fun x => net_ok x.1.1 x.1.2 x.2) read_net.
Proof. unfold read_net. repeat safe_step. by repeat split; try apply H; try apply H0; try apply H1. Qed.

Lemma safe_timetz n : safe n (fun x => i64 x.1 /\ i32 x.2) read_timetz.
Proof. unfold read_timetz. repeat safe_step. by split. Qed.

Lemma safe_lexeme n : safe n lexeme_ok read_lexeme.
Proof.
  unfold read_lexeme. safe_step. safe_step. eapply safe_bind; [apply safe_each, safe_u16|]. intros ps Hps.
  repeat safe_step. by repeat split; try apply H; try apply H1.
Qed.

Lemma safe_tsvector n : safe n (Forall lexeme_ok) read_tsvector_body.
Proof. apply safe_counted, safe_lexeme. Qed.

Lemma safe_hstore_pair n : safe n (fun kv => is_str kv.1 /\ opt_all is_str kv.2) read_hstore_pair.
Proof. unfold read_hstore_pair. repeat safe_step; by split. Qed.

Lemma safe_hstore n : safe n (Forall (fun kv => is_str kv.1 /\ opt_all is_str kv.2)) read_hstore_body.
Proof. unfold read_hstore_body. safe_step. apply safe_each, safe_hstore_pair. Qed.

#[export] Hint Resolve safe_numeric safe_big safe_interval_fields safe_interval safe_span safe_bool safe_numeric_item
  safe_net safe_timetz safe_tsvector safe_hstore : safe.

(** ** Recursion: the fuel is enough *)

Lemma safe_tsquery fuel n : (n < fuel)%nat -> safe n query_ok (read_tsquery fuel).
Proof.
  revert n. induction fuel as [|fuel IH]; intros n Hn; [lia|]. cbn [read_tsquery].
  apply safe_u8_then. intros tag m -> Ht.
  assert (IHm : safe m query_ok (read_tsquery fuel)) by (apply IH; lia).
  assert (H2 : forall mk : TsQueryAst -> TsQueryAst -> TsQueryAst,
    (forall a b, query_ok a -> query_ok b -> query_ok (mk a b)) ->
    safe m query_ok (let* a := read_tsquery fuel in let* b := read_tsquery fuel in ret (mk a b))).
  { intros mk Hmk. eapply safe_bind; [exact IHm|]. intros a Ha. eapply safe_bind; [exact IHm|]. intros b Hb.
    apply safe_ret. auto. }
  repeat apply safe_if; try apply safe_corrupt; try (apply H2; intros; by split).
  - repeat safe_step. by split.
  - eapply safe_bind; [exact IHm|]. intros x Hx. by apply safe_ret.
  - safe_step. apply (H2 (fun a b => Phrase a b x)). intros. by split; [|split].
Qed.

Lemma safe_fuel_of {A} n (P : A -> Prop) (rd : nat -> Read A) :
  (forall fuel n, (n < fuel)%nat -> safe n P (rd fuel)) -> safe n P (fun cur => rd (fuel_of cur) cur).
Proof.
  intros H cur Hb Hp. apply (H (fuel_of cur) (length (buf cur) - pos cur)%nat); [unfold fuel_of; lia|done|lia].
Qed.

Lemma safe_tsquery_body n : safe n query_ok read_tsquery_body.
Proof. apply safe_fuel_of, safe_tsquery. Qed.
#[export] Hint Resolve safe_tsquery_body : safe.

Definition bounds_ok (r : RangeSpan Value) : Prop := opt_all value_ok (lower r) /\ opt_all value_ok (upper r).

Lemma safe_range_span n rd : safe n value_ok rd -> safe n bounds_ok (read_range_span rd).
Proof.
  intros H. unfold read_range_span. safe_step. cbn zeta.
  assert (Hb : forall b : bool, safe n (opt_all value_ok) (if b then let* v := rd in ret (Some v) else ret None)).
  { intros b. apply safe_if; [|by apply safe_ret]. eapply safe_bind; [exact H|]. intros v Hv. by apply safe_ret. }
  eapply safe_bind; [apply Hb|]. intros l Hl. eapply safe_bind; [apply Hb|]. intros u Hu. apply safe_ret. by split.
Qed.

Lemma range_value_ok kind r : bounds_ok r -> value_ok (value_of_range kind r).
Proof. intros [Hl Hu]. destruct r as [l u li ui e]. cbn in *. split; [by destruct l|by destruct u]. Qed.

Lemma items_true {A} (items : list (option A)) : items_ok (fun _ => True) items -> True.
Proof. done. Qed.

Lemma safe_bool_2d n : safe n (fun _ => True) read_bool_2d_body.
Proof.
  eapply safe_mono; [apply (safe_2d n (fun _ => True))|done|done]. safe_step. by apply safe_ret.
Qed.
#[export] Hint Resolve safe_bool_2d : safe.

(** The value after one read, by that read's lemma. *)
Ltac safe_last :=
  eapply safe_bind; [solve [eauto 3 using safe_array, safe_2d, safe_cell, safe_counted with safe]|];
  cbn beta; intros ? ?; repeat case_match; simplify_eq; apply safe_ret.

Lemma safe_tagged n rd tag : safe n value_ok rd -> safe n value_ok (read_tagged rd tag).
Proof.
  intros H. unfold read_tagged.
  repeat match goal with
  | |- safe _ _ (match ?t with Z0 => _ | _ => _ end) => destruct t
  | |- safe _ _ (match ?t with xH => _ | _ => _ end) => destruct t
  end; try apply safe_corrupt; try solve [eauto 2 with safe]; try solve [by apply safe_ret].
  all: try solve [safe_last; try done; try (by split)].
  safe_step. destruct (range_from_tag x) as [kind|]; [|apply safe_corrupt].
  eapply safe_bind; [by apply safe_range_span|]. intros r Hr. by apply safe_ret, range_value_ok.
Qed.

Lemma safe_value fuel n : (n < fuel)%nat -> safe n value_ok (read_value_fuel fuel).
Proof.
  revert n. induction fuel as [|fuel IH]; intros n Hn; [lia|]. cbn [read_value_fuel].
  apply safe_u8_then. intros tag m -> Ht. apply safe_tagged, IH. lia.
Qed.

Lemma safe_read_value n : safe n value_ok read_value.
Proof. apply safe_fuel_of, safe_value. Qed.

(** ** Cells and rows *)

Lemma wrap_u32 n : u32 (wrap 32 n).
Proof. by apply wrap_range. Qed.

Lemma digits_str fuel n s :
  0 <= n -> Forall (fun b => 0 <= b < 0x80) s -> Forall (fun b => 0 <= b < 0x80) (digits_of fuel n s).
Proof.
  revert n s. induction fuel as [|fuel IH]; intros n s Hn Hs; [done|]. cbn [digits_of].
  assert (Forall (fun b => 0 <= b < 0x80) (48 + n mod 10 :: s)).
  { constructor; [|done]. pose proof (Z.mod_pos_bound n 10). lia. }
  case_if; [done|]. apply IH; [|done]. apply Z.div_pos; lia.
Qed.

Lemma ascii_str s : Forall (fun b => 0 <= b < 0x80) s -> is_str s.
Proof. intros H. split; [|by apply utf8_ascii]. eapply Forall_impl; [exact H|]. cbn beta. intros b Hb. split; lia. Qed.

Lemma to_string_str n : is_str (to_string_i64 n).
Proof.
  apply ascii_str. unfold to_string_i64. case_if; [constructor; [lia|]|]; (apply digits_str; [lia|constructor]).
Qed.

Lemma multirange_value_ok kind ranges : Forall bounds_ok ranges -> value_ok (V.Multirange kind ranges).
Proof.
  induction 1 as [|r ranges [Hl Hu] H IH]; [done|]. cbn. split; [by destruct (lower r)|].
  split; [by destruct (upper r)|exact IH].
Qed.

Lemma safe_body n ty : safe n value_ok (read_value_body ty).
Proof.
  destruct ty; try destruct encoding; cbn [read_value_body];
    try solve [eauto 2 with safe]; try solve [by apply safe_ret].
  all: try solve [safe_last; try done; try (by split); try apply wrap_u32; try (split; [done|apply to_string_str])].
  all: try solve [repeat safe_step; try done; try (by split)].
  - repeat safe_step. split; apply wrap_u32.
  - eapply safe_bind; [apply safe_counted, safe_range_span, safe_read_value|]. intros ranges Hr.
    by apply safe_ret, multirange_value_ok.
  - repeat safe_step. split; [done|]. apply H0.
  - repeat safe_step. split; [done|]. apply H0.
  - eapply safe_bind; [apply safe_range_span, safe_read_value|]. intros r Hr. by apply safe_ret, range_value_ok.
Qed.

Definition row_ok (schema : TableSchema) (row : Row) : Prop := length row = length schema /\ Forall value_ok row.

(** A row read cell by cell, by a reader that is safe for each column. *)
Lemma safe_cell_row n col schema m k :
  safe n value_ok m -> safe n (row_ok schema) k ->
  safe n (row_ok (col :: schema)) (let* v := m in let* vs := k in ret (v :: vs)).
Proof.
  intros Hm Hk. eapply safe_bind; [exact Hm|]. intros v Hv. eapply safe_bind; [exact Hk|]. intros vs [Hl Hvs].
  apply safe_ret. split; [simpl; lia|by constructor].
Qed.

Lemma safe_cells n bitmap i schema : safe n (row_ok schema) (read_cells bitmap i schema).
Proof.
  revert i. induction schema as [|col schema IH]; intros i; cbn [read_cells]; [by apply safe_ret|].
  apply safe_cell_row; [|apply IH]. apply safe_if; [by apply safe_ret|apply safe_body].
Qed.

Lemma safe_skip_str n : safe n (fun _ => True) skip_str.
Proof. unfold skip_str. repeat safe_step. done. Qed.

Lemma safe_cells_pruned n needed bitmap i schema : safe n (row_ok schema) (read_cells_pruned needed bitmap i schema).
Proof.
  revert i. induction schema as [|col schema IH]; intros i; cbn [read_cells_pruned]; [by apply safe_ret|].
  apply safe_cell_row; [|apply IH]. apply safe_if; [by apply safe_ret|]. apply safe_if; [apply safe_body|].
  eapply safe_bind; [apply safe_skip_str|]. intros _ _. by apply safe_ret.
Qed.

Lemma safe_bitmap n schema : safe n (fun _ => True) (read_bitmap schema).
Proof. unfold read_bitmap. apply safe_if; [apply safe_corrupt|]. eapply safe_mono; [apply safe_take|done|done]. Qed.

(** What a decoder owes its caller. *)
Definition decoded_ok (bytes : list Z) (schema : TableSchema) (decoded : outcome (Row * nat) StorageError) : Prop :=
  match decoded with
  | None => False
  | Some (Err _) => True
  | Some (Ok (row, n)) => length row = length schema /\ Forall value_ok row /\ (n <= length bytes)%nat
  end.

Lemma run_row_safe schema cells bytes ver :
  (forall n bitmap, safe n (row_ok schema) (cells bitmap)) -> is_bytes bytes ->
  decoded_ok bytes schema (run_row (let* bitmap := read_bitmap schema in cells bitmap) bytes ver).
Proof.
  intros Hc Hb. assert (H : safe (length bytes) (row_ok schema) (let* bitmap := read_bitmap schema in cells bitmap)).
  { eapply safe_bind; [apply safe_bitmap|]. auto. }
  unfold run_row. specialize (H (mk_cursor bytes 0 ver) Hb). cbn [buf pos] in H. specialize (H ltac:(lia)).
  destruct (bind _ _ _) as [[[row cur]|e]|]; cbn [obind decoded_ok]; [|done|done].
  destruct H as ([] & _ & _ & Hp). split; [done|]. split; [done|lia].
Qed.

(** C19: Totality and type soundness of the row decoders.  On any bytes, schema,
    codec version and pruning mask both end: in an error, or in a row with a
    value of its Rust type for every column, having read no further than the
    bytes there are. *)
Theorem decode_total bytes schema ver needed :
  is_bytes bytes ->
  decoded_ok bytes schema (decode_row_body_dense bytes schema ver) /\
  decoded_ok bytes schema (decode_row_body_dense_pruned bytes schema ver needed).
Proof.
  intros Hb. split; apply run_row_safe; try done; intros; [apply safe_cells|apply safe_cells_pruned].
Qed.

(** A tsquery cell that stops inside a node. *)
Lemma decode_total_witness :
  let bytes := [0; 3; 3; 1; 0; 255; 255] in
  let schema := [mk_column (lit "q") DT.TsQuery true] in
  decoded_ok bytes schema (decode_row_body_dense bytes schema 105) /\
  decoded_ok bytes schema (decode_row_body_dense_pruned bytes schema 105 [false]).
Proof. intros bytes schema. apply decode_total. by_deciding. Defined.

(** ** Pruning *)

(** A row with the cells the caller does not read, where they can be skipped. *)
Fixpoint pruned (needed : list bool) (i : nat) (schema : TableSchema) (row : Row) : Row :=
  match schema, row with
  | col :: schema, v :: row =>
    (if wanted needed i || negb (skippable (ty col)) then v else V.Null) :: pruned needed (S i) schema row
  | _, _ => []
  end.

(** Skipping a string moves the cursor as reading it does. *)
Lemma skip_str_read cur s cur' : read_str cur = Some (Ok (s, cur')) -> skip_str cur = Some (Ok (tt, cur')).
Proof.
  unfold read_str, skip_str, bind. destruct (read_len_escaped 46 cur) as [[[len c]|]|]; cbn [obind]; try done.
  destruct (take len c) as [[[bs c']|]|]; cbn [obind]; try done.
  unfold utf8_or. by destruct (utf8_valid bs); [intros [= _ <-]|].
Qed.

Lemma skip_body_read t cur v cur' :
  skippable t = true -> read_value_body t cur = Some (Ok (v, cur')) -> skip_str cur = Some (Ok (tt, cur')).
Proof.
  intros Hs H. destruct t; try discriminate Hs; cbn [read_value_body] in H; unfold bind in H;
    (destruct (read_str cur) as [[[s c]|]|] eqn:E; cbn [obind] in H; try discriminate H;
     apply skip_str_read in E; unfold ret in H; by simplify_eq).
Qed.

Lemma read_cells_pruned_agrees needed bitmap i schema cur row cur' :
  read_cells bitmap i schema cur = Some (Ok (row, cur')) ->
  read_cells_pruned needed bitmap i schema cur = Some (Ok (pruned needed i schema row, cur')).
Proof.
  revert i cur row cur'. induction schema as [|col schema IH]; intros i cur row cur' H; cbn [read_cells read_cells_pruned] in *.
  { unfold ret in *. by simplify_eq. }
  unfold bind at 1 in H. unfold bind at 1.
  assert (Hcell : forall v c, (if null_bit bitmap i then ret V.Null else read_value_body (ty col)) cur = Some (Ok (v, c)) ->
    (if null_bit bitmap i then ret V.Null
     else if wanted needed i || negb (skippable (ty col)) then read_value_body (ty col)
     else let* _ := skip_str in ret V.Null) cur =
    Some (Ok (if wanted needed i || negb (skippable (ty col)) then v else V.Null, c))).
  { intros v c Hv. destruct (null_bit bitmap i); [unfold ret in *; simplify_eq; by case_match|].
    destruct (wanted needed i); [done|]. destruct (skippable (ty col)) eqn:Hs; [|done]. cbn [negb orb].
    unfold bind. by rewrite (skip_body_read _ _ _ _ Hs Hv). }
  destruct ((if null_bit bitmap i then ret V.Null else read_value_body (ty col)) cur) as [[[v c]|]|]; cbn [obind] in H; try done.
  rewrite (Hcell v c eq_refl). cbn [obind]. unfold bind in *.
  destruct (read_cells bitmap (S i) schema c) as [[[vs c']|]|] eqn:E; cbn [obind] in H; try done.
  rewrite (IH _ _ _ _ E). cbn [obind]. unfold ret in *. by simplify_eq.
Qed.

(** C20: Equivalence of the pruned decoder with the full one.  Whenever the full
    decoder reads a row, the pruned one, whatever its mask, consumes the same
    bytes and yields the same row with the skippable columns the mask leaves
    out as NULL. *)
Theorem pruned_decode_agrees bytes schema ver needed row n :
  decode_row_body_dense bytes schema ver = Some (Ok (row, n)) ->
  decode_row_body_dense_pruned bytes schema ver needed = Some (Ok (pruned needed 0 schema row, n)).
Proof.
  unfold decode_row_body_dense, decode_row_body_dense_pruned, run_row, bind.
  destruct (read_bitmap schema _) as [[[bitmap c]|]|]; cbn [obind]; try done.
  destruct (read_cells bitmap 0 schema c) as [[[vs c']|]|] eqn:E; cbn [obind]; try done.
  rewrite (read_cells_pruned_agrees needed _ _ _ _ _ _ E). cbn [obind]. intros H. by simplify_eq.
Qed.

Lemma pruned_decode_agrees_witness :
  let bytes := [0; 5; 0; 0; 0; 2; 0; 104; 105; 1] in
  let schema := [mk_column (lit "a") DT.Int true; mk_column (lit "b") DT.Text true; mk_column (lit "c") DT.Bool true] in
  decode_row_body_dense bytes schema 105 = Some (Ok ([V.Int 5; V.Text (lit "hi"); V.Bool true], 10%nat)) /\
  decode_row_body_dense_pruned bytes schema 105 [false; false; true] =
    Some (Ok ([V.Int 5; V.Null; V.Bool true], 10%nat)).
Proof.
  intros bytes schema. split; [vm_compute; reflexivity|].
  apply (pruned_decode_agrees bytes schema 105 [false; false; true] [V.Int 5; V.Text (lit "hi"); V.Bool true] 10).
  vm_compute. reflexivity.
Defined.

(** A record of the external sort: written without the columns its mask drops,
    and read back with the same mask, it has every column the mask keeps. *)
Lemma pruned_stored needed i schema row :
  pruned needed i schema (stored_row needed i schema row) = stored_row needed i schema row.
Proof.
  revert i row. induction schema as [|col schema IH]; intros i [|v row]; [done..|]. cbn [stored_row pruned]. rewrite IH. f_equal.
  unfold wanted. destruct (needed !! i) as [b|] eqn:E; [|done]. unfold marked, dropped. cbn [default].
  destruct needed as [|b' needed']; [done|]. rewrite E. cbn. destruct b; [done|]. cbn.
  destruct (skippable (ty col)); done.
Qed.

Lemma sort_record_roundtrip ver row schema needed bs rest :
  47 <= ver -> length row = length schema -> (length schema <= 256)%nat ->
  Forall value_ok row -> Forall (storable ver) row ->
  encode_row_body_dense_masked_into row schema needed [] = Some bs ->
  decode_row_body_dense_pruned (bs ++ rest) schema ver needed = Some (Ok (stored_row needed 0 schema row, length bs)).
Proof.
  intros Hv Hl Hc Hok Hst H. rewrite <-(pruned_stored needed 0). apply pruned_decode_agrees.
  by apply decode_masked.
Qed.
