(* ===== verification/RowLen.v ===== *)
(** The byte count the storage layer keeps of a table's rows
    (crates/spg-storage/src/codec.rs): [row_body_encoded_len] against the length
    of what [encode_row_body_dense] writes.

    [other.data_type()] in [write_value_encoded_len] only chooses an argument
    that is not used: its panic, on a vector of [2 ^ 32] elements, is left
    out. *)
From S2P Require Import Prelude Bytes Text BigNum Values CodecIO CodecReads RowCodec RowCodecOk.
Open Scope nat_scope.

#[local] Arguments le_bytes : simpl never.

(** ** The counts *)

Definition ESCAPE : nat := Z.to_nat STR_LEN_ESCAPE.

(** [if s.len() >= STR_LEN_ESCAPE as usize { 6 + s.len() } else { 2 + s.len() }] *)
Definition str_len (s : list Z) : nat := if ESCAPE <=? length s then 6 + length s else 2 + length s.

(** [2 + items.iter().map(|x| if x.is_some() { w } else { 1 }).sum()] *)
Definition items_len {A} (w : nat) (items : list (option A)) : nat :=
  2 + sum_list (map (fun x => match x with Some _ => w | None => 1 end) items).

(** A loop that adds what each element takes. *)
Definition total {A} (f : A -> nat) (xs : list A) : nat := sum_list (map f xs).

Definition strings_len (items : list (option (list Z))) : nat :=
  2 + total (fun it => 1 + match it with Some s => (if ESCAPE <=? length s then 2 + 4 else 2) + length s | None => 0 end) items.

Fixpoint tsquery_encoded_len (ast : TsQueryAst) : nat :=
  match ast with
  | Term word _ => 1 + 2 + length word + 1
  | And a b | Or a b => 1 + tsquery_encoded_len a + tsquery_encoded_len b
  | Not x => 1 + tsquery_encoded_len x
  | Phrase l r _ => 1 + 2 + tsquery_encoded_len l + tsquery_encoded_len r
  end.

Definition hstore_len (pairs : list (list Z * option (list Z))) : nat :=
  4 + total (fun kv => 4 + length kv.1 + 1 + match kv.2 with Some v => 4 + length v | None => 0 end) pairs.

Definition text_2d_len (rows : list (list (option (list Z)))) : nat :=
  8 + length rows * first_len rows +
  total (total (fun c => match c with Some s => 4 + length s | None => 0 end)) rows.

(** [write_value_encoded_len v], where [body] is [value_body_encoded_len v]. *)
Definition tagged_len (v : Value) (body : nat) : nat :=
  match v with
  | V.Null => 1
  | V.SmallInt _ => 1 + 2
  | V.Int _ | V.Date _ => 1 + 4
  | V.BigInt _ | V.Float _ | V.Timestamp _ | V.Time _ | V.Money _ => 1 + 8
  | V.Bool _ => 1 + 1
  | V.Year _ => 1 + 2
  | V.Text s | V.Json s => 1 + 4 + length s
  | V.Bytes b => 1 + 4 + length b
  | V.Numeric _ _ _ => 1 + 1 + 16 + 1
  | V.Uuid _ => 1 + 16
  | V.TimeTz _ _ => 1 + 12
  | V.Hstore pairs => 1 + hstore_len pairs
  | V.IntArray2D rows => 1 + 8 + length rows * first_len rows * (1 + 4)
  | V.BigIntArray2D rows => 1 + 8 + length rows * first_len rows * (1 + 8)
  | V.BoolArray2D rows => 1 + 8 + length rows * first_len rows
  | V.TextArray2D rows => 1 + text_2d_len rows
  | _ => 1 + body
  end.

Fixpoint value_body_encoded_len (v : Value) : nat :=
  match v with
  | V.SmallInt _ => 2
  | V.Int _ | V.Date _ => 4
  | V.Real _ => 4
  | V.BigInt _ | V.Float _ | V.Timestamp _ => 8
  | V.Bool _ => 1
  | V.Text s | V.Json s => str_len s
  | V.Vector v => 4 + 4 * length v
  | V.Sq8Vector q => 4 + 4 + 4 + length (sq8_bytes q)
  | V.HalfVector h => 4 + length (half_bytes h)
  | V.Numeric _ _ _ => 1 + 16 + 1
  | V.NumericBig b => 1 + 1 + 2 + 4 * length (limbs b)
  | V.Bytes b => 2 + length b
  | V.TextArray items => 2 + total (fun item => 1 + match item with Some s => 2 + length s | None => 0 end) items
  | V.IntArray items => items_len 5 items
  | V.BigIntArray items => items_len 9 items
  | V.IntervalArray items => items_len 17 items
  | V.BoolArray items => items_len 2 items
  | V.SmallIntArray items => items_len 3 items
  | V.Int2Vector items => 2 + length items * 2
  | V.OidVector items => 2 + length items * 4
  | V.FloatArray items => items_len 9 items
  | V.TimestampArray items | V.TimestamptzArray items => items_len 9 items
  | V.DateArray items => items_len 5 items
  | V.RealArray items => items_len 5 items
  | V.TimeArray items => items_len 9 items
  | V.TimeTzArray items => items_len 13 items
  | V.InetArray items => items_len 19 items
  | V.NumericArray items => items_len 18 items
  | V.UuidArray items => items_len 17 items
  | V.JsonArray items | V.JsonbArray items | V.VarcharArray items | V.XmlArray items | V.CharArray items =>
    strings_len items
  | V.BytesArray items => strings_len items
  | V.Multirange _ ranges =>
    2 + total (fun r => 1 + match lower r with Some _ => 16 | None => 0 end + match upper r with Some _ => 16 | None => 0 end) ranges
  | V.Point _ => 16
  | V.Lseg _ _ | V.PgBox _ _ => 32
  | V.Line _ _ _ => 24
  | V.Circle _ _ => 24
  | V.Path points _ => 1 + 4 + 16 * length points
  | V.Polygon points => 4 + 16 * length points
  | V.Inet _ _ _ | V.Cidr _ _ _ => 1 + 1 + 16
  | V.Macaddr _ => 6
  | V.Macaddr8 _ => 8
  | V.PgLsn _ => 8
  | V.BitString _ bytes => 4 + length bytes
  | V.Xml s => str_len s
  | V.BpChar s => str_len s
  | V.Char1 _ => 1
  | V.MoneyArray items => items_len 9 items
  | V.TsVector lexs => 2 + total (fun l => 2 + length (word l) + 2 + 2 * length (positions l) + 1) lexs
  | V.TsQuery ast => tsquery_encoded_len ast
  | V.Uuid _ => 16
  | V.Time _ => 8
  | V.Year _ => 2
  | V.TimeTz _ _ => 12
  | V.Money _ => 8
  | V.Range _ l u _ _ _ =>
    1 + match l with Some v => tagged_len v (value_body_encoded_len v) | None => 0 end
      + match u with Some v => tagged_len v (value_body_encoded_len v) | None => 0 end
  | V.Hstore pairs => hstore_len pairs
  | V.IntArray2D rows => 8 + length rows * first_len rows * (1 + 4)
  | V.BigIntArray2D rows => 8 + length rows * first_len rows * (1 + 8)
  | V.BoolArray2D rows => 8 + length rows * first_len rows
  | V.TextArray2D rows => text_2d_len rows
  | V.Composite _ => 0
  | V.Void => 0
  | V.Xid _ => 8
  | V.RegClass _ _ | V.RegProc _ _ | V.RegType _ _ | V.Tid _ _ | V.Cid _ => 0
  | V.Null => 0
  | V.Interval _ _ _ _ => 16
  end.

Definition row_body_encoded_len (row : Row) (schema : TableSchema) : nat :=
  bitmap_bytes schema + total (fun v => if is_null v then 0 else value_body_encoded_len v) row.

(** ** Where the count is the length *)

Definition short (s : list Z) : Prop := length s < ESCAPE.

Fixpoint query_short (q : TsQueryAst) : Prop :=
  match q with
  | Term word _ => short word
  | And a b | Or a b | Phrase a b _ => query_short a /\ query_short b
  | Not x => query_short x
  end.

Definition no_nulls {A} (rows : list (list (option A))) : Prop := Forall (Forall (fun c => is_some c = true)) rows.

(** The bounds counted as they are written. *)
Definition counted_bound (v : Value) : bool :=
  match v with V.Text _ | V.Json _ | V.Bytes _ | V.Xid _ | V.Range _ _ _ _ _ _ => false | _ => true end.

(** The values [value_body_encoded_len] counts exactly: short byte strings,
    elements and lexemes, finite NUMERICs whose scale is a byte, integer
    matrices without NULLs, and ranges over bounds that [write_value_encoded_len]
    counts. *)
Fixpoint exact (v : Value) : Prop :=
  match v with
  | V.Bytes b => short b
  | V.Numeric _ scale kind => kind = NumericKind.Finite /\ (scale < 256)%Z
  | V.NumericBig b => (scale b < 256)%Z
  | V.TextArray items => Forall (opt_all short) items
  | V.NumericArray items => Forall (opt_all (fun x => (x.2 < 256)%Z)) items
  | V.TsVector lexs => Forall (fun l => short (word l)) lexs
  | V.TsQuery ast => query_short ast
  | V.Multirange _ ranges => Forall (fun r => is_some (lower r) = false /\ is_some (upper r) = false) ranges
  | V.IntArray2D rows | V.BigIntArray2D rows => rectangular rows /\ no_nulls rows
  | V.TextArray2D rows => rectangular rows
  | V.BoolArray2D rows => rectangular rows
  | V.Range _ l u _ _ _ =>
      match l with Some v => exact v /\ counted_bound v = true | None => True end /\
      match u with Some v => exact v /\ counted_bound v = true | None => True end
  | _ => True
  end.

(** ** Lengths of what is written *)

Lemma total_cons {A} (f : A -> nat) x xs : total f (x :: xs) = f x + total f xs.
Proof. done. Qed.

Lemma length_concat_fixed {A} (enc : A -> list Z) w xs :
  (forall x, length (enc x) = w) -> length (concat (map enc xs)) = w * length xs.
Proof. intros H. induction xs as [|x xs IH]; [simpl; lia|]. cbn [map concat length]. rewrite length_app, H, IH. lia. Qed.

Lemma length_each {A} (P : A -> Prop) (f : A -> nat) wr xs bs :
  (forall x b, P x -> wr x = Some b -> length b = f x) -> Forall P xs -> write_each wr xs = Some bs ->
  length bs = total f xs.
Proof.
  intros Hw HP. revert bs. induction HP as [|x xs Px HP IH]; intros bs H; cbn [write_each] in H.
  - by written.
  - apply bind_Some in H as (a & Ha & H). apply bind_Some in H as (b & Hb & H). written.
    rewrite length_app, total_cons, (Hw x a), (IH b) by done. done.
Qed.

Lemma length_counted {A} (P : A -> Prop) (f : A -> nat) wr xs bs :
  (forall x b, P x -> wr x = Some b -> length b = f x) -> Forall P xs -> write_counted wr xs = Some bs ->
  length bs = 2 + total f xs.
Proof.
  intros Hw HP H. unfold write_counted in H. written. rewrite length_app. unfold write_u16. rewrite length_le_bytes.
  f_equal. by eapply length_each.
Qed.

Lemma length_array {A} (P : A -> Prop) w wr (items : list (option A)) bs :
  (forall x b, P x -> wr x = Some b -> length b = w) -> Forall (opt_all P) items -> write_array wr items = Some bs ->
  length bs = items_len (S w) items.
Proof.
  intros Hw HP H. unfold items_len. eapply length_counted; [|exact HP|exact H].
  intros [x|] b Px Hb; cbn [write_item] in Hb; written; [|done]. cbn [length]. by rewrite (Hw x x0).
Qed.

Lemma forall_any {A} (xs : list (option A)) : Forall (opt_all (fun _ => True)) xs.
Proof. apply Forall_true. by intros []. Qed.

Lemma length_fixed_array k (items : list (option Z)) bs :
  write_array (le k) items = Some bs -> length bs = items_len (S k) items.
Proof.
  apply (length_array (fun _ => True)); [|apply forall_any]. intros x b _ H. written. apply length_le_bytes.
Qed.

Lemma length_escaped s bs : write_bytes_escaped s = Some bs -> length bs = str_len s.
Proof.
  intros H. unfold write_bytes_escaped, write_u16, write_u32 in H. unfold str_len, ESCAPE.
  destruct (STR_LEN_ESCAPE <=? Z.of_nat (length s))%Z eqn:E; written; rewrite !length_app, !length_le_bytes;
    destruct (Nat.leb_spec (Z.to_nat STR_LEN_ESCAPE) (length s)); unfold STR_LEN_ESCAPE in *; lia.
Qed.

Lemma length_str s bs : write_str s = Some bs -> length bs = str_len s.
Proof. exact (length_escaped s bs). Qed.

Lemma length_short s bs : short s -> write_bytes_escaped s = Some bs -> length bs = 2 + length s.
Proof. intros Hs H. apply length_escaped in H. unfold str_len in H. unfold short in Hs. destruct (Nat.leb_spec ESCAPE (length s)); lia. Qed.

Lemma length_u32_str s bs : write_u32_str s = Some bs -> length bs = 4 + length s.
Proof. intros H. unfold write_u32_str, write_u32 in H. written. by rewrite length_app, length_le_bytes. Qed.

Lemma length_strings items bs : write_array write_bytes_escaped items = Some bs -> length bs = strings_len items.
Proof.
  intros H. unfold strings_len. eapply (length_counted (fun _ => True)); [| |exact H]; [|by apply Forall_true].
  intros [s|] b _ Hb; cbn [write_item] in Hb; written; [|done]. cbn [length].
  rewrite (length_escaped s x) by done. unfold str_len. by destruct (ESCAPE <=? length s).
Qed.

Lemma length_text_array items bs :
  Forall (opt_all short) items -> write_array write_bytes_escaped items = Some bs ->
  length bs = 2 + total (fun item => 1 + match item with Some s => 2 + length s | None => 0 end) items.
Proof.
  intros HP H. eapply length_counted; [|exact HP|exact H].
  intros [s|] b Ps Hb; cbn [write_item] in Hb; written; [|done]. cbn [length]. by rewrite (length_short s x).
Qed.

Lemma length_numeric scaled scale : (scale < 256)%Z -> length (write_numeric scaled scale NumericKind.Finite) = 18.
Proof.
  intros H. cbn [write_numeric]. rewrite (proj2 (Z.ltb_lt _ _)) by done. cbn [length].
  by rewrite length_app, length_le_bytes.
Qed.

Lemma length_numeric_array items bs :
  Forall (opt_all (fun x => (x.2 < 256)%Z)) items -> write_counted write_numeric_item items = Some bs ->
  length bs = items_len 18 items.
Proof.
  intros HP H. unfold items_len. eapply length_counted; [|exact HP|exact H].
  intros [[m s]|] b Ps Hb; cbn [write_numeric_item opt_all snd] in *; written; [|done].
  rewrite (proj2 (Z.ltb_lt _ _)) by done. cbn [length]. by rewrite length_app, length_le_bytes.
Qed.

Lemma length_tsvector lexs bs :
  Forall (fun l => short (word l)) lexs -> write_tsvector_body lexs = Some bs ->
  length bs = 2 + total (fun l => 2 + length (word l) + 2 + 2 * length (positions l) + 1) lexs.
Proof.
  intros HP H. eapply length_counted; [|exact HP|exact H]. intros l b Ps Hb. unfold write_lexeme in Hb. written.
  rewrite !length_app, (length_short (word l) x), length_le_bytes by done.
  rewrite (length_concat_fixed _ 2) by (intros; apply length_le_bytes). cbn [length]. lia.
Qed.

Lemma length_tsquery q bs : query_short q -> write_tsquery_body q = Some bs -> length bs = tsquery_encoded_len q.
Proof.
  revert bs. induction q as [w m|a IHa b IHb|a IHa b IHb|x IHx|a IHa b IHb d]; intros bs Hs H;
    cbn [query_short write_tsquery_body tsquery_encoded_len] in *; written; cbn [length];
    rewrite ?length_app, ?length_le_bytes.
  - rewrite (length_short w x) by done. cbn [length]. lia.
  - destruct Hs. rewrite (IHa x), (IHb x0) by done. lia.
  - destruct Hs. rewrite (IHa x), (IHb x0) by done. lia.
  - by rewrite (IHx x0).
  - destruct Hs. rewrite (IHa x), (IHb x0) by done. lia.
Qed.

Lemma length_hstore pairs bs : write_hstore_body pairs = Some bs -> length bs = hstore_len pairs.
Proof.
  intros H. unfold write_hstore_body in H. written. unfold hstore_len. rewrite length_app, length_le_bytes. f_equal.
  eapply (length_each (fun _ => True)); [|by apply Forall_true|done].
  intros [k [v|]] b _ Hb; unfold write_hstore_pair in Hb; cbn [fst snd] in *; written; rewrite length_app.
  - rewrite (length_u32_str k x1) by done. cbn [length]. rewrite (length_u32_str v x2) by done. lia.
  - rewrite (length_u32_str k x1) by done. cbn [length]. lia.
Qed.

Lemma length_2d {A} (P : A -> Prop) (f : A -> nat) wr rows bs :
  (forall x b, P x -> wr x = Some b -> length b = f x) -> Forall (Forall P) rows -> write_2d wr rows = Some bs ->
  length bs = 8 + total (total f) rows.
Proof.
  intros Hw HP H. unfold write_2d in H. written. rewrite !length_app, !length_le_bytes.
  rewrite (length_each (Forall P) (total f) (write_each wr) rows x1); [lia| |done|done].
  intros r b Hr Hb. by eapply length_each.
Qed.

Lemma total_const {A} (f : A -> nat) w xs : (forall x, In x xs -> f x = w) -> total f xs = length xs * w.
Proof.
  intros H. induction xs as [|x xs IH]; [done|]. rewrite total_cons, IH by (intros; apply H; by right).
  rewrite (H x) by (by left). cbn [length]. lia.
Qed.

Lemma total_plus {A} (f g : A -> nat) xs : total (fun x => f x + g x) xs = total f xs + total g xs.
Proof. induction xs as [|x xs IH]; [done|]. rewrite !total_cons, IH. lia. Qed.

Lemma total_ext {A} (f g : A -> nat) xs : (forall x, f x = g x) -> total f xs = total g xs.
Proof. intros H. unfold total. f_equal. apply map_ext. done. Qed.

Lemma total_rect {A} (rows : list (list A)) w :
  rectangular rows -> total (total (fun _ => w)) rows = length rows * first_len rows * w.
Proof.
  intros H. rewrite (total_const _ (first_len rows * w)); [lia|]. intros r Hr.
  apply list_elem_of_In in Hr. rewrite (total_const _ w) by done. by rewrite (proj1 (Forall_forall _ _) H r Hr).
Qed.

Lemma length_fixed_2d k rows bs :
  rectangular rows -> no_nulls rows -> write_2d (write_item (fun n => Some (le_bytes k n))) rows = Some bs ->
  length bs = 8 + length rows * first_len rows * (1 + k).
Proof.
  intros Hr Hn H. rewrite <-total_rect by done. eapply length_2d; [|exact Hn|exact H].
  intros [x|] b Hx Hb; [|done]. cbn [write_item] in Hb. written. cbn [length]. by rewrite length_le_bytes.
Qed.

Lemma length_bool_2d rows bs :
  rectangular rows -> write_bool_2d_body rows = Some bs -> length bs = 8 + length rows * first_len rows.
Proof.
  intros Hr H. rewrite <-(Nat.mul_1_r (_ * _)), <-total_rect by done.
  eapply (length_2d (fun _ => True)); [| |exact H]; [|apply Forall_true; intros; by apply Forall_true].
  intros x b _ Hb. by written.
Qed.

Lemma length_text_2d rows bs : rectangular rows -> write_text_2d_body rows = Some bs -> length bs = text_2d_len rows.
Proof.
  intros Hr H. unfold text_2d_len. rewrite <-(Nat.mul_1_r (_ * _)), <-total_rect, <-Nat.add_assoc, <-total_plus by done.
  rewrite (total_ext _ (total (fun c => 1 + match c with Some s => 4 + length s | None => 0 end)))
    by (intros; symmetry; apply total_plus).
  eapply (length_2d (fun _ => True)); [| |exact H]; [|apply Forall_true; intros; by apply Forall_true].
  intros [s|] b _ Hb; cbn [write_item] in Hb; written; [|done]. cbn [length]. by rewrite (length_u32_str s x).
Qed.

Lemma length_span_array items bs :
  write_array (fun s => Some (write_span s)) items = Some bs -> length bs = items_len 17 items.
Proof.
  apply (length_array (fun _ => True)); [|apply forall_any]. intros x b _ H. written.
  unfold write_span. by rewrite !length_app, !length_le_bytes.
Qed.

Lemma length_interval m d u k : length (write_interval m d u k) = 16.
Proof.
  unfold write_interval. destruct (IntervalKind.to_fields k m d u) as [[a b] c].
  by rewrite !length_app, !length_le_bytes.
Qed.

Lemma length_f32_vector v bs : write_f32_vector v = Some bs -> length bs = 4 + 4 * length v.
Proof.
  intros H. unfold write_f32_vector in H. written. rewrite length_app, length_le_bytes.
  by rewrite (length_concat_fixed _ 4) by (intros; apply length_le_bytes).
Qed.

Lemma length_sq8 q bs : write_sq8 q = Some bs -> length bs = 4 + 4 + 4 + length (sq8_bytes q).
Proof. intros H. unfold write_sq8 in H. written. by rewrite !length_app, !length_le_bytes. Qed.

Lemma length_half h bs : write_half h = Some bs -> length bs = 4 + length (half_bytes h).
Proof. intros H. unfold write_half in H. written. by rewrite !length_app, !length_le_bytes. Qed.

Lemma length_big b : (scale b < 256)%Z -> length (write_big b) = 5 + 4 * length (limbs b).
Proof.
  intros H. destruct b as [neg limbs scale]. unfold write_big, parts. cbn [BigNum.neg BigNum.limbs BigNum.scale] in *.
  rewrite (proj2 (Z.ltb_lt scale 256)) by done. cbn [length]. rewrite !length_app, length_le_bytes.
  rewrite (length_concat_fixed _ 4) by (intros; apply length_le_bytes). cbn [length]. lia.
Qed.

Create HintDb lens.
#[export] Hint Resolve length_f32_vector length_sq8 length_half length_str length_escaped length_short length_text_array
  length_span_array length_tsvector length_tsquery length_hstore length_bool_2d length_text_2d length_fixed_2d : lens.

Lemma length_bounds l u bs :
  (forall v b, l = Some v -> write_value v = Some b -> length b = tagged_len v (value_body_encoded_len v)) ->
  (forall v b, u = Some v -> write_value v = Some b -> length b = tagged_len v (value_body_encoded_len v)) ->
  write_bounds l u = Some bs ->
  length bs = match l with Some v => tagged_len v (value_body_encoded_len v) | None => 0 end
            + match u with Some v => tagged_len v (value_body_encoded_len v) | None => 0 end.
Proof.
  intros Hl Hu H. unfold write_bounds in H. written. rewrite length_app. f_equal.
  - destruct l as [v|]; [by apply Hl|by written].
  - destruct u as [v|]; [by apply Hu|by written].
Qed.

Lemma length_tagged v bs :
  value_ok v -> exact v -> counted_bound v = true -> write_value v = Some bs ->
  length bs = tagged_len v (value_body_encoded_len v).
Proof.
  intros Hv He Hc H.
  destruct v; try discriminate Hc; cbn [write_value] in H; written; try discriminate H;
    cbn [exact value_ok] in He, Hv; cbn [length tagged_len value_body_encoded_len];
    try (rewrite ?length_app, ?length_le_bytes; done);
    try solve [f_equal; eauto 2 with lens];
    try solve [f_equal; destruct He; eauto 2 with lens].
  - destruct He as [-> He]. by rewrite length_numeric.
  - by rewrite length_big.
  - by rewrite length_interval.
  - by rewrite (length_fixed_array 4 items x).
  - by rewrite (length_fixed_array 8 items x).
  - destruct Hv as [-> _]. done.
  - destruct He. by rewrite (length_fixed_2d 4 rows x).
  - destruct He. by rewrite (length_fixed_2d 8 rows x).
  - by rewrite (length_bool_2d rows x).
Qed.

Lemma length_bool_array items bs :
  write_array (fun b => raw [byte_of_bool b]) items = Some bs -> length bs = items_len 2 items.
Proof. apply (length_array (fun _ => True)); [|apply forall_any]. intros x b _ H. by written. Qed.

Lemma length_vector k items bs : write_counted (le k) items = Some bs -> length bs = 2 + length items * k.
Proof.
  intros H. rewrite <-(total_const (fun _ => k) k) by done.
  eapply (length_counted (fun _ => True)); [|by apply Forall_true|exact H]. intros x b _ Hb. written. apply length_le_bytes.
Qed.

Lemma length_uuid_array items bs :
  items_ok (array 16) items -> write_array raw items = Some bs -> length bs = items_len 17 items.
Proof. intros HP. apply (length_array (array 16)); [|exact HP]. intros x b [Hl _] H. by written. Qed.

Lemma length_timetz_array items bs :
  write_array (fun x => raw (le_bytes 8 x.1 ++ le_bytes 4 x.2)) items = Some bs -> length bs = items_len 13 items.
Proof.
  apply (length_array (fun _ => True)); [|apply forall_any]. intros x b _ H. written.
  by rewrite length_app, !length_le_bytes.
Qed.

Lemma length_net family bits addr : net_ok family bits addr -> length (write_net family bits addr) = 18.
Proof. intros (_ & _ & Ha & _). cbn [write_net length]. by rewrite Ha. Qed.

Lemma length_inet_array items bs :
  items_ok (fun x => net_ok x.1.1 x.1.2 x.2) items ->
  write_array (fun x => raw (write_net x.1.1 x.1.2 x.2)) items = Some bs -> length bs = items_len 19 items.
Proof.
  intros HP. apply (length_array (fun x => net_ok x.1.1 x.1.2 x.2)); [|exact HP]. intros x b Hx H. written.
  by apply length_net.
Qed.

Lemma length_point p : length (write_point p) = 16.
Proof. unfold write_point. by rewrite length_app, !length_le_bytes. Qed.

Lemma length_points points : length (concat (map write_point points)) = 16 * length points.
Proof. apply length_concat_fixed, length_point. Qed.

Lemma length_range_span r bs :
  write_range_span r = Some bs -> exists b, write_bounds (lower r) (upper r) = Some b /\ length bs = 1 + length b.
Proof. intros H. unfold write_range_span in H. written. by eexists. Qed.

Lemma length_multirange ranges bs :
  Forall (fun r => is_some (lower r) = false /\ is_some (upper r) = false) ranges ->
  write_counted write_range_span ranges = Some bs ->
  length bs = 2 + total (fun r => 1 + match lower r with Some _ => 16 | None => 0 end
                                    + match upper r with Some _ => 16 | None => 0 end) ranges.
Proof.
  intros HP H. eapply length_counted; [|exact HP|exact H]. intros [l u li ui e] b [Hl Hu] Hb.
  cbn [lower upper] in *. destruct l, u; try done. cbn in Hb. by written.
Qed.

#[export] Hint Resolve length_fixed_array length_bool_array length_vector length_uuid_array length_timetz_array
  length_inet_array length_strings length_numeric_array length_multirange : lens.

Lemma length_body v ty bs :
  value_ok v -> exact v -> write_value_body v ty = Some bs -> length bs = value_body_encoded_len v.
Proof.
  intros Hv He H.
  destruct v; destruct ty; try discriminate H; try (destruct encoding; try discriminate H);
    cbn [write_value_body] in H; cbn [exact value_ok] in He, Hv; cbn [value_body_encoded_len]; written;
    try solve [rewrite ?length_app, ?length_le_bytes; done];
    try solve [eauto 2 with lens];
    try solve [destruct He; eauto 2 with lens].
  - destruct He as [-> He]. by rewrite length_numeric.
  - by rewrite length_interval.
  - cbn [length]. by rewrite length_app, length_le_bytes, length_points.
  - by rewrite length_app, length_le_bytes, length_points.
  - by rewrite length_net.
  - by rewrite length_net.
  - apply Hv.
  - apply Hv.
  - apply Hv.
  - apply length_range_span in H as (b & Hb & ->). cbn [Values.lower Values.upper] in Hb. destruct Hv as [Hl Hu], He as [El Eu].
    rewrite <-Nat.add_assoc. f_equal. apply length_bounds; [| |done]; intros v c -> Hc.
    + destruct El. by apply length_tagged.
    + destruct Eu. by apply length_tagged.
Qed.

Lemma length_cells pre schema row i bs :
  i = length pre -> length row = length schema -> Forall value_ok row -> Forall exact row ->
  write_cells (pre ++ schema) [] i row = Some bs ->
  length bs = total (fun v => if is_null v then 0 else value_body_encoded_len v) row.
Proof.
  revert pre i row bs. induction schema as [|col schema IH]; intros pre i [|v row] bs -> Hlen Hv He H; try discriminate Hlen.
  { cbn [write_cells] in H. by written. }
  apply Forall_cons in Hv as [Hv Hvs], He as [He Hes]. cbn [write_cells dropped mbind option_bind orb] in H.
  apply bind_Some in H as (cell & Hcell & H). apply bind_Some in H as (rest & Hrest & H). written.
  rewrite length_app, total_cons. f_equal.
  - destruct (is_null v); [by written|]. rewrite list_lookup_middle in Hcell by done. cbn in Hcell. by eapply length_body.
  - apply (IH (pre ++ [col]) (S (length pre))); [rewrite length_app; simpl; lia|simpl in Hlen; lia|done..|].
    by rewrite <-app_assoc.
Qed.

Lemma set_null_bits_length needed offset i row out out' :
  set_null_bits needed offset i row out = Some out' -> length out' = length out.
Proof.
  revert i out. induction row as [|v row IH]; intros i out H; cbn [set_null_bits] in H; [by written|].
  apply bind_Some in H as (d & _ & H). apply bind_Some in H as (o & Ho & H). apply IH in H. rewrite H.
  destruct (d || is_null v); [|by written]. unfold set_null_bit in Ho. apply bind_Some in Ho as (b & Hb & Ho).
  apply lookup_lt_Some in Hb. rewrite vec_set_insert in Ho by done. written. by rewrite length_insert.
Qed.

(** C21: Bounds of a table's byte count.  [row_body_encoded_len] is the length of
    what the encoder writes for every row of cells it counts exactly; the cells
    it does not are listed by [exact]. *)
Theorem encoded_len_exact row schema bs :
  length row = length schema -> Forall value_ok row -> Forall exact row ->
  encode_row_body_dense row schema = Some bs -> row_body_encoded_len row schema = length bs.
Proof.
  intros Hlen Hv He H. unfold encode_row_body_dense, encode_row_body_dense_into, encode_row_body_dense_masked_into in H.
  apply bind_Some in H as (o & Ho & H). apply bind_Some in H as (cells & Hc & H). written.
  apply set_null_bits_length in Ho. cbn [app] in Ho. rewrite length_replicate in Ho.
  unfold row_body_encoded_len. rewrite length_app, Ho. f_equal. symmetry.
  by apply (length_cells [] schema row 0).
Qed.

Lemma encoded_len_exact_witness :
  let schema := [mk_column (lit "a") DT.TextArray true; mk_column (lit "b") (DT.Range Int4) true;
                 mk_column (lit "c") DT.Hstore true] in
  let row := [V.TextArray [Some (lit "x"); None]; V.Range Int4 (Some (V.Int 1)) None true false false;
              V.Hstore [(lit "k", Some (lit "v"))]] in
  row_body_encoded_len row schema = length (default [] (encode_row_body_dense row schema)).
Proof.
  intros schema row. apply encoded_len_exact; [done| | |vm_compute; reflexivity];
    subst row; repeat (apply Forall_cons; split); try apply Forall_nil; cbn; by_deciding.
Defined.

(** Rows that are counted one way and written another: a blob of 64 KiB, a NaN,
    a matrix with a NULL, a range of text, and a multirange with a bound. *)
Lemma encoded_len_misses :
  map (fun x => (row_body_encoded_len [x.1] [mk_column [] x.2 true],
                 length <$> encode_row_body_dense [x.1] [mk_column [] x.2 true]))
    [(numeric_special NumericKind.NaN, DT.Numeric 0 0);
     (V.IntArray2D [[None; Some 1%Z]], DT.IntArray2D);
     (V.Range Num (Some (V.Text [])) None true false false, DT.Range Num);
     (V.Multirange Int4 [mk_range (Some (V.Int 1)) None true false false], DT.Multirange Int4)] =
  [(19, Some 2); (19, Some 15); (7, Some 5); (20, Some 9)].
Proof. vm_compute. reflexivity. Qed.

Lemma encoded_len_misses_blobs b :
  length b = ESCAPE -> exists bs, encode_row_body_dense [V.Bytes b] [mk_column [] DT.Bytes true] = Some bs /\
    length bs = 4 + row_body_encoded_len [V.Bytes b] [mk_column [] DT.Bytes true].
Proof.
  intros Hb. destruct (write_bytes_escaped b) as [body|] eqn:E.
  - exists (0%Z :: body). split; [|apply length_escaped in E; unfold row_body_encoded_len; cbn; rewrite E].
    + unfold encode_row_body_dense, encode_row_body_dense_into, encode_row_body_dense_masked_into.
      cbn. rewrite E. cbn. by rewrite app_nil_r.
    + unfold str_len. rewrite Hb, Nat.leb_refl. lia.
  - unfold write_bytes_escaped, u32_try_from in E. exfalso. revert E. rewrite Hb. by vm_compute.
Qed.
