(* ===== verification/TypeCodec.v ===== *)
(** The codec of column types in the catalog (crates/spg-storage/src/codec.rs):
    [write_data_type] and [read_data_type], a tag byte and the type's
    parameters. *)
From S2P Require Import Prelude Bytes Text Values CodecIO CodecReads RowCodec RowCodecOk.
Open Scope Z_scope.

#[local] Arguments le_bytes : simpl never.

Definition write_data_type (t : DataType) : list Z :=
  match t with
  | DT.Void => [0]
  | DT.Int => [1]
  | DT.BigInt => [2]
  | DT.Float => [3]
  | DT.Real => [68]
  | DT.Text => [4]
  | DT.Name => [72]
  | DT.Xid => [73]
  | DT.Tid => [84]
  | DT.Cid => [85]
  | DT.RegClass => [86]
  | DT.RegType => [87]
  | DT.RegProc => [88]
  | DT.PgNodeTree => [89]
  | DT.AnyArray => [90]
  | DT.AclItemArray => [91]
  | DT.Char1Array => [92]
  | DT.RegTypeArray => [93]
  | DT.Xid8 => [74]
  | DT.Oid => [75]
  | DT.OidArray => [76]
  | DT.Int2Vector => [77]
  | DT.OidVector => [78]
  | DT.Bool => [5]
  | DT.SmallInt => [7]
  | DT.Date => [11]
  | DT.Timestamp => [12]
  | DT.Timestamptz => [17]
  | DT.Interval => [34]
  | DT.IntervalArray => [35]
  | DT.BoolArray => [36]
  | DT.SmallIntArray => [37]
  | DT.FloatArray => [38]
  | DT.NumericArray => [39]
  | DT.DateArray => [40]
  | DT.TimestampArray => [41]
  | DT.TimestamptzArray => [42]
  | DT.UuidArray => [43]
  | DT.JsonArray => [44]
  | DT.JsonbArray => [45]
  | DT.BytesArray => [46]
  | DT.VarcharArray => [47]
  | DT.CharArray => [48]
  | DT.Point => [50]
  | DT.Lseg => [51]
  | DT.Path => [52]
  | DT.PgBox => [53]
  | DT.Polygon => [54]
  | DT.Line => [55]
  | DT.Circle => [56]
  | DT.Inet => [57]
  | DT.Cidr => [58]
  | DT.Macaddr => [59]
  | DT.Macaddr8 => [60]
  | DT.Xml => [63]
  | DT.Char1 => [64]
  | DT.MoneyArray => [65]
  | DT.RealArray => [79]
  | DT.TimeArray => [80]
  | DT.TimeTzArray => [81]
  | DT.InetArray => [82]
  | DT.XmlArray => [83]
  | DT.PgLsn => [66]
  | DT.Json => [13]
  | DT.Jsonb => [16]
  | DT.Bytes => [18]
  | DT.TextArray => [19]
  | DT.IntArray => [20]
  | DT.BigIntArray => [21]
  | DT.TsVector => [22]
  | DT.TsQuery => [23]
  | DT.Uuid => [24]
  | DT.Time => [25]
  | DT.Year => [26]
  | DT.TimeTz => [27]
  | DT.Money => [28]
  | DT.Hstore => [30]
  | DT.IntArray2D => [31]
  | DT.BigIntArray2D => [32]
  | DT.TextArray2D => [33]
  | DT.BoolArray2D => [67]
  | DT.Vector dim F32 => 6 :: le_bytes 4 dim
  | DT.Vector dim F16 => 15 :: le_bytes 4 dim
  | DT.Vector dim Sq8 => 14 :: le_bytes 4 dim
  | DT.Varchar max => 8 :: le_bytes 4 max
  | DT.Char size => 9 :: le_bytes 4 size
  | DT.Numeric precision scale =>
    if (precision <? 256) && ((0 <=? scale) && (scale <? 256)) then [10; precision; scale]
    else 69 :: le_bytes 2 precision ++ le_bytes 2 scale
  | DT.Multirange k => [49; range_tag k]
  | DT.Bit n => if n =? 0 then [61] else 70 :: le_bytes 4 n
  | DT.BitVarying n => if n =? 0 then [62] else 71 :: le_bytes 4 n
  | DT.Range k => [29; range_tag k]
  end.

Definition read_range_kind (message : string) : Read RangeKind :=
  let* kt := read_u8 in
  match range_from_tag kt with Some k => ret k | None => corrupt message end.

Definition read_data_type : Read DataType :=
  let* tag := read_u8 in
  match tag with
  | 1 => ret DT.Int
  | 2 => ret DT.BigInt
  | 3 => ret DT.Float
  | 4 => ret DT.Text
  | 72 => ret DT.Name
  | 73 => ret DT.Xid
  | 84 => ret DT.Tid
  | 85 => ret DT.Cid
  | 86 => ret DT.RegClass
  | 87 => ret DT.RegType
  | 88 => ret DT.RegProc
  | 89 => ret DT.PgNodeTree
  | 90 => ret DT.AnyArray
  | 91 => ret DT.AclItemArray
  | 92 => ret DT.Char1Array
  | 74 => ret DT.Xid8
  | 75 => ret DT.Oid
  | 76 => ret DT.OidArray
  | 77 => ret DT.Int2Vector
  | 78 => ret DT.OidVector
  | 5 => ret DT.Bool
  | 7 => ret DT.SmallInt
  | 11 => ret DT.Date
  | 12 => ret DT.Timestamp
  | 13 => ret DT.Json
  | 16 => ret DT.Jsonb
  | 17 => ret DT.Timestamptz
  | 18 => ret DT.Bytes
  | 19 => ret DT.TextArray
  | 20 => ret DT.IntArray
  | 21 => ret DT.BigIntArray
  | 22 => ret DT.TsVector
  | 23 => ret DT.TsQuery
  | 24 => ret DT.Uuid
  | 25 => ret DT.Time
  | 26 => ret DT.Year
  | 27 => ret DT.TimeTz
  | 28 => ret DT.Money
  | 30 => ret DT.Hstore
  | 31 => ret DT.IntArray2D
  | 32 => ret DT.BigIntArray2D
  | 33 => ret DT.TextArray2D
  | 67 => ret DT.BoolArray2D
  | 34 => ret DT.Interval
  | 35 => ret DT.IntervalArray
  | 36 => ret DT.BoolArray
  | 37 => ret DT.SmallIntArray
  | 38 => ret DT.FloatArray
  | 39 => ret DT.NumericArray
  | 40 => ret DT.DateArray
  | 41 => ret DT.TimestampArray
  | 42 => ret DT.TimestamptzArray
  | 43 => ret DT.UuidArray
  | 44 => ret DT.JsonArray
  | 45 => ret DT.JsonbArray
  | 46 => ret DT.BytesArray
  | 47 => ret DT.VarcharArray
  | 48 => ret DT.CharArray
  | 50 => ret DT.Point
  | 51 => ret DT.Lseg
  | 52 => ret DT.Path
  | 53 => ret DT.PgBox
  | 54 => ret DT.Polygon
  | 55 => ret DT.Line
  | 56 => ret DT.Circle
  | 57 => ret DT.Inet
  | 58 => ret DT.Cidr
  | 59 => ret DT.Macaddr
  | 60 => ret DT.Macaddr8
  | 63 => ret DT.Xml
  | 64 => ret DT.Char1
  | 65 => ret DT.MoneyArray
  | 79 => ret DT.RealArray
  | 80 => ret DT.TimeArray
  | 81 => ret DT.TimeTzArray
  | 82 => ret DT.InetArray
  | 83 => ret DT.XmlArray
  | 66 => ret DT.PgLsn
  | 68 => ret DT.Real
  | 6 => let* dim := read_u32 in ret (DT.Vector dim F32)
  | 8 => let* max := read_u32 in ret (DT.Varchar max)
  | 9 => let* size := read_u32 in ret (DT.Char size)
  | 10 => let* precision := read_u8 in let* scale := read_u8 in ret (DT.Numeric precision scale)
  | 69 =>
    let* precision := read_u16_bytes in
    let* scale := read_u16_bytes in
    ret (DT.Numeric precision (signed 16 scale))
  | 14 => let* dim := read_u32 in ret (DT.Vector dim Sq8)
  | 15 => let* dim := read_u32 in ret (DT.Vector dim F16)
  | 29 => let* k := read_range_kind "unknown RangeKind tag" in ret (DT.Range k)
  | 49 => let* k := read_range_kind "unknown RangeKind tag in multirange" in ret (DT.Multirange k)
  | 61 => ret (DT.Bit 0)
  | 62 => ret (DT.BitVarying 0)
  | 70 => let* n := read_u32 in ret (DT.Bit n)
  | 71 => let* n := read_u32 in ret (DT.BitVarying n)
  | _ => corrupt "unknown data type tag"
  end.

(** The types Rust's fields allow. *)
Definition type_ok (t : DataType) : Prop :=
  match t with
  | DT.Varchar n | DT.Char n | DT.Vector n _ | DT.Bit n | DT.BitVarying n => u32 n
  | DT.Numeric precision scale => u16 precision /\ i16 scale
  | _ => True
  end.

(** The two types the reader has no tag for. *)
Definition unreadable (t : DataType) : bool := match t with DT.Void | DT.RegTypeArray => true | _ => false end.

Section TypeCodec.
Context (ver : Z).

Lemma reads_kind message k : reads ver (read_range_kind message) [range_tag k] k.
Proof. apply reads_u8_then. rewrite range_from_tag_tag. apply reads_ret. Qed.

Lemma reads_i16_bytes n : i16 n -> reads ver read_u16_bytes (le_bytes 2 n) (wrap 16 n).
Proof.
  intros H. replace (le_bytes 2 n) with (le_bytes 2 (wrap 16 n)).
  - by apply reads_u16_bytes, wrap_range.
  - rewrite <-(le_bytes_le_val_n 2 (le_bytes 2 n)), le_val_le_bytes by (apply length_le_bytes || apply le_bytes_bytes).
    reflexivity.
Qed.

Lemma reads_numeric_type precision scale :
  u16 precision -> i16 scale ->
  reads ver read_data_type (write_data_type (DT.Numeric precision scale)) (DT.Numeric precision scale).
Proof.
  intros Hp Hs. cbn [write_data_type].
  destruct ((precision <? 256) && ((0 <=? scale) && (scale <? 256))); apply reads_u8_then.
  - apply reads_u8_then. by eapply reads_last; [apply reads_byte|].
  - eapply reads_bind; [by apply reads_u16_bytes|].
    eapply reads_last; [by apply reads_i16_bytes|]. by rewrite (signed_wrap 16).
Qed.

Lemma unknown_tag tag pre post :
  tag = 0 \/ tag = 93 ->
  read_data_type (mk_cursor (pre ++ [tag] ++ post) (length pre) ver) = Some (Err (Corrupt "unknown data type tag")).
Proof. intros H. unfold read_data_type, bind. rewrite (reads_byte ver tag pre post). by destruct H as [-> | ->]. Qed.

(** Round trip of column types.  Of every type, what the catalog writes
    is read back as that type, wherever it stands and at any version, but for
    [void], which is not a column type, and [regtype[]], whose tag the reader
    does not know: those two are read as an error. *)
Lemma type_roundtrip t :
  type_ok t ->
  if unreadable t then
    forall pre post, read_data_type (mk_cursor (pre ++ write_data_type t ++ post) (length pre) ver) =
      Some (Err (Corrupt "unknown data type tag"))
  else reads ver read_data_type (write_data_type t) t.
Proof.
  intros Ht. destruct t; cbn [unreadable write_data_type];
    try solve [apply reads_u8_then, reads_ret]; cbn [type_ok] in Ht.
  - apply reads_u8_then. by eapply reads_last; [apply reads_u32|].
  - apply reads_u8_then. by eapply reads_last; [apply reads_u32|].
  - destruct encoding; apply reads_u8_then; by eapply reads_last; [apply reads_u32|].
  - destruct Ht. by apply reads_numeric_type.
  - intros. apply unknown_tag. auto.
  - intros. apply unknown_tag. auto.
  - apply reads_u8_then. by eapply reads_last; [apply reads_kind|].
  - case_if; apply reads_u8_then; [subst n; apply reads_ret|]. by eapply reads_last; [apply reads_u32|].
  - case_if; apply reads_u8_then; [subst n; apply reads_ret|]. by eapply reads_last; [apply reads_u32|].
  - apply reads_u8_then. by eapply reads_last; [apply reads_kind|].
Qed.
End TypeCodec.
