(* ===== verification/Heap.v ===== *)
(** The rows of a table (crates/spg-storage/src/table.rs): appending, marking
    deleted, compacting and vacuuming rows, the write track of a transaction,
    its write-set and the replay of one onto a fresher copy of the table.

    [rows], [headers] and [rowids] are persistent vectors, here the lists they
    refine.  The row-id allocator is shared by every clone of a table, so it is
    a counter of a store, [Counters], and the table holds its place.  Row ids
    and counts never reach 2^64.  [debug_assert]s are absent, as in a release
    build; the secondary indexes, which the same functions maintain, are not
    modelled. *)
From stdpp Require Import gmap.
From S2P Require Import Prelude SortedMap BigNum Values RowCodec RowAccept RowLen Mvcc.
Open Scope Z_scope.

#[export] Instance row_header_eq_dec : EqDecision RowHeader.
Proof. solve_decision. Defined.

(** ** The data *)

(** Physical changes captured for the log; [Insert] and the others carry the
    table's name. *)
Inductive RowChange : Type :=
| RcInsert (table : list Z) (row : Row) (rowid writer_version : Z)
| RcUpdate (table : list Z) (pos : nat) (new_row : Row) (rowid writer_version : Z)
| RcDelete (table : list Z) (positions : list nat) (rowids : list Z) (writer_version : Z)
| RcTombstone (table : list Z) (rowids : list Z) (xmax : Z).

Record TxWriteTrack : Type := mk_track {
  track_version : Z;
  track_inserted : list (nat * Z);
  track_tombstoned : list (nat * Z)
}.

Record TxWriteSet : Type := mk_writeset {
  inserted : list (Z * Row);
  tombstoned : list (Z * Z)
}.

Definition is_empty (ws : TxWriteSet) : bool :=
  match inserted ws, tombstoned ws with [], [] => true | _, _ => false end.

Record Table : Type := mk_table {
  name : list Z;
  rel_id : Z;
  schema : TableSchema;
  rows : list Row;
  headers : list RowHeader;
  rowids : list Z;
  next_rowid : nat;
  dead_rows : Z;
  hot_bytes : Z;
  redo_log : option (list RowChange);
  tx_write_track : option TxWriteTrack
}.

Inductive TableError : Type :=
| ArityMismatch (expected actual : nat)
| Rejected (e : InsertError)
| OutOfBounds (position : nat).

(** The allocators, by the place an [Arc] points to. *)
Abbreviation Counters := (gmap nat Z) (only parsing).
Definition counter (c : Counters) (p : nat) : Z := default 1 (c !! p).

Definition UNASSIGNED : Z := 0.
Definition U64_MAX : Z := 2 ^ 64 - 1.
Definition saturating_add (x y : Z) : Z := Z.min (x + y) U64_MAX.
Definition saturating_sub (x y : Z) : Z := Z.max (x - y) 0.

Definition new (name : list Z) (schema : TableSchema) (next_rowid : nat) : Table :=
  mk_table name 0 schema [] [] [] next_rowid 0 0 None None.

Definition with_heap (t : Table) (rs : list Row) (hs : list RowHeader) (ids : list Z) : Table :=
  mk_table (name t) (rel_id t) (schema t) rs hs ids (next_rowid t) (dead_rows t) (hot_bytes t) (redo_log t) (tx_write_track t).
Definition with_headers (t : Table) (hs : list RowHeader) : Table := with_heap t (rows t) hs (rowids t).
Definition with_dead (t : Table) (n : Z) : Table :=
  mk_table (name t) (rel_id t) (schema t) (rows t) (headers t) (rowids t) (next_rowid t) n (hot_bytes t) (redo_log t) (tx_write_track t).
Definition with_hot (t : Table) (n : Z) : Table :=
  mk_table (name t) (rel_id t) (schema t) (rows t) (headers t) (rowids t) (next_rowid t) (dead_rows t) n (redo_log t) (tx_write_track t).
Definition with_redo (t : Table) (log : option (list RowChange)) : Table :=
  mk_table (name t) (rel_id t) (schema t) (rows t) (headers t) (rowids t) (next_rowid t) (dead_rows t) (hot_bytes t) log (tx_write_track t).
Definition with_track (t : Table) (track : option TxWriteTrack) : Table :=
  mk_table (name t) (rel_id t) (schema t) (rows t) (headers t) (rowids t) (next_rowid t) (dead_rows t) (hot_bytes t) (redo_log t) track.

(** ** Row ids and redo capture *)

Definition alloc_rowid (t : Table) (c : Counters) : Z * Counters :=
  (counter c (next_rowid t), <[next_rowid t := counter c (next_rowid t) + 1]> c).

Definition rowid_or_unassigned (t : Table) (position : nat) : Z := default UNASSIGNED (rowids t !! position).

Definition assign_dense_rowids (t : Table) (c : Counters) : Table * Counters :=
  let n := length (rows t) in
  (with_heap t (rows t) (headers t) (map (fun i => Z.of_nat (S i)) (seq 0 n)), <[next_rowid t := Z.of_nat n + 1]> c).

Definition enable_redo (t : Table) : Table :=
  match redo_log t with None => with_redo t (Some []) | Some _ => t end.
Definition disable_redo (t : Table) : Table := with_redo t None.
Definition redo_capturing (t : Table) : bool := match redo_log t with Some _ => true | None => false end.
Definition has_pending_redo (t : Table) : bool := match redo_log t with Some (_ :: _) => true | _ => false end.
Definition drain_pending_redo (t : Table) : list RowChange * Table :=
  match redo_log t with
  | Some log => (log, with_redo t (Some []))
  | None => ([], t)
  end.
Definition record_redo (make : list Z -> RowChange) (t : Table) : Table :=
  match redo_log t with
  | Some log => with_redo t (Some (log ++ [make (name t)]))
  | None => t
  end.

(** ** The write track *)

Definition write_track_for (t : Table) (v : Z) : TxWriteTrack :=
  match tx_write_track t with
  | Some tr => if track_version tr =? v then tr else mk_track v [] []
  | None => mk_track v [] []
  end.

Definition track_insert (v : Z) (pos : nat) (rid : Z) (t : Table) : Table :=
  let tr := write_track_for t v in
  with_track t (Some (mk_track (track_version tr) (track_inserted tr ++ [(pos, rid)]) (track_tombstoned tr))).

Definition track_tombstone (v : Z) (pos : nat) (rid : Z) (t : Table) : Table :=
  let tr := write_track_for t v in
  with_track t (Some (mk_track (track_version tr) (track_inserted tr) (track_tombstoned tr ++ [(pos, rid)]))).

(** ** Appending *)

Definition encoded_len (t : Table) (row : Row) : Z := Z.of_nat (row_body_encoded_len row (schema t)).

(** [insert_keyed]; the outer option is a panic of the validator. *)
Definition insert_keyed (row : Row) (t : Table) (c : Counters) : outcome (Table * Counters) TableError :=
  if negb (length row =? length (schema t))%nat then Some (Err (ArityMismatch (length (schema t)) (length row)))
  else
    let! checked := validate_row_against_schema row (schema t) in
    match checked with
    | Err e => Some (Err (Rejected e))
    | Ok () =>
      let t := with_hot t (saturating_add (hot_bytes t) (encoded_len t row)) in
      let redo_rowid := counter c (next_rowid t) in
      let t := record_redo (fun table => RcInsert table row redo_rowid 0) t in
      let '(rid, c) := alloc_rowid t c in
      Some (Ok (with_heap t (rows t ++ [row]) (headers t ++ [frozen]) (rowids t ++ [rid]), c))
    end.

Definition insert (row : Row) (t : Table) (c : Counters) : outcome (Table * Counters) TableError := insert_keyed row t c.

Definition insert_with_xmin_keyed (row : Row) (xmin : Z) (t : Table) (c : Counters) : outcome (Table * Counters) TableError :=
  if xmin =? XMIN_FROZEN then insert_keyed row t c
  else
    let!? (t, c) := insert_keyed row t c in
    let last := (length (headers t) - 1)%nat in
    let t := with_headers t (<[last := alive xmin]> (headers t)) in
    Some (Ok (if negb (xmin =? 0) then track_insert xmin last (rowid_or_unassigned t last) t else t, c)).

Definition insert_with_xmin : Row -> Z -> Table -> Counters -> outcome (Table * Counters) TableError := insert_with_xmin_keyed.

(** ** Marking rows deleted *)

Definition set_xmax (xmax : Z) (h : RowHeader) : RowHeader := mk_header (xmin h) xmax (flags h).

(** What both forms do to an alive header in bounds. *)
Definition tombstone (position : nat) (h : RowHeader) (xmax : Z) (t : Table) : Table :=
  let t := with_headers t (<[position := set_xmax xmax h]> (headers t)) in
  let t := with_dead t (dead_rows t + 1) in
  if negb (xmax =? 0) && negb (xmax =? XMAX_ALIVE) then track_tombstone xmax position (rowid_or_unassigned t position) t
  else t.

Definition mark_row_deleted (position : nat) (xmax' : Z) (t : Table) : result Table TableError :=
  match headers t !! position with
  | None => Err (OutOfBounds position)
  | Some h =>
    if negb (xmax h =? XMAX_ALIVE) then Ok t
    else
      let t := tombstone position h xmax' t in
      Ok (record_redo (fun table => RcTombstone table [rowid_or_unassigned t position] xmax') t)
  end.

(** One turn of [mark_rows_deleted]: the table, and the row ids newly marked. *)
Definition mark_one (xmax' : Z) (acc : Table * list Z) (position : nat) : Table * list Z :=
  let '(t, marked) := acc in
  match headers t !! position with
  | Some h =>
    if xmax h =? XMAX_ALIVE then (tombstone position h xmax' t, marked ++ [rowid_or_unassigned t position]) else (t, marked)
  | None => (t, marked)
  end.

Definition mark_rows_deleted (positions : list nat) (xmax' : Z) (t : Table) : nat * Table :=
  let '(t, marked) := fold_left (mark_one xmax') positions (t, []) in
  (length marked,
   match marked with [] => t | _ => record_redo (fun table => RcTombstone table marked xmax') t end).

(** ** Write-sets *)

(** [u32::try_from(pos).unwrap_or(u32::MAX)] *)
Definition hint_of (pos : nat) : Z := Z.min (Z.of_nat pos) (2 ^ 32 - 1).

(** The inserts a track lists, if every one checks out. *)
Fixpoint verified (t : Table) (v : Z) (listed : list (nat * Z)) : option (list (Z * Row)) :=
  match listed with
  | [] => Some []
  | (pos, rid) :: listed =>
    h ← headers t !! pos;
    guard (xmin h = v);;
    guard (rowids t !! pos = Some rid);;
    row ← rows t !! pos;
    rest ← verified t v listed;
    Some ((rid, row) :: rest)
  end.

(** The scan of every header, from slot [i] on. *)
Fixpoint scan_writeset (t : Table) (v : Z) (i : nat) (hs : list RowHeader) : TxWriteSet :=
  match hs with
  | [] => mk_writeset [] []
  | h :: hs =>
    let rest := scan_writeset t v (S i) hs in
    let rid := rowid_or_unassigned t i in
    mk_writeset
      (match rows t !! i with Some row => if xmin h =? v then (rid, row) :: inserted rest else inserted rest | None => inserted rest end)
      (if xmax h =? v then (rid, hint_of i) :: tombstoned rest else tombstoned rest)
  end.

Definition extract_tx_writeset (t : Table) (v : Z) : TxWriteSet :=
  let by_scan := scan_writeset t v 0 (headers t) in
  match tx_write_track t with
  | Some tr =>
    if track_version tr =? v then
      match verified t v (track_inserted tr) with
      | Some ins => mk_writeset ins (map (fun '(pos, rid) => (rid, hint_of pos)) (track_tombstoned tr))
      | None => by_scan
      end
    else by_scan
  | None => by_scan
  end.

(** The binary search over row ids that mostly ascend. *)
Fixpoint search_rowid (ids : list Z) (rid : Z) (fuel lo hi : nat) : option nat :=
  match fuel with
  | O => None
  | S fuel =>
    if (lo <? hi)%nat then
      let mid := (lo + (hi - lo) / 2)%nat in
      match ids !! mid with
      | Some m => if m =? rid then Some mid
                  else if m <? rid then search_rowid ids rid fuel (S mid) hi
                  else search_rowid ids rid fuel lo mid
      | None => None
      end
    else None
  end.

(** [(0..n).find(..)], from [i] on. *)
Fixpoint find_rowid (ids : list Z) (rid : Z) (i : nat) : option nat :=
  match ids with
  | [] => None
  | m :: ids => if m =? rid then Some i else find_rowid ids rid (S i)
  end.

Definition rowid_position (t : Table) (rid : Z) : option nat :=
  match search_rowid (rowids t) rid (S (length (rowids t))) 0 (length (rowids t)) with
  | Some i => Some i
  | None => find_rowid (rowids t) rid 0
  end.

Definition rowid_at (t : Table) (rid hint : Z) : option nat :=
  if bool_decide (rowids t !! Z.to_nat hint = Some rid) then Some (Z.to_nat hint) else rowid_position t rid.

Definition is_conflict (t : Table) (v : Z) (target : Z * Z) : bool :=
  match rowid_at t target.1 target.2 with
  | Some i => match headers t !! i with
              | Some h => negb (xmax h =? XMAX_ALIVE) && negb (xmax h =? v)
              | None => false
              end
  | None => true
  end.

Definition tombstone_conflicts (t : Table) (targets : list (Z * Z)) (v : Z) : list Z :=
  map fst (filter (fun target => is_conflict t v target = true) targets).

(** One replayed insert: the table, the counters and where each row went. *)
Definition replay_insert (v : Z) (acc : Table * Counters * gmap Z nat) (e : Z * Row) : option (Table * Counters * gmap Z nat) :=
  let '(t, c, replayed) := acc in
  let '(rid, row) := e in
  let! res := insert_keyed row t c in
  match res with
  | Err _ => Some (t, c, replayed)
  | Ok (t, c) =>
    let last := (length (rows t) - 1)%nat in
    let t := with_headers t (alter (fun h => mk_header v (xmax h) (flags h)) last (headers t)) in
    let t := with_heap t (rows t) (headers t) (<[last := rid]> (rowids t)) in
    Some (track_insert v last rid t, c, <[rid := last]> replayed)
  end.

Fixpoint replay_inserts (v : Z) (acc : Table * Counters * gmap Z nat) (es : list (Z * Row)) : option (Table * Counters * gmap Z nat) :=
  match es with
  | [] => Some acc
  | e :: es => let! acc := replay_insert v acc e in replay_inserts v acc es
  end.

(** One replayed tombstone: the table and the conflicts so far. *)
Definition replay_tombstone (v : Z) (replayed : gmap Z nat) (acc : Table * list Z) (target : Z * Z) : Table * list Z :=
  let '(t, conflicts) := acc in
  let '(rid, hint) := target in
  match (match replayed !! rid with Some p => Some p | None => rowid_at t rid hint end) with
  | Some i =>
    match headers t !! i with
    | Some h =>
      if xmax h =? XMAX_ALIVE then
        (track_tombstone v i rid (with_dead (with_headers t (<[i := set_xmax v h]> (headers t))) (dead_rows t + 1)), conflicts)
      else if xmax h =? v then (t, conflicts)
      else (t, conflicts ++ [rid])
    | None => (t, conflicts ++ [rid])
    end
  | None => (t, conflicts ++ [rid])
  end.

Definition replay_tx_writeset_keyed (ws : TxWriteSet) (v : Z) (t : Table) (c : Counters) : option (list Z * Table * Counters) :=
  let! acc := replay_inserts v (t, c, ∅) (inserted ws) in
  let '(t, c, replayed) := acc in
  let '(t, conflicts) := fold_left (replay_tombstone v replayed) (tombstoned ws) (t, []) in
  Some (conflicts, t, c).

Definition replay_tx_writeset : TxWriteSet -> Z -> Table -> Counters -> option (list Z * Table * Counters) := replay_tx_writeset_keyed.

(** ** Removing and replacing rows *)

Record Survivors : Type := mk_survivors {
  new_rows : list Row; new_headers : list RowHeader; new_rowids : list Z; removed_bytes : Z; surviving_dead : Z
}.

(** One slot of the compaction. *)
Definition compact_slot (t : Table) (doomed : nat -> bool) (acc : Survivors * Counters) (e : nat * Row) : Survivors * Counters :=
  let '(s, c) := acc in
  let '(i, row) := e in
  if doomed i then
    (mk_survivors (new_rows s) (new_headers s) (new_rowids s) (saturating_add (removed_bytes s) (encoded_len t row)) (surviving_dead s), c)
  else
    let h := default frozen (headers t !! i) in
    let '(rid, c) := match rowids t !! i with Some rid => (rid, c) | None => alloc_rowid t c end in
    (mk_survivors (new_rows s ++ [row]) (new_headers s ++ [h]) (new_rowids s ++ [rid]) (removed_bytes s)
       (surviving_dead s + if is_deleted h then 1 else 0), c).

(** The distinct positions in range. *)
Definition to_remove (t : Table) (positions : list nat) : list nat :=
  filter (fun p => (p < length (rows t))%nat) (remove_dups positions).

Definition delete_rows_no_index (positions : list nat) (t : Table) (c : Counters) : nat * Table * Counters :=
  match to_remove t positions with
  | [] => (0%nat, t, c)
  | doomed =>
    let '(s, c) := fold_left (compact_slot t (fun i => bool_decide (i ∈ doomed)))
                     (zip (seq 0 (length (rows t))) (rows t)) (mk_survivors [] [] [] 0 0, c) in
    let t' := with_heap t (new_rows s) (new_headers s) (new_rowids s) in
    (length doomed, with_dead (with_hot t' (saturating_sub (hot_bytes t) (removed_bytes s))) (surviving_dead s), c)
  end.

Definition delete_rows (positions : list nat) (t : Table) (c : Counters) : nat * Table * Counters :=
  let redo_rowids := if redo_capturing t then map (rowid_or_unassigned t) positions else [] in
  let '(removed, t, c) := delete_rows_no_index positions t c in
  (removed,
   if (0 <? removed)%nat then record_redo (fun table => RcDelete table positions redo_rowids 0) t else t, c).

Definition vacuum (oldest_active : Z) (dry_run : bool) (t : Table) (c : Counters) : (nat * nat) * Table * Counters :=
  let reclaimable i := default false (h ← headers t !! i; Some (is_reclaimable (xmax h) oldest_active)) in
  let to_reclaim := filter (fun i => reclaimable i = true) (seq 0 (length (headers t))) in
  if bool_decide (to_reclaim = []) || dry_run then ((length to_reclaim, length (headers t)), t, c)
  else
    let '(removed, t', c) := delete_rows_no_index to_reclaim t c in
    ((removed, length (headers t)), t', c).

Definition update_row (position : nat) (new_values : Row) (t : Table) : outcome Table TableError :=
  match rows t !! position with
  | None => Some (Err (OutOfBounds position))
  | Some old_row =>
    if negb (length new_values =? length (schema t))%nat then Some (Err (ArityMismatch (length (schema t)) (length new_values)))
    else
      let! checked := validate_row_against_schema new_values (schema t) in
      match checked with
      | Err e => Some (Err (Rejected e))
      | Ok () =>
        let t := with_heap t (<[position := new_values]> (rows t)) (headers t) (rowids t) in
        let t := with_hot t (saturating_add (saturating_sub (hot_bytes t) (encoded_len t old_row)) (encoded_len t new_values)) in
        Some (Ok (record_redo (fun table => RcUpdate table position new_values (rowid_or_unassigned t position) 0) t))
      end
  end.

(** [dead_rows] stays as it was. *)
Definition truncate (t : Table) : Table := with_hot (with_heap t [] [] []) 0.

(** ** Reading *)

Definition header_visible (t : Table) (idx : nat) (h : RowHeader) (snapshot : Snapshot) : bool :=
  match locked_out snapshot with
  | Some (rel, set) => if (rel =? rel_id t) && bool_decide (idx ∈ set) then false else visible snapshot h
  | None => visible snapshot h
  end.

Definition is_row_visible (t : Table) (idx : nat) (snapshot : Snapshot) : bool :=
  match headers t !! idx with Some h => header_visible t idx h snapshot | None => false end.

Definition is_all_visible (t : Table) : bool := forallb is_all_visible_fast (headers t).

Definition count_visible (t : Table) (snapshot : Snapshot) : nat :=
  length (filter (fun e => header_visible t e.1 e.2 snapshot = true) (zip (seq 0 (length (headers t))) (headers t))).

Definition slots_from (t : Table) (start : nat) : list (nat * (Row * RowHeader)) :=
  drop start (zip (seq 0 (length (zip (rows t) (headers t)))) (zip (rows t) (headers t))).

Definition scan_visible_from (t : Table) (start : nat) (snapshot : Snapshot) : list (nat * Row) :=
  map (fun '(i, (r, _)) => (i, r)) (filter (fun e => header_visible t e.1 e.2.2 snapshot = true) (slots_from t start)).

Definition scan_visible (t : Table) (snapshot : Snapshot) : list (nat * Row) := scan_visible_from t 0 snapshot.

(** [slots] are half-open ranges. *)
Definition scan_visible_slots (t : Table) (slots : list (nat * nat)) (snapshot : Snapshot) : list (nat * Row) :=
  omap (fun i => h ← headers t !! i;
                 if negb (header_visible t i h snapshot) then None else pair i <$> rows t !! i)
    (flat_map (fun '(a, b) => seq a (b - a)) slots).

(** The binary search of [resume_slot_after]. *)
Fixpoint resume_search (ids : list Z) (last : Z) (fuel lo hi : nat) : nat :=
  match fuel with
  | O => lo
  | S fuel =>
    if (lo <? hi)%nat then
      let mid := (lo + (hi - lo) / 2)%nat in
      match ids !! mid with
      | Some r => if r <=? last then resume_search ids last fuel (S mid) hi else resume_search ids last fuel lo mid
      | None => resume_search ids last fuel lo mid
      end
    else lo
  end.

Definition resume_slot_after (t : Table) (last : Z) (hint : nat) : nat :=
  if (0 <? hint)%nat && bool_decide (rowids t !! (hint - 1)%nat = Some last) then hint
  else resume_search (rowids t) last (S (length (rowids t))) 0 (length (rowids t)).
