(* ===== verification/HeapOps.v ===== *)
(** What the row operations of [Heap] do to a table seen as a map from row ids
    to rows and headers, and the invariant of its vectors, its allocator, its
    dead-row count and its write track.

    Every row operation of [Heap] on the map of row ids it maintains, each with
    the invariant and the write track it keeps. *)
From stdpp Require Import gmap.
From S2P Require Import Prelude SortedMap BigNum Values RowCodec RowAccept RowLen Mvcc Heap.
Open Scope Z_scope.

(** ** A table as a map *)

Abbreviation Cell := (Row * RowHeader)%type.

Definition heap (t : Table) : gmap Z Cell := list_to_map (zip (rowids t) (zip (rows t) (headers t))).

(** The number of tombstones. *)
Definition dead (hs : list RowHeader) : Z := Z.of_nat (length (filter (fun h => is_deleted h = true) hs)).

Record table_ok (c : Counters) (t : Table) : Prop := {
  ok_headers : length (headers t) = length (rows t);
  ok_rowids : length (rowids t) = length (rows t);
  ok_unique : NoDup (rowids t);
  ok_ids : Forall (fun r => 1 <= r < counter c (next_rowid t)) (rowids t);
  ok_dead : dead_rows t = dead (headers t)
}.

(** Slot [i] holds row [rid], written (deleted) by [v]. *)
Definition minted (v : Z) (t : Table) (i : nat) (rid : Z) : Prop :=
  rowids t !! i = Some rid /\ exists h, headers t !! i = Some h /\ xmin h = v.
Definition killed (v : Z) (t : Table) (i : nat) (rid : Z) : Prop :=
  rowids t !! i = Some rid /\ exists h, headers t !! i = Some h /\ xmax h = v.

(** The track lists what [v] wrote, all of it and nothing else. *)
Record track_ok (v : Z) (t : Table) : Prop := {
  ok_inserted i rid : (i, rid) ∈ track_inserted (write_track_for t v) <-> minted v t i rid;
  ok_tombstoned i rid : (i, rid) ∈ track_tombstoned (write_track_for t v) <-> killed v t i rid;
  ok_inserted_once : NoDup (track_inserted (write_track_for t v));
  ok_tombstoned_once : NoDup (track_tombstoned (write_track_for t v))
}.

(** What stays the same of a table whatever is done to its rows. *)
Definition same_table (t t' : Table) : Prop :=
  (name t' = name t /\ redo_capturing t' = redo_capturing t) /\ rel_id t' = rel_id t /\ schema t' = schema t /\ next_rowid t' = next_rowid t.

#[export] Instance same_table_preorder : PreOrder same_table.
Proof. split; [done|]. unfold same_table. intros ???; naive_solver congruence. Qed.

Lemma same_redo t t' : same_table t t' -> redo_capturing t = false -> redo_capturing t' = false.
Proof. intros ((_ & E) & _). by rewrite E. Qed.

(** ** Lists *)

Lemma dead_app hs hs' : dead (hs ++ hs') = dead hs + dead hs'.
Proof. unfold dead. rewrite filter_app, length_app. lia. Qed.

Lemma dead_insert hs i h h' :
  hs !! i = Some h -> dead (<[i := h']> hs) = dead hs - (if is_deleted h then 1 else 0) + (if is_deleted h' then 1 else 0).
Proof.
  revert i. induction hs as [|a hs IH]; intros [|i] Hi; cbn [lookup list_lookup] in Hi; simplify_eq.
  - change (<[0%nat := h']> (h :: hs)) with ([h'] ++ hs). change (h :: hs) with ([h] ++ hs). rewrite !dead_app.
    unfold dead. cbn [filter list_filter]. do 2 case_decide; destruct (is_deleted h), (is_deleted h'); cbn; done || lia.
  - change (<[S i := h']> (a :: hs)) with ([a] ++ <[i := h']> hs). change (a :: hs) with ([a] ++ hs).
    rewrite !dead_app, (IH i Hi). lia.
Qed.

Section Lookup.
Context (c : Counters) (t : Table) (Hok : table_ok c t).

Lemma heap_lookup rid r h :
  heap t !! rid = Some (r, h) <-> exists i, rowids t !! i = Some rid /\ rows t !! i = Some r /\ headers t !! i = Some h.
Proof using Hok.
  destruct Hok as [Hh Hr Hu _ _]. unfold heap. rewrite <- elem_of_list_to_map.
  - rewrite list_elem_of_lookup. split.
    + intros [i Hi]. exists i. apply lookup_zip_with_Some in Hi as (x & y & Heq & Hx & Hy). injection Heq as <- <-.
      apply lookup_zip_with_Some in Hy as (x' & y' & Heq & ? & ?). by injection Heq as <- <-.
    + intros (i & Hi & ? & ?). exists i. apply lookup_zip_with_Some. exists rid, (r, h). split_and!; [done|done|].
      apply lookup_zip_with_Some. by eexists _, _.
  - rewrite fst_zip; [done|]. rewrite length_zip_with. lia.
Qed.

Lemma slot_some i rid :
  rowids t !! i = Some rid -> exists r h, rows t !! i = Some r /\ headers t !! i = Some h /\ heap t !! rid = Some (r, h).
Proof using Hok.
  intros Hi. pose proof (lookup_lt_Some _ _ _ Hi) as Hlt. destruct Hok as [Hh Hr Hu _ _].
  destruct (lookup_lt_is_Some_2 (rows t) i) as [r Hri]; [lia|]. destruct (lookup_lt_is_Some_2 (headers t) i) as [h Hhi]; [lia|].
  exists r, h. split_and!; [done|done|]. apply heap_lookup. eauto.
Qed.

Lemma header_slot i h : headers t !! i = Some h -> exists rid r, rowids t !! i = Some rid /\ rows t !! i = Some r /\ heap t !! rid = Some (r, h).
Proof using Hok.
  intros Hi. pose proof (lookup_lt_Some _ _ _ Hi). destruct (lookup_lt_is_Some_2 (rowids t) i) as [rid Hrid].
  { rewrite (ok_rowids _ _ Hok), <- (ok_headers _ _ Hok). done. }
  destruct (slot_some i rid Hrid) as (r & h' & ? & ? & ?). simplify_eq. eauto.
Qed.

Lemma rowid_inj i j rid : rowids t !! i = Some rid -> rowids t !! j = Some rid -> i = j.
Proof using Hok. intros. eapply NoDup_lookup; eauto. apply (ok_unique _ _ Hok). Qed.

Lemma heap_None rid : heap t !! rid = None <-> rid ∉ rowids t.
Proof using Hok.
  split.
  - intros Hn [i Hi]%list_elem_of_lookup. destruct (slot_some i rid Hi) as (? & ? & _ & _ & ?). congruence.
  - intros Hn. destruct (heap t !! rid) as [[r h]|] eqn:E; [|done]. apply heap_lookup in E as (i & Hi & _).
    destruct Hn. by eapply list_elem_of_lookup_2.
Qed.

Lemma heap_bound rid r h : heap t !! rid = Some (r, h) -> 1 <= rid < counter c (next_rowid t).
Proof using Hok.
  intros (i & Hi & _)%heap_lookup. pose proof (ok_ids _ _ Hok) as H. rewrite Forall_lookup in H. by eapply H.
Qed.

Lemma heap_minted v rid : (exists i, minted v t i rid) <-> exists r h, heap t !! rid = Some (r, h) /\ xmin h = v.
Proof using Hok.
  split.
  - intros (i & Hi & h & Hh & <-). destruct (slot_some i rid Hi) as (r & h' & ? & ? & ?). simplify_eq. eauto.
  - intros (r & h & (i & ? & ? & ?)%heap_lookup & <-). exists i. split; eauto.
Qed.

Lemma heap_killed v rid : (exists i, killed v t i rid) <-> exists r h, heap t !! rid = Some (r, h) /\ xmax h = v.
Proof using Hok.
  split.
  - intros (i & Hi & h & Hh & <-). destruct (slot_some i rid Hi) as (r & h' & ? & ? & ?). simplify_eq. eauto.
  - intros (r & h & (i & ? & ? & ?)%heap_lookup & <-). exists i. split; eauto.
Qed.

(** *** Finding a row id *)

Lemma search_rowid_sound ids rid fuel lo hi i : search_rowid ids rid fuel lo hi = Some i -> ids !! i = Some rid.
Proof using.
  revert lo hi. induction fuel as [|fuel IH]; intros lo hi; cbn [search_rowid]; [done|].
  destruct (lo <? hi)%nat; [|done]. destruct (ids !! (lo + (hi - lo) / 2)%nat) as [m|] eqn:E; [|done].
  destruct (Z.eqb_spec m rid) as [->|_]; [by intros [= <-]|]. destruct (m <? rid); eauto.
Qed.

Lemma find_rowid_spec ids rid n :
  match find_rowid ids rid n with
  | Some j => exists k, j = (n + k)%nat /\ ids !! k = Some rid
  | None => rid ∉ ids
  end.
Proof using.
  revert n. induction ids as [|m ids IH]; intros n; cbn [find_rowid]; [apply not_elem_of_nil|].
  destruct (Z.eqb_spec m rid) as [->|Hne]; [exists 0%nat; split; [lia|done]|].
  specialize (IH (S n)). destruct (find_rowid ids rid (S n)) as [j|].
  - destruct IH as (k & -> & ?). exists (S k). split; [lia|done].
  - by apply not_elem_of_cons.
Qed.

(** The search that trusts the order is only ever a short cut. *)
Lemma rowid_position_exact rid i : rowid_position t rid = Some i <-> rowids t !! i = Some rid.
Proof using Hok.
  unfold rowid_position. destruct (search_rowid _ _ _ _ _) as [j|] eqn:E.
  - apply search_rowid_sound in E. split; [by intros [= <-]|]. intros H. by rewrite (rowid_inj _ _ _ E H).
  - pose proof (find_rowid_spec (rowids t) rid 0) as H. destruct (find_rowid _ _ _) as [j|].
    + destruct H as (k & -> & Hk). cbn [Nat.add]. split; [by intros [= <-]|]. intros Hi. by rewrite (rowid_inj _ _ _ Hk Hi).
    + split; [done|]. intros Hi. destruct H. by eapply list_elem_of_lookup_2.
Qed.

Lemma rowid_at_exact rid hint i : rowid_at t rid hint = Some i <-> rowids t !! i = Some rid.
Proof using Hok.
  unfold rowid_at. case_bool_decide as Hb; [|apply rowid_position_exact].
  split; [by intros [= <-]|]. intros Hi. by rewrite (rowid_inj _ _ _ Hb Hi).
Qed.

Lemma rowid_at_None rid hint : rowid_at t rid hint = None <-> heap t !! rid = None.
Proof using Hok.
  rewrite heap_None. split.
  - intros Hn [i Hi]%list_elem_of_lookup. apply (rowid_at_exact rid hint) in Hi. congruence.
  - intros Hn. destruct (rowid_at t rid hint) as [i|] eqn:E; [|done]. apply rowid_at_exact in E.
    destruct Hn. by eapply list_elem_of_lookup_2.
Qed.
End Lookup.

(** ** The two elementary changes *)

Record appended (t t' : Table) (row : Row) (h : RowHeader) (rid : Z) : Prop := {
  app_rows : rows t' = rows t ++ [row];
  app_headers : headers t' = headers t ++ [h];
  app_rowids : rowids t' = rowids t ++ [rid];
  app_dead : dead_rows t' = dead_rows t;
  app_same : same_table t t'
}.

Record remarked (t t' : Table) (i : nat) (h h' : RowHeader) : Prop := {
  mk_rows : rows t' = rows t;
  mk_headers : headers t' = <[i := h']> (headers t);
  mk_rowids : rowids t' = rowids t;
  mk_dead : dead_rows t' = dead_rows t + 1;
  mk_same : same_table t t'
}.

Lemma appended_ok c c' t t' row h rid :
  table_ok c t -> appended t t' row h rid -> is_deleted h = false -> heap t !! rid = None ->
  1 <= rid < counter c' (next_rowid t) -> counter c (next_rowid t) <= counter c' (next_rowid t) ->
  table_ok c' t' /\ heap t' = <[rid := (row, h)]> (heap t).
Proof.
  intros Hok [Hr Hh Hi Hd (Hn & _ & Hs & Hp)] Hal Hfresh Hb Hm. pose proof (proj1 (heap_None c t Hok rid) Hfresh) as Hnew.
  destruct Hok as [Hlh Hli Hu Hids Hdead]. split.
  - split; rewrite ?Hr, ?Hh, ?Hi, ?Hd, ?Hp, ?length_app; cbn [length]; [lia|lia| | |].
    + apply NoDup_app. split_and!; [done| |apply NoDup_singleton]. intros x Hx Hx'%list_elem_of_singleton. by subst.
    + apply Forall_app. split; [|by apply Forall_singleton]. eapply Forall_impl; [exact Hids|]. cbn. lia.
    + rewrite dead_app, Hdead. assert (dead [h] = 0) as -> by (unfold dead; rewrite filter_cons_False by (by rewrite Hal); done). lia.
  - unfold heap. rewrite Hr, Hh, Hi. rewrite !zip_with_app by (rewrite ?length_zip_with; lia). cbn [zip_with].
    apply list_to_map_snoc. rewrite fst_zip by (rewrite length_zip_with; lia). done.
Qed.

Lemma remarked_ok c t t' i h h' rid r :
  table_ok c t -> remarked t t' i h h' -> rowids t !! i = Some rid -> rows t !! i = Some r -> headers t !! i = Some h ->
  is_deleted h = false -> is_deleted h' = true ->
  table_ok c t' /\ heap t' = <[rid := (r, h')]> (heap t).
Proof.
  intros Hok [Hr Hh Hi Hd (Hn & _ & Hs & Hp)] Hrid Hrow Hhd Hal Hdel.
  assert (Hok' : table_ok c t').
  { destruct Hok as [Hlh Hli Hu Hids Hdead]. split; rewrite ?Hr, ?Hh, ?Hi, ?Hd, ?Hp, ?length_insert; try done.
    rewrite (dead_insert _ _ _ _ Hhd), Hal, Hdel, Hdead. lia. }
  split; [done|]. apply map_eq. intros x. apply option_eq. intros [r' h'']. rewrite (heap_lookup c t' Hok'), Hr, Hh, Hi.
  split.
  - intros (j & Hj & Hrj & Hhj). destruct (decide (j = i)) as [->|Hne].
    + rewrite list_lookup_insert_eq in Hhj by eauto using lookup_lt_Some. simplify_eq. apply lookup_insert_eq.
    + rewrite list_lookup_insert_ne in Hhj by done. rewrite lookup_insert_ne.
      * apply (heap_lookup c t Hok). eauto.
      * intros ->. destruct Hne. by eapply (rowid_inj c t Hok).
  - intros [[<- [= <- <-]]|[Hne (j & Hj & Hrj & Hhj)%(heap_lookup c t Hok)]]%lookup_insert_Some.
    + exists i. split_and!; [done|done|]. apply list_lookup_insert_eq. eauto using lookup_lt_Some.
    + exists j. split_and!; [done|done|]. rewrite list_lookup_insert_ne; [done|]. intros ->. congruence.
Qed.

(** ** The write track *)

Lemma track_for_version t v : track_version (write_track_for t v) = v.
Proof. unfold write_track_for. destruct (tx_write_track t) as [tr|]; [|done]. by destruct (Z.eqb_spec (track_version tr) v). Qed.

Lemma track_for_eq t t' v : tx_write_track t = tx_write_track t' -> write_track_for t v = write_track_for t' v.
Proof. unfold write_track_for. by intros ->. Qed.

Lemma track_insert_track v pos rid t :
  tx_write_track (track_insert v pos rid t) =
  Some (mk_track v (track_inserted (write_track_for t v) ++ [(pos, rid)]) (track_tombstoned (write_track_for t v))).
Proof. cbn. by rewrite track_for_version. Qed.

Lemma track_tombstone_track v pos rid t :
  tx_write_track (track_tombstone v pos rid t) =
  Some (mk_track v (track_inserted (write_track_for t v)) (track_tombstoned (write_track_for t v) ++ [(pos, rid)])).
Proof. cbn. by rewrite track_for_version. Qed.

Lemma track_for_some t v tr : tx_write_track t = Some tr -> track_version tr = v -> write_track_for t v = tr.
Proof. intros Ht Hv. unfold write_track_for. by rewrite Ht, (proj2 (Z.eqb_eq _ _) Hv). Qed.

(** Nothing of [v] in the table. *)
Definition clean (v : Z) (t : Table) : Prop :=
  (forall tr, tx_write_track t = Some tr -> track_version tr <> v) /\
  map_Forall (fun _ cell => xmin cell.2 <> v /\ xmax cell.2 <> v) (heap t).

Lemma clean_track_ok c v t : table_ok c t -> clean v t -> track_ok v t.
Proof.
  intros Hok [Ht Hm].
  assert (write_track_for t v = mk_track v [] []) as E.
  { unfold write_track_for. destruct (tx_write_track t) as [tr|]; [|done]. by rewrite (proj2 (Z.eqb_neq _ _) (Ht _ eq_refl)). }
  assert (forall i rid, ~ minted v t i rid /\ ~ killed v t i rid) as Hno.
  { intros i rid. split; intros (Hi & h & Hh & Hx); destruct (slot_some c t Hok i rid Hi) as (r & h' & _ & Hh' & Hl); simplify_eq;
      by apply Hm in Hl as [? ?]. }
  split; rewrite E; cbn [track_inserted track_tombstoned].
  - intros i rid. split; [by intros ?%not_elem_of_nil|]. by intros ?%Hno.
  - intros i rid. split; [by intros ?%not_elem_of_nil|]. by intros ?%Hno.
  - apply NoDup_nil_2.
  - apply NoDup_nil_2.
Qed.

Lemma minted_appended c t t' row h rid v i x :
  table_ok c t -> appended t t' row h rid ->
  minted v t' i x <-> minted v t i x \/ (i = length (rowids t) /\ x = rid /\ xmin h = v).
Proof.
  intros Hok [_ Hh Hi _ _]. unfold minted. rewrite Hi, Hh.
  pose proof (ok_headers _ _ Hok). pose proof (ok_rowids _ _ Hok).
  rewrite !lookup_app. destruct (rowids t !! i) as [y|] eqn:E.
  - destruct (slot_some c t Hok i y E) as (r & h0 & _ & Hh0 & _). rewrite Hh0. apply lookup_lt_Some in E. naive_solver lia.
  - apply lookup_ge_None in E. assert (headers t !! i = None) as -> by (apply lookup_ge_None; lia).
    replace (length (headers t)) with (length (rowids t)) by lia.
    destruct (i - length (rowids t))%nat as [|k] eqn:Ek; cbn; [|naive_solver lia].
    assert (i = length (rowids t)) as -> by lia. naive_solver.
Qed.

Lemma killed_appended c t t' row h rid v i x :
  table_ok c t -> appended t t' row h rid -> xmax h <> v -> killed v t' i x <-> killed v t i x.
Proof.
  intros Hok [_ Hh Hi _ _] Hv. unfold killed. rewrite Hi, Hh.
  pose proof (ok_headers _ _ Hok). pose proof (ok_rowids _ _ Hok).
  rewrite !lookup_app. destruct (rowids t !! i) as [y|] eqn:E.
  - destruct (slot_some c t Hok i y E) as (r & h0 & _ & Hh0 & _). by rewrite Hh0.
  - apply lookup_ge_None in E. assert (headers t !! i = None) as -> by (apply lookup_ge_None; lia).
    replace (length (headers t)) with (length (rowids t)) by lia.
    destruct (i - length (rowids t))%nat; cbn; naive_solver.
Qed.

Lemma minted_remarked t t' i h h' v j x :
  remarked t t' i h h' -> headers t !! i = Some h -> xmin h' = xmin h -> minted v t' j x <-> minted v t j x.
Proof.
  intros [_ Hh Hi _ _] Hhd Hx. unfold minted. rewrite Hi, Hh. destruct (decide (j = i)) as [->|].
  - rewrite list_lookup_insert_eq by eauto using lookup_lt_Some. naive_solver congruence.
  - by rewrite list_lookup_insert_ne by done.
Qed.

Lemma killed_remarked t t' i h h' rid v j x :
  remarked t t' i h h' -> headers t !! i = Some h -> rowids t !! i = Some rid -> xmax h <> v ->
  killed v t' j x <-> killed v t j x \/ (j = i /\ x = rid /\ xmax h' = v).
Proof.
  intros [_ Hh Hi _ _] Hhd Hrid Hx. unfold killed. rewrite Hi, Hh. destruct (decide (j = i)) as [->|].
  - rewrite list_lookup_insert_eq by eauto using lookup_lt_Some. naive_solver congruence.
  - rewrite list_lookup_insert_ne by done. naive_solver.
Qed.

(** [v] appends a row and lists it. *)
Lemma track_appended c t t' row h rid v :
  table_ok c t -> track_ok v t -> appended t t' row h rid -> xmin h = v -> xmax h <> v ->
  tx_write_track t' = Some (mk_track v (track_inserted (write_track_for t v) ++ [(length (rowids t), rid)]) (track_tombstoned (write_track_for t v))) ->
  track_ok v t'.
Proof.
  intros Hok [Hi Hk Hui Huk] Ha Hx Hm Ht. pose proof (track_for_some _ v _ Ht eq_refl) as E. split; rewrite E; cbn [track_inserted track_tombstoned].
  - intros i x. rewrite elem_of_app, Hi, (minted_appended c t t' row h rid v i x Hok Ha), list_elem_of_singleton. naive_solver.
  - intros i x. rewrite Hk. symmetry. by eapply killed_appended.
  - apply NoDup_app. split_and!; [done| |apply NoDup_singleton]. intros e He ->%list_elem_of_singleton.
    apply Hi in He as [He _]. apply lookup_lt_Some in He. lia.
  - done.
Qed.

(** [v] marks a row deleted and lists it. *)
Lemma track_remarked t t' i h rid v :
  track_ok v t -> remarked t t' i h (set_xmax v h) -> headers t !! i = Some h -> rowids t !! i = Some rid -> xmax h <> v ->
  tx_write_track t' = Some (mk_track v (track_inserted (write_track_for t v)) (track_tombstoned (write_track_for t v) ++ [(i, rid)])) ->
  track_ok v t'.
Proof.
  intros [Hi Hk Hui Huk] Hr Hh Hrid Hm Ht. pose proof (track_for_some _ v _ Ht eq_refl) as E. split; rewrite E; cbn [track_inserted track_tombstoned].
  - intros j x. rewrite Hi. symmetry. by eapply minted_remarked.
  - intros j x. rewrite elem_of_app, Hk, (killed_remarked t t' i h _ rid v j x Hr Hh Hrid Hm), list_elem_of_singleton. naive_solver.
  - done.
  - apply NoDup_app. split_and!; [done| |apply NoDup_singleton]. intros e He ->%list_elem_of_singleton.
    apply Hk in He as (_ & h' & Hh' & ?). congruence.
Qed.

(** ** Writing as a version *)

Definition counters_le (c c' : Counters) : Prop := forall p, counter c p <= counter c' p.

#[export] Instance counters_le_preorder : PreOrder counters_le.
Proof. split; [by intros c p|]. intros c1 c2 c3 H1 H2 p. specialize (H1 p). specialize (H2 p). lia. Qed.

Lemma counter_insert c p x : counter (<[p := x]> c) p = x.
Proof. unfold counter. by rewrite lookup_insert_eq. Qed.

Lemma counters_le_insert c p x : counter c p <= x -> counters_le c (<[p := x]> c).
Proof.
  intros Hx q. unfold counter in *. destruct (decide (q = p)) as [->|]; [by rewrite lookup_insert_eq|by rewrite lookup_insert_ne].
Qed.

Lemma table_ok_mono c c' t : counters_le c c' -> table_ok c t -> table_ok c' t.
Proof.
  intros Hc [? ? ? Hids ?]. split; try done. specialize (Hc (next_rowid t)). eapply Forall_impl; [exact Hids|]. cbn. lia.
Qed.

(** [v] turned [t] into [t'] by writes that stamp its version. *)
Record written_by (v : Z) (c : Counters) (t : Table) (c' : Counters) (t' : Table) : Prop := {
  wb_ok : table_ok c' t';
  wb_same : same_table t t';
  wb_track : track_ok v t -> track_ok v t';
  wb_clean w : 2 <= w -> w <> v -> clean w t -> clean w t';
  wb_counters : counters_le c c'
}.

Lemma written_by_refl v c t : table_ok c t -> written_by v c t c t.
Proof. by split. Qed.

Lemma written_by_trans v c1 t1 c2 t2 c3 t3 :
  written_by v c1 t1 c2 t2 -> written_by v c2 t2 c3 t3 -> written_by v c1 t1 c3 t3.
Proof.
  intros [? Hs Ht Hc Hm] [? Hs' Ht' Hc' Hm']. split; [done|by etrans|auto| |by etrans].
  intros w H2 Hw Hcl. eauto.
Qed.

(** *** Appending *)

Definition accepts (t : Table) (row : Row) : Prop :=
  length row = length (schema t) /\ validate_row_against_schema row (schema t) = Some (Ok ()).

Lemma insert_keyed_inv row t c t' c' :
  insert_keyed row t c = Some (Ok (t', c')) ->
  accepts t row /\ appended t t' row frozen (counter c (next_rowid t)) /\
  c' = <[next_rowid t := counter c (next_rowid t) + 1]> c /\ tx_write_track t' = tx_write_track t.
Proof.
  unfold insert_keyed, accepts. destruct (Nat.eqb_spec (length row) (length (schema t))) as [El|]; cbn [negb]; [|done].
  destruct (validate_row_against_schema row (schema t)) as [[[]|]|]; cbn [mbind option_bind]; try done.
  unfold record_redo, alloc_rowid. cbn. destruct (redo_log t) eqn:Er; cbn; intros [= <- <-];
    (split_and!; [done|done|split; try done; repeat split; unfold redo_capturing; cbn; by rewrite ?Er|done|done]).
Qed.

Lemma insert_keyed_accepts row t c : accepts t row -> exists t' c', insert_keyed row t c = Some (Ok (t', c')).
Proof. intros [Hl Hv]. unfold insert_keyed. rewrite Hl, Nat.eqb_refl, Hv. cbn. eauto. Qed.

Lemma fresh_id c t : table_ok c t -> heap t !! counter c (next_rowid t) = None.
Proof.
  intros Hok. destruct (heap t !! _) as [[r h]|] eqn:E; [|done]. apply (heap_bound c t Hok) in E. lia.
Qed.

Lemma clean_insert t t' rid row h w :
  clean w t -> heap t' = <[rid := (row, h)]> (heap t) -> xmin h <> w -> xmax h <> w ->
  (forall tr, tx_write_track t' = Some tr -> track_version tr <> w) -> clean w t'.
Proof. intros [_ Hc] Hh Hx Hm Ht. split; [done|]. rewrite Hh. by apply map_Forall_insert_2. Qed.

Lemma insert_with_xmin_ok row v t c t' c' :
  insert_with_xmin_keyed row v t c = Some (Ok (t', c')) -> 2 <= v -> 1 <= counter c (next_rowid t) -> table_ok c t ->
  written_by v c t c' t' /\ accepts t row /\ heap t !! counter c (next_rowid t) = None /\
  heap t' = <[counter c (next_rowid t) := (row, alive v)]> (heap t) /\ counter c' (next_rowid t) = counter c (next_rowid t) + 1.
Proof.
  intros H Hv Hc Hok. unfold insert_with_xmin_keyed, XMIN_FROZEN in H. rewrite (proj2 (Z.eqb_neq v 1)) in H by lia.
  destruct (insert_keyed row t c) as [[[t1 c1]|e]|] eqn:E; cbn [obind] in H; try done.
  apply insert_keyed_inv in E as (Hacc & [Hr Hh Hi Hd Hs] & -> & Ht). rewrite (proj2 (Z.eqb_neq v 0)) in H by lia.
  cbn [negb] in H. injection H as <- <-. set (rid := counter c (next_rowid t)) in *. set (last := (length (headers t1) - 1)%nat).
  assert (last = length (rowids t)) as Elast.
  { unfold last. rewrite Hh, length_app, (ok_rowids _ _ Hok), <- (ok_headers _ _ Hok). cbn. lia. }
  assert (rowids t1 !! last = Some rid) as Hrid by (rewrite Hi, Elast; by apply list_lookup_middle).
  set (t2 := with_headers t1 (<[last := alive v]> (headers t1))).
  assert (rowid_or_unassigned t2 last = rid) as -> by (unfold rowid_or_unassigned; cbn; by rewrite Hrid).
  assert (Ha : appended t (track_insert v last rid t2) row (alive v) rid).
  { split; cbn; try done. rewrite Hh, Elast, (ok_rowids _ _ Hok), <- (ok_headers _ _ Hok), insert_app_r_alt by lia.
    by rewrite Nat.sub_diag. }
  pose proof (fresh_id c t Hok) as Hfresh. fold rid in Hfresh.
  destruct (appended_ok c (<[next_rowid t := rid + 1]> c) t _ row (alive v) rid Hok Ha) as [Hok' Hheap]; try done.
  1,2: rewrite counter_insert; lia.
  split_and!; try done; [|by apply counter_insert]. split; [done|apply Ha| | |apply counters_le_insert; lia].
  - intros Htr. apply (track_appended c t _ row (alive v) rid v Hok Htr Ha); [done|cbn; unfold XMAX_ALIVE; lia|].
    rewrite track_insert_track, Elast. by rewrite (track_for_eq t2 t v Ht).
  - intros w H2 Hw Hcl. apply (clean_insert t _ rid row (alive v) w Hcl Hheap); [cbn; congruence|cbn; unfold XMAX_ALIVE; lia|].
    rewrite track_insert_track. by intros tr [= <-].
Qed.

(** *** Marking deleted *)

(** The first to delete a row is the one that does. *)
Definition tomb (v : Z) (H : gmap Z Cell) (rid : Z) : gmap Z Cell :=
  match H !! rid with
  | Some (r, h) => if xmax h =? XMAX_ALIVE then <[rid := (r, set_xmax v h)]> H else H
  | None => H
  end.

Lemma record_redo_ok v c t make : table_ok c t -> written_by v c t c (record_redo make t) /\ heap (record_redo make t) = heap t.
Proof.
  intros Hok. unfold record_redo. destruct (redo_log t) as [log|] eqn:Er; [|split; [by apply written_by_refl|done]].
  split; [|done]. destruct Hok. split; [by split|repeat split; unfold redo_capturing; cbn; by rewrite Er| |done|done]. intros [? ? ? ?]. by split.
Qed.

(** What every way of marking slot [i] deleted does. *)
Definition marked_at (v : Z) (t : Table) (i : nat) (h : RowHeader) (rid : Z) : Table :=
  track_tombstone v i rid (with_dead (with_headers t (<[i := set_xmax v h]> (headers t))) (dead_rows t + 1)).

Lemma marked_at_ok v c t i h rid :
  table_ok c t -> 2 <= v -> headers t !! i = Some h -> rowids t !! i = Some rid -> xmax h = XMAX_ALIVE ->
  written_by v c t c (marked_at v t i h rid) /\ heap (marked_at v t i h rid) = tomb v (heap t) rid.
Proof.
  intros Hok Hv Hh Hrid Hal. set (t' := marked_at v t i h rid).
  destruct (slot_some c t Hok i rid Hrid) as (r & h' & Hr & Hh' & Hcell). simplify_eq.
  assert (Hm : remarked t t' i h (set_xmax v h)) by by split.
  assert (is_deleted h = false) as Hd by (unfold is_deleted; by rewrite Hal).
  assert (is_deleted (set_xmax v h) = true) as Hd'.
  { unfold is_deleted, XMAX_ALIVE. cbn. rewrite (proj2 (Z.eqb_neq v 0)) by lia. done. }
  destruct (remarked_ok c t t' i h _ rid r Hok Hm Hrid Hr Hh Hd Hd') as [Hok' Hheap].
  assert (heap t' = tomb v (heap t) rid) as Hth by (unfold tomb; by rewrite Hcell, Hal).
  split; [|done]. split; [done|apply Hm| | |done].
  - intros Htr. apply (track_remarked t t' i h rid v Htr Hm Hh Hrid); [unfold XMAX_ALIVE in *; lia|].
    unfold t', marked_at. rewrite track_tombstone_track. done.
  - intros w H2 Hw Hcl. apply (clean_insert t t' rid r (set_xmax v h) w Hcl Hheap).
    + destruct Hcl as [_ Hc]. by apply Hc in Hcell as [? _].
    + cbn. congruence.
    + unfold t', marked_at. rewrite track_tombstone_track. by intros tr [= <-].
Qed.

Lemma tombstone_marked v c t i h :
  table_ok c t -> 2 <= v -> headers t !! i = Some h ->
  exists rid, rowids t !! i = Some rid /\ rowid_or_unassigned t i = rid /\ tombstone i h v t = marked_at v t i h rid.
Proof.
  intros Hok Hv Hh. destruct (header_slot c t Hok i h Hh) as (rid & r & Hrid & _ & _). exists rid.
  assert (rowid_or_unassigned t i = rid) as E by (unfold rowid_or_unassigned; by rewrite Hrid).
  split_and!; [done|done|]. unfold tombstone, marked_at. unfold XMAX_ALIVE. rewrite (proj2 (Z.eqb_neq v 0)) by lia. cbn [negb andb].
  f_equal. unfold rowid_or_unassigned in *. cbn. done.
Qed.

Lemma mark_row_deleted_ok v c t i t' :
  mark_row_deleted i v t = Ok t' -> table_ok c t -> 2 <= v ->
  written_by v c t c t' /\ exists rid, rowids t !! i = Some rid /\ heap t' = tomb v (heap t) rid.
Proof.
  intros H Hok Hv. unfold mark_row_deleted in H. destruct (headers t !! i) as [h|] eqn:Hh; [|done].
  destruct (Z.eqb_spec (xmax h) XMAX_ALIVE) as [Hal|Hdel]; cbn [negb] in H; injection H as <-.
  - destruct (tombstone_marked v c t i h Hok Hv Hh) as (rid & Hrid & _ & ->).
    destruct (marked_at_ok v c t i h rid Hok Hv Hh Hrid Hal) as [Hw Hheap].
    destruct (record_redo_ok v c (marked_at v t i h rid) (fun table => RcTombstone table [rowid_or_unassigned (marked_at v t i h rid) i] v) (wb_ok _ _ _ _ _ Hw)) as [Hw' Hheap'].
    split; [by eapply written_by_trans|]. exists rid. split; [done|]. by rewrite Hheap'.
  - destruct (header_slot c t Hok i h Hh) as (rid & r & Hrid & _ & Hcell). split; [by apply written_by_refl|].
    exists rid. split; [done|]. unfold tomb. by rewrite Hcell, (proj2 (Z.eqb_neq _ _) Hdel).
Qed.

(** [mark_rows_deleted], on the row ids of its positions. *)
Lemma mark_one_ok v c positions : forall t marked,
  table_ok c t -> 2 <= v ->
  let '(t', marked') := fold_left (mark_one v) positions (t, marked) in
  written_by v c t c t' /\ rowids t' = rowids t /\
  heap t' = fold_left (tomb v) (omap (fun i => rowids t !! i) positions) (heap t).
Proof.
  induction positions as [|i positions IH]; intros t marked Hok Hv; cbn [fold_left].
  { split_and!; [by apply written_by_refl|done|done]. }
  unfold mark_one at 2. cbn [omap list_omap]. destruct (headers t !! i) as [h|] eqn:Hh.
  - destruct (header_slot c t Hok i h Hh) as (rid & r & Hrid & _ & Hcell). rewrite Hrid. cbn [fold_left].
    destruct (Z.eqb_spec (xmax h) XMAX_ALIVE) as [Hal|Hdel].
    + destruct (tombstone_marked v c t i h Hok Hv Hh) as (rid' & Hrid' & _ & ->).
      assert (rid' = rid) as -> by congruence.
      destruct (marked_at_ok v c t i h rid Hok Hv Hh Hrid Hal) as [Hw Hheap].
      specialize (IH (marked_at v t i h rid) (marked ++ [rowid_or_unassigned t i]) (wb_ok _ _ _ _ _ Hw) Hv).
      destruct (fold_left (mark_one v) positions _) as [t' marked']. destruct IH as (Hw' & Hids & Hh').
      split_and!; [by eapply written_by_trans|done|]. rewrite Hh', Hheap. done.
    + specialize (IH t marked Hok Hv). unfold tomb at 2. rewrite Hcell, (proj2 (Z.eqb_neq _ _) Hdel). done.
  - assert (rowids t !! i = None) as ->.
    { apply lookup_ge_None. apply lookup_ge_None in Hh. rewrite (ok_rowids _ _ Hok), <- (ok_headers _ _ Hok). done. }
    by apply IH.
Qed.

Lemma mark_rows_deleted_ok v c t positions n t' :
  mark_rows_deleted positions v t = (n, t') -> table_ok c t -> 2 <= v ->
  written_by v c t c t' /\ heap t' = fold_left (tomb v) (omap (fun i => rowids t !! i) positions) (heap t).
Proof.
  unfold mark_rows_deleted. intros H Hok Hv. pose proof (mark_one_ok v c positions t [] Hok Hv) as Hm.
  destruct (fold_left (mark_one v) positions (t, [])) as [t1 marked]. destruct Hm as (Hw & _ & Hh). injection H as _ <-.
  destruct marked as [|m marked]; [done|].
  destruct (record_redo_ok v c t1 (fun table => RcTombstone table (m :: marked) v) (wb_ok _ _ _ _ _ Hw)) as [Hw' Hh'].
  split; [by eapply written_by_trans|congruence].
Qed.

(** *** Replaying a write-set *)

(** Whether [v] may not mark row [rid] deleted: it is gone, or another version
    did. *)
Definition conflict_at (v : Z) (H : gmap Z Cell) (rid : Z) : bool :=
  match H !! rid with
  | Some (_, h) => negb (xmax h =? XMAX_ALIVE) && negb (xmax h =? v)
  | None => true
  end.

(** The header a replayed insert is left with: [xmin] is restamped, the frozen
    flag of a fresh insert stays. *)
Definition replayed_header (v : Z) : RowHeader := mk_header v XMAX_ALIVE HEAP_XMIN_FROZEN.

Definition put (v : Z) (H : gmap Z Cell) (e : Z * Row) : gmap Z Cell := <[e.1 := (e.2, replayed_header v)]> H.

Lemma conflict_at_tomb v H x rid : v <> XMAX_ALIVE -> conflict_at v (tomb v H x) rid = conflict_at v H rid.
Proof.
  intros Hv. unfold tomb. destruct (H !! x) as [[r h]|] eqn:E; [|done]. destruct (Z.eqb_spec (xmax h) XMAX_ALIVE) as [Ha|]; [|done].
  unfold conflict_at. destruct (decide (rid = x)) as [->|]; [|by rewrite lookup_insert_ne].
  rewrite lookup_insert_eq, E, Ha. cbn. rewrite Z.eqb_refl, andb_comm. done.
Qed.

Lemma is_conflict_at c v t e : table_ok c t -> is_conflict t v e = conflict_at v (heap t) e.1.
Proof.
  intros Hok. unfold is_conflict, conflict_at. destruct (rowid_at t e.1 e.2) as [i|] eqn:E.
  - apply (rowid_at_exact c t Hok) in E. destruct (slot_some c t Hok i _ E) as (r & h & _ & -> & ->). done.
  - apply (rowid_at_None c t Hok) in E. by rewrite E.
Qed.

Lemma tombstone_conflicts_spec c v t targets :
  table_ok c t -> tombstone_conflicts t targets v = filter (fun rid => conflict_at v (heap t) rid = true) (map fst targets).
Proof.
  intros Hok. unfold tombstone_conflicts. induction targets as [|e targets IH]; [done|]. cbn [map].
  rewrite !filter_cons, (is_conflict_at c v t e Hok). case_decide; cbn [map]; by rewrite IH.
Qed.

Lemma replay_insert_ok v c t replayed rid row :
  table_ok c t -> accepts t row -> 2 <= v -> heap t !! rid = None -> 1 <= rid < counter c (next_rowid t) ->
  exists t' c', replay_insert v (t, c, replayed) (rid, row) = Some (t', c', <[rid := length (rowids t)]> replayed) /\
    written_by v c t c' t' /\ heap t' = put v (heap t) (rid, row) /\ rowids t' = rowids t ++ [rid].
Proof.
  intros Hok Hacc Hv Hfresh Hb. destruct (insert_keyed_accepts row t c Hacc) as (t1 & c1 & E). unfold replay_insert. rewrite E. cbn [mbind option_bind].
  apply insert_keyed_inv in E as (_ & [Hr Hh Hi Hd Hs] & -> & Ht).
  assert ((length (rows t1) - 1)%nat = length (rowids t)) as ->.
  { rewrite Hr, length_app, (ok_rowids _ _ Hok). cbn. lia. }
  eexists _, _. split; [reflexivity|]. set (t' := track_insert _ _ _ _). set (c' := <[_ := _]> c).
  assert (Ha : appended t t' row (replayed_header v) rid).
  { split; cbn; try done.
    - rewrite Hh, (ok_rowids _ _ Hok), <- (ok_headers _ _ Hok), alter_app_r_alt by lia. by rewrite Nat.sub_diag.
    - rewrite Hi, insert_app_r_alt by lia. by rewrite Nat.sub_diag. }
  assert (counters_le c c') as Hc' by (apply counters_le_insert; lia).
  destruct (appended_ok c c' t t' row (replayed_header v) rid Hok Ha) as [Hok' Hheap]; try done.
  { specialize (Hc' (next_rowid t)). lia. }
  split_and!; [|done|apply Ha]. split; [done|apply Ha| | |done].
  - intros Htr. apply (track_appended c t t' row (replayed_header v) rid v Hok Htr Ha); [done|cbn; unfold XMAX_ALIVE; lia|].
    unfold t'. rewrite track_insert_track. f_equal. f_equal; by rewrite <- (track_for_eq t1 t v Ht).
  - intros w H2 Hw Hcl. apply (clean_insert t t' rid row (replayed_header v) w Hcl Hheap); [cbn; congruence|cbn; unfold XMAX_ALIVE; lia|].
    unfold t'. rewrite track_insert_track. by intros tr [= <-].
Qed.

(** Where [replayed] says a row went, it is. *)
Definition placed (t : Table) (replayed : gmap Z nat) : Prop := forall rid p, replayed !! rid = Some p -> rowids t !! p = Some rid.

Lemma accepts_same t t' row : same_table t t' -> accepts t row -> accepts t' row.
Proof. intros (_ & _ & E & _). unfold accepts. by rewrite E. Qed.

Lemma replay_inserts_ok v : forall es c t replayed,
  table_ok c t -> 2 <= v -> placed t replayed -> Forall (fun e => accepts t e.2) es -> NoDup (map fst es) ->
  Forall (fun e => heap t !! e.1 = None /\ 1 <= e.1 < counter c (next_rowid t)) es ->
  exists t' c' replayed', replay_inserts v (t, c, replayed) es = Some (t', c', replayed') /\
    written_by v c t c' t' /\ heap t' = fold_left (put v) es (heap t) /\ placed t' replayed'.
Proof.
  induction es as [|[rid row] es IH]; intros c t replayed Hok Hv Hpl Hacc Hnd Hfresh; cbn [replay_inserts].
  { exists t, c, replayed. split_and!; [done|by apply written_by_refl|done|done]. }
  apply Forall_cons in Hacc as [Ha Hacc]. apply Forall_cons in Hfresh as [[Hf Hb] Hfresh]. cbn in Ha, Hf, Hb, Hnd.
  apply NoDup_cons in Hnd as [Hnew Hnd].
  destruct (replay_insert_ok v c t replayed rid row Hok Ha Hv Hf Hb) as (t1 & c1 & -> & Hw & Hheap & Hids). cbn [mbind option_bind].
  pose proof (wb_same _ _ _ _ _ Hw) as Hs.
  destruct (IH c1 t1 (<[rid := length (rowids t)]> replayed) (wb_ok _ _ _ _ _ Hw) Hv) as (t' & c' & replayed' & -> & Hw' & Hh' & Hpl').
  - intros x p [[<- <-]|[_ Hp]]%lookup_insert_Some; rewrite Hids; [by apply list_lookup_middle|].
    apply lookup_app_l_Some. by apply Hpl.
  - eapply Forall_impl; [exact Hacc|]. intros e. by apply accepts_same.
  - done.
  - apply Forall_forall. intros [x r] Hin. rewrite Forall_forall in Hfresh. destruct (Hfresh _ Hin) as [Hx Hbx]. cbn [fst] in *.
    rewrite Hheap. unfold put. cbn [fst snd]. rewrite lookup_insert_ne.
    + destruct Hs as (_ & _ & _ & ->). pose proof (wb_counters _ _ _ _ _ Hw (next_rowid t)). split; [done|lia].
    + intros ->. destruct Hnew. apply list_elem_of_fmap. by exists (x, r).
  - exists t', c', replayed'. split_and!; [done|by eapply written_by_trans| |done]. by rewrite Hh', Hheap.
Qed.

Lemma replay_tombstone_ok v c t replayed conflicts e :
  table_ok c t -> 2 <= v -> placed t replayed ->
  let '(t', conflicts') := replay_tombstone v replayed (t, conflicts) e in
  written_by v c t c t' /\ heap t' = tomb v (heap t) e.1 /\ rowids t' = rowids t /\
  conflicts' = conflicts ++ (if conflict_at v (heap t) e.1 then [e.1] else []).
Proof.
  intros Hok Hv Hpl. destruct e as [rid hint]. unfold replay_tombstone. cbn [fst].
  assert (Hpos : forall i, match replayed !! rid with Some p => Some p | None => rowid_at t rid hint end = Some i <-> rowids t !! i = Some rid).
  { intros i. destruct (replayed !! rid) as [p|] eqn:E; [|apply (rowid_at_exact c t Hok)]. apply Hpl in E.
    split; [by intros [= <-]|]. intros H. f_equal. by eapply (rowid_inj c t Hok). }
  destruct (match replayed !! rid with Some p => Some p | None => rowid_at t rid hint end) as [i|].
  - pose proof (proj1 (Hpos i) eq_refl) as Hi. destruct (slot_some c t Hok i rid Hi) as (r & h & _ & Hh & Hcell). rewrite Hh.
    unfold conflict_at, tomb. rewrite Hcell. destruct (Z.eqb_spec (xmax h) XMAX_ALIVE) as [Ha|].
    + destruct (marked_at_ok v c t i h rid Hok Hv Hh Hi Ha) as [Hw Hheap]. unfold tomb in Hheap. rewrite Hcell, Ha in Hheap.
      split_and!; [done|done|done|]. by rewrite app_nil_r.
    + cbn [negb andb]. destruct (xmax h =? v); cbn [negb]; (split_and!; [by apply written_by_refl|done|done|by rewrite ?app_nil_r]).
  - assert (heap t !! rid = None) as Hn.
    { destruct (heap t !! rid) as [[r h]|] eqn:E; [|done]. apply (heap_lookup c t Hok) in E as (i & Hi & _). apply Hpos in Hi. done. }
    unfold conflict_at, tomb. rewrite Hn. split_and!; [by apply written_by_refl|done|done|done].
Qed.

Lemma replay_tombstones_ok v replayed : forall es c t conflicts,
  table_ok c t -> 2 <= v -> placed t replayed ->
  let '(t', conflicts') := fold_left (replay_tombstone v replayed) es (t, conflicts) in
  written_by v c t c t' /\ heap t' = fold_left (tomb v) (map fst es) (heap t) /\
  conflicts' = conflicts ++ filter (fun rid => conflict_at v (heap t) rid = true) (map fst es).
Proof.
  induction es as [|e es IH]; intros c t conflicts Hok Hv Hpl; cbn [fold_left map].
  { split_and!; [by apply written_by_refl|done|by rewrite app_nil_r]. }
  pose proof (replay_tombstone_ok v c t replayed conflicts e Hok Hv Hpl) as H1.
  destruct (replay_tombstone v replayed (t, conflicts) e) as [t1 conflicts1]. destruct H1 as (Hw & Hh & Hids & ->).
  assert (Hpl1 : placed t1 replayed) by (intros x p Hx; rewrite Hids; by apply Hpl).
  specialize (IH c t1 (conflicts ++ (if conflict_at v (heap t) e.1 then [e.1] else [])) (wb_ok _ _ _ _ _ Hw) Hv Hpl1).
  destruct (fold_left _ es _) as [t' conflicts']. destruct IH as (Hw' & Hh' & ->).
  split_and!; [by eapply written_by_trans|by rewrite Hh', Hh|]. rewrite <- app_assoc. f_equal. rewrite filter_cons, Hh.
  assert (filter (fun rid => conflict_at v (tomb v (heap t) e.1) rid = true) (map fst es) =
          filter (fun rid => conflict_at v (heap t) rid = true) (map fst es)) as ->.
  { apply list_filter_iff. intros x. rewrite conflict_at_tomb by (unfold XMAX_ALIVE; lia). done. }
  case_decide as Hd; destruct (conflict_at v (heap t) e.1); done.
Qed.

(** The map a write-set replays to. *)
Definition replay_heap (v : Z) (ws : TxWriteSet) (H : gmap Z Cell) : gmap Z Cell :=
  fold_left (tomb v) (map fst (tombstoned ws)) (fold_left (put v) (inserted ws) H).

Record replayable (c : Counters) (t : Table) (ws : TxWriteSet) : Prop := {
  rp_accepts : Forall (fun e => accepts t e.2) (inserted ws);
  rp_once : NoDup (map fst (inserted ws));
  rp_fresh : Forall (fun e => heap t !! e.1 = None /\ 1 <= e.1 < counter c (next_rowid t)) (inserted ws)
}.

Lemma replay_ok v c t ws :
  table_ok c t -> 2 <= v -> replayable c t ws ->
  exists t' c', replay_tx_writeset_keyed ws v t c =
      Some (filter (fun rid => conflict_at v (fold_left (put v) (inserted ws) (heap t)) rid = true) (map fst (tombstoned ws)), t', c') /\
    written_by v c t c' t' /\ heap t' = replay_heap v ws (heap t).
Proof.
  intros Hok Hv [Hacc Hnd Hfresh]. unfold replay_tx_writeset_keyed.
  destruct (replay_inserts_ok v (inserted ws) c t ∅ Hok Hv) as (t1 & c1 & replayed & -> & Hw & Hh & Hpl); try done.
  cbn [mbind option_bind].
  pose proof (replay_tombstones_ok v replayed (tombstoned ws) c1 t1 [] (wb_ok _ _ _ _ _ Hw) Hv Hpl) as H1.
  destruct (fold_left (replay_tombstone v replayed) (tombstoned ws) (t1, [])) as [t' conflicts].
  destruct H1 as (Hw' & Hh' & ->). cbn [app]. rewrite Hh. exists t', c1. split_and!; [done|by eapply written_by_trans|].
  unfold replay_heap. by rewrite Hh', Hh.
Qed.
