(* ===== verification/WriteSet.v ===== *)
(** Write-sets: the list a table keeps while a transaction writes holds what a
    scan of every header would find, and what [extract_tx_writeset] returns is
    exactly what the version inserted and marked deleted. *)
From stdpp Require Import gmap.
From S2P Require Import Prelude SortedMap BigNum Values RowCodec RowAccept RowLen Mvcc Heap HeapOps.
Open Scope Z_scope.

(** A write-set with exactly the rows [v] inserted into and marked in [H]. *)
Record writeset_of (v : Z) (H : gmap Z Cell) (ws : TxWriteSet) : Prop := {
  ws_inserted rid row : (rid, row) ∈ inserted ws <-> exists h, H !! rid = Some (row, h) /\ xmin h = v;
  ws_tombstoned rid : rid ∈ map fst (tombstoned ws) <-> exists row h, H !! rid = Some (row, h) /\ xmax h = v;
  ws_inserted_once : NoDup (map fst (inserted ws));
  ws_tombstoned_once : NoDup (map fst (tombstoned ws))
}.

(** ** The list read back *)

Lemma verified_all c v t listed :
  table_ok c t -> (forall i rid, (i, rid) ∈ listed -> minted v t i rid) ->
  exists ins, verified t v listed = Some ins /\ map fst ins = map snd listed /\
    forall rid row, (rid, row) ∈ ins -> exists i, (i, rid) ∈ listed /\ rows t !! i = Some row.
Proof.
  intros Hok. induction listed as [|[i rid] listed IH]; intros Hm; cbn [verified].
  { exists []. split_and!; [done|done|]. by intros ?? ?%not_elem_of_nil. }
  destruct (Hm i rid) as (Hi & h & Hh & Hx); [left|]. destruct (slot_some c t Hok i rid Hi) as (row & h' & Hrow & Hh' & _). simplify_eq.
  destruct IH as (ins & -> & Hfst & Hrows); [intros; apply Hm; by right|].
  exists ((rid, row) :: ins). rewrite Hh. cbn [mbind option_bind]. rewrite !option_guard_True by done. cbn [mbind option_bind].
  rewrite Hrow. cbn [mbind option_bind map fst snd]. split_and!; [done|by f_equal|].
  intros rid' row' [[= -> ->]|Hin]%elem_of_cons; [exists i; split; [left|done]|].
  destruct (Hrows _ _ Hin) as (j & ? & ?). exists j. split; [by right|done].
Qed.

Lemma NoDup_snd (l : list (nat * Z)) : NoDup l -> (forall i j rid, (i, rid) ∈ l -> (j, rid) ∈ l -> i = j) -> NoDup (map snd l).
Proof.
  intros Hl Hinj. apply NoDup_fmap_2_strong; [|done]. intros [i x] [j y] Hi Hj. cbn. intros ->. by rewrite (Hinj i j y Hi Hj).
Qed.

Lemma listed_writeset c v t ins :
  table_ok c t -> track_ok v t -> verified t v (track_inserted (write_track_for t v)) = Some ins ->
  writeset_of v (heap t) (mk_writeset ins (map (fun '(pos, rid) => (rid, hint_of pos)) (track_tombstoned (write_track_for t v)))).
Proof.
  intros Hok [Hi Hk Hiu Hku] Hver.
  destruct (verified_all c v t (track_inserted (write_track_for t v)) Hok) as (ins' & E & Hfst & Hrows); [intros i rid; apply Hi|].
  rewrite Hver in E. injection E as <-.
  assert (Hts : map fst (map (fun '(pos, rid) => (rid, hint_of pos)) (track_tombstoned (write_track_for t v))) =
                map snd (track_tombstoned (write_track_for t v))) by (rewrite map_map; apply map_ext; by intros []).
  split; cbn [inserted tombstoned]; rewrite ?Hts, ?Hfst.
  - intros rid row. split.
    + intros Hin. destruct (Hrows _ _ Hin) as (i & [Hrid (h & Hh & Hx)]%Hi & Hrow). exists h. split; [|done].
      apply (heap_lookup c t Hok). eauto.
    + intros (h & Hcell & Hx). destruct (proj2 (heap_minted c t Hok v rid)) as [i Hm]; [eauto|].
      pose proof Hm as [Hrid _]. apply Hi in Hm. assert (rid ∈ map fst ins) as ([? row'] & -> & Hin)%list_elem_of_fmap.
      { rewrite Hfst. apply list_elem_of_fmap. by exists (i, rid). }
      cbn in *. destruct (Hrows _ _ Hin) as (j & [Hj _]%Hi & Hrow). apply (heap_lookup c t Hok) in Hcell as (k & Hk' & Hrow' & _).
      pose proof (rowid_inj c t Hok _ _ _ Hj Hk') as ->. by simplify_eq.
  - intros rid. rewrite <- (heap_killed c t Hok v rid), list_elem_of_fmap. setoid_rewrite <- Hk. split.
    + intros ([i r] & -> & ?). by exists i.
    + intros [i ?]. by exists (i, rid).
  - apply NoDup_snd; [done|]. intros i j rid [? _]%Hi [? _]%Hi. by eapply (rowid_inj c t Hok).
  - apply NoDup_snd; [done|]. intros i j rid [? _]%Hk [? _]%Hk. by eapply (rowid_inj c t Hok).
Qed.

(** ** The scan *)

Lemma scan_inserted c v t : table_ok c t -> forall hs i,
  drop i (headers t) = hs ->
  forall rid row, (rid, row) ∈ inserted (scan_writeset t v i hs) <->
    exists j h, (i <= j)%nat /\ rowids t !! j = Some rid /\ rows t !! j = Some row /\ headers t !! j = Some h /\ xmin h = v.
Proof.
  intros Hok. induction hs as [|h hs IH]; intros i Hd rid row; cbn [scan_writeset inserted].
  - split; [by intros ?%not_elem_of_nil|]. intros (j & h & Hj & _ & _ & Hh & _).
    assert (drop i (headers t) !! (j - i)%nat = Some h) as E by (rewrite lookup_drop; by replace (i + (j - i))%nat with j by lia).
    by rewrite Hd in E.
  - assert (headers t !! i = Some h) as Hh by (rewrite <- (Nat.add_0_r i), <- lookup_drop, Hd; done).
    assert (drop (S i) (headers t) = hs) as Hd' by (rewrite <- drop_S_r || (replace (S i) with (i + 1)%nat by lia; by rewrite <- drop_drop, Hd)).
    destruct (header_slot c t Hok i h Hh) as (rid0 & row0 & Hrid & Hrow & _). rewrite Hrow.
    unfold rowid_or_unassigned. rewrite Hrid. cbn [default from_option id].
    assert (forall P : Prop, (P <-> exists j h, (S i <= j)%nat /\ rowids t !! j = Some rid /\ rows t !! j = Some row /\ headers t !! j = Some h /\ xmin h = v) ->
       ((rid, row) = (rid0, row0) /\ xmin h = v \/ P) <-> exists j h, (i <= j)%nat /\ rowids t !! j = Some rid /\ rows t !! j = Some row /\ headers t !! j = Some h /\ xmin h = v) as Hstep.
    { intros P ->. split.
      - intros [[[= -> ->] Hx]|(j & h' & ? & ?)]; [by exists i, h|]. exists j, h'. split; [lia|done].
      - intros (j & h' & Hj & Hrid' & Hrow' & Hh' & Hx). destruct (decide (j = i)) as [->|]; [left; by simplify_eq|].
        right. exists j, h'. split; [lia|done]. }
    rewrite <- (Hstep _ (IH (S i) Hd' rid row)). destruct (Z.eqb_spec (xmin h) v) as [Hx|Hx]; [rewrite elem_of_cons|]; naive_solver.
Qed.

Lemma scan_tombstoned c v t : table_ok c t -> forall hs i,
  drop i (headers t) = hs ->
  forall rid hint, (rid, hint) ∈ tombstoned (scan_writeset t v i hs) <->
    exists j h, (i <= j)%nat /\ rowids t !! j = Some rid /\ hint = hint_of j /\ headers t !! j = Some h /\ xmax h = v.
Proof.
  intros Hok. induction hs as [|h hs IH]; intros i Hd rid hint; cbn [scan_writeset tombstoned].
  - split; [by intros ?%not_elem_of_nil|]. intros (j & h & Hj & _ & _ & Hh & _).
    assert (drop i (headers t) !! (j - i)%nat = Some h) as E by (rewrite lookup_drop; by replace (i + (j - i))%nat with j by lia).
    by rewrite Hd in E.
  - assert (headers t !! i = Some h) as Hh by (rewrite <- (Nat.add_0_r i), <- lookup_drop, Hd; done).
    assert (drop (S i) (headers t) = hs) as Hd' by (replace (S i) with (i + 1)%nat by lia; by rewrite <- drop_drop, Hd).
    destruct (header_slot c t Hok i h Hh) as (rid0 & row0 & Hrid & _ & _).
    unfold rowid_or_unassigned. rewrite Hrid. cbn [default from_option id].
    assert (forall P : Prop, (P <-> exists j h, (S i <= j)%nat /\ rowids t !! j = Some rid /\ hint = hint_of j /\ headers t !! j = Some h /\ xmax h = v) ->
       ((rid, hint) = (rid0, hint_of i) /\ xmax h = v \/ P) <-> exists j h, (i <= j)%nat /\ rowids t !! j = Some rid /\ hint = hint_of j /\ headers t !! j = Some h /\ xmax h = v) as Hstep.
    { intros P ->. split.
      - intros [[[= -> ->] Hx]|(j & h' & ? & ?)]; [by exists i, h|]. exists j, h'. split; [lia|done].
      - intros (j & h' & Hj & Hrid' & Hhint & Hh' & Hx). destruct (decide (j = i)) as [->|]; [left; by simplify_eq|].
        right. exists j, h'. split; [lia|done]. }
    rewrite <- (Hstep _ (IH (S i) Hd' rid hint)). destruct (Z.eqb_spec (xmax h) v) as [Hx|Hx]; [rewrite elem_of_cons|]; naive_solver.
Qed.

Lemma scan_once c v t : table_ok c t -> forall hs i,
  drop i (headers t) = hs ->
  NoDup (map fst (inserted (scan_writeset t v i hs))) /\ NoDup (map fst (tombstoned (scan_writeset t v i hs))).
Proof.
  intros Hok. induction hs as [|h hs IH]; intros i Hd; cbn [scan_writeset inserted tombstoned]; [split; apply NoDup_nil_2|].
  assert (headers t !! i = Some h) as Hh by (rewrite <- (Nat.add_0_r i), <- lookup_drop, Hd; done).
  assert (drop (S i) (headers t) = hs) as Hd' by (replace (S i) with (i + 1)%nat by lia; by rewrite <- drop_drop, Hd).
  destruct (header_slot c t Hok i h Hh) as (rid0 & row0 & Hrid & Hrow & _). rewrite Hrow.
  unfold rowid_or_unassigned. rewrite Hrid. cbn [default from_option id]. destruct (IH (S i) Hd') as [Hi Ht].
  split.
  - destruct (xmin h =? v); [|done]. cbn [map fst]. apply NoDup_cons. split; [|done].
    intros ([rid row] & -> & Hin)%list_elem_of_fmap. apply (scan_inserted c v t Hok hs (S i) Hd') in Hin as (j & h' & Hj & Hrid' & _).
    pose proof (rowid_inj c t Hok _ _ _ Hrid Hrid'). lia.
  - destruct (xmax h =? v); [|done]. cbn [map fst]. apply NoDup_cons. split; [|done].
    intros ([rid hint] & -> & Hin)%list_elem_of_fmap. apply (scan_tombstoned c v t Hok hs (S i) Hd') in Hin as (j & h' & Hj & Hrid' & _).
    pose proof (rowid_inj c t Hok _ _ _ Hrid Hrid'). lia.
Qed.

Definition scan (t : Table) (v : Z) : TxWriteSet := scan_writeset t v 0 (headers t).

Lemma scan_writeset_of c v t : table_ok c t -> writeset_of v (heap t) (scan t v).
Proof.
  intros Hok. destruct (scan_once c v t Hok (headers t) 0 eq_refl) as [Hi Ht]. split; [| |done|done].
  - intros rid row. unfold scan. rewrite (scan_inserted c v t Hok _ 0 eq_refl). split.
    + intros (j & h & _ & ? & ? & ? & ?). exists h. split; [apply (heap_lookup c t Hok); eauto|done].
    + intros (h & (j & ? & ? & ?)%(heap_lookup c t Hok) & ?). exists j, h. split; [lia|done].
  - intros rid. rewrite list_elem_of_fmap. split.
    + intros ([r hint] & -> & Hin). apply (scan_tombstoned c v t Hok _ 0 eq_refl) in Hin as (j & h & _ & ? & _ & ? & ?).
      apply (heap_killed c t Hok v). exists j. split; eauto.
    + intros [j (Hj & h & Hh & Hx)]%(heap_killed c t Hok v). exists (rid, hint_of j). split; [done|].
      apply (scan_tombstoned c v t Hok _ 0 eq_refl). exists j, h. split_and!; [lia|done..].
Qed.

(** ** Extraction *)

Lemma extract_listed c v t :
  table_ok c t -> track_ok v t ->
  extract_tx_writeset t v = scan t v \/
  exists ins, verified t v (track_inserted (write_track_for t v)) = Some ins /\ tx_write_track t = Some (write_track_for t v) /\
    extract_tx_writeset t v = mk_writeset ins (map (fun '(pos, rid) => (rid, hint_of pos)) (track_tombstoned (write_track_for t v))).
Proof.
  intros Hok Htr. unfold extract_tx_writeset. destruct (tx_write_track t) as [tr|] eqn:E; [|by left].
  destruct (Z.eqb_spec (track_version tr) v) as [Hv|]; [|by left]. right. pose proof (track_for_some t v tr E Hv) as Etr.
  destruct (verified_all c v t (track_inserted tr) Hok) as (ins & Hins & _).
  { intros i rid Hin. apply (ok_inserted v t Htr). by rewrite Etr. }
  exists ins. rewrite Etr, Hins. done.
Qed.

Lemma extract_writeset_of c v t : table_ok c t -> track_ok v t -> writeset_of v (heap t) (extract_tx_writeset t v).
Proof.
  intros Hok Htr. destruct (extract_listed c v t Hok Htr) as [->|(ins & Hver & _ & ->)]; [by eapply scan_writeset_of|].
  by eapply listed_writeset.
Qed.

(** Equivalence of the listed write-set with the scan it replaces.  While
    the list a table keeps holds what a version wrote, the write-set read off
    the list is the one a scan of every header finds: the same inserted rows,
    and the same targets with the same hints, in some order. *)
Lemma extract_is_scan c v t :
  table_ok c t -> track_ok v t ->
  inserted (extract_tx_writeset t v) ≡ₚ inserted (scan t v) /\
  tombstoned (extract_tx_writeset t v) ≡ₚ tombstoned (scan t v).
Proof.
  intros Hok Htr. pose proof (scan_writeset_of c v t Hok) as Hs. pose proof (extract_writeset_of c v t Hok Htr) as He.
  assert (forall A (l : list (Z * A)), NoDup (map fst l) -> NoDup l) as Hfst by (intros A l; apply NoDup_fmap_1).
  split; apply NoDup_Permutation; try apply Hfst; try apply Hs; try apply He.
  - intros [rid row]. by rewrite (ws_inserted v _ _ Hs), (ws_inserted v _ _ He).
  - intros [rid hint]. destruct (extract_listed c v t Hok Htr) as [->|(ins & _ & Ht & ->)]; [done|]. cbn [tombstoned].
    unfold scan. rewrite (scan_tombstoned c v t Hok _ 0 eq_refl), list_elem_of_fmap. split.
    + intros ([pos r] & [= -> ->] & Hin). apply (ok_tombstoned v t Htr) in Hin as (Hr & h & ? & ?). exists pos, h. split_and!; [lia|done..].
    + intros (j & h & _ & Hr & -> & Hh & Hx). exists (j, rid). split; [done|]. apply (ok_tombstoned v t Htr). split; eauto.
Qed.
