(* ===== verification/Merge.v ===== *)
(** Folding a transaction's writes into a fresher catalog: the READ COMMITTED
    rebase and the commit merge of REPEATABLE READ and SERIALIZABLE
    (crates/spg-engine/src/transaction.rs, [maybe_rc_rebase] and the merge of
    [exec_commit]), on the tables of a catalog (crates/spg-storage/src/lib.rs).

    Table names are resolved names.  What the constraints of a schema and the
    expressions of its indexes answer is an interface, [Constraints]: nothing
    is assumed of it. *)
From stdpp Require Import gmap.
From S2P Require Import Prelude SortedMap BigNum Values RowCodec RowAccept RowLen Mvcc Heap HeapOps WriteSet.
Open Scope Z_scope.

(** ** The catalog *)

Record Catalog : Type := mk_catalog { tables : gmap (list Z) Table; dirty_tables : bset (list Z); next_rel_id : Z }.

Definition get (cat : Catalog) (n : list Z) : option Table := tables cat !! n.

(** [get_mut] and the write through the handle it gives. *)
Definition put_table (n : list Z) (t : Table) (cat : Catalog) : Catalog :=
  mk_catalog (<[n := t]> (tables cat)) (bs_insert n (dirty_tables cat)) (next_rel_id cat).

Definition mark_table_dirty (n : list Z) (cat : Catalog) : Catalog :=
  mk_catalog (tables cat) (bs_insert n (dirty_tables cat)) (next_rel_id cat).

Definition clear_dirty_tables (cat : Catalog) : Catalog := mk_catalog (tables cat) [] (next_rel_id cat).

(** [fresh] takes over the record of what the transaction itself changed. *)
Definition with_own_dirty (own_dirty : bset (list Z)) (fresh : Catalog) : Catalog :=
  fold_left (fun cat n => mark_table_dirty n cat) (bs_elems own_dirty) (clear_dirty_tables fresh).

(** ** What the constraints answer *)

Record ForeignKey : Type := mk_fk { deferrable : bool; initially_deferred : bool; fk_clause : Z }.

Class Constraints : Type := {
  enforce_uniqueness_inserts : Catalog -> list Z -> list Row -> result unit (list Z);
  enforce_unique_index_inserts : Catalog -> list Z -> list Row -> result unit (list Z);
  enforce_exclusion_inserts : Catalog -> list Z -> list Row -> result unit (list Z);
  foreign_keys : Catalog -> list Z -> list ForeignKey;
  enforce_fk_inserts : Catalog -> list Z -> list ForeignKey -> list Row -> result unit (list Z);
  deferred_checks : Catalog -> option bool -> list (list Z) -> result unit (list Z);
  row_keys : Catalog -> list Z -> list Row -> result unit (list Z)
}.

(** Why a fold stops. *)
Inductive Stop : Type :=
| Dropped (table : list Z)
| RowsGone (table : list Z) (count : nat)
| Refused (detail : list Z)
| KeyFailed (detail : list Z).

Section Fold.
Context `{HC : Constraints}.

(** The three checks of the rows about to land. *)
Definition check_inserts (fresh : Catalog) (n : list Z) (rows : list Row) : result unit (list Z) :=
  match rows with
  | [] => Ok ()
  | _ =>
    let? _ := enforce_uniqueness_inserts fresh n rows in
    let? _ := enforce_unique_index_inserts fresh n rows in
    enforce_exclusion_inserts fresh n rows
  end.

Definition own_inserted (ws : TxWriteSet) : list Z := map fst (inserted ws).

Definition plain_tombs (own : list Z) (ws : TxWriteSet) : list (Z * Z) := filter (fun e => e.1 ∉ own) (tombstoned ws).
Definition own_cycle (own : list Z) (ws : TxWriteSet) : list (Z * Z) := filter (fun e => e.1 ∈ own) (tombstoned ws).

(** The rows that the checks see: not those the transaction deleted again. *)
Definition inserted_rows (own : list Z) (ws : TxWriteSet) : list Row :=
  map snd (filter (fun e => e.1 ∉ map fst (own_cycle own ws)) (inserted ws)).

(** The two phases: the tombstones of rows that were there before, then, once
    the inserts are checked against that, the inserts. *)
Definition land (n : list Z) (own : list Z) (ws : TxWriteSet) (v : Z) (new_t : Table) (fresh : Catalog) (c : Counters)
  : option (result Catalog Stop * Counters) :=
  let! r := replay_tx_writeset (mk_writeset [] (plain_tombs own ws)) v new_t c in
  let '(_, new_t, c) := r in
  let fresh := put_table n new_t fresh in
  match check_inserts fresh n (inserted_rows own ws) with
  | Err e => Some (Err (Refused e), c)
  | Ok _ =>
    match row_keys fresh n (map snd (inserted ws)) with
    | Err e => Some (Err (KeyFailed e), c)
    | Ok _ =>
      let! r := replay_tx_writeset_keyed (mk_writeset (inserted ws) (own_cycle own ws)) v new_t c in
      let '(_, new_t, c) := r in
      Some (Ok (put_table n new_t fresh), c)
    end
  end.

(** The write-sets of the tables a transaction touched. *)
Definition write_sets (v : Z) (touched : bset (list Z)) (shadow : Catalog) : list (list Z * TxWriteSet) :=
  omap (fun n => old_t ← get shadow n;
                 let ws := extract_tx_writeset old_t v in
                 if is_empty ws then None else Some (n, ws)) (bs_elems touched).

(** *** READ COMMITTED: a conflicting tombstone is dropped, and with it the
    insert of the update it was half of *)

Definition foreign (ws : TxWriteSet) : list (Z * Z) := filter (fun e => e.1 ∉ own_inserted ws) (tombstoned ws).

Definition drop_conflicted (ws : TxWriteSet) (pairs : option (list (Z * Z))) (conflicted : list Z) : TxWriteSet :=
  match conflicted with
  | [] => ws
  | _ =>
    let dropped_new := map snd (filter (fun p => p.1 ∈ conflicted) (default [] pairs)) in
    mk_writeset (filter (fun e => e.1 ∉ dropped_new) (inserted ws)) (filter (fun e => e.1 ∉ conflicted) (tombstoned ws))
  end.

Definition rebase_table (v : Z) (pairs : gmap (list Z) (list (Z * Z))) (e : list Z * TxWriteSet) (fresh : Catalog) (c : Counters)
  : option (result Catalog Stop * Counters) :=
  let '(n, ws) := e in
  match get fresh n with
  | None => Some (Err (Dropped n), c)
  | Some new_t =>
    let conflicted := tombstone_conflicts new_t (foreign ws) v in
    land n (own_inserted ws) (drop_conflicted ws (pairs !! n) conflicted) v new_t fresh c
  end.

(** *** REPEATABLE READ: a conflicting tombstone ends it *)

Definition hard_conflicts (v : Z) (new_t : Table) (ws : TxWriteSet) : list Z :=
  filter (fun rid => rid ∉ own_inserted ws) (tombstone_conflicts new_t (tombstoned ws) v).

Definition merge_table (v : Z) (e : list Z * TxWriteSet) (fresh : Catalog) (c : Counters)
  : option (result Catalog Stop * Counters) :=
  let '(n, ws) := e in
  match get fresh n with
  | None => Some (Err (Dropped n), c)
  | Some new_t =>
    match hard_conflicts v new_t ws with
    | [] => land n (own_inserted ws) ws v new_t fresh c
    | hard => Some (Err (RowsGone n (length hard)), c)
    end
  end.

(** Table after table, up to the first that stops it.  The row ids a stopped
    fold took stay taken: their counters are shared. *)
Fixpoint fold_tables (step : list Z * TxWriteSet -> Catalog -> Counters -> option (result Catalog Stop * Counters))
    (wsets : list (list Z * TxWriteSet)) (fresh : Catalog) (c : Counters) : option (result Catalog Stop * Counters) :=
  match wsets with
  | [] => Some (Ok fresh, c)
  | e :: wsets =>
    let! r := step e fresh c in
    match r with
    | (Ok fresh, c) => fold_tables step wsets fresh c
    | (Err s, c) => Some (Err s, c)
    end
  end.

End Fold.
