(* ===== verification/MergeOk.v ===== *)
(** What the folds of [Merge] do to the map of row ids of a table: they extend
    it by the transaction's own writes, and the merge is the three-way merge of
    the transaction's rows and the base. *)
From stdpp Require Import gmap.
From S2P Require Import Prelude SortedMap BigNum Values RowCodec RowAccept RowLen Mvcc Heap HeapOps WriteSet Merge.
Open Scope Z_scope.

(** ** Adding the writes of one version *)

(** [H'] is [H] with rows of [v] added and rows alive in [H] deleted by [v];
    nothing else is different. *)
Record extends (v : Z) (H H' : gmap Z Cell) : Prop := {
  ext_kept rid r h : H !! rid = Some (r, h) ->
    exists h', H' !! rid = Some (r, h') /\ (h' = h \/ (xmax h = XMAX_ALIVE /\ h' = set_xmax v h));
  ext_new rid r h : H' !! rid = Some (r, h) -> H !! rid = None -> xmin h = v /\ (xmax h = XMAX_ALIVE \/ xmax h = v)
}.

Lemma extends_refl v H : extends v H H.
Proof. split; [eauto|]. intros rid r h -> [=]. Qed.

Lemma extends_trans v H1 H2 H3 : v <> XMAX_ALIVE -> extends v H1 H2 -> extends v H2 H3 -> extends v H1 H3.
Proof.
  intros Hv [K1 N1] [K2 N2]. split.
  - intros rid r h E. destruct (K1 _ _ _ E) as (h1 & E1 & C1). destruct (K2 _ _ _ E1) as (h2 & E2 & C2). exists h2. split; [done|].
    destruct C1 as [->|[Ha ->]]; [done|]. destruct C2 as [->|[Hb _]]; [by right|]. by destruct Hv.
  - intros rid r h E E0. destruct (H2 !! rid) as [[r1 h1]|] eqn:E1; [|by eapply N2].
    destruct (N1 _ _ _ E1 E0) as [Hx Hm]. destruct (K2 _ _ _ E1) as (h2 & E2 & C). simplify_eq.
    destruct C as [->|[_ ->]]; [done|]. cbn. auto.
Qed.

Lemma extends_back v H H' rid r h :
  extends v H H' -> H' !! rid = Some (r, h) -> xmin h <> v -> exists h0, H !! rid = Some (r, h0) /\ xmin h0 = xmin h.
Proof.
  intros [K N] E Hx. destruct (H !! rid) as [[r0 h0]|] eqn:E0; [|by destruct (N _ _ _ E E0)].
  destruct (K _ _ _ E0) as (h' & E' & C). simplify_eq. exists h0. split; [done|]. by destruct C as [->|[_ ->]].
Qed.

Lemma extends_tomb v H rid : extends v H (tomb v H rid).
Proof.
  unfold tomb. destruct (H !! rid) as [[r h]|] eqn:E; [|apply extends_refl].
  destruct (Z.eqb_spec (xmax h) XMAX_ALIVE) as [Ha|]; [|apply extends_refl]. split.
  - intros x r' h' Ex. destruct (decide (x = rid)) as [->|]; [|rewrite lookup_insert_ne by done; eauto].
    rewrite lookup_insert_eq. simplify_eq. eauto.
  - intros x r' h' Ex En. rewrite lookup_insert_ne in Ex by congruence. congruence.
Qed.

Lemma extends_put v H e : H !! e.1 = None -> extends v H (put v H e).
Proof.
  intros Hn. unfold put. split.
  - intros x r' h' Ex. rewrite lookup_insert_ne by congruence. eauto.
  - intros x r' h' [[<- [= <- <-]]|[_ Ex]]%lookup_insert_Some En; [cbn; auto|congruence].
Qed.

Lemma extends_new v H rid row : H !! rid = None -> extends v H (<[rid := (row, alive v)]> H).
Proof.
  intros Hn. split.
  - intros x r' h' Ex. rewrite lookup_insert_ne by congruence. eauto.
  - intros x r' h' [[<- [= <- <-]]|[_ Ex]]%lookup_insert_Some En; [cbn; auto|congruence].
Qed.

Lemma extends_tombs v ids : v <> XMAX_ALIVE -> forall H, extends v H (fold_left (tomb v) ids H).
Proof.
  intros Hv. induction ids as [|rid ids IH]; intros H; cbn [fold_left]; [apply extends_refl|].
  eapply extends_trans; [done|apply extends_tomb|apply IH].
Qed.

Lemma extends_puts v es : v <> XMAX_ALIVE -> forall H,
  NoDup (map fst es) -> Forall (fun e => H !! e.1 = None) es -> extends v H (fold_left (put v) es H).
Proof.
  intros Hv. induction es as [|e es IH]; intros H Hnd Hf; cbn [fold_left]; [apply extends_refl|].
  apply Forall_cons in Hf as [He Hf]. apply NoDup_cons in Hnd as [Hne Hnd].
  eapply extends_trans; [done|by apply extends_put|]. apply IH; [done|]. apply Forall_forall. intros e' Hin.
  rewrite Forall_forall in Hf. unfold put. rewrite lookup_insert_ne; [by apply Hf|].
  intros E. apply Hne. rewrite E. by apply list_elem_of_fmap_2.
Qed.

(** ** Where a row ends up *)

Lemma tombs_lookup v ids : v <> XMAX_ALIVE -> forall H rid,
  fold_left (tomb v) ids H !! rid =
  (fun '(r, h) => (r, if bool_decide (rid ∈ ids) && (xmax h =? XMAX_ALIVE) then set_xmax v h else h)) <$> H !! rid.
Proof.
  intros Hv. induction ids as [|x ids IH]; intros H rid; cbn [fold_left].
  { destruct (H !! rid) as [[r h]|]; [|done]. cbn. rewrite bool_decide_eq_false_2 by apply not_elem_of_nil. done. }
  rewrite IH. unfold tomb. destruct (H !! x) as [[rx hx]|] eqn:Ex.
  - destruct (Z.eqb_spec (xmax hx) XMAX_ALIVE) as [Ha|Hd].
    + destruct (decide (rid = x)) as [->|Hne].
      * rewrite lookup_insert_eq, Ex. cbn. rewrite (bool_decide_eq_true_2 (x ∈ x :: ids)) by left.
        rewrite (proj2 (Z.eqb_neq v _) Hv), andb_false_r, Ha. done.
      * rewrite lookup_insert_ne by done. destruct (H !! rid) as [[r h]|]; [|done]. cbn. do 2 f_equal.
        rewrite (bool_decide_ext (rid ∈ x :: ids) (rid ∈ ids)) by (rewrite elem_of_cons; naive_solver). done.
    + destruct (H !! rid) as [[r h]|] eqn:Er; [|done]. cbn. do 2 f_equal. destruct (decide (rid = x)) as [->|Hne].
      * simplify_eq. by rewrite (proj2 (Z.eqb_neq _ _) Hd), !andb_false_r.
      * rewrite (bool_decide_ext (rid ∈ x :: ids) (rid ∈ ids)) by (rewrite elem_of_cons; naive_solver). done.
  - destruct (H !! rid) as [[r h]|] eqn:Er; [|done]. cbn. do 2 f_equal.
    rewrite (bool_decide_ext (rid ∈ x :: ids) (rid ∈ ids)) by (rewrite elem_of_cons; naive_solver congruence). done.
Qed.

Lemma puts_lookup_out v es : forall H rid, rid ∉ map fst es -> fold_left (put v) es H !! rid = H !! rid.
Proof.
  induction es as [|e es IH]; intros H rid Hn; cbn [fold_left]; [done|]. cbn [map] in Hn. apply not_elem_of_cons in Hn as [? ?].
  rewrite IH by done. unfold put. by rewrite lookup_insert_ne.
Qed.

Lemma puts_lookup_in v es : forall H rid row,
  NoDup (map fst es) -> (rid, row) ∈ es -> fold_left (put v) es H !! rid = Some (row, replayed_header v).
Proof.
  induction es as [|e es IH]; intros H rid row Hnd Hin; [by apply elem_of_nil in Hin|]. cbn [fold_left]. cbn [map] in Hnd.
  apply NoDup_cons in Hnd as [Hne Hnd]. apply elem_of_cons in Hin as [<-|Hin]; [|by apply IH].
  rewrite puts_lookup_out by done. unfold put. by rewrite lookup_insert_eq.
Qed.

(** ** Landing a write-set *)

(** What the two phases leave of a map. *)
Definition landed_heap (v : Z) (own : list Z) (ws : TxWriteSet) (H : gmap Z Cell) : gmap Z Cell :=
  fold_left (tomb v) (map fst (own_cycle own ws))
    (fold_left (put v) (inserted ws) (fold_left (tomb v) (map fst (plain_tombs own ws)) H)).

Lemma landed_extends v own ws H :
  v <> XMAX_ALIVE -> NoDup (map fst (inserted ws)) -> Forall (fun e => H !! e.1 = None) (inserted ws) ->
  extends v H (landed_heap v own ws H).
Proof.
  intros Hv Hnd Hf. unfold landed_heap. eapply extends_trans; [done| |by apply extends_tombs].
  eapply extends_trans; [done|by apply extends_tombs|]. apply extends_puts; [done|done|].
  eapply Forall_impl; [exact Hf|]. intros e He. cbn. by rewrite tombs_lookup, He.
Qed.

Section Land.
Context `{HC : Constraints}.

(** What a write-set needs of the table it lands on. *)
Record landable (v : Z) (c : Counters) (own : list Z) (t : Table) (ws : TxWriteSet) : Prop := {
  ld_ok : table_ok c t;
  ld_replay : replayable c t ws;
  ld_free rid : rid ∈ map fst (plain_tombs own ws) -> conflict_at v (heap t) rid = false
}.

Lemma replayable_mono c c' t t' ws :
  counters_le c c' -> same_table t t' -> (forall rid, heap t !! rid = None -> rid ∈ map fst (inserted ws) -> heap t' !! rid = None) ->
  replayable c t ws -> replayable c' t' ws.
Proof.
  intros Hc Hs Hh [Ha Ho Hf]. split; [|done|].
  - eapply Forall_impl; [exact Ha|]. intros e. by apply accepts_same.
  - apply Forall_forall. intros e Hin. rewrite Forall_forall in Hf. destruct (Hf e Hin) as [? ?].
    destruct Hs as (_ & _ & _ & ->). specialize (Hc (next_rowid t)). split; [|lia]. apply Hh; [done|]. by apply list_elem_of_fmap_2.
Qed.

Lemma no_conflicts v H ids :
  (forall rid, rid ∈ ids -> conflict_at v H rid = false) -> filter (fun rid => conflict_at v H rid = true) ids = [].
Proof.
  induction ids as [|rid ids IH]; intros Hf; [done|]. rewrite filter_cons_False by (by rewrite Hf by left).
  apply IH. intros x Hx. apply Hf. by right.
Qed.

Lemma land_phase1 v c own t ws :
  2 <= v -> landable v c own t ws ->
  exists t1 c1, replay_tx_writeset (mk_writeset [] (plain_tombs own ws)) v t c = Some ([], t1, c1) /\
    written_by v c t c1 t1 /\ heap t1 = fold_left (tomb v) (map fst (plain_tombs own ws)) (heap t).
Proof.
  intros Hv [Hok _ Hfree]. destruct (replay_ok v c t (mk_writeset [] (plain_tombs own ws)) Hok Hv) as (t1 & c1 & E & Hw & Hh).
  { split; cbn; [by apply Forall_nil_2|apply NoDup_nil_2|by apply Forall_nil_2]. }
  cbn in E, Hh. rewrite no_conflicts in E by exact Hfree. eauto.
Qed.

Lemma land_phase2 v c own t c1 t1 ws :
  2 <= v -> landable v c own t ws -> written_by v c t c1 t1 ->
  heap t1 = fold_left (tomb v) (map fst (plain_tombs own ws)) (heap t) ->
  exists left t2 c2, replay_tx_writeset_keyed (mk_writeset (inserted ws) (own_cycle own ws)) v t1 c1 = Some (left, t2, c2) /\
    written_by v c t c2 t2 /\ heap t2 = landed_heap v own ws (heap t) /\
    ((forall rid, rid ∈ map fst (own_cycle own ws) -> rid ∈ map fst (inserted ws)) -> left = []).
Proof.
  intros Hv [Hok Hrep Hfree] Hw Hh. assert (Hv0 : v <> XMAX_ALIVE) by (unfold XMAX_ALIVE; lia).
  destruct (replay_ok v c1 t1 (mk_writeset (inserted ws) (own_cycle own ws)) (wb_ok _ _ _ _ _ Hw) Hv) as (t2 & c2 & E & Hw2 & Hh2).
  { destruct (replayable_mono c c1 t t1 ws (wb_counters _ _ _ _ _ Hw) (wb_same _ _ _ _ _ Hw)) as [Ha Ho Hf]; [|done|by split].
    intros rid Hn _. by rewrite Hh, tombs_lookup, Hn. }
  eexists _, t2, c2. cbn in E, Hh2. split_and!; [exact E|by eapply written_by_trans| |].
  - unfold replay_heap in Hh2. cbn in Hh2. by rewrite Hh2, Hh.
  - intros Hcyc. apply no_conflicts. intros rid Hin. apply Hcyc, list_elem_of_fmap in Hin as ([x row] & -> & Hin). cbn [fst].
    unfold conflict_at. rewrite (puts_lookup_in v _ _ x row (rp_once _ _ _ Hrep) Hin). done.
Qed.

(** What landing on [t] gives, on every answer of the checks. *)
Definition lands_on (v : Z) (c : Counters) (n : list Z) (t : Table) (H' : gmap Z Cell) (fresh : Catalog)
    (m : option (result Catalog Stop * Counters)) : Prop :=
  exists r c', m = Some (r, c') /\ counters_le c c' /\
    forall fresh', r = Ok fresh' -> exists t', tables fresh' = <[n := t']> (tables fresh) /\ written_by v c t c' t' /\ heap t' = H'.

Lemma land_ok v c own n t ws fresh :
  2 <= v -> landable v c own t ws -> lands_on v c n t (landed_heap v own ws (heap t)) fresh (land n own ws v t fresh c).
Proof.
  intros Hv Hl. unfold land. destruct (land_phase1 v c own t ws Hv Hl) as (t1 & c1 & -> & Hw & Hh). cbn [mbind option_bind].
  destruct (check_inserts _ _ _); [|by eexists _, _; split_and!; [reflexivity|apply Hw|]].
  destruct (row_keys _ _ _); [|by eexists _, _; split_and!; [reflexivity|apply Hw|]].
  destruct (land_phase2 v c own t c1 t1 ws Hv Hl Hw Hh) as (left & t2 & c2 & -> & Hw2 & Hh2 & _). cbn [mbind option_bind].
  eexists _, _. split_and!; [reflexivity|apply Hw2|]. intros fresh' [= <-]. exists t2. split_and!; [|done|done].
  cbn. by rewrite insert_insert_eq.
Qed.

(** ** The rebase of one table *)

(** The write-set without what conflicts with the base. *)
Definition kept (v : Z) (pairs : option (list (Z * Z))) (t : Table) (ws : TxWriteSet) : TxWriteSet :=
  drop_conflicted ws pairs (tombstone_conflicts t (foreign ws) v).

Lemma sublist_filter {A} (P : A -> Prop) `{!forall x, Decision (P x)} (l : list A) : filter P l `sublist_of` l.
Proof. induction l as [|x l IH]; [done|]. rewrite filter_cons. case_decide; by constructor. Qed.

Lemma kept_inserted v pairs t ws : inserted (kept v pairs t ws) `sublist_of` inserted ws.
Proof. unfold kept, drop_conflicted. destruct (tombstone_conflicts _ _ _); [done|]. apply sublist_filter. Qed.

Lemma kept_tombstoned v pairs t ws : tombstoned (kept v pairs t ws) `sublist_of` tombstoned ws.
Proof. unfold kept, drop_conflicted. destruct (tombstone_conflicts _ _ _); [done|]. apply sublist_filter. Qed.

Lemma Forall_sublist {A} (P : A -> Prop) l l' : l `sublist_of` l' -> Forall P l' -> Forall P l.
Proof. rewrite !Forall_forall. intros Hs HP x Hx. apply HP. by eapply elem_of_sublist. Qed.

Lemma replayable_sub c t ws ws' : inserted ws' `sublist_of` inserted ws -> replayable c t ws -> replayable c t ws'.
Proof.
  intros Hs [Ha Ho Hf]. split; [by eapply Forall_sublist| |by eapply Forall_sublist].
  eapply sublist_NoDup; [done|]. by apply fmap_sublist.
Qed.

Lemma kept_landable v c pairs t ws :
  table_ok c t -> replayable c t ws -> landable v c (own_inserted ws) t (kept v pairs t ws).
Proof.
  intros Hok Hrep. split; [done|eapply replayable_sub; [apply kept_inserted|done]|]. intros rid Hin.
  apply list_elem_of_fmap in Hin as ([x hint] & -> & Hin). cbn [fst]. unfold plain_tombs in Hin.
  apply list_elem_of_filter in Hin as [Hown Hin]. cbn [fst] in Hown.
  destruct (conflict_at v (heap t) x) eqn:E; [|done]. exfalso.
  assert (x ∈ tombstone_conflicts t (foreign ws) v) as Hc.
  { rewrite (tombstone_conflicts_spec c v t _ Hok). apply list_elem_of_filter. split; [done|].
    apply list_elem_of_fmap. exists (x, hint). split; [done|]. apply list_elem_of_filter. split; [done|].
    eapply elem_of_sublist; [exact Hin|apply kept_tombstoned]. }
  unfold kept, drop_conflicted in Hin. destruct (tombstone_conflicts t (foreign ws) v) as [|y ys]; [by apply elem_of_nil in Hc|].
  cbn [tombstoned] in Hin. apply list_elem_of_filter in Hin as [? _]. done.
Qed.

Lemma rebase_table_ok v c pairs n t ws fresh :
  2 <= v -> get fresh n = Some t -> table_ok c t -> replayable c t ws ->
  lands_on v c n t (landed_heap v (own_inserted ws) (kept v (pairs !! n) t ws) (heap t)) fresh (rebase_table v pairs (n, ws) fresh c).
Proof.
  intros Hv Hg Hok Hrep. unfold rebase_table. rewrite Hg. apply land_ok; [done|]. by apply kept_landable.
Qed.

(** ** The merge of one table *)

(** The cell of the merge: [s] in the transaction's copy, [b] in the base. *)
Definition merge_cell (v : Z) (s b : option Cell) : option Cell :=
  match s with
  | Some (r, h) =>
    if xmin h =? v then Some (r, mk_header v (if xmax h =? v then v else XMAX_ALIVE) HEAP_XMIN_FROZEN)
    else if xmax h =? v then (fun '(r0, h0) => (r0, set_xmax v h0)) <$> b
    else b
  | None => b
  end.

(** The rows of [v] in [shadow], and its deletions, over those of [base]. *)
Definition three_way (v : Z) (shadow base : gmap Z Cell) : gmap Z Cell := merge (merge_cell v) shadow base.

Lemma three_way_lookup v shadow base rid : three_way v shadow base !! rid = merge_cell v (shadow !! rid) (base !! rid).
Proof. unfold three_way. rewrite lookup_merge. by destruct (shadow !! rid), (base !! rid). Qed.

(** [v] deletes a row that another version deleted, or that is gone. *)
Definition overtaken (v : Z) (shadow base : gmap Z Cell) (rid : Z) : Prop :=
  exists r h, shadow !! rid = Some (r, h) /\ xmax h = v /\ xmin h <> v /\ conflict_at v base rid = true.

Lemma elem_cycle own ws rid : rid ∈ map fst (own_cycle own ws) <-> rid ∈ own /\ rid ∈ map fst (tombstoned ws).
Proof.
  unfold own_cycle. rewrite !list_elem_of_fmap. setoid_rewrite list_elem_of_filter. split; [naive_solver|].
  intros (? & e & -> & ?). eauto.
Qed.

Lemma elem_plain own ws rid : rid ∈ map fst (plain_tombs own ws) <-> rid ∉ own /\ rid ∈ map fst (tombstoned ws).
Proof.
  unfold plain_tombs. rewrite !list_elem_of_fmap. setoid_rewrite list_elem_of_filter. split; [naive_solver|].
  intros (? & e & -> & ?). eauto.
Qed.

Lemma own_inserted_spec v S ws rid :
  writeset_of v S ws -> rid ∈ own_inserted ws <-> exists r h, S !! rid = Some (r, h) /\ xmin h = v.
Proof.
  intros Hws. unfold own_inserted. rewrite list_elem_of_fmap. split.
  - intros ([x row] & -> & (h & ? & ?)%(ws_inserted _ _ _ Hws)). eauto.
  - intros (r & h & E & Hx). exists (rid, r). split; [done|]. apply (ws_inserted _ _ _ Hws). eauto.
Qed.

Lemma landed_three_way v S B ws :
  v <> XMAX_ALIVE -> writeset_of v S ws -> Forall (fun e => B !! e.1 = None) (inserted ws) ->
  (forall rid, ~ overtaken v S B rid) -> (forall rid r h, B !! rid = Some (r, h) -> xmax h <> v) ->
  landed_heap v (own_inserted ws) ws B = three_way v S B.
Proof.
  intros Hv Hws Hf Hno Hcl. apply map_eq. intros rid. rewrite three_way_lookup. unfold landed_heap. rewrite tombs_lookup by done.
  destruct (decide (rid ∈ own_inserted ws)) as [Hown|Hown].
  - pose proof Hown as Hin. apply list_elem_of_fmap in Hin as ([x row] & -> & Hin). cbn [fst] in *.
    rewrite (puts_lookup_in v _ _ x row (ws_inserted_once _ _ _ Hws) Hin). cbn.
    destruct (proj1 (ws_inserted _ _ _ Hws x row) Hin) as (h & E & Hx). rewrite E. cbn. rewrite Hx, Z.eqb_refl.
    rewrite (bool_decide_ext (x ∈ map fst (own_cycle (own_inserted ws) ws)) (xmax h = v)).
    + case_bool_decide as Hm; cbn; [by rewrite Hm, Z.eqb_refl|]. by rewrite (proj2 (Z.eqb_neq _ _) Hm).
    + rewrite elem_cycle, (ws_tombstoned _ _ _ Hws). naive_solver congruence.
  - rewrite puts_lookup_out, tombs_lookup by done. rewrite (own_inserted_spec v S ws rid Hws) in Hown.
    destruct (S !! rid) as [[r h]|] eqn:E; cbn.
    + rewrite (proj2 (Z.eqb_neq (xmin h) v)) by (intros Hx; apply Hown; eauto).
      destruct (B !! rid) as [[r0 h0]|] eqn:EB; cbn; [|by destruct (xmax h =? v)].
      rewrite (bool_decide_eq_false_2 (rid ∈ map fst (own_cycle _ _))).
      2:{ rewrite elem_cycle, (own_inserted_spec v S ws rid Hws). naive_solver. }
      cbn. rewrite (bool_decide_ext _ (xmax h = v)).
      2:{ rewrite elem_plain, (ws_tombstoned _ _ _ Hws), (own_inserted_spec v S ws rid Hws). naive_solver congruence. }
      case_bool_decide as Hm; cbn; [|by rewrite (proj2 (Z.eqb_neq _ _) Hm)]. rewrite Hm, Z.eqb_refl.
      destruct (Z.eqb_spec (xmax h0) XMAX_ALIVE) as [Ha|Ha]; [done|]. exfalso. apply (Hno rid). exists r, h. split_and!; [done|done|naive_solver|].
      unfold conflict_at. rewrite EB, (proj2 (Z.eqb_neq _ _) Ha), (proj2 (Z.eqb_neq _ _) (Hcl _ _ _ EB)). done.
    + destruct (B !! rid) as [[r0 h0]|] eqn:EB; cbn; [|done].
      assert (rid ∉ map fst (tombstoned ws)) as Hnt by (rewrite (ws_tombstoned _ _ _ Hws); naive_solver congruence).
      rewrite !bool_decide_eq_false_2 by (rewrite ?elem_cycle, ?elem_plain; naive_solver). done.
Qed.

Lemma clean_xmax v t rid r h : clean v t -> heap t !! rid = Some (r, h) -> xmin h <> v /\ xmax h <> v.
Proof. intros [_ Hc] E. by apply Hc in E. Qed.

Lemma hard_overtaken v c S t ws rid :
  table_ok c t -> writeset_of v S ws -> rid ∈ hard_conflicts v t ws <-> overtaken v S (heap t) rid.
Proof.
  intros Hok Hws. unfold hard_conflicts, overtaken. rewrite list_elem_of_filter, (tombstone_conflicts_spec c v t _ Hok), list_elem_of_filter.
  rewrite (ws_tombstoned _ _ _ Hws), (own_inserted_spec v S ws rid Hws). naive_solver congruence.
Qed.

Lemma merge_table_ok v c n t S ws fresh :
  2 <= v -> get fresh n = Some t -> table_ok c t -> clean v t -> replayable c t ws -> writeset_of v S ws ->
  (exists rid k, overtaken v S (heap t) rid /\ merge_table v (n, ws) fresh c = Some (Err (RowsGone n k), c)) \/
  ((forall rid, ~ overtaken v S (heap t) rid) /\ lands_on v c n t (three_way v S (heap t)) fresh (merge_table v (n, ws) fresh c)).
Proof.
  intros Hv Hg Hok Hcl Hrep Hws. unfold merge_table. rewrite Hg. pose proof (fun rid => hard_overtaken v c S t ws rid Hok Hws) as Hh.
  destruct (hard_conflicts v t ws) as [|x xs].
  - right. assert (forall rid, ~ overtaken v S (heap t) rid) as Hno by (intros rid Ho%Hh; by apply elem_of_nil in Ho). split; [done|].
    rewrite <- (landed_three_way v S (heap t) ws); [|unfold XMAX_ALIVE; lia|done| |done|].
    + apply land_ok; [done|]. split; [done|done|]. intros rid Hin. destruct (conflict_at v (heap t) rid) eqn:E; [|done].
      exfalso. apply elem_plain in Hin as [Hown Hin]. apply (ws_tombstoned _ _ _ Hws) in Hin as (r & h & ES & Hm).
      apply (Hno rid). exists r, h. split_and!; [done|done| |done]. intros Hx. apply Hown, (own_inserted_spec v S ws rid Hws). eauto.
    + eapply Forall_impl; [apply (rp_fresh _ _ _ Hrep)|]. by intros e [? _].
    + intros rid r h E. by eapply clean_xmax.
  - left. exists x, (length (x :: xs)). split; [|done]. apply Hh. left.
Qed.

Lemma three_way_extends v c S t ws :
  2 <= v -> table_ok c t -> clean v t -> replayable c t ws -> writeset_of v S ws ->
  (forall rid, ~ overtaken v S (heap t) rid) -> extends v (heap t) (three_way v S (heap t)).
Proof.
  intros Hv Hok Hcl [_ Ho Hf] Hws Hno. assert (Hv0 : v <> XMAX_ALIVE) by (unfold XMAX_ALIVE; lia).
  assert (Forall (fun e => heap t !! e.1 = None) (inserted ws)) as Hf' by (eapply Forall_impl; [exact Hf|]; by intros e [? _]).
  rewrite <- (landed_three_way v S (heap t) ws Hv0 Hws Hf' Hno); [by apply landed_extends|].
  intros rid r h E. by eapply clean_xmax.
Qed.

End Land.

(** ** Every table *)

Section Tables.
Context `{HC : Constraints}.
Context (v : Z) (step : list Z * TxWriteSet -> Catalog -> Counters -> option (result Catalog Stop * Counters)).
Context (P : list Z -> TxWriteSet -> Counters -> Table -> Prop) (Q : list Z -> TxWriteSet -> Table -> Prop).
Context (out : list Z -> TxWriteSet -> Table -> gmap Z Cell).
Context (P_mono : forall n ws c c' t, counters_le c c' -> P n ws c t -> P n ws c' t).
Context (step_missing : forall n ws fresh c, get fresh n = None -> exists s, step (n, ws) fresh c = Some (Err s, c)).
Context (step_lands : forall n ws fresh c t, get fresh n = Some t -> P n ws c t ->
  (exists s, step (n, ws) fresh c = Some (Err s, c)) \/ (Q n ws t /\ lands_on v c n t (out n ws t) fresh (step (n, ws) fresh c))).

Definition table_out (wsets : list (list Z * TxWriteSet)) (n : list Z) (t : Table) : gmap Z Cell :=
  match (list_to_map wsets : gmap (list Z) TxWriteSet) !! n with Some ws => out n ws t | None => heap t end.

(** What a fold that went through leaves. *)
Record folded (c : Counters) (wsets : list (list Z * TxWriteSet)) (fresh : Catalog) (c' : Counters) (fresh' : Catalog) : Prop := {
  fd_missing n : get fresh n = None -> get fresh' n = None;
  fd_table n t : get fresh n = Some t ->
    exists t', get fresh' n = Some t' /\ written_by v c t c' t' /\ heap t' = table_out wsets n t /\ (n ∉ map fst wsets -> t' = t);
  fd_each n ws : (n, ws) ∈ wsets -> exists t, get fresh n = Some t /\ Q n ws t
}.

Lemma fold_tables_ok wsets : forall fresh c,
  NoDup (map fst wsets) -> (forall n t, get fresh n = Some t -> table_ok c t) ->
  (forall n ws t, (n, ws) ∈ wsets -> get fresh n = Some t -> P n ws c t) ->
  exists r c', fold_tables step wsets fresh c = Some (r, c') /\ counters_le c c' /\
    forall fresh', r = Ok fresh' -> folded c wsets fresh c' fresh'.
Proof.
  induction wsets as [|[n ws] wsets IH]; intros fresh c Hnd Hok HP; cbn [fold_tables].
  { exists (Ok fresh), c. split_and!; [done|done|]. intros fresh' [= <-]. split; [done| |by intros ?? ?%elem_of_nil].
    intros n t E. exists t. split_and!; [done| |done|done]. by apply written_by_refl, (Hok n). }
  cbn [map fst] in Hnd. apply NoDup_cons in Hnd as [Hn Hnd]. destruct (get fresh n) as [t|] eqn:Hg.
  2:{ destruct (step_missing n ws fresh c Hg) as [s ->]. cbn. by eexists _, _. }
  destruct (step_lands n ws fresh c t Hg) as [[s ->]|(HQ & r & c1 & -> & Hc1 & Hr)]; [by eapply HP; [left|]|by eexists _, _|].
  cbn [mbind option_bind]. destruct r as [fresh1|s]; [|by eexists _, _]. destruct (Hr fresh1 eq_refl) as (t1 & Ht1 & Hw1 & Hh1).
  assert (Hother : forall m, m <> n -> get fresh1 m = get fresh m) by (intros m Hm; unfold get; by rewrite Ht1, lookup_insert_ne).
  assert (Hn1 : get fresh1 n = Some t1) by (unfold get; by rewrite Ht1, lookup_insert_eq).
  destruct (IH fresh1 c1 Hnd) as (r & c' & -> & Hc' & Hr').
  { intros m t' E. destruct (decide (m = n)) as [->|Hm]; [|eapply table_ok_mono; [done|]; apply (Hok m); by rewrite <- Hother].
    rewrite Hn1 in E. injection E as <-. apply Hw1. }
  { intros m ws' t' Hin E. assert (m <> n) as Hm by (intros ->; apply Hn, (list_elem_of_fmap_2 fst _ _ Hin)).
    eapply P_mono; [done|]. eapply HP; [by right|]. by rewrite <- Hother. }
  exists r, c'. split_and!; [done|by etrans|]. intros fresh' ->. destruct (Hr' fresh' eq_refl) as [Hm Ht He]. split.
  - intros m E. apply Hm. rewrite Hother by congruence. done.
  - intros m t' E. unfold table_out. cbn [list_to_map foldr]. destruct (decide (m = n)) as [->|Hne].
    + simplify_eq. destruct (Ht n t1 Hn1) as (t2 & E2 & Hw2 & Hh2 & _). exists t2.
      split_and!; [done|by eapply written_by_trans| |intros []; left].
      cbn. rewrite lookup_insert_eq, <- Hh1, Hh2. unfold table_out. rewrite not_elem_of_list_to_map_1 by done. done.
    + destruct (Ht m t') as (t2 & E2 & Hw2 & Hh2 & Hs2); [by rewrite Hother|]. exists t2.
      split_and!; [done| | |intros Hm'; apply Hs2; set_solver].
      * eapply written_by_trans; [|exact Hw2]. destruct (written_by_refl v c1 t') as []; [by eapply table_ok_mono, (Hok m)|]. by split.
      * cbn. rewrite lookup_insert_ne by done. exact Hh2.
  - intros m ws' [[= -> ->]|Hin]%elem_of_cons; [eauto|]. destruct (He m ws' Hin) as (t' & E & ?).
    assert (m <> n) as Hne by (intros ->; apply Hn, (list_elem_of_fmap_2 fst _ _ Hin)). rewrite Hother in E by done. eauto.
Qed.

End Tables.
