(* ===== verification/Tx.v ===== *)
(** Transactions of the engine (crates/spg-engine/src/transaction.rs, and the
    statement dispatch around it in execute.rs and dml.rs): a transaction works
    on a shadow of the catalog, which BEGIN clones and COMMIT installs.

    The writer versions are those of [Mvcc], with the [cached_snapshot] of a
    transaction in [tx_cached]; the rows and positions a statement writes, which
    planning works out, are part of the statement.  An UPDATE or DELETE ends
    with a vacuum of its table when enough of its rows are deleted and no
    transaction is open, and a background worker vacuums the same way; the
    capture of physical changes takes the active catalog for writing at every
    statement, and what it captures is not kept.  Epochs and sequence numbers do
    not reach 2^64.  Sessions, sequences, roles, cursors, locks and the
    undo of settings are not modelled. *)
From stdpp Require Import gmap.
From S2P Require Import Prelude SortedMap Bytes BigNum Values RowCodec RowAccept RowLen Mvcc Heap Merge.
Open Scope Z_scope.

(** ** The data *)

Inductive IsolationLevel : Type := ReadUncommitted | ReadCommitted | RepeatableRead | Serializable.

#[export] Instance IsolationLevel_eq_dec : EqDecision IsolationLevel.
Proof. solve_decision. Defined.

Record TxState : Type := mk_tx {
  tx_catalog : Catalog;
  savepoints : list (list Z * Catalog);
  touched_tables : bset (list Z);
  read_tables : bset (list Z);
  serializable : bool;
  begin_commit_seq : Z;
  shadow_dirty : bool;
  aborted : bool;
  constraints_deferred : option bool;
  rebase_poisoned : bool;
  update_pairs : gmap (list Z) (list (Z * Z));
  rebased_at_epoch : Z
}.

(** The switches of an engine: rows versioned in place, vacuum by the engine
    itself, at the end of a statement, physical changes captured for the log of
    the embedding layer, or for the materialized views kept by deltas. *)
Record Settings : Type := mk_settings {
  inplace : bool;
  autovacuum : bool;
  autovacuum_inline : bool;
  redo_capture : bool;
  matview_maintainable : bool
}.

Record Engine : Type := mk_engine {
  catalog : Catalog;
  counters : Counters;
  versions : Versions;
  tx_catalogs : gmap Z TxState;
  commit_epoch : Z;
  commit_seq : Z;
  table_last_commit : gmap (list Z) Z;
  settings : Settings;
  stmt_writer_version : option Z
}.

Inductive EngineError : Type :=
| NoActiveTransaction
| TransactionAlreadyOpen
| InFailedTransaction
| SavepointNotFound (name : list Z)
| SerializationFailure (stop : Stop)
| ReadWriteDependency (table : list Z)
| Constraint (detail : list Z)
| Eval (detail : list Z)
| TableNotFound (table : list Z)
| Storage (e : TableError)
| DuplicateTable (table : list Z).

Inductive Statement : Type :=
| Begin (level : IsolationLevel)
| Commit
| Rollback
| Savepoint (name : list Z)
| RollbackToSavepoint (name : list Z)
| ReleaseSavepoint (name : list Z)
| Select (reads : list (list Z))
| Insert (table : list Z) (reads : list (list Z)) (values : list Row)
| Update (table : list Z) (changes : list (nat * Row))
| Delete (table : list Z) (positions : list nat)
| CreateTable (table : list Z) (columns : TableSchema)
| DropTable (table : list Z).

Inductive TxStmtClass : Type := TxControl | ReadOnly | Dml (tables : list (list Z)) | Other.

Definition set_tx_catalog (cat : Catalog) (st : TxState) : TxState :=
  mk_tx cat (savepoints st) (touched_tables st) (read_tables st) (serializable st) (begin_commit_seq st) (shadow_dirty st) (aborted st)
    (constraints_deferred st) (rebase_poisoned st) (update_pairs st) (rebased_at_epoch st).
Definition set_savepoints (sps : list (list Z * Catalog)) (st : TxState) : TxState :=
  mk_tx (tx_catalog st) sps (touched_tables st) (read_tables st) (serializable st) (begin_commit_seq st) (shadow_dirty st) (aborted st)
    (constraints_deferred st) (rebase_poisoned st) (update_pairs st) (rebased_at_epoch st).
Definition set_touched (ts : bset (list Z)) (st : TxState) : TxState :=
  mk_tx (tx_catalog st) (savepoints st) ts (read_tables st) (serializable st) (begin_commit_seq st) (shadow_dirty st) (aborted st)
    (constraints_deferred st) (rebase_poisoned st) (update_pairs st) (rebased_at_epoch st).
Definition set_reads (ts : bset (list Z)) (st : TxState) : TxState :=
  mk_tx (tx_catalog st) (savepoints st) (touched_tables st) ts (serializable st) (begin_commit_seq st) (shadow_dirty st) (aborted st)
    (constraints_deferred st) (rebase_poisoned st) (update_pairs st) (rebased_at_epoch st).
Definition set_dirty (st : TxState) : TxState :=
  mk_tx (tx_catalog st) (savepoints st) (touched_tables st) (read_tables st) (serializable st) (begin_commit_seq st) true (aborted st)
    (constraints_deferred st) (rebase_poisoned st) (update_pairs st) (rebased_at_epoch st).
Definition set_aborted (on : bool) (st : TxState) : TxState :=
  mk_tx (tx_catalog st) (savepoints st) (touched_tables st) (read_tables st) (serializable st) (begin_commit_seq st) (shadow_dirty st) on
    (constraints_deferred st) (rebase_poisoned st) (update_pairs st) (rebased_at_epoch st).
Definition set_poisoned (st : TxState) : TxState :=
  mk_tx (tx_catalog st) (savepoints st) (touched_tables st) (read_tables st) (serializable st) (begin_commit_seq st) (shadow_dirty st) (aborted st)
    (constraints_deferred st) true (update_pairs st) (rebased_at_epoch st).
Definition set_pairs (ps : gmap (list Z) (list (Z * Z))) (st : TxState) : TxState :=
  mk_tx (tx_catalog st) (savepoints st) (touched_tables st) (read_tables st) (serializable st) (begin_commit_seq st) (shadow_dirty st) (aborted st)
    (constraints_deferred st) (rebase_poisoned st) ps (rebased_at_epoch st).
Definition set_epoch (n : Z) (st : TxState) : TxState :=
  mk_tx (tx_catalog st) (savepoints st) (touched_tables st) (read_tables st) (serializable st) (begin_commit_seq st) (shadow_dirty st) (aborted st)
    (constraints_deferred st) (rebase_poisoned st) (update_pairs st) n.

Definition set_catalog (cat : Catalog) (e : Engine) : Engine :=
  mk_engine cat (counters e) (versions e) (tx_catalogs e) (commit_epoch e) (commit_seq e) (table_last_commit e) (settings e) (stmt_writer_version e).
Definition set_counters (c : Counters) (e : Engine) : Engine :=
  mk_engine (catalog e) c (versions e) (tx_catalogs e) (commit_epoch e) (commit_seq e) (table_last_commit e) (settings e) (stmt_writer_version e).
Definition set_versions (vs : Versions) (e : Engine) : Engine :=
  mk_engine (catalog e) (counters e) vs (tx_catalogs e) (commit_epoch e) (commit_seq e) (table_last_commit e) (settings e) (stmt_writer_version e).
Definition set_txs (txs : gmap Z TxState) (e : Engine) : Engine :=
  mk_engine (catalog e) (counters e) (versions e) txs (commit_epoch e) (commit_seq e) (table_last_commit e) (settings e) (stmt_writer_version e).
Definition set_commit_epoch (n : Z) (e : Engine) : Engine :=
  mk_engine (catalog e) (counters e) (versions e) (tx_catalogs e) n (commit_seq e) (table_last_commit e) (settings e) (stmt_writer_version e).
Definition set_commits (n : Z) (last : gmap (list Z) Z) (e : Engine) : Engine :=
  mk_engine (catalog e) (counters e) (versions e) (tx_catalogs e) (commit_epoch e) n last (settings e) (stmt_writer_version e).

Definition set_settings (s : Settings) (e : Engine) : Engine :=
  mk_engine (catalog e) (counters e) (versions e) (tx_catalogs e) (commit_epoch e) (commit_seq e) (table_last_commit e) s (stmt_writer_version e).
Definition set_stmt_writer (v : option Z) (e : Engine) : Engine :=
  mk_engine (catalog e) (counters e) (versions e) (tx_catalogs e) (commit_epoch e) (commit_seq e) (table_last_commit e) (settings e) v.

Definition mvcc_inplace (e : Engine) : bool := inplace (settings e).

Definition set_autovacuum (on : bool) (e : Engine) : Engine :=
  let s := settings e in set_settings (mk_settings (inplace s) on (autovacuum_inline s) (redo_capture s) (matview_maintainable s)) e.
Definition set_autovacuum_inline (on : bool) (e : Engine) : Engine :=
  let s := settings e in set_settings (mk_settings (inplace s) (autovacuum s) on (redo_capture s) (matview_maintainable s)) e.

(** [if let Some(st) = self.tx_catalogs.get_mut(&tx)] *)
Definition on_tx (tx : Z) (f : TxState -> TxState) (e : Engine) : Engine := set_txs (alter f tx (tx_catalogs e)) e.

(** What a method leaves: its result and the engine; the outer option is a
    panic of the row validator. *)
Definition Outcome (A : Type) : Type := option (result A EngineError * Engine).

Definition ok {A} (x : A) (e : Engine) : Outcome A := Some (Ok x, e).
Definition fails {A} (err : EngineError) (e : Engine) : Outcome A := Some (Err err, e).
Definition andthen {A B} (m : Outcome A) (f : A -> Engine -> Outcome B) : Outcome B :=
  match m with
  | None => None
  | Some (Ok x, e) => f x e
  | Some (Err err, e) => Some (Err err, e)
  end.

(** Whether any connection has a transaction open. *)
Definition in_transaction (e : Engine) : bool := negb (bool_decide (tx_catalogs e = ∅)).
Definition is_tx_open (tx : Z) (e : Engine) : bool := bool_decide (is_Some (tx_catalogs e !! tx)).
Definition cached_snapshot (tx : Z) (e : Engine) : option Snapshot := mjoin (sm_lookup tx (tx_cached (versions e))).
Definition writer_of (tx : Z) (e : Engine) : option Z := sm_lookup tx (tx_writer_versions (versions e)).
Definition frozen_view (tx : Z) (e : Engine) : bool := bool_decide (is_Some (cached_snapshot tx e)).

(** ** Beginning and ending *)

Definition exec_begin (tx : Z) (level : IsolationLevel) (e : Engine) : Outcome unit :=
  if is_tx_open tx e then fails TransactionAlreadyOpen e
  else
    match Mvcc.exec_begin tx (bool_decide (level = RepeatableRead \/ level = Serializable)) (versions e) with
    | None => fails TransactionAlreadyOpen e
    | Some vs =>
      let st := mk_tx (clear_dirty_tables (catalog e)) [] [] [] (bool_decide (level = Serializable)) (commit_seq e) false false None false ∅
                  (commit_epoch e) in
      ok () (set_txs (<[tx := st]> (tx_catalogs e)) (set_versions vs e))
    end.

(** [tx_catalogs.remove], and the writer version aborted. *)
Definition discard (tx : Z) (e : Engine) : Engine :=
  set_versions (discard_tx tx (versions e)) (set_txs (delete tx (tx_catalogs e)) e).

Definition exec_rollback (tx : Z) (e : Engine) : Outcome unit :=
  if is_tx_open tx e then ok () (discard tx e) else fails NoActiveTransaction e.

(** *** The READ COMMITTED rebase *)
Section Commit.
Context `{HC : Constraints}.

Definition maybe_rc_rebase (tx : Z) (e : Engine) : Outcome unit :=
  if negb (mvcc_inplace e) then ok () e
  else
    match tx_catalogs e !! tx with
    | None => ok () e
    | Some st =>
      if frozen_view tx e || rebase_poisoned st then ok () e
      else if rebased_at_epoch st =? commit_epoch e then ok () e
      else
        match writer_of tx e with
        | None => ok () e
        | Some v =>
          let wsets := write_sets v (touched_tables st) (tx_catalog st) in
          let! r := fold_tables (rebase_table v (update_pairs st)) wsets (catalog e) (counters e) in
          let '(r, c) := r in
          let e := set_counters c e in
          match r with
          | Err (Dropped _) => ok () e
          | Err (KeyFailed d) => fails (Eval d) e
          | Err s => fails (SerializationFailure s) e
          | Ok fresh =>
            let cat := with_own_dirty (dirty_tables (tx_catalog st)) fresh in
            ok () (on_tx tx (fun st => set_epoch (commit_epoch e) (set_tx_catalog cat st)) e)
          end
        end
    end.

(** *** The parts of COMMIT, in order *)

(** Each part that fails ends the transaction, but for a key that fails to
    compute. *)
Definition commit_deferred (tx : Z) (e : Engine) : Outcome unit :=
  match tx_catalogs e !! tx with
  | None => ok () e
  | Some st =>
    match deferred_checks (tx_catalog st) (constraints_deferred st) (bs_elems (touched_tables st)) with
    | Ok _ => ok () e
    | Err d => fails (Constraint d) (discard tx e)
    end
  end.

Definition commit_rebase (tx : Z) (e : Engine) : Outcome unit :=
  let! r := maybe_rc_rebase tx e in
  match r with
  | (Ok _, e) => ok () e
  | (Err err, e) => fails err (discard tx e)
  end.

Definition serializable_read_conflict (tx : Z) (e : Engine) : option (list Z) :=
  st ← tx_catalogs e !! tx;
  if negb (serializable st) then None
  else find (fun t => match table_last_commit e !! t with Some s => begin_commit_seq st <? s | None => false end)
         (bs_elems (read_tables st)).

Definition commit_serializable (tx : Z) (e : Engine) : Outcome unit :=
  match serializable_read_conflict tx e with
  | Some t => fails (ReadWriteDependency t) (discard tx e)
  | None => ok () e
  end.

(** Whether the transaction's own rows can be told by its version. *)
Definition versioned (tx : Z) (e : Engine) (st : TxState) : option Z :=
  if mvcc_inplace e && negb (rebase_poisoned st) && negb (bool_decide (bs_elems (touched_tables st) = [])) then writer_of tx e
  else None.

Definition commit_merge (tx : Z) (e : Engine) : Outcome unit :=
  match (st ← tx_catalogs e !! tx; v ← versioned tx e st; if frozen_view tx e then Some (st, v) else None) with
  | None => ok () e
  | Some (st, v) =>
    let wsets := write_sets v (touched_tables st) (tx_catalog st) in
    let! r := fold_tables (merge_table v) wsets (catalog e) (counters e) in
    let '(r, c) := r in
    let e := set_counters c e in
    match r with
    | Err (KeyFailed d) => fails (Eval d) e
    | Err s => fails (SerializationFailure s) (discard tx e)
    | Ok fresh => ok () (on_tx tx (set_tx_catalog (with_own_dirty (dirty_tables (tx_catalog st)) fresh)) e)
    end
  end.

(** The foreign keys not put off to the end of the transaction. *)
Definition immediate (st : TxState) (f : ForeignKey) : bool :=
  negb (deferrable f && default (initially_deferred f) (constraints_deferred st)).

Definition fk_race (v : Z) (st : TxState) (n : list Z) : result unit (list Z) :=
  match get (tx_catalog st) n with
  | None => Ok ()
  | Some t =>
    match filter (fun f => immediate st f = true) (foreign_keys (tx_catalog st) n) with
    | [] => Ok ()
    | fks =>
      match inserted (extract_tx_writeset t v) with
      | [] => Ok ()
      | ins => enforce_fk_inserts (tx_catalog st) n fks (map snd ins)
      end
    end
  end.

Fixpoint each_table (f : list Z -> result unit (list Z)) (ns : list (list Z)) : result unit (list Z) :=
  match ns with
  | [] => Ok ()
  | n :: ns => let? _ := f n in each_table f ns
  end.

Definition commit_foreign_keys (tx : Z) (e : Engine) : Outcome unit :=
  match (st ← tx_catalogs e !! tx; v ← versioned tx e st; Some (st, v)) with
  | None => ok () e
  | Some (st, v) =>
    match each_table (fk_race v st) (bs_elems (touched_tables st)) with
    | Ok _ => ok () e
    | Err d => fails (SerializationFailure (Refused d)) (discard tx e)
    end
  end.

Definition table_names (cat : Catalog) : list (list Z) := (map_to_list (tables cat)).*1.
Definition install_table (n : list Z) (t : Table) (cat : Catalog) : Catalog := put_table n t cat.
Definition drop_table (n : list Z) (cat : Catalog) : Catalog := mk_catalog (delete n (tables cat)) (bs_insert n (dirty_tables cat)) (next_rel_id cat).

(** A poisoned shadow keeps only the tables it changed. *)
Definition merge_dirty (base shadow : Catalog) : Catalog :=
  let dirty := dirty_tables shadow in
  let pull merged n :=
    if bs_mem n dirty then merged else match get base n with Some t => install_table n t merged | None => merged end in
  let merged := fold_left pull (table_names base) shadow in
  let drop merged n :=
    if bs_mem n dirty then merged else match get base n with Some _ => merged | None => drop_table n merged end in
  fold_left drop (table_names merged) merged.

Definition commit_install (tx : Z) (e : Engine) : Outcome unit :=
  match tx_catalogs e !! tx with
  | None => fails NoActiveTransaction e
  | Some st =>
    let e := set_txs (delete tx (tx_catalogs e)) e in
    let e :=
      if shadow_dirty st then
        set_catalog (if mvcc_inplace e && rebase_poisoned st then merge_dirty (catalog e) (tx_catalog st) else tx_catalog st) e
      else e in
    let e := set_versions (commit_tx tx (versions e)) e in
    let seq := commit_seq e + 1 in
    ok () (set_commits seq (fold_left (fun last n => <[n := seq]> last) (bs_elems (touched_tables st)) (table_last_commit e)) e)
  end.

Definition exec_commit (tx : Z) (e : Engine) : Outcome unit :=
  andthen (commit_deferred tx e) (fun _ e =>
  andthen (commit_rebase tx e) (fun _ e =>
  andthen (commit_serializable tx e) (fun _ e =>
  andthen (commit_merge tx e) (fun _ e =>
  andthen (commit_foreign_keys tx e) (fun _ e =>
  commit_install tx e))))).

(** ** Savepoints *)

Definition rposition (n : list Z) (sps : list (list Z * Catalog)) : option nat :=
  last (filter (fun i => fst <$> sps !! i = Some n) (seq 0 (length sps))).

Definition exec_savepoint (tx : Z) (n : list Z) (e : Engine) : Outcome unit :=
  match tx_catalogs e !! tx with
  | None => fails NoActiveTransaction e
  | Some st =>
    ok () (on_tx tx (set_savepoints (filter (fun sp => sp.1 <> n) (savepoints st) ++ [(n, tx_catalog st)])) e)
  end.

(** The epoch one less than now: the next statement folds again. *)
Definition exec_rollback_to_savepoint (tx : Z) (n : list Z) (e : Engine) : Outcome unit :=
  match tx_catalogs e !! tx with
  | None => fails NoActiveTransaction e
  | Some st =>
    match (pos ← rposition n (savepoints st); sp ← savepoints st !! pos; Some (pos, sp.2)) with
    | None => fails (SavepointNotFound n) e
    | Some (pos, snapshot) =>
      ok () (on_tx tx (fun st => set_epoch (commit_epoch e - 1)
                                   (set_tx_catalog snapshot (set_savepoints (take (S pos) (savepoints st)) st))) e)
    end
  end.

Definition exec_release_savepoint (tx : Z) (n : list Z) (e : Engine) : Outcome unit :=
  match tx_catalogs e !! tx with
  | None => fails NoActiveTransaction e
  | Some st =>
    match rposition n (savepoints st) with
    | None => fails (SavepointNotFound n) e
    | Some pos => ok () (on_tx tx (fun st => set_savepoints (take pos (savepoints st)) st) e)
    end
  end.

(** ** Row statements *)

Definition active_catalog (tx : Z) (e : Engine) : Catalog :=
  match tx_catalogs e !! tx with Some st => tx_catalog st | None => catalog e end.

(** A write through [active_catalog_mut]. *)
Definition put_active (tx : Z) (cat : Catalog) (e : Engine) : Engine :=
  if is_tx_open tx e then on_tx tx (fun st => set_dirty (set_tx_catalog cat st)) e else set_catalog cat e.

Definition writer_version_for_current_stmt (tx : Z) (e : Engine) : Z * Engine :=
  match writer_of tx e with
  | Some v => (v, e)
  | None =>
    match stmt_writer_version e with
    | Some v => (v, e)
    | None => let '(v, vs) := next_version (versions e) in (v, set_stmt_writer (Some v) (set_versions vs e))
    end
  end.

(** What the row loops leave: the rows before a failing one stay written. *)
Definition Written (A : Type) : Type := option (result A TableError * Table * Counters).

Fixpoint insert_rows (rs : list Row) (v : Z) (t : Table) (c : Counters) : Written unit :=
  match rs with
  | [] => Some (Ok (), t, c)
  | r :: rs =>
    let! res := insert_with_xmin_keyed r v t c in
    match res with
    | Ok (t, c) => insert_rows rs v t c
    | Err err => Some (Err err, t, c)
    end
  end.

(** An update marks the old version deleted and appends the new one; with the
    gate off it replaces the row. *)
Fixpoint update_rows (inplace : bool) (changes : list (nat * Row)) (v : Z) (t : Table) (c : Counters) (pairs : list (Z * Z))
  : Written (list (Z * Z)) :=
  match changes with
  | [] => Some (Ok pairs, t, c)
  | (pos, new_row) :: changes =>
    if inplace then
      let old_rid := rowids t !! pos in
      let t := match mark_row_deleted pos v t with Ok t => t | Err _ => t end in
      let! res := insert_with_xmin_keyed new_row v t c in
      match res with
      | Ok (t, c) =>
        let pairs := match old_rid, last (rowids t) with Some o, Some n => pairs ++ [(o, n)] | _, _ => pairs end in
        update_rows inplace changes v t c pairs
      | Err err => Some (Err err, t, c)
      end
    else
      let! res := update_row pos new_row t in
      match res with
      | Ok t => update_rows inplace changes v t c pairs
      | Err err => Some (Err err, t, c)
      end
  end.

(** How many rows were newly marked, or removed. *)
Definition delete_positions (inplace : bool) (positions : list nat) (v : Z) (t : Table) (c : Counters) : Written nat :=
  if inplace then let '(n, t) := mark_rows_deleted positions v t in Some (Ok n, t, c)
  else let '(n, t, c) := delete_rows positions t c in Some (Ok n, t, c).

(** The part the three statements share: the table, taken for writing. *)
Definition write_table {A} (tx : Z) (n : list Z) (loop : Z -> Table -> Counters -> Written A) (e : Engine) : Outcome A :=
  let '(v, e) := writer_version_for_current_stmt tx e in
  let cat := active_catalog tx e in
  match get cat n with
  | None => fails (TableNotFound n) (put_active tx cat e)
  | Some t =>
    let! w := loop v t (counters e) in
    let '(r, t, c) := w in
    let e := set_counters c (put_active tx (put_table n t cat) e) in
    match r with
    | Ok x => ok x e
    | Err err => fails (Storage err) e
    end
  end.

Definition exec_insert (tx : Z) (n : list Z) (rs : list Row) (e : Engine) : Outcome unit := write_table tx n (insert_rows rs) e.

Definition record_update_pairs (tx : Z) (n : list Z) (new_pairs : list (Z * Z)) (e : Engine) : Engine :=
  match new_pairs with
  | [] => e
  | _ => on_tx tx (fun st => set_pairs (<[n := default [] (update_pairs st !! n) ++ new_pairs]> (update_pairs st)) st) e
  end.

(** *** Autovacuum *)

(** [dead >= 1000 && dead * 4 >= live] *)
Definition vacuum_due (t : Table) : bool :=
  let dead := dead_rows t in
  let live := saturating_sub (Z.of_nat (length (rows t))) dead in
  (1000 <=? dead) && (live <=? dead * 4).

(** The table vacuumed, through the active catalog. *)
Definition vacuum_table (tx oldest_active : Z) (n : list Z) (e : Engine) : Engine :=
  let cat := active_catalog tx e in
  match get cat n with
  | None => put_active tx cat e
  | Some t => let '(_, t, c) := vacuum oldest_active false t (counters e) in set_counters c (put_active tx (put_table n t cat) e)
  end.

(** At the end of an UPDATE or DELETE. *)
Definition maybe_autovacuum (tx : Z) (n : list Z) (e : Engine) : Engine :=
  if negb (autovacuum (settings e)) || negb (autovacuum_inline (settings e)) || negb (mvcc_inplace e) || in_transaction e then e
  else
    match get (active_catalog tx e) n with
    | None => e
    | Some t => if vacuum_due t then vacuum_table tx (vacuum_oldest_active (versions e)) n e else e
    end.

(** One pass of the background worker, which runs outside every statement. *)
Definition autovacuum_tick (e : Engine) : Engine :=
  if negb (autovacuum (settings e)) || negb (mvcc_inplace e) || in_transaction e then e
  else
    let due n := match get (catalog e) n with Some t => vacuum_due t | None => false end in
    let candidates := filter (fun n => due n = true) (map_to_list (tables (catalog e))).*1 in
    let oldest_active := vacuum_oldest_active (versions e) in
    fold_left (fun e n => vacuum_table (-1) oldest_active n e) candidates e.

(** UPDATE and DELETE; the rows [affected] are those planned and those newly
    marked. *)
Definition exec_update (tx : Z) (n : list Z) (changes : list (nat * Row)) (e : Engine) : Outcome unit :=
  andthen (write_table tx n (fun v t c => update_rows (mvcc_inplace e) changes v t c []) e) (fun pairs e =>
  let e := record_update_pairs tx n pairs e in
  let affected := length changes in
  ok () (if (0 <? affected)%nat then maybe_autovacuum tx n e else e)).

Definition exec_delete (tx : Z) (n : list Z) (positions : list nat) (e : Engine) : Outcome unit :=
  andthen (write_table tx n (delete_positions (mvcc_inplace e) positions) e) (fun affected e =>
  ok () (if (0 <? affected)%nat then maybe_autovacuum tx n e else e)).

(** The place of the new allocator is one no table has. *)
Definition create_table (n : list Z) (columns : TableSchema) (cat : Catalog) (c : Counters) : result (Catalog * Counters) EngineError :=
  match get cat n with
  | Some _ => Err (DuplicateTable n)
  | None =>
    let p := fresh (dom c) in
    let rel := next_rel_id cat + 1 in
    let t := mk_table n rel columns [] [] [] p 0 0 None None in
    Ok (mk_catalog (<[n := t]> (tables cat)) (bs_insert n (dirty_tables cat)) rel, <[p := 1]> c)
  end.

Definition exec_create_table (tx : Z) (n : list Z) (columns : TableSchema) (e : Engine) : Outcome unit :=
  let cat := active_catalog tx e in
  match create_table n columns cat (counters e) with
  | Ok (cat, c) => ok () (set_counters c (put_active tx cat e))
  | Err err => fails err (put_active tx cat e)
  end.

Definition exec_drop_table (tx : Z) (n : list Z) (e : Engine) : Outcome unit :=
  let cat := active_catalog tx e in
  match get cat n with
  | Some _ => ok () (put_active tx (drop_table n cat) e)
  | None => fails (TableNotFound n) (put_active tx cat e)
  end.

(** ** Dispatch *)

Definition classify_stmt_for_tx (stmt : Statement) : TxStmtClass :=
  match stmt with
  | Begin _ | Commit | Rollback | Savepoint _ | RollbackToSavepoint _ | ReleaseSavepoint _ => TxControl
  | Select _ => ReadOnly
  | Insert n _ _ | Update n _ | Delete n _ => Dml [n]
  | CreateTable _ _ | DropTable _ => Other
  end.

Definition read_tables_of (stmt : Statement) : list (list Z) :=
  let out := match stmt with
             | Select ts => ts
             | Update n _ | Delete n _ => [n]
             | Insert _ ts _ => ts
             | _ => []
             end in
  filter (fun t => negb (bool_decide (lit "__spg_" `prefix_of` t)) = true) out.

Definition is_readonly (stmt : Statement) : bool := match stmt with Select _ => true | _ => false end.

Definition dispatch_stmt_inner (tx : Z) (stmt : Statement) (e : Engine) : Outcome unit :=
  match stmt with
  | Begin level => exec_begin tx level e
  | Commit => exec_commit tx e
  | Rollback => exec_rollback tx e
  | Savepoint n => exec_savepoint tx n e
  | RollbackToSavepoint n => exec_rollback_to_savepoint tx n e
  | ReleaseSavepoint n => exec_release_savepoint tx n e
  | Select _ => ok () e
  | Insert n _ rs => exec_insert tx n rs e
  | Update n changes => exec_update tx n changes e
  | Delete n positions => exec_delete tx n positions e
  | CreateTable n columns => exec_create_table tx n columns e
  | DropTable n => exec_drop_table tx n e
  end.

Definition record_tx_stmt (class : TxStmtClass) (st : TxState) : TxState :=
  match class with
  | TxControl | ReadOnly => st
  | Dml ts => set_touched (fold_left (fun s t => bs_insert t s) ts (touched_tables st)) st
  | Other => set_poisoned st
  end.

Definition record_tx_reads (ts : list (list Z)) (st : TxState) : TxState :=
  if serializable st then set_reads (fold_left (fun s t => bs_insert t s) ts (read_tables st)) st else st.

Definition current_tx_aborted (tx : Z) (e : Engine) : bool :=
  match tx_catalogs e !! tx with Some st => aborted st | None => false end.
Definition set_current_tx_aborted (tx : Z) (on : bool) (e : Engine) : Engine := on_tx tx (set_aborted on) e.

Definition is_control (class : TxStmtClass) : bool := match class with TxControl => true | _ => false end.

(** What a statement that failed outside a transaction wrote is undone. *)
Definition undo_statement (before : Catalog) (e : Engine) : Engine :=
  let e := set_catalog before e in
  match stmt_writer_version e with
  | Some v => set_versions (abort_writer_version v (versions e)) e
  | None => e
  end.

(** The bookkeeping after a statement. *)
Definition finish_statement (tx : Z) (stmt : Statement) (undo : option Catalog) (r : result unit EngineError) (e : Engine) : Engine :=
  let is_ok := match r with Ok _ => true | Err _ => false end in
  let e := match undo with Some before => if is_ok then e else undo_statement before e | None => e end in
  let e :=
    if is_ok then on_tx tx (fun st => record_tx_reads (read_tables_of stmt) (record_tx_stmt (classify_stmt_for_tx stmt) st)) e else e in
  if negb (is_tx_open tx e) then e
  else if is_ok then match stmt with RollbackToSavepoint _ => set_current_tx_aborted tx false e | _ => e end
  else set_current_tx_aborted tx true e.

Definition run_statement (tx : Z) (stmt : Statement) (e : Engine) : Outcome unit :=
  let control := is_control (classify_stmt_for_tx stmt) in
  andthen (if control then ok () e else maybe_rc_rebase tx e) (fun _ e =>
  let undo := if negb (is_tx_open tx e) && negb (is_readonly stmt) && negb control then Some (catalog e) else None in
  let! r := dispatch_stmt_inner tx stmt e in
  Some (r.1, finish_statement tx stmt undo r.1 r.2)).

Definition execute_stmt (tx : Z) (stmt : Statement) (e : Engine) : Outcome unit :=
  if current_tx_aborted tx e then
    match stmt with
    | Rollback | RollbackToSavepoint _ => run_statement tx stmt e
    | Commit => let! r := dispatch_stmt_inner tx Rollback e in Some (r.1, set_current_tx_aborted tx false r.2)
    | _ => fails InFailedTransaction e
    end
  else run_statement tx stmt e.

(** *** Capture of physical changes *)

Definition map_tables (f : Table -> Table) (cat : Catalog) : Catalog := mk_catalog (f <$> tables cat) (dirty_tables cat) (next_rel_id cat).
Definition exists_table (f : Table -> bool) (cat : Catalog) : bool := existsb (fun e => f e.2) (map_to_list (tables cat)).

Definition enable_redo_all (cat : Catalog) : Catalog := map_tables enable_redo cat.
Definition any_redo_capturing (cat : Catalog) : bool := exists_table redo_capturing cat.
Definition disable_redo_all (cat : Catalog) : Catalog := map_tables disable_redo cat.

(** Whether anything was drained, and the catalog afterwards. *)
Definition drain_redo (cat : Catalog) : bool * Catalog :=
  (exists_table has_pending_redo cat, map_tables (fun t => if has_pending_redo t then (drain_pending_redo t).2 else t) cat).

Definition capturing (s : Settings) : bool := redo_capture s || matview_maintainable s.

(** Before a statement: capture is on for every table, or off. *)
Definition arm_redo (tx : Z) (e : Engine) : Engine :=
  if capturing (settings e) then put_active tx (enable_redo_all (active_catalog tx e)) e
  else if any_redo_capturing (active_catalog tx e) then put_active tx (disable_redo_all (active_catalog tx e)) e
  else e.

(** After it: the changes go to the log and the views, stamped with the version
    of the statement, which takes one if it has none. *)
Definition collect_redo (capture : bool) (tx : Z) (r : result unit EngineError) (e : Engine) : Engine :=
  if capture then
    let '(drained, cat) := drain_redo (active_catalog tx e) in
    let e := put_active tx cat e in
    match r with Ok _ => if drained : bool then (writer_version_for_current_stmt tx e).2 else e | Err _ => e end
  else e.

(** One statement of connection [tx]: a statement that leaves no open
    transaction of its own may have moved the base. *)
Definition execute_in (tx : Z) (stmt : Statement) (e : Engine) : Outcome unit :=
  let e := set_stmt_writer None e in
  let capture := capturing (settings e) in
  let! r := execute_stmt tx stmt (arm_redo tx e) in
  let '(r, e) := r in
  let e := if is_tx_open tx e then e else set_commit_epoch (commit_epoch e + 1) e in
  Some (r, collect_redo capture tx r e).

End Commit.

Definition new_engine : Engine := mk_engine (mk_catalog ∅ [] 0) ∅ initial ∅ 0 0 ∅ (mk_settings true true true false false) None.
