(* ===== verification/TxOk.v ===== *)
(** The row loops of INSERT, UPDATE and DELETE, and the folds of a rebase and a
    merge, on one table: what each adds to the rows a table holds.

    The invariant of an engine with open transactions: every catalog in it,
    the base, the shadows and the savepoints, agrees on what a row id means,
    and the rows a transaction wrote are in its own catalogs only. *)
From stdpp Require Import gmap.
From S2P Require Import Prelude SortedMap BigNum Values RowCodec RowAccept RowLen Mvcc Heap HeapOps WriteSet Merge MergeOk Tx.
Open Scope Z_scope.

(** ** The row loops *)

(** [v] wrote into [t]; the new rows have row ids never given out before. *)
Record row_write (v : Z) (c : Counters) (t : Table) (c' : Counters) (t' : Table) : Prop := {
  rw_by : written_by v c t c' t';
  rw_extends : extends v (heap t) (heap t');
  rw_new rid r h : heap t' !! rid = Some (r, h) -> heap t !! rid = None -> accepts t r /\ counter c (next_rowid t) <= rid
}.

Lemma row_write_refl v c t : table_ok c t -> row_write v c t c t.
Proof. intros Hok. split; [by apply written_by_refl|apply extends_refl|]. congruence. Qed.

Lemma row_write_trans v c1 t1 c2 t2 c3 t3 :
  v <> XMAX_ALIVE -> row_write v c1 t1 c2 t2 -> row_write v c2 t2 c3 t3 -> row_write v c1 t1 c3 t3.
Proof.
  intros Hv [B1 E1 N1] [B2 E2 N2]. split; [by eapply written_by_trans|by eapply extends_trans|].
  intros rid r h E Hn. destruct (wb_same _ _ _ _ _ B1) as (_ & _ & Es & Ep). destruct (heap t2 !! rid) as [[r2 h2]|] eqn:H2.
  - destruct (ext_kept _ _ _ E2 _ _ _ H2) as (h' & E' & _). simplify_eq. by apply (N1 _ _ _ H2).
  - destruct (N2 _ _ _ E H2) as [Ha Hc]. pose proof (wb_counters _ _ _ _ _ B1 (next_rowid t1)) as Hm. rewrite Ep in Hc.
    split; [|lia]. unfold accepts in *. by rewrite <- Es.
Qed.

Lemma insert_row_write r v t c t' c' :
  insert_with_xmin_keyed r v t c = Some (Ok (t', c')) -> 2 <= v -> 1 <= counter c (next_rowid t) -> table_ok c t ->
  row_write v c t c' t'.
Proof.
  intros H Hv Hc Hok. destruct (insert_with_xmin_ok r v t c t' c' H Hv Hc Hok) as (Hw & Ha & Hf & Hh & _).
  split; [done|rewrite Hh; by apply extends_new|]. intros rid r' h. rewrite Hh.
  intros [[<- [= <- _]]|[_ E]]%lookup_insert_Some Hn; [split; [done|lia]|congruence].
Qed.

Lemma tomb_row_write v c t t' ids :
  v <> XMAX_ALIVE -> written_by v c t c t' -> heap t' = fold_left (tomb v) ids (heap t) -> row_write v c t c t'.
Proof.
  intros Hv Hw Hh. split; [done|rewrite Hh; by apply extends_tombs|]. intros rid r h. rewrite Hh, tombs_lookup by done.
  intros E Hn. by rewrite Hn in E.
Qed.

Section Loops.
Context (v : Z) (Hv : 2 <= v).

Lemma version_alive : v <> XMAX_ALIVE.
Proof. unfold XMAX_ALIVE. lia. Qed.

Lemma place_counter c t c' t' : row_write v c t c' t' -> 1 <= counter c (next_rowid t) -> 1 <= counter c' (next_rowid t').
Proof. intros [B _ _] Hc. destruct (wb_same _ _ _ _ _ B) as (_ & _ & _ & ->). pose proof (wb_counters _ _ _ _ _ B (next_rowid t)). lia. Qed.

Lemma insert_rows_ok rs : forall t c r t' c',
  insert_rows rs v t c = Some (r, t', c') -> 1 <= counter c (next_rowid t) -> table_ok c t -> row_write v c t c' t'.
Proof.
  induction rs as [|row rs IH]; intros t c r t' c' H Hc Hok; cbn [insert_rows] in H.
  { injection H as <- <- <-. by apply row_write_refl. }
  destruct (insert_with_xmin_keyed row v t c) as [[[t1 c1]|err]|] eqn:E; cbn [mbind option_bind] in H; [| |done].
  - pose proof (insert_row_write row v t c t1 c1 E Hv Hc Hok) as H1. eapply row_write_trans; [apply version_alive|done|].
    eapply IH; [done|by eapply place_counter|apply H1].
  - injection H as <- <- <-. by apply row_write_refl.
Qed.

Lemma mark_row_write pos t c t' : mark_row_deleted pos v t = Ok t' -> table_ok c t -> row_write v c t c t'.
Proof.
  intros H Hok. destruct (mark_row_deleted_ok v c t pos t' H Hok Hv) as (Hw & rid & _ & Hh).
  by apply (tomb_row_write v c t t' [rid] version_alive).
Qed.

Lemma update_rows_ok changes : forall t c pairs r t' c',
  update_rows true changes v t c pairs = Some (r, t', c') -> 1 <= counter c (next_rowid t) -> table_ok c t -> row_write v c t c' t'.
Proof.
  induction changes as [|[pos row] changes IH]; intros t c pairs r t' c' H Hc Hok; cbn [update_rows] in H.
  { injection H as <- <- <-. by apply row_write_refl. }
  set (t0 := match mark_row_deleted pos v t with Ok t => t | Err _ => t end) in *.
  assert (row_write v c t c t0) as H0.
  { unfold t0. destruct (mark_row_deleted pos v t) as [t0'|] eqn:E; [by eapply mark_row_write|by apply row_write_refl]. }
  pose proof (place_counter _ _ _ _ H0 Hc) as Hc0. pose proof (wb_ok _ _ _ _ _ (rw_by _ _ _ _ _ H0)) as Hok0.
  destruct (insert_with_xmin_keyed row v t0 c) as [[[t1 c1]|err]|] eqn:E; cbn [mbind option_bind] in H; [| |done].
  - pose proof (insert_row_write row v t0 c t1 c1 E Hv Hc0 Hok0) as H1.
    eapply row_write_trans; [apply version_alive|exact H0|]. eapply row_write_trans; [apply version_alive|exact H1|].
    eapply IH; [done|by eapply place_counter|apply H1].
  - injection H as <- <- <-. done.
Qed.

Lemma delete_positions_ok positions t c r t' c' :
  delete_positions true positions v t c = Some (r, t', c') -> table_ok c t -> row_write v c t c' t'.
Proof.
  unfold delete_positions. destruct (mark_rows_deleted positions v t) as [k t1] eqn:E. intros [= <- <- <-] Hok.
  destruct (mark_rows_deleted_ok v c t positions k t1 E Hok Hv) as [Hw Hh]. by eapply tomb_row_write; [apply version_alive| |].
Qed.

End Loops.

(** ** What is known of every row ever given out *)

(** The row and the writer of each row id, by the place of its allocator. *)
Definition Ghost : Type := nat -> Z -> option (Row * Z).

Definition known (G : Ghost) (t : Table) : Prop :=
  forall rid r h, heap t !! rid = Some (r, h) -> accepts t r /\ G (next_rowid t) rid = Some (r, xmin h).

Definition ghost_ok (c : Counters) (G : Ghost) : Prop := forall p rid x, G p rid = Some x -> rid < counter c p.

Definition ghost_le (G G' : Ghost) : Prop := forall p rid x, G p rid = Some x -> G' p rid = Some x.

#[export] Instance ghost_le_preorder : PreOrder ghost_le.
Proof. split; [by intros G p rid|]. intros G1 G2 G3 H1 H2 p rid x H. by apply H2, H1. Qed.

Lemma known_mono G G' t : ghost_le G G' -> known G t -> known G' t.
Proof. intros HG Hk rid r h E. destruct (Hk rid r h E) as [? ?]. split; [done|by apply HG]. Qed.

Lemma accepts_back t t' r : same_table t t' -> accepts t' r -> accepts t r.
Proof. intros (_ & _ & E & _). unfold accepts. by rewrite E. Qed.

(** A row write makes its new rows known. *)
Lemma row_write_known v c t c' t' G :
  row_write v c t c' t' -> ghost_ok c G -> known G t ->
  exists G', ghost_le G G' /\ ghost_ok c' G' /\ known G' t'.
Proof.
  intros [Hw He Hn] HG Hk. destruct (wb_same _ _ _ _ _ Hw) as (_ & _ & Es & Ep).
  exists (fun p rid => match G p rid with
                       | Some x => Some x
                       | None => if decide (p = next_rowid t') then (fun '(r, h) => (r, xmin h)) <$> heap t' !! rid else None
                       end).
  split_and!.
  - by intros p rid x ->.
  - intros p rid x H. destruct (G p rid) eqn:E.
    + pose proof (HG _ _ _ E). pose proof (wb_counters _ _ _ _ _ Hw p). lia.
    + case_decide as Hd; [|done]. subst p. destruct (heap t' !! rid) as [[r h]|] eqn:E'; [|done].
      by apply (heap_bound c' t' (wb_ok _ _ _ _ _ Hw)) in E' as [_ ?].
  - intros rid r h E. rewrite decide_True, E by done. cbn. destruct (heap t !! rid) as [[r0 h0]|] eqn:E0.
    + destruct (ext_kept _ _ _ He _ _ _ E0) as (h' & E' & C). simplify_eq. destruct (Hk _ _ _ E0) as [Ha Hg].
      rewrite Ep, Hg. split; [by eapply accepts_same; [apply Hw|]|]. by destruct C as [->|[_ ->]].
    + destruct (Hn _ _ _ E E0) as [Ha Hb]. split; [by eapply accepts_same; [apply Hw|]|]. rewrite Ep.
      destruct (G (next_rowid t) rid) as [x|] eqn:Eg; [|done]. apply HG in Eg. lia.
Qed.

(** ** A write-set landing on another copy of its table *)

Lemma landed_new v own ws H rid r h :
  v <> XMAX_ALIVE -> NoDup (map fst (inserted ws)) ->
  landed_heap v own ws H !! rid = Some (r, h) -> H !! rid = None -> (rid, r) ∈ inserted ws.
Proof.
  intros Hv Hnd E Hn. unfold landed_heap in E. rewrite tombs_lookup in E by done.
  destruct (decide (rid ∈ map fst (inserted ws))) as [Hin|Hout].
  - apply list_elem_of_fmap in Hin as ([x row] & -> & Hin). cbn [fst] in *. rewrite (puts_lookup_in v _ _ x row Hnd Hin) in E.
    cbn in E. by injection E as <- _.
  - rewrite puts_lookup_out, tombs_lookup, Hn in E by done. done.
Qed.

(** What the write-set of one copy [s] needs to land on another copy [b]. *)
Lemma writeset_replayable v c G s b :
  table_ok c s -> track_ok v s -> known G s -> known G b -> clean v b -> same_table s b ->
  replayable c b (extract_tx_writeset s v).
Proof.
  intros Hs Htr Ks Kb Hcl Hsame. pose proof (extract_writeset_of c v s Hs Htr) as Hws. pose proof Hsame as (_ & _ & _ & Ep).
  split; [|apply Hws|].
  - apply Forall_forall. intros [rid row] (h & E & _)%(ws_inserted _ _ _ Hws). cbn. destruct (Ks _ _ _ E) as [? _].
    by eapply accepts_same.
  - apply Forall_forall. intros [rid row] (h & E & Hx)%(ws_inserted _ _ _ Hws). cbn. split.
    + destruct (heap b !! rid) as [[r' h']|] eqn:Eb; [|done]. exfalso. destruct (Kb _ _ _ Eb) as [_ Gb]. destruct (Ks _ _ _ E) as [_ Gs].
      rewrite Ep, Gs in Gb. injection Gb as _ Hx'. destruct (clean_xmax v b rid r' h' Hcl Eb) as [? _]. congruence.
    + rewrite Ep. by eapply heap_bound.
Qed.

Lemma landed_known v c own s b c' b' ws G :
  2 <= v -> same_table s b -> written_by v c b c' b' -> replayable c b ws -> heap b' = landed_heap v own ws (heap b) ->
  (forall rid r, (rid, r) ∈ inserted ws -> exists h, heap s !! rid = Some (r, h) /\ xmin h = v) ->
  known G s -> known G b -> known G b'.
Proof.
  intros Hv Hsame Hw [Ha Ho Hf] Hh Hin Ks Kb rid r h E. pose proof (wb_same _ _ _ _ _ Hw) as Hsb. destruct Hsb as (_ & _ & _ & Epb).
  destruct Hsame as (_ & _ & _ & Ep). assert (Hv0 : v <> XMAX_ALIVE) by (unfold XMAX_ALIVE; lia).
  assert (extends v (heap b) (heap b')) as He.
  { rewrite Hh. apply landed_extends; [done|done|]. eapply Forall_impl; [exact Hf|]. by intros e [? _]. }
  destruct (heap b !! rid) as [[r0 h0]|] eqn:E0.
  - destruct (ext_kept _ _ _ He _ _ _ E0) as (h' & E' & C). simplify_eq. destruct (Kb _ _ _ E0) as [Ha' Hg].
    rewrite Epb, Hg. split; [by eapply accepts_same; [apply Hw|]|]. by destruct C as [->|[_ ->]].
  - destruct (ext_new _ _ _ He _ _ _ E E0) as [Hx _]. rewrite Hh in E. pose proof (landed_new v own ws _ rid r h Hv0 Ho E E0) as Hi.
    rewrite Forall_forall in Ha. destruct (Hin _ _ Hi) as (hs & Es & Hxs). destruct (Ks _ _ _ Es) as [_ Hg].
    split; [eapply accepts_same; [apply Hw|exact (Ha _ Hi)]|]. rewrite Epb, Ep, Hg. by rewrite Hx, Hxs.
Qed.

(** ** The invariant *)

Record cat_ok (g : Z) (c : Counters) (G : Ghost) (base cat : Catalog) : Prop := {
  co_redo n t : get cat n = Some t -> redo_capturing t = false;
  co_table n t : get cat n = Some t -> table_ok c t;
  co_known n t : get cat n = Some t -> known G t;
  co_future n t w : get cat n = Some t -> g <= w -> clean w t;
  co_base n t : get cat n = Some t -> exists b, get base n = Some b /\ same_table t b
}.

Definition cat_clean (v : Z) (cat : Catalog) : Prop := forall n t, get cat n = Some t -> clean v t.

Definition own_cat (st : TxState) (cat : Catalog) : Prop := cat = tx_catalog st \/ cat ∈ map snd (savepoints st).

(** The shadow is the base with writes of [v]. *)
Definition aligned (v : Z) (base shadow : Catalog) : Prop :=
  forall n b, get base n = Some b -> exists t, get shadow n = Some t /\ same_table b t /\ extends v (heap b) (heap t).

Record tx_good (base : Catalog) (frozen : bool) (epoch v : Z) (st : TxState) : Prop := {
  tg_track cat n t : own_cat st cat -> get cat n = Some t -> track_ok v t;
  tg_saved cat n t : cat ∈ map snd (savepoints st) -> get cat n = Some t -> bs_mem n (touched_tables st) = false -> clean v t;
  tg_shadow n t : aborted st = false -> get (tx_catalog st) n = Some t -> bs_mem n (touched_tables st) = false -> clean v t;
  tg_sorted : sorted (touched_tables st);
  tg_poisoned : rebase_poisoned st = false;
  tg_epoch : rebased_at_epoch st <= epoch;
  tg_aligned : frozen = false -> rebased_at_epoch st = epoch -> aligned v base (tx_catalog st);
  tg_dirty : shadow_dirty st = false -> touched_tables st = []
}.

Record engine_ok (G : Ghost) (epoch : Z) (e : Engine) : Prop := {
  eo_versions : versions_ok (versions e);
  eo_gate : mvcc_inplace e = true /\ capturing (settings e) = false;
  eo_dom tx : is_Some (tx_catalogs e !! tx) <-> is_Some (sm_lookup tx (tx_cached (versions e)));
  eo_counters p : 1 <= counter (counters e) p;
  eo_ghost : ghost_ok (counters e) G;
  eo_base : cat_ok (GLOBAL_VERSION (versions e)) (counters e) G (catalog e) (catalog e);
  eo_base_clean tx v : writer_of tx e = Some v -> cat_clean v (catalog e);
  eo_cats tx st cat : tx_catalogs e !! tx = Some st -> own_cat st cat ->
    cat_ok (GLOBAL_VERSION (versions e)) (counters e) G (catalog e) cat;
  eo_foreign tx st cat tx' v : tx_catalogs e !! tx = Some st -> own_cat st cat -> tx' <> tx -> writer_of tx' e = Some v -> cat_clean v cat;
  eo_good tx st v : tx_catalogs e !! tx = Some st -> writer_of tx e = Some v -> tx_good (catalog e) (frozen_view tx e) epoch v st
}.

(** ** Moving it along *)

#[export] Instance same_table_symmetric : Symmetric same_table.
Proof. intros t t' ((? & ?) & ? & ? & ?). by split_and!. Qed.

Definition shape_kept (base base' : Catalog) : Prop :=
  forall n b, get base n = Some b -> exists b', get base' n = Some b' /\ same_table b b'.

#[export] Instance shape_kept_preorder : PreOrder shape_kept.
Proof.
  split; [intros base n b E; exists b; split; [done|reflexivity]|].
  intros b1 b2 b3 H1 H2 n b E. destruct (H1 n b E) as (b' & E' & ?). destruct (H2 n b' E') as (b'' & E'' & ?).
  exists b''. split; [done|by etrans].
Qed.

Lemma cat_ok_mono g g' c c' G G' base base' cat :
  g <= g' -> counters_le c c' -> ghost_le G G' -> shape_kept base base' -> cat_ok g c G base cat -> cat_ok g' c' G' base' cat.
Proof.
  intros Hg Hc HG Hb [Hr Ht Hk Hf Hs]. split; [done|..].
  - intros n t E. eapply table_ok_mono; [done|by eapply Ht].
  - intros n t E. eapply known_mono; [done|by eapply Hk].
  - intros n t w E Hw. eapply Hf; [done|lia].
  - intros n t E. destruct (Hs n t E) as (b & Eb & ?). destruct (Hb n b Eb) as (b' & Eb' & ?). exists b'. split; [done|by etrans].
Qed.

Lemma tx_good_epoch base base' frozen ep ep' v st :
  ep <= ep' -> (base' = base /\ ep' = ep) \/ ep < ep' -> tx_good base frozen ep v st -> tx_good base' frozen ep' v st.
Proof.
  intros Hle Hor [? ? ? ? ? He Ha ?]. destruct Hor as [[-> ->]|Hlt]; split; try done; lia.
Qed.

Lemma counters_pos c c' : counters_le c c' -> (forall p, 1 <= counter c p) -> forall p, 1 <= counter c' p.
Proof. intros Hc H p. specialize (Hc p). specialize (H p). lia. Qed.

Section Move.
Context (G G' : Ghost) (ep ep' : Z) (e e' : Engine) (tx : Z).
Context (Hok : engine_ok G ep e).
Context (Hvs : versions_ok (versions e')) (Hg : GLOBAL_VERSION (versions e) <= GLOBAL_VERSION (versions e')).
Context (Hgate : mvcc_inplace e' = true /\ capturing (settings e') = false).
Context (Hc : counters_le (counters e) (counters e')) (HG : ghost_le G G') (HG' : ghost_ok (counters e') G').
(** Everyone else is as before. *)
Context (Hothers : forall t, t <> tx -> tx_catalogs e' !! t = tx_catalogs e !! t /\
  sm_lookup t (tx_cached (versions e')) = sm_lookup t (tx_cached (versions e)) /\ writer_of t e' = writer_of t e).
Context (Hbase : cat_ok (GLOBAL_VERSION (versions e')) (counters e') G' (catalog e') (catalog e')).
Context (Hshape : shape_kept (catalog e) (catalog e')).
Context (Hclean : forall t v, writer_of t e' = Some v -> cat_clean v (catalog e')).
Context (Hep : ep <= ep') (Hmoved : (catalog e' = catalog e /\ ep' = ep) \/ ep < ep').
Context (Hdom : is_Some (tx_catalogs e' !! tx) <-> is_Some (sm_lookup tx (tx_cached (versions e')))).
Context (Hwriter : forall v, writer_of tx e' = Some v -> writer_of tx e = Some v \/ GLOBAL_VERSION (versions e) <= v).
Context (Hcats : forall st cat, tx_catalogs e' !! tx = Some st -> own_cat st cat ->
  cat_ok (GLOBAL_VERSION (versions e')) (counters e') G' (catalog e') cat /\
  forall t v, t <> tx -> writer_of t e = Some v -> cat_clean v cat).
Context (Hgood : forall st v, tx_catalogs e' !! tx = Some st -> writer_of tx e' = Some v -> tx_good (catalog e') (frozen_view tx e') ep' v st).

(** A step that changes at most the base and what belongs to [tx]. *)
Lemma engine_move : engine_ok G' ep' e'.
Proof.
  split; try done.
  - intros t. destruct (decide (t = tx)) as [->|Hne]; [done|]. destruct (Hothers t Hne) as (-> & -> & _). apply (eo_dom _ _ _ Hok).
  - apply (counters_pos _ _ Hc), (eo_counters _ _ _ Hok).
  - intros t st cat E Ho. destruct (decide (t = tx)) as [->|Hne]; [by eapply Hcats|]. destruct (Hothers t Hne) as (E' & _ & _).
    rewrite E' in E. eapply cat_ok_mono; [done..|]. by eapply (eo_cats _ _ _ Hok).
  - intros t st cat t' v E Ho Hne Hw. destruct (decide (t = tx)) as [->|Hn].
    + destruct (Hothers t' Hne) as (_ & _ & Ew). rewrite Ew in Hw. by eapply Hcats.
    + destruct (Hothers t Hn) as (E' & _ & _). rewrite E' in E. destruct (decide (t' = tx)) as [->|Hn'].
      * destruct (Hwriter v Hw) as [Hold|Hnew]; [by eapply (eo_foreign _ _ _ Hok)|].
        intros n x Ex. eapply (co_future _ _ _ _ _ (eo_cats _ _ _ Hok t st cat E Ho)); [done|lia].
      * destruct (Hothers t' Hn') as (_ & _ & Ew). rewrite Ew in Hw. by eapply (eo_foreign _ _ _ Hok).
  - intros t st v E Hw. destruct (decide (t = tx)) as [->|Hne]; [by apply Hgood|]. destruct (Hothers t Hne) as (E' & Ec & Ew).
    rewrite E' in E. rewrite Ew in Hw. replace (frozen_view t e') with (frozen_view t e) by (unfold frozen_view, cached_snapshot; by rewrite Ec).
    eapply tx_good_epoch; [done|done|]. by eapply (eo_good _ _ _ Hok).
Qed.

End Move.

(** A committed row stays, with its writer; once deleted it stays deleted. *)
Definition base_kept (base base' : Catalog) : Prop :=
  forall n b, get base n = Some b -> exists b', get base' n = Some b' /\ same_table b b' /\
    forall rid r h, heap b !! rid = Some (r, h) ->
      exists h', heap b' !! rid = Some (r, h') /\ xmin h' = xmin h /\ (h' = h \/ xmax h = XMAX_ALIVE).

#[export] Instance base_kept_preorder : PreOrder base_kept.
Proof.
  split.
  - intros base n b E. exists b. split_and!; [done|reflexivity|]. eauto.
  - intros b1 b2 b3 H1 H2 n b E. destruct (H1 n b E) as (b' & E' & S' & K'). destruct (H2 n b' E') as (b'' & E'' & S'' & K'').
    exists b''. split_and!; [done|by etrans|]. intros rid r h El. destruct (K' _ _ _ El) as (h' & El' & X' & C').
    destruct (K'' _ _ _ El') as (h'' & El'' & X'' & C''). exists h''. split_and!; [done|congruence|]. naive_solver.
Qed.

Lemma aligned_kept v base base' : aligned v base base' -> base_kept base base'.
Proof.
  intros Ha n b E. destruct (Ha n b E) as (b' & E' & Hs & He). exists b'. split_and!; [done|done|]. intros rid r h El.
  destruct (ext_kept _ _ _ He _ _ _ El) as (h' & El' & C). exists h'. split_and!; [done| |]; by destruct C as [->|[? ->]]; auto.
Qed.

(** ** The switches *)

Lemma gate_inplace G ep e : engine_ok G ep e -> mvcc_inplace e = true.
Proof. intros Hok. apply (eo_gate _ _ _ Hok). Qed.

Lemma none_capturing g c G base cat : cat_ok g c G base cat -> any_redo_capturing cat = false.
Proof.
  intros Hok. unfold any_redo_capturing, exists_table. apply not_true_iff_false. intros ([n t] & Hin%list_elem_of_In%elem_of_map_to_list & Hc)%existsb_exists.
  cbn in Hc. by rewrite (co_redo _ _ _ _ _ Hok n t Hin) in Hc.
Qed.

(** With capture off a statement starts and ends without it. *)
Lemma arm_none G ep e tx : engine_ok G ep e -> arm_redo tx e = e.
Proof.
  intros Hok. unfold arm_redo. rewrite (proj2 (eo_gate _ _ _ Hok)). unfold active_catalog. destruct (tx_catalogs e !! tx) as [st|] eqn:E.
  - by rewrite (none_capturing _ _ _ _ _ (eo_cats _ _ _ Hok tx st _ E (or_introl eq_refl))).
  - by rewrite (none_capturing _ _ _ _ _ (eo_base _ _ _ Hok)).
Qed.

(** ** The open transactions *)

Section Open.
Context (G : Ghost) (ep : Z) (e : Engine) (Hok : engine_ok G ep e).

Lemma open_writer tx st : tx_catalogs e !! tx = Some st -> exists v, writer_of tx e = Some v.
Proof.
  intros E. destruct (proj2 (ok_dom _ (eo_versions _ _ _ Hok) tx)) as [v Hv]; [|by exists v].
  apply (eo_dom _ _ _ Hok). by rewrite E.
Qed.

Lemma closed_writer tx : tx_catalogs e !! tx = None -> writer_of tx e = None.
Proof.
  intros E. destruct (writer_of tx e) as [v|] eqn:Ew; [|done]. exfalso.
  assert (is_Some (tx_catalogs e !! tx)) as [? ?] by (apply (eo_dom _ _ _ Hok), (ok_dom _ (eo_versions _ _ _ Hok)); by exists v).
  congruence.
Qed.

Lemma writer_range tx v : writer_of tx e = Some v -> 2 <= v < GLOBAL_VERSION (versions e).
Proof. apply writer_bounds, (eo_versions _ _ _ Hok). Qed.

Lemma writer_inj tx tx' v : writer_of tx e = Some v -> writer_of tx' e = Some v -> tx = tx'.
Proof. apply (ok_inj _ (eo_versions _ _ _ Hok)). Qed.

End Open.
