(* ===== verification/TxFold.v ===== *)
(** The two folds of a transaction's write-sets onto the base, under the
    invariant: the rebase of READ COMMITTED and the merge of COMMIT. *)
From stdpp Require Import gmap.
From S2P Require Import Prelude SortedMap BigNum Values RowCodec RowAccept RowLen Mvcc Heap HeapOps WriteSet Merge MergeOk Tx TxOk.
Open Scope Z_scope.

(** ** The write-sets *)

Lemma write_sets_spec v touched shadow n ws :
  (n, ws) ∈ write_sets v touched shadow <->
  n ∈ bs_elems touched /\ exists s, get shadow n = Some s /\ ws = extract_tx_writeset s v /\ is_empty ws = false.
Proof.
  unfold write_sets. rewrite list_elem_of_omap. split.
  - intros (m & Hm & E). destruct (get shadow m) as [s|] eqn:Es; cbn [mbind option_bind] in E; [|done].
    destruct (is_empty (extract_tx_writeset s v)) eqn:Ee; [done|]. injection E as <- <-. eauto.
  - intros (Hn & s & Es & -> & Ee). exists n. split; [done|]. rewrite Es. cbn [mbind option_bind]. by rewrite Ee.
Qed.

Lemma write_sets_NoDup v touched shadow : sorted touched -> NoDup (map fst (write_sets v touched shadow)).
Proof.
  intros Hs. pose proof (bs_elems_NoDup touched Hs) as Hnd. unfold write_sets.
  induction (bs_elems touched) as [|n ns IH]; cbn [omap list_omap]; [apply NoDup_nil_2|]. apply NoDup_cons in Hnd as [Hn Hnd].
  assert (forall ws, (n, ws) ∉ omap (fun n => old_t ← get shadow n;
            let ws := extract_tx_writeset old_t v in if is_empty ws then None else Some (n, ws)) ns) as Hno.
  { intros ws (m & Hm & E)%list_elem_of_omap. destruct (get shadow m) as [s|]; cbn [mbind option_bind] in E; [|done].
    destruct (is_empty _); [done|]. injection E as -> _. done. }
  destruct (get shadow n) as [s|]; cbn [mbind option_bind]; [|by apply IH]. destruct (is_empty _); [by apply IH|].
  cbn [map fst]. apply NoDup_cons. split; [|by apply IH]. intros ([m ws] & -> & Hin)%list_elem_of_fmap. by apply (Hno ws).
Qed.

Lemma own_dirty_tables d fresh : tables (with_own_dirty d fresh) = tables fresh.
Proof.
  unfold with_own_dirty. assert (tables (clear_dirty_tables fresh) = tables fresh) as E by done. revert E.
  generalize (clear_dirty_tables fresh). induction (bs_elems d) as [|n ns IH]; intros cat E; cbn [fold_left]; [done|]. by apply IH.
Qed.

Lemma own_dirty_get d fresh n : get (with_own_dirty d fresh) n = get fresh n.
Proof. unfold get. by rewrite own_dirty_tables. Qed.

(** ** What a fold leaves, seen from the invariant *)

Record rebuilt (g : Z) (c : Counters) (G : Ghost) (v : Z) (touched : bset (list Z)) (base fresh : Catalog) : Prop := {
  rb_cat : cat_ok g c G base fresh;
  rb_self : cat_ok g c G fresh fresh;
  rb_shape : shape_kept base fresh;
  rb_aligned : aligned v base fresh;
  rb_track n t : get fresh n = Some t -> track_ok v t;
  rb_clean n t : get fresh n = Some t -> bs_mem n touched = false -> clean v t;
  rb_foreign w : 2 <= w -> w <> v -> cat_clean w base -> cat_clean w fresh
}.

Lemma rebuilt_own_dirty g c G v touched base d fresh :
  rebuilt g c G v touched base fresh -> rebuilt g c G v touched base (with_own_dirty d fresh).
Proof.
  assert (Hg := own_dirty_get d fresh). intros [[A1 A2 A3 A4] [S1 S2 S3 S4] Hsh Hal Htr Hcl Hf].
  split; [split|split|..]; try (intros *; rewrite Hg; by eauto).
  - intros n b E. destruct (Hsh n b E) as (b' & ? & ?). exists b'. by rewrite Hg.
  - intros n b E. destruct (Hal n b E) as (b' & ? & ?). exists b'. by rewrite Hg.
  - intros w H2 Hw Hb n t. rewrite Hg. by apply Hf.
Qed.

Section Fold.
Context `{HC : Constraints}.
Context (G : Ghost) (ep : Z) (e : Engine) (Hok : engine_ok G ep e).
Context (tx : Z) (st : TxState) (v : Z) (Htx : tx_catalogs e !! tx = Some st) (Hw : writer_of tx e = Some v).

Definition wsets : list (list Z * TxWriteSet) := write_sets v (touched_tables st) (tx_catalog st).

Lemma shadow_ok : cat_ok (GLOBAL_VERSION (versions e)) (counters e) G (catalog e) (tx_catalog st).
Proof. apply (eo_cats _ _ _ Hok tx st _ Htx). by left. Qed.

Lemma own_good : tx_good (catalog e) (frozen_view tx e) ep v st.
Proof. by apply (eo_good _ _ _ Hok). Qed.

Lemma own_range : 2 <= v < GLOBAL_VERSION (versions e).
Proof. by eapply writer_range. Qed.

(** The write-set of a table, and the two copies of the table. *)
Lemma wset_table n ws :
  (n, ws) ∈ wsets -> exists s b, get (tx_catalog st) n = Some s /\ get (catalog e) n = Some b /\ ws = extract_tx_writeset s v /\
    same_table s b /\ replayable (counters e) b ws /\ writeset_of v (heap s) ws /\ known G s /\ known G b /\ table_ok (counters e) b /\ clean v b.
Proof.
  intros (_ & s & Es & -> & _)%write_sets_spec. pose proof shadow_ok as Hs. destruct (co_base _ _ _ _ _ Hs n s Es) as (b & Eb & Hsame).
  pose proof (eo_base _ _ _ Hok) as Hb. exists s, b.
  assert (known G s) as Ks by (by eapply Hs). assert (known G b) as Kb by (by eapply Hb).
  assert (table_ok (counters e) s) as Os by (by eapply Hs). assert (clean v b) as Cb by (by eapply (eo_base_clean _ _ _ Hok)).
  assert (track_ok v s) as Ts by (eapply (tg_track _ _ _ _ _ own_good); [by left|done]).
  split_and!; try done; [by eapply writeset_replayable|by eapply extract_writeset_of|by eapply Hb].
Qed.

Lemma wset_base n ws b : (n, ws) ∈ wsets -> get (catalog e) n = Some b -> table_ok (counters e) b /\ replayable (counters e) b ws.
Proof. intros Hin E. destruct (wset_table n ws Hin) as (s & b' & _ & Eb & _ & _ & Hr & _ & _ & _ & Hb & _). simplify_eq. done. Qed.

Section Out.
Context (Q : list Z -> TxWriteSet -> Table -> Prop) (out : list Z -> TxWriteSet -> Table -> gmap Z Cell).
Context (c' : Counters) (fresh : Catalog) (Hf : folded v Q out (counters e) wsets (catalog e) c' fresh).
Context (Hc : counters_le (counters e) c').
Context (Hout : forall n ws b t', (n, ws) ∈ wsets -> get (catalog e) n = Some b -> Q n ws b ->
  written_by v (counters e) b c' t' -> heap t' = out n ws b -> extends v (heap b) (heap t') /\ known G t').

Lemma folded_table n b :
  get (catalog e) n = Some b ->
  exists t', get fresh n = Some t' /\ written_by v (counters e) b c' t' /\ extends v (heap b) (heap t') /\ known G t' /\
    (n ∉ map fst wsets -> t' = b).
Proof.
  intros Eb. destruct (fd_table _ _ _ _ _ _ _ _ Hf n b Eb) as (t' & E' & Hwb & Hh & Hsame). exists t'. split_and!; try done.
  all: unfold table_out in Hh; destruct ((list_to_map wsets : gmap (list Z) TxWriteSet) !! n) as [ws|] eqn:El.
  1,3: apply elem_of_list_to_map_2 in El; destruct (fd_each _ _ _ _ _ _ _ _ Hf n ws El) as (b' & Eb' & HQ); simplify_eq;
       by eapply Hout.
  1,2: apply not_elem_of_list_to_map_2 in El; rewrite (Hsame El); [apply extends_refl || by eapply (eo_base _ _ _ Hok)].
Qed.

Lemma folded_back n t : get fresh n = Some t -> exists b, get (catalog e) n = Some b.
Proof.
  intros E. destruct (get (catalog e) n) as [b|] eqn:Eb; [by exists b|]. by rewrite (fd_missing _ _ _ _ _ _ _ _ Hf n Eb) in E.
Qed.

Lemma folded_rebuilt : rebuilt (GLOBAL_VERSION (versions e)) c' G v (touched_tables st) (catalog e) fresh.
Proof.
  pose proof (eo_base _ _ _ Hok) as Hb. pose proof own_range as Hv.
  assert (Hall : forall n t, get fresh n = Some t -> exists b, get (catalog e) n = Some b /\
            written_by v (counters e) b c' t /\ extends v (heap b) (heap t) /\ known G t /\ (n ∉ map fst wsets -> t = b)).
  { intros n t E. destruct (folded_back n t E) as [b Eb]. destruct (folded_table n b Eb) as (t' & E' & ?). simplify_eq. eauto. }
  split.
  - split; intros n t; [intros E..|intros w E Hwl|intros E]; destruct (Hall n t E) as (b & Eb & Hwb & _ & Hk & _); try done.
    + apply (same_redo b); [apply Hwb|by eapply Hb].
    + apply Hwb.
    + eapply (wb_clean _ _ _ _ _ Hwb); [lia|lia|]. by eapply Hb.
    + exists b. split; [done|]. symmetry. apply Hwb.
  - split; intros n t; [intros E..|intros w E Hwl|intros E]; destruct (Hall n t E) as (b & Eb & Hwb & _ & Hk & _); try done.
    + apply (same_redo b); [apply Hwb|by eapply Hb].
    + apply Hwb.
    + eapply (wb_clean _ _ _ _ _ Hwb); [lia|lia|]. by eapply Hb.
    + exists t. by split; [|reflexivity].
  - intros n b Eb. destruct (folded_table n b Eb) as (t' & E' & Hwb & _). exists t'. split; [done|apply Hwb].
  - intros n b Eb. destruct (folded_table n b Eb) as (t' & E' & Hwb & He & _). exists t'. split_and!; [done|apply Hwb|done].
  - intros n t E. destruct (Hall n t E) as (b & Eb & Hwb & _). apply Hwb. eapply clean_track_ok; [by eapply Hb|].
    by eapply (eo_base_clean _ _ _ Hok).
  - intros n t E Hn. destruct (Hall n t E) as (b & Eb & _ & _ & _ & Hsame). rewrite Hsame; [by eapply (eo_base_clean _ _ _ Hok)|].
    intros ([m ws] & -> & (Hin & _)%write_sets_spec)%list_elem_of_fmap. cbn [fst] in Hn. apply bs_mem_elems in Hin. congruence.
  - intros w H2 Hne Hcl n t E. destruct (Hall n t E) as (b & Eb & Hwb & _). apply (wb_clean _ _ _ _ _ Hwb); [done|done|]. by eapply Hcl.
Qed.

End Out.
End Fold.

(** ** The two folds *)

Section Folds.
Context `{HC : Constraints}.
Context (G : Ghost) (ep : Z) (e : Engine) (Hok : engine_ok G ep e).
Context (tx : Z) (st : TxState) (v : Z) (Htx : tx_catalogs e !! tx = Some st) (Hw : writer_of tx e = Some v).

Let ws_of := wsets st v.
Let g := GLOBAL_VERSION (versions e).

Lemma wsets_NoDup : NoDup (map fst ws_of).
Proof. apply write_sets_NoDup, (tg_sorted _ _ _ _ _ (own_good G ep e Hok tx st v Htx Hw)). Qed.

Lemma version_not_alive : v <> XMAX_ALIVE.
Proof. pose proof (own_range G ep e Hok tx v Hw). unfold XMAX_ALIVE. lia. Qed.

Lemma replayable_le c c' t ws : counters_le c c' -> replayable c t ws -> replayable c' t ws.
Proof. intros Hc. by apply replayable_mono. Qed.

(** Landing a part of a table's write-set on its copy in the base. *)
Lemma wset_landed n ws ws' b own c' t' :
  (n, ws) ∈ ws_of -> get (catalog e) n = Some b -> inserted ws' `sublist_of` inserted ws ->
  written_by v (counters e) b c' t' -> heap t' = landed_heap v own ws' (heap b) ->
  extends v (heap b) (heap t') /\ known G t'.
Proof.
  intros Hin Eb Hsub Hwb Hh. destruct (wset_table G ep e Hok tx st v Htx Hw n ws Hin) as (s & b' & Es & Eb' & _ & Hsame & Hr & Hws & Ks & Kb & _).
  simplify_eq. pose proof (replayable_sub _ _ _ _ Hsub Hr) as Hr'. pose proof (own_range G ep e Hok tx v Hw) as Hv. split.
  - rewrite Hh. apply landed_extends; [apply version_not_alive|apply Hr'|].
    eapply Forall_impl; [apply (rp_fresh _ _ _ Hr')|]. by intros x [? _].
  - eapply landed_known; [|exact Hsame|exact Hwb|exact Hr'|exact Hh| |done|done]; [lia|].
    intros rid r Hi. apply (ws_inserted _ _ _ Hws). by eapply elem_of_sublist.
Qed.

Lemma rebase_fold :
  exists r c', fold_tables (rebase_table v (update_pairs st)) ws_of (catalog e) (counters e) = Some (r, c') /\
    counters_le (counters e) c' /\
    forall fresh, r = Ok fresh -> rebuilt g c' G v (touched_tables st) (catalog e) fresh.
Proof.
  pose proof (own_range G ep e Hok tx v Hw) as Hv.
  destruct (fold_tables_ok v (rebase_table v (update_pairs st)) (fun n ws c t => table_ok c t /\ replayable c t ws) (fun _ _ _ => True)
    (fun n ws t => landed_heap v (own_inserted ws) (kept v (update_pairs st !! n) t ws) (heap t))) with (wsets := ws_of) (fresh := catalog e) (c := counters e)
    as (r & c' & E & Hc & Hr).
  - intros n ws c c' t Hc [? ?]. split; [by eapply table_ok_mono|by eapply replayable_le].
  - intros n ws fresh c Eg. unfold rebase_table. rewrite Eg. eauto.
  - intros n ws fresh c t Eg [? ?]. right. split; [done|]. apply rebase_table_ok; [lia|done..].
  - apply wsets_NoDup.
  - intros n t Et. by eapply (eo_base _ _ _ Hok).
  - intros n ws t Hin Et. by eapply wset_base.
  - exists r, c'. split_and!; [done|done|]. intros fresh Ef.
    eapply (folded_rebuilt G ep e Hok tx st v Hw _ _ c' fresh (Hr fresh Ef)).
    intros n ws b t' Hin Eb _ Hwb Hh. eapply wset_landed; [done|done|apply kept_inserted|done|exact Hh].
Qed.

(** No row the transaction deleted was deleted by somebody else. *)
Definition unconflicted : Prop :=
  forall n s b rid, get (tx_catalog st) n = Some s -> get (catalog e) n = Some b -> ~ overtaken v (heap s) (heap b) rid.

(** Every table is the three-way merge of the shadow and the base. *)
Definition merged (fresh : Catalog) : Prop :=
  forall n s b, get (tx_catalog st) n = Some s -> get (catalog e) n = Some b ->
    exists t, get fresh n = Some t /\ heap t = three_way v (heap s) (heap b).

Lemma empty_clean c s : table_ok c s -> track_ok v s -> is_empty (extract_tx_writeset s v) = true ->
  forall rid r h, heap s !! rid = Some (r, h) -> xmin h <> v /\ xmax h <> v.
Proof.
  intros Hs Htr He rid r h E. pose proof (extract_writeset_of c v s Hs Htr) as Hws. unfold is_empty in He.
  destruct (inserted (extract_tx_writeset s v)) eqn:Ei; [|done]. destruct (tombstoned (extract_tx_writeset s v)) eqn:Et; [|done]. split; intros Hx.
  - assert ((rid, r) ∈ inserted (extract_tx_writeset s v)) as Hin by (apply (ws_inserted _ _ _ Hws); eauto).
    rewrite Ei in Hin. by apply elem_of_nil in Hin.
  - assert (rid ∈ map fst (tombstoned (extract_tx_writeset s v))) as Hin by (apply (ws_tombstoned _ _ _ Hws); eauto).
    rewrite Et in Hin. by apply elem_of_nil in Hin.
Qed.

Definition merge_out (n : list Z) (t : Table) : gmap Z Cell :=
  match get (tx_catalog st) n with Some s => three_way v (heap s) (heap t) | None => heap t end.

Lemma merge_fold :
  exists r c', fold_tables (merge_table v) ws_of (catalog e) (counters e) = Some (r, c') /\
    counters_le (counters e) c' /\
    forall fresh, r = Ok fresh ->
      rebuilt g c' G v (touched_tables st) (catalog e) fresh /\
      folded v (fun n ws t => forall s rid, get (tx_catalog st) n = Some s -> ~ overtaken v (heap s) (heap t) rid)
        (fun n _ t => merge_out n t) (counters e) ws_of (catalog e) c' fresh.
Proof.
  pose proof (own_range G ep e Hok tx v Hw) as Hv.
  set (Q := fun (n : list Z) (ws : TxWriteSet) t => forall s rid, get (tx_catalog st) n = Some s -> ~ overtaken v (heap s) (heap t) rid).
  set (P := fun (n : list Z) (ws : TxWriteSet) c t => table_ok c t /\ clean v t /\ replayable c t ws /\
              exists s, get (tx_catalog st) n = Some s /\ writeset_of v (heap s) ws).
  destruct (fold_tables_ok v (merge_table v) P Q (fun n _ t => merge_out n t)) with (wsets := ws_of) (fresh := catalog e) (c := counters e)
    as (r & c' & E & Hc & Hr).
  - intros n ws c c' t Hc (? & ? & ? & ?). unfold P. split_and!; [by eapply table_ok_mono|done|by eapply replayable_le|done].
  - intros n ws fresh c Eg. unfold merge_table. rewrite Eg. eauto.
  - intros n ws fresh c t Eg (Ht & Hcl & Hrep & s & Es & Hws). unfold Q, merge_out. rewrite Es.
    destruct (merge_table_ok v c n t (heap s) ws fresh) as [(rid & k & _ & ->)|[Hno Hl]]; [lia|done..|eauto|].
    right. split; [|done]. intros s' rid [= <-]. apply Hno.
  - apply wsets_NoDup.
  - intros n t Et. by eapply (eo_base _ _ _ Hok).
  - intros n ws t Hin Et. destruct (wset_table G ep e Hok tx st v Htx Hw n ws Hin) as (s & b & Es & Eb & _ & _ & Hrep & Hws & _ & _ & Hb & Hcl).
    simplify_eq. unfold P. eauto 10.
  - exists r, c'. split_and!; [done|done|]. intros fresh Ef. split; [|by apply Hr].
    eapply (folded_rebuilt G ep e Hok tx st v Hw _ _ c' fresh (Hr fresh Ef)).
    intros n ws b t' Hin Eb HQ Hwb Hh. destruct (wset_table G ep e Hok tx st v Htx Hw n ws Hin) as (s & b' & Es & Eb' & _ & _ & Hrep & Hws & _ & _ & Hb & Hcl).
    simplify_eq. unfold merge_out in Hh. rewrite Es in Hh. eapply (wset_landed n ws ws b (own_inserted ws)); [done|done|done|done|].
    rewrite Hh. symmetry. apply landed_three_way; [apply version_not_alive|done| |intros rid; by apply HQ|].
    + eapply Forall_impl; [apply (rp_fresh _ _ _ Hrep)|]. by intros x [? _].
    + intros rid r' h El. by eapply clean_xmax.
Qed.

Lemma merge_fold_merged c' fresh :
  aborted st = false ->
  folded v (fun n ws t => forall s rid, get (tx_catalog st) n = Some s -> ~ overtaken v (heap s) (heap t) rid)
    (fun n _ t => merge_out n t) (counters e) ws_of (catalog e) c' fresh ->
  unconflicted /\ merged fresh.
Proof.
  intros Hab Hf. pose proof (own_good G ep e Hok tx st v Htx Hw) as Hg. pose proof (shadow_ok G ep e Hok tx st Htx) as Hs.
  assert (Hout : forall n s, get (tx_catalog st) n = Some s -> n ∉ map fst ws_of -> forall rid r h, heap s !! rid = Some (r, h) -> xmin h <> v /\ xmax h <> v).
  { intros n s Es Hn. destruct (bs_mem n (touched_tables st)) eqn:Em.
    - assert (is_empty (extract_tx_writeset s v) = true) as He.
      { destruct (is_empty _) eqn:Ee; [done|]. exfalso. apply Hn, list_elem_of_fmap. exists (n, extract_tx_writeset s v). split; [done|].
        apply write_sets_spec. split; [by apply bs_mem_elems|eauto]. }
      apply (empty_clean (counters e)); [by eapply Hs| |done]. eapply (tg_track _ _ _ _ _ Hg); [by left|done].
    - intros rid r h. apply clean_xmax. by eapply (tg_shadow _ _ _ _ _ Hg). }
  split.
  - intros n s b rid Es Eb. destruct (decide (n ∈ map fst ws_of)) as [Hin|Hn].
    + apply list_elem_of_fmap in Hin as ([m ws] & -> & Hin). destruct (fd_each _ _ _ _ _ _ _ _ Hf m ws Hin) as (b' & Eb' & HQ).
      cbn [fst] in *. simplify_eq. by apply HQ.
    + intros (r & h & E & Hx & _). by destruct (Hout n s Es Hn _ _ _ E).
  - intros n s b Es Eb. destruct (fd_table _ _ _ _ _ _ _ _ Hf n b Eb) as (t & Et & _ & Hh & Hsame). exists t. split; [done|].
    unfold table_out, merge_out in Hh. destruct ((list_to_map ws_of : gmap (list Z) TxWriteSet) !! n) as [ws|] eqn:El; [by rewrite Es in Hh|].
    apply not_elem_of_list_to_map_2 in El. rewrite Hh. apply map_eq. intros rid. rewrite three_way_lookup. unfold merge_cell.
    destruct (heap s !! rid) as [[r h]|] eqn:E; [|done]. destruct (Hout n s Es El _ _ _ E) as [? ?]. by rewrite !(proj2 (Z.eqb_neq _ _)) by done.
Qed.

End Folds.
