(* ===== verification/TxSteps.v ===== *)
(** Every statement of [Tx] keeps the invariant of [TxOk]: statements in a
    transaction, statements outside one, and the parts of COMMIT.

    The row statements, in a transaction and outside one, and CREATE TABLE
    outside one, under the invariant of [TxOk]. *)
From stdpp Require Import gmap.
From S2P Require Import Prelude SortedMap BigNum Values RowCodec RowAccept RowLen Mvcc Heap HeapOps WriteSet Merge MergeOk Tx TxOk TxFold.
Open Scope Z_scope.

(** ** One transaction's state replaced *)

Lemma on_tx_some tx f e st : tx_catalogs e !! tx = Some st -> on_tx tx f e = set_txs (<[tx := f st]> (tx_catalogs e)) e.
Proof.
  intros E. unfold on_tx. f_equal. apply map_eq. intros t. destruct (decide (t = tx)) as [->|Hne].
  - by rewrite lookup_alter_eq, lookup_insert_eq, E.
  - by rewrite lookup_alter_ne, lookup_insert_ne by done.
Qed.

Lemma on_tx_none tx f e : tx_catalogs e !! tx = None -> on_tx tx f e = e.
Proof.
  intros E. unfold on_tx. rewrite alter_id; [by destruct e|]. congruence.
Qed.

Lemma engine_irrel G ep e e' :
  catalog e' = catalog e -> counters e' = counters e -> versions e' = versions e -> tx_catalogs e' = tx_catalogs e ->
  settings e' = settings e -> engine_ok G ep e -> engine_ok G ep e'.
Proof. destruct e, e'. cbn. intros -> -> -> -> ->. intros []. by split. Qed.

Lemma engine_epoch G ep e : engine_ok G ep e -> engine_ok G (ep + 1) e.
Proof.
  intros [? ? ? ? ? ? ? ? ? Hg]. split; try done. intros tx st v E Hw. eapply tx_good_epoch; [| |by apply Hg]; lia.
Qed.

Lemma is_open tx e st : tx_catalogs e !! tx = Some st -> is_tx_open tx e = true.
Proof. intros E. apply bool_decide_eq_true_2. by rewrite E. Qed.

Lemma is_closed tx e : tx_catalogs e !! tx = None -> is_tx_open tx e = false.
Proof. intros E. apply bool_decide_eq_false_2. rewrite E. by intros [? ?]. Qed.

Section Own.
Context (G : Ghost) (ep : Z) (e : Engine) (Hok : engine_ok G ep e).
Context (tx : Z) (st : TxState) (v : Z) (Htx : tx_catalogs e !! tx = Some st) (Hw : writer_of tx e = Some v).

(** The state [st'] in place of [st], with row ids taken meanwhile. *)
Lemma tx_replace G' c' st' :
  counters_le (counters e) c' -> ghost_le G G' -> ghost_ok c' G' ->
  (forall cat, own_cat st' cat -> own_cat st cat \/
     (cat_ok (GLOBAL_VERSION (versions e)) c' G' (catalog e) cat /\ forall t w, t <> tx -> writer_of t e = Some w -> cat_clean w cat)) ->
  tx_good (catalog e) (frozen_view tx e) ep v st' ->
  engine_ok G' ep (set_txs (<[tx := st']> (tx_catalogs e)) (set_counters c' e)).
Proof.
  intros Hc HG HG' Hcats Hgood. eapply (engine_move G G' ep ep e _ tx Hok); cbn; try done.
  - apply Hok.
  - apply Hok.
  - intros t Hne. by rewrite lookup_insert_ne.
  - eapply cat_ok_mono; [done..|reflexivity|apply Hok].
  - by apply (eo_base_clean _ _ _ Hok).
  - by left.
  - rewrite lookup_insert_eq. rewrite <- (eo_dom _ _ _ Hok), Htx. split; eauto.
  - by left.
  - intros st0 cat. rewrite lookup_insert_eq. intros [= <-] Ho. destruct (Hcats cat Ho) as [Hold|Hnew]; [|done]. split.
    + eapply cat_ok_mono; [done..|reflexivity|]. by eapply (eo_cats _ _ _ Hok).
    + intros t w Hne Ht. by eapply (eo_foreign _ _ _ Hok).
  - intros st0 v0. rewrite lookup_insert_eq. intros [= <-] Hv0. assert (v0 = v) as -> by (unfold writer_of in *; cbn in *; congruence). done.
Qed.

Lemma tx_replace_same st' :
  (forall cat, own_cat st' cat -> own_cat st cat) -> tx_good (catalog e) (frozen_view tx e) ep v st' ->
  engine_ok G ep (set_txs (<[tx := st']> (tx_catalogs e)) e).
Proof.
  intros Hcats Hgood. eapply engine_irrel; [..|eapply (tx_replace G (counters e) st')]; try done.
  - apply Hok.
  - intros cat Ho. left. by apply Hcats.
Qed.

(** *** Bookkeeping *)

Definition same_key (st st' : TxState) : Prop :=
  tx_catalog st' = tx_catalog st /\ savepoints st' = savepoints st /\ touched_tables st' = touched_tables st /\
  rebase_poisoned st' = rebase_poisoned st /\ rebased_at_epoch st' = rebased_at_epoch st /\ shadow_dirty st' = shadow_dirty st /\
  (aborted st' = aborted st \/ aborted st' = true).

Lemma book_ok st' : same_key st st' -> engine_ok G ep (set_txs (<[tx := st']> (tx_catalogs e)) e).
Proof.
  intros (E1 & E2 & E3 & E4 & E5 & E6 & E7). apply tx_replace_same.
  - intros cat. unfold own_cat. by rewrite E1, E2.
  - destruct (eo_good _ _ _ Hok tx st v Htx Hw) as [T S0 S1 So P Ep A D]. split; rewrite ?E1, ?E2, ?E3, ?E4, ?E5, ?E6; try done.
    + intros cat n t. unfold own_cat. rewrite E1, E2. apply T.
    + intros n t Ha. apply S1. destruct E7 as [<-|E7]; congruence.
Qed.

(** *** A shadow rebuilt on the base *)

Lemma adopt c' fresh k :
  counters_le (counters e) c' -> rebuilt (GLOBAL_VERSION (versions e)) c' G v (touched_tables st) (catalog e) fresh -> k <= ep ->
  engine_ok G ep (set_txs (<[tx := set_epoch k (set_tx_catalog fresh st)]> (tx_catalogs e)) (set_counters c' e)).
Proof.
  intros Hc [Rc Rs Rsh Ra Rt Rcl Rf] Hk. destruct (eo_good _ _ _ Hok tx st v Htx Hw) as [T S0 S1 So P Ep A D].
  eapply (tx_replace G); [done|done| | |].
  - intros p rid x E. apply (eo_ghost _ _ _ Hok) in E. specialize (Hc p). lia.
  - intros cat [->|Hin]; [|left; by right]. right. cbn. split; [done|]. intros t w Hne Ht.
    apply Rf; [by eapply writer_range| |by eapply (eo_base_clean _ _ _ Hok)]. intros ->. apply Hne. by eapply writer_inj.
  - split; cbn; try done.
    + intros cat n t [->|Hin]; [apply Rt|]. apply T. by right.
    + intros n t _. apply Rcl.
Qed.

End Own.

(** ** Ending a transaction *)

Lemma end_versions tx v vs vs' :
  versions_ok vs -> sm_lookup tx (tx_writer_versions vs) = Some v -> vs' = commit_tx tx vs \/ vs' = discard_tx tx vs ->
  versions_ok vs' /\ GLOBAL_VERSION vs' = GLOBAL_VERSION vs /\
  sm_lookup tx (tx_writer_versions vs') = None /\ sm_lookup tx (tx_cached vs') = None /\
  forall t, t <> tx -> sm_lookup t (tx_writer_versions vs') = sm_lookup t (tx_writer_versions vs) /\
                       sm_lookup t (tx_cached vs') = sm_lookup t (tx_cached vs).
Proof.
  intros Hok Hv Hd. split.
  { destruct Hd as [->| ->]; eapply vstep_ok; [constructor|done|constructor|done]. }
  destruct Hd as [->| ->]; unfold commit_tx, discard_tx, take_version; cbn; rewrite Hv; cbn;
    (split_and!; [done|rewrite sm_lookup_remove_dec by apply (ok_writers _ Hok); by rewrite decide_True|
       rewrite sm_lookup_remove_dec by apply (ok_cached _ Hok); by rewrite decide_True|]);
    intros t Hne; rewrite !sm_lookup_remove_dec by (apply (ok_writers _ Hok) || apply (ok_cached _ Hok)); by rewrite !decide_False by congruence.
Qed.

(** The transaction is gone and the base is [base']: the same, or its shadow. *)
Lemma close_ok G ep ep' e e' tx st v :
  engine_ok G ep e -> tx_catalogs e !! tx = Some st -> writer_of tx e = Some v ->
  tx_catalogs e' = delete tx (tx_catalogs e) -> counters e' = counters e -> settings e' = settings e ->
  versions e' = commit_tx tx (versions e) \/ versions e' = discard_tx tx (versions e) ->
  (catalog e' = catalog e /\ ep' = ep) \/ (catalog e' = tx_catalog st /\ aligned v (catalog e) (tx_catalog st) /\ ep < ep') ->
  engine_ok G ep' e'.
Proof.
  intros Hok Htx Hw Ht Hc Hg Hvs Hcat.
  destruct (end_versions tx v (versions e) (versions e') (eo_versions _ _ _ Hok) Hw Hvs) as (V & Vg & Vw & Vc & Vo).
  pose proof (eo_cats _ _ _ Hok tx st (tx_catalog st) Htx (or_introl eq_refl)) as Hs.
  assert (Hself : cat_ok (GLOBAL_VERSION (versions e)) (counters e) G (tx_catalog st) (tx_catalog st)).
  { destruct Hs. split; try done. intros n t E. exists t. by split; [|reflexivity]. }
  eapply (engine_move G G ep ep' e e' tx Hok); rewrite ?Ht, ?Hc, ?Vg; try done.
  - unfold mvcc_inplace. rewrite Hg. apply Hok.
  - apply Hok.
  - intros t Hne. rewrite lookup_delete_ne by done. unfold writer_of. by destruct (Vo t Hne) as [-> ->].
  - destruct Hcat as [[-> ->]|(-> & _)]; [apply Hok|done].
  - destruct Hcat as [[-> ->]|(-> & Ha & _)]; [reflexivity|]. intros n b Eb. destruct (Ha n b Eb) as (t & ? & ? & _). eauto.
  - intros t w Hww. destruct (decide (t = tx)) as [->|Hne]; [unfold writer_of in Hww; congruence|].
    assert (writer_of t e = Some w) as Hwe by (unfold writer_of in *; by destruct (Vo t Hne) as [<- _]).
    destruct Hcat as [[-> ->]|(-> & _)]; [by eapply (eo_base_clean _ _ _ Hok)|]. eapply (eo_foreign _ _ _ Hok tx st); [done|by left|done|done].
  - destruct Hcat as [[_ ->]|(_ & _ & ?)]; lia.
  - destruct Hcat as [?|(_ & _ & ?)]; auto.
  - rewrite lookup_delete_eq, Vc. split; by intros [? ?].
  - intros w. unfold writer_of. by rewrite Vw.
  - intros st0 cat. by rewrite lookup_delete_eq.
  - intros st0 w. by rewrite lookup_delete_eq.
Qed.

Lemma discard_ok G ep e tx st : engine_ok G ep e -> tx_catalogs e !! tx = Some st -> engine_ok G ep (discard tx e).
Proof.
  intros Hok Htx. destruct (open_writer G ep e Hok tx st Htx) as [v Hw]. eapply (close_ok G ep ep e _ tx st v); try done; [by right|by left].
Qed.

(** ** Beginning one *)

Lemma cat_ok_tables g c G base cat cat' : tables cat' = tables cat -> cat_ok g c G base cat -> cat_ok g c G base cat'.
Proof. intros E [? ? ? ? ?]. unfold get in *. split; unfold get; rewrite E; eauto. Qed.

Lemma begin_ok G e tx level r e' :
  engine_ok G (commit_epoch e) e -> exec_begin tx level e = Some (r, e') -> commit_epoch e' = commit_epoch e /\ engine_ok G (commit_epoch e) e'.
Proof.
  intros Hok. unfold exec_begin. destruct (is_tx_open tx e) eqn:Eo; [by intros [= <- <-]|].
  assert (tx_catalogs e !! tx = None) as Hno.
  { unfold is_tx_open in Eo. apply bool_decide_eq_false in Eo. by apply eq_None_not_Some. }
  destruct (Mvcc.exec_begin tx _ (versions e)) as [vs|] eqn:Eb; [|by intros [= <- <-]]. intros [= <- <-]. split; [done|].
  destruct (exec_begin_step _ _ _ _ (eo_versions _ _ _ Hok) Eb) as [Hvs _]. apply exec_begin_unfold in Eb as [Hnc ->].
  set (g := GLOBAL_VERSION (versions e)). pose proof (begun_writer tx (versions e)) as Hbw. cbn in Hbw.
  assert (Hb : cat_ok (g + 1) (counters e) G (catalog e) (catalog e)).
  { eapply (cat_ok_mono g); [lia|reflexivity..|apply Hok]. }
  assert (Hcl : forall n t, get (catalog e) n = Some t -> clean g t) by (intros n t E; eapply (eo_base _ _ _ Hok); [done|lia]).
  eapply (engine_move G G (commit_epoch e) (commit_epoch e) e _ tx Hok); cbn; try done.
  - lia.
  - apply Hok.
  - apply Hok.
  - intros t Hne. rewrite lookup_insert_ne by done. unfold writer_of. cbn.
    rewrite !sm_lookup_insert_dec by (apply (ok_writers _ (eo_versions _ _ _ Hok)) || apply (ok_cached _ (eo_versions _ _ _ Hok))).
    by rewrite !decide_False by congruence.
  - intros t w [[-> ->]|[_ Hw]]%(Hbw t w (eo_versions _ _ _ Hok) Hnc); [intros n x E; by eapply Hcl|by eapply (eo_base_clean _ _ _ Hok)].
  - by left.
  - rewrite lookup_insert_eq, sm_lookup_insert_dec by apply (ok_cached _ (eo_versions _ _ _ Hok)). rewrite decide_True by done. split; eauto.
  - intros w [[_ ->]|[_ Hw]]%(Hbw tx w (eo_versions _ _ _ Hok) Hnc); [by right|by left].
  - intros st cat. rewrite lookup_insert_eq. intros [= <-] [->|Hin]; [|by apply elem_of_nil in Hin]. cbn. split.
    + by eapply cat_ok_tables; [|exact Hb].
    + intros t w Hne Hw n x E. by eapply (eo_base_clean _ _ _ Hok).
  - intros st w. rewrite lookup_insert_eq. intros [= <-] [[_ ->]|[? _]]%(Hbw tx w (eo_versions _ _ _ Hok) Hnc); [|done].
    split; cbn; try done.
    + intros cat n t [->|Hin] E; [|by apply elem_of_nil in Hin]. eapply clean_track_ok; [by eapply Hb|by eapply Hcl].
    + intros cat n t Hin. by apply elem_of_nil in Hin.
    + intros n t _ E _. by eapply Hcl.
    + constructor.
    + intros _ _ n b E. exists b. split_and!; [done|reflexivity|apply extends_refl].
Qed.

(** ** Savepoints *)

Section Savepoints.
Context (G : Ghost) (ep : Z) (e : Engine) (Hok : engine_ok G ep e).
Context (tx : Z) (st : TxState) (v : Z) (Htx : tx_catalogs e !! tx = Some st) (Hw : writer_of tx e = Some v).

Lemma fewer_savepoints sps : sps ⊆ savepoints st -> engine_ok G ep (set_txs (<[tx := set_savepoints sps st]> (tx_catalogs e)) e).
Proof.
  intros Hsub. assert (Hin : forall cat, cat ∈ map snd sps -> cat ∈ map snd (savepoints st)).
  { intros cat (sp & -> & Hin)%list_elem_of_fmap. apply list_elem_of_fmap. eauto. }
  destruct (eo_good _ _ _ Hok tx st v Htx Hw) as [T S0 S1 So P Ep A D]. eapply tx_replace_same; try done.
  - intros cat [->|Hc]; [by left|right; by apply Hin].
  - split; cbn; try done.
    + intros cat n t [->|Hc]; [apply T; by left|apply T; right; by apply Hin].
    + intros cat n t Hc. by apply S0, Hin.
Qed.

Lemma more_savepoints sps n : aborted st = false -> sps ⊆ savepoints st ->
  engine_ok G ep (set_txs (<[tx := set_savepoints (sps ++ [(n, tx_catalog st)]) st]> (tx_catalogs e)) e).
Proof.
  intros Hab Hsub. assert (Hin : forall cat, cat ∈ map snd (sps ++ [(n, tx_catalog st)]) -> cat ∈ map snd (savepoints st) \/ cat = tx_catalog st).
  { intros cat (sp & -> & Hc)%list_elem_of_fmap. apply elem_of_app in Hc as [Hc|Hc%list_elem_of_singleton]; [left|right; by subst].
    apply list_elem_of_fmap. eauto. }
  destruct (eo_good _ _ _ Hok tx st v Htx Hw) as [T S0 S1 So P Ep A D]. eapply tx_replace_same; try done.
  - intros cat [->|[Hc| ->]%Hin]; [by left|by right|by left].
  - split; cbn; try done.
    + intros cat m t [->|[Hc| ->]%Hin]; [apply T; by left|apply T; by right|apply T; by left].
    + intros cat m t [Hc| ->]%Hin; [by apply S0|by apply S1].
Qed.

(** Back to a saved catalog; whatever failed since is gone. *)
Lemma restore_savepoint sps snapshot k ab :
  sps ⊆ savepoints st -> snapshot ∈ map snd (savepoints st) -> k < ep ->
  engine_ok G ep (set_txs (<[tx := set_aborted ab (set_epoch k (set_tx_catalog snapshot (set_savepoints sps st)))]> (tx_catalogs e)) e).
Proof.
  intros Hsub Hsn Hk. assert (Hin : forall cat, cat ∈ map snd sps -> cat ∈ map snd (savepoints st)).
  { intros cat (sp & -> & Hc)%list_elem_of_fmap. apply list_elem_of_fmap. eauto. }
  destruct (eo_good _ _ _ Hok tx st v Htx Hw) as [T S0 S1 So P Ep A D]. eapply tx_replace_same; try done.
  - intros cat [->|Hc]; right; [done|by apply Hin].
  - split; cbn; try done; [| | |lia..].
    + intros cat n t [->|Hc]; apply T; right; [done|by apply Hin].
    + intros cat n t Hc. by apply S0, Hin.
    + intros n t _. by apply S0.
Qed.

End Savepoints.

(** A loop of row writes that stamp [v]. *)
Definition row_loop {A} (v : Z) (loop : Table -> Counters -> Written A) : Prop :=
  forall t c r t' c', loop t c = Some (r, t', c') -> 1 <= counter c (next_rowid t) -> table_ok c t -> row_write v c t c' t'.

Lemma get_put n t cat m : get (put_table n t cat) m = if decide (m = n) then Some t else get cat m.
Proof.
  unfold get, put_table. cbn. destruct (decide (m = n)) as [->|]; [by rewrite lookup_insert_eq|by rewrite lookup_insert_ne].
Qed.

(** One table of a catalog rewritten. *)
Lemma put_cat_ok g c c' G G' base base' cat n t t' v :
  2 <= v < g -> cat_ok g c G base cat -> get cat n = Some t -> row_write v c t c' t' -> ghost_le G G' -> known G' t' ->
  shape_kept base base' -> cat_ok g c' G' base' (put_table n t' cat).
Proof.
  intros Hv Hcat Et [Hw He Hn] HG Hk Hb.
  pose proof (cat_ok_mono g g c c' G G' base base' cat ltac:(lia) (wb_counters _ _ _ _ _ Hw) HG Hb Hcat) as [M0 M1 M2 M3 M4].
  split; intros m x; [intros Ex..|intros w Ex Hlt|intros Ex]; rewrite get_put in Ex; destruct (decide (m = n)) as [->|]; simplify_eq; eauto.
  - apply (same_redo t); [apply Hw|by eapply Hcat].
  - apply Hw.
  - apply (wb_clean _ _ _ _ _ Hw); [lia|lia|]. by eapply M3.
  - destruct (M4 n t Et) as (b & Eb & Hs). exists b. split; [done|]. etrans; [|exact Hs]. symmetry. apply Hw.
Qed.

Lemma put_cat_clean v c t c' t' w n cat :
  get cat n = Some t -> row_write v c t c' t' -> 2 <= w -> w <> v -> cat_clean w cat -> cat_clean w (put_table n t' cat).
Proof.
  intros Et [Hw _ _] H2 Hne Hcl m x Ex. rewrite get_put in Ex. destruct (decide (m = n)) as [->|]; simplify_eq; [|by eapply Hcl].
  apply (wb_clean _ _ _ _ _ Hw); [done|done|]. by eapply Hcl.
Qed.

(** ** In a transaction *)

Section Inside.
Context (G : Ghost) (ep : Z) (e : Engine) (Hok : engine_ok G ep e).
Context (tx : Z) (st : TxState) (v : Z) (Htx : tx_catalogs e !! tx = Some st) (Hw : writer_of tx e = Some v).

(** What the bookkeeping after a write leaves of the transaction's state: it
    failed, or the table is among those touched. *)
Record after_write (n : list Z) (cat : Catalog) (st' : TxState) : Prop := {
  aw_catalog : tx_catalog st' = cat;
  aw_savepoints : savepoints st' = savepoints st;
  aw_sorted : sorted (touched_tables st');
  aw_touched m : bs_mem m (touched_tables st) = true -> bs_mem m (touched_tables st') = true;
  aw_poisoned : rebase_poisoned st' = false;
  aw_epoch : rebased_at_epoch st' = rebased_at_epoch st;
  aw_dirty : shadow_dirty st' = true;
  aw_done : aborted st' = true \/ (aborted st = false /\ bs_mem n (touched_tables st') = true)
}.

Lemma untouched_before n cat st' m : after_write n cat st' -> bs_mem m (touched_tables st') = false -> bs_mem m (touched_tables st) = false.
Proof. intros Ha Hm. destruct (bs_mem m (touched_tables st)) eqn:E; [|done]. apply (aw_touched _ _ _ Ha) in E. congruence. Qed.

(** A shadow written to by its own transaction. *)
Lemma write_ok n t t' c' st' :
  get (tx_catalog st) n = Some t -> row_write v (counters e) t c' t' -> after_write n (put_table n t' (tx_catalog st)) st' ->
  exists G', engine_ok G' ep (set_txs (<[tx := st']> (tx_catalogs e)) (set_counters c' e)).
Proof.
  intros Et Hrw Haw. pose proof (eo_cats _ _ _ Hok tx st _ Htx (or_introl eq_refl)) as Hs.
  destruct (row_write_known v (counters e) t c' t' G Hrw (eo_ghost _ _ _ Hok) ltac:(by eapply Hs)) as (G' & HG & HG' & Hk).
  pose proof (writer_range G ep e Hok tx v Hw) as Hv. exists G'. destruct (eo_good _ _ _ Hok tx st v Htx Hw) as [T S0 S1 So P Ep A D].
  eapply (tx_replace G ep e Hok tx st v Htx Hw); [apply Hrw|done|done| |].
  - intros cat. unfold own_cat. rewrite (aw_catalog _ _ _ Haw), (aw_savepoints _ _ _ Haw). intros [->|Hin]; [|left; by right]. right. split.
    + eapply put_cat_ok; [exact Hv|done|done|done|done|done|reflexivity].
    + intros x w Hne Hx. eapply put_cat_clean; [done|done| | |].
      * by eapply writer_range.
      * intros ->. apply Hne. by eapply writer_inj.
      * eapply (eo_foreign _ _ _ Hok tx st); [done|by left|done|done].
  - split; try apply Haw.
    + intros cat m x. unfold own_cat. rewrite (aw_catalog _ _ _ Haw), (aw_savepoints _ _ _ Haw). intros [->|Hin]; [|apply T; by right].
      rewrite get_put. destruct (decide (m = n)) as [->|]; [intros [= <-]|apply T; by left].
      apply (rw_by _ _ _ _ _ Hrw). eapply T; [by left|done].
    + intros cat m x. rewrite (aw_savepoints _ _ _ Haw). intros Hin Ex Hm. eapply S0; [done|done|by eapply untouched_before].
    + intros m x Ha. rewrite (aw_catalog _ _ _ Haw), get_put. destruct (aw_done _ _ _ Haw) as [?|[Hab Hn]]; [congruence|].
      destruct (decide (m = n)) as [->|]; [congruence|]. intros Ex Hm. eapply S1; [done|done|by eapply untouched_before].
    + rewrite (aw_epoch _ _ _ Haw). done.
    + rewrite (aw_epoch _ _ _ Haw), (aw_catalog _ _ _ Haw). intros Hf He m b Eb. destruct (A Hf He m b Eb) as (x & Ex & Hsx & Hex).
      rewrite get_put. destruct (decide (m = n)) as [->|]; [|by exists x]. simplify_eq. exists t'. split_and!; [done|etrans; [done|apply Hrw]|].
      eapply extends_trans; [|done|apply Hrw]. unfold XMAX_ALIVE. lia.
    + rewrite (aw_dirty _ _ _ Haw). done.
Qed.

(** A table that is not there: the handle was taken, nothing else. *)
Lemma no_write_ok n st' : after_write n (tx_catalog st) st' -> engine_ok G ep (set_txs (<[tx := st']> (tx_catalogs e)) e).
Proof.
  intros Haw. destruct (eo_good _ _ _ Hok tx st v Htx Hw) as [T S0 S1 So P Ep A D]. eapply tx_replace_same; [done..| |].
  - intros cat. unfold own_cat. by rewrite (aw_catalog _ _ _ Haw), (aw_savepoints _ _ _ Haw).
  - split; try apply Haw; rewrite ?(aw_epoch _ _ _ Haw), ?(aw_catalog _ _ _ Haw), ?(aw_dirty _ _ _ Haw); try done.
    + intros cat m x. unfold own_cat. rewrite (aw_catalog _ _ _ Haw), (aw_savepoints _ _ _ Haw). apply T.
    + intros cat m x. rewrite (aw_savepoints _ _ _ Haw). intros Hin Ex Hm. eapply S0; [done|done|by eapply untouched_before].
    + intros m x Ha Ex Hm. destruct (aw_done _ _ _ Haw) as [?|[Hab _]]; [congruence|]. eapply S1; [done|done|by eapply untouched_before].
Qed.

(** The engine a write of an open transaction leaves, whatever the bookkeeping
    does next. *)
Lemma write_table_open {A} n (loop : Z -> Table -> Counters -> Written A) r e1 :
  (forall w, 2 <= w -> row_loop w (loop w)) -> write_table tx n loop e = Some (r, e1) ->
  exists cat c', e1 = set_counters c' (set_txs (<[tx := set_dirty (set_tx_catalog cat st)]> (tx_catalogs e)) e) /\
    forall st', after_write n cat st' -> exists G', engine_ok G' ep (set_txs (<[tx := st']> (tx_catalogs e)) (set_counters c' e)).
Proof.
  intros Hl. unfold write_table, writer_version_for_current_stmt. rewrite Hw. unfold active_catalog. rewrite Htx.
  unfold put_active. rewrite (is_open tx e st Htx).
  destruct (get (tx_catalog st) n) as [t|] eqn:Et.
  - destruct (loop v t (counters e)) as [[[r' t'] c']|] eqn:El; cbn [mbind option_bind]; [|done].
    assert (row_write v (counters e) t c' t') as Hrw.
    { eapply Hl; [|exact El| |]; [by eapply writer_range|apply Hok|]. eapply (eo_cats _ _ _ Hok tx st _ Htx); [by left|done]. }
    rewrite (on_tx_some tx _ e st Htx). intros H. exists (put_table n t' (tx_catalog st)), c'.
    split; [by destruct r'; injection H as <- <-|]. intros st' Haw. by eapply write_ok.
  - rewrite (on_tx_some tx _ e st Htx). intros [= <- <-]. exists (tx_catalog st), (counters e). split; [by destruct e|].
    intros st' Haw. exists G. eapply engine_irrel; [..|by eapply (no_write_ok n st')]; done.
Qed.

End Inside.

(** ** Outside one *)

Lemma next_version_ok vs : versions_ok vs -> versions_ok (next_version vs).2.
Proof. intros Hok. eapply vstep_ok; [apply (step_autocommit vs)|done]. Qed.

(** The undo of a failed statement marks its version aborted. *)
Lemma abort_unowned vs v :
  versions_ok vs -> 2 <= v < GLOBAL_VERSION vs -> (forall tx, sm_lookup tx (tx_writer_versions vs) <> Some v) ->
  versions_ok (abort_writer_version v vs).
Proof.
  intros Hok Hv Hno. assert (forall w, bs_mem w (bs_remove v (active_writer_versions vs)) = true <-> bs_mem w (active_writer_versions vs) = true) as Hmem.
  { intros w. rewrite bs_mem_remove by apply (ok_active _ Hok). split; [naive_solver|]. intros Hm. split; [|done].
    intros ->. apply (ok_owner _ Hok) in Hm as [tx Ht]. by eapply Hno. }
  destruct Hok as [C A B W K Bd Ab O D I S]. split; cbn; try done.
  - by apply bs_remove_sorted.
  - by apply bs_insert_sorted.
  - intros w. rewrite Hmem. apply Bd.
  - intros w [->|Hm]%bs_mem_insert; [done|by apply Ab|done].
  - intros w. rewrite Hmem. apply O.
  - intros tx s Hs. destruct (S tx s Hs) as (S1 & S2 & S3). split; [done|]. split; [done|]. intros w Hb Hn.
    rewrite status_InProgress. cbn. rewrite Hmem, <- status_InProgress. by apply S3.
Qed.

Section Outside.
Context (G : Ghost) (ep : Z) (e : Engine) (Hok : engine_ok G ep e).
Context (tx : Z) (Htx : tx_catalogs e !! tx = None).

(** A base changed by [v], which no transaction has, with the versions moved
    on: the next epoch. *)
Lemma base_ok G' c' vs' base' :
  counters_le (counters e) c' -> ghost_le G G' -> ghost_ok c' G' -> versions_ok vs' ->
  GLOBAL_VERSION (versions e) <= GLOBAL_VERSION vs' -> tx_writer_versions vs' = tx_writer_versions (versions e) ->
  tx_cached vs' = tx_cached (versions e) ->
  cat_ok (GLOBAL_VERSION vs') c' G' base' base' -> shape_kept (catalog e) base' ->
  (forall t w, writer_of t e = Some w -> cat_clean w base') ->
  engine_ok G' (ep + 1) (set_counters c' (set_versions vs' (set_catalog base' e))).
Proof.
  intros Hc HG HG' Hvs Hg Ew Ec Hb Hsh Hcl. eapply (engine_move G G' ep (ep + 1) e _ tx Hok); cbn; try done.
  - apply Hok.
  - intros t _. unfold writer_of. cbn. by rewrite Ew, Ec.
  - intros t w. unfold writer_of. cbn. rewrite Ew. by apply Hcl.
  - lia.
  - right. lia.
  - rewrite Htx, Ec, <- (eo_dom _ _ _ Hok), Htx. done.
  - intros w. unfold writer_of. cbn. rewrite Ew. by left.
  - intros st cat. rewrite Htx. done.
  - intros st w. rewrite Htx. done.
Qed.

(** Only row ids and versions were taken. *)
Lemma spent_ok c' vs' :
  counters_le (counters e) c' -> versions_ok vs' ->
  GLOBAL_VERSION (versions e) <= GLOBAL_VERSION vs' -> tx_writer_versions vs' = tx_writer_versions (versions e) ->
  tx_cached vs' = tx_cached (versions e) ->
  engine_ok G (ep + 1) (set_counters c' (set_versions vs' (set_catalog (catalog e) e))).
Proof.
  intros Hc Hvs Hg Ew Ec. apply base_ok; try done.
  - intros p rid x E. apply (eo_ghost _ _ _ Hok) in E. specialize (Hc p). lia.
  - eapply cat_ok_mono; [done|done|reflexivity..|apply Hok].
  - intros t w. apply (eo_base_clean _ _ _ Hok).
Qed.

Lemma unowned tx' : sm_lookup tx' (tx_writer_versions (versions e)) <> Some (GLOBAL_VERSION (versions e)).
Proof. intros E. apply (writer_range G ep e Hok) in E. lia. Qed.

(** The engine a write outside a transaction leaves: kept if it went well,
    undone if not. *)
Lemma write_table_closed {A} n (loop : Z -> Table -> Counters -> Written A) r e1 :
  stmt_writer_version e = None -> (forall w, 2 <= w -> row_loop w (loop w)) -> write_table tx n loop e = Some (r, e1) ->
  tx_catalogs e1 = tx_catalogs e /\ commit_epoch e1 = commit_epoch e /\
  exists G', let e2 := match r with Ok _ => e1 | Err _ => undo_statement (catalog e) e1 end in
    engine_ok G' (ep + 1) e2 /\ base_kept (catalog e) (catalog e2).
Proof.
  intros Hsw Hl. unfold write_table, writer_version_for_current_stmt. rewrite (closed_writer G ep e Hok tx Htx), Hsw.
  pose proof (next_version_ok _ (eo_versions _ _ _ Hok)) as Hvs. pose proof (ok_cursor _ (eo_versions _ _ _ Hok)) as Hcur.
  destruct (next_version (versions e)) as [v vs] eqn:Ev. unfold next_version in Ev. cbn [snd] in Hvs. injection Ev as <- <-.
  set (v := GLOBAL_VERSION (versions e)) in *. set (vs := mk_versions _ _ _ _ _) in *.
  assert (Hvs' : versions_ok (abort_writer_version v vs)).
  { apply abort_unowned; [done|cbn; lia|]. intros t. apply unowned. }
  unfold active_catalog. cbn [tx_catalogs set_stmt_writer set_versions]. rewrite Htx. unfold put_active.
  rewrite !(is_closed tx (set_stmt_writer (Some v) (set_versions vs e)) Htx). cbn [catalog set_stmt_writer set_versions].
  destruct (get (catalog e) n) as [t|] eqn:Et.
  2:{ intros [= <- <-]. split_and!; [done|done|]. exists G. split; [|reflexivity].
      eapply engine_irrel; [..|apply (spent_ok (counters e) (abort_writer_version v vs))]; try done. cbn. lia. }
  cbn [counters set_stmt_writer set_versions]. destruct (loop v t (counters e)) as [[[r' t'] c']|] eqn:El; cbn [mbind option_bind]; [|done].
  assert (row_write v (counters e) t c' t') as Hrw.
  { eapply Hl; [|exact El| |]; [done|apply Hok|]. by eapply (eo_base _ _ _ Hok). }
  destruct r' as [x|err]; intros [= <- <-]; (split_and!; [done|done|]).
  - destruct (row_write_known v (counters e) t c' t' G Hrw (eo_ghost _ _ _ Hok) ltac:(by eapply (eo_base _ _ _ Hok))) as (G' & HG & HG' & Hk).
    exists G'. assert (shape_kept (catalog e) (put_table n t' (catalog e))) as Hsh.
    { intros m b Eb. rewrite get_put. destruct (decide (m = n)) as [->|]; [|exists b; split; [done|reflexivity]].
      simplify_eq. exists t'. split; [done|apply Hrw]. }
    split.
    2:{ apply (aligned_kept v). intros m b Eb. cbn. rewrite get_put. destruct (decide (m = n)) as [->|].
        - simplify_eq. exists t'. split_and!; [done|apply Hrw|apply Hrw].
        - exists b. split_and!; [done|reflexivity|apply extends_refl]. }
    eapply engine_irrel; [..|apply (base_ok G' c' vs (put_table n t' (catalog e)))]; try done; [apply Hrw|cbn; lia| |].
    + eapply (put_cat_ok (GLOBAL_VERSION vs) (counters e) c' G G' (catalog e) _ (catalog e) n t t' v); try done; [cbn; lia|].
      eapply cat_ok_mono; [|reflexivity..|apply Hok]. cbn. lia.
    + intros tx' w Hw'. eapply put_cat_clean; [done|done| | |by eapply (eo_base_clean _ _ _ Hok)].
      * by eapply writer_range.
      * intros ->. by eapply unowned.
  - exists G. split; [|reflexivity]. eapply engine_irrel; [..|apply (spent_ok c' (abort_writer_version v vs))]; try done; [apply Hrw|cbn; lia].
Qed.

(** A table created outside a transaction. *)
Lemma create_table_ok n columns cat' c' :
  create_table n columns (catalog e) (counters e) = Ok (cat', c') ->
  engine_ok G (ep + 1) (set_counters c' (set_catalog cat' e)) /\ base_kept (catalog e) cat'.
Proof.
  unfold create_table. destruct (get (catalog e) n) as [|] eqn:En; [done|]. intros [= <- <-].
  set (p := fresh (dom (counters e))). set (t := mk_table _ _ _ _ _ _ _ _ _ _ _).
  assert (counter (counters e) p = 1) as Hp.
  { unfold counter. replace (counters e !! p) with (@None Z); [done|]. symmetry. apply not_elem_of_dom, is_fresh. }
  assert (counters_le (counters e) (<[p := 1]> (counters e))) as Hc by (apply counters_le_insert; lia).
  assert (Hget : forall m x, get (mk_catalog (<[n := t]> (tables (catalog e))) (bs_insert n (dirty_tables (catalog e))) (next_rel_id (catalog e) + 1)) m = Some x <->
            (m = n /\ x = t) \/ (m <> n /\ get (catalog e) m = Some x)).
  { intros m x. unfold get. cbn. destruct (decide (m = n)) as [->|]; [rewrite lookup_insert_eq|rewrite lookup_insert_ne by done]; naive_solver. }
  assert (Hclean : forall w, clean w t) by (intros w; split; [done|apply map_Forall_empty]).
  pose proof (eo_base _ _ _ Hok) as Hb. split.
  2:{ intros m b Eb. exists b. split_and!; [apply Hget; right; split; congruence|reflexivity|eauto]. }
  eapply engine_irrel; [..|apply (base_ok G (<[p := 1]> (counters e)) (versions e)
    (mk_catalog (<[n := t]> (tables (catalog e))) (bs_insert n (dirty_tables (catalog e))) (next_rel_id (catalog e) + 1)))]; try done.
  - intros q rid x E. apply (eo_ghost _ _ _ Hok) in E. specialize (Hc q). lia.
  - apply Hok.
  - split; intros m x; [intros [[-> ->]|[_ E]]%Hget..|intros w [[-> ->]|[_ E]]%Hget Hw|intros E].
    + done.
    + by eapply Hb.
    + split; try done; constructor.
    + eapply table_ok_mono; [done|by eapply Hb].
    + intros rid r h. change (heap t) with (∅ : gmap Z Cell). by rewrite lookup_empty.
    + by eapply Hb.
    + done.
    + by eapply Hb.
    + exists x. by split; [|reflexivity].
  - intros m b Eb. exists b. split; [|reflexivity]. apply Hget. right. split; [congruence|done].
  - intros t' w Hw m x [[-> ->]|[_ E]]%Hget; [done|by eapply (eo_base_clean _ _ _ Hok)].
Qed.

End Outside.
