(* ===== verification/TxVacuum.v ===== *)
(** Vacuum of a table, and of the tables of an engine with no transaction open:
    the rows marked deleted below the floor are removed, everything else stays,
    and the invariant of [TxOk] is kept. *)
From stdpp Require Import gmap.
From S2P Require Import Prelude SortedMap BigNum Values RowCodec RowAccept RowLen Mvcc Heap HeapOps WriteSet Merge MergeOk Tx TxOk TxFold TxSteps.
Open Scope Z_scope.

(** ** Dropping positions of a list *)

Section Sift.
Context (doomed : nat -> bool).

Fixpoint sift {X} (i : nat) (l : list X) : list X :=
  match l with
  | [] => []
  | x :: l => if doomed i then sift (S i) l else x :: sift (S i) l
  end.

Lemma elem_of_sift {X} (l : list X) : forall i x, x ∈ sift i l <-> exists j, l !! j = Some x /\ doomed (i + j) = false.
Proof.
  induction l as [|y l IH]; intros i x; cbn [sift].
  { split; [by intros ?%elem_of_nil|]. intros (j & E & _). by rewrite lookup_nil in E. }
  assert (x ∈ sift (S i) l <-> exists j, (y :: l) !! S j = Some x /\ doomed (i + S j) = false) as Hs.
  { rewrite IH. by setoid_rewrite Nat.add_succ_r. }
  destruct (doomed i) eqn:Ed; [rewrite Hs|rewrite elem_of_cons, Hs]; (split; [|intros ([|j] & E & D)]).
  - naive_solver.
  - rewrite Nat.add_0_r in D. congruence.
  - naive_solver.
  - intros [->|(j & E & D)]; [exists 0%nat; by rewrite Nat.add_0_r|by exists (S j)].
  - left. by injection E as ->.
  - right. by exists j.
Qed.

Lemma sift_sublist {X} (l : list X) : forall i, sift i l `sublist_of` l.
Proof. induction l as [|x l IH]; intros i; cbn [sift]; [constructor|]. destruct (doomed i); by constructor. Qed.

Lemma sift_fmap {X Y} (f : X -> Y) (l : list X) : forall i, sift i (f <$> l) = f <$> sift i l.
Proof. induction l as [|x l IH]; intros i; [done|]. cbn. destruct (doomed i); [apply IH|]. cbn. f_equal. apply IH. Qed.

Lemma length_sift {X Y} (l : list X) : forall i (l' : list Y), length l = length l' -> length (sift i l) = length (sift i l').
Proof.
  induction l as [|x l IH]; intros i [|y l'] E; try done. injection E as E. cbn [sift].
  destruct (doomed i); cbn [length]; [by apply IH|f_equal; by apply IH].
Qed.

Lemma sift_zip {X Y} (l : list X) : forall i (l' : list Y), length l = length l' -> sift i (zip l l') = zip (sift i l) (sift i l').
Proof.
  induction l as [|x l IH]; intros i [|y l'] E; try done. injection E as E. cbn [sift zip_with].
  destruct (doomed i); [by apply IH|]. cbn [zip_with]. f_equal. by apply IH.
Qed.
End Sift.

Lemma drop_cons {X} i (L : list X) x l : drop i L = x :: l -> L !! i = Some x /\ drop (S i) L = l.
Proof.
  revert i. induction L as [|y L IH]; intros [|i] E; try done; [by injection E as -> ->|]. by apply IH.
Qed.

(** ** The compaction of a table *)

Lemma dead_cons h hs : dead (h :: hs) = (if is_deleted h then 1 else 0) + dead hs.
Proof. unfold dead. rewrite filter_cons. case_decide as Hd; destruct (is_deleted h); try done; cbn [length]; lia. Qed.

Lemma compact_slots t doomed l : forall i hs ids s c,
  drop i (headers t) = hs -> drop i (rowids t) = ids -> length hs = length l -> length ids = length l ->
  exists s', fold_left (compact_slot t doomed) (zip (seq i (length l)) l) (s, c) = (s', c) /\
    new_rows s' = new_rows s ++ sift doomed i l /\ new_headers s' = new_headers s ++ sift doomed i hs /\
    new_rowids s' = new_rowids s ++ sift doomed i ids /\ surviving_dead s' = surviving_dead s + dead (sift doomed i hs).
Proof.
  induction l as [|row l IH]; intros i [|h hs] [|rid ids] s c Eh Ei Lh Li; try done.
  { exists s. cbn. rewrite !app_nil_r. unfold dead. cbn. split_and!; [done..|lia]. }
  apply drop_cons in Eh as [Eh Eh'], Ei as [Ei Ei']. injection Lh as Lh. injection Li as Li.
  cbn [length seq zip_with fold_left compact_slot sift]. destruct (doomed i).
  - exact (IH (S i) hs ids (mk_survivors (new_rows s) (new_headers s) (new_rowids s) (saturating_add (removed_bytes s) (encoded_len t row)) (surviving_dead s)) c Eh' Ei' Lh Li).
  - rewrite Eh, Ei. cbn [default]. destruct (IH (S i) hs ids
      (mk_survivors (new_rows s ++ [row]) (new_headers s ++ [h]) (new_rowids s ++ [rid]) (removed_bytes s) (surviving_dead s + if is_deleted h then 1 else 0)) c Eh' Ei' Lh Li)
      as (s' & E & H1 & H2 & H3 & H4). cbn [new_rows new_headers new_rowids surviving_dead] in *.
    exists s'. split; [exact E|]. rewrite H1, H2, H3, H4, <- !app_assoc. split_and!; [done..|].
    rewrite dead_cons. lia.
Qed.

(** A table with rows removed. *)
Record compacted (c : Counters) (t : Table) (gone : Z -> RowHeader -> Prop) (t' : Table) : Prop := {
  cp_ok : table_ok c t';
  cp_same : same_table t t';
  cp_track : tx_write_track t' = tx_write_track t;
  cp_heap rid r h : heap t' !! rid = Some (r, h) <-> heap t !! rid = Some (r, h) /\ ~ gone rid h
}.

Lemma compact_ok c t positions k t' c' :
  table_ok c t -> delete_rows_no_index positions t c = (k, t', c') ->
  c' = c /\ compacted c t (fun rid _ => exists i, rowids t !! i = Some rid /\ i ∈ positions) t'.
Proof.
  intros Hok. unfold delete_rows_no_index.
  assert (forall i, i ∈ to_remove t positions <-> i ∈ positions /\ (i < length (rows t))%nat) as Hrm.
  { intros i. unfold to_remove. rewrite list_elem_of_filter, elem_of_remove_dups. tauto. }
  destruct (to_remove t positions) as [|p ps] eqn:Ep.
  { intros [= <- <- <-]. split; [done|]. split; [done|reflexivity|done|]. intros rid r h. split; [|by intros [? _]]. intros E. split; [done|].
    intros (i & Ei & Hi). apply (elem_of_nil i). apply Hrm. split; [done|]. rewrite <- (ok_rowids _ _ Hok). by eapply lookup_lt_Some. }
  set (doomed := fun i => bool_decide (i ∈ p :: ps)) in *.
  destruct (compact_slots t doomed (rows t) 0 (headers t) (rowids t) (mk_survivors [] [] [] 0 0) c) as (s & -> & H1 & H2 & H3 & H4);
    [done|done|apply Hok|apply Hok|]. cbn [new_rows new_headers new_rowids surviving_dead app] in *. intros [= <- <- <-]. split; [done|].
  set (t1 := with_dead _ _). pose proof Hok as [Lh Li Hu Hids Hdead].
  assert (table_ok c t1) as Hok1.
  { unfold t1. split; cbn; rewrite ?H1, ?H2, ?H3, ?H4.
    - by apply length_sift.
    - by apply length_sift.
    - by eapply sublist_NoDup, sift_sublist.
    - apply Forall_forall. intros x Hx. rewrite Forall_forall in Hids. by eapply Hids, elem_of_sublist, sift_sublist.
    - lia. }
  split; [done|done|done|]. intros rid r h. unfold t1, heap. cbn. rewrite H1, H2, H3, <- !sift_zip by (rewrite ?length_zip_with; lia).
  assert (NoDup (zip (rowids t) (zip (rows t) (headers t))).*1) as Hnd by by rewrite fst_zip by (rewrite length_zip_with; lia).
  rewrite <- !elem_of_list_to_map; [|done|rewrite <- sift_fmap; by eapply sublist_NoDup, sift_sublist].
  rewrite elem_of_sift, list_elem_of_lookup. unfold doomed. split.
  - intros (j & Ej & Hj). apply bool_decide_eq_false in Hj. cbn [Nat.add] in Hj. split; [by exists j|]. intros (i & Ei & Hi).
    apply lookup_zip_Some in Ej as [Ej _]. assert (i = j) as -> by (eapply NoDup_lookup; [exact Hu|done|done]).
    apply Hj, Hrm. split; [done|]. apply lookup_lt_Some in Ei. lia.
  - intros [[j Ej] Hn]. exists j. split; [done|]. apply bool_decide_eq_false. cbn [Nat.add]. intros [Hj _]%Hrm. apply Hn. exists j.
    by apply lookup_zip_Some in Ej as [Ej _].
Qed.

Lemma vacuum_ok c t floor rep t' c' :
  table_ok c t -> vacuum floor false t c = (rep, t', c') ->
  c' = c /\ compacted c t (fun _ h => is_reclaimable (xmax h) floor = true) t'.
Proof.
  intros Hok. unfold vacuum. set (reclaimable := fun i : nat => _). set (doomed := filter _ _).
  assert (forall i, i ∈ doomed <-> exists h, headers t !! i = Some h /\ is_reclaimable (xmax h) floor = true) as Hd.
  { intros i. unfold doomed. rewrite list_elem_of_filter, elem_of_seq. unfold reclaimable. destruct (headers t !! i) as [h|] eqn:E; cbn.
    - apply lookup_lt_Some in E. split; [intros [? _]; by exists h|]. intros (h' & [= <-] & ?). split; [done|lia].
    - split; [by intros []|]. by intros (h & ? & _). }
  assert (forall rid r h, heap t !! rid = Some (r, h) -> (exists i, rowids t !! i = Some rid /\ i ∈ doomed) <-> is_reclaimable (xmax h) floor = true) as Hiff.
  { intros rid r h (i & Ei & _ & Eh)%(heap_lookup c t Hok). split.
    - intros (j & Ej & (h' & Eh' & Hr)%Hd). assert (j = i) as -> by by eapply (rowid_inj c t Hok). by simplify_eq.
    - intros Hr. exists i. split; [done|]. apply Hd. by exists h. }
  rewrite orb_false_r. destruct (bool_decide_reflect (doomed = [])) as [E|_].
  - intros [= _ <- <-]. split; [done|]. split; [done|reflexivity|done|]. intros rid r h. split; [|by intros [? _]]. intros Eh. split; [done|].
    intros Hr. apply (Hiff _ _ _ Eh) in Hr as (i & _ & Hi). rewrite E in Hi. by apply elem_of_nil in Hi.
  - destruct (delete_rows_no_index doomed t c) as [[k t1] c1] eqn:E. intros [= _ <- <-].
    destruct (compact_ok c t doomed k t1 c1 Hok E) as (-> & [Co Cs Ct Ch]). split; [done|]. split; [done..|].
    intros rid r h. rewrite Ch. split; intros [Eh Hn]; (split; [done|]); intros Hg; apply Hn, (Hiff _ _ _ Eh), Hg.
Qed.

(** ** The base with no transaction open *)

(** Rows removed from the base, all of them marked deleted. *)
Definition base_swept (base base' : Catalog) : Prop :=
  forall n b, get base n = Some b -> exists b', get base' n = Some b' /\ same_table b b' /\
    (forall rid r h, heap b' !! rid = Some (r, h) -> heap b !! rid = Some (r, h)) /\
    forall rid r h, heap b !! rid = Some (r, h) -> heap b' !! rid = Some (r, h) \/ (heap b' !! rid = None /\ xmax h <> XMAX_ALIVE).

#[export] Instance base_swept_preorder : PreOrder base_swept.
Proof.
  split.
  - intros base n b E. exists b. split_and!; [done|reflexivity|done|]. auto.
  - intros b1 b2 b3 H1 H2 n b E. destruct (H1 n b E) as (b' & E' & S' & B' & K'). destruct (H2 n b' E') as (b'' & E'' & S'' & B'' & K'').
    exists b''. split_and!; [done|by etrans|auto|]. intros rid r h El. destruct (K' _ _ _ El) as [El'|[El' Hx]].
    + by destruct (K'' _ _ _ El') as [?|[? ?]]; [left|right].
    + right. split; [|done]. destruct (heap b'' !! rid) as [[r' h']|] eqn:E3; [|done]. apply B'' in E3. congruence.
Qed.

Lemma compacted_swept c t floor t' : compacted c t (fun _ h => is_reclaimable (xmax h) floor = true) t' ->
  (forall rid r h, heap t' !! rid = Some (r, h) -> heap t !! rid = Some (r, h)) /\
  forall rid r h, heap t !! rid = Some (r, h) -> heap t' !! rid = Some (r, h) \/ (heap t' !! rid = None /\ xmax h <> XMAX_ALIVE).
Proof.
  intros [_ _ _ Ch]. split; [intros rid r h E; by apply Ch|]. intros rid r h E. destruct (is_reclaimable (xmax h) floor) eqn:Er.
  - right. split.
    + destruct (heap t' !! rid) as [[r' h']|] eqn:E'; [|done]. apply Ch in E' as [E' Hn]. congruence.
    + unfold is_reclaimable in Er. by destruct (Z.eqb_spec (xmax h) XMAX_ALIVE).
  - left. apply Ch. split; [done|]. congruence.
Qed.

Section Quiet.
Context (G : Ghost) (ep : Z) (e : Engine) (Hok : engine_ok G ep e) (Hno : tx_catalogs e = ∅).

Lemma no_writer tx : writer_of tx e = None.
Proof. eapply closed_writer; [done|]. by rewrite Hno, lookup_empty. Qed.

Lemma vacuum_table_ok tx floor n :
  engine_ok G ep (vacuum_table tx floor n e) /\ base_swept (catalog e) (catalog (vacuum_table tx floor n e)) /\
  tx_catalogs (vacuum_table tx floor n e) = ∅ /\ settings (vacuum_table tx floor n e) = settings e /\
  commit_epoch (vacuum_table tx floor n e) = commit_epoch e.
Proof.
  assert (tx_catalogs e !! tx = None) as Htx by by rewrite Hno, lookup_empty.
  unfold vacuum_table, active_catalog, put_active. rewrite Htx, (is_closed tx e Htx).
  destruct (get (catalog e) n) as [t|] eqn:Et.
  2:{ split_and!; [eapply engine_irrel; [..|exact Hok]; done|reflexivity|done..]. }
  destruct (vacuum floor false t (counters e)) as [[rep t'] c'] eqn:Ev.
  destruct (vacuum_ok _ _ _ _ _ _ (co_table _ _ _ _ _ (eo_base _ _ _ Hok) n t Et) Ev) as [-> Hcp].
  pose proof (compacted_swept _ _ _ _ Hcp) as [Hback Hkept]. destruct Hcp as [Co Cs Ct _].
  split_and!; [|intros m b Eb; cbn [catalog set_catalog set_counters]; rewrite get_put|done..].
  2:{ destruct (decide (m = n)) as [->|]; [|exists b; split_and!; [done|reflexivity|done|auto]]. simplify_eq. exists t'. by split_and!. }
  assert (forall w, clean w t -> clean w t') as Hcl.
  { intros w [Hw1 Hw2]. split; [by rewrite Ct|]. intros rid [r h] E%Hback. by apply (Hw2 rid). }
  assert (known G t -> known G t') as Hkn.
  { intros Hk rid r h E%Hback. destruct (Hk rid r h E) as [Ha Hg]. split; [by eapply accepts_same|]. by rewrite (proj2 (proj2 (proj2 Cs))). }
  pose proof (eo_base _ _ _ Hok) as [B0 B1 B2 B3 B4].
  split; cbn; try apply Hok; try done.
  - split; intros m x; [intros Ex..|intros w Ex Hw|intros Ex]; [rewrite get_put in Ex; destruct (decide (m = n)) as [->|]; simplify_eq; eauto..|by exists x].
    by eapply same_redo, B0.
  - intros tx' v Hv. pose proof (no_writer tx') as Hn. unfold writer_of in *. cbn in Hv. congruence.
  - intros tx' st cat. by rewrite Hno, lookup_empty.
  - intros tx' st v. by rewrite Hno, lookup_empty.
Qed.
End Quiet.

(** The vacuum at the end of a statement: nothing, or that of its table. *)
Lemma autovacuum_in_transaction tx n e : tx_catalogs e <> ∅ -> maybe_autovacuum tx n e = e.
Proof. intros H. unfold maybe_autovacuum, in_transaction. rewrite bool_decide_eq_false_2 by done. by rewrite orb_true_r. Qed.

Lemma maybe_autovacuum_ok G ep e tx n : engine_ok G ep e ->
  let e' := maybe_autovacuum tx n e in
  engine_ok G ep e' /\ tx_catalogs e' = tx_catalogs e /\ settings e' = settings e /\ commit_epoch e' = commit_epoch e /\
  base_swept (catalog e) (catalog e') /\ (catalog e' = catalog e \/ (tx_catalogs e = ∅ /\ autovacuum (settings e) = true)).
Proof.
  intros Hok e'. subst e'. unfold maybe_autovacuum.
  destruct (negb (autovacuum (settings e)) || _ || _ || in_transaction e) eqn:Eg; [split_and!; by (reflexivity || auto)|].
  apply orb_false_iff in Eg as [Eg Ei%negb_false_iff%bool_decide_eq_true]. apply orb_false_iff in Eg as [Eg _]. apply orb_false_iff in Eg as [Ea%negb_false_iff _].
  destruct (get (active_catalog tx e) n) as [t|]; [|split_and!; by (reflexivity || auto)]. destruct (vacuum_due t); [|split_and!; by (reflexivity || auto)].
  destruct (vacuum_table_ok G ep e Hok Ei tx (vacuum_oldest_active (versions e)) n) as (H1 & H2 & H3 & H4 & H5).
  split_and!; [done|congruence|done|done|done|auto].
Qed.

(** When it is due, and no transaction is open, it removes the rows deleted
    below the floor and no others. *)
Lemma autovacuum_fires G ep e tx n t :
  engine_ok G ep e -> tx_catalogs e = ∅ -> autovacuum (settings e) = true -> autovacuum_inline (settings e) = true ->
  get (catalog e) n = Some t -> vacuum_due t = true ->
  exists t', get (catalog (maybe_autovacuum tx n e)) n = Some t' /\ forall rid r h,
    heap t' !! rid = Some (r, h) <-> heap t !! rid = Some (r, h) /\ is_reclaimable (xmax h) (vacuum_oldest_active (versions e)) = false.
Proof.
  intros Hok Hno Ha Hi Et Hd. unfold maybe_autovacuum, in_transaction, active_catalog. rewrite Ha, Hi, (gate_inplace _ _ _ Hok), Hno, lookup_empty, Et, Hd.
  rewrite bool_decide_eq_true_2 by done. cbn [negb orb]. unfold vacuum_table, active_catalog, put_active.
  assert (tx_catalogs e !! tx = None) as Htx by by rewrite Hno, lookup_empty. rewrite Htx, (is_closed tx e Htx), Et.
  destruct (vacuum _ false t (counters e)) as [[rep t'] c'] eqn:Ev.
  destruct (vacuum_ok _ _ _ _ _ _ (co_table _ _ _ _ _ (eo_base _ _ _ Hok) n t Et) Ev) as [_ Hcp]. exists t'.
  cbn [catalog set_catalog set_counters]. rewrite get_put, decide_True by done. split; [done|]. intros rid r h.
  rewrite (cp_heap _ _ _ _ Hcp). by destruct (is_reclaimable _ _); naive_solver.
Qed.

Lemma autovacuum_tick_ok G ep e : engine_ok G ep e ->
  let e' := autovacuum_tick e in
  engine_ok G ep e' /\ commit_epoch e' = commit_epoch e /\
  base_swept (catalog e) (catalog e') /\ (catalog e' = catalog e \/ (tx_catalogs e = ∅ /\ autovacuum (settings e) = true)).
Proof.
  intros Hok e'. subst e'. unfold autovacuum_tick.
  destruct (negb (autovacuum (settings e)) || _ || in_transaction e) eqn:Eg; [split_and!; by (reflexivity || auto)|].
  apply orb_false_iff in Eg as [Eg Ei%negb_false_iff%bool_decide_eq_true]. apply orb_false_iff in Eg as [Ea%negb_false_iff _].
  set (candidates := filter _ _). clearbody candidates. set (floor := vacuum_oldest_active (versions e)). clearbody floor.
  assert (forall e1, engine_ok G ep e1 -> tx_catalogs e1 = ∅ ->
    let e2 := fold_left (fun e n => vacuum_table (-1) floor n e) candidates e1 in
    engine_ok G ep e2 /\ commit_epoch e2 = commit_epoch e1 /\ base_swept (catalog e1) (catalog e2)) as Hfold.
  { induction candidates as [|n ns IH]; intros e1 Hok1 Hno1; cbn [fold_left]; [split_and!; by reflexivity || done|].
    destruct (vacuum_table_ok G ep e1 Hok1 Hno1 (-1) floor n) as (H1 & H2 & H3 & H4 & H5).
    destruct (IH _ H1 H3) as (I1 & I2 & I3). split_and!; [done|congruence|by etrans]. }
  destruct (Hfold e Hok Ei) as (H1 & H2 & H3). split_and!; auto.
Qed.

(** ** Which rows a statement marks deleted *)

(** The rows the statement names, among those of the table as it stands. *)
Definition names_rows (positions : list nat) (t : Table) (rid : Z) : Prop := Exists (fun pos => rowids t !! pos = Some rid) positions.

Lemma mark_rowids pos v t t' : mark_row_deleted pos v t = Ok t' -> rowids t' = rowids t.
Proof.
  unfold mark_row_deleted, tombstone, record_redo. destruct (headers t !! pos) as [h|]; [|done].
  destruct (negb (xmax h =? XMAX_ALIVE)); [by intros [= <-]|]. destruct (negb (v =? 0) && negb (v =? XMAX_ALIVE)); cbn; destruct (redo_log t); by intros [= <-].
Qed.

Lemma insert_rowids row v t c t' c' : insert_with_xmin_keyed row v t c = Some (Ok (t', c')) -> 2 <= v ->
  rowids t' = rowids t ++ [counter c (next_rowid t)].
Proof.
  intros H Hv. unfold insert_with_xmin_keyed, XMIN_FROZEN in H. rewrite (proj2 (Z.eqb_neq v 1)) in H by lia.
  destruct (insert_keyed row t c) as [[[t1 c1]|]|] eqn:E; cbn [obind] in H; try done.
  apply insert_keyed_inv in E as (_ & [_ _ Hi _ _] & _). rewrite (proj2 (Z.eqb_neq v 0)) in H by lia. by injection H as <- <-.
Qed.

Lemma update_marks v changes : 2 <= v -> forall t c pairs r t' c',
  update_rows true changes v t c pairs = Some (r, t', c') -> 1 <= counter c (next_rowid t) -> table_ok c t ->
  forall rid x h, heap t !! rid = Some (x, h) -> ~ names_rows changes.*1 t rid -> heap t' !! rid = Some (x, h).
Proof.
  intros Hv. induction changes as [|[pos row] changes IH]; intros t c pairs r t' c' H Hc Hok rid x h Eh Hn; cbn [update_rows] in H.
  { by injection H as <- <- <-. }
  set (t0 := match mark_row_deleted pos v t with Ok t => t | Err _ => t end) in *.
  assert (row_write v c t c t0 /\ rowids t0 = rowids t /\ heap t0 !! rid = Some (x, h)) as (H0 & Hi0 & Eh0).
  { unfold t0. destruct (mark_row_deleted pos v t) as [t0'|] eqn:E; [|by split_and!; [apply row_write_refl|..]].
    split; [by eapply mark_row_write|]. split; [by eapply mark_rowids|]. destruct (mark_row_deleted_ok v c t pos t0' E Hok Hv) as (_ & rid' & Ei & ->).
    unfold tomb. destruct (heap t !! rid') as [[r1 h1]|] eqn:E1; [|done]. destruct (xmax h1 =? XMAX_ALIVE); [|done].
    rewrite lookup_insert_ne; [done|]. intros ->. by apply Hn, Exists_cons_hd. }
  pose proof (place_counter v _ _ _ _ H0 Hc) as Hc0. pose proof (wb_ok _ _ _ _ _ (rw_by _ _ _ _ _ H0)) as Hok0.
  destruct (insert_with_xmin_keyed row v t0 c) as [[[t1 c1]|err]|] eqn:E; cbn [mbind option_bind] in H; [|by injection H as <- <- <-|done].
  pose proof (insert_row_write row v t0 c t1 c1 E Hv Hc0 Hok0) as H1. pose proof (insert_rowids row v t0 c t1 c1 E Hv) as Hi1.
  destruct (insert_with_xmin_ok row v t0 c t1 c1 E Hv Hc0 Hok0) as (_ & _ & Hfresh & Hh1 & _).
  assert (counter c (next_rowid t0) <> rid) as Hne by congruence.
  eapply IH; [exact H|by eapply (place_counter v)|apply H1|by rewrite Hh1, lookup_insert_ne|].
  intros (p & Hp & Ei)%Exists_exists. apply Hn, Exists_exists. exists p. split; [by right|]. rewrite Hi1 in Ei.
  apply lookup_app_Some in Ei as [Ei|[_ Ei]]; [by rewrite <- Hi0|]. destruct (p - length (rowids t0))%nat; cbn in Ei; by simplify_eq.
Qed.

Lemma delete_marks v positions t c r t' c' : 2 <= v ->
  delete_positions true positions v t c = Some (r, t', c') -> table_ok c t ->
  forall rid x h, heap t !! rid = Some (x, h) -> ~ names_rows positions t rid -> heap t' !! rid = Some (x, h).
Proof.
  intros Hv. unfold delete_positions. destruct (mark_rows_deleted positions v t) as [k t1] eqn:E. intros [= <- <- <-] Hok rid x h Eh Hn.
  destruct (mark_rows_deleted_ok v c t positions k t1 E Hok Hv) as [_ ->]. rewrite tombs_lookup by (unfold XMAX_ALIVE; lia). rewrite Eh. cbn.
  rewrite bool_decide_eq_false_2; [done|]. intros (pos & Hp & Ei)%list_elem_of_omap. apply Hn, Exists_exists. by exists pos.
Qed.
