(* ===== verification/TxCommit.v ===== *)
(** COMMIT under the invariant of [TxOk]: the rebase, the merge and the
    install, and what each does to the base. *)
From stdpp Require Import gmap.
From S2P Require Import Prelude SortedMap BigNum Values RowCodec RowAccept RowLen Mvcc Heap HeapOps WriteSet Merge MergeOk Tx TxOk TxFold TxSteps.
Open Scope Z_scope.

(** ** No fold of a rebase finds a table missing *)

Section Missing.
Context `{HC : Constraints}.

Lemma land_keeps n own ws v t fresh c r c' :
  land n own ws v t fresh c = Some (r, c') ->
  (forall m, r <> Err (Dropped m)) /\ forall fresh' m, r = Ok fresh' -> is_Some (get fresh m) -> is_Some (get fresh' m).
Proof.
  unfold land. destruct (replay_tx_writeset _ _ _ _) as [[[left t1] c1]|]; cbn [mbind option_bind]; [|done].
  destruct (check_inserts _ _ _); [|by intros [= <- <-]]. destruct (row_keys _ _ _); [|by intros [= <- <-]].
  destruct (replay_tx_writeset_keyed _ _ _ _) as [[[left2 t2] c2]|]; cbn [mbind option_bind]; [|done].
  intros [= <- <-]. split; [done|]. intros fresh' m [= <-] Hm. rewrite !get_put. by destruct (decide (m = n)).
Qed.

Lemma rebase_never_missing v pairs wsets : forall fresh c r c',
  (forall n ws, (n, ws) ∈ wsets -> is_Some (get fresh n)) ->
  fold_tables (rebase_table v pairs) wsets fresh c = Some (r, c') -> forall m, r <> Err (Dropped m).
Proof.
  induction wsets as [|[n ws] wsets IH]; intros fresh c r c' Hin; cbn [fold_tables]; [by intros [= <- <-]|].
  destruct (Hin n ws) as [t Et]; [left|]. unfold rebase_table. rewrite Et.
  destruct (land _ _ _ _ _ _ _) as [[r1 c1]|] eqn:El; cbn [mbind option_bind]; [|done]. destruct (land_keeps _ _ _ _ _ _ _ _ _ El) as [Hd Hk].
  destruct r1 as [fresh1|s]; [|intros [= <- <-]; done]. apply IH. intros m ws' Hm. eapply Hk; [done|]. eapply Hin. by right.
Qed.

End Missing.

(** ** The parts of COMMIT *)

Section Commit.
Context `{HC : Constraints}.
Context (G : Ghost) (e : Engine) (Hok : engine_ok G (commit_epoch e) e).
Context (tx : Z) (st : TxState) (v : Z) (Htx : tx_catalogs e !! tx = Some st) (Hw : writer_of tx e = Some v).

(** [e'] is [e] with another shadow for [tx] and row ids taken. *)
Record reshadowed (cat : Catalog) (k : Z) (e' : Engine) : Prop := {
  rs_catalog : catalog e' = catalog e;
  rs_versions : versions e' = versions e;
  rs_txs : tx_catalogs e' = <[tx := set_epoch k (set_tx_catalog cat st)]> (tx_catalogs e);
  rs_epoch : commit_epoch e' = commit_epoch e;
  rs_gate : settings e' = settings e;
  rs_ok : engine_ok G (commit_epoch e) e'
}.

Lemma same_shadow : set_epoch (rebased_at_epoch st) (set_tx_catalog (tx_catalog st) st) = st.
Proof. by destruct st. Qed.

Lemma reshadowed_refl : reshadowed (tx_catalog st) (rebased_at_epoch st) e.
Proof. split; try done. by rewrite same_shadow, insert_id. Qed.

Lemma spend_ok c' : counters_le (counters e) c' -> engine_ok G (commit_epoch e) (set_counters c' e).
Proof.
  intros Hc. eapply engine_irrel; [..|eapply (tx_replace G (commit_epoch e) e Hok tx st v Htx Hw G c' st)]; try done.
  - cbn. by rewrite insert_id.
  - intros p rid x E. apply (eo_ghost _ _ _ Hok) in E. specialize (Hc p). lia.
  - intros cat Ho. by left.
  - by apply Hok.
Qed.

(** The rebase: a no-op on a frozen view; otherwise, if it goes through, the
    shadow is the base with the transaction's own writes. *)
Lemma rebase_ok :
  exists r e1, maybe_rc_rebase tx e = Some (r, e1) /\ (frozen_view tx e = true -> r = Ok () /\ e1 = e) /\
    match r with
    | Ok _ => exists cat k, reshadowed cat k e1 /\ (frozen_view tx e = false -> aligned v (catalog e) cat)
    | Err _ => exists c', counters_le (counters e) c' /\ e1 = set_counters c' e
    end.
Proof.
  pose proof (eo_good _ _ _ Hok tx st v Htx Hw) as Hg. unfold maybe_rc_rebase. rewrite (gate_inplace _ _ _ Hok), Htx. cbn [negb].
  destruct (frozen_view tx e) eqn:Ef; cbn [orb].
  { exists (Ok ()), e. split_and!; [done|done|]. exists (tx_catalog st), (rebased_at_epoch st). split; [apply reshadowed_refl|done]. }
  rewrite (tg_poisoned _ _ _ _ _ Hg). destruct (Z.eqb_spec (rebased_at_epoch st) (commit_epoch e)) as [Ee|_].
  { exists (Ok ()), e. split_and!; [done|done|]. exists (tx_catalog st), (rebased_at_epoch st). split; [apply reshadowed_refl|].
    intros _. by apply (tg_aligned _ _ _ _ _ Hg). }
  rewrite Hw. destruct (rebase_fold G _ e Hok tx st v Htx Hw) as (r & c' & E & Hc & Hr). unfold wsets in E. rewrite E. cbn [mbind option_bind].
  destruct r as [fresh|s].
  - specialize (Hr fresh eq_refl). apply (rebuilt_own_dirty _ _ _ _ _ _ (dirty_tables (tx_catalog st))) in Hr. eexists _, _. split_and!; [done|done|].
    exists (with_own_dirty (dirty_tables (tx_catalog st)) fresh), (commit_epoch e). split; [|intros _; apply Hr].
    assert (tx_catalogs (set_counters c' e) !! tx = Some st) as E' by done. rewrite (on_tx_some tx _ _ st E').
    split; try done. eapply engine_irrel; [..|eapply (adopt G (commit_epoch e) e Hok tx st v Htx Hw c' _ (commit_epoch e) Hc Hr)]; try done.
  - assert (forall m, s <> Dropped m) as Hd.
    { intros m ->. eapply (rebase_never_missing v (update_pairs st) _ (catalog e) (counters e)); [|exact E|done].
      intros n ws Hin. destruct (wset_table G _ e Hok tx st v Htx Hw n ws Hin) as (s & b & _ & Eb & _). by exists b. }
    destruct s; [by destruct (Hd table)|..]; (eexists _, _; split_and!; [done|done|by exists c']).
Qed.

(** The merge of a frozen view. *)
Lemma merge_ok :
  aborted st = false ->
  exists r e1, commit_merge tx e = Some (r, e1) /\
    match r with
    | Ok _ =>
      (e1 = e /\ (frozen_view tx e = false \/ touched_tables st = [])) \/
      exists cat, reshadowed cat (rebased_at_epoch st) e1 /\ aligned v (catalog e) cat /\ unconflicted e st v /\ merged e st v cat
    | Err err => exists c', counters_le (counters e) c' /\
      (e1 = discard tx (set_counters c' e) \/ (e1 = set_counters c' e /\ exists d, err = Eval d))
    end.
Proof.
  intros Hab. pose proof (eo_good _ _ _ Hok tx st v Htx Hw) as Hg. unfold commit_merge, versioned. rewrite Htx. cbn [mbind option_bind].
  rewrite (gate_inplace _ _ _ Hok), (tg_poisoned _ _ _ _ _ Hg). cbn [negb andb].
  case_bool_decide as Et; cbn [negb].
  { eexists _, _. split; [done|]. left. split; [done|]. right. by destruct (touched_tables st). }
  rewrite Hw. cbn [mbind option_bind]. destruct (frozen_view tx e) eqn:Ef.
  2:{ eexists _, _. split; [done|]. left. auto. }
  destruct (merge_fold G _ e Hok tx st v Htx Hw) as (r & c' & E & Hc & Hr). unfold wsets in E. rewrite E. cbn [mbind option_bind].
  destruct r as [fresh|s].
  - destruct (Hr fresh eq_refl) as [Hrb Hf]. destruct (merge_fold_merged G _ e Hok tx st v Htx Hw c' fresh Hab Hf) as [Hu Hm].
    apply (rebuilt_own_dirty _ _ _ _ _ _ (dirty_tables (tx_catalog st))) in Hrb. eexists _, _. split; [done|]. right.
    exists (with_own_dirty (dirty_tables (tx_catalog st)) fresh). split_and!; [|apply Hrb|done|].
    + assert (tx_catalogs (set_counters c' e) !! tx = Some st) as E' by done. rewrite (on_tx_some tx _ _ st E').
      split; try done. eapply engine_irrel; [..|eapply (adopt G (commit_epoch e) e Hok tx st v Htx Hw c' _ (rebased_at_epoch st) Hc Hrb)]; try done.
      apply (tg_epoch _ _ _ _ _ Hg).
    + intros n s b Es Eb. destruct (Hm n s b Es Eb) as (t & ? & ?). exists t. by rewrite own_dirty_get.
  - destruct s; (eexists _, _; split; [done|]; exists c'; split; [done|]; (by left) || (right; by eauto)).
Qed.

End Commit.

(** *** The install *)

Lemma install_ok `{HC : Constraints} G e tx st v :
  engine_ok G (commit_epoch e) e -> tx_catalogs e !! tx = Some st -> writer_of tx e = Some v ->
  shadow_dirty st = false \/ aligned v (catalog e) (tx_catalog st) ->
  exists e', commit_install tx e = Some (Ok (), e') /\ commit_epoch e' = commit_epoch e /\ tx_catalogs e' = delete tx (tx_catalogs e) /\
    engine_ok G (commit_epoch e + 1) e' /\
    catalog e' = (if shadow_dirty st then tx_catalog st else catalog e).
Proof.
  intros Hok Htx Hw Hal. pose proof (eo_good _ _ _ Hok tx st v Htx Hw) as Hg. unfold commit_install. rewrite Htx.
  cbn [mvcc_inplace set_txs]. rewrite (tg_poisoned _ _ _ _ _ Hg), andb_false_r. eexists. split; [done|].
  destruct (shadow_dirty st); cbn; (split_and!; [done|done| |done]).
  - destruct Hal as [|Hal]; [done|]. eapply (close_ok G (commit_epoch e) (commit_epoch e + 1) e _ tx st v); try done; [by left|].
    right. split_and!; [done|done|lia].
  - apply engine_epoch. eapply (close_ok G (commit_epoch e) (commit_epoch e) e _ tx st v); try done; by left.
Qed.

(** ** COMMIT *)

Section Whole.
Context `{HC : Constraints}.

(** A frozen view that wrote must have written into a table it recorded. *)
Definition writes_recorded (tx : Z) (e : Engine) : Prop :=
  forall st, tx_catalogs e !! tx = Some st -> aborted st = false -> frozen_view tx e = true -> shadow_dirty st = true ->
    touched_tables st <> [].

(** The transaction is over and the base is as it was. *)
Definition ended (G : Ghost) (e : Engine) (tx : Z) (e' : Engine) : Prop :=
  catalog e' = catalog e /\ commit_epoch e' = commit_epoch e /\ tx_catalogs e' = delete tx (tx_catalogs e) /\
  engine_ok G (commit_epoch e) e'.

(** What an unsuccessful COMMIT leaves: the transaction ended, unless the key
    of an index failed to compute. *)
Definition commit_failed (G : Ghost) (e : Engine) (tx : Z) (err : EngineError) (e' : Engine) : Prop :=
  ended G e tx e' \/
  ((exists d, err = Eval d) /\ catalog e' = catalog e /\ commit_epoch e' = commit_epoch e /\ engine_ok G (commit_epoch e) e' /\
   is_Some (tx_catalogs e' !! tx)).

Definition committed (G : Ghost) (e : Engine) (tx v : Z) (e' : Engine) : Prop :=
  commit_epoch e' = commit_epoch e /\ tx_catalogs e' = delete tx (tx_catalogs e) /\ engine_ok G (commit_epoch e + 1) e' /\
  aligned v (catalog e) (catalog e').

Lemma aligned_refl v base : aligned v base base.
Proof. intros n b E. exists b. split_and!; [done|reflexivity|apply extends_refl]. Qed.

Lemma discard_ended G e tx st :
  engine_ok G (commit_epoch e) e -> tx_catalogs e !! tx = Some st -> ended G e tx (discard tx e).
Proof. intros Hok Htx. split_and!; [done|done|done|by eapply discard_ok]. Qed.

Lemma ended_reshadowed G e e1 tx st cat k e' : reshadowed G e tx st cat k e1 -> ended G e1 tx e' -> ended G e tx e'.
Proof.
  intros [A B C D E F] (H1 & H2 & H3 & H4). split_and!; [congruence|congruence| |by rewrite <- D].
  rewrite H3, C. apply delete_insert_eq.
Qed.

Lemma committed_reshadowed G e e1 tx st cat k v e' : reshadowed G e tx st cat k e1 -> committed G e1 tx v e' -> committed G e tx v e'.
Proof.
  intros [A B C D E F] (H1 & H2 & H3 & H4). split_and!; [congruence| |by rewrite <- D|by rewrite <- A].
  rewrite H2, C. apply delete_insert_eq.
Qed.

Lemma reshadowed_at G e tx st cat k e1 : reshadowed G e tx st cat k e1 -> tx_catalogs e1 !! tx = Some (set_epoch k (set_tx_catalog cat st)).
Proof. intros [_ _ -> _ _ _]. apply lookup_insert_eq. Qed.

(** The last two parts, from an engine whose shadow may be installed. *)
Lemma finish_ok G e tx st v :
  engine_ok G (commit_epoch e) e -> tx_catalogs e !! tx = Some st -> writer_of tx e = Some v ->
  shadow_dirty st = false \/ aligned v (catalog e) (tx_catalog st) ->
  exists r e', andthen (commit_foreign_keys tx e) (fun _ e => commit_install tx e) = Some (r, e') /\
    match r with
    | Ok _ => committed G e tx v e' /\ catalog e' = (if shadow_dirty st then tx_catalog st else catalog e)
    | Err _ => ended G e tx e'
    end.
Proof.
  intros Hok Htx Hw Hal. destruct (install_ok G e tx st v Hok Htx Hw Hal) as (e' & E & Ee & Et & Ho & Ec).
  assert (committed G e tx v e' /\ catalog e' = (if shadow_dirty st then tx_catalog st else catalog e)) as Hdone.
  { split; [|done]. split_and!; [done|done|done|]. rewrite Ec. destruct (shadow_dirty st); [by destruct Hal|apply aligned_refl]. }
  unfold commit_foreign_keys. destruct (versioned tx e st) as [w|] eqn:Ev; rewrite Htx; cbn [mbind option_bind]; rewrite Ev; cbn [mbind option_bind].
  2:{ cbn [andthen ok]. exists (Ok ()), e'. by rewrite E. }
  destruct (each_table _ _); cbn [andthen ok fails]; [exists (Ok ()), e'; by rewrite E|].
  eexists _, _. split; [done|]. by eapply discard_ended.
Qed.

(** A transaction that wrote nothing has nothing to merge. *)
Lemma untouched_merged G e tx st v :
  engine_ok G (commit_epoch e) e -> tx_catalogs e !! tx = Some st -> writer_of tx e = Some v -> aborted st = false ->
  touched_tables st = [] -> unconflicted e st v /\ merged e st v (catalog e).
Proof.
  intros Hok Htx Hw Hab Et. pose proof (eo_good _ _ _ Hok tx st v Htx Hw) as Hg.
  assert (Hcl : forall n s, get (tx_catalog st) n = Some s -> clean v s).
  { intros n s Es. eapply (tg_shadow _ _ _ _ _ Hg); [done|done|]. by rewrite Et. }
  split.
  - intros n s b rid Es _ (r & h & E & Hx & _). destruct (clean_xmax v s rid r h (Hcl n s Es) E). done.
  - intros n s b Es Eb. exists b. split; [done|]. apply map_eq. intros rid. rewrite three_way_lookup. unfold merge_cell.
    destruct (heap s !! rid) as [[r h]|] eqn:E; [|done]. destruct (clean_xmax v s rid r h (Hcl n s Es) E) as [? ?].
    by rewrite !(proj2 (Z.eqb_neq _ _)) by done.
Qed.

(** After the rebase: the merge and the rest. *)
Lemma merge_finish_ok G e tx st v :
  engine_ok G (commit_epoch e) e -> tx_catalogs e !! tx = Some st -> writer_of tx e = Some v -> aborted st = false ->
  (frozen_view tx e = true -> shadow_dirty st = true -> touched_tables st <> []) ->
  (frozen_view tx e = false -> aligned v (catalog e) (tx_catalog st)) ->
  exists r e', andthen (commit_merge tx e) (fun _ e => andthen (commit_foreign_keys tx e) (fun _ e => commit_install tx e)) = Some (r, e') /\
    match r with
    | Ok _ => committed G e tx v e' /\ (frozen_view tx e = true -> unconflicted e st v /\ merged e st v (catalog e'))
    | Err err => commit_failed G e tx err e'
    end.
Proof.
  intros Hok Htx Hw Hab Hrec Hal. destruct (merge_ok G e Hok tx st v Htx Hw Hab) as (r & e1 & E & Hr). rewrite E.
  destruct r as [[]|err]; cbn [andthen].
  - destruct Hr as [[-> Hor]|(cat & Hrs & Ha & Hu & Hm)].
    + destruct (finish_ok G e tx st v Hok Htx Hw) as (r & e' & E' & Hr').
      { destruct (frozen_view tx e); [|by right; apply Hal]. destruct Hor as [?|Ht]; [done|]. left.
        destruct (shadow_dirty st); [|done]. by destruct Hrec. }
      exists r, e'. split; [done|]. destruct r as [[]|err]; [|by left]. destruct Hr' as [Hc Ec]. split; [done|]. intros Hf.
      destruct Hor as [?|Ht]; [congruence|]. destruct (shadow_dirty st); [by destruct Hrec|]. rewrite Ec.
      by eapply untouched_merged.
    + pose proof (reshadowed_at _ _ _ _ _ _ _ Hrs) as Htx1. pose proof Hrs as [Ec Ev Et Ee _ Ho].
      destruct (finish_ok G e1 tx (set_epoch (rebased_at_epoch st) (set_tx_catalog cat st)) v) as (r & e' & E' & Hr').
      { by rewrite Ee. } { done. } { unfold writer_of. by rewrite Ev. } { right. by rewrite Ec. }
      exists r, e'. split; [done|]. destruct r as [[]|err]; [|left; by eapply ended_reshadowed].
      destruct Hr' as [Hc Ec']. split; [by eapply committed_reshadowed|]. intros Hf. split; [done|]. rewrite Ec'. cbn.
      destruct (shadow_dirty st) eqn:Ed; [done|]. pose proof (tg_dirty _ _ _ _ _ (eo_good _ _ _ Hok tx st v Htx Hw) Ed) as Ht. rewrite Ec.
      by eapply untouched_merged.
  - eexists _, _. split; [done|]. destruct Hr as (c' & Hc & Hd). pose proof (spend_ok G e Hok tx st v Htx Hw c' Hc) as Hok'. destruct Hd as [->|[-> [d ->]]].
    + left. change (ended G (set_counters c' e) tx (discard tx (set_counters c' e))). by eapply discard_ended.
    + right. split_and!; [by exists d|done|done|done|]. cbn. by rewrite Htx.
Qed.

(** COMMIT of a transaction that has not failed. *)
Lemma commit_ok G e tx st v :
  engine_ok G (commit_epoch e) e -> tx_catalogs e !! tx = Some st -> writer_of tx e = Some v -> aborted st = false ->
  writes_recorded tx e ->
  exists r e', exec_commit tx e = Some (r, e') /\
    match r with
    | Ok _ => committed G e tx v e' /\ (frozen_view tx e = true -> unconflicted e st v /\ merged e st v (catalog e'))
    | Err err => commit_failed G e tx err e'
    end.
Proof.
  intros Hok Htx Hw Hab Hrec. unfold exec_commit, commit_deferred. rewrite Htx.
  destruct (deferred_checks _ _ _); cbn [andthen ok fails]; [|eexists _, _; split; [done|]; left; by eapply discard_ended].
  unfold commit_rebase. destruct (rebase_ok G e Hok tx st v Htx Hw) as (r & e1 & -> & Hfr & Hr). cbn [mbind option_bind].
  destruct r as [[]|err]; cbn [andthen ok fails].
  2:{ destruct Hr as (c' & Hc & ->). eexists _, _. split; [done|]. left.
      change (ended G (set_counters c' e) tx (discard tx (set_counters c' e))). pose proof (spend_ok G e Hok tx st v Htx Hw c' Hc) as Hok'. by eapply discard_ended. }
  destruct Hr as (cat & k & Hrs & Hal). pose proof (reshadowed_at _ _ _ _ _ _ _ Hrs) as Htx1. pose proof Hrs as [Ec Ev Et Ee _ Ho].
  assert (frozen_view tx e1 = frozen_view tx e) as Ef by (unfold frozen_view, cached_snapshot; by rewrite Ev).
  unfold commit_serializable. destruct (serializable_read_conflict tx e1); cbn [andthen ok fails].
  { eexists _, _. split; [done|]. left. eapply ended_reshadowed; [done|]. eapply discard_ended; [by rewrite Ee|done]. }
  destruct (merge_finish_ok G e1 tx (set_epoch k (set_tx_catalog cat st)) v) as (r & e' & E' & Hr').
  { by rewrite Ee. } { done. } { unfold writer_of. by rewrite Ev. } { done. }
  { rewrite Ef. cbn. by apply Hrec. } { rewrite Ef, Ec. apply Hal. }
  exists r, e'. split; [done|]. destruct (frozen_view tx e) eqn:Efr.
  - destruct (Hfr eq_refl) as [_ ->]. assert (set_epoch k (set_tx_catalog cat st) = st) as Est by congruence. rewrite Est in Hr'.
    destruct r as [[]|err]; [|done]. destruct Hr' as [Hc Hm]. split; [done|]. intros _. by apply Hm.
  - destruct r as [[]|err].
    + destruct Hr' as [Hc _]. split; [by eapply committed_reshadowed|done].
    + destruct Hr' as [Hend|(Hd & H1 & H2 & H3 & H4)]; [left; by eapply ended_reshadowed|].
      right. split_and!; [done|by rewrite H1|by rewrite H2|by rewrite <- Ee|done].
Qed.

End Whole.
