(* ===== verification/Transactions.v ===== *)
(** What transactions promise: in any interleaving of the row statements of any
    number of connections, with vacuum between them and at their ends, a
    committed row is lost only to a vacuum that finds it deleted, a transaction
    that fails leaves no trace, and COMMIT of a frozen view is the three-way
    merge of what it saw, what it wrote and what is committed. *)
From stdpp Require Import gmap.
From S2P Require Import Prelude SortedMap Bytes BigNum Values RowCodec RowAccept RowLen Mvcc Heap HeapOps WriteSet Merge MergeOk Tx TxOk TxFold TxSteps TxVacuum TxCommit.
Open Scope Z_scope.

Section Engine.
Context `{HC : Constraints}.

(** ** The histories *)

(** Statements on rows; tables are created outside a transaction and not
    dropped, and a COMMIT of a frozen view finds what it wrote recorded. *)
Definition ordinary (tx : Z) (stmt : Statement) (e : Engine) : Prop :=
  match stmt with
  | DropTable _ => False
  | CreateTable _ _ => is_tx_open tx e = false
  | Commit => writes_recorded tx e
  | _ => True
  end.

(** A statement of a connection, a pass of the vacuum worker, and the switches
    of autovacuum set by whoever runs the engine. *)
Inductive tx_event : Type :=
| Runs (tx : Z) (stmt : Statement)
| Ticks
| Switches (autovacuum inline : bool).

Inductive event_step : tx_event -> Engine -> Engine -> Prop :=
| step_runs tx stmt r e e' : ordinary tx stmt e -> execute_in tx stmt e = Some (r, e') -> event_step (Runs tx stmt) e e'
| step_ticks e : event_step Ticks e (autovacuum_tick e)
| step_switches on inline e : event_step (Switches on inline) e (set_autovacuum_inline inline (set_autovacuum on e)).

Definition tx_step (e e' : Engine) : Prop := exists ev, event_step ev e e'.

(** The rows an UPDATE or DELETE of table [n] names. *)
Definition named (ev : tx_event) (n : list Z) (b : Table) (rid : Z) : Prop :=
  match ev with
  | Runs _ (Update n' changes) => n' = n /\ names_rows changes.*1 b rid
  | Runs _ (Delete n' positions) => n' = n /\ names_rows positions b rid
  | _ => False
  end.

#[export] Instance named_dec ev n b rid : Decision (named ev n b rid).
Proof. destruct ev as [tx []| |]; cbn; try apply _; unfold names_rows; apply _. Defined.

(** When the engine vacuums, and what it may remove. *)
Definition vacuums (e : Engine) : Prop := tx_catalogs e = ∅ /\ autovacuum (settings e) = true.
Definition removable (ev : tx_event) (e : Engine) (n : list Z) (b : Table) (rid : Z) (h : RowHeader) : Prop :=
  vacuums e /\ (xmax h <> XMAX_ALIVE \/ named ev n b rid).

(** What a step makes of the base: every table and every row stays, with its
    values and writer, only a row still alive being newly marked deleted; or
    the row is removed by a vacuum. *)
Definition base_moved (ev : tx_event) (e e' : Engine) : Prop :=
  forall n b, get (catalog e) n = Some b -> exists b', get (catalog e') n = Some b' /\ same_table b b' /\
    forall rid r h, heap b !! rid = Some (r, h) ->
      (exists h', heap b' !! rid = Some (r, h') /\ xmin h' = xmin h /\ (h' = h \/ xmax h = XMAX_ALIVE)) \/
      (heap b' !! rid = None /\ removable ev e n b rid h).

Lemma kept_moved ev e e' : base_kept (catalog e) (catalog e') -> base_moved ev e e'.
Proof. intros H n b E. destruct (H n b E) as (b' & E' & Hs & Hk). exists b'. split_and!; [done|done|]. intros rid r h El. left. by apply Hk. Qed.

(** A vacuum after rows stayed. *)
Lemma kept_swept ev e e1 e' : base_kept (catalog e) (catalog e1) ->
  (forall n b b1 rid r h h', get (catalog e) n = Some b -> get (catalog e1) n = Some b1 ->
     heap b !! rid = Some (r, h) -> heap b1 !! rid = Some (r, h') -> h' = h \/ named ev n b rid) ->
  base_swept (catalog e1) (catalog e') -> catalog e' = catalog e1 \/ vacuums e -> base_moved ev e e'.
Proof.
  intros Hk Hm Hs [Ec|Hv]; [apply kept_moved; by rewrite Ec|]. intros n b E. destruct (Hk n b E) as (b1 & E1 & S1 & K1). destruct (Hs n b1 E1) as (b' & E' & S' & _ & K').
  exists b'. split_and!; [done|by etrans|]. intros rid r h El. destruct (K1 _ _ _ El) as (h1 & El1 & X1 & C1).
  destruct (K' _ _ _ El1) as [El'|[El' Hx]]; [left; by exists h1|]. right. split; [done|]. split; [done|].
  destruct (Hm _ _ _ _ _ _ _ E E1 El El1) as [->|?]; [by left|by right].
Qed.

(** ** One statement *)

(** What a statement of [tx] leaves: the invariant of the same epoch, or, with
    no transaction open, that of the next. *)
Definition left_good (e : Engine) (tx : Z) (e' : Engine) : Prop :=
  base_kept (catalog e) (catalog e') /\ commit_epoch e' = commit_epoch e /\
  exists G, engine_ok G (commit_epoch e) e' \/ (tx_catalogs e' !! tx = None /\ engine_ok G (commit_epoch e + 1) e').

Lemma left_same G e tx e' :
  catalog e' = catalog e -> commit_epoch e' = commit_epoch e -> engine_ok G (commit_epoch e) e' -> left_good e tx e'.
Proof. intros Ec Ee Ho. split_and!; [by rewrite Ec|done|]. exists G. by left. Qed.

(** The same with a vacuum. *)
Definition left_moved (ev : tx_event) (e : Engine) (tx : Z) (e' : Engine) : Prop :=
  base_moved ev e e' /\ commit_epoch e' = commit_epoch e /\
  exists G, engine_ok G (commit_epoch e) e' \/ (tx_catalogs e' !! tx = None /\ engine_ok G (commit_epoch e + 1) e').

Lemma left_good_moved ev e tx e' : left_good e tx e' -> left_moved ev e tx e'.
Proof. intros (Hk & ? & ?). split_and!; [by apply kept_moved|done|done]. Qed.

Lemma left_trans e tx e1 e2 : catalog e1 = catalog e -> commit_epoch e1 = commit_epoch e -> left_good e1 tx e2 -> left_good e tx e2.
Proof. unfold left_good. by intros -> ->. Qed.

Definition plain (stmt : Statement) : Prop :=
  match classify_stmt_for_tx stmt with TxControl | ReadOnly => True | _ => False end /\
  match stmt with RollbackToSavepoint _ => False | _ => True end.

Lemma record_reads_key ts st : same_key st (record_tx_reads ts st).
Proof. unfold record_tx_reads. destruct (serializable st); repeat split; by left. Qed.

(** Bookkeeping that concerns nothing the invariant speaks of. *)
Lemma finish_book G ep e tx stmt r :
  engine_ok G ep e -> plain stmt -> engine_ok G ep (finish_statement tx stmt None r e) /\
  catalog (finish_statement tx stmt None r e) = catalog e /\ commit_epoch (finish_statement tx stmt None r e) = commit_epoch e /\
  (tx_catalogs e !! tx = None -> finish_statement tx stmt None r e = e).
Proof.
  intros Hok [Hcl Hnr]. unfold finish_statement. destruct (tx_catalogs e !! tx) as [st|] eqn:Htx.
  2:{ rewrite (on_tx_none tx _ e Htx). assert (is_tx_open tx (match r with Ok _ => e | Err _ => e end) = false) as Ho by (destruct r; by apply is_closed).
      destruct r; by rewrite (is_closed tx e Htx). }
  destruct (open_writer G ep e Hok tx st Htx) as [v Hw]. destruct r as [[]|err].
  - rewrite (on_tx_some tx _ e st Htx). rewrite (is_open tx _ (record_tx_reads (read_tables_of stmt) (record_tx_stmt (classify_stmt_for_tx stmt) st)))
      by (cbn; by rewrite lookup_insert_eq). cbn [negb].
    assert (engine_ok G ep (set_txs (<[tx:=record_tx_reads (read_tables_of stmt) (record_tx_stmt (classify_stmt_for_tx stmt) st)]> (tx_catalogs e)) e)) as Ho.
    { eapply book_ok; [done..|]. destruct (classify_stmt_for_tx stmt); try done; apply record_reads_key. }
    destruct stmt; done.
  - rewrite (is_open tx e st Htx). cbn [negb]. unfold set_current_tx_aborted. rewrite (on_tx_some tx _ e st Htx).
    split_and!; [|done|done|done]. eapply book_ok; [done..|]. repeat split; by right.
Qed.

Lemma run_control tx stmt e :
  is_control (classify_stmt_for_tx stmt) = true ->
  run_statement tx stmt e = (let! r := dispatch_stmt_inner tx stmt e in Some (r.1, finish_statement tx stmt None r.1 r.2)).
Proof. intros Hc. unfold run_statement. rewrite Hc. cbn [andthen ok negb]. by rewrite andb_false_r. Qed.

(** *** Outside a transaction *)

Lemma rebase_closed tx e : tx_catalogs e !! tx = None -> maybe_rc_rebase tx e = Some (Ok (), e).
Proof. intros Htx. unfold maybe_rc_rebase. rewrite Htx. by destruct (mvcc_inplace e). Qed.

Lemma commit_closed tx e : tx_catalogs e !! tx = None -> exec_commit tx e = Some (Err NoActiveTransaction, e).
Proof.
  intros Htx. unfold exec_commit, commit_deferred. rewrite Htx. cbn [andthen ok]. unfold commit_rebase. rewrite (rebase_closed tx e Htx).
  cbn. unfold commit_serializable, serializable_read_conflict. rewrite Htx. cbn. unfold commit_merge. rewrite Htx. cbn.
  unfold commit_foreign_keys. rewrite Htx. cbn. unfold commit_install. by rewrite Htx.
Qed.

Lemma insert_loop rs w : 2 <= w -> row_loop w (insert_rows rs w).
Proof. intros Hw t c r t' c'. by apply insert_rows_ok. Qed.

Lemma update_loop changes w : 2 <= w -> row_loop w (fun t c => update_rows true changes w t c []).
Proof. intros Hw t c r t' c'. by eapply update_rows_ok. Qed.

Lemma delete_loop positions w : 2 <= w -> row_loop w (delete_positions true positions w).
Proof. intros Hw t c r t' c' H _. by eapply delete_positions_ok. Qed.

Section Statement.
Context (G : Ghost) (e : Engine) (Hok : engine_ok G (commit_epoch e) e) (Hsw : stmt_writer_version e = None) (tx : Z).

(** What bookkeeping leaves of an engine that a plain statement left good. *)
Lemma finish_good stmt r e1 :
  plain stmt -> left_good e tx e1 -> left_good e tx (finish_statement tx stmt None r e1).
Proof.
  intros Hp (Hk & Ee & G' & Hor). destruct Hor as [Ho|[Hno Ho]]; destruct (finish_book G' _ e1 tx stmt r Ho Hp) as (Hf & Hc & Hee & Hnone).
  - split_and!; [by rewrite Hc|by rewrite Hee|]. exists G'. by left.
  - rewrite (Hnone Hno). split_and!; [done|done|]. exists G'. by right.
Qed.

Lemma closed_failed : tx_catalogs e !! tx = None -> forall stmt err e', plain stmt ->
  finish_statement tx stmt None (Err err) e = e' -> left_good e tx e'.
Proof.
  intros Htx stmt err e' Hp <-. apply finish_good; [done|]. by eapply left_same.
Qed.

Lemma closed_control stmt r e' :
  tx_catalogs e !! tx = None -> is_control (classify_stmt_for_tx stmt) = true ->
  run_statement tx stmt e = Some (r, e') -> left_good e tx e'.
Proof.
  intros Htx Hc. rewrite (run_control tx stmt e Hc).
  destruct stmt; try done; cbn [dispatch_stmt_inner]; unfold exec_rollback, exec_savepoint, exec_rollback_to_savepoint, exec_release_savepoint;
    rewrite ?(is_closed tx e Htx), ?Htx, ?(commit_closed tx e Htx); cbn [mbind option_bind fails fst snd].
  2,3,4,6: intros [= <- <-]; (eapply closed_failed; [done| |reflexivity]); by split.
  - destruct (exec_begin tx level e) as [[r1 e1]|] eqn:E; cbn [mbind option_bind]; [|done]. intros [= <- <-]. apply finish_good; [done|].
    destruct (begin_ok G e tx level r1 e1 Hok E) as [Ee Ho]. eapply left_same; [|done|exact Ho].
    unfold exec_begin in E. destruct (is_tx_open tx e); [by injection E as <- <-|]. destruct (Mvcc.exec_begin _ _ _); by injection E as <- <-.
  - intros [= <- <-]. unfold finish_statement. rewrite (is_closed tx e Htx). by eapply left_same.
Qed.

(** The end of a statement outside a transaction: kept, or undone. *)
Lemma finish_closed stmt before r e1 :
  tx_catalogs e1 !! tx = None ->
  finish_statement tx stmt (Some before) r e1 = match r with Ok _ => e1 | Err _ => undo_statement before e1 end.
Proof.
  intros Htx. unfold finish_statement. destruct r.
  - rewrite (on_tx_none tx _ e1 Htx), (is_closed tx e1 Htx). done.
  - assert (tx_catalogs (undo_statement before e1) !! tx = None) as Hu by (unfold undo_statement; cbn; by destruct (stmt_writer_version e1)).
    by rewrite (is_closed tx _ Hu).
Qed.

Lemma closed_write {A} n (loop : Z -> Table -> Counters -> Written A) r e1 :
  tx_catalogs e !! tx = None -> (forall w, 2 <= w -> row_loop w (loop w)) -> write_table tx n loop e = Some (r, e1) ->
  tx_catalogs e1 !! tx = None /\ left_good e tx (match r with Ok _ => e1 | Err _ => undo_statement (catalog e) e1 end).
Proof.
  intros Htx Hl E. destruct (write_table_closed G _ e Hok tx Htx n loop r e1 Hsw Hl E) as (Et & Ee & G' & Ho & Hk).
  split; [by rewrite Et|]. split_and!; [done|destruct r; [done|]; unfold undo_statement; cbn; by destruct (stmt_writer_version e1)|].
  exists G'. right. split; [|done]. destruct r; [by rewrite Et|]. unfold undo_statement. cbn. by destruct (stmt_writer_version e1); cbn; rewrite Et.
Qed.

(** A write outside a transaction that went well, in detail. *)
Lemma write_table_done {A} n (loop : Z -> Table -> Counters -> Written A) x e1 :
  tx_catalogs e !! tx = None -> write_table tx n loop e = Some (Ok x, e1) ->
  tx_catalogs e1 = tx_catalogs e /\ settings e1 = settings e /\
  exists v t t' c', 2 <= v /\ get (catalog e) n = Some t /\ loop v t (counters e) = Some (Ok x, t', c') /\ catalog e1 = put_table n t' (catalog e).
Proof.
  intros Htx. unfold write_table, writer_version_for_current_stmt. rewrite (closed_writer G _ e Hok tx Htx), Hsw.
  pose proof (ok_cursor _ (eo_versions _ _ _ Hok)) as Hcur. unfold next_version, active_catalog, put_active. cbn [tx_catalogs set_stmt_writer set_versions].
  rewrite Htx. match goal with |- context [is_tx_open tx ?x] => rewrite !(is_closed tx x Htx) end. cbn [catalog set_stmt_writer set_versions].
  destruct (get (catalog e) n) as [t|] eqn:Et; [|done]. cbn [counters set_stmt_writer set_versions].
  destruct (loop (GLOBAL_VERSION (versions e)) t (counters e)) as [[[[y|err] t'] c']|] eqn:El; cbn [mbind option_bind ok fails]; try done.
  intros [= <- <-]. split_and!; [done|done|]. by exists (GLOBAL_VERSION (versions e)), t, t', c'.
Qed.

(** And the vacuum after it. *)
Lemma closed_vacuum stmt n t t' e1 (due : bool) :
  tx_catalogs e !! tx = None -> tx_catalogs e1 = tx_catalogs e -> settings e1 = settings e -> left_good e tx e1 ->
  get (catalog e) n = Some t -> catalog e1 = put_table n t' (catalog e) ->
  (forall rid r h, heap t !! rid = Some (r, h) -> ~ named (Runs tx stmt) n t rid -> heap t' !! rid = Some (r, h)) ->
  let e2 := if due then maybe_autovacuum tx n e1 else e1 in
  tx_catalogs e2 !! tx = None /\ left_moved (Runs tx stmt) e tx e2.
Proof.
  intros Htx Et Es Hg En Ec Hm e2. destruct Hg as (Hk & Ee & G' & Hor).
  assert (tx_catalogs e1 !! tx = None) as Htx1 by by rewrite Et.
  assert (engine_ok G' (commit_epoch e + 1) e1) as Ho by (destruct Hor as [Ho|[_ Ho]]; [by apply engine_epoch|done]).
  assert (tx_catalogs e2 = tx_catalogs e /\ commit_epoch e2 = commit_epoch e /\ engine_ok G' (commit_epoch e + 1) e2 /\
    base_swept (catalog e1) (catalog e2) /\ (catalog e2 = catalog e1 \/ vacuums e)) as (T2 & E2 & O2 & S2 & V2).
  { unfold e2. destruct due; [|split_and!; by (reflexivity || auto)]. destruct (maybe_autovacuum_ok G' _ e1 tx n Ho) as (H1 & H2 & H3 & H4 & H5 & H6).
    split_and!; [congruence|congruence|done|done|]. unfold vacuums. rewrite <- Et, <- Es. exact H6. }
  split; [by rewrite T2|]. split_and!; [|done|].
  - eapply (kept_swept _ e e1 e2); [done| |done|done]. intros m b b1 rid r h h' Eb Eb1 El El1. rewrite Ec, get_put in Eb1.
    destruct (decide (m = n)) as [->|]; [|simplify_eq; by left]. simplify_eq.
    destruct (decide (named (Runs tx stmt) n t rid)) as [Hn|Hn]; [by right|left]. rewrite (Hm rid r h El Hn) in El1. by injection El1 as ->.
  - exists G'. right. split; [by rewrite T2|done].
Qed.

Lemma closed_row stmt r e' :
  tx_catalogs e !! tx = None -> ordinary tx stmt e -> is_control (classify_stmt_for_tx stmt) = false ->
  run_statement tx stmt e = Some (r, e') -> left_moved (Runs tx stmt) e tx e'.
Proof.
  intros Htx Hord Hc. unfold run_statement. rewrite Hc, (rebase_closed tx e Htx). cbn [andthen ok]. rewrite (is_closed tx e Htx). cbn [negb andb].
  destruct stmt; try done; cbn [is_readonly negb andb dispatch_stmt_inner].
  - intros [= <- <-]. apply left_good_moved, finish_good; [done|]. by eapply left_same.
  - unfold exec_insert. destruct (write_table tx table (insert_rows values) e) as [[r1 e1]|] eqn:E; cbn [mbind option_bind]; [|done].
    intros [= <- <-]. destruct (closed_write table _ r1 e1 Htx (insert_loop values) E) as [Ht Hg]. cbn [fst snd].
    rewrite (finish_closed _ _ _ _ Ht). by apply left_good_moved.
  - unfold exec_update. rewrite (gate_inplace _ _ _ Hok). destruct (write_table tx table _ e) as [[r1 e1]|] eqn:E; cbn [mbind option_bind andthen]; [|done].
    destruct (closed_write table _ r1 e1 Htx (update_loop changes) E) as [Ht Hg].
    destruct r1 as [pairs|err]; cbn [mbind option_bind ok]; intros [= <- <-]; cbn [fst snd].
    + assert (record_update_pairs tx table pairs e1 = e1) as -> by (destruct pairs; [done|by apply on_tx_none]).
      destruct (write_table_done table _ pairs e1 Htx E) as (Et & Es & v & t & t' & c' & Hv & En & El & Ec).
      destruct (closed_vacuum (Update table changes) table t t' e1 (0 <? length changes)%nat Htx Et Es Hg En Ec) as [Ht2 Hg2]; [|by rewrite (finish_closed _ _ _ _ Ht2)].
      intros rid x h Eh Hn. eapply (update_marks v changes Hv); [exact El|apply Hok|by eapply (eo_base _ _ _ Hok)|done|]. intros H. by apply Hn.
    + rewrite (finish_closed _ _ _ _ Ht). by apply left_good_moved.
  - unfold exec_delete. rewrite (gate_inplace _ _ _ Hok). destruct (write_table tx table _ e) as [[r1 e1]|] eqn:E; cbn [mbind option_bind andthen]; [|done].
    destruct (closed_write table _ r1 e1 Htx (delete_loop positions) E) as [Ht Hg].
    destruct r1 as [affected|err]; cbn [mbind option_bind ok]; intros [= <- <-]; cbn [fst snd].
    + destruct (write_table_done table _ affected e1 Htx E) as (Et & Es & v & t & t' & c' & Hv & En & El & Ec).
      destruct (closed_vacuum (Delete table positions) table t t' e1 (0 <? affected)%nat Htx Et Es Hg En Ec) as [Ht2 Hg2]; [|by rewrite (finish_closed _ _ _ _ Ht2)].
      intros rid x h Eh Hn. eapply (delete_marks v positions); [done|exact El|by eapply (eo_base _ _ _ Hok)|done|]. intros H. by apply Hn.
    + rewrite (finish_closed _ _ _ _ Ht). by apply left_good_moved.
  - unfold exec_create_table, active_catalog, put_active. rewrite Htx, (is_closed tx e Htx).
    destruct (create_table table columns (catalog e) (counters e)) as [[cat c]|err] eqn:E; cbn [mbind option_bind ok fails]; intros [= <- <-]; cbn [fst snd]; apply left_good_moved.
    + rewrite finish_closed by done. destruct (create_table_ok G _ e Hok tx Htx _ _ _ _ E) as [Ho Hk]. split_and!; [done|done|]. exists G. by right.
    + rewrite finish_closed by done. unfold undo_statement. cbn. rewrite Hsw. eapply (left_same G); [done|done|]. eapply engine_irrel; [..|exact Hok]; done.
Qed.

End Statement.

(** *** In a transaction *)

Lemma on_tx_set tx f st txs e : on_tx tx f (set_txs (<[tx := st]> txs) e) = set_txs (<[tx := f st]> txs) e.
Proof.
  assert (tx_catalogs (set_txs (<[tx := st]> txs) e) !! tx = Some st) as E by (cbn; apply lookup_insert_eq).
  rewrite (on_tx_some tx f _ st E). unfold set_txs. cbn. by rewrite insert_insert_eq.
Qed.

Lemma open_set tx st txs e : is_tx_open tx (set_txs (<[tx := st]> txs) e) = true.
Proof. apply (is_open tx _ st). cbn. apply lookup_insert_eq. Qed.

Lemma record_no_reads st : record_tx_reads [] st = st.
Proof. destruct st as [a b c d s f g h i j k l]. by destruct s. Qed.

Section Inside.
Context (G : Ghost) (e : Engine) (Hok : engine_ok G (commit_epoch e) e) (tx : Z) (st : TxState) (v : Z).
Context (Htx : tx_catalogs e !! tx = Some st) (Hw : writer_of tx e = Some v).

Lemma rollback_to_good n r e' :
  run_statement tx (RollbackToSavepoint n) e = Some (r, e') -> left_good e tx e'.
Proof.
  rewrite run_control by done. cbn [dispatch_stmt_inner]. unfold exec_rollback_to_savepoint. rewrite Htx.
  destruct (rposition n (savepoints st)) as [pos|]; cbn [mbind option_bind].
  2:{ cbn [fails mbind option_bind fst snd]. intros [= <- <-]. unfold finish_statement. rewrite (is_open tx e st Htx). cbn [negb].
      unfold set_current_tx_aborted. rewrite (on_tx_some tx _ e st Htx). eapply (left_same G); [done|done|].
      eapply book_ok; [done..|]. repeat split; by right. }
  destruct (savepoints st !! pos) as [[m snapshot]|] eqn:Ep; cbn [mbind option_bind snd].
  2:{ cbn [fails mbind option_bind fst snd]. intros [= <- <-]. unfold finish_statement. rewrite (is_open tx e st Htx). cbn [negb].
      unfold set_current_tx_aborted. rewrite (on_tx_some tx _ e st Htx). eapply (left_same G); [done|done|].
      eapply book_ok; [done..|]. repeat split; by right. }
  rewrite (on_tx_some tx _ e st Htx). cbn [ok mbind option_bind fst snd]. intros [= <- <-]. unfold finish_statement. cbn [read_tables_of classify_stmt_for_tx record_tx_stmt].
  rewrite on_tx_set, open_set. cbn [negb]. unfold set_current_tx_aborted. rewrite on_tx_set.
  match goal with |- context [record_tx_reads ?l _] => change l with (@nil (list Z)) end. rewrite record_no_reads. eapply (left_same G); [done|done|].
  eapply (restore_savepoint G _ e Hok tx st v Htx Hw); [| |lia].
  - intros sp (i & Hi)%list_elem_of_lookup. apply lookup_take_Some in Hi as [Hi _]. by eapply list_elem_of_lookup_2.
  - apply list_elem_of_fmap. exists (m, snapshot). split; [done|]. by eapply list_elem_of_lookup_2.
Qed.

Lemma open_control stmt r e' :
  is_control (classify_stmt_for_tx stmt) = true -> ordinary tx stmt e -> aborted st = false \/ stmt = Rollback ->
  plain stmt -> run_statement tx stmt e = Some (r, e') -> left_good e tx e'.
Proof.
  intros Hc Hord Hab Hp. rewrite (run_control tx stmt e Hc).
  destruct (dispatch_stmt_inner tx stmt e) as [[r1 e1]|] eqn:E; cbn [mbind option_bind]; [|done]. intros [= <- <-].
  cbn [fst snd]. apply finish_good; [done|]. destruct stmt; try done; cbn [dispatch_stmt_inner] in E.
  - unfold exec_begin in E. rewrite (is_open tx e st Htx) in E. injection E as <- <-. by eapply left_same.
  - destruct Hab as [Hab|]; [|done]. destruct (commit_ok G e tx st v Hok Htx Hw Hab Hord) as (r2 & e2 & E2 & Hr). rewrite E2 in E. injection E as <- <-.
    destruct r2 as [[]|err].
    + destruct Hr as [(Ee & Et & Ho & Hal) _]. split_and!; [by eapply aligned_kept|done|]. exists G. right. split; [|done].
      rewrite Et. apply lookup_delete_eq.
    + destruct Hr as [(Ec & Ee & _ & Ho)|(_ & Ec & Ee & Ho & _)]; by eapply left_same.
  - unfold exec_rollback in E. rewrite (is_open tx e st Htx) in E. injection E as <- <-. eapply (left_same G); [done|done|]. by eapply discard_ok.
  - destruct Hab as [Hab|]; [|done]. unfold exec_savepoint in E. rewrite Htx in E. rewrite (on_tx_some tx _ e st Htx) in E. injection E as <- <-.
    eapply (left_same G); [done|done|]. eapply more_savepoints; [done..|]. intros sp Hin. by apply list_elem_of_filter in Hin as [_ ?].
  - destruct Hp as [_ []].
  - unfold exec_release_savepoint in E. rewrite Htx in E. destruct (rposition _ _) as [pos|]; [|injection E as <- <-; by eapply left_same].
    rewrite (on_tx_some tx _ e st Htx) in E. injection E as <- <-. eapply (left_same G); [done|done|]. eapply fewer_savepoints; [done..|].
    intros sp (i & Hi)%list_elem_of_lookup. apply lookup_take_Some in Hi as [Hi _]. by eapply list_elem_of_lookup_2.
Qed.

(** The bookkeeping after a write, on the state it finds. *)
Definition after (stmt : Statement) (r : result unit EngineError) (st : TxState) : TxState :=
  match r with
  | Ok _ => record_tx_reads (read_tables_of stmt) (record_tx_stmt (classify_stmt_for_tx stmt) st)
  | Err _ => set_aborted true st
  end.

Lemma finish_set stmt r st1 txs c' e1 :
  (match stmt with RollbackToSavepoint _ => False | _ => True end) ->
  finish_statement tx stmt None r (set_counters c' (set_txs (<[tx := st1]> txs) e1)) =
  set_counters c' (set_txs (<[tx := after stmt r st1]> txs) e1).
Proof.
  intros Hn. change (set_counters c' (set_txs ?m e1)) with (set_txs m (set_counters c' e1)).
  change (set_counters c' (set_txs (<[tx := after stmt r st1]> txs) e1)) with (set_txs (<[tx := after stmt r st1]> txs) (set_counters c' e1)).
  unfold finish_statement. destruct r; cbn [after].
  - rewrite on_tx_set, open_set. cbn [negb]. by destruct stmt.
  - rewrite open_set. cbn [negb]. unfold set_current_tx_aborted. by rewrite on_tx_set.
Qed.

Lemma after_write_dml stmt n r pairs cat :
  classify_stmt_for_tx stmt = Dml [n] -> aborted st = false ->
  after_write st n cat (after stmt r (set_pairs pairs (set_dirty (set_tx_catalog cat st)))).
Proof.
  intros Hc Hab. pose proof (eo_good _ _ _ Hok tx st v Htx Hw) as Hg. pose proof (tg_sorted _ _ _ _ _ Hg) as Hs.
  destruct r as [[]|err]; cbn [after].
  - rewrite Hc. unfold record_tx_reads. cbn.
    destruct (serializable st); (split; cbn; try done; [by apply bs_insert_sorted| |apply Hg|right; split; [done|]]);
      [intros m Hm|..|intros m Hm|]; apply bs_mem_insert; auto.
  - split; cbn; try done; [apply Hg|by left].
Qed.

Lemma open_write {A} stmt n (loop : Z -> Table -> Counters -> Written A) (k : A -> Engine -> Outcome unit) r e' :
  classify_stmt_for_tx stmt = Dml [n] -> aborted st = false -> (forall w, 2 <= w -> row_loop w (loop w)) ->
  (forall x c' st1, exists pairs, k x (set_counters c' (set_txs (<[tx := st1]> (tx_catalogs e)) e)) =
     ok () (set_counters c' (set_txs (<[tx := set_pairs pairs st1]> (tx_catalogs e)) e))) ->
  (let! r := andthen (write_table tx n loop e) k in Some (r.1, finish_statement tx stmt None r.1 r.2)) = Some (r, e') ->
  left_good e tx e'.
Proof.
  intros Hc Hab Hl Hk. destruct (write_table tx n loop e) as [[r1 e1]|] eqn:E; cbn [andthen mbind option_bind]; [|done].
  destruct (write_table_open G _ e Hok tx st v Htx Hw n loop r1 e1 Hl E) as (cat & c' & -> & Hst).
  assert (forall r pairs, left_good e tx (finish_statement tx stmt None r
            (set_counters c' (set_txs (<[tx := set_pairs pairs (set_dirty (set_tx_catalog cat st))]> (tx_catalogs e)) e)))) as Hall.
  { intros r0 pairs. rewrite finish_set by (by destruct stmt). destruct (Hst _ (after_write_dml stmt n r0 pairs cat Hc Hab)) as [G' Ho].
    eapply (left_same G'); [done|done|]. eapply engine_irrel; [..|exact Ho]; done. }
  destruct r1 as [x|err]; cbn [mbind option_bind fst snd].
  - destruct (Hk x c' (set_dirty (set_tx_catalog cat st))) as [pairs ->]. cbn. intros [= <- <-]. apply Hall.
  - intros [= <- <-]. exact (Hall (Err err) (update_pairs st)).
Qed.

(** A row statement of a transaction that has not failed, after its rebase. *)
Lemma open_dispatch stmt r e' :
  ordinary tx stmt e -> is_control (classify_stmt_for_tx stmt) = false -> aborted st = false ->
  (let! r := dispatch_stmt_inner tx stmt e in Some (r.1, finish_statement tx stmt None r.1 r.2)) = Some (r, e') -> left_good e tx e'.
Proof.
  intros Hord Hc Hab. assert (Hgate := gate_inplace _ _ _ Hok).
  assert (forall x c' st1, exists pairs, ok x (set_counters c' (set_txs (<[tx := st1]> (tx_catalogs e)) e)) =
     ok () (set_counters c' (set_txs (<[tx := set_pairs pairs st1]> (tx_catalogs e)) e))) as Hsame.
  { intros [] c' st1. exists (update_pairs st1). do 3 f_equal. by destruct st1. }
  assert (forall (due : bool) n c' st1, (if due then maybe_autovacuum tx n (set_counters c' (set_txs (<[tx := st1]> (tx_catalogs e)) e))
     else set_counters c' (set_txs (<[tx := st1]> (tx_catalogs e)) e)) = set_counters c' (set_txs (<[tx := st1]> (tx_catalogs e)) e)) as Hnovac.
  { intros due n c' st1. destruct due; [|done]. apply autovacuum_in_transaction. cbn. apply insert_non_empty. }
  assert (forall m : Outcome unit, andthen m (fun x e => ok x e) = m) as Hret by (by intros [[[[]|] ?]|]).
  destruct stmt; try done; cbn [dispatch_stmt_inner].
  - intros [= <- <-]. cbn [fst snd]. apply finish_good; [by split|by eapply (left_same G)].
  - unfold exec_insert. intros E. eapply (open_write (Insert table reads values) table (insert_rows values) (fun x e => ok x e)); [done|done|apply insert_loop|exact Hsame|].
    rewrite Hret. exact E.
  - unfold exec_update. rewrite Hgate. intros E. eapply (open_write (Update table changes) table _ _); [done|done|apply update_loop| |exact E].
    intros pairs c' st1. cbn beta zeta. destruct pairs as [|p pairs]; cbn [record_update_pairs].
    + exists (update_pairs st1). rewrite Hnovac. do 3 f_equal. by destruct st1.
    + change (set_counters c' (set_txs ?m e)) with (set_txs m (set_counters c' e)). rewrite on_tx_set.
      change (set_txs ?m (set_counters c' e)) with (set_counters c' (set_txs m e)). rewrite Hnovac. by eexists.
  - unfold exec_delete. rewrite Hgate. intros E. eapply (open_write (Delete table positions) table (delete_positions true positions) _);
      [done|done|apply delete_loop| |exact E].
    intros affected c' st1. exists (update_pairs st1). cbn beta. rewrite Hnovac. do 3 f_equal. by destruct st1.
  - cbn in Hord. by rewrite (is_open tx e st Htx) in Hord.
Qed.

End Inside.
(** ** Every statement, every history *)

Lemma run_good G e tx stmt r e' :
  engine_ok G (commit_epoch e) e -> stmt_writer_version e = None -> ordinary tx stmt e ->
  current_tx_aborted tx e = false \/ stmt = Rollback \/ (exists n, stmt = RollbackToSavepoint n) ->
  run_statement tx stmt e = Some (r, e') -> left_moved (Runs tx stmt) e tx e'.
Proof.
  intros Hok Hsw Hord Hab H. unfold current_tx_aborted in Hab. destruct (tx_catalogs e !! tx) as [st|] eqn:Htx.
  2:{ destruct (is_control (classify_stmt_for_tx stmt)) eqn:Ec; [by eapply left_good_moved, closed_control|by eapply closed_row]. }
  apply left_good_moved.
  destruct (open_writer G _ e Hok tx st Htx) as [v Hw]. destruct (is_control (classify_stmt_for_tx stmt)) eqn:Ec.
  { assert (plain stmt \/ exists n, stmt = RollbackToSavepoint n) as [Hp|[n ->]]
      by (destruct stmt; try done; (left; by split) || (right; eauto)); [|by eapply rollback_to_good].
    eapply open_control; [done..| |done|exact H]. destruct Hab as [?|[?|[n ->]]]; [by left|by right|by destruct Hp]. }
  assert (aborted st = false) as Ha by (destruct Hab as [?|[->|[n ->]]]; done). unfold run_statement in H. rewrite Ec in H.
  destruct (rebase_ok G e Hok tx st v Htx Hw) as (r1 & e1 & E & _ & Hr). rewrite E in H. cbn [andthen] in H. destruct r1 as [[]|err].
  2:{ destruct Hr as (c' & Hc & ->). injection H as <- <-. eapply (left_same G); [done|done|]. by eapply spend_ok. }
  destruct Hr as (cat & k & Hrs & _). pose proof (reshadowed_at _ _ _ _ _ _ _ Hrs) as Htx1. destruct Hrs as [Rc Rv Rt Re Rg Ro].
  rewrite (is_open tx e1 _ Htx1) in H. cbn [negb andb] in H.
  assert (ordinary tx stmt e1) as Hord1.
  { destruct stmt; try done. cbn in Hord. by rewrite (is_open tx e st Htx) in Hord. }
  eapply left_trans; [done|done|]. rewrite <- Re in Ro. eapply (open_dispatch G e1 Ro tx _ v Htx1); [|done|done|done|exact H].
  unfold writer_of. by rewrite Rv.
Qed.

Lemma execute_good G e tx stmt r e' :
  engine_ok G (commit_epoch e) e -> ordinary tx stmt e -> execute_in tx stmt e = Some (r, e') ->
  base_moved (Runs tx stmt) e e' /\ exists G', engine_ok G' (commit_epoch e') e'.
Proof.
  intros Hok Hord. unfold execute_in. set (e0 := set_stmt_writer None e).
  assert (engine_ok G (commit_epoch e0) e0) as Hok0 by (eapply engine_irrel; [..|exact Hok]; done).
  rewrite (arm_none G _ e0 tx Hok0), (proj2 (eo_gate _ _ _ Hok0)).
  assert (forall r1 e1, execute_stmt tx stmt e0 = Some (r1, e1) -> left_moved (Runs tx stmt) e0 tx e1) as Hgood.
  { intros r1 e1. unfold execute_stmt. destruct (current_tx_aborted tx e0) eqn:Ea; [|eapply (run_good G); [done..|by left]].
    destruct stmt; try (intros [= <- <-]; by eapply left_good_moved, (left_same G)); try (eapply (run_good G); [done..|right; eauto]).
    cbn [dispatch_stmt_inner]. unfold exec_rollback. destruct (tx_catalogs e0 !! tx) as [st|] eqn:Htx.
    - rewrite (is_open tx e0 st Htx). cbn [ok mbind option_bind fst snd]. intros [= <- <-]. unfold set_current_tx_aborted.
      rewrite on_tx_none by (cbn; apply lookup_delete_eq). eapply left_good_moved, (left_same G); [done|done|]. by eapply discard_ok.
    - unfold current_tx_aborted in Ea. by rewrite Htx in Ea. }
  destruct (execute_stmt tx stmt e0) as [[r1 e1]|] eqn:E; cbn [mbind option_bind collect_redo]; [|done]. intros [= <- <-].
  destruct (Hgood r1 e1 eq_refl) as (Hk & Ee & G' & Hor). split.
  { destruct (is_tx_open tx e1); exact Hk. }
  exists G'. destruct (tx_catalogs e1 !! tx) as [st|] eqn:Htx.
  - rewrite (is_open tx e1 st Htx). destruct Hor as [Ho|[? _]]; [|done]. by rewrite Ee.
  - rewrite (is_closed tx e1 Htx). cbn [commit_epoch set_commit_epoch]. rewrite Ee. eapply (engine_irrel G' _ e1); [reflexivity..|].
    destruct Hor as [Ho|[_ Ho]]; [by apply engine_epoch|done].
Qed.

(** Every step of a history. *)
Lemma event_good G e ev e' :
  engine_ok G (commit_epoch e) e -> event_step ev e e' -> base_moved ev e e' /\ exists G', engine_ok G' (commit_epoch e') e'.
Proof.
  intros Hok Hs. revert Hok. destruct Hs as [tx stmt r e1 e2 Hord Hx|e1|on inline e1]; intros Hok.
  - by eapply execute_good.
  - destruct (autovacuum_tick_ok G _ e1 Hok) as (H1 & H2 & H3 & H4). split; [|exists G; by rewrite H2].
    eapply (kept_swept _ e1 e1); [reflexivity| |done|done]. intros n b b1 rid r h h' E E1 El El1. simplify_eq. by left.
  - split; [apply kept_moved; reflexivity|]. exists G. destruct Hok as [V [Gt1 Gt2] D C Gh B BC Cs F Gd]. split; try done.
Qed.

Lemma new_engine_ok : engine_ok (fun _ _ => None) 0 new_engine.
Proof.
  assert (forall n t, get (catalog new_engine) n = Some t -> False) as Hno by (intros n t; unfold get; cbn; by rewrite lookup_empty).
  split; cbn; try done.
  - apply initial_ok.
  - intros tx. rewrite lookup_empty. split; by intros [? ?].
Qed.

Definition reachable : Engine -> Prop := rtc tx_step new_engine.

Lemma steps_good e e' : rtc tx_step e e' -> forall G, engine_ok G (commit_epoch e) e -> exists G', engine_ok G' (commit_epoch e') e'.
Proof.
  induction 1 as [e|e1 e2 e3 [ev Hs] _ IH]; intros G Hok; [by exists G|].
  destruct (event_good G e1 ev e2 Hok Hs) as (_ & G' & Hok'). by apply (IH G').
Qed.

Lemma reachable_good e : reachable e -> exists G, engine_ok G (commit_epoch e) e.
Proof. intros Hr. eapply (steps_good new_engine e Hr), new_engine_ok. Qed.

(** A row of table [n] is removed by the step from [e1] to [e2]: no transaction
    is open, autovacuum is on, and the row is marked deleted in the base, or by
    the UPDATE or DELETE that step is. *)
Definition vacuumed (n : list Z) (rid : Z) (ev : tx_event) (e1 e2 : Engine) : Prop :=
  exists b1 b2 r h, get (catalog e1) n = Some b1 /\ heap b1 !! rid = Some (r, h) /\ removable ev e1 n b1 rid h /\
    get (catalog e2) n = Some b2 /\ heap b2 !! rid = None.

Lemma rows_stay e e' : rtc tx_step e e' -> forall G, engine_ok G (commit_epoch e) e ->
  forall n b, get (catalog e) n = Some b -> exists b', get (catalog e') n = Some b' /\ same_table b b' /\
    forall rid r h, heap b !! rid = Some (r, h) ->
      (exists h', heap b' !! rid = Some (r, h') /\ xmin h' = xmin h /\ (h' = h \/ xmax h = XMAX_ALIVE)) \/
      (exists ev e1 e2, rtc tx_step e e1 /\ event_step ev e1 e2 /\ rtc tx_step e2 e' /\ vacuumed n rid ev e1 e2).
Proof.
  induction 1 as [e|e1 e2 e3 [ev Hs] Hr IH]; intros G Hok n b Eb.
  { exists b. split_and!; [done|reflexivity|]. intros rid r h El. left. eauto. }
  destruct (event_good G e1 ev e2 Hok Hs) as (Hm & G' & Hok'). destruct (Hm n b Eb) as (b2 & Eb2 & S2 & K2).
  destruct (IH G' Hok' n b2 Eb2) as (b3 & Eb3 & S3 & K3). exists b3. split_and!; [done|by etrans|]. intros rid r h El.
  destruct (K2 rid r h El) as [(h2 & El2 & X2 & C2)|[Hgone Hrem]].
  - destruct (K3 rid r h2 El2) as [(h3 & El3 & X3 & C3)|(ev' & f1 & f2 & R1 & Hs' & R2 & Hv)].
    + left. exists h3. split_and!; [done|congruence|]. naive_solver.
    + right. exists ev', f1, f2. split_and!; [|done..]. eapply rtc_l; [by exists ev|done].
  - right. exists ev, e1, e2. split_and!; [reflexivity|done|done|]. by exists b, b2, r, h.
Qed.

(** ** What holds of them *)

(** C6: Invariant of the engine.  Whatever the connections have run, in whatever
    order, with vacuum at the ends of their statements and between them, there
    is one assignment of rows and writers to row ids that the base, every shadow
    and every savepoint agree with; the rows an open transaction wrote are in its
    own catalogs only, listed by the write track of their tables and, unless it
    has failed, in tables it recorded as touched.  The histories are those of
    [tx_step]: capture of physical changes off, no DROP TABLE, CREATE TABLE
    outside a transaction, and no COMMIT of a frozen view whose writes are
    unrecorded ([writes_recorded]). *)
Theorem reachable_agrees e : reachable e -> exists G, engine_ok G (commit_epoch e) e.
Proof. apply reachable_good. Qed.

(** C4: A committed row is lost only to vacuum, and only when deleted.  From any
    engine a history reaches, any further history (of [tx_step], as C6 lists it)
    keeps every table of the base, and every row in it with its values and its
    writer, only a row still alive being newly marked deleted; unless at some
    step of the history, with no transaction open and autovacuum on, the row
    was removed, being marked deleted in the base there, or named by the UPDATE
    or DELETE that ends with the vacuum.  [stale_commit_loses_a_row] is a
    history outside these. *)
Theorem committed_rows_stay e e' : reachable e -> rtc tx_step e e' ->
  forall n b, get (catalog e) n = Some b -> exists b', get (catalog e') n = Some b' /\ same_table b b' /\
    forall rid r h, heap b !! rid = Some (r, h) ->
      (exists h', heap b' !! rid = Some (r, h') /\ xmin h' = xmin h /\ (h' = h \/ xmax h = XMAX_ALIVE)) \/
      (exists ev e1 e2, rtc tx_step e e1 /\ event_step ev e1 e2 /\ rtc tx_step e2 e' /\ vacuumed n rid ev e1 e2).
Proof. intros (G & Hok)%reachable_good Hs. by apply (rows_stay e e' Hs G). Qed.

(** C7: COMMIT adds the transaction's own writes and nothing else.  A COMMIT
    that succeeds, at any isolation level, of a transaction that has not failed
    and whose writes are recorded ([writes_recorded]: with a frozen view, a shadow
    written to has a touched table), in an engine a history of [tx_step] reaches,
    leaves every table of the base as it was but for rows of the transaction's
    own version added, and rows that were alive marked deleted by it.  Without
    the record it may install a stale shadow ([stale_commit_loses_a_row]). *)
Theorem commit_extends_base e tx st v e' :
  reachable e -> tx_catalogs e !! tx = Some st -> writer_of tx e = Some v -> aborted st = false -> writes_recorded tx e ->
  exec_commit tx e = Some (Ok (), e') -> aligned v (catalog e) (catalog e').
Proof.
  intros (G & Hok)%reachable_good Htx Hw Hab Hrec E. destruct (commit_ok G e tx st v Hok Htx Hw Hab Hrec) as (r & e1 & E1 & Hr).
  rewrite E in E1. injection E1 as <- <-. apply Hr.
Qed.

(** C5: COMMIT of a frozen view.  When a REPEATABLE READ or SERIALIZABLE
    transaction that has not failed and whose writes are recorded (as in C7)
    commits, in an engine a history of [tx_step] reaches, no row it deleted was
    deleted or removed by anybody else since it began, and every table becomes
    the three-way merge: its own rows and deletions, over the rows committed
    meanwhile. *)
Theorem frozen_commit_merges e tx st v e' :
  reachable e -> tx_catalogs e !! tx = Some st -> writer_of tx e = Some v -> aborted st = false -> writes_recorded tx e ->
  frozen_view tx e = true -> exec_commit tx e = Some (Ok (), e') ->
  unconflicted e st v /\ merged e st v (catalog e').
Proof.
  intros (G & Hok)%reachable_good Htx Hw Hab Hrec Hf E. destruct (commit_ok G e tx st v Hok Htx Hw Hab Hrec) as (r & e1 & E1 & Hr).
  rewrite E in E1. injection E1 as <- <-. by apply Hr.
Qed.

(** C8: COMMIT of a transaction that has not failed always returns, and when it
    returns an error the base is the one there was and the transaction is over;
    only when the key of an index fails to compute is it left open. *)
Theorem commit_returns e tx st :
  reachable e -> tx_catalogs e !! tx = Some st -> aborted st = false -> writes_recorded tx e ->
  exists r e', exec_commit tx e = Some (r, e') /\
    match r with
    | Ok _ => is_tx_open tx e' = false
    | Err err => catalog e' = catalog e /\ (is_tx_open tx e' = false \/ exists d, err = Eval d)
    end.
Proof.
  intros (G & Hok)%reachable_good Htx Hab Hrec. destruct (open_writer G _ e Hok tx st Htx) as [v Hw].
  destruct (commit_ok G e tx st v Hok Htx Hw Hab Hrec) as (r & e' & E & Hr). exists r, e'. split; [done|].
  assert (forall e', tx_catalogs e' = delete tx (tx_catalogs e) -> is_tx_open tx e' = false) as Hclosed.
  { intros e1 E1. apply is_closed. rewrite E1. apply lookup_delete_eq. }
  destruct r as [[]|err].
  - destruct Hr as [(_ & Et & _) _]. by apply Hclosed.
  - destruct Hr as [(Ec & _ & Et & _)|(Hd & Ec & _)]; (split; [done|]); [left; by apply Hclosed|by right].
Qed.

(** ** Histories that run *)

Definition ordinaryb (tx : Z) (stmt : Statement) (e : Engine) : bool :=
  match stmt with
  | DropTable _ => false
  | CreateTable _ _ => negb (is_tx_open tx e)
  | Commit =>
    match tx_catalogs e !! tx with
    | Some st => aborted st || negb (frozen_view tx e) || negb (shadow_dirty st) || negb (bool_decide (touched_tables st = []))
    | None => true
    end
  | _ => true
  end.

Lemma ordinaryb_ok tx stmt e : ordinaryb tx stmt e = true -> ordinary tx stmt e.
Proof.
  destruct stmt; try done; cbn.
  - intros H st Htx Hab Hf Hd Ht. rewrite Htx, Hab, Hf, Hd, (bool_decide_eq_true_2 _ Ht) in H. done.
  - by destruct (is_tx_open tx e).
Qed.

(** The engine after a script of statements; [None] if one panics. *)
Fixpoint script (stmts : list (Z * Statement)) (e : Engine) : option Engine :=
  match stmts with
  | [] => Some e
  | (tx, stmt) :: stmts => r ← execute_in tx stmt e; script stmts r.2
  end.

(** Whether every statement of it is an ordinary one. *)
Fixpoint ordinary_script (stmts : list (Z * Statement)) (e : Engine) : bool :=
  match stmts with
  | [] => true
  | (tx, stmt) :: stmts =>
    ordinaryb tx stmt e && match execute_in tx stmt e with Some (_, e) => ordinary_script stmts e | None => false end
  end.

Lemma script_steps stmts : forall e e', ordinary_script stmts e = true -> script stmts e = Some e' -> rtc tx_step e e'.
Proof.
  induction stmts as [|[tx stmt] stmts IH]; intros e e'; cbn [script ordinary_script]; [by intros _ [= <-]|].
  destruct (execute_in tx stmt e) as [[r e1]|] eqn:E; cbn [mbind option_bind snd]; [|done].
  intros [Ho Hs]%andb_true_iff H. eapply rtc_l; [|by eapply IH]. exists (Runs tx stmt). econstructor; [by apply ordinaryb_ok|exact E].
Qed.

End Engine.
