(* ===== verification/TxCases.v ===== *)
(** Histories run on [Tx]: the theorems of [Transactions] at a concrete one,
    and the histories outside their hypotheses, in which writes are lost. *)
From stdpp Require Import gmap.
From S2P Require Import Prelude SortedMap Bytes BigNum Values RowCodec RowAccept RowLen Mvcc Heap HeapOps WriteSet Merge MergeOk Tx TxOk TxFold TxSteps TxVacuum TxCommit Transactions.
Open Scope Z_scope.

(** Constraints that never refuse. *)
#[local] Instance permissive : Constraints :=
  Build_Constraints (fun _ _ _ => Ok ()) (fun _ _ _ => Ok ()) (fun _ _ _ => Ok ()) (fun _ _ => []) (fun _ _ _ _ => Ok ())
    (fun _ _ _ => Ok ()) (fun _ _ _ => Ok ()).

Definition accounts : list Z := lit "accounts".
Definition columns : TableSchema := [mk_column (lit "n") DT.Int false].
Definition row (n : Z) : Row := [V.Int n].

(** The rows of a table that nobody deleted. *)
Definition alive_rows (e : Engine) (n : list Z) : list Row :=
  match get (catalog e) n with
  | Some t => map fst (filter (fun p => is_deleted p.2 = false) (zip (rows t) (headers t)))
  | None => []
  end.

Definition run (stmts : list (Z * Statement)) : Engine := default new_engine (script stmts new_engine).

(** Connections 1 (frozen) and 2 write concurrently, and 0 in between. *)
Definition two_writers : list (Z * Statement) :=
  [(0, CreateTable accounts columns); (0, Insert accounts [] [row 1; row 2]);
   (1, Begin RepeatableRead); (2, Begin ReadCommitted);
   (1, Update accounts [(0%nat, row 10)]); (2, Insert accounts [] [row 3]); (0, Insert accounts [] [row 4]); (2, Commit)].


Definition before_commit : Engine := run two_writers.

Lemma before_commit_reachable : reachable before_commit.
Proof. apply (script_steps two_writers); vm_compute; reflexivity. Qed.

Lemma before_commit_recorded : writes_recorded 1 before_commit.
Proof. apply (ordinaryb_ok 1 Commit). vm_compute. reflexivity. Qed.

(** ** The theorems of [Transactions], at this history *)

Lemma reachable_agrees_witness : exists G, engine_ok G (commit_epoch before_commit) before_commit.
Proof. apply (reachable_agrees before_commit). apply before_commit_reachable. Defined.

(** Connection 1 commits and, with nobody in a transaction, connection 0 deletes
    a row. *)
Definition afterwards : list (Z * Statement) := [(1, Commit); (0, Delete accounts [1%nat])].

Lemma committed_rows_stay_witness :
  exists b b', get (catalog before_commit) accounts = Some b /\
    get (catalog (run (two_writers ++ afterwards))) accounts = Some b' /\ same_table b b' /\
    forall rid r h, heap b !! rid = Some (r, h) ->
      (exists h', heap b' !! rid = Some (r, h') /\ xmin h' = xmin h /\ (h' = h \/ xmax h = XMAX_ALIVE)) \/
      (exists ev e1 e2, rtc tx_step before_commit e1 /\ event_step ev e1 e2 /\ rtc tx_step e2 (run (two_writers ++ afterwards)) /\
        vacuumed accounts rid ev e1 e2).
Proof.
  destruct (get (catalog before_commit) accounts) as [b|] eqn:E; [|vm_compute in E; discriminate]. exists b.
  assert (rtc tx_step before_commit (run (two_writers ++ afterwards))) as Hs by (apply (script_steps afterwards); vm_compute; reflexivity).
  destruct (committed_rows_stay before_commit _ before_commit_reachable Hs accounts b E) as (b' & E' & H). exists b'. split; [reflexivity|exact (conj E' H)].
Defined.

Lemma commit_extends_base_witness :
  exists st e', tx_catalogs before_commit !! 1 = Some st /\ exec_commit 1 before_commit = Some (Ok (), e') /\
    alive_rows e' accounts = [row 2; row 4; row 3; row 10] /\ aligned 3 (catalog before_commit) (catalog e').
Proof.
  eexists _, _. split; [vm_compute; reflexivity|]. split; [vm_compute; reflexivity|]. split; [vm_compute; reflexivity|].
  refine (commit_extends_base before_commit 1 _ 3 _ before_commit_reachable _ _ _ before_commit_recorded _); vm_compute; reflexivity.
Defined.

Lemma frozen_commit_merges_witness :
  exists st e', tx_catalogs before_commit !! 1 = Some st /\ exec_commit 1 before_commit = Some (Ok (), e') /\
    unconflicted before_commit st 3 /\ merged before_commit st 3 (catalog e').
Proof.
  eexists _, _. split; [vm_compute; reflexivity|]. split; [vm_compute; reflexivity|].
  refine (frozen_commit_merges before_commit 1 _ 3 _ before_commit_reachable _ _ _ before_commit_recorded _ _); vm_compute; reflexivity.
Defined.

(** The same rows, updated by connection 0 after connection 1: the COMMIT of 1
    is refused. *)
Definition overtaken_writer : Engine := run (two_writers ++ [(0, Update accounts [(0%nat, row 5)])]).

Lemma commit_returns_witness :
  exists e', exec_commit 1 overtaken_writer = Some (Err (SerializationFailure (RowsGone accounts 1)), e') /\
    catalog e' = catalog overtaken_writer /\ (is_tx_open 1 e' = false \/ exists d, SerializationFailure (RowsGone accounts 1) = Eval d).
Proof.
  assert (reachable overtaken_writer) as Hr.
  { apply (script_steps (two_writers ++ [(0, Update accounts [(0%nat, row 5)])])); vm_compute; reflexivity. }
  destruct (tx_catalogs overtaken_writer !! 1) as [st|] eqn:E; [|vm_compute in E; discriminate].
  destruct (commit_returns overtaken_writer 1 st Hr E) as (r & e' & H & Hres).
  - vm_compute in E. injection E as <-. reflexivity.
  - apply (ordinaryb_ok 1 Commit). vm_compute. reflexivity.
  - exists e'. assert (r = Err (SerializationFailure (RowsGone accounts 1))) as ->.
    { apply (f_equal (fmap fst)) in H. vm_compute in H. injection H as <-. reflexivity. }
    split; [exact H|exact Hres].
Defined.

(** ** Histories in which committed writes are lost *)

(** A statement that failed and was rolled back to a savepoint leaves the
    shadow of a frozen view marked dirty with no table touched: its COMMIT
    installs the catalog it cloned at BEGIN. *)
Definition stale : list (Z * Statement) :=
  [(0, CreateTable accounts columns); (0, Insert accounts [] [row 1]); (1, Begin RepeatableRead); (1, Savepoint (lit "s"));
   (1, Insert accounts [] [[]]); (1, RollbackToSavepoint (lit "s")); (0, Insert accounts [] [row 2])].

Lemma stale_commit_loses_a_row :
  alive_rows (run stale) accounts = [row 1; row 2] /\ alive_rows (run (stale ++ [(1, Commit)])) accounts = [row 1].
Proof. vm_compute. split; reflexivity. Qed.

Definition ledger : list Z := lit "ledger".

(** A READ COMMITTED transaction that wrote a table which was then dropped
    keeps its old shadow and installs it: the table is back, and what was
    committed elsewhere meanwhile is gone. *)
Definition dropped_under : list (Z * Statement) :=
  [(0, CreateTable accounts columns); (0, CreateTable ledger columns); (2, Begin ReadCommitted); (2, Insert accounts [] [row 1]);
   (0, DropTable accounts); (0, Insert ledger [] [row 7])].

Lemma commit_over_drop_loses_a_row :
  alive_rows (run dropped_under) ledger = [row 7] /\
  alive_rows (run (dropped_under ++ [(2, Commit)])) ledger = [] /\
  alive_rows (run (dropped_under ++ [(2, Commit)])) accounts = [row 1].
Proof. vm_compute. split_and!; reflexivity. Qed.

(** A row updated twice by a READ COMMITTED transaction and once by another
    one: the rebase drops the first new version only, and the row is there
    twice. *)
Definition chain : list (Z * Statement) :=
  [(0, CreateTable accounts columns); (0, Insert accounts [] [row 1]); (2, Begin ReadCommitted);
   (2, Update accounts [(0%nat, row 10)]); (2, Update accounts [(1%nat, row 11)]); (0, Update accounts [(0%nat, row 5)])].

Lemma chained_update_duplicates_a_row :
  alive_rows (run chain) accounts = [row 5] /\ alive_rows (run (chain ++ [(2, Commit)])) accounts = [row 5; row 11].
Proof. vm_compute. split; reflexivity. Qed.

(** The rows a merge replays keep the mark of a frozen row, with a writer that
    is not the frozen one. *)
Lemma replayed_row_looks_frozen :
  headers <$> get (catalog (run (two_writers ++ [(1, Commit)]))) accounts =
  Some [mk_header 2 3 0; alive 2; alive 5; mk_header 4 0 HEAP_XMIN_FROZEN; mk_header 3 0 HEAP_XMIN_FROZEN].
Proof. vm_compute. reflexivity. Qed.

(** ** Capture of physical changes *)

(** With capture on, every statement takes the active catalog for writing, so a
    transaction that only reads marks its shadow: COMMIT of a frozen view
    installs the catalog cloned at BEGIN, and what others committed is gone. *)
Definition capturing_engine : Engine := set_settings (mk_settings true true true true false) new_engine.
Definition reader : list (Z * Statement) :=
  [(0, CreateTable accounts columns); (1, Begin RepeatableRead); (1, Select []); (0, Insert accounts [] [row 1])].
Definition captured (stmts : list (Z * Statement)) : Engine := default capturing_engine (script stmts capturing_engine).

Lemma captured_reader_loses_a_row :
  alive_rows (captured reader) accounts = [row 1] /\ alive_rows (captured (reader ++ [(1, Commit)])) accounts = [].
Proof. vm_compute. split; reflexivity. Qed.

(** Without it the row stays. *)
Lemma plain_reader_keeps_the_row : alive_rows (run (reader ++ [(1, Commit)])) accounts = [row 1].
Proof. vm_compute. reflexivity. Qed.
