(* ===== verification/Manifest.v ===== *)
(** The catalog manifest (crates/spg-manifest/src/lib.rs): its file format,
    written and read.

    A path is its bytes.  [manifest_path], which names the file, is the path
    arithmetic of the Rust library and not modelled. *)
From S2P Require Import Prelude Bytes Crc.
Open Scope Z_scope.

(** "SPGMAN01" *)
Definition MANIFEST_MAGIC : list Z := [83; 80; 71; 77; 65; 78; 48; 49].
Definition MANIFEST_VERSION : Z := 10.
Definition FIXED_HEADER_LEN : nat := 8 + 1 + 4 + 4.
Definition FOOTER_LEN : nat := 8 + 4.
Definition SEGMENT_FIXED_LEN : nat := 4 + 4 + 4.

Record ColdSegmentEntry : Type := mk_segment { segment_id : Z; path : list Z; seg_crc32 : Z }.

Record CatalogManifest : Type := mk_manifest {
  catalog_crc32 : Z;
  cold_segments : list ColdSegmentEntry;
  wal_baseline_offset : Z
}.

Inductive ManifestError : Type :=
| BadMagic (got : list Z)
| UnsupportedVersion (got : Z)
| Truncated (offset need got : nat)
| BadCrc32 (expected computed : Z)
| PathNotUtf8 (segment : Z)
| TrailingBytes (unread : nat).

(** ** Writing *)

Definition encoded_len (m : CatalogManifest) : nat :=
  FIXED_HEADER_LEN + sum_list_with (fun s => SEGMENT_FIXED_LEN + length (path s))%nat (cold_segments m) + FOOTER_LEN.

(** A path that is not UTF-8 is written as the empty one. *)
Definition path_to_utf8 (p : list Z) : list Z := if utf8_valid p then p else [].

Definition serialize_segment (entry : ColdSegmentEntry) (out : list Z) : option (list Z) :=
  let out := out ++ le_bytes 4 (segment_id entry) in
  let path_bytes := path_to_utf8 (path entry) in
  if Z.of_nat (length path_bytes) <? 2 ^ 32 then
    let out := out ++ le_bytes 4 (Z.of_nat (length path_bytes)) in
    let out := out ++ path_bytes in
    Some (out ++ le_bytes 4 (seg_crc32 entry))
  else None.

Fixpoint serialize_segments (entries : list ColdSegmentEntry) (out : list Z) : option (list Z) :=
  match entries with
  | [] => Some out
  | entry :: entries => let! out := serialize_segment entry out in serialize_segments entries out
  end.

(** [None]: the [expect]s on a count or a length of 2^32 or more. *)
Definition serialize (m : CatalogManifest) : option (list Z) :=
  let out := MANIFEST_MAGIC ++ [MANIFEST_VERSION] ++ le_bytes 4 (catalog_crc32 m) in
  let num := Z.of_nat (length (cold_segments m)) in
  if num <? 2 ^ 32 then
    let out := out ++ le_bytes 4 num in
    let! out := serialize_segments (cold_segments m) out in
    let out := out ++ le_bytes 8 (wal_baseline_offset m) in
    Some (out ++ le_bytes 4 (crc32 out))
  else None.

(** ** Reading *)

Definition read_u32 (bytes : list Z) (offset : nat) : option Z := index_le 4 offset bytes.

Definition read_segment (bytes : list Z) (body_end offset : nat) : outcome (ColdSegmentEntry * nat) ManifestError :=
  if (body_end <? offset + SEGMENT_FIXED_LEN)%nat then Some (Err (Truncated offset SEGMENT_FIXED_LEN (body_end - offset)))
  else
    let! segment_id := read_u32 bytes offset in
    let! path_len := read_u32 bytes (offset + 4) in
    let path_len := Z.to_nat path_len in
    let offset := (offset + 8)%nat in
    if (body_end <? offset + path_len + 4)%nat then Some (Err (Truncated offset (path_len + 4) (body_end - offset)))
    else
      let! path_bytes := subslice offset (offset + path_len) bytes in
      let!? path_str := Some (from_utf8 path_bytes (PathNotUtf8 segment_id)) in
      let offset := (offset + path_len)%nat in
      let! crc := read_u32 bytes offset in
      Some (Ok (mk_segment segment_id path_str crc, (offset + 4)%nat)).

(** The loop over the declared count; every entry takes at least twelve bytes. *)
Fixpoint read_segments (fuel : nat) (num_segments : Z) (bytes : list Z) (body_end offset : nat) (cold : list ColdSegmentEntry)
  : outcome (list ColdSegmentEntry * nat) ManifestError :=
  if num_segments =? 0 then Some (Ok (cold, offset))
  else
    match fuel with
    | O => None
    | S fuel =>
      let!? (entry, offset) := read_segment bytes body_end offset in
      read_segments fuel (num_segments - 1) bytes body_end offset (cold ++ [entry])
    end.

Definition deserialize (bytes : list Z) : outcome CatalogManifest ManifestError :=
  let min_len := (FIXED_HEADER_LEN + FOOTER_LEN)%nat in
  if (length bytes <? min_len)%nat then Some (Err (Truncated 0 min_len (length bytes)))
  else
    let! magic_slice := subslice 0 8 bytes in
    if bool_decide (magic_slice <> MANIFEST_MAGIC) then Some (Err (BadMagic magic_slice))
    else
      let! version := bytes !! 8%nat in
      if negb (version =? MANIFEST_VERSION) then Some (Err (UnsupportedVersion version))
      else
        let body_end := (length bytes - 4)%nat in
        let! trailing := index_le 4 body_end bytes in
        let! body := subslice 0 body_end bytes in
        let computed := crc32 body in
        if negb (trailing =? computed) then Some (Err (BadCrc32 trailing computed))
        else
          let! catalog_crc32 := read_u32 bytes 9 in
          let! num_segments := read_u32 bytes 13 in
          let!? (cold_segments, offset) := read_segments (length bytes) num_segments bytes body_end 17 [] in
          if (body_end <? offset + 8)%nat then Some (Err (Truncated offset 8 (body_end - offset)))
          else
            let! wal_baseline_offset := index_le 8 offset bytes in
            let offset := (offset + 8)%nat in
            if negb (offset =? body_end)%nat then Some (Err (TrailingBytes (body_end - offset)))
            else Some (Ok (mk_manifest catalog_crc32 cold_segments wal_baseline_offset)).

(** ** The layout *)

Definition entry_ok (e : ColdSegmentEntry) : Prop :=
  u32 (segment_id e) /\ is_str (path e) /\ Z.of_nat (length (path e)) < 2 ^ 32 /\ u32 (seg_crc32 e).

Definition manifest_ok (m : CatalogManifest) : Prop :=
  u32 (catalog_crc32 m) /\ u64 (wal_baseline_offset m) /\ Z.of_nat (length (cold_segments m)) < 2 ^ 32 /\
  Forall entry_ok (cold_segments m).

Definition entry_bytes (e : ColdSegmentEntry) : list Z :=
  le_bytes 4 (segment_id e) ++ le_bytes 4 (Z.of_nat (length (path e))) ++ path e ++ le_bytes 4 (seg_crc32 e).
Definition entries_bytes (es : list ColdSegmentEntry) : list Z := concat (map entry_bytes es).

Definition header_bytes (m : CatalogManifest) : list Z :=
  MANIFEST_MAGIC ++ [MANIFEST_VERSION] ++ le_bytes 4 (catalog_crc32 m) ++ le_bytes 4 (Z.of_nat (length (cold_segments m))).
Definition body_bytes (m : CatalogManifest) : list Z :=
  header_bytes m ++ entries_bytes (cold_segments m) ++ le_bytes 8 (wal_baseline_offset m).

Lemma length_segment_bytes e : length (entry_bytes e) = (SEGMENT_FIXED_LEN + length (path e))%nat.
Proof. unfold entry_bytes. rewrite !length_app, !length_le_bytes. unfold SEGMENT_FIXED_LEN. lia. Qed.

Lemma length_header_bytes m : length (header_bytes m) = FIXED_HEADER_LEN.
Proof. unfold header_bytes. by rewrite !length_app, !length_le_bytes. Qed.

Lemma length_entries_bytes es :
  length (entries_bytes es) = sum_list_with (fun s => SEGMENT_FIXED_LEN + length (path s))%nat es.
Proof.
  induction es as [|e es IH]; [done|]. unfold entries_bytes in *. cbn [map concat sum_list_with].
  by rewrite length_app, length_segment_bytes, IH.
Qed.

Lemma entries_shorter es : (length es <= length (entries_bytes es))%nat.
Proof.
  induction es as [|e es IH]; [done|]. unfold entries_bytes in *. cbn [map concat length].
  rewrite length_app, length_segment_bytes. unfold SEGMENT_FIXED_LEN. lia.
Qed.

Lemma serialize_segment_layout e out : entry_ok e -> serialize_segment e out = Some (out ++ entry_bytes e).
Proof.
  intros (_ & [_ Hu] & Hl & _). unfold serialize_segment, path_to_utf8, entry_bytes. rewrite Hu.
  apply Z.ltb_lt in Hl as ->. by rewrite <- !app_assoc.
Qed.

Lemma serialize_segments_layout es : forall out, Forall entry_ok es -> serialize_segments es out = Some (out ++ entries_bytes es).
Proof.
  induction es as [|e es IH]; intros out Hok; [unfold entries_bytes; by rewrite app_nil_r|].
  apply Forall_cons in Hok as [He Hes]. cbn [serialize_segments]. rewrite (serialize_segment_layout e) by done. cbn [mbind option_bind].
  rewrite IH by done. unfold entries_bytes. cbn [map concat]. by rewrite app_assoc.
Qed.

Lemma serialize_layout m : manifest_ok m -> serialize m = Some (body_bytes m ++ le_bytes 4 (crc32 (body_bytes m))).
Proof.
  intros (_ & _ & Hl & Hes). unfold serialize. apply Z.ltb_lt in Hl as ->. rewrite serialize_segments_layout by done.
  cbn [mbind option_bind]. unfold body_bytes, header_bytes. by rewrite <- !app_assoc.
Qed.

Lemma length_manifest_body m : (length (body_bytes m) + 4)%nat = encoded_len m.
Proof.
  unfold body_bytes, encoded_len. rewrite !length_app, length_header_bytes, length_entries_bytes, length_le_bytes.
  unfold FOOTER_LEN. lia.
Qed.

Lemma entries_bytes_bytes es : Forall entry_ok es -> is_bytes (entries_bytes es).
Proof.
  induction 1 as [|e es (_ & [Hb _] & _) _ IH]; [constructor|]. unfold entries_bytes. cbn [map concat]. apply is_bytes_app.
  split; [|done]. unfold entry_bytes. repeat (apply is_bytes_app; split); try apply le_bytes_bytes. done.
Qed.

Lemma body_bytes_bytes m : manifest_ok m -> is_bytes (body_bytes m).
Proof.
  intros (_ & _ & _ & Hes). unfold body_bytes, header_bytes.
  repeat (apply is_bytes_app; split); try apply le_bytes_bytes; try (by apply entries_bytes_bytes); repeat constructor; done.
Qed.

(** ** Reading what was written *)

Lemma read_entry pre e post body_end :
  entry_ok e -> (length (pre ++ entry_bytes e) <= body_end)%nat ->
  read_segment (pre ++ entry_bytes e ++ post) body_end (length pre) = Some (Ok (e, length (pre ++ entry_bytes e))).
Proof.
  intros (Hid & Hs & Hl & Hc) Hend. rewrite length_app, length_segment_bytes in *. unfold SEGMENT_FIXED_LEN in *. unfold read_segment.
  rewrite (proj2 (Nat.ltb_ge _ _)) by (unfold SEGMENT_FIXED_LEN; lia). unfold entry_bytes, read_u32.
  rewrite (index_le_field 4 (length pre) (segment_id e) pre (le_bytes 4 (Z.of_nat (length (path e))) ++ path e ++ le_bytes 4 (seg_crc32 e) ++ post));
    [|by rewrite <- !app_assoc|done|done]. cbn [mbind option_bind].
  rewrite (index_le_field 4 (length pre + 4) (Z.of_nat (length (path e))) (pre ++ le_bytes 4 (segment_id e)) (path e ++ le_bytes 4 (seg_crc32 e) ++ post));
    [|by rewrite <- !app_assoc|by rewrite length_app, length_le_bytes|split; lia].
  cbn [mbind option_bind]. rewrite Nat2Z.id, (proj2 (Nat.ltb_ge _ _)) by lia.
  rewrite (subslice_field _ _ (path e) (pre ++ le_bytes 4 (segment_id e) ++ le_bytes 4 (Z.of_nat (length (path e)))) (le_bytes 4 (seg_crc32 e) ++ post));
    [|by rewrite <- !app_assoc|rewrite !length_app, !length_le_bytes; lia|done].
  cbn [mbind option_bind]. rewrite (from_utf8_str _ _ Hs). cbn [obind].
  rewrite (index_le_field 4 _ (seg_crc32 e) (pre ++ le_bytes 4 (segment_id e) ++ le_bytes 4 (Z.of_nat (length (path e))) ++ path e) post);
    [|by rewrite <- !app_assoc|rewrite !length_app, !length_le_bytes; lia|done].
  cbn [mbind option_bind]. destruct e. cbn [segment_id path seg_crc32]. do 3 f_equal. cbn [path]. lia.
Qed.

Lemma read_entries es : forall pre post body_end fuel cold,
  Forall entry_ok es -> (length (pre ++ entries_bytes es) <= body_end)%nat -> (length es <= fuel)%nat ->
  read_segments fuel (Z.of_nat (length es)) (pre ++ entries_bytes es ++ post) body_end (length pre) cold =
  Some (Ok (cold ++ es, length (pre ++ entries_bytes es))).
Proof.
  induction es as [|e es IH]; intros pre post body_end fuel cold Hok Hend Hf.
  { unfold entries_bytes. rewrite !app_nil_r. by destruct fuel. }
  apply Forall_cons in Hok as [He Hes]. unfold entries_bytes in *. cbn [map concat length] in *. rewrite !app_assoc in Hend. rewrite !(app_assoc pre).
  destruct fuel as [|fuel]; [lia|]. cbn [read_segments]. rewrite (proj2 (Z.eqb_neq _ _)) by lia.
  rewrite <- !app_assoc, read_entry; [|done|]. 2:{ rewrite (length_app (pre ++ _)) in Hend; lia. } cbn [obind].
  rewrite (app_assoc pre). replace (Z.of_nat (S (length es)) - 1) with (Z.of_nat (length es)) by lia.
  rewrite (IH (pre ++ entry_bytes e) post body_end fuel (cold ++ [e]) Hes Hend ltac:(lia)). by rewrite <- !app_assoc.
Qed.

Lemma deserialize_written m : manifest_ok m -> deserialize (body_bytes m ++ le_bytes 4 (crc32 (body_bytes m))) = Some (Ok m).
Proof.
  intros Hok. pose proof (body_bytes_bytes m Hok) as Hb. pose proof (length_manifest_body m) as Hlen. pose proof (crc32_u32 _ Hb) as Hcrc.
  assert (FIXED_HEADER_LEN + length (entries_bytes (cold_segments m)) + 8 = length (body_bytes m))%nat as Hparts.
  { unfold body_bytes. rewrite !length_app, length_header_bytes, length_le_bytes. lia. }
  destruct Hok as (Hcat & Hoff & Hn & Hes). unfold deserialize. rewrite length_app, length_le_bytes.
  unfold FIXED_HEADER_LEN, FOOTER_LEN in *. rewrite (proj2 (Nat.ltb_ge _ _)) by lia. rewrite Nat.add_sub.
  set (bs := body_bytes m ++ le_bytes 4 (crc32 (body_bytes m))) in *.
  assert (bs = header_bytes m ++ entries_bytes (cold_segments m) ++ le_bytes 8 (wal_baseline_offset m) ++ le_bytes 4 (crc32 (body_bytes m))) as E.
  { unfold bs. unfold body_bytes at 1. by rewrite <- !app_assoc. }
  rewrite (subslice_field 0 8 MANIFEST_MAGIC [] (drop 8 bs)); [|by rewrite E|done|done]. cbn [mbind option_bind].
  rewrite bool_decide_eq_false_2 by (intros []; done). replace (bs !! 8%nat) with (Some MANIFEST_VERSION) by (by rewrite E).
  cbn [mbind option_bind negb Z.eqb]. rewrite (index_le_field 4 _ (crc32 (body_bytes m)) (body_bytes m) []); [|by unfold bs; rewrite app_nil_r|done|done].
  cbn [mbind option_bind]. rewrite (subslice_field 0 _ (body_bytes m) [] (le_bytes 4 (crc32 (body_bytes m)))); [|done|done|done].
  cbn [mbind option_bind]. rewrite !Z.eqb_refl. cbn [negb]. unfold read_u32.
  rewrite (index_le_field 4 9 (catalog_crc32 m) (MANIFEST_MAGIC ++ [MANIFEST_VERSION]) (drop 13 bs)); [|by rewrite E|done|done].
  cbn [mbind option_bind].
  rewrite (index_le_field 4 13 (Z.of_nat (length (cold_segments m))) (MANIFEST_MAGIC ++ [MANIFEST_VERSION] ++ le_bytes 4 (catalog_crc32 m)) (drop 17 bs));
    [|by rewrite E|done|split; lia]. cbn [mbind option_bind].
  rewrite E at 1. change 17%nat with FIXED_HEADER_LEN. rewrite <- (length_header_bytes m), read_entries; [|done|rewrite length_app, length_header_bytes; unfold FIXED_HEADER_LEN; lia|].
  2:{ pose proof (entries_shorter (cold_segments m)). lia. }
  cbn [obind app]. rewrite length_app, length_header_bytes. unfold FIXED_HEADER_LEN. rewrite (proj2 (Nat.ltb_ge _ _)) by lia.
  rewrite (index_le_field 8 _ (wal_baseline_offset m) (header_bytes m ++ entries_bytes (cold_segments m)) (le_bytes 4 (crc32 (body_bytes m))));
    [|by rewrite E, <- !app_assoc|by rewrite length_app, length_header_bytes|done].
  cbn [mbind option_bind]. rewrite (proj2 (Nat.eqb_eq _ _)) by lia. by destruct m.
Qed.

(** ** Reading any bytes *)

Lemma index_le_out n off bs : is_bytes bs -> (off + n <= length bs)%nat ->
  exists x, index_le n off bs = Some x /\ in_w (8 * Z.of_nat n) x /\ le_bytes n x = slice off n bs.
Proof.
  intros Hb Hl. rewrite index_le_in by done. assert (length (slice off n bs) = n) as E by (rewrite length_slice; lia).
  eexists. split; [done|]. split; [|by apply le_bytes_le_val_n, is_bytes_slice].
  pose proof (le_val_bound _ (is_bytes_slice off n bs Hb)) as H. by rewrite E in H.
Qed.

Lemma read_segment_any bs body_end off : is_bytes bs -> (body_end <= length bs)%nat ->
  exists r, read_segment bs body_end off = Some r /\
    match r with
    | Ok (e, off') => entry_ok e /\ (off < off' <= body_end)%nat /\ slice off (off' - off) bs = entry_bytes e
    | Err _ => True
    end.
Proof.
  intros Hb Hend. unfold read_segment, SEGMENT_FIXED_LEN. destruct (Nat.ltb_spec body_end (off + (4 + 4 + 4))); [by eexists|].
  unfold read_u32. destruct (index_le_out 4 off bs Hb) as (id & -> & Hid & Eid); [lia|]. cbn [mbind option_bind].
  destruct (index_le_out 4 (off + 4) bs Hb) as (n & -> & Hn & En); [lia|]. cbn [mbind option_bind].
  destruct (Nat.ltb_spec body_end (off + 8 + Z.to_nat n + 4)); [by eexists|].
  rewrite subslice_in by lia. cbn [mbind option_bind]. replace (off + 8 + Z.to_nat n - (off + 8))%nat with (Z.to_nat n) by lia.
  unfold from_utf8. destruct (utf8_valid (slice (off + 8) (Z.to_nat n) bs)) eqn:Hu; cbn [obind]; [|by eexists].
  destruct (index_le_out 4 (off + 8 + Z.to_nat n) bs Hb) as (crc & -> & Hcrc & Ecrc); [lia|]. cbn [mbind option_bind].
  assert (length (slice (off + 8) (Z.to_nat n) bs) = Z.to_nat n) as El by (rewrite length_slice; lia).
  eexists. split; [done|]. cbv beta iota zeta. destruct Hn. split; [|split; [lia|]].
  - unfold entry_ok. cbn [segment_id path seg_crc32]. split; [done|]. split; [split; [by apply is_bytes_slice|done]|]. split; [lia|done].
  - unfold entry_bytes. cbn [segment_id path seg_crc32]. rewrite El, Z2Nat.id, Eid, En, Ecrc by lia.
    replace (off + 8)%nat with (off + 4 + 4)%nat by lia. rewrite !slice_slice. f_equal. lia.
Qed.

Lemma read_segments_any bs body_end : is_bytes bs -> (body_end <= length bs)%nat -> forall fuel num off cold,
  0 <= num -> (off <= body_end)%nat -> (body_end - off < fuel)%nat ->
  exists r, read_segments fuel num bs body_end off cold = Some r /\
    match r with
    | Ok (out, off') => exists es, out = cold ++ es /\ Forall entry_ok es /\ Z.of_nat (length es) = num /\
                                   (off <= off' <= body_end)%nat /\ slice off (off' - off) bs = entries_bytes es
    | Err _ => True
    end.
Proof.
  intros Hb Hend. induction fuel as [|fuel IH]; intros num off cold Hn Hoff Hf; [lia|]. cbn [read_segments].
  destruct (Z.eqb_spec num 0) as [->|Hne].
  { eexists. split; [done|]. exists []. split_and!; try done. 1: by rewrite app_nil_r. all: try lia. by rewrite Nat.sub_diag. }
  destruct (read_segment_any bs body_end off Hb Hend) as ([[e off1]|err] & -> & Hr); cbn [obind]; [|by eexists].
  destruct Hr as (He & Ho & Es). destruct (IH (num - 1) off1 (cold ++ [e])) as ([[out off2]|err] & -> & Hr); [lia..| |by eexists].
  eexists. split; [done|]. destruct Hr as (es & -> & Hes & Hl & Ho2 & Es2). exists (e :: es). split_and!.
  - by rewrite <- app_assoc.
  - by constructor.
  - cbn [length]. lia.
  - lia.
  - lia.
  - unfold entries_bytes in *. cbn [map concat]. rewrite <- Es, <- Es2. replace off1 with (off + (off1 - off))%nat at 2 by lia.
    rewrite slice_slice. f_equal. lia.
Qed.

(** What an accepted file is. *)
Lemma deserialize_any bs : is_bytes bs ->
  exists r, deserialize bs = Some r /\
    match r with Ok m => manifest_ok m /\ bs = body_bytes m ++ le_bytes 4 (crc32 (body_bytes m)) | Err _ => True end.
Proof.
  intros Hb. unfold deserialize. unfold FIXED_HEADER_LEN, FOOTER_LEN. destruct (Nat.ltb_spec (length bs) (8 + 1 + 4 + 4 + (8 + 4))); [by eexists|].
  rewrite (subslice_in 0 8) by lia. cbn [mbind option_bind]. case_bool_decide as Hmagic; [by eexists|].
  destruct (lookup_lt_is_Some_2 bs 8) as [version Hv]; [lia|]. rewrite Hv. cbn [mbind option_bind].
  destruct (Z.eqb_spec version MANIFEST_VERSION) as [->|]; cbn [negb]; [|by eexists].
  destruct (index_le_out 4 (length bs - 4) bs Hb) as (trailing & -> & Ht & Et); [lia|]. cbn [mbind option_bind].
  rewrite subslice_in by lia. cbn [mbind option_bind]. rewrite Nat.sub_0_r.
  destruct (Z.eqb_spec trailing (crc32 (slice 0 (length bs - 4) bs))) as [->|]; cbn [negb]; [|by eexists]. unfold read_u32.
  destruct (index_le_out 4 9 bs Hb) as (cat & -> & Hcat & Ecat); [lia|]. cbn [mbind option_bind].
  destruct (index_le_out 4 13 bs Hb) as (num & -> & Hnum & Enum); [lia|]. cbn [mbind option_bind]. destruct Hnum.
  destruct (read_segments_any bs (length bs - 4) Hb ltac:(lia) (length bs) num 17 []) as ([[es off]|err] & -> & Hr); [lia..| |by eexists].
  cbn [obind]. destruct Hr as (es' & -> & Hes & Hl & Ho & Es). cbn [app].
  destruct (Nat.ltb_spec (length bs - 4) (off + 8)); [by eexists|].
  destruct (index_le_out 8 off bs Hb) as (wal & -> & Hwal & Ewal); [lia|]. cbn [mbind option_bind].
  destruct (Nat.eqb_spec (off + 8) (length bs - 4)); cbn [negb]; [|by eexists].
  eexists. split; [done|]. set (m := mk_manifest cat es' wal). assert (body_bytes m = slice 0 (length bs - 4) bs) as Ebody.
  { unfold body_bytes, header_bytes. cbn [catalog_crc32 cold_segments wal_baseline_offset m]. rewrite Hl, Ecat, Enum, Ewal, <- Es, <- Hmagic.
    assert ([MANIFEST_VERSION] = slice 8 1 bs) as -> by (unfold slice; by rewrite (drop_S bs MANIFEST_VERSION 8 Hv)).
    replace (slice off 8 bs) with (slice (17 + (off - 17)) 8 bs) by (f_equal; lia). rewrite !slice_slice.
    f_equal. lia. }
  split; [split_and!; try done; cbn; lia|]. rewrite Ebody, Et.
  etrans; [|symmetry; apply (slice_slice bs 0 (length bs - 4) 4)]. unfold slice. by rewrite drop_0, firstn_all2 by lia.
Qed.

(** ** The format *)

(** C31: The reader accepts exactly what the writer writes.  Any bytes are read
    without a panic; a manifest comes out of them if and only if it is one whose
    fields fit their widths and whose paths are text, and they are the bytes its
    serialisation writes, which are as many as [encoded_len] promises. *)
Theorem manifest_exact bs :
  is_bytes bs ->
  (exists r, deserialize bs = Some r) /\
  forall m, deserialize bs = Some (Ok m) <-> manifest_ok m /\ serialize m = Some bs /\ length bs = encoded_len m.
Proof.
  intros Hb. destruct (deserialize_any bs Hb) as (r & Hr & Hm). split; [by exists r|]. intros m. split.
  - rewrite Hr. intros [= ->]. destruct Hm as [Hok ->]. rewrite serialize_layout by done. split_and!; try done.
    rewrite length_app, length_le_bytes. apply length_manifest_body.
  - intros (Hok & Hs & _). rewrite serialize_layout in Hs by done. injection Hs as <-. by apply deserialize_written.
Qed.

Definition sample : CatalogManifest :=
  mk_manifest 0xDEADBEEF [mk_segment 0 (lit "/var/lib/seg_0.spg") 0x11111111; mk_segment 7 (lit "s") 1] (2 ^ 40).

Lemma manifest_exact_witness :
  exists bs, serialize sample = Some bs /\ is_bytes bs /\ length bs = 72%nat /\ deserialize bs = Some (Ok sample).
Proof.
  eexists. split; [vm_compute; reflexivity|]. match goal with |- is_bytes ?b /\ _ => assert (is_bytes b) as Hb end.
  { apply (bool_decide_unpack _). vm_compute. exact I. }
  split; [exact Hb|]. split; [reflexivity|].
  refine (proj2 (proj2 (manifest_exact _ Hb) sample) _). split; [|split; [vm_compute; reflexivity|reflexivity]].
  split; [by split|]. split; [by split|]. split; [done|].
  repeat constructor; try done; cbn; try lia.
  all: apply (bool_decide_unpack _); vm_compute; exact I.
Defined.

(** A burst of at most four bytes anywhere before the checksum is reported. *)
Lemma damage_reported pre w1 w2 post m :
  is_bytes pre -> is_bytes w1 -> is_bytes w2 -> is_bytes post -> length w1 = length w2 -> (length w1 <= 4)%nat -> w1 <> w2 ->
  deserialize ((pre ++ w2 ++ post) ++ le_bytes 4 (crc32 (pre ++ w1 ++ post))) <> Some (Ok m).
Proof.
  intros Hpre Hw1 Hw2 Hpost Hlen H4 Hne Hd. assert (is_bytes (pre ++ w2 ++ post)) as Hb2 by (by repeat (apply is_bytes_app; split)).
  assert (is_bytes (pre ++ w1 ++ post)) as Hb1 by (by repeat (apply is_bytes_app; split)).
  destruct (deserialize_any ((pre ++ w2 ++ post) ++ le_bytes 4 (crc32 (pre ++ w1 ++ post)))) as (r & Hr & Hm).
  { apply is_bytes_app. split; [done|apply le_bytes_bytes]. }
  rewrite Hd in Hr. injection Hr as <-. destruct Hm as [Hok' E].
  apply app_inj_2 in E as [E1 E2]; [|by rewrite !length_le_bytes].
  apply le_bytes_inj in E2; [|by apply crc32_u32|apply crc32_u32; by rewrite <- E1].
  destruct (crc_detects_bursts pre w1 w2 post) as [Hc _]; try done. apply Hc. by rewrite E1.
Qed.

(** A path that is not UTF-8 is written without complaint and read back empty. *)
Definition latin1 : CatalogManifest := mk_manifest 0 [mk_segment 3 [0x64; 0xE9; 0x62] 1] 0.

Lemma non_utf8_path_lost :
  exists bs, serialize latin1 = Some bs /\ (length bs < encoded_len latin1)%nat /\
    deserialize bs = Some (Ok (mk_manifest 0 [mk_segment 3 [] 1] 0)).
Proof. eexists. split; [vm_compute; reflexivity|]. split; [vm_compute; lia|vm_compute; reflexivity]. Qed.
