(* ===== verification/Server.v ===== *)
(** What the server keeps on disk and when: the commit group, the statements
    a connection logs itself (crates/spg-server/src/wal.rs, pgwire.rs), the
    checkpoint (commands.rs) and the boot (main.rs), around the log of Wal and
    the manifest of Manifest.

    The engine is the class [ServerEngine]; a statement carries its text, its
    dialect and the readings it draws from.  [write_atomic] replaces a file or
    leaves it; directories, prefetch threads and the audit barrier are not
    modelled. *)
From stdpp Require Import gmap.
From S2P Require Import Prelude Bytes Text SortedMap Crc Wal WalLog WalRecovery Manifest.
Open Scope Z_scope.

(** [execute_in] also tells whether the statement is one to be logged: not
    when it failed, nor when it only read. *)
Class ServerEngine (Eng : Type) `{!ReplayEngine Eng} : Type := {
  fresh_engine : Eng;
  execute_in : Eng -> Z -> stmt -> Eng * bool;
  is_tx_open : Eng -> Z -> bool;
  replace_catalog : Eng -> Eng -> Eng;
  snapshot : Eng -> list Z;
  restore_envelope : list Z -> option Eng;
  load_segment_bytes_at : Z -> list Z -> Eng -> option Eng;
  has_users : Eng -> bool;
  create_user : list Z -> list Z -> Eng -> option Eng
}.

(** ** The ends of a transaction, in the text of a statement *)

Inductive TxEdge : Type := Opens | Closes | Neither.

(** [lower.split(|c| c.is_whitespace() || c == ';' || c == '(')] *)
Fixpoint split_words (skip : nat) (w s : list Z) : list (list Z) :=
  match s with
  | [] => [rev w]
  | x :: s' =>
    match skip with
    | S skip => split_words skip w s'
    | O =>
      if (x =? 0x3B) || (x =? 0x28) then rev w :: split_words 0 [] s'
      else match ws_head s with
           | Some n => rev w :: split_words (n - 1) [] s'
           | None => split_words 0 (x :: w) s'
           end
    end
  end.

Fixpoint trim_start_go (skip : nat) (s : list Z) : list Z :=
  match s, skip with
  | [], _ => []
  | _ :: s', S skip => trim_start_go skip s'
  | _ :: s', O => match ws_head s with Some n => trim_start_go (n - 1) s' | None => s end
  end.
Definition trim_start (s : list Z) : list Z := trim_start_go 0 s.

Definition wal_tx_edge (sql : list Z) : TxEdge :=
  let words := split_words 0 [] (to_ascii_lowercase (trim_start sql)) in
  let first := default [] (head words) in
  if bool_decide (first = lit "begin" \/ first = lit "start") then Opens
  else if bool_decide (first = lit "commit" \/ first = lit "end" \/ first = lit "abort") then Closes
  else if bool_decide (first = lit "rollback") then
    if bool_decide (head (filter (fun w => w <> []) (tail words)) = Some (lit "to")) then Neither else Closes
  else Neither.

(** *** Which statements go through the commit group *)

(** [s.split_ascii_whitespace().next()] *)
Definition is_ascii_ws (c : Z) : bool := (c =? 32) || (c =? 9) || (c =? 10) || (c =? 12) || (c =? 13).
Fixpoint take_word (s : list Z) : list Z :=
  match s with x :: s' => if is_ascii_ws x then [] else x :: take_word s' | [] => [] end.
Fixpoint drop_ascii_ws (s : list Z) : list Z :=
  match s with x :: s' => if is_ascii_ws x then drop_ascii_ws s' else s | [] => [] end.

Definition trim_end (s : list Z) : list Z :=
  (fix go s := match s with [] => [] | x :: s' => if bool_decide (trim_start s = []) then [] else x :: go s' end) s.

(** [trim_end_matches(';')] *)
Definition trim_semicolons (s : list Z) : list Z :=
  (fix go s := match s with [] => [] | x :: s' => if forallb (fun c => c =? 0x3B) s then [] else x :: go s' end) s.

Fixpoint ci_contains (b needle : list Z) : bool :=
  eq_ignore_ascii_case (take (length needle) b) needle ||
  match b with [] => false | _ :: b => ci_contains b needle end.

(** The tests of [try_queue_plain_dml] on the text, with a log configured, no
    statement timeout, and a role that may write. *)
Definition queues_plain_dml (in_tx : bool) (sql : list Z) : bool :=
  if in_tx then false
  else
    let verb := to_ascii_lowercase (take_word (drop_ascii_ws (trim_start sql))) in
    if negb (bool_decide (verb ∈ [lit "insert"; lit "update"; lit "delete"; lit "merge"])) then false
    else if ci_contains sql (lit "returning") then false
    else negb (bool_decide (0x3B ∈ trim_semicolons (trim_end sql))).

(** ** The log, as a connection writes it *)

(** How appends are made: compression, limits, what the file system does. *)
Record wal_mode : Type := mk_mode { compress_on : bool; compress_from : nat; mode_limits : wal_limits; mode_fate : io_fate }.

(** [None]: the panic of an encoder. *)
Definition append_wal (m : wal_mode) (wal : list Z) (v : option volatiles) (sql : list Z) (sync mysql : bool) : option (list Z * result () wal_error) :=
  append_wal_dialect (compress_on m) (compress_from m) (mode_limits m) (mode_fate m) wal v sql sync mysql.

Record Conn : Type := mk_conn { tx_id : Z; tx_unlogged : bool }.

Definition BEGIN : list Z := lit "BEGIN".

Definition flush_deferred_begin (m : wal_mode) (v : option volatiles) (mysql : bool) (wal : list Z) (c : Conn)
  : option (list Z * Conn * result () wal_error) :=
  if tx_unlogged c then
    let! (wal, r) := append_wal m wal v BEGIN false mysql in
    Some (wal, mk_conn (tx_id c) false, r)
  else Some (wal, c, Ok ()).

(** Of the result of a statement: [None] for an error or the rows of a read,
    otherwise whether the catalog was modified.  A log is configured. *)
Definition persist_wire_write (m : wal_mode) (in_tx sync_commit : bool) (s : stmt) (modified_catalog : option bool) (wal : list Z) (c : Conn)
  : option (list Z * Conn * result () wal_error) :=
  match modified_catalog with
  | None => Some (wal, c, Ok ())
  | Some _ =>
    let log wal c :=
      let! (wal, c, r) := flush_deferred_begin m (st_readings s) (st_mysql s) wal c in
      match r with
      | Err e => Some (wal, c, Err e)
      | Ok _ =>
        let! (wal, r) := append_wal m wal (st_readings s) (st_sql s) (sync_commit && negb in_tx) (st_mysql s) in
        Some (wal, c, r)
      end in
    match wal_tx_edge (st_sql s) with
    | Opens => Some (wal, mk_conn (tx_id c) true, Ok ())
    | Closes => if tx_unlogged c then Some (wal, mk_conn (tx_id c) false, Ok ()) else log wal c
    | Neither => log wal c
    end
  end.

(** ** Files *)

Record Disk : Type := mk_disk {
  db_file : option (list Z);
  manifest_file : option (list Z);
  segment_files : gmap (list Z) (list Z);
  wal_file : list Z
}.

Definition set_db (f : option (list Z)) (d : Disk) : Disk := mk_disk f (manifest_file d) (segment_files d) (wal_file d).
Definition set_manifest (f : option (list Z)) (d : Disk) : Disk := mk_disk (db_file d) f (segment_files d) (wal_file d).
Definition set_wal (f : list Z) (d : Disk) : Disk := mk_disk (db_file d) (manifest_file d) (segment_files d) f.

(** The new file under its name, or the old one. *)
Definition write_atomic (works : bool) (data : list Z) (file : option (list Z)) : option (list Z) := if works then Some data else file.

(** Best effort: a segment that cannot be read is left out, and a manifest
    that cannot be written is not. *)
Definition write_manifest_alongside (works : bool) (snapshot_bytes : list Z) (cold_segment_paths : list (Z * list Z)) (wal_baseline_offset : Z) (d : Disk)
  : option Disk :=
  let cold_segments := omap (fun '(id, path) => bytes ← segment_files d !! path; Some (mk_segment id path (crc32 bytes))) cold_segment_paths in
  let! bytes := serialize (mk_manifest (crc32 snapshot_bytes) cold_segments wal_baseline_offset) in
  Some (set_manifest (write_atomic works bytes (manifest_file d)) d).

Section Server.
Context {Eng : Type} `{SE : ServerEngine Eng}.

Record Server : Type := mk_server { engine : Eng; disk : Disk; cold_segment_paths : list (Z * list Z) }.

(** ** The commit group *)

(** A statement that does not encode is refused; one that fails has rolled
    itself back and is not logged. *)
Fixpoint leader_execute (m : wal_mode) (group : list (Z * stmt)) (e : Eng) (prepared : list (list Z)) : option (Eng * list (list Z)) :=
  match group with
  | [] => Some (e, prepared)
  | (tx, s) :: group =>
    let! encoded := leader_entry (compress_on m) (compress_from m) (st_mysql s) (st_readings s) (st_sql s) in
    match encoded with
    | Err _ => leader_execute m group e prepared
    | Ok wal_bytes =>
      let '(e, commit_worthy) := execute_in e tx s in
      leader_execute m group e (if commit_worthy then prepared ++ [wal_bytes] else prepared)
    end
  end.

(** The group's one append; when it fails the catalog is put back. *)
Definition leader_append (m : wal_mode) (pre_image : Eng) (prepared : list (list Z)) (want_sync : bool) (e : Eng) (wal : list Z)
  : Eng * list Z * result () wal_error :=
  match prepared with
  | [] => (e, wal, Ok ())
  | _ =>
    let '(wal, r) := append_wal_v3_group (mode_limits m) (mode_fate m) wal prepared want_sync in
    (match r with Ok _ => e | Err _ => replace_catalog pre_image e end, wal, r)
  end.

(** A statement of a connection, by either way.  [slot] is the transaction
    slot the group takes for it. *)
Definition connection_statement (m : wal_mode) (sync_commit : bool) (slot : Z) (s : stmt) (c : Conn) (e : Eng) (wal : list Z)
  : option (Eng * list Z * Conn * result () wal_error) :=
  if queues_plain_dml (is_tx_open e (tx_id c)) (st_sql s) then
    let! (e', prepared) := leader_execute m [(slot, s)] e [] in
    let '(e', wal, r) := leader_append m e prepared sync_commit e' wal in
    Some (e', wal, c, r)
  else
    let '(e, worthy) := execute_in e (tx_id c) s in
    let! (wal, c, r) := persist_wire_write m (is_tx_open e (tx_id c)) sync_commit s (if worthy then Some true else None) wal c in
    Some (e, wal, c, r).

(** A connection that goes away: its transaction is rolled back. *)
Definition ROLLBACK_STMT : stmt := mk_stmt false None ROLLBACK.
Definition drop_connection (c : Conn) (e : Eng) : Eng :=
  if is_tx_open e (tx_id c) then (execute_in e (tx_id c) ROLLBACK_STMT).1 else e.

(** ** CHECKPOINT *)

(** What is left to do of it. *)
Inductive Checkpoint : Type :=
| Captured (snapshot_bytes : list Z) (any_tx_open : bool)
| Snapshotted (snapshot_bytes : list Z) (any_tx_open : bool)
| Manifested (any_tx_open : bool).

(** Under the engine's lock, released before anything is written. *)
Definition checkpoint_capture (e : Eng) : Checkpoint := Captured (snapshot e) (in_transaction e).

(** One write of it: what remains, and the disk; [works] tells whether the
    file system does its part. *)
Definition checkpoint_step (works : bool) (c : Checkpoint) (s : Server) : option (option Checkpoint * Server) :=
  let '(mk_server e d paths) := s in
  match c with
  | Captured bytes any_tx_open =>
    if works then Some (Some (Snapshotted bytes any_tx_open), mk_server e (set_db (Some bytes) d) paths) else Some (None, s)
  | Snapshotted bytes any_tx_open =>
    let! d := write_manifest_alongside works bytes paths 0 d in
    Some (Some (Manifested any_tx_open), mk_server e d paths)
  | Manifested any_tx_open =>
    if any_tx_open then Some (None, s) else Some (None, if works then mk_server e (set_wal [] d) paths else s)
  end.

(** ** Boot *)

Inductive BootError : Type := RestoreFailed | ReplayFailed (e : wal_error) | BootstrapFailed.

(** [parallel_read_segments], by id; of two entries with one id the last
    is the one that was read. *)
Definition read_map (files : gmap (list Z) (list Z)) (entries : list ColdSegmentEntry) : list (Z * option (list Z)) :=
  fold_left (fun m en => sm_insert (segment_id en) (files !! path en) m) entries [].

(** A segment that is missing, damaged or refused is skipped. *)
Definition preload_segment (reads : list (Z * option (list Z))) (acc : Eng * list (Z * list Z)) (entry : ColdSegmentEntry) : Eng * list (Z * list Z) :=
  let '(cat, paths) := acc in
  match mjoin (sm_lookup (segment_id entry) reads) with
  | None => (cat, paths)
  | Some seg_bytes =>
    if negb (crc32 seg_bytes =? seg_crc32 entry) then (cat, paths)
    else
      match load_segment_bytes_at (segment_id entry) seg_bytes cat with
      | Some cat => (cat, sm_insert (segment_id entry) (path entry) paths)
      | None => (cat, paths)
      end
  end.

Definition load_manifest_and_preload_cold (e : Eng) (d : Disk) (snapshot_bytes : list Z) (paths : list (Z * list Z))
  : option (Eng * list (Z * list Z) * Z) :=
  match manifest_file d with
  | None => Some (e, paths, 0)
  | Some bytes =>
    let! r := deserialize bytes in
    match r with
    | Err _ => Some (e, paths, 0)
    | Ok m =>
      if negb (crc32 snapshot_bytes =? catalog_crc32 m) then Some (e, paths, 0)
      else
        let '(e, paths) := fold_left (preload_segment (read_map (segment_files d) (cold_segments m))) (cold_segments m) (e, paths) in
        Some (e, paths, wal_baseline_offset m)
    end
  end.

Definition restore_engine (d : Disk) : outcome (Eng * list (Z * list Z) * Z) BootError :=
  match db_file d with
  | None => Some (Ok (fresh_engine, [], 0))
  | Some bytes =>
    match restore_envelope bytes with
    | None => Some (Err RestoreFailed)
    | Some e =>
      let! r := load_manifest_and_preload_cold e d bytes [] in
      Some (Ok r)
    end
  end.

(** [credentials] are the user and password the environment gives. *)
Definition bootstrap_admin_from_env (works : bool) (credentials : option (list Z * list Z)) (e : Eng) (d : Disk) : outcome (Eng * Disk) BootError :=
  if has_users e then Some (Ok (e, d))
  else
    match credentials with
    | None => Some (Ok (e, d))
    | Some (user, password) =>
      match create_user user password e with
      | None => Some (Err BootstrapFailed)
      | Some e =>
        let bytes := snapshot e in
        if works then
          let! d := write_manifest_alongside works bytes [] 0 (set_db (Some bytes) d) in
          Some (Ok (e, d))
        else Some (Ok (e, d))
      end
    end.

Definition boot (works : bool) (upto : option nat) (credentials : option (list Z * list Z)) (d : Disk) : outcome Server BootError :=
  let!? r := restore_engine d in
  let '(e, paths, baseline) := r in
  let! r := replay_wal_into_engine e (wal_file d) upto (Z.to_nat baseline) in
  let '(e, wal, r) := r in
  match r with
  | Err err => Some (Err (ReplayFailed err))
  | Ok _ =>
    let!? r := bootstrap_admin_from_env works credentials e (set_wal wal d) in
    let '(e, d) := r in
    Some (Ok (mk_server e d paths))
  end.
End Server.
