(* ===== verification/ServerOk.v ===== *)
(** What a restart of the server runs: over the snapshot of the last
    checkpoint the statements acknowledged since, each once and in order, as
    long as checkpoints run alone.  Nothing is assumed of the engine's
    operations but that a snapshot is made of bytes. *)
From stdpp Require Import gmap.
From S2P Require Import Prelude Bytes Text SortedMap Crc Wal WalReplay WalLog WalRecovery Manifest Server.
Open Scope Z_scope.

(** ** Statements of the commit group *)

Section Restart.
Context {Eng : Type} `{SE : ServerEngine Eng} (snapshot_bytes : forall e : Eng, is_bytes (snapshot e)).

Definition has_readings (s : stmt) : Prop := is_Some (st_readings s).

(** Readings left over from a write cut short change nothing: the statement
    has its own. *)
Lemma run_stmt_pending s e v : has_readings s -> run_log (stmt_entries s) (e, v) = (run_stmt e s, None).
Proof. intros [r Hr]. unfold stmt_entries, run_stmt, run_log. rewrite Hr. by destruct (st_mysql s). Qed.

Lemma run_stmts_pending ss : forall e v, Forall has_readings ss ->
  exists v', run_log (concat (map stmt_entries ss)) (e, v) = (fold_left run_stmt ss e, v').
Proof.
  induction ss as [|s ss IH]; intros e v Hr; [by exists v|]. apply Forall_cons in Hr as [Hs Hr].
  cbn [map concat fold_left]. rewrite run_log_app, run_stmt_pending by done. by apply IH.
Qed.

(** A log of statements cut at an entry. *)
Lemma run_cut ss : forall es1 es2, Forall has_readings ss -> concat (map stmt_entries ss) = es1 ++ es2 ->
  exists n, forall e v, exists v', run_log es1 (e, v) = (fold_left run_stmt (take n ss) e, v').
Proof.
  induction ss as [|s ss IH]; intros es1 es2 Hr E.
  { symmetry in E. apply app_eq_nil in E as [-> _]. exists 0%nat. intros e v. by exists v. }
  apply Forall_cons in Hr as [[r Hs] Hr]. assert (stmt_entries s = [Readings r; Statement (st_mysql s) (st_sql s)]) as Es by (unfold stmt_entries; by rewrite Hs).
  cbn [map concat] in E. rewrite Es in E. destruct es1 as [|en1 [|en2 es1]]; cbn [app] in E.
  - exists 0%nat. intros e v. by exists v.
  - injection E as <- _. exists 0%nat. intros e v. by exists (Some r).
  - injection E as <- <- E. destruct (IH es1 es2 Hr E) as (n & H). exists (S n). intros e v. destruct (H (run_stmt e s) None) as [v' Hv']. exists v'.
    cbn [take fold_left]. rewrite <- Hv'. change (Readings r :: ?x :: es1) with ([Readings r; x] ++ es1). rewrite <- Es, run_log_app, run_stmt_pending by by exists r. done.
Qed.

(** The statements of a group the leader answers with success: those that
    executed and are to be logged. *)
Fixpoint acknowledged (group : list (Z * stmt)) (e : Eng) : list stmt :=
  match group with
  | [] => []
  | (tx, s) :: group => let '(e, commit_worthy) := execute_in e tx s in (if commit_worthy then [s] else []) ++ acknowledged group e
  end.

(** What the leader prepares is the entries of those, in order. *)
Lemma leader_prepares m group : forall e prepared e' out,
  Forall (fun t => stmt_ok t.2) group -> leader_execute m group e prepared = Some (e', out) ->
  exists bss, out = prepared ++ bss /\
    Forall2 (fun s bs => leader_stmt (compress_on m) (compress_from m) s = Some (Ok bs)) (acknowledged group e) bss.
Proof.
  induction group as [|[tx s] group IH]; intros e prepared e' out Hok; cbn [leader_execute acknowledged].
  { intros [= <- <-]. exists []. by rewrite app_nil_r. }
  apply Forall_cons in Hok as [Hs Hok]. destruct (leader_is_log (compress_on m) (compress_from m) s Hs) as (bs & Hbs & _).
  pose proof Hbs as Hbs'. unfold leader_stmt in Hbs'. rewrite Hbs'. cbn [mbind option_bind]. destruct (execute_in e tx s) as [e1 []]; intros H; destruct (IH _ _ _ _ Hok H) as (bss & -> & H2); [|by exists bss].
  exists (bs :: bss). rewrite <- app_assoc. split; [done|]. by constructor.
Qed.

Lemma acknowledged_all (P : stmt -> Prop) group : forall e, Forall (fun t => P t.2) group -> Forall P (acknowledged group e).
Proof.
  induction group as [|[tx s] group IH]; intros e Hg; cbn [acknowledged]; [done|]. apply Forall_cons in Hg as [Hs Hg].
  destruct (execute_in e tx s) as [e1 []]; [constructor; [done|]|]; by apply IH.
Qed.

(** ** Boot on a log *)

(** A transaction the log leaves open is rolled back in memory. *)
Definition ended (e : Eng) : result Eng BootError :=
  if in_transaction e then
    let '(e, ok) := execute e ROLLBACK in
    if ok : bool then Ok e else Err (ReplayFailed RollbackFailed)
  else Ok e.

Lemma boot_log e es L t e' v : is_log es L -> torn_tail t -> run_log es (e, None) = (e', v) ->
  exists e2 r, replay_wal_into_engine e (L ++ t) None 0 = Some (e2, L, r) /\
    match r with Ok _ => ended e' = Ok e2 | Err err => ended e' = Err (ReplayFailed err) end.
Proof.
  intros HL Ht Hrun. unfold replay_wal_into_engine, ended. change ((0 <? 0)%nat && _)%nat with false. cbv iota zeta.
  rewrite (replay_log es), Hrun by done. cbn [mbind option_bind negb fst]. rewrite andb_true_r. cbn [valid_bytes Nat.add].
  assert ((if (length L <? length (L ++ t))%nat then take (length L) (L ++ t) else L ++ t) = L) as ->.
  { destruct (Nat.ltb_spec (length L) (length (L ++ t))) as [|Hge]; [by rewrite take_app_length|].
    rewrite length_app in Hge. destruct t; [by rewrite app_nil_r|cbn in Hge; lia]. }
  destruct (in_transaction e'); [destruct (execute e' ROLLBACK) as [e2 []]|]; eexists _, _; by split.
Qed.

(** A manifest that lists nothing, as those of a server without cold segments. *)
Definition blank_manifest (f : option (list Z)) : Prop :=
  match f with None => True | Some bytes => exists crc, deserialize bytes = Some (Ok (mk_manifest crc [] 0)) end.

Lemma preload_nothing e d bytes : blank_manifest (manifest_file d) -> load_manifest_and_preload_cold e d bytes [] = Some (e, [], 0).
Proof.
  unfold load_manifest_and_preload_cold. destruct (manifest_file d) as [mf|]; [|done]. intros [crc ->]. cbn [mbind option_bind catalog_crc32].
  destruct (negb _); done.
Qed.

(** What a boot makes of a database file and the statements in the log. *)
Definition recovered (base : option (list Z)) (ran : list stmt) : result Eng BootError :=
  match base with
  | None => ended (fold_left run_stmt ran fresh_engine)
  | Some bytes => match restore_envelope bytes with Some e => ended (fold_left run_stmt ran e) | None => Err RestoreFailed end
  end.

Definition booted (r : result Eng BootError) (d : Disk) : outcome (Server (Eng := Eng)) BootError :=
  Some (match r with Ok e => Ok (mk_server e d []) | Err err => Err err end).

Lemma write_blank works bytes d : is_bytes bytes -> blank_manifest (manifest_file d) ->
  exists d', write_manifest_alongside works bytes [] 0 d = Some d' /\ blank_manifest (manifest_file d') /\
    db_file d' = db_file d /\ wal_file d' = wal_file d.
Proof.
  intros Hb Hm. unfold write_manifest_alongside. cbn [omap list_omap]. set (m := mk_manifest (crc32 bytes) [] 0).
  assert (manifest_ok m) as Hok by (split_and!; [by apply crc32_u32|by split|done|constructor]).
  rewrite (serialize_layout m Hok). cbn [mbind option_bind]. eexists. split; [done|]. split; [|done].
  destruct works; cbn [write_atomic manifest_file set_manifest]; [|done]. exists (crc32 bytes). by apply deserialize_written.
Qed.

(** A log of statements, the entry of one more's readings after it if a write
    was cut there, and anything an entry starts with. *)
Lemma boot_statements d es L t ran :
  blank_manifest (manifest_file d) -> is_log es L -> torn_tail t ->
  (forall e, exists v, run_log es (e, None) = (fold_left run_stmt ran e, v)) -> wal_file d = L ++ t ->
  boot false None None d = booted (recovered (db_file d) ran) (set_wal L d).
Proof.
  intros Hm HL Ht Hrun Ew.
  assert (forall e, (let! r := replay_wal_into_engine e (wal_file d) None (Z.to_nat 0) in
    let '(e, wal, r) := r in
    match r with
    | Err err => Some (Err (ReplayFailed err))
    | Ok _ =>
      let!? r := bootstrap_admin_from_env false None e (set_wal wal d) in
      let '(e, d) := r in Some (Ok (mk_server e d []))
    end) = booted (ended (fold_left run_stmt ran e)) (set_wal L d)) as Hreplay.
  { intros e. destruct (Hrun e) as [v Hv]. rewrite Ew. change (Z.to_nat 0) with 0%nat. destruct (boot_log e es L t _ v HL Ht Hv) as (e2 & [r|err] & E & Hend).
    - rewrite E, Hend. cbn [mbind option_bind]. unfold bootstrap_admin_from_env. by destruct (has_users e2).
    - rewrite E, Hend. done. }
  unfold boot, restore_engine, recovered. destruct (db_file d) as [bytes|]; [|apply Hreplay].
  destruct (restore_envelope bytes) as [e|]; [|done]. rewrite preload_nothing by done. apply Hreplay.
Qed.

(** ** Checkpoints that run alone *)

(** Of the log since the last checkpoint: a group acknowledged, and one whose
    write a crash cut short. *)
Inductive event : Type := Acked (ss : list stmt) | Cut (ss : list stmt).

(** What is to be run of them: every group acknowledged, once and in order; of
    a write cut short some first statements. *)
Fixpoint runs_of (events : list event) (ran : list stmt) : Prop :=
  match events with
  | [] => ran = []
  | Acked ss :: events => exists rest, ran = ss ++ rest /\ runs_of events rest
  | Cut ss :: events => exists n rest, ran = take n ss ++ rest /\ runs_of events rest
  end.

(** The server, the snapshot of its last checkpoint, and what it logged since. *)
Record History : Type := mk_history { h_server : Server (Eng := Eng); h_base : option (list Z); h_events : list event }.
Definition opening : History := mk_history (mk_server fresh_engine (mk_disk None None ∅ []) []) None [].

Definition good_group (group : list (Z * stmt)) : Prop := Forall (fun t => stmt_ok t.2 /\ has_readings t.2) group.

(** A group is executed and appended, or its append fails and the file is cut
    back; a checkpoint runs with no transaction open and nothing else between
    its writes; a crash leaves any part of a group's write, and the server
    starts again. *)
Inductive quiet_step : History -> History -> Prop :=
| quiet_group m s base events group want_sync e prepared e' wal r :
    good_group group -> set_len_works (mode_fate m) = true ->
    leader_execute m group (engine s) [] = Some (e, prepared) ->
    leader_append m (engine s) prepared want_sync e (wal_file (disk s)) = (e', wal, r) ->
    quiet_step (mk_history s base events)
      (mk_history (mk_server e' (set_wal wal (disk s)) (cold_segment_paths s)) base
        (if is_ok r then events ++ [Acked (acknowledged group (engine s))] else events))
| quiet_checkpoint s base events manifest_works c1 s1 c2 s2 s3 :
    in_transaction (engine s) = false ->
    checkpoint_step true (checkpoint_capture (engine s)) s = Some (Some c1, s1) ->
    checkpoint_step manifest_works c1 s1 = Some (Some c2, s2) ->
    checkpoint_step true c2 s2 = Some (None, s3) ->
    quiet_step (mk_history s base events) (mk_history s3 (Some (snapshot (engine s))) [])
| quiet_crash m s base events group e prepared n s' :
    good_group group ->
    leader_execute m group (engine s) [] = Some (e, prepared) ->
    boot false None None (set_wal (wal_file (disk s) ++ take n (concat prepared)) (disk s)) = Some (Ok s') ->
    quiet_step (mk_history s base events) (mk_history s' base (events ++ [Cut (acknowledged group (engine s))])).

(** The log is that of statements [runs_of] allows. *)
Record quiet_inv (h : History) : Prop := {
  q_paths : cold_segment_paths (h_server h) = [];
  q_manifest : blank_manifest (manifest_file (disk (h_server h)));
  q_base : db_file (disk (h_server h)) = h_base h;
  q_log : exists es ran, is_log es (wal_file (disk (h_server h))) /\ runs_of (h_events h) ran /\
    forall e, exists v, run_log es (e, None) = (fold_left run_stmt ran e, v)
}.

Lemma quiet_start : quiet_inv opening.
Proof. split; try done. exists [], []. split; [constructor|]. split; [done|]. intros e. by exists None. Qed.

Lemma runs_of_app evs1 : forall evs2 ran1 ran2, runs_of evs1 ran1 -> runs_of evs2 ran2 -> runs_of (evs1 ++ evs2) (ran1 ++ ran2).
Proof.
  induction evs1 as [|[ss|ss] evs1 IH]; intros evs2 ran1 ran2; cbn [app runs_of].
  - by intros ->.
  - intros (rest & -> & H1) H2. exists (rest ++ ran2). rewrite app_assoc. split; [done|]. by apply IH.
  - intros (n & rest & -> & H1) H2. exists n, (rest ++ ran2). rewrite app_assoc. split; [done|]. by apply IH.
Qed.

(** A group: the bytes the leader prepares, and the statements in them. *)
Lemma group_log m group e e' prepared : good_group group -> leader_execute m group e [] = Some (e', prepared) ->
  Forall stmt_ok (acknowledged group e) /\ Forall has_readings (acknowledged group e) /\
  Forall2 (fun s bs => leader_stmt (compress_on m) (compress_from m) s = Some (Ok bs)) (acknowledged group e) prepared.
Proof.
  intros Hg Hex. assert (Forall (fun t : Z * stmt => stmt_ok t.2) group) as Hok by (apply (Forall_impl _ _ _ Hg); by intros t []).
  assert (Forall (fun t : Z * stmt => has_readings t.2) group) as Hr by (apply (Forall_impl _ _ _ Hg); by intros t []).
  split; [by apply acknowledged_all|]. split; [by apply acknowledged_all|].
  destruct (leader_prepares m group e [] e' prepared Hok Hex) as (bss & -> & H2). done.
Qed.

(** A log of the group's statements, cut anywhere. *)
Lemma cut_group m group prepared n :
  Forall2 (fun s bs => leader_stmt (compress_on m) (compress_from m) s = Some (Ok bs)) group prepared ->
  Forall stmt_ok group -> Forall has_readings group ->
  exists k L t es, is_log es L /\ torn_tail t /\ take n (concat prepared) = L ++ t /\
    forall e v, exists v', run_log es (e, v) = (fold_left run_stmt (take k group) e, v').
Proof.
  intros H2 Hok Hr. pose proof (leader_log _ _ _ _ Hok H2) as HL. destruct (decide (n < length (concat prepared))%nat) as [Hn|Hn].
  - destruct (is_log_take _ _ _ HL Hn) as (es1 & es2 & L1 & L2 & t & E & _ & _ & HL1 & Ht & Ecut).
    destruct (run_cut group es1 es2 Hr E) as [k H]. exists k, L1, t, es1. by split_and!.
  - exists (length group), (concat prepared), [], (concat (map stmt_entries group)). split; [done|]. split; [apply torn_nil|].
    rewrite app_nil_r, take_ge by lia. split; [done|]. intros e v. rewrite firstn_all. by apply run_stmts_pending.
Qed.

(** A crash in a group's write: what the boot makes of it. *)
Lemma crash_boot m s base events group e prepared n :
  quiet_inv (mk_history s base events) -> good_group group -> leader_execute m group (engine s) [] = Some (e, prepared) ->
  exists L ran, boot false None None (set_wal (wal_file (disk s) ++ take n (concat prepared)) (disk s))
      = booted (recovered base ran) (set_wal L (disk s)) /\
    quiet_inv (mk_history (mk_server e (set_wal L (disk s)) []) base (events ++ [Cut (acknowledged group (engine s))])).
Proof.
  intros [Hp Hm Hb (es & ran & HL & Hran & Hrun)] Hg Hex. cbn [h_server h_base h_events] in *.
  destruct (group_log _ _ _ _ _ Hg Hex) as (Hok & Hr & H2).
  destruct (cut_group m _ prepared n H2 Hok Hr) as (k & L & t & es1 & HL1 & Ht & Ecut & Hcut).
  set (ran' := ran ++ take k (acknowledged group (engine s))).
  assert (forall e, exists v, run_log (es ++ es1) (e, None) = (fold_left run_stmt ran' e, v)) as Hrun'.
  { intros e0. destruct (Hrun e0) as [v Hv]. rewrite run_log_app, Hv. unfold ran'. rewrite fold_left_app. apply Hcut. }
  exists (wal_file (disk s) ++ L), ran'. split.
  - rewrite <- Hb. change (db_file (disk s)) with (db_file (set_wal (wal_file (disk s) ++ take n (concat prepared)) (disk s))).
    rewrite (boot_statements _ (es ++ es1) (wal_file (disk s) ++ L) t ran'); [done|done|by apply is_log_app|done|done|].
    cbn [wal_file set_wal]. by rewrite Ecut, app_assoc.
  - split; cbn; try done. exists (es ++ es1), ran'. split; [by apply is_log_app|]. split; [|done].
    apply runs_of_app; [done|]. exists k, []. by rewrite app_nil_r.
Qed.

Lemma quiet_step_keeps h h' : quiet_step h h' -> quiet_inv h -> quiet_inv h'.
Proof.
  destruct 1 as [m s base events group want_sync e prepared e' wal r Hg Hset Hex Happ|s base events works c1 s1 c2 s2 s3 Htx H1 H2 H3|m s base events group e prepared n s' Hg Hex Hb];
    intros Hi.
  - destruct Hi as [Hp Hm Hb (es & ran & HL & Hran & Hrun)]. cbn [h_server h_base h_events] in *. destruct (group_log _ _ _ _ _ Hg Hex) as (Hok & Hr & H2).
    assert (match r with Ok _ => wal = wal_file (disk s) ++ concat prepared | Err _ => wal = wal_file (disk s) end) as Hwal.
    { unfold leader_append in Happ. destruct prepared as [|bs bss]; [injection Happ as _ <- <-; by rewrite app_nil_r|].
      destruct (append_wal_v3_group _ _ _ _ _) as [w r'] eqn:Ea. injection Happ as _ <- <-. by apply (append_outcome _ _ _ _ _ _ _ Hset Ea). }
    split; cbn; try done. destruct r as [[]|err]; cbn [is_ok]; subst wal; [|by exists es, ran].
    exists (es ++ concat (map stmt_entries (acknowledged group (engine s)))), (ran ++ acknowledged group (engine s)).
    split; [apply is_log_app; [done|]; by apply (leader_log _ _ _ _ Hok H2)|]. split; [apply runs_of_app; [done|]; exists []; by rewrite app_nil_r|].
    intros e0. destruct (Hrun e0) as [v Hv]. rewrite run_log_app, Hv, fold_left_app. by apply run_stmts_pending.
  - destruct s as [e d paths]. destruct Hi as [Hp Hm _ _]. cbn in *. subst paths. injection H1 as <- <-. cbn in H2.
    destruct (write_blank works (snapshot e) (set_db (Some (snapshot e)) d) (snapshot_bytes e) Hm) as (d' & Ed & Hm' & Edb & Ew).
    rewrite Ed in H2. cbn in H2. injection H2 as <- <-. cbn in H3. rewrite Htx in H3. injection H3 as <-. split; cbn; try done.
    exists [], []. split; [constructor|]. split; [done|]. intros e0. by exists None.
  - destruct (crash_boot m s base events group e prepared n Hi Hg Hex) as (L & ran & Hb1 & [Hp Hm Hbase Hlog]).
    rewrite Hb in Hb1. unfold booted in Hb1. destruct (recovered base ran) as [e1|]; [|done]. injection Hb1 as ->. by split.
Qed.

(** C16: What a restart runs.  After any run of group commits (with statements
    that fail or only read, and appends that fail and are cut back), checkpoints
    that run alone with no transaction open, and crashes in the middle of a
    group's write, the boot restores the snapshot of the last checkpoint, runs
    over it the statements acknowledged since, each once and in order, with the
    first statements of each write that was cut short in its place and nothing
    else, ends a transaction they leave open, and keeps the files as they are. *)
Theorem restart_restores s base events :
  rtc quiet_step opening (mk_history s base events) ->
  exists ran, runs_of events ran /\ boot false None None (disk s) = booted (recovered base ran) (disk s).
Proof.
  intros Hr. assert (quiet_inv (mk_history s base events)) as Hi.
  { generalize quiet_start. revert Hr. generalize opening. intros h0 Hr. induction Hr as [|h1 h2 h3 Hs _ IH]; [done|]. intros H1.
    by apply IH, (quiet_step_keeps h1). }
  destruct Hi as [Hp Hm Hb (es & ran & HL & Hran & Hrun)]. cbn [h_server h_base h_events] in *. exists ran. split; [done|].
  rewrite (boot_statements (disk s) es (wal_file (disk s)) [] ran Hm HL torn_nil Hrun); [|by rewrite app_nil_r].
  rewrite Hb. by destruct (disk s).
Qed.
End Restart.
