(* ===== verification/ServerCases.v ===== *)
(** Runs of the server outside what [restart_restores] asks: checkpoints beside
    other work, transactions of several connections in one log, and connections
    that vanish. *)
From stdpp Require Import gmap.
From S2P Require Import Prelude Bytes Text SortedMap Crc Values RowCodec RowAccept RowLen Mvcc Heap Merge Tx TxCases Wal WalReplay WalLog WalRecovery Manifest Server ServerOk.
Open Scope Z_scope.

(** Readings a statement draws from, and appends that work. *)
Definition noon : option volatiles := Some (0, 0).
Definition say (s : string) : stmt := mk_stmt false noon (lit s).
Definition works : wal_mode := mk_mode false 0 (mk_limits None None) (mk_fate None true true 0).

(** ** An engine that remembers the statements it ran *)

Module Recorder.

(** Whether each statement ends in an exclamation mark, and whether a
    transaction is open. *)
Definition Eng : Type := list bool * bool.

Definition note (e : Eng) (sql : list Z) : Eng := (e.1 ++ [bool_decide (last sql = Some 33)], e.2).

#[export] Instance recorder_replay : ReplayEngine Eng := {|
  execute e sql := (note e sql, true);
  replay_statement e _ _ sql := (note e sql, true);
  in_mysql_dialect _ := false;
  set_mysql_dialect e _ := e;
  in_transaction e := e.2
|}.

#[export] Instance recorder : ServerEngine Eng := {|
  fresh_engine := ([], false);
  execute_in e _ s := (note e (st_sql s), true);
  is_tx_open e _ := e.2;
  replace_catalog pre _ := pre;
  snapshot e := map (fun b : bool => if b then 1 else 0) e.1;
  restore_envelope bytes := Some (map (fun b => b =? 1) bytes, false);
  load_segment_bytes_at _ _ e := Some e;
  has_users _ := false;
  create_user _ _ e := Some e
|}.

Lemma recorder_bytes (e : Eng) : is_bytes (snapshot e).
Proof. destruct e as [l b]. cbn. apply Forall_fmap, Forall_true. by intros []. Qed.

Definition start : Server (Eng := Eng) := mk_server fresh_engine (mk_disk None None ∅ []) [].

(** One statement through the commit group. *)
Definition commit (s : stmt) (sv : Server (Eng := Eng)) : option (Server (Eng := Eng)) :=
  r ← leader_execute works [(7, s)] (engine sv) [];
  let '(e, wal, _) := leader_append works (engine sv) r.2 true r.1 (wal_file (disk sv)) in
  Some (mk_server e (set_wal wal (disk sv)) (cold_segment_paths sv)).

(** The writes of a checkpoint, up to the [n]th. *)
Fixpoint checkpoint (n : nat) (c : Checkpoint) (sv : Server (Eng := Eng)) : option (Server (Eng := Eng)) :=
  match n with
  | O => Some sv
  | S n => match checkpoint_step true c sv with Some (Some c, sv) => checkpoint n c sv | Some (None, sv) => Some sv | None => None end
  end.

Definition restart (sv : Server (Eng := Eng)) : option (list bool) :=
  match boot true None None (disk sv) with Some (Ok sv) => Some (engine sv).1 | _ => None end.
End Recorder.

Import Recorder.

(** The three statements a history ends with, by what a restart makes of them. *)
Definition one : option (Server (Eng := Eng)) := commit (say "one!") start.

Lemma good_said text : bool_decide (stmt_ok (say text)) -> good_group [(7, say text)].
Proof. intros H%bool_decide_unpack. constructor; [|constructor]. split; [exact H|]. by exists (0, 0). Qed.

(** One statement, a checkpoint, another statement, and a crash 30 bytes into
    the write of a third: the restart runs the second over the snapshot. *)
Lemma restart_restores_witness :
  exists s base ran, boot false None None (disk s) = booted (recovered base ran) (disk s) /\
    base = Some [1] /\ runs_of [Acked [say "two"]; Cut [say "three!"]] ran /\ engine s = ([true; false], false) /\ length (wal_file (disk s)) = 62%nat.
Proof.
  assert (exists h, rtc (quiet_step (Eng := Eng)) opening h /\ h_base h = Some [1] /\ h_events h = [Acked [say "two"]; Cut [say "three!"]] /\
    engine (h_server h) = ([true; false], false) /\ length (wal_file (disk (h_server h))) = 62%nat) as ([s base events] & Hr & Eb & Ee & Es & Ew).
  { eexists. split.
    - eapply rtc_l; [eapply (quiet_group works start None [] [(7, say "one!")] true);
        [by apply good_said|reflexivity|vm_compute; reflexivity|vm_compute; reflexivity]|].
      eapply rtc_l; [eapply (quiet_checkpoint _ _ _ true); [reflexivity|vm_compute; reflexivity..]|].
      eapply rtc_l; [eapply (quiet_group works _ _ _ [(7, say "two")] true);
        [by apply good_said|reflexivity|vm_compute; reflexivity|vm_compute; reflexivity]|].
      eapply rtc_l; [eapply (quiet_crash works _ _ _ [(7, say "three!")] _ _ 30);
        [by apply good_said|vm_compute; reflexivity|vm_compute; reflexivity]|]. apply rtc_refl.
    - split_and!; vm_compute; reflexivity. }
  destruct (restart_restores recorder_bytes _ _ _ Hr) as (ran & H1 & H2). cbn in Eb, Ee, Es, Ew. subst events. by exists s, base, ran.
Defined.

(** A checkpoint takes the snapshot under the engine's lock and truncates the
    log after releasing it: a statement committed and acknowledged in between
    is in neither. *)
Lemma checkpoint_loses_commit :
  (s ← commit (say "one!") start; Some (engine s).1) = Some [true] /\
  (s ← commit (say "one!") start; s ← checkpoint 3 (checkpoint_capture (engine start)) s; restart s) = Some [].
Proof. split; vm_compute; reflexivity. Qed.

(** A statement executed before the snapshot and appended after the truncation
    is in both. *)
Lemma checkpoint_between_repeats :
  ('(e, prepared) ← leader_execute works [(7, say "one!")] (engine start) [];
   s ← checkpoint 3 (checkpoint_capture e) (mk_server e (disk start) []);
   restart (mk_server e (set_wal (leader_append works (engine start) prepared true e (wal_file (disk s))).1.2 (disk s)) []))
  = Some [true; true].
Proof. vm_compute. reflexivity. Qed.

(** A crash after the snapshot is written and before the log is truncated, with
    the manifest written or not, and a checkpoint beside an open transaction,
    which never truncates it: every statement in the log runs again. *)
Lemma interrupted_checkpoint_repeats :
  (s ← one; s ← checkpoint 1 (checkpoint_capture (engine s)) s; restart s) = Some [true; true] /\
  (s ← one; s ← checkpoint 2 (checkpoint_capture (engine s)) s; restart s) = Some [true; true] /\
  (s ← one; s ← checkpoint 3 (checkpoint_capture ((engine s).1, true)) s; restart s) = Some [true; true].
Proof. split_and!; vm_compute; reflexivity. Qed.

(** The start that creates the first user saves a snapshot and keeps the log:
    the start after it runs the log again. *)
Definition first_start (s : Server (Eng := Eng)) : option (Server (Eng := Eng)) :=
  match boot true None (Some (lit "admin", lit "secret")) (disk s) with Some (Ok s) => Some s | _ => None end.

Lemma bootstrap_repeats :
  (s ← one; s ← first_start s; Some (engine s).1) = Some [true] /\
  (s ← one; s ← first_start s; restart s) = Some [true; true].
Proof. split; vm_compute; reflexivity. Qed.

(** ** The engine of [Tx] behind the log *)

Module Bank.

#[local] Instance permissive : Constraints :=
  Build_Constraints (fun _ _ _ => Ok ()) (fun _ _ _ => Ok ()) (fun _ _ _ => Ok ()) (fun _ _ => []) (fun _ _ _ _ => Ok ())
    (fun _ _ _ => Ok ()) (fun _ _ _ => Ok ()).

(** The texts used below, and the statements they are. *)
Definition texts : list (string * Tx.Statement) :=
  [("CREATE TABLE accounts (n int)"%string, CreateTable accounts columns);
   ("CREATE TABLE ledger (n int)"%string, CreateTable ledger columns);
   ("BEGIN"%string, Begin ReadCommitted); ("COMMIT"%string, Tx.Commit); ("ROLLBACK"%string, Tx.Rollback);
   ("INSERT INTO accounts VALUES (1)"%string, Tx.Insert accounts [] [row 1]);
   ("INSERT INTO accounts VALUES (2)"%string, Tx.Insert accounts [] [row 2]);
   ("INSERT INTO accounts DEFAULT VALUES"%string, Tx.Insert accounts [] [[]])].

Definition parse (sql : list Z) : option Tx.Statement := snd <$> find (fun e => bool_decide (lit e.1 = sql)) texts.

Definition run_text (tx : Z) (sql : list Z) (e : Tx.Engine) : Tx.Engine * bool :=
  match parse sql with
  | Some stmt => match Tx.execute_in tx stmt e with Some (Ok _, e) => (e, true) | Some (Err _, e) => (e, false) | None => (e, false) end
  | None => (e, false)
  end.

#[export] Instance bank_replay : ReplayEngine Tx.Engine := {|
  execute e sql := run_text 0 sql e;
  replay_statement e _ _ sql := run_text 0 sql e;
  in_mysql_dialect _ := false;
  set_mysql_dialect e _ := e;
  in_transaction e := negb (bool_decide (tx_catalogs e = ∅))
|}.

(** No snapshot is taken below. *)
#[export] Instance bank : ServerEngine Tx.Engine := {|
  fresh_engine := Tx.new_engine;
  execute_in e tx s := run_text tx (st_sql s) e;
  is_tx_open e tx := Tx.is_tx_open tx e;
  replace_catalog pre e := mk_engine (catalog pre) (counters e) (versions e) (tx_catalogs e) (commit_epoch e) (commit_seq e) (table_last_commit e) (settings e) (stmt_writer_version e);
  snapshot _ := [];
  restore_envelope _ := None;
  load_segment_bytes_at _ _ _ := None;
  has_users _ := true;
  create_user _ _ _ := None
|}.

(** Connections 1 and 2, each with the state of its own transaction, and the
    slot 9 for what goes through the commit group. *)
Record World : Type := mk_world { w_engine : Tx.Engine; w_wal : list Z; conn1 : Conn; conn2 : Conn }.
Definition opened : World := mk_world fresh_engine [] (mk_conn 1 false) (mk_conn 2 false).

Inductive event : Type := Says (first : bool) (sql : string) | Vanishes (first : bool).

Definition happen (ev : event) (w : World) : option World :=
  match ev with
  | Says first sql =>
    '(e, wal, c, r) ← connection_statement works true 9 (mk_stmt false noon (lit sql)) (if first then conn1 w else conn2 w) (w_engine w) (w_wal w);
    match r with
    | Ok _ => Some (if first then mk_world e wal c (conn2 w) else mk_world e wal (conn1 w) c)
    | Err _ => None
    end
  | Vanishes first => Some (mk_world (drop_connection (if first then conn1 w else conn2 w) (w_engine w)) (w_wal w) (conn1 w) (conn2 w))
  end.

Fixpoint happens (evs : list event) (w : World) : option World :=
  match evs with [] => Some w | ev :: evs => w ← happen ev w; happens evs w end.

(** What the server holds after [evs], and what it holds once it is started
    again; a crash keeps the whole log. *)
Definition rows_after (evs : list event) : option (list Row) := w ← happens evs opened; Some (alive_rows (w_engine w) accounts).

Definition restarted (w : World) : option World :=
  match boot true None None (mk_disk None None ∅ (w_wal w)) with
  | Some (Ok s) => Some (mk_world (engine s) (wal_file (disk s)) (mk_conn 1 false) (mk_conn 2 false))
  | _ => None
  end.
Definition rows_restarted (evs : list event) : option (list Row) := w ← happens evs opened; w ← restarted w; Some (alive_rows (w_engine w) accounts).
End Bank.

Import Bank.

Definition created : event := Says true "CREATE TABLE accounts (n int)".
Definition insert1 (first : bool) : event := Says first "INSERT INTO accounts VALUES (1)".
Definition insert2 (first : bool) : event := Says first "INSERT INTO accounts VALUES (2)".

(** One connection at a time, every transaction ended by its own COMMIT or
    ROLLBACK: the restart finds what the server held. *)
Lemma serial_survives :
  rows_after [created; Says true "BEGIN"; insert1 true; Says true "COMMIT"; Says false "BEGIN"; insert1 false; Says false "ROLLBACK"; insert2 true] = Some [row 1; row 2] /\
  rows_restarted [created; Says true "BEGIN"; insert1 true; Says true "COMMIT"; Says false "BEGIN"; insert1 false; Says false "ROLLBACK"; insert2 true] = Some [row 1; row 2].
Proof. split; vm_compute; reflexivity. Qed.

(** A connection that vanishes in its transaction logs no end of it: what
    another commits afterwards is inside it, on replay, and rolled back. *)
Lemma vanished_connection_loses_rows :
  rows_after [created; Says true "BEGIN"; insert1 true; Vanishes true; insert2 false] = Some [row 2] /\
  rows_restarted [created; Says true "BEGIN"; insert1 true; Vanishes true; insert2 false] = Some [].
Proof. split; vm_compute; reflexivity. Qed.

(** Transactions of two connections share the one the replay has: the ROLLBACK
    of one takes the acknowledged row of the other with it. *)
Lemma interleaved_rollback_loses_rows :
  rows_after [created; Says true "BEGIN"; insert1 true; insert2 false; Says true "ROLLBACK"] = Some [row 2] /\
  rows_restarted [created; Says true "BEGIN"; insert1 true; insert2 false; Says true "ROLLBACK"] = Some [].
Proof. split; vm_compute; reflexivity. Qed.

(** A COMMIT that the engine turns into a ROLLBACK is logged as COMMIT, and
    the statement that failed is not logged: the rows come back. *)
Lemma failed_transaction_comes_back :
  rows_after [created; Says true "BEGIN"; insert1 true; Says true "INSERT INTO accounts DEFAULT VALUES"; Says true "COMMIT"] = Some [] /\
  rows_restarted [created; Says true "BEGIN"; insert1 true; Says true "INSERT INTO accounts DEFAULT VALUES"; Says true "COMMIT"] = Some [row 1].
Proof. split; vm_compute; reflexivity. Qed.

(** The transaction a crash cuts is rolled back in memory and left open in the
    log: what is committed after the restart is lost by the next one. *)
Lemma crash_in_transaction_loses_later_rows :
  (w ← happens [created; Says true "BEGIN"; insert1 true] opened; w ← restarted w; w ← happen (insert2 true) w;
   Some (alive_rows (w_engine w) accounts)) = Some [row 2] /\
  (w ← happens [created; Says true "BEGIN"; insert1 true] opened; w ← restarted w; w ← happen (insert2 true) w; w ← restarted w;
   Some (alive_rows (w_engine w) accounts)) = Some [].
Proof. split; vm_compute; reflexivity. Qed.

(** A group whose append fails puts back the catalog of before the group,
    after the engine's lock was released: what a connection wrote in between,
    and logged itself, is gone from the engine and is there after a restart. *)
Definition broken : wal_mode := mk_mode false 0 (mk_limits None None) (mk_fate (Some 0%nat) true true 0).

Definition group_fails_beside (other : string) : option World :=
  w ← happens [created] opened;
  '(e, prepared) ← leader_execute works [(9, mk_stmt false noon (lit "INSERT INTO accounts VALUES (1)"))] (w_engine w) [];
  '(e, wal, _, _) ← (let '(e, worthy) := execute_in e 2 (mk_stmt false noon (lit other)) in
                     '(wal, c, r) ← persist_wire_write works false true (mk_stmt false noon (lit other)) (if worthy then Some true else None) (w_wal w) (conn2 w);
                     Some (e, wal, c, r));
  let '(e, wal, _) := leader_append broken (w_engine w) prepared true e wal in
  Some (mk_world e wal (conn1 w) (conn2 w)).

Lemma failed_group_undoes_others :
  (w ← group_fails_beside "CREATE TABLE ledger (n int)"; Some (bool_decide (is_Some (get (catalog (w_engine w)) ledger)))) = Some false /\
  (w ← group_fails_beside "CREATE TABLE ledger (n int)"; w ← restarted w; Some (bool_decide (is_Some (get (catalog (w_engine w)) ledger)))) = Some true.
Proof. split; vm_compute; reflexivity. Qed.
