(* ===== verification/NumericKey.v ===== *)
(** Exact decimal sort and index keys (crates/spg-storage/src/lib.rs): the
    canonical form of a NUMERIC, in which equal values are equal keys and keys
    compare as the values do. *)
From Stdlib Require Import SpecFloat.
From S2P Require Import Prelude Bytes Float64 SortedMap BigNum BigNumMag BigNumeric BigNumText Values.
Open Scope Z_scope.

(** ** The key *)

(** [head] is the first 37 significant digits with the leading one at 10^36,
    [tail] the digits after them. *)
Record NumericKey : Type := mk_key { class : Z; key_neg : bool; exp : Z; head : Z; tail : list Z }.

Definition HEAD_DIGITS : nat := 37.
Definition HEAD_SCALE : Z := 10 ^ 36.

Definition NUM_CLASS_NEG_INF : Z := 0.
Definition NUM_CLASS_FINITE : Z := 1.
Definition NUM_CLASS_POS_INF : Z := 2.
Definition NUM_CLASS_NAN : Z := 3.

Definition special (c : Z) : NumericKey := mk_key c false 0 0 [].

Definition head_of (digits : list Z) : Z :=
  let take_ := Nat.min HEAD_DIGITS (length digits) in
  let head := fold_left (fun head d => head * 10 + d) (take take_ digits) 0 in
  Nat.iter (HEAD_DIGITS - take_) (fun head => head * 10) head.

(** [digits.iter().position(|d| d != 0)], and what follows. *)
Fixpoint strip_lead (digits : list Z) : list Z :=
  match digits with d :: ds => if d =? 0 then strip_lead ds else digits | [] => [] end.
Definition strip_trail (digits : list Z) : list Z := rev (strip_lead (rev digits)).

(** [i32::try_from(len).unwrap_or(i32::MAX)] *)
Definition i32_len (n : nat) : Z := if Z.of_nat n <? 2 ^ 31 then Z.of_nat n else 2 ^ 31 - 1.

Definition finite (neg : bool) (digits : list Z) (scale : Z) : NumericKey :=
  let digits := strip_lead digits in
  match digits with
  | [] => special NUM_CLASS_FINITE
  | _ =>
    let exp := i32_len (length digits) - 1 - scale in
    let digits := strip_trail digits in
    mk_key NUM_CLASS_FINITE neg exp (head_of digits) (drop HEAD_DIGITS digits)
  end.

(** ** Digits *)

(** A write past the forty bytes of the buffer panics; the digits come out
    last first and are kept reversed. *)
Definition push_digit (d : Z) (rev : list Z) : option (list Z) := if (length rev <? 40)%nat then Some (d :: rev) else None.

Fixpoint peel (n : nat) (chunk : Z) (rev : list Z) : option (list Z) :=
  match n with
  | O => Some rev
  | S n => let! rev := push_digit (chunk mod 10) rev in peel n (chunk / 10) rev
  end.

Fixpoint peel_big (fuel : nat) (big : Z) (rev : list Z) : option (Z * list Z) :=
  if big <=? 2 ^ 64 - 1 then Some (big, rev)
  else
    match fuel with
    | O => None
    | S fuel => let! rev := peel 19 (big mod 10 ^ 19) rev in peel_big fuel (big / 10 ^ 19) rev
    end.

Fixpoint peel_small (fuel : nat) (small : Z) (rev : list Z) : option (list Z) :=
  if small <=? 0 then Some rev
  else
    match fuel with
    | O => None
    | S fuel => let! rev := push_digit (small mod 10) rev in peel_small fuel (small / 10) rev
    end.

Definition digits_of_u128 (mag : Z) : option (list Z) :=
  if mag =? 0 then Some []
  else
    let! (small, rev) := peel_big 3 mag [] in
    peel_small 20 small rev.

(** The limbs from the last; [9 - n] underflows when a limb has more digits. *)
Fixpoint digits_of_limbs_rev (leading : bool) (limbs : list Z) (out : list Z) : option (list Z) :=
  match limbs with
  | [] => Some out
  | limb :: limbs =>
    let! ds := digits_of_u128 limb in
    if leading then digits_of_limbs_rev false limbs (out ++ ds)
    else if (9 <? length ds)%nat then None
    else digits_of_limbs_rev false limbs (out ++ repeat 0 (9 - length ds) ++ ds)
  end.
Definition digits_of_limbs (limbs : list Z) : option (list Z) := digits_of_limbs_rev true (rev limbs) [].

(** ** Keys of values *)

Definition from_numeric (scaled scale : Z) (kind : NumericKind) : option NumericKey :=
  match kind with
  | NumericKind.Finite => let! ds := digits_of_u128 (Z.abs scaled) in Some (finite (scaled <? 0) ds scale)
  | NumericKind.NaN => Some (special NUM_CLASS_NAN)
  | NumericKind.PosInf => Some (special NUM_CLASS_POS_INF)
  | NumericKind.NegInf => Some (special NUM_CLASS_NEG_INF)
  end.

Definition from_i128 (n : Z) : option NumericKey :=
  let! ds := digits_of_u128 (Z.abs n) in Some (finite (n <? 0) ds 0).

Definition from_big (b : BigNumeric) : option NumericKey :=
  let '(neg, limbs, scale) := parts b in
  let! ds := digits_of_limbs limbs in Some (finite neg ds scale).

(** *** As a float *)

Definition pow10_f64 (e : Z) : f64 :=
  let out := Nat.iter (Z.abs_nat e) (fun out => f_mul out (f_of_Z 10)) (f_of_Z 1) in
  if e <? 0 then f_div (f_of_Z 1) out else out.

Definition to_f64 (k : NumericKey) : f64 :=
  if class k =? NUM_CLASS_NAN then S754_nan
  else if class k =? NUM_CLASS_POS_INF then S754_infinity false
  else if class k =? NUM_CLASS_NEG_INF then S754_infinity true
  else if head k =? 0 then f_of_Z 0
  else
    let mantissa := f_div (f_of_Z (head k)) (f_of_Z HEAD_SCALE) in
    let out := f_mul mantissa (pow10_f64 (exp k)) in
    if key_neg k then f_neg out else out.

(** *** The wire parts *)

Definition key_parts (k : NumericKey) : Z * bool * Z := (class k, key_neg k, exp k).

Fixpoint head_digits (n : nat) (h : Z) : list Z :=
  match n with O => [] | S n => h / HEAD_SCALE :: head_digits n ((h mod HEAD_SCALE) * 10) end.

Definition digits (k : NumericKey) : list Z :=
  (if head k =? 0 then [] else strip_trail (head_digits HEAD_DIGITS (head k))) ++ tail k.

Definition key_from_parts (class : Z) (neg : bool) (exp : Z) (digits : list Z) : option NumericKey :=
  if (NUM_CLASS_NAN <? class) || existsb (fun d => 9 <? d) digits then None
  else if negb (class =? NUM_CLASS_FINITE) && (neg || negb (exp =? 0) || negb (bool_decide (digits = []))) then None
  else
    match digits with
    | [] => if neg || negb (exp =? 0) then None else Some (special class)
    | d :: _ =>
      if (d =? 0) || bool_decide (last digits = Some 0) then None
      else Some (mk_key class neg exp (head_of digits) (drop HEAD_DIGITS digits))
    end.

(** ** Order *)

Definition then_with (a b : comparison) : comparison := match a with Eq => b | _ => a end.

Definition key_cmp (a b : NumericKey) : comparison :=
  if negb (class a =? class b) then class a ?= class b
  else if negb (class a =? NUM_CLASS_FINITE) then Eq
  else
    match head a =? 0, head b =? 0 with
    | true, true => Eq
    | true, false => if key_neg b then Gt else Lt
    | false, true => if key_neg a then Lt else Gt
    | false, false =>
      match key_neg a, key_neg b with
      | false, true => Gt
      | true, false => Lt
      | _, _ =>
        let mag := then_with (exp a ?= exp b) (then_with (head a ?= head b) (list_cmp (tail a) (tail b))) in
        if key_neg a then CompOpp mag else mag
      end
    end.

(** ** Digit lists *)

Definition digit_list (l : list Z) : Prop := Forall (fun d => 0 <= d <= 9) l.
Definition dn (l : list Z) : Z := fold_left (fun n d => n * 10 + d) l 0.

(** Without a leading or a trailing zero. *)
Definition canonical (l : list Z) : Prop := digit_list l /\ List.head l <> Some 0 /\ last l <> Some 0 /\ l <> [].

Lemma dn_acc l : forall n, fold_left (fun n d => n * 10 + d) l n = n * pow10 (length l) + dn l.
Proof.
  unfold dn. induction l as [|d l IH]; intros n; cbn [fold_left length]; [change (pow10 0) with 1; lia|].
  rewrite IH, (IH (0 * 10 + d)), pow10_S. lia.
Qed.

Lemma dn_app l m : dn (l ++ m) = dn l * pow10 (length m) + dn m.
Proof. unfold dn at 1. rewrite fold_left_app. apply dn_acc. Qed.

Lemma dn_cons d l : dn (d :: l) = d * pow10 (length l) + dn l.
Proof. change (d :: l) with ([d] ++ l). rewrite dn_app. unfold dn. cbn [fold_left]. lia. Qed.

Lemma dn_bound l : digit_list l -> 0 <= dn l < pow10 (length l).
Proof. induction 1 as [|d l Hd _ IH]; [by cbn; unfold pow10|]. rewrite dn_cons. cbn [length]. rewrite pow10_S. nia. Qed.

Lemma dn_zeros n : dn (repeat 0 n) = 0.
Proof. induction n as [|n IH]; [done|]. cbn [repeat]. rewrite dn_cons, IH. lia. Qed.

Lemma digit_zeros n : digit_list (repeat 0 n).
Proof. apply Forall_forall. intros x Hx. apply list_elem_of_In, repeat_spec in Hx as ->. lia. Qed.

Lemma dn_pad l n : dn (l ++ repeat 0 n) = dn l * pow10 n.
Proof. rewrite dn_app, dn_zeros, repeat_length. lia. Qed.

Lemma dn_lead l : digit_list l -> l <> [] -> List.head l <> Some 0 -> pow10 (length l - 1) <= dn l.
Proof.
  destruct l as [|d l]; [done|]. intros [Hd Hl]%Forall_cons _ Hh. rewrite dn_cons. cbn [length] in *.
  rewrite Nat.sub_succ, Nat.sub_0_r. pose proof (dn_bound l Hl). pose proof (pow10_gt (length l)).
  assert (d <> 0) by (intros ->; done). nia.
Qed.

Lemma strip_lead_spec l : exists n, l = repeat 0 n ++ strip_lead l /\ List.head (strip_lead l) <> Some 0.
Proof.
  induction l as [|d l (n & IH & Hh)]; [by exists 0%nat|]. cbn [strip_lead]. destruct (Z.eqb_spec d 0) as [->|Hd].
  - exists (S n). cbn [repeat app]. by rewrite <-IH.
  - exists 0%nat. split; [done|]. cbn. congruence.
Qed.

Lemma strip_trail_spec l : exists n, l = strip_trail l ++ repeat 0 n /\ last (strip_trail l) <> Some 0.
Proof.
  destruct (strip_lead_spec (rev l)) as (n & H & Hh). exists n. unfold strip_trail. split.
  - rewrite <-(rev_involutive l) at 1. rewrite H at 1. rewrite rev_app_distr. f_equal. clear. induction n as [|n IH]; [done|].
    cbn [repeat rev]. rewrite IH. clear IH. induction n as [|n IH]; [done|]. cbn. by rewrite IH.
  - intros E. apply Hh. destruct (strip_lead (rev l)) as [|d t]; [done|]. cbn in *. rewrite last_snoc in E. congruence.
Qed.

Definition pad (n : nat) (l : list Z) : list Z := l ++ repeat 0 (n - length l).

Lemma length_pad n l : (length l <= n)%nat -> length (pad n l) = n.
Proof. intros. unfold pad. rewrite length_app, repeat_length. lia. Qed.

Lemma digit_pad n l : digit_list l -> digit_list (pad n l).
Proof. intros. apply Forall_app. split; [done|apply digit_zeros]. Qed.

Lemma dn_pad_le n l : dn (pad n l) = dn l * pow10 (n - length l).
Proof. apply dn_pad. Qed.

Lemma dn_pad_bound n l : digit_list l -> (length l <= n)%nat -> 0 <= dn (pad n l) < pow10 n.
Proof. intros Hl Hn. pose proof (dn_bound (pad n l) (digit_pad n l Hl)) as H. by rewrite length_pad in H. Qed.

Lemma dn_pos l : digit_list l -> l <> [] -> last l <> Some 0 -> 0 < dn l.
Proof.
  intros Hl. induction l as [|d l _] using rev_ind; [done|]. intros _ Hn. rewrite last_snoc in Hn.
  apply Forall_app in Hl as [Hl [Hd _]%Forall_cons]. rewrite dn_app, dn_cons. cbn [length]. change (pow10 0) with 1. change (dn []) with 0.
  pose proof (dn_bound l Hl). pose proof (pow10_gt 1). assert (d <> 0) by congruence. nia.
Qed.

Lemma compare_lex p x y a b : 0 <= a < p -> 0 <= b < p -> (x * p + a ?= y * p + b) = then_with (x ?= y) (a ?= b).
Proof.
  intros Ha Hb. unfold then_with. destruct (Z.compare_spec x y) as [->|H|H].
  - destruct (Z.compare_spec a b); [apply Z.compare_eq_iff|apply Z.compare_lt_iff|apply Z.compare_gt_iff]; lia.
  - apply Z.compare_lt_iff. nia.
  - apply Z.compare_gt_iff. nia.
Qed.

Lemma list_cmp_dn M : forall a b, digit_list a -> digit_list b -> last a <> Some 0 -> last b <> Some 0 ->
  (length a <= M)%nat -> (length b <= M)%nat -> list_cmp a b = (dn (pad M a) ?= dn (pad M b)).
Proof.
  assert (forall M d l, digit_list (d :: l) -> last (d :: l) <> Some 0 -> 0 < dn (pad M (d :: l))) as Hpos.
  { intros N d l Hl Hn. rewrite dn_pad_le. pose proof (dn_pos (d :: l) Hl ltac:(done) Hn). pose proof (pow10_gt (N - length (d :: l))). nia. }
  assert (forall M, dn (pad M []) = 0) as H0 by (intros; apply dn_zeros).
  induction M as [|M IH]; intros [|x a] [|y b] Ha Hb Hla Hlb Hna Hnb; cbn [list_cmp length] in *; try lia.
  - done.
  - rewrite !H0. done.
  - rewrite H0. symmetry. apply Z.compare_lt_iff. by apply Hpos.
  - rewrite H0. symmetry. apply Z.compare_gt_iff. by apply Hpos.
  - apply Forall_cons in Ha as [Hx Ha], Hb as [Hy Hb].
    assert (forall l z, last (z :: l) <> Some 0 -> last l <> Some 0) as Hlast by (intros [|w l] z; [done|by cbn]).
    change (pad (S M) (x :: a)) with (x :: pad M a). change (pad (S M) (y :: b)) with (y :: pad M b).
    rewrite !dn_cons, !length_pad by lia.
    rewrite compare_lex by (apply dn_pad_bound; [done|lia]). rewrite <-IH; [cbn [kcmp Z_OrdKey]; by destruct (x ?= y)|done|done| | |lia|lia]; by eapply Hlast.
Qed.

Lemma head_of_dn l : head_of l = dn (pad HEAD_DIGITS (take HEAD_DIGITS l)).
Proof.
  unfold head_of. rewrite dn_pad_le, length_take.
  assert (take (HEAD_DIGITS `min` length l) l = take HEAD_DIGITS l) as ->.
  { destruct (Nat.le_ge_cases HEAD_DIGITS (length l)); [by rewrite Nat.min_l|]. rewrite Nat.min_r by done. by rewrite !take_ge. }
  fold (dn (take HEAD_DIGITS l)). generalize (dn (take HEAD_DIGITS l)) as x. intros x. induction (HEAD_DIGITS - HEAD_DIGITS `min` length l)%nat as [|n IH].
  - change (pow10 0) with 1. cbn. lia.
  - rewrite Nat.iter_succ, IH, pow10_S. lia.
Qed.

Lemma head_tail_cmp M a b : digit_list a -> digit_list b -> last a <> Some 0 -> last b <> Some 0 ->
  (HEAD_DIGITS <= M)%nat -> (length a <= M)%nat -> (length b <= M)%nat ->
  then_with (head_of a ?= head_of b) (list_cmp (drop HEAD_DIGITS a) (drop HEAD_DIGITS b)) = (dn (pad M a) ?= dn (pad M b)).
Proof.
  intros Ha Hb Hla Hlb HM Hna Hnb.
  assert (forall l, digit_list l -> last l <> Some 0 -> (length l <= M)%nat ->
    dn (pad M l) = head_of l * pow10 (M - HEAD_DIGITS) + dn (pad (M - HEAD_DIGITS) (drop HEAD_DIGITS l)) /\
    0 <= dn (pad (M - HEAD_DIGITS) (drop HEAD_DIGITS l)) < pow10 (M - HEAD_DIGITS) /\
    digit_list (drop HEAD_DIGITS l) /\ last (drop HEAD_DIGITS l) <> Some 0 /\ (length (drop HEAD_DIGITS l) <= M - HEAD_DIGITS)%nat) as Hsplit.
  { intros l Hl Hll Hn. assert (digit_list (drop HEAD_DIGITS l)) as Hd by by apply Forall_drop.
    assert (length (drop HEAD_DIGITS l) <= M - HEAD_DIGITS)%nat as Hlen by (rewrite length_drop; lia). split_and!; try done.
    - rewrite head_of_dn. rewrite !dn_pad_le, length_take, length_drop.
      rewrite <-(take_drop HEAD_DIGITS l) at 1. rewrite dn_app, length_drop.
      destruct (Nat.le_ge_cases (length l) HEAD_DIGITS) as [H|H].
      + rewrite (drop_ge l) by done. change (dn []) with 0. rewrite Nat.min_r by done. replace (length l - HEAD_DIGITS)%nat with 0%nat by lia.
        replace (M - length l)%nat with (HEAD_DIGITS - length l + (M - HEAD_DIGITS))%nat by lia. rewrite pow10_add. change (pow10 0) with 1. ring.
      + rewrite Nat.min_l by done. replace (M - HEAD_DIGITS - (length l - HEAD_DIGITS))%nat with (M - length l)%nat by lia.
        replace (M - HEAD_DIGITS)%nat with (length l - HEAD_DIGITS + (M - length l))%nat by lia. rewrite pow10_add, Nat.sub_diag. change (pow10 0) with 1. ring.
    - by apply dn_pad_bound.
    - by apply dn_pad_bound.
    - rewrite last_lookup, lookup_drop, length_drop. intros H. apply Hll. rewrite last_lookup. rewrite <-H. f_equal.
      apply lookup_lt_Some in H. lia. }
  destruct (Hsplit a Ha Hla Hna) as (-> & Ba & Da & La & Na). destruct (Hsplit b Hb Hlb Hnb) as (-> & Bb & Db & Lb & Nb).
  by rewrite compare_lex, <-list_cmp_dn.
Qed.

(** ** The value of a key *)

(** [k] is the key of [m / 10^s]: a digit string without needless zeros,
    shifted by what the stripping took. *)
Definition keyed (k : NumericKey) (m s : Z) : Prop :=
  m = 0 /\ k = special NUM_CLASS_FINITE \/
  exists l, canonical l /\ k = mk_key NUM_CLASS_FINITE (m <? 0) (exp k) (head_of l) (drop HEAD_DIGITS l) /\
    0 <= exp k + 1 + s - Z.of_nat (length l) /\ Z.abs m = dn l * 10 ^ (exp k + 1 + s - Z.of_nat (length l)) /\
    i32 (exp k) /\ Z.of_nat (length l) < 2 ^ 31.

Lemma canonical_head l : canonical l -> 10 ^ 36 <= head_of l.
Proof.
  intros (Hd & Hh & _ & Hne). rewrite head_of_dn, dn_pad_le, length_take.
  assert (pow10 (length (take HEAD_DIGITS l) - 1) <= dn (take HEAD_DIGITS l)) as H.
  { apply dn_lead; [by apply Forall_take|by destruct l|by destruct l]. }
  rewrite length_take in H. pose proof (pow10_gt (HEAD_DIGITS - HEAD_DIGITS `min` length l)).
  transitivity (pow10 (HEAD_DIGITS `min` length l - 1) * pow10 (HEAD_DIGITS - HEAD_DIGITS `min` length l)); [|nia].
  rewrite <-pow10_add. change (10 ^ 36) with (pow10 36). apply pow10_le. destruct l; [done|]. unfold HEAD_DIGITS in *. cbn [length]. lia.
Qed.

(** A canonical digit string of [M] places, scaled so that its first digit
    stands at [10 ^ (K + e)]. *)
Definition placed (K M : Z) (l : list Z) (e : Z) : Z := dn (pad (Z.to_nat M) l) * 10 ^ (K + e + 1 - M).

Lemma placed_value K M l e : Z.of_nat (length l) <= M -> M <= K + e + 1 ->
  placed K M l e = dn l * 10 ^ (K + e + 1 - Z.of_nat (length l)).
Proof.
  intros HM HK. unfold placed. rewrite dn_pad_le. unfold pow10. rewrite <-Z.mul_assoc, <-Z.pow_add_r by lia. do 2 f_equal. lia.
Qed.

Lemma placed_lt K M l1 l2 e1 e2 : canonical l1 -> canonical l2 -> Z.of_nat (length l1) <= M -> Z.of_nat (length l2) <= M ->
  M <= K + e1 + 1 -> e1 < e2 -> placed K M l1 e1 < placed K M l2 e2.
Proof.
  intros (Hd1 & _) (Hd2 & Hh2 & _ & Hn2) HM1 HM2 HK He.
  assert (placed K M l1 e1 < 10 ^ (K + e1 + 1)) as H1.
  { unfold placed. pose proof (dn_pad_bound (Z.to_nat M) l1 Hd1 ltac:(lia)) as [_ H]. unfold pow10 in H. rewrite Z2Nat.id in H by lia.
    replace (K + e1 + 1) with (M + (K + e1 + 1 - M)) at 2 by lia. rewrite Z.pow_add_r by lia.
    apply Z.mul_lt_mono_pos_r; [apply Z.pow_pos_nonneg; lia|done]. }
  assert (10 ^ (K + e2) <= placed K M l2 e2) as H2.
  { rewrite placed_value by lia. pose proof (dn_lead l2 Hd2 Hn2 Hh2) as H. unfold pow10 in H.
    assert (1 <= length l2)%nat by (destruct l2; [done|cbn; lia]).
    replace (K + e2) with (Z.of_nat (length l2 - 1) + (K + e2 + 1 - Z.of_nat (length l2))) at 1 by lia. rewrite Z.pow_add_r by lia.
    apply Z.mul_le_mono_nonneg_r; [apply Z.pow_nonneg; lia|done]. }
  pose proof (Z.pow_le_mono_r 10 (K + e1 + 1) (K + e2) ltac:(lia) ltac:(lia)). lia.
Qed.

Lemma placed_cmp K M l1 l2 e1 e2 : canonical l1 -> canonical l2 -> Z.of_nat HEAD_DIGITS <= M ->
  Z.of_nat (length l1) <= M -> Z.of_nat (length l2) <= M -> M <= K + e1 + 1 -> M <= K + e2 + 1 ->
  then_with (e1 ?= e2) (then_with (head_of l1 ?= head_of l2) (list_cmp (drop HEAD_DIGITS l1) (drop HEAD_DIGITS l2))) =
    (placed K M l1 e1 ?= placed K M l2 e2).
Proof.
  intros H1 H2 HM HM1 HM2 HK1 HK2. unfold then_with at 1. destruct (Z.compare_spec e1 e2) as [->|He|He].
  - destruct H1 as (D1 & _ & L1 & _), H2 as (D2 & _ & L2 & _). rewrite (head_tail_cmp (Z.to_nat M)) by (done || lia).
    unfold placed. apply Zmult_compare_compat_r. pose proof (Z.pow_pos_nonneg 10 (K + e2 + 1 - M)). lia.
  - symmetry. apply Z.compare_lt_iff. by apply placed_lt.
  - symmetry. apply Z.compare_gt_iff. by apply placed_lt.
Qed.

(** Keys compare as the rationals they stand for. *)
Lemma keyed_cmp k1 m1 s1 k2 m2 s2 : 0 <= s1 -> 0 <= s2 -> keyed k1 m1 s1 -> keyed k2 m2 s2 ->
  key_cmp k1 k2 = (m1 * 10 ^ s2 ?= m2 * 10 ^ s1).
Proof.
  intros Hs1 Hs2 H1 H2. pose proof (Z.pow_pos_nonneg 10 s1 ltac:(lia) Hs1) as P1. pose proof (Z.pow_pos_nonneg 10 s2 ltac:(lia) Hs2) as P2.
  assert (forall l, canonical l -> (head_of l =? 0) = false) as Hz by (intros l Hl; apply canonical_head in Hl; lia).
  assert (forall l, canonical l -> 0 < dn l) as Hp by (intros l (? & _ & ? & ?); by apply dn_pos).
  assert (forall m l x, 0 <= x -> canonical l -> Z.abs m = dn l * 10 ^ x -> m <> 0) as Hnz.
  { intros m l x Hx Hl Hm ->. specialize (Hp l Hl). pose proof (Z.pow_pos_nonneg 10 x ltac:(lia) Hx). nia. }
  unfold key_cmp. destruct H1 as [[-> ->]|(l1 & C1 & E1 & G1 & A1 & _)], H2 as [[-> ->]|(l2 & C2 & E2 & G2 & A2 & _)].
  - cbn. by rewrite Z.mul_0_l.
  - rewrite E2. cbn [class key_neg exp head tail special]. rewrite !Z.eqb_refl, Hz by done. cbn [negb]. specialize (Hnz m2 l2 _ G2 C2 A2). symmetry.
    destruct (Z.ltb_spec m2 0); [apply Z.compare_gt_iff|apply Z.compare_lt_iff]; nia.
  - rewrite E1. cbn [class key_neg exp head tail special]. rewrite !Z.eqb_refl, Hz by done. cbn [negb]. specialize (Hnz m1 l1 _ G1 C1 A1). symmetry.
    destruct (Z.ltb_spec m1 0); [apply Z.compare_lt_iff|apply Z.compare_gt_iff]; nia.
  - pose proof (Hnz m1 l1 _ G1 C1 A1) as N1. pose proof (Hnz m2 l2 _ G2 C2 A2) as N2.
    set (e1 := exp k1) in *. set (e2 := exp k2) in *.
    assert (then_with (e1 ?= e2) (then_with (head_of l1 ?= head_of l2) (list_cmp (drop HEAD_DIGITS l1) (drop HEAD_DIGITS l2))) =
      (Z.abs m1 * 10 ^ s2 ?= Z.abs m2 * 10 ^ s1)) as Hmag.
    { set (M := Z.of_nat HEAD_DIGITS + Z.of_nat (length l1) + Z.of_nat (length l2)). set (K := s1 + s2 + M).
      rewrite (placed_cmp K M) by (done || lia). rewrite !placed_value by lia. rewrite A1, A2.
      rewrite (Zmult_compare_compat_r (dn l1 * 10 ^ (e1 + 1 + s1 - _) * 10 ^ s2) _ (10 ^ M)) by (apply Z.lt_gt, Z.pow_pos_nonneg; lia).
      rewrite <-!Z.mul_assoc, <-!Z.pow_add_r by lia. f_equal; f_equal; f_equal; lia. }
    rewrite E1, E2. cbn [class key_neg exp head tail]. rewrite !Z.eqb_refl, !Hz by done. cbn [negb]. fold e1 e2. rewrite Hmag.
    destruct (Z.ltb_spec m1 0), (Z.ltb_spec m2 0).
    + rewrite (Z.abs_neq m1), (Z.abs_neq m2) by lia. rewrite !Z.mul_opp_l, Z.compare_opp. by rewrite <-Z.compare_antisym.
    + symmetry. apply Z.compare_lt_iff. nia.
    + symmetry. apply Z.compare_gt_iff. nia.
    + by rewrite !Z.abs_eq by lia.
Qed.

(** ** What the constructors compute *)

Lemma finite_keyed neg ds s m : u16 s -> digit_list ds -> Z.of_nat (length ds) < 2 ^ 31 -> dn ds = Z.abs m -> (m <> 0 -> neg = (m <? 0)) ->
  keyed (finite neg ds s) m s.
Proof.
  intros Hs Hd Hlen Hm Hneg. destruct (strip_lead_spec ds) as (n & E & Hh). unfold finite. remember (strip_lead ds) as l eqn:El.
  assert (dn ds = dn l) as Edn by (rewrite E, dn_app, dn_zeros; lia).
  assert (digit_list l) as Hl by (rewrite E in Hd; by apply Forall_app in Hd as [_ ?]).
  destruct (decide (l = [])) as [->|Hne]. { left. split; [unfold dn at 2 in Edn; cbn [fold_left] in Edn; lia|done]. }
  right. destruct (strip_trail_spec l) as (k & Ek & Hlast). remember (strip_trail l) as c eqn:Ec. exists c.
  assert (c <> []) as Hcne. { intros ->. cbn in Ek. destruct k; [by rewrite Ek in Hne|]. rewrite Ek in Hh. by cbn in Hh. }
  assert (canonical c) as Hc.
  { split; [|split; [|done]]. - rewrite Ek in Hl. by apply Forall_app in Hl as [? _].
    - rewrite Ek in Hh. by destruct c. }
  assert (length l = length c + k)%nat as Hlc by (rewrite Ek at 1; by rewrite length_app, repeat_length).
  assert (length l <= length ds)%nat as Hll by (rewrite E, length_app; lia).
  assert (i32_len (length l) = Z.of_nat (length l)) as Ei by (unfold i32_len; destruct (Z.ltb_spec (Z.of_nat (length l)) (2 ^ 31)); lia).
  assert (exists x, match l with [] => special NUM_CLASS_FINITE | _ => x end = x /\ x = mk_key NUM_CLASS_FINITE neg (i32_len (length l) - 1 - s) (head_of c) (drop HEAD_DIGITS c)) as (x & Ex & ->).
  { eexists. split; [|reflexivity]. by destruct l. }
  rewrite Ex. cbn [exp]. rewrite Ei. replace (Z.of_nat (length l) - 1 - s + 1 + s - Z.of_nat (length c)) with (Z.of_nat k) by lia.
  assert (Z.abs m = dn c * 10 ^ Z.of_nat k) as Hv by (rewrite <-Hm, Edn, Ek, dn_pad; done).
  unfold u16 in Hs. split; [done|]. split; [|split; [lia|split; [done|unfold i32; lia]]]. rewrite Hneg; [done|]. intros ->. destruct Hc as (Hc1 & _ & Hc2 & Hc3).
  pose proof (dn_pos c Hc1 Hc3 Hc2) as Hp. pose proof (pow10_gt k) as Hk. unfold pow10 in Hk. change (Z.abs 0) with 0 in Hv. nia.
Qed.

(** Peeled digits stand for what was taken off the number. *)
Lemma push_digit_some d out : (length out < 40)%nat -> push_digit d out = Some (d :: out).
Proof. intros H. unfold push_digit. by rewrite (proj2 (Nat.ltb_lt _ _) H). Qed.

Lemma mod10 x : 0 <= x mod 10 <= 9.
Proof. pose proof (Z.mod_pos_bound x 10 ltac:(lia)). lia. Qed.

Lemma peel_spec n : forall chunk out, 0 <= chunk < pow10 n -> (length out + n <= 40)%nat -> digit_list out ->
  exists out', peel n chunk out = Some out' /\ digit_list out' /\ length out' = (length out + n)%nat /\
    dn out' = chunk * pow10 (length out) + dn out.
Proof.
  induction n as [|n IH]; intros chunk out Hc Hlen Hd; cbn [peel].
  { change (pow10 0) with 1 in Hc. exists out. split_and!; [done|done|lia|]. replace chunk with 0 by lia. lia. }
  rewrite push_digit_some by lia. cbn [mbind option_bind]. rewrite pow10_S in Hc.
  destruct (IH (chunk / 10) (chunk mod 10 :: out)) as (out' & -> & Hd' & Hl' & Hv).
  - split; [apply Z.div_pos; lia|apply Z.div_lt_upper_bound; lia].
  - cbn [length]. lia.
  - constructor; [apply mod10|done].
  - exists out'. split_and!; [done|done|cbn [length] in Hl'; lia|]. rewrite Hv, dn_cons. cbn [length]. rewrite pow10_S.
    rewrite (Z.div_mod chunk 10) at 3 by lia. ring.
Qed.

Lemma peel_small_spec n : forall fuel small out, 0 <= small < pow10 n -> (n <= fuel)%nat -> (length out + n <= 40)%nat -> digit_list out ->
  exists out', peel_small fuel small out = Some out' /\ digit_list out' /\ (length out' <= length out + n)%nat /\
    dn out' = small * pow10 (length out) + dn out.
Proof.
  induction n as [|n IH]; intros fuel small out Hc Hf Hlen Hd.
  { change (pow10 0) with 1 in Hc. replace small with 0 by lia. exists out. split_and!; [by destruct fuel|done|lia|lia]. }
  destruct fuel as [|fuel]; [lia|]. cbn [peel_small].
  destruct (Z.leb_spec small 0) as [H|H]. { exists out. replace small with 0 by lia. split_and!; try done; lia. }
  rewrite push_digit_some by lia. cbn [mbind option_bind]. rewrite pow10_S in Hc.
  destruct (IH fuel (small / 10) (small mod 10 :: out)) as (out' & E & Hd' & Hl' & Hv).
  - split; [apply Z.div_pos; lia|apply Z.div_lt_upper_bound; lia].
  - lia.
  - cbn [length]. lia.
  - constructor; [apply mod10|done].
  - exists out'. cbn [length] in *. split_and!; [done|done|lia|].
    rewrite Hv, dn_cons, pow10_S. rewrite (Z.div_mod small 10) at 3 by lia. ring.
Qed.

Lemma digits_of_u128_spec mag : 0 <= mag < 2 ^ 128 ->
  exists ds, digits_of_u128 mag = Some ds /\ digit_list ds /\ (length ds <= 40)%nat /\ dn ds = mag /\
    (mag < BASE -> (length ds <= 9)%nat).
Proof.
  intros H. unfold digits_of_u128. destruct (Z.eqb_spec mag 0) as [->|Hz]. { exists []. split_and!; [done|constructor|cbn; lia|done|cbn; lia]. }
  assert (pow10 19 = 10 ^ 19) as E19 by done.
  cbn [peel_big]. destruct (Z.leb_spec mag (2 ^ 64 - 1)) as [Hs|Hs].
  { cbn [mbind option_bind]. set (n := if mag <? BASE then 9%nat else 20%nat).
    destruct (peel_small_spec n 20 mag []) as (ds & -> & Hd & Hl & Hv); [|subst n; case_match; lia|subst n; case_match; cbn; lia|constructor|].
    { split; [lia|]. subst n. destruct (Z.ltb_spec mag BASE); [exact H0|]. unfold pow10. cbn. lia. }
    cbn [length] in *. change (pow10 0) with 1 in Hv. change (dn []) with 0 in Hv. exists ds. split_and!; [done|done| |lia|].
    - subst n. case_match; lia.
    - intros Hb. subst n. destruct (Z.ltb_spec mag BASE); lia. }
  destruct (peel_spec 19 (mag mod 10 ^ 19) []) as (o1 & -> & Hd1 & Hl1 & Hv1); [apply Z.mod_pos_bound; lia|cbn; lia|constructor|].
  cbn [mbind option_bind length Nat.add] in *. change (pow10 0) with 1 in Hv1. change (dn []) with 0 in Hv1.
  assert (0 <= mag / 10 ^ 19) as P1 by (apply Z.div_pos; lia).
  pose proof (Z.div_mod mag (10 ^ 19) ltac:(lia)) as E1. unfold BASE.
  destruct (Z.leb_spec (mag / 10 ^ 19) (2 ^ 64 - 1)) as [Hs1|Hs1].
  { cbn [mbind option_bind]. destruct (peel_small_spec 20 20 (mag / 10 ^ 19) o1) as (ds & -> & Hd & Hl & Hv); [unfold pow10; cbn; lia|lia|lia|done|].
    exists ds. rewrite Hl1 in *. split_and!; [done|done|lia| |lia]. rewrite Hv, Hv1, E19. lia. }
  destruct (peel_spec 19 ((mag / 10 ^ 19) mod 10 ^ 19) o1) as (o2 & -> & Hd2 & Hl2 & Hv2); [apply Z.mod_pos_bound; lia|lia|done|].
  cbn [mbind option_bind]. pose proof (Z.div_mod (mag / 10 ^ 19) (10 ^ 19) ltac:(lia)) as E2.
  assert (0 <= mag / 10 ^ 19 / 10 ^ 19 < 10) as P2.
  { split; [apply Z.div_pos; lia|]. apply Z.div_lt_upper_bound; [lia|]. apply Z.div_lt_upper_bound; lia. }
  rewrite (proj2 (Z.leb_le _ _)) by lia. cbn [mbind option_bind].
  destruct (peel_small_spec 1 20 (mag / 10 ^ 19 / 10 ^ 19) o2) as (ds & -> & Hd & Hl & Hv); [exact P2|lia|lia|done|].
  exists ds. rewrite Hl2, Hl1 in *. split_and!; [done|done|lia| |lia]. rewrite Hv, Hv2, Hv1.
  change (pow10 (19 + 19)) with (10 ^ 19 * 10 ^ 19). rewrite E19. lia.
Qed.

Lemma bpow_pow10 n : bpow n = pow10 (9 * n).
Proof. unfold bpow, pow10. change BASE with (10 ^ 9). rewrite <-Z.pow_mul_r by lia. f_equal. lia. Qed.

Lemma digits_of_limbs_rev_spec rl : forall leading out, limbs_ok rl -> (leading = true -> out = []) -> digit_list out ->
  exists ds, digits_of_limbs_rev leading rl out = Some ds /\ digit_list ds /\ (length ds <= length out + 9 * length rl)%nat /\
    dn ds = dn out * bpow (length rl) + val (rev rl).
Proof.
  induction rl as [|x rl IH]; intros leading out Hok Hlead Hd; cbn [digits_of_limbs_rev rev length].
  { exists out. split_and!; [done|done|lia|]. change (bpow 0) with 1. cbn. lia. }
  apply Forall_cons in Hok as [Hx Hok]. unfold limb_ok, BASE in Hx.
  destruct (digits_of_u128_spec x) as (ds & -> & Hds & _ & Hv & Hn); [lia|]. specialize (Hn ltac:(unfold BASE; lia)). cbn [mbind option_bind].
  rewrite val_snoc, length_rev. replace (bpow (S (length rl))) with (10 ^ 9 * bpow (length rl)) by (rewrite !bpow_pow10; replace (9 * S (length rl))%nat with (9 + 9 * length rl)%nat by lia; by rewrite pow10_add).
  destruct leading.
  - rewrite Hlead by done. cbn [app]. destruct (IH false ds Hok ltac:(done) Hds) as (r & -> & Hr & Hlr & Hvr).
    exists r. split_and!; [done|done|cbn [length]; lia|]. rewrite Hvr, Hv. change (dn []) with 0. lia.
  - rewrite (proj2 (Nat.ltb_ge _ _)) by lia.
    destruct (IH false (out ++ repeat 0 (9 - length ds) ++ ds) Hok ltac:(done)) as (r & -> & Hr & Hlr & Hvr).
    { apply Forall_app; split; [done|]. apply Forall_app; split; [apply digit_zeros|done]. }
    exists r. rewrite !length_app, repeat_length in Hlr. split_and!; [done|done|lia|]. rewrite Hvr, !dn_app, dn_zeros, Hv, length_app, repeat_length.
    replace (9 - length ds + length ds)%nat with 9%nat by lia. change (pow10 9) with (10 ^ 9). lia.
Qed.

(** A decimal in each of the forms the engine holds. *)
Inductive decimal : Type :=
| Small (scaled scale : Z) (kind : NumericKind)
| Whole (n : Z)
| Large (b : BigNumeric).

(** Of the widths of the code; the digits are counted in an [i32]. *)
Definition decimal_ok (d : decimal) : Prop :=
  match d with
  | Small scaled scale _ => i128 scaled /\ u16 scale
  | Whole n => i128 n
  | Large b => big_ok b /\ Z.of_nat (9 * length (limbs b)) < 2 ^ 31
  end.

Definition key_of (d : decimal) : option NumericKey :=
  match d with Small scaled scale kind => from_numeric scaled scale kind | Whole n => from_i128 n | Large b => from_big b end.

Definition rank (d : decimal) : Z :=
  match d with
  | Small _ _ NumericKind.NegInf => 0
  | Small _ _ NumericKind.PosInf => 2
  | Small _ _ NumericKind.NaN => 3
  | _ => 1
  end.

(** [mantissa d / 10 ^ places d]. *)
Definition mantissa (d : decimal) : Z := match d with Small scaled _ _ => scaled | Whole n => n | Large b => mant b end.
Definition places (d : decimal) : Z := match d with Small _ scale _ => scale | Whole _ => 0 | Large b => scale b end.

Definition decimal_cmp (a b : decimal) : comparison :=
  match rank a ?= rank b with
  | Eq => if rank a =? 1 then mantissa a * 10 ^ places b ?= mantissa b * 10 ^ places a else Eq
  | c => c
  end.

Lemma key_of_spec d : decimal_ok d ->
  0 <= places d /\ exists k, key_of d = Some k /\ if rank d =? 1 then keyed k (mantissa d) (places d) else k = special (rank d).
Proof.
  assert (forall m s, i128 m -> u16 s -> exists k, (let! ds := digits_of_u128 (Z.abs m) in Some (finite (m <? 0) ds s)) = Some k /\ keyed k m s) as Hsmall.
  { intros m s Hm Hs. unfold i128 in Hm. destruct (digits_of_u128_spec (Z.abs m)) as (ds & -> & Hd & Hl & Hv & _); [lia|].
    eexists. split; [reflexivity|]. apply finite_keyed; [done|done|lia|done|done]. }
  destruct d as [m s k|n|b]; cbn [decimal_ok places mantissa rank key_of].
  - intros [Hm Hs]. unfold from_numeric. split; [unfold u16 in Hs; lia|]. destruct k; cbn; [by apply Hsmall|by eexists..].
  - intros Hn. split; [done|]. cbn. by apply Hsmall.
  - intros [Hb Hlen]. pose proof Hb as [Hlimbs Hneg Hs]. unfold mag_ok in *. split; [unfold u16 in Hs; lia|]. cbn [Z.eqb Pos.eqb]. unfold from_big, parts, digits_of_limbs.
    destruct (digits_of_limbs_rev_spec (rev (limbs b)) true []) as (ds & -> & Hd & Hl & Hv); [by apply Forall_rev, Hlimbs|done|constructor|].
    rewrite rev_involutive in Hv. change (dn []) with 0 in Hv. rewrite length_rev in Hl. cbn [length] in Hl. cbn [mbind option_bind]. eexists. split; [reflexivity|].
    pose proof (val_bound (limbs b) (proj1 Hlimbs)). apply finite_keyed; [done|done|lia| |]; unfold mant; destruct (neg b); try lia.
Qed.

Lemma keyed_class k m s : keyed k m s -> class k = NUM_CLASS_FINITE.
Proof. by intros [[_ ->]|(l & _ & -> & _)]. Qed.

Lemma key_cmp_refl k : key_cmp k k = Eq.
Proof.
  unfold key_cmp, then_with. rewrite Z.eqb_refl. cbn [negb]. destruct (negb _); [done|]. destruct (head k =? 0); [done|].
  rewrite !Z.compare_refl. change (list_cmp (tail k) (tail k)) with (kcmp (tail k) (tail k)). rewrite (proj2 (kcmp_eq _ _) eq_refl). by destruct (key_neg k).
Qed.

Lemma keyed_eq k1 m1 s1 k2 m2 s2 : keyed k1 m1 s1 -> keyed k2 m2 s2 -> key_cmp k1 k2 = Eq -> k1 = k2.
Proof.
  assert (forall l, canonical l -> (head_of l =? 0) = false) as Hz by (intros l Hl; apply canonical_head in Hl; lia).
  unfold key_cmp. intros [[_ ->]|(l1 & C1 & E1 & _)] [[_ ->]|(l2 & C2 & E2 & _)].
  - done.
  - rewrite E2. cbn [class key_neg exp head tail special]. rewrite !Z.eqb_refl, Hz by done. cbn [negb]. by destruct (m2 <? 0).
  - rewrite E1. cbn [class key_neg exp head tail special]. rewrite !Z.eqb_refl, Hz by done. cbn [negb]. by destruct (m1 <? 0).
  - rewrite E1, E2. cbn [class key_neg exp head tail]. rewrite !Z.eqb_refl, !Hz by done. cbn [negb]. unfold then_with. intros H.
    assert ((m1 <? 0) = (m2 <? 0) /\ exp k1 = exp k2 /\ head_of l1 = head_of l2 /\ drop HEAD_DIGITS l1 = drop HEAD_DIGITS l2) as (-> & -> & -> & ->); [|done].
    destruct (exp k1 ?= exp k2) eqn:Ee; [|by destruct (m1 <? 0), (m2 <? 0)|by destruct (m1 <? 0), (m2 <? 0)].
    destruct (head_of l1 ?= head_of l2) eqn:Eh; [|by destruct (m1 <? 0), (m2 <? 0)|by destruct (m1 <? 0), (m2 <? 0)].
    apply Z.compare_eq in Ee, Eh. assert (list_cmp (drop HEAD_DIGITS l1) (drop HEAD_DIGITS l2) = Eq) as Et by (destruct (m1 <? 0), (m2 <? 0), (list_cmp _ _); done).
    change (kcmp (drop HEAD_DIGITS l1) (drop HEAD_DIGITS l2) = Eq) in Et. apply kcmp_eq in Et. split_and!; try done. by destruct (m1 <? 0), (m2 <? 0).
Qed.

(** C13: Keys order decimals exactly.  Every decimal of the engine, an [i128] with
    a scale, a special, an integer or an arbitrarily long one, has a key; two
    keys compare as the rationals do, with minus infinity below them all and
    infinity and NaN above; and keys are equal exactly when the numbers are,
    however many zeros their forms carry. *)
Theorem numeric_key_exact a b : decimal_ok a -> decimal_ok b ->
  exists ka kb, key_of a = Some ka /\ key_of b = Some kb /\
    key_cmp ka kb = decimal_cmp a b /\ (ka = kb <-> decimal_cmp a b = Eq).
Proof.
  intros Ha Hb. destruct (key_of_spec a Ha) as (Pa & ka & Ea & Ka), (key_of_spec b Hb) as (Pb & kb & Eb & Kb).
  exists ka, kb. split; [done|]. split; [done|].
  assert (class ka = rank a) as Ca by (destruct (Z.eqb_spec (rank a) 1) as [E|E]; [apply keyed_class in Ka; by rewrite Ka, E|by rewrite Ka]).
  assert (class kb = rank b) as Cb by (destruct (Z.eqb_spec (rank b) 1) as [E|E]; [apply keyed_class in Kb; by rewrite Kb, E|by rewrite Kb]).
  assert (key_cmp ka kb = decimal_cmp a b) as Hc.
  { unfold decimal_cmp. destruct (Z.compare_spec (rank a) (rank b)) as [E|E|E].
    - rewrite <-E in Kb. destruct (rank a =? 1) eqn:E1; [by apply keyed_cmp|]. rewrite Ka, Kb. apply key_cmp_refl.
    - unfold key_cmp. rewrite Ca, Cb, (proj2 (Z.eqb_neq _ _)) by lia. by apply Z.compare_lt_iff.
    - unfold key_cmp. rewrite Ca, Cb, (proj2 (Z.eqb_neq _ _)) by lia. by apply Z.compare_gt_iff. }
  split; [done|]. rewrite <-Hc. split; [intros <-; apply key_cmp_refl|]. intros He.
  assert (rank a = rank b) as E.
  { rewrite Hc in He. unfold decimal_cmp in He. destruct (Z.compare_spec (rank a) (rank b)); done. }
  rewrite <-E in Kb. destruct (rank a =? 1); [by eapply keyed_eq|]. by rewrite Ka, Kb.
Qed.

Lemma numeric_key_exact_witness :
  let b := mk_big true [1; 0; 0; 0; 10] 2 in
  decimal_ok (Small 150 2 NumericKind.Finite) /\ decimal_ok (Whole (-5)) /\ decimal_ok (Large b) /\
  key_of (Small 150 2 NumericKind.Finite) = key_of (Small 15 1 NumericKind.Finite) /\
  exists ka kb, key_of (Whole (-5)) = Some ka /\ key_of (Large b) = Some kb /\ key_cmp ka kb = Gt /\ (ka = kb <-> Gt = Eq).
Proof.
  assert (decimal_ok (Small 150 2 NumericKind.Finite)) as H1 by (split; [by split|by split]).
  assert (decimal_ok (Whole (-5))) as H2 by (by split).
  assert (decimal_ok (Large (mk_big true [1; 0; 0; 0; 10] 2))) as H3.
  { split; [|done]. apply (bool_decide_unpack _). vm_compute. exact I. }
  split; [exact H1|]. split; [exact H2|]. split; [exact H3|]. split; [vm_compute; reflexivity|].
  exact (numeric_key_exact _ _ H2 H3).
Defined.

(** ** The wire parts *)

Lemma head_digits_spec n : forall p, (n <= HEAD_DIGITS)%nat -> digit_list p -> length p = n ->
  head_digits n (dn p * pow10 (HEAD_DIGITS - n)) = p.
Proof.
  induction n as [|n IH]; intros p Hn Hd Hl; [by destruct p|]. destruct p as [|d p]; [done|]. apply Forall_cons in Hd as [Hd Hp].
  cbn [length] in Hl. injection Hl as Hl. cbn [head_digits]. rewrite dn_cons, Hl.
  replace (HEAD_DIGITS - n)%nat with (S (HEAD_DIGITS - S n)) in IH by lia.
  assert (HEAD_SCALE = pow10 n * pow10 (HEAD_DIGITS - S n)) as ->.
  { rewrite <-pow10_add. unfold HEAD_SCALE. change (10 ^ 36) with (pow10 36). f_equal. unfold HEAD_DIGITS in *. lia. }
  set (q := pow10 (HEAD_DIGITS - S n)) in *. pose proof (pow10_gt (HEAD_DIGITS - S n)) as Hq. fold q in Hq.
  pose proof (dn_bound p Hp) as Hb. rewrite Hl in Hb. pose proof (pow10_gt n) as Hpn.
  replace ((d * pow10 n + dn p) * q) with (d * (pow10 n * q) + dn p * q) by ring.
  rewrite Z.div_add_l, Z.div_small by nia. rewrite (Z.add_comm (d * _)), Z_mod_plus_full, Z.mod_small by nia.
  rewrite Z.add_0_r. f_equal. rewrite <-(IH p) at 2; [|lia|done|done]. f_equal. rewrite pow10_S. fold q. ring.
Qed.

Lemma strip_trail_pad l n : last l <> Some 0 -> strip_trail (l ++ repeat 0 n) = l.
Proof.
  intros Hl. unfold strip_trail. rewrite rev_app_distr.
  assert (strip_lead (rev (repeat 0 n) ++ rev l) = rev l) as ->; [|apply rev_involutive].
  assert (forall m, strip_lead (repeat 0 m ++ rev l) = rev l) as H.
  { induction m as [|m IH]; [|done]. cbn [repeat app]. destruct l as [|x l _] using rev_ind; [done|]. rewrite last_snoc in Hl.
    rewrite rev_unit. cbn [strip_lead]. rewrite (proj2 (Z.eqb_neq x 0)); [done|congruence]. }
  rewrite <-(H n) at 2. do 2 f_equal. clear. induction n as [|n IH]; [done|]. cbn [repeat rev]. rewrite IH. clear.
  induction n as [|n IH]; [done|]. cbn [repeat app]. by rewrite IH.
Qed.

Lemma strip_trail_same l : last l <> Some 0 -> strip_trail l = l.
Proof. intros H. pose proof (strip_trail_pad l 0 H) as E. cbn [repeat] in E. by rewrite app_nil_r in E. Qed.

(** A key whose digits are [l], and the digits its wire form has. *)
Definition key_of_digits (neg : bool) (e : Z) (l : list Z) : NumericKey :=
  mk_key NUM_CLASS_FINITE neg e (head_of l) (drop HEAD_DIGITS l).
Definition wire_digits (l : list Z) : list Z := strip_trail (take HEAD_DIGITS l) ++ drop HEAD_DIGITS l.

Lemma digits_of_key neg e l : canonical l -> digits (key_of_digits neg e l) = wire_digits l.
Proof.
  intros Hl. unfold digits, wire_digits. cbn [key_of_digits head tail]. pose proof (canonical_head l Hl) as Hh.
  rewrite (proj2 (Z.eqb_neq _ _)) by lia. f_equal. destruct Hl as (Hd & _ & Hlast & _).
  assert (head_digits HEAD_DIGITS (head_of l) = pad HEAD_DIGITS (take HEAD_DIGITS l)) as ->.
  { assert (length (take HEAD_DIGITS l) <= HEAD_DIGITS)%nat by (rewrite length_take; lia). rewrite head_of_dn.
    rewrite <-(head_digits_spec HEAD_DIGITS (pad HEAD_DIGITS (take HEAD_DIGITS l))) at 2; [|done|by apply digit_pad, Forall_take|by apply length_pad].
    rewrite Nat.sub_diag. change (pow10 0) with 1. by rewrite Z.mul_1_r. }
  unfold pad. destruct (Nat.le_ge_cases (length l) HEAD_DIGITS) as [H|H].
  - rewrite take_ge by done. by rewrite strip_trail_pad, strip_trail_same.
  - rewrite length_take, Nat.min_l, Nat.sub_diag by done. by rewrite app_nil_r.
Qed.

Lemma wire_canonical l : canonical l -> canonical (wire_digits l).
Proof.
  intros (Hd & Hh & Hlast & Hne). unfold wire_digits. destruct (strip_trail_spec (take HEAD_DIGITS l)) as (n & E & Hs).
  remember (strip_trail (take HEAD_DIGITS l)) as c eqn:Ec.
  assert (c <> []) as Hc.
  { intros ->. cbn [app] in E. destruct l as [|d l]; [done|]. cbn in E. destruct n; [done|]. injection E as -> _. by apply Hh. }
  split; [|split; [|split]].
  - apply Forall_app. split; [|by apply Forall_drop]. assert (digit_list (c ++ repeat 0 n)) as H by (rewrite <-E; by apply Forall_take). by apply Forall_app in H as [? _].
  - destruct c as [|d c]; [done|]. destruct l as [|d' l]; [done|]. cbn in E. injection E as <- _. done.
  - destruct (decide (drop HEAD_DIGITS l = [])) as [->|Hd']; [by rewrite app_nil_r|].
    assert (last (c ++ drop HEAD_DIGITS l) = last l) as ->; [|done].
    rewrite <-(take_drop HEAD_DIGITS l) at 2. destruct (drop HEAD_DIGITS l) as [|x r _] using rev_ind; [done|]. by rewrite !app_assoc, !last_snoc.
  - by destruct c.
Qed.

(** Keys determine their digits. *)
Lemma dn_inj l : forall m, digit_list l -> digit_list m -> length l = length m -> dn l = dn m -> l = m.
Proof.
  induction l as [|x l IH]; intros [|y m] Hl Hm E H; try done. apply Forall_cons in Hl as [Hx Hl], Hm as [Hy Hm]. cbn [length] in E. injection E as E.
  rewrite !dn_cons, E in H. pose proof (dn_bound l Hl). pose proof (dn_bound m Hm). rewrite E in *. assert (x = y) as -> by nia. f_equal. apply IH; [done..|lia].
Qed.

Lemma key_digits_inj neg e l m : canonical l -> canonical m -> key_of_digits neg e l = key_of_digits neg e m -> l = m.
Proof.
  intros (Hl & _ & Ll & _) (Hm & _ & Lm & _) H. injection H as Hh Hd. rewrite !head_of_dn in Hh.
  assert (forall x : list Z, length (take HEAD_DIGITS x) <= HEAD_DIGITS)%nat as Hn by (intros; rewrite length_take; lia).
  apply dn_inj in Hh; [|by apply digit_pad, Forall_take..|by rewrite !length_pad].
  destruct (decide (drop HEAD_DIGITS l = [])) as [El|El].
  - assert (take HEAD_DIGITS l = l) as Tl by (rewrite <-(take_drop HEAD_DIGITS l) at 2; by rewrite El, app_nil_r).
    assert (take HEAD_DIGITS m = m) as Tm by (rewrite <-(take_drop HEAD_DIGITS m) at 2; by rewrite <-Hd, El, app_nil_r).
    rewrite Tl, Tm in Hh. unfold pad in Hh. apply (f_equal strip_trail) in Hh. by rewrite !strip_trail_pad in Hh.
  - assert (forall x, drop HEAD_DIGITS x <> [] -> pad HEAD_DIGITS (take HEAD_DIGITS x) = take HEAD_DIGITS x) as Hp.
    { intros x Hx. unfold pad. rewrite length_take. destruct (Nat.le_ge_cases (length x) HEAD_DIGITS) as [E|E]; [by rewrite drop_ge in Hx|].
      by rewrite Nat.min_l, Nat.sub_diag, app_nil_r. }
    rewrite !Hp in Hh by (done || by rewrite <-Hd). by rewrite <-(take_drop HEAD_DIGITS l), <-(take_drop HEAD_DIGITS m), Hh, Hd.
Qed.

(** What the parts of a key rebuild. *)
Lemma parts_rebuild neg e l : canonical l ->
  key_from_parts NUM_CLASS_FINITE neg e (digits (key_of_digits neg e l)) = Some (key_of_digits neg e (wire_digits l)).
Proof.
  intros Hl. rewrite digits_of_key by done. destruct (wire_canonical l Hl) as (Hd & Hh & Hlast & Hne). unfold key_from_parts.
  assert (existsb (fun d => 9 <? d) (wire_digits l) = false) as ->.
  { apply not_true_is_false. intros (d & Hin%list_elem_of_In & Hd9)%existsb_exists. apply Z.ltb_lt in Hd9. pose proof (proj1 (Forall_forall _ _) Hd d Hin) as H. cbv beta in H. lia. }
  cbn [orb Z.ltb]. change (NUM_CLASS_NAN <? NUM_CLASS_FINITE) with false. cbn [orb]. rewrite Z.eqb_refl. cbn [negb andb].
  rewrite (bool_decide_eq_false_2 _ Hlast). destruct (wire_digits l) as [|d r]; [done|].
  rewrite (proj2 (Z.eqb_neq d 0)); [done|]. intros ->. by apply Hh.
Qed.

(** The zeros are dropped from the middle of the number, unless it ends there. *)
Lemma wire_digits_same l : canonical l -> wire_digits l = l <-> drop HEAD_DIGITS l = [] \/ last (take HEAD_DIGITS l) <> Some 0.
Proof.
  intros (_ & _ & Hlast & _). unfold wire_digits. split.
  - intros E. destruct (decide (drop HEAD_DIGITS l = [])) as [|Hd]; [by left|right].
    assert (strip_trail (take HEAD_DIGITS l) = take HEAD_DIGITS l) as H.
    { apply (app_inv_tail (drop HEAD_DIGITS l)). by rewrite take_drop. }
    rewrite <-H. destruct (strip_trail_spec (take HEAD_DIGITS l)) as (n & _ & Hs). exact Hs.
  - intros [E|Hl].
    + rewrite E, app_nil_r. assert (take HEAD_DIGITS l = l) as -> by (rewrite <-(take_drop HEAD_DIGITS l) at 2; by rewrite E, app_nil_r).
      by apply strip_trail_same.
    + rewrite strip_trail_same by done. apply take_drop.
Qed.
