(* ===== verification/IndexKey.v ===== *)
(** The keys of secondary indexes (crates/spg-storage/src/lib.rs) and their
    wire form in the catalog (codec.rs). *)
From S2P Require Import Prelude Bytes SortedMap BigNum BigNumMag BigNumeric BigNumText Values CodecIO CodecReads NumericKey.
Open Scope Z_scope.

Module IK.
Inductive IndexKey : Type :=
| Int (n : Z) | Text (s : list Z) | Bool (b : bool) | Uuid (b : list Z) | Bytes (b : list Z) | Numeric (k : NumericKey) | Null.
End IK.
Abbreviation IndexKey := IK.IndexKey.

(** [derive(Ord)]: the variants in the order they are declared. *)
Definition variant (k : IndexKey) : Z :=
  match k with
  | IK.Int _ => 0 | IK.Text _ => 1 | IK.Bool _ => 2 | IK.Uuid _ => 3 | IK.Bytes _ => 4 | IK.Numeric _ => 5 | IK.Null => 6
  end.

Definition index_key_cmp (a b : IndexKey) : comparison :=
  match a, b with
  | IK.Int a, IK.Int b => a ?= b
  | IK.Text a, IK.Text b | IK.Uuid a, IK.Uuid b | IK.Bytes a, IK.Bytes b => list_cmp a b
  | IK.Bool a, IK.Bool b => byte_of_bool a ?= byte_of_bool b
  | IK.Numeric a, IK.Numeric b => key_cmp a b
  | _, _ => variant a ?= variant b
  end.

(** ** Keys of values *)

(** [s.trim_end_matches(' ')] *)
Fixpoint trim_end_blanks (s : list Z) : list Z :=
  match s with [] => [] | x :: s' => if forallb (fun c => c =? 32) s then [] else x :: trim_end_blanks s' end.

(** The instant above, the offset, descending, below it. *)
Definition timetz_sort_key (us offset_secs : Z) : Z :=
  let utc := us - offset_secs * 1000000 in
  signed 64 (Z.shiftl utc 17 mod 2 ^ 64) - offset_secs.

(** The outer option is the panic of a digit loop. *)
Definition numeric_index_key (k : option NumericKey) : option (option IndexKey) := let! k := k in Some (Some (IK.Numeric k)).

Definition from_value (v : Value) : option (option IndexKey) :=
  match v with
  | V.BigInt n | V.SmallInt n | V.Int n | V.Date n | V.Timestamp n | V.Time n | V.Year n | V.Money n => Some (Some (IK.Int n))
  | V.Text s => Some (Some (IK.Text s))
  | V.BpChar s => Some (Some (IK.Text (trim_end_blanks s)))
  | V.Bool b => Some (Some (IK.Bool b))
  | V.Uuid b => Some (Some (IK.Uuid b))
  | V.TimeTz us offset_secs => Some (Some (IK.Int (timetz_sort_key us offset_secs)))
  | V.NumericBig b => numeric_index_key (from_big b)
  | V.Numeric scaled scale kind => numeric_index_key (from_numeric scaled scale kind)
  | V.Bytes b => Some (Some (IK.Bytes b))
  | _ => Some None
  end.

Definition exact_int_key (n : Z) : option (option IndexKey) := numeric_index_key (from_i128 n).

Definition from_value_for_column (v : Value) (ty : DataType) : option (option IndexKey) :=
  match ty with
  | DT.Numeric _ _ =>
    match v with
    | V.SmallInt n | V.Int n | V.BigInt n => exact_int_key n
    | V.Numeric _ _ _ | V.NumericBig _ => from_value v
    | _ => Some None
    end
  | DT.Bytes => match v with V.Bytes b => Some (Some (IK.Bytes b)) | _ => Some None end
  | _ =>
    let! k := from_value v in
    Some (match k with Some (IK.Numeric _) | Some (IK.Bytes _) => None | other => other end)
  end.

(** ** The wire form *)

Definition INDEX_KEY_TAG_INT : Z := 0.
Definition INDEX_KEY_TAG_TEXT : Z := 1.
Definition INDEX_KEY_TAG_BOOL : Z := 2.
Definition INDEX_KEY_TAG_UUID : Z := 3.
Definition INDEX_KEY_TAG_BYTES : Z := 4.
Definition INDEX_KEY_TAG_NUMERIC : Z := 5.
Definition INDEX_KEY_TAG_NULL : Z := 6.

(** [u32::try_from(n).unwrap_or(u32::MAX)] *)
Definition u32_or_max (n : nat) : Z := if Z.of_nat n <? 2 ^ 32 then Z.of_nat n else 2 ^ 32 - 1.

Definition write_index_key (key : IndexKey) : option (list Z) :=
  match key with
  | IK.Int n => Some (INDEX_KEY_TAG_INT :: le_bytes 8 n)
  | IK.Text s => let! b := write_str s in Some (INDEX_KEY_TAG_TEXT :: b)
  | IK.Bool b => Some [INDEX_KEY_TAG_BOOL; byte_of_bool b]
  | IK.Uuid b => Some (INDEX_KEY_TAG_UUID :: b)
  | IK.Bytes b => Some (INDEX_KEY_TAG_BYTES :: write_u32 (u32_or_max (length b)) ++ b)
  | IK.Null => Some [INDEX_KEY_TAG_NULL]
  | IK.Numeric n =>
    let '(class, neg, exp) := key_parts n in
    let digits := digits n in
    Some (INDEX_KEY_TAG_NUMERIC :: class :: byte_of_bool neg :: le_bytes 4 exp ++ write_u32 (u32_or_max (length digits)) ++ digits)
  end.

Definition read_index_key : Read IndexKey :=
  let* tag := read_u8 in
  if tag =? INDEX_KEY_TAG_INT then let* n := read_i64 in ret (IK.Int n)
  else if tag =? INDEX_KEY_TAG_TEXT then let* s := read_str in ret (IK.Text s)
  else if tag =? INDEX_KEY_TAG_BOOL then let* b := read_u8 in ret (IK.Bool (negb (b =? 0)))
  else if tag =? INDEX_KEY_TAG_UUID then let* s := CodecIO.take 16 in ret (IK.Uuid s)
  else if tag =? INDEX_KEY_TAG_BYTES then
    let* n := read_u32 in
    let* b := CodecIO.take (Z.to_nat n) in
    ret (IK.Bytes b)
  else if tag =? INDEX_KEY_TAG_NUMERIC then
    let* class := read_u8 in
    let* neg := read_u8 in
    let* exp := read_i32 in
    let* n := read_u32 in
    let* digits := CodecIO.take (Z.to_nat n) in
    match key_from_parts class (negb (neg =? 0)) exp digits with
    | Some k => ret (IK.Numeric k)
    | None => corrupt "non-canonical numeric index key"
    end
  else if tag =? INDEX_KEY_TAG_NULL then ret IK.Null
  else corrupt "unknown index key tag".

(** ** What a key is read back as *)

(** A key of a decimal, or of a value of the other types. *)
Definition index_key_ok (k : IndexKey) : Prop :=
  match k with
  | IK.Int n => i64 n
  | IK.Text s => is_str s
  | IK.Bool _ | IK.Null => True
  | IK.Uuid b => length b = 16%nat
  | IK.Bytes b => Z.of_nat (length b) < 2 ^ 32
  | IK.Numeric k => exists d, decimal_ok d /\ key_of d = Some k
  end.

(** The digits of a numeric key as [digits] gives them: the zeros that end
    its first 37 digits are gone. *)
Definition reread (k : IndexKey) : IndexKey :=
  match k with
  | IK.Numeric (mk_key class neg exp _ _ as n) =>
    IK.Numeric (mk_key class neg exp (head_of (digits n)) (drop HEAD_DIGITS (digits n)))
  | _ => k
  end.

Lemma numeric_shape d k : decimal_ok d -> key_of d = Some k ->
  (exists c, 0 <= c <= 3 /\ k = special c) \/
  exists neg e l, canonical l /\ k = key_of_digits neg e l /\ i32 e /\ Z.of_nat (length l) < 2 ^ 31.
Proof.
  intros Hd Hk. destruct (key_of_spec d Hd) as (_ & k' & E & Hs). rewrite Hk in E. injection E as <-.
  destruct (rank d =? 1).
  - destruct Hs as [[_ ->]|(l & Hl & E & _ & _ & He & Hn)]; [left; by exists 1|right]. eexists _, _, l. split; [exact Hl|]. split; [exact E|done].
  - left. exists (rank d). split; [|done]. destruct d as [? ? []| |]; cbn; lia.
Qed.

Lemma shortened l : canonical l ->
  wire_digits l = l <-> drop HEAD_DIGITS l = [] \/ head_of l mod 10 <> 0.
Proof.
  intros Hl. rewrite wire_digits_same by done. destruct (decide (drop HEAD_DIGITS l = [])) as [|Hd]; [tauto|].
  assert (last (firstn HEAD_DIGITS l) <> Some 0 <-> head_of l mod 10 <> 0); [|tauto].
  assert (HEAD_DIGITS <= length l)%nat as Hlen. { destruct (Nat.le_ge_cases (length l) HEAD_DIGITS) as [H|H]; [|done]. by rewrite drop_ge in Hd. }
  rewrite head_of_dn. unfold pad. rewrite length_take, Nat.min_l, Nat.sub_diag, app_nil_r by done. destruct Hl as (Hdl & _).
  assert (length (firstn HEAD_DIGITS l) = HEAD_DIGITS) as Ht by (rewrite length_take; lia).
  assert (digit_list (firstn HEAD_DIGITS l)) as Hdt by by apply Forall_take.
  destruct (firstn HEAD_DIGITS l) as [|x p _] using rev_ind; [done|]. rewrite last_snoc, dn_app. apply Forall_app in Hdt as [_ [Hx _]%Forall_cons].
  rewrite dn_cons. cbn [length]. change (pow10 0) with 1. change (pow10 1) with 10. change (dn []) with 0.
  rewrite Z.add_comm, Z_mod_plus_full, Z.mod_small by lia. split; intros H E; apply H; [by f_equal; lia|injection E as ->; lia].
Qed.

Lemma le_1 b : [byte_of_bool b] = [byte_of_bool b] -> negb (byte_of_bool b =? 0) = b.
Proof. by destruct b. Qed.

Lemma reads_sized ver (bs : list Z) {B} (k : list Z -> Read B) y : Z.of_nat (length bs) < 2 ^ 32 -> k bs = ret y ->
  reads ver (let* n := read_u32 in let* b := CodecIO.take (Z.to_nat n) in k b) (write_u32 (u32_or_max (length bs)) ++ bs) y.
Proof.
  intros Hlen Hk. unfold u32_or_max, write_u32. rewrite (proj2 (Z.ltb_lt _ _) Hlen).
  eapply reads_bind; [apply reads_u32; split; lia|]. eapply reads_last; [apply reads_take; lia|exact Hk].
Qed.

(** C35: Index keys through the catalog.  A key that was written reads back,
    whatever stands around it, as itself, and exactly its bytes are consumed;
    but for a NUMERIC of more than 37 significant digits whose 37th is zero,
    which reads back as the key of another number. *)
Theorem index_key_roundtrip ver key bs : 46 <= ver -> index_key_ok key -> write_index_key key = Some bs ->
  reads ver read_index_key bs (reread key) /\
  (reread key = key <-> match key with IK.Numeric k => tail k = [] \/ head k mod 10 <> 0 | _ => True end).
Proof.
  intros Hv Hok Hw. unfold read_index_key. destruct key as [n|s|b|b|b|k|]; cbn [index_key_ok write_index_key reread] in *.
  - apply (inj Some) in Hw as <-. split; [|done]. apply reads_u8_then. cbn. by eapply reads_last; [apply reads_i64|].
  - apply bind_Some in Hw as (b & Hb & [= <-]). split; [|done]. apply reads_u8_then. cbn. by eapply reads_last; [apply reads_str|].
  - apply (inj Some) in Hw as <-. split; [|done]. apply reads_u8_then. cbn. eapply reads_last; [apply reads_byte|]. by rewrite le_1.
  - apply (inj Some) in Hw as <-. split; [|done]. apply reads_u8_then. cbn. by eapply reads_last; [apply reads_take|].
  - apply (inj Some) in Hw as <-. split; [|done]. apply reads_u8_then. cbn -[write_u32 reads].
    by apply reads_sized.
  - destruct Hok as (d & Hd & Hk). destruct (numeric_shape d k Hd Hk) as [(c & Hc & ->)|(neg & e & l & Hl & -> & He & Hn)].
    + apply (inj Some) in Hw as <-. split; [|cbn; tauto]. apply reads_u8_then. cbn -[write_u32 le_bytes app reads key_from_parts u32_or_max].
      do 2 (apply reads_u8_then). eapply reads_bind; [by apply reads_i32|].
      apply (reads_sized ver []); [done|]. unfold key_from_parts. cbn [existsb orb Z.eqb negb].
      rewrite (proj2 (Z.ltb_ge NUM_CLASS_NAN c)) by (unfold NUM_CLASS_NAN; lia). cbn [orb].
      rewrite (bool_decide_eq_true_2 ([] = [])) by done. cbn [negb orb andb]. by rewrite andb_false_r.
    + cbn [key_of_digits key_parts class key_neg exp] in Hw. fold (key_of_digits neg e l) in Hw. apply (inj Some) in Hw as <-.
      split.
      * apply reads_u8_then. cbn -[write_u32 le_bytes digits key_from_parts key_of_digits reads].
        do 2 (apply reads_u8_then). eapply reads_bind; [by apply reads_i32|].
        apply reads_sized.
        { rewrite digits_of_key by done. unfold wire_digits. destruct (strip_trail_spec (firstn HEAD_DIGITS l)) as (n & E & _).
          apply (f_equal length) in E. rewrite length_app, repeat_length, length_take in E. rewrite length_app, length_drop. lia. }
        rewrite le_1 by done. rewrite parts_rebuild by done. change (mk_key NUM_CLASS_FINITE neg e (head_of l) (drop HEAD_DIGITS l)) with (key_of_digits neg e l).
        by rewrite digits_of_key.
      * cbn [key_of_digits tail head]. rewrite <-shortened by done. change (mk_key NUM_CLASS_FINITE neg e (head_of l) (drop HEAD_DIGITS l)) with (key_of_digits neg e l).
        rewrite digits_of_key by done. split; [|by intros ->]. intros E. injection E as Eh Et.
        apply (key_digits_inj neg e); [by apply wire_canonical|done|]. unfold key_of_digits. by rewrite Eh, Et.
  - apply (inj Some) in Hw as <-. split; [|done]. apply reads_u8_then. cbn. apply reads_ret.
Qed.

(** 10^38 + 1 is read back as 1.01 * 10^38. *)
Lemma index_key_roundtrip_witness :
  exists k k' bs, key_of (Small (10 ^ 38 + 1) 0 NumericKind.Finite) = Some k /\ write_index_key (IK.Numeric k) = Some bs /\
    key_of (Small (101 * 10 ^ 36) 0 NumericKind.Finite) = Some k' /\ reread (IK.Numeric k) = IK.Numeric k' /\
    reads 105 read_index_key bs (reread (IK.Numeric k)).
Proof.
  eexists _, _, _. split; [vm_compute; reflexivity|]. split; [vm_compute; reflexivity|]. split; [vm_compute; reflexivity|]. split; [vm_compute; reflexivity|].
  refine (proj1 (index_key_roundtrip 105 (IK.Numeric _) _ _ _ _)); [discriminate| |vm_compute; reflexivity].
  exists (Small (10 ^ 38 + 1) 0 NumericKind.Finite). split; [split; by split|vm_compute; reflexivity].
Defined.

(** Two rows of a column that a unique index tells apart have one key after a
    restart. *)
Lemma distinct_keys_collide :
  exists k1 k2, key_of (Small (10 ^ 38 + 1) 0 NumericKind.Finite) = Some k1 /\ key_of (Small (101 * 10 ^ 36) 0 NumericKind.Finite) = Some k2 /\
    k1 <> k2 /\ reread (IK.Numeric k1) = reread (IK.Numeric k2).
Proof. eexists _, _. split; [vm_compute; reflexivity|]. split; [vm_compute; reflexivity|]. split; [discriminate|vm_compute; reflexivity]. Qed.

(** The time and the offset of a [timetz], in the order of PostgreSQL: the
    instant, then the offset downwards. *)
Lemma timetz_key_order us1 off1 us2 off2 :
  0 <= us1 < 86400000000 -> 0 <= us2 < 86400000000 -> -57600 <= off1 <= 57600 -> -57600 <= off2 <= 57600 ->
  (timetz_sort_key us1 off1 ?= timetz_sort_key us2 off2) =
  then_with (us1 - off1 * 1000000 ?= us2 - off2 * 1000000) (off2 ?= off1).
Proof.
  intros Hu1 Hu2 Ho1 Ho2.
  assert (forall us off, 0 <= us < 86400000000 -> -57600 <= off <= 57600 -> timetz_sort_key us off = (us - off * 1000000) * 2 ^ 17 - off) as Hk.
  { intros us off Hu Ho. unfold timetz_sort_key, signed. rewrite Z.shiftl_mul_pow2 by lia. f_equal. set (z := (us - off * 1000000) * 2 ^ 17).
    assert (- 2 ^ 62 < z < 2 ^ 62) as Hz by (unfold z; lia). destruct (Z.le_gt_cases 0 z).
    - rewrite Z.mod_small by lia. by rewrite (proj2 (Z.ltb_lt _ _)) by lia.
    - rewrite <-(Z_mod_plus_full z 1), Z.mod_small by lia. rewrite (proj2 (Z.ltb_ge _ _)) by lia. lia. }
  rewrite !Hk by done. unfold then_with. destruct (Z.compare_spec (us1 - off1 * 1000000) (us2 - off2 * 1000000)) as [->|H|H].
  - destruct (Z.compare_spec off2 off1); [apply Z.compare_eq_iff|apply Z.compare_lt_iff|apply Z.compare_gt_iff]; lia.
  - apply Z.compare_lt_iff. lia.
  - apply Z.compare_gt_iff. lia.
Qed.
