(* ===== verification/ParSort.v ===== *)
(** Sorting across threads (crates/spg-engine/src/parsort.rs), and the theory
    of stable sorting it and the external sort share: a stable sort is the only
    ordered arrangement that keeps equal elements in their order. *)
From stdpp Require Import sorting.
From S2P Require Import Prelude.
Open Scope nat_scope.

(** ** Stable sorts *)

Section Order.
Context {A : Type} (cmp : A -> A -> comparison).

(** [v.sort_by(cmp)] and, for an order without ties, [v.sort_unstable_by(cmp)]:
    the standard library promises the arrangement, for a total order. *)
Fixpoint insert_by (x : A) (l : list A) : list A :=
  match l with
  | [] => [x]
  | y :: l' => match cmp x y with Gt => y :: insert_by x l' | _ => x :: l end
  end.
Definition sort_by (l : list A) : list A := foldr insert_by [] l.

(** [cmp] is a total preorder on [U]. *)
Record total_on (U : A -> Prop) : Prop := {
  cmp_flip : forall x y, U x -> U y -> cmp y x = CompOpp (cmp x y);
  cmp_le_trans : forall x y z, U x -> U y -> U z -> cmp x y <> Gt -> cmp y z <> Gt -> cmp x z <> Gt
}.

Definition le_by (x y : A) : Prop := cmp x y <> Gt.
Definition ordered (l : list A) : Prop := StronglySorted le_by l.

(** The elements [z] ties with, in the order they stand. *)
Definition tied (z : A) (l : list A) : list A := filter (fun x => cmp z x = Eq) l.

Context (U : A -> Prop) (HU : total_on U).

Lemma cmp_refl x : U x -> cmp x x = Eq.
Proof. intros Hx. pose proof (cmp_flip U HU x x Hx Hx) as H. by destruct (cmp x x). Qed.

Lemma cmp_eq_sym x y : U x -> U y -> cmp x y = Eq -> cmp y x = Eq.
Proof. intros Hx Hy H. by rewrite (cmp_flip U HU x y), H. Qed.

Lemma cmp_gt x y : U x -> U y -> cmp x y = Gt -> cmp y x = Lt.
Proof. intros Hx Hy H. by rewrite (cmp_flip U HU x y), H. Qed.

(** Tied elements compare alike. *)
Lemma cmp_tied x y z : U x -> U y -> U z -> cmp x y = Eq -> cmp x z = cmp y z.
Proof.
  intros Hx Hy Hz E. pose proof (cmp_eq_sym x y Hx Hy E) as E'.
  pose proof (cmp_le_trans U HU x y z Hx Hy Hz) as T1. pose proof (cmp_le_trans U HU y x z Hy Hx Hz) as T2.
  pose proof (cmp_le_trans U HU z x y Hz Hx Hy) as T3. pose proof (cmp_le_trans U HU z y x Hz Hy Hx) as T4.
  rewrite (cmp_flip U HU x z), (cmp_flip U HU y z) in T3, T4 by done. rewrite E in T1, T3. rewrite E' in T2, T4.
  destruct (cmp x z), (cmp y z); cbn in *; try done; exfalso; first [by apply T1|by apply T2|by apply T3|by apply T4].
Qed.

Lemma cmp_lt_le x y z : U x -> U y -> U z -> cmp x y = Lt -> cmp y z <> Gt -> cmp x z = Lt.
Proof.
  intros Hx Hy Hz E H. destruct (cmp x z) eqn:Exz; [|done|].
  - rewrite (cmp_tied x z y) in E by done. by rewrite (cmp_flip U HU y z), CompOpp_iff in E by done.
  - exfalso. eapply (cmp_le_trans U HU x y z); try done. by rewrite E.
Qed.

Lemma tied_app z l m : tied z (l ++ m) = tied z l ++ tied z m.
Proof. apply filter_app. Qed.

Lemma tied_cons z x l : tied z (x :: l) = if decide (cmp z x = Eq) then x :: tied z l else tied z l.
Proof. unfold tied. by rewrite filter_cons. Qed.

Lemma tied_none z l : Forall (fun x => cmp z x <> Eq) l -> tied z l = [].
Proof. intros H. induction H as [|x l Hx _ IH]; [done|]. rewrite tied_cons. by rewrite decide_False. Qed.

(** Ordered, and with equal elements in the same order: the same list. *)
Lemma stable_unique l1 : forall l2, Forall U l1 -> Forall U l2 -> ordered l1 -> ordered l2 ->
  (forall z, U z -> tied z l1 = tied z l2) -> l1 = l2.
Proof.
  induction l1 as [|x t1 IH]; intros [|y t2] H1 H2 S1 S2 Ht; [done| | |].
  - apply Forall_cons in H2 as [Hy _]. specialize (Ht y Hy). rewrite tied_cons, decide_True in Ht by by apply cmp_refl. done.
  - apply Forall_cons in H1 as [Hx _]. specialize (Ht x Hx). rewrite tied_cons, decide_True in Ht by by apply cmp_refl. done.
  - apply Forall_cons in H1 as [Hx H1], H2 as [Hy H2]. apply StronglySorted_inv in S1 as [S1 L1], S2 as [S2 L2].
    assert (forall a b ta tb, U a -> U b -> Forall U tb -> Forall (le_by b) tb -> tied a (a :: ta) = tied a (b :: tb) -> cmp b a <> Gt) as Hle.
    { intros a b ta tb Ha Hb Htb Lb E. assert (a ∈ tied a (b :: tb)) as Hin.
      { rewrite <-E, tied_cons, decide_True by by apply cmp_refl. by left. }
      apply list_elem_of_filter in Hin as [_ Hin]. apply elem_of_cons in Hin as [->|Hin]; [by rewrite cmp_refl|].
      by apply (proj1 (Forall_forall _ _) Lb). }
    pose proof (Hle x y t1 t2 Hx Hy H2 L2 (Ht x Hx)) as Lyx. pose proof (Hle y x t2 t1 Hy Hx H1 L1 (eq_sym (Ht y Hy))) as Lxy.
    assert (cmp x y = Eq) as E. { rewrite (cmp_flip U HU x y) in Lyx by done. by destruct (cmp x y). }
    assert (x = y) as ->.
    { pose proof (Ht x Hx) as Hh. rewrite !tied_cons, !decide_True in Hh by (done || by apply cmp_refl). by injection Hh. }
    f_equal. apply IH; try done. intros z Hz. specialize (Ht z Hz). rewrite !tied_cons in Ht. destruct (decide (cmp z y = Eq)); [by injection Ht|done].
Qed.

(** *** Insertion sort *)

Lemma insert_by_perm x l : insert_by x l ≡ₚ x :: l.
Proof.
  induction l as [|y l IH]; cbn; [done|]. destruct (cmp x y); [done|done|]. rewrite IH. apply Permutation_swap.
Qed.

Lemma sort_by_perm l : sort_by l ≡ₚ l.
Proof. unfold sort_by. induction l as [|x l IH]; cbn; [done|]. by rewrite insert_by_perm, IH. Qed.

Lemma Forall_perm (P : A -> Prop) l m : l ≡ₚ m -> Forall P m -> Forall P l.
Proof. intros Hp. by rewrite Hp. Qed.

Lemma sort_by_U l : Forall U l -> Forall U (sort_by l).
Proof. apply Forall_perm, sort_by_perm. Qed.

Lemma insert_by_ordered x l : U x -> Forall U l -> ordered l -> ordered (insert_by x l).
Proof.
  intros Hx. induction l as [|y l IH]; intros Hl Hs; cbn; [repeat constructor|].
  apply Forall_cons in Hl as [Hy Hl]. apply StronglySorted_inv in Hs as [Hs Hy'].
  assert (cmp x y <> Gt -> ordered (x :: y :: l)) as Hle.
  { intros H. constructor; [by constructor|]. constructor; [done|]. apply Forall_forall. intros w Hw.
    apply (cmp_le_trans U HU x y w); [done|done|by eapply (proj1 (Forall_forall _ _) Hl)|done|by eapply (proj1 (Forall_forall _ _) Hy')]. }
  destruct (cmp x y) eqn:E; [by apply Hle|by apply Hle|].
  constructor; [by apply IH|]. eapply Forall_perm; [apply insert_by_perm|]. constructor; [|done].
  unfold le_by. by rewrite (cmp_flip U HU x y), E.
Qed.

Lemma insert_by_tied z x l : U z -> U x -> Forall U l -> tied z (insert_by x l) = tied z (x :: l).
Proof.
  intros Hz Hx. induction l as [|y l IH]; intros Hl; cbn [insert_by]; [done|]. apply Forall_cons in Hl as [Hy Hl].
  destruct (cmp x y) eqn:E; [done|done|]. rewrite (tied_cons z y), IH, !tied_cons by done.
  destruct (decide (cmp z y = Eq)) as [Ey|], (decide (cmp z x = Eq)) as [Ex|]; [|done..].
  exfalso. pose proof (cmp_tied z x y Hz Hx Hy Ex) as H. by rewrite E, Ey in H.
Qed.

Lemma sort_by_ordered l : Forall U l -> ordered (sort_by l).
Proof.
  induction 1 as [|x l Hx Hl IH]; [constructor|]. cbn. apply insert_by_ordered; [done|by apply sort_by_U|done].
Qed.

Lemma sort_by_tied z l : U z -> Forall U l -> tied z (sort_by l) = tied z l.
Proof.
  intros Hz. induction 1 as [|x l Hx Hl IH]; [done|]. cbn [sort_by foldr]. rewrite insert_by_tied by (done || by apply sort_by_U).
  rewrite !tied_cons. unfold sort_by in IH. by rewrite IH.
Qed.

(** The stable sort is the arrangement that is ordered and stable. *)
Lemma sort_by_unique l m : Forall U l -> Forall U m -> ordered m -> (forall z, U z -> tied z m = tied z l) -> m = sort_by l.
Proof.
  intros Hl Hm Ho Ht. apply stable_unique; [done|by apply sort_by_U|done|by apply sort_by_ordered|].
  intros z Hz. rewrite Ht, sort_by_tied; done.
Qed.

Lemma sort_by_id l : Forall U l -> ordered l -> sort_by l = l.
Proof. intros Hl Ho. symmetry. by apply sort_by_unique. Qed.
End Order.

(** ** Threads *)

Definition MIN_PARALLEL : nat := 2 ^ 16.
Definition MIN_CHUNK : nat := 2 ^ 14.
Definition MAX_PARTS : nat := 8.

Record Workers : Type := mk_workers { per_sort : nat; per_process : nat }.
Definition serial : Workers := mk_workers 0 0.

Definition lease_amount (held want cap : nat) : nat := want `min` (cap - held).

(** [compare_exchange_weak] against the count it read; a spurious failure and
    a count that moved both try again with what they saw. *)
Inductive lease_try : Type := Fails (now : nat) | Succeeds.
Fixpoint take_lease (tries : list lease_try) (held want cap : nat) : option (nat * nat) :=
  let take_ := lease_amount held want cap in
  if take_ =? 0 then Some (0, held)
  else
    match tries with
    | [] => None
    | Succeeds :: _ => Some (take_, held + take_)
    | Fails now :: tries => take_lease tries now want cap
    end.

Definition parts_for (n extra_workers : nat) : nat :=
  if (n <? MIN_PARALLEL) || (extra_workers =? 0) then 1
  else (extra_workers + 1) `min` (n / MIN_CHUNK) `min` MAX_PARTS.

Section Parallel.
Context {A : Type} (cmp : A -> A -> comparison).

(** [v.sort_unstable_by(cmp)] *)
Context (sort_unstable_by : list A -> list A).

Definition sort_piece (stable : bool) (l : list A) : list A := if stable then sort_by cmp l else sort_unstable_by l.

Fixpoint merge_two (a : list A) : list A -> list A :=
  fix go (b : list A) : list A :=
    match a, b with
    | x :: a', y :: b' => match cmp x y with Gt => y :: go b' | _ => x :: merge_two a' b end
    | _ :: _, [] => a
    | [], _ => b
    end.

Fixpoint merge_round (runs : list (list A)) : list (list A) :=
  match runs with
  | a :: b :: runs => merge_two a b :: merge_round runs
  | runs => runs
  end.

(** Every round halves the runs. *)
Fixpoint merge_rounds (fuel : nat) (runs : list (list A)) : list (list A) :=
  match fuel with
  | O => runs
  | S fuel => if 1 <? length runs then merge_rounds fuel (merge_round runs) else runs
  end.

(** [parts] pieces, the first [rem] of them longer by one. *)
Fixpoint split_runs (parts : nat) (base rem : nat) (src : list A) : list (list A) :=
  match parts with
  | O => []
  | S parts =>
    let n := base + (if 0 <? rem then 1 else 0) in
    take n src :: split_runs parts base (rem - 1) (drop n src)
  end.

(** [leased] is what the lease came to. *)
Definition sort_parts (leased : nat) (stable : bool) (v : list A) : list A :=
  let n := length v in
  let parts := leased + 1 in
  if parts <? 2 then sort_piece stable v
  else
    let runs := map (sort_piece stable) (split_runs parts (n / parts) (n mod parts) v) in
    default [] (last (merge_rounds parts runs)).

Definition sort_in (how : Workers) (tries : list lease_try) (held : nat) (stable : bool) (v : list A) : option (list A) :=
  let wanted := parts_for (length v) (per_sort how) in
  let! (leased, _) := take_lease tries held (wanted - 1) (per_process how) in
  Some (sort_parts leased stable v).

Definition sort_total := fun how tries held v => sort_in how tries held false v.
Definition sort_total_stable := fun how tries held v => sort_in how tries held true v.

(** *** Merging is sorting *)

Context (U : A -> Prop) (HU : total_on cmp U).

Lemma merge_two_nil_l b : merge_two [] b = b.
Proof. by destruct b. Qed.
Lemma merge_two_nil_r a : merge_two a [] = a.
Proof. by destruct a. Qed.

Lemma merge_two_cons x a y b :
  merge_two (x :: a) (y :: b) = match cmp x y with Gt => y :: merge_two (x :: a) b | _ => x :: merge_two a (y :: b) end.
Proof. cbn. destruct (cmp x y); try done. Qed.

Lemma merge_two_perm a : forall b, merge_two a b ≡ₚ a ++ b.
Proof.
  induction a as [|x a IHa]; [intros b; by rewrite merge_two_nil_l|].
  induction b as [|y b IHb]; [by rewrite merge_two_nil_r, app_nil_r|]. rewrite merge_two_cons.
  destruct (cmp x y); [by rewrite IHa|by rewrite IHa|]. rewrite IHb. cbn. rewrite <-Permutation_middle. apply Permutation_swap.
Qed.

Lemma ordered_head x l y : Forall U (x :: l) -> U y -> ordered cmp (x :: l) -> cmp y x <> Gt -> Forall (le_by cmp y) (x :: l).
Proof.
  intros [Hx Hl]%Forall_cons Hy [_ Ho]%StronglySorted_inv H. constructor; [done|]. apply Forall_forall. intros w Hw.
  apply (cmp_le_trans _ _ HU y x w); [done|done|by eapply (proj1 (Forall_forall _ _) Hl)|done|by eapply (proj1 (Forall_forall _ _) Ho)].
Qed.

Lemma merge_two_ordered a : forall b, Forall U a -> Forall U b -> ordered cmp a -> ordered cmp b -> ordered cmp (merge_two a b).
Proof.
  induction a as [|x a IHa]; [intros; by rewrite merge_two_nil_l|].
  induction b as [|y b IHb]; intros Ha Hb Sa Sb; [by rewrite merge_two_nil_r|]. rewrite merge_two_cons.
  pose proof Ha as [Hx Ha']%Forall_cons. pose proof Hb as [Hy Hb']%Forall_cons. pose proof Sa as [Sa' La]%StronglySorted_inv. pose proof Sb as [Sb' Lb]%StronglySorted_inv.
  assert (cmp x y <> Gt -> ordered cmp (x :: merge_two a (y :: b))) as Hle.
  { intros H. constructor; [by apply IHa|]. eapply Forall_perm; [apply merge_two_perm|]. apply Forall_app. split; [done|by apply ordered_head]. }
  destruct (cmp x y) eqn:E; [by apply Hle|by apply Hle|].
  constructor; [by apply IHb|]. eapply Forall_perm; [apply merge_two_perm|]. apply Forall_app. split; [|done].
  apply ordered_head; [done..|]. by rewrite (cmp_gt cmp U HU x y).
Qed.

Lemma merge_two_tied z a : U z -> forall b, Forall U a -> Forall U b -> ordered cmp a ->
  tied cmp z (merge_two a b) = tied cmp z a ++ tied cmp z b.
Proof.
  intros Hz. induction a as [|x a IHa]; [intros; by rewrite merge_two_nil_l|].
  induction b as [|y b IHb]; intros Ha Hb Sa; [by rewrite merge_two_nil_r, app_nil_r|]. rewrite merge_two_cons.
  pose proof Ha as [Hx Ha']%Forall_cons. pose proof Hb as [Hy Hb']%Forall_cons. pose proof Sa as [Sa' La]%StronglySorted_inv.
  destruct (cmp x y) eqn:E.
  1,2: rewrite (tied_cons cmp z x), (tied_cons cmp z x a), IHa by done; by destruct (decide _).
  rewrite (tied_cons cmp z y), IHb, (tied_cons cmp z y b) by done. destruct (decide (cmp z y = Eq)) as [Ey|]; [|done].
  rewrite (tied_none cmp z (x :: a)); [done|]. assert (cmp y x = Lt) as Hyx by by apply (cmp_gt cmp U HU).
  apply Forall_forall. intros w Hw Ew. assert (U w) as HUw by by eapply (proj1 (Forall_forall _ _) Ha).
  assert (le_by cmp x w) as Hxw. { apply elem_of_cons in Hw as [->|Hw]; [unfold le_by; by rewrite (cmp_refl cmp U HU)|by eapply (proj1 (Forall_forall _ _) La)]. }
  pose proof (cmp_lt_le cmp U HU y x w Hy Hx HUw Hyx Hxw) as Hyw. rewrite <-(cmp_tied cmp U HU z y w) in Hyw by done. by rewrite Ew in Hyw.
Qed.

(** Sorted pieces merge to the sorted whole. *)
Lemma merge_two_sorts a b : Forall U a -> Forall U b -> merge_two (sort_by cmp a) (sort_by cmp b) = sort_by cmp (a ++ b).
Proof.
  intros Ha Hb. apply (sort_by_unique cmp U HU).
  - by apply Forall_app.
  - eapply Forall_perm; [apply merge_two_perm|]. apply Forall_app. split; by apply sort_by_U.
  - apply merge_two_ordered; try (by apply sort_by_U); by apply (sort_by_ordered cmp U HU).
  - intros z Hz. rewrite merge_two_tied, !(sort_by_tied cmp U HU), tied_app; try done; try (by apply sort_by_U).
    by apply (sort_by_ordered cmp U HU).
Qed.

(** *** The pieces *)

(** What the unstable sort of the standard library promises. *)
Context (unstable_perm : forall l, sort_unstable_by l ≡ₚ l).
Context (unstable_ordered : forall l, Forall U l -> ordered cmp (sort_unstable_by l)).

Definition no_ties : Prop := forall x y, U x -> U y -> cmp x y = Eq -> x = y.

Lemma tied_same z l : U z -> Forall U l -> no_ties -> tied cmp z l = replicate (length (tied cmp z l)) z.
Proof.
  intros Hz Hl Hn. symmetry. apply replicate_as_elem_of. split; [done|]. intros x Hx. apply list_elem_of_filter in Hx as [E Hx]. symmetry.
  apply Hn; [done|by eapply (proj1 (Forall_forall _ _) Hl)|done].
Qed.

Lemma sort_piece_sorts stable l : Forall U l -> stable = true \/ no_ties -> sort_piece stable l = sort_by cmp l.
Proof.
  intros Hl Hs. destruct stable; [done|]. destruct Hs as [|Hn]; [done|]. cbn. apply (sort_by_unique cmp U HU).
  - done.
  - apply (Forall_perm U _ l); [apply unstable_perm|done].
  - by apply unstable_ordered.
  - intros z Hz. assert (Forall U (sort_unstable_by l)) as Hl' by (apply (Forall_perm U _ l); [apply unstable_perm|done]).
    rewrite (tied_same z (sort_unstable_by l) Hz Hl' Hn), (tied_same z l Hz Hl Hn). f_equal. unfold tied. by rewrite (unstable_perm l).
Qed.

Fixpoint pair_up (pieces : list (list A)) : list (list A) :=
  match pieces with a :: b :: pieces => (a ++ b) :: pair_up pieces | pieces => pieces end.

Lemma list_pair_ind (P : list (list A) -> Prop) :
  P [] -> (forall a, P [a]) -> (forall a b l, P l -> P (a :: b :: l)) -> forall l, P l.
Proof. intros H0 H1 H2. fix go 1. intros [|a [|b l]]; [exact H0|apply H1|apply H2, go]. Qed.

Lemma pair_up_concat pieces : concat (pair_up pieces) = concat pieces.
Proof. induction pieces as [| |a b l IH] using list_pair_ind; [done|done|]. cbn. by rewrite IH, app_assoc. Qed.

Lemma pair_up_shorter pieces : length (pair_up pieces) <= (length pieces + 1) / 2.
Proof.
  induction pieces as [| |a b l IH] using list_pair_ind; [done|done|]. cbn [pair_up length].
  replace (S (S (length l)) + 1) with (length l + 1 + 1 * 2) by lia. rewrite Nat.div_add by lia. lia.
Qed.

Lemma merge_round_sorts pieces : Forall U (concat pieces) -> merge_round (map (sort_by cmp) pieces) = map (sort_by cmp) (pair_up pieces).
Proof.
  induction pieces as [| |a b l IH] using list_pair_ind; [done|done|]. cbn. rewrite !Forall_app. intros (Ha & Hb & Hl).
  by rewrite merge_two_sorts, IH.
Qed.

Lemma merge_rounds_sorts fuel : forall pieces, Forall U (concat pieces) -> length pieces <= S fuel -> pieces <> [] ->
  merge_rounds fuel (map (sort_by cmp) pieces) = [sort_by cmp (concat pieces)].
Proof.
  assert (forall p : list (list A), p <> [] -> length p <= 1 -> map (sort_by cmp) p = [sort_by cmp (concat p)]) as H1.
  { intros [|a [|b p]] Hp Hn; [done| |cbn in Hn; lia]. cbn. by rewrite app_nil_r. }
  induction fuel as [|fuel IH]; intros pieces HUp Hn Hne; cbn [merge_rounds]; [by apply H1; [|lia]|]. rewrite length_map.
  destruct (Nat.ltb_spec 1 (length pieces)) as [Hl|Hl]; [|by apply H1]. rewrite merge_round_sorts by done.
  rewrite <-pair_up_concat. apply IH; [by rewrite pair_up_concat| |].
  - pose proof (pair_up_shorter pieces). assert ((length pieces + 1) / 2 < S (S fuel)) as Hd; [|lia]. apply Nat.Div0.div_lt_upper_bound; lia.
  - destruct pieces as [|a [|b p]]; [done|cbn in Hl; lia|done].
Qed.

Lemma split_runs_concat parts : forall base rem src, rem <= parts -> length src = base * parts + rem -> concat (split_runs parts base rem src) = src.
Proof.
  induction parts as [|parts IH]; intros base rem src Hr Hl; cbn [split_runs concat]; [destruct src; [done|cbn in Hl; lia]|].
  destruct (Nat.ltb_spec 0 rem); rewrite IH; rewrite ?length_drop; try lia; apply take_drop.
Qed.

Lemma length_split_runs parts : forall base rem src, length (split_runs parts base rem src) = parts.
Proof. induction parts as [|parts IH]; intros; cbn; [done|by rewrite IH]. Qed.

Lemma sort_parts_sorts leased stable v : Forall U v -> stable = true \/ no_ties -> sort_parts leased stable v = sort_by cmp v.
Proof.
  intros Hv Hs. unfold sort_parts. destruct (Nat.ltb_spec (leased + 1) 2) as [|Hp]; [by apply sort_piece_sorts|].
  set (parts := leased + 1) in *. set (pieces := split_runs parts (length v / parts) (length v mod parts) v).
  assert (concat pieces = v) as Hc.
  { apply split_runs_concat; [pose proof (Nat.mod_upper_bound (length v) parts); lia|]. rewrite (Nat.div_mod_eq (length v) parts) at 1. lia. }
  assert (map (sort_piece stable) pieces = map (sort_by cmp) pieces) as ->.
  { apply map_ext_in. intros l Hl%list_elem_of_In. apply sort_piece_sorts; [|done]. rewrite <-Hc in Hv. clear -Hl Hv.
    induction Hl as [l pieces|l m pieces _ IH]; cbn in Hv; apply Forall_app in Hv as [? ?]; auto. }
  assert (length pieces = parts) as Hn by apply length_split_runs.
  rewrite merge_rounds_sorts; [by rewrite Hc|by rewrite Hc|lia|]. intros E. rewrite E in Hn. cbn in Hn. lia.
Qed.

Lemma take_lease_returns tries : forall held want cap, Succeeds ∈ tries -> is_Some (take_lease tries held want cap).
Proof.
  induction tries as [|[now|] tries IH]; intros held want cap Hin; cbn [take_lease]; [by apply not_elem_of_nil in Hin| |].
  - destruct (_ =? 0); [by eexists|]. apply IH. by apply elem_of_cons in Hin as [|].
  - destruct (_ =? 0); by eexists.
Qed.

Lemma sort_in_sorts how tries held stable v :
  Succeeds ∈ tries -> Forall U v -> stable = true \/ no_ties ->
  sort_in how tries held stable v = Some (sort_by cmp v).
Proof.
  intros Ht Hv Hs. unfold sort_in. destruct (take_lease_returns tries held (parts_for (length v) (per_sort how) - 1) (per_process how) Ht) as [[leased held'] ->].
  cbn [mbind option_bind]. by rewrite sort_parts_sorts.
Qed.

(** C34: Sorting across threads is sorting.  Whatever the settings, whatever other
    sorts hold of the threads and however often the exchange on their count
    fails before it succeeds, the parallel sort answers what the serial stable
    sort of the whole would: for a total preorder with its stable pieces, for
    an order without ties with the unstable ones as well. *)
Theorem parallel_sort_is_sort how tries held stable v :
  Succeeds ∈ tries -> Forall U v -> stable = true \/ no_ties ->
  sort_in how tries held stable v = Some (sort_by cmp v).
Proof. apply sort_in_sorts. Qed.
End Parallel.

(** Pairs compared by their first component: ties show which came first. *)
Definition by_fst (x y : Z * Z) : comparison := (x.1 ?= y.1)%Z.

Lemma by_fst_total : total_on by_fst (fun _ => True).
Proof.
  split; unfold by_fst.
  - intros x y _ _. by rewrite Z.compare_antisym.
  - intros x y z _ _ _. rewrite !Z.compare_gt_iff. lia.
Qed.

(** Two threads on leave: three pieces, two rounds, and ties as they were. *)
Example three_pieces : sort_parts by_fst (sort_by by_fst) 2 true
    [(3, 1); (1, 2); (3, 3); (2, 4); (1, 5); (3, 6); (1, 7)]%Z =
  [(1, 2); (1, 5); (1, 7); (2, 4); (3, 1); (3, 3); (3, 6)]%Z.
Proof. by vm_compute. Qed.

Lemma parallel_sort_is_sort_witness :
  sort_in by_fst (sort_by by_fst) (mk_workers 2 4) [Fails 1; Succeeds] 0 true [(3, 1); (1, 2); (3, 3); (2, 4)]%Z =
  Some [(1, 2); (2, 4); (3, 1); (3, 3)]%Z.
Proof.
  refine (eq_trans (parallel_sort_is_sort by_fst (sort_by by_fst) (fun _ => True) by_fst_total _ _ (mk_workers 2 4) [Fails 1; Succeeds] 0 true _ _ _ _) _).
  - intros l. apply sort_by_perm.
  - intros l Hl. by apply (sort_by_ordered by_fst (fun _ => True) by_fst_total).
  - apply elem_of_cons; right; apply elem_of_cons; by left.
  - by repeat constructor.
  - by left.
  - by vm_compute.
Defined.

(** *** The leases of a process *)

(** Sorts that take and give back threads, in any order; each takes under the
    cap of its own session. *)
Inductive lease_step : nat * list nat -> nat * list nat -> Prop :=
| lease_taken held leases want cap : lease_step (held, leases) (held + lease_amount held want cap, lease_amount held want cap :: leases)
| lease_given held l1 n l2 : lease_step (held, l1 ++ n :: l2) (held - n, l1 ++ l2).

(** The count is what is out, and a sort that takes threads leaves at most its
    cap of them out. *)
Lemma leases_counted held leases : rtc lease_step (0, []) (held, leases) -> held = sum_list leases.
Proof.
  intros Hr. remember (0, []) as p eqn:E. remember (held, leases) as q eqn:Eq.
  assert (p.1 = sum_list p.2) as Hp by by rewrite E. assert (q.1 = sum_list q.2) as Hq; [|by rewrite Eq in Hq].
  clear E Eq. induction Hr as [|p1 p2 p3 Hs _ IH]; [done|]. apply IH. destruct Hs as [h ls want cap|h l1 n l2]; cbn in *; [lia|].
  rewrite Hp, !sum_list_with_app. cbn. lia.
Qed.

Lemma lease_capped held want cap : 0 < lease_amount held want cap -> held + lease_amount held want cap <= cap.
Proof. unfold lease_amount. lia. Qed.
