(* ===== verification/OrderKey.v ===== *)
(** The keys of ORDER BY (crates/spg-engine/src/orderby.rs, with the order of
    jsonb in json.rs and of collated text in collate.rs): how keys compare, and
    the sort that carries the first key beside the row's index.

    The collator is the library ICU: the class [Collator] has its two calls. *)
From Stdlib Require Import SpecFloat.
From stdpp Require Import sorting.
From S2P Require Import Prelude Bytes Text Float64 SortedMap Values NumericKey ParSort.
Open Scope Z_scope.

(** ** Decimal text as a float *)

(** [m / 10^k], rounded once. *)
Definition f_of_decimal (neg : bool) (m k : Z) : f64 :=
  let x :=
    if k <=? 0 then binary_normalize 53 1024 (m * 10 ^ (- k)) 0 false
    else
      match m, 10 ^ k with
      | Zpos p, Zpos q => let '(mz, ez, lz) := SFdiv_core_binary 53 1024 (Zpos p) 0 (Zpos q) 0 in binary_round_aux 53 1024 false mz ez lz
      | _, _ => S754_zero false
      end in
  if neg then f_neg x else x.

Fixpoint take_digits (s : list Z) : list Z * list Z :=
  match s with
  | c :: s' => if is_ascii_digit c then let '(ds, rest) := take_digits s' in (c - 48 :: ds, rest) else ([], s)
  | [] => ([], [])
  end.

(** [s.parse::<f64>()] *)
Definition parse_exponent (s : list Z) : option Z :=
  match s with
  | [] => Some 0
  | c :: s =>
    if (c =? 0x65) || (c =? 0x45) then
      let '(neg, s) := match s with 0x2B :: s => (false, s) | 0x2D :: s => (true, s) | s => (false, s) end in
      match take_digits s with
      | ((_ :: _) as ds, []) => Some (if neg : bool then - dn ds else dn ds)
      | _ => None
      end
    else None
  end.

Definition parse_f64 (s : list Z) : option f64 :=
  let '(neg, s) := match s with 0x2B :: s => (false, s) | 0x2D :: s => (true, s) | s => (false, s) end in
  let word w := eq_ignore_ascii_case s w in
  if word (lit "inf") || word (lit "infinity") then Some (S754_infinity neg)
  else if word (lit "nan") then Some S754_nan
  else
    let '(whole, rest) := take_digits s in
    let '(frac, rest) := match rest with 0x2E :: rest => take_digits rest | rest => ([], rest) end in
    match whole ++ frac with
    | [] => None
    | ds => let! e := parse_exponent rest in Some (f_of_decimal neg (dn ds) (Z.of_nat (length frac) - e))
    end.

(** ** jsonb *)

Module J.
Inductive JsonValue : Type :=
| Null | Bool (b : bool) | Number (x : f64) | NumberText (s : list Z) | String (s : list Z)
| Array (items : list JsonValue) | Object (pairs : list (list Z * JsonValue)).
End J.
Abbreviation JsonValue := J.JsonValue.

Definition json_rank (v : JsonValue) : Z :=
  match v with J.Null => 0 | J.String _ => 1 | J.Number _ | J.NumberText _ => 2 | J.Bool _ => 3 | J.Array _ => 4 | J.Object _ => 5 end.

Definition json_num (v : JsonValue) : f64 :=
  match v with J.Number x => x | J.NumberText s => default (f_of_Z 0) (parse_f64 s) | _ => f_of_Z 0 end.

(** [partial_cmp(..).unwrap_or(Equal)] *)
Definition f_cmp_or_eq (x y : f64) : comparison := default Eq (SFcompare x y).

(** The first pair that differs. *)
Fixpoint jsonb_compare (a b : JsonValue) {struct a} : comparison :=
  let ra := json_rank a in let rb := json_rank b in
  if negb (ra =? rb) then ra ?= rb
  else
    match a, b with
    | J.String x, J.String y => list_cmp x y
    | J.Bool x, J.Bool y => (if x then 1 else 0) ?= (if y then 1 else 0)
    | (J.Number _ | J.NumberText _), (J.Number _ | J.NumberText _) => f_cmp_or_eq (json_num a) (json_num b)
    | J.Array x, J.Array y =>
      then_with (Z.of_nat (length x) ?= Z.of_nat (length y))
        ((fix go x y := match x, y with ea :: x, eb :: y => then_with (jsonb_compare ea eb) (go x y) | _, _ => Eq end) x y)
    | J.Object x, J.Object y =>
      then_with (Z.of_nat (length x) ?= Z.of_nat (length y))
        ((fix go x y := match x, y with
          | (ka, va) :: x, (kb, vb) :: y => then_with (then_with (list_cmp ka kb) (jsonb_compare va vb)) (go x y)
          | _, _ => Eq
          end) x y)
    | _, _ => Eq
    end.

(** ** Collations *)

Class Collator (C : Type) : Type := {
  icu_compare : C -> list Z -> list Z -> comparison;
  icu_sort_key : C -> list Z -> option (list Z)
}.

Definition in_alphabet (x : Z) : bool := ((x - 48) mod 256 <? 10) || ((x - 97) mod 256 <? 26).
Definition is_ascii_alnum_lower (s : list Z) : bool := forallb in_alphabet s.

(** The code point of the character at the head, of [n] bytes. *)
Definition code_point (s : list Z) (n : nat) : Z :=
  match take n s with
  | [b0] => b0
  | [b0; b1] => (b0 mod 32) * 64 + b1 mod 64
  | [b0; b1; b2] => ((b0 mod 16) * 64 + b1 mod 64) * 64 + b2 mod 64
  | [b0; b1; b2; b3] => (((b0 mod 8) * 64 + b1 mod 64) * 64 + b2 mod 64) * 64 + b3 mod 64
  | _ => 0
  end.

Definition is_combining_mark (ch : Z) : bool :=
  ((0x300 <=? ch) && (ch <=? 0x36F)) || ((0x1AB0 <=? ch) && (ch <=? 0x1AFF)) || ((0x1DC0 <=? ch) && (ch <=? 0x1DFF)) ||
  ((0x20D0 <=? ch) && (ch <=? 0x20FF)) || ((0xFE20 <=? ch) && (ch <=? 0xFE2F)).

Definition variable_punctuation : list Z := lit "!" ++ [34] ++ lit "#%&'()*,-./:;?@[\]_{}".
Definition is_variable_weight (s : list Z) : bool :=
  match ws_head s, s with Some _, _ => true | None, c :: _ => bool_decide (c ∈ variable_punctuation) | None, [] => false end.

(** Character by character; [skip] counts the bytes left of one. *)
Fixpoint variable_tiebreak_go (skip : nat) (s : list Z) : list Z :=
  match s with
  | [] => []
  | _ :: s' =>
    match skip with
    | S skip => variable_tiebreak_go skip s'
    | O =>
      let n := default 1%nat (utf8_head s) in
      (if is_variable_weight s then take n s else if is_combining_mark (code_point s n) then [] else [0xFF]) ++ variable_tiebreak_go (n - 1) s'
    end
  end.
Definition variable_tiebreak_key (s : list Z) : list Z := variable_tiebreak_go 0 s.
Definition variable_tiebreak (a b : list Z) : comparison := list_cmp (variable_tiebreak_key a) (variable_tiebreak_key b).

Record Collated (C : Type) : Type := mk_collated { collator : option C; ascii_byte_order : bool }.
Arguments mk_collated {C} collator ascii_byte_order.
Arguments collator {C} c.
Arguments ascii_byte_order {C} c.

Section Keys.
Context {C : Type} `{CO : Collator C}.

Definition sort_key_of (c : Collated C) (s : list Z) : option (list Z) :=
  let! c := collator c in
  let! key := icu_sort_key c s in
  Some (key ++ [0] ++ variable_tiebreak_key s ++ [0] ++ s).

Definition compare (self : Collated C) (a b : list Z) : comparison :=
  match collator self with
  | Some c =>
    if ascii_byte_order self && is_ascii_alnum_lower a && is_ascii_alnum_lower b then list_cmp a b
    else then_with (icu_compare c a b) (then_with (variable_tiebreak a b) (list_cmp a b))
  | None => list_cmp a b
  end.
End Keys.

(** ** Keys *)

(** Text of at most fifteen bytes is held inline; an [Alnum] form carries the
    promise that its bytes are digits and small letters. *)
Inductive CompactText : Type :=
| Inline (s : list Z) | Heap (s : list Z) | Alnum (s : list Z) | AlnumHeap (s : list Z).

Definition compact_new (s : list Z) : CompactText := if (length s <=? 15)%nat then Inline s else Heap s.
Definition new_known_alnum (s : list Z) : CompactText := if (length s <=? 15)%nat then Alnum s else AlnumHeap s.
Definition is_alnum (t : CompactText) : bool := match t with Alnum _ | AlnumHeap _ => true | _ => false end.
Definition as_str (t : CompactText) : list Z := match t with Inline s | Heap s | Alnum s | AlnumHeap s => s end.
Definition compact_cmp (a b : CompactText) : comparison := list_cmp (as_str a) (as_str b).

Module K.
Inductive OrderKey : Type :=
| NullSmall | NullBig | Num (x : f64) | Int (n : Z) | Text (t : CompactText) | Bytes (b : list Z)
| Json (j : JsonValue) | Array (items : list OrderKey) | Numeric (k : NumericKey).
End K.
Abbreviation OrderKey := K.OrderKey.

Definition float_pg_order (x y : f64) : comparison :=
  match x, y with
  | S754_nan, S754_nan => Eq
  | S754_nan, _ => Gt
  | _, S754_nan => Lt
  | _, _ => f_cmp_or_eq x y
  end.

(** [NumericKey::from_i128] of a key, which is an [i128]. *)
Definition int_key (n : Z) : NumericKey := default (special NUM_CLASS_FINITE) (from_i128 n).

(** [x as f64] *)
Definition int_as_f64 (n : Z) : f64 := f_of_Z n.

Fixpoint order_key_elem_cmp (a b : OrderKey) {struct a} : comparison :=
  match a, b with
  | K.NullBig, K.NullBig | K.NullSmall, K.NullSmall => Eq
  | K.NullBig, _ => Gt
  | _, K.NullBig => Lt
  | K.NullSmall, _ => Lt
  | _, K.NullSmall => Gt
  | K.Num x, K.Num y => float_pg_order x y
  | K.Int x, K.Int y => x ?= y
  | K.Array x, K.Array y =>
    (fix go x y :=
      match x, y with
      | ex :: x, ey :: y => then_with (order_key_elem_cmp ex ey) (go x y)
      | [], [] => Eq
      | [], _ :: _ => Lt
      | _ :: _, [] => Gt
      end) x y
  | K.Text x, K.Text y => compact_cmp x y
  | K.Bytes x, K.Bytes y => list_cmp x y
  | K.Json x, K.Json y => jsonb_compare x y
  | K.Json _, K.Num _ => Gt
  | K.Num _, K.Json _ => Lt
  | K.Json _, (K.Int _ | K.Text _ | K.Bytes _) => Gt
  | (K.Int _ | K.Text _ | K.Bytes _), K.Json _ => Lt
  | K.Int x, K.Num y => match y with S754_nan => Lt | _ => f_cmp_or_eq (int_as_f64 x) y end
  | K.Num x, K.Int y => match x with S754_nan => Gt | _ => f_cmp_or_eq x (int_as_f64 y) end
  | K.Num _, (K.Text _ | K.Bytes _) => Lt
  | (K.Text _ | K.Bytes _), K.Num _ => Gt
  | K.Int _, (K.Text _ | K.Bytes _) => Lt
  | (K.Text _ | K.Bytes _), K.Int _ => Gt
  | K.Text _, K.Bytes _ => Lt
  | K.Bytes _, K.Text _ => Gt
  | K.Array _, _ => Gt
  | _, K.Array _ => Lt
  | K.Numeric x, K.Numeric y => key_cmp x y
  | K.Numeric x, K.Int y => key_cmp x (int_key y)
  | K.Int x, K.Numeric y => key_cmp (int_key x) y
  | K.Numeric x, K.Num y => float_pg_order (to_f64 x) y
  | K.Num x, K.Numeric y => float_pg_order x (to_f64 y)
  | K.Numeric _, (K.Text _ | K.Bytes _) => Lt
  | (K.Text _ | K.Bytes _), K.Numeric _ => Gt
  | K.Numeric _, K.Json _ => Lt
  | K.Json _, K.Numeric _ => Gt
  end.

(** What follows the last NUL. *)
Fixpoint after_last_nul (key : list Z) : option (list Z) :=
  match key with
  | [] => None
  | b :: key => match after_last_nul key with Some s => Some s | None => if b =? 0 then Some key else None end
  end.
Definition original_after_key (key : list Z) : option (list Z) :=
  let! s := after_last_nul key in if utf8_valid s then Some s else None.

Section Compare.
Context {C : Type} `{CO : Collator C}.

Fixpoint order_key_elem_cmp_in (a b : OrderKey) (collation : option (Collated C)) {struct a} : comparison :=
  match collation with
  | None => order_key_elem_cmp a b
  | Some c =>
    match a, b with
    | K.Text x, K.Text y =>
      if ascii_byte_order c && is_alnum x && is_alnum y then list_cmp (as_str x) (as_str y)
      else compare c (as_str x) (as_str y)
    | K.Array x, K.Array y =>
      (fix go x y :=
        match x, y with
        | ex :: x, ey :: y => then_with (order_key_elem_cmp_in ex ey collation) (go x y)
        | [], [] => Eq
        | [], _ :: _ => Lt
        | _ :: _, [] => Gt
        end) x y
    | K.Text x, K.Bytes k =>
      match original_after_key k with Some y => compare c (as_str x) y | None => order_key_elem_cmp a b end
    | K.Bytes k, K.Text y =>
      match original_after_key k with Some x => compare c x (as_str y) | None => order_key_elem_cmp a b end
    | _, _ => order_key_elem_cmp a b
    end
  end.

(** Position by position; a list that is shorter than the keys stands for no
    opinion. *)
Fixpoint cmp_multi_key_in (a b : list OrderKey) (descs : list bool) (collations : list (option (Collated C))) : comparison :=
  match a, b with
  | ka :: a, kb :: b =>
    let ord := order_key_elem_cmp_in ka kb (mjoin (hd_error collations)) in
    let ord := if default false (hd_error descs) then CompOpp ord else ord in
    then_with ord (cmp_multi_key_in a b (tl descs) (tl collations))
  | _, _ => Eq
  end.

(** ** The first key, as a machine word *)

(** The leading eight bytes, and whether they are digits and small letters. *)
Fixpoint padded (n : nat) (b : list Z) : list Z :=
  match n with O => [] | S n => match b with [] => 0 :: padded n [] | x :: b => x :: padded n b end end.
Definition text_prefix (b : list Z) : Z * bool := (be_val (padded 8 b), forallb in_alphabet (firstn 8 b)).

Definition I128_MIN : Z := - 2 ^ 127.
Definition I128_MAX : Z := 2 ^ 127 - 1.

(** The key, whether it is exact, and whether it orders under a collation. *)
Definition inline_sort_key (k : OrderKey) : option (Z * bool * bool) :=
  match k with
  | K.Int n => if negb (n =? I128_MIN) && negb (n =? I128_MAX) then Some (n, true, true) else None
  | K.NullSmall => Some (I128_MIN, true, true)
  | K.NullBig => Some (I128_MAX, true, true)
  | K.Text t => let '(prefix, byte_ordered) := text_prefix (as_str t) in Some (prefix, false, byte_ordered)
  | _ => None
  end.

Definition any_collated (collations : list (option (Collated C))) : bool :=
  existsb (fun c => match c with Some _ => true | None => false end) collations.
Definition all_byte_ordered (collations : list (option (Collated C))) : bool :=
  forallb (fun c => match c with Some c => ascii_byte_order c | None => true end) collations.

Definition is_int (k : OrderKey) : bool := match k with K.Int _ => true | _ => false end.
Definition is_text (k : OrderKey) : bool := match k with K.Text _ => true | _ => false end.

(** [i as u32] *)
Definition as_u32 (i : nat) : nat := Z.to_nat (Z.of_nat i mod 2 ^ 32).

(** The keys with the indices of their rows, and whether all are exact. *)
Fixpoint inline_keys (collated : bool) (i : nat) (firsts : list OrderKey) : option (list (Z * nat) * bool) :=
  match firsts with
  | [] => Some ([], true)
  | k :: firsts =>
    let! (v, is_exact, byte_ordered) := inline_sort_key k in
    if collated && negb byte_ordered then None
    else
      let! (out, exact) := inline_keys collated (S i) firsts in
      Some ((v, as_u32 i) :: out, is_exact && exact)
  end.

Definition inline_first (collations : list (option (Collated C))) (firsts : list OrderKey) : option (list (Z * nat) * bool) :=
  let collated := any_collated collations in
  if collated && negb (all_byte_ordered collations) then None
  else
    let! (out, exact) := inline_keys collated 0 firsts in
    if existsb is_int firsts && existsb is_text firsts then None else Some (out, exact).

(** Every run of equal keys, in the order of the comparator. *)
Section Settle.
Context {R : Type} (same : R -> R -> bool) (cmp : R -> R -> comparison).

Definition settle_run (run : list R) : list R := if (1 <? length run)%nat then sort_by cmp run else run.
Fixpoint settle (run : list R) (order : list R) : list R :=
  match order with
  | [] => settle_run run
  | x :: order =>
    match run with
    | r :: _ => if same x r then settle (run ++ [x]) order else settle_run run ++ settle [x] order
    | [] => settle [x] order
    end
  end.
End Settle.

Definition same_key (x y : Z * nat) : bool := x.1 =? y.1.
Definition by_key (desc : bool) (x y : Z * nat) : comparison := if desc then y.1 ?= x.1 else x.1 ?= y.1.
Definition by_index (x y : Z * nat) : comparison := Nat.compare x.2 y.2.
End Compare.

(** ** The sorts of a materialised result *)

Section Sorts.
Context {C : Type} `{CO : Collator C} {Row : Type}.
Abbreviation tagged_row := (list OrderKey * Row)%type.
Implicit Types (tagged : list tagged_row) (collations : list (option (Collated C))) (descs : list bool).

(** [order.sort_unstable_by(cmp)] and [tagged.select_nth_unstable_by(n, cmp)] *)
Context (sort_unstable_by : (Z * nat -> Z * nat -> comparison) -> list (Z * nat) -> list (Z * nat)).
Context (select_nth_unstable_by : nat -> (tagged_row -> tagged_row -> comparison) -> list tagged_row -> list tagged_row).

Definition row_cmp descs collations (a b : tagged_row) : comparison := cmp_multi_key_in a.1 b.1 descs collations.
Definition keys_at tagged (i : nat) : list OrderKey := default [] (fst <$> tagged !! i).
Definition cmp_at tagged descs collations (x y : Z * nat) : comparison :=
  cmp_multi_key_in (keys_at tagged x.2) (keys_at tagged y.2) descs collations.

(** Every row is taken out of its slot once; an empty slot panics. *)
Fixpoint take_rows (src : list (option tagged_row)) (order : list (Z * nat)) : option (list tagged_row) :=
  match order with
  | [] => Some []
  | (_, i) :: order =>
    let! slot := src !! i in
    let! taken := slot in
    let! rest := take_rows (<[i := None]> src) order in
    Some (taken :: rest)
  end.

(** [false] leaves the rows alone. *)
Definition sort_tagged_by_inline_int_key tagged descs collations (workers : Workers) (tries : list lease_try) (held : nat)
  : option (bool * list tagged_row) :=
  if (length tagged <? 2)%nat then Some (true, tagged)
  else
    let multi := existsb (fun t => negb (length t.1 =? 1)%nat) tagged in
    if existsb (fun t => (length t.1 =? 0)%nat) tagged then Some (false, tagged)
    else
      match inline_first collations (map (fun t => hd K.NullBig t.1) tagged) with
      | None => Some (false, tagged)
      | Some (order, exact) =>
        let desc := default false (hd_error descs) in
        let strictly c := fun x y => then_with (c x y) (by_index x y) in
        let! order := sort_total (strictly (by_key desc)) (sort_unstable_by (strictly (by_key desc))) workers tries held order in
        let order := if multi || negb exact then settle same_key (strictly (cmp_at tagged descs collations)) [] order else order in
        let! rows := take_rows (map Some tagged) order in
        Some (true, rows)
      end.

Definition sort_by_keys_in tagged descs collations (workers : Workers) (tries : list lease_try) (held : nat) : option (list tagged_row) :=
  sort_total_stable (row_cmp descs collations) (sort_by (row_cmp descs collations)) workers tries held tagged.

Definition partial_sort_tagged_in tagged (keep : option nat) descs collations (workers : Workers) (tries : list lease_try) (held : nat)
  : option (list tagged_row) :=
  let full :=
    let! (sorted, tagged) := sort_tagged_by_inline_int_key tagged descs collations workers tries held in
    if sorted : bool then Some tagged else sort_by_keys_in tagged descs collations workers tries held in
  match keep with
  | Some k =>
    if (k <? length tagged)%nat && (0 <? k)%nat then
      Some (sort_by (row_cmp descs collations) (firstn k (select_nth_unstable_by (k - 1) (row_cmp descs collations) tagged)))
    else full
  | None => full
  end.
End Sorts.

(** ** Composing total orders *)

Lemma total_kcmp {A} `{OrdKey A} : total_on kcmp (fun _ : A => True).
Proof.
  split; [intros x y _ _; apply kcmp_antisym|]. intros x y z _ _ _ H1 H2 H3.
  destruct (kcmp x y) eqn:E; [|destruct (kcmp y z) eqn:E'|done].
  - apply kcmp_eq in E as ->. done.
  - apply kcmp_eq in E' as ->. by rewrite E in H3.
  - by rewrite (kcmp_trans _ _ _ E E') in H3.
  - done.
Qed.

Section Combine.
Context {A : Type}.
Implicit Types (c : A -> A -> comparison) (U : A -> Prop).

Lemma total_sub c U (V : A -> Prop) : total_on c U -> (forall x, V x -> U x) -> total_on c V.
Proof. intros [F T] Hs. split; [intros x y Hx Hy; apply F; auto|]. intros x y z Hx Hy Hz. apply T; auto. Qed.

Lemma total_on_ext c c' U : total_on c U -> (forall x y, U x -> U y -> c' x y = c x y) -> total_on c' U.
Proof.
  intros [F T] He. split; intros x y.
  - intros Hx Hy. rewrite !He by done. by apply F.
  - intros z Hx Hy Hz. rewrite !He by done. by apply T.
Qed.

Lemma total_opp c U : total_on c U -> total_on (fun x y => CompOpp (c x y)) U.
Proof.
  intros [F T]. split; intros x y.
  - intros Hx Hy. by rewrite (F x y).
  - intros z Hx Hy Hz. rewrite <-!F by done. intros H1 H2. by apply (T z y x).
Qed.

(** Ties of the first order decided by the second. *)
Lemma total_lex c1 c2 U : total_on c1 U -> (forall z, U z -> total_on c2 (fun x => U x /\ c1 z x = Eq)) ->
  total_on (fun x y => then_with (c1 x y) (c2 x y)) U.
Proof.
  intros H1 H2. assert (forall x, U x -> c1 x x = Eq) as Hr by (intros; by eapply cmp_refl). split.
  - intros x y Hx Hy. rewrite (cmp_flip c1 U H1 x y) by done. destruct (c1 x y) eqn:E; cbn; try done.
    by apply (cmp_flip c2 _ (H2 x Hx)); auto.
  - intros x y z Hx Hy Hz. destruct (c1 x y) eqn:E; cbn; [| |done].
    + rewrite (cmp_tied c1 U H1 x y z) by done. destruct (c1 y z) eqn:E2; cbn; [|done|done]. intros H3 H4.
      apply (cmp_le_trans c2 _ (H2 x Hx) x y z); auto. split; [done|]. by rewrite (cmp_tied c1 U H1 x y z).
    + intros _ H3. assert (c1 y z <> Gt) by (intros E'; by rewrite E' in H3). by rewrite (cmp_lt_le c1 U H1 x y z).
Qed.

Lemma total_union c (U : nat -> A -> Prop) :
  (forall n, total_on c (U n)) -> (forall n m x, (n <= m)%nat -> U n x -> U m x) -> total_on c (fun x => exists n, U n x).
Proof.
  intros H Hm. split.
  - intros x y [n Hx] [m Hy]. apply (cmp_flip c _ (H (n `max` m)%nat)); [apply (Hm n)|apply (Hm m)]; (done || lia).
  - intros x y z [n Hx] [m Hy] [k Hz]. apply (cmp_le_trans c _ (H (n `max` m `max` k)%nat)); [apply (Hm n)|apply (Hm m)|apply (Hm k)]; (done || lia).
Qed.

Lemma total_trivial c U : (forall x y, U x -> U y -> c x y = Eq) -> total_on c U.
Proof. intros H. split; intros; rewrite !H; done. Qed.
End Combine.

Lemma total_pull {A B} (f : A -> B) c (U : B -> Prop) (V : A -> Prop) :
  total_on c U -> (forall x, V x -> U (f x)) -> total_on (fun x y => c (f x) (f y)) V.
Proof. intros [F T] Hs. split; [intros x y Hx Hy; apply F; auto|]. intros x y z Hx Hy Hz. apply T; auto. Qed.

Lemma total_on_key {A B} `{OrdKey B} (f : A -> B) (V : A -> Prop) : total_on (fun x y => kcmp (f x) (f y)) V.
Proof. eapply total_pull; [apply total_kcmp|done]. Qed.

(** Lists, element by element. *)
Section Lex.
Context {A : Type} (c : A -> A -> comparison).

Fixpoint list_lex (x y : list A) : comparison :=
  match x, y with
  | [], [] => Eq
  | [], _ :: _ => Lt
  | _ :: _, [] => Gt
  | a :: x, b :: y => then_with (c a b) (list_lex x y)
  end.

Fixpoint zip_lex (x y : list A) : comparison :=
  match x, y with a :: x, b :: y => then_with (c a b) (zip_lex x y) | _, _ => Eq end.

Context (U : A -> Prop) (HU : total_on c U).

Lemma total_list_lex : total_on list_lex (Forall U).
Proof.
  split.
  - intros x y Hx. revert y. induction Hx as [|a x Ha Hx IH]; intros [|b y]; try done. intros [Hb Hy]%Forall_cons. cbn.
    rewrite (cmp_flip c U HU a b) by done. destruct (c a b); cbn; auto.
  - intros x y z Hx. revert y z. induction Hx as [|a x Ha Hx IH]; intros [|b y] [|d z] Hy Hz; try done. apply Forall_cons in Hy as [Hb Hy], Hz as [Hd Hz].
    cbn. destruct (c a b) eqn:E; cbn; [| |done].
    + rewrite (cmp_tied c U HU a b d) by done. destruct (c b d); cbn; [by apply IH|done|done].
    + intros _ H. rewrite (cmp_lt_le c U HU a b d); try done. by intros E'; rewrite E' in H.
Qed.

Lemma zip_lex_same x : forall y, length x = length y -> zip_lex x y = list_lex x y.
Proof. induction x as [|a x IH]; intros [|b y] H; try done. cbn in *. by rewrite IH by lia. Qed.

Lemma total_zip_lex n : total_on zip_lex (fun l => Forall U l /\ length l = n).
Proof.
  apply (total_on_ext list_lex); [eapply total_sub; [apply total_list_lex|by intros ? []]|].
  intros x y [_ Hx] [_ Hy]. apply zip_lex_same. by rewrite Hx.
Qed.
End Lex.

Lemma list_lex_kcmp {A} `{OrdKey A} (x : list A) : forall y, list_lex kcmp x y = list_cmp x y.
Proof. induction x as [|a x IH]; intros [|b y]; try done. cbn. rewrite IH. by destruct (kcmp a b). Qed.

(** ** Each kind of key *)

Definition float_rank (x : f64) : Z * (Z * Z) :=
  match x with
  | S754_nan => (3, (0, 0))
  | S754_infinity s => (if s then -2 else 2, (0, 0))
  | S754_finite true m e => (-1, (- e, Z.neg m))
  | S754_finite false m e => (1, (e, Z.pos m))
  | S754_zero _ => (0, (0, 0))
  end.

Lemma float_pg_rank x y : float_pg_order x y = kcmp (float_rank x) (float_rank y).
Proof.
  destruct x as [s|s| |s m e], y as [s'|s'| |s' m' e']; try (by destruct s); try (by destruct s'); try (by destruct s, s').
  all: try done.
  unfold float_pg_order, f_cmp_or_eq, SFcompare. destruct s, s'; cbn; try done.
  rewrite (Z.compare_opp e e'), (Z.compare_antisym e e'). by destruct (e ?= e').
Qed.

Lemma total_floats : total_on float_pg_order (fun _ => True).
Proof. apply (total_on_ext (fun x y => kcmp (float_rank x) (float_rank y))); [apply total_on_key|]. intros x y _ _. apply float_pg_rank. Qed.

(** Numeric keys: the class, the sign, and the magnitude the way the sign
    turns it. *)
Definition key_rank (k : NumericKey) : Z * Z :=
  (class k, if negb (class k =? NUM_CLASS_FINITE) || (head k =? 0) then 0 else if key_neg k then -1 else 1).
Definition key_mag (a b : NumericKey) : comparison :=
  then_with (exp a ?= exp b) (then_with (head a ?= head b) (list_cmp (tail a) (tail b))).
Definition signed_mag (a b : NumericKey) : comparison :=
  if (key_rank a).2 =? 0 then Eq else if (key_rank a).2 <? 0 then CompOpp (key_mag a b) else key_mag a b.

Lemma key_cmp_rank a b : key_cmp a b = then_with (kcmp (key_rank a) (key_rank b)) (signed_mag a b).
Proof.
  unfold key_cmp, signed_mag, key_rank. cbn [fst snd kcmp pair_OrdKey Z_OrdKey].
  destruct (class a =? class b) eqn:E; cbn [negb].
  - apply Z.eqb_eq in E. rewrite <-E, Z.compare_refl.
    destruct (class a =? NUM_CLASS_FINITE), (head a =? 0), (head b =? 0), (key_neg a), (key_neg b); done.
  - apply Z.eqb_neq in E. destruct (class a ?= class b) eqn:Ec; [by apply Z.compare_eq_iff in Ec|done..].
Qed.

Lemma total_key_mag : total_on key_mag (fun _ => True).
Proof.
  apply (total_on_ext (fun a b => kcmp (exp a, (head a, tail a)) (exp b, (head b, tail b)))); [exact (total_on_key (fun a => (exp a, (head a, tail a))) _)|].
  intros a b _ _. unfold key_mag. cbn. by destruct (exp a ?= exp b), (head a ?= head b).
Qed.

Lemma total_numeric_keys : total_on key_cmp (fun _ => True).
Proof.
  apply (total_on_ext (fun a b => then_with (kcmp (key_rank a) (key_rank b)) (signed_mag a b))); [|intros; apply key_cmp_rank].
  apply total_lex; [apply total_on_key|]. intros z _. set (V x := True /\ kcmp (key_rank z) (key_rank x) = Eq).
  assert (forall x, V x -> key_rank x = key_rank z) as HV by (by intros x [_ ->%kcmp_eq]).
  unfold signed_mag. destruct ((key_rank z).2 =? 0) eqn:E0; [|destruct ((key_rank z).2 <? 0) eqn:E1].
  - apply total_trivial. intros x y Hx _. by rewrite (HV x Hx), E0.
  - eapply total_on_ext; [apply total_opp; eapply total_sub; [apply total_key_mag|done]|]. intros x y Hx _. by rewrite (HV x Hx), E0, E1.
  - eapply total_on_ext; [eapply total_sub; [apply total_key_mag|done]|]. intros x y Hx _. by rewrite (HV x Hx), E0, E1.
Qed.

(** jsonb, to a depth. *)
Fixpoint json_ok (n : nat) (v : JsonValue) : Prop :=
  match n with
  | O => False
  | S n =>
    match v with
    | J.Number _ | J.NumberText _ => json_num v <> S754_nan
    | J.Array items => Forall (json_ok n) items
    | J.Object pairs => Forall (fun p => json_ok n p.2) pairs
    | _ => True
    end
  end.

Definition pair_compare (a b : list Z * JsonValue) : comparison := then_with (list_cmp a.1 b.1) (jsonb_compare a.2 b.2).

Definition same_rank_compare (a b : JsonValue) : comparison :=
  match a, b with
  | J.String x, J.String y => list_cmp x y
  | J.Bool x, J.Bool y => (if x then 1 else 0) ?= (if y then 1 else 0)
  | (J.Number _ | J.NumberText _), (J.Number _ | J.NumberText _) => f_cmp_or_eq (json_num a) (json_num b)
  | J.Array x, J.Array y => then_with (Z.of_nat (length x) ?= Z.of_nat (length y)) (zip_lex jsonb_compare x y)
  | J.Object x, J.Object y => then_with (Z.of_nat (length x) ?= Z.of_nat (length y)) (zip_lex pair_compare x y)
  | _, _ => Eq
  end.

Lemma jsonb_compare_rank a b : jsonb_compare a b = then_with (json_rank a ?= json_rank b) (same_rank_compare a b).
Proof.
  assert (forall x y, (fix go x y := match x, y with ea :: x, eb :: y => then_with (jsonb_compare ea eb) (go x y) | _, _ => Eq end) x y = zip_lex jsonb_compare x y) as Ha.
  { by induction x as [|? x IH]; intros [|? y]. }
  assert (forall x y, (fix go x y := match x, y with
      | (ka, va) :: x, (kb, vb) :: y => then_with (then_with (list_cmp ka kb) (jsonb_compare va vb)) (go x y) | _, _ => Eq end) x y = zip_lex pair_compare x y) as Ho.
  { induction x as [|[ka va] x IH]; intros [|[kb vb] y]; try done. cbn [zip_lex]. by rewrite <-IH. }
  destruct a, b; try done; cbn -[zip_lex]; by rewrite ?Ha, ?Ho.
Qed.

Definition json_string (v : JsonValue) : list Z := match v with J.String s => s | _ => [] end.
Definition json_bool (v : JsonValue) : Z := match v with J.Bool true => 1 | _ => 0 end.
Definition json_items (v : JsonValue) : list JsonValue := match v with J.Array l => l | _ => [] end.
Definition json_pairs (v : JsonValue) : list (list Z * JsonValue) := match v with J.Object l => l | _ => [] end.

Lemma total_pairs U : total_on jsonb_compare U -> total_on pair_compare (fun p => U p.2).
Proof.
  intros HU. apply total_lex; [exact (total_on_key (fun p : list Z * JsonValue => p.1) _)|]. intros z _. apply (total_pull snd _ _ _ HU). by intros x [Hx _].
Qed.

(** Same length, then element by element. *)
Lemma total_sized {A B} (c : B -> B -> comparison) (U : B -> Prop) (f : A -> list B) (V : A -> Prop) :
  total_on c U -> (forall x, V x -> Forall U (f x)) ->
  total_on (fun x y => then_with (Z.of_nat (length (f x)) ?= Z.of_nat (length (f y))) (zip_lex c (f x) (f y))) V.
Proof.
  intros HU HV. apply total_lex; [exact (total_on_key (fun x => Z.of_nat (length (f x))) _)|]. intros z Hz.
  apply (total_pull f _ _ _ (total_zip_lex c U HU (length (f z)))). intros x [Hx E%Z.compare_eq_iff]. split; [by apply HV|lia].
Qed.

(** One level more. *)
Lemma total_same_rank n z : total_on jsonb_compare (json_ok n) -> total_on same_rank_compare (fun x => json_ok (S n) x /\ (json_rank z ?= json_rank x) = Eq).
Proof.
  intros IH. set (V := fun x => json_ok (S n) x /\ (json_rank z ?= json_rank x) = Eq).
  assert (forall x, V x -> json_rank x = json_rank z) as HV by (by intros x [_ ->%Z.compare_eq_iff]).
  destruct (decide (json_rank z = 1)) as [E|]; [|destruct (decide (json_rank z = 2)) as [E|]; [|destruct (decide (json_rank z = 3)) as [E|];
    [|destruct (decide (json_rank z = 4)) as [E|]; [|destruct (decide (json_rank z = 5)) as [E|]]]]].
  - apply (total_on_ext (fun x y => kcmp (json_string x) (json_string y))); [apply total_on_key|].
    intros x y Hx%HV Hy%HV. rewrite E in *. by destruct x, y.
  - apply (total_on_ext (fun x y => kcmp (float_rank (json_num x)) (float_rank (json_num y)))); [exact (total_on_key (fun x => float_rank (json_num x)) _)|].
    intros x y Hx Hy. pose proof (HV x Hx) as Rx. pose proof (HV y Hy) as Ry. destruct Hx as [Hx _], Hy as [Hy _]. rewrite E in *. rewrite <-float_pg_rank.
    destruct x; try done; destruct y; try done; cbn [same_rank_compare]; cbn in Hx, Hy; unfold float_pg_order, json_num; repeat case_match; done.
  - apply (total_on_ext (fun x y => kcmp (json_bool x) (json_bool y))); [apply total_on_key|].
    intros x y Hx%HV Hy%HV. rewrite E in *. destruct x as [|[]| | | | |]; try done; by destruct y as [|[]| | | | |].
  - eapply total_on_ext; [apply (total_sized jsonb_compare (json_ok n) json_items V IH)|].
    + intros x Hx. pose proof (HV x Hx) as Rx. destruct Hx as [Hx _]. rewrite E in *. by destruct x.
    + intros x y Hx%HV Hy%HV. rewrite E in *. by destruct x, y.
  - eapply total_on_ext; [apply (total_sized pair_compare (fun p => json_ok n p.2) json_pairs V)|].
    + by apply total_pairs.
    + intros x Hx. pose proof (HV x Hx) as Rx. destruct Hx as [Hx _]. rewrite E in *. by destruct x.
    + intros x y Hx%HV Hy%HV. rewrite E in *. by destruct x, y.
  - apply total_trivial. intros x y Hx%HV Hy%HV. destruct x; try (by cbn in Hx; congruence). by destruct y.
Qed.

Lemma total_json_n n : total_on jsonb_compare (json_ok n).
Proof.
  induction n as [|n IH]; [by split|].
  apply (total_on_ext (fun x y => then_with (json_rank x ?= json_rank y) (same_rank_compare x y))); [|intros; apply jsonb_compare_rank].
  apply total_lex; [exact (total_on_key json_rank _)|]. intros z _. by apply total_same_rank.
Qed.

Lemma json_ok_mono n : forall m v, (n <= m)%nat -> json_ok n v -> json_ok m v.
Proof.
  induction n as [|n IH]; intros [|m] v Hm Hv; try done; [lia|]. destruct v; try done; cbn in *; (eapply Forall_impl; [exact Hv|]); cbn; intros; apply IH; (done || lia).
Qed.

Lemma total_json : total_on jsonb_compare (fun v => exists n, json_ok n v).
Proof. apply total_union; [apply total_json_n|intros; by eapply json_ok_mono]. Qed.

(** ** Text under a collation *)

(** What the code relies on of the collator: its order is total, and its sort
    keys, which hold no NUL, compare as the strings do. *)
Class CollatorLaws (C : Type) `{CO : Collator C} : Prop := {
  icu_total : forall c, total_on (icu_compare c) (fun _ => True);
  icu_key_order : forall c s t k l, icu_sort_key c s = Some k -> icu_sort_key c t = Some l -> list_cmp k l = icu_compare c s t;
  icu_key_bytes : forall c s k, icu_sort_key c s = Some k -> Forall (fun b => 0 < b) k
}.

Definition text_ok (s : list Z) : Prop := utf8_valid s = true /\ Forall (fun b => 0 < b < 256) s.

Lemma list_cmp_sep a : forall b x y, Forall (fun z => 0 < z) a -> Forall (fun z => 0 < z) b ->
  list_cmp (a ++ 0 :: x) (b ++ 0 :: y) = then_with (list_cmp a b) (list_cmp x y).
Proof.
  induction a as [|a0 a IH]; intros [|b0 b] x y Ha Hb; cbn [app list_cmp]; try done.
  - apply Forall_cons in Hb as [Hb _]. cbn. by destruct b0.
  - apply Forall_cons in Ha as [Ha _]. cbn. by destruct a0.
  - apply Forall_cons in Ha as [_ Ha], Hb as [_ Hb]. rewrite IH by done. by destruct (kcmp a0 b0).
Qed.

Lemma after_nul s : forall l, Forall (fun z => 0 < z) s -> after_last_nul (l ++ 0 :: s) = Some s.
Proof.
  intros l Hs. assert (after_last_nul s = None) as E.
  { induction Hs as [|b s Hb _ IH]; [done|]. cbn. rewrite IH. case_match; [lia|done]. }
  induction l as [|b l IH]; cbn; [by rewrite E|by rewrite IH].
Qed.

Lemma tiebreak_bytes s : Forall (fun z => 0 < z) s -> Forall (fun z => 0 < z) (variable_tiebreak_key s).
Proof.
  unfold variable_tiebreak_key. generalize 0%nat. induction s as [|b s IH]; intros n Hs; cbn [variable_tiebreak_go]; [done|].
  apply Forall_cons in Hs as [Hb Hs]. destruct n; [|by apply IH]. apply Forall_app. split; [|by apply IH].
  destruct (is_variable_weight (b :: s)); [by apply Forall_take, Forall_cons|]. destruct (is_combining_mark _); repeat constructor.
Qed.

Lemma total_list_cmp : total_on list_cmp (fun _ : list Z => True).
Proof. exact (@total_kcmp (list Z) list_OrdKey). Qed.

Lemma list_cmp_eq (a b : list Z) : list_cmp a b = Eq -> a = b.
Proof. exact (proj1 (@kcmp_eq (list Z) list_OrdKey a b)). Qed.

Section Collation.
Context {C : Type} `{CO : Collator C} `{CL : !CollatorLaws C}.

(** The claim of the allow list: strings of digits and small letters order by
    their bytes. *)
Definition byte_order_holds (self : Collated C) : Prop :=
  match collator self with
  | Some c => ascii_byte_order self = true -> forall a b, is_ascii_alnum_lower a = true -> is_ascii_alnum_lower b = true -> icu_compare c a b = list_cmp a b
  | None => True
  end.
Definition collation_ok (col : option (Collated C)) : Prop := match col with Some c => byte_order_holds c | None => True end.

(** The order of a collation, without the short cut for digits and letters. *)
Definition collated_order (c : C) (a b : list Z) : comparison := then_with (icu_compare c a b) (then_with (variable_tiebreak a b) (list_cmp a b)).

Lemma compare_collated self c a b : byte_order_holds self -> collator self = Some c -> compare self a b = collated_order c a b.
Proof.
  unfold compare, byte_order_holds, collated_order. intros H E. rewrite E in *.
  destruct (ascii_byte_order self && is_ascii_alnum_lower a && is_ascii_alnum_lower b) eqn:Ea; [|done].
  apply andb_prop in Ea as [[Ea Eb]%andb_prop Ec]. rewrite H by done. destruct (list_cmp a b) eqn:El; try done.
  apply list_cmp_eq in El as ->. unfold variable_tiebreak. by rewrite (cmp_refl _ _ total_list_cmp (variable_tiebreak_key b)).
Qed.

Lemma total_collated c : total_on (collated_order c) (fun _ => True).
Proof.
  apply total_lex; [apply icu_total|]. intros z _. apply total_lex; [exact (total_on_key variable_tiebreak_key _)|].
  intros w _. eapply total_sub; [apply total_list_cmp|done].
Qed.

Lemma total_compare self : byte_order_holds self -> total_on (compare self) (fun _ => True).
Proof.
  intros H. destruct (collator self) as [c|] eqn:E.
  - apply (total_on_ext (collated_order c)); [apply total_collated|]. intros x y _ _. by apply compare_collated.
  - apply (total_on_ext list_cmp); [apply total_list_cmp|]. intros x y _ _. unfold compare. by rewrite E.
Qed.

Lemma sort_keys_order self s t k l : byte_order_holds self -> text_ok s -> text_ok t ->
  sort_key_of self s = Some k -> sort_key_of self t = Some l -> list_cmp k l = compare self s t.
Proof.
  intros H [_ Hs] [_ Ht] Ek El. unfold sort_key_of in *. destruct (collator self) as [c|] eqn:E; [|done]. rewrite (compare_collated self c) by done. cbn [mbind option_bind] in *.
  destruct (icu_sort_key c s) as [k0|] eqn:E1; [|done]. destruct (icu_sort_key c t) as [l0|] eqn:E2; [|done]. cbn [mbind option_bind] in *.
  injection Ek as <-. injection El as <-.
  assert (forall x, Forall (fun b => 0 < b < 256) x -> Forall (fun b => 0 < b) x) as Hp by (intros x Hx; eapply Forall_impl; [exact Hx|cbn; lia]).
  cbn [app]. rewrite !list_cmp_sep; eauto using icu_key_bytes, tiebreak_bytes. by rewrite (icu_key_order c s t).
Qed.

Lemma original_of_key self s k : text_ok s -> sort_key_of self s = Some k -> original_after_key k = Some s.
Proof.
  intros [Hu Hs] E. unfold sort_key_of in E. destruct (collator self) as [c|]; [|done]. cbn [mbind option_bind] in E.
  destruct (icu_sort_key c s) as [k0|]; [|done]. injection E as <-. unfold original_after_key.
  cbn [app]. assert (k0 ++ 0 :: variable_tiebreak_key s ++ 0 :: s = (k0 ++ 0 :: variable_tiebreak_key s) ++ 0 :: s) as -> by by rewrite <-app_assoc.
  rewrite after_nul; [|eapply Forall_impl; [exact Hs|cbn; lia]]. cbn. by rewrite Hu.
Qed.

(** A key that travels for a text: as it is, under the promise that it is digits
    and small letters, or as a key of the collation. *)
Definition carries (col : option (Collated C)) (k : OrderKey) (s : list Z) : Prop :=
  text_ok s /\
  match k with
  | K.Text t => as_str t = s /\ (is_alnum t = true -> is_ascii_alnum_lower s = true)
  | K.Bytes b => match col with Some c => sort_key_of c s = Some b | None => False end
  | _ => False
  end.

Definition text_order (col : option (Collated C)) : list Z -> list Z -> comparison := match col with Some c => compare c | None => list_cmp end.

(** In whatever form two keys travel, they compare as the texts do. *)
Lemma carried_order col a b s t : collation_ok col -> carries col a s -> carries col b t -> order_key_elem_cmp_in a b col = text_order col s t.
Proof.
  intros Hc [Hs Ha] [Ht Hb]. destruct col as [c|]; cbn [text_order collation_ok] in *.
  - destruct a as [| | | |x|x| | |]; try done; destruct b as [| | | |y|y| | |]; try done.
    + destruct Ha as [<- Ha], Hb as [<- Hb]. cbn [order_key_elem_cmp_in].
      destruct (ascii_byte_order c) eqn:Eo, (is_alnum x) eqn:Ex, (is_alnum y) eqn:Ey; cbn [andb]; try done.
      unfold compare. destruct (collator c); [|done]. by rewrite Eo, Ha, Hb.
    + destruct Ha as [<- Ha]. cbn [order_key_elem_cmp_in]. by rewrite (original_of_key c t y).
    + destruct Hb as [<- Hb]. cbn [order_key_elem_cmp_in]. by rewrite (original_of_key c s x).
    + cbn. by apply sort_keys_order.
  - destruct a; try done; destruct b; try done. destruct Ha as [<- _], Hb as [<- _]. done.
Qed.
(** ** Rows of keys *)

(** The keys one column of ORDER BY yields, NULLs apart. *)
Inductive kind : Type := KNum | KInt | KText | KBytes | KJson | KNumeric | KArray (k : kind) | KRow (ks : list kind).

Definition null_rank (k : OrderKey) : Z := match k with K.NullSmall => 0 | K.NullBig => 2 | _ => 1 end.

Section Typed.
Context (col : option (Collated C)).

Fixpoint typed (kd : kind) (k : OrderKey) {struct kd} : Prop :=
  null_rank k <> 1 \/
  match kd, k with
  | KNum, K.Num _ | KBytes, K.Bytes _ | KNumeric, K.Numeric _ => True
  | KInt, K.Int n => I128_MIN <= n <= I128_MAX
  | KText, k => exists s, carries col k s
  | KJson, K.Json j => exists n, json_ok n j
  | KArray kd, K.Array l => Forall (typed kd) l
  | KRow kds, K.Array l =>
    (fix go kds l := match kds, l with [], [] => True | kd :: kds, k :: l => typed kd k /\ go kds l | _, _ => False end) kds l
  | _, _ => False
  end.

Fixpoint typed_row (kds : list kind) (l : list OrderKey) : Prop :=
  match kds, l with [], [] => True | kd :: kds, k :: l => typed kd k /\ typed_row kds l | _, _ => False end.

Abbreviation elem_cmp := (fun a b => order_key_elem_cmp_in a b col).

Lemma elem_cmp_rank a b : order_key_elem_cmp_in a b col = then_with (null_rank a ?= null_rank b) (order_key_elem_cmp_in a b col).
Proof. destruct col, a, b; done. Qed.

Lemma elem_cmp_array x y : order_key_elem_cmp_in (K.Array x) (K.Array y) col = list_lex elem_cmp x y.
Proof.
  assert (forall a b, order_key_elem_cmp_in a b None = order_key_elem_cmp a b) as Hn by by intros [].
  destruct col; cbn; revert y; induction x as [|a x IH]; intros [|b y]; try done; cbn [list_lex]; rewrite ?Hn; by rewrite <-IH.
Qed.

Definition elements (k : OrderKey) : list OrderKey := match k with K.Array l => l | _ => [] end.

(** It is enough to order the values; and those are compared by what they hold. *)
Lemma total_values (U : OrderKey -> Prop) : total_on elem_cmp (fun k => U k /\ null_rank k = 1) -> total_on elem_cmp U.
Proof.
  intros H. apply (total_on_ext (fun a b => then_with (null_rank a ?= null_rank b) (order_key_elem_cmp_in a b col))); [|intros; apply elem_cmp_rank].
  apply total_lex; [exact (total_on_key null_rank _)|]. intros z Hz. destruct (decide (null_rank z = 1)) as [E|E].
  - eapply total_sub; [exact H|]. intros x [Hx Hr%Z.compare_eq_iff]. split; [done|congruence].
  - apply total_trivial. intros x y [_ Hx%Z.compare_eq_iff] [_ Hy%Z.compare_eq_iff]. rewrite Hx in *. destruct col, x, y; done.
Qed.

Lemma total_row (kds : list kind) : Forall (fun kd => total_on elem_cmp (typed kd)) kds -> total_on (list_lex elem_cmp) (typed_row kds).
Proof.
  induction 1 as [|kd kds H _ IH].
  - apply total_trivial. by intros [|] [|].
  - apply (total_on_ext (fun x y => then_with (order_key_elem_cmp_in (hd K.NullBig x) (hd K.NullBig y) col) (list_lex elem_cmp (tl x) (tl y)))).
    + apply (total_lex (fun x y => order_key_elem_cmp_in (hd K.NullBig x) (hd K.NullBig y) col) (fun x y => list_lex elem_cmp (tl x) (tl y))).
      * apply (total_pull (hd K.NullBig) _ _ _ H). intros [|k l]; [done|]. by intros [? _].
      * intros z _. apply (total_pull tl _ _ _ IH). intros [|k l] [Hl _]; [done|]. by destruct Hl.
    + intros [|a x] [|b y]; done.
Qed.

Fixpoint kind_nested_ind (P : kind -> Prop) (H1 : P KNum) (H2 : P KInt) (H3 : P KText) (H4 : P KBytes) (H5 : P KJson) (H6 : P KNumeric)
  (H7 : forall k, P k -> P (KArray k)) (H8 : forall ks, Forall P ks -> P (KRow ks)) (k : kind) {struct k} : P k :=
  match k with
  | KNum => H1 | KInt => H2 | KText => H3 | KBytes => H4 | KJson => H5 | KNumeric => H6
  | KArray k => H7 k (kind_nested_ind P H1 H2 H3 H4 H5 H6 H7 H8 k)
  | KRow ks => H8 ks ((fix go ks : Forall P ks := match ks with [] => Forall_nil_2 P | k :: ks => Forall_cons_2 P k ks (kind_nested_ind P H1 H2 H3 H4 H5 H6 H7 H8 k) (go ks) end) ks)
  end.

Definition text_of (k : OrderKey) : list Z :=
  match k with K.Text t => as_str t | K.Bytes b => default [] (original_after_key b) | _ => [] end.

Lemma carries_text_of k s : carries col k s -> text_of k = s.
Proof.
  intros [Hs H]. destruct k as [| | | |t|b| | |]; try done; cbn.
  - by destruct H.
  - destruct col as [c|]; [|done]. by rewrite (original_of_key c s b).
Qed.

(** Keys of one kind, with NULLs at either end, are totally ordered. *)
Lemma total_typed kd : collation_ok col -> total_on elem_cmp (typed kd).
Proof.
  intros Hc. induction kd as [| | | | | |kd IH|kds IH] using kind_nested_ind; apply total_values.
  - eapply total_on_ext; [exact (total_pull (fun k => match k with K.Num x => x | _ => S754_nan end) _ _ _ total_floats (fun _ _ => I))|].
    intros x y [[Hx|Hx] Rx] [[Hy|Hy] Ry]; try done. destruct x; try done; destruct y; try done; by destruct col.
  - eapply total_on_ext; [exact (total_on_key (fun k => match k with K.Int n => n | _ => 0 end) _)|].
    intros x y [[Hx|Hx] Rx] [[Hy|Hy] Ry]; try done. destruct x; try done; destruct y; try done; by destruct col.
  - apply (total_on_ext (fun x y => text_order col (text_of x) (text_of y))).
    + apply (total_pull text_of _ (fun _ => True)); [|done]. destruct col; [by apply total_compare|apply total_list_cmp].
    + intros x y [[Hx|[s Hx]] Rx] [[Hy|[t Hy]] Ry]; try done. rewrite (carries_text_of x s), (carries_text_of y t) by done. by apply carried_order.
  - eapply total_on_ext; [exact (total_pull (fun k => match k with K.Bytes b => b | _ => [] end) _ _ _ total_list_cmp (fun _ _ => I))|].
    intros x y [[Hx|Hx] Rx] [[Hy|Hy] Ry]; try done. destruct x; try done; destruct y; try done; by destruct col.
  - eapply total_on_ext; [apply (total_pull (fun k => match k with K.Json j => j | _ => J.Null end) _ _ (fun k => typed KJson k /\ null_rank k = 1) total_json)|].
    + intros x [[Hx|Hx] Rx]; [done|]. by destruct x.
    + intros x y [[Hx|Hx] Rx] [[Hy|Hy] Ry]; try done. destruct x; try done; destruct y; try done; by destruct col.
  - eapply total_on_ext; [exact (total_pull (fun k => match k with K.Numeric n => n | _ => special 0 end) _ _ _ total_numeric_keys (fun _ _ => I))|].
    intros x y [[Hx|Hx] Rx] [[Hy|Hy] Ry]; try done. destruct x; try done; destruct y; try done; by destruct col.
  - eapply total_on_ext; [apply (total_pull elements _ _ (fun k => typed (KArray kd) k /\ null_rank k = 1) (total_list_lex _ _ IH))|].
    + intros x [[Hx|Hx] Rx]; [done|]. by destruct x.
    + intros x y [[Hx|Hx] Rx] [[Hy|Hy] Ry]; try done. destruct x; try done; destruct y; try done. apply elem_cmp_array.
  - eapply total_on_ext; [apply (total_pull elements _ _ (fun k => typed (KRow kds) k /\ null_rank k = 1) (total_row _ IH))|].
    + intros x [[Hx|Hx] Rx]; [done|]. by destruct x.
    + intros x y [[Hx|Hx] Rx] [[Hy|Hy] Ry]; try done. destruct x; try done; destruct y; try done. apply elem_cmp_array.
Qed.
End Typed.

(** One kind to a position, each under the collation of the position. *)
Fixpoint keyed_row (kds : list kind) (collations : list (option (Collated C))) (l : list OrderKey) : Prop :=
  match kds, l with
  | [], [] => True
  | kd :: kds, k :: l => typed (mjoin (hd_error collations)) kd k /\ keyed_row kds (tl collations) l
  | _, _ => False
  end.

Lemma total_keys kds : forall descs collations, Forall collation_ok collations ->
  total_on (fun a b => cmp_multi_key_in a b descs collations) (keyed_row kds collations).
Proof.
  induction kds as [|kd kds IH]; intros descs cols Hc.
  - apply total_trivial. by intros [|] [|].
  - set (col := mjoin (hd_error cols)).
    assert (collation_ok col) as Hcol by (subst col; by destruct Hc as [|c cols Hc _]).
    assert (Forall collation_ok (tl cols)) as Htl by by destruct Hc.
    apply (total_on_ext (fun x y => then_with ((if default false (hd_error descs) then CompOpp (order_key_elem_cmp_in (hd K.NullBig x) (hd K.NullBig y) col)
        else order_key_elem_cmp_in (hd K.NullBig x) (hd K.NullBig y) col)) (cmp_multi_key_in (tl x) (tl y) (tl descs) (tl cols)))).
    + assert (total_on (fun x y => order_key_elem_cmp_in (hd K.NullBig x) (hd K.NullBig y) col) (keyed_row (kd :: kds) cols)) as H1.
      { apply (total_pull (hd K.NullBig) _ _ _ (total_typed col kd Hcol)). intros [|k l]; [done|]. by intros [? _]. }
      apply (total_lex (fun x y => if default false (hd_error descs) then CompOpp (order_key_elem_cmp_in (hd K.NullBig x) (hd K.NullBig y) col)
        else order_key_elem_cmp_in (hd K.NullBig x) (hd K.NullBig y) col) (fun x y => cmp_multi_key_in (tl x) (tl y) (tl descs) (tl cols))).
      * destruct (default false (hd_error descs)); [by apply total_opp|done].
      * intros z _. apply (total_pull tl _ _ _ (IH (tl descs) (tl cols) Htl)). intros [|k l] [Hl _]; [done|]. by destruct Hl.
    + intros [|a x] [|b y]; done.
Qed.
End Collation.

(** ** Sorting by a coarser key first *)

Section Coarser.
Context {R : Type} (cmp k : R -> R -> comparison) (same : R -> R -> bool) (U : R -> Prop).
Context (HU : total_on cmp U) (Hk : total_on k U).

(** Where the key decides it decides as the order does. *)
Context (decides : forall x y, U x -> U y -> k x y = Lt -> cmp x y = Lt).
Context (same_spec : forall x y, U x -> U y -> same x y = true <-> k x y = Eq).

Lemma tied_coarse x y : U x -> U y -> cmp x y = Eq -> k x y = Eq.
Proof.
  intros Hx Hy E. destruct (k x y) eqn:Ek; [done| |].
  - by rewrite decides in E.
  - apply (cmp_gt k U Hk) in Ek; [|done..]. apply decides in Ek; [|done..]. by rewrite (cmp_flip cmp U HU y x), Ek in E.
Qed.

Lemma sort_by_split a b : Forall U a -> Forall U b -> Forall (fun x => Forall (fun y => cmp x y = Lt) b) a ->
  sort_by cmp (a ++ b) = sort_by cmp a ++ sort_by cmp b.
Proof.
  intros Ha Hb Hab. symmetry. apply (sort_by_unique cmp U HU).
  - by apply Forall_app.
  - apply Forall_app. split; by apply sort_by_U.
  - apply StronglySorted_app_2; [|by apply (sort_by_ordered cmp U HU)..].
    intros x y Hx Hy. rewrite (sort_by_perm cmp) in Hx, Hy. unfold le_by. by rewrite (proj1 (Forall_forall _ _) (proj1 (Forall_forall _ _) Hab x Hx) y Hy).
  - intros z Hz. by rewrite !tied_app, !(sort_by_tied cmp U HU).
Qed.

Lemma settle_run_sorts run : settle_run cmp run = sort_by cmp run.
Proof. unfold settle_run. destruct run as [|x [|y run]]; done. Qed.

Lemma settle_sorts l : forall r run, ordered k (r :: run ++ l) -> Forall U (r :: run ++ l) -> Forall (fun x => k x r = Eq) run ->
  settle same cmp (r :: run) l = sort_by cmp (r :: run ++ l).
Proof.
  induction l as [|x l IH]; intros r run Ho Hl Hr; cbn [settle].
  - by rewrite settle_run_sorts, app_nil_r.
  - assert (U r /\ Forall U run /\ U x /\ Forall U l) as (Ur & Urun & Ux & Ul).
    { apply Forall_cons in Hl as [? [? [? ?]%Forall_cons]%Forall_app]. done. }
    destruct (same x r) eqn:E.
    + apply same_spec in E; [|done..]. change (r :: run ++ x :: l) with (r :: run ++ ([x] ++ l)) in *. rewrite app_assoc in *.
      change ((r :: run) ++ [x]) with (r :: (run ++ [x])). apply IH; [done|done|]. apply Forall_app. split; [done|by constructor].
    + rewrite settle_run_sorts. change (r :: run ++ x :: l) with ((r :: run) ++ (x :: l)) in *.
      apply StronglySorted_app in Ho as (Hacross & _ & Ho). apply StronglySorted_inv in Ho as Hx. destruct Hx as [_ Hx].
      rewrite (IH x []); [|done|by constructor|constructor]. symmetry. apply sort_by_split; [by constructor|by constructor|].
      assert (k r x = Lt) as Hrx.
      { specialize (Hacross r x). unfold le_by in Hacross. destruct (k r x) eqn:Ek; [|done|exfalso; apply Hacross; [by left|by left|done]].
        apply (cmp_eq_sym k U Hk) in Ek; [|done..]. by rewrite (proj2 (same_spec x r Ux Ur) Ek) in E. }
      apply Forall_forall. intros a Ha. assert (U a /\ k a r = Eq) as [Ua Ea].
      { apply elem_of_cons in Ha as [->|Ha]; [split; [done|by apply (cmp_refl k U Hk)]|]. split; [by eapply (proj1 (Forall_forall _ _) Urun)|by apply (proj1 (Forall_forall _ _) Hr)]. }
      apply Forall_forall. intros y Hy. assert (U y /\ k x y <> Gt) as [Uy Ey].
      { apply elem_of_cons in Hy as [->|Hy]; [split; [done|by rewrite (cmp_refl k U Hk)]|]. split; [by eapply (proj1 (Forall_forall _ _) Ul)|by apply (proj1 (Forall_forall _ _) Hx)]. }
      apply decides; [done..|]. apply (cmp_lt_le k U Hk a x y); try done. by rewrite (cmp_tied k U Hk a r x).
Qed.

(** Sort by the key, settle the runs: the stable sort. *)
Lemma settle_is_sort l : Forall U l -> settle same cmp [] (sort_by k l) = sort_by cmp l.
Proof.
  intros Hl. assert (settle same cmp [] (sort_by k l) = sort_by cmp (sort_by k l)) as ->.
  { pose proof (sort_by_ordered k U Hk l Hl) as Ho. pose proof (sort_by_U k U l Hl) as Hs.
    destruct (sort_by k l) as [|r m]; [done|]. cbn [settle]. by apply (settle_sorts m r []). }
  apply (sort_by_unique cmp U HU); [done|by apply sort_by_U, sort_by_U|by apply (sort_by_ordered cmp U HU), sort_by_U|].
  intros z Hz. rewrite (sort_by_tied cmp U HU) by (done || by apply sort_by_U).
  assert (forall m, Forall U m -> tied cmp z m = tied cmp z (tied k z m)) as Hf.
  { induction 1 as [|x m Hx Hm IH]; [done|]. rewrite !tied_cons. destruct (decide (cmp z x = Eq)) as [E|E].
    - rewrite decide_True by by apply tied_coarse. by rewrite tied_cons, decide_True, <-IH.
    - destruct (decide (k z x = Eq)); [by rewrite tied_cons, decide_False, <-IH|done]. }
  rewrite (Hf l), (Hf (sort_by k l)) by (done || by apply sort_by_U). by rewrite (sort_by_tied k U Hk).
Qed.
End Coarser.

Lemma filter_ordered {R} (P : R -> Prop) `{!forall x, Decision (P x)} (le : R -> R -> Prop) l : StronglySorted le l -> StronglySorted le (filter P l).
Proof.
  induction 1 as [|x l _ IH Hx]; [constructor|]. rewrite filter_cons. case_decide; [|done]. constructor; [done|].
  apply Forall_forall. intros y [_ Hy]%list_elem_of_filter. by apply (proj1 (Forall_forall _ _) Hx).
Qed.

Lemma ordered_weaken {R} (P : R -> Prop) (le le' : R -> R -> Prop) l :
  Forall P l -> (forall x y, P x -> P y -> le x y -> le' x y) -> StronglySorted le l -> StronglySorted le' l.
Proof.
  intros HP Hw. induction 1 as [|x l _ IH Hx]; [constructor|]. apply Forall_cons in HP as [Px Pl]. constructor; [by apply IH|].
  apply Forall_forall. intros y Hy. apply Hw; [done|by apply (proj1 (Forall_forall _ _) Pl)|by apply (proj1 (Forall_forall _ _) Hx)].
Qed.

(** A sort of what comes by position needs no stability once the position is in
    the key. *)
Lemma sort_by_positions {R} (k : R -> R -> comparison) (pos : R -> nat) (U : R -> Prop) l :
  total_on k U -> Forall U l -> StronglySorted (fun x y => pos x < pos y)%nat l ->
  sort_by (fun x y => then_with (k x y) (Nat.compare (pos x) (pos y))) l = sort_by k l.
Proof.
  intros Hk Hl Hp. set (c := fun x y => then_with (k x y) (Nat.compare (pos x) (pos y))).
  assert (total_on c U) as Hc.
  { apply total_lex; [done|]. intros z _. split.
    - intros x y _ _. by rewrite Nat.compare_antisym.
    - intros x y w _ _ _. rewrite !Nat.compare_gt_iff. lia. }
  assert (forall x y, x ∈ l -> y ∈ l -> pos x = pos y -> x = y) as Hinj.
  { clear -Hp. induction Hp as [|a l _ IH Ha]; [by intros ? ? ?%not_elem_of_nil|]. rewrite Forall_forall in Ha. intros x y Hx Hy E.
    apply elem_of_cons in Hx as [->|Hx], Hy as [->|Hy]; [done| | |by apply IH].
    - specialize (Ha y Hy). lia.
    - specialize (Ha x Hx). lia. }
  pose proof (sort_by_U c U l Hl) as Hm. apply (sort_by_unique k U Hk); [done|done| |].
  - eapply ordered_weaken; [exact Hm| |apply (sort_by_ordered c U Hc l Hl)]. intros x y _ _. unfold le_by, c. by destruct (k x y).
  - intros z Hz. apply (StronglySorted_unique_strong (fun x y => pos x <= pos y)%nat).
    + intros x y Hx Hy H1 H2. apply list_elem_of_filter in Hx as [_ Hx], Hy as [_ Hy]. rewrite (sort_by_perm c) in Hx. apply Hinj; [done|done|lia].
    + assert (Forall (fun x => U x /\ k z x = Eq) (tied k z (sort_by c l))) as Ht.
      { apply Forall_forall. intros x [Ex Hx]%list_elem_of_filter. split; [|done]. by apply (proj1 (Forall_forall _ _) Hm). }
      eapply ordered_weaken; [exact Ht| |apply filter_ordered, (sort_by_ordered c U Hc l Hl)].
      intros x y [Ux Ex] [Uy Ey]. unfold le_by, c. rewrite <-(cmp_tied k U Hk z x y Hz Ux Uy Ex), Ey. cbn. rewrite Nat.compare_gt_iff. lia.
    + apply filter_ordered. eapply ordered_weaken; [exact Hl| |exact Hp]. cbn. lia.
    + unfold tied. by rewrite (sort_by_perm c).
Qed.

(** ** The first key as a machine word *)

Section Inline.
Context {C : Type} `{CO : Collator C} `{CL : !CollatorLaws C}.

Lemma le_val_app a b : le_val (a ++ b) = le_val a + 2 ^ (8 * Z.of_nat (length a)) * le_val b.
Proof.
  induction a as [|x a IH]; cbn [app le_val length]; [by rewrite Z.mul_1_l|].
  rewrite IH. replace (8 * Z.of_nat (S (length a))) with (8 + 8 * Z.of_nat (length a)) by lia. rewrite Z.pow_add_r by lia. change (2 ^ 8) with 256. ring.
Qed.

(** A word read in big-endian order compares as its bytes do. *)
Lemma be_val_order a : forall b, is_bytes a -> is_bytes b -> length a = length b -> (be_val a ?= be_val b) = list_cmp a b.
Proof.
  induction a as [|x a IH]; intros [|y b] Ha Hb Hl; try done. apply Forall_cons in Ha as [Hx Ha], Hb as [Hy Hb].
  injection Hl as Hl. unfold be_val in *. cbn [rev list_cmp]. rewrite !le_val_app, !length_rev, <-Hl. cbn [le_val kcmp Z_OrdKey].
  rewrite <-(IH b) by done.
  pose proof (le_val_bound (rev a) ltac:(by apply Forall_rev)) as Ba. pose proof (le_val_bound (rev b) ltac:(by apply Forall_rev)) as Bb.
  rewrite length_rev in Ba, Bb. rewrite <-Hl in Bb. set (p := 2 ^ (8 * Z.of_nat (length a))) in *.
  destruct (Z.compare_spec x y) as [->|Hlt|Hlt]; [|apply Z.compare_lt_iff; nia|apply Z.compare_gt_iff; nia].
  rewrite !(Z.add_comm _ (p * _)). apply Zcompare_plus_compat.
Qed.

Lemma length_padded n : forall b, length (padded n b) = n.
Proof. induction n as [|n IH]; intros [|x b]; cbn; by rewrite ?IH. Qed.

Lemma padded_bytes n : forall b, is_bytes b -> is_bytes (padded n b).
Proof.
  induction n as [|n IH]; intros [|x b] Hb; cbn [padded]; [constructor..| |].
  - constructor; [done|by apply IH].
  - apply Forall_cons in Hb as [Hx Hb]. constructor; [done|by apply IH].
Qed.

(** A difference inside the window decides. *)
Lemma padded_decides n : forall a b, is_bytes a -> is_bytes b -> list_cmp (padded n a) (padded n b) = Lt -> list_cmp a b = Lt.
Proof.
  induction n as [|n IH]; intros [|x a] [|y b] Ha Hb; cbn [padded list_cmp]; try done.
  - cbn. intros H. by apply (IH [] []) in H.
  - cbn. apply Forall_cons in Ha as [Hx Ha]. unfold in_w in Hx. destruct x as [|x|x]; cbn; [|done|lia]. intros H. by apply (IH a []) in H; [destruct a|..].
  - apply Forall_cons in Ha as [_ Ha], Hb as [_ Hb]. destruct (kcmp x y); [by apply IH|done|done].
Qed.

Lemma text_bytes s : text_ok s -> is_bytes s.
Proof. intros [_ H]. eapply Forall_impl; [exact H|]. unfold in_w. cbn. lia. Qed.

Lemma prefix_range b : is_bytes b -> 0 <= (text_prefix b).1 < 2 ^ 64.
Proof.
  intros Hb. unfold text_prefix, be_val. cbn [fst]. pose proof (le_val_bound (rev (padded 8 b)) ltac:(by apply Forall_rev, padded_bytes)) as H.
  by rewrite length_rev, length_padded in H.
Qed.

(** What eight bytes of digits and small letters are taken to decide under a
    collation, of the texts [P]. *)
Definition window_holds (P : list Z -> Prop) (self : Collated C) : Prop :=
  ascii_byte_order self = true -> forall a b, P a -> P b -> text_ok a -> text_ok b ->
  forallb in_alphabet (firstn 8 a) = true -> forallb in_alphabet (firstn 8 b) = true ->
  list_cmp (padded 8 a) (padded 8 b) = Lt -> compare self a b = Lt.
Definition prefix_ok (P : list Z -> Prop) (col : option (Collated C)) : Prop :=
  match col with Some c => ascii_byte_order c = true /\ window_holds P c | None => True end.

(** It does decide where the texts themselves are digits and small letters,
    and where the collation is of code points. *)
Lemma window_holds_alnum P self : byte_order_holds self ->
  (collator self = None \/ forall a, P a -> is_ascii_alnum_lower a = true) -> window_holds P self.
Proof.
  intros Hb HP Hf a b Pa Pb Ha Hb' _ _ H. assert (is_bytes a /\ is_bytes b) as [Ba Bb].
  { destruct Ha as [_ Ha], Hb' as [_ Hb']. split; (eapply Forall_impl; [eassumption|]); unfold in_w; cbn; lia. }
  apply padded_decides in H; [|done..]. unfold compare, byte_order_holds in *. destruct HP as [->|HP]; [done|].
  destruct (collator self); [|done]. by rewrite Hf, (HP a Pa), (HP b Pb).
Qed.

(** The keys that travel as a word, and as which. *)
Inductive as_word (P : list Z -> Prop) (col : option (Collated C)) : kind -> OrderKey -> Z -> bool -> bool -> Prop :=
| word_small kd : as_word P col kd K.NullSmall I128_MIN true true
| word_big kd : as_word P col kd K.NullBig I128_MAX true true
| word_int n : I128_MIN < n < I128_MAX -> as_word P col KInt (K.Int n) n true true
| word_text t : P (as_str t) -> carries col (K.Text t) (as_str t) ->
    as_word P col KText (K.Text t) (be_val (padded 8 (as_str t))) false (forallb in_alphabet (firstn 8 (as_str t))).

Lemma inline_as_word P col kd k v e o : (forall t, k = K.Text t -> P (as_str t)) -> typed col kd k -> inline_sort_key k = Some (v, e, o) -> as_word P col kd k v e o.
Proof.
  intros HP Hk E. destruct k as [| |x|n|t|b|j|l|n]; try done.
  - injection E as <- <- <-. constructor.
  - injection E as <- <- <-. constructor.
  - unfold inline_sort_key in E. destruct (n =? I128_MIN) eqn:E1, (n =? I128_MAX) eqn:E2; try done. injection E as <- <- <-.
    destruct kd; destruct Hk as [Hk|Hk]; try done; [constructor; lia|by destruct Hk as (s & _ & [])].
  - unfold inline_sort_key, text_prefix in E. injection E as <- <- <-. destruct kd; destruct Hk as [Hk|Hk]; try done.
    destruct Hk as (s & Hs). constructor; [by apply HP|]. pose proof Hs as (_ & <- & _). done.
Qed.

(** The word of a key decides where it differs, and an exact one always. *)
Lemma inline_decides P col kd a b va ea oa vb eb ob :
  collation_ok col -> prefix_ok P col -> as_word P col kd a va ea oa -> as_word P col kd b vb eb ob -> (col = None \/ oa = true /\ ob = true) ->
  (va < vb -> order_key_elem_cmp_in a b col = Lt) /\ (va = vb -> ea = true -> eb = true -> order_key_elem_cmp_in a b col = Eq).
Proof.
  intros Hc Hp Ha Hb Ho.
  assert (forall t, carries col (K.Text t) (as_str t) -> I128_MIN < be_val (padded 8 (as_str t)) < I128_MAX) as Ht.
  { intros t [Ht _]. pose proof (prefix_range (as_str t) (text_bytes _ Ht)) as H. unfold text_prefix in H. cbn [fst] in H. unfold I128_MIN, I128_MAX. lia. }
  assert (I128_MIN < I128_MAX) as Hm by by vm_compute.
  assert (forall n m, order_key_elem_cmp_in (K.Int n) (K.Int m) col = (n ?= m)) as Hi by by destruct col.
  destruct Ha as [kd|kd|n Hn|t Pt Hs]; inversion Hb as [kd'|kd'|m Hm'|t' Pt' Hs']; subst; split; intros; try (by destruct col);
    try (match goal with H : _ |- _ => apply Ht in H end; lia); try lia.
  - rewrite Hi. by apply Z.compare_eq_iff.
  - rewrite (carried_order col _ _ (as_str t) (as_str t')) by done. pose proof Hs as [Ok _]. pose proof Hs' as [Ok' _].
    apply Z.compare_lt_iff in H. rewrite be_val_order in H by (rewrite ?length_padded; auto using padded_bytes, text_bytes).
    destruct col as [c|]; [|apply (padded_decides 8); auto using text_bytes]. destruct Hp as [Hf Hw]. destruct Ho as [|[Ho1 Ho2]]; [done|]. by apply Hw.
Qed.
End Inline.

(** ** The sorts *)

Lemma sort_by_map {R T} (f : R -> T) (c : R -> R -> comparison) (c' : T -> T -> comparison) (l : list R) :
  (forall x y, x ∈ l -> y ∈ l -> c x y = c' (f x) (f y)) -> map f (sort_by c l) = sort_by c' (map f l).
Proof.
  assert (forall x m, (forall y, y ∈ m -> c x y = c' (f x) (f y)) -> map f (insert_by c x m) = insert_by c' (f x) (map f m)) as Hins.
  { intros x m H. induction m as [|y m IH]; [done|]. cbn [insert_by map]. rewrite H by by left.
    destruct (c' (f x) (f y)); cbn [map]; [done|done|]. rewrite IH; [done|]. intros w Hw. apply H. by right. }
  induction l as [|x l IH]; intros H; [done|]. cbn [sort_by foldr map]. rewrite Hins.
  - f_equal. apply IH. intros y z Hy Hz. apply H; by right.
  - intros y Hy. apply H; [by left|]. right. by rewrite <-(sort_by_perm c l).
Qed.

Section InlineKeys.
Context (collated : bool).

Lemma inline_keys_lookup firsts : forall i out exact,
  Z.of_nat (i + length firsts) < 2 ^ 32 -> inline_keys collated i firsts = Some (out, exact) ->
  map snd out = seq i (length firsts) /\
  Forall2 (fun k x => exists e o, inline_sort_key k = Some (x.1, e, o) /\ (collated = true -> o = true) /\ (exact = true -> e = true)) firsts out.
Proof.
  induction firsts as [|k firsts IH]; intros i out exact Hi; cbn [inline_keys].
  - intros E. injection E as <- <-. done.
  - destruct (inline_sort_key k) as [[[v e] o]|] eqn:Ek; [|done]. cbn [mbind option_bind].
    destruct (collated && negb o) eqn:Eo; [done|]. destruct (inline_keys collated (S i) firsts) as [[out' exact']|] eqn:Er; [|done]. cbn [mbind option_bind].
    intros E. injection E as <- <-. cbn [length] in Hi. apply IH in Er as [Hs Hf]; [|lia].
    assert (as_u32 i = i) as -> by (unfold as_u32; rewrite Z.mod_small by lia; lia).
    split; [cbn; by rewrite Hs|]. constructor.
    + exists e, o. cbn. split_and!; [done|destruct collated, o; done|by intros []%andb_prop].
    + eapply Forall2_impl; [exact Hf|]. intros k' x (e' & o' & H1 & H2 & H3). exists e', o'. split_and!; [done|done|]. intros [? ?]%andb_prop. auto.
Qed.
End InlineKeys.

Section Arrangements.
Context {R : Type} (c : R -> R -> comparison) (U : R -> Prop) (Hc : total_on c U).

Lemma all_tied x p : forall q, U x -> Forall (fun y => U y /\ c x y = Eq) p -> Forall (fun y => U y /\ c x y = Eq) q ->
  length p = length q -> Forall2 (fun y z => c y z = Eq) p q.
Proof.
  induction p as [|y p IH]; intros [|z q] Hx Hp Hq Hl; try done. apply Forall_cons in Hp as [[Uy Ey] Hp], Hq as [[Uz Ez] Hq].
  constructor; [by rewrite <-(cmp_tied c U Hc x y z)|]. apply IH; try done. by injection Hl.
Qed.

(** Two arrangements of the same rows have equal keys position by position. *)
Lemma ordered_perm_tied l1 : forall l2,
  Forall U l1 -> ordered c l1 -> ordered c l2 -> l1 ≡ₚ l2 -> Forall2 (fun x y => c x y = Eq) l1 l2.
Proof.
  induction l1 as [|x l1 IH]; intros l2 H1 O1 O2 Hp; [destruct l2 as [|y l2]; [constructor|by apply Permutation_nil_cons in Hp]|].
  assert (Forall U l2) as H2 by by rewrite <-Hp. apply Forall_cons in H1 as [Hx H1]. apply StronglySorted_inv in O1 as [O1 L1].
  destruct (list_elem_of_split l2 x) as (a & b & ->); [rewrite <-Hp; by left|].
  assert (l1 ≡ₚ a ++ b) as Hp' by (apply (Permutation_cons_inv (a := x)); etrans; [exact Hp|symmetry; apply Permutation_middle]).
  apply StronglySorted_app in O2 as (Hab & Oa & Ob). apply StronglySorted_inv in Ob as [Ob _]. apply Forall_app in H2 as [Ha Hb]. apply Forall_cons in Hb as [_ Hb].
  assert (Forall2 (fun x y => c x y = Eq) l1 (a ++ b)) as Ht.
  { apply IH; [done|done| |done]. apply StronglySorted_app_2; [|done..]. intros y z Hy Hz. apply Hab; [done|by right]. }
  assert (Forall (fun y => U y /\ c x y = Eq) a) as Hta.
  { rewrite Forall_forall in Ha, L1 |- *. intros y Hy. split; [by apply Ha|]. assert (c x y <> Gt) as L by (apply L1; rewrite Hp'; apply elem_of_app; by left).
    assert (c y x <> Gt) as L' by (apply Hab; [done|by left]). rewrite (cmp_flip c U Hc x y) in L' by auto. by destruct (c x y). }
  apply Forall2_app_inv_r in Ht as (la & lb & Hla & Hlb & ->).
  change (x :: la ++ lb) with ((x :: la) ++ lb). rewrite cons_middle, app_assoc. apply Forall2_app; [|done].
  apply Forall_app in H1 as [Ula _]. apply (all_tied x); [done| | |rewrite length_app; cbn; apply Forall2_length in Hla; lia].
  - constructor; [by rewrite (cmp_refl c U Hc)|]. apply Forall_lookup. intros i y Hy. assert (U y) as Uy by by eapply (proj1 (Forall_lookup _ _) Ula).
    split; [done|]. destruct (Forall2_lookup_l _ _ _ _ _ Hla Hy) as (z & Hz & Ez). destruct (proj1 (Forall_lookup _ _) Hta i z Hz) as [Uz Exz].
    apply (cmp_eq_sym c U Hc); [done..|]. rewrite (cmp_tied c U Hc y z x) by done. by apply (cmp_eq_sym c U Hc).
  - apply Forall_app. split; [done|]. constructor; [by rewrite (cmp_refl c U Hc)|done].
Qed.

(** The smallest, sorted, are the first rows of the whole sort, up to ties. *)
Lemma selected_prefix l m k : Forall U l -> (k < length l)%nat -> m ≡ₚ l ->
  Forall (fun x => Forall (fun y => c x y <> Gt) (drop k m)) (firstn k m) ->
  Forall2 (fun x y => c x y = Eq) (sort_by c (firstn k m)) (firstn k (sort_by c l)).
Proof.
  intros Hl Hk Hp Hs. assert (Forall U m) as Hm by by rewrite Hp.
  pose proof (Forall_take _ k _ Hm) as H1. pose proof (Forall_drop _ k _ Hm) as H2.
  assert (Forall2 (fun x y => c x y = Eq) (sort_by c (firstn k m) ++ sort_by c (drop k m)) (sort_by c l)) as Ht.
  { apply ordered_perm_tied.
    - apply Forall_app. split; by apply sort_by_U.
    - apply StronglySorted_app_2; [|by apply (sort_by_ordered c U Hc)..]. intros x y Hx Hy. rewrite (sort_by_perm c) in Hx, Hy.
      rewrite Forall_forall in Hs. by apply (proj1 (Forall_forall _ _) (Hs x Hx)).
    - by apply (sort_by_ordered c U Hc).
    - rewrite !(sort_by_perm c). rewrite <-Hp. by rewrite take_drop. }
  apply Forall2_app_inv_l in Ht as (r1 & r2 & Hr & _ & E). rewrite E.
  apply Forall2_length in Hr as Hlen. rewrite (Permutation_length (sort_by_perm c _)), length_take, Hp in Hlen.
  rewrite take_app_length'; [done|lia].
Qed.
End Arrangements.

Section Sorted.
Context {C : Type} `{CO : Collator C} `{CL : !CollatorLaws C} {Row : Type}.
Implicit Types (tagged : list (list OrderKey * Row)).
Context (sort_unstable_by : (Z * nat -> Z * nat -> comparison) -> list (Z * nat) -> list (Z * nat)).

(** An unstable sort permutes, and orders by a total order. *)
Definition unstable_sorts : Prop :=
  forall c (U : Z * nat -> Prop) l, total_on c U -> Forall U l -> sort_unstable_by c l ≡ₚ l /\ ordered c (sort_unstable_by c l).

Context (kds : list kind) (descs : list bool) (collations : list (option (Collated C))).
Context (Hcols : Forall collation_ok collations).

Definition keyed_rows tagged : Prop := Forall (fun t => keyed_row kds collations t.1) tagged.

Lemma total_rows : total_on (row_cmp (Row := Row) descs collations) (fun t => keyed_row kds collations t.1).
Proof. apply (total_pull fst _ _ _ (total_keys kds descs collations Hcols)). done. Qed.

Lemma take_rows_map (row : Z * nat -> list OrderKey * Row) order : forall src,
  NoDup (map snd order) -> (forall x, x ∈ order -> src !! x.2 = Some (Some (row x))) -> take_rows src order = Some (map row order).
Proof.
  induction order as [|[v i] order IH]; intros src Hn Hs; [done|]. cbn [map snd] in Hn. apply NoDup_cons in Hn as [Hi Hn]. cbn [take_rows].
  pose proof (Hs (v, i) ltac:(by left)) as E. cbn in E. rewrite E. cbn [mbind option_bind]. rewrite IH; [done|done|].
  intros x Hx. rewrite list_lookup_insert_ne; [apply Hs; by right|]. intros ->. apply Hi. apply list_elem_of_fmap. by exists x.
Qed.

Lemma total_by_key desc : total_on (by_key desc) (fun _ => True).
Proof.
  destruct desc; [|exact (total_on_key fst _)].
  eapply total_on_ext; [apply total_opp; exact (total_on_key fst _)|]. intros x y _ _. cbn. apply Z.compare_antisym.
Qed.

Lemma words_no_ties desc : no_ties (fun x y => then_with (by_key desc x y) (by_index x y)) (fun _ => True).
Proof.
  intros [v i] [w j] _ _. unfold by_index. cbn [snd]. destruct (by_key desc (v, i) (w, j)) eqn:E; [|done..]. cbn.
  intros ->%Nat.compare_eq_iff. f_equal. unfold by_key in E. destruct desc; apply Z.compare_eq_iff in E; by cbn in E.
Qed.

Lemma total_with_index c (U : Z * nat -> Prop) : total_on c U -> total_on (fun x y => then_with (c x y) (by_index x y)) U.
Proof.
  intros Hc. apply total_lex; [done|]. intros z _. split; unfold by_index.
  - intros x y _ _. by rewrite Nat.compare_antisym.
  - intros x y w _ _ _. rewrite !Nat.compare_gt_iff. lia.
Qed.
(** *** The order of the words, settled *)

Section Words.
Context (keys : nat -> list OrderKey) (n : nat) (order : list (Z * nat)) (exact : bool) (kd : kind) (kds' : list kind).
Context (Hkds : kds = kd :: kds') (Hn : Z.of_nat n < 2 ^ 32) (Hkeys : forall i, (i < n)%nat -> keyed_row kds collations (keys i)).
Context (Horder : inline_first collations (map (fun i => hd K.NullBig (keys i)) (seq 0 n)) = Some (order, exact)).

Let col : option (Collated C) := mjoin (hd_error collations).
Context (P : list Z -> Prop) (HP : forall i t, (i < n)%nat -> hd K.NullBig (keys i) = K.Text t -> P (as_str t)).
Context (Hwindow : match col with Some c => window_holds P c | None => True end).
Definition cmp_words (x y : Z * nat) : comparison := cmp_multi_key_in (keys x.2) (keys y.2) descs collations.

Definition word_ok (x : Z * nat) : Prop :=
  keyed_row kds collations (keys x.2) /\
  exists e o, as_word P col kd (hd K.NullBig (keys x.2)) x.1 e o /\ (col = None \/ o = true) /\ (exact = true -> e = true).

Lemma words_positions : map snd order = seq 0 n.
Proof.
  unfold inline_first in Horder. destruct (any_collated collations && negb (all_byte_ordered collations)); [done|].
  destruct (inline_keys _ _ _) as [[out ex]|] eqn:E; [|done]. cbn [mbind option_bind] in Horder. destruct (_ && _); [done|]. injection Horder as <- <-.
  apply inline_keys_lookup in E as [H _]; [|by rewrite length_map, length_seq]. by rewrite H, length_map, length_seq.
Qed.

Lemma words_ok : Forall word_ok order.
Proof.
  pose proof words_positions as Hpos. unfold inline_first in Horder. destruct (any_collated collations && negb (all_byte_ordered collations)); [done|].
  destruct (inline_keys _ _ _) as [[out ex]|] eqn:E; [|done]. cbn [mbind option_bind] in Horder. destruct (_ && _); [done|]. injection Horder as -> ->.
  apply inline_keys_lookup in E as [_ Hf]; [|by rewrite length_map, length_seq].
  apply Forall_lookup. intros j x Hx. assert (x.2 = j /\ (j < n)%nat) as [Ej Hj].
  { assert (map snd order !! j = Some x.2) as Hs by by rewrite list_lookup_fmap, Hx. rewrite Hpos in Hs. apply lookup_seq in Hs. lia. }
  apply (Forall2_lookup_r _ _ _ _ _ Hf) in Hx as (k & Hk & e & o & H1 & H2 & H3).
  rewrite list_lookup_fmap, lookup_seq_lt in Hk by done. apply (inj Some) in Hk as <-. cbn [Nat.add] in *. rewrite <-Ej in *.
  pose proof (Hkeys x.2 Hj) as Hrow. split; [done|]. exists e, o. split_and!; [|subst col; destruct collations as [|[c|] cols]; cbn; auto|done].
  apply inline_as_word; [by intros t; apply HP| |done]. rewrite Hkds in Hrow. destruct (keys x.2); [done|]. by destruct Hrow.
Qed.

Lemma first_prefix_ok : prefix_ok P col.
Proof.
  unfold inline_first in Horder. subst col. destruct collations as [|[c|] cols] eqn:Ec; try done.
  split; [|exact Hwindow]. destruct (ascii_byte_order c) eqn:Ea; [done|]. unfold any_collated, all_byte_ordered in Horder. cbn in Horder. by rewrite Ea in Horder.
Qed.

Lemma first_collation_ok : collation_ok col.
Proof. subst col. destruct Hcols as [|c cols Hc _]; [done|]. by destruct c. Qed.

Lemma total_words : total_on cmp_words word_ok.
Proof. apply (total_pull (fun x => keys x.2) _ _ _ (total_keys kds descs collations Hcols)). by intros x [Hx _]. Qed.

Lemma head_typed x : word_ok x -> typed col kd (hd K.NullBig (keys x.2)).
Proof. intros [Hx _]. rewrite Hkds in Hx. destruct (keys x.2); [done|]. by destruct Hx. Qed.

Lemma words_ordered : StronglySorted (fun x y => x.2 < y.2)%nat order.
Proof.
  pose proof words_positions as H. revert H. generalize 0%nat. generalize n. clear. induction order as [|[v i] l IH]; intros n j H; [constructor|].
  destruct n as [|n]; [done|]. cbn in H. injection H as -> H. constructor; [by eapply IH|].
  apply Forall_forall. intros [w k] Hk. cbn. assert (k ∈ seq (S j) n) as Hs by (rewrite <-H; apply list_elem_of_fmap; by exists (w, k)). apply elem_of_seq in Hs. lia.
Qed.

Lemma cmp_words_first x y : word_ok x -> word_ok y ->
  let first a b := order_key_elem_cmp_in (hd K.NullBig (keys a.2)) (hd K.NullBig (keys b.2)) col in
  cmp_words x y = then_with (if default false (hd_error descs) then CompOpp (first x y) else first x y)
    (cmp_multi_key_in (tl (keys x.2)) (tl (keys y.2)) (tl descs) (tl collations)).
Proof.
  intros [Hx _] [Hy _]. rewrite Hkds in Hx, Hy. unfold cmp_words. destruct (keys x.2), (keys y.2); try done.
Qed.

Lemma words_decide x y : word_ok x -> word_ok y -> by_key (default false (hd_error descs)) x y = Lt -> cmp_words x y = Lt.
Proof.
  intros Hx Hy Hk. pose proof (head_typed x Hx) as Tx. pose proof (head_typed y Hy) as Ty. rewrite cmp_words_first by done. destruct Hx as (_ & ex & ox & Wx & Ox & _), Hy as (_ & ey & oy & Wy & Oy & _).
  assert (col = None \/ ox = true /\ oy = true) as Ho by (destruct Ox, Oy; auto). assert (col = None \/ oy = true /\ ox = true) as Ho' by tauto.
  unfold by_key in Hk. destruct (default false (hd_error descs)); apply Z.compare_lt_iff in Hk.
  - pose proof (inline_decides P col kd _ _ _ _ _ _ _ _ first_collation_ok first_prefix_ok Wy Wx Ho') as [H _]. rewrite (cmp_flip _ _ (total_typed col kd first_collation_ok) (hd K.NullBig (keys y.2))) by done.
    by rewrite H.
  - pose proof (inline_decides P col kd _ _ _ _ _ _ _ _ first_collation_ok first_prefix_ok Wx Wy Ho) as [H _]. by rewrite H.
Qed.

Lemma words_same x y : word_ok x -> word_ok y -> same_key x y = true <-> by_key (default false (hd_error descs)) x y = Eq.
Proof. intros _ _. unfold same_key, by_key. destruct (default _ _); rewrite Z.eqb_eq, Z.compare_eq_iff; naive_solver. Qed.

Lemma words_settled : settle same_key cmp_words [] (sort_by (by_key (default false (hd_error descs))) order) = sort_by cmp_words order.
Proof.
  apply (settle_is_sort _ _ _ word_ok total_words); [eapply total_sub; [apply total_by_key|done]|apply words_decide|apply words_same|apply words_ok].
Qed.

(** With the position in the keys, unstable sorts do as well. *)
Lemma words_settled_strictly :
  settle same_key (fun x y => then_with (cmp_words x y) (by_index x y)) [] (sort_by (by_key (default false (hd_error descs))) order) = sort_by cmp_words order.
Proof.
  pose proof words_ok as Hw. rewrite <-(sort_by_positions cmp_words snd word_ok order total_words Hw words_ordered).
  apply (settle_is_sort _ _ _ word_ok); [by apply total_with_index, total_words|eapply total_sub; [apply total_by_key|done]| |apply words_same|done].
  intros x y Hx Hy H. by rewrite words_decide.
Qed.

(** A single exact key needs no settling. *)
Lemma words_exact : exact = true -> kds' = [] -> sort_by (by_key (default false (hd_error descs))) order = sort_by cmp_words order.
Proof.
  intros He Hk. pose proof words_ok as Hw. rewrite Forall_forall in Hw. symmetry.
  rewrite <-(map_id (sort_by cmp_words order)), (sort_by_map id cmp_words (by_key (default false (hd_error descs)))); [by rewrite map_id|].
  intros x y Hx%Hw Hy%Hw. unfold id. destruct (by_key _ x y) eqn:E.
  - apply words_same, Z.eqb_eq in E; [|done..]. rewrite cmp_words_first by done.
    assert (cmp_multi_key_in (tl (keys x.2)) (tl (keys y.2)) (tl descs) (tl collations) = Eq) as ->.
    { destruct Hx as [Hx _]. rewrite Hkds, Hk in Hx. destruct (keys x.2) as [|k l]; [done|]. by destruct Hx, l. }
    destruct Hx as (_ & ex & ox & Wx & Ox & Ex), Hy as (_ & ey & oy & Wy & Oy & Ey).
    pose proof (inline_decides P col kd _ _ _ _ _ _ _ _ first_collation_ok first_prefix_ok Wx Wy ltac:(destruct Ox, Oy; auto)) as [_ ->]; auto.
    by destruct (default _ _).
  - by apply words_decide.
  - apply (cmp_gt _ _ (total_by_key _)) in E; [|done..]. apply words_decide in E; [|done..]. by rewrite (cmp_flip _ _ total_words y x), E.
Qed.
End Words.
(** *** A materialised result *)

Lemma nth_all {T} (l : list T) d : map (fun i => nth i l d) (seq 0 (length l)) = l.
Proof. induction l as [|x l IH]; [done|]. cbn [length seq map]. f_equal. rewrite <-seq_shift, map_map. exact IH. Qed.

Lemma rows_ordered tagged t0 (order : list (Z * nat)) :
  map snd order = seq 0 (length tagged) ->
  take_rows (map Some tagged) (sort_by (cmp_at tagged descs collations) order) = Some (sort_by (row_cmp descs collations) tagged) /\
  map (fun x => nth x.2 tagged t0) order = tagged.
Proof.
  intros Hp. assert (map (fun x => nth x.2 tagged t0) order = tagged) as Hm.
  { rewrite <-(map_map snd (fun i => nth i tagged t0)), Hp. apply nth_all. }
  assert (forall x, x ∈ order -> tagged !! x.2 = Some (nth x.2 tagged t0)) as Hin.
  { intros x Hx. assert (x.2 ∈ seq 0 (length tagged)) as Hs by (rewrite <-Hp; apply list_elem_of_fmap; by exists x). apply elem_of_seq in Hs.
    destruct (lookup_lt_is_Some_2 tagged x.2 ltac:(lia)) as [t Ht]. rewrite Ht. f_equal. symmetry. by apply nth_lookup_Some. }
  split; [|done]. rewrite (take_rows_map (fun x => nth x.2 tagged t0)).
  - f_equal. rewrite (sort_by_map (fun x => nth x.2 tagged t0) _ (row_cmp descs collations)); [by rewrite Hm|].
    intros x y Hx%Hin Hy%Hin. unfold cmp_at, keys_at, row_cmp. by rewrite Hx, Hy.
  - rewrite (sort_by_perm (cmp_at tagged descs collations) order), Hp. apply NoDup_seq.
  - intros x Hx. rewrite (sort_by_perm (cmp_at tagged descs collations)) in Hx. rewrite list_lookup_fmap, (Hin x Hx). done.
Qed.
Lemma keyed_length ks cols l : keyed_row ks cols l -> length l = length ks.
Proof.
  revert cols l. induction ks as [|k ks IH]; intros cols [|x l]; try done. cbn. intros [_ H]. f_equal. by eapply IH.
Qed.

(** The texts of the first keys, and that their first eight bytes decide under
    the collation of the first position wherever a sort lets them. *)
Definition first_texts tagged (s : list Z) : Prop := exists t, t ∈ tagged /\ exists k, hd K.NullBig t.1 = K.Text k /\ s = as_str k.
Definition windows_decide tagged : Prop :=
  match mjoin (hd_error collations) with Some c => window_holds (first_texts tagged) c | None => True end.

(** The path that carries the first key beside the index: it sorts, or it
    leaves the rows alone. *)
Lemma inline_path_sorts workers tries held tagged :
  unstable_sorts -> Succeeds ∈ tries -> keyed_rows tagged -> windows_decide tagged -> Z.of_nat (length tagged) < 2 ^ 32 ->
  exists sorted, sort_tagged_by_inline_int_key sort_unstable_by tagged descs collations workers tries held =
    Some (sorted, if sorted : bool then sort_by (row_cmp descs collations) tagged else tagged).
Proof.
  intros Hu Ht Hk Hwin Hn. unfold sort_tagged_by_inline_int_key. destruct (Nat.ltb_spec (length tagged) 2) as [H2|H2].
  { exists true. by destruct tagged as [|x [|y l]]; [..|cbn in H2; lia]. }
  destruct (existsb (fun t => (length t.1 =? 0)%nat) tagged) eqn:E0; [by exists false|].
  destruct (inline_first _ _) as [[order exact]|] eqn:Ei; [|by exists false]. exists true.
  assert (exists t0 rest, tagged = t0 :: rest) as (t0 & rest & Et) by (destruct tagged as [|t0 rest]; [cbn in H2; lia|by exists t0, rest]).
  assert (exists kd kds', kds = kd :: kds') as (kd & kds' & Hkds).
  { destruct kds as [|kd kds'] eqn:Ek; [|by exists kd, kds']. exfalso. rewrite Et in Hk, E0. apply Forall_cons in Hk as [Hk _].
    apply keyed_length in Hk. rewrite Ek in Hk. cbn in E0, Hk. by rewrite Hk in E0. }
  assert (forall i, (i < length tagged)%nat -> keyed_row kds collations (keys_at tagged i)) as Hkeys.
  { intros i Hi. destruct (lookup_lt_is_Some_2 tagged i Hi) as [t Hi']. unfold keys_at. rewrite Hi'. exact (proj1 (Forall_lookup _ _) Hk i t Hi'). }
  assert (map (fun t => hd K.NullBig t.1) tagged = map (fun i => hd K.NullBig (keys_at tagged i)) (seq 0 (length tagged))) as Hh.
  { rewrite <-(nth_all tagged t0) at 1. rewrite map_map. apply map_ext_in. intros i Hi%in_seq. unfold keys_at.
    destruct (lookup_lt_is_Some_2 tagged i ltac:(lia)) as [t Hi']. rewrite Hi'. by rewrite (nth_lookup_Some _ _ t0 _ Hi'). }
  assert (forall i k, (i < length tagged)%nat -> hd K.NullBig (keys_at tagged i) = K.Text k -> first_texts tagged (as_str k)) as HP.
  { intros i k Hi E. destruct (lookup_lt_is_Some_2 tagged i Hi) as [t Hi']. unfold keys_at in E. rewrite Hi' in E. exists t. split; [by eapply list_elem_of_lookup_2|by exists k]. }
  rewrite Hh in Ei. set (desc := default false (hd_error descs)). set (by_word := fun x y => then_with (by_key desc x y) (by_index x y)).
  assert (total_on by_word (fun _ => True)) as Hw by apply total_with_index, total_by_key.
  assert (sort_total by_word (sort_unstable_by by_word) workers tries held order = Some (sort_by (by_key desc) order)) as ->.
  { unfold sort_total. rewrite (sort_in_sorts by_word _ (fun _ => True) Hw).
    - f_equal. apply (sort_by_positions _ snd (fun _ => True)); [apply total_by_key|by apply Forall_forall|by eapply words_ordered].
    - intros l. by apply (Hu by_word (fun _ => True)); [|apply Forall_forall].
    - intros l Hl. by apply (Hu by_word (fun _ => True)).
    - done.
    - by apply Forall_forall.
    - right. apply words_no_ties. }
  cbn [mbind option_bind].
  assert ((if existsb (fun t => negb (length t.1 =? 1)%nat) tagged || negb exact
    then settle same_key (fun x y => then_with (cmp_at tagged descs collations x y) (by_index x y)) [] (sort_by (by_key desc) order)
    else sort_by (by_key desc) order) = sort_by (cmp_at tagged descs collations) order) as ->.
  { destruct (existsb _ tagged || negb exact) eqn:Em.
    - by apply (words_settled_strictly (keys_at tagged) (length tagged) order exact kd kds' Hkds Hn Hkeys Ei (first_texts tagged) HP Hwin).
    - apply orb_false_iff in Em as [Em Ex]. apply (words_exact (keys_at tagged) (length tagged) order exact kd kds' Hkds Hn Hkeys Ei (first_texts tagged) HP Hwin); [by destruct exact|].
      rewrite Et in Hk, Em. apply Forall_cons in Hk as [Hk _]. apply keyed_length in Hk. rewrite Hkds in Hk. cbn in Em, Hk.
      apply orb_false_iff in Em as [Em _]. apply negb_false_iff, Nat.eqb_eq in Em. rewrite Hk in Em. by destruct kds'. }
  destruct (rows_ordered tagged t0 order) as [-> _]; [by eapply words_positions|]. done.
Qed.

(** [select_nth_unstable_by]: a permutation, no smaller than which is what
    follows the position and no greater what comes before. *)
Definition selects (select : nat -> (list OrderKey * Row -> list OrderKey * Row -> comparison) -> list (list OrderKey * Row) -> list (list OrderKey * Row)) : Prop :=
  forall n c (U : list OrderKey * Row -> Prop) l, total_on c U -> Forall U l -> (n < length l)%nat ->
    select n c l ≡ₚ l /\
    exists a p b, select n c l = a ++ p :: b /\ length a = n /\ Forall (fun x => c x p <> Gt) a /\ Forall (fun y => c p y <> Gt) b.

Lemma selects_split select n c U l : selects select -> total_on c U -> Forall U l -> (n < length l)%nat ->
  Forall (fun x => Forall (fun y => c x y <> Gt) (drop (S n) (select n c l))) (firstn (S n) (select n c l)).
Proof.
  intros Hs Hc Hl Hn. destruct (Hs n c U l Hc Hl Hn) as (Hp & a & p & b & E & <- & Ha & Hb).
  assert (Forall U (select (length a) c l)) as HU by by rewrite Hp. rewrite E in HU |- *. apply Forall_app in HU as [Ua Ub]. apply Forall_cons in Ub as [Up Ub].
  change (p :: b) with ([p] ++ b). rewrite app_assoc. rewrite take_app_length', drop_app_length' by (rewrite length_app; cbn; lia).
  apply Forall_app. split; [|by constructor]. apply Forall_forall. intros x Hx. apply Forall_forall. intros y Hy. rewrite Forall_forall in Ua, Ub, Ha, Hb.
  by apply (cmp_le_trans c U Hc x p y); auto.
Qed.

Lemma partial_sort_sorts select workers tries held tagged keep :
  unstable_sorts -> selects select -> Succeeds ∈ tries -> keyed_rows tagged -> windows_decide tagged -> Z.of_nat (length tagged) < 2 ^ 32 ->
  exists sorted, partial_sort_tagged_in sort_unstable_by select tagged keep descs collations workers tries held = Some sorted /\ sorted ⊆+ tagged /\
    match keep with
    | Some k =>
      if (k <? length tagged)%nat && (0 <? k)%nat then
        Forall2 (fun x y => row_cmp descs collations x y = Eq) sorted (firstn k (sort_by (row_cmp descs collations) tagged))
      else sorted = sort_by (row_cmp descs collations) tagged
    | None => sorted = sort_by (row_cmp descs collations) tagged
    end.
Proof.
  intros Hu Hsel Ht Hk Hwin Hn.
  assert ((let! (sorted, tagged) := sort_tagged_by_inline_int_key sort_unstable_by tagged descs collations workers tries held in
    if sorted : bool then Some tagged else sort_by_keys_in tagged descs collations workers tries held) = Some (sort_by (row_cmp descs collations) tagged)) as Hfull.
  { destruct (inline_path_sorts workers tries held tagged Hu Ht Hk Hwin Hn) as [sorted ->]. cbn [mbind option_bind]. destruct sorted; [done|].
    unfold sort_by_keys_in, sort_total_stable. apply (sort_in_sorts _ _ _ total_rows); [apply sort_by_perm|by apply sort_by_ordered, total_rows|done|done|by left]. }
  assert (sort_by (row_cmp descs collations) tagged ⊆+ tagged) as Hsub by by rewrite (sort_by_perm (row_cmp descs collations)).
  unfold partial_sort_tagged_in. rewrite Hfull. destruct keep as [k|]; [|by eexists].
  destruct ((k <? length tagged)%nat && (0 <? k)%nat) eqn:E; [|by eexists]. eexists. split; [done|].
  apply andb_prop in E as [E1%Nat.ltb_lt E2%Nat.ltb_lt].
  destruct (Hsel (k - 1)%nat _ _ tagged total_rows Hk ltac:(lia)) as [Hp _].
  pose proof (selects_split select (k - 1) _ _ tagged Hsel total_rows Hk ltac:(lia)) as Hsplit. replace (S (k - 1)) with k in Hsplit by lia.
  split; [|by apply (selected_prefix _ _ total_rows)]. rewrite (sort_by_perm (row_cmp descs collations)). rewrite <-Hp at 2. apply sublist_submseteq, sublist_take.
Qed.

(** C32: ORDER BY sorts.  For rows whose keys are of one kind to a position, where
    each collation that claims byte order for strings of digits and small
    letters has it, and the first eight bytes of the first keys, where they are
    digits and small letters, decide under the collation of that position: the
    path over machine words and the general one both answer the stable sort of
    the rows, on any number of threads; with a LIMIT the answer is rows of the
    input with the keys of the first rows of that sort.  The windows decide
    when no collation is declared first, and when its keys that travel as text
    are digits and small letters throughout, as a scan builds them
    ([window_holds_alnum]); [window_misorders] is a sort they do not decide. *)
Theorem order_by_sorts select workers tries held tagged keep :
  unstable_sorts -> selects select -> Succeeds ∈ tries -> keyed_rows tagged -> windows_decide tagged -> Z.of_nat (length tagged) < 2 ^ 32 ->
  exists sorted, partial_sort_tagged_in sort_unstable_by select tagged keep descs collations workers tries held = Some sorted /\ sorted ⊆+ tagged /\
    match keep with
    | Some k =>
      if (k <? length tagged)%nat && (0 <? k)%nat then
        Forall2 (fun x y => row_cmp descs collations x y = Eq) sorted (firstn k (sort_by (row_cmp descs collations) tagged))
      else sorted = sort_by (row_cmp descs collations) tagged
    | None => sorted = sort_by (row_cmp descs collations) tagged
    end.
Proof. apply partial_sort_sorts. Qed.
End Sorted.

(** ** A run, and where the window does not decide *)

(** A collation by code points. *)
#[export] Instance bytes_collator : Collator unit := {
  icu_compare := fun _ => list_cmp;
  icu_sort_key := fun _ s => if forallb (Z.ltb 0) s then Some s else None
}.

#[export] Instance bytes_laws : CollatorLaws unit.
Proof.
  split; cbn.
  - intros _. apply total_list_cmp.
  - intros _ s t k l. destruct (forallb _ s), (forallb _ t); try done. intros [= <-] [= <-]. done.
  - intros _ s k. destruct (forallb _ s) eqn:E; [|done]. intros [= <-]. apply Forall_forall. intros b Hb.
    rewrite forallb_forall in E. apply Z.ltb_lt, E. by apply list_elem_of_In.
Qed.

Definition bytes_order : Collated unit := mk_collated (Some tt) true.

Lemma sort_by_selects {Row} : selects (Row := Row) (fun _ c l => sort_by c l).
Proof.
  intros n c U l Hc Hl Hn. split; [apply sort_by_perm|]. pose proof (sort_by_ordered c U Hc l Hl) as Ho.
  assert (n < length (sort_by c l))%nat as [p Hp]%lookup_lt_is_Some_2 by by rewrite sort_by_perm.
  exists (firstn n (sort_by c l)), p, (drop (S n) (sort_by c l)). rewrite take_drop_middle by done. split; [done|].
  split; [rewrite length_take; apply lookup_lt_Some in Hp; lia|]. rewrite <-(take_drop_middle _ n p Hp) in Ho. apply StronglySorted_app in Ho as (Ha & _ & Ho).
  apply StronglySorted_inv in Ho as [_ Hb]. split; [|done]. apply Forall_forall. intros x Hx. apply Ha; [done|by left].
Qed.

Lemma sort_by_unstable : unstable_sorts (fun c l => sort_by c l).
Proof. intros c U l Hc Hl. split; [apply sort_by_perm|by apply (sort_by_ordered c U Hc)]. Qed.

(** Three texts that share their first eight bytes, a smaller one, and a NULL. *)
Definition sample_rows : list (list OrderKey * Z) :=
  [([K.Text (new_known_alnum (lit "product02")); K.Int 5], 1); ([K.NullBig; K.Int 1], 2); ([K.Text (compact_new (lit "product01")); K.Int 9], 3);
   ([K.Text (new_known_alnum (lit "apple")); K.Int 0], 4); ([K.Text (new_known_alnum (lit "product02")); K.Int 4], 5)].

Lemma order_by_sorts_witness : exists sorted,
  partial_sort_tagged_in (fun c l => sort_by c l) (fun _ c l => sort_by c l) sample_rows None [true; false] [Some bytes_order] serial [Succeeds] 0 = Some sorted /\ sorted ⊆+ sample_rows /\
  sorted = sort_by (row_cmp [true; false] [Some bytes_order]) sample_rows.
Proof.
  apply (order_by_sorts (fun c l => sort_by c l) [KText; KInt] [true; false] [Some bytes_order]
    ltac:(by repeat constructor) (fun _ c l => sort_by c l) serial [Succeeds] 0 sample_rows None).
  - apply sort_by_unstable.
  - apply sort_by_selects.
  - by left.
  - assert (forall s, forallb (fun b => (0 <? b) && (b <? 256)) s && utf8_valid s = true -> text_ok s) as Ht.
    { intros s [H1 H2]%andb_prop. split; [done|]. apply Forall_forall. intros b Hb. rewrite forallb_forall in H1. specialize (H1 b ltac:(by apply list_elem_of_In)). lia. }
    assert (forall t, forallb (fun b => (0 <? b) && (b <? 256)) (as_str t) && utf8_valid (as_str t) && (negb (is_alnum t) || is_ascii_alnum_lower (as_str t)) = true ->
      typed (Some bytes_order) KText (K.Text t)) as Htt.
    { intros t [H1 H2]%andb_prop. right. exists (as_str t). split; [by apply Ht|]. split; [done|]. intros Ha. by rewrite Ha in H2. }
    assert (forall n, (I128_MIN <=? n) && (n <=? I128_MAX) = true -> typed None KInt (K.Int n)) as Hi by (intros n Hn; right; lia).
    unfold keyed_rows, sample_rows. repeat (apply Forall_cons_2; [split; [first [by apply Htt; vm_compute|by left]|split; [by apply Hi; vm_compute|done]]|]). constructor.
  - apply window_holds_alnum; [done|]. right. intros a (t & Ht & k & Ek & ->). unfold sample_rows in Ht.
    repeat (apply elem_of_cons in Ht as [->|Ht]; [first [discriminate Ek|injection Ek as <-; vm_compute; reflexivity]|]). by apply elem_of_nil in Ht.
  - by vm_compute.
Defined.

Example sample_order : option_map (map snd)
    (partial_sort_tagged_in (fun c l => sort_by c l) (fun _ c l => sort_by c l) sample_rows None [true; false] [Some bytes_order] serial [Succeeds] 0) =
  Some [2; 5; 1; 3; 4].
Proof. by vm_compute. Qed.

(** The window looks at eight bytes, and a combining mark may follow them: under
    a collation that sorts a letter with a ring after the others, as Swedish
    does, the words put the texts in the wrong order, and nothing settles it.
    A join hands the sort such texts: it builds its keys without collations. *)
Definition ringed : list Z := lit "aaaaaaaa" ++ [0xCC; 0x8A].
Definition plain : list Z := lit "aaaaaaab".

Lemma window_misorders {C} `{CO : Collator C} (c : C) (unstable : (Z * nat -> Z * nat -> comparison) -> list (Z * nat) -> list (Z * nat)) :
  unstable_sorts unstable -> icu_compare c ringed plain = Gt ->
  let self := mk_collated (Some c) true in
  let rows := [([K.Text (compact_new ringed)], 1); ([K.Text (compact_new plain)], 2)] in
  sort_tagged_by_inline_int_key unstable rows [] [Some self] serial [Succeeds] 0 = Some (true, rows) /\
  sort_by (row_cmp [] [Some self]) rows = rev rows.
Proof.
  intros Hu Hc self rows. assert (row_cmp (Row := Z) [] [Some self] ([K.Text (compact_new ringed)], 1) ([K.Text (compact_new plain)], 2) = Gt) as Hgt.
  { assert (compare self ringed plain = then_with (icu_compare c ringed plain) (then_with (variable_tiebreak ringed plain) (list_cmp ringed plain))) as E by done.
    rewrite Hc in E. change (then_with (compare self ringed plain) Eq = Gt). by rewrite E. }
  split; [|unfold rows; cbn [sort_by foldr insert_by]; by rewrite Hgt].
  unfold sort_tagged_by_inline_int_key. cbn [length Nat.ltb Nat.leb rows existsb fst negb orb Nat.eqb].
  assert (inline_first [Some self] (map (fun t => hd K.NullBig t.1) rows) = Some ([(be_val (padded 8 ringed), 0%nat); (be_val (padded 8 plain), 1%nat)], false)) as -> by by vm_compute.
  unfold sort_total. set (by_word := fun x y : Z * nat => then_with (by_key (default false (hd_error [])) x y) (by_index x y)).
  assert (total_on by_word (fun _ => True)) as Hw by apply total_with_index, total_by_key.
  rewrite (sort_in_sorts by_word _ (fun _ => True) Hw).
  - by vm_compute.
  - intros l. by apply (Hu by_word (fun _ => True)); [|apply Forall_forall].
  - intros l Hl. by apply (Hu by_word (fun _ => True)).
  - by left.
  - by apply Forall_forall.
  - right. apply words_no_ties.
Qed.
