(* ===== verification/OrderBuild.v ===== *)
(** The keys of a row under ORDER BY, built from its cells
    (crates/spg-engine/src/orderby.rs, value_to_order_key of select.rs), and the
    eight-byte window read from a cell before its key is built.

    Evaluating an expression, parsing a JSON document and the Unicode table of
    lower-case letters are arguments; subqueries in ORDER BY, which are replaced
    by their values first, are left out. *)
From Stdlib Require Import SpecFloat.
From S2P Require Import Prelude Bytes Text SortedMap Float64 Values NumericKey OrderKey.
Open Scope Z_scope.

(** ** The fold of a MySQL session (spg-storage/src/lib.rs) *)

Definition latin_bases : list (string * string) :=
  [("àáâãäåāăą", "a"); ("æ", "ae"); ("çćčĉċ", "c"); ("ðď", "d"); ("èéêëēĕėęě", "e"); ("ĝğġģ", "g"); ("ìíîïĩīĭį", "i"); ("ĵ", "j"); ("ķ", "k");
   ("łĺļľ", "l"); ("ñńņň", "n"); ("òóôõöøōŏő", "o"); ("œ", "oe"); ("ŕŗř", "r"); ("śšŝş", "s"); ("ß", "ss"); ("ţťŧ", "t");
   ("ùúûüũūŭůűų", "u"); ("ýÿ", "y"); ("źžż", "z")]%string.

(** The characters of valid UTF-8; [skip] counts the bytes left of one. *)
Fixpoint chars_go (skip : nat) (s : list Z) : list (list Z) :=
  match s with
  | [] => []
  | _ :: s' =>
    match skip with
    | S skip => chars_go skip s'
    | O => let n := default 1%nat (utf8_head s) in take n s :: chars_go (n - 1) s'
    end
  end.
Definition chars (s : list Z) : list (list Z) := chars_go 0 s.

Definition fold_latin_base (c : list Z) : option (list Z) :=
  (fun e => lit e.2) <$> List.find (fun e : string * string => bool_decide (c ∈ chars (lit e.1))) latin_bases.

Section Fold.
(** [char::to_lowercase], which may be several characters. *)
Context (to_lowercase : list Z -> list (list Z)).

Definition mysql_ci_fold (s : list Z) : list Z :=
  concat (map (fun ch => concat (map (fun lc => default lc (fold_latin_base lc)) (to_lowercase ch))) (chars s)).
Definition mysql_compare_fold (s : list Z) : list Z := mysql_ci_fold s.

(** [trim_end_matches(' ')] *)
Definition trim_spaces (s : list Z) : list Z :=
  (fix go s := match s with [] => [] | x :: s' => if forallb (fun c => c =? 0x20) s then [] else x :: go s' end) s.
Definition mysql_compare_fold_char (s : list Z) : list Z := mysql_ci_fold (trim_spaces s).
End Fold.

(** ** The key of a value *)

Inductive OrderError : Type := Unsupported | EvalFailed.

(** [f64::from] of the bits of an [f32]. *)
Definition f64_from_f32 (b : Z) : f64 :=
  let sign := Z.testbit b 31 in
  let e := (b / 2 ^ 23) mod 2 ^ 8 in
  let m := b mod 2 ^ 23 in
  if e =? 255 then (if m =? 0 then S754_infinity sign else S754_nan)
  else
    let x := if e =? 0 then binary_normalize 53 1024 m (-149) false else binary_normalize 53 1024 (m + 2 ^ 23) (e - 150) false in
    if sign then f_neg x else x.

Definition timetz_sort_key (us offset_secs : Z) : Z :=
  let utc := us - offset_secs * 1000000 in
  signed 64 ((utc * 2 ^ 17 - offset_secs) mod 2 ^ 64).

Definition be_bytes (n : nat) (x : Z) : list Z := rev (le_bytes n x).

(** [None]: the panic of a numeric key. *)
Definition keys_of {A} (f : A -> option OrderKey) (items : list (option A)) : outcome OrderKey OrderError :=
  let! keys := mapM (fun o => match o with None => Some K.NullBig | Some x => f x end) items in Some (Ok (K.Array keys)).

Definition bool_key (b : bool) : OrderKey := K.Int (if b then 1 else 0).

Section Build.
Context {C : Type} `{CO : Collator C}.
Context (json_parse : list Z -> option JsonValue) (to_lowercase : list Z -> list (list Z)).

Fixpoint value_to_order_key (v : Value) : outcome OrderKey OrderError :=
  let ok k := Some (Ok k) in
  match v with
  | V.Text s => ok (K.Text (compact_new s))
  | V.BpChar s => ok (K.Text (compact_new (trim_spaces s)))
  | V.Json s => ok (match json_parse s with Some jv => K.Json jv | None => K.Text (compact_new s) end)
  | V.Bytes b | V.Uuid b | V.Macaddr b | V.Macaddr8 b => ok (K.Bytes b)
  | V.NumericBig b => let! k := from_big b in ok (K.Numeric k)
  | V.PgLsn l => ok (K.Bytes (be_bytes 8 l))
  | V.Inet family bits addr | V.Cidr family bits addr => ok (K.Bytes ([family] ++ addr ++ [bits]))
  | V.IntArray a | V.SmallIntArray a | V.BigIntArray a | V.DateArray a => keys_of (fun n => Some (K.Int n)) a
  | V.BoolArray a => keys_of (fun b => Some (bool_key b)) a
  | V.TextArray a => keys_of (fun s => Some (K.Text (compact_new s))) a
  | V.FloatArray a => keys_of (fun x => Some (K.Num (from_bits x))) a
  | V.NumericArray a => keys_of (fun '(m, s) => let! k := from_numeric m s NumericKind.Finite in Some (K.Numeric k)) a
  | V.Composite fields =>
    let!? keys := (fix go fields : outcome (list OrderKey) OrderError :=
      match fields with
      | [] => Some (Ok [])
      | (_, fv) :: fields =>
        let!? k := value_to_order_key fv in
        let!? keys := go fields in
        Some (Ok (k :: keys))
      end) fields in
    ok (K.Array keys)
  | V.SmallInt n | V.Int n | V.BigInt n | V.Date n | V.Timestamp n | V.Time n | V.Year n | V.Money n => ok (K.Int n)
  | V.TimeTz us offset_secs => ok (K.Int (timetz_sort_key us offset_secs))
  | V.Null => ok K.NullBig
  | V.Range _ lower upper lower_inc upper_inc empty =>
    if empty then ok (K.Array [bool_key false])
    else
      let!? low := match lower with
                   | None => Some (Ok [K.Int 0])
                   | Some v => let!? k := value_to_order_key v in Some (Ok [K.Int 1; k; bool_key (negb lower_inc)])
                   end in
      let!? high := match upper with
                    | None => Some (Ok [K.Int 2])
                    | Some v => let!? k := value_to_order_key v in Some (Ok [K.Int 1; k; bool_key upper_inc])
                    end in
      ok (K.Array (bool_key true :: low ++ high))
  | V.Numeric scaled scale kind => let! k := from_numeric scaled scale kind in ok (K.Numeric k)
  | V.Float x => ok (K.Num (from_bits x))
  | V.Real x => ok (K.Num (f64_from_f32 x))
  | V.Bool b => ok (K.Num (f_of_Z (if b then 1 else 0)))
  | V.Interval months days micros _ => ok (K.Num (f_of_Z (months * 30 * 86400000000 + days * 86400000000 + micros)))
  | V.Char1 b => ok (K.Num (f_of_Z b))
  | V.RegClass oid _ | V.RegProc oid _ | V.RegType oid _ => ok (K.Int oid)
  | _ => Some (Err Unsupported)
  end.

(** ** The keys of a row *)

(** An item of ORDER BY: the value of its expression on a row's cells, the
    labels of the enum its column has if it is a bare column, and its order. *)
Record OrderBy : Type := mk_order_by {
  eval_expr : list Value -> result Value OrderError;
  enum_labels : option (list (list Z));
  o_desc : bool;
  nulls_first : option bool
}.

Definition enum_order_ordinal (o : OrderBy) (v : Value) : option f64 :=
  let! labels := enum_labels o in
  match v with
  | V.Text label => (fun p : nat * list Z => f_of_Z (Z.of_nat p.1)) <$> list_find (fun l => l = label) labels
  | _ => None
  end.

(** The text a collation looks at. *)
Definition text_of (v : Value) : option (list Z) := match v with V.Text t | V.BpChar t => Some t | _ => None end.

Definition mysql_fold_value (v : Value) : option (list Z) :=
  match v with
  | V.BpChar s => Some (mysql_compare_fold_char to_lowercase s)
  | V.Text s => Some (mysql_compare_fold to_lowercase s)
  | _ => None
  end.

(** One key: of the cell it is bound to, or of the expression. *)
Definition build_order_key (mysql_dialect mark_only : bool) (o : OrderBy) (bound : option nat) (col : option (Collated C)) (row : list Value)
  : outcome OrderKey OrderError :=
  let!? v := Some (match (let! p := bound in row !! p) with Some v => Ok v | None => eval_expr o row end) in
  if is_null v then
    let nf := default (if mysql_dialect then negb (o_desc o) else o_desc o) (nulls_first o) in
    Some (Ok (if Bool.eqb nf (o_desc o) then K.NullBig else K.NullSmall))
  else
    match enum_order_ordinal o v with
    | Some ord => Some (Ok (K.Num ord))
    | None =>
      match mysql_dialect, mysql_fold_value v, col with
      | true, Some folded, None => Some (Ok (K.Text (compact_new folded)))
      | _, _, _ =>
        match col, text_of v with
        | Some c, Some t =>
          if ascii_byte_order c && is_ascii_alnum_lower t then Some (Ok (K.Text (new_known_alnum t)))
          else match (if mark_only then None else sort_key_of c t) with Some k => Some (Ok (K.Bytes k)) | None => value_to_order_key v end
        | _, _ => value_to_order_key v
        end
      end
    end.

Fixpoint build_order_keys_in (mysql_dialect mark_only : bool) (order_by : list OrderBy) (bound : list (option nat)) (collations : list (option (Collated C)))
    (row : list Value) : outcome (list OrderKey) OrderError :=
  match order_by with
  | [] => Some (Ok [])
  | o :: order_by =>
    let!? k := build_order_key mysql_dialect mark_only o (mjoin (hd_error bound)) (mjoin (hd_error collations)) row in
    let!? keys := build_order_keys_in mysql_dialect mark_only order_by (tl bound) (tl collations) row in
    Some (Ok (k :: keys))
  end.
Definition build_order_keys_bound (mysql_dialect : bool) := build_order_keys_in mysql_dialect false.
End Build.

Arguments build_order_keys_bound {C CO} json_parse to_lowercase mysql_dialect order_by bound collations row.

(** ** The window of a row *)

Inductive PrefixKind : Type := PText | PInt.

Definition same_prefix_kind (a b : PrefixKind) : bool := match a, b with PText, PText | PInt, PInt => true | _, _ => false end.

(** [n.clamp(i64::MIN, i64::MAX) as u64 ^ (1 << 63)] *)
Definition int_prefix (n : Z) : Z :=
  let clamped := Z.max (- 2 ^ 63) (Z.min n (2 ^ 63 - 1)) in
  Z.lxor (clamped mod 2 ^ 64) (2 ^ 63).

Definition order_key_prefix (key : OrderKey) : option (PrefixKind * Z * bool) :=
  match key with
  | K.Text t => let '(bits, ordered) := text_prefix (as_str t) in Some (PText, bits, ordered)
  | K.Int n => Some (PInt, int_prefix n, true)
  | _ => None
  end.

(** Of the cell the first key is bound to, if it is bound. *)
Definition first_key_prefix (bound : list (option nat)) (row : list Value) : option (PrefixKind * Z * bool) :=
  let! idx := mjoin (hd_error bound) in
  let! v := row !! idx in
  match v with
  | V.Text t => let '(bits, ordered) := text_prefix t in Some (PText, bits, ordered)
  | V.SmallInt n | V.Int n | V.BigInt n | V.Date n | V.Timestamp n | V.Time n | V.Year n | V.Money n => Some (PInt, int_prefix n, true)
  | _ => None
  end.

Lemma as_str_new s : as_str (compact_new s) = s.
Proof. unfold compact_new. by case_match. Qed.

(** Outside a MySQL session and without a collation, the window is that of the
    key, unless the key is an enum's position. *)
Lemma window_is_of_key {C} `{CO : Collator C} json_parse to_lowercase o bound row k p :
  build_order_key (C := C) json_parse to_lowercase false false o (mjoin (hd_error bound)) None row = Some (Ok k) ->
  first_key_prefix bound row = Some p -> order_key_prefix k = Some p \/ exists x, k = K.Num x.
Proof.
  unfold build_order_key, first_key_prefix. intros Hk Hp. destruct (mjoin (hd_error bound)) as [idx|]; [|done]. cbn [mbind option_bind] in *.
  destruct (row !! idx) as [v|]; [|done]. cbn [mbind option_bind] in *. cbn [obind] in Hk.
  destruct (enum_order_ordinal o v) as [x|] eqn:E; [destruct v; try done; cbn [is_null] in Hk; injection Hk as <-; right; by eexists|]. left.
  destruct v; try done; cbn in Hk; injection Hk as <-; cbn [order_key_prefix]; rewrite ?as_str_new; exact Hp.
Qed.

(** In a MySQL session the key is of the folded text and the window is of the
    text: a row that comes first has a window that comes last. *)
Definition eclair : list Z := lit "Éclair".
Definition lower_ascii (c : list Z) : list (list Z) :=
  if bool_decide (c = lit "É") then [lit "é"] else [to_ascii_lowercase c].

Lemma mysql_window_differs {C} `{CO : Collator C} json_parse o :
  enum_labels o = None ->
  build_order_keys_bound (C := C) json_parse lower_ascii true [o] [Some 0%nat] [] [V.Text eclair] = Some (Ok [K.Text (compact_new (lit "eclair"))]) /\
  order_key_elem_cmp_in (C := C) (K.Text (compact_new (lit "eclair"))) (K.Text (compact_new (lit "m"))) None = Lt /\
  exists boundary window, order_key_prefix (K.Text (compact_new (lit "m"))) = Some (PText, boundary, true) /\
    first_key_prefix [Some 0%nat] [V.Text eclair] = Some (PText, window, false) /\ boundary < window.
Proof.
  intros E. split; [|split; [by vm_compute|]].
  - unfold build_order_keys_bound, build_order_keys_in, build_order_key, enum_order_ordinal. rewrite E. vm_compute. reflexivity.
  - eexists _, _. split; [vm_compute; reflexivity|]. split; [vm_compute; reflexivity|]. vm_compute. reflexivity.
Qed.
