(* ===== verification/TopN.v ===== *)
(** ORDER BY with LIMIT while the rows stream (crates/spg-engine/src/orderby.rs
    and the row loop of select.rs): the accumulator trimmed to the best rows, the
    boundary a row has to beat, and the eight-byte window in front of it. *)
From stdpp Require Import sorting.
From S2P Require Import Prelude Bytes Text SortedMap Values NumericKey ParSort OrderKey OrderBuild.
Open Scope Z_scope.

Section TopN.
Context {C : Type} `{CO : Collator C} {Row : Type}.
Abbreviation tagged_row := (list OrderKey * Row)%type.
Context (sort_unstable_by : (Z * nat -> Z * nat -> comparison) -> list (Z * nat) -> list (Z * nat)).
Context (select_nth_unstable_by : nat -> (tagged_row -> tagged_row -> comparison) -> list tagged_row -> list tagged_row).

Definition TRIM_FLOOR : nat := 1024%nat.

Definition no_collations : list (option (Collated C)) := [].

(** The rows kept and the keys of the worst of them; the buffers of the rows
    dropped are reused. *)
Definition topk_trim_recycling (tagged : list tagged_row) (keep : nat) (descs : list bool) (boundary : option (list OrderKey))
  : list tagged_row * option (list OrderKey) :=
  let trigger := ((keep * 2) `max` TRIM_FLOOR)%nat in
  if (0 <? keep)%nat && (trigger <=? length tagged)%nat then
    let kept := firstn keep (select_nth_unstable_by (keep - 1)%nat (row_cmp descs no_collations) tagged) in
    (kept, match kept !! (keep - 1)%nat with Some (keys, _) => Some keys | None => boundary end)
  else (tagged, boundary).

Definition topk_trim (tagged : list tagged_row) (keep : nat) (descs : list bool) : list tagged_row :=
  (topk_trim_recycling tagged keep descs None).1.

(** A scan under ORDER BY ... LIMIT, between two rows. *)
Record Scan : Type := mk_scan {
  tagged : list tagged_row;
  topk_boundary : option (list OrderKey);
  topk_boundary_prefix : option (PrefixKind * Z * bool);
  boundary_checks : Z;
  boundary_rejects : Z;
  boundary_check_on : bool
}.
Definition scan_start : Scan := mk_scan [] None None 0 0 true.

Definition BOUNDARY_WINDOW : Z := 8192.

Definition count_check (rejected : bool) (s : Scan) : Scan :=
  let checks := boundary_checks s + 1 in
  let rejects := boundary_rejects s + (if rejected then 1 else 0) in
  mk_scan (tagged s) (topk_boundary s) (topk_boundary_prefix s) checks rejects
    (if checks =? BOUNDARY_WINDOW then checks <=? rejects * 4 else boundary_check_on s).

Section Query.
Context (json_parse : list Z -> option JsonValue) (to_lowercase : list Z -> list (list Z)) (mysql_dialect : bool).
Context (keep : nat) (order_by : list OrderBy) (order_bound : list (option nat)) (order_colls : list (option (Collated C))).

Definition descs_of : list bool := map o_desc order_by.

Definition boundary_no_collation : bool := negb (any_collated order_colls).
Definition boundary_collations_permit : bool := boundary_no_collation || all_byte_ordered order_colls.

(** A row whose window loses to that of the boundary. *)
Definition window_rejects (s : Scan) (row : list Value) : bool :=
  boundary_check_on s && negb (default false (hd_error descs_of)) && (length order_by =? 1)%nat && boundary_collations_permit &&
  match topk_boundary_prefix s, first_key_prefix order_bound row with
  | Some (bkind, bp, boundary_is_ascii), Some (rkind, rp, row_is_ascii) =>
    same_prefix_kind bkind rkind && (boundary_no_collation || boundary_is_ascii && row_is_ascii) && (bp <? rp)
  | _, _ => false
  end.

(** The keys of a row against the boundary, and the accumulator. *)
Definition keep_or_lose (s : Scan) (keys : list OrderKey) (out : Row) : Scan :=
  let descs := descs_of in
  let '(s, loses) :=
    match boundary_check_on s, topk_boundary s with
    | true, Some b =>
      let loses := match cmp_multi_key_in keys b descs order_colls with Gt => true | _ => false end in
      (count_check loses s, loses)
    | _, _ => (s, false)
    end in
  if loses then s
  else
    let '(kept, boundary) := topk_trim_recycling (tagged s ++ [(keys, out)]) keep descs (topk_boundary s) in
    mk_scan kept boundary (let! b := boundary in let! k := hd_error b in order_key_prefix k)
      (boundary_checks s) (boundary_rejects s) (boundary_check_on s).

(** A row that passed WHERE, without DISTINCT and set-returning functions: its
    cells, and what it projects to. *)
Definition process_row (s : Scan) (r : list Value * Row) : outcome Scan OrderError :=
  let '(row, out) := r in
  if window_rejects s row then Some (Ok (count_check true s))
  else
    let!? keys := build_order_keys_bound json_parse to_lowercase mysql_dialect order_by order_bound order_colls row in
    Some (Ok (keep_or_lose s keys out)).

Fixpoint process_rows (s : Scan) (rows : list (list Value * Row)) : outcome Scan OrderError :=
  match rows with
  | [] => Some (Ok s)
  | r :: rows => let!? s := process_row s r in process_rows s rows
  end.

(** The whole scan, and the sort of what it kept. *)
Definition top_n (workers : Workers) (tries : list lease_try) (held : nat) (rows : list (list Value * Row)) : outcome (list tagged_row) OrderError :=
  let!? s := process_rows scan_start rows in
  let! sorted := partial_sort_tagged_in sort_unstable_by select_nth_unstable_by (tagged s) (Some keep) descs_of order_colls workers tries held in
  Some (Ok sorted).
End Query.
End TopN.

(** ** The best rows of a scan *)

Section Best.
Context {C : Type} `{CO : Collator C} `{CL : !CollatorLaws C} {Row : Type}.
Abbreviation tagged_row := (list OrderKey * Row)%type.
Context (select : nat -> (tagged_row -> tagged_row -> comparison) -> list tagged_row -> list tagged_row).
Context (Hselect : selects select).
Context (json_parse : list Z -> option JsonValue) (to_lowercase : list Z -> list (list Z)).
Context (kds : list kind) (keep : nat) (order_by : list OrderBy) (order_bound : list (option nat)).
Let descs : list bool := descs_of order_by.

Abbreviation keys_cmp := (fun a b => cmp_multi_key_in a b descs (no_collations (C := C))).
Abbreviation rows_cmp := (row_cmp (Row := Row) descs (no_collations (C := C))).
Abbreviation keyed := (keyed_row kds (no_collations (C := C))).
Abbreviation keyed_rows := (Forall (fun t : tagged_row => keyed t.1)).

Lemma total_keys_plain : total_on keys_cmp keyed.
Proof. by apply total_keys. Qed.

Lemma total_rows_plain : total_on rows_cmp (fun t => keyed t.1).
Proof. apply (total_pull fst _ _ _ total_keys_plain). done. Qed.

(** How many rows are no worse than a key. *)
Definition count_le (z : list OrderKey) (l : list tagged_row) : nat := length (filter (fun x : tagged_row => keys_cmp x.1 z <> Gt) l).

Lemma count_app z a b : count_le z (a ++ b) = (count_le z a + count_le z b)%nat.
Proof. unfold count_le. by rewrite filter_app, length_app. Qed.

Lemma count_perm z a b : a ≡ₚ b -> count_le z a = count_le z b.
Proof. intros H. unfold count_le. by rewrite H. Qed.

Lemma count_all z l : Forall (fun x : tagged_row => keys_cmp x.1 z <> Gt) l -> count_le z l = length l.
Proof. intros H. unfold count_le. f_equal. induction H as [|x l Hx _ IH]; [done|]. by rewrite filter_cons, decide_True, IH. Qed.

Lemma count_none z l : Forall (fun x : tagged_row => keys_cmp x.1 z = Gt) l -> count_le z l = 0%nat.
Proof. intros H. unfold count_le. induction H as [|x l Hx _ IH]; [done|]. rewrite filter_cons, decide_False; [done|]. intros Hn. by apply Hn. Qed.

Lemma count_bound z l : (count_le z l <= length l)%nat.
Proof. unfold count_le. induction l as [|x l IH]; [done|]. rewrite filter_cons. case_decide; cbn; lia. Qed.

(** The same rows, as far as the first [keep] go. *)
Definition same_best (a b : list tagged_row) : Prop := forall z, keyed z -> (keep `min` count_le z a = keep `min` count_le z b)%nat.

Lemma count_at s : forall i x, keyed_rows s -> ordered rows_cmp s -> s !! i = Some x -> (i < count_le x.1 s)%nat.
Proof.
  intros i x Hs Ho Hx. rewrite <-(take_drop (S i) s), count_app, count_all.
  - rewrite length_take. apply lookup_lt_Some in Hx. lia.
  - apply Forall_forall. intros y Hy. rewrite (take_S_r _ _ _ Hx) in Hy. apply elem_of_app in Hy as [Hy|Hy%list_elem_of_singleton].
    + rewrite <-(take_drop_middle s i x Hx) in Ho. apply StronglySorted_app in Ho as [Ho _]. apply (Ho y x); [done|by left].
    + subst. rewrite (cmp_refl _ _ total_keys_plain); [done|]. by eapply (proj1 (Forall_lookup _ _) Hs).
Qed.

Lemma at_count s i z : keyed_rows s -> keyed z -> ordered rows_cmp s -> (i < count_le z s)%nat -> exists y, s !! i = Some y /\ keys_cmp y.1 z <> Gt.
Proof.
  intros Hs Hz Ho Hi. destruct (lookup_lt_is_Some_2 s i) as [y Hy]; [pose proof (count_bound z s); lia|]. exists y. split; [done|]. intros E.
  rewrite <-(take_drop_middle s i y Hy) in Ho. apply StronglySorted_app in Ho as (_ & _ & Ho). apply StronglySorted_inv in Ho as [_ Ho].
  rewrite <-(take_drop i s), count_app, (count_none z (drop i s)) in Hi.
  - pose proof (count_bound z (take i s)). rewrite length_take in *. lia.
  - rewrite (drop_S _ _ _ Hy). assert (keyed y.1) as Uy by by eapply (proj1 (Forall_lookup _ _) Hs).
    constructor; [done|]. apply Forall_forall. intros w Hw. rewrite Forall_forall in Ho. specialize (Ho w Hw).
    assert (keyed w.1) as Uw. { rewrite Forall_forall in Hs. apply Hs. rewrite <-(take_drop (S i) s). apply elem_of_app. by right. }
    apply (cmp_gt _ _ total_keys_plain) in E; [|done..]. rewrite (cmp_flip _ _ total_keys_plain z w.1) by done.
    by rewrite (cmp_lt_le _ _ total_keys_plain z y.1 w.1).
Qed.

Lemma same_best_sorted a b : keyed_rows a -> keyed_rows b -> same_best a b ->
  Forall2 (fun x y => rows_cmp x y = Eq) (firstn keep (sort_by rows_cmp a)) (firstn keep (sort_by rows_cmp b)).
Proof.
  intros Ha Hb Hab.
  assert (forall a b, keyed_rows a -> keyed_rows b -> same_best a b -> forall i x, (i < keep)%nat -> sort_by rows_cmp a !! i = Some x ->
    exists y, sort_by rows_cmp b !! i = Some y /\ keys_cmp y.1 x.1 <> Gt) as H.
  { clear a b Ha Hb Hab. intros a b Ha Hb Hab i x Hi Hx. pose proof (sort_by_U rows_cmp _ a Ha) as Sa. pose proof (sort_by_U rows_cmp _ b Hb) as Sb.
    assert (keyed x.1) as Ux by by eapply (proj1 (Forall_lookup _ _) Sa).
    apply at_count; [done|done|by apply (sort_by_ordered _ _ total_rows_plain)|].
    apply count_at in Hx; [|done|by apply (sort_by_ordered _ _ total_rows_plain)]. specialize (Hab x.1 Ux).
    rewrite (count_perm x.1 _ a (sort_by_perm _ _)) in Hx. rewrite (count_perm x.1 _ b (sort_by_perm _ _)). lia. }
  pose proof (sort_by_U rows_cmp _ a Ha) as Sa. pose proof (sort_by_U rows_cmp _ b Hb) as Sb.
  apply Forall2_same_length_lookup_2.
  - assert (forall a b, keyed_rows a -> keyed_rows b -> same_best a b -> (length (firstn keep (sort_by rows_cmp a)) <= length (firstn keep (sort_by rows_cmp b)))%nat) as Hl.
    { intros a' b' Ha' Hb' Hab'. destruct (decide (length (firstn keep (sort_by rows_cmp a')) = 0%nat)) as [->|Hn]; [lia|]. rewrite !length_take in Hn |- *.
      assert (exists j, j = (keep `min` length (sort_by rows_cmp a') - 1)%nat) as [j Hj] by by eexists.
      destruct (lookup_lt_is_Some_2 (sort_by rows_cmp a') j ltac:(lia)) as [x Hx].
      destruct (H a' b' Ha' Hb' Hab' j x ltac:(lia) Hx) as (y & Hy & _). apply lookup_lt_Some in Hy. rewrite ?length_take. lia. }
    apply Nat.le_antisymm; [by apply Hl|apply Hl; [done|done|]]. intros z Hz. by rewrite Hab.
  - intros i x y Hx Hy. apply lookup_take_Some in Hx as [Hx Hi], Hy as [Hy _].
    destruct (H a b Ha Hb Hab i x Hi Hx) as (y' & Hy' & Hle). rewrite Hy in Hy'. injection Hy' as <-.
    destruct (H b a Hb Ha) with (i := i) (x := y) as (x' & Hx' & Hge); [by intros z Hz; rewrite Hab|done|done|]. rewrite Hx in Hx'. injection Hx' as <-.
    unfold row_cmp. assert (keyed x.1) as Ux by by eapply (proj1 (Forall_lookup _ _) Sa). assert (keyed y.1) as Uy by by eapply (proj1 (Forall_lookup _ _) Sb).
    rewrite (cmp_flip _ _ total_keys_plain x.1 y.1) in Hle by done. by destruct (cmp_multi_key_in x.1 y.1 descs no_collations).
Qed.
Lemma count_mono b z l : keyed_rows l -> keyed b -> keyed z -> keys_cmp b z <> Gt -> (count_le b l <= count_le z l)%nat.
Proof.
  intros Hl Hb Hz H. unfold count_le. induction Hl as [|x l Hx _ IH]; [done|]. rewrite !filter_cons.
  repeat case_decide; cbn; try (apply le_n_S; exact IH); try (apply le_S; exact IH); try exact IH.
  match goal with H : _ <> Gt, H' : _ = Gt |- _ => exfalso; revert H'; by apply (cmp_le_trans _ _ total_keys_plain x.1 b z) end.
Qed.

(** *** Trimming *)

Lemma trim_keeps l boundary : (0 < keep)%nat -> keyed_rows l ->
  let '(kept, boundary') := topk_trim_recycling select l keep descs boundary in
  keyed_rows kept /\ kept ⊆+ l /\ same_best kept l /\
  (boundary' = boundary /\ kept = l \/ exists b, boundary' = Some b /\ keyed b /\ (keep <= count_le b kept)%nat).
Proof.
  intros Hk Hl. unfold topk_trim_recycling. rewrite (proj2 (Nat.ltb_lt 0 keep) Hk). cbn [andb].
  destruct (Nat.leb_spec ((keep * 2) `max` TRIM_FLOOR) (length l)) as [Hn|_]; [|split_and!; [done|done|done|by left]].
  destruct (Hselect (keep - 1)%nat rows_cmp _ l total_rows_plain Hl ltac:(lia)) as (Hp & a & p & rest & E & Ha & Hlo & Hhi). rewrite E in Hp |- *.
  assert (keyed_rows (a ++ p :: rest)) as Hall by by rewrite Hp.
  change (p :: rest) with ([p] ++ rest) in *. rewrite app_assoc in *. apply Forall_app in Hall as [Hkept Hrest].
  assert (length (a ++ [p]) = keep) as Hlen by (rewrite length_app; cbn; lia). rewrite take_app_length' by lia.
  assert ((a ++ [p]) !! (keep - 1)%nat = Some p) as -> by (rewrite lookup_app_r, Ha, Nat.sub_diag by lia; done). destruct p as [b out].
  assert (keyed b) as Ub by by apply Forall_app in Hkept as [_ [? _]%Forall_cons].
  assert (Forall (fun x : tagged_row => keys_cmp x.1 b <> Gt) (a ++ [(b, out)])) as Hle.
  { apply Forall_app. split; [exact Hlo|]. constructor; [|constructor]. cbn. by rewrite (cmp_refl _ _ total_keys_plain). }
  split_and!; [done|rewrite <-Hp; apply submseteq_inserts_r; done| |right; exists b; split_and!; [done|done|by rewrite count_all, Hlen]].
  intros z Hz. rewrite <-(count_perm z _ _ Hp), (count_app z (a ++ [(b, out)]) rest). destruct (decide (keys_cmp b z = Gt)) as [Eb|Eb].
  - rewrite (count_none z rest), Nat.add_0_r; [done|]. apply Forall_forall. intros y Hy. rewrite Forall_forall in Hhi, Hrest. specialize (Hhi y Hy). specialize (Hrest y Hy).
    apply (cmp_gt _ _ total_keys_plain) in Eb; [|done..]. rewrite (cmp_flip _ _ total_keys_plain z y.1) by done. unfold row_cmp in Hhi. cbn in Hhi.
    by rewrite (cmp_lt_le _ _ total_keys_plain z b y.1).
  - pose proof (count_mono b z (a ++ [(b, out)]) Hkept Ub Hz Eb) as Hm. rewrite (count_all b) in Hm by done. lia.
Qed.

(** *** The boundary *)

Lemma reject_keeps b rows seen x : keyed_rows rows -> keyed b -> keyed x.1 -> (keep <= count_le b rows)%nat -> keys_cmp x.1 b = Gt ->
  same_best rows seen -> same_best rows (seen ++ [x]).
Proof.
  intros Hr Hb Hx Hc Hgt Hs z Hz. rewrite count_app. specialize (Hs z Hz). destruct (decide (keys_cmp x.1 z = Gt)) as [E|E].
  - rewrite (count_none z [x]) by by constructor. lia.
  - assert (keys_cmp b z <> Gt) as Hbz.
    { apply (cmp_gt _ _ total_keys_plain) in Hgt; [|done..]. by rewrite (cmp_lt_le _ _ total_keys_plain b x.1 z). }
    pose proof (count_mono b z rows Hr Hb Hz Hbz). lia.
Qed.

Lemma same_best_app a b x : same_best a b -> same_best (a ++ [x]) (b ++ [x]).
Proof. intros H z Hz. rewrite !count_app. specialize (H z Hz). lia. Qed.

Lemma same_best_trans a b d : same_best a b -> same_best b d -> same_best a d.
Proof. intros H1 H2 z Hz. by rewrite H1, H2. Qed.

Lemma int_prefix_value n : int_prefix n = Z.max (- 2 ^ 63) (Z.min n (2 ^ 63 - 1)) + 2 ^ 63.
Proof.
  unfold int_prefix. set (c := Z.max _ _). assert (- 2 ^ 63 <= c < 2 ^ 63) as Hc by (subst c; lia). clearbody c.
  assert (forall d, 0 <= d < 2 ^ 63 -> Z.lxor d (2 ^ 63) = d + 2 ^ 63) as Hx.
  { intros d Hd. rewrite Z.add_nocarry_lxor; [done|]. apply Z.bits_inj'. intros i Hi. rewrite Z.land_spec, Z.bits_0, Z.pow2_bits_eqb by lia.
    destruct (Z.eqb_spec 63 i) as [<-|]; [|by rewrite andb_false_r]. rewrite andb_true_r, Z.testbit_odd, Z.shiftr_div_pow2, Z.div_small by lia. done. }
  destruct (Z.le_gt_cases 0 c).
  - rewrite Z.mod_small by lia. apply Hx. lia.
  - assert (c mod 2 ^ 64 = (c + 2 ^ 63) + 2 ^ 63) as ->.
    { rewrite <-(Z_mod_plus_full c 1), Z.mod_small by lia. lia. }
    rewrite <-Hx, Z.lxor_assoc, Z.lxor_nilpotent, Z.lxor_0_r by lia. done.
Qed.

(** A window that loses. *)
Lemma prefix_loses kd a b ka pa oa pb ob : typed (C := C) None kd a -> typed None kd b ->
  order_key_prefix a = Some (ka, pa, oa) -> order_key_prefix b = Some (ka, pb, ob) -> pa < pb -> order_key_elem_cmp_in a b None = Lt.
Proof.
  intros Ta Tb Ea Eb Hlt. destruct a as [| | |n|t| | | |]; try done; destruct b as [| | |m|u| | | |]; try done; unfold order_key_prefix, text_prefix in Ea, Eb; simplify_eq.
  - rewrite !int_prefix_value in Hlt. cbn. apply Z.compare_lt_iff. lia.
  - destruct kd; destruct Ta as [Ta|Ta], Tb as [Tb|Tb]; try done. destruct Ta as [s Hs], Tb as [s' Hs'].
    rewrite (carried_order None _ _ s s') by done. destruct Hs as (Os & <- & _), Hs' as (Os' & <- & _). apply (padded_decides 8); auto using text_bytes.
    apply Z.compare_lt_iff in Hlt. rewrite be_val_order in Hlt by (rewrite ?length_padded; auto using padded_bytes, text_bytes). done.
Qed.
(** *** The scan *)

Context (order_colls : list (option (Collated C))) (Hplain : any_collated order_colls = false) (Hkeep : (0 < keep)%nat).

Lemma cmp_plain : forall colls, any_collated colls = false -> forall a b ds, cmp_multi_key_in a b ds colls = cmp_multi_key_in a b ds (no_collations (C := C)).
Proof.
  intros colls Hc a. revert colls Hc. induction a as [|x a IH]; intros colls Hc [|y b] ds; try done. cbn [cmp_multi_key_in].
  destruct colls as [|[c|] colls]; [done|done|]. cbn [hd_error mjoin tl]. by rewrite IH.
Qed.

Lemma keyed_plain : forall colls, any_collated colls = false -> forall ks l, keyed_row ks colls l <-> keyed_row ks (no_collations (C := C)) l.
Proof.
  intros colls Hc ks. revert colls Hc. induction ks as [|k ks IH]; intros colls Hc [|x l]; try done. cbn [keyed_row].
  destruct colls as [|[c|] colls]; [done|done|]. cbn [hd_error mjoin tl]. by rewrite IH.
Qed.

(** A row as the scan meets it, with the keys it has. *)
Definition has_keys (r : list Value * Row) (t : tagged_row) : Prop :=
  build_order_keys_bound json_parse to_lowercase false order_by order_bound order_colls r.1 = Some (Ok t.1) /\ r.2 = t.2 /\ keyed t.1.

Definition scan_ok (s : Scan) (seen : list tagged_row) : Prop :=
  keyed_rows (tagged s) /\ tagged s ⊆+ seen /\ same_best (tagged s) seen /\
  (topk_boundary_prefix s = let! b := topk_boundary s in let! k := hd_error b in order_key_prefix k) /\
  match topk_boundary s with Some b => keyed b /\ (keep <= count_le b (tagged s))%nat | None => True end.

Lemma count_check_ok rejected s seen : scan_ok s seen -> scan_ok (count_check rejected s) seen.
Proof. done. Qed.

Lemma first_uncollated : mjoin (hd_error order_colls) = None.
Proof. destruct order_colls as [|[c|] colls]; [done|done|done]. Qed.

Lemma window_loses s seen r t :
  scan_ok s seen -> has_keys r t -> window_rejects (C := C) order_by order_bound order_colls s r.1 = true ->
  exists b, topk_boundary s = Some b /\ keys_cmp t.1 b = Gt.
Proof.
  intros (_ & _ & _ & Hp & Hb) (Hkeys & _ & Hk) H. unfold window_rejects, boundary_collations_permit, boundary_no_collation in H. rewrite Hplain, Hp in H. cbn [negb orb andb] in *.
  apply andb_prop in H as [H Hw]. apply andb_prop in H as [H _]. apply andb_prop in H as [[_ Hd]%andb_prop Hn%Nat.eqb_eq].
  destruct (topk_boundary s) as [b|]; [|done]. cbn [mbind option_bind] in Hw. destruct (hd_error b) as [kb|] eqn:Eb; [|done]. cbn [mbind option_bind] in Hw.
  destruct (order_key_prefix kb) as [[[bk bp] ba]|] eqn:Epb; [|done]. destruct (first_key_prefix order_bound r.1) as [[[rk rp] ra]|] eqn:Erp; [|done].
  apply andb_prop in Hw as [[Hs _]%andb_prop Hlt%Z.ltb_lt].
  assert (bk = rk) as -> by by destruct bk, rk. exists b. split; [done|]. destruct Hb as [Hb _].
  fold descs in Hd. assert (exists o, order_by = [o]) as [o Eo] by (destruct order_by as [|o [|]]; try done; by exists o).
  unfold build_order_keys_bound in Hkeys. rewrite Eo in Hkeys. cbn [build_order_keys_in] in Hkeys. rewrite first_uncollated in Hkeys.
  destruct (build_order_key _ _ _ _ _ _ _ _) as [[kr|]|] eqn:Ekr; [|done..]. cbn [obind] in Hkeys. injection Hkeys as Et. destruct t as [keys out]. cbn [fst] in *. subst keys.
  destruct b as [|kb' b]; [done|]. cbn in Eb. injection Eb as ->.
  destruct kds as [|kd [|]]; try done; [|by destruct Hk]. cbn [keyed_row hd_error mjoin tl no_collations] in Hk, Hb. destruct Hk as [Tr _], Hb as [Tb Hb]. destruct b; [|done].
  destruct (window_is_of_key json_parse to_lowercase o order_bound r.1 kr _ Ekr Erp) as [Epr|[x ->]].
  - pose proof (prefix_loses kd kb kr rk bp ba rp ra Tb Tr Epb Epr Hlt) as Hl.
    assert (order_key_elem_cmp_in (C := C) kr kb None = Gt) as Hg by by rewrite (cmp_flip _ _ (total_typed None kd I) kb kr), Hl.
    apply negb_true_iff in Hd. change (then_with (if default false (hd_error descs) then CompOpp (order_key_elem_cmp_in (C := C) kr kb None) else order_key_elem_cmp_in (C := C) kr kb None) Eq = Gt).
    by rewrite Hd, Hg.
  - exfalso. destruct kb; try done; destruct kd; destruct Tr as [Tr|Tr], Tb as [Tb|Tb]; try done; by destruct Tr as (s' & _ & []).
Qed.

Lemma keep_or_lose_ok s seen keys out : scan_ok s seen -> keyed keys ->
  scan_ok (keep_or_lose select keep order_by order_colls s keys out) (seen ++ [(keys, out)]).
Proof.
  intros Hs Hk. unfold keep_or_lose. fold descs.
  assert (forall s', tagged s' = tagged s -> topk_boundary s' = topk_boundary s -> scan_ok (let '(kept, boundary) := topk_trim_recycling select (tagged s' ++ [(keys, out)]) keep descs (topk_boundary s') in
      mk_scan kept boundary (let! b := boundary in let! k := hd_error b in order_key_prefix k) (boundary_checks s') (boundary_rejects s') (boundary_check_on s')) (seen ++ [(keys, out)])) as Hpush.
  { intros s' Et Eb. rewrite Et, Eb. destruct Hs as (H1 & H0 & H2 & H3 & H4).
    pose proof (trim_keeps (tagged s ++ [(keys, out)]) (topk_boundary s) Hkeep ltac:(by apply Forall_app; split; [done|constructor])) as Ht.
    destruct (topk_trim_recycling _ _ _ _ _) as [kept boundary]. destruct Ht as (Ht1 & Ht0 & Ht2 & Ht3). unfold scan_ok. cbn [tagged topk_boundary topk_boundary_prefix].
    split_and!; [done|etrans; [exact Ht0|by apply submseteq_app]|by eapply same_best_trans, same_best_app|done|]. destruct Ht3 as [[-> ->]|(b & -> & Hb)]; [|done].
    destruct (topk_boundary s) as [b|]; [|done]. destruct H4 as [Hb Hc]. split; [done|]. rewrite count_app. lia. }
  destruct (boundary_check_on s); [|by apply Hpush]. destruct (topk_boundary s) as [b|] eqn:Eb; [|by apply Hpush].
  rewrite (cmp_plain _ Hplain). destruct (cmp_multi_key_in keys b descs no_collations) eqn:Ec; try (apply Hpush; [done|by rewrite <-Eb]).
  apply count_check_ok. destruct Hs as (H1 & H0 & H2 & H3 & H4). unfold scan_ok. rewrite Eb in *. destruct H4 as [Hb Hc].
  split_and!; try done; [by apply submseteq_inserts_r|by apply (reject_keeps b)].
Qed.

Lemma process_row_ok s seen r t : scan_ok s seen -> has_keys r t ->
  exists s', process_row select json_parse to_lowercase false keep order_by order_bound order_colls s r = Some (Ok s') /\ scan_ok s' (seen ++ [t]).
Proof.
  intros Hs Hr. destruct r as [row out]. unfold process_row. destruct (window_rejects _ _ _ s row) eqn:Ew.
  - eexists. split; [done|]. apply count_check_ok. destruct (window_loses s seen (row, out) t Hs Hr Ew) as (b & Eb & Hgt).
    destruct Hs as (H1 & H0 & H2 & H3 & H4), Hr as (_ & _ & Hk). unfold scan_ok. rewrite Eb in *. destruct H4 as [Hb Hc].
    split_and!; try done; [by apply submseteq_inserts_r|by apply (reject_keeps b)].
  - destruct t as [keys out'], Hr as (Hkeys & Hout & Hk). cbn [fst snd] in *. subst out'. rewrite Hkeys. cbn [obind]. eexists. split; [done|]. by apply keep_or_lose_ok.
Qed.

Lemma scan_keeps rows all : Forall2 has_keys rows all -> forall s seen, scan_ok s seen ->
  exists s', process_rows select json_parse to_lowercase false keep order_by order_bound order_colls s rows = Some (Ok s') /\ scan_ok s' (seen ++ all).
Proof.
  induction 1 as [|r t rows all Hr _ IH]; intros s seen Hs; cbn [process_rows]; [rewrite app_nil_r; by eexists|].
  destruct (process_row_ok s seen r t Hs Hr) as (s1 & -> & Hs1). cbn [obind]. change (t :: all) with ([t] ++ all). rewrite app_assoc. by apply IH.
Qed.
Lemma tied_trans l1 : forall l2 l3, keyed_rows l1 -> keyed_rows l2 -> keyed_rows l3 ->
  Forall2 (fun x y => rows_cmp x y = Eq) l1 l2 -> Forall2 (fun x y => rows_cmp x y = Eq) l2 l3 -> Forall2 (fun x y => rows_cmp x y = Eq) l1 l3.
Proof.
  intros l2 l3 H1 H2 H3 T. revert l3 H1 H2 H3. induction T as [|x y l1 l2 E _ IH]; intros l3 H1 H2 H3 T'; [by inversion T'|].
  inversion T' as [|y' z l2' l3' E' T'' Ea Eb]; subst. apply Forall_cons in H1 as [U1 H1], H2 as [U2 H2], H3 as [U3 H3].
  constructor; [by rewrite (cmp_tied _ _ total_rows_plain x y z)|by apply IH].
Qed.
End Best.

(** C33: LIMIT without the whole sort.  Outside a MySQL session and where no
    collation is declared, for rows whose keys, as built from their cells, are
    of one kind to a position: a scan that trims what it holds, turns rows away
    by the worst row it keeps and, before their key is built, by the first eight
    bytes of the cell of their key, answers rows of the input with the keys,
    position by position, of the first rows of the stable sort of everything it
    read.  ([mysql_window_differs]: in a MySQL session the key is of the folded
    text and the window is not.) *)
Theorem top_n_streams {C} `{CO : Collator C} `{CL : !CollatorLaws C} {Row : Type}
  sort_unstable_by (select : nat -> (list OrderKey * Row -> list OrderKey * Row -> comparison) -> list (list OrderKey * Row) -> list (list OrderKey * Row))
  json_parse to_lowercase kds keep order_by order_bound (order_colls : list (option (Collated C))) workers tries held rows all :
  unstable_sorts sort_unstable_by -> selects select -> Succeeds ∈ tries -> any_collated order_colls = false -> (0 < keep)%nat ->
  Forall2 (has_keys json_parse to_lowercase kds order_by order_bound order_colls) rows all -> Z.of_nat (length rows) < 2 ^ 32 ->
  exists sorted, top_n sort_unstable_by select json_parse to_lowercase false keep order_by order_bound order_colls workers tries held rows = Some (Ok sorted) /\ sorted ⊆+ all /\
    Forall2 (fun x y => row_cmp (descs_of order_by) order_colls x y = Eq) (firstn keep sorted) (firstn keep (sort_by (row_cmp (descs_of order_by) order_colls) all)).
Proof.
  intros Hu Hsel Ht Hplain Hk Hrows Hn. set (descs := descs_of order_by).
  assert (forall l : list (list OrderKey * Row), sort_by (row_cmp descs order_colls) l = sort_by (row_cmp descs no_collations) l) as Hsort.
  { intros l. rewrite <-(map_id (sort_by (row_cmp descs order_colls) l)), (sort_by_map id _ (row_cmp descs no_collations)); [by rewrite map_id|].
    intros x y _ _. by apply cmp_plain. }
  destruct (scan_keeps select Hsel json_parse to_lowercase kds keep order_by order_bound order_colls Hplain Hk rows all Hrows scan_start [] ltac:(done)) as (s & Es & H1 & H0 & H2 & _ & _). cbn [app] in H0, H2.
  pose proof (submseteq_length _ _ H0) as Hlen. rewrite <- (Forall2_length _ _ _ Hrows) in Hlen.
  unfold top_n. rewrite Es. cbn [obind]. fold descs. set (kept := tagged _) in *.
  assert (Forall (fun t : list OrderKey * Row => keyed_row kds no_collations t.1) all) as H3.
  { eapply Forall2_Forall_r; [exact Hrows|]. apply Forall_true. by intros r t (_ & _ & Hr). }
  assert (Forall collation_ok order_colls) as Hlaw.
  { clear -Hplain. induction order_colls as [|[c|] cols IH]; [constructor|done|]. constructor; [done|by apply IH]. }
  destruct (partial_sort_sorts sort_unstable_by kds descs order_colls Hlaw select workers tries held kept (Some keep) Hu Hsel Ht) as (sorted & -> & Hsub & Hs); [| |lia|].
  { unfold keyed_rows. eapply Forall_impl; [exact H1|]. intros t Ht'. by apply keyed_plain. }
  { unfold windows_decide. by rewrite (first_uncollated order_colls Hplain). }
  exists sorted. split; [done|]. split; [by etrans|]. apply (same_best_sorted kds) in H2; [fold descs in H2|done..].
  assert (forall l m, Forall2 (fun x y => row_cmp descs no_collations x y = Eq) l m -> Forall2 (fun x y : list OrderKey * Row => row_cmp descs order_colls x y = Eq) l m) as Hback.
  { intros l m H. eapply Forall2_impl; [exact H|]. intros x y E. unfold row_cmp in *. by rewrite (cmp_plain _ Hplain). }
  apply Hback. rewrite !Hsort in *. destruct ((keep <? length kept)%nat && (0 <? keep)%nat) eqn:E.
  - apply (tied_trans kds order_by _ (firstn keep (sort_by (row_cmp descs no_collations) kept))); [| | | |done].
    + apply Forall_take, Forall_forall. intros x Hx. rewrite Forall_forall in H1. by eapply H1, elem_of_submseteq.
    + by apply Forall_take, sort_by_U.
    + by apply Forall_take, sort_by_U.
    + rewrite take_ge; [|by rewrite (Forall2_length _ _ _ Hs), length_take; lia].
      eapply Forall2_impl; [exact Hs|]. intros x y Exy. unfold row_cmp in *. by rewrite <-(cmp_plain _ Hplain).
  - by rewrite Hs.
Qed.

(** ** A run *)

Definition by_cell : OrderBy := mk_order_by (fun row => match row with v :: _ => Ok v | [] => Err EvalFailed end) None false None.
Definition no_json (s : list Z) : option JsonValue := None.

Definition sample_scan : list (list Value * Z) := map (fun '(n, out) => ([V.Int n], out)) [(7, 1); (3, 2); (9, 3); (3, 4); (1, 5)].
Definition sample_keyed : list (list OrderKey * Z) := map (fun '(n, out) => ([K.Int n], out)) [(7, 1); (3, 2); (9, 3); (3, 4); (1, 5)].

Lemma top_n_streams_witness : exists sorted,
  top_n (C := unit) (fun c l => sort_by c l) (fun _ c l => sort_by c l) no_json lower_ascii false 3 [by_cell] [Some 0%nat] [None] serial [Succeeds] 0 sample_scan = Some (Ok sorted) /\
  sorted ⊆+ sample_keyed /\
  Forall2 (fun x y => row_cmp [false] [None] x y = Eq) (firstn 3 sorted) (firstn 3 (sort_by (row_cmp (C := unit) [false] [None]) sample_keyed)).
Proof.
  apply (top_n_streams (C := unit) (fun c l => sort_by c l) (fun _ c l => sort_by c l) no_json lower_ascii [KInt] 3 [by_cell] [Some 0%nat] [None] serial [Succeeds] 0 sample_scan sample_keyed).
  - apply sort_by_unstable.
  - apply sort_by_selects.
  - by left.
  - done.
  - lia.
  - assert (forall n out, (I128_MIN <=? n) && (n <=? I128_MAX) = true -> has_keys (C := unit) (Row := Z) no_json lower_ascii [KInt] [by_cell] [Some 0%nat] [None] ([V.Int n], out) ([K.Int n], out)) as H.
    { intros n out Hn. split; [done|]. split; [done|]. split; [right; cbn; lia|done]. }
    unfold sample_scan, sample_keyed. cbn [map]. repeat (constructor; [apply H; by vm_compute|]). constructor.
  - by vm_compute.
Defined.

Example sample_top : (let!? sorted := top_n (C := unit) (fun c l => sort_by c l) (fun _ c l => sort_by c l) no_json lower_ascii false 3 [by_cell] [Some 0%nat] [None] serial [Succeeds] 0 sample_scan in
    Some (Ok (map snd sorted))) = Some (Ok [5; 2; 4]).
Proof. by vm_compute. Qed.

(** The row that a MySQL session loses: whatever it holds, with [m] the worst
    row it keeps, it turns Éclair away without building its key. *)
Lemma mysql_loses_first_row {C} `{CO : Collator C} {Row} select json_parse keep (s : Scan (Row := Row)) (out : Row) :
  boundary_check_on s = true ->
  topk_boundary_prefix s = order_key_prefix (K.Text (compact_new (lit "m"))) ->
  process_row (C := C) select json_parse lower_ascii true keep [by_cell] [Some 0%nat] [] s ([V.Text eclair], out) = Some (Ok (count_check true s)).
Proof.
  intros H1 H3. unfold process_row, window_rejects. rewrite H1, H3.
  match goal with |- (if ?c then _ else _) = _ => assert (c = true) as -> by (vm_compute; reflexivity) end. done.
Qed.

(** ** Trimming ignores collations

    The trim compares the keys without their collations, so a text that travels
    as it is comes before every text that travels as a sort key, whatever the
    collation says.  Of 1024 rows, the first in the order asked for is dropped. *)
Definition apple : list Z := lit "Apple".
Definition banana : list Z := lit "banana".
Definition apple_row : list Value * Z := ([V.Text apple], 1).
Definition banana_row : list Value * Z := ([V.Text banana], 2).
Definition apple_keys (k : list Z) : list OrderKey * Z := ([K.Bytes k], 1).
Definition banana_keys : list OrderKey * Z := ([K.Text (new_known_alnum banana)], 2).

Lemma process_unbounded {C} `{CO : Collator C} {Row} select json_parse order_by bound (colls : list (option (Collated C))) (kept : list (list OrderKey * Row)) r keys :
  build_order_keys_bound json_parse lower_ascii false order_by bound colls r.1 = Some (Ok keys) ->
  process_row select json_parse lower_ascii false 1 order_by bound colls (mk_scan kept None None 0 0 true) r = Some (Ok (
  let '(kept, boundary) := topk_trim_recycling (C := C) select (kept ++ [(keys, r.2)]) 1 (descs_of order_by) None in
  mk_scan kept boundary (let! b := boundary in let! k := hd_error b in order_key_prefix k) 0 0 true)).
Proof.
  destruct r as [row out]. unfold process_row, window_rejects, keep_or_lose. cbn [topk_boundary_prefix boundary_check_on topk_boundary tagged boundary_checks boundary_rejects fst snd].
  rewrite andb_false_r. by intros ->.
Qed.

Lemma process_rows_app {C} `{CO : Collator C} {Row} select json_parse lower mysql keep order_by bound (colls : list (option (Collated C))) (rows1 rows2 : list (list Value * Row)) : forall s,
  process_rows select json_parse lower mysql keep order_by bound colls s (rows1 ++ rows2) =
  let!? s := process_rows select json_parse lower mysql keep order_by bound colls s rows1 in process_rows select json_parse lower mysql keep order_by bound colls s rows2.
Proof.
  induction rows1 as [|r rows1 IH]; intros s; [done|]. cbn [app process_rows]. destruct (process_row _ _ _ _ _ _ _ _ _ _) as [[s'|]|]; [apply IH|done..].
Qed.

Lemma trim_early {C} `{CO : Collator C} {Row} select (l : list (list OrderKey * Row)) b : (length l < TRIM_FLOOR)%nat -> topk_trim_recycling (C := C) select l 1 [false] b = (l, b).
Proof.
  intros H. unfold topk_trim_recycling. destruct (Nat.leb_spec ((1 * 2) `max` TRIM_FLOOR) (length l)) as [Hn|_]; [|done]. exfalso. lia.
Qed.

(** A key of the collation after a text, whatever they are of. *)
Definition form_rank (t : list OrderKey * Z) : Z := match t.1 with [K.Bytes _] => 1 | _ => 0 end.

Lemma total_forms {C} `{CO : Collator C} k t : total_on (row_cmp (C := C) [false] no_collations) (fun x => x = ([K.Bytes k], 1) \/ x = ([K.Text t], 2)).
Proof.
  apply (total_on_ext (fun x y => kcmp (form_rank x) (form_rank y))); [apply total_on_key|].
  assert (list_cmp k k = Eq) as Hk by apply (cmp_refl _ _ total_list_cmp k I).
  assert (compact_cmp t t = Eq) as Ht by apply (cmp_refl _ _ total_list_cmp _ I).
  intros x y [->| ->] [->| ->]; unfold row_cmp; cbn [fst cmp_multi_key_in order_key_elem_cmp_in hd_error no_collations mjoin]; try done.
  - change (then_with (list_cmp k k) Eq = Eq). by rewrite Hk.
  - change (then_with (compact_cmp t t) Eq = Eq). by rewrite Ht.
Qed.

Lemma trim_drops_the_answer {C} `{CO : Collator C} `{CL : !CollatorLaws C} (c : C) k n unstable
  (select : nat -> (list OrderKey * Z -> list OrderKey * Z -> comparison) -> list (list OrderKey * Z) -> list (list OrderKey * Z)) :
  let self := mk_collated (Some c) true in
  S n = TRIM_FLOOR -> selects select -> sort_key_of self apple = Some k -> icu_compare c apple banana = Lt ->
  build_order_keys_bound no_json lower_ascii false [by_cell] [Some 0%nat] [Some self] apple_row.1 = Some (Ok (apple_keys k).1) /\
  build_order_keys_bound no_json lower_ascii false [by_cell] [Some 0%nat] [Some self] banana_row.1 = Some (Ok banana_keys.1) /\
  top_n unstable select no_json lower_ascii false 1 [by_cell] [Some 0%nat] [Some self] serial [Succeeds] 0 (apple_row :: replicate n banana_row) = Some (Ok [banana_keys]) /\
  firstn 1 (sort_by (row_cmp [false] [Some self]) (apple_keys k :: replicate n banana_keys)) = [apple_keys k].
Proof.
  intros self Hn Hsel Hk Hlt. assert (2 <= TRIM_FLOOR)%nat as H2 by (unfold TRIM_FLOOR; lia). destruct n as [|m]; [lia|].
  assert (build_order_keys_bound no_json lower_ascii false [by_cell] [Some 0%nat] [Some self] apple_row.1 = Some (Ok (apple_keys k).1)) as Ka.
  { unfold build_order_keys_bound, build_order_keys_in, build_order_key. cbn [tl hd_error mjoin option_join mbind option_bind apple_row fst lookup list_lookup obind is_null by_cell enum_order_ordinal enum_labels].
    change (text_of (V.Text apple)) with (Some apple). cbv iota. cbn [ascii_byte_order self]. change (is_ascii_alnum_lower apple) with false. cbn [andb]. rewrite Hk. done. }
  assert (build_order_keys_bound no_json lower_ascii false [by_cell] [Some 0%nat] [Some self] banana_row.1 = Some (Ok banana_keys.1)) as Kb by done.
  split; [done|]. split; [done|]. set (go := process_rows select no_json lower_ascii false 1 [by_cell] [Some 0%nat] [Some self]).
  assert (forall n, (n <= m)%nat -> go (mk_scan [apple_keys k] None None 0 0 true) (replicate n banana_row) =
    Some (Ok (mk_scan (apple_keys k :: replicate n banana_keys) None None 0 0 true))) as Hfold.
  { intros n. induction n as [|n IH]; intros Hnm; [done|]. rewrite replicate_S_end. unfold go. rewrite process_rows_app. fold go. rewrite IH by lia. cbn [obind process_rows go].
    rewrite (process_unbounded _ _ _ _ _ _ _ _ Kb), trim_early by (rewrite length_app; cbn [length]; rewrite length_replicate; lia). by rewrite <-app_comm_cons, (replicate_S_end n banana_keys). }
  set (all := apple_keys k :: replicate (S m) banana_keys).
  assert (Forall (fun x => x = ([K.Bytes k], 1) \/ x = ([K.Text (new_known_alnum banana)], 2)) all) as Hall.
  { constructor; [by left|]. apply Forall_replicate. by right. }
  split.
  - unfold top_n. assert (replicate (S m) banana_row = replicate m banana_row ++ [banana_row]) as -> by apply replicate_S_end.
    cbn [process_rows]. unfold scan_start at 1. rewrite (process_unbounded _ _ _ _ _ _ _ _ Ka), trim_early by (cbn [app length]; lia). cbn [app mbind option_bind obind].
    rewrite process_rows_app. fold go. change ((apple_keys k).1, apple_row.2) with (apple_keys k). rewrite Hfold by lia. cbn [obind process_rows go].
    rewrite (process_unbounded _ _ _ _ _ _ _ _ Kb). change (banana_keys.1, banana_row.2) with banana_keys. assert ((apple_keys k :: replicate m banana_keys) ++ [banana_keys] = all) as ->.
    { unfold all. by rewrite replicate_S_end. }
    unfold topk_trim_recycling. assert (((1 * 2) `max` TRIM_FLOOR <=? length all)%nat = true) as ->.
    { apply Nat.leb_le. unfold all. cbn [length]. rewrite length_replicate. lia. }
    destruct (Hsel 0%nat _ _ all (total_forms k (new_known_alnum banana)) Hall) as (Hp & a & p & rest & E & Ha & _ & Hhi); [unfold all; cbn [length]; lia|].
    destruct a; [|done]. cbn [app] in E. cbn [Nat.ltb Nat.leb andb Nat.sub]. change (descs_of [by_cell]) with [false]. rewrite E in Hp |- *. cbn [firstn lookup list_lookup].
    assert (p = banana_keys) as ->; [|by vm_compute].
    assert (p ∈ all) as Hin by (rewrite <-Hp; by left). rewrite Forall_forall in Hall. destruct (Hall p Hin) as [->| ->]; [|done]. exfalso.
    assert (banana_keys ∈ rest) as Hb.
    { assert (banana_keys ∈ all) as Hb by (right; by left). rewrite <-Hp in Hb. by apply elem_of_cons in Hb as [|]. }
    rewrite Forall_forall in Hhi. by apply (Hhi _ Hb).
  - unfold all. change (sort_by ?f (?x :: ?l)) with (insert_by f x (sort_by f l)).
    assert (Forall (fun x => x = banana_keys) (sort_by (row_cmp [false] [Some self]) (replicate (S m) banana_keys))) as Hm.
    { eapply Forall_perm; [apply sort_by_perm|by apply Forall_replicate]. }
    destruct (sort_by _ (replicate (S m) banana_keys)) as [|y sorted]; [done|]. apply Forall_cons in Hm as [-> _].
    cbn [insert_by]. assert (row_cmp (C := C) [false] [Some self] (apple_keys k) banana_keys = Lt) as ->; [|done].
    assert (original_after_key k = Some apple) as Ho by (apply (original_of_key self apple); [|done]; split; [by vm_compute|by repeat constructor]).
    assert (compare self apple banana = Lt) as Hc.
    { change (then_with (icu_compare c apple banana) (then_with (variable_tiebreak apple banana) (list_cmp apple banana)) = Lt). by rewrite Hlt. }
    unfold row_cmp. cbn [fst apple_keys banana_keys snd cmp_multi_key_in hd_error mjoin order_key_elem_cmp_in]. rewrite Ho.
    change (then_with (compare self apple banana) Eq = Lt). by rewrite Hc.
Qed.
